(* ===== verification/_CoqProject ===== *)
-Q . S2P
Prelude.v
OMap.v
Json.v
JsonParse.v
Journal.v
JournalSafety.v
Store.v
LeaseStore.v
TaskStore.v
TaskGraph.v
TaskGraphFacts.v
TaskGraphLive.v
TaskGraphStore.v
AlertStore.v
AlertFacts.v
AlertPolicy.v
ApprovalStore.v
ApprovalFacts.v
ApprovalSafety.v
ExecAuth.v
ExecAuthFacts.v
EngagementStore.v
EngagementFacts.v
EngagementSafety.v
Ledger.v
Transcripts.v
Attribution.v
Reader.v
UsageFacts.v
ProjectSides.v
ProjectSideFacts.v
Seats.v
SessionPolicy.v
PendingInvites.v
Supervisor.v
RateLimit.v
PaneWatch.v
Reminders.v
DeliveryQueue.v
DeliveryFacts.v
QueueSafety.v
QueuePoll.v
QueueErrors.v
ProjectSideSecrecy.v
NotificationRouter.v
RouterFacts.v
RouterDelivery.v
RouterBreaker.v
Uri.v
AppserviceReceiver.v
AppserviceEdge.v
AppservicePuller.v
AppserviceFlow.v
AppserviceBooks.v
AppserviceWindow.v
SyncCollector.v
SyncFacts.v
SyncRelogin.v
SyncGaps.v
Backfill.v
SideProvenance.v
Ingress.v
IngressFacts.v
FleetStore.v
FleetClient.v
FleetFacts.v
FleetWork.v
FleetUpdates.v
FleetReady.v
FleetProtocol.v
FleetProtocolFacts.v
HttpProg.v
MatrixSide.v
MatrixSideFacts.v
MatrixWork.v
MatrixWorkFacts.v
DispatchRouter.v
DispatchProtocol.v
DispatchRouterFacts.v
RouterIntake.v
