(* ===== verification/Prelude.v ===== *)
(** * Hagency: a verification development

    Hagency is a JavaScript control plane for coding agents: one backend process that keeps tasks,
    alerts, tool approvals, engagements and usage figures, hands work to agents that run in terminal
    panes, and speaks Matrix to people. This library models the stores and policies that make its
    decisions and proves what each of them promises. It is a shallow embedding: a record per object
    of state, a function per operation with the guards and the order of effects of the code, and an
    explicit outcome of every write to disk.

    ** Parts and files

    Foundations.
    - [Prelude]: results of calls that may throw, record update, JS texts (trim, slice, case,
      comparison), numbers as rationals, lemmas and the tactics the other files share.
    - [OMap]: JS objects used as maps, in insertion order, and [parseInt].
    - [Json]: JSON values, truthiness, conversions and [JSON.stringify]; [JsonParse]: [JSON.parse] as
      a function on texts, its totality and its round trip with [JSON.stringify].
    - [Store]: what a save may do (done, reported false, thrown) and the outcome of a step.

    Work.
    - [LeaseStore] (src/dispatch-lease-store.mjs): which agent holds which request, and expiry.
    - [TaskStore] (lib/task-store.js): tasks, their life cycle, rollback and reload.
    - [TaskGraph] (lib/task-graph.js): admission of graphs, conditions, scheduling and the store;
      [TaskGraphFacts] the cycle check, [TaskGraphLive] scheduling, [TaskGraphStore] the store's
      invariant over runs.

    Oversight.
    - [AlertStore], [AlertFacts], [AlertPolicy] (lib/alert-store.js): alerts, their index, life cycle,
      paging, pruning and listing.
    - [ApprovalStore], [ApprovalFacts], [ApprovalSafety] (lib/approval-store.js): requests for tool
      approval, grants, owners, verdicts and their audit; [ExecAuth], [ExecAuthFacts]
      (lib/execution-authorization.js): the scope key that a grant is remembered under.
    - [Supervisor] (lib/supervisor-snapshot-store.js,
      lib/supervisor-action-engine.js): assessments of agents, nudges and escalations.
    - [SessionPolicy] (lib/session-policy.js): which panes are managed, globs as regular expressions.

    Delivery.
    - [PaneWatch] (lib/pane-activity.js and the observations of lib/delivery-queue.js): what a
      terminal pane shows, whether it is busy, and since when it has not changed.
    - [Reminders] (lib/delivery-queue.js): the text of reminders, alone and merged.
    - [DeliveryQueue] (lib/delivery-queue.js): the queue of messages typed into panes: acceptance,
      claims, the poll loop turn by turn, manual sends, deletions, reminders and loading after a
      restart. [DeliveryFacts] relates its operations; [QueueSafety] shows that the queue is well
      formed and types a keyed message once, [QueuePoll] that the poll loop ends, [QueueErrors] what
      failed saves leave.
    - [NotificationRouter] (lib/notification-router.js): cooldowns, aggregation with its timers, the
      circuit breaker and pruning. [RouterFacts] states what each operation does to a family and that
      its calls are spaced by the cooldown, [RouterDelivery] that an accepted payload is flushed,
      [RouterBreaker] when the breaker opens.

    Contribution.
    - [EngagementStore], [EngagementFacts], [EngagementSafety] (lib/engagement-store.js): offers,
      requests, decisions and fulfilment against a ceiling.
    - [Transcripts] (lib/metering/parsers.js): the token figures of a transcript.
    - [Attribution] (lib/metering/attribute.js): which agent a transcript belongs to, and the fleet's
      summary. [Reader] (lib/metering/reader.js): the bounded scan of a directory tree,
      what it leaves out and reports, the cache, and the part of the usage route of backend-v2.js that
      records a scan. [UsageFacts] composes parsers, attribution, reader and ledger.
    - [Ledger] (lib/metering/ledger.js): measured consumption as high-water marks.
    - [Seats] (lib/seat-store.js, lib/server-identity.js,
      lib/resource-allocation-budget.js): agents by credential, declared and remaining budgets.

    Matrix.
    - [Journal], [JournalSafety] (lib/matrix-delivery-journal.js,
      src/matrix-dispatch-store.mjs): append-only journals down to the bytes of the file.
    - [PendingInvites] (lib/pending-invite-store.js): invitations waiting for a decision.
    - [RateLimit] (src/matrix-rate-limit-gate.mjs): the shared cooldown.
    - [ProjectSides] (lib/project-side-store.js, lib/fleet-outbound-config.js): customers by homeserver,
      their credentials, representatives, projects and rooms; [ProjectSideFacts] what holds of every
      record, [ProjectSideSecrecy] that credentials leave it by [credentialFor] and
      [pendingCredentialFor] only.

    The application service, by which the homeservers of customers deliver events.
    - [Uri]: [decodeURIComponent] and [encodeURIComponent].
    - [AppserviceReceiver] (lib/appservice-receiver.js): the receiver of one side and the router over
      all of them. A request is two steps, because the events are handled between them: [begin] up to
      [await onEvents], [finish] after it.
    - [AppserviceEdge] (lib/appservice-edge.js): the relay in the network of a customer, that holds a
      delivery open until the backend has pulled and acknowledged it. [AppservicePuller]
      (lib/appservice-puller.js): the loop that pulls from it.
    - [AppserviceFlow]: edge, puller and router joined by a network that may lose and delay messages,
      with the facts of its steps; [AppserviceBooks] that a 200 to the homeserver means the events were
      processed; [AppserviceWindow] that repeats within the last transactions are absorbed.
    - [SyncCollector] (lib/appservice-sync.js and writePendingReconcile of bridge-matrix.js): the loop
      that reads /sync where no edge is installed. [SyncFacts] what a turn may do to the cursor,
      [SyncGaps] to the rooms whose history is incomplete, [SyncRelogin] how often it logs in.
    - [Backfill] (bridge-matrix.js, lib/representative-sync.js): the bounded walks
      through the history of a room that fill a gap, route the messages since an invitation, and find
      the events after a known one.
    - [SideProvenance] (lib/side-provenance.js and assertSideProvenanceForEvent of bridge-matrix.js):
      the checks an event of a side passes. [Ingress], [IngressFacts] (handleAppserviceEvents and
      executeTypedForClaim): concurrent deliveries of the same events and the claims between them.

    The fleet, by which a customer's installation takes part without being reached from outside.
    - [FleetStore] (lib/fleet-outbound-store.js): the inbox of leased work, its lanes and retries, the
      outbox of updates and the report of readiness, with the statements of its SQL; [FleetClient]
      (lib/fleet-outbound-client.js) the loops over it. [FleetFacts] gives the invariant, [FleetWork]
      shows that acknowledged work is kept and that the Matrix lane is in order, [FleetUpdates] that a
      number names one update, [FleetReady] that what is published as ready is fresh.
    - [FleetProtocol], [FleetProtocolFacts] (lib/fleet-protocol.js): a fleet proves that it receives a
      room, and asks for agents from there.

    Calls that leave the process, as programs of HTTP requests.
    - [HttpProg]: programs, their runs against arbitrary servers, redirects included, and what such a run
      may send.
    - [MatrixSide], [MatrixSideFacts] (lib/matrix-representative.js): representatives and masquerades on the sides of customers.
    - [MatrixWork], [MatrixWorkFacts] (lib/matrix-work-store.js, lib/matrix-work-executor.js): commands
      that the backend leaves for the bridge, their execution, and the credentials of agents that the
      bridge keeps and prunes.

    The dispatch router, a service of its own that hands turns of agents to disposable runners.
    - [DispatchRouter] (router/src/store.ts, router/src/activity.ts): its tables, and its methods as
      transactions in a state monad.
    - [DispatchProtocol]: what they promise, as an abstract machine with its invariant.
    - [DispatchRouterFacts]: every method is a run of the machine, proved with a logic of transactions;
      the theorems about the router follow from the invariant of the machine.
    - [RouterIntake] (router/src/store.ts): sessions, messages, tasks with their announcements, and what
      runners send to their peers; it closes the runs of the router over all of its calls.

    The parts meet as in the code: the approval store calls [deriveExecutionAuthorization] (its
    theorem composes the two), the supervision route stores an assessment and hands the stored record
    to the action engine, the journals read back with [JSON.parse] what [JSON.stringify] wrote, the
    budget of a resource counts the engagements that hold an allocation of it, and the work of the fleet
    goes through the protocol of the fleet and the registry of sides.

    ** How a store is modelled

    An operation takes the environment of the call (its clock, fresh ids, the outcome of the save and
    the injected services) and the state in memory, and gives the result or the code of the error, the
    state in memory afterwards, and what was written ([step_out] of [Store]). A store that copies its
    state before mutating restores the copy when the save fails; a store that mutates and undoes by
    hand is modelled by its undo, which is how two of the findings were made. Runs are sequences of
    operations related by a step relation, with restarts that reload the file; invariants are proved by
    rule induction over those runs.

    ** What the theorems show

    - Life cycles: every run of operations refines a small automaton (tasks, alerts, requests for
      approval, engagements, invitations), errors and failed saves included; every method of the
      dispatch router is a run of an abstract machine.
    - At most once: a lease is requeued at most once, a verdict is spent at most once, a ready node is
      dispatched once, a message from the supervisor is sent at most once per cooldown, a queued message
      with a key is typed at most once even across restarts, a transcript is attributed to at most one
      agent and a record of it is counted once.
    - Durability: what a successful call reports is what a restart loads; a failed save leaves memory
      and file in step; a journal survives a crash at any byte of an append.
    - Equivalences: a scan of transcripts that reports no bound reads every transcript of its window,
      the cycle check decides acyclicity, scheduling does not depend on the order of
      nodes, the compiled glob accepts exactly what the pattern means, two agents share a seat exactly
      when their credentials are the same.
    - Bounds and figures: commitments stay within a ceiling, consumption never falls, remaining
      allocations fit, the rate-limit gate is closed exactly until every wait is over.

    - Secrecy: two runs of the project sides that differ only in the tokens they are given answer the
      same, errors, listings and audit included; the two reads of credentials give the one that was stored.

    - Progress: the poll loop of the delivery queue ends when saves succeed, because the messages that
      wait and the calls of tmux in progress decrease; a pane is typed into only after it has been
      quiet for the idle threshold.

    - Intake: a transaction is answered 200 only after its events were processed, and repeats of it that
      come by the puller are absorbed; the cursor of a collector passes a batch only when every event it
      delivers was accepted, and a gap that follows a known room stays on record until it has been
      recovered, exactly; an event that reaches a typed path is proven to come from its side, and within
      one life of the process its typed path succeeds once however often it is delivered.

    - Turns of agents: runners never share a session or a resource; an outcome that nobody saw keeps
      its session and workspace closed until it is resolved; only the last claim of a dispatch can act; an
      input is handed over once; an approval resumes its dispatch once, with a verdict on that operation.
      A task has one announcement and is active exactly if that was delivered, and who may write for a task
      works in the thread in which it was announced.

    - Fleet and project sides: what was acknowledged is kept until it is done, requests pass only with
      the authority of their registration, the tokens of a side are sent to that side only, and an
      identity is reported only when its credential was saved; the credential stays until the agent is
      logged out or taken off the roster.

    Theorems named after a defect state what the code does where a comment or its callers expect
    something else; each comes with the states that show it.

    ** Choices

    - Numbers are rationals or integers with NaN and the infinities ([num]); rounding of doubles is
      not modelled, and no operation here computes near its limits. Printing and reading a number,
      SHA-256, HMAC, MD5, [localeCompare] and [toISOString] are arguments of the definitions, with
      hypotheses (such as injectivity) only where a theorem names them.
    - Texts are strings of characters below 256. Of a journal, which is read from bytes, the model says
      something where its text is of that kind. An error is its code or the text that its callers
      look at.
    - An object used as a map is an association list in insertion order without repeated keys. Keys
      named like members of [Object.prototype] are not modelled.
    - A record is replaced in its map where the code mutates it in place. The delivery queue, whose
      roll-backs replace objects that a delivery still holds, numbers its objects. Where a second reference is
      observable (the message a dispatch journal keeps) a step of the run makes the change.
    - Fuel: the reader of JSON takes twice the length of the text plus two, and [json_parse_total]
      shows that this is always enough; the search for cycles is bounded by the number of nodes, and
      its theorem is an equivalence, so a search cut short would refute it; the scheduling loop runs
      until a pass changes nothing, bounded by the number of nodes; the walk over directories is bounded
      by the number of their entries, and [walk_spec] shows that it visits them all.
    - [parseInt] reads decimal digits; the hexadecimal prefix is not modelled. Times in the audit of
      approvals are left out.
    - Concurrency within the process is modelled where the code awaits: a handler is cut at its awaits,
      and steps of different handlers interleave between them. The page and event budgets of the walks
      through a room are loop bounds of the code itself; they need no other fuel. The sinks of the
      notification router do not call it back. Escapes beyond Latin-1 are outside of [Uri]. The edge's
      status leaves out the fingerprint, the start time and the address of its registration; the hooks
      of a collector for left rooms, its log and its stop flag are not modelled.

    - A table of SQL is the list of its rows in the order of their row ids, and a statement does what its
      text says, with the keys and unique indexes of the schema; a transaction that throws leaves the
      tables as they were. Within one transaction the clock gives one time. A column that holds a JSON
      text is the value it parses to. Keys are texts; migrations are not modelled.
    - URLs are parsed by an argument of the definitions, and so are the regular expressions of a
      configuration. Of requests that run in parallel the model takes one order; which of several
      failures is reported depends on it.

    ** Not modelled

    The backend's HTTP routes (backend-v2.js) and the network side of the Matrix bridge are glue over the
    parts above; the console, the launchers, the runtimes of agents and the installers are input and output
    around them. The typed paths of the bridge (what it does with a message that was admitted) and the
    registry of direct chats are oracles. Of the dispatch router the operations on tasks that exist (their deletion
    apart), replies with files, the context of a runner and the operations API are left open: its theorems
    hold whatever they do to the tables that these theorems do not speak of. The store of
    pending encrypted events and the windows of conversations are databases of the same kind and would come
    next. *)

From Stdlib Require Import ZArith QArith Qround Lia String Ascii.
From stdpp Require Import base gmap sets list strings pretty sorting.
#[global] Open Scope Z_scope.
#[global] Open Scope stdpp_scope.
#[global] Unset Printing Records.

Create HintDb hagency.
Create HintDb omap.
Create Rewrite HintDb omap_rw.

(** ** Results: a JS function returns a value or throws an error carrying a code *)

Inductive result (A : Type) : Type :=
| Ok (a : A)
| Throw (code : string).
Arguments Ok {A} a.
Arguments Throw {A} code.

Definition bind {A B} (r : result A) (f : A → result B) : result B :=
  match r with
  | Ok a => f a
  | Throw c => Throw c
  end.

Declare Scope js_scope.
Delimit Scope js_scope with js.
Notation "'let*' x ':=' c 'in' k" := (bind c (λ x, k))
  (at level 10, x pattern, c at level 100, k at level 200) : js_scope.
Notation "'throw_if' b 'with' e 'in' k" := (if (b : bool) then Throw e else k)
  (at level 10, b at level 100, e at level 100, k at level 200) : js_scope.
#[global] Open Scope js_scope.

Definition is_ok {A} (r : result A) : bool :=
  match r with Ok _ => true | Throw _ => false end.

Lemma bind_Ok {A B} (r : result A) (f : A → result B) b :
  bind r f = Ok b → ∃ a, r = Ok a ∧ f a = Ok b.
Proof. destruct r; simpl; [eauto | done]. Qed.

(** [js_inv H] inverts a successful run of a handler: every guard that threw is discarded, every
    bound value gets a name and an equation. *)
Ltac js_inv H :=
  simpl in H;
  repeat match type of H with
  | bind ?r ?f = Ok _ =>
      let a := fresh "v" in let E := fresh "E" in
      apply bind_Ok in H as (a & E & H); simpl in H
  | (if ?b then Throw _ else _) = Ok _ =>
      let E := fresh "E" in destruct b eqn:E; [discriminate H|]; simpl in H
  | (if ?b then _ else Throw _) = Ok _ =>
      let E := fresh "E" in destruct b eqn:E; [|discriminate H]; simpl in H
  | match ?o with Some _ => _ | None => Throw _ end = Ok _ =>
      let E := fresh "E" in destruct o eqn:E; [|discriminate H]; simpl in H
  end.

(** ** Record fields as assignable members

    [r <| f := v |>] is [r] after [r.f = v]; a record type that declares its [Settable] instance
    gets the update of each of its fields by unification. *)

Class Settable (R : Type) : Type := eta : R → R.
Class FieldOf {R F : Type} (proj : R → F) : Type := over : (F → F) → R → R.
Arguments over {R F} proj {_} f r /.

Ltac solve_field proj :=
  match type of proj with
  | ?R → ?F =>
      let e := constr:(_ : Settable R) in
      let e := eval hnf in e in
      let p := eval pattern proj in e in
      lazymatch p with
      | (fun _ => ?c) _ => fail "the record type does not list this field"
      | ?g _ =>
          let t := constr:(fun (f : F → F) => g (fun r : R => f (proj r))) in
          let t := eval cbv beta in t in
          exact t
      end
  end.
#[export] Hint Extern 0 (FieldOf ?proj) => solve_field proj : typeclass_instances.

Notation "r <| p := v |>" := (over p (λ _, v) r)
  (at level 1, left associativity, p at level 9, v at level 200) : stdpp_scope.

(** ** JS strings

    A string is a sequence of code units; the model covers code units below 256 (Latin-1), so the
    white space [String.prototype.trim] removes is the six ASCII characters and U+00A0. *)

Definition is_ws (c : ascii) : bool :=
  let n := nat_of_ascii c in
  (n =? 32)%nat || (n =? 160)%nat || ((9 <=? n)%nat && (n <=? 13)%nat).

Fixpoint trim_start (s : string) : string :=
  match s with
  | EmptyString => EmptyString
  | String c s' => if is_ws c then trim_start s' else s
  end.

Fixpoint trim_end (s : string) : string :=
  match s with
  | EmptyString => EmptyString
  | String c s' =>
      match trim_end s' with
      | EmptyString => if is_ws c then EmptyString else String c EmptyString
      | t => String c t
      end
  end.

Definition trim (s : string) : string := trim_end (trim_start s).

(** [s.slice(0, n)] *)
Fixpoint slice_to (n : nat) (s : string) : string :=
  match n, s with
  | S n', String c s' => String c (slice_to n' s')
  | _, _ => EmptyString
  end.

Definition lower_ascii (c : ascii) : ascii :=
  let n := nat_of_ascii c in
  if ((65 <=? n)%nat && (n <=? 90)%nat)
     || ((192 <=? n)%nat && (n <=? 222)%nat && negb (n =? 215)%nat)
  then ascii_of_nat (n + 32) else c.

(** [s.toLowerCase()] *)
Fixpoint lower (s : string) : string :=
  match s with
  | EmptyString => EmptyString
  | String c s' => String (lower_ascii c) (lower s')
  end.

(** The position of the first occurrence of a character, [s.indexOf(c)]. *)
Fixpoint index_of (c : ascii) (s : string) : option nat :=
  match s with
  | EmptyString => None
  | String c' s' => if Ascii.eqb c c' then Some 0%nat else S <$> index_of c s'
  end.

Fixpoint drop_str (n : nat) (s : string) : string :=
  match n, s with
  | S n', String _ s' => drop_str n' s'
  | _, _ => s
  end.

Fixpoint string_exists (p : ascii → bool) (s : string) : bool :=
  match s with
  | EmptyString => false
  | String c s' => p c || string_exists p s'
  end.

Definition string_forall (p : ascii → bool) (s : string) : bool :=
  negb (string_exists (λ c, negb (p c)) s).

(** [Boolean(s)]: only the empty string is falsy. *)
Definition truthy (s : string) : bool := negb (String.eqb s EmptyString).

(** [x || null] on an optional string: absent and empty are both [null]. *)
Definition truthy_opt (o : option string) : option string :=
  match o with Some s => if truthy s then Some s else None | None => None end.

(** [s.split(c)] for a one-character separator: at least one part, possibly empty. *)
Fixpoint split_on (c : ascii) (s : string) : list string :=
  match s with
  | EmptyString => [EmptyString]
  | String c' s' =>
      if Ascii.eqb c c' then EmptyString :: split_on c s'
      else match split_on c s' with
           | [] => [String c' EmptyString]
           | p :: ps => String c' p :: ps
           end
  end.

(** [parts.join(sep)] *)
Fixpoint join (sep : string) (parts : list string) : string :=
  match parts with
  | [] => EmptyString
  | [p] => p
  | p :: ps => p +:+ sep +:+ join sep ps
  end.

Lemma app_assoc_s (s t u : string) : (s +:+ t) +:+ u = s +:+ (t +:+ u).
Proof. induction s as [|c s IH]; [done|]. exact (f_equal (String c) IH). Qed.

Lemma app_nil_r_s (s : string) : s +:+ EmptyString = s.
Proof. induction s as [|c s IH]; [done|]. exact (f_equal (String c) IH). Qed.

Lemma length_app_s (s t : string) : String.length (s +:+ t) = (String.length s + String.length t)%nat.
Proof. induction s as [|c s IH]; [done|]. exact (f_equal S IH). Qed.

(** The 256 characters, for statements checked by computation on each of them. *)
Fixpoint chars (n : nat) : list ascii := match n with O => [] | S n => ascii_of_nat n :: chars n end.

Lemma chars_elem n m : (m < n)%nat → ascii_of_nat m ∈ chars n.
Proof.
  induction n as [|n IH]; intros H; [lia|]. cbn [chars]. destruct (decide (m = n)) as [->|]; [left|right; apply IH; lia].
Qed.

Lemma chars_all c : c ∈ chars 256.
Proof. rewrite <-(ascii_nat_embedding c). apply chars_elem, nat_ascii_bounded. Qed.

Definition is_Some_b {A} (o : option A) : bool := match o with Some _ => true | None => false end.

Lemma slice_to_length n s : (String.length (slice_to n s) ≤ n)%nat.
Proof. revert s; induction n as [|n IH]; intros [|c s]; simpl; try lia. specialize (IH s). lia. Qed.

Lemma slice_to_id n s : (String.length s ≤ n)%nat → slice_to n s = s.
Proof.
  revert s; induction n as [|n IH]; intros [|c s]; simpl; try done; [lia|].
  intros. by rewrite IH by lia.
Qed.

(** The text around the first occurrence of a character. *)
Lemma index_of_split c s n : index_of c s = Some n → s = slice_to n s +:+ String c (drop_str (S n) s).
Proof.
  revert n; induction s as [|d s IH]; intros n; cbn [index_of]; [done|]. destruct (Ascii.eqb c d) eqn:E.
  - intros [= <-]. apply Ascii.eqb_eq in E as ->. by destruct s.
  - destruct (index_of c s) as [m|] eqn:Em; [|done]. intros [= <-]. rewrite (IH m eq_refl) at 1. done.
Qed.

Lemma trim_end_idem s : trim_end (trim_end s) = trim_end s.
Proof.
  induction s as [|c s IH]; [done|]. cbn [trim_end]. destruct (trim_end s) as [|d t] eqn:E.
  - destruct (is_ws c) eqn:Ec; [done|]. cbn [trim_end]. by rewrite Ec.
  - change (match trim_end (String d t) with EmptyString => if is_ws c then EmptyString else String c EmptyString
            | String a u => String c (String a u) end = String c (String d t)). by rewrite IH.
Qed.

Lemma trim_start_head s : match trim_start s with String c _ => is_ws c = false | EmptyString => True end.
Proof. induction s as [|c s IH]; [done|]. cbn [trim_start]. by destruct (is_ws c) eqn:E. Qed.

Lemma trim_idem s : trim (trim s) = trim s.
Proof.
  unfold trim. rewrite <-(trim_end_idem (trim_start s)) at 2. f_equal.
  pose proof (trim_start_head s) as H. destruct (trim_start s) as [|c t]; [done|]. cbn [trim_end].
  destruct (trim_end t) as [|d u]; [rewrite H; cbn [trim_start]; by rewrite H|]. cbn [trim_start]. by rewrite H.
Qed.

Lemma truthy_spec s : truthy s = true ↔ s ≠ EmptyString.
Proof. unfold truthy. destruct (String.eqb_spec s EmptyString); naive_solver. Qed.

(** ** Matrix identifiers *)

(** [/^<sigil>[^:\s]+:[^\s]+$/]: a sigil, a local part without colon, a server part, no white space. *)
Definition matrix_id (sigil : ascii) (s : string) : bool :=
  match s with
  | String c rest =>
      Ascii.eqb c sigil && negb (string_exists is_ws rest) &&
      match index_of ":"%char rest with
      | Some n => (0 <? n)%nat && (S n <? String.length rest)%nat
      | None => false
      end
  | EmptyString => false
  end.

(** ** JavaScript values *)

(** A JS number: not-a-number, an infinity, or a finite double, which is a rational. *)
Inductive num : Type :=
| NaN
| Inf (negative : bool)
| Fin (q : Q).

(** [JFunc] is a method inherited from a built-in prototype; no JSON document contains one. *)
Inductive jval : Type :=
| JUndef
| JNull
| JBool (b : bool)
| JNum (n : num)
| JStr (s : string)
| JArr (l : list jval)
| JObj (o : list (string * jval))
| JFunc (name : string).

Definition num_eqb (a b : num) : bool :=
  match a, b with
  | Fin p, Fin q => Qeq_bool p q
  | Inf s, Inf t => Bool.eqb s t
  | _, _ => false
  end.

(** [a === b] on two values neither of which is the same object as the other: two arrays or two
    objects built by different expressions are never identical. *)
Definition strict_eq (a b : jval) : bool :=
  match a, b with
  | JUndef, JUndef | JNull, JNull => true
  | JBool x, JBool y => Bool.eqb x y
  | JNum x, JNum y => num_eqb x y
  | JStr x, JStr y => String.eqb x y
  | _, _ => false
  end.

Lemma strict_eq_text v s : strict_eq v (JStr s) = true → v = JStr s.
Proof. destruct v; try done. by intros ->%String.eqb_eq. Qed.

(** [Boolean(v)] *)
Definition to_bool (v : jval) : bool :=
  match v with
  | JUndef | JNull => false
  | JBool b => b
  | JNum NaN => false
  | JNum (Fin q) => negb (Qeq_bool q 0)
  | JNum (Inf _) => true
  | JStr s => truthy s
  | JArr _ | JObj _ | JFunc _ => true
  end.

Definition is_nullish (v : jval) : bool :=
  match v with JUndef | JNull => true | _ => false end.

(** [a ?? b] *)
Definition nullish_or (a b : jval) : jval := if is_nullish a then b else a.

Definition is_finite (n : num) : bool := match n with Fin _ => true | _ => false end.

(** [a < b]; no comparison with not-a-number holds. *)
Definition num_ltb (a b : num) : bool :=
  match a, b with
  | Fin p, Fin q => negb (Qle_bool q p)
  | Inf true, Fin _ | Inf true, Inf false | Fin _, Inf false => true
  | _, _ => false
  end.

(** [a || b] *)
Definition js_or (a b : jval) : jval := if to_bool a then a else b.

Definition str_or_null (o : option string) : jval := match o with Some s => JStr s | None => JNull end.

(** The own property of an object value; [undefined] when it has none. Optional chaining
    ([raw?.k]) gives [undefined] on [null] and [undefined]. *)
Fixpoint prop_in (k : string) (o : list (string * jval)) : jval :=
  match o with
  | [] => JUndef
  | (k', v) :: o' => if String.eqb k k' then v else prop_in k o'
  end.

Definition prop (v : jval) (k : string) : jval :=
  match v with JObj o => prop_in k o | _ => JUndef end.

Definition has_own (v : jval) (k : string) : bool :=
  match v with JObj o => existsb (λ p, String.eqb k p.1) o | _ => false end.

(** [normalizeText(value, maxLen)], the text normaliser that the task, graph and alert stores each
    carry a copy of: a string, trimmed, non-empty, cut to [maxLen]. *)
Definition text_of (v : jval) (maxLen : nat) : option string :=
  match v with
  | JStr s => let t := trim s in if truthy t then Some (slice_to maxLen t) else None
  | _ => None
  end.

Lemma text_of_length v n s : text_of v n = Some s → (String.length s ≤ n)%nat.
Proof.
  unfold text_of. destruct v; try done. case_match; [|done]. intros [= <-]. apply slice_to_length.
Qed.

Lemma text_of_nonempty v n s : text_of v (S n) = Some s → s ≠ EmptyString.
Proof.
  unfold text_of. destruct v; try done. case_match eqn:E; [|done]. intros [= <-].
  apply truthy_spec in E. by destruct (trim _).
Qed.

(** ** Membership in a list of strings, and generic list facts *)

Definition inb (s : string) (l : list string) : bool := existsb (String.eqb s) l.

Lemma inb_spec s l : inb s l = true ↔ s ∈ l.
Proof.
  unfold inb. rewrite existsb_exists. split.
  - intros (x & Hx & ->%String.eqb_eq). by apply list_elem_of_In.
  - intros H. exists s. split; [by apply list_elem_of_In|apply String.eqb_refl].
Qed.

Lemma filter_nil_forallb {A} (p : A → bool) l : List.filter p l = [] ↔ forallb (λ x, negb (p x)) l = true.
Proof.
  induction l as [|x l IH]; simpl; [done|]. destruct (p x); simpl; [done|exact IH].
Qed.

Lemma forallb_elem {A} (p : A → bool) l : forallb p l = true ↔ ∀ x, x ∈ l → p x = true.
Proof. rewrite forallb_forall. by setoid_rewrite list_elem_of_In. Qed.

(** ** Stable sorting

    [l.sort((a, b) => ...)]: insertion of the elements in order, each after the elements it does not
    come strictly [before]. *)

Section sort.
Context {A : Type} (before : A → A → bool).

Fixpoint sort_insert (x : A) (l : list A) : list A :=
  match l with
  | [] => [x]
  | y :: l' => if before x y then x :: l else y :: sort_insert x l'
  end.

Definition stable_sort (l : list A) : list A := foldl (λ s x, sort_insert x s) [] l.

Lemma sort_insert_perm x l : sort_insert x l ≡ₚ x :: l.
Proof.
  induction l as [|y l IH]; simpl; [done|]. destruct (before x y); [done|]. rewrite IH. constructor.
Qed.

Lemma stable_sort_perm l : stable_sort l ≡ₚ l.
Proof.
  unfold stable_sort. assert (H : ∀ acc, foldl (λ s x, sort_insert x s) acc l ≡ₚ l ++ acc).
  { induction l as [|x l IH]; intros acc; simpl; [done|].
    rewrite IH, sort_insert_perm. by rewrite <-Permutation_middle. }
  rewrite H. by rewrite app_nil_r.
Qed.

(** A key the comparison looks at first comes out in order, whatever decides between equal keys. *)
Context (key : A → Z).
Hypothesis before_lt : ∀ x y, key x < key y → before x y = true.
Hypothesis before_gt : ∀ x y, key y < key x → before x y = false.

Lemma sort_insert_sorted x l :
  StronglySorted (λ a b, key a ≤ key b) l → StronglySorted (λ a b, key a ≤ key b) (sort_insert x l).
Proof using before_lt before_gt.
  induction 1 as [|y l Hs IH Hy]; simpl; [by repeat constructor|].
  destruct (before x y) eqn:E.
  - assert (key x ≤ key y) by (destruct (Z_lt_le_dec (key y) (key x)) as [?%before_gt|]; [congruence|done]).
    constructor; [by constructor|]. constructor; [done|]. eapply Forall_impl; [exact Hy|]. intros; simpl in *; lia.
  - assert (key y ≤ key x) by (destruct (Z_lt_le_dec (key x) (key y)) as [?%before_lt|]; [congruence|done]).
    constructor; [done|]. rewrite sort_insert_perm. by constructor.
Qed.

Lemma stable_sort_sorted l : StronglySorted (λ a b, key a ≤ key b) (stable_sort l).
Proof using before_lt before_gt.
  unfold stable_sort.
  assert (H : ∀ acc, StronglySorted (λ a b, key a ≤ key b) acc →
                     StronglySorted (λ a b, key a ≤ key b) (foldl (λ s x, sort_insert x s) acc l)).
  { induction l as [|x l IH]; intros acc Hacc; simpl; [done|]. by apply IH, sort_insert_sorted. }
  apply H. constructor.
Qed.

End sort.

(** The two parts of a sorted list: nothing in the first is beyond anything in the second. *)
Lemma sorted_split {A} (key : A → Z) n l x y :
  StronglySorted (λ a b, key a ≤ key b) l → x ∈ take n l → y ∈ drop n l → key x ≤ key y.
Proof.
  intros Hs Hx Hy. rewrite <-(take_drop n l) in Hs.
  induction (take n l) as [|z zs IH]; [by apply elem_of_nil in Hx|].
  apply StronglySorted_inv in Hs as [Hs Hz]. apply elem_of_cons in Hx as [->|Hx]; [|by apply IH].
  rewrite Forall_forall in Hz. apply Hz. apply elem_of_app. by right.
Qed.

(** ** Windows of recent strings

    A list of which the last [lim] members are remembered, and only what is not remembered is added:
    equal members are far apart. *)

#[local] Open Scope stdpp_scope.

(** Equal members of a list are more than [lim] apart. *)
Definition spaced (lim : nat) (l : list string) : Prop := ∀ i j t, (i < j)%nat → l !! i = Some t → l !! j = Some t → (lim < j - i)%nat.

Lemma spaced_nil lim : spaced lim [].
Proof. by intros i j t _ H. Qed.

Lemma spaced_snoc lim l t : spaced lim l → t ∉ drop (length l - lim) l → spaced lim (l ++ [t]).
Proof.
  intros Hl Ht i j u Hij Hi Hj. destruct (decide (j < length l)%nat) as [Hlt|Hge].
  - rewrite lookup_app_l in Hi, Hj by lia. by apply (Hl i j u).
  - assert (j = length l) as -> by (apply lookup_lt_Some in Hj; rewrite length_app in Hj; cbn in Hj; lia).
    rewrite lookup_app_l in Hi by done. rewrite lookup_app_r, Nat.sub_diag in Hj by done. injection Hj as <-.
    destruct (decide (lim < length l - i)%nat) as [|Hno]; [done|]. exfalso. apply Ht. apply list_elem_of_lookup.
    exists (i - (length l - lim))%nat. rewrite lookup_drop. by replace (_ + _)%nat with i by lia.
Qed.

Lemma drop_snoc (lim : nat) (l : list string) t : let l0 := drop (length l - lim) l in
  drop (length (l0 ++ [t]) - lim) (l0 ++ [t]) = drop (length (l ++ [t]) - lim) (l ++ [t]).
Proof.
  cbn zeta. set (k := (length l - lim)%nat). assert (Hk : (k ≤ length l)%nat) by lia.
  replace (drop k l ++ [t]) with (drop k (l ++ [t])) by (by rewrite drop_app_le). rewrite drop_drop. f_equal. rewrite length_drop, length_app. cbn. lia.
Qed.

Lemma spaced_window_nodup lim l : spaced lim l → NoDup (drop (length l - lim) l).
Proof.
  intros H. apply NoDup_alt. intros i j t Hi Hj. rewrite lookup_drop in Hi, Hj. assert (Hb := lookup_lt_Some _ _ _ Hi). assert (Hc := lookup_lt_Some _ _ _ Hj).
  set (k := (length l - lim)%nat) in *. destruct (decide (i = j)) as [|Hne]; [done|]. destruct (decide (i < j)%nat).
  - specialize (H (k + i) (k + j) t ltac:(lia) Hi Hj)%nat. lia.
  - specialize (H (k + j) (k + i) t ltac:(lia) Hj Hi)%nat. lia.
Qed.
