(* ===== verification/OMap.v ===== *)
(** * Ordered string maps

    JavaScript's two dictionaries, a [Map] and an ordinary object, both enumerate their entries in a
    fixed order, and several handlers return or persist that order. Both are an association list
    without duplicate keys; they differ in where a new key goes: a [Map] appends it, an object keeps
    its array-index keys first, in numeric order, and appends the others. [Object.prototype]'s own
    members are not part of the model: keys are assumed not to be named like one of them. *)

From Stdlib Require Import ZArith Lia String Ascii.
From stdpp Require Import base list strings.
From S2P Require Import Prelude.

Abbreviation omap V := (list (string * V)).

Section omap.
Context {V : Type}.
Implicit Types (m : omap V) (k : string) (v : V).

Fixpoint om_get k m : option V :=
  match m with
  | [] => None
  | (k', v) :: m' => if String.eqb k k' then Some v else om_get k m'
  end.

Definition om_has k m : bool := match om_get k m with Some _ => true | None => false end.

(** Replace the value of a key that is present, keeping its position. *)
Fixpoint om_replace k v m : omap V :=
  match m with
  | [] => []
  | (k', v') :: m' => if String.eqb k k' then (k', v) :: m' else (k', v') :: om_replace k v m'
  end.

(** [Map.prototype.set] *)
Definition om_set k v m : omap V :=
  if om_has k m then om_replace k v m else m ++ [(k, v)].

(** [Map.prototype.delete] and the [delete] operator *)
Definition om_del k m : omap V := List.filter (λ p, negb (String.eqb k p.1)) m.

Definition om_vals m : list V := m.*2.
Definition om_keys m : list string := m.*1.

(** *** Array-index keys of objects *)

Definition digit_of (c : ascii) : option Z :=
  let n := Z.of_nat (nat_of_ascii c) in
  if (48 <=? n) && (n <=? 57) then Some (n - 48) else None.

Fixpoint decimal_acc (acc : Z) (s : string) : option Z :=
  match s with
  | EmptyString => Some acc
  | String c s' => match digit_of c with Some d => decimal_acc (10 * acc + d) s' | None => None end
  end.

(** [Number.parseInt(s, 10)]: the sign and the digits after leading white space; [None] is NaN. *)
Fixpoint int_digits (acc : Z) (s : string) : Z :=
  match s with
  | String c s' => match digit_of c with Some d => int_digits (10 * acc + d) s' | None => acc end
  | EmptyString => acc
  end.

Definition unsigned_int (s : string) : option Z :=
  match s with
  | String c _ => match digit_of c with Some _ => Some (int_digits 0 s) | None => None end
  | EmptyString => None
  end.

Definition parseInt (s : string) : option Z :=
  match trim_start s with
  | String "-" s' => Z.opp <$> unsigned_int s'
  | String "+" s' => unsigned_int s'
  | s' => unsigned_int s'
  end.

(** A canonical numeric string below 2^32 - 1: ["0"], or digits without a leading zero. *)
Definition array_index (s : string) : option Z :=
  match s with
  | EmptyString => None
  | String c s' =>
      if Ascii.eqb c "0" then (if String.eqb s' EmptyString then Some 0 else None)
      else match decimal_acc 0 s with
           | Some n => if n <? 4294967295 then Some n else None
           | None => None
           end
  end.

Fixpoint index_insert (n : Z) k v m : omap V :=
  match m with
  | [] => [(k, v)]
  | (k', v') :: m' =>
      match array_index k' with
      | Some n' => if n' <? n then (k', v') :: index_insert n k v m' else (k, v) :: m
      | None => (k, v) :: m
      end
  end.

(** [obj[k] = v] *)
Definition obj_set k v m : omap V :=
  if om_has k m then om_replace k v m
  else match array_index k with
       | Some n => index_insert n k v m
       | None => m ++ [(k, v)]
       end.

(** *** Lookup laws *)

Lemma om_has_spec k m : om_has k m = true ↔ is_Some (om_get k m).
Proof. unfold om_has. destruct (om_get k m); split; [eauto|done|done|by intros []]. Qed.

Lemma om_has_false k m : om_has k m = false ↔ om_get k m = None.
Proof. unfold om_has. by destruct (om_get k m). Qed.

Lemma om_get_replace k k' v m :
  om_get k' (om_replace k v m) =
    if String.eqb k k' then (if om_has k m then Some v else None) else om_get k' m.
Proof.
  unfold om_has. induction m as [|[k'' v''] m IH]; simpl.
  - by destruct (String.eqb k k').
  - destruct (String.eqb_spec k k''), (String.eqb_spec k k'), (String.eqb_spec k' k'');
      subst; simpl; rewrite ?String.eqb_refl; try congruence;
      repeat match goal with |- context [String.eqb ?a ?b] => destruct (String.eqb_spec a b); try congruence end.
Qed.

Lemma om_get_snoc k k' v m :
  om_get k m = None → om_get k' (m ++ [(k, v)]) = if String.eqb k k' then Some v else om_get k' m.
Proof.
  induction m as [|[k'' v''] m IH]; simpl; intros Hn.
  - rewrite (String.eqb_sym k' k). by destruct (String.eqb k k').
  - destruct (String.eqb_spec k k''); [done|]. rewrite IH by done.
    destruct (String.eqb_spec k' k''), (String.eqb_spec k k'); congruence.
Qed.

Lemma om_get_index_insert n k k' v m :
  om_get k m = None →
  om_get k' (index_insert n k v m) = if String.eqb k k' then Some v else om_get k' m.
Proof.
  induction m as [|[k'' v''] m IH]; simpl; intros Hn; [by rewrite String.eqb_sym|].
  destruct (String.eqb_spec k k''); [done|].
  destruct (array_index k'') as [n'|]; [destruct (n' <? n)|]; simpl; rewrite ?IH by done;
    rewrite ?(String.eqb_sym k' k); [|done|done].
  destruct (String.eqb_spec k' k''), (String.eqb_spec k k'); congruence.
Qed.

Lemma om_get_set k k' v m :
  om_get k' (om_set k v m) = if String.eqb k k' then Some v else om_get k' m.
Proof.
  unfold om_set. destruct (om_has k m) eqn:E.
  - rewrite om_get_replace, E. done.
  - apply om_get_snoc. by apply om_has_false.
Qed.

Lemma om_get_obj_set k k' v m :
  om_get k' (obj_set k v m) = if String.eqb k k' then Some v else om_get k' m.
Proof.
  unfold obj_set. destruct (om_has k m) eqn:E.
  - rewrite om_get_replace, E. done.
  - apply om_has_false in E. destruct (array_index k); [by apply om_get_index_insert|by apply om_get_snoc].
Qed.

Lemma om_get_set_eq k v m : om_get k (om_set k v m) = Some v.
Proof. by rewrite om_get_set, String.eqb_refl. Qed.
Lemma om_get_set_ne k k' v m : k ≠ k' → om_get k' (om_set k v m) = om_get k' m.
Proof. intros. rewrite om_get_set. by destruct (String.eqb_spec k k'). Qed.
Lemma om_get_obj_set_eq k v m : om_get k (obj_set k v m) = Some v.
Proof. by rewrite om_get_obj_set, String.eqb_refl. Qed.
Lemma om_get_obj_set_ne k k' v m : k ≠ k' → om_get k' (obj_set k v m) = om_get k' m.
Proof. intros. rewrite om_get_obj_set. by destruct (String.eqb_spec k k'). Qed.

Lemma om_get_del k k' m :
  om_get k' (om_del k m) = if String.eqb k k' then None else om_get k' m.
Proof.
  induction m as [|[k'' v''] m IH]; simpl; [by destruct (String.eqb k k')|].
  destruct (String.eqb_spec k k''); simpl; rewrite IH;
    destruct (String.eqb_spec k k'), (String.eqb_spec k' k''); congruence.
Qed.

Lemma om_get_del_eq k m : om_get k (om_del k m) = None.
Proof. by rewrite om_get_del, String.eqb_refl. Qed.
Lemma om_get_del_ne k k' m : k ≠ k' → om_get k' (om_del k m) = om_get k' m.
Proof. intros. rewrite om_get_del. by destruct (String.eqb_spec k k'). Qed.

Lemma om_get_elem_of k v m : om_get k m = Some v → (k, v) ∈ m.
Proof.
  induction m as [|[k' v'] m IH]; simpl; [done|].
  destruct (String.eqb_spec k k'); [intros [= ->]; subst; left|right; auto].
Qed.

Lemma elem_of_om_get k v m : NoDup (om_keys m) → (k, v) ∈ m → om_get k m = Some v.
Proof.
  unfold om_keys. induction m as [|[k' v'] m IH]; csimpl; [by intros _ ?%elem_of_nil|].
  intros [Hni Hnd]%NoDup_cons [[= -> ->]|Hin]%elem_of_cons; [by rewrite String.eqb_refl|].
  destruct (String.eqb_spec k k') as [->|]; [|auto].
  exfalso. apply Hni. apply list_elem_of_fmap. by exists (k', v).
Qed.

Lemma om_get_None k m : om_get k m = None ↔ k ∉ om_keys m.
Proof.
  unfold om_keys. induction m as [|[k' v'] m IH]; csimpl.
  - split; [intros _ ?%elem_of_nil; done|done].
  - rewrite elem_of_cons. destruct (String.eqb_spec k k').
    + split; [done|]. intros H. exfalso. apply H. by left.
    + rewrite IH. tauto.
Qed.

Lemma om_vals_get v m : v ∈ om_vals m → ∃ k, (k, v) ∈ m.
Proof. unfold om_vals. rewrite list_elem_of_fmap. intros ([k v'] & -> & ?). by exists k. Qed.

Lemma om_get_vals k v m : om_get k m = Some v → v ∈ om_vals m.
Proof. intros H%om_get_elem_of. apply list_elem_of_fmap. by exists (k, v). Qed.

(** *** Keys stay distinct *)

Lemma om_keys_replace k v m : om_keys (om_replace k v m) = om_keys m.
Proof.
  unfold om_keys. induction m as [|[k' v'] m IH]; csimpl; [done|].
  destruct (String.eqb k k'); csimpl; by rewrite ?IH.
Qed.

Lemma om_keys_set_new k v m : om_get k m = None → om_set k v m = m ++ [(k, v)].
Proof. intros H%om_has_false. unfold om_set. by rewrite H. Qed.

Lemma om_keys_set_old k v m : is_Some (om_get k m) → om_keys (om_set k v m) = om_keys m.
Proof. intros H%om_has_spec. unfold om_set. rewrite H. apply om_keys_replace. Qed.

Lemma index_insert_keys n k v m : om_keys (index_insert n k v m) ≡ₚ k :: om_keys m.
Proof.
  unfold om_keys. induction m as [|[k' v'] m IH]; csimpl; [done|].
  destruct (array_index k'); [|done]. destruct (_ <? _); [|done]. csimpl. rewrite IH. constructor.
Qed.

Lemma om_nodup_snoc k v m : om_get k m = None → NoDup (om_keys m) → NoDup (om_keys (m ++ [(k, v)])).
Proof.
  intros Hn%om_get_None Hnd. unfold om_keys in *. rewrite fmap_app. apply NoDup_app.
  split; [done|]. split; [|apply NoDup_singleton]. csimpl. intros x Hx ->%list_elem_of_singleton. done.
Qed.

Lemma om_nodup_set k v m : NoDup (om_keys m) → NoDup (om_keys (om_set k v m)).
Proof.
  intros Hnd. unfold om_set. destruct (om_has k m) eqn:E; [by rewrite om_keys_replace|].
  apply om_nodup_snoc; [by apply om_has_false|done].
Qed.

Lemma om_nodup_obj_set k v m : NoDup (om_keys m) → NoDup (om_keys (obj_set k v m)).
Proof.
  intros Hnd. unfold obj_set. destruct (om_has k m) eqn:E; [by rewrite om_keys_replace|].
  apply om_has_false in E. destruct (array_index k); [|by apply om_nodup_snoc].
  rewrite index_insert_keys. apply NoDup_cons. split; [by apply om_get_None|done].
Qed.

Lemma om_keys_del k m : om_keys (om_del k m) = List.filter (λ x, negb (String.eqb k x)) (om_keys m).
Proof.
  unfold om_keys, om_del. induction m as [|[k' v'] m IH]; csimpl; [done|].
  destruct (String.eqb k k'); csimpl; by rewrite ?IH.
Qed.

Lemma elem_of_filter_bool {A} (f : A → bool) (l : list A) x : x ∈ List.filter f l ↔ f x = true ∧ x ∈ l.
Proof. rewrite !list_elem_of_In, filter_In. tauto. Qed.

Lemma NoDup_filter_bool {A} (f : A → bool) (l : list A) : NoDup l → NoDup (List.filter f l).
Proof.
  induction l as [|x l IH]; simpl; [done|]. intros [Hni Hnd]%NoDup_cons.
  destruct (f x); [|auto]. apply NoDup_cons. split; [|auto]. rewrite elem_of_filter_bool. tauto.
Qed.

Lemma om_nodup_del k m : NoDup (om_keys m) → NoDup (om_keys (om_del k m)).
Proof. intros. rewrite om_keys_del. by apply NoDup_filter_bool. Qed.

Lemma om_del_id k m : om_get k m = None → om_del k m = m.
Proof.
  unfold om_del. induction m as [|[k' v'] m IH]; simpl; [done|].
  destruct (String.eqb_spec k k'); [done|]. simpl. intros. by rewrite IH.
Qed.

Lemma om_del_snoc k v m : om_get k m = None → om_del k (m ++ [(k, v)]) = m.
Proof.
  intros Hn. unfold om_del. rewrite List.filter_app. simpl. rewrite String.eqb_refl. simpl.
  rewrite app_nil_r. by apply om_del_id.
Qed.

Lemma om_replace_id k v m : om_get k m = Some v → om_replace k v m = m.
Proof.
  induction m as [|[k' v'] m IH]; simpl; [done|].
  destruct (String.eqb_spec k k'); [by intros [= ->]|]. intros. by rewrite IH.
Qed.

Lemma om_replace_replace k v w m : om_replace k v (om_replace k w m) = om_replace k v m.
Proof.
  induction m as [|[k' v'] m IH]; simpl; [done|].
  destruct (String.eqb k k') eqn:E; simpl; rewrite ?E; by rewrite ?IH.
Qed.

Lemma om_has_replace k k' v m : om_has k' (om_replace k v m) = om_has k' m.
Proof.
  unfold om_has. rewrite om_get_replace. destruct (String.eqb_spec k k'); subst; [|done].
  unfold om_has. by destruct (om_get k' m).
Qed.

(** Writing a record back over its changed self restores the map, positions included. *)
Lemma obj_set_restore k v w m : om_get k m = Some v → obj_set k v (obj_set k w m) = m.
Proof.
  intros H. assert (Hh : om_has k m = true) by (apply om_has_spec; eauto).
  unfold obj_set at 2. rewrite Hh. unfold obj_set. rewrite om_has_replace, Hh, om_replace_replace.
  by apply om_replace_id.
Qed.

Lemma om_replace_index_insert n k v w m :
  om_get k m = None → om_replace k v (index_insert n k w m) = index_insert n k v m.
Proof.
  induction m as [|[k' v'] m IH]; simpl; intros Hn; [by rewrite String.eqb_refl|].
  destruct (String.eqb_spec k k') as [|Hne]; [done|]. apply String.eqb_neq in Hne.
  destruct (array_index k'); [destruct (_ <? _)|]; simpl; rewrite ?String.eqb_refl, ?Hne; [by rewrite IH|done..].
Qed.

Lemma om_replace_snoc k v w m : om_get k m = None → om_replace k v (m ++ [(k, w)]) = m ++ [(k, v)].
Proof.
  induction m as [|[k' v'] m IH]; simpl; intros Hn; [by rewrite String.eqb_refl|].
  destruct (String.eqb_spec k k'); [done|]. by rewrite IH.
Qed.

(** Writing twice is writing the second value. *)
Lemma obj_set_again k v w m : om_replace k v (obj_set k w m) = obj_set k v m.
Proof.
  unfold obj_set. destruct (om_has k m) eqn:E; [apply om_replace_replace|]. apply om_has_false in E.
  destruct (array_index k); [by apply om_replace_index_insert|by apply om_replace_snoc].
Qed.

Lemma index_insert_del n k v m : om_get k m = None → om_del k (index_insert n k v m) = m.
Proof.
  assert (Hb : ∀ m0, om_get k m0 = None → om_del k ((k, v) :: m0) = m0).
  { intros m0 H0. unfold om_del. simpl. rewrite String.eqb_refl. simpl. by apply om_del_id. }
  induction m as [|[k' v'] m IH]; intros Hn; [by apply Hb|].
  cbn [index_insert]. destruct (array_index k'); [destruct (_ <? _)|]; [|by apply Hb..].
  simpl in Hn. destruct (String.eqb_spec k k') as [|Hne]; [done|].
  unfold om_del in *. simpl. apply String.eqb_neq in Hne. rewrite Hne. simpl. by rewrite IH.
Qed.

(** Deleting a key that was just added restores the map. *)
Lemma obj_set_del k v m : om_get k m = None → om_del k (obj_set k v m) = m.
Proof.
  intros H. unfold obj_set. destruct (om_has k m) eqn:E.
  { apply om_has_spec in E as [? ?]. congruence. }
  destruct (array_index k); [by apply index_insert_del|by apply om_del_snoc].
Qed.

(** *** Values *)

Lemma om_vals_replace k v m x : x ∈ om_vals (om_replace k v m) → x = v ∨ x ∈ om_vals m.
Proof.
  unfold om_vals. induction m as [|[k' v'] m IH]; csimpl; [auto|].
  destruct (String.eqb k k'); csimpl; rewrite !elem_of_cons; naive_solver.
Qed.

Lemma om_vals_snoc k v m : om_vals (m ++ [(k, v)]) = om_vals m ++ [v].
Proof. unfold om_vals. by rewrite fmap_app. Qed.

Lemma om_vals_set k v m x : x ∈ om_vals (om_set k v m) → x = v ∨ x ∈ om_vals m.
Proof.
  unfold om_set. case_match; [apply om_vals_replace|].
  rewrite om_vals_snoc, elem_of_app, list_elem_of_singleton. tauto.
Qed.

Lemma om_vals_index_insert n k v m x : x ∈ om_vals (index_insert n k v m) → x = v ∨ x ∈ om_vals m.
Proof.
  unfold om_vals. induction m as [|[k' v'] m IH]; csimpl; [rewrite list_elem_of_singleton; tauto|].
  destruct (array_index k'); [destruct (_ <? _)|]; csimpl; rewrite !elem_of_cons; naive_solver.
Qed.

Lemma om_vals_obj_set k v m x : x ∈ om_vals (obj_set k v m) → x = v ∨ x ∈ om_vals m.
Proof.
  unfold obj_set. case_match; [apply om_vals_replace|]. case_match; [apply om_vals_index_insert|].
  rewrite om_vals_snoc, elem_of_app, list_elem_of_singleton. tauto.
Qed.

Lemma om_vals_del k m x : x ∈ om_vals (om_del k m) → x ∈ om_vals m.
Proof.
  unfold om_vals, om_del. rewrite !list_elem_of_fmap. intros (p & -> & [_ Hp]%elem_of_filter_bool). eauto.
Qed.

End omap.

(** *** Mapping the values, testing them *)

Lemma om_get_fmap {V W} (f : V → W) k (m : omap V) :
  om_get k (prod_map (λ k, k) f <$> m) = f <$> om_get k m.
Proof. induction m as [|[k' v] m IH]; csimpl; [done|]. by destruct (String.eqb k k'). Qed.

Lemma om_keys_fmap {V W} (f : V → W) (m : omap V) : om_keys (prod_map (λ k, k) f <$> m) = om_keys m.
Proof. unfold om_keys. rewrite <-list_fmap_compose. by apply list_fmap_ext. Qed.

Lemma om_keys_obj_set_old {V} k (v : V) m : is_Some (om_get k m) → om_keys (obj_set k v m) = om_keys m.
Proof. intros H%om_has_spec. unfold obj_set. rewrite H. apply om_keys_replace. Qed.

Lemma forallb_vals {V} (m : omap V) (P : V → bool) :
  NoDup (om_keys m) → (∀ k v, om_get k m = Some v → P v = true) → forallb P (om_vals m) = true.
Proof.
  intros Hnd H. apply forallb_elem. intros v (k & Hin)%om_vals_get. eapply H. by apply elem_of_om_get.
Qed.

Lemma om_nodup_filter {V} (P : string * V → bool) (m : omap V) :
  NoDup (om_keys m) → NoDup (om_keys (List.filter P m)).
Proof.
  unfold om_keys. induction m as [|[k v] m IH]; csimpl; [done|]. intros [Hni Hnd]%NoDup_cons.
  destruct (P (k, v)); csimpl; [|auto]. apply NoDup_cons. split; [|auto]. intros Hin. apply Hni.
  apply list_elem_of_fmap in Hin as (p & -> & [_ Hp]%elem_of_filter_bool). apply list_elem_of_fmap. eauto.
Qed.

Lemma om_get_filter {V} (P : string → V → bool) (m : omap V) :
  NoDup (om_keys m) → ∀ k v,
  om_get k (List.filter (λ p, P p.1 p.2) m) = Some v ↔ om_get k m = Some v ∧ P k v = true.
Proof.
  intros Hnd k v. split.
  - intros H%om_get_elem_of. apply elem_of_filter_bool in H as [HP Hin]. split; [by apply elem_of_om_get|done].
  - intros [Hk HP]. apply elem_of_om_get; [by apply om_nodup_filter|]. apply elem_of_filter_bool.
    split; [done|by apply om_get_elem_of].
Qed.

Lemma om_get_filter_key {V} (P : string → bool) (m : omap V) k :
  om_get k (List.filter (λ p, P p.1) m) = if P k then om_get k m else None.
Proof.
  induction m as [|[k' v] m IH]; cbn [List.filter om_get fst]; [by destruct (P k)|].
  destruct (String.eqb_spec k k') as [<-|Hne].
  - destruct (P k) eqn:E; cbn [om_get]; [by rewrite String.eqb_refl|done].
  - destruct (P k') eqn:E; cbn [om_get]; [|done]. by destruct (String.eqb_spec k k').
Qed.

(** *** Equality up to key order *)

Definition om_equiv {V} (m1 m2 : omap V) : Prop := ∀ k, om_get k m1 = om_get k m2.
Infix "≈ₘ" := om_equiv (at level 70, no associativity) : stdpp_scope.

#[export] Instance om_equiv_equivalence {V} : Equivalence (@om_equiv V).
Proof.
  split; repeat intro; [done|symmetry; auto|]. etrans; eauto.
Qed.

#[export] Instance om_get_proper {V} k : Proper (@om_equiv V ==> eq) (om_get k).
Proof. intros m1 m2 H. apply H. Qed.

#[export] Instance om_has_proper {V} k : Proper (@om_equiv V ==> eq) (om_has k).
Proof. intros m1 m2 H. unfold om_has. by rewrite H. Qed.

#[export] Instance om_set_proper {V} k v : Proper (@om_equiv V ==> om_equiv) (om_set k v).
Proof. intros m1 m2 H k'. by rewrite !om_get_set, H. Qed.

#[export] Instance obj_set_proper {V} k v : Proper (@om_equiv V ==> om_equiv) (obj_set k v).
Proof. intros m1 m2 H k'. by rewrite !om_get_obj_set, H. Qed.

#[export] Instance om_del_proper {V} k : Proper (@om_equiv V ==> om_equiv) (om_del k).
Proof. intros m1 m2 H k'. by rewrite !om_get_del, H. Qed.

Lemma om_equiv_perm {V} (m1 m2 : omap V) : NoDup (om_keys m1) → NoDup (om_keys m2) → m1 ≈ₘ m2 → m1 ≡ₚ m2.
Proof.
  intros H1 H2 He. apply NoDup_Permutation; [by eapply NoDup_fmap_1..|]. intros [k v].
  split; intros Hin; apply om_get_elem_of; [rewrite <-He|rewrite He]; by apply elem_of_om_get.
Qed.

(** *** Sums over the values *)

Section om_sum.
Context {V : Type} (f : V → Z).

Definition om_sum (m : omap V) : Z := foldr (λ v n, f v + n) 0 (om_vals m).
Definition om_at (k : string) (m : omap V) : Z := match om_get k m with Some v => f v | None => 0 end.

Lemma om_sum_perm m1 m2 : m1 ≡ₚ m2 → om_sum m1 = om_sum m2.
Proof.
  unfold om_sum, om_vals. intros Hp. assert (Hp2 : m1.*2 ≡ₚ m2.*2) by by rewrite Hp.
  induction Hp2; simpl; [done|by f_equal|lia|congruence].
Qed.

Lemma om_sum_equiv m1 m2 : NoDup (om_keys m1) → NoDup (om_keys m2) → m1 ≈ₘ m2 → om_sum m1 = om_sum m2.
Proof. intros. by apply om_sum_perm, om_equiv_perm. Qed.

Lemma om_sum_split k m : NoDup (om_keys m) → om_sum m = om_sum (om_del k m) + om_at k m.
Proof.
  intros Hnd. unfold om_at. destruct (om_get k m) as [v|] eqn:Hk; [|rewrite om_del_id by done; lia].
  rewrite (om_sum_equiv m ((k, v) :: om_del k m)); [unfold om_sum; simpl; lia|done| |].
  - unfold om_keys. csimpl. apply NoDup_cons. split; [|by apply om_nodup_del].
    apply om_get_None. by rewrite om_get_del_eq.
  - intros k'. simpl. rewrite om_get_del, (String.eqb_sym k'). by destruct (String.eqb_spec k k') as [<-|].
Qed.

Lemma om_sum_set k v m : NoDup (om_keys m) → om_sum (obj_set k v m) = om_sum m - om_at k m + f v.
Proof.
  intros Hnd. rewrite (om_sum_split k (obj_set k v m)) by by apply om_nodup_obj_set.
  rewrite (om_sum_split k m) by done. unfold om_at at 1. rewrite om_get_obj_set_eq.
  rewrite (om_sum_equiv (om_del k (obj_set k v m)) (om_del k m)); [lia|by apply om_nodup_del, om_nodup_obj_set|by apply om_nodup_del|].
  intros k'. rewrite !om_get_del, om_get_obj_set. by destruct (String.eqb k k').
Qed.

End om_sum.

#[export] Hint Resolve om_nodup_set om_nodup_obj_set om_nodup_del om_get_vals : omap.
#[export] Hint Rewrite @om_get_set_eq @om_get_obj_set_eq @om_get_del_eq : omap_rw.
