(* ===== verification/Json.v ===== *)
(** * JSON text and JSON copies

    [JSON.stringify], the copy [JSON.parse(JSON.stringify(v))] that the stores use as [clone], and
    member access. The decimal text of a number is the parameter [num_str]; everything else is
    computed. An object's entries are taken in the order the object enumerates them. *)

From Stdlib Require Import ZArith QArith Lia String Ascii.
From stdpp Require Import base list strings.
From S2P Require Import Prelude OMap.
#[local] Open Scope stdpp_scope.

Section json.
Context (num_str : num → string).

Definition hex_digit (n : nat) : ascii :=
  if (n <? 10)%nat then ascii_of_nat (48 + n) else ascii_of_nat (87 + n).

Definition quote_char : ascii := ascii_of_nat 34.
Definition backslash : ascii := ascii_of_nat 92.

Definition escape_char (c : ascii) : string :=
  let n := nat_of_ascii c in
  let esc (x : ascii) := String backslash (String x EmptyString) in
  if (n =? 34)%nat || (n =? 92)%nat then esc c
  else if (n =? 8)%nat then esc "b"%char
  else if (n =? 9)%nat then esc "t"%char
  else if (n =? 10)%nat then esc "n"%char
  else if (n =? 12)%nat then esc "f"%char
  else if (n =? 13)%nat then esc "r"%char
  else if (n <? 32)%nat then
    String backslash (String "u" (String "0" (String "0"
      (String (hex_digit (n / 16)) (String (hex_digit (n mod 16)) EmptyString)))))
  else String c EmptyString.

Fixpoint escape (s : string) : string :=
  match s with
  | EmptyString => EmptyString
  | String c s' => escape_char c +:+ escape s'
  end.

Definition quoted (s : string) : string :=
  String quote_char (escape s +:+ String quote_char EmptyString).

(** [JSON.stringify(v)]; [None] is [undefined]. *)
Fixpoint stringify (v : jval) : option string :=
  match v with
  | JUndef | JFunc _ => None
  | JNull => Some "null"
  | JBool b => Some (if b then "true" else "false")
  | JNum (Fin q) => Some (num_str (Fin q))
  | JNum _ => Some "null"
  | JStr s => Some (quoted s)
  | JArr l =>
      Some ("[" +:+ join "," (List.map (λ x, default "null" (stringify x)) l) +:+ "]")
  | JObj o =>
      Some ("{" +:+ join ","
        ((fix go o := match o with
          | [] => []
          | (k, x) :: o' =>
              match stringify x with
              | Some t => (quoted k +:+ ":" +:+ t) :: go o'
              | None => go o'
              end
          end) o) +:+ "}")
  end.

(** [String(v)]; a JSON document's objects have no [toString] of their own. *)
Fixpoint to_str (v : jval) : string :=
  match v with
  | JUndef => "undefined"
  | JNull => "null"
  | JBool b => if b then "true" else "false"
  | JNum n => num_str n
  | JStr s => s
  | JArr l => join "," (List.map (λ x, if is_nullish x then EmptyString else to_str x) l)
  | JObj _ => "[object Object]"
  | JFunc f => "function " +:+ f
  end.

(** [Number(v)], given the reading of a numeric string. *)
Definition to_number (str_num : string → num) (v : jval) : num :=
  match v with
  | JNum n => n
  | JNull => Fin 0
  | JBool b => Fin (if b then 1 else 0)
  | JStr s => str_num s
  | JArr _ => str_num (to_str v)
  | JUndef | JObj _ | JFunc _ => NaN
  end.

End json.

(** What survives a JSON round trip: [None] where the text is [undefined]; array holes become
    [null], object members without text disappear, non-finite numbers become [null]. *)
Fixpoint json_copy (v : jval) : option jval :=
  match v with
  | JUndef | JFunc _ => None
  | JNum (Fin q) => Some (JNum (Fin q))
  | JNum _ => Some JNull
  | JArr l => Some (JArr (List.map (λ x, default JNull (json_copy x)) l))
  | JObj o =>
      Some (JObj ((fix go o := match o with
        | [] => []
        | (k, x) :: o' =>
            match json_copy x with
            | Some y => (k, y) :: go o'
            | None => go o'
            end
        end) o))
  | JNull | JBool _ | JStr _ => Some v
  end.

(** [clone(value)]: [undefined] stays [undefined]. *)
Definition clone (v : jval) : jval := default JUndef (json_copy v).

Lemma stringify_copy num_str v : stringify num_str v = None ↔ json_copy v = None.
Proof. destruct v as [| |b|[| |q]|s|l|o|f]; done. Qed.

Definition object_members : list string :=
  ["constructor"; "hasOwnProperty"; "isPrototypeOf"; "propertyIsEnumerable"; "toLocaleString";
   "toString"; "valueOf"; "__proto__"; "__defineGetter__"; "__defineSetter__"; "__lookupGetter__";
   "__lookupSetter__"].

Definition array_members : list string :=
  ["at"; "concat"; "copyWithin"; "entries"; "every"; "fill"; "filter"; "find"; "findIndex";
   "findLast"; "findLastIndex"; "flat"; "flatMap"; "forEach"; "includes"; "indexOf"; "join"; "keys";
   "lastIndexOf"; "map"; "pop"; "push"; "reduce"; "reduceRight"; "reverse"; "shift"; "slice"; "some";
   "sort"; "splice"; "toReversed"; "toSorted"; "toSpliced"; "unshift"; "values"; "with"].

(** [v[k]] where [typeof v] is ['object'] and [v] is not [null]. *)
Definition member (v : jval) (k : string) : jval :=
  let inherited := if existsb (String.eqb k) object_members then JFunc k else JUndef in
  match v with
  | JObj o => if has_own v k then prop_in k o else inherited
  | JArr l =>
      match array_index k with
      | Some n => default JUndef (nth_error l (Z.to_nat n))
      | None =>
          if String.eqb k "length" then JNum (Fin (inject_Z (Z.of_nat (length l))))
          else if existsb (String.eqb k) array_members then JFunc k
          else inherited
      end
  | _ => JUndef
  end.

(** [a.includes(v)]: like [===] except that NaN is found. *)
Definition same_value_zero (a b : jval) : bool :=
  match a, b with JNum NaN, JNum NaN => true | _, _ => strict_eq a b end.

Definition array_includes (a v : jval) : bool :=
  match a with JArr l => existsb (same_value_zero v) l | _ => false end.
