(* ===== verification/JsonParse.v ===== *)
(** * Reading JSON text

    [JSON.parse], written after the JSON grammar, and its agreement with [JSON.stringify]: reading
    the text of a value gives the copy that [Json.json_copy] computes, which is what the stores that
    clone through [JSON.parse(JSON.stringify(v))] and the journals that are read back from disk rely
    on. The reader is a function with fuel; its fuel, twice the length of the text, always suffices.

    Strings are Latin-1: an escape above [\u00ff] denotes a code unit outside the model and is
    refused here. The value of a number's text is the parameter [str_num]. *)

From Stdlib Require Import ZArith QArith Lia String Ascii.
From stdpp Require Import base list strings sorting.
From S2P Require Import Prelude OMap Json.
#[local] Open Scope stdpp_scope.

(** What a reader makes of a text: a value and the rest of the text, a syntax error, or no more fuel. *)
Inductive parsed (A : Type) : Type :=
| Got (a : A) (rest : string)
| Bad
| Fuel.
Arguments Got {A} a rest.
Arguments Bad {A}.
Arguments Fuel {A}.

(** ** Lexical elements *)

Definition json_ws (c : ascii) : bool :=
  let n := nat_of_ascii c in (n =? 32)%nat || (n =? 9)%nat || (n =? 10)%nat || (n =? 13)%nat.

Fixpoint skip (s : string) : string :=
  match s with
  | String c s' => if json_ws c then skip s' else s
  | EmptyString => EmptyString
  end.

Fixpoint strip (k s : string) : option string :=
  match k, s with
  | EmptyString, _ => Some s
  | String a k', String b s' => if Ascii.eqb a b then strip k' s' else None
  | String _ _, EmptyString => None
  end.

Definition is_digit (c : ascii) : bool := is_Some_b (digit_of c).

(** The longest run of digits, and what follows it. *)
Fixpoint digits (s : string) : string * string :=
  match s with
  | String c s' => if is_digit c then let '(d, r) := digits s' in (String c d, r) else (EmptyString, s)
  | EmptyString => (EmptyString, EmptyString)
  end.

Definition sign_of (p : ascii → bool) (s : string) : string * string :=
  match s with
  | String c r => if p c then (String c EmptyString, r) else (EmptyString, s)
  | EmptyString => (EmptyString, EmptyString)
  end.

Definition int_part (s : string) : option (string * string) :=
  match s with
  | String c r =>
      if Ascii.eqb c "0" then Some (String c EmptyString, r)
      else if is_digit c then let '(d, r') := digits r in Some (String c d, r')
      else None
  | EmptyString => None
  end.

Definition frac_part (s : string) : option (string * string) :=
  match s with
  | String c r =>
      if Ascii.eqb c "." then let '(d, r') := digits r in if truthy d then Some (String c d, r') else None
      else Some (EmptyString, s)
  | EmptyString => Some (EmptyString, EmptyString)
  end.

Definition is_e (c : ascii) : bool := Ascii.eqb c "e" || Ascii.eqb c "E".
Definition is_minus (c : ascii) : bool := Ascii.eqb c "-".
Definition is_sign (c : ascii) : bool := Ascii.eqb c "-" || Ascii.eqb c "+".

Definition exp_part (s : string) : option (string * string) :=
  match s with
  | String c r =>
      if is_e c then
        let '(sg, r1) := sign_of is_sign r in
        let '(d, r2) := digits r1 in
        if truthy d then Some (String c (sg +:+ d), r2) else None
      else Some (EmptyString, s)
  | EmptyString => Some (EmptyString, EmptyString)
  end.

(** A number's text and what follows it. *)
Definition number (s : string) : option (string * string) :=
  let '(sg, r0) := sign_of is_minus s in
  match int_part r0 with
  | None => None
  | Some (i, r1) =>
      match frac_part r1 with
      | None => None
      | Some (f, r2) =>
          match exp_part r2 with
          | None => None
          | Some (e, r3) => Some (sg +:+ (i +:+ (f +:+ e)), r3)
          end
      end
  end.

Definition hex_value (c : ascii) : option nat :=
  let n := nat_of_ascii c in
  if (48 <=? n)%nat && (n <=? 57)%nat then Some (n - 48)%nat
  else if (97 <=? n)%nat && (n <=? 102)%nat then Some (n - 87)%nat
  else if (65 <=? n)%nat && (n <=? 70)%nat then Some (n - 55)%nat
  else None.

(** The character an escape letter other than [u] stands for. *)
Definition unescape (c : ascii) : option ascii :=
  if Ascii.eqb c quote_char || Ascii.eqb c backslash || Ascii.eqb c "/" then Some c
  else if Ascii.eqb c "b" then Some (ascii_of_nat 8)
  else if Ascii.eqb c "t" then Some (ascii_of_nat 9)
  else if Ascii.eqb c "n" then Some (ascii_of_nat 10)
  else if Ascii.eqb c "f" then Some (ascii_of_nat 12)
  else if Ascii.eqb c "r" then Some (ascii_of_nat 13)
  else None.

Definition consc (c : ascii) (r : option (string * string)) : option (string * string) :=
  match r with Some (s, t) => Some (String c s, t) | None => None end.

(** The body of a string literal after its opening quote, and what follows the closing one. *)
Fixpoint string_lit (s : string) : option (string * string) :=
  match s with
  | EmptyString => None
  | String c s' =>
      if Ascii.eqb c quote_char then Some (EmptyString, s')
      else if Ascii.eqb c backslash then
        match s' with
        | EmptyString => None
        | String e s2 =>
            if Ascii.eqb e "u" then
              match s2 with
              | String z1 (String z2 (String h1 (String h2 s3))) =>
                  match Ascii.eqb z1 "0" && Ascii.eqb z2 "0", hex_value h1, hex_value h2 with
                  | true, Some a, Some b => consc (ascii_of_nat (16 * a + b)) (string_lit s3)
                  | _, _, _ => None
                  end
              | _ => None
              end
            else match unescape e with Some x => consc x (string_lit s2) | None => None end
        end
      else if (nat_of_ascii c <? 32)%nat then None
      else consc c (string_lit s')
  end.

(** ** Values *)

Section parse.
Context (str_num : string → num).

Definition scalar (s : string) : parsed jval :=
  match strip "true" s, strip "false" s, strip "null" s with
  | Some r, _, _ => Got (JBool true) r
  | _, Some r, _ => Got (JBool false) r
  | _, _, Some r => Got JNull r
  | None, None, None => match number s with Some (t, r) => Got (JNum (str_num t)) r | None => Bad end
  end.

Fixpoint value (n : nat) (s : string) : parsed jval :=
  match n with
  | O => Fuel
  | S n =>
      match skip s with
      | EmptyString => Bad
      | String c r =>
          if Ascii.eqb c "{" then
            match skip r with
            | String d r' => if Ascii.eqb d "}" then Got (JObj []) r' else members n [] (String d r')
            | EmptyString => Bad
            end
          else if Ascii.eqb c "[" then
            match skip r with
            | String d r' => if Ascii.eqb d "]" then Got (JArr []) r' else elements n [] (String d r')
            | EmptyString => Bad
            end
          else if Ascii.eqb c quote_char then
            match string_lit r with Some (t, r') => Got (JStr t) r' | None => Bad end
          else scalar (String c r)
      end
  end
with elements (n : nat) (acc : list jval) (s : string) : parsed jval :=
  match n with
  | O => Fuel
  | S n =>
      match value n s with
      | Got v r =>
          match skip r with
          | String c r' =>
              if Ascii.eqb c "," then elements n (acc ++ [v]) r'
              else if Ascii.eqb c "]" then Got (JArr (acc ++ [v])) r'
              else Bad
          | EmptyString => Bad
          end
      | Bad => Bad
      | Fuel => Fuel
      end
  end
with members (n : nat) (acc : omap jval) (s : string) : parsed jval :=
  match n with
  | O => Fuel
  | S n =>
      match skip s with
      | String q r =>
          if Ascii.eqb q quote_char then
            match string_lit r with
            | Some (k, r1) =>
                match skip r1 with
                | String c r2 =>
                    if Ascii.eqb c ":" then
                      match value n r2 with
                      | Got v r3 =>
                          match skip r3 with
                          | String d r4 =>
                              if Ascii.eqb d "," then members n (obj_set k v acc) r4
                              else if Ascii.eqb d "}" then Got (JObj (obj_set k v acc)) r4
                              else Bad
                          | EmptyString => Bad
                          end
                      | Bad => Bad
                      | Fuel => Fuel
                      end
                    else Bad
                | EmptyString => Bad
                end
            | None => Bad
            end
          else Bad
      | EmptyString => Bad
      end
  end.

Definition fuel_for (s : string) : nat := (2 * String.length s + 2)%nat.

(** [JSON.parse(s)] *)
Definition json_parse (s : string) : result jval :=
  match value (fuel_for s) s with
  | Got v r => if truthy (skip r) then Throw "SyntaxError" else Ok v
  | Bad => Throw "SyntaxError"
  | Fuel => Throw "OutOfFuel"
  end.

End parse.

(** ** The reader never runs out of fuel *)

Lemma skip_length s : (String.length (skip s) ≤ String.length s)%nat.
Proof. induction s as [|c s IH]; [done|]. cbn [skip]. case_match; simpl; lia. Qed.

Lemma strip_length k s r : strip k s = Some r → (String.length s = String.length k + String.length r)%nat.
Proof.
  revert s. induction k as [|a k IH]; intros s H; [by injection H as ->|].
  destruct s as [|b s]; [done|]. cbn [strip] in H. destruct (Ascii.eqb a b); [|done]. apply IH in H. simpl. lia.
Qed.

Lemma digits_app s : let '(d, r) := digits s in s = d +:+ r.
Proof.
  induction s as [|c s IH]; [done|]. cbn [digits]. destruct (is_digit c); [|done].
  destruct (digits s) as [d r]. exact (f_equal (String c) IH).
Qed.

Lemma sign_app p s : let '(d, r) := sign_of p s in s = d +:+ r.
Proof. destruct s as [|c s]; [done|]. cbn [sign_of]. by destruct (p c). Qed.

Lemma int_app s i r : int_part s = Some (i, r) → s = i +:+ r ∧ i ≠ EmptyString.
Proof.
  destruct s as [|c s]; [done|]. cbn [int_part]. destruct (Ascii.eqb c "0"); [by intros [= <- <-]|].
  destruct (is_digit c); [|done]. pose proof (digits_app s) as H. destruct (digits s) as [d r'].
  intros [= <- <-]. split; [|done]. exact (f_equal (String c) H).
Qed.

Lemma frac_app s f r : frac_part s = Some (f, r) → s = f +:+ r.
Proof.
  destruct s as [|c s]; [by intros [= <- <-]|]. cbn [frac_part]. destruct (Ascii.eqb c "."); [|by intros [= <- <-]].
  pose proof (digits_app s) as H. destruct (digits s) as [d r']. destruct (truthy d); [|done].
  intros [= <- <-]. exact (f_equal (String c) H).
Qed.

Lemma exp_app s e r : exp_part s = Some (e, r) → s = e +:+ r.
Proof.
  destruct s as [|c s]; [by intros [= <- <-]|]. cbn [exp_part]. destruct (is_e c); [|by intros [= <- <-]].
  pose proof (sign_app is_sign s) as Hs. destruct (sign_of is_sign s) as [sg r1].
  pose proof (digits_app r1) as Hd. destruct (digits r1) as [d r2]. destruct (truthy d); [|done].
  intros [= <- <-]. rewrite Hs, Hd, <-app_assoc_s. done.
Qed.

(** A number's text is a non-empty prefix. *)
Lemma number_app s t r : number s = Some (t, r) → s = t +:+ r ∧ t ≠ EmptyString.
Proof.
  unfold number. pose proof (sign_app is_minus s) as Hs. destruct (sign_of is_minus s) as [sg r0].
  destruct (int_part r0) as [[i r1]|] eqn:Hi; [|done]. apply int_app in Hi as [Hi Hne].
  destruct (frac_part r1) as [[f r2]|] eqn:Hf; [|done]. apply frac_app in Hf.
  destruct (exp_part r2) as [[e r3]|] eqn:He; [|done]. apply exp_app in He.
  intros [= <- <-]. rewrite Hs, Hi, Hf, He, !app_assoc_s. split; [done|]. by destruct sg, i.
Qed.

Lemma string_lit_length s t r : string_lit s = Some (t, r) → (String.length r < String.length s)%nat.
Proof.
  assert (Hk : ∀ c o, consc c o = Some (t, r) → ∃ t', o = Some (t', r)).
  { intros c [[t' r']|]; [|done]. intros [= <- <-]. eauto. }
  remember (String.length s) as n eqn:Hn. revert s t r Hn Hk. induction n as [n IH] using lt_wf_ind.
  intros s t r -> Hk H.
  destruct s as [|c s]; [done|]. cbn [string_lit] in H.
  destruct (Ascii.eqb c quote_char); [injection H as <- <-; simpl; lia|].
  assert (Hi : ∀ c' s', (String.length s' < S (String.length s))%nat → consc c' (string_lit s') = Some (t, r) →
    (String.length r < S (String.length s))%nat).
  { intros c' s' Hl Hc. destruct (Hk _ _ Hc) as [t' Hs'].
    specialize (IH (String.length s') Hl s' t' r eq_refl). cut (String.length r < String.length s')%nat; [lia|].
    apply IH; [|done]. intros c0 [[t0 r0]|]; [|done]. cbn. intros [= ? <-]. eauto. }
  destruct (Ascii.eqb c backslash).
  - destruct s as [|e s2]; [done|]. destruct (Ascii.eqb e "u").
    + destruct s2 as [|z1 [|z2 [|h1 [|h2 s3]]]]; try done.
      destruct (_ && _), (hex_value h1), (hex_value h2); try done. apply Hi in H; simpl in *; lia.
    + destruct (unescape e); [|done]. apply Hi in H; simpl in *; lia.
  - destruct (nat_of_ascii c <? 32)%nat; [done|]. apply Hi in H; simpl; lia.
Qed.

Section fuel.
Context (str_num : string → num).
Implicit Types (s r : string) (v : jval).

Lemma scalar_length s v r : scalar str_num s = Got v r → (String.length r < String.length s)%nat.
Proof.
  unfold scalar. destruct (strip "true" s) eqn:H1; [apply strip_length in H1; intros [= <- <-]; simpl in *; lia|].
  destruct (strip "false" s) eqn:H2; [apply strip_length in H2; intros [= <- <-]; simpl in *; lia|].
  destruct (strip "null" s) eqn:H3; [apply strip_length in H3; intros [= <- <-]; simpl in *; lia|].
  destruct (number s) as [[t r']|] eqn:H; [|done]. apply number_app in H as [-> Hne]. intros [= <- <-].
  rewrite length_app_s. destruct t; [done|simpl; lia].
Qed.

Lemma scalar_fuel s : scalar str_num s ≠ Fuel.
Proof. unfold scalar. repeat case_match; congruence. Qed.

Ltac skips :=
  repeat match goal with
  | H : skip ?s = ?t |- _ =>
      let L := fresh "L" in pose proof (skip_length s) as L; rewrite H in L; cbn [String.length] in L; clear H
  | H : string_lit ?s = Some _ |- _ => apply string_lit_length in H
  end.

Ltac cases H :=
  repeat match type of H with
  | context [match skip ?s with EmptyString => _ | String _ _ => _ end] =>
      let E := fresh "E" in destruct (skip s) eqn:E; [try done|]; cbn [String.length] in *
  | context [if ?b then _ else _] => destruct b; try done
  | context [match string_lit ?s with Some _ => _ | None => _ end] =>
      let E := fresh "E" in destruct (string_lit s) as [[? ?]|] eqn:E; [|done]
  end.

Lemma rest_shorter n :
  (∀ s v r, value str_num n s = Got v r → (String.length r < String.length s)%nat) ∧
  (∀ acc s v r, elements str_num n acc s = Got v r → (String.length r < String.length s)%nat) ∧
  (∀ acc s v r, members str_num n acc s = Got v r → (String.length r < String.length s)%nat).
Proof.
  induction n as [|n (IHv & IHe & IHm)]; [done|]. split_and!.
  - intros s v r H. cbn [value] in H. cases H; skips;
      try (injection H as <- <-); try (apply IHm in H); try (apply IHe in H); try (apply scalar_length in H);
      cbn [String.length] in *; lia.
  - intros acc s v r H. cbn [elements] in H. destruct (value str_num n s) as [v0 r0| |] eqn:E0; [|done|done].
    apply IHv in E0. cases H; skips; try (injection H as <- <-); try (apply IHe in H); try done; cbn [String.length] in *; lia.
  - intros acc s v r H. cbn [members] in H. cases H; try done.
    match type of H with context [value str_num n ?x] => destruct (value str_num n x) as [v0 r0| |] eqn:EV; [|done|done] end.
    apply IHv in EV. cases H; skips; try (injection H as <- <-); try (apply IHm in H); try done; cbn [String.length] in *; lia.
Qed.

Lemma fuel_suffices n :
  (∀ s, (2 * String.length s + 1 ≤ n)%nat → value str_num n s ≠ Fuel) ∧
  (∀ acc s, (2 * String.length s + 2 ≤ n)%nat → elements str_num n acc s ≠ Fuel) ∧
  (∀ acc s, (2 * String.length s + 1 ≤ n)%nat → members str_num n acc s ≠ Fuel).
Proof.
  induction n as [|n (IHv & IHe & IHm)]; [split_and!; intros; lia|].
  destruct (rest_shorter n) as (Rv & _ & _). split_and!.
  - intros s Hn H. cbn [value] in H.
    cases H; skips; try done; cbn [String.length] in *;
      first [by apply scalar_fuel in H | apply IHm in H; [done|cbn [String.length]; lia] | apply IHe in H; [done|cbn [String.length]; lia]].
  - intros acc s Hn H. cbn [elements] in H. destruct (value str_num n s) as [v0 r0| |] eqn:E0.
    + apply Rv in E0. cases H; skips; try done. apply IHe in H; [done|lia].
    + done.
    + apply IHv in E0; [done|lia].
  - intros acc s Hn H. cbn [members] in H. cases H; try done.
    match type of H with context [value str_num n ?x] => destruct (value str_num n x) as [v0 r0| |] eqn:EV end.
    + apply Rv in EV. cases H; skips; try done. apply IHm in H; [done|lia].
    + done.
    + apply IHv in EV; [done|]. skips. lia.
Qed.

(** More fuel changes nothing once there was enough. *)
Lemma fuel_more n :
  (∀ s m, (n ≤ m)%nat → value str_num n s ≠ Fuel → value str_num m s = value str_num n s) ∧
  (∀ acc s m, (n ≤ m)%nat → elements str_num n acc s ≠ Fuel → elements str_num m acc s = elements str_num n acc s) ∧
  (∀ acc s m, (n ≤ m)%nat → members str_num n acc s ≠ Fuel → members str_num m acc s = members str_num n acc s).
Proof.
  induction n as [|n (IHv & IHe & IHm)]; [done|]. split_and!; intros; destruct m as [|m]; try lia.
  - cbn [value] in *. destruct (skip s) as [|c r]; [done|].
    destruct (Ascii.eqb c "{"); [|destruct (Ascii.eqb c "["); [|done]];
      destruct (skip r) as [|d r']; try done; destruct (Ascii.eqb d _); try done;
      [apply IHm|apply IHe]; (lia || done).
  - cbn [elements] in *. destruct (value str_num n s) as [v0 r0| |] eqn:E0; [| |done];
      rewrite (IHv s m), E0 by (lia || congruence); [|done].
    destruct (skip r0) as [|c r]; [done|]. destruct (Ascii.eqb c ","); [|done]. apply IHe; [lia|done].
  - cbn [members] in *. destruct (skip s) as [|q r]; [done|]. destruct (Ascii.eqb q quote_char); [|done].
    destruct (string_lit r) as [[k r1]|]; [|done]. destruct (skip r1) as [|c r2]; [done|].
    destruct (Ascii.eqb c ":"); [|done].
    destruct (value str_num n r2) as [v0 r0| |] eqn:E0; [| |done];
      rewrite (IHv r2 m), E0 by (lia || congruence); [|done].
    destruct (skip r0) as [|d r4]; [done|]. destruct (Ascii.eqb d ","); [|done]. apply IHm; [lia|done].
Qed.

(** [JSON.parse] returns or throws a syntax error on every text. *)
Theorem json_parse_total s : json_parse str_num s ≠ Throw "OutOfFuel".
Proof.
  unfold json_parse, fuel_for. destruct (fuel_suffices (2 * String.length s + 2)) as (Hv & _ & _).
  specialize (Hv s ltac:(lia)). destruct (value _ _ _); [|done|done]. by destruct (truthy _).
Qed.

End fuel.

(** ** Reading back what [JSON.stringify] wrote *)

Fixpoint jval_ind' (P : jval → Prop) (HU : P JUndef) (HN : P JNull) (HB : ∀ b, P (JBool b)) (HM : ∀ n, P (JNum n))
    (HS : ∀ s, P (JStr s)) (HA : ∀ l, Forall P l → P (JArr l)) (HO : ∀ o : omap jval, Forall P o.*2 → P (JObj o))
    (HF : ∀ f, P (JFunc f)) (v : jval) : P v :=
  let rec := jval_ind' P HU HN HB HM HS HA HO HF in
  match v with
  | JUndef => HU
  | JNull => HN
  | JBool b => HB b
  | JNum n => HM n
  | JStr s => HS s
  | JArr l => HA l ((fix go l := match l return Forall P l with [] => List.Forall_nil P | x :: l' => List.Forall_cons P x l' (rec x) (go l') end) l)
  | JObj o => HO o ((fix go (o : omap jval) := match o return Forall P (fmap snd o) with [] => List.Forall_nil P | (k, x) :: o' => List.Forall_cons P x (o'.*2) (rec x) (go o') end) o)
  | JFunc f => HF f
  end.

(** An object enumerates its array-index keys first, in increasing order, and no key twice. *)
Definition key_before (k k' : string) : Prop :=
  match array_index k, array_index k' with
  | Some a, Some b => a < b
  | Some _, None => True
  | None, Some _ => False
  | None, None => k ≠ k'
  end.

Definition object_order (o : omap jval) : Prop := StronglySorted key_before (om_keys o).

Lemma key_before_ne k k' : key_before k k' → k ≠ k'.
Proof. unfold key_before. intros H ->. destruct (array_index k'); [lia|done]. Qed.

(** Assigning the keys in that order appends each at the end. *)
Lemma obj_set_ordered k v (acc : omap jval) :
  Forall (λ k', key_before k' k) (om_keys acc) → obj_set k v acc = acc ++ [(k, v)].
Proof.
  intros H. unfold obj_set. replace (om_has k acc) with false.
  - destruct (array_index k) as [n|] eqn:E; [|done]. induction acc as [|[k' v'] acc IH]; [done|].
    apply Forall_cons in H as [Hk H]. cbn [index_insert fst om_keys] in *. unfold key_before in Hk. rewrite E in Hk.
    destruct (array_index k') as [n'|]; [|done]. replace (n' <? n) with true by lia. by rewrite IH.
  - symmetry. apply om_has_false. induction acc as [|[k' v'] acc IH]; [done|]. apply Forall_cons in H as [Hk H].
    cbn [om_get]. destruct (String.eqb_spec k k') as [->|]; [by apply key_before_ne in Hk|]. by apply IH.
Qed.

Section text.
Context (num_str : num → string) (str_num : string → num).
Implicit Types (v : jval) (s t : string).

(** A value whose objects are in enumeration order and whose numbers read back from their text. *)
Inductive readable : jval → Prop :=
| rd_undef : readable JUndef
| rd_null : readable JNull
| rd_bool b : readable (JBool b)
| rd_nan : readable (JNum NaN)
| rd_inf (neg : bool) : readable (JNum (Inf neg))
| rd_fin q : number (num_str (Fin q)) = Some (num_str (Fin q), EmptyString) →
             str_num (num_str (Fin q)) = Fin q → readable (JNum (Fin q))
| rd_str s : readable (JStr s)
| rd_arr l : Forall readable l → readable (JArr l)
| rd_obj (o : omap jval) : object_order o → Forall readable o.*2 → readable (JObj o)
| rd_func f : readable (JFunc f).

(** The text and the copy of an element, where a value without text counts as [null]. *)
Definition text_in (v : jval) : string := default "null" (stringify num_str v).
Definition copy_in (v : jval) : jval := default JNull (json_copy v).

Fixpoint member_texts (o : omap jval) : list string :=
  match o with
  | [] => []
  | (k, x) :: o' =>
      match stringify num_str x with
      | Some t => (quoted k +:+ ":" +:+ t) :: member_texts o'
      | None => member_texts o'
      end
  end.

Fixpoint member_copies (o : omap jval) : omap jval :=
  match o with
  | [] => []
  | (k, x) :: o' =>
      match json_copy x with
      | Some y => (k, y) :: member_copies o'
      | None => member_copies o'
      end
  end.

Lemma text_in_arr l : text_in (JArr l) = "[" +:+ (join "," (List.map text_in l) +:+ "]").
Proof. done. Qed.

Lemma text_in_obj o : text_in (JObj o) = "{" +:+ (join "," (member_texts o) +:+ "}").
Proof. done. Qed.

Lemma copy_in_obj o : copy_in (JObj o) = JObj (member_copies o).
Proof. done. Qed.

(** Enough fuel reads [v] off the front of [s] and leaves [r]. *)
Definition reads s v r : Prop := ∃ n0, ∀ n, (n0 ≤ n)%nat → value str_num n s = Got v r.
Definition reads_elements acc s v r : Prop := ∃ n0, ∀ n, (n0 ≤ n)%nat → elements str_num n acc s = Got v r.
Definition reads_members acc s v r : Prop := ∃ n0, ∀ n, (n0 ≤ n)%nat → members str_num n acc s = Got v r.

Lemma reads_parse s v r : reads s v r → skip r = EmptyString → json_parse str_num s = Ok v.
Proof.
  intros [n0 Hr] Hskip. unfold json_parse, fuel_for.
  destruct (fuel_suffices str_num (2 * String.length s + 2)) as (Hf & _ & _). specialize (Hf s ltac:(lia)).
  destruct (fuel_more str_num (2 * String.length s + 2)) as (Hm & _ & _).
  specialize (Hm s (n0 + (2 * String.length s + 2))%nat ltac:(lia) Hf). rewrite <-Hm, Hr by lia. by rewrite Hskip.
Qed.

(** What may follow a value: the end of the text, or a character no number continues with. *)
Definition tail_ok (r : string) : bool :=
  match r with
  | String c _ => negb (is_digit c || Ascii.eqb c "." || is_e c)
  | EmptyString => true
  end.

Lemma digits_tail s d r u : digits s = (d, r) → tail_ok u = true → digits (s +:+ u) = (d, r +:+ u).
Proof.
  intros H Hu. revert d r H. induction s as [|c s IH]; intros d r H.
  - injection H as <- <-. destruct u as [|c u]; [done|]. change (digits (String c u) = (EmptyString, String c u)).
    cbn [digits]. cbn [tail_ok] in Hu. by destruct (is_digit c).
  - change (digits (String c (s +:+ u)) = (d, r +:+ u)). cbn [digits] in *.
    destruct (is_digit c); [|by injection H as <- <-]. destruct (digits s) as [d' r'].
    injection H as <- <-. by rewrite (IH d' r').
Qed.

Lemma number_tail t u : number t = Some (t, EmptyString) → tail_ok u = true → number (t +:+ u) = Some (t, u).
Proof.
  assert (Hi : ∀ s i r, int_part s = Some (i, r) → tail_ok u = true → int_part (s +:+ u) = Some (i, r +:+ u)).
  { intros [|c s] i r H Hu; [done|]. change (int_part (String c (s +:+ u)) = Some (i, r +:+ u)). cbn [int_part] in *.
    destruct (Ascii.eqb c "0"); [by injection H as <- <-|]. destruct (is_digit c); [|done].
    destruct (digits s) as [d r'] eqn:E. injection H as <- <-. by rewrite (digits_tail _ _ _ _ E). }
  assert (Hf : ∀ s f r, frac_part s = Some (f, r) → tail_ok u = true → frac_part (s +:+ u) = Some (f, r +:+ u)).
  { intros [|c s] f r H Hu.
    - injection H as <- <-. change (frac_part u = Some (EmptyString, u)). destruct u as [|c u]; [done|].
      cbn [frac_part tail_ok] in *. destruct (Ascii.eqb c "."); [by rewrite orb_true_r in Hu|done].
    - change (frac_part (String c (s +:+ u)) = Some (f, r +:+ u)). cbn [frac_part] in *.
      destruct (Ascii.eqb c "."); [|by injection H as <- <-].
      destruct (digits s) as [d r'] eqn:E. rewrite (digits_tail _ _ _ _ E) by done. destruct (truthy d); [|done]. by injection H as <- <-. }
  assert (He : ∀ s e r, exp_part s = Some (e, r) → tail_ok u = true → exp_part (s +:+ u) = Some (e, r +:+ u)).
  { intros [|c s] e r H Hu.
    - injection H as <- <-. change (exp_part u = Some (EmptyString, u)). destruct u as [|c u]; [done|].
      cbn [exp_part tail_ok] in *. destruct (is_e c); [by rewrite orb_true_r in Hu|done].
    - change (exp_part (String c (s +:+ u)) = Some (e, r +:+ u)). cbn [exp_part] in *.
      destruct (is_e c); [|by injection H as <- <-].
      destruct s as [|c' s]; [done|]. cbn [sign_of] in H.
      change (String c' s +:+ u) with (String c' (s +:+ u)). cbn [sign_of].
      destruct (is_sign c').
      + destruct (digits s) as [d r'] eqn:E. rewrite (digits_tail _ _ _ _ E) by done. destruct (truthy d); [|done]. by injection H as <- <-.
      + destruct (digits (String c' s)) as [d r'] eqn:E. change (String c' (s +:+ u)) with (String c' s +:+ u).
        rewrite (digits_tail _ _ _ _ E) by done. destruct (truthy d); [|done]. by injection H as <- <-. }
  intros H Hu. unfold number in *. destruct t as [|c t]; [done|].
  change (String c t +:+ u) with (String c (t +:+ u)). cbn [sign_of] in *.
  destruct (is_minus c).
  - destruct (int_part t) as [[i r1]|] eqn:E1; [|done]. destruct (frac_part r1) as [[f r2]|] eqn:E2; [|done].
    destruct (exp_part r2) as [[e r3]|] eqn:E3; [|done]. rewrite (Hi _ _ _ E1), (Hf _ _ _ E2), (He _ _ _ E3) by done.
    by injection H as <- ->.
  - destruct (int_part (String c t)) as [[i r1]|] eqn:E1; [|done]. destruct (frac_part r1) as [[f r2]|] eqn:E2; [|done].
    destruct (exp_part r2) as [[e r3]|] eqn:E3; [|done]. change (String c (t +:+ u)) with (String c t +:+ u).
    rewrite (Hi _ _ _ E1), (Hf _ _ _ E2), (He _ _ _ E3) by done. injection H as H1 ->. by rewrite <-H1.
Qed.

(** *** Strings *)

Lemma string_lit_char c u : string_lit (escape_char c +:+ u) = consc c (string_lit u).
Proof. destruct c as [[] [] [] [] [] [] [] []]; reflexivity. Qed.

Lemma string_lit_escape s u : string_lit (escape s +:+ String quote_char u) = Some (s, u).
Proof.
  induction s as [|c s IH]; [done|]. cbn [escape]. rewrite app_assoc_s, string_lit_char, IH. done.
Qed.

(** *** Values *)

Lemma reads_str s u : reads (quoted s +:+ u) (JStr s) u.
Proof.
  exists 1%nat. intros [|n] Hn; [lia|]. unfold quoted.
  change (String quote_char (escape s +:+ String quote_char EmptyString) +:+ u)
    with (String quote_char ((escape s +:+ String quote_char EmptyString) +:+ u)).
  rewrite app_assoc_s. change (String quote_char EmptyString +:+ u) with (String quote_char u).
  cbn [value]. change (skip (String quote_char ?x)) with (String quote_char x). cbn match.
  change (Ascii.eqb quote_char "{") with false. change (Ascii.eqb quote_char "[") with false.
  change (Ascii.eqb quote_char quote_char) with true. cbn match. by rewrite string_lit_escape.
Qed.

(** A number starts with a minus sign or a digit, a value with no white space or closing bracket. *)
Lemma number_head c t : number (String c t) = Some (String c t, EmptyString) → is_minus c || is_digit c = true.
Proof.
  unfold number. cbn [sign_of]. destruct (is_minus c) eqn:E; [done|]. cbn [int_part orb].
  destruct (Ascii.eqb_spec c "0") as [->|]; [done|]. by destruct (is_digit c).
Qed.

Definition plain_char (c : ascii) : bool :=
  negb (json_ws c || Ascii.eqb c "{" || Ascii.eqb c "[" || Ascii.eqb c "]" || Ascii.eqb c "}"
        || Ascii.eqb c quote_char || Ascii.eqb c "t" || Ascii.eqb c "f" || Ascii.eqb c "n").

Lemma number_char c : is_minus c || is_digit c = true → plain_char c = true.
Proof.
  assert (H : forallb (λ c, negb (is_minus c || is_digit c) || plain_char c) (chars 256) = true) by (vm_compute; reflexivity).
  rewrite forallb_elem in H. specialize (H c (chars_all c)). intros E. by rewrite E in H.
Qed.

Definition leads (s : string) : bool :=
  match s with
  | String c _ => negb (json_ws c || Ascii.eqb c "]" || Ascii.eqb c "}")
  | EmptyString => false
  end.

Lemma leads_app s u : leads s = true → leads (s +:+ u) = true.
Proof. by destruct s. Qed.

Lemma leads_skip s : leads s = true → skip s = s.
Proof. destruct s as [|c s]; [done|]. cbn [leads skip]. by destruct (json_ws c). Qed.

Lemma text_in_leads v : readable v → leads (text_in v) = true.
Proof.
  intros [| | | | |q H _| | | |]; try done; [by destruct b|].
  change (leads (num_str (Fin q)) = true). revert H. destruct (num_str (Fin q)) as [|c t] eqn:E; [done|].
  intros H%number_head%number_char. unfold plain_char in H. cbn [leads].
  destruct (json_ws c), (Ascii.eqb c "]"), (Ascii.eqb c "}"); try done;
    by repeat (rewrite ?orb_true_r in H; rewrite ?orb_true_l in H).
Qed.

Lemma reads_num q u : readable (JNum (Fin q)) → tail_ok u = true → reads (num_str (Fin q) +:+ u) (JNum (Fin q)) u.
Proof.
  intros Hr Hu. inversion Hr as [| | | | |? Hn Hs| | | |]; subst. exists 1%nat. intros [|n] Hle; [lia|].
  pose proof (number_tail _ _ Hn Hu) as Ht. destruct (num_str (Fin q)) as [|c t] eqn:E; [done|].
  apply number_head, number_char in Hn. unfold plain_char in Hn.
  rewrite !negb_orb, !andb_true_iff, !negb_true_iff in Hn. destruct Hn as ((((((((Hw & H1) & H2) & _) & _) & H3) & Hc1) & Hc2) & Hc3).
  change (String c t +:+ u) with (String c (t +:+ u)) in *. cbn [value skip]. rewrite Hw, H1, H2, H3.
  unfold scalar. cbn [strip]. rewrite !(Ascii.eqb_sym _ c), Hc1, Hc2, Hc3, Ht, Hs. done.
Qed.

Lemma reads_true u : reads ("true" +:+ u) (JBool true) u.
Proof. exists 1%nat. intros [|n] ?; [lia|done]. Qed.

Lemma reads_false u : reads ("false" +:+ u) (JBool false) u.
Proof. exists 1%nat. intros [|n] ?; [lia|done]. Qed.

Lemma reads_null u : reads ("null" +:+ u) JNull u.
Proof. exists 1%nat. intros [|n] ?; [lia|done]. Qed.

(** *** Arrays and objects, given that their parts read back *)

Definition reads_back v : Prop := ∀ u, tail_ok u = true → reads (text_in v +:+ u) (copy_in v) u.

Lemma reads_elements_last acc v u : reads_back v → reads_elements acc (text_in v +:+ "]" +:+ u) (JArr (acc ++ [copy_in v])) u.
Proof.
  intros H. destruct (H ("]" +:+ u) eq_refl) as [n0 Hn]. exists (S n0). intros [|n] Hle; [lia|].
  cbn [elements]. rewrite Hn by lia. done.
Qed.

Lemma reads_elements_join l acc u :
  l ≠ [] → Forall reads_back l →
  reads_elements acc (join "," (List.map text_in l) +:+ "]" +:+ u) (JArr (acc ++ List.map copy_in l)) u.
Proof.
  intros Hne H. revert acc. induction H as [|v l Hv Hl IH]; intros acc; [done|].
  destruct l as [|w l]; [by apply reads_elements_last|].
  cbn [List.map join]. change (text_in v +:+ "," +:+ ?x) with (text_in v +:+ (String "," x)). rewrite app_assoc_s.
  specialize (IH ltac:(done) (acc ++ [copy_in v])) as [n1 H1].
  match goal with |- reads_elements _ (_ +:+ ?x) _ _ => destruct (Hv x eq_refl) as [n0 H0] end.
  exists (S (n0 + n1)). intros [|n] Hle; [lia|]. cbn [elements]. rewrite H0 by lia.
  change (skip (String "," ?x +:+ ?y)) with (String "," (x +:+ y)). cbn match. change (Ascii.eqb "," ",") with true. cbn match.
  cbn [List.map join] in H1. rewrite H1 by lia. by rewrite <-app_assoc.
Qed.

Lemma reads_arr l : Forall readable l → Forall reads_back l → reads_back (JArr l).
Proof.
  intros Hr Hb u _. rewrite text_in_arr. destruct l as [|v l].
  { exists 1%nat. intros [|n] ?; [lia|done]. }
  destruct (reads_elements_join (v :: l) [] u ltac:(done) Hb) as [n0 H]. exists (S n0). intros [|n] Hle; [lia|].
  rewrite !app_assoc_s. change ("[" +:+ ?x) with (String "[" x). cbn [value].
  change (skip (String "[" ?x)) with (String "[" x). cbn match. change (Ascii.eqb "[" "{") with false.
  change (Ascii.eqb "[" "[") with true. cbn match.
  assert (Hlead : leads (join "," (List.map text_in (v :: l)) +:+ "]" +:+ u) = true).
  { apply Forall_cons in Hr as [Hv _]. apply text_in_leads in Hv. cbn [List.map].
    destruct (List.map text_in l); cbn [join]; rewrite ?app_assoc_s; by apply leads_app. }
  rewrite leads_skip by done. specialize (H n ltac:(lia)).
  destruct (join "," (List.map text_in (v :: l)) +:+ "]" +:+ u) as [|c s]; [done|].
  cbn [leads] in Hlead. destruct (Ascii.eqb c "]"); [by rewrite orb_true_r in Hlead|]. exact H.
Qed.

Lemma member_both k x o :
  (stringify num_str x = None ∧ json_copy x = None ∧ member_texts ((k, x) :: o) = member_texts o ∧
     member_copies ((k, x) :: o) = member_copies o) ∨
  (member_texts ((k, x) :: o) = (quoted k +:+ ":" +:+ text_in x) :: member_texts o ∧
     member_copies ((k, x) :: o) = (k, copy_in x) :: member_copies o).
Proof.
  pose proof (stringify_copy num_str x) as Hc. cbn [member_texts member_copies]. unfold text_in, copy_in.
  destruct (stringify num_str x), (json_copy x); naive_solver.
Qed.

Lemma member_texts_nil o : member_texts o = [] → member_copies o = [].
Proof.
  induction o as [|[k x] o IH]; [done|]. destruct (member_both k x o) as [(_ & _ & -> & ->)|[-> _]]; [done|]. done.
Qed.

Lemma member_keys (P : string → Prop) o : Forall P (om_keys o) → Forall P (om_keys (member_copies o)).
Proof.
  induction o as [|[k x] o IH]; [done|]. intros [Hk H]%Forall_cons.
  destruct (member_both k x o) as [(_ & _ & _ & ->)|[_ ->]]; [by apply IH|]. constructor; [done|by apply IH].
Qed.

Lemma copies_ordered o : object_order o → object_order (member_copies o).
Proof.
  induction o as [|[k x] o IH]; [done|]. intros [Ho Hk]%StronglySorted_inv.
  destruct (member_both k x o) as [(_ & _ & _ & ->)|[_ ->]]; [by apply IH|].
  constructor; [by apply IH|]. by apply member_keys.
Qed.

(** One member: its key, the colon and its value. *)
Lemma reads_member acc k v u w : reads_back v → tail_ok u = true → Forall (λ k', key_before k' k) (om_keys acc) →
  (∃ n0, ∀ n, (n0 ≤ n)%nat →
     match skip u with
     | String d r =>
         if Ascii.eqb d "," then members str_num n (acc ++ [(k, copy_in v)]) r = w
         else if Ascii.eqb d "}" then Got (JObj (acc ++ [(k, copy_in v)])) r = w
         else Bad = w
     | EmptyString => Bad = w
     end) →
  ∃ n0, ∀ n, (n0 ≤ n)%nat → members str_num n acc ((quoted k +:+ ":" +:+ text_in v) +:+ u) = w.
Proof.
  intros Hv Hu Hk [n1 H1]. destruct (Hv u Hu) as [n0 H0]. exists (S (n0 + n1)). intros [|n] Hle; [lia|].
  rewrite !app_assoc_s. unfold quoted.
  change (String quote_char (escape k +:+ String quote_char EmptyString) +:+ ?x)
    with (String quote_char ((escape k +:+ String quote_char EmptyString) +:+ x)).
  rewrite app_assoc_s. change (String quote_char EmptyString +:+ ?x) with (String quote_char x).
  cbn [members]. change (skip (String quote_char ?x)) with (String quote_char x). cbn match.
  change (Ascii.eqb quote_char quote_char) with true. cbn match. rewrite string_lit_escape.
  change (":" +:+ ?x) with (String ":" x). change (skip (String ":" ?x)) with (String ":" x). cbn match.
  change (Ascii.eqb ":" ":") with true. cbn match. rewrite H0 by lia.
  specialize (H1 n ltac:(lia)). rewrite obj_set_ordered by done.
  destruct (skip u) as [|d r]; [done|]. destruct (Ascii.eqb d ","); [done|]. by destruct (Ascii.eqb d "}").
Qed.

Lemma reads_members_join o acc u :
  member_texts o ≠ [] → Forall reads_back o.*2 → object_order (acc ++ member_copies o) →
  reads_members acc (join "," (member_texts o) +:+ "}" +:+ u) (JObj (acc ++ member_copies o)) u.
Proof.
  revert acc. induction o as [|[k x] o IH]; intros acc Hne Hb Ho; [done|]. apply Forall_cons in Hb as [Hx Hb].
  destruct (member_both k x o) as [(_ & _ & Ht & Hc)|[Ht Hc]]; rewrite Ht, Hc in *; [by apply IH|]. clear Ht Hc Hne.
  assert (Hk : Forall (λ k', key_before k' k) (om_keys acc)).
  { clear -Ho. unfold object_order, om_keys in *. rewrite fmap_app in Ho. induction (acc.*1) as [|a l IH]; [by constructor|].
    apply StronglySorted_inv in Ho as [Ho Ha]. constructor; [|by apply IH].
    rewrite Forall_app in Ha. destruct Ha as [_ Ha]. by apply Forall_cons in Ha as [? _]. }
  destruct (member_texts o) as [|m ms] eqn:Em.
  - rewrite (member_texts_nil _ Em). cbn [join]. apply reads_member; [done|done|done|]. exists 0%nat. intros n _. done.
  - cbn [join]. rewrite app_assoc_s. apply reads_member; [done|done|done|].
    replace (acc ++ (k, copy_in x) :: member_copies o) with ((acc ++ [(k, copy_in x)]) ++ member_copies o) in * by (by rewrite <-app_assoc).
    destruct (IH (acc ++ [(k, copy_in x)]) ltac:(done) Hb Ho) as [n0 Hn]. exists n0. intros n Hle.
    exact (Hn n Hle).
Qed.

Lemma reads_obj o : readable (JObj o) → Forall reads_back o.*2 → reads_back (JObj o).
Proof.
  intros Hr Hb u _. inversion Hr as [| | | | | | | |? Ho _|]; subst. rewrite text_in_obj, copy_in_obj.
  destruct (member_texts o) as [|m ms] eqn:Em.
  { rewrite (member_texts_nil _ Em). exists 1%nat. intros [|n] ?; [lia|done]. }
  destruct (reads_members_join o [] u ltac:(congruence) Hb (copies_ordered _ Ho)) as [n0 H].
  exists (S n0). intros [|n] Hle; [lia|]. specialize (H n ltac:(lia)). rewrite Em in H.
  rewrite !app_assoc_s. change ("{" +:+ ?x) with (String "{" x). cbn [value].
  change (skip (String "{" ?x)) with (String "{" x). cbn match. change (Ascii.eqb "{" "{") with true. cbn match.
  assert (Hq : ∃ z, join "," (m :: ms) +:+ "}" +:+ u = String quote_char z).
  { assert (∃ z, m = String quote_char z) as [z ->].
    { clear -Em str_num. revert m ms Em. induction o as [|[k x] o IH]; intros m ms Em; [done|].
      destruct (member_both k x o) as [(_ & _ & Ht & _)|[Ht _]]; rewrite Ht in Em; [by eapply IH|].
      injection Em as <- <-. eexists. reflexivity. }
    destruct ms; cbn [join]; eexists; reflexivity. }
  destruct Hq as [z Hz]. rewrite Hz in *. change (skip (String quote_char z)) with (String quote_char z). cbn match.
  change (Ascii.eqb quote_char "}") with false. cbn match. exact H.
Qed.

Lemma readable_reads v : readable v → reads_back v.
Proof.
  induction v as [| |b|n|s|l IH|o IH|f] using jval_ind'; intros Hr.
  - intros u _. apply reads_null.
  - intros u _. apply reads_null.
  - intros u _. destruct b; [apply reads_true|apply reads_false].
  - intros u Hu. destruct n as [| |q]; [apply reads_null|apply reads_null|by apply reads_num].
  - intros u _. apply reads_str.
  - inversion Hr as [| | | | | | |? Hl| |]; subst. apply reads_arr; [done|].
    apply Forall_forall. intros x Hx. rewrite Forall_forall in IH, Hl. by apply IH, Hl.
  - apply reads_obj; [done|]. inversion Hr as [| | | | | | | |? _ Hl|]; subst.
    apply Forall_forall. intros x Hx. rewrite Forall_forall in IH, Hl. by apply IH, Hl.
  - intros u _. apply reads_null.
Qed.

(** [JSON.parse(JSON.stringify(v))] is the copy of [v], on every value that has a text. *)
Lemma json_roundtrip v t : readable v → stringify num_str v = Some t → json_parse str_num t = Ok (clone v).
Proof.
  intros Hr Ht. pose proof (stringify_copy num_str v) as Hc.
  destruct (readable_reads v Hr EmptyString eq_refl) as [n0 Hn].
  unfold text_in, copy_in in Hn. unfold clone. rewrite Ht in Hn. cbn [default from_option id] in Hn. rewrite app_nil_r_s in Hn.
  destruct (json_copy v) as [c|]; [|by destruct Hc as [_ Hc]; rewrite Hc in Ht].
  apply (reads_parse t c EmptyString); [|done]. exists n0. exact Hn.
Qed.

End text.
