(* ===== verification/Journal.v ===== *)
(** * Append-only journals

    [lib/matrix-delivery-journal.js] and [src/matrix-dispatch-store.mjs]: two stores whose file is a
    log of JSON lines, one appended per change and never rewritten, and whose memory is the map the
    log replays to. A file is the sequence of its bytes (an absent file is an empty one); an append
    may be cut short anywhere, by a failing write or by the death of the process, and the next start
    drops what follows the last line feed.

    Directory creation, modes and [fsync] have no counterpart here beyond that: [Appended] says the
    bytes are durable, [Interrupted k] that [k] of them are. The texts of the errors are reduced to
    one code per cause; a record's time stamp is the argument [now]. *)

From Stdlib Require Import ZArith QArith Lia String Ascii.
From stdpp Require Import base list strings.
From S2P Require Import Prelude OMap Json JsonParse.
#[local] Open Scope stdpp_scope.

(** ** Bytes *)

Definition nl : ascii := ascii_of_nat 10.

(** [Buffer.from(s, 'utf8')] on code units below 256: one byte below 128, two above. *)
Definition utf8_char (c : ascii) : string :=
  let n := nat_of_ascii c in
  if (n <? 128)%nat then String c EmptyString
  else String (ascii_of_nat (192 + n / 64)) (String (ascii_of_nat (128 + n mod 64)) EmptyString).

Fixpoint utf8 (s : string) : string :=
  match s with
  | EmptyString => EmptyString
  | String c s' => utf8_char c +:+ utf8 s'
  end.

(** [buffer.toString('utf8')]; [None] when a code unit is not below 256. *)
Fixpoint utf8_decode (b : string) : option string :=
  match b with
  | EmptyString => Some EmptyString
  | String c b' =>
      let n := nat_of_ascii c in
      if (n <? 128)%nat then String c <$> utf8_decode b'
      else if (n =? 194)%nat || (n =? 195)%nat then
        match b' with
        | String d b2 =>
            let m := nat_of_ascii d in
            if (128 <=? m)%nat && (m <? 192)%nat
            then String (ascii_of_nat ((n - 192) * 64 + (m - 128))) <$> utf8_decode b2
            else None
        | EmptyString => None
        end
      else None
  end.

(** What is left of a file truncated after its last line feed. *)
Fixpoint complete (b : string) : string :=
  match b with
  | EmptyString => EmptyString
  | String c b' =>
      match complete b' with
      | EmptyString => if Ascii.eqb c nl then String c EmptyString else EmptyString
      | t => String c t
      end
  end.

(** [bytes.subarray(0, length - 1)] *)
Fixpoint but_last (b : string) : string :=
  match b with
  | EmptyString | String _ EmptyString => EmptyString
  | String c b' => String c (but_last b')
  end.

(** ** The log, for any record type *)

(** What became of an append: all its bytes are on disk, or [k] of them and the call threw. *)
Inductive append_outcome : Type := Appended | Interrupted (k : nat).

Section log.
Context {R : Type}.
Context (text : R → string).
Context (parseRecord : string → result R).
Context (keyOf : R → string).
(** The checks [_load] makes of a record against the one it replaces. *)
Context (mayFollow : R → R → bool).

Record Log : Type := MkLog { records : omap R; file : string }.

Definition emptyLog : Log := MkLog [] EmptyString.

Fixpoint replay (lines : list string) (m : omap R) : result (omap R) :=
  match lines with
  | [] => Ok m
  | line :: rest =>
      throw_if negb (truthy line) with "blank_record" in
      let* r := parseRecord line in
      match om_get (keyOf r) m with
      | Some previous =>
          throw_if negb (mayFollow previous r) with "invalid_journal" in
          replay rest (om_set (keyOf r) r m)
      | None => replay rest (om_set (keyOf r) r m)
      end
  end.

(** The constructor: the map, and the file with its torn tail cut off. It is defined for the files whose
    text has only characters below 256, as all texts here; of other files ([None]) nothing is said. *)
Definition loadLog (bytes : string) : option (result Log) :=
  let kept := complete bytes in
  if negb (truthy kept) then Some (Ok (MkLog [] kept)) else
  (λ s, let* m := replay (split_on nl s) [] in Ok (MkLog m kept)) <$> utf8_decode (but_last kept).

Definition lineOf (r : R) : string := utf8 (text r +:+ String nl EmptyString).

(** [_append]: the bytes, then the map; a write that throws leaves the map alone. *)
Definition appendRecord (o : append_outcome) (r : R) (j : Log) : result R * Log :=
  match o with
  | Appended => (Ok r, MkLog (om_set (keyOf r) r (records j)) (file j +:+ lineOf r))
  | Interrupted k => (Throw "short_write", MkLog (records j) (file j +:+ slice_to k (lineOf r)))
  end.

Definition getRecord (id : jval) (j : Log) : option R :=
  match id with
  | JStr s => let normalized := trim s in if truthy normalized then om_get normalized (records j) else None
  | _ => None
  end.

End log.
Arguments Log R : clear implicits.
Arguments MkLog {R} records file.
Arguments records {R} l.
Arguments file {R} l.
Arguments emptyLog {R}.

(** Ids: a string, trimmed, of 1 to 255 characters. *)
Definition normalizeId (v : jval) : result string :=
  let text := match v with JStr s => trim s | _ => EmptyString end in
  throw_if negb (truthy text) || (255 <? String.length text)%nat with "bad_id" in Ok text.

Definition normalizeOptionalId (v : jval) : result (option string) :=
  match v with
  | JUndef | JNull | JStr EmptyString => Ok None
  | _ => let* s := normalizeId v in Ok (Some s)
  end.

(** [new Date(0).toISOString()] *)
Definition EPOCH : string := "1970-01-01T00:00:00.000Z".

(** ** The Matrix delivery journal *)

Module Delivery.

Inductive state_ : Type := pending_ | committed_.

Definition state_text (s : state_) : string := match s with pending_ => "pending" | committed_ => "committed" end.

Record Entry : Type := MkEntry {
  messageId : string;
  roomId : string;
  primaryEventId : string;
  threadRootEventId : option string;
  state : state_;
  updatedAt : string;
}.
#[export] Instance eta_entry : Settable Entry :=
  λ r, MkEntry (messageId r) (roomId r) (primaryEventId r) (threadRootEventId r) (state r) (updatedAt r).

(** The object a record is, member by member. *)
Definition entryJson (r : Entry) : jval :=
  JObj [("messageId", JStr (messageId r)); ("roomId", JStr (roomId r));
        ("primaryEventId", JStr (primaryEventId r)); ("threadRootEventId", str_or_null (threadRootEventId r));
        ("state", JStr (state_text (state r))); ("updatedAt", JStr (updatedAt r))].

Definition sameDelivery (left right : Entry) : bool :=
  String.eqb (messageId left) (messageId right) && String.eqb (roomId left) (roomId right)
  && String.eqb (primaryEventId left) (primaryEventId right)
  && bool_decide (threadRootEventId left = threadRootEventId right).

Section model.
Context (num_str : num → string) (str_num : string → num).

Definition entryText (r : Entry) : string := default EmptyString (stringify num_str (entryJson r)).

Definition parseRecord (line : string) : result Entry :=
  match json_parse str_num line with
  | Throw _ => Throw "invalid_journal"
  | Ok value =>
      match (let* st := match prop value "state" with
                        | JStr s => if String.eqb s "committed" then Ok committed_
                                    else if String.eqb s "pending" then Ok pending_ else Throw "state"
                        | _ => Throw "state"
                        end in
             let* m := normalizeId (prop value "messageId") in
             let* r := normalizeId (prop value "roomId") in
             let* p := normalizeId (prop value "primaryEventId") in
             let* t := normalizeOptionalId (prop value "threadRootEventId") in
             Ok (MkEntry m r p t st
                   (match prop value "updatedAt" with JStr s => if truthy s then s else EPOCH | _ => EPOCH end))) with
      | Ok r => Ok r
      | Throw _ => Throw "invalid_journal"
      end
  end.

Definition isCommitted (r : Entry) : bool := match state r with committed_ => true | pending_ => false end.

Definition mayFollow (previous r : Entry) : bool :=
  sameDelivery previous r && negb (isCommitted previous && negb (isCommitted r)).

Definition load (bytes : string) : option (result (Log Entry)) := loadLog parseRecord messageId mayFollow bytes.
Definition append (o : append_outcome) (r : Entry) (j : Log Entry) : result Entry * Log Entry :=
  appendRecord entryText messageId o r j.
Definition get (id : jval) (j : Log Entry) : option Entry := getRecord id j.

Definition pending (j : Log Entry) : list Entry := List.filter (λ r, negb (isCommitted r)) (om_vals (records j)).

Definition candidate (now : string) (m r p t : jval) : result Entry :=
  let* m := normalizeId m in
  let* r := normalizeId r in
  let* p := normalizeId p in
  let* t := normalizeOptionalId t in
  Ok (MkEntry m r p t pending_ now).

Definition recordPending (now : string) (o : append_outcome) (m r p t : jval) (j : Log Entry) : result Entry * Log Entry :=
  match candidate now m r p t with
  | Throw c => (Throw c, j)
  | Ok c =>
      match om_get (messageId c) (records j) with
      | Some existing => if negb (sameDelivery existing c) then (Throw "already_recorded", j) else (Ok existing, j)
      | None => append o c j
      end
  end.

Definition markCommitted (now : string) (o : append_outcome) (m : jval) (j : Log Entry) : result Entry * Log Entry :=
  match normalizeId m with
  | Throw c => (Throw c, j)
  | Ok normalized =>
      match om_get normalized (records j) with
      | None => (Throw "not_found", j)
      | Some existing =>
          if isCommitted existing then (Ok existing, j)
          else append o (existing <| state := committed_ |> <| updatedAt := now |>) j
      end
  end.

End model.
End Delivery.

(** ** The Matrix dispatch store *)

Module Dispatch.

Inductive status_ : Type := reserved | accepted | committed.

Definition status_text (s : status_) : string :=
  match s with reserved => "reserved" | accepted => "accepted" | committed => "committed" end.

Definition status_of (s : string) : option status_ :=
  if String.eqb s "reserved" then Some reserved
  else if String.eqb s "accepted" then Some accepted
  else if String.eqb s "committed" then Some committed
  else None.

Definition rank (s : status_) : Z := match s with reserved => 0 | accepted => 1 | committed => 2 end.

Record Receipt : Type := MkReceipt {
  eventId : string;
  messageId : string;
  status : status_;
  message : jval;
  dispatch : jval;
  response : jval;
  updatedAt : string;
}.
#[export] Instance eta_receipt : Settable Receipt :=
  λ r, MkReceipt (eventId r) (messageId r) (status r) (message r) (dispatch r) (response r) (updatedAt r).

Definition receiptJson (r : Receipt) : jval :=
  JObj [("eventId", JStr (eventId r)); ("messageId", JStr (messageId r)); ("status", JStr (status_text (status r)));
        ("message", message r); ("dispatch", dispatch r); ("response", response r); ("updatedAt", JStr (updatedAt r))].

(** [v && typeof v === 'object'] *)
Definition is_object (v : jval) : bool := match v with JObj _ | JArr _ => true | _ => false end.
(** [... && !Array.isArray(v)] *)
Definition is_record (v : jval) : bool := match v with JObj _ => true | _ => false end.

Section model.
Context (num_str : num → string) (str_num : string → num).

Definition receiptText (r : Receipt) : string := default EmptyString (stringify num_str (receiptJson r)).

Definition parseRecord (line : string) : result Receipt :=
  match json_parse str_num line with
  | Throw _ => Throw "invalid_journal"
  | Ok record =>
      match (let* st := match prop record "status" with
                        | JStr s => match status_of s with Some st => Ok st | None => Throw "status" end
                        | _ => Throw "status"
                        end in
             let msg := prop record "message" in
             throw_if negb (is_record msg) with "message" in
             let* e := normalizeId (prop record "eventId") in
             let* m := normalizeId (prop record "messageId") in
             throw_if negb (strict_eq (prop msg "id") (JStr m)) with "message.id" in
             throw_if negb (strict_eq (prop msg "sourceEventId") (JStr e)) with "message.sourceEventId" in
             let d := prop record "dispatch" in
             let p := prop record "response" in
             Ok (MkReceipt e m st msg (if is_object d then d else JObj []) (if is_object p then p else JNull)
                   (match prop record "updatedAt" with JStr s => s | _ => EPOCH end))) with
      | Ok r => Ok r
      | Throw _ => Throw "invalid_journal"
      end
  end.

Definition mayFollow (previous r : Receipt) : bool :=
  String.eqb (messageId previous) (messageId r)
  && bool_decide (stringify num_str (message previous) = stringify num_str (message r))
  && negb (rank (status r) <? rank (status previous)).

Definition load (bytes : string) : option (result (Log Receipt)) := loadLog parseRecord eventId mayFollow bytes.
Definition append (o : append_outcome) (r : Receipt) (j : Log Receipt) : result Receipt * Log Receipt :=
  appendRecord receiptText eventId o r j.
Definition get (id : jval) (j : Log Receipt) : option Receipt := getRecord id j.

(** [undefined] in place of the optional arguments takes their defaults. *)
Definition reserve (now : string) (o : append_outcome) (e m msg d p : jval) (j : Log Receipt) : result Receipt * Log Receipt :=
  match normalizeId e with
  | Throw c => (Throw c, j)
  | Ok normalizedEventId =>
      match om_get normalizedEventId (records j) with
      | Some existing => (Ok existing, j)
      | None =>
          match normalizeId m with
          | Throw c => (Throw c, j)
          | Ok m =>
              append o (MkReceipt normalizedEventId m reserved msg
                          (match d with JUndef => JObj [] | _ => d end)
                          (match p with JUndef => JNull | _ => p end) now) j
          end
      end
  end.

Definition respond (p : jval) (existing : Receipt) : jval := if is_object p then p else response existing.

Definition accept (now : string) (o : append_outcome) (e p : jval) (j : Log Receipt) : result Receipt * Log Receipt :=
  match normalizeId e with
  | Throw c => (Throw c, j)
  | Ok normalizedEventId =>
      match om_get normalizedEventId (records j) with
      | None => (Throw "not_reserved", j)
      | Some existing =>
          match status existing with
          | reserved => append o (existing <| status := accepted |> <| response := respond p existing |> <| updatedAt := now |>) j
          | _ => (Ok existing, j)
          end
      end
  end.

Definition commit (now : string) (o : append_outcome) (e p : jval) (j : Log Receipt) : result Receipt * Log Receipt :=
  match normalizeId e with
  | Throw c => (Throw c, j)
  | Ok normalizedEventId =>
      match om_get normalizedEventId (records j) with
      | None => (Throw "not_reserved", j)
      | Some existing =>
          match status existing with
          | committed => (Ok existing, j)
          | reserved => (Throw "not_accepted", j)
          | accepted => append o (existing <| status := committed |> <| response := respond p existing |> <| updatedAt := now |>) j
          end
      end
  end.

End model.
End Dispatch.

(** ** Journals survive crashes

    The facts about a log that hold for any record type whose text reads back: a log whose file is
    the lines of its records loads to its own map, whatever torn line follows; so an append that is
    cut short anywhere is, at the next start, done or not done. Then, for the two journals, that every
    record they write reads back, that no crash loses or alters what was recorded, and what a failed
    write does to a process that goes on. *)

From Stdlib Require Import ZArith QArith Lia String Ascii.
From stdpp Require Import base list strings relations sorting.
From S2P Require Import Prelude OMap Json JsonParse.
#[local] Open Scope stdpp_scope.

(** ** Bytes *)

Definition has_nl (s : string) : bool := string_exists (Ascii.eqb nl) s.

Lemma has_nl_app s t : has_nl (s +:+ t) = has_nl s || has_nl t.
Proof.
  unfold has_nl. induction s as [|c s IH]; [done|].
  change (String c s +:+ t) with (String c (s +:+ t)). cbn [string_exists]. by rewrite IH, orb_assoc.
Qed.

Lemma utf8_char_decode c b : utf8_decode (utf8_char c +:+ b) = String c <$> utf8_decode b.
Proof. destruct c as [[] [] [] [] [] [] [] []]; reflexivity. Qed.

Lemma utf8_char_nl c : has_nl (utf8_char c) = Ascii.eqb nl c.
Proof.
  assert (H : forallb (λ c, Bool.eqb (has_nl (utf8_char c)) (Ascii.eqb nl c)) (chars 256) = true) by (vm_compute; reflexivity).
  rewrite forallb_elem in H. specialize (H c (chars_all c)). by apply Bool.eqb_prop.
Qed.

Lemma utf8_roundtrip s : utf8_decode (utf8 s) = Some s.
Proof. induction s as [|c s IH]; [done|]. cbn [utf8]. by rewrite utf8_char_decode, IH. Qed.

Lemma utf8_nl s : has_nl (utf8 s) = has_nl s.
Proof. induction s as [|c s IH]; [done|]. cbn [utf8]. by rewrite has_nl_app, utf8_char_nl, IH. Qed.

Lemma utf8_app s t : utf8 (s +:+ t) = utf8 s +:+ utf8 t.
Proof.
  induction s as [|c s IH]; [done|]. change (String c s +:+ t) with (String c (s +:+ t)). cbn [utf8].
  by rewrite IH, app_assoc_s.
Qed.

Lemma complete_torn s t : has_nl t = false → complete (s +:+ t) = complete s.
Proof.
  intros Ht. induction s as [|c s IH].
  - change (complete t = EmptyString). induction t as [|c t IH]; [done|].
    unfold has_nl in Ht. cbn [string_exists] in Ht. apply orb_false_iff in Ht as [Hc Ht]. cbn [complete].
    rewrite IH by done. by rewrite Ascii.eqb_sym, Hc.
  - change (String c s +:+ t) with (String c (s +:+ t)). cbn [complete]. by rewrite IH.
Qed.

Lemma complete_line s : complete (s +:+ String nl EmptyString) = s +:+ String nl EmptyString.
Proof.
  induction s as [|c s IH]; [done|].
  change (String c s +:+ ?t) with (String c (s +:+ t)). cbn [complete]. rewrite IH. by destruct s.
Qed.

Lemma but_last_snoc s c : but_last (s +:+ String c EmptyString) = s.
Proof.
  induction s as [|d s IH]; [done|]. change (String d s +:+ ?t) with (String d (s +:+ t)).
  cbn [but_last]. rewrite IH. by destruct s.
Qed.

Lemma slice_to_prefix k s t : (k ≤ String.length s)%nat → slice_to k (s +:+ t) = slice_to k s.
Proof.
  revert s. induction k as [|k IH]; intros [|c s] H; simpl in *; try done; [lia|].
  change (String c (slice_to k (s +:+ t)) = String c (slice_to k s)). rewrite IH by lia. done.
Qed.

Lemma slice_to_nl k s : has_nl s = false → has_nl (slice_to k s) = false.
Proof.
  unfold has_nl. revert s. induction k as [|k IH]; intros [|c s] H; try done. cbn [slice_to string_exists] in *.
  apply orb_false_iff in H as [-> H]. by apply IH.
Qed.

(** ** Lines *)

Definition nl_text : string := String nl EmptyString.

Fixpoint body (ts : list string) : string :=
  match ts with
  | [] => EmptyString
  | t :: ts' => t +:+ (String nl (body ts'))
  end.

Lemma body_snoc ts t : body (ts ++ [t]) = body ts +:+ (t +:+ nl_text).
Proof.
  induction ts as [|u ts IH]; [done|]. cbn [body app]. rewrite IH.
  rewrite app_assoc_s. done.
Qed.

Lemma body_join ts : ts ≠ [] → body ts = join nl_text ts +:+ nl_text.
Proof.
  induction ts as [|t ts IH]; [done|]. intros _. destruct ts as [|u ts]; [done|].
  change (body (t :: u :: ts)) with (t +:+ String nl (body (u :: ts))). rewrite IH by done.
  cbn [join]. rewrite !app_assoc_s. done.
Qed.

Lemma split_on_line t s : has_nl t = false → split_on nl (t +:+ String nl s) = t :: split_on nl s.
Proof.
  unfold has_nl. induction t as [|c t IH]; intros H.
  - change (split_on nl (String nl s) = EmptyString :: split_on nl s). cbn [split_on]. by rewrite Ascii.eqb_refl.
  - cbn [string_exists] in H. apply orb_false_iff in H as [Hc H].
    change (String c t +:+ ?u) with (String c (t +:+ u)). cbn [split_on]. by rewrite Hc, IH.
Qed.

Lemma split_on_last t : has_nl t = false → split_on nl t = [t].
Proof.
  unfold has_nl. induction t as [|c t IH]; intros H; [done|].
  cbn [string_exists split_on] in *. apply orb_false_iff in H as [Hc H]. by rewrite Hc, IH.
Qed.

Lemma split_on_join ts : ts ≠ [] → Forall (λ t, has_nl t = false) ts → split_on nl (join nl_text ts) = ts.
Proof.
  intros Hne H. induction H as [|t ts Ht H IH]; [done|]. destruct ts as [|u ts]; [by apply split_on_last|].
  change (join nl_text (t :: u :: ts)) with (t +:+ String nl (join nl_text (u :: ts))).
  by rewrite split_on_line, IH.
Qed.

(** ** Any log whose records read back *)

Section log.
Context {R : Type} (text : R → string) (parseRecord : string → result R) (keyOf : R → string) (mayFollow : R → R → bool).
Context (wf : R → Prop).
Hypothesis text_line : ∀ r, wf r → text r ≠ EmptyString ∧ has_nl (text r) = false.
Hypothesis text_reads : ∀ r, wf r → parseRecord (text r) = Ok r.

Abbreviation replay' := (replay parseRecord keyOf mayFollow).
Abbreviation load' := (loadLog parseRecord keyOf mayFollow).
Abbreviation append' := (appendRecord text keyOf).
Implicit Types (j : Log R) (r : R).

(** [r] may be appended: the checks the next load makes of it hold. *)
Definition follows j r : Prop := ∀ p, om_get (keyOf r) (records j) = Some p → mayFollow p r = true.

(** The file is the lines of well-formed records, and they replay to the map. *)
Definition log_ok j : Prop :=
  ∃ rs, Forall wf rs ∧ file j = utf8 (body (text <$> rs)) ∧ replay' (text <$> rs) [] = Ok (records j).

Lemma replay_app ts us m : replay' (ts ++ us) m = let* m' := replay' ts m in replay' us m'.
Proof.
  revert m. induction ts as [|t ts IH]; intros m; [done|]. cbn [app replay].
  destruct (negb (truthy t)); [done|]. destruct (parseRecord t) as [r|]; [|done]. cbn [bind].
  destruct (om_get (keyOf r) m) as [p|]; [|apply IH]. destruct (negb (mayFollow p r)); [done|apply IH].
Qed.

Lemma replay_one r m : wf r → (∀ p, om_get (keyOf r) m = Some p → mayFollow p r = true) →
  replay' [text r] m = Ok (om_set (keyOf r) r m).
Proof using text_line text_reads.
  intros Hw Hf. destruct (text_line r Hw) as [Hne _]. cbn [replay]. apply truthy_spec in Hne. rewrite Hne.
  cbn [negb]. rewrite text_reads by done. cbn [bind]. destruct (om_get (keyOf r) m) as [p|]; [|done]. by rewrite (Hf p).
Qed.

Lemma load_body rs torn : Forall wf rs → has_nl torn = false →
  load' (utf8 (body (text <$> rs)) +:+ torn) =
    Some (let* m := replay' (text <$> rs) [] in Ok (MkLog m (utf8 (body (text <$> rs))))).
Proof using text_line.
  intros Hw Ht. unfold loadLog. rewrite complete_torn by done. destruct rs as [|r rs]; [done|].
  set (ts := text <$> r :: rs) in *. assert (Hne : ts ≠ []) by done.
  assert (Hnl : Forall (λ t, has_nl t = false) ts).
  { unfold ts. apply Forall_fmap. eapply Forall_impl; [exact Hw|]. intros x Hx. by apply text_line. }
  rewrite body_join by done. rewrite utf8_app. change (utf8 nl_text) with (String nl EmptyString).
  rewrite complete_line, but_last_snoc, utf8_roundtrip by done. cbn [fmap option_fmap option_map]. rewrite split_on_join by done.
  replace (truthy _) with true by (symmetry; apply truthy_spec; by destruct (utf8 (join nl_text ts))). done.
Qed.

Lemma log_ok_empty : log_ok emptyLog.
Proof. by exists []. Qed.

(** A restart finds what the process knew. *)
Lemma load_ok j : log_ok j → load' (file j) = Some (Ok j).
Proof using text_line.
  intros (rs & Hw & Hf & Hr). rewrite Hf, <-(app_nil_r_s (utf8 _)), load_body by done. rewrite Hr. cbn [bind].
  rewrite <-Hf. by destruct j.
Qed.

Lemma log_ok_append j r : log_ok j → wf r → follows j r → log_ok (append' Appended r j).2.
Proof using text_line text_reads.
  intros (rs & Hw & Hf & Hr) Hwr Hfo. exists (rs ++ [r]). cbn [appendRecord snd file records].
  split; [by apply Forall_app; split; [|by constructor]|]. rewrite fmap_app. cbn [fmap list_fmap].
  rewrite body_snoc, utf8_app, <-Hf. split; [done|]. rewrite replay_app, Hr. cbn [bind].
  by apply replay_one.
Qed.

(** An append cut short after [k] bytes is done or not done at the next start. *)
Lemma load_interrupted j r k : log_ok j → wf r → follows j r →
  load' (file (append' (Interrupted k) r j).2) =
    Some (Ok (if (k <? String.length (lineOf text r))%nat then j else (append' Appended r j).2)).
Proof using text_line text_reads.
  intros Hok Hw Hfo. destruct (Nat.ltb_spec k (String.length (lineOf text r))) as [Hk|Hk].
  - pose proof Hok as (rs & Hrs & Hf & Hr). cbn [appendRecord snd file]. rewrite Hf, load_body.
    + rewrite Hr. cbn [bind]. rewrite <-Hf. by destruct j.
    + done.
    + unfold lineOf in *. rewrite utf8_app in *. change (utf8 (String nl EmptyString)) with nl_text in *.
      rewrite length_app_s in Hk. simpl in Hk. rewrite slice_to_prefix by lia. apply slice_to_nl.
      rewrite utf8_nl. by apply text_line.
  - cbn [appendRecord snd file]. rewrite slice_to_id by done.
    apply (load_ok (append' Appended r j).2). by apply log_ok_append.
Qed.

(** What holds of the records of a log comes from the records written. *)
Lemma replay_wf ts m m' (P : R → Prop) :
  (∀ t r, t ∈ ts → parseRecord t = Ok r → P r) → (∀ k r, om_get k m = Some r → keyOf r = k ∧ P r) →
  replay' ts m = Ok m' → ∀ k r, om_get k m' = Some r → keyOf r = k ∧ P r.
Proof.
  revert m. induction ts as [|t ts IH]; intros m Hts Hm H; [by injection H as <-|]. cbn [replay] in H.
  destruct (negb (truthy t)); [done|]. destruct (parseRecord t) as [r|] eqn:E; [|done]. cbn [bind] in H.
  assert (Hstep : replay' ts (om_set (keyOf r) r m) = Ok m').
  { destruct (om_get (keyOf r) m) as [p|]; [|done]. by destruct (negb (mayFollow p r)). }
  eapply IH; [|clear H|exact Hstep]; [intros t' r' Ht; apply Hts; by right|].
  intros k x. rewrite om_get_set. destruct (String.eqb_spec (keyOf r) k) as [<-|]; [|apply Hm].
  intros [= <-]. split; [done|]. eapply Hts; [by left|done].
Qed.

Lemma log_ok_records j k r : log_ok j → om_get k (records j) = Some r → keyOf r = k ∧ wf r.
Proof using text_reads.
  intros (rs & Hw & _ & Hr). apply (replay_wf (text <$> rs) [] (records j) wf); [|done|done].
  intros t x Ht Hx. apply list_elem_of_fmap in Ht as (y & -> & Hy). rewrite Forall_forall in Hw.
  rewrite text_reads in Hx by auto. injection Hx as <-. auto.
Qed.

End log.

(** ** The text of a value is one line *)

Lemma quoted_line s : has_nl (quoted s) = false.
Proof.
  assert (H : forallb (λ c, negb (has_nl (escape_char c))) (chars 256) = true) by (vm_compute; reflexivity).
  rewrite forallb_elem in H. unfold quoted.
  change (has_nl (String quote_char ?x)) with (has_nl x). rewrite has_nl_app. apply orb_false_iff. split; [|done].
  induction s as [|c s IH]; [done|]. cbn [escape]. rewrite has_nl_app, IH, orb_false_r.
  by apply negb_true_iff, H, chars_all.
Qed.

Lemma join_line ts : Forall (λ t, has_nl t = false) ts → has_nl (join "," ts) = false.
Proof.
  induction 1 as [|t ts Ht H IH]; [done|]. destruct ts as [|u ts]; [done|].
  change (join "," (t :: u :: ts)) with (t +:+ ("," +:+ join "," (u :: ts))). rewrite !has_nl_app, Ht, IH. done.
Qed.

Lemma digits_line s : has_nl (digits s).1 = false.
Proof.
  induction s as [|c s IH]; [done|]. cbn [digits]. destruct (is_digit c) eqn:E; [|done].
  destruct (digits s) as [d r]. unfold has_nl in *. cbn [fst string_exists] in *. rewrite IH, orb_false_r.
  destruct (Ascii.eqb_spec nl c) as [<-|]; [done|done].
Qed.

Lemma number_line s t r : number s = Some (t, r) → has_nl t = false.
Proof.
  assert (Hs : ∀ p s, p nl = false → has_nl (sign_of p s).1 = false).
  { intros p [|c u] Hp; [done|]. cbn [sign_of]. destruct (p c) eqn:E; [|done]. unfold has_nl. cbn [fst string_exists].
    destruct (Ascii.eqb_spec nl c) as [<-|]; [congruence|done]. }
  unfold number. pose proof (Hs is_minus s eq_refl) as H0. destruct (sign_of is_minus s) as [sg r0]. cbn [fst] in H0.
  destruct (int_part r0) as [[i r1]|] eqn:Hi; [|done]. destruct (frac_part r1) as [[f r2]|] eqn:Hf; [|done].
  destruct (exp_part r2) as [[e r3]|] eqn:He; [|done]. intros [= <- <-]. rewrite !has_nl_app, H0. cbn [orb].
  apply orb_false_iff; split; [|apply orb_false_iff; split].
  - destruct r0 as [|c r0]; [done|]. cbn [int_part] in Hi. destruct (Ascii.eqb_spec c "0") as [->|]; [by injection Hi as <- <-|].
    destruct (is_digit c) eqn:E; [|done]. pose proof (digits_line r0) as Hd. destruct (digits r0). injection Hi as <- <-.
    unfold has_nl in *. cbn [fst string_exists] in *. rewrite Hd, orb_false_r. by destruct (Ascii.eqb_spec nl c) as [<-|].
  - destruct r1 as [|c r1]; [by injection Hf as <- <-|]. cbn [frac_part] in Hf.
    destruct (Ascii.eqb_spec c ".") as [->|]; [|by injection Hf as <- <-]. pose proof (digits_line r1) as Hd.
    destruct (digits r1) as [d r']. destruct (truthy d); [|done]. injection Hf as <- <-. exact Hd.
  - destruct r2 as [|c r2]; [by injection He as <- <-|]. cbn [exp_part] in He.
    destruct (is_e c) eqn:E; [|by injection He as <- <-]. pose proof (Hs is_sign r2 eq_refl) as Hg.
    destruct (sign_of is_sign r2) as [sg' r']. pose proof (digits_line r') as Hd. destruct (digits r') as [d r''].
    destruct (truthy d); [|done]. injection He as <- <-. change (has_nl (String c ?x)) with (Ascii.eqb nl c || has_nl x).
    rewrite has_nl_app. cbn [fst] in *. rewrite Hg, Hd. by destruct (Ascii.eqb_spec nl c) as [<-|].
Qed.

Section line.
Context (num_str : num → string) (str_num : string → num).

Lemma members_line (o : omap jval) :
  Forall (λ v, has_nl (text_in num_str v) = false) o.*2 → Forall (λ t, has_nl t = false) (member_texts num_str o).
Proof.
  induction o as [|[k v] o IH]; [constructor|]. intros [Hv H]%Forall_cons. cbn [member_texts].
  unfold text_in in Hv. cbn [snd] in Hv. destruct (stringify num_str v) as [t|]; [|by apply IH]. constructor; [|by apply IH].
  rewrite !has_nl_app, quoted_line. exact Hv.
Qed.

Lemma text_one_line v : readable num_str str_num v → has_nl (text_in num_str v) = false.
Proof.
  induction v as [| |b|n|s|l IH|o IH|f] using jval_ind'; intros Hr; try done.
  - by destruct b.
  - destruct n as [| |q]; [done|done|]. inversion Hr as [| | | | |? Hn _| | | |]; subst. by eapply number_line.
  - apply quoted_line.
  - inversion Hr as [| | | | | | |? Hl| |]; subst. rewrite text_in_arr, !has_nl_app, join_line; [done|].
    apply Forall_forall. intros t Ht. apply list_elem_of_fmap in Ht as (x & -> & Hx).
    rewrite Forall_forall in IH, Hl. by apply IH, Hl.
  - inversion Hr as [| | | | | | | |? _ Hl|]; subst. rewrite text_in_obj, !has_nl_app, join_line; [done|].
    apply members_line. apply Forall_forall. intros x Hx. rewrite Forall_forall in IH, Hl. by apply IH, Hl.
Qed.

Lemma stringify_line v t : readable num_str str_num v → stringify num_str v = Some t → t ≠ EmptyString ∧ has_nl t = false.
Proof.
  intros Hr Ht. pose proof (text_one_line v Hr) as H. pose proof (text_in_leads num_str str_num v Hr) as Hl.
  unfold text_in in *. rewrite Ht in *. split; [by intros ->|exact H].
Qed.

End line.

(** Objects with literal member names, none of which looks like an array index. *)
Lemma names_ordered (ks : list string) :
  forallb (λ k, negb (is_Some_b (array_index k))) ks = true → NoDup ks → StronglySorted key_before ks.
Proof.
  intros Hi. induction 1 as [|k ks Hk Hn IH]; [constructor|]. cbn [forallb] in Hi. apply andb_true_iff in Hi as [Hki Hi].
  constructor; [by apply IH|]. apply Forall_forall. intros k' Hk'. unfold key_before.
  rewrite forallb_elem in Hi. specialize (Hi k' Hk'). destruct (array_index k), (array_index k'); try done. by intros ->.
Qed.

(** ** Operations on a log

    A journal's operations, each of which appends at most one record, the outcome of the append being
    the environment's. A crash during an operation is a restart from what the append left. *)

Section operations.
Context {R : Type} (text : R → string) (parseRecord : string → result R) (keyOf : R → string) (mayFollow : R → R → bool).
Context (wf : R → Prop).
Context {Op : Type} (pre : Op → Prop) (exec : Op → append_outcome → Log R → result R * Log R).
Hypothesis text_line : ∀ r, wf r → text r ≠ EmptyString ∧ has_nl (text r) = false.
Hypothesis text_reads : ∀ r, wf r → parseRecord (text r) = Ok r.

Definition appends (op : Op) (j : Log R) : Prop :=
  (∃ res, ∀ o, exec op o j = (res, j)) ∨
  (∃ r, wf r ∧ follows keyOf mayFollow j r ∧ ∀ o, exec op o j = appendRecord text keyOf o r j).

Abbreviation ok := (log_ok text parseRecord keyOf mayFollow wf).
Hypothesis exec_appends : ∀ op j, ok j → pre op → appends op j.
Hypothesis mayFollow_trans : ∀ p q r, mayFollow p q = true → mayFollow q r = true → mayFollow p r = true.

Inductive log_step : relation (Log R) :=
| log_done op j : pre op → log_step j (exec op Appended j).2
| log_crash op k j j' : pre op → loadLog parseRecord keyOf mayFollow (file (exec op (Interrupted k) j).2) = Some (Ok j') → log_step j j'.

Lemma crash_atomic op k j : ok j → pre op →
  ∃ j', loadLog parseRecord keyOf mayFollow (file (exec op (Interrupted k) j).2) = Some (Ok j') ∧
        (j' = j ∨ j' = (exec op Appended j).2).
Proof using text_line text_reads exec_appends.
  intros Hok Hpre. destruct (exec_appends op j Hok Hpre) as [[res H]|(r & Hw & Hf & H)]; rewrite !H.
  - exists j. split; [|by left]. by eapply load_ok.
  - eexists. split; [by eapply load_interrupted|]. case_match; auto.
Qed.

Lemma log_step_ok j j' : log_step j j' → ok j → ok j'.
Proof using text_line text_reads exec_appends.
  assert (Hd : ∀ op j, pre op → ok j → ok (exec op Appended j).2).
  { intros op i Hp Hok. destruct (exec_appends op i Hok Hp) as [[res H]|(r & Hw & Hf & H)]; rewrite H; [done|].
    by eapply log_ok_append. }
  intros [op i Hp|op k i i' Hp Hl] Hok; [by apply Hd|].
  destruct (crash_atomic op k i Hok Hp) as (i2 & Hl2 & Hi). rewrite Hl in Hl2. injection Hl2 as <-.
  destruct Hi as [->| ->]; [done|by apply Hd].
Qed.

Lemma reachable_ok j j' : rtc log_step j j' → ok j → ok j'.
Proof using text_line text_reads exec_appends. induction 1; eauto using log_step_ok. Qed.

(** What is recorded stays, or is followed by what may follow it. *)
Lemma log_step_keeps j j' k r : log_step j j' → ok j → om_get k (records j) = Some r →
  ∃ r', om_get k (records j') = Some r' ∧ (r' = r ∨ mayFollow r r' = true).
Proof using text_line text_reads exec_appends.
  assert (Hd : ∀ op j, pre op → ok j → om_get k (records j) = Some r →
    ∃ r', om_get k (records (exec op Appended j).2) = Some r' ∧ (r' = r ∨ mayFollow r r' = true)).
  { intros op i Hp Hok Hr. destruct (exec_appends op i Hok Hp) as [[res H]|(x & Hw & Hf & H)]; rewrite H; [eauto|].
    cbn [appendRecord snd records]. rewrite om_get_set. destruct (String.eqb_spec (keyOf x) k) as [<-|]; [|eauto].
    exists x. split; [done|]. right. by apply Hf. }
  intros [op i Hp|op n i i' Hp Hl] Hok Hr; [by apply Hd|].
  destruct (crash_atomic op n i Hok Hp) as (i2 & Hl2 & Hi). rewrite Hl in Hl2. injection Hl2 as <-.
  destruct Hi as [->| ->]; [eauto|by apply Hd].
Qed.

Lemma reachable_keeps j j' k r : rtc log_step j j' → ok j → om_get k (records j) = Some r →
  ∃ r', om_get k (records j') = Some r' ∧ (r' = r ∨ mayFollow r r' = true).
Proof using text_line text_reads exec_appends mayFollow_trans.
  intros Hs. revert r. induction Hs as [j|j1 j2 j3 Hs _ IH]; intros r Hok Hr; [eauto|].
  destruct (log_step_keeps _ _ _ _ Hs Hok Hr) as (r2 & Hr2 & H2).
  destruct (IH r2 (log_step_ok _ _ Hs Hok) Hr2) as (r3 & Hr3 & H3). exists r3. split; [done|].
  destruct H2 as [->|H2], H3 as [->|H3]; eauto.
Qed.

End operations.
