(* ===== verification/JournalSafety.v ===== *)
(** * The two Matrix journals

    The operations of the delivery journal and of the dispatch store as instances of the section
    [operations] of [Journal]: every record they write reads back, so that a crash at any byte of any
    write leaves the journal before or after it, and no sequence of operations, crashes and restarts
    takes back a delivery or a receipt. The last part shows what those guarantees do not cover: a
    write that fails in a process that goes on. *)

From Stdlib Require Import ZArith QArith Lia String Ascii.
From stdpp Require Import base list strings relations.
From S2P Require Import Prelude OMap Json JsonParse Journal.
#[local] Open Scope stdpp_scope.

Lemma normalizeId_fixed v s : normalizeId v = Ok s → normalizeId (JStr s) = Ok s.
Proof.
  unfold normalizeId. intros H. js_inv H. injection H as <-. destruct v as [| | | |s| | |]; try done. by rewrite trim_idem, E.
Qed.

Lemma normalizeOptionalId_fixed v t : normalizeOptionalId v = Ok (Some t) → normalizeId (JStr t) = Ok t.
Proof.
  destruct v as [| | | |[|c s]| | |]; try done; cbn [normalizeOptionalId]; intros H;
    apply bind_Ok in H as (a & Ha & [= <-]); by eapply normalizeId_fixed.
Qed.

Lemma normalizeId_nonempty v s : normalizeId v = Ok s → truthy s = true.
Proof.
  unfold normalizeId. intros H. js_inv H. injection H as <-. apply orb_false_iff in E as [E _]. by apply negb_false_iff.
Qed.

Lemma optional_fixed t : normalizeId (JStr t) = Ok t → normalizeOptionalId (JStr t) = Ok (Some t).
Proof. intros H. pose proof (normalizeId_nonempty _ _ H) as Ht. destruct t as [|c t]; [done|]. cbn [normalizeOptionalId]. by rewrite H. Qed.

(** A value that a JSON file can hold as it is. *)
Definition document (num_str : num → string) (str_num : string → num) (v : jval) : Prop :=
  readable num_str str_num v ∧ json_copy v = Some v.

Module DeliverySafety.
Import Delivery.

Section facts.
Context (num_str : num → string) (str_num : string → num).

(** The operations, each with the time it runs at. *)
Inductive Op : Type :=
| RecordPending (now : string) (m r p t : jval)
| MarkCommitted (now : string) (m : jval).

Definition exec (op : Op) (o : append_outcome) (j : Log Entry) : result Entry * Log Entry :=
  match op with
  | RecordPending now m r p t => recordPending num_str now o m r p t j
  | MarkCommitted now m => markCommitted num_str now o m j
  end.

(** [new Date().toISOString()] is not empty. *)
Definition pre (op : Op) : Prop := match op with RecordPending now _ _ _ _ | MarkCommitted now _ => now ≠ EmptyString end.

Definition wf (r : Entry) : Prop :=
  normalizeId (JStr (messageId r)) = Ok (messageId r) ∧ normalizeId (JStr (roomId r)) = Ok (roomId r) ∧
  normalizeId (JStr (primaryEventId r)) = Ok (primaryEventId r) ∧
  (∀ t, threadRootEventId r = Some t → normalizeId (JStr t) = Ok t) ∧ updatedAt r ≠ EmptyString.

Lemma entry_readable r : readable num_str str_num (entryJson r).
Proof.
  apply rd_obj; [apply names_ordered; [done|by apply (bool_decide_unpack _)]|].
  destruct (threadRootEventId r) as [t|] eqn:E; cbn [fmap list_fmap snd]; rewrite ?E; repeat constructor.
Qed.

Lemma entry_text r : stringify num_str (entryJson r) = Some (entryText num_str r).
Proof. done. Qed.

Lemma entry_line r : wf r → entryText num_str r ≠ EmptyString ∧ has_nl (entryText num_str r) = false.
Proof using str_num. intros _. eapply stringify_line; [apply entry_readable|apply entry_text]. Qed.

Lemma entry_reads r : wf r → parseRecord str_num (entryText num_str r) = Ok r.
Proof.
  intros (Hm & Hr & Hp & Ht & Hu). unfold parseRecord.
  rewrite (json_roundtrip num_str str_num _ _ (entry_readable r) (entry_text r)).
  destruct r as [m ro p t st u]. cbn [messageId roomId primaryEventId threadRootEventId updatedAt state] in *.
  apply truthy_spec in Hu.
  assert (Ho : normalizeOptionalId (str_or_null t) = Ok t) by (destruct t as [t|]; [by apply optional_fixed, Ht|done]).
  assert (Hc : clone (entryJson (MkEntry m ro p t st u)) = entryJson (MkEntry m ro p t st u)) by by destruct t.
  rewrite Hc. unfold entryJson, prop. cbn [messageId roomId primaryEventId threadRootEventId updatedAt state prop_in].
  cbn [String.eqb Ascii.eqb Bool.eqb andb prop_in]. rewrite Hm, Hr, Hp, Ho, Hu. by destruct st.
Qed.

Lemma sameDelivery_spec a b : sameDelivery a b = true ↔
  messageId a = messageId b ∧ roomId a = roomId b ∧ primaryEventId a = primaryEventId b ∧ threadRootEventId a = threadRootEventId b.
Proof.
  unfold sameDelivery. rewrite !andb_true_iff, !String.eqb_eq, bool_decide_eq_true. naive_solver.
Qed.

Lemma delivery_mayFollow_trans p q r : mayFollow p q = true → mayFollow q r = true → mayFollow p r = true.
Proof.
  unfold mayFollow. rewrite !andb_true_iff, !sameDelivery_spec. intros [H1 H2] [H3 H4]. split; [naive_solver congruence|].
  by destruct (isCommitted p), (isCommitted q), (isCommitted r).
Qed.

Abbreviation ok := (log_ok (entryText num_str) (parseRecord str_num) messageId mayFollow wf).

Lemma delivery_exec_appends op j : ok j → pre op →
  appends (entryText num_str) messageId mayFollow wf exec op j.
Proof.
  intros Hok Hnow. destruct op as [now m r p t|now m]; cbn [pre exec] in *.
  - unfold appends, exec, recordPending. destruct (candidate now m r p t) as [c|c] eqn:Hc; [|left; by eexists].
    destruct (om_get (messageId c) (records j)) as [e|] eqn:He.
    { left. destruct (negb (sameDelivery e c)); by eexists. }
    right. exists c. split; [|split; [|done]]; [|by intros p' Hp'; rewrite He in Hp'].
    unfold candidate in Hc. js_inv Hc. injection Hc as <-. unfold wf. cbn [messageId roomId primaryEventId threadRootEventId updatedAt].
    split_and!; try (by eapply normalizeId_fixed); [|done]. intros t' ->. by eapply normalizeOptionalId_fixed.
  - unfold appends, exec, markCommitted. destruct (normalizeId m) as [n|c]; [|left; by eexists].
    destruct (om_get n (records j)) as [e|] eqn:He; [|left; by eexists].
    destruct (isCommitted e) eqn:Hce; [left; by eexists|]. right. eexists. split; [|split; [|done]].
    + destruct (log_ok_records _ _ _ _ wf entry_reads _ _ _ Hok He) as [_ (? & ? & ? & ? & ?)]. by destruct e.
    + intros p Hp. destruct (log_ok_records _ _ _ _ wf entry_reads _ _ _ Hok He) as [Hk _].
      assert (p = e) as -> by (destruct e; cbn in *; congruence).
      unfold mayFollow. rewrite Hce, andb_true_r. apply sameDelivery_spec. by destruct e.
Qed.

Definition step : relation (Log Entry) := log_step (parseRecord str_num) messageId mayFollow pre exec.

Lemma delivery_reachable j : rtc step emptyLog j → ok j.
Proof.
  intros H. eapply reachable_ok; [apply entry_line|apply entry_reads|apply delivery_exec_appends|exact H|apply log_ok_empty].
Qed.

(** What the reader of a line accepts is well formed. *)
Lemma parsed_wf line r : parseRecord str_num line = Ok r → wf r.
Proof.
  unfold parseRecord. destruct (json_parse str_num line) as [v|]; [|done].
  match goal with |- (match ?x with Ok _ => _ | Throw _ => _ end) = _ → _ => destruct x as [y|] eqn:E; [|done] end.
  intros [= ->]. js_inv E. injection E as <-. unfold wf. cbn [messageId roomId primaryEventId threadRootEventId updatedAt].
  split_and!; try (by eapply normalizeId_fixed).
  - intros t ->. by eapply normalizeOptionalId_fixed.
  - destruct (prop v "updatedAt") as [| | | |s| | |]; try done. destruct (truthy s) eqn:Es; [by apply truthy_spec|done].
Qed.

Lemma replay_codes ts m c : replay (parseRecord str_num) messageId mayFollow ts m = Throw c →
  inb c ["blank_record"; "invalid_journal"] = true.
Proof.
  revert m. induction ts as [|t ts IH]; intros m H; [done|]. cbn [replay] in H.
  destruct (negb (truthy t)); [by injection H as <-|]. destruct (parseRecord str_num t) as [r|c'] eqn:E.
  - cbn [bind] in H. destruct (om_get _ m) as [p|]; [|by eapply IH]. destruct (negb _); [by injection H as <-|by eapply IH].
  - injection H as ->. unfold parseRecord in E. destruct (json_parse _ t); [|by injection E as <-].
    match type of E with (match ?x with Ok _ => _ | Throw _ => _ end) = _ => destruct x; [done|by injection E as <-] end.
Qed.

(** C20. Crash atomicity of the delivery journal: whatever operations, crashes and restarts came
    before, if the process dies after any number [k] of bytes of the line an operation appends, the
    next start succeeds and finds the journal either as it was before the operation or as the
    completed operation leaves it; and a restart without a crash finds exactly what was in memory. *)
Theorem delivery_crash_atomic j op k :
  rtc step emptyLog j → pre op →
  (∃ j', load str_num (file (exec op (Interrupted k) j).2) = Some (Ok j') ∧ (j' = j ∨ j' = (exec op Appended j).2)) ∧
  load str_num (file j) = Some (Ok j).
Proof.
  intros Hj%delivery_reachable Hop. split.
  - by eapply (crash_atomic _ _ _ _ wf pre exec entry_line entry_reads delivery_exec_appends).
  - by eapply load_ok; [apply entry_line|].
Qed.

(** C21. Whatever bytes the file holds, as long as their text has only characters below 256 (the texts of
    this development; of other files nothing is said), the constructor either refuses it for a blank line or
    an invalid record (the JSON reader always finishes) or yields a journal in which every delivery is well
    formed: it sits under its own message id, every id is trimmed and of 1 to 255 characters, the time stamp
    is present; and such a delivery's own line reads back as it is. *)
Theorem loaded_deliveries_are_well_formed bytes :
  match load str_num bytes with
  | Some (Ok j) => ∀ id r, om_get id (records j) = Some r → messageId r = id ∧ wf r ∧ parseRecord str_num (entryText num_str r) = Ok r
  | Some (Throw c) => c = "blank_record" ∨ c = "invalid_journal"
  | None => utf8_decode (but_last (complete bytes)) = None
  end ∧ ∀ line, json_parse str_num line ≠ Throw "OutOfFuel".
Proof.
  split; [|apply json_parse_total]. destruct (load str_num bytes) as [[j|c]|] eqn:E; unfold load, loadLog in E.
  - intros id r Hr. cut (messageId r = id ∧ wf r); [intros [? Hw]; split_and!; [done|done|by apply entry_reads]|].
    destruct (negb (truthy (complete bytes))); [by injection E as <-|].
    destruct (utf8_decode _) as [s|]; [|done]. injection E as E. apply bind_Ok in E as (m & Hm & [= <-]).
    eapply (replay_wf _ _ _ (split_on nl s) [] m wf); [|done|exact Hm|exact Hr]. intros t x _. apply parsed_wf.
  - destruct (negb (truthy (complete bytes))); [done|]. destruct (utf8_decode _) as [s|]; [|done]. injection E as E.
    destruct (replay _ _ _ _ _) as [m|c'] eqn:Hr; [done|]. injection E as <-. apply replay_codes, inb_spec in Hr. set_solver.
  - destruct (negb (truthy (complete bytes))); [done|]. by destruct (utf8_decode _).
Qed.

(** A delivery is never taken back or redirected: once a message id is recorded, every later
    state of the journal, through any operations, crashes and restarts, records it with the same
    room, primary event and thread root, and once committed it stays committed. *)
Theorem delivery_never_regresses j j' id r :
  rtc step emptyLog j → rtc step j j' → get id j = Some r →
  ∃ r', get id j' = Some r' ∧ sameDelivery r r' = true ∧ (isCommitted r = true → isCommitted r' = true).
Proof.
  intros Hj%delivery_reachable Hs. unfold get, getRecord. destruct id as [| | | |s| | |]; try done.
  destruct (truthy (trim s)); [|done]. intros Hr.
  destruct (reachable_keeps _ _ _ _ wf pre exec entry_line entry_reads delivery_exec_appends delivery_mayFollow_trans _ _ _ _ Hs Hj Hr)
    as (r' & Hr' & [Heq|H]); exists r'; (split; [done|]).
  - subst r'. split; [by apply sameDelivery_spec|done].
  - unfold mayFollow in H. apply andb_true_iff in H as [H1 H2]. split; [done|].
    intros Hc. rewrite Hc in H2. by destruct (isCommitted r').
Qed.

End facts.
Definition no_text : num → string := λ _, "0".
Definition no_num : string → num := λ _, Fin 0.
Definition sent : Op := RecordPending "2026-01-01T00:00:00.000Z" (JStr " msg-1 ") (JStr "!r:x") (JStr "$e1") JUndef.
Definition done_ : Op := MarkCommitted "2026-01-01T00:00:01.000Z" (JStr "msg-1").
Definition after_sent : Log Entry := (exec no_text sent Appended emptyLog).2.
Definition after_done : Log Entry := (exec no_text done_ Appended after_sent).2.

Lemma delivery_crash_atomic_witness :
  pre done_ ∧ load no_num (file (exec no_text done_ (Interrupted 17) after_sent).2) = Some (Ok after_sent) ∧
  (∃ j', load no_num (file (exec no_text done_ (Interrupted 17) after_sent).2) = Some (Ok j') ∧
         (j' = after_sent ∨ j' = (exec no_text done_ Appended after_sent).2)).
Proof.
  assert (Hl : load no_num (file (exec no_text done_ (Interrupted 17) after_sent).2) = Some (Ok after_sent)) by by vm_compute.
  split; [done|]. split; [exact Hl|].
  destruct (delivery_crash_atomic no_text no_num after_sent done_ 17) as [H _]; [|done|exact H].
  apply rtc_once. refine (log_done _ _ _ _ _ sent emptyLog _); done.
Defined.

Lemma delivery_never_regresses_witness :
  is_Some (get (JStr "msg-1") after_sent) ∧
  ∃ r', get (JStr "msg-1") after_done = Some r' ∧ isCommitted r' = true ∧ roomId r' = "!r:x".
Proof.
  assert (Hg : get (JStr "msg-1") after_sent =
    Some (MkEntry "msg-1" "!r:x" "$e1" None pending_ "2026-01-01T00:00:00.000Z")) by by vm_compute.
  assert (Hc : ∀ r', get (JStr "msg-1") after_done = Some r' → isCommitted r' = true).
  { intros r' H. vm_compute in H. by injection H as <-. }
  split; [rewrite Hg; by eexists|].
  destruct (delivery_never_regresses no_text no_num after_sent after_done (JStr "msg-1") _
    ltac:(apply rtc_once; refine (log_done _ _ _ _ _ sent emptyLog _); done)
    ltac:(apply rtc_once; refine (log_done _ _ _ _ _ done_ after_sent _); done) Hg) as (r' & H1 & H2 & _).
  exists r'. split; [done|]. split; [by apply Hc|]. apply sameDelivery_spec in H2 as (_ & H2 & _). by rewrite <-H2.
Defined.

Lemma loaded_deliveries_are_well_formed_witness :
  match load no_num (file after_done) with
  | Some (Ok j) => is_Some (om_get "msg-1" (records j)) ∧ ∀ r, om_get "msg-1" (records j) = Some r → wf r
  | _ => False
  end.
Proof.
  pose proof (loaded_deliveries_are_well_formed no_text no_num (file after_done)) as [H _].
  destruct (load no_num (file after_done)) as [[j|c]|] eqn:E; [|vm_compute in E; discriminate E..].
  split; [vm_compute in E; injection E as <-; by eexists|]. intros r Hr. by destruct (H _ _ Hr) as (_ & Hw & _).
Defined.

(** A write that fails part way in a process that goes on: nothing removes the bytes it left, so the
    next append continues that line, and the journal it returned success for cannot be loaded. *)
Theorem failed_append_poisons_journal :
  let '(r1, j1) := exec no_text sent (Interrupted 17) emptyLog in
  let '(r2, j2) := exec no_text (RecordPending "2026-01-01T00:00:02.000Z" (JStr "msg-2") (JStr "!r:x") (JStr "$e2") JNull) Appended j1 in
  is_ok r1 = false ∧ is_ok r2 = true ∧ load no_num (file j1) = Some (Ok emptyLog) ∧ load no_num (file j2) = Some (Throw "invalid_journal").
Proof. by vm_compute. Qed.

End DeliverySafety.

Module DispatchSafety.
Import Dispatch.

Section facts.
Context (num_str : num → string) (str_num : string → num).

Inductive Op : Type :=
| Reserve (now : string) (e m msg d p : jval)
| Accept (now : string) (e p : jval)
| Commit (now : string) (e p : jval).

Definition exec (op : Op) (o : append_outcome) (j : Log Receipt) : result Receipt * Log Receipt :=
  match op with
  | Reserve now e m msg d p => reserve num_str now o e m msg d p j
  | Accept now e p => accept num_str now o e p j
  | Commit now e p => commit num_str now o e p j
  end.

Abbreviation document := (document num_str str_num).

(** A receipt that its own line reads back as: the message names its ids, and everything in it is
    what a JSON file can hold. *)
Definition wf (r : Receipt) : Prop :=
  (normalizeId (JStr (eventId r)) = Ok (eventId r) ∧ normalizeId (JStr (messageId r)) = Ok (messageId r)) ∧
  (is_record (message r) = true ∧ document (message r) ∧
   strict_eq (prop (message r) "id") (JStr (messageId r)) = true ∧
   strict_eq (prop (message r) "sourceEventId") (JStr (eventId r)) = true) ∧
  (document (dispatch r) ∧ is_object (dispatch r) = true) ∧
  (document (response r) ∧ (response r = JNull ∨ is_object (response r) = true)).

(** What the caller guarantees: the receipt it reserves is of that form, and its responses are. *)
Definition pre (op : Op) : Prop :=
  match op with
  | Reserve now e m msg d p =>
      ∀ en mn, normalizeId e = Ok en → normalizeId m = Ok mn →
        wf (MkReceipt en mn reserved msg (match d with JUndef => JObj [] | _ => d end)
              (match p with JUndef => JNull | _ => p end) now)
  | Accept _ _ p | Commit _ _ p => is_object p = true → document p
  end.

Lemma receipt_readable r : wf r → readable num_str str_num (receiptJson r).
Proof.
  intros (_ & (_ & [Hm _] & _) & [[Hd _] _] & [[Hp _] _]).
  apply rd_obj; [apply names_ordered; [done|by apply (bool_decide_unpack _)]|].
  cbn [fmap list_fmap snd]. repeat (apply Forall_cons; split; [first [assumption|constructor]|]). constructor.
Qed.

Lemma receipt_text r : stringify num_str (receiptJson r) = Some (receiptText num_str r).
Proof. done. Qed.

Lemma receipt_line r : wf r → receiptText num_str r ≠ EmptyString ∧ has_nl (receiptText num_str r) = false.
Proof using str_num. intros Hw. eapply stringify_line; [by apply receipt_readable|apply receipt_text]. Qed.

Lemma status_of_text s : status_of (status_text s) = Some s.
Proof. by destruct s. Qed.

Lemma receipt_clone r : wf r → clone (receiptJson r) = receiptJson r.
Proof.
  intros (_ & (_ & [_ Hm] & _) & [[_ Hd] _] & [[_ Hp] _]). unfold clone, receiptJson. cbn [json_copy].
  by rewrite Hm, Hd, Hp.
Qed.

Lemma receipt_reads r : wf r → parseRecord str_num (receiptText num_str r) = Ok r.
Proof.
  intros Hw. unfold parseRecord.
  rewrite (json_roundtrip num_str str_num _ _ (receipt_readable r Hw) (receipt_text r)), receipt_clone by done.
  destruct Hw as ((He & Hi) & (Hr & _ & Hid & Hsrc) & (_ & Hd) & (_ & Hp)).
  destruct r as [e m st msg d p u]. cbn [eventId messageId status message dispatch response updatedAt] in *.
  set (v := receiptJson _) in *. change (prop v "status") with (JStr (status_text st)).
  change (prop v "message") with msg. change (prop v "eventId") with (JStr e). change (prop v "messageId") with (JStr m).
  change (prop v "dispatch") with d. change (prop v "response") with p. change (prop v "updatedAt") with (JStr u).
  cbv beta iota zeta. rewrite status_of_text. cbn [bind]. rewrite Hr. cbn [negb]. rewrite He. cbn [bind]. rewrite Hi. cbn [bind].
  rewrite Hid, Hsrc, Hd. destruct Hp as [->|Hp]; [done|]. by rewrite Hp.
Qed.

Lemma mayFollow_spec p r : mayFollow num_str p r = true ↔
  messageId p = messageId r ∧ stringify num_str (message p) = stringify num_str (message r) ∧ rank (status p) ≤ rank (status r).
Proof. unfold mayFollow. rewrite !andb_true_iff, String.eqb_eq, bool_decide_eq_true, negb_true_iff, Z.ltb_ge. naive_solver. Qed.

Lemma dispatch_mayFollow_trans p q r : mayFollow num_str p q = true → mayFollow num_str q r = true → mayFollow num_str p r = true.
Proof. rewrite !mayFollow_spec. intros (H1 & H2 & H3) (H4 & H5 & H6). split_and!; [congruence|congruence|lia]. Qed.

Abbreviation ok := (log_ok (receiptText num_str) (parseRecord str_num) eventId (mayFollow num_str) wf).

(** The two later operations append the receipt itself, further along. *)
Lemma advance_appends j now p e n st : ok j → (is_object p = true → document p) →
  om_get n (records j) = Some e → rank (status e) ≤ rank st →
  let r := e <| status := st |> <| response := respond p e |> <| updatedAt := now |> in
  wf r ∧ follows eventId (mayFollow num_str) j r.
Proof.
  intros Hok Hp He Hst. destruct (log_ok_records _ _ _ _ wf receipt_reads _ _ _ Hok He) as [Hk (H1 & H2 & H3 & H4)].
  split.
  - unfold wf, respond. destruct e. cbn in *. split; [done|]. split; [done|]. split; [done|].
    destruct (is_object p) eqn:Ep; [split; [by apply Hp|by right]|done].
  - intros q Hq. assert (q = e) as -> by (destruct e; cbn in *; congruence). apply mayFollow_spec. by destruct e.
Qed.

Lemma dispatch_exec_appends op j : ok j → pre op → appends (receiptText num_str) eventId (mayFollow num_str) wf exec op j.
Proof.
  intros Hok Hpre. destruct op as [now e m msg d p|now e p|now e p]; cbn [pre] in *; unfold appends, exec.
  - unfold reserve. destruct (normalizeId e) as [en|]; [|left; by eexists].
    destruct (om_get en (records j)) eqn:Hg; [left; by eexists|]. destruct (normalizeId m) as [mn|]; [|left; by eexists].
    right. eexists. split; [by apply Hpre|]. split; [|done]. intros q Hq. cbn [eventId] in Hq. congruence.
  - unfold accept. destruct (normalizeId e) as [en|]; [|left; by eexists].
    destruct (om_get en (records j)) as [x|] eqn:Hg; [|left; by eexists]. destruct (status x) eqn:Hs; try (left; by eexists).
    right. eexists. edestruct advance_appends as [Hw Hf]; [exact Hok|exact Hpre|exact Hg| |split; [exact Hw|split; [exact Hf|done]]].
    by rewrite Hs.
  - unfold commit. destruct (normalizeId e) as [en|]; [|left; by eexists].
    destruct (om_get en (records j)) as [x|] eqn:Hg; [|left; by eexists]. destruct (status x) eqn:Hs; try (left; by eexists).
    right. eexists. edestruct advance_appends as [Hw Hf]; [exact Hok|exact Hpre|exact Hg| |split; [exact Hw|split; [exact Hf|done]]].
    by rewrite Hs.
Qed.

Definition step : relation (Log Receipt) := log_step (parseRecord str_num) eventId (mayFollow num_str) pre exec.

Lemma dispatch_reachable j : rtc step emptyLog j → ok j.
Proof.
  intros H. eapply reachable_ok; [apply receipt_line|apply receipt_reads|apply dispatch_exec_appends|exact H|apply log_ok_empty].
Qed.

(** A dispatched event advances reserved, accepted, committed and never back: through any
    operations, crashes in the middle of a write and restarts, an event once reserved keeps its
    message id and the text of its message and its status never falls; a crash leaves the receipt
    before or after the operation, and every restart succeeds. *)
Theorem dispatch_survives_crashes j j' id r op k :
  rtc step emptyLog j → rtc step j j' → get id j = Some r → pre op →
  (∃ r', get id j' = Some r' ∧ messageId r' = messageId r ∧
         stringify num_str (message r') = stringify num_str (message r) ∧ rank (status r) ≤ rank (status r')) ∧
  (∃ j2, load num_str str_num (file (exec op (Interrupted k) j').2) = Some (Ok j2) ∧ (j2 = j' ∨ j2 = (exec op Appended j').2)).
Proof.
  intros Hj%dispatch_reachable Hs Hg Hop. split.
  - revert Hg. unfold get, getRecord. destruct id as [| | | |s| | |]; try done. destruct (truthy (trim s)); [|done]. intros Hr.
    destruct (reachable_keeps _ _ _ _ wf pre exec receipt_line receipt_reads dispatch_exec_appends dispatch_mayFollow_trans _ _ _ _ Hs Hj Hr)
      as (r' & Hr' & [Heq|H]); exists r'; (split; [done|]).
    + by subst r'.
    + apply mayFollow_spec in H. naive_solver.
  - eapply (crash_atomic _ _ _ _ wf pre exec receipt_line receipt_reads dispatch_exec_appends); [|done].
    by eapply reachable_ok; [apply receipt_line|apply receipt_reads|apply dispatch_exec_appends|exact Hs|].
Qed.

End facts.
Definition no_text : num → string := λ _, "0".
Definition no_num : string → num := λ _, Fin 0.
Definition hello : jval := JObj [("id", JStr "m1"); ("sourceEventId", JStr "$e1"); ("summary", JStr "hello")].
Definition received : Op := Reserve "2026-01-01T00:00:00.000Z" (JStr "$e1") (JStr "m1") hello JUndef JUndef.
Definition taken : Op := Accept "2026-01-01T00:00:01.000Z" (JStr "$e1") JUndef.
Definition finished : Op := Commit "2026-01-01T00:00:02.000Z" (JStr "$e1") JUndef.
Definition after_received : Log Receipt := (exec no_text received Appended emptyLog).2.
Definition after_taken : Log Receipt := (exec no_text taken Appended after_received).2.

Lemma received_pre : pre no_text no_num received.
Proof.
  intros en mn [= <-] [= <-]. split; [done|]. split; [|split].
  - split; [done|]. split; [|done]. split; [|done]. apply rd_obj; [apply names_ordered; [done|by apply (bool_decide_unpack _)]|].
    repeat constructor.
  - split; [|done]. split; [|done]. apply rd_obj; [constructor|constructor].
  - split; [|by left]. split; [constructor|done].
Defined.

Lemma dispatch_survives_crashes_witness :
  (∃ r', get (JStr "$e1") after_taken = Some r' ∧ status r' = accepted ∧ messageId r' = "m1") ∧
  load no_text no_num (file (exec no_text finished (Interrupted 40) after_taken).2) = Some (Ok after_taken).
Proof.
  assert (Hg : get (JStr "$e1") after_received =
    Some (MkReceipt "$e1" "m1" reserved hello (JObj []) JNull "2026-01-01T00:00:00.000Z")) by by vm_compute.
  assert (Hs : ∀ r', get (JStr "$e1") after_taken = Some r' → status r' = accepted).
  { intros r' H. vm_compute in H. by injection H as <-. }
  split; [|by vm_compute].
  destruct (dispatch_survives_crashes no_text no_num after_received after_taken (JStr "$e1") _ finished 40
    ltac:(apply rtc_once; exact (log_done _ _ _ _ _ received emptyLog received_pre))
    ltac:(apply rtc_once; refine (log_done _ _ _ _ _ taken after_received _); done) Hg ltac:(done)) as ((r' & H1 & H2 & _) & _).
  exists r'. split; [done|]. split; [by apply Hs|exact H2].
Defined.

(** The store keeps the caller's message object: assigning to it changes the stored receipt, and not
    the file. *)
Definition assignMessage (id : string) (msg : jval) (j : Log Receipt) : Log Receipt :=
  match om_get id (records j) with
  | Some r => MkLog (om_set id (r <| message := msg |>) (records j)) (file j)
  | None => j
  end.

(** When the message is changed between two operations, the later one writes a line the journal
    refuses: every operation succeeds, and the next start throws. *)
Theorem changed_message_poisons_journal :
  let suppressed := JObj [("id", JStr "m1"); ("sourceEventId", JStr "$e1"); ("summary", JStr "hello");
                          ("suppressedRecipients", JArr [JStr "ann"])] in
  let '(r, j) := exec no_text finished Appended (assignMessage "$e1" suppressed after_taken) in
  is_ok r = true ∧ load no_text no_num (file after_taken) = Some (Ok after_taken) ∧
  load no_text no_num (file j) = Some (Throw "invalid_journal").
Proof. by vm_compute. Qed.

End DispatchSafety.
