(* ===== verification/Store.v ===== *)
(** * Durable stores: the interface the JSON-backed stores promise

    Each store of the backend keeps its records in memory and hands a full copy to an injected
    [save]; a mutation that cannot be persisted has to leave no trace. This file states that
    contract once, as a type class, and proves against it that a whole run of operations keeps the
    file and the memory in step, whatever writes fail on the way. *)

From Stdlib Require Import ZArith Lia String.
From stdpp Require Import base list relations.
From S2P Require Import Prelude.

(** What the injected [save] did: returned normally, returned [false], or threw. *)
Inductive save_outcome : Type := SaveDone | SaveFalse | SaveThrew.

(** What one operation leaves behind: its result, the memory, and the image it wrote, if any. *)
Record step_out (M D A : Type) : Type := StepOut {
  so_res : result A;
  so_mem : M;
  so_disk : option D;
}.
Arguments StepOut {M D A} so_res so_mem so_disk.
Arguments so_res {M D A} s.
Arguments so_mem {M D A} s.
Arguments so_disk {M D A} s.

(** The process and its file. *)
Record world (M D : Type) : Type := World { w_mem : M; w_disk : D }.
Arguments World {M D} w_mem w_disk.
Arguments w_mem {M D} w.
Arguments w_disk {M D} w.

Definition apply_out {M D A} (w : world M D) (o : step_out M D A) : world M D :=
  World (so_mem o) (default (w_disk w) (so_disk o)).

(** An operation is atomic: it wrote the image of the memory it leaves, or it wrote nothing and the
    memory still has the image it had; and if it threw, it wrote nothing. *)
Definition atomic {M D A} (image : M → D) (m : M) (o : step_out M D A) : Prop :=
  (is_ok (so_res o) = false → so_disk o = None) ∧
  match so_disk o with
  | Some d => d = image (so_mem o)
  | None => image (so_mem o) = image m
  end.

(** The contract: a memory type, its image on disk, the operations with their environment, a
    well-formedness invariant every operation preserves, and atomicity. *)
Class Store (M D Op A : Type) : Type := {
  st_image : M → D;
  st_wf : M → Prop;
  st_pre : Op → M → Prop;
  st_exec : Op → M → step_out M D A;
  st_exec_wf : ∀ op m, st_wf m → st_pre op m → st_wf (so_mem (st_exec op m));
  st_exec_atomic : ∀ op m, st_wf m → st_pre op m → atomic st_image m (st_exec op m);
}.

Section run.
Context {M D Op A : Type} `{!Store M D Op A}.

Definition synced (w : world M D) : Prop := w_disk w = st_image (w_mem w).

(** One operation against a world, its precondition (freshness of generated ids) holding. *)
Inductive st_step : relation (world M D) :=
| st_step_intro op w : st_pre op (w_mem w) → st_step w (apply_out w (st_exec op (w_mem w))).

Lemma apply_out_synced w op :
  st_wf (w_mem w) → st_pre op (w_mem w) → synced w → synced (apply_out w (st_exec op (w_mem w))).
Proof.
  intros Hwf Hpre Hs. destruct (st_exec_atomic op _ Hwf Hpre) as [_ Ha]. unfold synced in *. simpl.
  destruct (so_disk _); simpl; congruence.
Qed.

(** Every world a run of operations reaches is well formed and in step with its file. *)
Lemma run_synced w w' :
  rtc st_step w w' → st_wf (w_mem w) → synced w → st_wf (w_mem w') ∧ synced w'.
Proof.
  induction 1 as [w|w1 w2 w3 Hstep _ IH]; [done|]. intros Hwf Hs.
  destruct Hstep as [op w1 Hpre]. apply IH; [by apply st_exec_wf|by apply apply_out_synced].
Qed.

(** An operation that throws changes neither the file nor the image of the memory. *)
Lemma throw_no_trace op w :
  st_wf (w_mem w) → st_pre op (w_mem w) → synced w →
  is_ok (so_res (st_exec op (w_mem w))) = false →
  w_disk (apply_out w (st_exec op (w_mem w))) = w_disk w ∧
  st_image (w_mem (apply_out w (st_exec op (w_mem w)))) = st_image (w_mem w).
Proof.
  intros Hwf Hpre Hs Hthrow. destruct (st_exec_atomic op _ Hwf Hpre) as [Hn Ha].
  specialize (Hn Hthrow). simpl. rewrite Hn in *. done.
Qed.

End run.
