(* ===== verification/LeaseStore.v ===== *)
(** * Dispatch leases ([src/dispatch-lease-store.mjs])

    Owner-bound, renewable leases over agents. The store keeps two maps, lease id to lease and agent
    to lease id, and the set of tickets that were already requeued once. Clock readings, generated
    ids and random suffixes are the environment of a call. *)

From Stdlib Require Import ZArith Lia String.
From stdpp Require Import base gmap sets list strings pretty relations.
From S2P Require Import Prelude OMap.

Module LeaseStore.

(** The dispatch context kept for a requeue; never part of the public lease. *)
Record DispatchContext : Type := { role : jval; tier : jval; task : jval; room : jval }.

Record Lease : Type := MkLease {
  leaseId : string;
  agent : string;
  owner : string;
  taskId : string;
  ticket : option string;
  createdAt : Z;
  heartbeatAt : Z;
  expiresAt : Z;
  context : DispatchContext;
}.

Record PublicLease : Type := MkPublic {
  p_leaseId : string; p_agent : string; p_owner : string; p_taskId : string;
  p_ticket : option string; p_createdAt : Z; p_heartbeatAt : Z; p_expiresAt : Z;
}.

Definition publicView (l : Lease) : PublicLease :=
  MkPublic (leaseId l) (agent l) (owner l) (taskId l) (ticket l)
           (createdAt l) (heartbeatAt l) (expiresAt l).

Record State : Type := MkState {
  ttlMs : Z;
  byId : omap Lease;
  byAgent : omap string;
  requeuedTickets : gset string;
}.

Definition init (ttl : Z) : State := MkState ttl [] [] ∅.

(** What a call reads from outside: the successive clock readings, the id factory's next value and
    a random suffix. *)
Record Env : Type := MkEnv { now : nat → Z; newId : string; rand : string }.

Definition isBusy (a : string) (st : State) : bool := om_has a (byAgent st).

Definition getByAgent (a : string) (st : State) : option PublicLease :=
  match om_get a (byAgent st) with
  | Some id => if truthy id then publicView <$> om_get id (byId st) else None
  | None => None
  end.

Definition size (st : State) : nat := length (byId st).

Definition _invalidate (id : string) (st : State) : State :=
  MkState (ttlMs st) (om_del id (byId st)) (byAgent st) (requeuedTickets st).

Definition _freeAgent (a : string) (st : State) : State :=
  MkState (ttlMs st) (byId st) (om_del a (byAgent st)) (requeuedTickets st).

(** The arguments of a claim: an absent or empty [agent] or [owner] is a missing field. *)
Record CreateArgs : Type := MkCreate {
  c_agent : option string; c_owner : option string; c_taskId : option string;
  c_ticket : option string; c_context : DispatchContext;
}.

Definition create (e : Env) (args : CreateArgs) (st : State) : result (PublicLease * State) :=
  match truthy_opt (c_agent args), truthy_opt (c_owner args) with
  | None, _ => Throw "missing_fields"
  | Some _, None => Throw "missing_fields"
  | Some a, Some o =>
      throw_if om_has a (byAgent st) with "agent_busy" in
      let t := now e 0 in
      let l := MkLease (newId e) a o
        (match truthy_opt (c_taskId args) with
         | Some id => id
         | None => "task-" +:+ pretty t +:+ "-" +:+ rand e
         end)
        (truthy_opt (c_ticket args)) t t (t + ttlMs st) (c_context args) in
      Ok (publicView l,
          MkState (ttlMs st) (om_set (leaseId l) l (byId st))
                  (om_set a (leaseId l) (byAgent st)) (requeuedTickets st))
  end.

(** [_withOwnedLease]: the checks, in the order they are made. *)
Definition _withOwnedLease {A} (e : Env) (id a o : option string) (st : State)
    (fn : Lease → result (A * State)) : result (A * State) :=
  match truthy_opt id, truthy_opt a, truthy_opt o with
  | Some id, Some a, Some o =>
      match om_get id (byId st) with
      | None => Throw "lease_not_found"
      | Some l =>
          throw_if negb (String.eqb (agent l) a) with "lease_not_found" in
          throw_if negb (String.eqb (owner l) o) with "owner_mismatch" in
          throw_if expiresAt l <=? now e 0 with "lease_expired" in
          fn l
      end
  | _, _, _ => Throw "missing_fields"
  end.

Definition renewed (t : Z) (ttl : Z) (l : Lease) : Lease :=
  MkLease (leaseId l) (agent l) (owner l) (taskId l) (ticket l) (createdAt l) t (t + ttl) (context l).

(** The mutation of the lease object held by the map is the replacement of its entry. *)
Definition renew (e : Env) (id a o : option string) (st : State) : result (PublicLease * State) :=
  _withOwnedLease e id a o st (λ l,
    let l' := renewed (now e 1) (ttlMs st) l in
    Ok (publicView l',
        MkState (ttlMs st) (om_set (leaseId l) l' (byId st)) (byAgent st) (requeuedTickets st))).

Definition release (e : Env) (id a o : option string) (st : State) : result (PublicLease * State) :=
  _withOwnedLease e id a o st (λ l,
    Ok (publicView l, _freeAgent (agent l) (_invalidate (leaseId l) st))).

Definition releaseByAgent (a : string) (st : State) : option PublicLease * State :=
  match om_get a (byAgent st) with
  | None => (None, st)
  | Some id =>
      if truthy id
      then (publicView <$> om_get id (byId st), _freeAgent a (_invalidate id st))
      else (None, st)
  end.

Inductive Outcome : Type := requeued | failed.

Record Reaped : Type := MkReaped { r_lease : PublicLease; r_context : DispatchContext; r_outcome : Outcome }.

(** One iteration of the reaping map: invalidate, then free, then decide about the ticket. *)
Definition reapOne (l : Lease) (st : State) : Reaped * State :=
  let st1 := _freeAgent (agent l) (_invalidate (leaseId l) st) in
  match ticket l with
  | Some t =>
      if truthy t && negb (bool_decide (t ∈ requeuedTickets st1))
      then (MkReaped (publicView l) (context l) requeued,
            MkState (ttlMs st1) (byId st1) (byAgent st1) ({[t]} ∪ requeuedTickets st1))
      else (MkReaped (publicView l) (context l) failed, st1)
  | None => (MkReaped (publicView l) (context l) failed, st1)
  end.

Fixpoint reapAll (ls : list Lease) (st : State) : list Reaped * State :=
  match ls with
  | [] => ([], st)
  | l :: ls' =>
      let '(r, st1) := reapOne l st in
      let '(rs, st2) := reapAll ls' st1 in
      (r :: rs, st2)
  end.

Definition expired (t : Z) (l : Lease) : bool := expiresAt l <=? t.

Definition reapExpired (t : Z) (st : State) : list Reaped * State :=
  reapAll (List.filter (expired t) (om_vals (byId st))) st.

(** ** The store as a transition system *)

Inductive Op : Type :=
| OpCreate (e : Env) (args : CreateArgs)
| OpRenew (e : Env) (id a o : option string)
| OpRelease (e : Env) (id a o : option string)
| OpReleaseByAgent (a : string)
| OpReap (t : Z).

Definition after {A} (st : State) (r : result (A * State)) : State :=
  match r with Ok (_, st') => st' | Throw _ => st end.

(** One call: the entries it reaped, if any, and the state it leaves. *)
Definition exec (op : Op) (st : State) : list Reaped * State :=
  match op with
  | OpCreate e args => ([], after st (create e args st))
  | OpRenew e id a o => ([], after st (renew e id a o st))
  | OpRelease e id a o => ([], after st (release e id a o st))
  | OpReleaseByAgent a => ([], (releaseByAgent a st).2)
  | OpReap t => reapExpired t st
  end.

(** The id factory returns an id no live lease carries; [randomUUID] ids are never empty. *)
Definition fresh (op : Op) (st : State) : Prop :=
  match op with
  | OpCreate e _ => om_get (newId e) (byId st) = None ∧ truthy (newId e) = true
  | _ => True
  end.

(** A run: the operations of a process, the state they reach, and everything they reaped. *)
Inductive reaches (ttl : Z) : list Reaped → State → Prop :=
| reaches_init : reaches ttl [] (init ttl)
| reaches_step rs st op : reaches ttl rs st → fresh op st →
    reaches ttl (rs ++ (exec op st).1) (exec op st).2.

(** *** The invariant: the two maps describe one matching of agents and leases *)

Record wf (st : State) : Prop := MkWf {
  wf_ids : NoDup (om_keys (byId st));
  wf_id : ∀ k l, om_get k (byId st) = Some l → leaseId l = k ∧ truthy k = true;
  wf_fwd : ∀ k l, om_get k (byId st) = Some l → om_get (agent l) (byAgent st) = Some k;
  wf_bwd : ∀ a k, om_get a (byAgent st) = Some k → ∃ l, om_get k (byId st) = Some l ∧ agent l = a;
}.

Lemma init_wf ttl : wf (init ttl).
Proof. split; simpl; [constructor|done..]. Qed.

Lemma drop_lease_wf st l :
  wf st → om_get (leaseId l) (byId st) = Some l →
  wf (_freeAgent (agent l) (_invalidate (leaseId l) st)).
Proof.
  intros [Hnd Hid Hf Hb] Hl. split; simpl.
  - by apply om_nodup_del.
  - intros k l'. rewrite om_get_del. case_match; [done|]. apply Hid.
  - intros k l'. rewrite !om_get_del. destruct (String.eqb_spec (leaseId l) k) as [|Hne]; [done|].
    intros Hk. destruct (String.eqb_spec (agent l) (agent l')) as [E|]; [|by apply Hf].
    apply Hf in Hk, Hl. rewrite E in Hl. congruence.
  - intros a k. rewrite om_get_del. destruct (String.eqb_spec (agent l) a) as [|Hne]; [done|].
    intros Ha. destruct (Hb _ _ Ha) as (l' & Hk & <-). exists l'. split; [|done].
    rewrite om_get_del_ne; [done|]. intros <-. congruence.
Qed.

Lemma withOwnedLease_Ok {A} e id a o st fn (v : A) st' :
  _withOwnedLease e id a o st fn = Ok (v, st') →
  ∃ i l, id = Some i ∧ om_get i (byId st) = Some l ∧ a = Some (agent l) ∧ o = Some (owner l) ∧
    now e 0 < expiresAt l ∧ fn l = Ok (v, st').
Proof.
  unfold _withOwnedLease, truthy_opt. intros H.
  destruct id as [i|], a as [a|], o as [o|]; repeat case_match; simplify_eq; try done.
  repeat match goal with H : negb _ = false |- _ => apply negb_false_iff, String.eqb_eq in H end.
  subst. eexists _, _. split_and!; eauto. lia.
Qed.

Lemma create_Ok e args st v st' :
  create e args st = Ok (v, st') →
  ∃ a o l, c_agent args = Some a ∧ c_owner args = Some o ∧ om_get a (byAgent st) = None ∧
    leaseId l = newId e ∧ agent l = a ∧ owner l = o ∧ expiresAt l = now e 0 + ttlMs st ∧
    v = publicView l ∧
    st' = MkState (ttlMs st) (om_set (newId e) l (byId st)) (om_set a (newId e) (byAgent st))
            (requeuedTickets st).
Proof.
  unfold create, truthy_opt. intros H.
  destruct (c_agent args) as [a|]; [|done]. destruct (truthy a); [|done].
  destruct (c_owner args) as [o|]; [|done]. destruct (truthy o); [|done].
  destruct (om_has a (byAgent st)) eqn:E; [done|]. injection H as <- <-.
  eexists a, o, _. split_and!; try reflexivity; try (by apply om_has_false). all: done.
Qed.

Lemma create_wf e args st : wf st → fresh (OpCreate e args) st → wf (after st (create e args st)).
Proof.
  intros Hwf [Hfr Htr]. destruct (create e args st) as [[v st']|] eqn:E; [|done].
  apply create_Ok in E as (a & o & l & _ & _ & Hfree & Hi & Ha & _ & _ & _ & ->).
  destruct Hwf as [Hnd Hid Hf Hb]. split; simpl.
  - by apply om_nodup_set.
  - intros k l'. rewrite om_get_set. destruct (String.eqb_spec (newId e) k) as [<-|]; [|apply Hid].
    by intros [= <-].
  - intros k l'. rewrite !om_get_set. destruct (String.eqb_spec (newId e) k) as [<-|].
    + intros [= <-]. by rewrite Ha, String.eqb_refl.
    + intros Hk. destruct (String.eqb_spec a (agent l')) as [E|]; [|by apply Hf].
      apply Hf in Hk. congruence.
  - intros a' k. rewrite om_get_set. destruct (String.eqb_spec a a') as [<-|].
    + intros [= <-]. exists l. by rewrite om_get_set_eq.
    + intros Hk. destruct (Hb _ _ Hk) as (l' & Hl' & <-). exists l'. split; [|done].
      rewrite om_get_set_ne; [done|]. intros <-. congruence.
Qed.

Lemma renew_wf e id a o st : wf st → wf (after st (renew e id a o st)).
Proof.
  intros Hwf. destruct (renew e id a o st) as [[v st']|] eqn:E; [|done].
  apply withOwnedLease_Ok in E as (i & l & -> & Hl & -> & -> & _ & [= <- <-]).
  destruct Hwf as [Hnd Hid Hf Hb]. destruct (Hid _ _ Hl) as [Hi Htr]. split; simpl.
  - by apply om_nodup_set.
  - intros k l'. rewrite om_get_set. destruct (String.eqb_spec (leaseId l) k) as [<-|]; [|apply Hid].
    intros [= <-]. simpl. by rewrite Hi.
  - intros k l'. rewrite om_get_set. destruct (String.eqb_spec (leaseId l) k) as [<-|]; [|apply Hf].
    intros [= <-]. simpl. rewrite Hi. by apply Hf.
  - intros a' k Hk. destruct (Hb _ _ Hk) as (l' & Hl' & <-). rewrite om_get_set.
    destruct (String.eqb_spec (leaseId l) k) as [E|]; [|by exists l'].
    eexists; split; [done|]. simpl. congruence.
Qed.

Lemma releaseByAgent_wf a st : wf st → wf (releaseByAgent a st).2.
Proof.
  intros Hwf. unfold releaseByAgent. destruct (om_get a (byAgent st)) as [id|] eqn:E; [|done].
  destruct (truthy id); [|done]. simpl.
  destruct (wf_bwd _ Hwf _ _ E) as (l & Hl & <-). destruct (wf_id _ Hwf _ _ Hl) as [<- _].
  by apply drop_lease_wf.
Qed.

Lemma reapOne_state l st :
  (∃ q, (reapOne l st).2 =
    MkState (ttlMs st) (om_del (leaseId l) (byId st)) (om_del (agent l) (byAgent st)) q).
Proof. unfold reapOne. repeat case_match; simpl; eauto. Qed.

Lemma reapOne_wf l st : wf st → om_get (leaseId l) (byId st) = Some l → wf (reapOne l st).2.
Proof.
  intros Hwf Hl. destruct (reapOne_state l st) as [q ->].
  destruct (drop_lease_wf _ _ Hwf Hl) as [? ? ? ?]. by split.
Qed.

(** The leases still to reap are in the store, with distinct ids. *)
Definition pending_reap (ls : list Lease) (st : State) : Prop :=
  NoDup (leaseId <$> ls) ∧ ∀ l, l ∈ ls → om_get (leaseId l) (byId st) = Some l.

Lemma pending_reap_step l ls st : pending_reap (l :: ls) st → pending_reap ls (reapOne l st).2.
Proof.
  intros [[Hni Hnd]%NoDup_cons Hin]. split; [done|]. intros l' Hl'.
  destruct (reapOne_state l st) as [q ->]. simpl. rewrite om_get_del_ne.
  - apply Hin. by right.
  - intros E. apply Hni. rewrite E. by apply list_elem_of_fmap_2.
Qed.

Lemma reapAll_cons l ls st :
  reapAll (l :: ls) st =
    ((reapOne l st).1 :: (reapAll ls (reapOne l st).2).1, (reapAll ls (reapOne l st).2).2).
Proof. simpl. destruct (reapOne l st) as [r st1]. simpl. by destruct (reapAll ls st1). Qed.

Lemma reapAll_wf ls st : wf st → pending_reap ls st → wf (reapAll ls st).2.
Proof.
  revert st. induction ls as [|l ls IH]; intros st Hwf Hp; [done|]. rewrite reapAll_cons. simpl.
  apply IH; [|by apply pending_reap_step]. apply reapOne_wf; [done|]. apply Hp. by left.
Qed.

Lemma wf_vals st l : wf st → l ∈ om_vals (byId st) → om_get (leaseId l) (byId st) = Some l.
Proof.
  intros Hwf [k Hk]%om_vals_get. apply elem_of_om_get in Hk; [|apply Hwf].
  by destruct (wf_id _ Hwf _ _ Hk) as [-> _].
Qed.

Lemma wf_vals_ids st : wf st → leaseId <$> om_vals (byId st) = om_keys (byId st).
Proof.
  intros Hwf. unfold om_vals, om_keys. rewrite <-list_fmap_compose.
  apply list_fmap_ext. intros i [k l] H. simpl.
  apply (wf_id _ Hwf). apply elem_of_om_get; [apply Hwf|]. by eapply list_elem_of_lookup_2.
Qed.

Lemma NoDup_fmap_filter {A B} (f : A → B) (p : A → bool) (l : list A) :
  NoDup (f <$> l) → NoDup (f <$> List.filter p l).
Proof.
  induction l as [|x l IH]; csimpl; [done|]. intros [Hni Hnd]%NoDup_cons.
  destruct (p x); csimpl; [|auto]. apply NoDup_cons. split; [|auto].
  intros (y & E & [_ Hy]%elem_of_filter_bool)%list_elem_of_fmap. apply Hni.
  rewrite E. by apply list_elem_of_fmap_2.
Qed.

Lemma pending_expired t st : wf st → pending_reap (List.filter (expired t) (om_vals (byId st))) st.
Proof.
  intros Hwf. split.
  - apply NoDup_fmap_filter. rewrite wf_vals_ids by done. apply Hwf.
  - intros l [_ Hl]%elem_of_filter_bool. by apply wf_vals.
Qed.

Lemma lease_exec_wf op st : wf st → fresh op st → wf (exec op st).2.
Proof.
  intros Hwf Hfr. destruct op as [e args|e id a o|e id a o|a|t]; simpl.
  - by apply create_wf.
  - by apply renew_wf.
  - destruct (release e id a o st) as [[v st']|] eqn:E; [|done].
    apply withOwnedLease_Ok in E as (i & l & -> & Hl & -> & -> & _ & [= <- <-]).
    apply drop_lease_wf; [done|]. by destruct (wf_id _ Hwf _ _ Hl) as [-> _].
  - by apply releaseByAgent_wf.
  - apply reapAll_wf; [done|]. by apply pending_expired.
Qed.

Lemma reaches_wf ttl rs st : reaches ttl rs st → wf st.
Proof. induction 1; [apply init_wf|by apply lease_exec_wf]. Qed.

(** *** What a sweep does *)

Lemma reapAll_byId ls st k :
  om_get k (byId (reapAll ls st).2) = if bool_decide (k ∈ leaseId <$> ls) then None else om_get k (byId st).
Proof.
  revert st. induction ls as [|l ls IH]; intros st; [done|].
  rewrite reapAll_cons. cbn [snd]. rewrite IH. destruct (reapOne_state l st) as [q ->]. cbn [byId].
  rewrite om_get_del. csimpl.
  destruct (String.eqb_spec (leaseId l) k) as [<-|Hne].
  - rewrite (bool_decide_eq_true_2 (leaseId l ∈ leaseId l :: _)) by (by left). by case_bool_decide.
  - rewrite (bool_decide_ext (k ∈ leaseId l :: _) (k ∈ leaseId <$> ls)); [done|].
    rewrite elem_of_cons. naive_solver.
Qed.

Lemma reapAll_leases ls st : r_lease <$> (reapAll ls st).1 = publicView <$> ls.
Proof.
  revert st. induction ls as [|l ls IH]; intros st; [done|]. rewrite reapAll_cons. csimpl.
  rewrite IH. f_equal. unfold reapOne. by repeat case_match.
Qed.

Lemma reapExpired_byId t st k :
  wf st → om_get k (byId (reapExpired t st).2) =
    match om_get k (byId st) with Some l => if expired t l then None else Some l | None => None end.
Proof.
  intros Hwf. unfold reapExpired. rewrite reapAll_byId. case_bool_decide as Hin.
  - apply list_elem_of_fmap in Hin as (l & -> & [Hx Hl]%elem_of_filter_bool).
    apply wf_vals in Hl as ->; [|done]. by rewrite Hx.
  - destruct (om_get k (byId st)) as [l|] eqn:Hl; [|done].
    destruct (expired t l) eqn:Hx; [|done]. exfalso. apply Hin.
    destruct (wf_id _ Hwf _ _ Hl) as [<- _]. apply list_elem_of_fmap_2, elem_of_filter_bool.
    split; [done|]. by eapply om_get_vals.
Qed.

Lemma reapExpired_wf t st : wf st → wf (reapExpired t st).2.
Proof. intros. apply reapAll_wf; [done|]. by apply pending_expired. Qed.

Lemma wf_busy st a : wf st → isBusy a st = true ↔ ∃ l, om_get (leaseId l) (byId st) = Some l ∧ agent l = a.
Proof.
  intros Hwf. unfold isBusy. rewrite om_has_spec. split.
  - intros [k Hk]. destruct (wf_bwd _ Hwf _ _ Hk) as (l & Hl & <-). exists l.
    by destruct (wf_id _ Hwf _ _ Hl) as [-> _].
  - intros (l & Hl & <-). apply (wf_fwd _ Hwf) in Hl. eauto.
Qed.

(** *** Tickets: how many times one was requeued *)

Definition requeued_for (tk : string) (r : Reaped) : bool :=
  match r_outcome r, p_ticket (r_lease r) with
  | requeued, Some t => String.eqb t tk
  | _, _ => false
  end.

Definition requeue_count (tk : string) (rs : list Reaped) : nat :=
  length (List.filter (requeued_for tk) rs).

Definition requeue_mark (tk : string) (st : State) : nat :=
  if bool_decide (tk ∈ requeuedTickets st) then 1%nat else 0%nat.

Lemma requeue_count_app tk rs1 rs2 :
  requeue_count tk (rs1 ++ rs2) = (requeue_count tk rs1 + requeue_count tk rs2)%nat.
Proof. unfold requeue_count. by rewrite List.filter_app, length_app. Qed.

Lemma reapOne_requeue tk l st :
  (requeue_mark tk st + requeue_count tk [(reapOne l st).1])%nat = requeue_mark tk (reapOne l st).2.
Proof.
  unfold reapOne, requeue_count, requeue_mark, requeued_for. destruct (ticket l) as [t|] eqn:E; simpl.
  - destruct (truthy t); simpl; [|lia].
    destruct (bool_decide_reflect (t ∈ requeuedTickets st)); simpl; [lia|]. rewrite E.
    destruct (String.eqb_spec t tk) as [->|Hne]; simpl.
    + rewrite bool_decide_eq_false_2, bool_decide_eq_true_2 by set_solver. done.
    + rewrite (bool_decide_ext (tk ∈ {[t]} ∪ _) (tk ∈ requeuedTickets st)) by set_solver. lia.
  - lia.
Qed.

Lemma reapAll_requeue tk ls st :
  (requeue_mark tk st + requeue_count tk (reapAll ls st).1)%nat = requeue_mark tk (reapAll ls st).2.
Proof.
  revert st. induction ls as [|l ls IH]; intros st; [apply Nat.add_0_r|]. rewrite reapAll_cons. cbn [fst snd].
  pose proof (reapOne_requeue tk l st) as H1. specialize (IH (reapOne l st).2).
  pose proof (requeue_count_app tk [(reapOne l st).1] (reapAll ls (reapOne l st).2).1) as H2.
  simpl in H2. lia.
Qed.

Lemma after_tickets {A} st (r : result (A * State)) :
  (∀ v st', r = Ok (v, st') → requeuedTickets st' = requeuedTickets st) →
  requeuedTickets (after st r) = requeuedTickets st.
Proof. destruct r as [[v st']|]; simpl; eauto. Qed.

Lemma exec_requeue tk op st :
  (requeue_mark tk st + requeue_count tk (exec op st).1)%nat = requeue_mark tk (exec op st).2.
Proof.
  assert (Hsame : ∀ st', requeuedTickets st' = requeuedTickets st →
    (requeue_mark tk st + requeue_count tk [])%nat = requeue_mark tk st').
  { intros st' E. unfold requeue_mark, requeue_count. rewrite E. simpl. lia. }
  destruct op as [e args|e id a o|e id a o|a|t]; simpl; [apply Hsame..|apply reapAll_requeue].
  - apply after_tickets. intros v st' (a & o & l & ? & ? & ? & ? & ? & ? & ? & ? & ->)%create_Ok. done.
  - apply after_tickets. intros v st' H. by apply withOwnedLease_Ok in H as (i & l & ? & ? & ? & ? & ? & [= <- <-]).
  - apply after_tickets. intros v st' H. by apply withOwnedLease_Ok in H as (i & l & ? & ? & ? & ? & ? & [= <- <-]).
  - unfold releaseByAgent. by repeat case_match.
Qed.

(** ** Properties *)

(** C9. No double booking: in every reachable store an agent is reported busy exactly when a live
    lease names it, and no two live leases name the same agent. *)
Theorem no_double_booking ttl rs st :
  reaches ttl rs st →
  (∀ a, isBusy a st = true ↔ ∃ l, l ∈ om_vals (byId st) ∧ agent l = a) ∧
  (∀ l1 l2, l1 ∈ om_vals (byId st) → l2 ∈ om_vals (byId st) → agent l1 = agent l2 → l1 = l2).
Proof.
  intros Hwf%reaches_wf. split.
  - intros a. rewrite wf_busy by done. split; intros (l & Hl & Ha); exists l; split; auto.
    + by eapply om_get_vals.
    + by apply wf_vals.
  - intros l1 l2 H1%wf_vals H2%wf_vals E; [|done..].
    pose proof (wf_fwd _ Hwf _ _ H1) as G1. pose proof (wf_fwd _ Hwf _ _ H2) as G2.
    rewrite E in G1. congruence.
Qed.

Definition ctx0 : DispatchContext := {| role := JNull; tier := JNull; task := JNull; room := JNull |}.
Definition env_at (t : Z) (id : string) : Env := MkEnv (λ _, t) id "x".
Definition claim0 (t : Z) (id : string) : Op :=
  OpCreate (env_at t id) (MkCreate (Some "ada") (Some "bob") (Some "K") (Some "T1") ctx0).

Lemma no_double_booking_witness :
  let st := (exec (claim0 10 "L1") (init 5)).2 in
  reaches 5 [] st ∧ isBusy "ada" st = true ∧ isBusy "eve" st = false ∧
  ∀ l1 l2, l1 ∈ om_vals (byId st) → l2 ∈ om_vals (byId st) → agent l1 = agent l2 → l1 = l2.
Proof.
  intros st. assert (H : reaches 5 [] st) by (by apply (reaches_step 5 [] (init 5) (claim0 10 "L1")); [constructor|]).
  split; [done|]. split; [done|]. split; [done|]. apply (no_double_booking 5 [] st H).
Defined.

(** A sweep removes exactly the leases whose deadline has passed and keeps every other one
    untouched, an agent stays busy exactly when one of its leases survives, and the sweep reports
    the removed leases in the order of the store. *)
Theorem reap_exact t st :
  wf st →
  (∀ k, om_get k (byId (reapExpired t st).2) =
     match om_get k (byId st) with Some l => if expired t l then None else Some l | None => None end) ∧
  (∀ a, isBusy a (reapExpired t st).2 = true ↔
     ∃ l, l ∈ om_vals (byId st) ∧ agent l = a ∧ t < expiresAt l) ∧
  r_lease <$> (reapExpired t st).1 = publicView <$> List.filter (expired t) (om_vals (byId st)).
Proof.
  intros Hwf. split_and!; [by intros; apply reapExpired_byId| |apply reapAll_leases].
  intros a. rewrite wf_busy by (by apply reapExpired_wf). split.
  - intros (l & Hl & <-). rewrite reapExpired_byId in Hl by done. exists l.
    destruct (om_get (leaseId l) (byId st)) as [l'|] eqn:E; [|done].
    destruct (expired t l') eqn:X; [done|]. injection Hl as ->.
    split_and!; [by eapply om_get_vals|done|]. unfold expired in X. lia.
  - intros (l & Hl & <- & Hx). exists l. split; [|done]. rewrite reapExpired_byId by done.
    rewrite (wf_vals _ _ Hwf Hl). unfold expired. by rewrite (proj2 (Z.leb_gt _ _) Hx).
Qed.

Lemma reap_exact_witness :
  let st := (exec (claim0 10 "L1") (init 5)).2 in
  wf st ∧ isBusy "ada" (reapExpired 14 st).2 = true ∧ isBusy "ada" (reapExpired 15 st).2 = false ∧
  r_lease <$> (reapExpired 15 st).1 = publicView <$> List.filter (expired 15) (om_vals (byId st)).
Proof.
  intros st. assert (H : wf st) by (by apply lease_exec_wf; [apply init_wf|]).
  split; [done|]. split; [done|]. split; [done|]. apply (reap_exact 15 st H).
Defined.

(** A ticket is requeued at most once in the life of the process, whatever is claimed, renewed,
    released and reaped in between. *)
Theorem requeue_at_most_once ttl rs st tk :
  reaches ttl rs st → (requeue_count tk rs ≤ 1)%nat.
Proof.
  intros H. assert (E : requeue_count tk rs = requeue_mark tk st).
  { induction H as [|rs st op H IH Hfr]; [done|]. by rewrite requeue_count_app, IH, exec_requeue. }
  rewrite E. unfold requeue_mark. case_bool_decide; lia.
Qed.

Lemma requeue_at_most_once_witness :
  let st1 := (exec (claim0 10 "L1") (init 5)).2 in
  let s2 := exec (OpReap 20) st1 in
  let st3 := (exec (claim0 30 "L2") s2.2).2 in
  let s4 := exec (OpReap 40) st3 in
  r_outcome <$> s2.1 = [requeued] ∧ r_outcome <$> s4.1 = [failed] ∧
  (requeue_count "T1" ((s2.1 ++ []) ++ s4.1) ≤ 1)%nat.
Proof.
  intros st1 s2 st3 s4. split; [done|]. split; [done|].
  apply (requeue_at_most_once 5 _ s4.2).
  apply (reaches_step 5 (s2.1 ++ []) st3 (OpReap 40)); [|done].
  apply (reaches_step 5 s2.1 s2.2 (claim0 30 "L2")); [|by vm_compute].
  apply (reaches_step 5 [] st1 (OpReap 20)); [|done].
  apply (reaches_step 5 [] (init 5) (claim0 10 "L1")); [constructor|by vm_compute].
Defined.

(** A renewal is honoured: after it, no sweep before the new deadline takes the lease away from
    the agent, and a sweep at the deadline frees the agent for a new claim. *)
Theorem renew_keeps_until_deadline e id a o st v st' :
  wf st → renew e id a o st = Ok (v, st') →
  (∀ t, t < now e 1 + ttlMs st → getByAgent (p_agent v) (reapExpired t st').2 = Some v) ∧
  (∀ t e' args, now e 1 + ttlMs st ≤ t → c_agent args = Some (p_agent v) →
     truthy (p_agent v) = true → is_Some (truthy_opt (c_owner args)) →
     is_ok (create e' args (reapExpired t st').2) = true).
Proof.
  intros Hwf Hr. assert (Hwf' : wf st') by (pose proof (renew_wf e id a o st Hwf) as W; by rewrite Hr in W).
  apply withOwnedLease_Ok in Hr as (i & l & -> & Hl & -> & -> & _ & [= <- <-]). simpl in *.
  destruct (wf_id _ Hwf _ _ Hl) as [<- Htr].
  set (l' := renewed (now e 1) (ttlMs st) l) in *.
  set (st' := MkState _ _ _ _) in *.
  assert (Hl' : om_get (leaseId l) (byId st') = Some l') by apply om_get_set_eq.
  split.
  - intros t Ht. assert (Hkeep : om_get (leaseId l) (byId (reapExpired t st').2) = Some l').
    { rewrite reapExpired_byId, Hl' by done. unfold expired. simpl. by rewrite (proj2 (Z.leb_gt _ _) Ht). }
    unfold getByAgent. pose proof (wf_fwd _ (reapExpired_wf t _ Hwf') _ _ Hkeep) as G.
    change (agent l') with (agent l) in G. by rewrite G, Htr, Hkeep.
  - intros t e' args Ht Ha Htra [ow How]. unfold create. rewrite Ha. simpl. rewrite Htra, How.
    destruct (om_has (agent l) (byAgent (reapExpired t st').2)) eqn:B; [|done]. exfalso.
    apply (wf_busy _ _ (reapExpired_wf t _ Hwf')) in B as (l2 & H2 & E2).
    rewrite reapExpired_byId in H2 by done.
    destruct (om_get (leaseId l2) (byId st')) as [l3|] eqn:H3; [|done].
    destruct (expired t l3) eqn:X; [done|]. injection H2 as ->.
    pose proof (wf_fwd _ Hwf' _ _ H3) as G. rewrite E2 in G.
    pose proof (wf_fwd _ Hwf' _ _ Hl') as G'. change (agent l') with (agent l) in G'.
    rewrite G in G'. injection G' as G'. rewrite G', Hl' in H3. injection H3 as <-.
    unfold expired in X. simpl in X. lia.
Qed.

Lemma renew_keeps_until_deadline_witness :
  let st := (exec (claim0 10 "L1") (init 5)).2 in
  let v := MkPublic "L1" "ada" "bob" "K" (Some "T1") 10 12 17 in
  let st' := after st (renew (env_at 12 "-") (Some "L1") (Some "ada") (Some "bob") st) in
  getByAgent "ada" (reapExpired 16 st').2 = Some v ∧
  is_ok (create (env_at 17 "L2") (MkCreate (Some "ada") (Some "eve") None None ctx0) (reapExpired 17 st').2) = true.
Proof.
  intros st v st'. assert (Hwf : wf st) by (by apply lease_exec_wf; [apply init_wf|]).
  destruct (renew_keeps_until_deadline (env_at 12 "-") (Some "L1") (Some "ada") (Some "bob") st v st')
    as [H1 H2]; [exact Hwf|by vm_compute|]. split.
  - apply (H1 16). by vm_compute.
  - apply (H2 17); [by vm_compute|done|done|by exists "eve"].
Defined.

End LeaseStore.
