(* ===== verification/TaskStore.v ===== *)
(** * The task store ([lib/task-store.js])

    An in-memory [Map] of tasks with JSON persistence. Every mutator runs inside [commitMutation]:
    it works on the live record, saves the whole store, and restores a snapshot when anything threw.
    The clock (successive ISO time strings), the id generator and the outcome of [save] are the
    environment of a call. Error messages are reduced to the error's [code]. *)

From Stdlib Require Import ZArith Lia String.
From stdpp Require Import base list strings relations.
From S2P Require Import Prelude OMap Store.

Module TaskStore.

Definition STATUSES : list string := ["created"; "accepted"; "in_progress"; "blocked"; "done"].
Definition PRIORITIES : list string := ["p0"; "p1"; "p2"; "p3"].
Definition GRANULARITIES : list string := ["epic"; "task"; "subtask"].

Definition TRANSITIONS : omap (list string) :=
  [("created", ["accepted"]); ("accepted", ["in_progress"]);
   ("in_progress", ["blocked"; "done"]); ("blocked", ["in_progress"])].

Record Comment : Type := MkComment { author : string; text : string; ts : string }.

Record Task : Type := MkTask {
  id : string;
  title : string;
  description : string;
  status : string;
  priority : string;
  granularity : string;
  assignee : option string;
  created_by : option string;
  created_at : string;
  updated_at : string;
  started_at : option string;
  completed_at : option string;
  heartbeat_at : option string;
  waiting_reason : option string;
  waiting_until : option string;
  parent_id : option string;
  labels : list string;
  health : jval;
  comments : option (list Comment);
}.

#[export] Instance Task_settable : Settable Task := λ t,
  MkTask (id t) (title t) (description t) (status t) (priority t) (granularity t) (assignee t)
    (created_by t) (created_at t) (updated_at t) (started_at t) (completed_at t) (heartbeat_at t)
    (waiting_reason t) (waiting_until t) (parent_id t) (labels t) (health t) (comments t).

Definition normalizeText (v : jval) (maxLen : nat) : option string := text_of v maxLen.

(** The loop of [normalizeLabels], with the labels kept so far (oldest first) as accumulator. *)
Fixpoint normalizeLabels_loop (items : list jval) (out : list string) : list string :=
  match items with
  | [] => out
  | item :: rest =>
      if (20 <=? length out)%nat then out else
      match normalizeText item 64 with
      | None => normalizeLabels_loop rest out
      | Some label =>
          if inb label out then normalizeLabels_loop rest out
          else normalizeLabels_loop rest (out ++ [label])
      end
  end.

Definition normalizeLabels (v : jval) : list string :=
  match v with JArr items => normalizeLabels_loop items [] | _ => [] end.

Abbreviation State := (omap Task).

(** Loading: later records replace earlier ones of the same id; a record without id is skipped. *)
Definition load (initialData : list Task) : State :=
  foldl (λ m t, if truthy (id t) then om_set (id t) t m else m) [] initialData.

Definition dump (st : State) : list Task := om_vals st.

Record Env : Type := MkEnv {
  clk : nat → string;
  gen : nat → string;
  save : list Task → save_outcome;
}.

Definition persist (e : Env) (st : State) : result unit :=
  match save e (dump st) with
  | SaveDone => Ok tt
  | SaveFalse | SaveThrew => Throw "persistence_failed"
  end.

(** A mutator's outcome: the store it made, its value, and whether it has to be persisted. *)
Record Outcome (A : Type) : Type := MkOutcome { o_state : State; o_value : A; o_persist : bool }.
Arguments MkOutcome {A} o_state o_value o_persist.
Arguments o_state {A} o.
Arguments o_value {A} o.
Arguments o_persist {A} o.

Definition Out (A : Type) : Type := step_out State (list Task) A.

Definition commitMutation {A} (e : Env) (snapshot : State) (mutator : result (Outcome A)) : Out A :=
  match mutator with
  | Throw c => StepOut (Throw c) snapshot None
  | Ok o =>
      if o_persist o then
        match persist e (o_state o) with
        | Ok _ => StepOut (Ok (o_value o)) (o_state o) (Some (dump (o_state o)))
        | Throw c => StepOut (Throw c) snapshot None
        end
      else StepOut (Ok (o_value o)) (o_state o) None
  end.

Definition raise {A} (c : string) (st : State) : Out A := StepOut (Throw c) st None.

(** [generateId] until a free id shows up, ten retries at most. *)
Fixpoint pickId (e : Env) (st : State) (i retries : nat) : string :=
  if om_has (gen e i) st then
    match retries with O => gen e i | S r => pickId e st (S i) r end
  else gen e i.

Definition or_else (o : option string) (d : string) : string := default d o.

Definition createTask (e : Env) (body : jval) (st : State) : Out Task :=
  match normalizeText (prop body "title") 255 with
  | None => raise "invalid_title" st
  | Some title =>
  let priority := or_else (normalizeText (prop body "priority") 8) "p2" in
  if negb (inb priority PRIORITIES) then raise "invalid_priority" st else
  let granularity := or_else (normalizeText (prop body "granularity") 16) "task" in
  if negb (inb granularity GRANULARITIES) then raise "invalid_granularity" st else
  let assignee := normalizeText (prop body "assignee") 128 in
  let created_by := normalizeText (prop body "created_by") 128 in
  let parent_id := normalizeText (prop body "parent_id") 64 in
  if match parent_id with Some p => negb (om_has p st) | None => false end
  then raise "invalid_parent" st else
  let now := clk e 0 in
  let id := pickId e st 0 10 in
  if om_has id st then raise "id_collision" st else
  let task := MkTask id title (or_else (normalizeText (prop body "description") 4096) "") "created"
      priority granularity assignee created_by now now None None None None None parent_id
      (normalizeLabels (prop body "labels")) JNull (Some []) in
  commitMutation e st (Ok (MkOutcome (om_set id task st) task true))
  end.

Definition getTask (k : string) (st : State) : option Task := om_get k st.

(** [patch.k !== undefined] *)
Definition defined (patch : jval) (k : string) : bool :=
  match prop patch k with JUndef => false | _ => true end.

(** Run [f] on the record when the patch carries the field, as each [if] of a patch handler does;
    the flag is the handler's [changed]. *)
Definition patching (patch : jval) (k : string) (acc : Task * bool)
    (f : jval → Task * bool → result (Task * bool)) : result (Task * bool) :=
  if defined patch k then f (prop patch k) acc else Ok acc.

Definition updateTask_fields (st : State) (now : string) (task : Task) (patch : jval) : result (Task * bool) :=
  let* a := patching patch "title" (task, false) (λ v '(t, ch),
    match normalizeText v 255 with
    | Some s => Ok (t <| title := s |>, true)
    | None => Ok (t, ch)
    end) in
  let* a := patching patch "description" a (λ v '(t, _),
    Ok (t <| description := or_else (normalizeText v 4096) "" |>, true)) in
  let* a := patching patch "priority" a (λ v '(t, _),
    match normalizeText v 8 with
    | Some s => if inb s PRIORITIES then Ok (t <| priority := s |>, true) else Throw "invalid_priority"
    | None => Throw "invalid_priority"
    end) in
  let* a := patching patch "granularity" a (λ v '(t, _),
    match normalizeText v 16 with
    | Some s => if inb s GRANULARITIES then Ok (t <| granularity := s |>, true) else Throw "invalid_granularity"
    | None => Throw "invalid_granularity"
    end) in
  let* a := patching patch "assignee" a (λ v '(t, _), Ok (t <| assignee := normalizeText v 128 |>, true)) in
  let* a := patching patch "labels" a (λ v '(t, _), Ok (t <| labels := normalizeLabels v |>, true)) in
  let* a := patching patch "parent_id" a (λ v '(t, _),
    let pid := normalizeText v 64 in
    throw_if match pid with Some p => negb (om_has p st) | None => false end with "invalid_parent" in
    Ok (t <| parent_id := pid |>, true)) in
  Ok (if a.2 then a.1 <| updated_at := now |> else a.1, a.2).

Definition commitTask (e : Env) (st : State) (r : result (Task * bool)) (k : string) : Out Task :=
  commitMutation e st (let* (t, changed) := r in Ok (MkOutcome (om_set k t st) t changed)).

Definition updateTask (e : Env) (k : string) (patch : jval) (st : State) : Out Task :=
  match om_get k st with
  | None => raise "not_found" st
  | Some task => commitTask e st (updateTask_fields st (clk e 0) task patch) k
  end.

Definition updateTaskExecution_fields (now : string) (task : Task) (patch : jval) : result (Task * bool) :=
  let* a := patching patch "heartbeat_at" (task, false) (λ v '(t, _),
    Ok (t <| heartbeat_at := Some now |>, true)) in
  let* a := patching patch "waiting_reason" a (λ v '(t, _),
    Ok (t <| waiting_reason := normalizeText v 1024 |>, true)) in
  let* a := patching patch "waiting_until" a (λ v '(t, _),
    Ok (t <| waiting_until := normalizeText v 64 |>, true)) in
  Ok (if a.2 then a.1 <| updated_at := now |> else a.1, a.2).

Definition updateTaskExecution (e : Env) (k : string) (patch : jval) (st : State) : Out Task :=
  match om_get k st with
  | None => raise "not_found" st
  | Some task => commitTask e st (updateTaskExecution_fields (clk e 0) task patch) k
  end.

Definition allowed (from to : string) : bool :=
  match om_get from TRANSITIONS with Some l => inb to l | None => false end.

(** The record after the transition, the assignments in the order of the source. *)
Definition applyTransition (now newStatus : string) (extra : jval) (task : Task) : Task :=
  let t := task <| status := newStatus |> <| updated_at := now |> in
  let t := if String.eqb newStatus "accepted" || String.eqb newStatus "in_progress"
           then (match truthy_opt (started_at t) with Some _ => t | None => t <| started_at := Some now |> end)
           else t in
  let t := if String.eqb newStatus "done"
           then t <| completed_at := Some now |> <| waiting_reason := None |> <| waiting_until := None |>
           else t in
  let t := if String.eqb newStatus "blocked"
           then t <| waiting_reason := normalizeText (prop extra "waiting_reason") 1024 |>
                  <| waiting_until := normalizeText (prop extra "waiting_until") 64 |>
           else t in
  if String.eqb newStatus "in_progress"
  then t <| waiting_reason := None |> <| waiting_until := None |> else t.

Definition transitionTask (e : Env) (k newStatus : string) (extra : jval) (st : State) : Out Task :=
  match om_get k st with
  | None => raise "not_found" st
  | Some task =>
  if negb (inb newStatus STATUSES) then raise "invalid_status" st else
  if negb (allowed (status task) newStatus) then raise "invalid_transition" st else
  if String.eqb newStatus "blocked" && negb (is_Some_b (normalizeText (prop extra "waiting_reason") 1024))
  then raise "missing_waiting_reason" st else
  if String.eqb newStatus "blocked" && negb (is_Some_b (normalizeText (prop extra "waiting_until") 64))
  then raise "missing_waiting_until" st else
  let t := applyTransition (clk e 0) newStatus extra task in
  commitMutation e st (Ok (MkOutcome (om_set k t st) t true))
  end.

Definition addComment (e : Env) (k : string) (comment : jval) (st : State) : Out Task :=
  match om_get k st with
  | None => raise "not_found" st
  | Some task =>
  let author := normalizeText (prop comment "author") 128 in
  match normalizeText (prop comment "text") 4096 with
  | None => raise "invalid_comment" st
  | Some text =>
  commitMutation e st (
    let cs := default [] (comments task) in
    throw_if (100 <=? length cs)%nat with "limit_exceeded" in
    let t := task <| comments := Some (cs ++ [MkComment (or_else author "anonymous") text (clk e 0)]) |>
                  <| updated_at := clk e 1 |> in
    Ok (MkOutcome (om_set k t st) t true))
  end end.

Definition deleteTask (e : Env) (k : string) (st : State) : Out (option Task) :=
  match om_get k st with
  | None => StepOut (Ok None) st None
  | Some task => commitMutation e st (Ok (MkOutcome (om_del k st) (Some task) true))
  end.

(** ** The store as a transition system *)

Inductive Op : Type :=
| Create (body : jval)
| Update (k : string) (patch : jval)
| UpdateExecution (k : string) (patch : jval)
| Transition (k newStatus : string) (extra : jval)
| AddComment (k : string) (comment : jval)
| Delete (k : string).

Definition out_map {A B} (f : A → B) (o : Out A) : Out B :=
  StepOut (match so_res o with Ok a => Ok (f a) | Throw c => Throw c end) (so_mem o) (so_disk o).

Definition exec (op : Env * Op) (st : State) : Out (option Task) :=
  let e := op.1 in
  match op.2 with
  | Create body => out_map Some (createTask e body st)
  | Update k patch => out_map Some (updateTask e k patch st)
  | UpdateExecution k patch => out_map Some (updateTaskExecution e k patch st)
  | Transition k s extra => out_map Some (transitionTask e k s extra st)
  | AddComment k c => out_map Some (addComment e k c st)
  | Delete k => deleteTask e k st
  end.

(** ** Well-formedness *)

Record task_ok (t : Task) : Prop := MkTaskOk {
  ok_status : inb (status t) STATUSES = true;
  ok_priority : inb (priority t) PRIORITIES = true;
  ok_granularity : inb (granularity t) GRANULARITIES = true;
  ok_started : status t ≠ "created" → truthy_opt (started_at t) ≠ None;
  ok_completed : status t = "done" ↔ completed_at t ≠ None;
  ok_labels : NoDup (labels t) ∧ (length (labels t) ≤ 20)%nat;
  ok_comments : (length (default [] (comments t)) ≤ 100)%nat;
}.

Record wf (st : State) : Prop := MkWf {
  wf_keys : NoDup (om_keys st);
  wf_id : ∀ k t, om_get k st = Some t → id t = k ∧ truthy k = true;
  wf_task : ∀ k t, om_get k st = Some t → task_ok t;
}.

(** ISO time strings and generated ids are never empty. *)
Definition pre (op : Env * Op) (st : State) : Prop :=
  (∀ i, truthy (clk op.1 i) = true) ∧ (∀ i, truthy (gen op.1 i) = true).

Lemma normalizeLabels_ok v : NoDup (normalizeLabels v) ∧ (length (normalizeLabels v) ≤ 20)%nat.
Proof.
  unfold normalizeLabels. destruct v; try (split; [constructor|simpl; lia]).
  assert (H : ∀ out, NoDup out → (length out ≤ 20)%nat →
    NoDup (normalizeLabels_loop l out) ∧ (length (normalizeLabels_loop l out) ≤ 20)%nat).
  { induction l as [|item l IH]; intros out Hnd Hlen; [done|]. cbn [normalizeLabels_loop].
    destruct (Nat.leb_spec 20 (length out)); [done|].
    destruct (normalizeText item 64) as [s|]; [|auto].
    destruct (inb s out) eqn:E; [auto|]. apply IH.
    - apply NoDup_app. split; [done|]. split; [|apply NoDup_singleton].
      intros x Hx ->%list_elem_of_singleton. apply inb_spec in Hx. congruence.
    - rewrite length_app. simpl. lia. }
  apply H; [constructor|simpl; lia].
Qed.

Lemma wf_set k t t' st :
  wf st → om_get k st = Some t → id t' = id t → task_ok t' → wf (om_set k t' st).
Proof.
  intros [Hnd Hid Hok] Hk Hi Ht. split; [by apply om_nodup_set|..]; intros k' t''; rewrite om_get_set;
    destruct (String.eqb_spec k k') as [<-|]; eauto; intros [= <-]; [|done].
  rewrite Hi. by apply Hid.
Qed.

Lemma wf_del k st : wf st → wf (om_del k st).
Proof.
  intros [Hnd Hid Hok]. split; [by apply om_nodup_del|..]; intros k' t; rewrite om_get_del;
    case_match; eauto; done.
Qed.

Lemma om_set_same k t (st : State) : om_get k st = Some t → om_set k t st = st.
Proof.
  intros H. unfold om_set. rewrite (proj2 (om_has_spec k st)) by eauto. by apply om_replace_id.
Qed.

(** *** Patches keep what they may not touch *)

(** [t] comes from [t0] by assignments that keep the identity, the life-cycle fields and the
    comments, and keep the record well formed; without a change it is [t0] itself. *)
Record patched (t0 : Task) (a : Task * bool) : Prop := MkPatched {
  pa_id : id a.1 = id t0;
  pa_status : status a.1 = status t0;
  pa_started : started_at a.1 = started_at t0;
  pa_completed : completed_at a.1 = completed_at t0;
  pa_comments : comments a.1 = comments t0;
  pa_ok : task_ok t0 → task_ok a.1;
  pa_same : a.2 = false → a.1 = t0;
}.

Lemma patched_refl t : patched t (t, false).
Proof. split; auto. Qed.

Lemma patching_patched patch k acc f t0 a :
  patching patch k acc f = Ok a → patched t0 acc →
  (∀ v a', f v acc = Ok a' → patched t0 a') → patched t0 a.
Proof. unfold patching. case_match; [|by intros [= <-]]. eauto. Qed.

Lemma patched_set (t0 : Task) (t t' : Task) b :
  patched t0 (t, b) →
  id t' = id t → status t' = status t → started_at t' = started_at t →
  completed_at t' = completed_at t → comments t' = comments t →
  (task_ok t → inb (priority t') PRIORITIES = true ∧ inb (granularity t') GRANULARITIES = true ∧
     NoDup (labels t') ∧ (length (labels t') ≤ 20)%nat) →
  patched t0 (t', true).
Proof.
  intros [? ? ? ? ? Hok ?] E1 E2 E3 E4 E5 H. simpl in *.
  split; simpl; try congruence. intros Ht0. specialize (Hok Ht0). destruct (H Hok) as (? & ? & ?).
  destruct Hok as [? ? ? ? ? ? ?]. split; try done; rewrite ?E2, ?E3, ?E4, ?E5; done.
Qed.

Ltac patch_step H :=
  eapply patching_patched in H; [|eassumption|];
  [|let v := fresh in let a := fresh in let E := fresh in
    intros v a E; simpl in E; repeat case_match; simplify_eq;
    (assumption || (eapply patched_set; [eassumption|reflexivity..|];
     intros []; split_and!; try assumption; try tauto; try apply normalizeLabels_ok; simpl; tauto))].

Lemma updateTask_fields_patched st now task patch a :
  updateTask_fields st now task patch = Ok a → patched task a.
Proof.
  intros H. unfold updateTask_fields in H. pose proof (patched_refl task) as H0. js_inv H.
  destruct v as [t1 b1], v0 as [t2 b2], v1 as [t3 b3], v2 as [t4 b4], v3 as [t5 b5], v4 as [t6 b6],
    v5 as [t7 b7].
  patch_step E. patch_step E0. patch_step E1. patch_step E2. patch_step E3. patch_step E4. patch_step E5.
  simpl in H. injection H as <-. destruct b7; [|done].
  eapply patched_set; [eassumption|reflexivity..|]. intros []. tauto.
Qed.

Lemma updateTaskExecution_fields_patched now task patch a :
  updateTaskExecution_fields now task patch = Ok a → patched task a.
Proof.
  intros H. unfold updateTaskExecution_fields in H. pose proof (patched_refl task) as H0. js_inv H.
  destruct v as [t1 b1], v0 as [t2 b2], v1 as [t3 b3].
  patch_step E. patch_step E0. patch_step E1.
  simpl in H. injection H as <-. destruct b3; [|done].
  eapply patched_set; [eassumption|reflexivity..|]. intros []. tauto.
Qed.

(** *** What one operation can do to the store *)

(** The life cycle the store promises, as a relation on statuses. *)
Inductive lifecycle : string → string → Prop :=
| life_accept : lifecycle "created" "accepted"
| life_start : lifecycle "accepted" "in_progress"
| life_block : lifecycle "in_progress" "blocked"
| life_unblock : lifecycle "blocked" "in_progress"
| life_finish : lifecycle "in_progress" "done".

Lemma allowed_lifecycle s s' : allowed s s' = true → lifecycle s s'.
Proof.
  unfold allowed, TRANSITIONS. simpl. intros H.
  repeat match type of H with
  | context [String.eqb s ?x] => destruct (String.eqb_spec s x); subst; simpl in H
  | context [String.eqb s' ?x] => destruct (String.eqb_spec s' x); subst; simpl in H
  end; try discriminate; constructor.
Qed.

(** The four kinds of effect: none, a record replaced along the life cycle, a new record, a record
    removed. *)
Inductive effect (st : State) : State → Prop :=
| eff_none : effect st st
| eff_set k t t' : om_get k st = Some t → id t' = id t →
    status t' = status t ∨ lifecycle (status t) (status t') →
    (task_ok t → task_ok t') → effect st (om_set k t' st)
| eff_new k t : om_get k st = None → id t = k → truthy k = true → status t = "created" →
    task_ok t → effect st (om_set k t st)
| eff_del k : effect st (om_del k st).

Lemma commit_effect {A} e st (m : result (Outcome A)) :
  (∀ o, m = Ok o → effect st (o_state o)) → effect st (so_mem (commitMutation e st m)).
Proof.
  intros H. unfold commitMutation. destruct m as [o|c]; [|apply eff_none].
  destruct (o_persist o); [|simpl; auto]. destruct (persist e (o_state o)); simpl; [auto|apply eff_none].
Qed.

Lemma pickId_truthy e st i n : (∀ i, truthy (gen e i) = true) → truthy (pickId e st i n) = true.
Proof. intros H. revert i. induction n as [|n IH]; intros i; cbn [pickId]; case_match; auto. Qed.

Lemma createTask_effect e body st :
  pre (e, Create body) st → effect st (so_mem (createTask e body st)).
Proof.
  intros [_ Hgen]. unfold createTask.
  destruct (normalizeText (prop body "title") 255) as [title|]; [|apply eff_none].
  destruct (inb _ PRIORITIES) eqn:Hp; [|apply eff_none].
  destruct (inb _ GRANULARITIES) eqn:Hg; [|apply eff_none]. cbn [negb].
  case_match; [apply eff_none|].
  pose proof (pickId_truthy e st 0 10 Hgen) as Htr. set (pid := pickId e st 0 10) in *. clearbody pid.
  destruct (om_has pid st) eqn:Hid; [apply eff_none|].
  apply commit_effect. intros o [= <-]. simpl.
  apply eff_new; simpl; try done; [by apply om_has_false|].
  split; simpl; try done; try apply normalizeLabels_ok; try lia.
Qed.

Lemma commitTask_effect e st k t r :
  om_get k st = Some t → (∀ a, r = Ok a → patched t a) → effect st (so_mem (commitTask e st r k)).
Proof.
  intros Hk Hp. apply commit_effect. intros o Ho. apply bind_Ok in Ho as ([t' b] & Hr & [= <-]).
  destruct (Hp _ Hr) as [E1 E2 _ _ _ Hok _]. simpl in *. eapply eff_set; eauto.
Qed.

Lemma applyTransition_ok now s extra t :
  truthy now = true → allowed (status t) s = true → task_ok t → task_ok (applyTransition now s extra t).
Proof.
  intros Hnow Hs [Hst Hpr Hgr Hstart Hdone Hlab Hcom]. apply allowed_lifecycle in Hs.
  assert (Hc : completed_at t = None).
  { destruct (completed_at t) eqn:E; [|done]. assert (Hd : status t = "done") by (by apply Hdone).
    rewrite Hd in Hs. inversion Hs. }
  unfold applyTransition. destruct Hs; cbn -[truthy_opt]; try (destruct (truthy_opt (started_at t)) eqn:E; cbn -[truthy_opt]);
    split; cbn -[truthy_opt]; try done; try (by rewrite E); try (by simpl; rewrite Hnow);
    try (rewrite Hc; by split); try (by split).
  all: intros _; try (exfalso; by apply Hstart); by apply Hstart.
Qed.

Lemma applyTransition_frame now s extra t :
  id (applyTransition now s extra t) = id t ∧ status (applyTransition now s extra t) = s.
Proof. unfold applyTransition. repeat case_match; done. Qed.

Lemma task_exec_effect op st : pre op st → effect st (so_mem (exec op st)).
Proof.
  destruct op as [e op]. intros Hpre.
  destruct op as [body|k patch|k patch|k s extra|k c|k]; unfold exec; cbn [fst snd out_map so_mem].
  - by apply createTask_effect.
  - unfold updateTask. destruct (om_get k st) as [t|] eqn:Hk; [|apply eff_none].
    eapply commitTask_effect; [done|]. apply updateTask_fields_patched.
  - unfold updateTaskExecution. destruct (om_get k st) as [t|] eqn:Hk; [|apply eff_none].
    eapply commitTask_effect; [done|]. apply updateTaskExecution_fields_patched.
  - unfold transitionTask. destruct (om_get k st) as [t|] eqn:Hk; [|apply eff_none].
    destruct (inb s STATUSES); [|apply eff_none]. cbn [negb].
    destruct (allowed (status t) s) eqn:Ha; [|apply eff_none]. cbn [negb].
    case_match; [apply eff_none|]. case_match; [apply eff_none|].
    apply commit_effect. intros o [= <-]. simpl.
    destruct (applyTransition_frame (clk e 0) s extra t) as [E1 E2].
    eapply eff_set; [done|done|right; rewrite E2; by apply allowed_lifecycle|].
    apply applyTransition_ok; [apply Hpre|done].
  - unfold addComment. destruct (om_get k st) as [t|] eqn:Hk; [|apply eff_none].
    case_match; [|apply eff_none]. apply commit_effect. intros o Ho.
    destruct (Nat.leb_spec 100 (length (default [] (comments t)))) as [|Hlen]; [done|].
    injection Ho as <-. simpl. eapply eff_set; [done|done|by left|].
    intros []. split; try done. simpl. rewrite length_app. simpl. lia.
  - unfold deleteTask. destruct (om_get k st); [|apply eff_none].
    apply commit_effect. intros o [= <-]. apply eff_del.
Qed.

Lemma task_effect_wf st st' : effect st st' → wf st → wf st'.
Proof.
  intros He Hwf. destruct He as [|k t t' Hk Hi _ Hok|k t Hk Hi Htr _ Hok|k].
  - done.
  - eapply wf_set; eauto. apply Hok. by eapply wf_task.
  - destruct Hwf as [Hnd Hid Ht]. split; [by apply om_nodup_set|..]; intros k' t''; rewrite om_get_set;
      destruct (String.eqb_spec k k') as [<-|]; eauto; by intros [= <-].
  - by apply wf_del.
Qed.

(** *** Atomicity: [TaskStore] is a durable store *)

Lemma commit_atomic {A} e st (m : result (Outcome A)) :
  (∀ o, m = Ok o → o_persist o = false → dump (o_state o) = dump st) →
  atomic dump st (commitMutation e st m).
Proof.
  intros H. unfold commitMutation. destruct m as [o|c]; [|by split].
  destruct (o_persist o) eqn:E; [|split; simpl; auto]. destruct (persist e (o_state o)); split; simpl; done.
Qed.

Lemma out_map_atomic {A B} (f : A → B) st (o : Out A) : atomic dump st o → atomic dump st (out_map f o).
Proof. intros [H1 H2]. split; [|done]. unfold out_map. simpl. intros H. apply H1. by destruct (so_res o). Qed.

Lemma commitTask_atomic e st k t r :
  om_get k st = Some t → (∀ a, r = Ok a → patched t a) → atomic dump st (commitTask e st r k).
Proof.
  intros Hk Hp. apply commit_atomic. intros o Ho Hs. apply bind_Ok in Ho as ([t' b] & Hr & [= <-]).
  simpl in *. subst b. pose proof (pa_same _ _ (Hp _ Hr) eq_refl) as E. simpl in E. subst t'.
  by rewrite om_set_same.
Qed.

Lemma exec_atomic op st : atomic dump st (exec op st).
Proof.
  assert (Hr : ∀ A c, atomic dump st (@raise A c st)) by done.
  destruct op as [e op]. destruct op as [body|k patch|k patch|k s extra|k c|k]; unfold exec; cbn [fst snd];
    try apply out_map_atomic.
  - unfold createTask. repeat (case_match; try apply Hr); apply commit_atomic; intros o [= <-] H'; discriminate H'.
  - unfold updateTask. destruct (om_get k st) as [t|] eqn:Hk; [|apply Hr].
    eapply commitTask_atomic; [done|]. apply updateTask_fields_patched.
  - unfold updateTaskExecution. destruct (om_get k st) as [t|] eqn:Hk; [|apply Hr].
    eapply commitTask_atomic; [done|]. apply updateTaskExecution_fields_patched.
  - unfold transitionTask. repeat (case_match; try apply Hr); apply commit_atomic; intros o [= <-] H'; discriminate H'.
  - unfold addComment. repeat (case_match; try apply Hr); apply commit_atomic;
      intros o Ho H'; try done; injection Ho as <-; discriminate H'.
  - unfold deleteTask. case_match; [|by split]. apply commit_atomic. intros o [= <-] H'. discriminate H'.
Qed.

#[export] Program Instance task_store : Store State (list Task) (Env * Op) (option Task) := {|
  st_image := dump;
  st_wf := wf;
  st_pre := pre;
  st_exec := exec;
|}.
Next Obligation. intros op st Hwf Hpre. eapply task_effect_wf; [by apply task_exec_effect|done]. Qed.
Next Obligation. intros op st _ _. apply exec_atomic. Qed.

(** *** Reloading *)

Lemma load_dump st : wf st → load (dump st) = st.
Proof.
  intros Hwf. unfold load, dump. 
  assert (H : ∀ suf prefix, prefix ++ suf = st →
    foldl (λ m t, if truthy (id t) then om_set (id t) t m else m) prefix (om_vals suf) = st).
  { induction suf as [|[k t] suf IH]; intros prefix E; [by rewrite app_nil_r in E|].
    assert (Hin : om_get k st = Some t).
    { apply elem_of_om_get; [apply Hwf|]. rewrite <-E. apply elem_of_app. right. left. }
    destruct (wf_id _ Hwf _ _ Hin) as [Hi Htr]. unfold om_vals in *. csimpl. rewrite Hi, Htr.
    assert (Hn : om_get k prefix = None).
    { apply om_get_None. intros Hp. pose proof (wf_keys _ Hwf) as Hnd. rewrite <-E in Hnd.
      unfold om_keys in *. rewrite fmap_app in Hnd. apply NoDup_app in Hnd as (_ & Hd & _).
      apply (Hd _ Hp). csimpl. left. }
    rewrite om_keys_set_new by done. apply IH. rewrite <-E, <-app_assoc. done. }
  by apply (H st []).
Qed.

(** ** Properties *)

Lemma lifecycle_allowed s s' : lifecycle s s' → inb s' STATUSES = true ∧ allowed s s' = true.
Proof. by destruct 1. Qed.

Lemma effect_lifecycle st st' k t t' :
  effect st st' → om_get k st = Some t → om_get k st' = Some t' →
  status t' = status t ∨ lifecycle (status t) (status t').
Proof.
  intros He Hk Hk'. destruct He as [|k1 t1 t1' H1 _ Hs _|k1 t1 H1 _ _ _ _|k1].
  - left. congruence.
  - rewrite om_get_set in Hk'. destruct (String.eqb_spec k1 k) as [->|]; [|left; congruence].
    rewrite H1 in Hk. by simplify_eq.
  - rewrite om_get_set in Hk'. destruct (String.eqb_spec k1 k) as [->|]; [congruence|left; congruence].
  - rewrite om_get_del in Hk'. case_match; [done|left; congruence].
Qed.

Lemma effect_new_created st st' k t' :
  effect st st' → om_get k st = None → om_get k st' = Some t' → status t' = "created".
Proof.
  intros He Hk Hk'. destruct He as [|k1 t1 t1' H1 _ Hs _|k1 t1 H1 _ _ Hc _|k1].
  - congruence.
  - rewrite om_get_set in Hk'. destruct (String.eqb_spec k1 k) as [->|]; congruence.
  - rewrite om_get_set in Hk'. destruct (String.eqb_spec k1 k) as [->|]; congruence.
  - rewrite om_get_del in Hk'. case_match; congruence.
Qed.

(** C10. Every operation refines the declared life cycle: a task that is there before and after keeps
    its status or moves along one declared edge, so a finished task stays finished, and a task that
    appears starts as created. *)
Theorem operations_refine_lifecycle op st :
  pre op st →
  (∀ k t t', om_get k st = Some t → om_get k (so_mem (exec op st)) = Some t' →
     status t' = status t ∨ lifecycle (status t) (status t')) ∧
  (∀ k t t', om_get k st = Some t → om_get k (so_mem (exec op st)) = Some t' →
     status t = "done" → status t' = "done") ∧
  (∀ k t', om_get k st = None → om_get k (so_mem (exec op st)) = Some t' → status t' = "created").
Proof.
  intros He%task_exec_effect. split_and!.
  - intros k t t'. by apply effect_lifecycle.
  - intros k t t' Hk Hk' Hd. destruct (effect_lifecycle _ _ _ _ _ He Hk Hk') as [->|Hl]; [done|].
    rewrite Hd in Hl. inversion Hl.
  - intros k t'. by apply effect_new_created.
Qed.

Definition env0 : Env := MkEnv (λ _, "2026-01-01") (λ _, "task_1") (λ _, SaveDone).
Definition body0 : jval := JObj [("title", JStr " write it "); ("priority", JStr "p1")].
Definition store1 : State := so_mem (exec (env0, Create body0) []).

Lemma pre0 op st : pre (env0, op) st.
Proof. by split; intros i. Qed.

Lemma operations_refine_lifecycle_witness :
  pre (env0, Transition "task_1" "accepted" JUndef) store1 ∧
  status <$> om_get "task_1" store1 = Some "created" ∧
  status <$> om_get "task_1" (so_mem (exec (env0, Transition "task_1" "accepted" JUndef) store1)) = Some "accepted" ∧
  ∀ k t t', om_get k store1 = Some t →
    om_get k (so_mem (exec (env0, Transition "task_1" "accepted" JUndef) store1)) = Some t' →
    status t' = status t ∨ lifecycle (status t) (status t').
Proof.
  assert (H : pre (env0, Transition "task_1" "accepted" JUndef) store1) by apply pre0.
  split; [exact H|]. split; [by vm_compute|]. split; [by vm_compute|].
  exact (proj1 (operations_refine_lifecycle _ _ H)).
Defined.

(** C11. Whatever operations run and whichever of their saves fail, the memory stays well formed,
    the file is the image of the memory, and a process restarted from the file has exactly the
    store the running one has. *)
Theorem run_is_durable w w' :
  rtc st_step w w' → wf (w_mem w) → w_disk w = dump (w_mem w) →
  wf (w_mem w') ∧ w_disk w' = dump (w_mem w') ∧ load (w_disk w') = w_mem w'.
Proof.
  intros Hr Hwf Hs. destruct (run_synced w w' Hr Hwf Hs) as [Hwf' Hs'].
  split_and!; [done|done|]. unfold synced in Hs'. rewrite Hs'. by apply load_dump.
Qed.

Definition env_fail : Env := MkEnv (λ _, "2026-01-01") (λ _, "task_1") (λ _, SaveThrew).

Lemma run_is_durable_witness :
  let w0 := World [] [] in
  let w1 := apply_out w0 (exec (env0, Create body0) []) in
  let w2 := apply_out w1 (exec (env_fail, Transition "task_1" "accepted" JUndef) (w_mem w1)) in
  so_res (exec (env_fail, Transition "task_1" "accepted" JUndef) (w_mem w1)) = Throw "persistence_failed" ∧
  load (w_disk w2) = w_mem w2.
Proof.
  intros w0 w1 w2. split; [by vm_compute|].
  apply (run_is_durable w0 w2); [|by split; [constructor|done..]|done].
  apply (rtc_l _ _ w1); [exact (st_step_intro (env0, Create body0) w0 (pre0 _ _))|].
  apply rtc_once. refine (st_step_intro (env_fail, Transition "task_1" "accepted" JUndef) w1 _).
  by split; intros i.
Defined.

(** A transition succeeds exactly when the task exists, the move is an edge of the life cycle,
    a move to blocked names a reason and a deadline, and the store could be saved. Then the record
    carries the new status, keeps a start time it already had, is stamped with its completion when
    done, and holds waiting metadata exactly while blocked. *)
Theorem transition_succeeds_iff e k s extra st t' :
  so_res (transitionTask e k s extra st) = Ok t' ↔
  ∃ t, om_get k st = Some t ∧ lifecycle (status t) s ∧
    (s = "blocked" → normalizeText (prop extra "waiting_reason") 1024 ≠ None ∧
                     normalizeText (prop extra "waiting_until") 64 ≠ None) ∧
    save e (dump (om_set k t' st)) = SaveDone ∧
    t' = (t <| status := s |> <| updated_at := clk e 0 |>
            <| started_at := match truthy_opt (started_at t) with
                             | Some _ => started_at t
                             | None => if inb s ["accepted"; "in_progress"] then Some (clk e 0) else started_at t
                             end |>
            <| completed_at := if String.eqb s "done" then Some (clk e 0) else completed_at t |>
            <| waiting_reason := if String.eqb s "blocked" then normalizeText (prop extra "waiting_reason") 1024
                                 else if inb s ["done"; "in_progress"] then None else waiting_reason t |>
            <| waiting_until := if String.eqb s "blocked" then normalizeText (prop extra "waiting_until") 64
                                else if inb s ["done"; "in_progress"] then None else waiting_until t |>).
Proof.
  assert (Happ : ∀ t, lifecycle (status t) s → applyTransition (clk e 0) s extra t =
    (t <| status := s |> <| updated_at := clk e 0 |>
       <| started_at := match truthy_opt (started_at t) with
                        | Some _ => started_at t
                        | None => if inb s ["accepted"; "in_progress"] then Some (clk e 0) else started_at t
                        end |>
       <| completed_at := if String.eqb s "done" then Some (clk e 0) else completed_at t |>
       <| waiting_reason := if String.eqb s "blocked" then normalizeText (prop extra "waiting_reason") 1024
                            else if inb s ["done"; "in_progress"] then None else waiting_reason t |>
       <| waiting_until := if String.eqb s "blocked" then normalizeText (prop extra "waiting_until") 64
                           else if inb s ["done"; "in_progress"] then None else waiting_until t |>)).
  { intros t Hl. unfold applyTransition.
    destruct Hl; cbn -[truthy_opt normalizeText]; by destruct (truthy_opt (started_at t)). }
  unfold transitionTask. destruct (om_get k st) as [t|]; [|by split; [|intros (? & ? & _)]].
  destruct (allowed (status t) s) eqn:Ha; cycle 1.
  { split; [by destruct (inb s STATUSES)|]. intros (? & [= ->] & Hl & _).
    destruct (lifecycle_allowed _ _ Hl). congruence. }
  apply allowed_lifecycle in Ha. destruct (lifecycle_allowed _ _ Ha) as [-> _]. cbn [negb].
  specialize (Happ t Ha). split.
  - intros H. exists t. split; [done|]. split; [done|].
    destruct (String.eqb_spec s "blocked"); simpl in H.
    + destruct (normalizeText (prop extra "waiting_reason") 1024); simpl in H; [|done].
      destruct (normalizeText (prop extra "waiting_until") 64); simpl in H; [|done].
      unfold persist in H. destruct (save e _) eqn:Hs; simpl in H; try done.
      injection H as <-. rewrite <-Happ. by split_and!.
    + unfold persist in H. destruct (save e _) eqn:Hs; simpl in H; try done.
      injection H as <-. rewrite <-Happ. by split_and!.
  - intros (? & [= <-] & _ & Hb & Hs & E). rewrite <-Happ in E. subst t'.
    destruct (String.eqb_spec s "blocked") as [Heq|]; simpl.
    + destruct (Hb Heq). destruct (normalizeText (prop extra "waiting_reason") 1024); [|done].
      destruct (normalizeText (prop extra "waiting_until") 64); [|done].
      simpl. unfold persist. by rewrite Hs.
    + unfold persist. by rewrite Hs.
Qed.

End TaskStore.
