(* ===== verification/TaskGraph.v ===== *)
(** * Task graphs ([lib/task-graph.js]): data, validation, operations

    A graph is a DAG of nodes, each with an assignee, dependencies and an optional condition. This
    file holds the data, the normalisers that admit a graph, and the operations of the store;
    [TaskGraphFacts] and [TaskGraphLive] hold their theorems. The injected functions ([now],
    [dispatchMessage], [save], the id factory) are the environment of a call. *)

From Stdlib Require Import ZArith QArith Lia String Ascii.
From stdpp Require Import base gmap sets list strings relations.
From S2P Require Import Prelude OMap Json Store.
#[local] Open Scope stdpp_scope.

Module TaskGraph.

Definition GRAPH_STATUSES : list string := ["active"; "complete"; "failed"; "cancelled"].
Definition NODE_STATUSES : list string :=
  ["pending"; "dispatched"; "active"; "complete"; "failed"; "skipped"; "cancelled"].
Definition TERMINAL_NODE_STATUSES : list string := ["complete"; "failed"; "skipped"; "cancelled"].
Definition MAX_RESULT_JSON_BYTES : nat := 256 * 256.
Definition BLOCKED_PATH_SEGMENTS : list string := ["__proto__"; "constructor"; "prototype"].

(** A condition: the members the normaliser may copy. [None] is an absent member. *)
Record Condition : Type := MkCondition {
  dep : option string; path : option string; op : option string;
  eq_ : option jval; neq_ : option jval; in_ : option jval; value_ : option jval;
}.

Record Node : Type := MkNode {
  id : string;
  assignee : string;
  description : string;
  depends_on : list string;
  status : string;
  result_ : jval;
  error : option string;
  condition : option Condition;
  message_id : option string;
  dispatchedAt : option string;
  completedAt : option string;
  startedAt : option string;
}.

#[export] Instance Node_settable : Settable Node := λ n,
  MkNode (id n) (assignee n) (description n) (depends_on n) (status n) (result_ n) (error n)
    (condition n) (message_id n) (dispatchedAt n) (completedAt n) (startedAt n).

Record Graph : Type := MkGraph {
  g_id : string;
  owner : string;
  label : string;
  g_status : string;
  nodes : omap Node;
  createdAt : string;
  updatedAt : string;
  g_completedAt : option string;
}.

#[export] Instance Graph_settable : Settable Graph := λ g,
  MkGraph (g_id g) (owner g) (label g) (g_status g) (nodes g) (createdAt g) (updatedAt g) (g_completedAt g).

Section model.
(** The text of a number in JSON, and [Date.parse] followed by [toISOString]. *)
Context (num_str : num → string) (iso_of : string → option string).

(** ** Normalisers *)

Definition normalizeText (v : jval) (maxLength : nat) : option string := text_of v maxLength.

Fixpoint normalizeStringArray_loop (maxLength : nat) (items : list jval) (out : list string) : list string :=
  match items with
  | [] => out
  | item :: rest =>
      match normalizeText item maxLength with
      | Some s => if inb s out then normalizeStringArray_loop maxLength rest out
                  else normalizeStringArray_loop maxLength rest (out ++ [s])
      | None => normalizeStringArray_loop maxLength rest out
      end
  end.

Definition normalizeStringArray (v : jval) (maxLength : nat) : list string :=
  match v with JArr items => normalizeStringArray_loop maxLength items [] | _ => [] end.

Definition normalizeGraphStatus (v : jval) (fallback : string) : result string :=
  let s := default fallback (normalizeText v 32) in
  if inb s GRAPH_STATUSES then Ok s else Throw "invalid_graph_status".

Definition normalizeNodeStatus (v : jval) (fallback : string) : result string :=
  let s := default fallback (normalizeText v 32) in
  if inb s NODE_STATUSES then Ok s else Throw "invalid_node_status".

(** [JUndef] in, [JUndef] out; a value whose text is too long is refused; otherwise its copy. *)
Definition normalizeResultValue (v : jval) : result jval :=
  match stringify num_str v with
  | None => Ok JUndef
  | Some serialized =>
      throw_if (MAX_RESULT_JSON_BYTES <? String.length serialized)%nat with "result_too_large" in
      Ok (clone v)
  end.

Definition normalizeTimestamp (v : jval) (fallback : option string) : option string :=
  match normalizeText v 128 with
  | None => fallback
  | Some s => match iso_of s with Some t => Some t | None => fallback end
  end.

Definition own (v : jval) (k : string) : option jval := if has_own v k then Some (prop v k) else None.

Definition normalizeCondition (v : jval) : result (option Condition) :=
  match v with
  | JUndef | JNull => Ok None
  | JObj _ =>
      let c := MkCondition (normalizeText (prop v "dep") 255)
        (normalizeText (nullish_or (prop v "path") (prop v "field")) 512)
        (normalizeText (prop v "op") 16)
        (own v "eq") (own v "neq") (own v "in") (own v "value") in
      match c with
      | MkCondition None None None None None None None => Ok None
      | _ => Ok (Some c)
      end
  | _ => Throw "invalid_condition"
  end.

Definition normalizeNode (raw : jval) (nodeId : string) : result Node :=
  match (match normalizeText (prop raw "id") 255 with
         | Some i => Some i
         | None => normalizeText (JStr nodeId) 255
         end) with
  | None => Throw "invalid_node_id"
  | Some id =>
  match normalizeText (prop raw "assignee") 255 with
  | None => Throw "invalid_node_assignee"
  | Some assignee =>
  match normalizeText (prop raw "description") 4000 with
  | None => Throw "invalid_node_description"
  | Some description =>
      let* status := normalizeNodeStatus (prop raw "status") "pending" in
      let* result := (if has_own raw "result" then normalizeResultValue (prop raw "result") else Ok JNull) in
      let error := normalizeText (prop raw "error") 4000 in
      let* condition := normalizeCondition (prop raw "condition") in
      Ok (MkNode id assignee description (normalizeStringArray (prop raw "depends_on") 255) status
            result error condition (normalizeText (prop raw "message_id") 255)
            (normalizeTimestamp (nullish_or (prop raw "dispatchedAt") (prop raw "dispatched_at")) None)
            (normalizeTimestamp (nullish_or (prop raw "completedAt") (prop raw "completed_at")) None)
            (normalizeTimestamp (nullish_or (prop raw "startedAt") (prop raw "started_at")) None))
  end end end.

Fixpoint collectNodes (entries : list (string * jval)) (out : omap Node) : result (omap Node) :=
  match entries with
  | [] => Ok out
  | (nodeId, raw) :: rest =>
      let* n := normalizeNode raw nodeId in
      collectNodes rest (obj_set (id n) n out)
  end.

(** The dependency and condition checks of one node, in order. *)
Fixpoint checkDeps (out : omap Node) (n : Node) (deps : list string) : result unit :=
  match deps with
  | [] => Ok tt
  | d :: rest =>
      throw_if negb (om_has d out) with "invalid_dependency" in
      throw_if String.eqb d (id n) with "invalid_dependency" in
      checkDeps out n rest
  end.

Definition checkNode (out : omap Node) (n : Node) : result unit :=
  let* _ := checkDeps out n (depends_on n) in
  match condition n with
  | Some (MkCondition (Some d) _ _ _ _ _ _) => if om_has d out then Ok tt else Throw "invalid_condition"
  | _ => Ok tt
  end.

Fixpoint checkNodes (out : omap Node) (ns : list Node) : result unit :=
  match ns with
  | [] => Ok tt
  | n :: rest => let* _ := checkNode out n in checkNodes out rest
  end.

(** *** The depth-first search for a dependency cycle

    [visiting] is the chain of nodes being explored, [visited] the nodes done. The fuel bounds the
    depth; [TaskGraphFacts] shows the number of nodes is enough. *)

Definition marks : Type := gset string * gset string.

Fixpoint visit_list (visit : string → marks → result marks) (deps : list string) (m : marks) : result marks :=
  match deps with
  | [] => Ok m
  | d :: rest => let* m' := visit d m in visit_list visit rest m'
  end.

Fixpoint visit (fuel : nat) (out : omap Node) (nodeId : string) (m : marks) : result marks :=
  let '(visiting, visited) := m in
  if bool_decide (nodeId ∈ visited) then Ok m else
  if bool_decide (nodeId ∈ visiting) then Throw "invalid_dependency_cycle" else
  match fuel with
  | O => Throw "out_of_fuel"
  | S fuel' =>
      match om_get nodeId out with
      | None => Throw "TypeError"
      | Some n =>
          let* m' := visit_list (visit fuel' out) (depends_on n) ({[nodeId]} ∪ visiting, visited) in
          Ok (m'.1 ∖ {[nodeId]}, {[nodeId]} ∪ m'.2)
      end
  end.

Definition checkAcyclic (out : omap Node) : result marks :=
  visit_list (visit (S (length out)) out) (om_keys out) (∅, ∅).

Definition normalizeNodes (rawNodes : jval) : result (omap Node) :=
  match rawNodes with
  | JObj entries =>
      let* out := collectNodes entries [] in
      throw_if bool_decide (out = []) with "invalid_nodes" in
      let* _ := checkNodes out (om_vals out) in
      let* _ := checkAcyclic out in
      Ok out
  | _ => Throw "invalid_nodes"
  end.

(** ** Conditions *)

Fixpoint walk_path (current : jval) (parts : list string) : jval :=
  match parts with
  | [] => current
  | p :: rest =>
      match current with
      | JObj _ | JArr _ => walk_path (member current p) rest
      | _ => JUndef
      end
  end.

Definition getNestedValue (v : jval) (fieldPath : string) : jval :=
  match normalizeText (JStr fieldPath) 512 with
  | None => JUndef
  | Some p =>
      let parts := split_on "."%char p in
      if existsb (λ x, inb x BLOCKED_PATH_SEGMENTS) parts then JUndef else walk_path v parts
  end.

Definition member_or_undef (o : option jval) : jval := default JUndef o.

Definition is_undef (v : jval) : bool := match v with JUndef => true | _ => false end.

(** The node a condition looks at: the one it names, else the first dependency. *)
Definition conditionDep (n : Node) (c : Condition) : option string :=
  match (match dep c with Some d => normalizeText (JStr d) 255 | None => None end) with
  | Some d => Some d
  | None => truthy_opt (head (depends_on n))
  end.

(** [evaluateCondition]: [None] is [null], "not known yet". *)
Definition evaluateCondition (g : Graph) (n : Node) : option bool :=
  match condition n with
  | None => Some true
  | Some c =>
      match conditionDep n c with
      | None => Some false
      | Some depId =>
          match om_get depId (nodes g) with
          | None => None
          | Some d =>
              if inb (status d) ["pending"; "dispatched"; "active"] then None else
              if negb (String.eqb (status d) "complete") then Some false else
              let value := match truthy_opt (path c) with
                           | Some p => getNestedValue (result_ d) p
                           | None => result_ d
                           end in
              let eqv := member_or_undef (eq_ c) in
              let neqv := member_or_undef (neq_ c) in
              let inv := member_or_undef (in_ c) in
              let v := member_or_undef (value_ c) in
              Some (
                if negb (is_undef eqv) then strict_eq value eqv
                else if negb (is_undef neqv) then negb (strict_eq value neqv)
                else if negb (is_undef inv) then array_includes inv value
                else match op c with
                | Some "eq" => strict_eq value v
                | Some "neq" => negb (strict_eq value v)
                | Some "in" => array_includes v value
                | _ => to_bool value
                end)
          end
      end
  end.

Definition normalizeGraph (sysNow newId : string) (raw : jval) : result Graph :=
  let id := default newId (normalizeText (prop raw "id") 255) in
  match normalizeText (prop raw "owner") 255 with
  | None => Throw "invalid_graph_owner"
  | Some owner =>
  match normalizeText (prop raw "label") 4000 with
  | None => Throw "invalid_graph_label"
  | Some label =>
      let createdAt := default sysNow
        (normalizeTimestamp (nullish_or (prop raw "createdAt") (prop raw "created_at")) (Some sysNow)) in
      let updatedAt := default createdAt
        (normalizeTimestamp (nullish_or (prop raw "updatedAt") (prop raw "updated_at")) (Some createdAt)) in
      let completedAt :=
        normalizeTimestamp (nullish_or (prop raw "completedAt") (prop raw "completed_at")) None in
      let* status := normalizeGraphStatus (prop raw "status") "active" in
      let* ns := normalizeNodes (prop raw "nodes") in
      Ok (MkGraph id owner label status ns createdAt updatedAt completedAt)
  end end.

(** ** The store *)

Definition cloneCondition (c : Condition) : Condition :=
  let drop o := match o with Some v => json_copy v | None => None end in
  MkCondition (dep c) (path c) (op c) (drop (eq_ c)) (drop (neq_ c)) (drop (in_ c)) (drop (value_ c)).

Definition cloneNode (n : Node) : Node :=
  n <| result_ := clone (result_ n) |> <| condition := cloneCondition <$> condition n |>.

Definition cloneGraph (g : Graph) : Graph := g <| nodes := prod_map (λ k, k) cloneNode <$> nodes g |>.

Abbreviation State := (omap Graph).

Definition cloneGraphs (st : State) : State := prod_map (λ k, k) cloneGraph <$> st.

Record DependencyResult : Type := MkDepResult { dr_nodeId : string; dr_assignee : string; dr_result : jval }.

(** The message a dispatch sends: the fixed fields ([type], [priority], the schema's kind and
    version) are constants of the source and left out. *)
Record DispatchMessage : Type := MkMessage {
  m_from : string; m_to : string; m_summary : string; m_full : string; m_dispatchKey : string;
  m_graphId : string; m_nodeId : string; m_description : string; m_deps : list DependencyResult;
}.

Inductive Event : Type :=
| EvGraphCreated (graphId owner label status createdAt : string)
| EvNodeCompleted (graphId nodeId status : string) (error completedAt : option string)
| EvNodeDispatched (graphId nodeId assignee messageId dispatchedAt : string)
| EvGraphCompleted (graphId status : string) (completedAt : option string).

(** Loading: every stored graph is normalised again, under its own id or its key. *)
Fixpoint loadGraphs (sysNow : string) (newId : nat → string) (i : nat) (entries : list (string * jval))
    (st : State) : result State :=
  match entries with
  | [] => Ok st
  | (graphId, raw) :: rest =>
      let id := if to_bool (prop raw "id") then prop raw "id" else JStr graphId in
      let o := match raw with JObj o => o | _ => [] end in
      let* g := normalizeGraph sysNow (newId i) (JObj (("id", id) :: o)) in
      loadGraphs sysNow newId (S i) rest (obj_set (g_id g) g st)
  end.

(** What a call is given: the injected clock, the system clock, the id factory, the message
    dispatcher (absent when the store was built without one) and the saver. *)
Record Env : Type := MkEnv {
  now : nat → string;
  sysNow : string;
  newId : string;
  dispatchMessage : option (DispatchMessage → result jval);
  save : option (State → save_outcome);
}.

(** The progress of a call: how many times the clock was read, the messages handed to the
    dispatcher so far, and the queued events. Messages already sent stay sent when the call throws. *)
Record Ctx : Type := MkCtx { tick : nat; sent : list DispatchMessage; events : list Event }.
Definition ctx0 : Ctx := MkCtx 0 [] [].

Definition readClock (e : Env) (c : Ctx) : string * Ctx :=
  (now e (tick c), MkCtx (S (tick c)) (sent c) (events c)).
Definition queueEvent (ev : Event) (c : Ctx) : Ctx := MkCtx (tick c) (sent c) (events c ++ [ev]).
Definition logSent (m : DispatchMessage) (c : Ctx) : Ctx := MkCtx (tick c) (sent c ++ [m]) (events c).

Definition persist (e : Env) (st : State) : result unit :=
  match save e with
  | None => Ok tt
  | Some f => match f (cloneGraphs st) with
              | SaveDone => Ok tt
              | SaveFalse | SaveThrew => Throw "graph_persistence_failed"
              end
  end.

(** What a call leaves behind: its result, the graphs in memory, the graphs written, the messages
    sent and the events emitted. *)
Record Out (A : Type) : Type := MkOut {
  o_step : step_out State State A;
  o_sent : list DispatchMessage;
  o_events : list Event;
}.
Arguments MkOut {A} o_step o_sent o_events.
Arguments o_step {A} o.
Arguments o_sent {A} o.
Arguments o_events {A} o.

Definition raise {A} (c : string) (st : State) (sent : list DispatchMessage) : Out A :=
  MkOut (StepOut (Throw c) st None) sent [].
Definition unchanged {A} (a : A) (st : State) : Out A := MkOut (StepOut (Ok a) st None) [] [].

(** [commitGraphs], and the return of a value after it. Without a [save] nothing is written. *)
Definition commitGraphs {A} (e : Env) (st next : State) (a : A) (c : Ctx) : Out A :=
  match persist e next with
  | Throw code => raise code st (sent c)
  | Ok _ => MkOut (StepOut (Ok a) next (match save e with Some _ => Some (cloneGraphs next) | None => None end))
                  (sent c) (events c)
  end.

Definition isTerminalNodeStatus (s : string) : bool := inb s TERMINAL_NODE_STATUSES.

Definition status_of (g : Graph) (k : string) : option string := status <$> om_get k (nodes g).
Definition status_in (g : Graph) (l : list string) (k : string) : bool :=
  match status_of g k with Some s => inb s l | None => false end.

Definition buildDependencyResults (g : Graph) (n : Node) : list DependencyResult :=
  flat_map (λ d, match om_get d (nodes g) with
                 | Some m => if String.eqb (status m) "complete"
                             then [MkDepResult d (assignee m) (clone (result_ m))] else []
                 | None => []
                 end) (depends_on n).

Definition setNode (k : string) (n : Node) (g : Graph) : Graph := g <| nodes := obj_set k n (nodes g) |>.

(** [markNodeTerminal] for the extras the store passes: no result, and an error or nothing. *)
Definition markNodeTerminal (e : Env) (g : Graph) (n : Node) (s : string)
    (extra_error : option string) (c : Ctx) : Node * Ctx :=
  let '(t, c1) := readClock e c in
  let n1 := n <| status := s |> <| completedAt := Some t |> in
  let n2 := match extra_error with
            | Some msg => n1 <| error := normalizeText (JStr msg) 4000 |>
            | None => n1
            end in
  (n2, queueEvent (EvNodeCompleted (g_id g) (id n2) (status n2) (truthy_opt (error n2)) (completedAt n2)) c1).

Definition newline : string := String (Ascii.ascii_of_nat 10) EmptyString.

Definition dispatchText (g : Graph) (n : Node) (deps : list DependencyResult) : string :=
  join newline [
    "## Task Graph Assignment"; "";
    "Graph: " +:+ label g +:+ " (" +:+ g_id g +:+ ")";
    "Node: " +:+ id n;
    "Description: " +:+ description n; "";
    match deps with
    | [] => "No dependencies."
    | _ => "Dependency results:" +:+ newline +:+ join newline (List.map (λ d,
        "- " +:+ dr_nodeId d +:+ " (" +:+ dr_assignee d +:+ "): " +:+
        slice_to 500 (match stringify num_str (dr_result d) with
                      | Some s => if truthy s then s else "null"
                      | None => "null"
                      end)) deps)
    end].

Definition dispatchMessageFor (g : Graph) (n : Node) : DispatchMessage :=
  let deps := buildDependencyResults g n in
  MkMessage (owner g) (assignee n) ("Task assigned: " +:+ description n) (dispatchText g n deps)
    ("task_graph_dispatch:" +:+ g_id g +:+ ":" +:+ id n) (g_id g) (id n) (description n) deps.

Definition dispatchNode (e : Env) (g : Graph) (n : Node) (c : Ctx) : result Node * Ctx :=
  match dispatchMessage e with
  | None => (Throw "dispatch_unavailable", c)
  | Some send =>
      let '(t, c1) := readClock e c in
      let m := dispatchMessageFor g n in
      let c2 := logSent m c1 in
      match send m with
      | Throw _ => (Throw "graph_dispatch_failed", c2)
      | Ok reply =>
          match normalizeText (prop reply "id") 255 with
          | None => (Throw "graph_dispatch_failed", c2)
          | Some messageId =>
              (Ok (n <| status := "dispatched" |> <| dispatchedAt := Some t |>
                     <| message_id := Some messageId |>),
               queueEvent (EvNodeDispatched (g_id g) (id n) (assignee n) messageId t) c2)
          end
      end
  end.

Definition finalizeGraphIfTerminal (e : Env) (g : Graph) (c : Ctx) : bool * Graph * Ctx :=
  let ns := om_vals (nodes g) in
  if bool_decide (ns = []) || negb (forallb (λ n, isTerminalNodeStatus (status n)) ns) then (false, g, c) else
  if negb (String.eqb (g_status g) "active") then (false, g, c) else
  let '(t, c1) := readClock e c in
  let s := if existsb (λ n, String.eqb (status n) "failed") ns then "failed" else "complete" in
  let g1 := g <| g_status := s |> <| g_completedAt := Some t |> <| updatedAt := t |> in
  (true, g1, queueEvent (EvGraphCompleted (g_id g1) (g_status g1) (g_completedAt g1)) c1).

(** ** Operations *)

Definition createGraph (e : Env) (input : jval) (st : State) : Out Graph :=
  match normalizeGraph (sysNow e) (newId e) input with
  | Throw c => raise c st []
  | Ok g =>
      if om_has (g_id g) st then raise "graph_exists" st [] else
      let next := obj_set (g_id g) g (cloneGraphs st) in
      commitGraphs e st next (cloneGraph g)
        (queueEvent (EvGraphCreated (g_id g) (owner g) (label g) (g_status g) (createdAt g)) ctx0)
  end.

Definition getGraph (graphId : jval) (st : State) : option Graph :=
  match normalizeText graphId 255 with Some i => cloneGraph <$> om_get i st | None => None end.

Definition getNode (graphId nodeId : jval) (st : State) : option Node :=
  match normalizeText graphId 255, normalizeText nodeId 255 with
  | Some i, Some k => match om_get i st with Some g => cloneNode <$> om_get k (nodes g) | None => None end
  | _, _ => None
  end.

(** The loop of [deleteGraph] over the nodes, in the object's order. *)
Fixpoint cancelNodes (gid : string) (at_ : option string) (ns : omap Node) (c : Ctx) : omap Node * Ctx :=
  match ns with
  | [] => ([], c)
  | (k, n) :: rest =>
      let '(n1, c1) :=
        if isTerminalNodeStatus (status n) then (n, c) else
        let n1 := n <| status := "cancelled" |> <| completedAt := at_ |> in
        (n1, queueEvent (EvNodeCompleted gid (id n1) (status n1) (truthy_opt (error n1)) (completedAt n1)) c) in
      let '(rest', c2) := cancelNodes gid at_ rest c1 in
      ((k, n1) :: rest', c2)
  end.

Definition deleteGraph (e : Env) (graphId : jval) (st : State) : Out (option Graph) :=
  match normalizeText graphId 255 with
  | None => unchanged None st
  | Some i =>
      match om_get i st with
      | None => unchanged None st
      | Some _ =>
          let next := cloneGraphs st in
          match om_get i next with
          | None => unchanged None st
          | Some g =>
              if String.eqb (g_status g) "cancelled" then unchanged (Some (cloneGraph g)) st else
              let '(t, c1) := readClock e ctx0 in
              let g1 := g <| g_status := "cancelled" |> <| g_completedAt := Some t |> <| updatedAt := t |> in
              let '(ns, c2) := cancelNodes (g_id g1) (g_completedAt g1) (nodes g1) c1 in
              let g2 := g1 <| nodes := ns |> in
              let c3 := queueEvent (EvGraphCompleted (g_id g2) (g_status g2) (g_completedAt g2)) c2 in
              commitGraphs e st (obj_set i g2 next) (Some (cloneGraph g2)) c3
          end
      end
  end.

(** The body of [updateNode]'s [if (hasStatus)] block. *)
Definition updateNode_status (e : Env) (g : Graph) (patch : jval) (hasResult : bool) (normalized : jval)
    (n : Node) (changed : bool) (c : Ctx) : result (Node * bool * Ctx) :=
  let* next := normalizeNodeStatus (prop patch "status") (status n) in
  let '(n, changed) :=
    if String.eqb next (status n) then (n, changed) else (n <| status := next |>, true) in
  let '(n, changed, c) :=
    if String.eqb next "active" && negb (is_Some_b (truthy_opt (startedAt n)))
    then let '(t, c) := readClock e c in (n <| startedAt := Some t |>, true, c) else (n, changed, c) in
  let '(n, changed, c) :=
    if String.eqb next "dispatched" && negb (is_Some_b (truthy_opt (dispatchedAt n)))
    then let '(t, c) := readClock e c in (n <| dispatchedAt := Some t |>, true, c) else (n, changed, c) in
  if isTerminalNodeStatus next then
    let '(n, c) :=
      if is_Some_b (truthy_opt (completedAt n)) then (n, c)
      else let '(t, c) := readClock e c in (n <| completedAt := Some t |>, c) in
    let n := if String.eqb next "complete" && hasResult then n <| result_ := normalized |> else n in
    let n := if String.eqb next "failed"
             then n <| error := Some (default "node failed"
                         (match normalizeText (prop patch "error") 4000 with
                          | Some t => Some t
                          | None => truthy_opt (error n)
                          end)) |>
             else n in
    Ok (n, true, queueEvent (EvNodeCompleted (g_id g) (id n) next (truthy_opt (error n)) (completedAt n)) c)
  else Ok (n, changed, c).

(** The whole of [updateNode] on the cloned node: the new record and whether anything changed. *)
Definition updateNode_apply (e : Env) (g : Graph) (patch : jval) (n : Node) : result (Node * bool * Ctx) :=
  let hasStatus := has_own patch "status" in
  let hasResult := has_own patch "result" in
  let hasError := has_own patch "error" in
  throw_if negb hasStatus && negb hasResult && negb hasError with "invalid_patch" in
  let* normalized := (if hasResult then normalizeResultValue (prop patch "result") else Ok JUndef) in
  let* (n, changed, c) :=
    (if hasStatus then updateNode_status e g patch hasResult normalized n false ctx0 else Ok (n, false, ctx0)) in
  let '(n, changed) :=
    if hasResult && (negb hasStatus || inb (status n) ["complete"; "active"; "dispatched"])
    then (n <| result_ := normalized |>, true) else (n, changed) in
  let '(n, changed) :=
    if hasError then (n <| error := normalizeText (prop patch "error") 4000 |>, true) else (n, changed) in
  Ok (n, changed, c).

Definition updateNode (e : Env) (graphId nodeId patch : jval) (st : State) : Out (Graph * Node * bool) :=
  match (match normalizeText graphId 255 with Some i => if om_has i st then Some i else None | None => None end) with
  | None => raise "graph_not_found" st []
  | Some i =>
      let next := cloneGraphs st in
      match om_get i next with
      | None => raise "graph_not_found" st []
      | Some g =>
          match (match normalizeText nodeId 255 with Some k => (λ n, (k, n)) <$> om_get k (nodes g) | None => None end) with
          | None => raise "node_not_found" st []
          | Some (k, n) =>
              match updateNode_apply e g patch n with
              | Throw code => raise code st []
              | Ok (n', changed, c) =>
                  let g1 := setNode k n' g in
                  if changed then
                    let '(t, c1) := readClock e c in
                    let g2 := g1 <| updatedAt := t |> in
                    commitGraphs e st (obj_set i g2 next) (cloneGraph g2, cloneNode n', true) c1
                  else unchanged (cloneGraph g1, cloneNode n', false) st
              end
          end
      end
  end.

(** *** [advanceGraph]: dispatch what is ready, to a fixed point *)

(** What the scheduler does with one pending node. *)
Inductive Verdict : Type :=
| Fail (failedDeps : list string)
| Wait
| Skip
| Dispatch.

Definition classify (g : Graph) (n : Node) : Verdict :=
  let failedDeps := List.filter (status_in g ["failed"; "cancelled"]) (depends_on n) in
  match failedDeps with
  | _ :: _ => Fail failedDeps
  | [] =>
      if negb (forallb (status_in g ["complete"; "skipped"]) (depends_on n)) then Wait else
      match evaluateCondition g n with
      | None => Wait
      | Some false => Skip
      | Some true => Dispatch
      end
  end.

(** One iteration of the [for] loop: the graph, whether it made progress, and the call's progress. *)
Definition advanceNode (e : Env) (k : string) (g : Graph) (c : Ctx) : result (Graph * bool) * Ctx :=
  match om_get k (nodes g) with
  | None => (Ok (g, false), c)
  | Some n =>
      if negb (String.eqb (status n) "pending") then (Ok (g, false), c) else
      match classify g n with
      | Wait => (Ok (g, false), c)
      | Fail failed =>
          let '(n1, c1) := markNodeTerminal e g n "failed" (Some ("dependency failed: " +:+ join ", " failed)) c in
          (Ok (setNode k n1 g, true), c1)
      | Skip =>
          let '(n1, c1) := markNodeTerminal e g n "skipped" None c in
          (Ok (setNode k n1 g, true), c1)
      | Dispatch =>
          match dispatchNode e g n c with
          | (Throw code, c1) => (Throw code, c1)
          | (Ok n1, c1) => (Ok (setNode k n1 g, true), c1)
          end
      end
  end.

(** One pass of the [for] loop over the nodes present at its start. *)
Fixpoint advancePass (e : Env) (ks : list string) (g : Graph) (progress : bool) (c : Ctx)
    : result (Graph * bool) * Ctx :=
  match ks with
  | [] => (Ok (g, progress), c)
  | k :: rest =>
      match advanceNode e k g c with
      | (Throw code, c1) => (Throw code, c1)
      | (Ok (g1, p), c1) => advancePass e rest g1 (progress || p) c1
      end
  end.

(** The [do ... while (progress)] loop; [changed] is true once any pass made progress. *)
Fixpoint advanceLoop (fuel : nat) (e : Env) (g : Graph) (changed : bool) (c : Ctx)
    : result (Graph * bool) * Ctx :=
  match fuel with
  | O => (Throw "out_of_fuel", c)
  | S fuel' =>
      match advancePass e (om_keys (nodes g)) g false c with
      | (Throw code, c1) => (Throw code, c1)
      | (Ok (g1, true), c1) => advanceLoop fuel' e g1 true c1
      | (Ok (g1, false), c1) => (Ok (g1, changed), c1)
      end
  end.

(** The scheduler on one graph: the loop, then finalisation; [updatedAt] is stamped on a change. *)
Definition advanceOne (e : Env) (g : Graph) : result (Graph * bool) * Ctx :=
  match advanceLoop (S (length (nodes g))) e g false ctx0 with
  | (Throw code, c) => (Throw code, c)
  | (Ok (g1, changed), c) =>
      let '(fin, g2, c2) := finalizeGraphIfTerminal e g1 c in
      if changed || fin then
        let '(t, c3) := readClock e c2 in (Ok (g2 <| updatedAt := t |>, true), c3)
      else (Ok (g2, false), c2)
  end.

Definition advanceGraph (e : Env) (graphId : jval) (st : State) : Out (option Graph) :=
  match (match normalizeText graphId 255 with Some i => if om_has i st then Some i else None | None => None end) with
  | None => unchanged None st
  | Some i =>
      let next := cloneGraphs st in
      match om_get i next with
      | None => unchanged None st
      | Some g =>
          if negb (String.eqb (g_status g) "active") then unchanged (Some (cloneGraph g)) st else
          match advanceOne e g with
          | (Throw code, c) => raise code st (sent c)
          | (Ok (g', true), c) => commitGraphs e st (obj_set i g' next) (Some (cloneGraph g')) c
          | (Ok (g', false), _) => unchanged (Some (cloneGraph g')) st
          end
      end
  end.

End model.

Arguments MkOut {A} o_step o_sent o_events.
Arguments o_step {A} o.
Arguments o_sent {A} o.
Arguments o_events {A} o.

End TaskGraph.
