(* ===== verification/TaskGraphFacts.v ===== *)
(** * Task graphs: admission and the store invariant

    The cycle search is exact and never runs out of depth; every graph the store ever holds is
    well formed: its nodes are filed under their ids, dependencies and condition references exist,
    statuses are declared ones, and the dependency relation is well founded. *)

From Stdlib Require Import ZArith QArith Lia String Ascii.
From stdpp Require Import base gmap sets list strings relations.
From S2P Require Import Prelude OMap Json Store TaskGraph.
#[local] Open Scope stdpp_scope.
Import TaskGraph.

(** [d] is a dependency of [n]. *)
Definition dep_of (out : omap Node) (d n : string) : Prop :=
  ∃ nd, om_get n out = Some nd ∧ d ∈ depends_on nd.

Definition closed (out : omap Node) : Prop := ∀ d n, dep_of out d n → om_has d out = true.

(** ** The depth-first search *)

Section dfs.
Context (out : omap Node) (Hclosed : closed out).
Abbreviation R := (dep_of out).

Definition all_acc (s : gset string) : Prop := ∀ x, x ∈ s → Acc R x.

(** What a successful visit establishes: the chain is as it was, nothing is forgotten, the node is
    done, and every node that is done is accessible. *)
Definition good (m m' : marks) : Prop := m'.1 = m.1 ∧ m.2 ⊆ m'.2 ∧ (all_acc m.2 → all_acc m'.2).

Lemma good_refl m : good m m.
Proof. by split_and!. Qed.

Lemma good_trans m1 m2 m3 : good m1 m2 → good m2 m3 → good m1 m3.
Proof. intros (? & ? & ?) (? & ? & ?). split_and!; [congruence|set_solver|auto]. Qed.

Lemma visit_list_good v deps m m' :
  (∀ d m1 m2, d ∈ deps → v d m1 = Ok m2 → good m1 m2 ∧ d ∈ m2.2) →
  visit_list v deps m = Ok m' → good m m' ∧ ∀ d, d ∈ deps → d ∈ m'.2.
Proof.
  revert m. induction deps as [|d deps IH]; intros m Hv H; simpl in H.
  - injection H as <-. split; [apply good_refl|]. by intros d ?%elem_of_nil.
  - apply bind_Ok in H as (m1 & H1 & H2).
    destruct (Hv d m m1) as [G1 Hd]; [by left|done|].
    apply IH in H2 as [G2 Hin]; [|intros; apply Hv; [by right|done]].
    split; [by eapply good_trans|]. intros x [->|Hx]%elem_of_cons; [|auto].
    destruct G2 as (_ & Hsub & _). set_solver.
Qed.

Lemma visit_good fuel n m m' :
  n ∉ m.1 ∨ n ∈ m.2 → visit fuel out n m = Ok m' → good m m' ∧ n ∈ m'.2.
Proof.
  revert n m m'. induction fuel as [|fuel IH]; intros n [vg vd] m' Hn H; simpl in H.
  - case_bool_decide; [|by case_bool_decide]. injection H as <-. split; [apply good_refl|done].
  - case_bool_decide as Hvd; [injection H as <-; split; [apply good_refl|done]|].
    case_bool_decide as Hvg; [done|]. destruct (om_get n out) as [nd|] eqn:Hnd; [|done].
    apply bind_Ok in H as (m1 & H1 & [= <-]).
    apply visit_list_good in H1 as [(E & Hsub & Hacc) Hdone].
    + simpl in *. split; [|set_solver]. split_and!; simpl; [set_solver|set_solver|].
      intros Hvdacc x [->%elem_of_singleton|Hx]%elem_of_union; [|by apply Hacc].
      constructor. intros d (nd' & Hnd' & Hd). apply Hacc; [done|]. apply Hdone. congruence.
    + intros d m2 m3 _ Hv.
      destruct (decide (d ∈ m2.2)) as [Hin|Hout]; [apply (IH d m2 m3); auto|].
      destruct (decide (d ∈ m2.1)) as [Hc|]; [|apply (IH d m2 m3); auto].
      exfalso. destruct m2 as [a b], fuel; simpl in *;
        rewrite (bool_decide_eq_false_2 _ Hout), (bool_decide_eq_true_2 _ Hc) in Hv; done.
Qed.

(** Every node on the chain depends, directly or not, on the node being explored. *)
Definition chained (n : string) (vg : gset string) : Prop := ∀ v, v ∈ vg → tc R n v.

Definition keys_set : gset string := list_to_set (om_keys out).

Lemma keys_set_spec k : k ∈ keys_set ↔ om_has k out = true.
Proof.
  unfold keys_set. rewrite elem_of_list_to_set. destruct (om_has k out) eqn:E.
  - apply om_has_spec in E as [v Hv]. split; [done|]. intros _.
    destruct (decide (k ∈ om_keys out)) as [|Hn]; [done|]. apply om_get_None in Hn. congruence.
  - apply om_has_false, om_get_None in E. by split.
Qed.

Lemma visit_list_throw v deps m code :
  visit_list v deps m = Throw code →
  (∀ d m1 m2, d ∈ deps → m1.1 = m.1 → v d m1 = Ok m2 → m2.1 = m1.1) →
  ∃ d m1, d ∈ deps ∧ m1.1 = m.1 ∧ v d m1 = Throw code.
Proof.
  revert m. induction deps as [|d deps IH]; intros m H Hv; simpl in H; [done|].
  destruct (v d m) as [m1|] eqn:E; simpl in H.
  - assert (E1 : m1.1 = m.1) by (apply (Hv d); [by left|done|done]).
    apply IH in H as (d' & m2 & ? & ? & ?).
    + exists d', m2. split_and!; [by right|congruence|done].
    + intros d' m2 m3 Hd Hm. apply Hv; [by right|congruence].
  - injection H as ->. exists d, m. by split_and!; [left|..].
Qed.

Lemma visit_throw fuel n m code :
  om_has n out = true → m.1 ⊆ keys_set → chained n m.1 →
  (size keys_set < fuel + size m.1)%nat →
  visit fuel out n m = Throw code →
  code = "invalid_dependency_cycle" ∧ ∃ x, tc R x x.
Proof.
  revert n m. induction fuel as [|fuel IH]; intros n [vg vd] Hn Hsub Hch Hf H; simpl in *.
  - exfalso. apply subseteq_size in Hsub. lia.
  - case_bool_decide; [done|]. case_bool_decide as Hvg; [injection H as <-; eauto|].
    pose proof Hn as Hn'. apply om_has_spec in Hn as [nd Hnd]. rewrite Hnd in H.
    destruct (visit_list _ _ _) as [|c] eqn:Hl; [done|]. injection H as ->.
    apply visit_list_throw in Hl as (d & m1 & Hd & Hm1 & Hv).
    + simpl in Hm1. assert (Hdn : R d n) by (by exists nd).
      apply (IH d m1); [by eapply Hclosed| | | |done]; rewrite Hm1.
      * apply union_subseteq. split; [|done]. apply singleton_subseteq_l. by apply keys_set_spec.
      * intros v [->%elem_of_singleton|Hv']%elem_of_union; [by apply tc_once|].
        eapply tc_l; [done|]. by apply Hch.
      * rewrite size_union, size_singleton by set_solver. lia.
    + intros d m1 m2 Hd Hm1 Hv.
      assert (Hok : d ∉ m1.1 ∨ d ∈ m1.2).
      { destruct (decide (d ∈ m1.2)) as [|Hout]; [by right|].
        destruct (decide (d ∈ m1.1)) as [Hc|]; [|by left]. exfalso.
        destruct m1 as [a b], fuel; simpl in *;
          rewrite (bool_decide_eq_false_2 _ Hout), (bool_decide_eq_true_2 _ Hc) in Hv; done. }
      by apply visit_good in Hv as [(? & _) _].
Qed.

End dfs.

Lemma size_list_to_set_le (l : list string) : (size (list_to_set l : gset string) ≤ length l)%nat.
Proof.
  induction l as [|x l IH].
  { by vm_compute. }
  simpl. rewrite size_union_alt, size_singleton. apply le_n_S. etrans; [apply subseteq_size|exact IH].
  set_solver.
Qed.

Lemma tc_last {A} (R : relation A) x z : tc R x z → ∃ y, rtc R x y ∧ R y z.
Proof.
  induction 1 as [x z|x y z Hxy _ (w & Hw & Hwz)]; [by exists x; split; [apply rtc_refl|]|].
  exists w. split; [by eapply rtc_l|done].
Qed.

Lemma acc_no_cycle {A} (R : relation A) x : Acc R x → ¬ tc R x x.
Proof.
  induction 1 as [x _ IH]. intros (y & Hxy & Hyx)%tc_last.
  apply (IH y Hyx). eapply tc_rtc_r; [by apply tc_once|done].
Qed.

Lemma checkAcyclic_Ok out m : closed out → checkAcyclic out = Ok m → ∀ n, Acc (dep_of out) n.
Proof.
  unfold checkAcyclic. intros Hc H.
  assert (Hgood : good out (∅, ∅) m ∧ ∀ d, d ∈ om_keys out → d ∈ m.2).
  { eapply visit_list_good; [done| |exact H]. intros d m1 m2 Hd Hv. cbv beta in Hv.
    destruct (decide (d ∈ m1.2)) as [|Hout]; [by eapply visit_good; [done|right|exact Hv]|].
    destruct (decide (d ∈ m1.1)) as [Hin|]; [|by eapply visit_good; [done|left|exact Hv]].
    exfalso. destruct m1 as [a b]; simpl in *.
    rewrite (bool_decide_eq_false_2 _ Hout), (bool_decide_eq_true_2 _ Hin) in Hv. done. }
  destruct Hgood as ((_ & _ & Hacc) & Hin). simpl in Hacc.
  assert (Hall : all_acc out m.2) by (apply Hacc; by intros x ?%elem_of_empty).
  intros n. constructor. intros d Hd. pose proof (Hc _ _ Hd) as Hk. apply Hall, Hin.
  apply om_has_spec in Hk as [v Hv]. destruct (decide (d ∈ om_keys out)) as [|Hn]; [done|].
  apply om_get_None in Hn. congruence.
Qed.

Lemma checkAcyclic_Throw out code :
  closed out → checkAcyclic out = Throw code →
  code = "invalid_dependency_cycle" ∧ ∃ n, tc (dep_of out) n n.
Proof.
  unfold checkAcyclic. intros Hc H. apply visit_list_throw in H as (d & m1 & Hd & Hm1 & Hv).
  - eapply visit_throw; [done| | | | |exact Hv]; rewrite ?Hm1; cbn [fst snd].
    + apply keys_set_spec. unfold keys_set. by apply elem_of_list_to_set.
    + set_solver.
    + by intros v ?%elem_of_empty.
    + assert (size (keys_set out) ≤ length out)%nat; [|lia].
      unfold keys_set, om_keys. etrans; [apply size_list_to_set_le|]. by rewrite length_fmap.
  - intros d m1 m2 Hd Hm1 Hv. simpl in Hm1.
    apply visit_good in Hv as [(? & _) _]; [done|done|]. left. rewrite Hm1. set_solver.
Qed.

(** C12. The cycle check is exact: on nodes whose dependencies all exist it accepts exactly the
    acyclic ones, and then the dependency relation is well founded; otherwise it reports a
    dependency cycle, and one exists. It never runs out of depth. *)
Theorem cycle_check_exact out :
  closed out →
  match checkAcyclic out with
  | Ok _ => ∀ n, Acc (dep_of out) n
  | Throw code => code = "invalid_dependency_cycle" ∧ ∃ n, tc (dep_of out) n n
  end.
Proof.
  intros Hc. destruct (checkAcyclic out) as [m|code] eqn:H.
  - by eapply checkAcyclic_Ok.
  - by apply checkAcyclic_Throw.
Qed.

Definition leaf (k : string) (deps : list string) : Node :=
  MkNode k "ada" "work" deps "pending" JNull None None None None None None.

Definition diamond : omap Node :=
  [("a", leaf "a" []); ("b", leaf "b" ["a"]); ("c", leaf "c" ["a"]); ("d", leaf "d" ["b"; "c"])].

Lemma closed_forall out :
  forallb (λ n, forallb (λ d, om_has d out) (depends_on n)) (om_vals out) = true → closed out.
Proof.
  intros H d n (nd & Hnd & Hd). rewrite forallb_forall in H.
  assert (Hin : List.In nd (om_vals out)) by (apply list_elem_of_In; by eapply om_get_vals).
  apply H in Hin. rewrite forallb_forall in Hin. by apply Hin, list_elem_of_In.
Qed.

Lemma cycle_check_exact_witness :
  closed diamond ∧ is_ok (checkAcyclic diamond) = true ∧
  is_ok (checkAcyclic [("x", leaf "x" ["y"]); ("y", leaf "y" ["x"])]) = false ∧
  match checkAcyclic diamond with
  | Ok _ => ∀ n, Acc (dep_of diamond) n
  | Throw code => code = "invalid_dependency_cycle" ∧ ∃ n, tc (dep_of diamond) n n
  end.
Proof.
  assert (H : closed diamond) by (apply closed_forall; by vm_compute).
  split; [exact H|]. split; [by vm_compute|]. split; [by vm_compute|]. exact (cycle_check_exact _ H).
Defined.

(** ** Well-formed node tables *)

Definition cond_dep (n : Node) : option string := match condition n with Some c => dep c | None => None end.

Record nodes_ok (out : omap Node) : Prop := MkNodesOk {
  no_nonempty : out ≠ [];
  no_keys : NoDup (om_keys out);
  no_id : ∀ k n, om_get k out = Some n → id n = k;
  no_status : ∀ k n, om_get k out = Some n → inb (status n) NODE_STATUSES = true;
  no_closed : closed out;
  no_self : ∀ k, ¬ dep_of out k k;
  no_cond : ∀ k n d, om_get k out = Some n → cond_dep n = Some d → om_has d out = true;
  no_acyclic : ∀ k, Acc (dep_of out) k;
}.

Section admission.
Context (num_str : num → string) (iso_of : string → option string).

Lemma normalizeNodeStatus_Ok v fb s : normalizeNodeStatus v fb = Ok s → inb s NODE_STATUSES = true.
Proof. unfold normalizeNodeStatus. case_match eqn:E; [by intros [= <-]|done]. Qed.

Lemma normalizeNode_Ok raw k n :
  normalizeNode num_str iso_of raw k = Ok n → inb (status n) NODE_STATUSES = true.
Proof.
  unfold normalizeNode. intros H. repeat (case_match; [|done]). js_inv H.
  injection H as <-. simpl. by eapply normalizeNodeStatus_Ok.
Qed.

Definition filed (out : omap Node) : Prop :=
  NoDup (om_keys out) ∧ ∀ k n, om_get k out = Some n → id n = k ∧ inb (status n) NODE_STATUSES = true.

Lemma collectNodes_filed entries out out' :
  filed out → collectNodes num_str iso_of entries out = Ok out' → filed out'.
Proof.
  revert out. induction entries as [|[k raw] entries IH]; intros out [Hnd Hf] H; simpl in H.
  - by injection H as <-.
  - apply bind_Ok in H as (n & Hn & H). apply IH in H; [done|]. split; [by apply om_nodup_obj_set|].
    intros k' n'. rewrite om_get_obj_set. destruct (String.eqb_spec (id n) k') as [<-|]; [|apply Hf].
    intros [= <-]. split; [done|]. by eapply normalizeNode_Ok.
Qed.

Lemma checkDeps_Ok out n deps :
  checkDeps out n deps = Ok () → ∀ d, d ∈ deps → om_has d out = true ∧ d ≠ id n.
Proof.
  induction deps as [|d deps IH]; simpl; intros H x Hx; [by apply elem_of_nil in Hx|].
  destruct (om_has d out) eqn:E; [|done]. simpl in H. destruct (String.eqb_spec d (id n)); [done|].
  apply elem_of_cons in Hx as [->|Hx]; auto.
Qed.

Lemma checkNodes_Ok out ns n :
  checkNodes out ns = Ok () → n ∈ ns →
  (∀ d, d ∈ depends_on n → om_has d out = true ∧ d ≠ id n) ∧
  (∀ d, cond_dep n = Some d → om_has d out = true).
Proof.
  induction ns as [|n' ns IH]; intros H Hn; [by apply elem_of_nil in Hn|]. simpl in H.
  apply bind_Ok in H as ([] & H1 & H2). apply elem_of_cons in Hn as [->|Hn]; [|auto].
  unfold checkNode in H1. apply bind_Ok in H1 as ([] & Hd & Hc).
  split; [by apply checkDeps_Ok|]. intros d. unfold cond_dep. destruct (condition n') as [[[x|] ? ? ? ? ? ?]|]; [|done..].
  intros [= <-]. by destruct (om_has x out).
Qed.

Lemma normalizeNodes_ok raw out : normalizeNodes num_str iso_of raw = Ok out → nodes_ok out.
Proof.
  unfold normalizeNodes. intros H. destruct raw as [| | | | | |entries|].
  1-6, 8: discriminate H.
  apply bind_Ok in H as (out' & Hcol & H). case_bool_decide as Hne; [done|].
  apply bind_Ok in H as ([] & Hchk & H). apply bind_Ok in H as (m & Hac & [= <-]).
  assert (Hnil : filed []) by (split; [apply NoDup_nil_2 | intros k n Hk; discriminate Hk]).
  destruct (collectNodes_filed _ _ _ Hnil Hcol) as [Hnd Hf].
  assert (Hn : ∀ k n, om_get k out' = Some n →
    (∀ d, d ∈ depends_on n → om_has d out' = true ∧ d ≠ k) ∧ (∀ d, cond_dep n = Some d → om_has d out' = true)).
  { intros k n Hk. pose proof (Hf _ _ Hk) as [Hid _]. subst k. eapply checkNodes_Ok; [exact Hchk|].
    by eapply om_get_vals. }
  assert (Hcl : closed out').
  { intros d k (n & Hk & Hd). exact (proj1 (proj1 (Hn _ _ Hk) d Hd)). }
  split; try assumption.
  - intros k n Hk. exact (proj1 (Hf k n Hk)).
  - intros k n Hk. exact (proj2 (Hf k n Hk)).
  - intros k (n & Hk & Hd). exact (proj2 (proj1 (Hn _ _ Hk) k Hd) eq_refl).
  - intros k n d Hk. exact (proj2 (Hn _ _ Hk) d).
  - exact (checkAcyclic_Ok _ _ Hcl Hac).
Qed.

End admission.

(** Replacing a node by one with the same identity, dependencies and condition reference. *)
Record same_shape (n n' : Node) : Prop := MkSameShape {
  ss_id : id n' = id n;
  ss_deps : depends_on n' = depends_on n;
  ss_cond : cond_dep n' = cond_dep n;
  ss_status : inb (status n) NODE_STATUSES = true → inb (status n') NODE_STATUSES = true;
}.

Lemma same_shape_refl n : same_shape n n.
Proof. by split. Qed.

Lemma same_shape_trans n1 n2 n3 : same_shape n1 n2 → same_shape n2 n3 → same_shape n1 n3.
Proof. intros [] []. split; try congruence. auto. Qed.

(** Two tables with the same keys whose nodes have the same shape. *)
Definition same_shapes (out out' : omap Node) : Prop :=
  om_keys out' = om_keys out ∧
  ∀ k, match om_get k out, om_get k out' with
       | Some n, Some n' => same_shape n n'
       | None, None => True
       | _, _ => False
       end.

Lemma same_shapes_get out out' k n' :
  same_shapes out out' → om_get k out' = Some n' → ∃ n, om_get k out = Some n ∧ same_shape n n'.
Proof. intros [_ H] Hk. specialize (H k). rewrite Hk in H. destruct (om_get k out); [eauto|done]. Qed.

Lemma same_shapes_has out out' k : same_shapes out out' → om_has k out' = om_has k out.
Proof. intros [_ H]. specialize (H k). unfold om_has. destruct (om_get k out), (om_get k out'); done. Qed.

Lemma same_shapes_dep out out' d k : same_shapes out out' → dep_of out' d k → dep_of out d k.
Proof.
  intros Hs (n' & Hn' & Hd). destruct (same_shapes_get _ _ _ _ Hs Hn') as (n & Hn & E).
  exists n. split; [done|]. by rewrite <-(ss_deps _ _ E).
Qed.

Lemma nodes_ok_shapes out out' : nodes_ok out → same_shapes out out' → nodes_ok out'.
Proof.
  intros [Hne Hnd Hid Hst Hcl Hself Hcond Hacc] Hs. split.
  - intros ->. destruct Hs as [Hk _]. by destruct out.
  - by rewrite (proj1 Hs).
  - intros k n' Hk. destruct (same_shapes_get _ _ _ _ Hs Hk) as (n & Hn & E).
    rewrite (ss_id _ _ E). by apply Hid.
  - intros k n' Hk. destruct (same_shapes_get _ _ _ _ Hs Hk) as (n & Hn & E).
    apply (ss_status _ _ E). by eapply Hst.
  - intros d k Hd. rewrite (same_shapes_has _ _ _ Hs). eapply Hcl. by eapply same_shapes_dep.
  - intros k Hd. eapply Hself. by eapply same_shapes_dep.
  - intros k n' d Hk. rewrite (same_shapes_has _ _ _ Hs).
    destruct (same_shapes_get _ _ _ _ Hs Hk) as (n & Hn & E). rewrite (ss_cond _ _ E). by eapply Hcond.
  - intros k. induction (Hacc k) as [k _ IH]. constructor. intros d Hd. apply IH. by eapply same_shapes_dep.
Qed.

Lemma same_shapes_refl out : same_shapes out out.
Proof. split; [done|]. intros k. destruct (om_get k out); [apply same_shape_refl|done]. Qed.

Lemma same_shapes_trans o1 o2 o3 : same_shapes o1 o2 → same_shapes o2 o3 → same_shapes o1 o3.
Proof.
  intros [K1 H1] [K2 H2]. split; [congruence|]. intros k. specialize (H1 k). specialize (H2 k).
  destruct (om_get k o1), (om_get k o2), (om_get k o3); try done. by eapply same_shape_trans.
Qed.

Lemma same_shapes_set out k n n' :
  om_get k out = Some n → same_shape n n' → same_shapes out (obj_set k n' out).
Proof.
  intros Hk Hs. split; [apply om_keys_obj_set_old; eauto|]. intros k'. rewrite om_get_obj_set.
  destruct (String.eqb_spec k k') as [<-|]; [by rewrite Hk|].
  destruct (om_get k' out); [apply same_shape_refl|done].
Qed.

Lemma cloneNode_shape n : same_shape n (cloneNode n).
Proof. split; try done. unfold cond_dep, cloneNode. simpl. by destruct (condition n). Qed.

Lemma clone_shapes out : same_shapes out (prod_map (λ k, k) cloneNode <$> out).
Proof.
  split; [apply om_keys_fmap|]. intros k. rewrite om_get_fmap.
  destruct (om_get k out); simpl; [apply cloneNode_shape|done].
Qed.
