(* ===== verification/TaskGraphLive.v ===== *)
(** * Task graphs: the scheduler

    [advanceGraph] runs over the nodes again and again until a pass changes nothing. Its contract is
    a step relation, [sched]: one pending node whose verdict is known changes status. The loop
    refines that relation, ends within one pass per node, and ends where no step is left; the
    relation's normal forms agree on every node's status, so the order in which nodes are looked at
    does not matter. *)

From Stdlib Require Import ZArith QArith Lia String Ascii.
From stdpp Require Import base gmap sets list strings relations.
From S2P Require Import Prelude OMap Json Store TaskGraph TaskGraphFacts.
#[local] Open Scope stdpp_scope.
Import TaskGraph.

(** ** Verdicts and what they depend on *)

(** The status a verdict leads to. *)
Definition target (v : Verdict) : option string :=
  match v with
  | Fail _ => Some "failed"
  | Skip => Some "skipped"
  | Dispatch => Some "dispatched"
  | Wait => None
  end.

(** What the verdict on a node reads of the node. *)
Definition same_task (n n' : Node) : Prop := depends_on n' = depends_on n ∧ condition n' = condition n.

(** [g'] is a later state of the schedule of [g]: a node that was not pending keeps its status and
    its result. *)
Definition later (g g' : Graph) : Prop :=
  g_id g' = g_id g ∧ owner g' = owner g ∧ label g' = label g ∧ g_status g' = g_status g ∧
  same_shapes (nodes g) (nodes g') ∧
  ∀ k n n', om_get k (nodes g) = Some n → om_get k (nodes g') = Some n' →
    same_task n n' ∧ result_ n' = result_ n ∧ (status n ≠ "pending" → status n' = status n).

Lemma later_refl g : later g g.
Proof. split_and!; try done; [apply same_shapes_refl|]. intros k n n' H H'. by simplify_eq. Qed.

Lemma later_trans g1 g2 g3 : later g1 g2 → later g2 g3 → later g1 g3.
Proof.
  intros (A1&B1&C1&D1&S1&H1) (A2&B2&C2&D2&S2&H2). split_and!; try congruence; [by eapply same_shapes_trans|].
  intros k n n3 Hn Hn3. destruct (same_shapes_get _ _ _ _ S2 Hn3) as (n2 & Hn2 & _).
  destruct (H1 _ _ _ Hn Hn2) as ([? ?] & ? & E1), (H2 _ _ _ Hn2 Hn3) as ([? ?] & ? & E2).
  split_and!; [split; congruence|congruence|]. intros Hp. rewrite E2; [auto|]. by rewrite E1.
Qed.

Lemma later_get g g' k n : later g g' → om_get k (nodes g) = Some n →
  ∃ n', om_get k (nodes g') = Some n' ∧ same_task n n' ∧ result_ n' = result_ n ∧
        (status n ≠ "pending" → status n' = status n).
Proof.
  intros (_&_&_&_&S&H) Hn. destruct S as [_ S]. specialize (S k). rewrite Hn in S.
  destruct (om_get k (nodes g')) as [n'|] eqn:E; [|done]. eauto.
Qed.

Lemma later_has g g' k : later g g' → om_has k (nodes g') = om_has k (nodes g).
Proof. intros (_&_&_&_&S&_). by apply same_shapes_has. Qed.

Lemma status_in_spec g l k :
  status_in g l k = true ↔ ∃ n, om_get k (nodes g) = Some n ∧ status n ∈ l.
Proof.
  unfold status_in, status_of. destruct (om_get k (nodes g)) as [n|]; simpl.
  - rewrite inb_spec. naive_solver.
  - naive_solver.
Qed.

Lemma status_in_get g l k n : om_get k (nodes g) = Some n → status_in g l k = inb (status n) l.
Proof. unfold status_in, status_of. by intros ->. Qed.

Lemma later_status_in g g' l k :
  later g g' → "pending" ∉ l → status_in g l k = true → status_in g' l k = true.
Proof.
  rewrite !status_in_spec. intros Hl Hp (n & Hn & Hs).
  destruct (later_get _ _ _ _ Hl Hn) as (n' & Hn' & _ & _ & E). exists n'. split; [done|].
  rewrite E; [done|]. intros E'. by rewrite E' in Hs.
Qed.

(** Once every dependency is settled, it stays settled the same way. *)
Lemma settled_disjoint g k :
  status_in g ["complete"; "skipped"] k = true → status_in g ["failed"; "cancelled"] k = false.
Proof.
  unfold status_in. destruct (status_of g k); [|done]. rewrite inb_spec.
  intros [->|[->|[]%elem_of_nil]%elem_of_cons]%elem_of_cons; reflexivity.
Qed.

Lemma evaluateCondition_later g g' n n' b :
  later g g' → same_task n n' → evaluateCondition g n = Some b → evaluateCondition g' n' = Some b.
Proof.
  intros Hl [Hd Hc]. unfold evaluateCondition. rewrite Hc. destruct (condition n) as [c|]; [|done].
  replace (conditionDep n' c) with (conditionDep n c) by (unfold conditionDep; by rewrite Hd).
  destruct (conditionDep n c) as [k|]; [|done].
  destruct (om_get k (nodes g)) as [d|] eqn:Hk; [|done].
  destruct (later_get _ _ _ _ Hl Hk) as (d' & -> & _ & -> & Hst).
  destruct (inb (status d) ["pending"; "dispatched"; "active"]) eqn:E; [done|].
  rewrite Hst; [by rewrite E|]. intros E'. by rewrite E' in E.
Qed.

(** A verdict, once known, is final. *)
Lemma classify_later g g' n n' :
  later g g' → same_task n n' → classify g n ≠ Wait →
  target (classify g' n') = target (classify g n) ∧ classify g' n' ≠ Wait.
Proof.
  intros Hl Ht. pose proof Ht as [Hd _]. unfold classify. rewrite Hd.
  destruct (List.filter (status_in g _) _) as [|x xs] eqn:Ef.
  - destruct (forallb (status_in g _) _) eqn:Ec; [|done]. simpl.
    assert (Ec' : forallb (status_in g' ["complete"; "skipped"]) (depends_on n) = true).
    { rewrite forallb_elem in *. intros k Hk. eapply later_status_in; [done| |by apply Ec].
      by rewrite <-inb_spec. }
    assert (Ef' : List.filter (status_in g' ["failed"; "cancelled"]) (depends_on n) = []).
    { apply filter_nil_forallb. rewrite forallb_elem in *. intros k Hk.
      by rewrite (settled_disjoint g' k (Ec' k Hk)). }
    rewrite Ef', Ec'. simpl. destruct (evaluateCondition g n) as [b|] eqn:Ev; [|done].
    rewrite (evaluateCondition_later _ _ _ _ _ Hl Ht Ev). by destruct b.
  - intros _. assert (Hx : x ∈ List.filter (status_in g' ["failed"; "cancelled"]) (depends_on n)).
    { assert (x ∈ List.filter (status_in g ["failed"; "cancelled"]) (depends_on n)) as Hx by (rewrite Ef; by left).
      apply elem_of_filter_bool in Hx as [Hx ?]. apply elem_of_filter_bool. split; [|done].
      eapply later_status_in; [done| |exact Hx]. by rewrite <-inb_spec. }
    destruct (List.filter (status_in g' _) _); [by apply elem_of_nil in Hx|done].
Qed.

(** A verdict reads the nodes and nothing else of the graph. *)
Lemma classify_nodes g g' n : nodes g' = nodes g → classify g' n = classify g n.
Proof. unfold classify, evaluateCondition, status_in, status_of. by intros ->. Qed.

Lemma classify_Dispatch g n :
  classify g n = Dispatch →
  forallb (status_in g ["complete"; "skipped"]) (depends_on n) = true ∧ evaluateCondition g n = Some true.
Proof.
  unfold classify. destruct (List.filter _ _); [|done]. destruct (forallb _ _); [|done]. simpl.
  by destruct (evaluateCondition g n) as [[]|].
Qed.

(** ** The contract of the scheduler *)

Section sched.
Context (num_str : num → string).

(** What one decision writes into a node: the target status, and nothing another node's verdict
    reads. *)
Definition decided (n n' : Node) (v : Verdict) : Prop :=
  same_shape n n' ∧ same_task n n' ∧ result_ n' = result_ n ∧
  target v = Some (status n').

(** One decision: a pending node with a known verdict takes the verdict's status, and a message goes
    out exactly when the verdict is to dispatch. *)
Inductive sched : relation (Graph * list DispatchMessage) :=
| sched_intro g ms k n n' :
    om_get k (nodes g) = Some n → status n = "pending" → decided n n' (classify g n) →
    sched (g, ms)
      (setNode k n' g,
       match classify g n with Dispatch => ms ++ [dispatchMessageFor num_str g n] | _ => ms end).

Lemma sched_make g ms k n n' v ms' :
  om_get k (nodes g) = Some n → status n = "pending" → classify g n = v → decided n n' v →
  ms' = match v with Dispatch => ms ++ [dispatchMessageFor num_str g n] | _ => ms end →
  sched (g, ms) (setNode k n' g, ms').
Proof. intros Hk Hp <- Hd ->. by apply sched_intro. Qed.

(** No decision is left to take. *)
Definition quiet (g : Graph) : Prop :=
  ∀ k n, om_get k (nodes g) = Some n → status n = "pending" → classify g n = Wait.

Definition pending_count (g : Graph) : nat :=
  length (List.filter (λ n, String.eqb (status n) "pending") (om_vals (nodes g))).

Lemma target_not_pending v s : target v = Some s → s ≠ "pending" ∧ inb s NODE_STATUSES = true.
Proof. destruct v; intros [= <-]; done. Qed.

Lemma setNode_later g k n n' v :
  om_get k (nodes g) = Some n → status n = "pending" → decided n n' v → later g (setNode k n' g).
Proof.
  intros Hk Hp (Hs & Ht & Hr & _). split_and!; try done; [by eapply same_shapes_set|].
  intros k' m m' Hm. simpl. rewrite om_get_obj_set. destruct (String.eqb_spec k k') as [<-|].
  - intros [= <-]. assert (m = n) as -> by congruence. by split_and!.
  - intros Hm'. assert (m' = m) as -> by congruence. done.
Qed.

Lemma sched_later s s' : sched s s' → later s.1 s'.1.
Proof. destruct 1. by eapply setNode_later. Qed.

Lemma rtc_sched_later s s' : rtc sched s s' → later s.1 s'.1.
Proof.
  induction 1 as [s|s1 s2 s3 H _ IH]; [apply later_refl|].
  eapply later_trans; [by apply sched_later|done].
Qed.

Lemma pending_obj_set (m : omap Node) k n n' :
  om_get k m = Some n → status n = "pending" → status n' ≠ "pending" →
  S (length (List.filter (λ n, String.eqb (status n) "pending") (om_vals (obj_set k n' m)))) =
  length (List.filter (λ n, String.eqb (status n) "pending") (om_vals m)).
Proof.
  intros Hk Hp Hn. unfold obj_set.
  replace (om_has k m) with true by (symmetry; apply om_has_spec; eauto).
  unfold om_vals. induction m as [|[k' m'] m IH]; [done|]. simpl in Hk. csimpl.
  destruct (String.eqb k k'); csimpl.
  - injection Hk as ->. rewrite Hp. apply String.eqb_neq in Hn. by rewrite Hn.
  - destruct (String.eqb (status m') "pending"); simpl; by rewrite <-IH.
Qed.

Lemma sched_pending s s' : sched s s' → pending_count s.1 = S (pending_count s'.1).
Proof.
  destruct 1 as [g ms k n n' Hk Hp (_ & _ & _ & Ht)]. apply target_not_pending in Ht as [Ht _].
  unfold pending_count. simpl. symmetry. by eapply pending_obj_set.
Qed.

Lemma rtc_sched_pending s s' : rtc sched s s' → (pending_count s'.1 ≤ pending_count s.1)%nat.
Proof. induction 1 as [s|s1 s2 s3 Hs _ IH]; [done|]. apply sched_pending in Hs. lia. Qed.

(** A node the schedule changed has a known final verdict, which its status realises. *)
Lemma decided_verdict s sf k n nf :
  rtc sched s sf → om_get k (nodes s.1) = Some n → status n = "pending" →
  om_get k (nodes sf.1) = Some nf → status nf ≠ "pending" →
  target (classify sf.1 nf) = Some (status nf).
Proof.
  intros Hr. revert n. induction Hr as [s|s1 s2 sf Hstep Hr IH]; intros n Hk Hp Hkf Hnp; [congruence|].
  pose proof (sched_later _ _ Hstep) as Hl. destruct (later_get _ _ _ _ Hl Hk) as (n2 & Hk2 & Ht2 & _ & _).
  destruct (decide (status n2 = "pending")) as [Hp2|Hp2]; [by eapply IH|].
  apply rtc_sched_later in Hr as Hl2.
  destruct (later_get _ _ _ _ Hl2 Hk2) as (n3 & Hk3 & Ht3 & _ & Hst).
  assert (n3 = nf) as -> by congruence. rewrite (Hst Hp2).
  destruct Hstep as [g ms j m m' Hj Hpj (Hs & Htask & _ & Htgt)]. simpl in *.
  rewrite om_get_obj_set in Hk2. destruct (String.eqb_spec j k) as [->|]; [|congruence].
  assert (m = n) as -> by congruence. injection Hk2 as ->.
  destruct (classify_later g sf.1 n nf) as [Hc _]; [by eapply later_trans|destruct Ht2, Ht3; split; congruence| |congruence].
  intros E. by rewrite E in Htgt.
Qed.

(** In a finished schedule a node that was pending has the status its final verdict gives. *)
Lemma finished_status s sf k n nf v :
  rtc sched s sf → quiet sf.1 → om_get k (nodes s.1) = Some n → status n = "pending" →
  om_get k (nodes sf.1) = Some nf → target (classify sf.1 nf) = Some v → status nf = v.
Proof.
  intros Hr Hq Hk Hp Hkf Ht. destruct (decide (status nf = "pending")) as [Hpf|Hpf].
  - by rewrite (Hq _ _ Hkf Hpf) in Ht.
  - rewrite (decided_verdict _ _ _ _ _ Hr Hk Hp Hkf Hpf) in Ht. by injection Ht.
Qed.

Lemma schedule_agrees s sf s' :
  rtc sched s sf → quiet sf.1 → rtc sched s s' → later s'.1 sf.1.
Proof.
  intros Hf Hq. apply rtc_sched_later in Hf as Hlf. revert s'.
  apply rtc_ind_r; [done|]. intros s' s'' Hr Hstep IH. apply rtc_sched_later in Hr as Hl.
  destruct Hstep as [g ms k n n' Hk Hp Hdec]. simpl in *. pose proof Hdec as (Hs & Ht & Hres & Htgt).
  destruct IH as (A & B & C & D & Hsh & Hn).
  destruct (later_get g sf.1 k n) as (nf & Hkf & Htf & Hrf & _); [by split_and!|done|].
  assert (Hw : classify g n ≠ Wait) by (intros E; by rewrite E in Htgt).
  destruct (classify_later g sf.1 n nf) as [Hc _]; [by split_and!|done|done|].
  assert (Hsf : status nf = status n').
  { destruct (same_shapes_get _ _ _ _ (proj1 (proj2 (proj2 (proj2 (proj2 Hl))))) Hk) as (n0 & Hk0 & _).
    assert (status n0 = "pending") as Hp0.
    { destruct (decide (status n0 = "pending")) as [|Hne]; [done|].
      destruct (later_get _ _ _ _ Hl Hk0) as (n1 & Hk1 & _ & _ & E). simpl in *.
      assert (n1 = n) as -> by congruence. rewrite (E Hne) in Hp. done. }
    eapply finished_status; [exact Hf|done|done|done|done|]. congruence. }
  split_and!; try done.
  - destruct Hsh as [Hk1 Hk2]. split.
    + rewrite Hk1. symmetry. apply om_keys_obj_set_old; eauto.
    + intros j. simpl. rewrite om_get_obj_set. destruct (String.eqb_spec k j) as [<-|]; [|apply Hk2].
      rewrite Hkf. specialize (Hk2 k). rewrite Hk, Hkf in Hk2. destruct Hs, Hk2.
      split; congruence.
  - intros j m m'. simpl. rewrite om_get_obj_set. destruct (String.eqb_spec k j) as [<-|]; [|apply Hn].
    intros [= <-] Hm'. assert (m' = nf) as -> by congruence.
    destruct Htf, Ht. split_and!; [split; congruence|congruence|done].
Qed.

Lemma finished_agree s sf1 sf2 k :
  rtc sched s sf1 → quiet sf1.1 → rtc sched s sf2 → quiet sf2.1 → status_of sf1.1 k = status_of sf2.1 k.
Proof.
  intros H1 Q1 H2 Q2. pose proof (schedule_agrees _ _ _ H1 Q1 H2) as L21.
  pose proof (schedule_agrees _ _ _ H2 Q2 H1) as L12. unfold status_of.
  destruct (om_get k (nodes sf1.1)) as [n1|] eqn:E1.
  - destruct (later_get _ _ _ _ L12 E1) as (n2 & E2 & _ & _ & S12). rewrite E2. simpl. f_equal.
    destruct (later_get _ _ _ _ L21 E2) as (n1' & E1' & _ & _ & S21). assert (n1' = n1) as -> by congruence.
    destruct (decide (status n1 = "pending")) as [P1|N1]; [|by rewrite S12].
    destruct (decide (status n2 = "pending")) as [P2|N2]; [congruence|by apply S21].
  - pose proof (later_has _ _ k L12) as Hh. unfold om_has in Hh. rewrite E1 in Hh.
    by destruct (om_get k (nodes sf2.1)).
Qed.

(** Who got a message: each node at most once, and exactly the pending nodes that were dispatched. *)
Definition messaged (g : Graph) (s : Graph * list DispatchMessage) : Prop :=
  NoDup (m_nodeId <$> s.2) ∧
  ∀ k, k ∈ m_nodeId <$> s.2 ↔ status_of g k = Some "pending" ∧ status_of s.1 k = Some "dispatched".

Lemma sched_messaged g s :
  (∀ k n, om_get k (nodes g) = Some n → id n = k) → rtc sched (g, []) s → messaged g s.
Proof.
  intros Hid. revert s. apply rtc_ind_r.
  { split; [constructor|]. intros k. simpl. split; [by intros ?%elem_of_nil|]. intros [E1 E2]. congruence. }
  intros s1 s2 Hr Hstep [Hnd Hiff]. apply rtc_sched_later in Hr as Hl.
  destruct Hstep as [g1 ms k n n' Hk Hp (Hs & _ & _ & Ht)]. simpl in *.
  assert (Hpk : status_of g1 k = Some "pending") by (unfold status_of; by rewrite Hk, <-Hp).
  assert (Hp0 : status_of g k = Some "pending" ∧ id n = k).
  { destruct Hl as (_&_&_&_&Hsh&Hl). destruct (same_shapes_get _ _ _ _ Hsh Hk) as (n0 & Hk0 & Hs0). split.
    - unfold status_of. rewrite Hk0. simpl. f_equal.
      destruct (decide (status n0 = "pending")) as [|Hne]; [done|].
      destruct (Hl _ _ _ Hk0 Hk) as (_ & _ & E). rewrite <-(E Hne). done.
    - rewrite (ss_id _ _ Hs0). by apply Hid. }
  assert (Hst : ∀ j, status_of (setNode k n' g1) j = if String.eqb k j then Some (status n') else status_of g1 j).
  { intros j. unfold status_of. simpl. rewrite om_get_obj_set. by destruct (String.eqb k j). }
  assert (Hnk : k ∉ m_nodeId <$> ms) by (intros Hin; apply Hiff in Hin as [_ Hin]; congruence).
  destruct (classify g1 n) eqn:Hc; simpl in Ht; try done; split; simpl;
    try (rewrite fmap_app; apply NoDup_app; split_and!; [done| |apply NoDup_singleton];
         intros x Hx ->%list_elem_of_singleton; destruct Hp0 as [_ <-]; done); try done;
    intros j; rewrite Hst, ?fmap_app, ?elem_of_app; rewrite Hiff;
    destruct (String.eqb_spec k j) as [<-|Hne];
    rewrite ?Hpk; injection Ht as Ht; rewrite <-?Ht; csimpl; rewrite ?list_elem_of_singleton; destruct Hp0;
    naive_solver congruence.
Qed.

(** *** The loop implements the relation *)

Lemma advanceNode_Ok e k g c g' p c' :
  advanceNode num_str e k g c = (Ok (g', p), c') →
  (p = false ∧ g' = g ∧ c' = c ∧
     ∀ n, om_get k (nodes g) = Some n → status n = "pending" → classify g n = Wait) ∨
  (p = true ∧ sched (g, sent c) (g', sent c')).
Proof.
  unfold advanceNode. destruct (om_get k (nodes g)) as [n|] eqn:Hk; [|by intros [= <- <- <-]; left].
  destruct (String.eqb_spec (status n) "pending") as [Hp|Hp]; simpl;
    [|intros [= <- <- <-]; left; split_and!; congruence].
  destruct (classify g n) eqn:Hc; simpl.
  - intros [= <- <- <-]. right. split; [done|]. by eapply sched_make.
  - intros [= <- <- <-]. left. split_and!; congruence.
  - intros [= <- <- <-]. right. split; [done|]. by eapply sched_make.
  - unfold dispatchNode. destruct (dispatchMessage e) as [send|]; [|done]. simpl.
    destruct (send _) as [reply|]; [|done]. destruct (normalizeText _ _) as [mid|]; [|done].
    intros [= <- <- <-]. right. split; [done|]. by eapply sched_make.
Qed.

Definition dispatch_error (code : string) : Prop := code = "dispatch_unavailable" ∨ code = "graph_dispatch_failed".

Lemma dispatchNode_Throw e g n c code c' :
  dispatchNode num_str e g n c = (Throw code, c') → dispatch_error code.
Proof.
  unfold dispatchNode, dispatch_error. destruct (dispatchMessage e) as [send|]; simpl; [|intros [= <- _]; auto].
  destruct (send _); [|intros [= <- _]; auto]. destruct (normalizeText _ _); [done|intros [= <- _]; auto].
Qed.

Lemma advanceNode_Throw e k g c code c' :
  advanceNode num_str e k g c = (Throw code, c') → dispatch_error code.
Proof.
  unfold advanceNode. destruct (om_get k (nodes g)) as [n|]; [|done].
  destruct (negb _); [done|]. destruct (classify g n); simpl; try done.
  destruct (dispatchNode num_str e g n c) as [[n1|code1] c1] eqn:E; [done|]. intros [= <- <-].
  by eapply dispatchNode_Throw.
Qed.

Lemma advancePass_spec e ks g p c :
  match advancePass num_str e ks g p c with
  | (Ok (g', p'), c') =>
      rtc sched (g, sent c) (g', sent c') ∧
      if p' then p = true ∨ (pending_count g' < pending_count g)%nat
      else p = false ∧ g' = g ∧ c' = c ∧
           ∀ k n, k ∈ ks → om_get k (nodes g) = Some n → status n = "pending" → classify g n = Wait
  | (Throw code, _) => dispatch_error code
  end.
Proof.
  revert g p c. induction ks as [|k ks IH]; intros g p c; simpl.
  { split; [done|]. destruct p; [by left|]. split_and!; try done. by intros ?? ?%elem_of_nil. }
  destruct (advanceNode num_str e k g c) as [[[g1 p1]|code] c1] eqn:H1; [|by eapply advanceNode_Throw].
  specialize (IH g1 (p || p1) c1). apply advanceNode_Ok in H1 as [(-> & -> & -> & Hw)|[-> Hs]].
  - rewrite orb_false_r in IH. rewrite orb_false_r.
    destruct (advancePass _ _ _ _ _ _) as [[[g' p']|] c']; [|done]. destruct IH as [Hr Hp]. split; [done|].
    destruct p'; [done|]. destruct Hp as (-> & -> & -> & Hq). split_and!; try done.
    intros k' n [->|Hin]%elem_of_cons; eauto.
  - rewrite orb_true_r in IH. rewrite orb_true_r.
    destruct (advancePass _ _ _ _ _ _) as [[[g' p']|] c']; [|done]. destruct IH as [Hr Hp].
    split; [by eapply rtc_l|]. destruct p'; [|by destruct Hp].
    right. apply sched_pending in Hs. simpl in Hs.
    apply rtc_sched_pending in Hr. simpl in Hr. lia.
Qed.

Lemma advanceLoop_spec fuel e g ch c :
  (pending_count g < fuel)%nat →
  match advanceLoop num_str fuel e g ch c with
  | (Ok (g', ch'), c') =>
      rtc sched (g, sent c) (g', sent c') ∧ quiet g' ∧
      if ch' then ch = true ∨ (pending_count g' < pending_count g)%nat
      else ch = false ∧ g' = g ∧ c' = c
  | (Throw code, _) => dispatch_error code
  end.
Proof.
  revert g ch c. induction fuel as [|fuel IH]; intros g ch c Hf; [lia|]. cbn [advanceLoop].
  pose proof (advancePass_spec e (om_keys (nodes g)) g false c) as Hp.
  destruct (advancePass _ _ _ _ _ _) as [[[g1 [|]]|code] c1]; [| |done].
  - destruct Hp as [Hr [|Hlt]]; [done|]. specialize (IH g1 true c1).
    destruct (advanceLoop _ _ _ _ _ _) as [[[g' ch']|code] c']; [|apply IH; lia].
    destruct IH as (Hr' & Hq & Hch); [lia|]. split_and!; [by etrans|done|].
    destruct ch'; [|by destruct Hch]. apply rtc_sched_pending in Hr'. simpl in Hr'. right. lia.
  - destruct Hp as (Hr & _ & -> & -> & Hq). split_and!; [done| |by destruct ch; auto].
    intros k n Hk. apply (Hq k); [|done]. destruct (decide (k ∈ om_keys (nodes g))) as [|Hn]; [done|].
    apply om_get_None in Hn. congruence.
Qed.

Lemma pending_count_le g : (pending_count g ≤ length (nodes g))%nat.
Proof.
  unfold pending_count. etrans; [apply List.filter_length_le|]. unfold om_vals. by rewrite length_fmap.
Qed.

(** What finalisation may change of a graph. *)
Definition finalized (gq g' : Graph) : Prop :=
  nodes g' = nodes gq ∧ g_id g' = g_id gq ∧
  g_status g' =
    (if bool_decide (om_vals (nodes gq) = []) || negb (forallb (λ n, isTerminalNodeStatus (status n)) (om_vals (nodes gq)))
        || negb (String.eqb (g_status gq) "active")
     then g_status gq
     else if existsb (λ n, String.eqb (status n) "failed") (om_vals (nodes gq)) then "failed" else "complete").

Lemma finalize_spec e g c fin g' c' :
  finalizeGraphIfTerminal e g c = (fin, g', c') → finalized g g' ∧ sent c' = sent c.
Proof.
  unfold finalizeGraphIfTerminal, finalized. destruct (bool_decide _ || _) eqn:E1; simpl.
  - by intros [= _ <- <-].
  - destruct (negb (String.eqb _ _)) eqn:E2; simpl; by intros [= _ <- <-].
Qed.

Lemma advanceOne_spec e g :
  match advanceOne num_str e g with
  | (Ok (g', _), c) => ∃ gq, rtc sched (g, []) (gq, sent c) ∧ quiet gq ∧ finalized gq g'
  | (Throw code, _) => dispatch_error code
  end.
Proof.
  unfold advanceOne. pose proof (pending_count_le g) as Hc.
  pose proof (advanceLoop_spec (S (length (nodes g))) e g false ctx0) as H.
  destruct (advanceLoop _ _ _ _ _ _) as [[[g1 ch]|code] c1]; [|apply H; lia].
  destruct H as (Hr & Hq & _); [lia|].
  destruct (finalizeGraphIfTerminal e g1 c1) as [[fin g2] c2] eqn:Hfin.
  apply finalize_spec in Hfin as (Hf & Hs).
  destruct (ch || fin); simpl; rewrite Hs; exists g1; by split_and!.
Qed.

End sched.

(** ** Theorems *)

(** C13. The scheduler refines its contract and terminates: whatever the graph, the dispatcher and
    the clock, one pass per node is enough fuel, the run is a sequence of legal decisions whose
    messages are exactly those sent, no legal decision is left at the end, and the graph's status is
    then the one finalisation defines; a run that fails fails with a dispatch error. *)
Theorem advance_refines_schedule num_str e g :
  match advanceOne num_str e g with
  | (Ok (g', _), c) => ∃ gq, rtc (sched num_str) (g, []) (gq, sent c) ∧ quiet gq ∧ finalized gq g'
  | (Throw code, _) => code = "dispatch_unavailable" ∨ code = "graph_dispatch_failed"
  end.
Proof. apply advanceOne_spec. Qed.

(** The order in which nodes are looked at does not matter: any sequence of legal decisions
    that cannot be continued, in whatever order it was taken, leaves every node in the status in
    which the scheduler leaves it. *)
Theorem advance_order_independent num_str e g g' b c s k :
  advanceOne num_str e g = (Ok (g', b), c) →
  rtc (sched num_str) (g, []) s → quiet s.1 →
  status_of g' k = status_of s.1 k.
Proof.
  intros H Hs Hq. pose proof (advanceOne_spec num_str e g) as Hsp. rewrite H in Hsp.
  destruct Hsp as (gq & Hr & Hqq & Hn & _).
  rewrite <-(finished_agree _ _ _ _ k Hr Hqq Hs Hq). unfold status_of. by rewrite Hn.
Qed.

(** C14. A call of the scheduler that succeeds, on a graph whose nodes were admitted, sends a node its
    assignment at most once, and only when it is ready: the nodes messaged are exactly the pending ones that end up dispatched, and for each of
    them every dependency is complete or skipped and its condition holds. Nothing is said of a call in
    which a dispatch throws: it fails as a whole and the graph is not advanced, so that the nodes it had
    messaged before stay pending and a later call messages them again. *)
Theorem advance_dispatches_ready_once num_str e g g' b c :
  nodes_ok (nodes g) →
  advanceOne num_str e g = (Ok (g', b), c) →
  NoDup (m_nodeId <$> sent c) ∧
  (∀ k, k ∈ m_nodeId <$> sent c ↔ status_of g k = Some "pending" ∧ status_of g' k = Some "dispatched") ∧
  (∀ k n', k ∈ m_nodeId <$> sent c → om_get k (nodes g') = Some n' →
     forallb (status_in g' ["complete"; "skipped"]) (depends_on n') = true ∧ evaluateCondition g' n' = Some true).
Proof.
  intros Hok H. pose proof (advanceOne_spec num_str e g) as Hsp. rewrite H in Hsp.
  destruct Hsp as (gq & Hr & Hqq & Hn & _).
  destruct (sched_messaged num_str g _ (no_id _ Hok) Hr) as [Hnd Hiff]. simpl in *.
  assert (Hst : ∀ k, status_of g' k = status_of gq k) by (intros k; unfold status_of; by rewrite Hn).
  split_and!; [done|intros k; by rewrite Hst|]. intros k n' Hk Hk'.
  apply Hiff in Hk as [Hp Hd].
  assert (Hcl : classify gq n' = Dispatch).
  { unfold status_of in Hp. destruct (om_get k (nodes g)) as [n|] eqn:Hkg; [|done]. injection Hp as Hp.
    rewrite Hn in Hk'. unfold status_of in Hd. rewrite Hk' in Hd. injection Hd as Hd.
    pose proof (decided_verdict _ _ _ k n n' Hr Hkg Hp Hk') as Ht. simpl in Ht. rewrite Hd in Ht.
    specialize (Ht ltac:(done)). by destruct (classify gq n'). }
  assert (Hcl' : classify g' n' = Dispatch) by (by rewrite <-Hcl; apply classify_nodes).
  by apply classify_Dispatch.
Qed.

(** *** Progress *)

(** Every condition looks at a dependency of its node. *)
Definition conditions_local (g : Graph) : Prop :=
  ∀ k n cd d, om_get k (nodes g) = Some n → condition n = Some cd → conditionDep n cd = Some d →
    d ∈ depends_on n.

Definition in_flight (n : Node) : bool := inb (status n) ["dispatched"; "active"].

Lemma node_status_cases s :
  inb s NODE_STATUSES = true → inb s ["dispatched"; "active"] = false →
  s = "pending" ∨ isTerminalNodeStatus s = true.
Proof.
  unfold isTerminalNodeStatus. rewrite !inb_spec. intros Hin Hno.
  assert (Hn : s ∉ ["dispatched"; "active"]) by (rewrite <-inb_spec; by rewrite Hno).
  unfold NODE_STATUSES, TERMINAL_NODE_STATUSES in *. set_solver.
Qed.

Lemma terminal_split s :
  isTerminalNodeStatus s = true → inb s ["failed"; "cancelled"] = true ∨ inb s ["complete"; "skipped"] = true.
Proof. unfold isTerminalNodeStatus. rewrite !inb_spec. unfold TERMINAL_NODE_STATUSES. set_solver. Qed.

Lemma terminal_not_live s :
  isTerminalNodeStatus s = true → inb s ["pending"; "dispatched"; "active"] = false.
Proof.
  unfold isTerminalNodeStatus. rewrite inb_spec. unfold TERMINAL_NODE_STATUSES. intros H.
  repeat (apply elem_of_cons in H as [->|H]; [reflexivity|]). by apply elem_of_nil in H.
Qed.

(** A node whose dependencies are all settled has a verdict. *)
Lemma settled_verdict g n :
  (∀ d, d ∈ depends_on n → ∃ m, om_get d (nodes g) = Some m ∧ isTerminalNodeStatus (status m) = true) →
  (∀ cd d, condition n = Some cd → conditionDep n cd = Some d → d ∈ depends_on n) →
  classify g n ≠ Wait.
Proof.
  intros Hd Hc. unfold classify. destruct (List.filter _ _) as [|x xs] eqn:Ef; [|done].
  apply filter_nil_forallb in Ef. rewrite forallb_elem in Ef.
  assert (Hall : forallb (status_in g ["complete"; "skipped"]) (depends_on n) = true).
  { apply forallb_elem. intros d Hin. destruct (Hd d Hin) as (m & Hm & Ht). specialize (Ef d Hin).
    rewrite (status_in_get _ _ _ _ Hm). rewrite (status_in_get _ _ _ _ Hm) in Ef.
    apply terminal_split in Ht as [Ht|Ht]; [by rewrite Ht in Ef|done]. }
  rewrite Hall. simpl. assert (Hev : evaluateCondition g n ≠ None); [|by destruct (evaluateCondition g n) as [[]|]].
  unfold evaluateCondition. destruct (condition n) as [cd|]; [|done].
  destruct (conditionDep n cd) as [d|] eqn:Ed; [|done].
  destruct (Hd d (Hc _ _ eq_refl Ed)) as (m & -> & Ht). rewrite (terminal_not_live _ Ht).
  by destruct (negb _).
Qed.

Lemma quiet_settled g :
  nodes_ok (nodes g) → conditions_local g → quiet g →
  (∀ k n, om_get k (nodes g) = Some n → in_flight n = false) →
  ∀ k n, om_get k (nodes g) = Some n → isTerminalNodeStatus (status n) = true.
Proof.
  intros Hok Hcl Hq Hfl k. induction (no_acyclic _ Hok k) as [k _ IH]. intros n Hk.
  destruct (node_status_cases (status n)) as [Hp|]; [by eapply no_status|by eapply Hfl| |done].
  exfalso. apply (settled_verdict g n); [| |by eapply Hq].
  - intros d Hd. assert (Hdep : dep_of (nodes g) d k) by (by exists n).
    pose proof (no_closed _ Hok _ _ Hdep) as [m Hm]%om_has_spec. exists m. split; [done|].
    by eapply IH.
  - intros cd d. by eapply Hcl.
Qed.

Lemma sched_conditions_local num_str s s' :
  rtc (sched num_str) s s' → conditions_local s.1 → conditions_local s'.1.
Proof.
  intros Hl%rtc_sched_later Hcl k n' cd d Hk'. destruct Hl as (_&_&_&_&Hsh&Hl).
  destruct (same_shapes_get _ _ _ _ Hsh Hk') as (n & Hk & _).
  destruct (Hl _ _ _ Hk Hk') as ([Hd Hc] & _ & _). rewrite Hd, Hc. intros Hcd Hdep.
  eapply Hcl; [done|done|]. rewrite <-Hdep. unfold conditionDep. by rewrite Hd.
Qed.

(** No deadlock: on an active, admitted graph whose conditions look at their own dependencies,
    a successful call either leaves some node in flight with an agent, or every node is settled and
    the graph itself is complete or failed. *)
Theorem advance_no_deadlock num_str e g g' b c :
  nodes_ok (nodes g) → conditions_local g → g_status g = "active" →
  advanceOne num_str e g = (Ok (g', b), c) →
  (∃ k n, om_get k (nodes g') = Some n ∧ in_flight n = true) ∨
  (∀ k n, om_get k (nodes g') = Some n → isTerminalNodeStatus (status n) = true) ∧
  (g_status g' = "complete" ∨ g_status g' = "failed").
Proof.
  intros Hok Hcl Hact H. pose proof (advanceOne_spec num_str e g) as Hsp. rewrite H in Hsp.
  destruct Hsp as (gq & Hr & Hq & Hn & _ & Hst).
  pose proof (rtc_sched_later _ _ _ Hr) as (_&_&_&Hgs&Hsh&_). simpl in *.
  assert (Hokq : nodes_ok (nodes gq)) by (by eapply nodes_ok_shapes).
  apply sched_conditions_local in Hr as Hclq; [|done]. simpl in Hclq.
  destruct (existsb in_flight (om_vals (nodes gq))) eqn:Ex.
  - left. apply existsb_exists in Ex as (n & Hin & Hf). apply list_elem_of_In, om_vals_get in Hin as [k Hin].
    exists k, n. rewrite Hn. split; [|done]. apply elem_of_om_get; [apply Hokq|done].
  - right. assert (Hfl : ∀ k n, om_get k (nodes gq) = Some n → in_flight n = false).
    { intros k n Hk. destruct (in_flight n) eqn:E; [|done]. rewrite <-Ex. symmetry.
      apply existsb_exists. exists n. split; [|done]. apply list_elem_of_In. by eapply om_get_vals. }
    pose proof (quiet_settled _ Hokq Hclq Hq Hfl) as Hall. split; [by rewrite Hn|].
    rewrite Hst, Hgs, Hact. rewrite (forallb_vals _ _ (no_keys _ Hokq) Hall).
    rewrite bool_decide_eq_false_2; [simpl; destruct (existsb _ _); auto|].
    intros E. apply (no_nonempty _ Hokq). unfold om_vals in E. by apply fmap_nil_inv in E.
Qed.

(** A condition on the node's own result never lets the node run: admission accepts it, and
    however often the scheduler runs, the node stays pending or fails with a dependency. *)
Theorem self_condition_never_runs num_str e g g' b c k n cd :
  om_get k (nodes g) = Some n → status n = "pending" →
  condition n = Some cd → conditionDep n cd = Some k →
  advanceOne num_str e g = (Ok (g', b), c) →
  status_of g' k = Some "pending" ∨ status_of g' k = Some "failed".
Proof.
  intros Hk Hp Hcd Hself H. pose proof (advanceOne_spec num_str e g) as Hsp. rewrite H in Hsp.
  destruct Hsp as (gq & Hr & _ & Hn & _). unfold status_of. rewrite Hn.
  change gq with (gq, sent c).1. revert Hr. generalize (gq, sent c). apply rtc_ind_r; simpl.
  { left. by rewrite Hk, <-Hp. }
  intros s1 s2 Hr Hstep IH. apply rtc_sched_later in Hr as Hl.
  destruct Hstep as [g1 ms j m m' Hj Hpj (_ & _ & _ & Ht)]. simpl in *. rewrite om_get_obj_set.
  destruct (String.eqb_spec j k) as [->|]; [|done]. simpl. right. f_equal.
  destruct (later_get _ _ _ _ Hl Hk) as (m0 & Hm0 & [Hd Hc] & _). simpl in *.
  assert (m0 = m) as -> by congruence.
  assert (Hev : evaluateCondition g1 m = None).
  { unfold evaluateCondition. rewrite Hc, Hcd. unfold conditionDep in *. rewrite Hd, Hself, Hj, Hpj. done. }
  unfold classify in Ht. rewrite Hev in Ht. destruct (List.filter _ _); [|by injection Ht].
  by destruct (forallb _ _).
Qed.

(** ** Witnesses *)

Definition env0 : Env :=
  MkEnv (λ _, "2026-01-01T00:00:00.000Z") "2026-01-01T00:00:00.000Z" "graph_1"
    (Some (λ _, Ok (JObj [("id", JStr "msg_1")]))) (Some (λ _, SaveDone)).

Definition num0 : num → string := λ _, "0".
Definition iso0 : string → option string := Some.

Definition node_json (k : string) (deps : list string) (cond : jval) : string * jval :=
  (k, JObj [("assignee", JStr "ada"); ("description", JStr "work");
            ("depends_on", JArr (List.map JStr deps)); ("condition", cond)]).

Definition graph_of (ns : omap Node) : Graph :=
  MkGraph "graph_1" "boss" "release" "active" ns "2026-01-01T00:00:00.000Z" "2026-01-01T00:00:00.000Z" None.

Definition diamond_json : jval :=
  JObj [node_json "a" [] JNull; node_json "b" ["a"] JNull; node_json "c" ["a"] JNull;
        node_json "d" ["b"; "c"] JNull].

Lemma diamond_admitted : normalizeNodes num0 iso0 diamond_json = Ok diamond.
Proof. by vm_compute. Qed.

Lemma quiet_forallb g :
  forallb (λ n, negb (String.eqb (status n) "pending")) (om_vals (nodes g)) = true → quiet g.
Proof.
  rewrite forallb_elem. intros H k n Hk Hp. specialize (H n (om_get_vals _ _ _ Hk)). by rewrite Hp in H.
Qed.

Definition pair_graph : Graph := graph_of [("x", leaf "x" []); ("y", leaf "y" [])].

(** The second node first. *)
Definition sent_y : Graph := setNode "y" ((leaf "y" []) <| status := "dispatched" |>) pair_graph.
Definition sent_yx : Graph := setNode "x" ((leaf "x" []) <| status := "dispatched" |>) sent_y.
Definition msgs_yx : list DispatchMessage :=
  [dispatchMessageFor num0 pair_graph (leaf "y" []); dispatchMessageFor num0 sent_y (leaf "x" [])].

Lemma schedule_yx : rtc (sched num0) (pair_graph, []) (sent_yx, msgs_yx).
Proof.
  apply (rtc_l _ _ (sent_y, [dispatchMessageFor num0 pair_graph (leaf "y" [])])); [|apply rtc_once].
  - refine (sched_make num0 pair_graph [] "y" (leaf "y" []) _ Dispatch _ eq_refl eq_refl eq_refl _ eq_refl).
    by split_and!.
  - refine (sched_make num0 sent_y [_] "x" (leaf "x" []) _ Dispatch _ eq_refl eq_refl eq_refl _ eq_refl).
    by split_and!.
Qed.

Lemma advance_order_independent_witness :
  match advanceOne num0 env0 pair_graph with
  | (Ok (g', _), _) => status_of g' "x" = status_of sent_yx "x" ∧ status_of sent_yx "x" = Some "dispatched"
  | _ => False
  end.
Proof.
  destruct (advanceOne num0 env0 pair_graph) as [[[g' b]|code] c] eqn:E; [|vm_compute in E; discriminate E].
  split; [|reflexivity].
  exact (advance_order_independent num0 env0 pair_graph g' b c (sent_yx, msgs_yx) "x" E schedule_yx
           (quiet_forallb sent_yx eq_refl)).
Defined.

Lemma advance_dispatches_ready_once_witness :
  match advanceOne num0 env0 (graph_of diamond) with
  | (Ok (g', _), c) => (m_nodeId <$> sent c) = ["a"] ∧ NoDup (m_nodeId <$> sent c)
  | _ => False
  end.
Proof.
  destruct (advanceOne num0 env0 (graph_of diamond)) as [[[g' b]|code] c] eqn:E; [|vm_compute in E; discriminate E].
  split; [|exact (proj1 (advance_dispatches_ready_once num0 env0 (graph_of diamond) g' b c
                           (normalizeNodes_ok num0 iso0 _ _ diamond_admitted) E))].
  vm_compute in E. by injection E as _ _ <-.
Defined.

Lemma conditions_local_none ns :
  forallb (λ n, negb (is_Some_b (condition n))) (om_vals ns) = true → conditions_local (graph_of ns).
Proof.
  rewrite forallb_elem. intros H k n cd d Hk Hc. simpl in Hk. specialize (H n (om_get_vals _ _ _ Hk)).
  by rewrite Hc in H.
Qed.

Lemma advance_no_deadlock_witness :
  match advanceOne num0 env0 (graph_of diamond) with
  | (Ok (g', _), _) =>
      (∃ k n, om_get k (nodes g') = Some n ∧ in_flight n = true) ∨
      (∀ k n, om_get k (nodes g') = Some n → isTerminalNodeStatus (status n) = true) ∧
      (g_status g' = "complete" ∨ g_status g' = "failed")
  | _ => False
  end.
Proof.
  destruct (advanceOne num0 env0 (graph_of diamond)) as [[[g' b]|code] c] eqn:E; [|vm_compute in E; discriminate E].
  exact (advance_no_deadlock num0 env0 (graph_of diamond) g' b c
           (normalizeNodes_ok num0 iso0 _ _ diamond_admitted)
           (conditions_local_none diamond eq_refl) eq_refl E).
Defined.

Definition self_condition : Condition := MkCondition (Some "s") None None None None None None.
Definition self_node : Node := (leaf "s" []) <| condition := Some self_condition |>.

Lemma self_condition_never_runs_witness :
  is_ok (normalizeNodes num0 iso0 (JObj [node_json "s" [] (JObj [("dep", JStr "s")])])) = true ∧
  match advanceOne num0 env0 (graph_of [("s", self_node)]) with
  | (Ok (g', _), _) => status_of g' "s" = Some "pending" ∨ status_of g' "s" = Some "failed"
  | _ => False
  end.
Proof.
  split; [by vm_compute|].
  destruct (advanceOne num0 env0 (graph_of [("s", self_node)])) as [[[g' b]|code] c] eqn:E;
    [|vm_compute in E; discriminate E].
  exact (self_condition_never_runs num0 env0 (graph_of [("s", self_node)]) g' b c "s" self_node self_condition
           eq_refl eq_refl eq_refl eq_refl E).
Defined.
