(* ===== verification/TaskGraphStore.v ===== *)
(** * Task graphs: the store

    Every operation of the graph store leaves well-formed graphs and is atomic with respect to its
    file; cancelling a graph settles exactly the nodes that were not settled. *)

From Stdlib Require Import ZArith QArith Lia String Ascii.
From stdpp Require Import base gmap sets list strings relations.
From S2P Require Import Prelude OMap Json Store TaskGraph TaskGraphFacts TaskGraphLive.
#[local] Open Scope stdpp_scope.
Import TaskGraph.
Abbreviation State := (omap Graph).

Section graph_store.
Context (num_str : num → string) (iso_of : string → option string).

Record graph_ok (g : Graph) : Prop := MkGraphOk {
  go_nodes : nodes_ok (nodes g);
  go_status : inb (g_status g) GRAPH_STATUSES = true;
}.

Record graphs_wf (st : State) : Prop := MkGraphsWf {
  gw_keys : NoDup (om_keys st);
  gw_graph : ∀ k g, om_get k st = Some g → g_id g = k ∧ graph_ok g;
}.

Inductive Op : Type :=
| OpCreate (input : jval)
| OpDelete (graphId : jval)
| OpUpdate (graphId nodeId patch : jval)
| OpAdvance (graphId : jval).

(** What a call leaves in memory and on disk; the value it returns is dropped. *)
Definition forget {A} (o : Out A) : step_out State State unit :=
  StepOut (let* _ := so_res (o_step o) in Ok tt) (so_mem (o_step o)) (so_disk (o_step o)).

Definition exec (op : Env * Op) (st : State) : step_out State State unit :=
  match op.2 with
  | OpCreate input => forget (createGraph num_str iso_of op.1 input st)
  | OpDelete i => forget (deleteGraph op.1 i st)
  | OpUpdate i k patch => forget (updateNode num_str op.1 i k patch st)
  | OpAdvance i => forget (advanceGraph num_str op.1 i st)
  end.

(** *** Every operation stores well-formed graphs *)

Lemma normalizeGraph_ok now new raw g : normalizeGraph num_str iso_of now new raw = Ok g → graph_ok g.
Proof.
  unfold normalizeGraph. intros H. destruct (normalizeText (prop raw "owner") 255); [|discriminate H].
  destruct (normalizeText (prop raw "label") 4000); [|discriminate H].
  apply bind_Ok in H as (s' & Hs & H). apply bind_Ok in H as (ns & Hn & [= <-]).
  split; simpl; [by eapply normalizeNodes_ok|]. unfold normalizeGraphStatus in Hs.
  destruct (inb _ GRAPH_STATUSES) eqn:E; [|discriminate Hs]. by injection Hs as <-.
Qed.

Lemma cloneGraph_ok g : graph_ok g → graph_ok (cloneGraph g).
Proof. intros [Hn Hs]. split; [|done]. eapply nodes_ok_shapes; [done|apply clone_shapes]. Qed.

Lemma cloneGraphs_wf st : graphs_wf st → graphs_wf (cloneGraphs st).
Proof.
  intros [Hk Hg]. split; [by rewrite (om_keys_fmap cloneGraph)|]. intros k g.
  unfold cloneGraphs. rewrite (om_get_fmap cloneGraph). destruct (om_get k st) as [g0|] eqn:E; [|done].
  intros [= <-]. destruct (Hg _ _ E) as [? ?]. split; [done|by apply cloneGraph_ok].
Qed.

Lemma obj_set_wf st k g : graphs_wf st → g_id g = k → graph_ok g → graphs_wf (obj_set k g st).
Proof.
  intros [Hk Hg] Hi Hok. split; [by apply om_nodup_obj_set|]. intros k' g'. rewrite om_get_obj_set.
  destruct (String.eqb_spec k k') as [<-|]; [by intros [= <-]|apply Hg].
Qed.

Lemma cancelNodes_shapes gid at_ ns c : same_shapes ns (cancelNodes gid at_ ns c).1.
Proof.
  revert c. induction ns as [|[k n] ns IH]; intros c; [apply same_shapes_refl|]. cbn [cancelNodes].
  set (r := if isTerminalNodeStatus (status n) then (n, c) else _).
  assert (Hs : same_shape n r.1) by (unfold r; case_match; [apply same_shape_refl|by split]).
  destruct r as [n1 c1]. specialize (IH c1). destruct (cancelNodes gid at_ ns c1) as [ns' c2]. simpl in *.
  destruct IH as [Hk Hn]. split; [unfold om_keys in *; csimpl; by f_equal|]. intros j. simpl.
  destruct (String.eqb j k); [done|apply Hn].
Qed.

Lemma updateNode_status_shape e g patch hr v n ch c n' b c' :
  updateNode_status e g patch hr v n ch c = Ok (n', b, c') → same_shape n n'.
Proof.
  unfold updateNode_status. intros H. apply bind_Ok in H as (s & Hs & H).
  apply normalizeNodeStatus_Ok in Hs.
  destruct (if String.eqb s (status n) then _ else _) as [n1 ch1] eqn:E1.
  assert (S1 : same_shape n n1) by (destruct (String.eqb s (status n)); injection E1 as <- _; by split).
  clear E1. destruct (if String.eqb s "active" && _ then _ else _) as [[n2 ch2] c2] eqn:E2.
  assert (S2 : same_shape n n2) by (destruct (_ && _); injection E2 as <- _ _; destruct S1; by split).
  clear E2. destruct (if String.eqb s "dispatched" && _ then _ else _) as [[n3 ch3] c3] eqn:E3.
  assert (S3 : same_shape n n3) by (destruct (_ && _); injection E3 as <- _ _; destruct S2; by split).
  clear E3. destruct (isTerminalNodeStatus s); [|by injection H as <- _ _].
  destruct (if is_Some_b _ then _ else _) as [n4 c4] eqn:E4.
  assert (S4 : same_shape n n4) by (destruct (is_Some_b _); injection E4 as <- _; destruct S3; by split).
  clear E4. injection H as <- _ _.
  destruct (String.eqb s "complete" && hr), (String.eqb s "failed"); destruct S4; by split.
Qed.

Lemma updateNode_apply_shape e g patch n n' b c :
  updateNode_apply num_str e g patch n = Ok (n', b, c) → same_shape n n'.
Proof.
  unfold updateNode_apply. intros H. destruct (negb _ && _ && _); [discriminate H|].
  apply bind_Ok in H as (v & _ & H). apply bind_Ok in H as ([[n1 b1] c1] & H1 & H).
  assert (Hs : same_shape n n1).
  { destruct (has_own patch "status"); [by eapply updateNode_status_shape|]. injection H1 as <- _ _.
    apply same_shape_refl. }
  eapply same_shape_trans; [exact Hs|].
  destruct (has_own patch "result" && _), (has_own patch "error"); injection H as <- _ _; by split.
Qed.

Lemma finalized_status gq g' :
  finalized gq g' → inb (g_status gq) GRAPH_STATUSES = true → inb (g_status g') GRAPH_STATUSES = true.
Proof. intros (_ & _ & ->) H. case_match; [done|]. by case_match. Qed.

Lemma advanceOne_ok e g g' b c :
  graph_ok g → advanceOne num_str e g = (Ok (g', b), c) → graph_ok g' ∧ g_id g' = g_id g.
Proof.
  intros [Hn Hs] H. pose proof (advanceOne_spec num_str e g) as Hsp. rewrite H in Hsp.
  destruct Hsp as (gq & Hr & _ & Hf). pose proof (rtc_sched_later _ _ _ Hr) as (Hid&_&_&Hgs&Hsh&_). simpl in *.
  split; [split|].
  - rewrite (proj1 Hf). by eapply nodes_ok_shapes.
  - eapply finalized_status; [done|]. by rewrite Hgs.
  - rewrite <-Hid. apply Hf.
Qed.

(** *** Every operation keeps the invariant and is atomic *)

(** Either nothing happened, or well-formed graphs were put in memory and on disk together. *)
Definition legal {A} (e : Env) (st : State) (o : Out A) : Prop :=
  (so_mem (o_step o) = st ∧ so_disk (o_step o) = None) ∨
  (graphs_wf (so_mem (o_step o)) ∧ is_ok (so_res (o_step o)) = true ∧
   so_disk (o_step o) = match save e with Some _ => Some (cloneGraphs (so_mem (o_step o))) | None => None end).

Lemma graph_unchanged_legal {A} e st (a : A) : legal e st (unchanged a st).
Proof. by left. Qed.

Lemma graph_raise_legal {A} e st c ms : legal e st (@raise A c st ms).
Proof. by left. Qed.

Lemma graph_commit_legal {A} e st next (a : A) c : graphs_wf next → legal e st (commitGraphs e st next a c).
Proof. intros Hwf. unfold commitGraphs. destruct (persist e next); [by right|by left]. Qed.

Lemma createGraph_legal e input st : graphs_wf st → legal e st (createGraph num_str iso_of e input st).
Proof.
  intros Hwf. unfold createGraph. destruct (normalizeGraph _ _ _ _ _) as [g|] eqn:Hg; [|apply graph_raise_legal].
  destruct (om_has _ _); [apply graph_raise_legal|]. apply graph_commit_legal, obj_set_wf; [by apply cloneGraphs_wf|done|].
  by eapply normalizeGraph_ok.
Qed.

Lemma deleteGraph_legal e i st : graphs_wf st → legal e st (deleteGraph e i st).
Proof.
  intros Hwf. unfold deleteGraph. destruct (normalizeText i 255) as [i'|]; [|apply graph_unchanged_legal].
  destruct (om_get i' st); [|apply graph_unchanged_legal].
  destruct (om_get i' (cloneGraphs st)) as [gr|] eqn:Hg; [|apply graph_unchanged_legal].
  apply cloneGraphs_wf in Hwf. destruct (gw_graph _ Hwf _ _ Hg) as [Hid [Hn Hs]].
  destruct (String.eqb _ _); [apply graph_unchanged_legal|]. simpl.
  match goal with |- context [cancelNodes ?a ?b ?c ?d] =>
    pose proof (cancelNodes_shapes a b c d) as Hsh; destruct (cancelNodes a b c d) as [ns c2] end.
  apply graph_commit_legal, obj_set_wf; [done|done|]. split; [by eapply nodes_ok_shapes|done].
Qed.

Lemma updateNode_legal e i k patch st : graphs_wf st → legal e st (updateNode num_str e i k patch st).
Proof.
  intros Hwf. unfold updateNode. destruct (match normalizeText i 255 with Some _ => _ | None => _ end) as [i'|];
    [|apply graph_raise_legal].
  apply cloneGraphs_wf in Hwf. destruct (om_get i' (cloneGraphs st)) as [g|] eqn:Hg; [|apply graph_raise_legal].
  destruct (gw_graph _ Hwf _ _ Hg) as [Hid [Hn Hs]].
  destruct (normalizeText k 255) as [k'|]; [|apply graph_raise_legal].
  destruct (om_get k' (nodes g)) as [n|] eqn:Hk; simpl; [|apply graph_raise_legal].
  destruct (updateNode_apply _ _ _ _ _) as [[[n' ch] c]|] eqn:Hu; [|apply graph_raise_legal].
  apply updateNode_apply_shape in Hu. destruct ch; simpl; [|apply graph_unchanged_legal].
  apply graph_commit_legal, obj_set_wf; [done|done|]. split; [|done].
  eapply nodes_ok_shapes; [exact Hn|by eapply same_shapes_set].
Qed.

Lemma advanceGraph_legal e i st : graphs_wf st → legal e st (advanceGraph num_str e i st).
Proof.
  intros Hwf. unfold advanceGraph. destruct (match normalizeText i 255 with Some _ => _ | None => _ end) as [i'|];
    [|apply graph_unchanged_legal].
  apply cloneGraphs_wf in Hwf. destruct (om_get i' (cloneGraphs st)) as [g|] eqn:Hg; [|apply graph_unchanged_legal].
  destruct (gw_graph _ Hwf _ _ Hg) as [Hid Hok]. destruct (negb _); [apply graph_unchanged_legal|].
  destruct (advanceOne num_str e g) as [[[g' [|]]|code] c] eqn:Ha;
    [|apply graph_unchanged_legal|apply graph_raise_legal].
  apply advanceOne_ok in Ha as [Hok' Hid']; [|done]. apply graph_commit_legal, obj_set_wf; [done|congruence|done].
Qed.

Lemma graph_exec_legal op st :
  graphs_wf st →
  (so_mem (exec op st) = st ∧ so_disk (exec op st) = None) ∨
  (graphs_wf (so_mem (exec op st)) ∧ is_ok (so_res (exec op st)) = true ∧
   so_disk (exec op st) = match save op.1 with Some _ => Some (cloneGraphs (so_mem (exec op st))) | None => None end).
Proof.
  assert (Hf : ∀ A e (o : Out A), legal e st o →
    (so_mem (forget o) = st ∧ so_disk (forget o) = None) ∨
    (graphs_wf (so_mem (forget o)) ∧ is_ok (so_res (forget o)) = true ∧
     so_disk (forget o) = match save e with Some _ => Some (cloneGraphs (so_mem (forget o))) | None => None end)).
  { intros A e o [H|(H1 & H2 & H3)]; [by left|right]. split_and!; [done| |done].
    simpl. by destruct (so_res (o_step o)). }
  intros Hwf. destruct op as [e []]; unfold exec; cbn [fst snd]; apply Hf;
    [by apply createGraph_legal|by apply deleteGraph_legal|by apply updateNode_legal|by apply advanceGraph_legal].
Qed.

(** The store was built with a [save]. *)
Definition saves (op : Env * Op) (st : State) : Prop := is_Some (save op.1).

#[export] Program Instance graph_store : Store State State (Env * Op) unit := {|
  st_image := cloneGraphs;
  st_wf := graphs_wf;
  st_pre := saves;
  st_exec := exec;
|}.
Next Obligation. intros op st Hwf _. by destruct (graph_exec_legal op st Hwf) as [[-> _]|[? _]]. Qed.
Next Obligation.
  intros op st Hwf [f Hf]. unfold atomic.
  destruct (graph_exec_legal op st Hwf) as [[-> ->]|(_ & -> & ->)]; [done|]. by rewrite Hf.
Qed.

End graph_store.

(** Whatever sequence of creations, cancellations, node updates and scheduling calls is made,
    and whichever saves or dispatches fail on the way, the graphs in memory stay well formed (nodes
    filed under their ids, statuses declared, dependencies and condition references present, the
    dependency relation acyclic) and the file holds exactly their copy. *)
Theorem graph_store_invariant num_str iso_of w w' :
  rtc (@st_step _ _ _ _ (graph_store num_str iso_of)) w w' →
  graphs_wf (w_mem w) → w_disk w = cloneGraphs (w_mem w) →
  graphs_wf (w_mem w') ∧ w_disk w' = cloneGraphs (w_mem w').
Proof. intros Hr Hwf Hs. by apply (@run_synced _ _ _ _ (graph_store num_str iso_of) w w'). Qed.

Definition create0 : Env * Op :=
  (env0, OpCreate (JObj [("owner", JStr "boss"); ("label", JStr "release"); ("nodes", diamond_json)])).
Definition advance0 : Env * Op := (env0, OpAdvance (JStr "graph_1")).
Definition exec0 := exec num0 iso0.

Lemma graph_store_invariant_witness :
  let w0 := World [] [] in
  let w1 := apply_out w0 (exec0 create0 []) in
  let w2 := apply_out w1 (exec0 advance0 (w_mem w1)) in
  (match om_get "graph_1" (w_mem w2) with Some g => status_of g "a" | None => None end) = Some "dispatched" ∧
  graphs_wf (w_mem w2) ∧ w_disk w2 = cloneGraphs (w_mem w2).
Proof.
  intros w0 w1 w2. split; [by vm_compute|].
  apply (graph_store_invariant num0 iso0 w0 w2); [|by split; [constructor|]|done].
  apply (rtc_l _ _ w1); [exact (@st_step_intro _ _ _ _ (graph_store num0 iso0) create0 w0 (ex_intro _ _ eq_refl))|].
  apply rtc_once. exact (@st_step_intro _ _ _ _ (graph_store num0 iso0) advance0 w1 (ex_intro _ _ eq_refl)).
Defined.

(** *** Cancelling a graph *)

(** The events [deleteGraph] queues for its nodes: one per node that was not settled. *)
Definition cancel_events (gid : string) (at_ : option string) (ns : omap Node) : list Event :=
  List.map (λ n, EvNodeCompleted gid (id n) "cancelled" (truthy_opt (error n)) at_)
    (List.filter (λ n, negb (isTerminalNodeStatus (status n))) (om_vals ns)).

Lemma cancelNodes_spec gid at_ ns c :
  cancelNodes gid at_ ns c =
    (prod_map (λ k, k) (λ n, if isTerminalNodeStatus (status n) then n
                            else n <| status := "cancelled" |> <| completedAt := at_ |>) <$> ns,
     MkCtx (tick c) (sent c) (events c ++ cancel_events gid at_ ns)).
Proof.
  revert c. induction ns as [|[k n] ns IH]; intros c.
  { simpl. unfold cancel_events. simpl. rewrite app_nil_r. by destruct c. }
  cbn [cancelNodes]. unfold cancel_events in *. unfold om_vals in *. csimpl.
  destruct (isTerminalNodeStatus (status n)); simpl; rewrite IH; [done|]. simpl. by rewrite <-app_assoc.
Qed.

(** Cancelling a graph that is not already cancelled, when the save succeeds: the graph and
    every node that was not settled become cancelled at the same instant, settled nodes and all
    other graphs are untouched, no message is sent, and one completion event per cancelled node is
    emitted, followed by the graph's. *)
Theorem delete_cancels_exactly e i g st :
  normalizeText (JStr i) 255 = Some i →
  om_get i (cloneGraphs st) = Some g → g_status g ≠ "cancelled" →
  let o := deleteGraph e (JStr i) st in
  is_ok (so_res (o_step o)) = true →
  ∃ g', so_mem (o_step o) = obj_set i g' (cloneGraphs st) ∧
    g_status g' = "cancelled" ∧ g_completedAt g' = Some (now e 0) ∧
    (∀ k, om_get k (nodes g') =
       (λ n, if isTerminalNodeStatus (status n) then n
             else n <| status := "cancelled" |> <| completedAt := Some (now e 0) |>) <$> om_get k (nodes g)) ∧
    o_sent o = [] ∧
    o_events o = cancel_events (g_id g) (Some (now e 0)) (nodes g) ++
                 [EvGraphCompleted (g_id g) "cancelled" (Some (now e 0))].
Proof.
  intros Hi Hg Hs. unfold deleteGraph. rewrite Hi.
  destruct (om_get i st) as [g0|] eqn:E;
    [|unfold cloneGraphs in Hg; rewrite (om_get_fmap cloneGraph), E in Hg; discriminate Hg].
  rewrite Hg. apply String.eqb_neq in Hs. rewrite Hs. simpl. rewrite !cancelNodes_spec. simpl.
  unfold commitGraphs. destruct (persist e _); [|intros H; discriminate H]. intros _. simpl.
  eexists. split_and!; try reflexivity. intros k. simpl. apply om_get_fmap.
Qed.

Lemma delete_cancels_exactly_witness :
  let st := [("graph_1", graph_of diamond)] in
  let o := deleteGraph env0 (JStr "graph_1") st in
  length (o_events o) = 5%nat ∧
  ∃ g', so_mem (o_step o) = obj_set "graph_1" g' (cloneGraphs st) ∧ g_status g' = "cancelled".
Proof.
  intros st o. split; [by vm_compute|].
  destruct (delete_cancels_exactly env0 "graph_1" (cloneGraph (graph_of diamond)) st
              eq_refl eq_refl ltac:(discriminate) eq_refl) as (g' & Hm & Hs & _).
  exists g'. split; [exact Hm|exact Hs].
Defined.
