(* ===== verification/AlertStore.v ===== *)
(** * Alerts ([lib/alert-store.js]): data and operations

    Alerts are kept in a map by id, with an index from the dedupe key of every alert that is not
    resolved to its id. [AlertFacts] holds the theorems. A dedupe key is a string; times are
    millisecond counts; the detail of an alert is a JSON value. *)

From Stdlib Require Import ZArith QArith Lia String Ascii.
From stdpp Require Import base list strings relations.
From S2P Require Import Prelude OMap Json Store.
#[local] Open Scope stdpp_scope.

Module AlertStore.

Definition STATUSES : list string := ["open"; "acknowledged"; "assigned"; "resolved"; "suppressed"].
Definition SEVERITIES : list string := ["info"; "warning"; "critical"].
Definition SOURCES : list string := ["backend"; "bridge"; "supervisor"; "system"].

Definition TRANSITIONS (from : string) : list string :=
  if String.eqb from "open" then ["acknowledged"; "assigned"; "resolved"; "suppressed"]
  else if String.eqb from "acknowledged" then ["assigned"; "resolved"]
  else if String.eqb from "assigned" then ["resolved"]
  else if String.eqb from "suppressed" then ["open"; "assigned"]
  else [].

Definition ALERT_REOPEN_WINDOW_MS : Z := 300000.
Definition ALERT_RESOLVED_TTL_MS : Z := 7 * 86400000.
Definition ALERT_SUPPRESS_DEFAULT_MS : Z := 86400000.
Definition MAX_ACTIVE_ALERTS : nat := 10 * 10 * 10.
Definition MAX_PAYLOAD_SIZE : nat := 64 * 64.

Record Note : Type := MkNote { n_author : string; n_text : string; n_ts : Z }.

Record Alert : Type := MkAlert {
  id : string; alertType : option string; dedupeKey : string; severity : string; source : string;
  sourceAgent : option string; summary : option string; detail : string; occurrences : Z;
  firstSeenAt : Z; lastSeenAt : Z; lastPayload : option string; status : string;
  assignee : option string; owner : option string; runbook : option string; impact : option string;
  recoveryCondition : option string; correlation : list (string * jval); actionable : bool;
  originalSeverity : option string; missingActionableFields : list string; notes : list Note;
  linkedTaskId : option string; suppressUntil : option Z; tags : list string;
  resolvedAt : option Z; resolvedBy : option string;
}.

#[export] Instance Alert_settable : Settable Alert := λ a,
  MkAlert (id a) (alertType a) (dedupeKey a) (severity a) (source a) (sourceAgent a) (summary a)
    (detail a) (occurrences a) (firstSeenAt a) (lastSeenAt a) (lastPayload a) (status a) (assignee a)
    (owner a) (runbook a) (impact a) (recoveryCondition a) (correlation a) (actionable a)
    (originalSeverity a) (missingActionableFields a) (notes a) (linkedTaskId a) (suppressUntil a)
    (tags a) (resolvedAt a) (resolvedBy a).

Record State : Type := MkState { alerts : omap Alert; dedupeIndex : omap string }.
#[export] Instance State_settable : Settable State := λ s, MkState (alerts s) (dedupeIndex s).

Section model.
Context (num_str : num → string).

(** ** Normalisers *)

Definition normalizeText (v : jval) (maxLen : nat) : option string := text_of v maxLen.

Definition normalizeSeverity (v : jval) : string :=
  match v with
  | JStr s => let v := lower (trim s) in if inb v SEVERITIES then v else "info"
  | _ => "info"
  end.

Definition normalizeSource (v : jval) : string :=
  match v with
  | JStr s => let v := lower (trim s) in if inb v SOURCES then v else "system"
  | _ => "system"
  end.

Definition truncatePayload (payload : jval) : option string :=
  match payload with
  | JUndef | JNull => None
  | JStr s => Some (slice_to MAX_PAYLOAD_SIZE s)
  | v => slice_to MAX_PAYLOAD_SIZE <$> stringify num_str v
  end.

(** [null] for what is dropped. *)
Fixpoint normalizeCorrelationValue (v : jval) : jval :=
  match v with
  | JStr s => match normalizeText (JStr s) 255 with Some t => JStr t | None => JNull end
  | JNum n => if is_finite n then JNum n else JNull
  | JBool b => JBool b
  | JArr l =>
      match firstn 50 (List.filter (λ x, negb (is_nullish x)) (List.map normalizeCorrelationValue l)) with
      | [] => JNull
      | arr => JArr arr
      end
  | JObj o =>
      let out :=
        (fix go (fuel : nat) (o : list (string * jval)) (out : omap jval) : omap jval :=
          match fuel, o with
          | S fuel', (key, item) :: o' =>
              go fuel' o' (match normalizeText (JStr key) 64 with
                           | None => out
                           | Some safeKey =>
                               let safeValue := normalizeCorrelationValue item in
                               if is_nullish safeValue then out else obj_set safeKey safeValue out
                           end)
          | _, _ => out
          end) 20%nat o [] in
      match out with [] => JNull | _ => JObj out end
  | JUndef | JNull | JFunc _ => JNull
  end.

(** [if (v && out[k] === undefined) out[k] = v] *)
Definition fill (k : string) (v : option string) (out : omap jval) : omap jval :=
  match v with
  | Some s => match prop_in k out with JUndef => obj_set k (JStr s) out | _ => out end
  | None => out
  end.

Definition normalizeCorrelation (v alertType dedupeKey sourceAgent : jval) : omap jval :=
  let base := match v with
              | JObj _ => match normalizeCorrelationValue v with JObj o => o | _ => [] end
              | _ => []
              end in
  let dk := normalizeText dedupeKey 255 in
  let sa := normalizeText sourceAgent 128 in
  let at_ := normalizeText alertType 128 in
  fill "alertType" at_ (fill "sourceAgent" sa (fill "dedupeKey" dk base)).

Record ActionInput : Type := MkActionInput {
  in_alertType : jval; in_dedupeKey : jval; in_severity : jval; in_sourceAgent : jval; in_owner : jval;
  in_assignee : jval; in_runbook : jval; in_impact : jval; in_recoveryCondition : jval;
  in_exitCondition : jval; in_correlation : jval;
}.

Record Actionability : Type := MkActionability {
  ac_severity : string; ac_originalSeverity : option string; ac_actionable : bool;
  ac_missing : list string; ac_owner : option string; ac_runbook : option string;
  ac_impact : option string; ac_recoveryCondition : option string; ac_correlation : omap jval;
  ac_assignee : option string;
}.

Definition pages (severity : string) : bool := String.eqb severity "warning" || String.eqb severity "critical".

(** [if (absent) missing.push(name)] *)
Definition push_if (absent : bool) (name : string) (l : list string) : list string :=
  if absent then l ++ [name] else l.

Definition is_None_b {A} (o : option A) : bool := negb (is_Some_b o).

Definition buildActionability (i : ActionInput) : Actionability :=
  let requested := normalizeSeverity (in_severity i) in
  let owner := normalizeText (in_owner i) 128 in
  let assignee := normalizeText (in_assignee i) 128 in
  let runbook := normalizeText (in_runbook i) 512 in
  let impact := normalizeText (in_impact i) 1024 in
  let recovery := normalizeText (nullish_or (in_recoveryCondition i) (in_exitCondition i)) 1024 in
  let correlation := normalizeCorrelation (in_correlation i) (in_alertType i) (in_dedupeKey i) (in_sourceAgent i) in
  let paging := pages requested in
  let missing :=
    if paging then
      push_if (match correlation with [] => true | _ => false end) "correlation"
        (push_if (is_None_b recovery) "recoveryCondition"
           (push_if (is_None_b impact) "impact"
              (push_if (is_None_b runbook) "runbook"
                 (push_if (is_None_b owner && is_None_b assignee) "owner" []))))
    else [] in
  let actionable := paging && match missing with [] => true | _ => false end in
  MkActionability
    (if paging && negb actionable then "info" else requested)
    (if paging && negb actionable then Some requested else None)
    actionable missing owner runbook impact recovery correlation assignee.

(** ** The store *)

Definition resolved (a : Alert) : bool := String.eqb (status a) "resolved".

Definition load (initialData : list Alert) : State :=
  foldl (λ st a,
    if truthy (id a) then
      MkState (om_set (id a) a (alerts st))
        (if negb (resolved a) && truthy (dedupeKey a) then om_set (dedupeKey a) (id a) (dedupeIndex st)
         else dedupeIndex st)
    else st) (MkState [] []) initialData.

Definition dump (st : State) : list Alert := om_vals (alerts st).

(** What a call is given: the clock at its successive readings, the generated id, the saver. *)
Record Env : Type := MkEnv { now : nat → Z; newId : string; save : list Alert → save_outcome }.

Definition persist (e : Env) (st : State) : result unit :=
  match save e (dump st) with
  | SaveDone => Ok tt
  | SaveFalse | SaveThrew => Throw "persistence_failed"
  end.

Record Event : Type := MkEvent { ev_name : string; ev_alert : Alert }.

(** What a mutator returns: the value, the events, and whether to save; and the state it leaves. *)
Record Outcome (A : Type) : Type := MkOutcome {
  oc_state : State; oc_value : A; oc_events : list Event; oc_persist : bool;
}.
Arguments MkOutcome {A} oc_state oc_value oc_events oc_persist.
Arguments oc_state {A} o.
Arguments oc_value {A} o.
Arguments oc_events {A} o.
Arguments oc_persist {A} o.

(** What a call leaves: result, memory, image written, events emitted. *)
Record Out (A : Type) : Type := MkOut { o_step : step_out State (list Alert) A; o_events : list Event }.
Arguments MkOut {A} o_step o_events.
Arguments o_step {A} o.
Arguments o_events {A} o.

(** [commitMutation]: save the new state, or put the snapshot back; events go out only after a
    successful save. *)
Definition commitMutation {A} (e : Env) (snapshot : State) (o : Outcome A) : Out A :=
  if oc_persist o then
    match persist e (oc_state o) with
    | Ok _ => MkOut (StepOut (Ok (oc_value o)) (oc_state o) (Some (dump (oc_state o)))) (oc_events o)
    | Throw c => MkOut (StepOut (Throw c) snapshot None) []
    end
  else MkOut (StepOut (Ok (oc_value o)) (oc_state o) None) (oc_events o).

Definition raise {A} (c : string) (st : State) : Out A := MkOut (StepOut (Throw c) st None) [].
Definition unchanged {A} (a : A) (st : State) : Out A := MkOut (StepOut (Ok a) st None) [].

Definition setAlert (a : Alert) (st : State) : State := st <| alerts := om_set (id a) a (alerts st) |>.

(** [if (o) ...] on a number that may be absent: absent and 0 are falsy. *)
Definition truthy_ms (o : option Z) : option Z :=
  match o with Some 0 => None | _ => o end.

(** [alert.status = 'resolved'; ...] as recovery and pruning write it. *)
Definition resolvedBySystem (text : string) (ts : Z) (a : Alert) : Alert :=
  a <| status := "resolved" |> <| resolvedAt := Some ts |> <| resolvedBy := Some "system" |>
    <| notes := notes a ++ [MkNote "system" text ts] |>.

Record IngestArgs : Type := MkIngest {
  i_alertType : jval; i_dedupeKey : string; i_severity : jval; i_source : jval; i_sourceAgent : jval;
  i_summary : jval; i_detail : jval; i_tags : jval; i_owner : jval; i_assignee : jval; i_runbook : jval;
  i_impact : jval; i_recoveryCondition : jval; i_exitCondition : jval; i_correlation : jval;
}.

(** A repeated occurrence of an alert that is still active. *)
Definition bump (b : IngestArgs) (ts : Z) (a : Alert) : Alert :=
  let a1 := a <| occurrences := occurrences a + 1 |> <| lastSeenAt := ts |>
              <| lastPayload := truncatePayload (i_detail b) |>
              <| summary := match normalizeText (i_summary b) 1024 with Some s => Some s | None => summary a end |> in
  match truthy_ms (suppressUntil a1) with
  | Some until =>
      if String.eqb (status a1) "suppressed" && (until <? ts)
      then a1 <| status := "open" |> <| suppressUntil := None |> else a1
  | None => a1
  end.

(** A new occurrence of an alert resolved a short while ago. *)
Definition reopen (b : IngestArgs) (ts : Z) (a : Alert) : Alert :=
  a <| status := "open" |> <| resolvedAt := None |> <| resolvedBy := None |>
    <| occurrences := occurrences a + 1 |> <| lastSeenAt := ts |>
    <| lastPayload := truncatePayload (i_detail b) |>
    <| summary := match normalizeText (i_summary b) 1024 with Some s => Some s | None => summary a end |>.

Definition recentlyResolved (key : string) (ts : Z) (a : Alert) : bool :=
  String.eqb (dedupeKey a) key && resolved a &&
  match truthy_ms (resolvedAt a) with Some r => ts - r <? ALERT_REOPEN_WINDOW_MS | None => false end.

(** [sort((a, b) => a.firstSeenAt - b.firstSeenAt)[0]]: the sort is stable, so the first of the
    oldest. *)
Fixpoint oldest (l : list Alert) : option Alert :=
  match l with
  | [] => None
  | a :: l' => match oldest l' with
               | Some b => if firstSeenAt b <? firstSeenAt a then Some b else Some a
               | None => Some a
               end
  end.

(** The cap: a full store resolves its oldest informational alert. *)
Definition enforceCap (ts : Z) (st : State) : State * list Event :=
  let active := List.filter (λ a, negb (resolved a)) (dump st) in
  if (length active <? MAX_ACTIVE_ALERTS)%nat then (st, []) else
  match oldest (List.filter (λ a, String.eqb (severity a) "info") active) with
  | None => (st, [])
  | Some a =>
      let a' := resolvedBySystem "auto-pruned: cap exceeded" ts a in
      (setAlert a' st <| dedupeIndex := om_del (dedupeKey a) (dedupeIndex st) |>, [MkEvent "alert_resolved" a'])
  end.

Definition normalizeTags (l : list jval) : list string :=
  firstn 20 (flat_map (λ t, match normalizeText t 64 with Some s => [s] | None => [] end) l).

Definition newAlert (e : Env) (b : IngestArgs) (ts : Z) (ac : Actionability) : Alert :=
  MkAlert (newId e) (normalizeText (i_alertType b) 128) (i_dedupeKey b) (ac_severity ac)
    (normalizeSource (i_source b)) (normalizeText (i_sourceAgent b) 128) (normalizeText (i_summary b) 1024)
    (default "" (truthy_opt (truncatePayload (i_detail b)))) 1 ts ts (truncatePayload (i_detail b)) "open"
    (ac_assignee ac) (ac_owner ac) (ac_runbook ac) (ac_impact ac) (ac_recoveryCondition ac)
    (ac_correlation ac) (ac_actionable ac) (ac_originalSeverity ac) (ac_missing ac) [] None None
    (match i_tags b with JArr l => normalizeTags l | _ => [] end) None None.

(** ** Operations *)

Definition ingest (e : Env) (b : IngestArgs) (st : State) : Out (Alert * bool) :=
  if negb (to_bool (i_alertType b)) then raise "bad_request" st else
  if negb (truthy (i_dedupeKey b)) then raise "bad_request" st else
  if negb (to_bool (i_summary b)) then raise "bad_request" st else
  let ts := now e 0 in
  let ac := buildActionability (MkActionInput (i_alertType b) (JStr (i_dedupeKey b)) (i_severity b)
      (i_sourceAgent b) (i_owner b) (i_assignee b) (i_runbook b) (i_impact b) (i_recoveryCondition b)
      (i_exitCondition b) (i_correlation b)) in
  match (match truthy_opt (om_get (i_dedupeKey b) (dedupeIndex st)) with
         | Some i => om_get i (alerts st)
         | None => None
         end) with
  | Some existing =>
      let a := bump b ts existing in
      commitMutation e st (MkOutcome (setAlert a st) (a, false) [MkEvent "alert_updated" a] true)
  | None =>
  match List.find (recentlyResolved (i_dedupeKey b) ts) (dump st) with
  | Some found =>
      let a := reopen b ts found in
      commitMutation e st (MkOutcome
        (setAlert a st <| dedupeIndex := om_set (i_dedupeKey b) (id a) (dedupeIndex st) |>)
        (a, false) [MkEvent "alert_updated" a] true)
  | None =>
      let '(st1, events) := enforceCap ts st in
      let a := newAlert e b ts ac in
      commitMutation e st (MkOutcome
        (setAlert a st1 <| dedupeIndex := om_set (i_dedupeKey b) (id a) (dedupeIndex st1) |>)
        (a, true) (events ++ [MkEvent "alert_created" a]) true)
  end end.

Definition recovered : string := "auto-resolved on recovery".

Definition autoResolve (e : Env) (key : string) (st : State) : Out (option Alert) :=
  match truthy_opt (om_get key (dedupeIndex st)) with
  | None => unchanged None st
  | Some i =>
      match om_get i (alerts st) with
      | None => unchanged None st
      | Some a =>
          if resolved a then unchanged None st else
          let a' := resolvedBySystem recovered (now e 0) a in
          commitMutation e st (MkOutcome
            (setAlert a' st <| dedupeIndex := om_del key (dedupeIndex st) |>)
            (Some a') [MkEvent "alert_resolved" a'] true)
      end
  end.

(** The loop over the matches; [n] counts the clock readings. *)
Fixpoint resolveMatches (e : Env) (n : nat) (matches : list (string * string)) (st : State)
    (out : list Alert) : State * list Alert :=
  match matches with
  | [] => (st, out)
  | (key, i) :: rest =>
      match om_get i (alerts st) with
      | None => resolveMatches e n rest st out
      | Some a =>
          if resolved a then resolveMatches e n rest st out else
          let a' := resolvedBySystem recovered (now e n) a in
          resolveMatches e (S n) rest
            (setAlert a' st <| dedupeIndex := om_del key (dedupeIndex st) |>) (out ++ [a'])
      end
  end.

Definition autoResolveByPrefix (e : Env) (p : string) (st : State) : Out (list Alert) :=
  match List.filter (λ m, String.prefix p m.1) (dedupeIndex st) with
  | [] => unchanged [] st
  | matches =>
      let '(st', out) := resolveMatches e 0 matches st [] in
      commitMutation e st (MkOutcome st' out (List.map (MkEvent "alert_resolved") out)
        (match out with [] => false | _ => true end))
  end.

Definition getAlert (k : string) (st : State) : option Alert := om_get k (alerts st).

(** The metadata of a transition: who acts, the new assignee, and until when to suppress. *)
Record Meta : Type := MkMeta { m_actor : option string; m_assignee : jval; m_suppressUntil : option Z }.

Definition applyTransition (ts : Z) (newStatus : string) (meta : Meta) (a : Alert) : Alert :=
  let a := a <| status := newStatus |> in
  let a := if String.eqb newStatus "resolved"
           then a <| resolvedAt := Some ts |> <| resolvedBy := Some (default "operator" (truthy_opt (m_actor meta))) |>
           else a in
  let a := if String.eqb newStatus "assigned" && to_bool (m_assignee meta)
           then a <| assignee := normalizeText (m_assignee meta) 128 |> else a in
  let a := if String.eqb newStatus "suppressed"
           then a <| suppressUntil := Some (default (ts + ALERT_SUPPRESS_DEFAULT_MS) (truthy_ms (m_suppressUntil meta))) |>
           else a in
  if String.eqb newStatus "open" && is_Some_b (truthy_ms (suppressUntil a))
  then a <| suppressUntil := None |> else a.

Definition transition (e : Env) (k newStatus : string) (meta : Meta) (st : State) : Out Alert :=
  match om_get k (alerts st) with
  | None => raise "not_found" st
  | Some a =>
      if negb (inb newStatus (TRANSITIONS (status a))) then raise "bad_transition" st else
      let a' := applyTransition (now e 0) newStatus meta a in
      let st1 := setAlert a' st in
      let st2 := if String.eqb newStatus "resolved"
                 then st1 <| dedupeIndex := om_del (dedupeKey a) (dedupeIndex st1) |> else st1 in
      commitMutation e st (MkOutcome st2 a'
        [MkEvent (if String.eqb newStatus "resolved" then "alert_resolved" else "alert_updated") a'] true)
  end.

Definition addNote (e : Env) (k : string) (note_author note_text : jval) (st : State) : Out Alert :=
  match om_get k (alerts st) with
  | None => raise "not_found" st
  | Some a =>
      let author := normalizeText note_author 128 in
      match normalizeText note_text 2048 with
      | None => raise "bad_request" st
      | Some text =>
          let a' := a <| notes := notes a ++ [MkNote (default "anonymous" author) text (now e 0)] |> in
          commitMutation e st (MkOutcome (setAlert a' st) a' [MkEvent "alert_updated" a'] true)
      end
  end.

Definition defined (fields : jval) (k : string) : bool :=
  match prop fields k with JUndef => false | _ => true end.

Definition opt_str (o : option string) : jval := match o with Some s => JStr s | None => JNull end.

(** [{...a, ...b}] *)
Definition spread (a b : omap jval) : omap jval := foldl (λ m p, obj_set p.1 p.2 m) a b.

(** The plain field writes of [updateAlert]. *)
Definition updateAlert_fields (fields : jval) (a : Alert) : Alert :=
  let a := match prop fields "tags" with JArr l => a <| tags := normalizeTags l |> | _ => a end in
  let a := if defined fields "linkedTaskId" then a <| linkedTaskId := normalizeText (prop fields "linkedTaskId") 128 |> else a in
  let a := if defined fields "owner" then a <| owner := normalizeText (prop fields "owner") 128 |> else a in
  let a := if defined fields "assignee" then a <| assignee := normalizeText (prop fields "assignee") 128 |> else a in
  let a := if defined fields "runbook" then a <| runbook := normalizeText (prop fields "runbook") 512 |> else a in
  let a := if defined fields "impact" then a <| impact := normalizeText (prop fields "impact") 1024 |> else a in
  let a := if defined fields "recoveryCondition" || defined fields "exitCondition"
           then a <| recoveryCondition :=
                  normalizeText (nullish_or (prop fields "recoveryCondition") (prop fields "exitCondition")) 1024 |>
           else a in
  if defined fields "correlation"
  then a <| correlation := spread (correlation a)
         (normalizeCorrelation (prop fields "correlation") (opt_str (alertType a)) (JStr (dedupeKey a))
            (opt_str (sourceAgent a))) |>
  else a.

Definition actionFieldsTouched (fields : jval) : bool :=
  existsb (defined fields)
    ["owner"; "assignee"; "runbook"; "impact"; "recoveryCondition"; "exitCondition"; "correlation"].

(** The paging decision taken again from the record itself. *)
Definition reassess (a : Alert) : Alert :=
  let ac := buildActionability (MkActionInput (opt_str (alertType a)) (JStr (dedupeKey a))
      (JStr (default (severity a) (truthy_opt (originalSeverity a)))) (opt_str (sourceAgent a))
      (opt_str (owner a)) (opt_str (assignee a)) (opt_str (runbook a)) (opt_str (impact a))
      (opt_str (recoveryCondition a)) JUndef (JObj (correlation a))) in
  a <| severity := ac_severity ac |> <| owner := ac_owner ac |> <| assignee := ac_assignee ac |>
    <| runbook := ac_runbook ac |> <| impact := ac_impact ac |>
    <| recoveryCondition := ac_recoveryCondition ac |> <| correlation := ac_correlation ac |>
    <| actionable := ac_actionable ac |> <| originalSeverity := ac_originalSeverity ac |>
    <| missingActionableFields := ac_missing ac |>.

Definition updateAlert (e : Env) (k : string) (fields : jval) (st : State) : Out Alert :=
  match om_get k (alerts st) with
  | None => raise "not_found" st
  | Some a =>
      let a1 := updateAlert_fields fields a in
      let a2 := if actionFieldsTouched fields then reassess a1 else a1 in
      commitMutation e st (MkOutcome (setAlert a2 st) a2 [MkEvent "alert_updated" a2] true)
  end.

Definition deleteAlert (e : Env) (k : string) (st : State) : Out (option Alert) :=
  match om_get k (alerts st) with
  | None => unchanged None st
  | Some a =>
      let st1 := st <| alerts := om_del k (alerts st) |> in
      let st2 := if bool_decide (om_get (dedupeKey a) (dedupeIndex st1) = Some k)
                 then st1 <| dedupeIndex := om_del (dedupeKey a) (dedupeIndex st1) |> else st1 in
      commitMutation e st (MkOutcome st2 (Some a) [] true)
  end.

(** [counts[k] = (counts[k] || 0) + 1] *)
Definition count_in (k : string) (m : omap Z) : omap Z := obj_set k (default 0 (om_get k m) + 1) m.

Record Stats : Type := MkStats { total : Z; byStatus : omap Z; bySeverity : omap Z }.

Definition getStats (st : State) : Stats :=
  foldl (λ s a, MkStats (total s + 1) (count_in (status a) (byStatus s))
                  (if resolved a then bySeverity s else count_in (severity a) (bySeverity s)))
    (MkStats 0 (List.map (λ s, (s, 0)) STATUSES) (List.map (λ s, (s, 0)) SEVERITIES)) (dump st).

Definition prunable (ts maxAgeMs : Z) (a : Alert) : bool :=
  resolved a && match truthy_ms (resolvedAt a) with Some r => maxAgeMs <? ts - r | None => false end.

Definition pruneResolved (e : Env) (maxAgeMs : Z) (st : State) : Out Z :=
  let ts := now e 0 in
  match om_keys (List.filter (λ p, prunable ts maxAgeMs p.2) (alerts st)) with
  | [] => unchanged 0 st
  | ids =>
      commitMutation e st (MkOutcome
        (st <| alerts := foldl (λ m k, om_del k m) (alerts st) ids |>) (Z.of_nat (length ids)) [] true)
  end.

(** *** [listAlerts] *)

Record Filters : Type := MkFilters {
  f_status : option string; f_severity : option string; f_sourceAgent : option string;
  f_alertType : option string; f_assignee : option string; f_limit : option string; f_offset : option string;
}.

(** [l.slice(from, to)] with JS's treatment of negative bounds. *)
Definition slice_bound (n : nat) (i : Z) : nat :=
  if i <? 0 then Z.to_nat (Z.max 0 (Z.of_nat n + i)) else Z.to_nat (Z.min i (Z.of_nat n)).
Definition js_slice {A} (l : list A) (from to : Z) : list A :=
  let a := slice_bound (length l) from in
  let b := slice_bound (length l) to in
  firstn (b - a) (skipn a l).

(** Insertion into a list sorted by [lastSeenAt], latest first, after its equals. *)
Fixpoint insert_latest (a : Alert) (l : list Alert) : list Alert :=
  match l with
  | [] => [a]
  | b :: l' => if lastSeenAt b <? lastSeenAt a then a :: l else b :: insert_latest a l'
  end.

Definition sort_latest (l : list Alert) : list Alert := foldl (λ s a, insert_latest a s) [] l.

Definition opt_eqb (a b : option string) : bool := bool_decide (a = b).

(** [if (filters.k) ...]: an absent or empty filter lets everything through. *)
Definition keeps (f : option string) (p : string → bool) : bool :=
  match truthy_opt f with Some v => p v | None => true end.

Definition matches (f : Filters) (a : Alert) : bool :=
  keeps (f_status f) (λ v, inb (status a) (split_on ","%char v)) &&
  keeps (f_severity f) (λ v, inb (severity a) (split_on ","%char v)) &&
  keeps (f_sourceAgent f) (λ v, opt_eqb (sourceAgent a) (Some v)) &&
  keeps (f_alertType f) (λ v, opt_eqb (alertType a) (Some v)) &&
  keeps (f_assignee f) (λ v, opt_eqb (assignee a) (Some v)).

Definition int_param (f : option string) (dflt : Z) : Z :=
  default dflt (truthy_ms (match f with Some s => parseInt s | None => None end)).

Definition listAlerts (f : Filters) (st : State) : list Alert :=
  let result := sort_latest (List.filter (matches f) (dump st)) in
  let limit := Z.min (int_param (f_limit f) 100) 500 in
  let offset := int_param (f_offset f) 0 in
  js_slice result offset (offset + limit).

End model.

Arguments MkOutcome {A} oc_state oc_value oc_events oc_persist.
Arguments oc_state {A} o.
Arguments oc_value {A} o.
Arguments oc_events {A} o.
Arguments oc_persist {A} o.
Arguments MkOut {A} o_step o_events.
Arguments o_step {A} o.
Arguments o_events {A} o.

End AlertStore.
