(* ===== verification/AlertFacts.v ===== *)
(** * Alerts: the store invariant and what the operations promise

    The dedupe index is exact, so there is never more than one unresolved alert per key; every
    operation is atomic with respect to the file; statuses move along the life cycle; an alert that
    pages carries the fields an operator needs. *)

From Stdlib Require Import ZArith QArith Lia String Ascii.
From stdpp Require Import base list strings relations sorting.
From S2P Require Import Prelude OMap Json Store AlertStore.
#[local] Open Scope stdpp_scope.
Import AlertStore.

(** ** Well-formed states *)

Definition active (a : Alert) : Prop := resolved a = false.

(** The status is a declared one, and there is a resolution time exactly while resolved. *)
Definition local_ok (a : Alert) : Prop :=
  inb (status a) STATUSES = true ∧ resolved a = is_Some_b (resolvedAt a).

Record alert_ok (a : Alert) : Prop := MkAlertOk {
  ok_id : truthy (id a) = true;
  ok_key : truthy (dedupeKey a) = true;
  ok_local : local_ok a;
}.

Record wf (st : State) : Prop := MkWf {
  wf_alerts : NoDup (om_keys (alerts st));
  wf_index : NoDup (om_keys (dedupeIndex st));
  wf_id : ∀ k a, om_get k (alerts st) = Some a → id a = k ∧ alert_ok a;
  wf_exact : ∀ key i, om_get key (dedupeIndex st) = Some i ↔
    ∃ a, om_get i (alerts st) = Some a ∧ dedupeKey a = key ∧ active a;
}.

Lemma alert_wf_empty : wf (MkState [] []).
Proof. split; simpl; try constructor; try done. by intros (a & ? & _). Qed.

(** At most one unresolved alert per key. *)
Lemma active_unique st i j a b :
  wf st → om_get i (alerts st) = Some a → om_get j (alerts st) = Some b →
  active a → active b → dedupeKey a = dedupeKey b → i = j.
Proof.
  intros Hwf Ha Hb Aa Ab E.
  assert (H1 : om_get (dedupeKey a) (dedupeIndex st) = Some i) by (apply wf_exact; eauto).
  assert (H2 : om_get (dedupeKey a) (dedupeIndex st) = Some j) by (apply wf_exact; eauto).
  congruence.
Qed.

Record same_alert (a a' : Alert) : Prop := MkSameAlert { sa_id : id a' = id a; sa_key : dedupeKey a' = dedupeKey a }.

Section preserve.
Context (st : State) (Hwf : wf st) (k : string) (a a' : Alert).
Context (Hk : om_get k (alerts st) = Some a) (Hsame : same_alert a a') (Hst : local_ok a').

Lemma repl_id : id a' = k.
Proof using Hwf Hk Hsame. rewrite (sa_id _ _ Hsame). by apply (wf_id _ Hwf). Qed.

Lemma repl_ok j b : om_get j (om_set (id a') a' (alerts st)) = Some b → id b = j ∧ alert_ok b.
Proof using Hwf Hk Hsame Hst.
  rewrite om_get_set. destruct (String.eqb_spec (id a') j) as [<-|]; [|apply (wf_id _ Hwf)].
  intros [= <-]. split; [done|]. destruct (wf_id _ Hwf _ _ Hk) as [_ [H1 H2 H3]].
  split; [by rewrite (sa_id _ _ Hsame)|by rewrite (sa_key _ _ Hsame)|done].
Qed.

Lemma wf_keep : active a → active a' → wf (setAlert a' st).
Proof using Hwf Hk Hsame Hst.
  intros Ha Ha'. pose proof repl_id as Hid. split; [by apply om_nodup_set, Hwf|apply Hwf|apply repl_ok|].
  intros key i. simpl. rewrite om_get_set, (wf_exact _ Hwf).
  destruct (String.eqb_spec (id a') i) as [<-|Hne]; [|done]. rewrite Hid, Hk.
  pose proof (sa_key _ _ Hsame). split; intros (b & [= <-] & ? & ?); [exists a'|exists a]; split_and!; congruence.
Qed.

Lemma wf_resolve :
  active a → resolved a' = true → wf (setAlert a' st <| dedupeIndex := om_del (dedupeKey a) (dedupeIndex st) |>).
Proof using Hwf Hk Hsame Hst.
  intros Ha Ha'. pose proof repl_id as Hid. split; simpl;
    [by apply om_nodup_set, Hwf|by apply om_nodup_del, Hwf|apply repl_ok|].
  intros key i. rewrite om_get_set, om_get_del. destruct (String.eqb_spec (dedupeKey a) key) as [Hkey|Hkey].
  - split; [done|]. intros (b & Hb & Ek & Ab). destruct (String.eqb_spec (id a') i) as [|Hne].
    + injection Hb as <-. unfold active in Ab. congruence.
    + exfalso. apply Hne. rewrite Hid. by eapply active_unique; [exact Hwf|exact Hk|exact Hb|..]; congruence.
  - rewrite (wf_exact _ Hwf). destruct (String.eqb_spec (id a') i) as [<-|Hne]; [|done]. rewrite Hid, Hk.
    split; intros (b & [= <-] & ? & ?); [congruence|]. unfold active in *. congruence.
Qed.

Lemma wf_reopen :
  resolved a = true → active a' → om_get (dedupeKey a) (dedupeIndex st) = None →
  wf (setAlert a' st <| dedupeIndex := om_set (dedupeKey a) (id a') (dedupeIndex st) |>).
Proof using Hwf Hk Hsame Hst.
  intros Ha Ha' Hnone. pose proof repl_id as Hid. split; simpl;
    [by apply om_nodup_set, Hwf|by apply om_nodup_set, Hwf|apply repl_ok|].
  intros key i. rewrite !om_get_set. destruct (String.eqb_spec (dedupeKey a) key) as [<-|Hkey].
  - split.
    + intros [= <-]. rewrite String.eqb_refl. exists a'. split_and!; [done|apply Hsame|done].
    + intros (b & Hb & Ek & Ab). destruct (String.eqb_spec (id a') i) as [->|Hne]; [done|].
      assert (om_get (dedupeKey a) (dedupeIndex st) = Some i) by (apply (wf_exact _ Hwf); eauto). congruence.
  - rewrite (wf_exact _ Hwf). destruct (String.eqb_spec (id a') i) as [<-|Hne]; [|done]. rewrite Hid, Hk.
    pose proof (sa_key _ _ Hsame).
    split; intros (b & [= <-] & ? & ?); [unfold active in *; congruence|congruence].
Qed.

End preserve.

Lemma wf_new st a :
  wf st → om_get (id a) (alerts st) = None → alert_ok a → active a →
  om_get (dedupeKey a) (dedupeIndex st) = None →
  wf (setAlert a st <| dedupeIndex := om_set (dedupeKey a) (id a) (dedupeIndex st) |>).
Proof.
  intros Hwf Hn Hok Ha Hnone. split; simpl; [by apply om_nodup_set, Hwf|by apply om_nodup_set, Hwf|..].
  - intros j b. rewrite om_get_set. destruct (String.eqb_spec (id a) j) as [<-|]; [|apply (wf_id _ Hwf)].
    by intros [= <-].
  - intros key i. rewrite !om_get_set. destruct (String.eqb_spec (dedupeKey a) key) as [<-|Hkey].
    + split; [intros [= <-]; rewrite String.eqb_refl; eauto|].
      intros (b & Hb & Ek & Ab). destruct (String.eqb_spec (id a) i) as [->|Hne]; [done|].
      assert (om_get (dedupeKey a) (dedupeIndex st) = Some i) by (apply (wf_exact _ Hwf); eauto). congruence.
    + rewrite (wf_exact _ Hwf). destruct (String.eqb_spec (id a) i) as [<-|Hne]; [|done]. rewrite Hn.
      split; [by intros (b & ? & _)|]. intros (b & [= <-] & ? & _). done.
Qed.

(** Dropping alerts, with the index entries of the unresolved ones. *)
Lemma wf_drop st P idx :
  wf st → NoDup (om_keys idx) →
  (∀ key i, om_get key idx = Some i ↔ om_get key (dedupeIndex st) = Some i ∧
     ∀ a, om_get i (alerts st) = Some a → P i a = true) →
  wf (MkState (List.filter (λ p, P p.1 p.2) (alerts st)) idx).
Proof.
  intros Hwf Hnd Hidx.
  assert (Hget : ∀ i a, om_get i (List.filter (λ p, P p.1 p.2) (alerts st)) = Some a ↔
                        om_get i (alerts st) = Some a ∧ P i a = true).
  { apply om_get_filter. apply Hwf. }
  split; simpl.
  - by apply om_nodup_filter, Hwf.
  - done.
  - intros k a [Ha _]%Hget. by apply (wf_id _ Hwf).
  - intros key i. rewrite Hidx, (wf_exact _ Hwf). split.
    + intros [(a & Ha & ? & ?) HP]. exists a. rewrite Hget. auto.
    + intros (a & [Ha HP]%Hget & ? & ?). split; [eauto|]. intros a'. rewrite Ha. by intros [= <-].
Qed.

(** ** How one alert may change *)

Definition edge (s s' : string) : Prop :=
  s' = s ∨ s' ∈ TRANSITIONS s ∨ (s = "resolved" ∧ s' = "open") ∨ (s ≠ "resolved" ∧ s' = "resolved").

(** Identity is fixed, the count never falls, notes are only appended, the status takes an edge. *)
Record evolves (a a' : Alert) : Prop := MkEvolves {
  ev_same : same_alert a a';
  ev_first : firstSeenAt a' = firstSeenAt a;
  ev_count : occurrences a ≤ occurrences a';
  ev_notes : notes a `prefix_of` notes a';
  ev_edge : edge (status a) (status a');
}.

Definition evolution (st st' : State) : Prop :=
  ∀ k a a', om_get k (alerts st) = Some a → om_get k (alerts st') = Some a' → evolves a a'.

Lemma alert_evolves_refl a : evolves a a.
Proof. split; [done|done|lia|done|by left]. Qed.

Lemma evolution_refl st : evolution st st.
Proof. intros k a a' H H'. assert (a' = a) as -> by congruence. apply alert_evolves_refl. Qed.

Lemma evolution_set st k a a' idx :
  wf st → om_get k (alerts st) = Some a → evolves a a' →
  evolution st (setAlert a' st <| dedupeIndex := idx |>).
Proof.
  intros Hwf Hk Hev j b b' Hb. simpl. rewrite om_get_set.
  rewrite (sa_id _ _ (ev_same _ _ Hev)), (proj1 (wf_id _ Hwf _ _ Hk)).
  destruct (String.eqb_spec k j) as [<-|].
  - intros [= <-]. by assert (b = a) as -> by congruence.
  - intros Hb'. assert (b' = b) as -> by congruence. apply alert_evolves_refl.
Qed.

Lemma evolution_sub st st' :
  (∀ k a, om_get k (alerts st') = Some a → om_get k (alerts st) = Some a) → evolution st st'.
Proof. intros H k a a' Ha Ha'%H. assert (a' = a) as -> by congruence. apply alert_evolves_refl. Qed.

Definition good (st st' : State) : Prop := wf st' ∧ evolution st st'.

(** What every call amounts to. *)
Definition legal {A} (st : State) (o : Out A) : Prop :=
  (so_mem (o_step o) = st ∧ so_disk (o_step o) = None) ∨
  (good st (so_mem (o_step o)) ∧ is_ok (so_res (o_step o)) = true ∧
   so_disk (o_step o) = Some (dump (so_mem (o_step o)))).

Lemma alert_unchanged_legal {A} st (a : A) : legal st (unchanged a st).
Proof. by left. Qed.

Lemma alert_raise_legal {A} st c : legal st (@raise A c st).
Proof. by left. Qed.

Lemma alert_commit_legal {A} e st (o : Outcome A) :
  oc_persist o = true → good st (oc_state o) → legal st (commitMutation e st o).
Proof. intros Hp Hg. unfold commitMutation. rewrite Hp. destruct (persist e _); [by right|by left]. Qed.

Lemma active_not_resolved a : active a → status a ≠ "resolved".
Proof. unfold active, resolved. intros H E. by rewrite E in H. Qed.

Lemma resolvedBySystem_evolves text ts a : active a → evolves a (resolvedBySystem text ts a).
Proof.
  intros Ha%active_not_resolved. split; simpl; [done|done|lia|by apply prefix_app_r|].
  right. right. by right.
Qed.

Lemma system_resolve_good st k a text ts :
  wf st → om_get k (alerts st) = Some a → active a →
  good st (setAlert (resolvedBySystem text ts a) st <| dedupeIndex := om_del (dedupeKey a) (dedupeIndex st) |>).
Proof.
  intros Hwf Hk Ha. split.
  - by eapply wf_resolve.
  - by eapply evolution_set; [done|done|apply resolvedBySystem_evolves].
Qed.

Lemma index_get st key i :
  wf st → truthy_opt (om_get key (dedupeIndex st)) = Some i →
  ∃ a, om_get i (alerts st) = Some a ∧ dedupeKey a = key ∧ active a.
Proof.
  intros Hwf H. destruct (om_get key (dedupeIndex st)) as [j|] eqn:E; [|done]. simpl in H.
  destruct (truthy j); [|done]. injection H as ->. by apply (wf_exact _ Hwf).
Qed.

Lemma index_truthy st key : wf st → truthy_opt (om_get key (dedupeIndex st)) = om_get key (dedupeIndex st).
Proof.
  intros Hwf. destruct (om_get key (dedupeIndex st)) as [i|] eqn:E; [|done]. simpl.
  apply (wf_exact _ Hwf) in E as (a & Ha & _). destruct (wf_id _ Hwf _ _ Ha) as [<- Hok].
  by rewrite (ok_id _ Hok).
Qed.

(** *** Recovery of many alerts at once *)

Definition sysrel (a a' : Alert) : Prop := a' = a ∨ (active a ∧ resolved a' = true ∧ evolves a a').

Definition sys (st st' : State) : Prop :=
  wf st' ∧ ∀ k a', om_get k (alerts st') = Some a' → ∃ a, om_get k (alerts st) = Some a ∧ sysrel a a'.

Lemma sys_refl st : wf st → sys st st.
Proof. intros Hwf. split; [done|]. intros k a Ha. exists a. split; [done|by left]. Qed.

Lemma sys_trans s1 s2 s3 : sys s1 s2 → sys s2 s3 → sys s1 s3.
Proof.
  intros [W1 H1] [W2 H2]. split; [done|]. intros k a3 Ha3.
  destruct (H2 _ _ Ha3) as (a2 & Ha2 & R2). destruct (H1 _ _ Ha2) as (a1 & Ha1 & R1).
  exists a1. split; [done|]. destruct R2 as [->|(A2 & B2 & E2)]; [done|].
  destruct R1 as [->|(A1 & B1 & E1)]; [by right|]. unfold active in A2. congruence.
Qed.

Lemma sys_good st st' : sys st st' → good st st'.
Proof.
  intros [Hwf H]. split; [done|]. intros k a a' Ha Ha'. destruct (H _ _ Ha') as (b & Hb & R).
  assert (b = a) as -> by congruence. destruct R as [->|(_ & _ & E)]; [apply alert_evolves_refl|done].
Qed.

Lemma sys_resolve st k a text ts :
  wf st → om_get k (alerts st) = Some a → active a →
  sys st (setAlert (resolvedBySystem text ts a) st <| dedupeIndex := om_del (dedupeKey a) (dedupeIndex st) |>).
Proof.
  intros Hwf Hk Ha. split; [by eapply system_resolve_good|]. intros j b. simpl.
  rewrite om_get_set, (proj1 (wf_id _ Hwf _ _ Hk)). destruct (String.eqb_spec k j) as [<-|].
  - intros [= <-]. exists a. split; [done|]. right. split_and!; [done|done|by apply resolvedBySystem_evolves].
  - intros Hb. exists b. split; [done|by left].
Qed.

Lemma resolveMatches_spec e n ms st out :
  wf st → NoDup (om_keys ms) → (∀ key i, (key, i) ∈ ms → om_get key (dedupeIndex st) = Some i) →
  let r := resolveMatches e n ms st out in
  sys st r.1 ∧ (r.2 = out → r.1 = st) ∧ (length out ≤ length r.2)%nat.
Proof.
  revert n st out. induction ms as [|[key i] ms IH]; intros n st out Hwf Hnd Hms; simpl.
  { split_and!; [by apply sys_refl|done|lia]. }
  unfold om_keys in Hnd. csimpl in Hnd. apply NoDup_cons in Hnd as [Hni Hnd].
  assert (Hkey : om_get key (dedupeIndex st) = Some i) by (apply Hms; by left).
  apply (wf_exact _ Hwf) in Hkey as (a & Ha & Hk & Act). rewrite Ha. rewrite Act.
  match goal with |- context [resolveMatches e (S n) ms ?s ?o] => set (st1 := s) end.
  assert (Hs : sys st st1) by (unfold st1; subst key; exact (sys_resolve st i a _ _ Hwf Ha Act)).
  destruct (IH (S n) st1 (out ++ [resolvedBySystem recovered (now e n) a])) as (H1 & H2 & H3).
  - apply Hs.
  - done.
  - intros key' i' Hin. simpl. rewrite om_get_del. destruct (String.eqb_spec key key') as [<-|].
    + exfalso. apply Hni. apply list_elem_of_fmap. by exists (key, i').
    + apply Hms. by right.
  - split_and!; [by eapply sys_trans|..]; rewrite length_app in H3; simpl in H3; [|lia].
    intros E. exfalso. rewrite E in H3. lia.
Qed.

(** *** The cap *)

Lemma oldest_in l a : oldest l = Some a → a ∈ l.
Proof.
  revert a. induction l as [|b l IH]; simpl; [done|]. intros a.
  destruct (oldest l) as [c|]; [destruct (_ <? _)|]; intros [= <-]; try (by left). right. by apply IH.
Qed.

Lemma dump_get st a : wf st → a ∈ dump st ↔ om_get (id a) (alerts st) = Some a.
Proof.
  intros Hwf. split; [|apply om_get_vals]. intros (k & Hin)%om_vals_get.
  apply elem_of_om_get in Hin; [|apply Hwf]. by rewrite (proj1 (wf_id _ Hwf _ _ Hin)).
Qed.

Lemma enforceCap_sys ts st : wf st → sys st (enforceCap ts st).1.
Proof.
  intros Hwf. unfold enforceCap. destruct (_ <? _)%nat; [by apply sys_refl|].
  destruct (oldest _) as [a|] eqn:Ho; [|by apply sys_refl]. simpl.
  apply oldest_in, elem_of_filter_bool in Ho as [_ [Ha Hin]%elem_of_filter_bool].
  apply dump_get in Hin; [|done]. eapply sys_resolve; [done|done|]. by apply negb_true_iff in Ha.
Qed.

Lemma enforceCap_index ts st key :
  om_get key (dedupeIndex st) = None → om_get key (dedupeIndex (enforceCap ts st).1) = None.
Proof.
  intros H. unfold enforceCap. destruct (_ <? _)%nat; [done|]. destruct (oldest _); [|done]. simpl.
  rewrite om_get_del. by destruct (String.eqb _ _).
Qed.

(** ** Every operation *)

Lemma transition_edge s s' : s' ∈ TRANSITIONS s → inb s' STATUSES = true ∧ s ≠ "resolved".
Proof.
  unfold TRANSITIONS. intros H.
  destruct (String.eqb_spec s "open") as [->|_]; [|destruct (String.eqb_spec s "acknowledged") as [->|_];
    [|destruct (String.eqb_spec s "assigned") as [->|_]; [|destruct (String.eqb_spec s "suppressed") as [->|_]]]];
    cbv iota in H; repeat (apply elem_of_cons in H as [->|H]; [split; [reflexivity|done]|]); by apply elem_of_nil in H.
Qed.

Lemma bump_facts num_str b ts a :
  alert_ok a → active a →
  evolves a (bump num_str b ts a) ∧ active (bump num_str b ts a) ∧ local_ok (bump num_str b ts a).
Proof.
  intros [_ _ Hl] Ha. unfold bump.
  set (a1 := a <| occurrences := _ |> <| lastSeenAt := _ |> <| lastPayload := _ |> <| summary := _ |>).
  assert (H1 : evolves a a1) by (split; simpl; [done|done|lia|done|by left]).
  destruct (truthy_ms (suppressUntil a1)) as [until|]; [|by split_and!].
  destruct (String.eqb_spec (status a1) "suppressed") as [Hs|]; simpl; [|by split_and!].
  destruct (until <? ts); [|by split_and!]. split_and!.
  - destruct H1. split; [done..|]. right. left. simpl in Hs |- *. rewrite Hs. unfold TRANSITIONS. simpl. set_solver.
  - done.
  - destruct Hl as [_ Hr]. split; [done|]. unfold active in Ha. simpl. by rewrite <-Hr, Ha.
Qed.

Lemma ingest_legal num_str e b st :
  wf st → truthy (newId e) = true → om_get (newId e) (alerts st) = None →
  legal st (ingest num_str e b st).
Proof.
  intros Hwf Hid Hfresh. unfold ingest.
  destruct (to_bool (i_alertType b)); cbv beta iota delta [negb]; [|apply alert_raise_legal].
  destruct (truthy (i_dedupeKey b)) eqn:Hkey; [|apply alert_raise_legal].
  destruct (to_bool (i_summary b)); [|apply alert_raise_legal]. cbv zeta.
  rewrite (index_truthy _ _ Hwf).
  destruct (om_get (i_dedupeKey b) (dedupeIndex st)) as [i|] eqn:Hidx.
  - apply (wf_exact _ Hwf) in Hidx as (a & Ha & Hk & Act). rewrite Ha. apply alert_commit_legal; [done|].
    destruct (bump_facts num_str b (now e 0) a) as (He & Ha' & Hl); [by eapply wf_id|done|]. split.
    + eapply wf_keep; eauto. apply He.
    + exact (evolution_set st i a _ (dedupeIndex st) Hwf Ha He).
  - destruct (List.find _ _) as [a|] eqn:Hf.
    + apply List.find_some in Hf as [Hin Hr]. apply list_elem_of_In, (dump_get _ _ Hwf) in Hin.
      unfold recentlyResolved in Hr. apply andb_true_iff in Hr as [[Hk%String.eqb_eq Hres]%andb_true_iff _].
      apply alert_commit_legal; [done|]. rewrite <-Hk in *. split.
      * by eapply wf_reopen.
      * eapply evolution_set; [done|done|]. split; simpl; [done|done|lia|done|].
        right. right. left. by apply String.eqb_eq in Hres.
    + pose proof (enforceCap_sys (now e 0) st Hwf) as Hs.
      pose proof (enforceCap_index (now e 0) st _ Hidx) as Hi.
      destruct (enforceCap (now e 0) st) as [st1 evs]. simpl in Hs, Hi. apply alert_commit_legal; [done|].
      assert (Hf1 : om_get (newId e) (alerts st1) = None).
      { destruct (om_get (newId e) (alerts st1)) as [a1|] eqn:E; [|done].
        destruct Hs as [_ Hs]. destruct (Hs _ _ E) as (a & Ha & _). congruence. }
      split.
      * apply wf_new; simpl; [apply Hs|done| |done|done]. by split.
      * intros k a a' Ha. simpl. rewrite om_get_set. destruct (String.eqb_spec (newId e) k); [congruence|].
        by apply (sys_good _ _ Hs).
Qed.

Lemma autoResolve_legal e key st : wf st → legal st (autoResolve e key st).
Proof.
  intros Hwf. unfold autoResolve. rewrite (index_truthy _ _ Hwf).
  destruct (om_get key (dedupeIndex st)) as [i|] eqn:Hidx; [|apply alert_unchanged_legal].
  apply (wf_exact _ Hwf) in Hidx as (a & Ha & <- & Act). rewrite Ha, Act. apply alert_commit_legal; [done|].
  by eapply system_resolve_good.
Qed.

Lemma autoResolveByPrefix_legal e p st : wf st → legal st (autoResolveByPrefix e p st).
Proof.
  intros Hwf. unfold autoResolveByPrefix.
  pose proof (resolveMatches_spec e 0 (List.filter (λ m, String.prefix p m.1) (dedupeIndex st)) st [] Hwf) as H.
  destruct (List.filter _ _) as [|m ms] eqn:Ef; [apply alert_unchanged_legal|]. rewrite <-Ef in *. clear Ef m ms.
  destruct H as (H1 & H2 & _).
  - by apply om_nodup_filter, Hwf.
  - intros key i [_ Hin]%elem_of_filter_bool. apply elem_of_om_get; [apply Hwf|done].
  - destruct (resolveMatches _ _ _ _ _) as [st' [|o os]]; simpl in *.
    + left. unfold commitMutation. simpl. by rewrite H2.
    + apply alert_commit_legal; [done|]. by apply sys_good.
Qed.

Lemma applyTransition_evolves ts s meta a :
  alert_ok a → s ∈ TRANSITIONS (status a) →
  evolves a (applyTransition ts s meta a) ∧ local_ok (applyTransition ts s meta a) ∧
  status (applyTransition ts s meta a) = s.
Proof.
  intros [_ _ [Hst Hr]] Hs. pose proof (transition_edge _ _ Hs) as [Hin Hne]. unfold applyTransition, local_ok.
  assert (Hres : resolved a = false) by (unfold resolved; by apply String.eqb_neq).
  rewrite Hres in Hr.
  split_and!; unfold resolved; destruct (String.eqb_spec s "resolved") as [->|E1]; simpl;
    repeat (case_match; simpl); try done; try (split; simpl; [done|done|lia|done|right; by left]);
    rewrite <-?Hr; by apply String.eqb_neq.
Qed.

Lemma transition_legal e k s meta st : wf st → legal st (transition e k s meta st).
Proof.
  intros Hwf. unfold transition. destruct (om_get k (alerts st)) as [a|] eqn:Hk; [|apply alert_raise_legal].
  destruct (inb s (TRANSITIONS (status a))) eqn:Hs; simpl; [|apply alert_raise_legal]. apply inb_spec in Hs.
  destruct (wf_id _ Hwf _ _ Hk) as [Hid Hok].
  destruct (applyTransition_evolves (now e 0) s meta a Hok Hs) as (He & Hl & Est).
  assert (Act : active a) by (apply String.eqb_neq; by apply (transition_edge _ _ Hs)).
  apply alert_commit_legal; [done|]. simpl. destruct (String.eqb_spec s "resolved") as [Er|Er].
  - split; [|by eapply evolution_set]. eapply wf_resolve; eauto; [apply He|].
    unfold resolved. rewrite Est, Er. done.
  - split; [|exact (evolution_set st k a _ (dedupeIndex st) Hwf Hk He)]. eapply wf_keep; eauto; [apply He|].
    unfold active, resolved. rewrite Est. by apply String.eqb_neq.
Qed.

(** What an operator's edit leaves alone. *)
Definition frame (a a' : Alert) : Prop :=
  (id a', dedupeKey a', status a', notes a', occurrences a', firstSeenAt a', resolvedAt a') =
  (id a, dedupeKey a, status a, notes a, occurrences a, firstSeenAt a, resolvedAt a).

Lemma frame_if a x y (c : bool) : frame a x → frame a y → frame a (if c then x else y).
Proof. by destruct c. Qed.

Lemma frame_let a x (k : Alert → Alert) : frame a x → (∀ y, frame a y → frame a (k y)) → frame a (k x).
Proof. auto. Qed.

Ltac frame_step :=
  match goal with
  | |- frame ?a (let x := ?e in @?k x) => apply (frame_let a e k); [|intros ? ?; cbv beta]
  | |- frame _ (if _ then _ else _) => apply frame_if
  | |- frame _ (match ?v with JArr _ => _ | _ => _ end) => destruct v
  end.

Lemma updateAlert_fields_frame fields a : frame a (updateAlert_fields fields a).
Proof. cbv beta delta [updateAlert_fields]. repeat frame_step; done. Qed.

Lemma reassess_frame a : frame a (reassess a).
Proof. done. Qed.

Lemma frame_evolves a a' : frame a a' → evolves a a'.
Proof. unfold frame. intros E. injection E as E1 E2 E3 E4 E5 E6 E7.
  split; [by split|done|by rewrite E5|by rewrite E4|left; done]. Qed.

Lemma frame_local a a' : frame a a' → local_ok a → local_ok a' ∧ resolved a' = resolved a.
Proof.
  unfold frame, local_ok, resolved. intros E. injection E as E1 E2 E3 E4 E5 E6 E7. by rewrite E3, E7.
Qed.

Lemma wf_edit st k a a' :
  wf st → om_get k (alerts st) = Some a → evolves a a' → local_ok a' → resolved a' = resolved a →
  good st (setAlert a' st).
Proof.
  intros Hwf Hk He Hl Hr. split; [|exact (evolution_set st k a _ (dedupeIndex st) Hwf Hk He)].
  destruct (resolved a) eqn:Act; [|by eapply wf_keep; eauto; apply He].
  pose proof (repl_id st Hwf k a a' Hk (ev_same _ _ He)) as Hid. pose proof (sa_key _ _ (ev_same _ _ He)) as Hkey.
  split; simpl; [by apply om_nodup_set, Hwf|apply Hwf|by eapply repl_ok; eauto; apply He|].
  intros key i. rewrite om_get_set, (wf_exact _ Hwf). destruct (String.eqb_spec (id a') i) as [<-|]; [|done].
  rewrite Hid, Hk. unfold active. split; intros (b & [= <-] & ? & ?); congruence.
Qed.

Lemma addNote_legal e k au tx st : wf st → legal st (addNote e k au tx st).
Proof.
  intros Hwf. unfold addNote. destruct (om_get k (alerts st)) as [a|] eqn:Hk; [|apply alert_raise_legal].
  destruct (normalizeText tx 2048) as [text|]; [|apply alert_raise_legal]. apply alert_commit_legal; [done|].
  destruct (wf_id _ Hwf _ _ Hk) as [_ [_ _ Hl]].
  eapply wf_edit; [done|done| |done|done]. split; simpl; [done|done|lia|by apply prefix_app_r|by left].
Qed.

Lemma updateAlert_legal e k fields st : wf st → legal st (updateAlert e k fields st).
Proof.
  intros Hwf. unfold updateAlert. destruct (om_get k (alerts st)) as [a|] eqn:Hk; [|apply alert_raise_legal].
  apply alert_commit_legal; [done|]. destruct (wf_id _ Hwf _ _ Hk) as [_ [_ _ Hl]]. cbn [oc_state].
  set (a2 := if actionFieldsTouched fields then _ else _).
  assert (Hf : frame a a2).
  { pose proof (updateAlert_fields_frame fields a) as H1. unfold a2. destruct (actionFieldsTouched fields); [|done].
    pose proof (reassess_frame (updateAlert_fields fields a)) as H2. unfold frame in *. by rewrite H2. }
  destruct (frame_local _ _ Hf Hl). eapply wf_edit; eauto using frame_evolves.
Qed.

Lemma good_drop st P idx :
  wf st → NoDup (om_keys idx) →
  (∀ key i, om_get key idx = Some i ↔ om_get key (dedupeIndex st) = Some i ∧
     ∀ a, om_get i (alerts st) = Some a → P i a = true) →
  good st (MkState (List.filter (λ p, P p.1 p.2) (alerts st)) idx).
Proof.
  intros Hwf Hnd Hidx. split; [by apply wf_drop|]. apply evolution_sub. simpl. intros k a Hk.
  apply om_get_filter in Hk as [? _]; [done|apply Hwf].
Qed.

Lemma deleteAlert_legal e k st : wf st → legal st (deleteAlert e k st).
Proof.
  intros Hwf. unfold deleteAlert. destruct (om_get k (alerts st)) as [a|] eqn:Hk; [|apply alert_unchanged_legal].
  apply alert_commit_legal; [done|]. cbn [oc_state over].
  change (om_del k (alerts st)) with (List.filter (λ p : string * Alert, negb (String.eqb k p.1)) (alerts st)).
  case_bool_decide as Hidx; apply (good_drop st (λ i _, negb (String.eqb k i))); simpl in *; try done;
    try apply om_nodup_del, Hwf; try apply Hwf; intros key i; rewrite ?om_get_del.
  - destruct (String.eqb_spec (dedupeKey a) key) as [<-|Hne].
    + rewrite Hidx. split; [done|]. intros [[= <-] H]. specialize (H _ Hk). by rewrite String.eqb_refl in H.
    + split; [|by intros []]. intros H. split; [done|]. intros b Hb. apply negb_true_iff, String.eqb_neq.
      intros <-. apply (wf_exact _ Hwf) in H as (b' & Hb' & Ek & _). congruence.
  - split; [|by intros []]. intros H. split; [done|]. intros b Hb. apply negb_true_iff, String.eqb_neq.
    intros <-. pose proof H as H'. apply (wf_exact _ Hwf) in H as (b' & Hb' & Ek & _).
    assert (b' = a) as -> by congruence. rewrite Ek in Hidx. done.
Qed.

Lemma foldl_del {V} (ks : list string) (m : omap V) :
  foldl (λ m k, om_del k m) m ks = List.filter (λ p, negb (inb p.1 ks)) m.
Proof.
  revert m. induction ks as [|k ks IH]; intros m; simpl.
  - induction m as [|p m IHm]; simpl; [done|]. by f_equal.
  - rewrite IH. clear IH. unfold om_del. induction m as [|p m IHm]; simpl; [done|].
    rewrite (String.eqb_sym p.1 k). destruct (String.eqb k p.1); simpl; [done|].
    destruct (inb p.1 ks); simpl; by rewrite ?IHm.
Qed.

(** The alerts [pruneResolved] removes are exactly those its test selects. *)
Lemma prune_filter st (P : Alert → bool) :
  wf st →
  foldl (λ m k, om_del k m) (alerts st) (om_keys (List.filter (λ p, P p.2) (alerts st))) =
  List.filter (λ p, negb (P p.2)) (alerts st).
Proof.
  intros Hwf. rewrite foldl_del. apply filter_ext_in. intros [k a] Hin%list_elem_of_In. f_equal. simpl.
  apply eq_true_iff_eq. rewrite inb_spec. unfold om_keys. rewrite list_elem_of_fmap.
  setoid_rewrite elem_of_filter_bool. split.
  - intros ([k' a'] & -> & HP & Hin'). simpl in *.
    apply elem_of_om_get in Hin; [|apply Hwf]. apply elem_of_om_get in Hin'; [|apply Hwf]. congruence.
  - intros HP. by exists (k, a).
Qed.

Lemma pruneResolved_legal e age st : wf st → legal st (pruneResolved e age st).
Proof.
  intros Hwf. unfold pruneResolved. set (P := prunable (now e 0) age).
  pose proof (prune_filter st P Hwf) as Hpf.
  destruct (om_keys _) as [|i rest] eqn:Hids; [apply alert_unchanged_legal|]. apply alert_commit_legal; [done|].
  cbn [oc_state over]. unfold State_settable, eta. cbn [dedupeIndex]. rewrite Hpf.
  apply (good_drop st (λ _ a, negb (P a)) (dedupeIndex st)); [done|apply Hwf|].
  intros key j. split; [|by intros []]. intros H. split; [done|]. intros a Ha.
  apply (wf_exact _ Hwf) in H as (b & Hb & _ & Act). assert (b = a) as -> by congruence.
  unfold P, prunable. by rewrite Act.
Qed.

(** ** The store as a whole *)

Inductive Op : Type :=
| OpIngest (b : IngestArgs)
| OpAutoResolve (key : string)
| OpAutoResolveByPrefix (p : string)
| OpTransition (k newStatus : string) (meta : Meta)
| OpAddNote (k : string) (author text : jval)
| OpUpdate (k : string) (fields : jval)
| OpDelete (k : string)
| OpPrune (maxAgeMs : Z).

Section alert_store.
Context (num_str : num → string).

Definition forget {A} (o : Out A) : step_out State (list Alert) unit :=
  StepOut (let* _ := so_res (o_step o) in Ok tt) (so_mem (o_step o)) (so_disk (o_step o)).

Definition exec (op : Env * Op) (st : State) : step_out State (list Alert) unit :=
  match op.2 with
  | OpIngest b => forget (ingest num_str op.1 b st)
  | OpAutoResolve key => forget (autoResolve op.1 key st)
  | OpAutoResolveByPrefix p => forget (autoResolveByPrefix op.1 p st)
  | OpTransition k s meta => forget (transition op.1 k s meta st)
  | OpAddNote k au tx => forget (addNote op.1 k au tx st)
  | OpUpdate k fields => forget (updateAlert op.1 k fields st)
  | OpDelete k => forget (deleteAlert op.1 k st)
  | OpPrune age => forget (pruneResolved op.1 age st)
  end.

(** A generated id is not in use. *)
Definition fresh (op : Env * Op) (st : State) : Prop :=
  match op.2 with
  | OpIngest _ => truthy (newId op.1) = true ∧ om_get (newId op.1) (alerts st) = None
  | _ => True
  end.

Lemma alert_exec_legal op st :
  wf st → fresh op st →
  (so_mem (exec op st) = st ∧ so_disk (exec op st) = None) ∨
  (good st (so_mem (exec op st)) ∧ is_ok (so_res (exec op st)) = true ∧
   so_disk (exec op st) = Some (dump (so_mem (exec op st)))).
Proof.
  assert (Hf : ∀ A (o : Out A), legal st o →
    (so_mem (forget o) = st ∧ so_disk (forget o) = None) ∨
    (good st (so_mem (forget o)) ∧ is_ok (so_res (forget o)) = true ∧
     so_disk (forget o) = Some (dump (so_mem (forget o))))).
  { intros A o [H|(H1 & H2 & H3)]; [by left|right]. split_and!; [done| |done].
    simpl. by destruct (so_res (o_step o)). }
  intros Hwf Hfr. destruct op as [e []]; unfold exec; cbn [fst snd]; apply Hf.
  - destruct Hfr. by apply ingest_legal.
  - by apply autoResolve_legal.
  - by apply autoResolveByPrefix_legal.
  - by apply transition_legal.
  - by apply addNote_legal.
  - by apply updateAlert_legal.
  - by apply deleteAlert_legal.
  - by apply pruneResolved_legal.
Qed.

#[export] Program Instance alert_store : Store State (list Alert) (Env * Op) unit := {|
  st_image := dump;
  st_wf := wf;
  st_pre := fresh;
  st_exec := exec;
|}.
Next Obligation. intros op st Hwf Hfr. by destruct (alert_exec_legal op st Hwf Hfr) as [[-> _]|[[? _] _]]. Qed.
Next Obligation.
  intros op st Hwf Hfr. unfold atomic.
  by destruct (alert_exec_legal op st Hwf Hfr) as [[-> ->]|(_ & -> & ->)].
Qed.

End alert_store.

(** *** Reloading *)

Lemma load_snoc l a :
  truthy (id a) = true →
  load (l ++ [a]) =
    MkState (om_set (id a) a (alerts (load l)))
      (if negb (resolved a) && truthy (dedupeKey a) then om_set (dedupeKey a) (id a) (dedupeIndex (load l))
       else dedupeIndex (load l)).
Proof. intros Ht. unfold load. rewrite foldl_app. simpl. by rewrite Ht. Qed.

(** Loading a list of alerts with distinct ids and no two unresolved ones on a key. *)
Lemma load_spec (m : omap Alert) :
  NoDup (om_keys m) → (∀ k a, om_get k m = Some a → id a = k ∧ alert_ok a) →
  (∀ i j a b, om_get i m = Some a → om_get j m = Some b → active a → active b → dedupeKey a = dedupeKey b → i = j) →
  alerts (load (om_vals m)) = m ∧
  ∀ key i, om_get key (dedupeIndex (load (om_vals m))) = Some i ↔
    ∃ a, om_get i m = Some a ∧ dedupeKey a = key ∧ active a.
Proof.
  induction m as [|[k a] m IH] using rev_ind; intros Hnd Hok Huniq.
  { split; [done|]. intros key i. split; [done|by intros (a & ? & _)]. }
  assert (Hsub : NoDup (om_keys m) ∧ om_get k m = None).
  { unfold om_keys in *. rewrite fmap_app in Hnd. apply NoDup_app in Hnd as (H1 & H2 & _). split; [done|].
    apply om_get_None. intros Hin. apply (H2 _ Hin). csimpl. by left. }
  destruct Hsub as [Hnd' Hkn].
  assert (Hget : ∀ j, om_get j (m ++ [(k, a)]) = if String.eqb k j then Some a else om_get j m)
    by (intros j; by apply om_get_snoc).
  assert (Hold : ∀ j b, om_get j m = Some b → om_get j (m ++ [(k, a)]) = Some b).
  { intros j b Hb. rewrite Hget. destruct (String.eqb_spec k j); congruence. }
  destruct (Hok k a) as [Hid [Hti Htk _]]; [by rewrite Hget, String.eqb_refl|].
  destruct IH as [IH1 IH2]; [done|intros; apply Hok; by apply Hold|intros; eapply Huniq; eauto|].
  rewrite om_vals_snoc, load_snoc by done. simpl. rewrite IH1, Hid. split; [by apply om_keys_set_new|].
  intros key i. rewrite Htk, andb_true_r. destruct (resolved a) eqn:Act; simpl.
  - rewrite IH2. split; intros (b & Hb & ? & ?); exists b.
    + split_and!; [by apply Hold|done|done].
    + rewrite Hget in Hb. destruct (String.eqb_spec k i); [|done]. unfold active in *. congruence.
  - rewrite om_get_set. destruct (String.eqb_spec (dedupeKey a) key) as [<-|Hne].
    + split.
      * intros [= <-]. exists a. by rewrite Hget, String.eqb_refl.
      * intros (b & Hb & Ek & Ab). f_equal.
        eapply Huniq; [by rewrite Hget, String.eqb_refl|exact Hb|done|done|done].
    + rewrite IH2. split; intros (b & Hb & ? & ?); exists b.
      * split_and!; [by apply Hold|done|done].
      * rewrite Hget in Hb. destruct (String.eqb_spec k i); [congruence|done].
Qed.

(** ** Properties *)

(** At most one unresolved alert per dedupe key, always: after any sequence of operations, and
    whichever saves fail, the dedupe index maps a key exactly to its unresolved alert, two unresolved
    alerts never share a key, a resolution time is present exactly on resolved alerts, and the file
    holds exactly the alerts in memory. *)
Theorem alert_index_exact num_str w w' :
  rtc (@st_step _ _ _ _ (alert_store num_str)) w w' →
  wf (w_mem w) → w_disk w = dump (w_mem w) →
  w_disk w' = dump (w_mem w') ∧
  (∀ key i, om_get key (dedupeIndex (w_mem w')) = Some i ↔
     ∃ a, om_get i (alerts (w_mem w')) = Some a ∧ dedupeKey a = key ∧ resolved a = false) ∧
  (∀ i j a b, om_get i (alerts (w_mem w')) = Some a → om_get j (alerts (w_mem w')) = Some b →
     resolved a = false → resolved b = false → dedupeKey a = dedupeKey b → i = j) ∧
  (∀ i a, om_get i (alerts (w_mem w')) = Some a → resolved a = is_Some_b (resolvedAt a)).
Proof.
  intros Hr Hwf Hs.
  destruct (@run_synced _ _ _ _ (alert_store num_str) w w' Hr Hwf Hs) as [Hwf' Hs'].
  split_and!; [done|apply Hwf'| |].
  - intros i j a b Ha Hb Aa Ab E. by eapply active_unique.
  - intros i a Ha. apply (wf_id _ Hwf' _ _ Ha).
Qed.

(** Reloading the file rebuilds the store: the alerts are those in memory, in the same order,
    and the index, rebuilt from scratch, answers every key as the one kept in memory does. *)
Theorem reload_rebuilds_index st :
  wf st → alerts (load (dump st)) = alerts st ∧ dedupeIndex (load (dump st)) ≈ₘ dedupeIndex st.
Proof.
  intros Hwf. destruct (load_spec (alerts st)) as [H1 H2]; [apply Hwf|apply Hwf|intros; by eapply active_unique|].
  split; [done|]. intros key. apply option_eq. intros i. by rewrite H2, (wf_exact _ Hwf).
Qed.

(** Alerts move along their life cycle and never lose history: across any operation an alert
    that survives keeps its identity and first sighting, its count never falls, its notes are only
    appended to, and its status is unchanged or takes an edge: a declared transition, reopening of a
    resolved alert, or resolution by recovery. *)
Theorem alert_life_cycle num_str op st k a a' :
  wf st → fresh op st →
  om_get k (alerts st) = Some a → om_get k (alerts (so_mem (exec num_str op st))) = Some a' →
  id a' = id a ∧ dedupeKey a' = dedupeKey a ∧ firstSeenAt a' = firstSeenAt a ∧
  occurrences a ≤ occurrences a' ∧ notes a `prefix_of` notes a' ∧ edge (status a) (status a').
Proof.
  intros Hwf Hfr Ha Ha'. assert (He : evolves a a'); [|by destruct He as [[] ? ? ? ?]].
  destruct (alert_exec_legal num_str op st Hwf Hfr) as [[E _]|[[_ H] _]].
  - rewrite E in Ha'. assert (a' = a) as -> by congruence. apply alert_evolves_refl.
  - by eapply H.
Qed.

(** ** Witnesses *)

Definition num0 : num → string := λ _, "0".
Definition env_at (t : Z) (i : string) : Env := MkEnv (λ _, t) i (λ _, SaveDone).

Definition report0 : IngestArgs :=
  MkIngest (JStr "mcp_missing") "mcp_missing:ada" (JStr "critical") (JStr "bridge") (JStr "ada")
    (JStr "MCP server is gone") JNull JUndef (JStr "ops") JUndef (JStr "docs/runbook.md")
    (JStr "no tools") (JStr "server back") JUndef JUndef.

Definition raise0 : Env * Op := (env_at 1000 "alert_1", OpIngest report0).
Definition recover0 : Env * Op := (env_at 2000 "alert_2", OpAutoResolve "mcp_missing:ada").
Definition raise1 : Env * Op := (env_at 3000 "alert_3", OpIngest report0).

Definition w0 : world State (list Alert) := World (MkState [] []) [].
Definition after (w : world State (list Alert)) (op : Env * Op) := apply_out w (exec num0 op (w_mem w)).
Definition w3 := after (after (after w0 raise0) recover0) raise1.

Lemma alert_run0 : rtc (@st_step _ _ _ _ (alert_store num0)) w0 w3.
Proof.
  apply (rtc_l _ _ (after w0 raise0)); [exact (@st_step_intro _ _ _ _ (alert_store num0) raise0 w0 (conj eq_refl eq_refl))|].
  apply (rtc_l _ _ (after (after w0 raise0) recover0));
    [exact (@st_step_intro _ _ _ _ (alert_store num0) recover0 (after w0 raise0) I)|].
  apply rtc_once. exact (@st_step_intro _ _ _ _ (alert_store num0) raise1 (after (after w0 raise0) recover0) (conj eq_refl eq_refl)).
Qed.

Lemma alert_index_exact_witness :
  List.map (λ a, (status a, occurrences a)) (w_disk w3) = [("open", 2)] ∧
  w_disk w3 = dump (w_mem w3).
Proof.
  split; [by vm_compute|]. exact (proj1 (alert_index_exact num0 w0 w3 alert_run0 alert_wf_empty eq_refl)).
Defined.

Lemma reload_rebuilds_index_witness :
  let st := w_mem (after w0 raise0) in
  om_get "mcp_missing:ada" (dedupeIndex (load (dump st))) = Some "alert_1" ∧ dedupeIndex (load (dump st)) ≈ₘ dedupeIndex st.
Proof.
  split; [by vm_compute|].
  refine (proj2 (reload_rebuilds_index (w_mem (after w0 raise0)) _)).
  exact (@st_exec_wf _ _ _ _ (alert_store num0) raise0 (MkState [] []) alert_wf_empty (conj eq_refl eq_refl)).
Defined.

Lemma alert_life_cycle_witness :
  match om_get "alert_1" (alerts (w_mem (after w0 raise0))), om_get "alert_1" (alerts (w_mem (after (after w0 raise0) recover0))) with
  | Some a, Some a' => (status a, status a') = ("open", "resolved") ∧ edge (status a) (status a')
  | _, _ => False
  end.
Proof.
  destruct (om_get "alert_1" (alerts (w_mem (after w0 raise0)))) as [a|] eqn:E; [|vm_compute in E; discriminate E].
  destruct (om_get "alert_1" (alerts (w_mem (after (after w0 raise0) recover0)))) as [a'|] eqn:E';
    [|vm_compute in E'; discriminate E'].
  split; [vm_compute in E, E'; by injection E as <-; injection E' as <-|].
  apply (alert_life_cycle num0 recover0 (w_mem (after w0 raise0)) "alert_1" a a'); [|exact I|exact E|exact E'].
  exact (@st_exec_wf _ _ _ _ (alert_store num0) raise0 (MkState [] []) alert_wf_empty (conj eq_refl eq_refl)).
Defined.
