(* ===== verification/AlertPolicy.v ===== *)
(** * Alerts: counting, paging, pruning and listing

    What the alert store's policies promise: every report is counted once, an alert that pages names
    its owner, runbook, impact and recovery condition, pruning removes exactly the old resolved
    alerts, and a listing is the requested page of the matching alerts, latest first. *)

From Stdlib Require Import ZArith QArith Lia String Ascii.
From stdpp Require Import base list strings relations sorting.
From S2P Require Import Prelude OMap Json Store AlertStore AlertFacts.
#[local] Open Scope stdpp_scope.
Import AlertStore.

(** ** Counting reports *)

Definition weight (key : string) (a : Alert) : Z := if String.eqb (dedupeKey a) key then occurrences a else 0.

(** How many reports of a key the store has counted. *)
Definition reports (key : string) (st : State) : Z := foldr (λ a n, weight key a + n) 0 (dump st).

Lemma reports_app key l1 l2 :
  foldr (λ a n, weight key a + n) 0 (l1 ++ l2) =
  foldr (λ a n, weight key a + n) 0 l1 + foldr (λ a n, weight key a + n) 0 l2.
Proof. induction l1 as [|a l1 IH]; simpl; lia. Qed.

Lemma reports_replace key k a a' (m : omap Alert) :
  om_get k m = Some a →
  foldr (λ a n, weight key a + n) 0 (om_vals (om_set k a' m)) =
  foldr (λ a n, weight key a + n) 0 (om_vals m) + weight key a' - weight key a.
Proof.
  intros Hk. unfold om_set. replace (om_has k m) with true by (symmetry; apply om_has_spec; eauto).
  unfold om_vals. induction m as [|[j b] m IH]; [done|]. simpl in Hk. csimpl. destruct (String.eqb k j); csimpl.
  - injection Hk as ->. lia.
  - rewrite IH by done. lia.
Qed.

Lemma reports_set key k a a' st idx :
  wf st → om_get k (alerts st) = Some a → id a' = id a →
  reports key (setAlert a' st <| dedupeIndex := idx |>) = reports key st + weight key a' - weight key a.
Proof.
  intros Hwf Hk Hid. unfold reports, dump. simpl. rewrite Hid, (proj1 (wf_id _ Hwf _ _ Hk)).
  by apply reports_replace.
Qed.

Lemma reports_new key a st idx :
  om_get (id a) (alerts st) = None →
  reports key (setAlert a st <| dedupeIndex := idx |>) = reports key st + weight key a.
Proof.
  intros Hn. unfold reports, dump. simpl. rewrite om_keys_set_new, om_vals_snoc by done.
  rewrite reports_app. simpl. lia.
Qed.

Lemma enforceCap_reports key ts st : wf st → reports key (enforceCap ts st).1 = reports key st.
Proof.
  intros Hwf. unfold enforceCap. destruct (_ <? _)%nat; [done|]. destruct (oldest _) as [a|] eqn:Ho; [|done].
  apply oldest_in, elem_of_filter_bool in Ho as [_ [Ha Hin]%elem_of_filter_bool].
  apply dump_get in Hin; [|done]. cbn [fst]. rewrite (reports_set key (id a) a _ st) by done.
  unfold weight. simpl. lia.
Qed.

Lemma bump_core num_str b ts a :
  id (bump num_str b ts a) = id a ∧ dedupeKey (bump num_str b ts a) = dedupeKey a ∧
  occurrences (bump num_str b ts a) = occurrences a + 1.
Proof. unfold bump. repeat (case_match; simpl); by split_and!. Qed.

(** Every report counts once: a successful report raises the count of its own key by exactly
    one and leaves the count of every other key as it was, whether it bumps an active alert, reopens
    a recent one, or files a new one (resolving another to stay under the cap). *)
Theorem ingest_counts_once num_str e b st r key :
  wf st → truthy (newId e) = true → om_get (newId e) (alerts st) = None →
  so_res (o_step (ingest num_str e b st)) = Ok r →
  reports key (so_mem (o_step (ingest num_str e b st))) =
    reports key st + (if String.eqb (i_dedupeKey b) key then 1 else 0).
Proof.
  intros Hwf Hid Hfresh. unfold ingest.
  destruct (to_bool (i_alertType b)); cbv beta iota delta [negb]; [|done].
  destruct (truthy (i_dedupeKey b)); [|done]. destruct (to_bool (i_summary b)); [|done]. cbv zeta.
  rewrite (index_truthy _ _ Hwf).
  assert (Hc : ∀ A (o : Outcome A) r, oc_persist o = true → so_res (o_step (commitMutation e st o)) = Ok r →
                 so_mem (o_step (commitMutation e st o)) = oc_state o).
  { intros A o r' Hp. unfold commitMutation. rewrite Hp. by destruct (persist e _). }
  destruct (om_get (i_dedupeKey b) (dedupeIndex st)) as [i|] eqn:Hidx.
  - apply (wf_exact _ Hwf) in Hidx as (a & Ha & Hk & Act). rewrite Ha. intros Hok.
    rewrite (Hc _ _ r) by done. cbn [oc_state].
    destruct (bump_core num_str b (now e 0) a) as (Ei & Ek & Eo).
    etrans; [exact (reports_set key i a (bump num_str b (now e 0) a) st (dedupeIndex st) Hwf Ha Ei)|].
    unfold weight. rewrite Ek, Eo, Hk. destruct (String.eqb _ _); lia.
  - destruct (List.find _ _) as [a|] eqn:Hf.
    + apply List.find_some in Hf as [Hin Hr]. apply list_elem_of_In, (dump_get _ _ Hwf) in Hin.
      unfold recentlyResolved in Hr. apply andb_true_iff in Hr as [[Hk%String.eqb_eq Hres]%andb_true_iff _].
      intros Hok. rewrite (Hc _ _ r) by done. cbn [oc_state].
      rewrite (reports_set key (id a) a _ st) by done. unfold weight. simpl. rewrite Hk.
      destruct (String.eqb _ _); lia.
    + pose proof (enforceCap_sys (now e 0) st Hwf) as Hs.
      pose proof (enforceCap_reports key (now e 0) st Hwf) as Hrep.
      destruct (enforceCap (now e 0) st) as [st1 evs]. simpl in Hs, Hrep. intros Hok.
      rewrite (Hc _ _ r) by done. cbn [oc_state]. rewrite reports_new.
      * rewrite Hrep. done.
      * simpl. destruct (om_get (newId e) (alerts st1)) as [a1|] eqn:E; [|done].
        destruct Hs as [_ Hs]. destruct (Hs _ _ E) as (a & Ha & _). congruence.
Qed.

Lemma ingest_counts_once_witness :
  let st := w_mem (after w0 raise0) in
  reports "mcp_missing:ada" st = 1 ∧
  reports "mcp_missing:ada" (so_mem (o_step (ingest num0 (env_at 5000 "alert_9") report0 st))) = 1 + 1.
Proof.
  split; [by vm_compute|].
  destruct (so_res (o_step (ingest num0 (env_at 5000 "alert_9") report0 (w_mem (after w0 raise0))))) as [r|] eqn:E;
    [|vm_compute in E; discriminate E].
  refine (ingest_counts_once num0 (env_at 5000 "alert_9") report0 (w_mem (after w0 raise0)) r "mcp_missing:ada" _ eq_refl eq_refl E).
  exact (@st_exec_wf _ _ _ _ (alert_store num0) raise0 (MkState [] []) alert_wf_empty (conj eq_refl eq_refl)).
Defined.

(** ** Paging *)

(** What an operator needs of an alert that pages. *)
Definition paging_ok (a : Alert) : Prop :=
  pages (severity a) = true →
  actionable a = true ∧ (is_Some (owner a) ∨ is_Some (assignee a)) ∧ is_Some (runbook a) ∧
  is_Some (impact a) ∧ is_Some (recoveryCondition a) ∧ correlation a ≠ [].

Lemma push_if_nil b n l : push_if b n l = [] → b = false ∧ l = [].
Proof. unfold push_if. destruct b; [intros H; by apply app_nil in H as [_ ?]|done]. Qed.

Lemma is_None_b_false {A} (o : option A) : is_None_b o = false → is_Some o.
Proof. destruct o; [eauto|done]. Qed.

(** A decision to page is only taken when nothing is missing. *)
Lemma buildActionability_pages i :
  let ac := buildActionability i in
  pages (ac_severity ac) = true →
  ac_actionable ac = true ∧ (is_Some (ac_owner ac) ∨ is_Some (ac_assignee ac)) ∧ is_Some (ac_runbook ac) ∧
  is_Some (ac_impact ac) ∧ is_Some (ac_recoveryCondition ac) ∧ ac_correlation ac ≠ [].
Proof.
  unfold buildActionability. cbn [ac_severity ac_actionable ac_owner ac_assignee ac_runbook ac_impact
    ac_recoveryCondition ac_correlation ac_missing].
  destruct (pages (normalizeSeverity (in_severity i))) eqn:Hp; cbn [andb]; [|by rewrite Hp].
  match goal with |- context [push_if ?b ?n ?l] => destruct (push_if b n l) as [|m ms] eqn:Hm end; [|done].
  cbn [negb]. intros _. apply push_if_nil in Hm as [Hc Hm]. apply push_if_nil in Hm as [H4 Hm].
  apply push_if_nil in Hm as [H3 Hm]. apply push_if_nil in Hm as [H2 Hm]. apply push_if_nil in Hm as [H1 _].
  apply is_None_b_false in H2, H3, H4. split_and!; try done.
  - apply andb_false_iff in H1 as [H1%is_None_b_false|H1%is_None_b_false]; auto.
  - by destruct (normalizeCorrelation _ _ _ _).
Qed.

(** The fields paging depends on are the same. *)
Definition same_paging (a a' : Alert) : Prop :=
  (severity a', actionable a', owner a', assignee a', runbook a', impact a', recoveryCondition a', correlation a') =
  (severity a, actionable a, owner a, assignee a, runbook a, impact a, recoveryCondition a, correlation a).

Lemma same_paging_ok a a' : same_paging a a' → paging_ok a → paging_ok a'.
Proof.
  unfold same_paging, paging_ok. intros E. injection E as E1 E2 E3 E4 E5 E6 E7 E8.
  by rewrite E1, E2, E3, E4, E5, E6, E7, E8.
Qed.

Definition all_paging_ok (st : State) : Prop := ∀ k a, om_get k (alerts st) = Some a → paging_ok a.

Lemma all_set a st idx : all_paging_ok st → paging_ok a → all_paging_ok (setAlert a st <| dedupeIndex := idx |>).
Proof.
  intros H Ha k b. simpl. rewrite om_get_set. destruct (String.eqb _ _); [by intros [= <-]|apply H].
Qed.

Lemma all_set' a st : all_paging_ok st → paging_ok a → all_paging_ok (setAlert a st).
Proof. intros H Ha. exact (all_set a st (dedupeIndex st) H Ha). Qed.

Lemma commit_all {A} e st (o : Outcome A) :
  all_paging_ok st → all_paging_ok (oc_state o) → all_paging_ok (so_mem (o_step (commitMutation e st o))).
Proof. intros H H'. unfold commitMutation. destruct (oc_persist o); [|done]. by destruct (persist e _). Qed.

Lemma all_get st a : all_paging_ok st → a ∈ dump st → NoDup (om_keys (alerts st)) → paging_ok a.
Proof. intros H (k & Hin)%om_vals_get Hnd. eapply H. by apply elem_of_om_get. Qed.

Lemma enforceCap_all ts st : wf st → all_paging_ok st → all_paging_ok (enforceCap ts st).1.
Proof.
  intros Hwf H. unfold enforceCap. destruct (_ <? _)%nat; [done|]. destruct (oldest _) as [a|] eqn:Ho; [|done].
  apply oldest_in, elem_of_filter_bool in Ho as [_ [_ Hin]%elem_of_filter_bool].
  apply all_set; [done|]. apply (same_paging_ok a); [done|]. by eapply all_get; [..|apply Hwf].
Qed.

Lemma ingest_all num_str e b st :
  wf st → all_paging_ok st → all_paging_ok (so_mem (o_step (ingest num_str e b st))).
Proof.
  intros Hwf H. unfold ingest.
  destruct (to_bool (i_alertType b)); cbv beta iota delta [negb]; [|done].
  destruct (truthy (i_dedupeKey b)); [|done]. destruct (to_bool (i_summary b)); [|done]. cbv zeta.
  rewrite (index_truthy _ _ Hwf).
  destruct (match om_get (i_dedupeKey b) (dedupeIndex st) with Some _ => _ | None => _ end) as [a|] eqn:Ha.
  - apply commit_all; [done|]. apply all_set'; [done|]. apply (same_paging_ok a).
    + unfold bump, same_paging. repeat (case_match; simpl); done.
    + destruct (om_get (i_dedupeKey b) (dedupeIndex st)); [|done]. by eapply H.
  - destruct (List.find _ _) as [a|] eqn:Hf.
    + apply List.find_some in Hf as [Hin _]. apply commit_all; [done|]. apply all_set; [done|].
      apply (same_paging_ok a); [done|]. eapply all_get; [done|by apply list_elem_of_In|apply Hwf].
    + pose proof (enforceCap_all (now e 0) st Hwf H) as Hc. destruct (enforceCap (now e 0) st) as [st1 evs].
      apply commit_all; [done|]. apply all_set; [done|]. intros Hp.
      exact (buildActionability_pages _ Hp).
Qed.

Lemma resolveMatches_all e n ms st out :
  all_paging_ok st → all_paging_ok (resolveMatches e n ms st out).1.
Proof.
  revert n st out. induction ms as [|[key i] ms IH]; intros n st out H; simpl; [done|].
  destruct (om_get i (alerts st)) as [a|] eqn:Ha; [|by apply IH]. destruct (resolved a); [by apply IH|].
  apply IH. apply all_set; [done|]. apply (same_paging_ok a); [done|]. by eapply H.
Qed.

(** The plain field writes of an edit that touches no paging field leave them alone. *)
Lemma untouched_paging fields a : actionFieldsTouched fields = false → same_paging a (updateAlert_fields fields a).
Proof.
  unfold actionFieldsTouched. simpl. rewrite !orb_false_iff. intros (H1 & H2 & H3 & H4 & H5 & H6 & H7 & _).
  unfold updateAlert_fields. rewrite H1, H2, H3, H4, H5, H6, H7. simpl.
  unfold same_paging. destruct (prop fields "tags"), (defined fields "linkedTaskId"); done.
Qed.

(** An assignment names somebody. *)
Definition names_assignee (op : Op) : Prop :=
  match op with
  | OpTransition _ "assigned" meta => to_bool (m_assignee meta) = true → is_Some (normalizeText (m_assignee meta) 128)
  | _ => True
  end.

Lemma applyTransition_paging ts s meta a :
  (s = "assigned" → to_bool (m_assignee meta) = true → is_Some (normalizeText (m_assignee meta) 128)) →
  paging_ok a → paging_ok (applyTransition ts s meta a).
Proof.
  intros Hn Ha. unfold applyTransition.
  assert (Hif : ∀ (c : bool) x y, paging_ok x → paging_ok y → paging_ok (if c then x else y)) by (by intros []).
  destruct (String.eqb_spec s "assigned") as [->|]; simpl.
  - destruct (to_bool (m_assignee meta)) eqn:Hb; [|by apply (same_paging_ok a)].
    unfold paging_ok in *. simpl. intros Hp. destruct (Ha Hp) as (H1 & _ & H2).
    split; [done|]. split; [right; by apply Hn|done].
  - repeat (apply Hif || by apply (same_paging_ok a)).
Qed.

(** Nobody is paged without what they need: every operation, except an assignment that names
    nobody, preserves that an alert of warning or critical severity is marked actionable and has an
    owner or an assignee, a runbook, an impact, a recovery condition and a correlation. *)
Theorem paging_alerts_are_actionable num_str e op st :
  wf st → names_assignee op → all_paging_ok st → all_paging_ok (so_mem (exec num_str (e, op) st)).
Proof.
  intros Hwf Hn H. destruct op as [b|key|p|k s meta|k au tx|k fields|k|age]; unfold exec; cbn [fst snd forget so_mem].
  - by apply ingest_all.
  - unfold autoResolve. destruct (truthy_opt _) as [i|]; [|done]. destruct (om_get i (alerts st)) as [a|] eqn:Ha; [|done].
    destruct (resolved a); [done|]. apply commit_all; [done|]. apply all_set; [done|].
    apply (same_paging_ok a); [done|by eapply H].
  - unfold autoResolveByPrefix. destruct (List.filter _ _) as [|m ms]; [done|].
    pose proof (resolveMatches_all e 0 (m :: ms) st [] H) as Hr.
    destruct (resolveMatches _ _ _ _ _) as [st' out]. by apply commit_all.
  - unfold transition. destruct (om_get k (alerts st)) as [a|] eqn:Ha; [|done]. destruct (negb _); [done|].
    assert (Hp : paging_ok (applyTransition (now e 0) s meta a)).
    { apply applyTransition_paging; [by intros ->|by eapply H]. }
    apply commit_all; [done|]. simpl. destruct (String.eqb s "resolved"); [by apply all_set|by apply all_set'].
  - unfold addNote. destruct (om_get k (alerts st)) as [a|] eqn:Ha; [|done].
    destruct (normalizeText tx 2048); [|done]. apply commit_all; [done|]. apply all_set'; [done|].
    apply (same_paging_ok a); [done|by eapply H].
  - unfold updateAlert. destruct (om_get k (alerts st)) as [a|] eqn:Ha; [|done]. apply commit_all; [done|].
    apply all_set'; [done|]. destruct (actionFieldsTouched fields) eqn:Ht.
    + intros Hp. exact (buildActionability_pages _ Hp).
    + apply (same_paging_ok a); [by apply untouched_paging|by eapply H].
  - unfold deleteAlert. destruct (om_get k (alerts st)) as [a|] eqn:Ha; [|done]. apply commit_all; [done|].
    intros j b. case_bool_decide; simpl; rewrite om_get_del; destruct (String.eqb k j); try done; apply H.
  - unfold pruneResolved. pose proof (prune_filter st (prunable (now e 0) age) Hwf) as Hpf.
    destruct (om_keys _) as [|i rest]; [done|]. apply commit_all; [done|].
    cbn [oc_state over]. unfold State_settable, eta. cbn [dedupeIndex]. rewrite Hpf. intros j b Hj. simpl in Hj.
    apply (om_get_filter (λ _ a, negb (prunable (now e 0) age a))) in Hj as [Hj _]; [by eapply H|apply Hwf].
Qed.

(** An alert that pages, owned by nobody in particular but assigned to Bob. *)
Definition assigned_report : IngestArgs :=
  MkIngest (JStr "disk") "disk:1" (JStr "critical") (JStr "backend") JNull (JStr "disk full") JNull JUndef
    JUndef (JStr "bob") (JStr "docs/disk.md") (JStr "no writes") (JStr "space freed") JUndef JUndef.

Definition blank : jval := JStr " ".

Lemma paging_alerts_are_actionable_witness :
  let st := w_mem (after w0 (env_at 1 "alert_1", OpIngest assigned_report)) in
  List.map severity (dump st) = ["critical"] ∧ all_paging_ok st.
Proof.
  split; [by vm_compute|].
  apply (paging_alerts_are_actionable num0 (env_at 1 "alert_1") (OpIngest assigned_report) (MkState [] []));
    [exact alert_wf_empty|exact I|by intros k a].
Defined.

(** The exception is real: assigning an alert to a blank name is accepted, clears its assignee,
    and leaves an alert of critical severity, marked actionable, with no owner and no assignee. *)
Theorem blank_assignment_pages_nobody :
  let st := w_mem (after w0 (env_at 1 "alert_1", OpIngest assigned_report)) in
  let o := transition (env_at 2 "alert_2") "alert_1" "assigned" (MkMeta None blank None) st in
  match so_res (o_step o) with
  | Ok a => pages (severity a) = true ∧ actionable a = true ∧ owner a = None ∧ assignee a = None
  | Throw _ => False
  end.
Proof. by vm_compute. Qed.

(** ** Pruning *)

(** Pruning removes exactly the resolved alerts older than the limit, keeps every other alert in
    place, and reports how many it removed. *)
Theorem prune_exact e age st :
  wf st → is_ok (so_res (o_step (pruneResolved e age st))) = true →
  let st' := so_mem (o_step (pruneResolved e age st)) in
  dedupeIndex st' = dedupeIndex st ∧
  alerts st' = List.filter (λ p, negb (prunable (now e 0) age p.2)) (alerts st) ∧
  so_res (o_step (pruneResolved e age st)) = Ok (Z.of_nat (length (alerts st) - length (alerts st'))).
Proof.
  intros Hwf. unfold pruneResolved. pose proof (prune_filter st (prunable (now e 0) age) Hwf) as Hpf.
  assert (Hlen : length (om_keys (List.filter (λ p, prunable (now e 0) age p.2) (alerts st))) =
    (length (alerts st) - length (List.filter (λ p : string * Alert, negb (prunable (now e 0) age p.2)) (alerts st)))%nat).
  { unfold om_keys. rewrite length_fmap. clear Hpf. generalize (prunable (now e 0) age). intros P.
    generalize (alerts st). intros m.
    assert (length (List.filter (λ p : string * Alert, P p.2) m) +
            length (List.filter (λ p : string * Alert, negb (P p.2)) m) = length m)%nat; [|lia].
    induction m as [|p m IH]; [done|]. simpl. destruct (P p.2); simpl; lia. }
  destruct (om_keys _) as [|i rest]; simpl.
  - intros _. rewrite <-Hpf in *. simpl in *. split_and!; [done..|]. by rewrite <-Hlen.
  - unfold commitMutation. cbn [oc_persist]. destruct (persist e _); [|done]. intros _. simpl in *.
    rewrite Hpf in *. split_and!; [done..|]. by rewrite <-Hlen.
Qed.

Lemma prune_exact_witness :
  let st := w_mem (after (after w0 raise0) recover0) in
  let st' := so_mem (o_step (pruneResolved (env_at 9000 "x") 1000 st)) in
  length (alerts st) = 1%nat ∧ alerts st' = [] ∧
  alerts st' = List.filter (λ p, negb (prunable 9000 1000 p.2)) (alerts st).
Proof.
  split; [by vm_compute|]. split; [by vm_compute|].
  refine (proj1 (proj2 (prune_exact (env_at 9000 "x") 1000 (w_mem (after (after w0 raise0) recover0)) _ eq_refl))).
  refine (@st_exec_wf _ _ _ _ (alert_store num0) recover0 (w_mem (after w0 raise0)) _ I).
  exact (@st_exec_wf _ _ _ _ (alert_store num0) raise0 (MkState [] []) alert_wf_empty (conj eq_refl eq_refl)).
Defined.

(** ** Listing *)

Definition latest_first : relation Alert := λ a b, lastSeenAt b ≤ lastSeenAt a.

Lemma insert_latest_perm a l : insert_latest a l ≡ₚ a :: l.
Proof. induction l as [|b l IH]; simpl; [done|]. destruct (_ <? _); [done|]. rewrite IH. constructor. Qed.

Lemma insert_latest_sorted a l : Sorted latest_first l → Sorted latest_first (insert_latest a l).
Proof.
  induction l as [|b l IH]; simpl; intros Hs; [repeat constructor|].
  destruct (Z.ltb_spec (lastSeenAt b) (lastSeenAt a)).
  - constructor; [done|]. constructor. unfold latest_first. lia.
  - apply Sorted_inv in Hs as [Hs Hhd]. constructor; [by apply IH|].
    destruct l as [|c l]; simpl; [constructor; unfold latest_first; lia|].
    destruct (_ <? _); constructor; [unfold latest_first; lia|by apply HdRel_inv in Hhd].
Qed.

Lemma sort_latest_spec l : sort_latest l ≡ₚ l ∧ Sorted latest_first (sort_latest l).
Proof.
  unfold sort_latest. assert (H : ∀ acc, Sorted latest_first acc →
    foldl (λ s a, insert_latest a s) acc l ≡ₚ acc ++ l ∧ Sorted latest_first (foldl (λ s a, insert_latest a s) acc l)).
  { induction l as [|a l IH]; intros acc Ha; simpl; [by rewrite app_nil_r|].
    destruct (IH (insert_latest a acc)) as [H1 H2]; [by apply insert_latest_sorted|]. split; [|done].
    rewrite H1, insert_latest_perm. apply (Permutation_middle acc l a). }
  by destruct (H []) as [H1 H2]; [constructor|].
Qed.

Lemma js_slice_page {A} (l : list A) from n :
  0 ≤ from → 0 ≤ n → js_slice l from (from + n) = firstn (Z.to_nat n) (skipn (Z.to_nat from) l).
Proof.
  intros Hf Hn. unfold js_slice, slice_bound.
  destruct (Z.ltb_spec from 0); [lia|]. destruct (Z.ltb_spec (from + n) 0); [lia|].
  destruct (decide (Z.to_nat from ≤ length l)%nat).
  - rewrite (Z.min_l from) by lia. destruct (decide (from + n ≤ Z.of_nat (length l))).
    + rewrite Z.min_l by lia. f_equal. lia.
    + rewrite Z.min_r by lia. rewrite !firstn_all2; [done|rewrite length_skipn; lia..].
  - rewrite !Z.min_r by lia. rewrite (skipn_all2 (n := Z.to_nat from)) by lia.
    rewrite Nat.sub_diag. by rewrite firstn_nil.
Qed.

(** A listing with a non-negative limit and offset is a page of the matching alerts, sorted by
    last sighting, latest first, and never longer than 500. *)
Theorem list_alerts_page f st :
  0 ≤ int_param (f_limit f) 100 → 0 ≤ int_param (f_offset f) 0 →
  ∃ all, all ≡ₚ List.filter (matches f) (dump st) ∧ Sorted latest_first all ∧
    listAlerts f st = firstn (Z.to_nat (Z.min (int_param (f_limit f) 100) 500))
                        (skipn (Z.to_nat (int_param (f_offset f) 0)) all) ∧
    (length (listAlerts f st) ≤ 500)%nat.
Proof.
  intros Hl Ho. destruct (sort_latest_spec (List.filter (matches f) (dump st))) as [Hp Hs].
  exists (sort_latest (List.filter (matches f) (dump st))). unfold listAlerts. rewrite js_slice_page by lia.
  split_and!; [done..|]. rewrite length_firstn. lia.
Qed.

Definition no_filter (limit : string) : Filters := MkFilters None None None None None (Some limit) None.

Lemma list_alerts_page_witness :
  let st := w_mem (after w0 raise0) in
  List.map id (listAlerts (no_filter "10") st) = ["alert_1"] ∧ (length (listAlerts (no_filter "10") st) ≤ 500)%nat.
Proof.
  split; [by vm_compute|].
  destruct (list_alerts_page (no_filter "10") (w_mem (after w0 raise0))) as (all & _ & _ & _ & H); [done|done|exact H].
Defined.

(** The bound of 500 is lost on a negative limit: asking for a limit of -1 returns every alert
    but one, however many there are. *)
Theorem negative_limit_unbounded st :
  length (listAlerts (no_filter "-1") st) = (length (dump st) - 1)%nat.
Proof.
  unfold listAlerts. replace (int_param (f_limit (no_filter "-1")) 100) with (-1) by (by vm_compute).
  replace (int_param (f_offset (no_filter "-1")) 0) with 0 by (by vm_compute).
  replace (List.filter (matches (no_filter "-1")) (dump st)) with (dump st).
  - destruct (sort_latest_spec (dump st)) as [Hp _]. apply Permutation_length in Hp.
    unfold js_slice, slice_bound. rewrite Hp. simpl. rewrite length_firstn, length_skipn, Hp.
    destruct (length (dump st)) eqn:E; lia.
  - symmetry. apply List.forallb_filter_id. by apply forallb_forall.
Qed.
