(* ===== verification/ApprovalStore.v ===== *)
(** * Tool approvals ([lib/approval-store.js]): data and operations

    An agent's runtime asks for permission to run a tool; the owner bound to the agent and the
    project room answers from a direct room; the runtime consumes the answer. [ApprovalFacts] and
    [ApprovalSafety] hold the theorems. Audit entries are kept without their time stamp. The hash and
    the derivation of a reusable scope from runner metadata ([lib/execution-authorization.js]) are
    parameters: nothing proved depends on what they compute. *)

From Stdlib Require Import ZArith QArith Qround Lia String Ascii.
From stdpp Require Import base list strings relations.
From S2P Require Import Prelude OMap Json Store.
#[local] Open Scope stdpp_scope.

Module ApprovalStore.

Definition DEFAULT_TTL_MS : Z := 5 * 60 * 1000.
Definition RECEIPT_TTL_MS : Z := 7 * 24 * 60 * 60000.
Definition TERMINAL_STATES : list string := ["approved"; "denied"; "expired"; "consumed"].
Definition SCOPED_APPROVAL_ACTIONS : list string := ["approve_once"; "approve_task"; "approve_always"; "deny"].

Record Authorization : Type := MkAuthorization {
  au_agentId : string; au_taskId : option string; au_workspace : string; au_mayWrite : bool;
  au_environmentId : option string; au_scope_kind : string; au_scope_key : string;
  au_scope_description : string; au_taskEpoch : option Z;
}.
#[export] Instance Authorization_settable : Settable Authorization := λ a,
  MkAuthorization (au_agentId a) (au_taskId a) (au_workspace a) (au_mayWrite a) (au_environmentId a)
    (au_scope_kind a) (au_scope_key a) (au_scope_description a) (au_taskEpoch a).

Record Binding : Type := MkBinding {
  b_agent : string; b_project : string; b_projectRoomId : string; b_ownerMxid : string;
  b_ownerDmRoomId : string; b_authorityId : option string; b_active : bool; b_createdAt : Z;
  b_updatedAt : Z; b_agentJoined : option bool; b_membershipCheckedAt : option Z;
  b_deactivatedAt : option Z; b_deactivatedReason : option string;
}.
#[export] Instance Binding_settable : Settable Binding := λ b,
  MkBinding (b_agent b) (b_project b) (b_projectRoomId b) (b_ownerMxid b) (b_ownerDmRoomId b)
    (b_authorityId b) (b_active b) (b_createdAt b) (b_updatedAt b) (b_agentJoined b)
    (b_membershipCheckedAt b) (b_deactivatedAt b) (b_deactivatedReason b).

Record Request : Type := MkRequest {
  id : string; agent : string; runtime : string; project : option string; projectRoomId : option string;
  ownerMxid : option string; ownerDmRoomId : option string; upstreamRequestId : string;
  routerApprovalId : option string; toolName : string; description : string; inputPreview : string;
  inputDigest : option string; status : string; decision : option string; denialReason : option string;
  createdAt : Z; expiresAt : Z; decidedAt : option Z; consumedAt : option Z;
  decisionEventId : option string; bindingAuthority : option string;
  authorization : option Authorization; authorizationAction : option string; grantId : option string;
  matrixEventId : option string;
}.
#[export] Instance Request_settable : Settable Request := λ r,
  MkRequest (id r) (agent r) (runtime r) (project r) (projectRoomId r) (ownerMxid r) (ownerDmRoomId r)
    (upstreamRequestId r) (routerApprovalId r) (toolName r) (description r) (inputPreview r)
    (inputDigest r) (status r) (decision r) (denialReason r) (createdAt r) (expiresAt r) (decidedAt r)
    (consumedAt r) (decisionEventId r) (bindingAuthority r) (authorization r) (authorizationAction r)
    (grantId r) (matrixEventId r).

Record Grant : Type := MkGrant {
  gr_id : string; gr_agent : string; gr_agentId : string; gr_project : option string;
  gr_projectRoomId : option string; gr_ownerMxid : option string; gr_ownerDmRoomId : option string;
  gr_bindingAuthority : option string; gr_workspace : string; gr_scope : string;
  gr_taskId : option string; gr_taskEpoch : option Z; gr_scopeKey : string; gr_kind : string;
  gr_description : string; gr_createdAt : Z; gr_sourceRequestId : string;
  gr_sourceEventId : option string; gr_revokedAt : option Z; gr_revokedBy : option string;
}.
#[export] Instance Grant_settable : Settable Grant := λ g,
  MkGrant (gr_id g) (gr_agent g) (gr_agentId g) (gr_project g) (gr_projectRoomId g) (gr_ownerMxid g)
    (gr_ownerDmRoomId g) (gr_bindingAuthority g) (gr_workspace g) (gr_scope g) (gr_taskId g)
    (gr_taskEpoch g) (gr_scopeKey g) (gr_kind g) (gr_description g) (gr_createdAt g)
    (gr_sourceRequestId g) (gr_sourceEventId g) (gr_revokedAt g) (gr_revokedBy g).

Record AuditEntry : Type := MkAudit { a_type : string; a_detail : list (string * jval) }.

Record State : Type := MkState {
  bindings : omap Binding; requests : omap Request; grants : omap Grant; audit : list AuditEntry;
}.
#[export] Instance State_settable : Settable State := λ s,
  MkState (bindings s) (requests s) (grants s) (audit s).

Definition empty : State := MkState [] [] [] [].

(** ** Input validation *)

Definition text (v : jval) (max : nat) : result string :=
  let t := match v with JStr s => trim s | _ => EmptyString end in
  if negb (truthy t) || (max <? String.length t)%nat then Throw "bad_request" else Ok t.

Definition optionalText (v : jval) (max : nat) : result string :=
  match v with
  | JNull | JUndef => Ok EmptyString
  | _ =>
      let t := match v with JStr s => trim s | _ => EmptyString end in
      if (max <? String.length t)%nat then Throw "bad_request" else Ok t
  end.

Definition MXID_RE : string → bool := matrix_id "@"%char.
Definition ROOM_ID_RE : string → bool := matrix_id "!"%char.

Definition fullMxid (v : jval) : result string :=
  let* s := text v 255 in if MXID_RE s then Ok s else Throw "bad_request".

Definition roomId (v : jval) : result string :=
  let* s := text v 255 in if ROOM_ID_RE s then Ok s else Throw "bad_request".

Definition nul : string := String (ascii_of_nat 0) EmptyString.

(** [`${agent}\u0000${projectRoomId}`] *)
Definition bindingKey (agent : string) (room : option string) : string :=
  agent +:+ nul +:+ default "null" room.

(** [input?.a ?? input?.b] *)
Definition either (input : jval) (a b : string) : jval := nullish_or (prop input a) (prop input b).

Definition ms (t : Z) : jval := JNum (Fin (inject_Z t)).
(** [t || null]: 0 is falsy. *)
Definition ms_or_null (o : option Z) : jval := match o with Some 0 | None => JNull | Some t => ms t end.

(** [a || b] on times: absent and 0 are falsy. *)
Definition or_ms (o : option Z) (d : Z) : Z := match o with Some 0 => d | Some t => t | None => d end.

(** ** The world around a call *)

Inductive SaveResult : Type :=
| Saved         (* the file was replaced *)
| NotWritten    (* an error before the rename *)
| WrittenThrew. (* the file was replaced, then [chmod] failed *)

Record Env : Type := MkEnv {
  now : nat → Z;                     (* successive readings of the clock *)
  random : nat → string;             (* [randomBytes(16).toString('hex')], successive calls *)
  saves : SaveResult;
  isTaskActive : string → bool;
  getTaskEpoch : string → option Z;  (* [None]: not a non-negative safe integer *)
  isAgentCurrent : string → string → bool;
}.

(** What [_save] does at the end of a handler that computed [next] and returns [a]; [kept] is the
    memory left when it throws. *)
Definition saving {A} (e : Env) (kept next : State) (a : A) : step_out State State A :=
  match saves e with
  | Saved => StepOut (Ok a) next (Some next)
  | NotWritten => StepOut (Throw "persistence_failed") kept None
  | WrittenThrew => StepOut (Throw "persistence_failed") kept (Some next)
  end.

Definition unchanged {A} (a : A) (st : State) : step_out State State A := StepOut (Ok a) st None.
Definition raise {A} (c : string) (st : State) : step_out State State A := StepOut (Throw c) st None.

Section model.
Context (num_str : num → string) (str_num : string → num) (sha256 : string → string)
        (deriveExecutionAuthorization : jval → option Authorization).
Context (ttlMs : Z) (auditLimit : nat).

Definition json_text (v : jval) : string := default "" (stringify num_str v).

Definition authorization_json (a : Authorization) : jval :=
  JObj ([("agentId", JStr (au_agentId a)); ("taskId", str_or_null (au_taskId a));
         ("workspace", JStr (au_workspace a)); ("mayWrite", JBool (au_mayWrite a));
         ("environmentId", str_or_null (au_environmentId a));
         ("scope", JObj [("kind", JStr (au_scope_kind a)); ("key", JStr (au_scope_key a));
                         ("description", JStr (au_scope_description a))])] ++
        match au_taskEpoch a with Some n => [("taskEpoch", ms n)] | None => [] end).

Definition digestRequest (r : Request) : string :=
  sha256 (json_text (JObj ([
    ("agent", JStr (agent r)); ("runtime", JStr (runtime r)); ("project", str_or_null (project r));
    ("project_room_id", str_or_null (projectRoomId r)); ("owner_mxid", str_or_null (ownerMxid r));
    ("owner_dm_room_id", str_or_null (ownerDmRoomId r)); ("upstream_request_id", JStr (upstreamRequestId r));
    ("tool_name", JStr (toolName r)); ("description", JStr (description r));
    ("input_preview", JStr (inputPreview r))] ++
    match authorization r with
    | Some a => [("authorization", authorization_json a); ("binding_authority", str_or_null (bindingAuthority r))]
    | None => []
    end ++
    [("router_approval_id", str_or_null (truthy_opt (routerApprovalId r)))]))).

Definition is_allow (d : option string) : bool := bool_decide (d = Some "allow").

Definition stableDecisionEventId (r : Request) : string :=
  match truthy_opt (decisionEventId r) with
  | Some i => i
  | None =>
      "approval_decision_" +:+ sha256 (json_text (JObj [
        ("request_id", JStr (id r)); ("decision", JStr (if is_allow (decision r) then "allow" else "deny"));
        ("decided_at", ms (or_ms (decidedAt r) (or_ms (Some (expiresAt r)) (createdAt r))));
        ("input_digest", str_or_null (truthy_opt (inputDigest r)))]))
  end.

Definition publicRecord (r : Request) : jval :=
  JObj ([
    ("id", JStr (id r)); ("agent", JStr (agent r)); ("runtime", JStr (runtime r));
    ("project", str_or_null (project r)); ("project_room_id", str_or_null (projectRoomId r));
    ("owner_mxid", str_or_null (ownerMxid r)); ("owner_dm_room_id", str_or_null (ownerDmRoomId r));
    ("upstream_request_id", JStr (upstreamRequestId r));
    ("router_approval_id", str_or_null (truthy_opt (routerApprovalId r)));
    ("input_digest", str_or_null (inputDigest r)); ("status", JStr (status r));
    ("decision", str_or_null (truthy_opt (decision r)));
    ("decision_event_id", match truthy_opt (decisionEventId r) with
                          | Some i => JStr i
                          | None => match truthy_opt (decision r) with
                                    | Some _ => JStr (stableDecisionEventId r) | None => JNull end
                          end);
    ("denial_reason", str_or_null (truthy_opt (denialReason r)));
    ("created_at", ms (createdAt r)); ("expires_at", ms (expiresAt r));
    ("decided_at", ms_or_null (decidedAt r)); ("consumed_at", ms_or_null (consumedAt r))] ++
    match truthy_opt (authorizationAction r) with Some a => [("authorization_action", JStr a)] | None => [] end ++
    match truthy_opt (grantId r) with Some g => [("grant_id", JStr g)] | None => [] end).

Definition matrixRecord (r : Request) : jval :=
  match publicRecord r with
  | JObj safe =>
      JObj (safe ++ [("tool_name", JStr (toolName r)); ("description", JStr (description r));
                     ("input_preview", JStr (inputPreview r))] ++
            match authorization r with
            | Some a => [("reusable_scope", JObj [("description", JStr (au_scope_description a));
                           ("workspace", JStr (au_workspace a)); ("task_id", str_or_null (au_taskId a))])]
            | None => []
            end)
  | v => v
  end.

(** ** Shared steps *)

(** Append, then drop the oldest entries beyond the limit. *)
Definition _audit (type : string) (detail : list (string * jval)) (st : State) : State :=
  let l := audit st ++ [MkAudit type detail] in
  st <| audit := skipn (length l - auditLimit) l |>.

Definition setRequest (r : Request) (k : string) (st : State) : State :=
  st <| requests := obj_set k r (requests st) |>.

Definition _bindingAuthority (b : Binding) : string :=
  match truthy_opt (b_authorityId b) with
  | Some a => a
  | None => sha256 (json_text (JArr [JStr (b_agent b); JStr (b_project b); JStr (b_projectRoomId b);
              JStr (b_ownerMxid b); JStr (b_ownerDmRoomId b); ms (b_createdAt b)]))
  end.

(** What [_bindingCurrent] reads of a request or of a grant. *)
Definition bindingCurrent (st : State) (agent : string) (room project owner dm authority : option string) : bool :=
  match om_get (bindingKey agent room) (bindings st) with
  | None => false
  | Some b =>
      b_active b && bool_decide (Some (b_project b) = project) && bool_decide (Some (b_ownerMxid b) = owner) &&
      bool_decide (Some (b_ownerDmRoomId b) = dm) &&
      match truthy_opt authority with Some a => String.eqb a (_bindingAuthority b) | None => true end
  end.

Definition _bindingCurrent (st : State) (r : Request) : bool :=
  bindingCurrent st (agent r) (projectRoomId r) (project r) (ownerMxid r) (ownerDmRoomId r) (bindingAuthority r).

Definition epoch_eq (a b : option Z) : bool :=
  match a, b with Some x, Some y => x =? y | _, _ => false end.

Definition _grantCurrent (e : Env) (st : State) (g : Grant) : bool :=
  negb (is_Some_b (gr_revokedAt g)) &&
  bindingCurrent st (gr_agent g) (gr_projectRoomId g) (gr_project g) (gr_ownerMxid g) (gr_ownerDmRoomId g)
    (gr_bindingAuthority g) &&
  isAgentCurrent e (gr_agent g) (gr_agentId g) &&
  (String.eqb (gr_scope g) "always" ||
   (String.eqb (gr_scope g) "task" &&
    match gr_taskId g with
    | Some t => isTaskActive e t && epoch_eq (gr_taskEpoch g) (getTaskEpoch e t)
    | None => false
    end)).

(** [_expire]: a pending request past its deadline is denied; [None] when nothing changed. *)
Definition expired (r : Request) (t : Z) : Request :=
  let r := r <| status := "expired" |> <| decision := Some "deny" |>
             <| denialReason := Some "approval_expired" |> <| decidedAt := Some t |> in
  r <| decisionEventId := Some (stableDecisionEventId r) |>.

Definition _expire (k : string) (t : Z) (st : State) : option (Request * State) :=
  match om_get k (requests st) with
  | None => None
  | Some r =>
      if negb (String.eqb (status r) "pending") || (t <? expiresAt r) then None else
      let r' := expired r t in
      Some (r', _audit "approval.expired" [("requestId", JStr (id r)); ("agent", JStr (agent r))] (setRequest r' k st))
  end.

(** ** Grants *)

Definition listGrants (e : Env) (agent : string) (agentId : option string) (st : State) : list (Grant * bool) :=
  List.map (λ g, (g, _grantCurrent e st g))
    (List.filter (λ g, String.eqb (gr_agent g) agent &&
                       match truthy_opt agentId with Some i => String.eqb (gr_agentId g) i | None => true end)
       (om_vals (grants st))).

Definition revokeGrant (e : Env) (k agent : string) (actor : jval) (st : State)
    : step_out State State (option (Grant * bool)) :=
  match om_get k (grants st) with
  | None => unchanged None st
  | Some g =>
      if negb (String.eqb (gr_agent g) agent) then unchanged None st else
      if is_Some_b (gr_revokedAt g) then unchanged (Some (g, false)) st else
      match text actor 255 with
      | Throw c => raise c st
      | Ok by_ =>
          let g' := g <| gr_revokedAt := Some (now e 0) |> <| gr_revokedBy := Some by_ |> in
          saving e st
            (_audit "authorization.revoked" [("grantId", JStr k); ("agent", JStr agent); ("actor", JStr by_)]
               (st <| grants := obj_set k g' (grants st) |>))
            (Some (g', false))
      end
  end.

(** ** Bindings *)

Definition observeBindingMembership (e : Env) (input : jval) (st : State) : step_out State State (option Binding) :=
  match text (prop input "agent") 128 with
  | Throw c => raise c st
  | Ok agent =>
  match roomId (either input "project_room_id" "projectRoomId") with
  | Throw c => raise c st
  | Ok room =>
      let key := bindingKey agent (Some room) in
      match om_get key (bindings st) with
      | None => unchanged None st
      | Some b =>
          match either input "agent_joined" "agentJoined" with
          | JBool joined =>
              let b' := b <| b_agentJoined := Some joined |> <| b_membershipCheckedAt := Some (now e 0) |> in
              let st' := st <| bindings := obj_set key b' (bindings st) |> in
              saving e st' st' (Some b')
          | _ => raise "bad_request" st
          end
      end
  end end.

(** The pending requests of an agent in a room, denied for a reason. *)
Definition denied (reason : string) (t : Z) (r : Request) : Request :=
  r <| status := "denied" |> <| decision := Some "deny" |> <| denialReason := Some reason |>
    <| decidedAt := Some t |>.

Definition pending_in (agent_ room : string) (r : Request) : bool :=
  String.eqb (status r) "pending" && String.eqb (agent r) agent_ && bool_decide (projectRoomId r = Some room).

Fixpoint denyPendingIn (audited : bool) (agent_ room reason : string) (t : Z) (ks : list string) (st : State) : State :=
  match ks with
  | [] => st
  | k :: rest =>
      denyPendingIn audited agent_ room reason t rest
        match om_get k (requests st) with
        | Some r =>
            if pending_in agent_ room r then
              let st1 := setRequest (denied reason t r) k st in
              if audited then
                _audit "approval.denied" [("requestId", JStr (id r)); ("agent", JStr agent_); ("reason", JStr reason)] st1
              else st1
            else st
        | None => st
        end
  end.

Definition upsertBinding (e : Env) (input : jval) (st : State) : step_out State State Binding :=
  let t := now e 0 in
  match (let* agent := text (prop input "agent") 128 in
         let* project := text (prop input "project") 255 in
         let* room := roomId (either input "project_room_id" "projectRoomId") in
         let* owner := fullMxid (either input "owner_mxid" "ownerMxid") in
         let* dm := roomId (either input "owner_dm_room_id" "ownerDmRoomId") in
         Ok (agent, project, room, owner, dm)) with
  | Throw c => raise c st
  | Ok (agent, project, room, owner, dm) =>
      let key := bindingKey agent (Some room) in
      let previous := om_get key (bindings st) in
      let changedOwner := match previous with
                          | Some p => negb (String.eqb (b_ownerMxid p) owner && String.eqb (b_ownerDmRoomId p) dm)
                          | None => false
                          end in
      let authority := match previous with
                       | Some p => if negb changedOwner && String.eqb (b_project p) project && b_active p
                                   then _bindingAuthority p else random e 0
                       | None => random e 0
                       end in
      let binding := MkBinding agent project room owner dm (Some authority) true
          (match previous with Some p => or_ms (Some (b_createdAt p)) t | None => t end) t
          (match previous with Some p => b_agentJoined p | None => None end)
          (match previous with Some p => b_membershipCheckedAt p | None => None end) None None in
      let st1 := st <| bindings := obj_set key binding (bindings st) |> in
      let st2 := if changedOwner
                 then denyPendingIn true agent room "owner_binding_changed" t (om_keys (requests st1)) st1
                 else st1 in
      let st3 := _audit (if is_Some_b previous then "binding.updated" else "binding.created")
          [("agent", JStr agent); ("project", JStr project); ("projectRoomId", JStr room); ("ownerMxid", JStr owner)] st2 in
      saving e st3 st3 binding
  end.

Definition deactivateBinding (e : Env) (agentValue projectRoomIdValue : jval) (reason : option string) (st : State)
    : step_out State State (option Binding) :=
  match (let* agent := text agentValue 128 in let* room := roomId projectRoomIdValue in Ok (agent, room)) with
  | Throw c => raise c st
  | Ok (agent, room) =>
      let key := bindingKey agent (Some room) in
      match om_get key (bindings st) with
      | None => unchanged None st
      | Some b =>
          if negb (b_active b) then unchanged (Some b) st else
          let why := slice_to 256 <$> truthy_opt reason in
          let b' := b <| b_active := false |> <| b_deactivatedAt := Some (now e 0) |> <| b_deactivatedReason := why |> in
          let st' := _audit "binding_deactivated"
              [("agent", JStr agent); ("projectRoomId", JStr room); ("reason", str_or_null why)]
              (st <| bindings := obj_set key b' (bindings st) |>) in
          saving e st' st' (Some b')
      end
  end.

Definition removeBinding (e : Env) (agentValue projectRoomIdValue : jval) (st : State)
    : step_out State State (option Binding) :=
  match (let* agent := text agentValue 128 in let* room := roomId projectRoomIdValue in Ok (agent, room)) with
  | Throw c => raise c st
  | Ok (agent, room) =>
      let key := bindingKey agent (Some room) in
      match om_get key (bindings st) with
      | None => unchanged None st
      | Some b =>
          let t := now e 0 in
          let st1 := st <| bindings := om_del key (bindings st) |> in
          let st2 := denyPendingIn false agent room "owner_binding_removed" t (om_keys (requests st1)) st1 in
          let st3 := _audit "binding.removed"
              [("agent", JStr agent); ("projectRoomId", JStr room); ("ownerMxid", JStr (b_ownerMxid b))] st2 in
          saving e st3 st3 (Some b)
      end
  end.

(** The filters of [listBindings]; an empty one lets everything through. *)
Definition filter_text (v : jval) : string := match v with JStr s => trim s | _ => EmptyString end.

Definition listBindings (agent project room : string) (includeInactive : bool) (st : State) : list Binding :=
  List.filter (λ b,
      (includeInactive || b_active b) &&
      (negb (truthy agent) || String.eqb (b_agent b) agent) &&
      (negb (truthy project) || String.eqb (b_project b) project || String.eqb (b_projectRoomId b) project) &&
      (negb (truthy room) || String.eqb (b_projectRoomId b) room))
    (om_vals (bindings st)).

(** ** Requests *)

(** The loop of [_createRequest] over the requests: expire what is due; stop at the pending request
    with the same origin. [inr] is the early return. *)
Fixpoint findPending (t : Z) (agent_ runtime_ upstream router : string) (ks : list string) (st : State)
    : result (State * option Request) :=
  match ks with
  | [] => Ok (st, None)
  | k :: rest =>
      let st1 := match _expire k t st with Some (_, st1) => st1 | None => st end in
      match om_get k (requests st1) with
      | None => findPending t agent_ runtime_ upstream router rest st1
      | Some r =>
          if String.eqb (status r) "pending" && String.eqb (agent r) agent_ && String.eqb (runtime r) runtime_ &&
             String.eqb (upstreamRequestId r) upstream then
            throw_if negb (String.eqb (default EmptyString (routerApprovalId r)) router) with "conflict" in
            Ok (st1, Some r)
          else findPending t agent_ runtime_ upstream router rest st1
      end
  end.

Record RequestInput : Type := MkRequestInput {
  q_agent : string; q_runtime : string; q_upstream : string; q_router : string; q_project : string;
  q_room : string; q_tool : string; q_description : string; q_preview : string;
}.

Definition validateRequest (input : jval) (routerApprovalId : jval) : result RequestInput :=
  let* agent := text (prop input "agent") 128 in
  let* rt := text (prop input "runtime") 32 in
  let runtime := lower rt in
  throw_if negb (String.eqb runtime "claude") && negb (String.eqb runtime "codex") with "bad_request" in
  let* upstream := text (either input "upstream_request_id" "upstreamRequestId") 255 in
  let* router := optionalText routerApprovalId 255 in
  throw_if truthy router && negb (String.eqb router upstream) with "bad_request" in
  let* project := optionalText (prop input "project") 255 in
  let* roomRaw := optionalText (either input "project_room_id" "projectRoomId") 255 in
  let* room := (if truthy roomRaw then roomId (JStr roomRaw) else Ok EmptyString) in
  let* tool := text (either input "tool_name" "toolName") 255 in
  let* description := optionalText (prop input "description") (64 * 64) in
  let* preview := optionalText (either input "input_preview" "inputPreview") (64 * 128) in
  Ok (MkRequestInput agent runtime upstream router project room tool description preview).

(** The deadline: the requested one, rounded down and capped, or the default. *)
Definition deadline (t : Z) (input : jval) : Z :=
  match to_number num_str str_num (either input "expires_at" "expiresAt") with
  | Fin q => if Qle_bool q (inject_Z t) then t + ttlMs else Z.min (Qfloor q) (t + ttlMs)
  | _ => t + ttlMs
  end.

(** The reusable scope a request carries: for Codex only, and only as far as the task and the agent
    are still current. *)
Definition requestAuthorization (e : Env) (q : RequestInput) (execution : jval) : option Authorization :=
  match (if String.eqb (q_runtime q) "codex" then deriveExecutionAuthorization execution else None) with
  | None => None
  | Some a0 =>
      let a1 := match truthy_opt (au_taskId a0) with
                | Some t => if isTaskActive e t then a0 else a0 <| au_taskId := None |>
                | None => a0
                end in
      let a2 := match truthy_opt (au_taskId a1) with
                | Some t => match getTaskEpoch e t with
                            | Some n => a1 <| au_taskEpoch := Some n |>
                            | None => a1 <| au_taskId := None |>
                            end
                | None => a1
                end in
      if isAgentCurrent e (q_agent q) (au_agentId a2) then Some a2 else None
  end.

(** The grant that already covers a request. *)
Definition coveringGrant (e : Env) (st : State) (r : Request) : option Grant :=
  match authorization r with
  | None => None
  | Some a =>
      List.find (λ g,
        _grantCurrent e st g && String.eqb (gr_agent g) (agent r) && String.eqb (gr_agentId g) (au_agentId a) &&
        bool_decide (gr_projectRoomId g = projectRoomId r) && bool_decide (gr_project g = project r) &&
        bool_decide (gr_bindingAuthority g = bindingAuthority r) && String.eqb (gr_scopeKey g) (au_scope_key a) &&
        (String.eqb (gr_scope g) "always" || bool_decide (gr_taskId g = au_taskId a)))
        (om_vals (grants st))
  end.

Definition granted (t : Z) (g : Grant) (r : Request) : Request :=
  let r := r <| status := "approved" |> <| decision := Some "allow" |> <| decidedAt := Some t |>
             <| grantId := Some (gr_id g) |> <| authorizationAction := Some ("approve_" +:+ gr_scope g) |> in
  r <| decisionEventId := Some (stableDecisionEventId r) |>.

(** Receipts older than seven days are dropped. *)
Definition dropReceipts (t : Z) (st : State) : State :=
  st <| requests := List.filter (λ p, String.eqb (status p.2) "pending" || negb (expiresAt p.2 <? t - RECEIPT_TTL_MS))
                      (requests st) |>.

Definition unbound (q : RequestInput) (k reason : string) (t expiry : Z) : Request :=
  let r := MkRequest k (q_agent q) (q_runtime q) (truthy_opt (Some (q_project q))) None None None (q_upstream q)
      (truthy_opt (Some (q_router q))) (q_tool q) (q_description q) (q_preview q) None "denied" (Some "deny")
      (Some reason) t expiry (Some t) None None None None None None None in
  r <| decisionEventId := Some (stableDecisionEventId r) |>.

Definition bound (e : Env) (q : RequestInput) (b : Binding) (k : string) (t expiry : Z) (execution : jval) : Request :=
  let r := MkRequest k (q_agent q) (q_runtime q) (Some (b_project b)) (Some (b_projectRoomId b))
      (Some (b_ownerMxid b)) (Some (b_ownerDmRoomId b)) (q_upstream q) (truthy_opt (Some (q_router q))) (q_tool q)
      (q_description q) (q_preview q) None "pending" None None t expiry None None None
      (Some (_bindingAuthority b)) (requestAuthorization e q execution) None None None in
  r <| inputDigest := Some (digestRequest r) |>.

(** The part after the validation: what is stored, and the record answered. *)
Definition fileRequest (e : Env) (q : RequestInput) (input execution : jval) (t : Z) (st : State)
    : result (State * Request) :=
  let* (st1, found) := findPending t (q_agent q) (q_runtime q) (q_upstream q) (q_router q) (om_keys (requests st)) st in
  match found with
  | Some r => Ok (st1, r)
  | None =>
      let k := "approval_" +:+ random e 0 in
      let expiry := deadline t input in
      match listBindings (q_agent q) (q_project q) (q_room q) false st1 with
      | [b] =>
          let r := bound e q b k t expiry execution in
          let st2 := _audit "approval.created" [("requestId", JStr k); ("agent", JStr (q_agent q));
              ("project", str_or_null (project r)); ("projectRoomId", str_or_null (projectRoomId r));
              ("ownerMxid", str_or_null (ownerMxid r))] (setRequest r k st1) in
          match coveringGrant e st2 r with
          | Some g =>
              let r' := granted t g r in
              Ok (_audit "authorization.matched" [("requestId", JStr k); ("grantId", JStr (gr_id g));
                    ("agent", JStr (q_agent q))] (setRequest r' k st2), r')
          | None => Ok (st2, r)
          end
      | bs =>
          let reason := match bs with [] => "owner_binding_missing" | _ => "owner_binding_ambiguous" end in
          let r := unbound q k reason t expiry in
          Ok (_audit "approval.denied" [("requestId", JStr k); ("agent", JStr (q_agent q)); ("reason", JStr reason)]
                (setRequest r k st1), r)
      end
  end.

Definition createRequest (e : Env) (input routerApprovalId execution : jval) (st : State)
    : step_out State State Request :=
  let t := now e 0 in
  let st0 := dropReceipts t st in
  match (let* q := validateRequest input routerApprovalId in fileRequest e q input execution t st0) with
  | Throw c => raise c st
  | Ok (st', r) => saving e st st' r
  end.

Definition getRequest (e : Env) (v : jval) (st : State) : step_out State State (option Request) :=
  let k := filter_text v in
  match om_get k (requests st) with
  | None => unchanged None st
  | Some r =>
      match _expire k (now e 0) st with
      | Some (r', st') => saving e st' st' (Some r')
      | None => unchanged (Some r) st
      end
  end.

(** One clock reading per record; whether anything expired. *)
Fixpoint expireAll (e : Env) (i : nat) (ks : list string) (st : State) (changed : bool) : State * bool :=
  match ks with
  | [] => (st, changed)
  | k :: rest =>
      match _expire k (now e i) st with
      | Some (_, st') => expireAll e (S i) rest st' true
      | None => expireAll e (S i) rest st changed
      end
  end.

Definition listRequests (e : Env) (status_ upstreamPrefix : string) (st : State) : step_out State State (list Request) :=
  let '(st', changed) := expireAll e 0 (om_keys (requests st)) st false in
  let rows := List.filter (λ r, (negb (truthy status_) || String.eqb (status r) status_) &&
                                (negb (truthy upstreamPrefix) || String.prefix upstreamPrefix (upstreamRequestId r)))
                (om_vals (requests st')) in
  if changed then saving e st' st' rows else unchanged rows st'.

(** ** Verdicts *)

(** The answer of a verdict or of a consumption: success, its code, the decision, the record. *)
Record Answer : Type := MkAnswer { ok : bool; code : string; an_decision : option string; an_record : option Request }.

(** [Object.keys(expected).find((key) => expected[key] !== actual[key])] *)
Definition mismatch (r : Request) (input : jval) : option string :=
  fst <$> List.find (λ p : string * (jval * jval), negb (strict_eq p.2.1 p.2.2))
    [("senderMxid", (str_or_null (ownerMxid r), either input "sender_mxid" "senderMxid"));
     ("roomId", (str_or_null (ownerDmRoomId r), either input "room_id" "roomId"));
     ("agent", (JStr (agent r), prop input "agent"));
     ("project", (str_or_null (project r), prop input "project"));
     ("projectRoomId", (str_or_null (projectRoomId r), either input "project_room_id" "projectRoomId"));
     ("inputDigest", (str_or_null (inputDigest r), either input "input_digest" "inputDigest"))].

Definition invalidAction (e : Env) (r : Request) (action : string) : bool :=
  let reusable := match authorization r with
                  | Some a => isAgentCurrent e (agent r) (au_agentId a)
                  | None => false
                  end in
  negb (inb action SCOPED_APPROVAL_ACTIONS) ||
  (inb action ["approve_task"; "approve_always"] && negb reusable) ||
  (String.eqb action "approve_task" &&
   match authorization r with
   | None => true
   | Some a =>
       match truthy_opt (au_taskId a) with
       | None => true
       | Some t => negb (isTaskActive e t) || negb (epoch_eq (au_taskEpoch a) (getTaskEpoch e t))
       end
   end).

(** The reusable grant an [approve_task] or [approve_always] verdict creates. *)
Definition newGrant (k : string) (action : string) (a : Authorization) (t : Z) (r : Request) : Grant :=
  let task := String.eqb action "approve_task" in
  MkGrant k (agent r) (au_agentId a) (project r) (projectRoomId r) (ownerMxid r) (ownerDmRoomId r)
    (bindingAuthority r) (au_workspace a) (if task then "task" else "always")
    (if task then au_taskId a else None) (if task then au_taskEpoch a else None)
    (au_scope_key a) (au_scope_kind a) (au_scope_description a) t (id r) (matrixEventId r) None None.

Definition decided (action : string) (event : string) (t : Z) (r : Request) : Request :=
  let yes := negb (String.eqb action "deny") in
  let r := r <| status := if yes then "approved" else "denied" |>
             <| decision := Some (if yes then "allow" else "deny") |>
             <| authorizationAction := Some action |>
             <| denialReason := if yes then None else Some "owner_denied" |>
             <| decidedAt := Some t |> in
  r <| decisionEventId := Some (stableDecisionEventId r) |> <| matrixEventId := truthy_opt (Some event) |>.

Definition reject (e : Env) (st : State) (r : Request) (code : string) (detail : list (string * jval)) (st1 : State)
    : step_out State State Answer :=
  saving e st (_audit "approval.verdict_rejected" detail st1) (MkAnswer false code None (Some r)).

Definition submitMatrixVerdict (e : Env) (v input : jval) (st : State) : step_out State State Answer :=
  let k := filter_text v in
  match om_get k (requests st) with
  | None => unchanged (MkAnswer false "not_found" None None) st
  | Some r =>
      let t := now e 0 in
      match _expire k t st with
      | Some (r', st1) =>
          reject e st r' "expired" [("requestId", JStr k); ("reason", JStr "expired")] st1
      | None =>
      if negb (String.eqb (status r) "pending") then
        reject e st r "not_pending"
          [("requestId", JStr k); ("reason", JStr "not_pending"); ("status", JStr (status r))] st
      else
      let action := filter_text (prop input "action") in
      let invalid := invalidAction e r action in
      match (match mismatch r input with
             | Some key => Some (key +:+ "_mismatch")
             | None => if invalid then Some "invalid_action"
                       else if _bindingCurrent st r then None else Some "owner_binding_changed"
             end) with
      | Some reason =>
          reject e st r reason
            [("requestId", JStr k); ("reason", JStr reason);
             ("senderMxid", match either input "sender_mxid" "senderMxid" with JStr s => JStr s | _ => JNull end);
             ("roomId", match either input "room_id" "roomId" with JStr s => JStr s | _ => JNull end)] st
      | None =>
      match optionalText (either input "event_id" "eventId") 255 with
      | Throw c => raise c st
      | Ok event =>
          let r1 := decided action event t r in
          let '(r2, st2) :=
            match authorization r with
            | Some a =>
                if inb action ["approve_task"; "approve_always"] then
                  let g := newGrant ("grant_" +:+ random e 0) action a t r1 in
                  let r2 := r1 <| grantId := Some (gr_id g) |> in
                  (r2, _audit "authorization.created"
                         [("grantId", JStr (gr_id g)); ("requestId", JStr (id r)); ("agent", JStr (agent r));
                          ("scope", JStr (gr_scope g))]
                         (setRequest r2 k st <| grants := obj_set (gr_id g) g (grants st) |>))
                else (r1, setRequest r1 k st)
            | None => (r1, setRequest r1 k st)
            end in
          let st3 := _audit "approval.verdict_accepted"
              [("requestId", JStr k); ("agent", JStr (agent r)); ("decision", str_or_null (decision r2));
               ("senderMxid", str_or_null (ownerMxid r)); ("roomId", str_or_null (ownerDmRoomId r));
               ("eventId", str_or_null (matrixEventId r2))] st2 in
          saving e st st3 (MkAnswer true (status r2) None (Some r2))
      end end end
  end.

Definition denyPending (e : Env) (k : string) (reason : jval) (st : State) : step_out State State (option Request) :=
  match om_get k (requests st) with
  | None => unchanged None st
  | Some r =>
      let t := now e 0 in
      match _expire k t st with
      | Some (r', st1) => saving e st1 st1 (Some r')
      | None =>
          if negb (String.eqb (status r) "pending") then unchanged (Some r) st else
          match optionalText reason 255 with
          | Throw c =>
              (* the status and the decision are written before the reason is read *)
              raise c (setRequest (r <| status := "denied" |> <| decision := Some "deny" |>) k st)
          | Ok why =>
              let why := if truthy why then why else "delivery_failed" in
              let r1 := denied why t r in
              let r2 := r1 <| decisionEventId := Some (stableDecisionEventId r1) |> in
              let st1 := _audit "approval.denied"
                  [("requestId", JStr k); ("agent", JStr (agent r)); ("reason", JStr why)] (setRequest r2 k st) in
              saving e st1 st1 (Some r2)
          end
      end
  end.

(** Whether an allowed request is still covered: its binding, its agent, its grant. *)
Definition stillAuthorized (e : Env) (st : State) (r : Request) : bool :=
  _bindingCurrent st r &&
  match authorization r with Some a => isAgentCurrent e (agent r) (au_agentId a) | None => true end &&
  match truthy_opt (grantId r) with
  | Some g => match om_get g (grants st) with Some gr => _grantCurrent e st gr | None => false end
  | None => true
  end.

Definition consumeDecision (e : Env) (k agentValue : string) (inputDigestValue : option string) (st : State)
    : step_out State State Answer :=
  match om_get k (requests st) with
  | None => unchanged (MkAnswer false "not_found" None None) st
  | Some r =>
      let t := now e 0 in
      match _expire k t st with
      | Some (r', st1) => saving e st1 st1 (MkAnswer false "expired" None (Some r'))
      | None =>
      if negb (String.eqb (agent r) agentValue) then unchanged (MkAnswer false "agent_mismatch" None (Some r)) st else
      if match truthy_opt inputDigestValue with Some d => negb (bool_decide (inputDigest r = Some d)) | None => false end
      then unchanged (MkAnswer false "input_digest_mismatch" None (Some r)) st else
      if String.eqb (status r) "pending" then unchanged (MkAnswer false "pending" None (Some r)) st else
      if String.eqb (status r) "consumed" then unchanged (MkAnswer false "consumed" None (Some r)) st else
      if negb (inb (status r) TERMINAL_STATES) then unchanged (MkAnswer false "invalid_state" None (Some r)) st else
      let '(r1, st1) :=
        if is_allow (decision r) && negb (stillAuthorized e st r) then
          (r <| decision := Some "deny" |> <| denialReason := Some "authorization_no_longer_valid" |>
             <| decisionEventId := None |>,
           _audit "authorization.invalidated_before_consume" [("requestId", JStr k); ("agent", JStr (agent r))] st)
        else (r, st) in
      let d := if is_allow (decision r1) then "allow" else "deny" in
      let r2 := r1 <| decisionEventId := Some (stableDecisionEventId r1) |> <| status := "consumed" |>
                   <| consumedAt := Some t |> in
      let st2 := _audit "approval.consumed"
          [("requestId", JStr k); ("agent", JStr (agent r)); ("decision", JStr d)] (setRequest r2 k st1) in
      saving e st2 st2 (MkAnswer true "consumed" (Some d) (Some r2))
      end
  end.

Definition listAudit (st : State) : list AuditEntry := audit st.

(** [_load]: what the file holds; the audit keeps its newest entries. *)
Definition _load (file : option State) : State :=
  match file with
  | None => empty
  | Some s => s <| audit := skipn (length (audit s) - auditLimit) (audit s) |>
  end.

End model.

End ApprovalStore.
