(* ===== verification/ApprovalFacts.v ===== *)
(** * Approvals: the request life cycle and the store invariant

    Every handler moves a request at most one step along pending, decided, consumed; at most one
    pending request exists per origin; the audit stays within its limit. *)

From Stdlib Require Import ZArith QArith Qround Lia String Ascii.
From stdpp Require Import base list strings relations.
From S2P Require Import Prelude OMap Json Store ApprovalStore.
#[local] Open Scope stdpp_scope.
Import ApprovalStore.

Definition DECIDED : list string := ["approved"; "denied"; "expired"].

(** What never changes of a request once it is filed. *)
Definition same_core (r r' : Request) : Prop :=
  (id r', agent r', runtime r', project r', projectRoomId r', ownerMxid r', ownerDmRoomId r', upstreamRequestId r',
   routerApprovalId r', toolName r', description r', inputPreview r', inputDigest r') =
  (id r, agent r, runtime r, project r, projectRoomId r, ownerMxid r, ownerDmRoomId r, upstreamRequestId r,
   routerApprovalId r, toolName r, description r, inputPreview r, inputDigest r) ∧
  (createdAt r', expiresAt r', bindingAuthority r', authorization r') =
  (createdAt r, expiresAt r, bindingAuthority r, authorization r).

(** A pending request is denied, or expires. *)
Definition settles (r r' : Request) : Prop :=
  status r = "pending" ∧ status r' ∈ ["denied"; "expired"] ∧ decision r' = Some "deny" ∧ same_core r r'.

(** A pending request is approved. *)
Definition approves (r r' : Request) : Prop :=
  status r = "pending" ∧ status r' = "approved" ∧ decision r' = Some "allow" ∧ same_core r r'.

(** A decided request is consumed; its decision can only get stricter. *)
Definition consumes (r r' : Request) : Prop :=
  status r ∈ DECIDED ∧ status r' = "consumed" ∧ (decision r' = decision r ∨ decision r' = Some "deny") ∧
  same_core r r'.

Lemma same_core_refl r : same_core r r.
Proof. done. Qed.

Lemma same_core_trans r1 r2 r3 : same_core r1 r2 → same_core r2 r3 → same_core r1 r3.
Proof. unfold same_core. intros [A B] [C D]. split; congruence. Qed.

Lemma settles_not_pending r r' : settles r r' → status r' ≠ "pending".
Proof.
  intros (_ & H & _) E. rewrite E in H. set_solver.
Qed.

Section facts.
Context (num_str : num → string) (str_num : string → num) (sha256 : string → string)
        (deriveExecutionAuthorization : jval → option Authorization).
Context (ttlMs : Z) (auditLimit : nat).

Record wf (st : State) : Prop := MkWf {
  wf_keys : NoDup (om_keys (requests st));
  wf_id : ∀ k r, om_get k (requests st) = Some r → id r = k;
  wf_unique : ∀ j k r s, om_get j (requests st) = Some r → om_get k (requests st) = Some s →
    status r = "pending" → status s = "pending" → agent r = agent s → runtime r = runtime s →
    upstreamRequestId r = upstreamRequestId s → j = k;
  wf_audit : (length (audit st) ≤ auditLimit)%nat;
}.

Lemma approval_wf_empty : wf empty.
Proof. split; simpl; [constructor|done|done|lia]. Qed.

(** *** Settling some requests, dropping others *)

(** Every request of [st'] is one of [st], unchanged or settled. *)
Definition narrows (st st' : State) : Prop :=
  NoDup (om_keys (requests st')) ∧
  ∀ k r', om_get k (requests st') = Some r' → ∃ r, om_get k (requests st) = Some r ∧ (r' = r ∨ settles r r').

Lemma narrows_refl st : NoDup (om_keys (requests st)) → narrows st st.
Proof. split; [done|]. eauto. Qed.

Lemma narrows_trans s1 s2 s3 : narrows s1 s2 → narrows s2 s3 → narrows s1 s3.
Proof.
  intros [_ H1] [N2 H2]. split; [done|]. intros k r3 H3. destruct (H2 _ _ H3) as (r2 & G2 & R2).
  destruct (H1 _ _ G2) as (r1 & G1 & R1). exists r1. split; [done|].
  destruct R2 as [->|S2]; [done|]. destruct R1 as [->|S1]; [by right|].
  exfalso. apply (settles_not_pending _ _ S1). apply S2.
Qed.

Lemma narrows_requests st st' : requests st' = requests st → NoDup (om_keys (requests st)) → narrows st st'.
Proof. intros E Hnd. split; rewrite E; eauto. Qed.

Lemma narrows_set st k r r' :
  NoDup (om_keys (requests st)) → om_get k (requests st) = Some r → settles r r' →
  narrows st (setRequest r' k st).
Proof.
  intros Hnd Hk Hs. split; [by apply om_nodup_obj_set|]. intros j q. simpl. rewrite om_get_obj_set.
  destruct (String.eqb_spec k j) as [<-|]; [intros [= <-]; eauto|eauto].
Qed.

Lemma narrows_wf st st' :
  wf st → narrows st st' → (length (audit st') ≤ auditLimit)%nat → wf st'.
Proof.
  intros Hwf [Hnd H] Ha. split; [done| | |done].
  - intros k r' Hk. destruct (H _ _ Hk) as (r & G & [->|(_ & _ & _ & C)]); [by apply (wf_id _ Hwf)|].
    destruct C as [C _]. injection C as -> _. by apply (wf_id _ Hwf).
  - intros j k r s Hj Hk Pr Ps E1 E2 E3.
    destruct (H _ _ Hj) as (r0 & Gj & [->|Sr]); [|by apply settles_not_pending in Sr].
    destruct (H _ _ Hk) as (s0 & Gk & [->|Ss]); [|by apply settles_not_pending in Ss].
    by eapply (wf_unique _ Hwf).
Qed.

Lemma audit_bounded ty d st : (length (audit (_audit auditLimit ty d st)) ≤ auditLimit)%nat.
Proof. unfold _audit. simpl. rewrite length_skipn, length_app. simpl. lia. Qed.

Lemma audit_requests ty d st : requests (_audit auditLimit ty d st) = requests st.
Proof. done. Qed.

Lemma narrows_audit st st' ty d : narrows st st' → narrows st (_audit auditLimit ty d st').
Proof. done. Qed.

Lemma expired_settles t r : status r = "pending" → settles r (expired num_str sha256 r t).
Proof. intros Hp. split_and!; try done. apply inb_spec. reflexivity. Qed.

Lemma denied_settles why t r : status r = "pending" → settles r (denied why t r).
Proof. intros Hp. split_and!; try done. apply inb_spec. reflexivity. Qed.

Lemma expire_spec k t st r st' :
  NoDup (om_keys (requests st)) → _expire num_str sha256 auditLimit k t st = Some (r, st') →
  narrows st st' ∧ (length (audit st') ≤ auditLimit)%nat ∧ om_get k (requests st') = Some r ∧ status r = "expired".
Proof.
  intros Hnd. unfold _expire. destruct (om_get k (requests st)) as [r0|] eqn:Hk; [|done].
  destruct (String.eqb_spec (status r0) "pending") as [Hp|]; simpl; [|done].
  destruct (t <? expiresAt r0); [done|]. intros [= <- <-]. split_and!.
  - apply narrows_audit. eapply narrows_set; [done|done|by apply expired_settles].
  - apply audit_bounded.
  - simpl. by rewrite om_get_obj_set_eq.
  - done.
Qed.

Lemma expire_None k t st r :
  _expire num_str sha256 auditLimit k t st = None → om_get k (requests st) = Some r →
  status r = "pending" → t < expiresAt r.
Proof.
  unfold _expire. intros H Hk Hp. rewrite Hk, Hp in H. simpl in H.
  by destruct (Z.ltb_spec t (expiresAt r)).
Qed.

Lemma denyPendingIn_narrows au a room why t ks st :
  wf st → narrows st (denyPendingIn auditLimit au a room why t ks st) ∧
          (length (audit (denyPendingIn auditLimit au a room why t ks st)) ≤ auditLimit)%nat.
Proof.
  revert st. induction ks as [|k ks IH]; intros st Hwf; simpl.
  { split; [by apply narrows_refl, Hwf|apply Hwf]. }
  match goal with |- context [denyPendingIn auditLimit au a room why t ks ?s] => set (st1 := s) end.
  assert (H1 : narrows st st1 ∧ (length (audit st1) ≤ auditLimit)%nat).
  { unfold st1. destruct (om_get k (requests st)) as [r|] eqn:Hk;
      [|split; [by apply narrows_refl, Hwf|apply Hwf]].
    destruct (pending_in a room r) eqn:Hp; [|split; [by apply narrows_refl, Hwf|apply Hwf]].
    unfold pending_in in Hp. apply andb_true_iff in Hp as [[Hp%String.eqb_eq _]%andb_true_iff _].
    assert (Hn : narrows st (setRequest (denied why t r) k st))
      by (eapply narrows_set; [apply Hwf|done|by apply denied_settles]).
    destruct au; [split; [by apply narrows_audit|apply audit_bounded]|split; [done|apply Hwf]]. }
  destruct H1 as [H1 H1a]. destruct (IH st1) as [H2 H2a]; [by eapply narrows_wf|].
  split; [by eapply narrows_trans|done].
Qed.

Lemma findPending_spec t a rt up ro ks st st' found :
  wf st → findPending num_str sha256 auditLimit t a rt up ro ks st = Ok (st', found) →
  narrows st st' ∧ (length (audit st') ≤ auditLimit)%nat ∧
  match found with
  | Some r => om_get (id r) (requests st') = Some r ∧ status r = "pending" ∧ agent r = a ∧ runtime r = rt ∧
              upstreamRequestId r = up ∧ default EmptyString (routerApprovalId r) = ro ∧ t < expiresAt r
  | None => ∀ k r, k ∈ ks → om_get k (requests st') = Some r → status r = "pending" →
              agent r = a → runtime r = rt → upstreamRequestId r = up → False
  end.
Proof.
  revert st. induction ks as [|k ks IH]; intros st Hwf; simpl.
  { intros [= <- <-]. split_and!; [by apply narrows_refl, Hwf|apply Hwf|]. by intros ?? ?%elem_of_nil. }
  set (st1 := match _expire num_str sha256 auditLimit k t st with Some _ => _ | None => st end).
  assert (H1 : narrows st st1 ∧ (length (audit st1) ≤ auditLimit)%nat ∧
    (∀ r, om_get k (requests st1) = Some r → status r = "pending" → t < expiresAt r)).
  { unfold st1. destruct (_expire num_str sha256 auditLimit k t st) as [[r st2]|] eqn:Ex.
    - apply expire_spec in Ex as (A & B & C & D); [|apply Hwf]. split_and!; [done|done|]. intros r' Hr' Hp. congruence.
    - split_and!; [by apply narrows_refl, Hwf|apply Hwf|]. intros r Hr Hp. by eapply expire_None. }
  destruct H1 as (H1 & H1a & H1e). clearbody st1. assert (Hwf1 : wf st1) by (by eapply narrows_wf).
  destruct (om_get k (requests st1)) as [r|] eqn:Hk.
  - destruct (String.eqb_spec (status r) "pending") as [Hp|Hp], (String.eqb_spec (agent r) a) as [Ha|Ha],
      (String.eqb_spec (runtime r) rt) as [Hr|Hr], (String.eqb_spec (upstreamRequestId r) up) as [Hu|Hu]; cbn [andb];
      try (intros H; apply IH in H as (H2 & H2a & H3); [|done]; split_and!; [by eapply narrows_trans|done|];
           destruct found; [done|]; intros j q [->|Hin]%elem_of_cons Hj Hpq Haq Hrq Huq; [|by eapply H3];
           destruct H2 as [_ H2]; destruct (H2 _ _ Hj) as (q0 & Hq0 & [->|S]); [|by apply settles_not_pending in S];
           congruence).
    destruct (String.eqb_spec (default EmptyString (routerApprovalId r)) ro); simpl; [|done].
    intros [= <- <-]. rewrite (wf_id _ Hwf1 _ _ Hk). split_and!; auto.
  - intros H. apply IH in H as (H2 & H2a & H3); [|done]. split_and!; [by eapply narrows_trans|done|].
    destruct found; [done|]. intros j q [->|Hin]%elem_of_cons Hj; [|by eapply H3].
    destruct H2 as [_ H2]. destruct (H2 _ _ Hj) as (q0 & Hq0 & _). congruence.
Qed.

Lemma expire_other k t st r st' :
  _expire num_str sha256 auditLimit k t st = Some (r, st') → grants st' = grants st ∧ bindings st' = bindings st.
Proof.
  unfold _expire. destruct (om_get k (requests st)); [|done]. destruct (_ || _); [done|]. by intros [= _ <-].
Qed.

Lemma findPending_other t a rt up ro ks st st' found :
  findPending num_str sha256 auditLimit t a rt up ro ks st = Ok (st', found) →
  grants st' = grants st ∧ bindings st' = bindings st.
Proof.
  revert st. induction ks as [|k ks IH]; intros st; simpl; [by intros [= <- _]|].
  set (st1 := match _expire num_str sha256 auditLimit k t st with Some _ => _ | None => st end).
  assert (H1 : grants st1 = grants st ∧ bindings st1 = bindings st).
  { unfold st1. destruct (_expire _ _ _ _ _ _) as [[r st2]|] eqn:E; [by eapply expire_other|done]. }
  clearbody st1. destruct H1 as [<- <-]. destruct (om_get k (requests st1)) as [r|]; [|apply IH].
  destruct (_ && _); [|apply IH]. destruct (negb _); [done|]. by intros [= <- _].
Qed.

(** Whether a grant is current depends on the bindings and nothing else of the state. *)
Lemma grantCurrent_bindings e st st' g :
  bindings st' = bindings st → _grantCurrent num_str sha256 e st' g = _grantCurrent num_str sha256 e st g.
Proof. unfold _grantCurrent, bindingCurrent. by intros ->. Qed.

(** *** Filing a new request *)

(** [st'] is [st], narrowed, with one new request under a key that was free. *)
Definition files (k : string) (r : Request) (st st' : State) : Prop :=
  ∃ st1, narrows st st1 ∧ requests st' = obj_set k r (requests st1).

Lemma files_wf k r st st' :
  wf st → om_get k (requests st) = None → files k r st st' → id r = k →
  (∀ j q, om_get j (requests st') = Some q → j ≠ k → status q = "pending" → status r = "pending" →
     agent q = agent r → runtime q = runtime r → upstreamRequestId q = upstreamRequestId r → False) →
  (length (audit st') ≤ auditLimit)%nat → wf st'.
Proof.
  intros Hwf Hk (st1 & Hn & E) Hid Huniq Ha.
  assert (Hwf1 : wf (st1 <| audit := [] |>)) by (eapply narrows_wf; [done|done|simpl; lia]).
  assert (Hget : ∀ j, om_get j (requests st') = if String.eqb k j then Some r else om_get j (requests st1))
    by (intros j; rewrite E; apply om_get_obj_set).
  split; [rewrite E; apply om_nodup_obj_set, Hwf1| | |done].
  - intros j q. rewrite Hget. destruct (String.eqb_spec k j) as [<-|]; [by intros [= <-]|apply (wf_id _ Hwf1)].
  - intros j j' q q' Hj Hj' P P' E1 E2 E3.
    destruct (decide (j = k)) as [->|Nj], (decide (j' = k)) as [->|Nj']; [done|..].
    + exfalso. rewrite Hget, String.eqb_refl in Hj. injection Hj as <-. by eapply (Huniq j' q').
    + exfalso. rewrite Hget, String.eqb_refl in Hj'. injection Hj' as <-. by eapply (Huniq j q).
    + rewrite Hget in Hj, Hj'. destruct (String.eqb_spec k j), (String.eqb_spec k j'); try congruence.
      by eapply (wf_unique _ Hwf1).
Qed.

Lemma dropReceipts_narrows t st : wf st → narrows st (dropReceipts t st).
Proof.
  intros Hwf. split; [by apply om_nodup_filter, Hwf|]. intros k r Hk. exists r. split; [|by left].
  apply (om_get_filter (λ _ r, String.eqb (status r) "pending" || negb (expiresAt r <? t - RECEIPT_TTL_MS))) in Hk
    as [Hk _]; [done|apply Hwf].
Qed.

Definition new_id (e : Env) : string := "approval_" +:+ random e 0.

(** What filing a request does: it answers the pending request of the same origin, or stores a new
    one under the generated id, which is pending, denied for want of a binding, or already approved
    by a current grant. *)
Inductive filed (e : Env) (q : RequestInput) (t : Z) (st st' : State) (r : Request) : Prop :=
| filed_again :
    narrows st st' → om_get (id r) (requests st') = Some r → status r = "pending" →
    agent r = q_agent q → runtime r = q_runtime q → upstreamRequestId r = q_upstream q →
    t < expiresAt r → filed e q t st st' r
| filed_new :
    files (new_id e) r st st' → id r = new_id e → agent r = q_agent q → runtime r = q_runtime q →
    upstreamRequestId r = q_upstream q →
    (status r = "pending" ∧ decision r = None ∨ status r = "denied" ∧ decision r = Some "deny" ∨
     status r = "approved" ∧ ∃ g, g ∈ om_vals (grants st) ∧ _grantCurrent num_str sha256 e st g = true) →
    (∀ j s, om_get j (requests st') = Some s → j ≠ new_id e → status s = "pending" →
       agent s = q_agent q → runtime s = q_runtime q → upstreamRequestId s = q_upstream q → False) →
    filed e q t st st' r.

Lemma fileRequest_spec e q input ex t st st' r :
  wf st → om_get (new_id e) (requests st) = None →
  fileRequest num_str str_num sha256 deriveExecutionAuthorization ttlMs auditLimit e q input ex t st = Ok (st', r) →
  filed e q t st st' r ∧ (length (audit st') ≤ auditLimit)%nat.
Proof.
  intros Hwf Hfree H. unfold fileRequest in H. apply bind_Ok in H as ([st1 found] & Hf & H).
  pose proof (findPending_other _ _ _ _ _ _ _ _ _ Hf) as [Hgr Hbi].
  apply findPending_spec in Hf as (Hn & Ha & Hfound); [|done]. destruct found as [r0|].
  { injection H as <- <-. destruct Hfound as (G & P & A & R & U & _ & D). split; [by eapply filed_again|done]. }
  assert (Hnone : ∀ st2 r2, requests st2 = obj_set (new_id e) r2 (requests st1) →
    ∀ j s, om_get j (requests st2) = Some s → j ≠ new_id e → status s = "pending" →
      agent s = q_agent q → runtime s = q_runtime q → upstreamRequestId s = q_upstream q → False).
  { intros st2 r2 E j s Hj Hne P A R U. rewrite E, om_get_obj_set_ne in Hj by congruence.
    eapply (Hfound j s); [|done..]. destruct Hn as [_ Hn]. destruct (Hn _ _ Hj) as (s0 & Hs0 & _).
    destruct (decide (j ∈ om_keys (requests st))) as [|Hni]; [done|]. apply om_get_None in Hni. congruence. }
  assert (Hunb : ∀ why expiry,
    filed e q t st (_audit auditLimit "approval.denied" [("requestId", JStr (new_id e)); ("agent", JStr (q_agent q)); ("reason", JStr why)]
      (setRequest (unbound num_str sha256 q (new_id e) why t expiry) (new_id e) st1)) (unbound num_str sha256 q (new_id e) why t expiry)).
  { intros why expiry. apply filed_new; try done; [by exists st1|right; by left|]. by eapply Hnone. }
  destruct (listBindings _ _ _ _ _) as [|b [|b' bs]].
  - injection H as <- <-. split; [apply Hunb|apply audit_bounded].
  - set (r1 := bound num_str sha256 deriveExecutionAuthorization e q b (new_id e) t (deadline num_str str_num ttlMs t input) ex) in *.
    change ("approval_" +:+ random e 0) with (new_id e) in H. fold r1 in H.
    set (st2 := _audit auditLimit "approval.created" _ _) in H.
    destruct (coveringGrant num_str sha256 e st2 r1) as [g|] eqn:Hcov; injection H as <- <-; (split; [|apply audit_bounded]).
    + apply filed_new; try done.
      * exists st1. split; [done|]. simpl. unfold obj_set at 1.
        replace (om_has (new_id e) (obj_set (new_id e) r1 (requests st1))) with true
          by (symmetry; apply om_has_spec; rewrite om_get_obj_set_eq; eauto).
        apply obj_set_again.
      * right. right. split; [done|]. exists g. unfold coveringGrant in Hcov.
        destruct (authorization r1); [|done]. apply List.find_some in Hcov as [Hin Hcov].
        do 7 (apply andb_true_iff in Hcov as [Hcov _]). apply list_elem_of_In in Hin. rewrite <-Hgr.
        split; [exact Hin|]. rewrite <-(grantCurrent_bindings e st st2 g Hbi). exact Hcov.
      * eapply (Hnone _ (granted num_str sha256 t g r1)). simpl. unfold obj_set at 1.
        replace (om_has (new_id e) (obj_set (new_id e) r1 (requests st1))) with true
          by (symmetry; apply om_has_spec; rewrite om_get_obj_set_eq; eauto).
        apply obj_set_again.
    + apply filed_new; try done; [by exists st1|by left|]. by eapply Hnone.
  - injection H as <- <-. split; [apply Hunb|apply audit_bounded].
Qed.

Lemma filed_wf e q t st st' r :
  wf st → om_get (new_id e) (requests st) = None → filed e q t st st' r →
  (length (audit st') ≤ auditLimit)%nat → wf st'.
Proof.
  intros Hwf Hfree [Hn _ _ _ _ _ _|Hf Hid A R U _ Hnone] Ha; [by eapply narrows_wf|].
  eapply files_wf; [done|done|exact Hf|done| |done]. intros j s Hj Hne P _ EA ER EU.
  eapply Hnone; [done|done|done|congruence|congruence|congruence].
Qed.

(** ** Every handler *)

(** One step of the life cycle, or none; [V] says which requests may be allowed. *)
Definition moves (fresh : string) (V : string → Prop) (st st' : State) : Prop :=
  ∀ k r', om_get k (requests st') = Some r' →
    (∃ r, om_get k (requests st) = Some r ∧ (r' = r ∨ settles r r' ∨ consumes r r' ∨ (approves r r' ∧ V k))) ∨
    (om_get k (requests st) = None ∧ k = fresh ∧ (decision r' = Some "allow" → V k)).

Definition good (fresh : string) (V : string → Prop) (st st' : State) : Prop := wf st' ∧ moves fresh V st st'.

Definition legal {A} (fresh : string) (V : string → Prop) (st : State) (o : step_out State State A) : Prop :=
  good fresh V st (so_mem o) ∧ ∀ d, so_disk o = Some d → good fresh V st d.

Lemma moves_narrows f V st st' : narrows st st' → moves f V st st'.
Proof. intros [_ H] k r' Hk. left. destruct (H _ _ Hk) as (r & Hr & [->|S]); eauto. Qed.

Lemma approval_good_refl f V st : wf st → good f V st st.
Proof. intros Hwf. split; [done|]. apply moves_narrows, narrows_refl, Hwf. Qed.

Lemma good_narrows f V st st' : wf st → narrows st st' → (length (audit st') ≤ auditLimit)%nat → good f V st st'.
Proof. intros Hwf Hn Ha. split; [by eapply narrows_wf|by apply moves_narrows]. Qed.

Lemma approval_unchanged_legal {A} f V st (a : A) : wf st → legal f V st (unchanged a st).
Proof. intros Hwf. split; [by apply approval_good_refl|done]. Qed.

Lemma approval_raise_legal {A} f V st c : wf st → legal f V st (@raise A c st).
Proof. intros Hwf. split; [by apply approval_good_refl|done]. Qed.

Lemma saving_legal {A} f V e st kept next (a : A) :
  good f V st kept → good f V st next → legal f V st (saving e kept next a).
Proof. intros Hk Hn. unfold saving. destruct (saves e); split; simpl; try done; by intros d [= <-]. Qed.

(** Changing only bindings, grants or the audit. *)
Lemma good_other f V st st' :
  wf st → requests st' = requests st → (length (audit st') ≤ auditLimit)%nat → good f V st st'.
Proof. intros Hwf E Ha. apply good_narrows; [done| |done]. apply narrows_requests; [done|apply Hwf]. Qed.

Lemma observe_legal f V e input st : wf st → legal f V st (observeBindingMembership e input st).
Proof.
  intros Hwf. unfold observeBindingMembership. destruct (text _ _); [|by apply approval_raise_legal].
  destruct (roomId _); [|by apply approval_raise_legal]. destruct (om_get _ _); [|by apply approval_unchanged_legal].
  destruct (either input "agent_joined" "agentJoined"); try by apply approval_raise_legal.
  apply saving_legal; apply good_other; try done; apply Hwf.
Qed.

Lemma upsertBinding_legal f V e input st : wf st → legal f V st (upsertBinding num_str sha256 auditLimit e input st).
Proof.
  intros Hwf. unfold upsertBinding. destruct (let* _ := text _ _ in _) as [[[[[a p] room] owner] dm]|]; [|by apply approval_raise_legal].
  cbv zeta. match goal with |- legal _ _ _ (saving _ ?s _ _) => assert (Hg : good f V st s); [|by apply saving_legal] end.
  match goal with |- good _ _ _ (_audit _ _ _ (if _ then denyPendingIn _ _ _ _ _ _ _ ?s else _)) => set (st1 := s) end.
  assert (Hwf1 : wf st1) by (destruct Hwf; by split).
  assert (Hn1 : narrows st st1) by (apply narrows_requests; [done|apply Hwf]).
  apply good_narrows; [done| |apply audit_bounded]. apply narrows_audit.
  match goal with |- narrows _ (if ?c then _ else _) => destruct c; [|done] end.
  eapply narrows_trans; [done|]. by apply denyPendingIn_narrows.
Qed.

Lemma deactivateBinding_legal f V e a r why st :
  wf st → legal f V st (deactivateBinding auditLimit e a r why st).
Proof.
  intros Hwf. unfold deactivateBinding. destruct (let* _ := text _ _ in _) as [[x y]|]; [|by apply approval_raise_legal].
  destruct (om_get _ _); [|by apply approval_unchanged_legal]. destruct (negb _); [by apply approval_unchanged_legal|].
  apply saving_legal; (apply good_other; [done|done|apply audit_bounded]).
Qed.

Lemma removeBinding_legal f V e a r st : wf st → legal f V st (removeBinding auditLimit e a r st).
Proof.
  intros Hwf. unfold removeBinding. destruct (let* _ := text _ _ in _) as [[x y]|]; [|by apply approval_raise_legal].
  destruct (om_get _ _); [|by apply approval_unchanged_legal]. cbv zeta.
  match goal with |- legal _ _ _ (saving _ ?s _ _) => assert (Hg : good f V st s); [|by apply saving_legal] end.
  match goal with |- good _ _ _ (_audit _ _ _ (denyPendingIn _ _ _ _ _ _ _ ?s)) => set (st1 := s) end.
  assert (Hwf1 : wf st1) by (destruct Hwf; by split).
  assert (Hn1 : narrows st st1) by (apply narrows_requests; [done|apply Hwf]).
  apply good_narrows; [done| |apply audit_bounded]. apply narrows_audit. eapply narrows_trans; [done|].
  by apply denyPendingIn_narrows.
Qed.

Lemma createRequest_legal V e input router ex st :
  wf st → (∀ g, g ∈ om_vals (grants st) → _grantCurrent num_str sha256 e st g = true → V (new_id e)) → om_get (new_id e) (requests st) = None →
  legal (new_id e) V st
    (createRequest num_str str_num sha256 deriveExecutionAuthorization ttlMs auditLimit e input router ex st).
Proof.
  intros Hwf HV Hfree. unfold createRequest. cbv zeta.
  destruct (let* q := validateRequest input router in _) as [[st' r]|c] eqn:E; [|by apply approval_raise_legal].
  apply bind_Ok in E as (q & _ & E). pose proof (dropReceipts_narrows (now e 0) st Hwf) as Hd.
  assert (Hwf0 : wf (dropReceipts (now e 0) st)) by (eapply narrows_wf; [done|done|apply Hwf]).
  assert (Hfree0 : om_get (new_id e) (requests (dropReceipts (now e 0) st)) = None).
  { destruct (om_get (new_id e) (requests (dropReceipts (now e 0) st))) as [r0|] eqn:G; [|done].
    destruct Hd as [_ Hd]. destruct (Hd _ _ G) as (? & ? & _). congruence. }
  apply fileRequest_spec in E as [Hf Ha]; [|done|done].
  apply saving_legal; [by apply approval_good_refl|]. split; [by eapply filed_wf|].
  destruct Hf as [Hn _ _ _ _ _ _|(st1 & Hn & E) Hid _ _ _ Hst _].
  - apply moves_narrows. by eapply narrows_trans.
  - intros k r' Hk. rewrite E, om_get_obj_set in Hk. destruct (String.eqb_spec (new_id e) k) as [<-|].
    { right. split_and!; [done|done|]. injection Hk as <-. intros Hal.
      destruct Hst as [[_ Hdc]|[[_ Hdc]|(_ & g & Hg & Hc)]]; [exfalso; congruence|exfalso; congruence|].
      eapply HV; [|exact Hc]. exact Hg. }
    eapply moves_narrows; [|exact Hk]. by eapply narrows_trans.
Qed.

Lemma getRequest_legal f V e v st : wf st → legal f V st (getRequest num_str sha256 auditLimit e v st).
Proof.
  intros Hwf. unfold getRequest. destruct (om_get _ _); [|by apply approval_unchanged_legal].
  destruct (_expire _ _ _ _ _ _) as [[r' st']|] eqn:Ex; [|by apply approval_unchanged_legal].
  apply expire_spec in Ex as (A & B & _); [|apply Hwf]. apply saving_legal; by apply good_narrows.
Qed.

Lemma expireAll_narrows e i ks st ch :
  wf st → narrows st (expireAll num_str sha256 auditLimit e i ks st ch).1 ∧
          (length (audit (expireAll num_str sha256 auditLimit e i ks st ch).1) ≤ auditLimit)%nat.
Proof.
  revert i st ch. induction ks as [|k ks IH]; intros i st ch Hwf; simpl.
  { split; [by apply narrows_refl, Hwf|apply Hwf]. }
  destruct (_expire _ _ _ _ _ _) as [[r st1]|] eqn:Ex; [|by apply IH].
  apply expire_spec in Ex as (A & B & _); [|apply Hwf]. destruct (IH (S i) st1 true) as [C D]; [by eapply narrows_wf|].
  split; [by eapply narrows_trans|done].
Qed.

Lemma listRequests_legal f V e s p st : wf st → legal f V st (listRequests num_str sha256 auditLimit e s p st).
Proof.
  intros Hwf. unfold listRequests.
  destruct (expireAll_narrows e 0 (om_keys (requests st)) st false Hwf) as [A B].
  destruct (expireAll _ _ _ _ _ _ _ _) as [st' ch]. simpl in *. assert (Hg : good f V st st') by (by apply good_narrows).
  destruct ch; [by apply saving_legal|]. by split.
Qed.

Lemma good_set f V st k r r' :
  wf st → om_get k (requests st) = Some r → status r ≠ "consumed" →
  (settles r r' ∨ consumes r r' ∨ (approves r r' ∧ V k)) → good f V st (setRequest r' k st).
Proof.
  intros Hwf Hk Hnc Hm.
  assert (Hcore : same_core r r') by (destruct Hm as [(_&_&_&?)|[(_&_&_&?)|[(_&_&_&?) _]]]; done).
  assert (Hnp : status r' ≠ "pending").
  { destruct Hm as [S|[(_&->&_)|[(_&->&_) _]]]; [by apply settles_not_pending in S|done|done]. }
  assert (Hget : ∀ j, om_get j (requests (setRequest r' k st)) = if String.eqb k j then Some r' else om_get j (requests st))
    by (intros j; apply om_get_obj_set).
  split.
  - split.
    + apply om_nodup_obj_set, Hwf.
    + intros j q. rewrite Hget. destruct (String.eqb_spec k j) as [<-|]; [|apply (wf_id _ Hwf)].
      intros [= <-]. destruct Hcore as [C _]. injection C as -> _. by apply (wf_id _ Hwf).
    + intros i j q s. rewrite !Hget. destruct (String.eqb k i); [intros [= <-] ? ?; done|].
      destruct (String.eqb k j); [intros ? [= <-] ? ?; done|]. apply (wf_unique _ Hwf).
    + apply Hwf.
  - intros j q. rewrite Hget. destruct (String.eqb_spec k j) as [<-|]; [intros [= <-]|]; left; eauto.
Qed.

Lemma good_requests f V st st1 st2 :
  good f V st st1 → requests st2 = requests st1 → (length (audit st2) ≤ auditLimit)%nat → good f V st st2.
Proof.
  intros [[A B C D] M] E Ha. split; [split; rewrite ?E; done|]. intros k r'. rewrite E. apply M.
Qed.

Lemma pending_not_consumed r : status r = "pending" → status r ≠ "consumed".
Proof. intros ->. done. Qed.

Lemma decided_step action event t r :
  status r = "pending" →
  settles r (decided num_str sha256 action event t r) ∨ approves r (decided num_str sha256 action event t r).
Proof.
  intros Hp. unfold decided. destruct (String.eqb action "deny"); simpl; [left|right]; split_and!; try done.
  apply inb_spec. reflexivity.
Qed.

Lemma decided_grant_step action event t r g :
  status r = "pending" →
  let r' := decided num_str sha256 action event t r <| grantId := g |> in settles r r' ∨ approves r r'.
Proof. intros Hp. destruct (decided_step action event t r Hp) as [H|H]; [by left|by right]. Qed.

(** The conditions under which a verdict approves a request. *)
Definition approvable (e : Env) (v input : jval) (st : State) (r : Request) : Prop :=
  om_get (filter_text v) (requests st) = Some r ∧ status r = "pending" ∧ now e 0 < expiresAt r ∧
  mismatch r input = None ∧ invalidAction e r (filter_text (prop input "action")) = false ∧
  filter_text (prop input "action") ≠ "deny" ∧ _bindingCurrent num_str sha256 st r = true.

Lemma submitMatrixVerdict_legal f V e v input st :
  wf st → (∀ r, approvable e v input st r → V (filter_text v)) → legal f V st (submitMatrixVerdict num_str sha256 auditLimit e v input st).
Proof.
  intros Hwf HV. unfold submitMatrixVerdict. destruct (om_get (filter_text v) (requests st)) as [r|] eqn:Hk;
    [|by apply approval_unchanged_legal]. cbv zeta.
  assert (Hrej : ∀ st1 r1 c d, good f V st st1 → legal f V st (reject auditLimit e st r1 c d st1)).
  { intros st1 r1 c d Hg. apply saving_legal; [by apply approval_good_refl|].
    eapply good_requests; [exact Hg|done|apply audit_bounded]. }
  destruct (_expire _ _ _ _ _ _) as [[r' st1]|] eqn:Ex.
  { apply expire_spec in Ex as (A & B & _); [|apply Hwf]. apply Hrej. by apply good_narrows. }
  destruct (String.eqb_spec (status r) "pending") as [Hp|]; cbn [negb]; [|by apply Hrej, approval_good_refl].
  destruct (match mismatch r input with Some _ => _ | None => _ end) eqn:Hm; [by apply Hrej, approval_good_refl|].
  destruct (optionalText _ _) as [event|]; [|by apply approval_raise_legal].
  match goal with |- legal _ _ _ (let '(_, _) := ?x in _) => destruct x as [r2 st2] eqn:Hx end.
  assert (Hs : requests st2 = requests (setRequest r2 (filter_text v) st) ∧ (settles r r2 ∨ approves r r2)).
  { destruct (authorization r) as [a|]; [match type of Hx with context [inb ?x ?l] => destruct (inb x l) end|];
      injection Hx as <- <-; split; try reflexivity;
      [|by apply decided_step..].
    exact (decided_grant_step (filter_text (prop input "action")) event (now e 0) r
             (Some ("grant_" +:+ random e 0)) Hp). }
  apply saving_legal; [by apply approval_good_refl|]. eapply good_requests; [|exact (proj1 Hs)|apply audit_bounded].
  eapply good_set; [done|done|by apply pending_not_consumed|]. destruct Hs as [_ [|Happ]]; [auto|].
  right. right. split; [done|]. apply (HV r). destruct (mismatch r input) eqn:Hmm; [done|].
  destruct (invalidAction e r _) eqn:Hi; [done|]. destruct (_bindingCurrent num_str sha256 st r) eqn:Hb; [|done].
  split_and!; try done; [by eapply expire_None|]. intros Ed. rewrite Ed in Hx.
  destruct Happ as (_ & Happ & _). revert Happ. clear -Hx.
  destruct (authorization r) as [a|]; simpl in Hx; injection Hx as <- _; done.
Qed.

Lemma denyPending_legal f V e k reason st :
  wf st → legal f V st (denyPending num_str sha256 auditLimit e k reason st).
Proof.
  intros Hwf. unfold denyPending. destruct (om_get k (requests st)) as [r|] eqn:Hk; [|by apply approval_unchanged_legal].
  cbv zeta. destruct (_expire _ _ _ _ _ _) as [[r' st1]|] eqn:Ex.
  { apply expire_spec in Ex as (A & B & _); [|apply Hwf]. apply saving_legal; by apply good_narrows. }
  destruct (String.eqb_spec (status r) "pending") as [Hp|]; cbn [negb]; [|by apply approval_unchanged_legal].
  assert (Hd : ["denied"; "expired"] = ["denied"; "expired"] ∧ "denied" ∈ ["denied"; "expired"]) by (split; [done|left]).
  destruct (optionalText reason 255) as [why|c].
  - match goal with |- legal _ _ _ (saving _ ?s _ _) => assert (Hg : good f V st s); [|by apply saving_legal] end.
    match goal with |- good _ _ _ (_audit _ _ _ (setRequest ?r2 _ _)) =>
      apply (good_requests f V st (setRequest r2 k st)); [|done|apply audit_bounded] end.
    eapply good_set; [done|done|by apply pending_not_consumed|]. left. split_and!; try done. apply Hd.
  - split; [|done]. eapply good_set; [done|done|by apply pending_not_consumed|]. left. split_and!; try done. apply Hd.
Qed.

Lemma revokeGrant_legal f V e k a actor st : wf st → legal f V st (revokeGrant auditLimit e k a actor st).
Proof.
  intros Hwf. unfold revokeGrant. destruct (om_get k (grants st)); [|by apply approval_unchanged_legal].
  destruct (negb _); [by apply approval_unchanged_legal|]. destruct (is_Some_b _); [by apply approval_unchanged_legal|].
  destruct (text actor 255); [|by apply approval_raise_legal].
  apply saving_legal; [by apply approval_good_refl|]. apply good_other; [done|done|apply audit_bounded].
Qed.

(** What a consumption does, on the branch where it succeeds. *)
Lemma consume_cases f V e k a dg st :
  wf st →
  legal f V st (consumeDecision num_str sha256 auditLimit e k a dg st) ∧
  ∀ an, so_res (consumeDecision num_str sha256 auditLimit e k a dg st) = Ok an → ok an = true →
    ∃ r r', om_get k (requests st) = Some r ∧ consumes r r' ∧ agent r = a ∧
      (∀ d, truthy_opt dg = Some d → inputDigest r = Some d) ∧
      (an_decision an = Some "allow" → decision r = Some "allow" ∧ decision r' = Some "allow" ∧
         stillAuthorized num_str sha256 e st r = true) ∧
      om_get k (requests (so_mem (consumeDecision num_str sha256 auditLimit e k a dg st))) = Some r' ∧
      so_disk (consumeDecision num_str sha256 auditLimit e k a dg st) =
        Some (so_mem (consumeDecision num_str sha256 auditLimit e k a dg st)).
Proof.
  intros Hwf. unfold consumeDecision. destruct (om_get k (requests st)) as [r|] eqn:Hk;
    [|split; [by apply approval_unchanged_legal|by intros an [= <-]]].
  cbv zeta. destruct (_expire _ _ _ _ _ _) as [[r' st1]|] eqn:Ex.
  { apply expire_spec in Ex as (A & B & _); [|apply Hwf]. split; [apply saving_legal; by apply good_narrows|].
    intros an. unfold saving. destruct (saves e); [|done..]. by intros [= <-]. }
  destruct (String.eqb_spec (agent r) a) as [Ha|]; cbn [negb]; [|split; [by apply approval_unchanged_legal|by intros an [= <-]]].
  destruct (match truthy_opt dg with Some _ => _ | None => _ end) eqn:Hdg;
    [split; [by apply approval_unchanged_legal|by intros an [= <-]]|].
  destruct (String.eqb_spec (status r) "pending") as [|Hnp]; [split; [by apply approval_unchanged_legal|by intros an [= <-]]|].
  destruct (String.eqb_spec (status r) "consumed") as [|Hnc]; [split; [by apply approval_unchanged_legal|by intros an [= <-]]|].
  destruct (inb (status r) TERMINAL_STATES) eqn:Ht; cbn [negb]; [|split; [by apply approval_unchanged_legal|by intros an [= <-]]].
  match goal with |- context [let '(_, _) := ?x in _] => destruct x as [r1 st1] eqn:Hx end.
  set (r2 := r1 <| decisionEventId := _ |> <| status := _ |> <| consumedAt := _ |>).
  assert (Hdec : status r ∈ DECIDED).
  { apply inb_spec in Ht. unfold TERMINAL_STATES in Ht. unfold DECIDED. set_solver. }
  assert (Hc : same_core r r1 ∧ requests st1 = requests st ∧
    (decision r1 = decision r ∧ (is_allow (decision r) = true → stillAuthorized num_str sha256 e st r = true) ∨
     decision r1 = Some "deny")).
  { destruct (is_allow (decision r) && _) eqn:Hal; injection Hx as <- <-; split_and!; try done; [by right|].
    left. split; [done|]. intros E. rewrite E in Hal. simpl in Hal. by apply negb_false_iff in Hal. }
  destruct Hc as (Hcore & Hreq & Hd).
  assert (Hcons : consumes r r2).
  { split_and!; [done|done| |]. - destruct Hd as [[E _]|E]; [left; exact E|right; exact E].
    - eapply same_core_trans; [exact Hcore|done]. }
  match goal with |- context [saving e ?s ?s _] => assert (Hg : good f V st s) end.
  { eapply good_requests; [eapply good_set with (r' := r2); eauto| |apply audit_bounded].
    simpl. by rewrite Hreq. }
  split; [by apply saving_legal|]. intros an. unfold saving. destruct (saves e); [|done..].
  intros [= <-] _. exists r, r2. split_and!; try done.
  - intros d Hd'. rewrite Hd' in Hdg. apply negb_false_iff in Hdg. by apply bool_decide_eq_true in Hdg.
  - simpl. intros [= Hal]. destruct (is_allow (decision r1)) eqn:Hi; [|done].
    pose proof Hi as Hi'. apply bool_decide_eq_true in Hi'. destruct Hd as [[E Hs]|E]; [|congruence].
    rewrite E in Hi, Hi'. split_and!; [done|simpl; congruence|by apply Hs].
  - simpl. by rewrite om_get_obj_set_eq.
Qed.

End facts.
