(* ===== verification/ApprovalSafety.v ===== *)
(** * Approvals: what an owner can rely on

    The process and its file as one system, with saves that fail before or after the file is
    replaced, and restarts from the file at any point: no approval is spent twice, and every approval
    that is spent goes back to a verdict of the bound owner or to a grant that was current. *)

From Stdlib Require Import ZArith QArith Qround Lia String Ascii.
From stdpp Require Import base list strings relations.
From S2P Require Import Prelude OMap Json Store ApprovalStore ApprovalFacts.
#[local] Open Scope stdpp_scope.
Import ApprovalStore.

Inductive Op : Type :=
| OpObserve (input : jval)
| OpUpsert (input : jval)
| OpDeactivate (agent room : jval) (reason : option string)
| OpRemove (agent room : jval)
| OpCreate (input routerApprovalId execution : jval)
| OpGet (k : jval)
| OpList (status_ prefix_ : string)
| OpVerdict (k input : jval)
| OpDeny (k : string) (reason : jval)
| OpConsume (k agent : string) (inputDigest : option string)
| OpRevoke (k agent : string) (actor : jval).

Section safety.
Context (num_str : num → string) (str_num : string → num) (sha256 : string → string)
        (deriveExecutionAuthorization : jval → option Authorization).
Context (ttlMs : Z) (auditLimit : nat).

(** What a call leaves, and the request it spent with its decision, if it spent one. *)
Definition forget {A} (o : step_out State State A) : step_out State State (option (string * string)) :=
  StepOut (let* _ := so_res o in Ok None) (so_mem o) (so_disk o).

Definition spent (k : string) (o : step_out State State Answer) : step_out State State (option (string * string)) :=
  StepOut (let* an := so_res o in Ok (if ok an then Some (k, default "" (an_decision an)) else None))
    (so_mem o) (so_disk o).

Definition exec (e : Env) (op : Op) (st : State) : step_out State State (option (string * string)) :=
  match op with
  | OpObserve i => forget (observeBindingMembership e i st)
  | OpUpsert i => forget (upsertBinding num_str sha256 auditLimit e i st)
  | OpDeactivate a r why => forget (deactivateBinding auditLimit e a r why st)
  | OpRemove a r => forget (removeBinding auditLimit e a r st)
  | OpCreate i ro ex =>
      forget (createRequest num_str str_num sha256 deriveExecutionAuthorization ttlMs auditLimit e i ro ex st)
  | OpGet k => forget (getRequest num_str sha256 auditLimit e k st)
  | OpList s p => forget (listRequests num_str sha256 auditLimit e s p st)
  | OpVerdict k i => forget (submitMatrixVerdict num_str sha256 auditLimit e k i st)
  | OpDeny k why => forget (denyPending num_str sha256 auditLimit e k why st)
  | OpConsume k a d => spent k (consumeDecision num_str sha256 auditLimit e k a d st)
  | OpRevoke k a by_ => forget (revokeGrant auditLimit e k a by_ st)
  end.

(** A call that may allow request [k]: a verdict that meets every condition, or the filing of a
    request under a grant that is current. *)
Inductive authorises (e : Env) (op : Op) (st : State) (k : string) : Prop :=
| by_owner v input r :
    op = OpVerdict v input → k = filter_text v → approvable num_str sha256 e v input st r → authorises e op st k
| by_grant input router ex g :
    op = OpCreate input router ex → k = new_id e →
    g ∈ om_vals (grants st) → _grantCurrent num_str sha256 e st g = true → authorises e op st k.

Abbreviation wf := (wf auditLimit).

Lemma legal_forget {A} f V st (o : step_out State State A) :
  legal auditLimit f V st o → legal auditLimit f V st (forget o).
Proof. by intros [H1 H2]. Qed.

Lemma approval_exec_legal e op st :
  wf st → (∀ i ro ex, op = OpCreate i ro ex → om_get (new_id e) (requests st) = None) →
  legal auditLimit (new_id e) (authorises e op st) st (exec e op st).
Proof.
  intros Hwf Hfree. destruct op; simpl; try apply legal_forget.
  - by apply observe_legal.
  - by apply upsertBinding_legal.
  - by apply deactivateBinding_legal.
  - by apply removeBinding_legal.
  - apply createRequest_legal; [done| |by eapply Hfree]. intros g Hg Hc. by eapply by_grant.
  - by apply getRequest_legal.
  - by apply listRequests_legal.
  - apply submitMatrixVerdict_legal; [done|]. intros r Hr. by eapply by_owner.
  - by apply denyPending_legal.
  - destruct (consume_cases num_str str_num sha256 auditLimit (new_id e)
      (authorises e (OpConsume k agent0 inputDigest0) st) e k agent0 inputDigest0 st Hwf) as [[H1 H2] _]. by split.
  - by apply revokeGrant_legal.
Qed.

(** ** The system *)

Record sys : Type := MkSys {
  mem : State; disk : State;
  history : list (Env * Op * State);  (* the calls made, with the memory they started from *)
  served : list string;               (* the requests spent, latest first *)
  allowed : list string;              (* those spent with an allow *)
}.

Definition spends (o : step_out State State (option (string * string))) : list string :=
  match so_res o with Ok (Some (k, _)) => [k] | _ => [] end.

Definition allows (o : step_out State State (option (string * string))) : list string :=
  match so_res o with Ok (Some (k, d)) => if String.eqb d "allow" then [k] else [] | _ => [] end.

Definition after (e : Env) (op : Op) (s : sys) : sys :=
  let o := exec e op (mem s) in
  MkSys (so_mem o) (default (disk s) (so_disk o)) ((e, op, mem s) :: history s)
    (spends o ++ served s) (allows o ++ allowed s).

(** Generated ids are never used twice. *)
Definition unused (k : string) (s : sys) : Prop :=
  om_get k (requests (mem s)) = None ∧ om_get k (requests (disk s)) = None ∧ k ∉ served s.

Inductive step : relation sys :=
| step_op e op s : unused (new_id e) s → step s (after e op s)
| step_restart s :
    step s (MkSys (_load auditLimit (Some (disk s))) (disk s) (history s) (served s) (allowed s)).

Definition start : sys := MkSys empty empty [] [] [].

Definition authorised (k : string) (h : list (Env * Op * State)) : Prop :=
  ∃ e op st, (e, op, st) ∈ h ∧ authorises e op st k.

(** What both the memory and the file satisfy. *)
Record image_ok (s : sys) (st : State) : Prop := MkImageOk {
  io_wf : wf st;
  io_served : ∀ k r, k ∈ served s → om_get k (requests st) = Some r → status r = "consumed";
  io_allow : ∀ k r, om_get k (requests st) = Some r → decision r = Some "allow" → authorised k (history s);
}.

Record inv (s : sys) : Prop := MkInv {
  inv_mem : image_ok s (mem s);
  inv_disk : image_ok s (disk s);
  inv_nodup : NoDup (served s);
  inv_allowed : ∀ k, k ∈ allowed s → k ∈ served s ∧ authorised k (history s);
}.

Lemma inv_start : inv start.
Proof.
  assert (H : image_ok start empty) by (split; [apply approval_wf_empty|done|done]).
  split; [done|done|constructor|]. by intros k ?%elem_of_nil.
Qed.

(** A served request stays consumed, a new allow is authorised by the call. *)
Lemma image_moves s st e op :
  image_ok s (mem s) → unused (new_id e) s →
  good auditLimit (new_id e) (authorises e op (mem s)) (mem s) st →
  wf st ∧ (∀ k r, k ∈ served s → om_get k (requests st) = Some r → status r = "consumed") ∧
  (∀ k r, om_get k (requests st) = Some r → decision r = Some "allow" →
     authorised k ((e, op, mem s) :: history s)).
Proof.
  intros [Hwf Hs Ha] (_ & _ & Hu) [Hwf' Hm]. split_and!; [done|..].
  - intros k r Hk Hr. destruct (Hm _ _ Hr) as [(r0 & H0 & [->|[(P & _)|[(D & E & _)|[(P & _) _]]]])|(_ & -> & _)].
    + by eapply Hs.
    + exfalso. assert (status r0 = "consumed") by (by eapply Hs). congruence.
    + done.
    + exfalso. assert (status r0 = "consumed") by (by eapply Hs). congruence.
    + done.
  - assert (Hold : ∀ k, authorised k (history s) → authorised k ((e, op, mem s) :: history s)).
    { intros k (e' & op' & st' & Hin & H). exists e', op', st'. split; [by right|done]. }
    assert (Hnew : ∀ k, authorises e op (mem s) k → authorised k ((e, op, mem s) :: history s)).
    { intros k H. exists e, op, (mem s). split; [by left|done]. }
    intros k r Hr Hd. destruct (Hm _ _ Hr) as [(r0 & H0 & [->|[(_ & _ & D & _)|[(_ & _ & [D|D] & _)|[_ V]]]])|(_ & _ & V)].
    + apply Hold. by eapply Ha.
    + congruence.
    + apply Hold. eapply Ha; [done|]. congruence.
    + congruence.
    + by apply Hnew.
    + by apply Hnew, V.
Qed.

Lemma exec_spent e op st k d :
  wf st → so_res (exec e op st) = Ok (Some (k, d)) →
  ∃ r r', om_get k (requests st) = Some r ∧ consumes r r' ∧
    (d = "allow" → decision r = Some "allow" ∧ stillAuthorized num_str sha256 e st r = true) ∧
    om_get k (requests (so_mem (exec e op st))) = Some r' ∧ so_disk (exec e op st) = Some (so_mem (exec e op st)).
Proof.
  intros Hwf. destruct op; simpl; try (intros H; apply bind_Ok in H as (x & _ & H); discriminate H).
  intros H. apply bind_Ok in H as (an & Han & H). destruct (ok an) eqn:Hok; [|done]. injection H as <- <-.
  destruct (consume_cases num_str str_num sha256 auditLimit (new_id e) (λ _, False) e k0 agent0 inputDigest0 st Hwf) as [_ Hc].
  destruct (Hc an Han Hok) as (r & r' & H1 & H2 & _ & _ & H3 & H4 & H5).
  exists r, r'. split_and!; try done. intros Hd. destruct (an_decision an) as [d|]; [|done]. simpl in Hd. subst d.
  by destruct H3 as (? & _ & ?).
Qed.

Lemma authorised_more k x h : authorised k h → authorised k (x :: h).
Proof. intros (e & op & st & Hin & H). exists e, op, st. split; [by right|done]. Qed.

Lemma spends_spec e op s k :
  inv s → k ∈ spends (exec e op (mem s)) →
  k ∉ served s ∧ NoDup (spends (exec e op (mem s))) ∧
  so_disk (exec e op (mem s)) = Some (so_mem (exec e op (mem s))) ∧
  ∃ r', om_get k (requests (so_mem (exec e op (mem s)))) = Some r' ∧ status r' = "consumed".
Proof.
  intros [Hm _ _ _]. unfold spends. destruct (so_res (exec e op (mem s))) as [[[j d]|]|] eqn:Hres;
    [|by intros ?%elem_of_nil..]. intros ->%list_elem_of_singleton.
  apply exec_spent in Hres as (r & r' & Hr & (Hdec & Hcons & _) & _ & Hr' & Hdisk); [|apply Hm].
  split_and!; [|apply NoDup_singleton|done|by exists r'].
  intros Hin. assert (status r = "consumed") as E by (by eapply (io_served _ _ Hm)). rewrite E in Hdec.
  unfold DECIDED in Hdec. set_solver.
Qed.

Lemma allows_spec e op s k :
  inv s → k ∈ allows (exec e op (mem s)) → k ∈ spends (exec e op (mem s)) ∧ authorised k (history s).
Proof.
  intros [Hm _ _ _]. unfold allows, spends. destruct (so_res (exec e op (mem s))) as [[[j d]|]|] eqn:Hres;
    [|by intros ?%elem_of_nil..]. destruct (String.eqb_spec d "allow") as [->|]; [|by intros ?%elem_of_nil].
  intros ->%list_elem_of_singleton. split; [by left|].
  apply exec_spent in Hres as (r & r' & Hr & _ & Hal & _); [|apply Hm].
  eapply (io_allow _ _ Hm); [done|]. by apply Hal.
Qed.

(** The memory and the file after a call. *)
Lemma image_after e op s st :
  inv s → unused (new_id e) s → (st = so_mem (exec e op (mem s)) ∨ so_disk (exec e op (mem s)) = Some st) →
  image_ok (after e op s) st.
Proof.
  intros Hinv Hu Hst. pose proof (inv_mem _ Hinv) as Hm.
  pose proof (approval_exec_legal e op (mem s) (io_wf _ _ Hm)) as [Hg Hgd]; [intros; apply Hu|].
  assert (Hgood : good auditLimit (new_id e) (authorises e op (mem s)) (mem s) st)
    by (destruct Hst as [->|Hst]; [done|by apply Hgd]).
  destruct (image_moves s st e op Hm Hu Hgood) as (W & S & A). split; [done| |done].
  intros k r Hk Hr. simpl in Hk. apply elem_of_app in Hk as [Hk|Hk]; [|by eapply S].
  destruct (spends_spec e op s k Hinv Hk) as (_ & _ & Hd & r' & Hr' & Hc).
  assert (st = so_mem (exec e op (mem s))) as -> by (destruct Hst; congruence). congruence.
Qed.

Lemma inv_step s s' : inv s → step s s' → inv s'.
Proof.
  intros Hinv Hstep. pose proof Hinv as [Hm Hd Hn Ha]. destruct Hstep as [e op s Hu|s].
  - split.
    + apply image_after; auto.
    + simpl. destruct (so_disk (exec e op (mem s))) as [d|] eqn:Ed; simpl; [apply image_after; auto|].
      destruct Hd as [W S A]. split; [done| |].
      * intros k r Hk Hr. simpl in Hk. apply elem_of_app in Hk as [Hk|Hk]; [|by eapply S].
        destruct (spends_spec e op s k Hinv Hk) as (_ & _ & Hd & _). congruence.
      * intros k r Hr Hdec. by eapply authorised_more, A.
    + simpl. apply NoDup_app. split_and!; [|intros k Hk; by apply (spends_spec e op s k Hinv)|done].
      destruct (spends (exec e op (mem s))) as [|k l] eqn:E; [constructor|]. rewrite <-E.
      apply (spends_spec e op s k Hinv). rewrite E. by left.
    + simpl. intros k [Hk|Hk]%elem_of_app.
      * destruct (allows_spec e op s k Hinv Hk). split; [apply elem_of_app; by left|by apply authorised_more].
      * destruct (Ha k Hk). split; [apply elem_of_app; by right|by apply authorised_more].
  - split; [|by destruct Hd; split|exact Hn|exact Ha]. destruct Hd as [[K I U L] S A]. unfold _load. split; [|done|done].
    split; simpl; [done|done|done|]. rewrite length_skipn. lia.
Qed.

Lemma inv_reach s : rtc step start s → inv s.
Proof.
  intros H. assert (Hi : ∀ a b, rtc step a b → inv a → inv b).
  { induction 1; [done|]. intros. eauto using inv_step. }
  eapply Hi; [exact H|apply inv_start].
Qed.

End safety.

(** ** Properties *)

(** C15. An approval is spent at most once: whatever calls are made in whatever order, whichever
    saves fail before or after the file is replaced, and however often the process restarts from
    its file, no request is successfully consumed twice. *)
Theorem consume_at_most_once num_str str_num sha256 derive ttlMs auditLimit s :
  rtc (step num_str str_num sha256 derive ttlMs auditLimit) start s → NoDup (served s).
Proof. intros H. by apply inv_reach in H as []. Qed.

(** Every approval spent goes back to its owner: each request consumed with an allow was, at
    some earlier call of the run, either approved by a verdict that named the bound owner as sender,
    came from the owner's direct room and matched the agent, the project, the room and the input
    digest of the request while it was pending, unexpired and its binding current, or filed under a
    grant that was current. *)
Theorem allow_goes_back_to_owner num_str str_num sha256 derive ttlMs auditLimit s k :
  rtc (step num_str str_num sha256 derive ttlMs auditLimit) start s → k ∈ allowed s →
  ∃ e op st, (e, op, st) ∈ history s ∧
    ((∃ v input r, op = OpVerdict v input ∧ om_get k (requests st) = Some r ∧ status r = "pending" ∧
        now e 0 < expiresAt r ∧ mismatch r input = None ∧ _bindingCurrent num_str sha256 st r = true ∧
        filter_text (prop input "action") ∈ ["approve_once"; "approve_task"; "approve_always"]) ∨
     (∃ input router ex g, op = OpCreate input router ex ∧ k = new_id e ∧
        g ∈ om_vals (grants st) ∧ _grantCurrent num_str sha256 e st g = true)).
Proof.
  intros H Hk. apply inv_reach in H as [_ _ _ Ha]. destruct (Ha k Hk) as [_ (e & op & st & Hin & Hau)].
  exists e, op, st. split; [done|]. destruct Hau as [v input r -> -> (H1 & H2 & H3 & H4 & H5 & H6 & H7)|input router ex g -> -> Hg Hc].
  - left. exists v, input, r. split_and!; try done. unfold invalidAction in H5.
    apply orb_false_iff in H5 as [H5 _]. apply orb_false_iff in H5 as [H5 _].
    apply negb_false_iff, inb_spec in H5. unfold SCOPED_APPROVAL_ACTIONS in H5. set_solver.
  - right. by exists input, router, ex, g.
Qed.






(** *** Verdicts *)

Lemma strict_eq_str o v : strict_eq (str_or_null o) v = true ↔ v = str_or_null o.
Proof.
  destruct o as [s|], v; simpl; try (split; congruence || done). rewrite String.eqb_eq. split; congruence.
Qed.

(** What the sender, the room and the rest of a verdict have to match. *)
Definition names_request (r : Request) (input : jval) : Prop :=
  either input "sender_mxid" "senderMxid" = str_or_null (ownerMxid r) ∧
  either input "room_id" "roomId" = str_or_null (ownerDmRoomId r) ∧
  prop input "agent" = JStr (agent r) ∧
  prop input "project" = str_or_null (project r) ∧
  either input "project_room_id" "projectRoomId" = str_or_null (projectRoomId r) ∧
  either input "input_digest" "inputDigest" = str_or_null (inputDigest r).

Lemma mismatch_None r input : mismatch r input = None ↔ names_request r input.
Proof.
  unfold mismatch, names_request. pose proof (strict_eq_str (Some (agent r)) (prop input "agent")) as Ha.
  change (str_or_null (Some (agent r))) with (JStr (agent r)) in Ha.
  rewrite <-!strict_eq_str, <-Ha. cbn [List.find fst snd].
  repeat match goal with |- context [strict_eq ?a ?b] =>
    destruct (strict_eq a b); cbn [negb]; [|split; [intros H; discriminate H|intros H; naive_solver]] end.
  by split_and!.
Qed.

(** A verdict is accepted exactly when the request exists, is pending and unexpired, the sender
    is its owner writing in the owner's direct room, the verdict names its agent, project, room and
    input digest, the action is one of the four and within the reusable scope it asks for, the
    binding is still current, the event id is not too long, and the store could be saved. *)
Theorem verdict_accepted_iff num_str sha256 auditLimit e v input st :
  (∃ an, so_res (submitMatrixVerdict num_str sha256 auditLimit e v input st) = Ok an ∧ ok an = true) ↔
  saves e = Saved ∧ is_ok (optionalText (either input "event_id" "eventId") 255) = true ∧
  ∃ r, om_get (filter_text v) (requests st) = Some r ∧ status r = "pending" ∧ now e 0 < expiresAt r ∧
    names_request r input ∧ invalidAction e r (filter_text (prop input "action")) = false ∧
    _bindingCurrent num_str sha256 st r = true.
Proof.
  unfold submitMatrixVerdict. cbv zeta.
  destruct (om_get (filter_text v) (requests st)) as [r|] eqn:Hk; [|naive_solver].
  assert (Hrej : ∀ r c d st1, ¬ ∃ an, so_res (reject auditLimit e st r c d st1) = Ok an ∧ ok an = true).
  { intros r' c d st1 (an & H & Hok). unfold reject, saving in H. destruct (saves e); [|done..]. by injection H as <-. }
  setoid_rewrite <-mismatch_None. unfold _expire. rewrite Hk.
  destruct (String.eqb_spec (status r) "pending") as [Hp|Hp]; cbn [negb orb].
  2: { split; [by intros ?%Hrej|]. intros (_ & _ & r0 & [= <-] & P & _). done. }
  destruct (Z.ltb_spec (now e 0) (expiresAt r)) as [Ht|Ht].
  2: { split; [by intros ?%Hrej|]. intros (_ & _ & r0 & [= <-] & _ & P & _). lia. }
  destruct (mismatch r input) as [key|] eqn:Hm.
  { split; [by intros ?%Hrej|]. intros (_ & _ & r0 & [= <-] & _ & _ & P & _). congruence. }
  destruct (invalidAction e r _) eqn:Hi.
  { split; [by intros ?%Hrej|]. intros (_ & _ & r0 & [= <-] & _ & _ & _ & P & _). congruence. }
  destruct (_bindingCurrent num_str sha256 st r) eqn:Hb.
  2: { split; [by intros ?%Hrej|]. intros (_ & _ & r0 & [= <-] & _ & _ & _ & _ & P). congruence. }
  destruct (optionalText _ _) as [event|c]; [|split; [by intros (an & ? & _)|by intros (_ & ? & _)]].
  match goal with |- context [let '(_, _) := ?x in _] => destruct x as [r2 st2] end.
  unfold saving. destruct (saves e); split; try (by intros (an & ? & _)); try (by intros (? & _)).
  - intros _. split_and!; try done. by exists r.
  - intros _. eauto.
Qed.

(** A request moves along its life cycle and nothing else of it changes: whether a call succeeds
    or not, in memory and in what it wrote, a request that is still there is as it was, or went from
    pending to denied, expired or approved, or from decided to consumed, with every field it was
    filed with intact; and a new request only appears under the generated id. *)
Theorem request_life_cycle num_str str_num sha256 derive ttlMs auditLimit e op st st' k r' :
  wf auditLimit st → om_get (new_id e) (requests st) = None →
  (st' = so_mem (exec num_str str_num sha256 derive ttlMs auditLimit e op st) ∨
   so_disk (exec num_str str_num sha256 derive ttlMs auditLimit e op st) = Some st') →
  om_get k (requests st') = Some r' →
  k = new_id e ∨ ∃ r, om_get k (requests st) = Some r ∧ (r' = r ∨ settles r r' ∨ approves r r' ∨ consumes r r').
Proof.
  intros Hwf Hf Hst Hk.
  destruct (approval_exec_legal num_str str_num sha256 derive ttlMs auditLimit e op st Hwf (λ _ _ _ _, Hf)) as [[_ Hm] Hd].
  assert (Hg : moves (new_id e) (authorises num_str sha256 e op st) st st').
  { destruct Hst as [->|Hst]; [done|]. by apply Hd in Hst as [_ ?]. }
  destruct (Hg _ _ Hk) as [(r & Hr & [->|[S|[C|[A _]]]])|(_ & -> & _)]; [right; exists r; auto..|by left].
Qed.

(** In every state the process or its file goes through, at most one pending request exists per
    agent, runtime and upstream id, every request is filed under its id, and the audit is within its
    limit. *)
Theorem pending_requests_unique num_str str_num sha256 derive ttlMs auditLimit s st :
  rtc (step num_str str_num sha256 derive ttlMs auditLimit) start s → (st = mem s ∨ st = disk s) →
  (length (audit st) ≤ auditLimit)%nat ∧
  (∀ k r, om_get k (requests st) = Some r → id r = k) ∧
  (∀ j k r q, om_get j (requests st) = Some r → om_get k (requests st) = Some q →
     status r = "pending" → status q = "pending" → agent r = agent q → runtime r = runtime q →
     upstreamRequestId r = upstreamRequestId q → j = k).
Proof.
  intros H Hst. apply inv_reach in H as [[Wm _ _] [Wd _ _] _ _]. destruct Hst as [->| ->];
    [destruct Wm|destruct Wd]; by split_and!.
Qed.

(** *** Owners *)

Lemma denyPendingIn_done auditLimit au a room why t ks st k r :
  k ∈ ks → om_get k (requests (denyPendingIn auditLimit au a room why t ks st)) = Some r →
  pending_in a room r = false.
Proof.
  assert (Hstay : ∀ ks st, (∀ r, om_get k (requests st) = Some r → pending_in a room r = false) →
    ∀ r, om_get k (requests (denyPendingIn auditLimit au a room why t ks st)) = Some r → pending_in a room r = false).
  { clear. induction ks as [|j ks IH]; intros st Hst; simpl; [done|]. apply IH.
    destruct (om_get j (requests st)) as [q|] eqn:Hj; [|done]. destruct (pending_in a room q) eqn:Hq; [|done].
    intros r0. destruct au; simpl; rewrite om_get_obj_set; destruct (String.eqb_spec j k) as [->|]; auto;
      by intros [= <-]. }
  revert st r. induction ks as [|j ks IH]; intros st r Hin; simpl; [by apply elem_of_nil in Hin|].
  apply elem_of_cons in Hin as [<-|Hin]; [|by apply IH]. apply Hstay. clear.
  destruct (om_get k (requests st)) as [q|] eqn:Hk; [|by rewrite Hk]. destruct (pending_in a room q) eqn:Hq.
  - intros r. destruct au; simpl; rewrite om_get_obj_set_eq; by intros [= <-].
  - intros r. rewrite Hk. by intros [= <-].
Qed.

Lemma denyPendingIn_keys auditLimit au a room why t ks st :
  om_keys (requests (denyPendingIn auditLimit au a room why t ks st)) = om_keys (requests st).
Proof.
  revert st. induction ks as [|k ks IH]; intros st; simpl; [done|]. rewrite IH.
  destruct (om_get k (requests st)) as [q|] eqn:Hk; [|done]. destruct (pending_in a room q); [|done].
  destruct au; simpl; apply om_keys_obj_set_old; eauto.
Qed.

(** A change of owner withdraws what was asked of the old one: after binding an agent and a room
    to another owner or direct room, no request of that agent in that room is pending, neither in
    memory nor in the file, even if the save failed after replacing it. *)
Theorem owner_change_denies_pending num_str sha256 auditLimit e input st a p room owner dm old :
  text (prop input "agent") 128 = Ok a → text (prop input "project") 255 = Ok p →
  roomId (either input "project_room_id" "projectRoomId") = Ok room →
  fullMxid (either input "owner_mxid" "ownerMxid") = Ok owner →
  roomId (either input "owner_dm_room_id" "ownerDmRoomId") = Ok dm →
  om_get (bindingKey a (Some room)) (bindings st) = Some old →
  (b_ownerMxid old ≠ owner ∨ b_ownerDmRoomId old ≠ dm) →
  let o := upsertBinding num_str sha256 auditLimit e input st in
  ∀ st' k r, (st' = so_mem o ∨ so_disk o = Some st') → om_get k (requests st') = Some r →
    agent r = a → projectRoomId r = Some room → status r ≠ "pending".
Proof.
  intros Ha Hp Hr Ho Hd Hb Hch. unfold upsertBinding. rewrite Ha. simpl. rewrite Hp. simpl. rewrite Hr. simpl.
  rewrite Ho. simpl. rewrite Hd. cbn [bind]. cbv zeta. rewrite Hb.
  assert (Hc : negb (String.eqb (b_ownerMxid old) owner && String.eqb (b_ownerDmRoomId old) dm) = true).
  { apply negb_true_iff, andb_false_iff. destruct Hch as [H|H]; [left|right]; by apply String.eqb_neq. }
  rewrite Hc. intros st' k r Hst Hk EA ER EP.
  match type of Hst with context [saving e ?s ?s _] => assert (E : st' = s); [|subst st'] end.
  { unfold saving in Hst. destruct (saves e); cbn [so_mem so_disk] in Hst; destruct Hst as [Hst|Hst];
      first [exact Hst|discriminate Hst|by apply (inj Some) in Hst]. }
  simpl in Hk. pose proof Hk as Hk'. apply denyPendingIn_done in Hk.
  - unfold pending_in in Hk. rewrite EP, EA, ER, !String.eqb_refl, bool_decide_eq_true_2 in Hk by done.
    discriminate Hk.
  - destruct (decide (k ∈ om_keys (requests st))) as [|Hn]; [done|]. exfalso.
    assert (Hn' : k ∉ om_keys (requests (denyPendingIn auditLimit true a room "owner_binding_changed" (now e 0)
      (om_keys (requests st)) (st <| bindings := obj_set (bindingKey a (Some room)) (MkBinding a p room owner dm
        (Some (random e 0)) true (or_ms (Some (b_createdAt old)) (now e 0)) (now e 0) (b_agentJoined old)
        (b_membershipCheckedAt old) None None) (bindings st) |>)))) by (by rewrite denyPendingIn_keys).
    apply om_get_None in Hn'. simpl in Hn'. simpl in Hk'. rewrite Hn' in Hk'. discriminate Hk'.
Qed.

(** *** Failed saves *)

(** Filing a request, giving a verdict and revoking a grant are all-or-nothing in memory: when
    one of them throws, for a bad input, a conflict or a failed save, the memory is exactly what it
    was before the call. *)
Theorem failed_call_rolls_back num_str str_num sha256 derive ttlMs auditLimit e op st :
  (∃ i ro ex, op = OpCreate i ro ex) ∨ (∃ k i, op = OpVerdict k i) ∨ (∃ k a by_, op = OpRevoke k a by_) →
  is_ok (so_res (exec num_str str_num sha256 derive ttlMs auditLimit e op st)) = false →
  so_mem (exec num_str str_num sha256 derive ttlMs auditLimit e op st) = st.
Proof.
  assert (Hf : ∀ A (o : step_out State State A), (is_ok (so_res o) = false → so_mem o = st) →
    is_ok (so_res (forget o)) = false → so_mem (forget o) = st).
  { intros A o H H'. apply H. simpl in H'. by destruct (so_res o). }
  assert (Hs : ∀ A next (a : A), is_ok (so_res (saving e st next a)) = false → so_mem (saving e st next a) = st).
  { intros A next a. unfold saving. by destruct (saves e). }
  intros [(i & ro & ex & ->)|[(k & i & ->)|(k & a & by_ & ->)]]; apply Hf.
  - unfold createRequest. cbv zeta. destruct (let* q := _ in _) as [[st' r]|]; [apply Hs|done].
  - unfold submitMatrixVerdict. cbv zeta. destruct (om_get _ _) as [r|]; [|done].
    destruct (_expire _ _ _ _ _ _) as [[r' st1]|]; [apply Hs|]. destruct (negb _); [apply Hs|].
    destruct (match mismatch r i with Some _ => _ | None => _ end); [apply Hs|].
    destruct (optionalText _ _); [|done].
    match goal with |- context [let '(_, _) := ?x in _] => destruct x as [r2 st2] end. apply Hs.
  - unfold revokeGrant. destruct (om_get _ _); [|done]. destruct (negb _); [done|].
    destruct (is_Some_b _); [done|]. destruct (text by_ 255); [apply Hs|done].
Qed.

(** ** A concrete run *)

Definition num0 : num → string := λ _, "0".
Definition nan0 : string → num := λ _, NaN.
Definition sha0 : string → string := λ s, "h".
Definition derive0 : jval → option Authorization := λ _, None.
Definition env_at (t : Z) (r : string) (sv : SaveResult) : Env :=
  MkEnv (λ _, t) (λ _, r) sv (λ _, true) (λ _, Some 1) (λ _ _, true).

Definition binding0 (owner : string) : jval :=
  JObj [("agent", JStr "ada"); ("project", JStr "p"); ("project_room_id", JStr "!p:x");
        ("owner_mxid", JStr owner); ("owner_dm_room_id", JStr "!d:x")].
Definition request0 : jval :=
  JObj [("agent", JStr "ada"); ("runtime", JStr "claude"); ("upstream_request_id", JStr "u1"); ("tool_name", JStr "Bash")].
Definition verdict0 : jval :=
  JObj [("sender_mxid", JStr "@o:x"); ("room_id", JStr "!d:x"); ("agent", JStr "ada"); ("project", JStr "p");
        ("project_room_id", JStr "!p:x"); ("input_digest", JStr "h"); ("action", JStr "approve_once")].

Definition step0 := step num0 nan0 sha0 derive0 300000 100.
Definition exec0 := exec num0 nan0 sha0 derive0 300000 100.
Definition after0 := after num0 nan0 sha0 derive0 300000 100.

Definition s1 : sys := after0 (env_at 1000 "a" Saved) (OpUpsert (binding0 "@o:x")) start.
Definition s2 : sys := after0 (env_at 2000 "r" Saved) (OpCreate request0 JUndef JUndef) s1.
Definition s3 : sys := after0 (env_at 3000 "c" Saved) (OpVerdict (JStr "approval_r") verdict0) s2.
(** The file is replaced but the call fails, and the process restarts. *)
Definition s4 : sys := after0 (env_at 4000 "d" Saved) (OpConsume "approval_r" "ada" None) s3.
Definition s5 : sys := after0 (env_at 5000 "f" WrittenThrew) (OpConsume "approval_r" "ada" None) s4.

Definition unusedb (k : string) (s : sys) : bool :=
  negb (om_has k (requests (mem s))) && negb (om_has k (requests (disk s))) &&
  forallb (λ x, negb (String.eqb k x)) (served s).

Lemma go e op s : unusedb (new_id e) s = true → step0 s (after0 e op s).
Proof.
  intros H. apply andb_true_iff in H as [[H1 H2]%andb_true_iff H3]. apply step_op.
  split_and!; [by apply om_has_false, negb_true_iff|by apply om_has_false, negb_true_iff|].
  intros Hin. apply list_elem_of_In in Hin. rewrite forallb_forall in H3. apply H3 in Hin.
  by rewrite String.eqb_refl in Hin.
Qed.

Lemma approval_run0 : rtc step0 start s5.
Proof.
  apply (rtc_l _ _ s1); [exact (go (env_at 1000 "a" Saved) _ start eq_refl)|].
  apply (rtc_l _ _ s2); [exact (go (env_at 2000 "r" Saved) _ s1 eq_refl)|].
  apply (rtc_l _ _ s3); [exact (go (env_at 3000 "c" Saved) _ s2 eq_refl)|].
  apply (rtc_l _ _ s4); [exact (go (env_at 4000 "d" Saved) _ s3 eq_refl)|].
  apply rtc_once. exact (go (env_at 5000 "f" WrittenThrew) _ s4 eq_refl).
Qed.

Lemma consume_at_most_once_witness : served s5 = ["approval_r"] ∧ NoDup (served s5).
Proof. split; [by vm_compute|]. exact (consume_at_most_once num0 nan0 sha0 derive0 300000 100 s5 approval_run0). Defined.

Lemma allow_goes_back_to_owner_witness :
  allowed s5 = ["approval_r"] ∧ ∃ e op st, (e, op, st) ∈ history s5.
Proof.
  split; [by vm_compute|].
  destruct (allow_goes_back_to_owner num0 nan0 sha0 derive0 300000 100 s5 "approval_r" approval_run0) as (e & op & st & H & _);
    [|exists e, op, st; exact H].
  replace (allowed s5) with ["approval_r"] by (by vm_compute). by left.
Defined.

Lemma pending_requests_unique_witness :
  length (requests (mem s5)) = 1%nat ∧ (length (audit (mem s5)) ≤ 100)%nat.
Proof.
  split; [by vm_compute|].
  exact (proj1 (pending_requests_unique num0 nan0 sha0 derive0 300000 100 s5 (mem s5) approval_run0 (or_introl eq_refl))).
Defined.

Lemma wf0 (s : sys) : rtc step0 start s → wf 100 (mem s).
Proof. intros H. by apply inv_reach in H as [[? _ _] _ _ _]. Qed.

Lemma run0_s3 : rtc step0 start s3.
Proof.
  apply (rtc_l _ _ s1); [exact (go (env_at 1000 "a" Saved) _ start eq_refl)|].
  apply (rtc_l _ _ s2); [exact (go (env_at 2000 "r" Saved) _ s1 eq_refl)|].
  apply rtc_once. exact (go (env_at 3000 "c" Saved) _ s2 eq_refl).
Qed.


Lemma request_life_cycle_witness :
  match om_get "approval_r" (requests (mem s3)), om_get "approval_r" (requests (mem s4)) with
  | Some r, Some r' => (status r, status r') = ("approved", "consumed") ∧
      ("approval_r" = new_id (env_at 4000 "d" Saved) ∨
       ∃ r, om_get "approval_r" (requests (mem s3)) = Some r ∧ (r' = r ∨ settles r r' ∨ approves r r' ∨ consumes r r'))
  | _, _ => False
  end.
Proof.
  destruct (om_get "approval_r" (requests (mem s3))) as [r|] eqn:E; [|vm_compute in E; discriminate E].
  destruct (om_get "approval_r" (requests (mem s4))) as [r'|] eqn:E'; [|vm_compute in E'; discriminate E'].
  split; [vm_compute in E, E'; injection E as <-; injection E' as <-; reflexivity|]. rewrite <-E.
  assert (Hfree : om_get (new_id (env_at 4000 "d" Saved)) (requests (mem s3)) = None) by (by vm_compute).
  assert (Hs : mem s4 = so_mem (exec num0 nan0 sha0 derive0 300000 100 (env_at 4000 "d" Saved)
                                  (OpConsume "approval_r" "ada" None) (mem s3))) by (by vm_compute).
  exact (request_life_cycle num0 nan0 sha0 derive0 300000 100 (env_at 4000 "d" Saved) (OpConsume "approval_r" "ada" None)
           (mem s3) (mem s4) "approval_r" r' (wf0 s3 run0_s3) Hfree (or_introl Hs) E').
Defined.

Lemma owner_change_denies_pending_witness :
  let o := upsertBinding num0 sha0 100 (env_at 3000 "b" Saved) (binding0 "@new:x") (mem s2) in
  match om_get "approval_r" (requests (mem s2)), om_get "approval_r" (requests (so_mem o)) with
  | Some r, Some r' => (status r, status r') = ("pending", "denied") ∧ status r' ≠ "pending"
  | _, _ => False
  end.
Proof.
  intros o. destruct (om_get "approval_r" (requests (mem s2))) as [r|] eqn:E; [|vm_compute in E; discriminate E].
  destruct (om_get "approval_r" (requests (so_mem o))) as [r'|] eqn:E'; [|vm_compute in E'; discriminate E'].
  assert (H : (status r, status r', agent r', projectRoomId r') = ("pending", "denied", "ada", Some "!p:x"))
    by (vm_compute in E, E'; injection E as <-; injection E' as <-; reflexivity).
  injection H as H1 H2 H3 H4. split; [congruence|].
  destruct (om_get (bindingKey "ada" (Some "!p:x")) (bindings (mem s2))) as [old|] eqn:Eb; [|vm_compute in Eb; discriminate Eb].
  refine (owner_change_denies_pending num0 sha0 100 (env_at 3000 "b" Saved) (binding0 "@new:x") (mem s2) "ada" "p" "!p:x" "@new:x" "!d:x"
            old eq_refl eq_refl eq_refl eq_refl eq_refl Eb _ (so_mem o) "approval_r" r' (or_introl eq_refl) E' H3 H4).
  left. vm_compute in Eb. injection Eb as <-. discriminate.
Defined.

Lemma failed_call_rolls_back_witness :
  let o := exec0 (env_at 3000 "c" NotWritten) (OpVerdict (JStr "approval_r") verdict0) (mem s2) in
  so_res o = Throw "persistence_failed" ∧ so_mem o = mem s2.
Proof.
  split; [by vm_compute|].
  refine (failed_call_rolls_back num0 nan0 sha0 derive0 300000 100 (env_at 3000 "c" NotWritten)
            (OpVerdict (JStr "approval_r") verdict0) (mem s2) _ eq_refl).
  right. left. by eexists _, _.
Defined.

(** ** Two surprises *)

(** An approval outlives its deadline and the seven days receipts are kept: with no request
    filed in between, an approval given before its deadline is still spent, with an allow, thirty
    days after it. *)
Theorem stale_approval_still_spends :
  let t := 2592000000 in
  let o := consumeDecision num0 sha0 100 (env_at (302000 + t) "z" Saved) "approval_r" "ada" None (mem s3) in
  match om_get "approval_r" (requests (mem s3)), so_res o with
  | Some r, Ok an => expiresAt r = 302000 ∧ RECEIPT_TTL_MS < t ∧ ok an = true ∧ an_decision an = Some "allow"
  | _, _ => False
  end.
Proof. by vm_compute. Qed.

Fixpoint repeat_a (n : nat) : string := match n with O => EmptyString | S n => String "a" (repeat_a n) end.

(** Denying a pending request for a reason of more than 255 characters throws, yet leaves the
    request denied in memory: without a reason or a decision time, without an audit entry, and
    pending in the file. *)
Theorem long_reason_leaves_half_denied :
  let o := denyPending num0 sha0 100 (env_at 3000 "c" Saved) "approval_r" (JStr (repeat_a 256)) (mem s2) in
  so_res o = Throw "bad_request" ∧ so_disk o = None ∧ audit (so_mem o) = audit (mem s2) ∧
  match om_get "approval_r" (requests (so_mem o)), om_get "approval_r" (requests (disk s2)) with
  | Some r, Some d => status r = "denied" ∧ denialReason r = None ∧ decidedAt r = None ∧ status d = "pending"
  | _, _ => False
  end.
Proof. by vm_compute. Qed.
