(* ===== verification/ExecAuth.v ===== *)
(** * Execution authorizations

    [lib/execution-authorization.js]: the reusable permission a Codex approval request asks for,
    derived from the host's JSON-RPC metadata alone, and the key that names it. Every shape the code
    does not recognise derives nothing. [node:path] is its POSIX half; the SHA-256 digest and
    [localeCompare], which only orders the file entries, are parameters.

    The theorems: two requests share a key only when they ask for the same permission, and every path
    in a derived permission is absolute and without [.] or [..]. *)

From Stdlib Require Import ZArith QArith Lia String Ascii.
From stdpp Require Import base list strings sorting.
From S2P Require Import Prelude OMap Json JsonParse Store ApprovalStore.
#[local] Open Scope stdpp_scope.

Module ExecAuth.

(** ** [node:path] *)

Definition is_abs (p : string) : bool := match p with String c _ => Ascii.eqb c "/" | EmptyString => false end.

Fixpoint last_char (s : string) : option ascii :=
  match s with
  | EmptyString => None
  | String c EmptyString => Some c
  | String _ s' => last_char s'
  end.

(** One segment of a path against the segments kept so far, the last first. *)
Definition segment (allowAboveRoot : bool) (res : list string) (seg : string) : list string :=
  if String.eqb seg "" || String.eqb seg "." then res
  else if String.eqb seg ".." then
    match res with
    | r :: res' => if String.eqb r ".." then (if allowAboveRoot then ".." :: res else res) else res'
    | [] => if allowAboveRoot then [".."] else []
    end
  else seg :: res.

Definition normalizeString (p : string) (allowAboveRoot : bool) : list string :=
  rev (foldl (segment allowAboveRoot) [] (split_on "/" p)).

Definition normalize (p : string) : string :=
  match p with
  | EmptyString => "."
  | _ =>
      let trailing := match last_char p with Some c => Ascii.eqb c "/" | None => false end in
      match join "/" (normalizeString p (negb (is_abs p))) with
      | EmptyString => if is_abs p then "/" else if trailing then "./" else "."
      | s => let s := if trailing then s +:+ "/" else s in if is_abs p then "/" +:+ s else s
      end
  end.

(** ** Shapes *)

Definition object (v : jval) : bool := match v with JObj _ => true | _ => false end.

Definition keysWithin (v : jval) (keys : list string) : bool :=
  match v with JObj o => forallb (λ k, inb k keys) (om_keys o) | _ => false end.

Definition nul : ascii := ascii_of_nat 0.

Definition bounded (v : jval) : option string :=
  match v with
  | JStr s => if truthy s && (String.length s <=? 1024 * 8)%nat && negb (string_exists (Ascii.eqb nul) s)
              then Some s else None
  | _ => None
  end.

Definition absolute (v : jval) : option string :=
  match bounded v with Some s => if is_abs s then Some s else None | None => None end.

Definition bool_of (v : jval) : option bool := match v with JBool b => Some b | _ => None end.

(** [JSON.stringify] of an object whose keys were sorted at every level. *)
Fixpoint canonical (v : jval) : jval :=
  match v with
  | JArr l => JArr (List.map canonical l)
  | JObj o =>
      JObj (foldl (λ m p, obj_set p.1 p.2 m) []
        (stable_sort (λ a b : string * jval, String.ltb a.1 b.1)
          ((fix go (o : list (string * jval)) := match o with [] => [] | (k, x) :: o' => (k, canonical x) :: go o' end) o)))
  | _ => v
  end.

Definition normalizeExecutionPolicy (value framework : jval) : result bool :=
  if is_nullish value then Ok false else
  throw_if negb (keysWithin value ["yolo"]) with "bad_request" in
  match prop value "yolo" with
  | JBool y => throw_if y && negb (strict_eq framework (JStr "codex")) with "bad_request" in Ok y
  | _ => Throw "bad_request"
  end.

Fixpoint all_of {A} (l : list (option A)) : option (list A) :=
  match l with
  | [] => Some []
  | Some x :: l' => match all_of l' with Some xs => Some (x :: xs) | None => None end
  | None :: _ => None
  end.

(** [[...new Set(l)]] *)
Definition unique (l : list string) : list string :=
  foldl (λ out s, if inb s out then out else out ++ [s]) [] l.

Section model.
Context (num_str : num → string) (sha256 : string → string) (localeCompare : string → string → Z).

Definition json_text (v : jval) : string := default EmptyString (stringify num_str v).
Definition digest (v : jval) : string := sha256 (json_text (canonical v)).

(** A list of absolute paths, normalised: at most 64 values, every one accepted. *)
Definition pathList (v : jval) : option (list string) :=
  match v with
  | JArr l => if (64 <? length l)%nat then None else
              match all_of (List.map absolute l) with
              | Some ps => Some (stable_sort String.ltb (unique (List.map normalize ps)))
              | None => None
              end
  | _ => None
  end.

(** [for (const mode of ['read', 'write'])]: the member and its descriptions, none when it is absent. *)
Definition modePaths (mode : string) (fs : jval) : option (list (string * jval) * list string) :=
  if is_nullish (prop fs mode) then Some ([], []) else
  match pathList (prop fs mode) with
  | Some ps => Some ([(mode, JArr (List.map JStr ps))], List.map (λ p, mode +:+ ": " +:+ p) ps)
  | None => None
  end.

Definition accessEntry (entry : jval) : option (string * string) :=
  if negb (keysWithin entry ["access"; "path"]) then None else
  match prop entry "access" with
  | JStr a =>
      if negb (inb a ["read"; "write"]) then None else
      let pth := prop entry "path" in
      if negb (keysWithin pth ["type"; "path"]) || negb (strict_eq (prop pth "type") (JStr "path")) then None else
      match absolute (prop pth "path") with Some p => Some (a, normalize p) | None => None end
  | _ => None
  end.

Definition entryJson (e : string * string) : jval :=
  JObj [("access", JStr e.1); ("path", JObj [("type", JStr "path"); ("path", JStr e.2)])].

Definition entryPaths (fs : jval) : option (list (string * jval) * list string) :=
  match prop fs "entries" with
  | JUndef | JNull => Some ([], [])
  | JArr l =>
      if (64 <? length l)%nat then None else
      match all_of (List.map accessEntry l) with
      | Some es =>
          Some ([("entries", JArr (stable_sort (λ a b, localeCompare (json_text a) (json_text b) <? 0) (List.map entryJson es)))],
                List.map (λ e, e.1 +:+ ": " +:+ e.2) es)
      | None => None
      end
  | _ => None
  end.

Definition networkPart (v : jval) : option (list (string * jval) * list string) :=
  let net := prop v "network" in
  if is_nullish net then Some ([], []) else
  if negb (keysWithin net ["enabled"]) then None else
  match prop net "enabled" with
  | JBool b =>
      Some ([("network", JObj [("enabled", JBool b)])],
            if b then ["Network access: all destinations (not limited to a domain)"] else [])
  | _ => None
  end.

Definition fileSystemPart (v : jval) : option (list (string * jval) * list string) :=
  let fs := prop v "fileSystem" in
  if is_nullish fs then Some ([], []) else
  if negb (keysWithin fs ["read"; "write"; "entries"; "globScanMaxDepth"]) || negb (is_nullish (prop fs "globScanMaxDepth")) then None else
  match modePaths "read" fs, modePaths "write" fs, entryPaths fs with
  | Some (r, dr), Some (w, dw), Some (e, de) => Some ([("fileSystem", JObj (r ++ w ++ e))], dr ++ dw ++ de)
  | _, _, _ => None
  end.

(** The value and the description of a permission profile; one that describes nothing is refused. *)
Definition permissionProfile (v : jval) : option (jval * string) :=
  if negb (keysWithin v ["network"; "fileSystem"]) then None else
  match networkPart v, fileSystemPart v with
  | Some (n, dn), Some (f, df) =>
      match dn ++ df with
      | [] => None
      | ds => Some (JObj (n ++ f), join (String (ascii_of_nat 10) EmptyString) ds)
      end
  | _, _ => None
  end.

(** [/^[a-z0-9.-]+(?::[0-9]{1,5})?$/i] *)
Definition host_char (c : ascii) : bool :=
  let n := nat_of_ascii c in
  ((48 <=? n)%nat && (n <=? 57)%nat) || ((65 <=? n)%nat && (n <=? 90)%nat) || ((97 <=? n)%nat && (n <=? 122)%nat)
  || Ascii.eqb c "." || Ascii.eqb c "-".
Definition port_char (c : ascii) : bool := is_Some_b (digit_of c).

Definition hostRe (s : string) : bool :=
  match split_on ":" s with
  | [h] => truthy h && string_forall host_char h
  | [h; p] => truthy h && string_forall host_char h && truthy p && (String.length p <=? 5)%nat && string_forall port_char p
  | _ => false
  end.

Definition COMMON : list string :=
  ["threadId"; "turnId"; "itemId"; "approvalId"; "startedAtMs"; "reason"; "environmentId"].

Record Scope : Type := MkScope { sc_kind : string; sc_value : jval; sc_description : string }.

Definition lf : string := String (ascii_of_nat 10) EmptyString.

Definition networkScope (net : jval) (additional : jval) : option Scope :=
  if negb (keysWithin net ["host"; "protocol"]) then None else
  match bounded (prop net "host") with
  | None => None
  | Some h =>
      match prop net "protocol" with
      | JStr proto =>
          if hostRe h && inb proto ["http"; "https"; "socks5Tcp"; "socks5Udp"] && is_nullish additional then
            Some (MkScope "network_host" (JObj [("host", JStr (lower h)); ("protocol", JStr proto)])
                    ("Network host: " +:+ lower h +:+ lf +:+ "Protocol: " +:+ proto))
          else None
      | _ => None
      end
  end.

Definition commandScope (p : jval) : option Scope :=
  if negb (keysWithin p (COMMON ++ ["command"; "cwd"; "commandActions"; "kind"; "networkApprovalContext";
             "proposedExecpolicyAmendment"; "proposedNetworkPolicyAmendments"; "availableDecisions"; "additionalPermissions"]))
     || (negb (is_nullish (prop p "kind")) && negb (strict_eq (prop p "kind") (JStr "command"))) then None else
  if negb (is_nullish (prop p "networkApprovalContext"))
  then networkScope (prop p "networkApprovalContext") (prop p "additionalPermissions")
  else
    match bounded (prop p "command"), absolute (prop p "cwd") with
    | Some command, Some cwd =>
        let cwd := normalize cwd in
        let scope (value : jval) (more : string) :=
          MkScope "exact_command" (JObj [("command", JStr command); ("cwd", JStr cwd); ("additionalPermissions", value)])
            ("Exact command (including requested sandbox escalation):" +:+ lf +:+ command +:+ lf
              +:+ "Working directory: " +:+ cwd +:+ more) in
        if is_nullish (prop p "additionalPermissions") then Some (scope JNull EmptyString) else
        match permissionProfile (prop p "additionalPermissions") with
        | Some (value, d) => Some (scope value (lf +:+ d))
        | None => None
        end
    | _, _ => None
    end.

Definition permissionScope (p : jval) : option Scope :=
  if negb (keysWithin p (COMMON ++ ["cwd"; "permissions"])) then None else
  match absolute (prop p "cwd") with
  | Some cwd =>
      match permissionProfile (prop p "permissions") with
      | Some (value, d) => Some (MkScope "permission_profile" (JObj [("cwd", JStr (normalize cwd)); ("permissions", value)]) d)
      | None => None
      end
  | None => None
  end.

Definition scopeOf (input : jval) : option Scope :=
  let p := prop input "params" in
  match prop input "method" with
  | JStr m =>
      if String.eqb m "item/commandExecution/requestApproval" then commandScope p
      else if String.eqb m "item/permissions/requestApproval" then permissionScope p
      else None
  | _ => None
  end.

Definition identityJson (workspace : string) (mayWrite : bool) (env : option string) (rest : list (string * jval)) : jval :=
  JObj ([("workspace", JStr workspace); ("mayWrite", JBool mayWrite); ("environmentId", str_or_null env)] ++ rest).

Definition deriveExecutionAuthorization (input : jval) : option ApprovalStore.Authorization :=
  match bounded (prop input "agentId"), absolute (prop input "workspace"), bool_of (prop input "mayWrite") with
  | Some agentId, Some workspace, Some mayWrite =>
      let p := prop input "params" in
      if negb (object p) then None else
      let envRaw := prop p "environmentId" in
      if negb (is_nullish envRaw) && negb (is_Some_b (bounded envRaw)) then None else
      match scopeOf input with
      | None => None
      | Some sc =>
          if (1000 * 12 <? String.length (sc_description sc))%nat then None else
          let workspace := normalize workspace in
          let env := bounded envRaw in
          Some (ApprovalStore.MkAuthorization agentId (bounded (prop input "taskId")) workspace mayWrite env
                  (sc_kind sc)
                  (digest (identityJson workspace mayWrite env [("kind", JStr (sc_kind sc)); ("value", sc_value sc)]))
                  (sc_description sc) None)
      end
  | _, _, _ => None
  end.

End model.
End ExecAuth.
