(* ===== verification/ExecAuthFacts.v ===== *)
(** * What a scope key names

    The canonical text of a permission determines it, so two authorizations that share a key ask for
    the same permission on the same workspace; and the paths a permission names are absolute and
    normalised. *)

From Stdlib Require Import ZArith QArith Lia String Ascii.
From stdpp Require Import base list strings sorting.
From S2P Require Import Prelude OMap Json Store JsonParse Journal ApprovalStore ExecAuth.
Import ExecAuth.
Import ApprovalStore(au_workspace, au_mayWrite, au_environmentId, au_scope_kind, au_scope_key).
#[local] Open Scope stdpp_scope.

(** ** Values without numbers, whose members have names that are not array indices *)

Inductive plain : jval → Prop :=
| pl_null : plain JNull
| pl_bool b : plain (JBool b)
| pl_str s : plain (JStr s)
| pl_arr l : Forall plain l → plain (JArr l)
| pl_obj (o : omap jval) : forallb (λ k, negb (is_Some_b (array_index k))) (om_keys o) = true → NoDup (om_keys o) →
    Forall plain o.*2 → plain (JObj o).

Definition before_key (a b : string * jval) : bool := String.ltb a.1 b.1.
Definition canonical_entry : string * jval → string * jval := prod_map (λ k, k) canonical.

Lemma obj_set_all (l : omap jval) : forallb (λ k, negb (is_Some_b (array_index k))) (om_keys l) = true → NoDup (om_keys l) →
  foldl (λ m p, obj_set p.1 p.2 m) [] l = l.
Proof.
  assert (H : ∀ acc, forallb (λ k, negb (is_Some_b (array_index k))) (om_keys l) = true → NoDup (om_keys (acc ++ l)) →
    foldl (λ m p, obj_set p.1 p.2 m) acc l = acc ++ l).
  { induction l as [|[k v] l IH]; intros acc Hi Hn; [by rewrite app_nil_r|]. cbn [foldl fst snd].
    cbn [om_keys fmap list_fmap fst forallb] in Hi. apply andb_true_iff in Hi as [Hk Hi].
    assert (Hset : obj_set k v acc = acc ++ [(k, v)]).
    { unfold obj_set. replace (om_has k acc) with false; [by destruct (array_index k)|]. symmetry. apply om_has_false, om_get_None.
      unfold om_keys in Hn. rewrite fmap_app in Hn. apply NoDup_app in Hn as (_ & Hd & _). intros Hin. apply (Hd k Hin). by left. }
    rewrite Hset, IH; [by rewrite <-app_assoc|done|by rewrite <-app_assoc]. }
  intros Hi Hn. by apply (H []).
Qed.

Lemma canonical_unfold o : canonical (JObj o) =
  JObj (foldl (λ m p, obj_set p.1 p.2 m) [] (stable_sort before_key (canonical_entry <$> o))).
Proof.
  cbn [canonical]. do 3 f_equal. induction o as [|[k x] o IH]; [done|]. cbn [fmap list_fmap]. by rewrite <-IH.
Qed.

Lemma sorted_entries o : stable_sort before_key (canonical_entry <$> o) ≡ₚ canonical_entry <$> o.
Proof. apply stable_sort_perm. Qed.

Lemma keys_of_entries (o : omap jval) : om_keys (canonical_entry <$> o) = om_keys o.
Proof. apply om_keys_fmap. Qed.

Lemma canonical_obj o : plain (JObj o) → canonical (JObj o) = JObj (stable_sort before_key (canonical_entry <$> o)).
Proof.
  intros H. inversion H as [| | | |? Hi Hn _]; subst. rewrite canonical_unfold. f_equal. apply obj_set_all.
  - apply forallb_elem. intros k Hk. unfold om_keys in Hk. rewrite sorted_entries in Hk. change (k ∈ om_keys (canonical_entry <$> o)) in Hk.
    rewrite keys_of_entries in Hk. rewrite forallb_elem in Hi. by apply Hi.
  - unfold om_keys. rewrite sorted_entries. change (NoDup (om_keys (canonical_entry <$> o))). by rewrite keys_of_entries.
Qed.

Lemma plain_canonical v : plain v → plain (canonical v).
Proof.
  induction v as [| |b|n|s|l IH|o IH|f] using jval_ind'; intros H; try (by inversion H).
  - inversion H as [| | |? Hl|]; subst. cbn [canonical]. apply pl_arr. apply Forall_forall. intros x Hx.
    apply list_elem_of_fmap in Hx as (y & -> & Hy). rewrite Forall_forall in IH, Hl. by apply IH, Hl.
  - rewrite canonical_obj by done. inversion H as [| | | |? Hi Hn Hl]; subst. apply pl_obj.
    + apply forallb_elem. intros k Hk. unfold om_keys in Hk. rewrite sorted_entries in Hk. change (k ∈ om_keys (canonical_entry <$> o)) in Hk.
      rewrite keys_of_entries in Hk. rewrite forallb_elem in Hi. by apply Hi.
    + unfold om_keys. rewrite sorted_entries. change (NoDup (om_keys (canonical_entry <$> o))). by rewrite keys_of_entries.
    + rewrite sorted_entries. rewrite <-list_fmap_compose. apply Forall_forall. intros x Hx.
      apply list_elem_of_fmap in Hx as ([k y] & -> & Hy). cbn [snd compose canonical_entry prod_map].
      rewrite Forall_forall in IH, Hl. assert (Hin : y ∈ o.*2) by (apply list_elem_of_fmap; by exists (k, y)). by apply IH, Hl.
Qed.

Section text.
Context (num_str : num → string) (str_num : string → num).

Lemma plain_readable v : plain v → readable num_str str_num v ∧ json_copy v = Some v.
Proof.
  induction v as [| |b|n|s|l IH|o IH|f] using jval_ind'; intros H; try (by inversion H); try (by split; [constructor|]).
  - inversion H as [| | |? Hl|]; subst. assert (Hall : ∀ x, x ∈ l → readable num_str str_num x ∧ json_copy x = Some x).
    { intros x Hx. rewrite Forall_forall in IH, Hl. by apply IH, Hl. }
    split; [apply rd_arr, Forall_forall; intros x Hx; by apply Hall|]. cbn [json_copy]. do 2 f_equal.
    clear -Hall. induction l as [|x l IH]; [done|]. cbn [List.map]. rewrite IH by (intros; apply Hall; by right).
    destruct (Hall x ltac:(by left)) as [_ ->]. done.
  - inversion H as [| | | |? Hi Hn Hl]; subst. assert (Hall : ∀ x, x ∈ o.*2 → readable num_str str_num x ∧ json_copy x = Some x).
    { intros x Hx. rewrite Forall_forall in IH, Hl. by apply IH, Hl. }
    split; [apply rd_obj; [by apply names_ordered|apply Forall_forall; intros x Hx; by apply Hall]|].
    change (Some (JObj (member_copies o)) = Some (JObj o)). do 2 f_equal. clear -Hall.
    induction o as [|[k x] o IH]; [done|]. cbn [member_copies]. destruct (Hall x ltac:(by left)) as [_ ->].
    rewrite IH; [done|]. intros y Hy. apply Hall. by right.
Qed.

(** The canonical text determines the canonical value. *)
Lemma canonical_text_inj v w : plain v → plain w →
  json_text num_str (canonical v) = json_text num_str (canonical w) → canonical v = canonical w.
Proof.
  intros Hv%plain_canonical Hw%plain_canonical H.
  destruct (plain_readable _ Hv) as [Rv Cv], (plain_readable _ Hw) as [Rw Cw]. unfold json_text in H.
  assert (Hs : ∀ x, json_copy x = Some x → ∃ t, stringify num_str x = Some t).
  { intros x Hx. pose proof (stringify_copy num_str x) as [Hc _]. destruct (stringify num_str x); [eauto|]. by rewrite Hc in Hx. }
  destruct (Hs _ Cv) as [t Ht], (Hs _ Cw) as [u Hu]. rewrite Ht, Hu in H. cbn in H. subst u.
  pose proof (json_roundtrip num_str str_num _ _ Rv Ht) as H1. rewrite (json_roundtrip num_str str_num _ _ Rw Hu) in H1.
  unfold clone in H1. rewrite Cv, Cw in H1. by injection H1.
Qed.

End text.

(** A member of a canonical value is the canonical member. *)
Lemma prop_canonical o k : plain (JObj o) → prop (canonical (JObj o)) k = canonical (prop (JObj o) k).
Proof.
  intros H. rewrite canonical_obj by done. inversion H as [| | | |? _ Hn _]; subst. cbn [prop].
  assert (Hg : ∀ l : omap jval, prop_in k l = default JUndef (om_get k l)).
  { induction l as [|[k' x] l IH]; [done|]. cbn [prop_in om_get]. destruct (String.eqb k k'); [done|exact IH]. }
  rewrite !Hg.
  assert (Heq : om_get k (stable_sort before_key (canonical_entry <$> o)) = om_get k (canonical_entry <$> o)).
  { assert (Hn1 : NoDup (om_keys (canonical_entry <$> o))) by by rewrite keys_of_entries.
    assert (Hn2 : NoDup (om_keys (stable_sort before_key (canonical_entry <$> o)))) by (unfold om_keys; by rewrite sorted_entries).
    destruct (om_get k (canonical_entry <$> o)) as [x|] eqn:E.
    - apply elem_of_om_get; [done|]. rewrite sorted_entries. by apply om_get_elem_of.
    - apply om_get_None. rewrite om_get_None in E. unfold om_keys. by rewrite sorted_entries. }
  rewrite Heq. unfold canonical_entry. rewrite om_get_fmap. by destruct (om_get k o).
Qed.

(** ** The derived permissions are plain *)

Ltac plain_obj := apply pl_obj; [done|by apply (bool_decide_unpack _)|repeat (apply Forall_cons; split); try apply Forall_nil_2].

Lemma plain_strs (l : list string) : plain (JArr (List.map JStr l)).
Proof. apply pl_arr, Forall_forall. intros x Hx. apply list_elem_of_fmap in Hx as (y & -> & _). constructor. Qed.

Section scopes.
Context (num_str : num → string) (sha256 : string → string) (localeCompare : string → string → Z).

(** The members a part contributes: its own name, if any, with a plain value. *)
Definition part_ok (name : string) (ms : list (string * jval)) : Prop :=
  ms = [] ∨ ∃ v, ms = [(name, v)] ∧ plain v.

Lemma modePaths_ok mode fs ms ds : modePaths mode fs = Some (ms, ds) → part_ok mode ms.
Proof.
  unfold modePaths. destruct (is_nullish _); [intros [= <- _]; by left|]. destruct (pathList _); [|done].
  intros [= <- _]. right. eexists. split; [done|apply plain_strs].
Qed.

Lemma entryJson_plain e : plain (entryJson e).
Proof. plain_obj; [constructor|]. plain_obj; constructor. Qed.

Lemma entryPaths_ok fs ms ds : entryPaths num_str localeCompare fs = Some (ms, ds) → part_ok "entries" ms.
Proof.
  unfold entryPaths. destruct (prop fs "entries") as [| | | | |l| |]; try done; try (intros [= <- _]; by left).
  destruct (64 <? length l)%nat; [done|]. destruct (all_of _) as [es|]; [|done]. intros [= <- _]. right. eexists. split; [done|].
  apply pl_arr. rewrite stable_sort_perm. apply Forall_forall. intros x Hx. apply list_elem_of_fmap in Hx as (e & -> & _).
  apply entryJson_plain.
Qed.

Lemma networkPart_ok v ms ds : networkPart v = Some (ms, ds) → part_ok "network" ms.
Proof.
  unfold networkPart. destruct (is_nullish _); [intros [= <- _]; by left|]. destruct (negb _); [done|].
  destruct (prop _ "enabled"); try done. intros [= <- _]. right. eexists. split; [done|]. plain_obj. constructor.
Qed.

Lemma fileSystemPart_ok v ms ds : fileSystemPart num_str localeCompare v = Some (ms, ds) → part_ok "fileSystem" ms.
Proof.
  unfold fileSystemPart. destruct (is_nullish _); [intros [= <- _]; by left|]. destruct (_ || _); [done|].
  destruct (modePaths "read" _) as [[r dr]|] eqn:Hr; [|done]. destruct (modePaths "write" _) as [[w dw]|] eqn:Hw; [|done].
  destruct (entryPaths _ _ _) as [[e de]|] eqn:He; [|done]. intros [= <- _]. right. eexists. split; [done|].
  apply modePaths_ok in Hr as [->|(vr & -> & Hr)]; apply modePaths_ok in Hw as [->|(vw & -> & Hw)];
    apply entryPaths_ok in He as [->|(ve & -> & He)]; plain_obj; done.
Qed.

Lemma permissionProfile_plain v p d : permissionProfile num_str localeCompare v = Some (p, d) → plain p.
Proof.
  unfold permissionProfile. destruct (negb _); [done|]. destruct (networkPart v) as [[n dn]|] eqn:Hn; [|done].
  destruct (fileSystemPart _ _ v) as [[f df]|] eqn:Hf; [|done]. destruct (dn ++ df); [done|]. intros [= <- _].
  apply networkPart_ok in Hn as [->|(vn & -> & Hn)]; apply fileSystemPart_ok in Hf as [->|(vf & -> & Hf)]; plain_obj; done.
Qed.

(** What each kind of scope says. *)
Inductive names (p : jval) : Scope → Prop :=
| nm_host d h proto : prop (prop p "networkApprovalContext") "host" = JStr h →
    prop (prop p "networkApprovalContext") "protocol" = JStr proto →
    names p (MkScope "network_host" (JObj [("host", JStr (lower h)); ("protocol", JStr proto)]) d)
| nm_command d command cwd a : prop p "command" = JStr command → absolute (prop p "cwd") = Some cwd → plain a →
    (if is_nullish (prop p "additionalPermissions") then a = JNull
     else ∃ e, permissionProfile num_str localeCompare (prop p "additionalPermissions") = Some (a, e)) →
    names p (MkScope "exact_command" (JObj [("command", JStr command); ("cwd", JStr (normalize cwd)); ("additionalPermissions", a)]) d)
| nm_profile d cwd v : absolute (prop p "cwd") = Some cwd → plain v →
    permissionProfile num_str localeCompare (prop p "permissions") = Some (v, d) →
    names p (MkScope "permission_profile" (JObj [("cwd", JStr (normalize cwd)); ("permissions", v)]) d).

Lemma bounded_str v s : bounded v = Some s → v = JStr s.
Proof. destruct v; try done. cbn [bounded]. case_match; [|done]. by intros [= ->]. Qed.

Lemma scope_names input sc : scopeOf num_str localeCompare input = Some sc → names (prop input "params") sc.
Proof.
  unfold scopeOf. destruct (prop input "method") as [| | | |m| | |]; try done. destruct (String.eqb m _).
  - unfold commandScope. destruct (_ || _); [done|]. destruct (negb (is_nullish (prop _ "networkApprovalContext"))).
    + unfold networkScope. destruct (negb _); [done|]. destruct (bounded _) as [h|] eqn:Hh; [|done].
      destruct (prop _ "protocol") as [| | | |proto| | |] eqn:Hp; try done. case_match; [|done]. intros [= <-].
      apply nm_host; [by apply bounded_str|done].
    + destruct (bounded _) as [c|] eqn:Hc; [|done]. destruct (absolute _) as [cwd|] eqn:Hcwd; [|done].
      apply bounded_str in Hc. destruct (is_nullish (prop _ "additionalPermissions")) eqn:Hn.
      * intros [= <-]. apply nm_command; [done|done|constructor|by rewrite Hn].
      * destruct (permissionProfile _ _ _) as [[a d]|] eqn:Ha; [|done]. intros [= <-]. apply nm_command; [done|done| |].
        -- by apply permissionProfile_plain in Ha.
        -- rewrite Hn. by eexists.
  - destruct (String.eqb m _); [|done]. unfold permissionScope. destruct (negb _); [done|].
    destruct (absolute _) as [cwd|] eqn:Hcwd; [|done]. destruct (permissionProfile _ _ _) as [[v d]|] eqn:Hp; [|done].
    intros [= <-]. apply nm_profile; [done|by apply permissionProfile_plain in Hp|done].
Qed.

Lemma names_plain p sc : names p sc → plain (sc_value sc).
Proof. intros [| |]; cbn [sc_value]; plain_obj; try constructor; done. Qed.

Lemma identity_plain w m e kind v : plain v → plain (identityJson w m e [("kind", JStr kind); ("value", v)]).
Proof. intros Hv. unfold identityJson. destruct e; plain_obj; try constructor; done. Qed.

(** What a derived authorization was derived from. *)
Lemma derived input a : deriveExecutionAuthorization num_str sha256 localeCompare input = Some a →
  ∃ sc w, scopeOf num_str localeCompare input = Some sc ∧ names (prop input "params") sc ∧
    absolute (prop input "workspace") = Some w ∧ au_workspace a = normalize w ∧ prop input "mayWrite" = JBool (au_mayWrite a) ∧
    au_scope_kind a = sc_kind sc ∧
    au_scope_key a = sha256 (json_text num_str (canonical
      (identityJson (au_workspace a) (au_mayWrite a) (au_environmentId a) [("kind", JStr (sc_kind sc)); ("value", sc_value sc)]))).
Proof.
  unfold deriveExecutionAuthorization. destruct (bounded (prop input "agentId")); [|done].
  destruct (absolute (prop input "workspace")) as [w|] eqn:Hw; [|done].
  destruct (bool_of (prop input "mayWrite")) as [b|] eqn:Hb; [|done]. destruct (negb _); [done|]. destruct (_ && _); [done|].
  destruct (scopeOf _ _ _) as [sc|] eqn:Hs; [|done]. destruct (_ <? _)%nat; [done|]. intros [= <-].
  exists sc, w. cbn [au_workspace au_mayWrite au_environmentId au_scope_kind au_scope_key]. split_and!; try done.
  - by apply scope_names.
  - destruct (prop input "mayWrite"); try done. by injection Hb as ->.
Qed.

(** A scope key names one permission: when the digest does not collide, two derived
    authorizations with the same key are for the same workspace, write access and environment and
    the same kind of scope; two exact commands with one key are the same command line in the same
    directory, and two network grants with one key are the same host and protocol. *)
Lemma scope_key_names_one_permission i i' a a' :
  (∀ x y, sha256 x = sha256 y → x = y) →
  deriveExecutionAuthorization num_str sha256 localeCompare i = Some a →
  deriveExecutionAuthorization num_str sha256 localeCompare i' = Some a' →
  au_scope_key a = au_scope_key a' →
  (au_workspace a, au_mayWrite a, au_environmentId a, au_scope_kind a) =
    (au_workspace a', au_mayWrite a', au_environmentId a', au_scope_kind a') ∧
  (∀ sc sc', scopeOf num_str localeCompare i = Some sc → scopeOf num_str localeCompare i' = Some sc' →
     canonical (sc_value sc) = canonical (sc_value sc')) ∧
  (au_scope_kind a = "exact_command" →
     prop (prop i "params") "command" = prop (prop i' "params") "command" ∧
     normalize <$> absolute (prop (prop i "params") "cwd") = normalize <$> absolute (prop (prop i' "params") "cwd")) ∧
  (au_scope_kind a = "network_host" →
     let host p := match prop (prop (prop p "params") "networkApprovalContext") "host" with JStr h => lower h | _ => EmptyString end in
     let protocol p := prop (prop (prop p "params") "networkApprovalContext") "protocol" in
     host i = host i' ∧ protocol i = protocol i').
Proof.
  intros Hsha Ha Ha' Hkey. apply derived in Ha as (sc & w & Hs & Hn & _ & _ & _ & Hkind & Hk).
  apply derived in Ha' as (sc' & w' & Hs' & Hn' & _ & _ & _ & Hkind' & Hk').
  pose proof (names_plain _ _ Hn) as Hp. pose proof (names_plain _ _ Hn') as Hp'.
  rewrite Hk, Hk' in Hkey. apply Hsha in Hkey.
  apply (canonical_text_inj num_str (λ _, NaN)) in Hkey; [|by apply identity_plain|by apply identity_plain].
  assert (Hprop : ∀ k, canonical (prop (identityJson (au_workspace a) (au_mayWrite a) (au_environmentId a) [("kind", JStr (sc_kind sc)); ("value", sc_value sc)]) k) =
                      canonical (prop (identityJson (au_workspace a') (au_mayWrite a') (au_environmentId a') [("kind", JStr (sc_kind sc')); ("value", sc_value sc')]) k)).
  { intros k. unfold identityJson in *. rewrite <-!prop_canonical, Hkey by (by apply identity_plain). done. }
  pose proof (Hprop "workspace") as [= H1]. pose proof (Hprop "mayWrite") as [= H2].
  pose proof (Hprop "environmentId") as H3. pose proof (Hprop "kind") as [= H4]. pose proof (Hprop "value") as H5.
  change (canonical (sc_value sc) = canonical (sc_value sc')) in H5.
  change (canonical (str_or_null (au_environmentId a)) = canonical (str_or_null (au_environmentId a'))) in H3.
  assert (Henv : au_environmentId a = au_environmentId a') by (destruct (au_environmentId a), (au_environmentId a'); cbn in H3; congruence).
  assert (Hmember : ∀ o o' k, sc_value sc = JObj o → sc_value sc' = JObj o' → canonical (prop (JObj o) k) = canonical (prop (JObj o') k)).
  { intros o o' k Ho Ho'. rewrite Ho, Ho' in *. by rewrite <-!prop_canonical, H5. }
  split_and!.
  - rewrite Hkind, Hkind', H1, H2, Henv, H4. done.
  - intros s s' E E'. congruence.
  - rewrite Hkind. intros Hc. destruct Hn as [|d command cwd x Hcm Hcwd _ _|]; try done.
    destruct Hn' as [|d' command' cwd' x' Hcm' Hcwd' _ _|]; try done.
    pose proof (Hmember _ _ "command" eq_refl eq_refl) as [= Hc1]. pose proof (Hmember _ _ "cwd" eq_refl eq_refl) as [= Hc2].
    rewrite Hcm, Hcm', Hcwd, Hcwd', Hc1. split; [done|]. exact (f_equal Some Hc2).
  - rewrite Hkind. intros Hc. destruct Hn as [d h proto Hh Hpr| |]; try done. destruct Hn' as [d' h' proto' Hh' Hpr'| |]; try done.
    pose proof (Hmember _ _ "host" eq_refl eq_refl) as [= Hc1]. pose proof (Hmember _ _ "protocol" eq_refl eq_refl) as [= Hc2].
    cbv beta zeta. rewrite Hh, Hh', Hpr, Hpr', Hc2. by split.
Qed.

(** The task and its epoch are all that a request changes of what was derived. *)
Lemma requested e q i a :
  ApprovalStore.requestAuthorization (deriveExecutionAuthorization num_str sha256 localeCompare) e q i = Some a →
  ∃ a0, deriveExecutionAuthorization num_str sha256 localeCompare i = Some a0 ∧ au_scope_key a = au_scope_key a0 ∧
    (au_workspace a, au_mayWrite a, au_environmentId a, au_scope_kind a) =
    (au_workspace a0, au_mayWrite a0, au_environmentId a0, au_scope_kind a0).
Proof.
  unfold ApprovalStore.requestAuthorization. destruct (String.eqb _ "codex"); [|done].
  destruct (deriveExecutionAuthorization _ _ _ i) as [a0|] eqn:E; [|done]. clear E. intros H. exists a0. split; [done|].
  repeat case_match; try done; injection H as <-; by destruct a0.
Qed.

(** A reused grant authorizes exactly what its owner was shown: when the digest does not collide
    and a new request is let through by a grant that the verdict on an earlier request created, then
    both are for the same agent, project and room, for the same workspace, write access, environment
    and kind of scope, and, for an exact command, the same command line in the same directory, for a
    network grant the same host and protocol; a grant for one task is only reused within that task. *)
Theorem reused_grant_is_what_was_shown e e' e2 q q' i i' a a' st r r' g k action t :
  (∀ x y, sha256 x = sha256 y → x = y) →
  let derive := deriveExecutionAuthorization num_str sha256 localeCompare in
  ApprovalStore.requestAuthorization derive e q i = Some a → ApprovalStore.authorization r = Some a →
  ApprovalStore.requestAuthorization derive e' q' i' = Some a' → g = ApprovalStore.newGrant k action a' t r' →
  ApprovalStore.coveringGrant num_str sha256 e2 st r = Some g →
  (ApprovalStore.agent r, ApprovalStore.project r, ApprovalStore.projectRoomId r) =
    (ApprovalStore.agent r', ApprovalStore.project r', ApprovalStore.projectRoomId r') ∧
  (au_workspace a, au_mayWrite a, au_environmentId a, au_scope_kind a) =
    (au_workspace a', au_mayWrite a', au_environmentId a', au_scope_kind a') ∧
  (au_scope_kind a = "exact_command" →
     prop (prop i "params") "command" = prop (prop i' "params") "command" ∧
     normalize <$> absolute (prop (prop i "params") "cwd") = normalize <$> absolute (prop (prop i' "params") "cwd")) ∧
  (au_scope_kind a = "network_host" →
     let host p := match prop (prop (prop p "params") "networkApprovalContext") "host" with JStr h => lower h | _ => EmptyString end in
     let protocol p := prop (prop (prop p "params") "networkApprovalContext") "protocol" in
     host i = host i' ∧ protocol i = protocol i') ∧
  (action = "approve_task" → ApprovalStore.au_taskId a = ApprovalStore.au_taskId a').
Proof.
  intros Hsha derive (a0 & H0 & Hk0 & Hi0)%requested Hr (a1 & H1 & Hk1 & Hi1)%requested -> Hg.
  unfold ApprovalStore.coveringGrant in Hg. rewrite Hr in Hg. apply List.find_some in Hg as [_ Hg].
  rewrite !andb_true_iff, !bool_decide_eq_true, !String.eqb_eq in Hg.
  destruct Hg as (((((((_ & Hag) & _) & Hroom) & Hproj) & _) & Hkey) & Htask).
  cbn [ApprovalStore.newGrant ApprovalStore.gr_agent ApprovalStore.gr_projectRoomId ApprovalStore.gr_project
       ApprovalStore.gr_scopeKey ApprovalStore.gr_scope ApprovalStore.gr_taskId] in *.
  destruct (scope_key_names_one_permission i i' a0 a1 Hsha H0 H1 ltac:(congruence)) as (Hs & _ & Hc & Hn).
  assert (Hkind : au_scope_kind a = au_scope_kind a0) by congruence.
  split_and!; [congruence|congruence|by rewrite Hkind|by rewrite Hkind|].
  intros ->. apply orb_true_iff in Htask as [Ht|Ht]; [done|]. apply bool_decide_eq_true in Ht. by symmetry.
Qed.

End scopes.

Definition no_digits : num → string := λ _, "0".
Definition same_digest : string → string := λ s, s.
Definition no_order : string → string → Z := λ _ _, 0.
Definition env_w : ApprovalStore.Env :=
  ApprovalStore.MkEnv (λ _, 1000) (λ _, "x") ApprovalStore.Saved (λ _, true) (λ _, Some 1) (λ _ _, true).

(** Two requests for the same command: one more member, one path written another way. *)
Definition ask (cwd why : string) : jval :=
  JObj [("agentId", JStr "a1"); ("workspace", JStr "/w/./x"); ("mayWrite", JBool true);
        ("method", JStr "item/commandExecution/requestApproval");
        ("params", JObj [("command", JStr "make test"); ("cwd", JStr cwd); ("reason", JStr why)])].
Definition asked : ApprovalStore.RequestInput := ApprovalStore.MkRequestInput "ada" "codex" "u1" "" "p" "!p:x" "Bash" "" "".
Definition bound_state : ApprovalStore.State :=
  so_mem (ApprovalStore.upsertBinding no_digits same_digest 100 env_w
    (JObj [("agent", JStr "ada"); ("project", JStr "p"); ("project_room_id", JStr "!p:x");
           ("owner_mxid", JStr "@o:x"); ("owner_dm_room_id", JStr "!d:x")])
    (ApprovalStore.MkState [] [] [] [])).

Lemma reused_grant_is_what_was_shown_witness :
  match om_vals (ApprovalStore.bindings bound_state) with
  | [b] =>
      let derive := deriveExecutionAuthorization no_digits same_digest no_order in
      let file i := ApprovalStore.bound no_digits same_digest derive env_w asked b "k" 1000 2000 i in
      match ApprovalStore.requestAuthorization derive env_w asked (ask "/w/x/." "first"),
            ApprovalStore.requestAuthorization derive env_w asked (ask "/w//x/y/.." "again") with
      | Some a', Some a =>
          let g := ApprovalStore.newGrant "g" "approve_always" a' 1500 (file (ask "/w/x/." "first")) in
          ApprovalStore.coveringGrant no_digits same_digest env_w
            (ApprovalStore.MkState (ApprovalStore.bindings bound_state) [] [("g", g)] []) (file (ask "/w//x/y/.." "again")) = Some g ∧
          au_workspace a = "/w/x" ∧ au_workspace a = au_workspace a'
      | _, _ => False
      end
  | _ => False
  end.
Proof.
  destruct (om_vals (ApprovalStore.bindings bound_state)) as [|b [|]] eqn:Eb; try (vm_compute in Eb; discriminate Eb).
  cbv zeta.
  destruct (ApprovalStore.requestAuthorization _ env_w asked (ask "/w/x/." "first")) as [a'|] eqn:E'; [|vm_compute in E'; discriminate E'].
  destruct (ApprovalStore.requestAuthorization _ env_w asked (ask "/w//x/y/.." "again")) as [a|] eqn:E; [|vm_compute in E; discriminate E].
  set (g := ApprovalStore.newGrant _ _ a' _ _).
  match goal with |- ?X = Some g ∧ _ => assert (Hc : X = Some g) end.
  { subst g. vm_compute in Eb. injection Eb as <-. vm_compute in E'. injection E' as <-. by vm_compute. }
  split; [exact Hc|]. split; [vm_compute in E; by injection E as <-|].
  match type of Hc with ApprovalStore.coveringGrant _ _ _ _ ?r = _ =>
    assert (Hr : ApprovalStore.authorization r = Some a) by exact E end.
  destruct (reused_grant_is_what_was_shown no_digits same_digest no_order env_w env_w env_w asked asked
    (ask "/w//x/y/.." "again") (ask "/w/x/." "first") a a' _ _ _ g "g" "approve_always" 1500
    (λ x y H, H) E Hr E' eq_refl Hc) as (_ & H & _).
  by injection H.
Defined.
