(* ===== verification/EngagementStore.v ===== *)
(** * Engagements ([lib/engagement-store.js], [lib/resource-allocation-budget.js]): data and operations

    A project asks for a share of an agent's token budget; the request is joined automatically when
    the contributor's whitelist, published offer and remaining ceiling allow it, and otherwise waits
    for a verdict. [EngagementFacts] and [EngagementSafety] hold the theorems. A record the code
    mutates in place and restores from a snapshot is a map entry replaced and put back. The hash and
    the locale's string order are parameters. *)

From Stdlib Require Import ZArith QArith Qround Lia String Ascii.
From stdpp Require Import base list strings.
From S2P Require Import Prelude OMap Json Store.
#[local] Open Scope stdpp_scope.

Module EngagementStore.

Definition STATES : list string := ["pending"; "active"; "ended"].
Definition ROUTES : list string := ["autoJoin"; "notWhitelisted"; "overOffer"; "overCeiling"; "crossFamilyUnavailable"].
Definition AUDIT_LIMIT : nat := 20 * 100.
Definition ENDED_LIMIT : nat := 5 * 100.
Definition MAX_SAFE_INTEGER : Z := 2 ^ 53 - 1.
Definition PHASES : list string :=
  ["reserved"; "provisioned"; "identified"; "bound"; "joined"; "starting"; "complete"; "failed"].

Definition ROOM_ID_RE : string → bool := matrix_id "!"%char.
Definition MXID_RE : string → bool := matrix_id "@"%char.

(** ** Records *)

(** The plan's own members stay as they came; [phase], [error] and [updatedAt] overwrite theirs. *)
Record Fulfillment : Type := MkFulfillment {
  f_plan : list (string * jval); phase : string; f_error : option string; f_updatedAt : Z;
}.

Inductive Notice : Type :=
| NoticePending
| NoticeDelivered (eventId : jval) (deliveredAt : Z)
| NoticeFailed (code : jval).

(** A member that was never assigned is [JUndef] or [None]. *)
Record Withdrawal : Type := MkWithdrawal {
  w_state : string; w_scope : jval; w_reason : option string; w_roomWithdrawal : jval;
  w_retirement : jval; w_checkedAt : option Z;
}.
#[export] Instance Withdrawal_settable : Settable Withdrawal := λ w,
  MkWithdrawal (w_state w) (w_scope w) (w_reason w) (w_roomWithdrawal w) (w_retirement w) (w_checkedAt w).

Record Engagement : Type := MkEngagement {
  id : string; requestId : option string; requestDigest : string; requestContext : jval;
  idempotent : bool; project : string; projectRoomId : string; role : string; requester : string;
  requestedTokens : Z; ratePerDay : option Z; agent : option string; createdAt : Z; route : string;
  autoJoined : bool; state : string; allocatedTokens : option Z; decidedAt : option Z;
  decidedBy : jval; endedAt : option Z; endedReason : option string; fulfillment : option Fulfillment;
  allocationChoice : jval; approvalNotice : option Notice; e_bound : option bool; boundAt : option Z;
  boundOwnerMxid : jval; bindError : option string; withdrawal : option Withdrawal;
}.
#[export] Instance Engagement_settable : Settable Engagement := λ e,
  MkEngagement (id e) (requestId e) (requestDigest e) (requestContext e) (idempotent e) (project e)
    (projectRoomId e) (role e) (requester e) (requestedTokens e) (ratePerDay e) (agent e) (createdAt e)
    (route e) (autoJoined e) (state e) (allocatedTokens e) (decidedAt e) (decidedBy e) (endedAt e)
    (endedReason e) (fulfillment e) (allocationChoice e) (approvalNotice e) (e_bound e) (boundAt e)
    (boundOwnerMxid e) (bindError e) (withdrawal e).

Record Trust : Type := MkTrust {
  t_projectRoomId : string; displayName : option string; addedAt : Z; addedBy : string;
}.

Record Offer : Type := MkOffer {
  o_role : string; count : option Z; budgetCapPerEngagement : option Z; rateCap : option Z;
  published : bool; updatedAt : Z; updatedBy : jval;
}.

Record AuditEntry : Type := MkAudit { a_type : string; a_at : Z; a_detail : list (string * jval) }.

Record State : Type := MkState {
  engagements : omap Engagement; whitelist : omap Trust; offers : omap Offer; audit : list AuditEntry;
}.
#[export] Instance State_settable : Settable State := λ s,
  MkState (engagements s) (whitelist s) (offers s) (audit s).

Definition empty : State := MkState [] [] [] [].

(** ** Budget holds ([lib/resource-allocation-budget.js]) *)

(** Whether an engagement holds tokens of a ceiling: running, or reserved by a plan under way. *)
Definition holdsAllocation (e : Engagement) : bool :=
  String.eqb (state e) "active" ||
  (String.eqb (state e) "pending" &&
   match fulfillment e with Some f => negb (inb (phase f) ["failed"; "complete"]) | None => false end).

Definition usesResourcePool (e : Engagement) : bool :=
  to_bool (prop (requestContext e) "agentDefinition").

(** ** Routing *)

Definition nonzero (o : option Z) : option Z := match o with Some 0 => None | o => o end.

(** The first half of the rate check: a published cap and a request that states no rate. *)
Definition overRate (cap rate : option Z) : bool :=
  match nonzero cap with
  | None => false
  | Some c => match nonzero rate with None => true | Some r => c <? r end
  end.

Definition routeRequest (tokens : Z) (rate : option Z) (whitelisted : bool) (offer : option Offer)
    (remainingTokens : option num) (activeForRole : Z) (crossFamilyOk : bool) : string * bool :=
  if negb whitelisted then ("notWhitelisted", false) else
  if negb crossFamilyOk then ("crossFamilyUnavailable", false) else
  match offer with
  | None => ("overOffer", false)
  | Some o =>
      if negb (published o) then ("overOffer", false) else
      if match nonzero (budgetCapPerEngagement o) with Some cap => cap <? tokens | None => false end
      then ("overOffer", false) else
      if overRate (rateCap o) rate then ("overOffer", false) else
      if match count o with Some n => n <=? activeForRole | None => false end then ("overOffer", false) else
      match remainingTokens with
      | None => ("overCeiling", false)
      | Some r => if num_ltb r (Fin (inject_Z tokens)) then ("overCeiling", false) else ("autoJoin", true)
      end
  end.

(** ** The world around a call *)

Record Env : Type := MkEnv {
  now : nat → Z;             (* successive readings of the clock *)
  random : string;           (* [randomBytes(3).toString('hex')] *)
  saves : save_outcome;      (* what the injected [persist] does *)
}.

(** [n.toString(36)] *)
Definition base36_digit (n : Z) : ascii :=
  ascii_of_nat (Z.to_nat (if n <? 10 then 48 + n else 87 + n)).
Fixpoint base36_go (fuel : nat) (n : Z) (acc : string) : string :=
  match fuel with
  | O => acc
  | S fuel =>
      let acc := String (base36_digit (n mod 36)) acc in
      if n <? 36 then acc else base36_go fuel (n / 36) acc
  end.
Definition base36 (n : Z) : string := base36_go (S (Z.to_nat (Z.log2 n))) n EmptyString.

Definition text (v : jval) (max : nat) : result string :=
  let t := match v with JStr s => trim s | _ => EmptyString end in
  if negb (truthy t) || (max <? String.length t)%nat then Throw "bad_request" else Ok t.

(** [x ? String(x).slice(0, n) : d] *)
Definition brief (num_str : num → string) (v : jval) (n : nat) (d : option string) : option string :=
  if to_bool v then Some (slice_to n (to_str num_str v)) else d.

(** ** Committing, with undo *)

(** The bounded audit log: the entries the cap pushes out are handed to the undo. *)
Definition record (at_ : Z) (type : string) (detail : list (string * jval)) (st : State)
    : State * (State → State) :=
  let grown := audit st ++ [MkAudit type at_ detail] in
  let trimmed := take (length grown - AUDIT_LIMIT) grown in
  (st <| audit := drop (length grown - AUDIT_LIMIT) grown |>,
   λ st', st' <| audit := trimmed ++ removelast (audit st') |>).

(** What one call leaves; the file receives the whole state. *)
Definition Out (A : Type) : Type := step_out State State A.
Definition unchanged {A} (a : A) (st : State) : Out A := StepOut (Ok a) st None.
Definition raise {A} (c : string) (st : State) : Out A := StepOut (Throw c) st None.

Definition commit {A} (e : Env) (undo : State → State) (a : A) (st : State) : Out A :=
  match saves e with
  | SaveDone => StepOut (Ok a) st (Some st)
  | SaveFalse | SaveThrew => StepOut (Throw "persistence_failed") (undo st) None
  end.

Definition setE (k : string) (g : Engagement) (st : State) : State :=
  st <| engagements := obj_set k g (engagements st) |>.

Definition ended (g : Engagement) : bool := String.eqb (state g) "ended".
Definition endedTime (g : Engagement) : Z := default 0 (endedAt g).

Definition str_eq_opt (o : option string) (s : string) : bool := bool_decide (o = Some s).

(** [committedFor] and the other sums: an absent allocation counts as zero. *)
Definition total (l : list Engagement) : Z := foldr (λ g n, default 0 (allocatedTokens g) + n) 0 l.

(** The part of a room id after its first colon, when there is one and something precedes it. *)
Definition serverOf (room : string) : option string :=
  match index_of ":"%char room with
  | Some (S n) => Some (drop_str (S (S n)) room)
  | _ => None
  end.

Section model.
Context (num_str : num → string) (str_num : string → num) (sha256 : string → string)
        (localeCompare : string → string → Z).

Definition json_text (v : jval) : string := default "" (stringify num_str v).

(** Floor first, then validate: a fraction below one is refused, not stored as zero. *)
Definition posInt (v : jval) : result Z :=
  match to_number num_str str_num v with
  | Fin q =>
      let floored := Qfloor q in
      if (floored <=? 0) || (MAX_SAFE_INTEGER <? floored) then Throw "bad_request" else Ok floored
  | _ => Throw "bad_request"
  end.

(** [x === null || x === undefined ? null : posInt(x)] *)
Definition optPosInt (v : jval) : result (option Z) :=
  if is_nullish v then Ok None else let* n := posInt v in Ok (Some n).

(** What a request asks for, as the digest sees it. *)
Record Ask : Type := MkAsk {
  q_projectRoomId : jval; q_role : jval; q_requester : jval; q_requestedTokens : jval;
  q_ratePerDay : jval; q_requestContext : jval; q_requestId : jval;
}.

Definition digestOf (room : string) (q : Ask) : string :=
  slice_to 32 (sha256 (json_text (JArr
    ([JStr room; JStr (lower (to_str num_str (nullish_or (q_role q) (JStr "")))); q_requester q;
      q_requestedTokens q; nullish_or (q_ratePerDay q) JNull]
     ++ (if to_bool (q_requestContext q) then [q_requestContext q] else []))))).

(** Ordered by [endedAt], ties by the id in the locale's order. *)
Definition endsBefore (a b : Engagement) : bool :=
  if endedTime a =? endedTime b then localeCompare (id a) (id b) <? 0 else endedTime a <? endedTime b.

Definition surplus (st : State) : list Engagement :=
  let all := List.filter ended (om_vals (engagements st)) in
  take (length all - ENDED_LIMIT) (stable_sort endsBefore all).

Definition deleteAll (l : list Engagement) (m : omap Engagement) : omap Engagement :=
  foldl (λ m g, om_del (id g) m) m l.
Definition restoreAll (l : list Engagement) (m : omap Engagement) : omap Engagement :=
  foldl (λ m g, obj_set (id g) g m) m l.

Definition pruneEnded (st : State) : State * (State → State) :=
  let removed := surplus st in
  (st <| engagements := deleteAll removed (engagements st) |>,
   λ st', st' <| engagements := restoreAll removed (engagements st') |>).

Definition commitmentsFor (serverName : jval) (st : State) : list Engagement :=
  let target := lower (trim (to_str num_str (js_or serverName (JStr "")))) in
  if negb (truthy target) then [] else
  List.filter (λ g, holdsAllocation g &&
    match serverOf (projectRoomId g) with Some s => String.eqb (lower s) target | None => false end)
    (om_vals (engagements st)).

Definition findRequest (key : string) (st : State) : option Engagement :=
  List.find (λ g, str_eq_opt (requestId g) key) (om_vals (engagements st)).

(** [Some]: the engagement an earlier use of the same [requestId] created. *)
Definition replayRequest (q : Ask) (st : State) : result (option Engagement) :=
  if is_nullish (q_requestId q) then Ok None else
  let* key := text (q_requestId q) 256 in
  match findRequest key st with
  | None => Ok None
  | Some prior =>
      let* room := text (q_projectRoomId q) 256 in
      throw_if negb (String.eqb (requestDigest prior) (digestOf room q)) with "conflict" in Ok (Some prior)
  end.

(** ** Choosing an agent, planning and fulfilling *)

Definition selectAgent (e : Env) (k : string) (agentValue choice by_ : jval) (st : State) : Out Engagement :=
  match om_get k (engagements st) with
  | None => raise "conflict" st
  | Some g =>
      if negb (String.eqb (state g) "pending") || is_Some_b (fulfillment g) then raise "conflict" st else
      match text agentValue 256 with
      | Throw c => raise c st
      | Ok a =>
          let g1 := g <| agent := Some a |> <| allocationChoice := choice |> in
          let '(st1, unrecord) := record (now e 0) "engagement.agent_selected"
            [("engagementId", JStr k); ("agent", JStr a); ("allocationChoice", choice); ("by", by_)] (setE k g1 st) in
          commit e (λ s, unrecord (setE k g s)) g1 st1
      end
  end.

(** The agent is assigned before the amount is read: an amount that is refused leaves the agent
    changed in memory. *)
Definition planFulfillment (e : Env) (k : string) (plan : list (string * jval)) (st : State) : Out Engagement :=
  match om_get k (engagements st) with
  | None => raise "conflict" st
  | Some g =>
      if negb (String.eqb (state g) "pending") then raise "conflict" st else
      if match fulfillment g with Some f => negb (String.eqb (phase f) "failed") | None => false end
      then unchanged g st else
      match text (prop_in "agent" plan) 256 with
      | Throw c => raise c st
      | Ok a =>
          let g1 := g <| agent := Some a |> in
          match posInt (prop_in "allocatedTokens" plan) with
          | Throw c => raise c (setE k g1 st)
          | Ok n =>
              let g2 := g1 <| allocatedTokens := Some n |>
                           <| fulfillment := Some (MkFulfillment plan "reserved" None (now e 0)) |> in
              let '(st1, unrecord) := record (now e 1) "engagement.fulfillment_reserved"
                [("engagementId", JStr k); ("agent", JStr a)] (setE k g2 st) in
              commit e (λ s, unrecord (setE k g s)) g2 st1
          end
      end
  end.

Definition setFulfillmentPhase (e : Env) (k newPhase : string) (error : jval) (st : State) : Out Engagement :=
  match om_get k (engagements st) with
  | None => raise "not_found" st
  | Some g =>
      match fulfillment g with
      | None => raise "not_found" st
      | Some f =>
          if negb (inb newPhase PHASES) then raise "bad_request" st else
          let g1 := g <| fulfillment := Some (MkFulfillment (f_plan f) newPhase (brief num_str error 400 None) (now e 0)) |> in
          let '(st1, unrecord) := record (now e 1) ("engagement.fulfillment_" +:+ newPhase)
            [("engagementId", JStr k); ("agent", str_or_null (agent g))] (setE k g1 st) in
          commit e (λ s, unrecord (setE k g s)) g1 st1
      end
  end.

(** ** The whitelist and the offers *)

Definition restoreW (room : string) (previous : option Trust) (st : State) : State :=
  st <| whitelist := match previous with
                     | None => om_del room (whitelist st)
                     | Some p => obj_set room p (whitelist st)
                     end |>.

Definition addToWhitelist (e : Env) (projectRoomIdV displayNameV addedByV : jval) (st : State) : Out Trust :=
  match (let* room := text projectRoomIdV 256 in
         throw_if negb (ROOM_ID_RE room) with "bad_request" in
         let* by_ := (if to_bool addedByV then text addedByV 256 else Ok "operator") in
         throw_if to_bool addedByV && negb (MXID_RE by_) with "bad_request" in Ok (room, by_)) with
  | Throw c => raise c st
  | Ok (room, by_) =>
      let previous := om_get room (whitelist st) in
      let entry := MkTrust room
        (match displayNameV with JStr s => truthy_opt (Some (slice_to 256 (trim s))) | _ => None end)
        (match previous with Some p => addedAt p | None => now e 0 end) by_ in
      let '(st1, unrecord) := record (now e 1) (if is_Some_b previous then "whitelist.updated" else "whitelist.added")
        [("projectRoomId", JStr room); ("by", JStr by_)] (st <| whitelist := obj_set room entry (whitelist st) |>) in
      commit e (λ s, unrecord (restoreW room previous s)) entry st1
  end.

Definition activeIn (room : string) (st : State) : list string :=
  id <$> List.filter (λ g, String.eqb (projectRoomId g) room && String.eqb (state g) "active") (om_vals (engagements st)).

(** De-trusting a project leaves its engagements alone; the ones still active are reported. *)
Definition removeFromWhitelist (e : Env) (projectRoomIdV by_ : jval) (st : State) : Out (string * list string) :=
  match text projectRoomIdV 256 with
  | Throw c => raise c st
  | Ok room =>
      match om_get room (whitelist st) with
      | None => raise "not_found" st
      | Some previous =>
          let stillActive := activeIn room st in
          let '(st1, unrecord) := record (now e 0) "whitelist.removed"
            [("projectRoomId", JStr room); ("by", nullish_or by_ (JStr "operator"));
             ("stillActive", JNum (Fin (inject_Z (Z.of_nat (length stillActive)))))]
            (st <| whitelist := om_del room (whitelist st) |>) in
          commit e (λ s, unrecord (restoreW room (Some previous) s)) (room, stillActive) st1
      end
  end.

Definition listWhitelist (st : State) : list Trust :=
  stable_sort (λ a b, addedAt b <? addedAt a) (om_vals (whitelist st)).
Definition isWhitelisted (room : string) (st : State) : bool := om_has room (whitelist st).

Definition setOffer (e : Env) (roleV countV capV rateV publishedV by_ : jval) (st : State) : Out Offer :=
  match (let* key := text roleV 64 in
         let* n := optPosInt countV in
         let* cap := optPosInt capV in
         let* rate := optPosInt rateV in
         Ok (MkOffer key n cap rate (match publishedV with JBool b => b | _ => false end)
               (now e 0) (nullish_or by_ (JStr "operator")))) with
  | Throw c => raise c st
  | Ok next =>
      let key := o_role next in
      let previous := om_get key (offers st) in
      let '(st1, unrecord) := record (now e 1) "offer.set"
        [("role", JStr key); ("published", JBool (published next)); ("by", updatedBy next)]
        (st <| offers := obj_set key next (offers st) |>) in
      commit e (λ s, unrecord (s <| offers := match previous with
                                              | None => om_del key (offers s)
                                              | Some p => obj_set key p (offers s)
                                              end |>)) next st1
  end.

Definition listOffers (st : State) : list Offer := om_vals (offers st).
Definition getOffer (r : string) (st : State) : option Offer := om_get r (offers st).

(** ** Requests *)

Record RequestInput : Type := MkRequestInput {
  i_ask : Ask; i_project : jval; i_agent : jval; i_offer : option Offer; i_remaining : option num;
  i_allowAutoJoin : bool; i_deferActivation : bool; i_crossFamilyOk : bool;
}.

(** How many engagements of a role already hold an allocation. *)
Definition activeForRole (r : string) (st : State) : Z :=
  Z.of_nat (length (List.filter (λ g, String.eqb (role g) r && holdsAllocation g) (om_vals (engagements st)))).

(** The fields a request is checked for, in the order they are read. *)
Record Checked : Type := MkChecked {
  c_project : string; c_role : string; c_requester : string; c_tokens : Z; c_rate : option Z;
  c_agent : option string;
}.
Definition checkRequest (i : RequestInput) : result Checked :=
  let q := i_ask i in
  let* p := text (i_project i) 256 in
  let* r := text (q_role q) 64 in
  let* who := text (q_requester q) 256 in
  let* n := posInt (q_requestedTokens q) in
  let* rate := optPosInt (q_ratePerDay q) in
  let* a := (if to_bool (i_agent i) then let* s := text (i_agent i) 256 in Ok (Some s) else Ok None) in
  Ok (MkChecked p r who n rate a).

Definition decision (i : RequestInput) (room : string) (c : Checked) (st : State) : string * bool :=
  routeRequest (c_tokens c) (c_rate c) (i_allowAutoJoin i && isWhitelisted room st)
    (match i_offer i with Some o => Some o | None => getOffer (c_role c) st end)
    (i_remaining i) (activeForRole (c_role c) st) (i_crossFamilyOk i).

Definition newId (e : Env) : string := "en_" +:+ base36 (now e 0) +:+ "_" +:+ random e.

Definition newEngagement (e : Env) (i : RequestInput) (room : string) (key : option string) (c : Checked)
    (via : string) (auto : bool) : Engagement :=
  MkEngagement (newId e) key (digestOf room (i_ask i))
    (if to_bool (q_requestContext (i_ask i)) then q_requestContext (i_ask i) else JUndef)
    (is_Some_b key) (c_project c) room (c_role c) (c_requester c) (c_tokens c) (c_rate c) (c_agent c) (now e 1)
    via auto (if auto then "active" else "pending") (if auto then Some (c_tokens c) else None)
    (if auto then Some (now e 2) else None) (if auto then JStr "auto" else JNull) None None
    None JUndef None None None JUndef None None.

(** The key of a request: its room, its [requestId], and what an earlier use of that id decides. *)
Definition admitRequest (i : RequestInput) (st : State)
    : result (string * option string * option Engagement) :=
  let q := i_ask i in
  let* room := text (q_projectRoomId q) 256 in
  throw_if negb (ROOM_ID_RE room) with "bad_request" in
  let* key := (if is_nullish (q_requestId q) then Ok None
               else let* s := text (q_requestId q) 256 in Ok (Some s)) in
  match match key with Some s => findRequest s st | None => None end with
  | None => Ok (room, key, None)
  | Some prior =>
      if String.eqb (requestDigest prior) (digestOf room q) then Ok (room, key, Some prior)
      else Throw "conflict"
  end.

Definition createRequest (e : Env) (i : RequestInput) (st : State) : Out Engagement :=
  match admitRequest i st with
  | Throw c => raise c st
  | Ok (_, _, Some prior) => unchanged prior st
  | Ok (room, key, None) =>
      match checkRequest i with
      | Throw c => raise c st
      | Ok c =>
          let '(via, join) := decision i room c st in
          let auto := join && negb (i_deferActivation i) in
          let g := newEngagement e i room key c via auto in
          let '(st1, unrecord) := record (now e (if auto then 3 else 2)%nat)
            (if auto then "engagement.auto_joined" else "engagement.pending")
            [("engagementId", JStr (id g)); ("project", JStr (project g)); ("role", JStr (role g));
             ("route", JStr via)] (setE (id g) g st) in
          commit e (λ s, unrecord (s <| engagements := om_del (id g) (engagements s) |>)) g st1
      end
  end.

(** ** Verdicts *)

Record Verdict : Type := MkVerdict {
  v_engagementId : jval; v_approve : bool; v_allocatedTokens : jval; v_remaining : option num;
  v_by : jval; v_reason : jval; v_autoJoin : bool; v_notify : bool;
}.

Definition rejectedE (e : Env) (v : Verdict) (g : Engagement) : Engagement :=
  g <| state := "ended" |> <| endedAt := Some (now e 0) |>
    <| endedReason := brief num_str (v_reason v) 256 (Some "rejected") |>
    <| decidedAt := Some (now e 1) |> <| decidedBy := nullish_or (v_by v) (JStr "operator") |>.

Definition approvedE (e : Env) (v : Verdict) (alloc : Z) (g : Engagement) : Engagement :=
  let g1 := g <| state := "active" |> <| autoJoined := v_autoJoin v |>
              <| fulfillment := match fulfillment g with
                                | Some f => Some (MkFulfillment (f_plan f) "complete" None (now e 0))
                                | None => None
                                end |>
              <| allocatedTokens := Some alloc |> <| decidedAt := Some (now e 1) |>
              <| decidedBy := nullish_or (v_by v) (JStr "operator") |> in
  if v_notify v && negb (v_autoJoin v) then g1 <| approvalNotice := Some NoticePending |> else g1.

(** Ending a record: the change, its audit entry and the pruning are one write with one undo. *)
Definition ending (e : Env) (k : string) (g g1 : Engagement) (at_ : Z) (type : string)
    (detail : list (string * jval)) (st : State) : Out (option Engagement) :=
  let '(st1, unrecord) := record at_ type detail (setE k g1 st) in
  let '(st2, unprune) := pruneEnded st1 in
  commit e (λ s, unrecord (unprune (setE k g s))) (om_get k (engagements st2)) st2.

Definition decide (e : Env) (v : Verdict) (st : State) : Out (option Engagement) :=
  match text (v_engagementId v) 256 with
  | Throw c => raise c st
  | Ok k =>
      match om_get k (engagements st) with
      | None => raise "not_found" st
      | Some g =>
          if negb (String.eqb (state g) "pending") then raise "conflict" st else
          if negb (v_approve v) then
            let g1 := rejectedE e v g in
            ending e (id g) g g1 (now e 2) "engagement.rejected"
              [("engagementId", JStr (id g)); ("by", decidedBy g1)] st
          else
          match posInt (nullish_or (v_allocatedTokens v) (JNum (Fin (inject_Z (requestedTokens g))))) with
          | Throw c => raise c st
          | Ok alloc =>
              match v_remaining v with
              | None => raise "no_ceiling" st
              | Some r =>
                  if num_ltb r (Fin (inject_Z alloc)) then raise "over_commit" st else
                  let g1 := approvedE e v alloc g in
                  let '(st1, unrecord) := record (now e 2) "engagement.approved"
                    [("engagementId", JStr (id g)); ("allocatedTokens", JNum (Fin (inject_Z alloc)));
                     ("by", decidedBy g1)] (setE (id g) g1 st) in
                  commit e (λ s, unrecord (setE (id g) g s)) (om_get (id g) (engagements st1)) st1
              end
          end
      end
  end.

(** ** Notices, bindings, withdrawals

    None of these three writes an audit entry for a notice or a withdrawal. *)

Definition update (e : Env) (k : string) (g g1 : Engagement) (st : State) : Out (option Engagement) :=
  commit e (λ s, setE k g s) (Some g1) (setE k g1 st).

Definition queueApprovalNotice (e : Env) (k : string) (st : State) : Out (option Engagement) :=
  match om_get k (engagements st) with
  | None => unchanged None st
  | Some g =>
      if negb (String.eqb (state g) "active") || negb (bool_decide (e_bound g = Some true))
         || is_Some_b (approvalNotice g)
      then unchanged (Some g) st
      else update e k g (g <| approvalNotice := Some NoticePending |>) st
  end.

Definition settleApprovalNotice (e : Env) (k : string) (eventId code : jval) (st : State) : Out (option Engagement) :=
  match om_get k (engagements st) with
  | None => unchanged None st
  | Some g =>
      match approvalNotice g with
      | Some NoticePending =>
          update e k g (g <| approvalNotice := Some
            (if to_bool eventId then NoticeDelivered eventId (now e 0)
             else NoticeFailed (js_or code (JStr "delivery_unavailable"))) |>) st
      | _ => unchanged (Some g) st
      end
  end.

Definition setBindingOutcome (e : Env) (k : string) (boundV ownerMxid error : jval) (st : State) : Out (option Engagement) :=
  match om_get k (engagements st) with
  | None => unchanged None st
  | Some g =>
      let b := to_bool boundV in
      let why := if b then None else brief num_str error 240 None in
      let g1 := g <| e_bound := Some (match boundV with JBool x => x | _ => false end) |>
                  <| boundAt := if b then Some (now e 0) else None |>
                  <| boundOwnerMxid := if b then ownerMxid else JNull |>
                  <| bindError := why |> in
      let '(st1, unrecord) := record (now e 1) (if b then "engagement.bound" else "engagement.bind_failed")
        [("engagementId", JStr k); ("ownerMxid", ownerMxid); ("error", str_or_null why)] (setE k g1 st) in
      commit e (λ s, unrecord (setE k g s)) (Some g1) st1
  end.

Definition noWithdrawal : Withdrawal := MkWithdrawal "" JUndef None JUndef JUndef None.

Definition beginWithdrawal (e : Env) (k : string) (scope : jval) (st : State) : Out (option Engagement) :=
  match om_get k (engagements st) with
  | None => unchanged None st
  | Some g =>
      if negb (ended g) || negb (0 <? default 0 (allocatedTokens g)) then unchanged (Some g) st else
      let w := default noWithdrawal (withdrawal g) in
      update e k g (g <| withdrawal := Some (MkWithdrawal "pending" scope (w_reason w) (w_roomWithdrawal w)
                                               (w_retirement w) (w_checkedAt w)) |>) st
  end.

(** [binding?.reason && !binding.keptBound || roomWithdrawal?.left === false || retirement?.state === 'failed'] *)
Definition withdrawalFailed (binding room retirement : jval) : bool :=
  (to_bool (prop binding "reason") && negb (to_bool (prop binding "keptBound"))) ||
  strict_eq (prop room "left") (JBool false) || strict_eq (prop retirement "state") (JStr "failed").

Definition withdrawalOutcome (e : Env) (binding room retirement : jval) (w : Withdrawal) : Withdrawal :=
  let failed := withdrawalFailed binding room retirement in
  MkWithdrawal
    (if failed then "failed" else if to_bool (prop binding "keptBound") then "retained" else "complete")
    (if to_bool retirement then JStr "agent" else nullish_or (w_scope w) (JStr "room"))
    (if failed then Some (slice_to 256 (to_str num_str
       (js_or (prop retirement "error") (js_or (prop binding "reason")
         (js_or (prop room "reason") (JStr "Room departure failed")))))) else None)
    (nullish_or room JNull) (if to_bool retirement then retirement else JUndef) (Some (now e 0)).

Definition setWithdrawalOutcome (e : Env) (k : string) (binding room retirement : jval) (st : State)
    : Out (option Engagement) :=
  match om_get k (engagements st) with
  | None => unchanged None st
  | Some g =>
      match withdrawal g with
      | Some w =>
          if negb (ended g) then unchanged (Some g) st else
          let kept := prop binding "keptBound" in
          let g1 := g <| withdrawal := Some (withdrawalOutcome e binding room retirement w) |> in
          let g2 := if negb (to_bool (prop binding "reason")) || to_bool kept
                    then g1 <| e_bound := Some (strict_eq kept (JBool true)) |> else g1 in
          update e k g g2 st
      | None => unchanged (Some g) st
      end
  end.

Definition revokedE (e : Env) (reason : jval) (g : Engagement) : Engagement :=
  g <| state := "ended" |> <| endedAt := Some (now e 0) |>
    <| endedReason := brief num_str reason 256 (Some "revoked") |>
    <| withdrawal := Some (noWithdrawal <| w_state := "pending" |>) |>.

Definition revoke (e : Env) (engagementId by_ reason : jval) (st : State) : Out (option Engagement) :=
  match text engagementId 256 with
  | Throw c => raise c st
  | Ok k =>
      match om_get k (engagements st) with
      | None => raise "not_found" st
      | Some g =>
          if negb (String.eqb (state g) "active") then raise "conflict" st else
          ending e (id g) g (revokedE e reason g) (now e 1) "engagement.revoked"
            [("engagementId", JStr (id g)); ("by", nullish_or by_ (JStr "operator"))] st
      end
  end.

(** ** Queries *)

Definition list_ (filter : option string) (st : State) : list Engagement :=
  let all := stable_sort (λ a b, createdAt b <? createdAt a) (om_vals (engagements st)) in
  match truthy_opt filter with Some s => List.filter (λ g, String.eqb (state g) s) all | None => all end.

Definition get (k : string) (st : State) : option Engagement := om_get k (engagements st).

Definition heldBy (a : string) (g : Engagement) : bool := str_eq_opt (agent g) a && holdsAllocation g.
Definition committedFor (a : string) (st : State) : Z :=
  total (List.filter (heldBy a) (om_vals (engagements st))).

Definition committedForProjectSide (serverName : jval) (legacyOnly : bool) (st : State) : Z :=
  total (List.filter (λ g, negb legacyOnly || negb (usesResourcePool g)) (commitmentsFor serverName st)).

Record Commitment : Type := MkCommitment {
  m_id : string; m_agent : option string; m_role : string; m_project : string; m_tokens : Z; m_room : string;
}.
Definition commitmentsForProjectSide (serverName : jval) (st : State) : list Commitment :=
  (λ g, MkCommitment (id g) (agent g) (role g) (project g) (default 0 (allocatedTokens g)) (projectRoomId g))
    <$> commitmentsFor serverName st.

(** [audit.slice(-Math.max(1, Math.min(limit, AUDIT_LIMIT))).reverse()] *)
Definition listAudit (limit : Z) (st : State) : list AuditEntry :=
  let n := Z.to_nat (Z.max 1 (Z.min limit (Z.of_nat AUDIT_LIMIT))) in
  reverse (drop (length (audit st) - n) (audit st)).

End model.

(** A fresh store holds what the file holds, or nothing. *)
Definition load (file : option State) : State := default empty file.

End EngagementStore.
