(* ===== verification/EngagementFacts.v ===== *)
(** * Engagements: the invariant, and what every operation may do

    The store's invariant, the life of one record as a relation, and one classification of all
    fourteen mutating operations: each leaves the store alone, or commits a change of the kind
    [change] describes with an undo that restores the state. [EngagementSafety] reads its theorems
    off that classification. *)

From Stdlib Require Import ZArith QArith Qround Lia String Ascii.
From stdpp Require Import base gmap list strings relations sorting.
From S2P Require Import Prelude OMap Json Store EngagementStore.
#[local] Open Scope stdpp_scope.

Import EngagementStore.

(** ** The life of a record *)

(** The states a verdict or a revocation may move between. *)
Definition edge (from to : string) : Prop :=
  from = to ∨ (from = "pending" ∧ (to = "active" ∨ to = "ended")) ∨ (from = "active" ∧ to = "ended").

(** What no operation changes: who asked for what. *)
Definition same_ask (g g' : Engagement) : Prop :=
  id g' = id g ∧ requestId g' = requestId g ∧ requestDigest g' = requestDigest g ∧
  requestContext g' = requestContext g ∧ project g' = project g ∧ projectRoomId g' = projectRoomId g ∧
  role g' = role g ∧ requester g' = requester g ∧ requestedTokens g' = requestedTokens g ∧
  ratePerDay g' = ratePerDay g ∧ createdAt g' = createdAt g ∧ route g' = route g.

(** What a verdict fixes for good: the agent, the allocation, who decided and when. *)
Definition same_verdict (g g' : Engagement) : Prop :=
  agent g' = agent g ∧ allocatedTokens g' = allocatedTokens g ∧ decidedAt g' = decidedAt g ∧
  decidedBy g' = decidedBy g ∧ autoJoined g' = autoJoined g.

Record evolves (g g' : Engagement) : Prop := {
  ev_ask : same_ask g g';
  ev_edge : edge (state g) (state g');
  ev_verdict : state g ≠ "pending" → same_verdict g g';
  ev_ended : state g = "ended" → endedAt g' = endedAt g ∧ endedReason g' = endedReason g;
}.

Definition tokens_ok (n : Z) : Prop := 0 < n ≤ MAX_SAFE_INTEGER.

(** A well-formed record. *)
Record good (g : Engagement) : Prop := {
  g_state : state g ∈ STATES;
  g_asked : tokens_ok (requestedTokens g);
  g_alloc : ∀ n, allocatedTokens g = Some n → tokens_ok n;
  g_active : state g = "active" → is_Some (allocatedTokens g);
  g_planned : is_Some (fulfillment g) → is_Some (allocatedTokens g);
  g_pending : state g = "pending" → decidedAt g = None ∧ endedAt g = None;
}.

Record wf (st : State) : Prop := {
  wf_keys : NoDup (om_keys (engagements st));
  wf_wkeys : NoDup (om_keys (whitelist st));
  wf_okeys : NoDup (om_keys (offers st));
  wf_id : ∀ k g, om_get k (engagements st) = Some g → id g = k;
  wf_good : ∀ k g, om_get k (engagements st) = Some g → good g;
  wf_request : ∀ k k' g g' s, om_get k (engagements st) = Some g → om_get k' (engagements st) = Some g' →
    requestId g = Some s → requestId g' = Some s → k = k';
  wf_audit : (length (audit st) ≤ AUDIT_LIMIT)%nat;
}.

(** States equal up to the order in which the maps enumerate their keys. *)
Record same (st st' : State) : Prop := {
  sm_e : engagements st ≈ₘ engagements st';
  sm_w : whitelist st ≈ₘ whitelist st';
  sm_o : offers st ≈ₘ offers st';
  sm_a : audit st = audit st';
}.

#[export] Instance same_equivalence : Equivalence same.
Proof.
  split.
  - intros st. by split.
  - intros st st' [? ? ? ?]. by split.
  - intros a b c [? ? ? ?] [? ? ? ?]. split; by etrans.
Qed.

(** The lists behind the maps have distinct keys: the part of [wf] that is about the lists. *)
Definition distinct (st : State) : Prop :=
  NoDup (om_keys (engagements st)) ∧ NoDup (om_keys (whitelist st)) ∧ NoDup (om_keys (offers st)).

Lemma wf_distinct st : wf st → distinct st.
Proof. by intros [? ? ? _ _ _ _]. Qed.

Lemma wf_same st st' : same st st' → distinct st' → wf st → wf st'.
Proof.
  intros [He Hw Ho Ha] (H1 & H2 & H3) [? ? ? Hid Hg Hr Hl]. split; try done.
  - intros k g Hk. apply Hid. by rewrite He.
  - intros k g Hk. apply (Hg k). by rewrite He.
  - intros k k' g g' s Hk Hk'. apply Hr; by rewrite He.
  - by rewrite <-Ha.
Qed.

(** ** The bounded audit log *)

Lemma removelast_snoc {A} (l : list A) x : removelast (l ++ [x]) = l.
Proof. induction l as [|y l IH]; [done|]. simpl. rewrite IH. by destruct l. Qed.

Lemma removelast_app_ne {A} (l1 l2 : list A) : l2 ≠ [] → removelast (l1 ++ l2) = l1 ++ removelast l2.
Proof. apply removelast_app. Qed.

Lemma record_spec t ty d st st1 un :
  record t ty d st = (st1, un) →
  (engagements st1 = engagements st ∧ whitelist st1 = whitelist st ∧ offers st1 = offers st) ∧
  (length (audit st1) ≤ AUDIT_LIMIT)%nat ∧
  (∀ st', engagements (un st') = engagements st' ∧ whitelist (un st') = whitelist st' ∧
          offers (un st') = offers st' ∧ (audit st' = audit st1 → audit (un st') = audit st)).
Proof.
  unfold record. intros [= <- <-]. cbn [engagements whitelist offers audit over]. split; [done|].
  set (grown := audit st ++ _). assert (HL : (1 ≤ AUDIT_LIMIT)%nat) by (unfold AUDIT_LIMIT; lia).
  assert (Hg : (1 ≤ length grown)%nat) by (unfold grown; rewrite length_app; simpl; lia).
  split; [rewrite length_drop; lia|]. intros st'. split; [done|]. split; [done|]. split; [done|].
  intros ->. rewrite <-removelast_app_ne.
  - rewrite take_drop. apply removelast_snoc.
  - intros Hn%(f_equal length). rewrite length_drop in Hn. simpl in Hn. lia.
Qed.

(** The undo of a recorded change of anything but the audit. *)
Lemma record_undo t ty d st0 st st1 un st' :
  record t ty d st = (st1, un) → audit st = audit st0 → audit st' = audit st1 →
  engagements st' ≈ₘ engagements st0 → whitelist st' ≈ₘ whitelist st0 → offers st' ≈ₘ offers st0 →
  same (un st') st0.
Proof.
  intros (_ & _ & Hun)%record_spec Ha Ha' He Hw Ho. destruct (Hun st') as (E1 & E2 & E3 & E4).
  split; rewrite ?E1, ?E2, ?E3; try done. by rewrite E4.
Qed.

(** ** Deleting and restoring the pruned records *)

Lemma om_get_deleteAll l m k : om_get k (deleteAll l m) = if inb k (id <$> l) then None else om_get k m.
Proof.
  unfold deleteAll. revert m. induction l as [|g l IH]; intros m; csimpl; [done|].
  rewrite IH, om_get_del. cbn [inb existsb]. rewrite (String.eqb_sym k).
  destruct (String.eqb (id g) k); simpl; [by destruct (inb k _)|done].
Qed.

Lemma om_get_restoreAll l m M k :
  (∀ g, g ∈ l → om_get (id g) M = Some g) →
  om_get k (restoreAll l m) = if inb k (id <$> l) then om_get k M else om_get k m.
Proof.
  unfold restoreAll. revert m. induction l as [|g l IH]; intros m Hl; csimpl; [done|].
  rewrite IH by (intros; apply Hl; by right). rewrite om_get_obj_set. cbn [inb existsb].
  rewrite (String.eqb_sym k). destruct (String.eqb_spec (id g) k) as [<-|]; simpl; [|done].
  rewrite (Hl g) by left. by destruct (inb _ _).
Qed.

Lemma nodup_deleteAll l m : NoDup (om_keys m) → NoDup (om_keys (deleteAll l m)).
Proof. unfold deleteAll. revert m. induction l; simpl; auto with omap. Qed.

Lemma nodup_restoreAll l m : NoDup (om_keys m) → NoDup (om_keys (restoreAll l m)).
Proof. unfold restoreAll. revert m. induction l; simpl; auto with omap. Qed.

(** ** Changes of one record *)

Definition born (g : Engagement) : Prop := state g = "pending" ∨ state g = "active".

Definition allowed_change (st : State) (g1 : Engagement) : Prop :=
  match om_get (id g1) (engagements st) with Some g => evolves g g1 | None => born g1 end.

(** [m] is the engagements of [st] with [g1] written, less records that have ended. *)
Definition touched (st : State) (g1 : Engagement) (m : omap Engagement) : Prop :=
  ∃ removed, m = deleteAll removed (obj_set (id g1) g1 (engagements st)) ∧
    (∀ g, g ∈ removed → om_get (id g) (obj_set (id g1) g1 (engagements st)) = Some g ∧ state g = "ended").

Lemma touched_set st g1 : touched st g1 (obj_set (id g1) g1 (engagements st)).
Proof. exists []. split; [done|]. intros g Hg. by apply elem_of_nil in Hg. Qed.

Lemma touched_get st g1 m k g :
  touched st g1 m → om_get k m = Some g → om_get k (obj_set (id g1) g1 (engagements st)) = Some g.
Proof. intros (l & -> & _). rewrite om_get_deleteAll. by case_match. Qed.

Lemma wf_touched st g1 st1 :
  wf st → good g1 → allowed_change st g1 →
  (om_get (id g1) (engagements st) = None → ∀ k g s, om_get k (engagements st) = Some g →
     requestId g = Some s → requestId g1 ≠ Some s) →
  touched st g1 (engagements st1) → whitelist st1 = whitelist st → offers st1 = offers st →
  (length (audit st1) ≤ AUDIT_LIMIT)%nat → wf st1.
Proof.
  intros Hwf Hg Hch Hreq Ht Hw Ho Ha. destruct Hwf as [Hk Hwk Hok Hid Hgood Hr _].
  assert (Hget : ∀ k g, om_get k (engagements st1) = Some g →
            (k = id g1 ∧ g = g1) ∨ (k ≠ id g1 ∧ om_get k (engagements st) = Some g)).
  { intros k g H. apply (touched_get _ _ _ _ _ Ht) in H. rewrite om_get_obj_set in H.
    destruct (String.eqb_spec (id g1) k) as [<-|]; [left; by injection H as ->|by right]. }
  assert (Hone : ∀ k g s, k ≠ id g1 → om_get k (engagements st) = Some g → requestId g = Some s →
            requestId g1 = Some s → False).
  { intros k g s Hne Hkg Hs Hs1. unfold allowed_change in Hch.
    destruct (om_get (id g1) (engagements st)) as [g0|] eqn:E0; [|by eapply Hreq].
    destruct Hch as [(_ & Hr0 & _) _ _ _]. apply Hne. eapply Hr; [done|done|done|congruence]. }
  split; rewrite ?Hw, ?Ho; try done.
  - destruct Ht as (l & -> & _). by apply nodup_deleteAll, om_nodup_obj_set.
  - intros k g [[-> ->]|[_ H]]%Hget; [done|by apply Hid].
  - intros k g [[-> ->]|[_ H]]%Hget; [done|by eapply Hgood].
  - intros k k' g g' s [[-> ->]|[Hn H]]%Hget [[-> ->]|[Hn' H']]%Hget Hs Hs'; [done|..].
    + exfalso. by eapply (Hone k').
    + exfalso. by eapply (Hone k).
    + by eapply Hr.
Qed.

(** ** What an operation may do *)

Inductive effect {A} (T : Engagement → Prop) (st : State) : Out A → Prop :=
| eff_unchanged a : effect T st (unchanged a st)
| eff_raise c : effect T st (raise c st)
| eff_commit e undo a st1 :
    wf st1 →
    (engagements st1 = engagements st ∨
     ∃ g1, T g1 ∧ allowed_change st g1 ∧ touched st g1 (engagements st1)) →
    same (undo st1) st → distinct (undo st1) →
    effect T st (commit e undo a st1).

Lemma effect_wf {A} (T : Engagement → Prop) st (o : Out A) : wf st → effect T st o → wf (so_mem o).
Proof.
  intros Hwf [a|c|e undo a st1 H1 _ Hs Hd]; [done|done|]. unfold commit.
  destruct (saves e); simpl; [done|..]; (eapply wf_same; [by symmetry|done|done]).
Qed.

Lemma effect_throw {A} (T : Engagement → Prop) st (o : Out A) :
  effect T st o → is_ok (so_res o) = false → so_disk o = None ∧ same (so_mem o) st.
Proof.
  intros [a|c|e undo a st1 _ _ Hs _]; [done|done|]. unfold commit. by destruct (saves e).
Qed.

(** Success: nothing happened, or the committed state is in memory and in the file. *)
Lemma effect_ok {A} (T : Engagement → Prop) st (o : Out A) :
  effect T st o → is_ok (so_res o) = true →
  (so_mem o = st ∧ so_disk o = None) ∨ so_disk o = Some (so_mem o).
Proof.
  intros [a|c|e undo a st1 _ _ _ _]; [by left|done|]. unfold commit. destruct (saves e); [by right|done|done].
Qed.

Lemma effect_memory {A} (T : Engagement → Prop) st (o : Out A) :
  effect T st o →
  same (so_mem o) st ∨ engagements (so_mem o) = engagements st ∨
  ∃ g1, T g1 ∧ allowed_change st g1 ∧ touched st g1 (engagements (so_mem o)).
Proof.
  intros [a|c|e undo a st1 _ Hc Hs _]; [by left|by left|]. unfold commit.
  destruct (saves e); simpl; [by right|by left..].
Qed.

Lemma effect_weaken {A} (T T' : Engagement → Prop) st (o : Out A) :
  (∀ g, T g → T' g) → effect T st o → effect T' st o.
Proof. intros H [a|c|e undo a st1 H1 H2 H3 H4]; econstructor; naive_solver. Qed.

Section commits.
Context (T : Engagement → Prop) (st : State) (Hwf : wf st).

Lemma setE_restore k g g1 st1 :
  om_get k (engagements st) = Some g → engagements st1 = obj_set k g1 (engagements st) →
  engagements (setE k g st1) = engagements st.
Proof. intros Hk E. unfold setE. cbn [engagements over]. rewrite E. by apply obj_set_restore. Qed.

(** A record replaced by an evolution of it, with an audit entry. *)
Lemma commit_recorded {A} e t ty d k g g1 (a : A) st1 un :
  om_get k (engagements st) = Some g → evolves g g1 → good g1 → T g1 →
  record t ty d (setE k g1 st) = (st1, un) →
  effect T st (commit e (λ s, un (setE k g s)) a st1).
Proof using Hwf.
  intros Hk Hev Hg HT Hrec. pose proof (record_spec _ _ _ _ _ _ Hrec) as ((E1 & E2 & E3) & Hl & Hun).
  assert (Hid : id g1 = k).
  { destruct Hev as [(-> & _) _ _ _]. by apply (wf_id _ Hwf). }
  assert (Hch : allowed_change st g1) by (unfold allowed_change; by rewrite Hid, Hk).
  assert (Ht : touched st g1 (engagements st1)).
  { rewrite E1. unfold setE. cbn [engagements over]. rewrite <-Hid. apply touched_set. }
  assert (Hr : engagements (setE k g st1) = engagements st) by (eapply setE_restore; [done|by rewrite E1]).
  apply (eff_commit T st e (λ s, un (setE k g s))).
  - eapply wf_touched; try done. rewrite Hid, Hk. done.
  - right. by exists g1.
  - eapply record_undo; [exact Hrec|done|done|by rewrite Hr|..]; unfold setE; cbn [whitelist offers over];
      by rewrite ?E2, ?E3.
  - destruct (Hun (setE k g st1)) as (D1 & D2 & D3 & _). unfold distinct. rewrite D1, D2, D3, Hr.
    unfold setE at 1 2. cbn [whitelist offers over]. rewrite E2, E3. exact (wf_distinct st Hwf).
Qed.

(** The same without an audit entry. *)
Lemma commit_update e k g g1 :
  om_get k (engagements st) = Some g → evolves g g1 → good g1 → T g1 →
  effect T st (update e k g g1 st).
Proof using Hwf.
  intros Hk Hev Hg HT. unfold update.
  assert (Hid : id g1 = k).
  { destruct Hev as [(-> & _) _ _ _]. by apply (wf_id _ Hwf). }
  assert (Hch : allowed_change st g1) by (unfold allowed_change; by rewrite Hid, Hk).
  assert (Ht : touched st g1 (engagements (setE k g1 st))).
  { unfold setE. cbn [engagements over]. rewrite <-Hid. apply touched_set. }
  assert (Hr : setE k g (setE k g1 st) = st).
  { pose proof (obj_set_restore k g g1 _ Hk) as Ho. unfold setE. destruct st. simpl in *. by rewrite Ho. }
  apply (eff_commit T st e (λ s, setE k g s)).
  - eapply wf_touched; try done; [rewrite Hid, Hk; done|]. apply Hwf.
  - right. by exists g1.
  - by rewrite Hr.
  - rewrite Hr. exact (wf_distinct st Hwf).
Qed.

(** A new record. *)
Lemma commit_born {A} e t ty d g1 (a : A) st1 un :
  om_get (id g1) (engagements st) = None → born g1 → good g1 → T g1 →
  (∀ k g s, om_get k (engagements st) = Some g → requestId g = Some s → requestId g1 ≠ Some s) →
  record t ty d (setE (id g1) g1 st) = (st1, un) →
  effect T st (commit e (λ s, un (s <| engagements := om_del (id g1) (engagements s) |>)) a st1).
Proof using Hwf.
  intros Hk Hb Hg HT Hreq Hrec. pose proof (record_spec _ _ _ _ _ _ Hrec) as ((E1 & E2 & E3) & Hl & Hun).
  assert (Hch : allowed_change st g1) by (unfold allowed_change; by rewrite Hk).
  assert (Ht : touched st g1 (engagements st1)) by (rewrite E1; apply touched_set).
  assert (Hr : om_del (id g1) (engagements st1) = engagements st).
  { rewrite E1. unfold setE. cbn [engagements over]. by apply obj_set_del. }
  apply (eff_commit T st e (λ s, un (s <| engagements := om_del (id g1) (engagements s) |>))).
  - by eapply (wf_touched st g1).
  - right. by exists g1.
  - eapply record_undo; [exact Hrec|done|done|cbn [engagements over]; by rewrite Hr|..];
      cbn [whitelist offers over]; by rewrite ?E2, ?E3.
  - destruct (Hun (st1 <| engagements := om_del (id g1) (engagements st1) |>)) as (D1 & D2 & D3 & _).
    unfold distinct. rewrite D1, D2, D3. cbn [engagements whitelist offers over]. rewrite Hr, E2, E3.
    exact (wf_distinct st Hwf).
Qed.

(** Changes of the whitelist or the offers only. *)
Lemma commit_trust {A} e t ty d room previous w (a : A) st1 un :
  om_get room (whitelist st) = previous → NoDup (om_keys w) →
  (∀ k, k ≠ room → om_get k w = om_get k (whitelist st)) →
  record t ty d (st <| whitelist := w |>) = (st1, un) →
  effect T st (commit e (λ s, un (restoreW room previous s)) a st1).
Proof using Hwf.
  intros Hp Hnd Hw Hrec. pose proof (record_spec _ _ _ _ _ _ Hrec) as ((E1 & E2 & E3) & Hl & Hun).
  simpl in E1, E2, E3.
  assert (Hr : whitelist (restoreW room previous st1) ≈ₘ whitelist st).
  { intros k. unfold restoreW. cbn [whitelist over]. rewrite E2.
    destruct previous as [p|]; rewrite ?om_get_obj_set, ?om_get_del;
      (destruct (String.eqb_spec room k) as [<-|Hne]; [done|by apply Hw]). }
  apply (eff_commit T st e (λ s, un (restoreW room previous s))).
  - destruct Hwf as [? ? ? ? ? ? ?]. by split; rewrite ?E1, ?E2, ?E3.
  - by left.
  - eapply record_undo; [exact Hrec|done|done|..]; [by rewrite <-E1|done|by rewrite <-E3].
  - destruct (Hun (restoreW room previous st1)) as (D1 & D2 & D3 & _). unfold distinct.
    rewrite D1, D2, D3. unfold restoreW at 1 3. cbn [engagements offers over]. rewrite E1, E3.
    split; [by apply Hwf|]. split; [|by apply Hwf].
    unfold restoreW. cbn [whitelist over]. rewrite E2. destruct previous; auto with omap.
Qed.

Lemma commit_offer {A} e t ty d key previous o (a : A) st1 un :
  om_get key (offers st) = previous →
  record t ty d (st <| offers := obj_set key o (offers st) |>) = (st1, un) →
  effect T st (commit e (λ s, un (s <| offers := match previous with
                                              | None => om_del key (offers s)
                                              | Some p => obj_set key p (offers s)
                                              end |>)) a st1).
Proof using Hwf.
  intros Hp Hrec. pose proof (record_spec _ _ _ _ _ _ Hrec) as ((E1 & E2 & E3) & Hl & Hun).
  simpl in E1, E2, E3.
  assert (Hr : match previous with None => om_del key (offers st1) | Some p => obj_set key p (offers st1) end = offers st).
  { rewrite E3. destruct previous; [by apply obj_set_restore|by apply obj_set_del]. }
  eapply (eff_commit T st e (λ s, un (s <| offers := match previous with
            | None => om_del key (offers s) | Some p => obj_set key p (offers s) end |>))).
  - destruct Hwf as [? ? ? ? ? ? ?]. split; rewrite ?E1, ?E2, ?E3; auto with omap.
  - by left.
  - eapply record_undo; [exact Hrec|done|done|..]; [by rewrite <-E1|by rewrite <-E2|].
    cbn [offers over]. by rewrite Hr.
  - match goal with |- distinct (un ?s) => destruct (Hun s) as (D1 & D2 & D3 & _) end. unfold distinct.
    rewrite D1, D2, D3. cbn [engagements whitelist offers over]. rewrite Hr, E1, E2. exact (wf_distinct st Hwf).
Qed.

End commits.

(** ** Pruning *)

Lemma ids_are_keys (m : omap Engagement) :
  NoDup (om_keys m) → (∀ k g, om_get k m = Some g → id g = k) → id <$> om_vals m = om_keys m.
Proof.
  unfold om_vals, om_keys. intros Hnd Hid. rewrite <-list_fmap_compose.
  apply list_fmap_ext. intros i [k g] Hi. simpl. apply (Hid k g).
  apply elem_of_om_get; [done|]. by eapply list_elem_of_lookup_2.
Qed.

Section prune.
Context (localeCompare : string → string → Z) (m : omap Engagement).
Context (Hnd : NoDup (om_keys m)) (Hid : ∀ k g, om_get k m = Some g → id g = k).

Notation surplus st := (surplus localeCompare st).

Lemma vals_get g : g ∈ om_vals m → om_get (id g) m = Some g.
Proof using Hnd Hid.
  intros (k & Hin)%om_vals_get. apply elem_of_om_get in Hin; [|done]. by rewrite (Hid _ _ Hin).
Qed.

Lemma ended_sorted st :
  StronglySorted (λ a b, endedTime a ≤ endedTime b)
    (stable_sort (endsBefore localeCompare) (List.filter ended (om_vals (engagements st)))).
Proof using.
  apply (stable_sort_sorted _ endedTime); intros x y H; unfold endsBefore.
  - destruct (Z.eqb_spec (endedTime x) (endedTime y)); [lia|]. by apply Z.ltb_lt.
  - destruct (Z.eqb_spec (endedTime x) (endedTime y)); [lia|]. apply Z.ltb_ge. lia.
Qed.

Lemma surplus_spec st g :
  engagements st = m → g ∈ surplus st → om_get (id g) m = Some g ∧ state g = "ended".
Proof using Hnd Hid.
  intros Hm Hg. unfold EngagementStore.surplus in Hg. apply elem_of_take in Hg as (i & Hi & _).
  apply list_elem_of_lookup_2 in Hi. rewrite stable_sort_perm in Hi.
  apply elem_of_filter_bool in Hi as [He Hv]. rewrite Hm in Hv. split; [by apply vals_get|].
  by apply String.eqb_eq.
Qed.

(** A record that ended after every other is not pruned. *)
Lemma surplus_keeps_latest st g1 :
  engagements st = m →
  (∀ k g, om_get k m = Some g → state g = "ended" → g ≠ g1 → endedTime g < endedTime g1) →
  g1 ∉ surplus st.
Proof using Hnd Hid.
  intros Hm Hlast Hin. unfold EngagementStore.surplus in Hin. pose proof (ended_sorted st) as Hs.
  pose proof (stable_sort_perm (endsBefore localeCompare) (List.filter ended (om_vals (engagements st)))) as Hp.
  set (l := stable_sort _ _) in *. set (all := List.filter _ _) in *.
  assert (Hndl : NoDup l).
  { rewrite Hp. apply NoDup_filter_bool. rewrite Hm. eapply NoDup_fmap_1. by rewrite ids_are_keys. }
  assert (Hlen : length l = length all) by by rewrite Hp.
  assert (Hlt : (length all - ENDED_LIMIT < length l)%nat).
  { rewrite Hlen. destruct (take (length all - ENDED_LIMIT) l) eqn:E; [by apply elem_of_nil in Hin|].
    apply (f_equal length) in E. rewrite length_take in E. simpl in E. unfold ENDED_LIMIT in *. lia. }
  destruct (lookup_lt_is_Some_2 _ _ Hlt) as [y Hy].
  assert (Hyd : y ∈ drop (length all - ENDED_LIMIT) l).
  { apply list_elem_of_lookup. exists 0%nat. rewrite lookup_drop. by rewrite Nat.add_0_r. }
  pose proof (sorted_split endedTime _ _ _ _ Hs Hin Hyd) as Hle.
  assert (y ≠ g1).
  { intros ->. rewrite <-(take_drop (length all - ENDED_LIMIT) l) in Hndl.
    apply NoDup_app in Hndl as (_ & Hdis & _). by eapply Hdis. }
  assert (Hyv : y ∈ all) by (rewrite <-Hp; by eapply list_elem_of_lookup_2).
  apply elem_of_filter_bool in Hyv as [He Hv]. rewrite Hm in Hv. apply vals_get in Hv.
  apply String.eqb_eq in He. pose proof (Hlast _ _ Hv He). naive_solver lia.
Qed.

End prune.

(** A record that ends: change, audit and pruning under one undo. *)
Lemma commit_ending lc (T : Engagement → Prop) st e k g g1 t ty d :
  wf st → om_get k (engagements st) = Some g → evolves g g1 → good g1 → T g1 →
  (∀ k' g', om_get k' (engagements st) = Some g' → state g' = "ended" → endedTime g' < endedTime g1) →
  effect T st (ending lc e k g g1 t ty d st).
Proof.
  intros Hwf Hk Hev Hg HT Hlast. unfold ending.
  destruct (record t ty d (setE k g1 st)) as [st1 un] eqn:Hrec.
  pose proof (record_spec _ _ _ _ _ _ Hrec) as ((E1 & E2 & E3) & Hl & Hun).
  assert (Hid : id g1 = k) by (destruct Hev as [(-> & _) _ _ _]; by apply (wf_id _ Hwf)).
  set (m := obj_set k g1 (engagements st)) in *. change (engagements (setE k g1 st)) with m in E1.
  assert (Hnd : NoDup (om_keys m)) by (apply om_nodup_obj_set, Hwf).
  assert (Hids : ∀ k' g', om_get k' m = Some g' → id g' = k').
  { intros k' g'. unfold m. rewrite om_get_obj_set. destruct (String.eqb_spec k k') as [->|].
    - by intros [= <-].
    - apply Hwf. }
  set (l := surplus lc st1).
  assert (Hsur : ∀ x, x ∈ l → om_get (id x) m = Some x ∧ state x = "ended").
  { intros x. by apply surplus_spec. }
  assert (Hout : ∀ x, x ∈ l → id x ≠ k).
  { intros x Hx Hxk. destruct (Hsur x Hx) as [Hgx _]. rewrite Hxk in Hgx. unfold m in Hgx.
    rewrite om_get_obj_set_eq in Hgx. injection Hgx as <-. revert Hx.
    apply (surplus_keeps_latest lc m Hnd Hids _ _ E1). intros k' g' Hg'. unfold m in Hg'.
    rewrite om_get_obj_set in Hg'. destruct (String.eqb_spec k k') as [<-|].
    - injection Hg' as <-. done.
    - intros. by eapply Hlast. }
  unfold pruneEnded. fold l.
  set (un' := λ s : State, s <| engagements := restoreAll l (engagements s) |>).
  assert (Hch : allowed_change st g1) by (unfold allowed_change; by rewrite Hid, Hk).
  assert (Ht : touched st g1 (deleteAll l (engagements st1))).
  { exists l. rewrite E1, Hid. split; [done|]. exact Hsur. }
  assert (Hback : restoreAll l (obj_set k g (deleteAll l m)) ≈ₘ engagements st).
  { intros k'. rewrite (om_get_restoreAll l _ m) by (intros x Hx; by apply Hsur).
    destruct (inb k' (id <$> l)) eqn:Hin.
    - apply inb_spec, list_elem_of_fmap in Hin as (x & -> & Hx). unfold m.
      rewrite om_get_obj_set_ne; [done|]. intros Hn. by eapply Hout.
    - rewrite om_get_obj_set, om_get_deleteAll, Hin. unfold m. rewrite om_get_obj_set.
      by destruct (String.eqb_spec k k') as [<-|]. }
  apply (eff_commit T st e (λ s, un (un' (setE k g s)))).
  - eapply (wf_touched st g1); [done|done|done| |exact Ht|exact E2|exact E3|exact Hl]. by rewrite Hid, Hk.
  - right. exists g1. split; [done|]. split; [done|exact Ht].
  - eapply record_undo; [exact Hrec|done|done|..].
    + cbn [un' setE engagements over]. rewrite E1. exact Hback.
    + cbn [un' setE whitelist over]. by rewrite E2.
    + cbn [un' setE offers over]. by rewrite E3.
  - match goal with |- distinct (un ?s) => destruct (Hun s) as (D1 & D2 & D3 & _) end.
    unfold distinct. rewrite D1, D2, D3. cbn [un' setE engagements whitelist offers over]. rewrite E1, E2, E3.
    split; [by apply nodup_restoreAll, om_nodup_obj_set, nodup_deleteAll|]. apply (wf_distinct st Hwf).
Qed.

(** ** The operations as one type *)

Inductive Op : Type :=
| OSelect (k : string) (agent choice by_ : jval)
| OPlan (k : string) (plan : list (string * jval))
| OPhase (k newPhase : string) (error : jval)
| OTrust (room displayName addedBy : jval)
| OUntrust (room by_ : jval)
| OOffer (role count cap rate published by_ : jval)
| OCreate (i : RequestInput)
| ODecide (v : Verdict)
| OQueue (k : string)
| OSettle (k : string) (eventId code : jval)
| OBound (k : string) (bound ownerMxid error : jval)
| OBeginWithdrawal (k : string) (scope : jval)
| OWithdrawal (k : string) (binding room retirement : jval)
| ORevoke (engagementId by_ reason : jval).

Definition forget {A} (o : Out A) : Out unit :=
  StepOut (match so_res o with Ok _ => Ok tt | Throw c => Throw c end) (so_mem o) (so_disk o).

Lemma effect_forget {A} (T : Engagement → Prop) st (o : Out A) : effect T st o → effect T st (forget o).
Proof.
  intros [a|c|e undo a st1 H1 H2 H3 H4]; [by constructor|by constructor|].
  replace (forget (commit e undo a st1)) with (commit e undo tt st1); [by apply eff_commit|].
  unfold commit, forget. by destruct (saves e).
Qed.

(** Tokens a record holds of one agent's ceiling. *)
Definition weight (a : string) (g : Engagement) : Z := if heldBy a g then default 0 (allocatedTokens g) else 0.
Definition weightAt (a k : string) (st : State) : Z :=
  match om_get k (engagements st) with Some g => weight a g | None => 0 end.

(** A figure of remaining tokens a caller may pass: absent, or a number not above [z]. *)
Definition bounded (r : option num) (z : Z) : Prop :=
  match r with None => True | Some (Fin q) => (q <= inject_Z z)%Q | Some _ => False end.

(** A write raises what an agent has committed only within its ceiling. *)
Definition fits (ceiling : string → Z) (st : State) (g1 : Engagement) : Prop :=
  ∀ a, weight a g1 ≤ weightAt a (id g1) st ∨
       weight a g1 + (committedFor a st - weightAt a (id g1) st) ≤ ceiling a.

Section ops.
Context (num_str : num → string) (str_num : string → num) (sha256 : string → string)
        (localeCompare : string → string → Z).

Definition exec (op : Env * Op) (st : State) : Out unit :=
  let e := op.1 in
  match op.2 with
  | OSelect k a c b => forget (selectAgent e k a c b st)
  | OPlan k plan => forget (planFulfillment num_str str_num e k plan st)
  | OPhase k p err => forget (setFulfillmentPhase num_str e k p err st)
  | OTrust r n b => forget (addToWhitelist e r n b st)
  | OUntrust r b => forget (removeFromWhitelist e r b st)
  | OOffer r n c q p b => forget (setOffer num_str str_num e r n c q p b st)
  | OCreate i => forget (createRequest num_str str_num sha256 e i st)
  | ODecide v => forget (decide num_str str_num localeCompare e v st)
  | OQueue k => forget (queueApprovalNotice e k st)
  | OSettle k ev c => forget (settleApprovalNotice e k ev c st)
  | OBound k b o err => forget (setBindingOutcome num_str e k b o err st)
  | OBeginWithdrawal k s => forget (beginWithdrawal e k s st)
  | OWithdrawal k b r t => forget (setWithdrawalOutcome num_str e k b r t st)
  | ORevoke k b r => forget (revoke num_str localeCompare e k b r st)
  end.

(** The clock is past every recorded ending. *)
Definition clock_ahead (e : Env) (st : State) : Prop :=
  ∀ k g, om_get k (engagements st) = Some g → state g = "ended" → endedTime g < now e 0.

(** What the operations take for granted: a fresh id for a new record, a clock past every recorded
    ending for an ending, and an amount that [posInt] accepts for a plan whose agent is named. *)
Definition pre (op : Env * Op) (st : State) : Prop :=
  match op.2 with
  | OCreate _ => om_get (newId op.1) (engagements st) = None
  | OPlan _ plan => is_ok (text (prop_in "agent" plan) 256) = true →
      is_ok (posInt num_str str_num (prop_in "allocatedTokens" plan)) = true
  | ODecide _ | ORevoke _ _ _ => clock_ahead op.1 st
  | _ => True
  end.

(** The caller's side of a ceiling: the remaining figure it passes is not above what the ceiling
    leaves, the record in question aside; a plan or a resumed phase fits as well. *)
Definition within (ceiling : string → Z) (op : Op) (st : State) : Prop :=
  match op with
  | OCreate i => ∀ a, text (i_agent i) 256 = Ok a → bounded (i_remaining i) (ceiling a - committedFor a st)
  | ODecide v => ∀ k g a, text (v_engagementId v) 256 = Ok k → om_get k (engagements st) = Some g →
      agent g = Some a → bounded (v_remaining v) (ceiling a - (committedFor a st - weight a g))
  | OPlan _ plan => ∀ a n, text (prop_in "agent" plan) 256 = Ok a →
      posInt num_str str_num (prop_in "allocatedTokens" plan) = Ok n → n ≤ ceiling a - committedFor a st
  | OPhase k p _ => ∀ g a, om_get k (engagements st) = Some g → agent g = Some a →
      holdsAllocation g = true ∨ p ∈ ["failed"; "complete"] ∨
      default 0 (allocatedTokens g) ≤ ceiling a - committedFor a st
  | _ => True
  end.

Definition writes (op : Op) (st : State) (g1 : Engagement) : Prop :=
  ∀ ceiling, within ceiling op st → fits ceiling st g1.

(** *** Facts about amounts *)

Lemma posInt_ok v n : posInt num_str str_num v = Ok n → tokens_ok n.
Proof using Type.
  unfold posInt. destruct (to_number _ _ v); try done. intros H.
  destruct (_ || _) eqn:E in H; [done|]. injection H as <-. apply orb_false_iff in E as [H1 H2]. split; lia.
Qed.

Lemma bounded_le r z n : bounded (Some r) z → num_ltb r (Fin (inject_Z n)) = false → n ≤ z.
Proof.
  destruct r as [| |q]; simpl; [done..|]. intros Hq H%negb_false_iff%Qle_bool_iff.
  rewrite Zle_Qle. by eapply Qle_trans.
Qed.

(** A write that leaves the hold, the agent and the amount alone fits. *)
Lemma fits_kept op st k g g1 :
  om_get k (engagements st) = Some g → id g1 = k → (∀ a, weight a g1 ≤ weight a g) → writes op st g1.
Proof. intros Hk Hid Hw c _ a. left. unfold weightAt. rewrite Hid, Hk. apply Hw. Qed.

Lemma weight_not_held a g : holdsAllocation g = false → weight a g = 0.
Proof. unfold weight, heldBy. intros ->. by rewrite andb_false_r. Qed.

Lemma weight_nonneg a g : good g → 0 ≤ weight a g.
Proof.
  intros Hg. unfold weight. case_match; [|done]. destruct (allocatedTokens g) eqn:E; [|done]. simpl.
  destruct (g_alloc _ Hg _ E). lia.
Qed.

Lemma weight_same a g g1 :
  agent g1 = agent g → allocatedTokens g1 = allocatedTokens g → holdsAllocation g1 = holdsAllocation g →
  weight a g1 ≤ weight a g.
Proof. unfold weight, heldBy. intros -> -> ->. done. Qed.

Lemma weight_some a s g :
  agent g = Some s →
  weight a g = if String.eqb s a then (if holdsAllocation g then default 0 (allocatedTokens g) else 0) else 0.
Proof.
  unfold weight, heldBy, str_eq_opt. intros ->. destruct (String.eqb_spec s a) as [->|Hne].
  - by rewrite bool_decide_true.
  - rewrite bool_decide_false; [done|]. congruence.
Qed.

Lemma weight_none a g : agent g = None → weight a g = 0.
Proof. unfold weight, heldBy, str_eq_opt. by intros ->. Qed.

Lemma approvedE_facts e v alloc g :
  agent (approvedE e v alloc g) = agent g ∧ allocatedTokens (approvedE e v alloc g) = Some alloc ∧
  id (approvedE e v alloc g) = id g ∧ state (approvedE e v alloc g) = "active".
Proof. unfold approvedE. by destruct (_ && _). Qed.

(** A write for one agent: fitting that agent's ceiling is enough. *)
Lemma fits_agent ceiling st g1 s n :
  agent g1 = Some s → allocatedTokens g1 = Some n → 0 ≤ n →
  (∀ a, 0 ≤ weightAt a (id g1) st) →
  n + (committedFor s st - weightAt s (id g1) st) ≤ ceiling s → fits ceiling st g1.
Proof using Type.
  intros Ha Hn Hpos Hw Hle a. rewrite (weight_some a s) by done. rewrite Hn. simpl.
  destruct (String.eqb_spec s a) as [->|]; [|left; apply Hw]. destruct (holdsAllocation g1); [by right|left; apply Hw].
Qed.

Lemma weightAt_nonneg a k st : wf st → 0 ≤ weightAt a k st.
Proof using Type.
  intros Hwf. unfold weightAt. destruct (om_get k _) eqn:E; [|done]. by apply weight_nonneg, (wf_good _ Hwf k).
Qed.

(** *** Each operation *)

Ltac evolve := split; [by repeat split|unfold edge; simpl; try tauto|simpl; try (intros; by repeat split)|simpl; try (intros; by repeat split); try (intros; congruence)].

Lemma selectAgent_effect e k a c b st :
  wf st → effect (writes (OSelect k a c b) st) st (selectAgent e k a c b st).
Proof.
  intros Hwf. unfold selectAgent. destruct (om_get k (engagements st)) as [g|] eqn:Hk; [|constructor].
  destruct (String.eqb_spec (state g) "pending") as [Hp|]; [|constructor]. cbn [negb orb].
  destruct (fulfillment g) eqn:Hf; [constructor|]. cbn [is_Some_b].
  destruct (text a 256) as [s|]; [|constructor].
  match goal with |- context [let '(_, _) := ?x in _] => destruct x as [st1 un] eqn:Hrec end.
  pose proof (wf_good _ Hwf _ _ Hk) as Hg.
  eapply commit_recorded; [done|done| | | |exact Hrec].
  - evolve; intros; congruence.
  - destruct Hg. by split.
  - eapply fits_kept; [done|exact (wf_id _ Hwf _ _ Hk)|]. intros a'. rewrite weight_not_held; [by apply weight_nonneg|].
    unfold holdsAllocation. simpl. by rewrite Hp, Hf.
Qed.

Lemma planFulfillment_effect e k plan st :
  wf st → pre (e, OPlan k plan) st →
  effect (writes (OPlan k plan) st) st (planFulfillment num_str str_num e k plan st).
Proof.
  intros Hwf Hpre. unfold planFulfillment. destruct (om_get k (engagements st)) as [g|] eqn:Hk; [|constructor].
  destruct (String.eqb_spec (state g) "pending") as [Hp|]; [|constructor]. cbn [negb].
  destruct (match fulfillment g with Some f => _ | None => false end) eqn:Hf; [constructor|].
  unfold pre in Hpre. cbn [snd] in Hpre. destruct (text _ 256) as [s|] eqn:Hs; [|constructor].
  destruct (posInt _ _ _) as [n|] eqn:Hn; [|by specialize (Hpre eq_refl)].
  match goal with |- context [let '(_, _) := ?x in _] => destruct x as [st1 un] eqn:Hrec end.
  pose proof (wf_good _ Hwf _ _ Hk) as Hg. pose proof (posInt_ok _ _ Hn) as Hok.
  eapply commit_recorded; [done|done| | | |exact Hrec].
  - evolve; intros; congruence.
  - destruct Hg. split; simpl; try done. by intros ? [= <-].
  - intros ceil Hw. eapply fits_agent; [done|done|destruct Hok; lia|intros; by apply weightAt_nonneg|].
    unfold weightAt. cbn [id over]. rewrite (wf_id _ Hwf _ _ Hk), Hk, weight_not_held.
    + specialize (Hw _ _ Hs Hn). lia.
    + unfold holdsAllocation. rewrite Hp. simpl. destruct (fulfillment g); [|done].
      apply negb_false_iff, String.eqb_eq in Hf. by rewrite Hf.
Qed.

Lemma setFulfillmentPhase_effect e k p err st :
  wf st → effect (writes (OPhase k p err) st) st (setFulfillmentPhase num_str e k p err st).
Proof.
  intros Hwf. unfold setFulfillmentPhase. destruct (om_get k (engagements st)) as [g|] eqn:Hk; [|constructor].
  destruct (fulfillment g) as [f|] eqn:Hf; [|constructor].
  destruct (inb p PHASES); [|constructor]. cbn [negb].
  match goal with |- context [let '(_, _) := ?x in _] => destruct x as [st1 un] eqn:Hrec end.
  pose proof (wf_good _ Hwf _ _ Hk) as Hg.
  eapply commit_recorded; [done|done| | | |exact Hrec].
  - evolve.
  - destruct Hg. split; simpl; try done. intros _. rewrite Hf in *. eauto.
  - destruct (g_planned _ Hg) as [n Hn]; [by rewrite Hf|]. intros ceil Hw.
    destruct (agent g) as [s|] eqn:Ha.
    2: { intros a. left. rewrite weight_none by done. by apply weightAt_nonneg. }
    destruct (holdsAllocation g) eqn:Hh; [|destruct (Hw _ _ Hk Ha) as [?|[Hin|Hle]]; [congruence|..]].
    + intros a. left. unfold weightAt. cbn [id over]. rewrite (wf_id _ Hwf _ _ Hk), Hk.
      rewrite !(weight_some a s) by done. rewrite Hh. destruct (s =? a)%string; [|done].
      cbn [allocatedTokens over]. rewrite Hn. simpl. pose proof (g_alloc _ Hg _ Hn) as []. case_match; lia.
    + intros a. left. rewrite weight_not_held; [by apply weightAt_nonneg|].
      unfold holdsAllocation in Hh |- *. apply orb_false_iff in Hh as [Hh _]. cbn [state fulfillment phase over].
      rewrite Hh. apply andb_false_intro2, negb_false_iff. by apply inb_spec.
    + eapply fits_agent; [exact Ha|exact Hn|destruct (g_alloc _ Hg _ Hn); lia|intros; by apply weightAt_nonneg|].
      rewrite Hn in Hle. simpl in Hle. pose proof (weightAt_nonneg s k st Hwf). cbn [id over].
      rewrite (wf_id _ Hwf _ _ Hk). lia.
Qed.

Lemma addToWhitelist_effect T e r n b st : wf st → effect T st (addToWhitelist e r n b st).
Proof.
  intros Hwf. unfold addToWhitelist. destruct (bind _ _) as [[room who]|]; [|constructor].
  match goal with |- context [let '(_, _) := ?x in _] => destruct x as [st1 un] eqn:Hrec end.
  eapply commit_trust; [done|done| | |exact Hrec]; [apply om_nodup_obj_set, Hwf|].
  intros k Hne. by apply om_get_obj_set_ne.
Qed.

Lemma removeFromWhitelist_effect T e r b st : wf st → effect T st (removeFromWhitelist e r b st).
Proof.
  intros Hwf. unfold removeFromWhitelist. destruct (text _ _) as [room|]; [|constructor].
  destruct (om_get room (whitelist st)) as [prev|] eqn:Hp; [|constructor].
  match goal with |- context [let '(_, _) := ?x in _] => destruct x as [st1 un] eqn:Hrec end.
  eapply (commit_trust T st Hwf e _ _ _ room (Some prev)); [done| | |exact Hrec]; [apply om_nodup_del, Hwf|].
  intros k Hne. by apply om_get_del_ne.
Qed.

Lemma setOffer_effect T e r n c q p b st : wf st → effect T st (setOffer num_str str_num e r n c q p b st).
Proof.
  intros Hwf. unfold setOffer. destruct (bind _ _) as [next|]; [|constructor].
  match goal with |- context [let '(_, _) := ?x in _] => destruct x as [st1 un] eqn:Hrec end.
  by eapply commit_offer.
Qed.

(** Auto-join happens exactly within the terms: trusted, a family available, an offer published, each
    of its caps respected, and no more asked for than remains. *)
Definition within_terms (tokens : Z) (rate : option Z) (trusted : bool) (offer : option Offer)
    (remaining : option num) (running : Z) (families : bool) : Prop :=
  trusted = true ∧ families = true ∧
  ∃ o, offer = Some o ∧ published o = true ∧
    (∀ cap, nonzero (budgetCapPerEngagement o) = Some cap → tokens ≤ cap) ∧
    (∀ cap, nonzero (rateCap o) = Some cap → ∃ r, nonzero rate = Some r ∧ r ≤ cap) ∧
    (∀ n, count o = Some n → running < n) ∧
    ∃ r, remaining = Some r ∧ num_ltb r (Fin (inject_Z tokens)) = false.

Lemma cap_ok o tokens :
  match nonzero o with Some cap => cap <? tokens | None => false end = false ↔
  ∀ cap, nonzero o = Some cap → tokens ≤ cap.
Proof.
  destruct (nonzero o) as [c|]; [|done]. rewrite Z.ltb_ge. split; [by intros ? ? [= <-]|auto].
Qed.

Lemma rate_ok cap rate :
  overRate cap rate = false ↔ ∀ c, nonzero cap = Some c → ∃ r, nonzero rate = Some r ∧ r ≤ c.
Proof.
  unfold overRate. destruct (nonzero cap) as [c|]; [|done]. destruct (nonzero rate) as [r|].
  - rewrite Z.ltb_ge. split; [intros ? ? [= <-]; eauto|]. intros H. by destruct (H _ eq_refl) as (? & [= <-] & ?).
  - split; [done|]. intros H. by destruct (H _ eq_refl) as (? & ? & _).
Qed.

Lemma count_ok o n :
  match o with Some c => c <=? n | None => false end = false ↔ ∀ c, o = Some c → n < c.
Proof. destruct o as [c|]; [|done]. rewrite Z.leb_gt. split; [by intros ? ? [= <-]|auto]. Qed.

Ltac refused := split; [discriminate|
  intros (? & ? & o' & Ho & ? & ? & ? & ? & r' & Hr & ?); try (injection Ho as <-); congruence].

Lemma route_spec tokens rate trusted offer remaining running families :
  (routeRequest tokens rate trusted offer remaining running families).2 = true ↔
  within_terms tokens rate trusted offer remaining running families.
Proof using Type.
  unfold within_terms. setoid_rewrite <-cap_ok. setoid_rewrite <-rate_ok. setoid_rewrite <-count_ok.
  unfold routeRequest.
  destruct trusted; [|refused]. destruct families; [|refused]. cbn [negb].
  destruct offer as [o|]; [|refused]. destruct (published o) eqn:Hp; [|refused]. cbn [negb].
  destruct (match nonzero (budgetCapPerEngagement o) with Some _ => _ | None => _ end) eqn:H1; [refused|].
  destruct (overRate _ _) eqn:H2; [refused|].
  destruct (match count o with Some _ => _ | None => _ end) eqn:H3; [refused|].
  destruct remaining as [r|]; [|refused]. destruct (num_ltb r _) eqn:H4; [refused|].
  split; [|done]. intros _. do 2 (split; [done|]). exists o. repeat (split; [done|]). by exists r.
Qed.

(** *** Requests *)

Lemma findRequest_None s st :
  findRequest s st = None ↔ ∀ g, g ∈ om_vals (engagements st) → requestId g ≠ Some s.
Proof using Type.
  unfold findRequest, str_eq_opt. split.
  - intros H g Hg. pose proof (find_none _ _ H g) as Hn. rewrite <-list_elem_of_In in Hn.
    specialize (Hn Hg). by apply bool_decide_eq_false in Hn.
  - intros H. destruct (List.find _ _) as [g|] eqn:E; [|done]. exfalso.
    apply find_some in E as [Hin Hb]. eapply H; [by apply list_elem_of_In|by apply bool_decide_eq_true in Hb].
Qed.

Lemma findRequest_Some s st g :
  findRequest s st = Some g → g ∈ om_vals (engagements st) ∧ requestId g = Some s.
Proof.
  unfold findRequest, str_eq_opt. intros [Hin Hb]%find_some. split; [by apply list_elem_of_In|].
  by apply bool_decide_eq_true in Hb.
Qed.

Lemma admitRequest_new i st room key :
  admitRequest num_str sha256 i st = Ok (room, key, None) → ∀ s, key = Some s → findRequest s st = None.
Proof using Type.
  unfold admitRequest. intros H s ->. js_inv H. destruct (match v0 with Some _ => _ | None => None end) eqn:E2.
  - by destruct (String.eqb _ _) in H.
  - injection H as <- ->. done.
Qed.

Lemma checkRequest_ok i c :
  checkRequest num_str str_num i = Ok c →
  tokens_ok (c_tokens c) ∧ c_agent c = (if to_bool (i_agent i) then match text (i_agent i) 256 with Ok a => Some a | Throw _ => None end else None).
Proof using Type.
  unfold checkRequest. intros H. js_inv H. injection H as <-. simpl. split; [by eapply posInt_ok|].
  destruct (to_bool (i_agent i)); js_inv E4; [|by injection E4 as <-]. injection E4 as <-. by rewrite E5.
Qed.

Lemma decision_fits i room c st via :
  decision i room c st = (via, true) → ∃ r, i_remaining i = Some r ∧ num_ltb r (Fin (inject_Z (c_tokens c))) = false.
Proof using Type.
  unfold decision. intros H. assert (H2 : (routeRequest (c_tokens c) (c_rate c) (i_allowAutoJoin i && isWhitelisted room st)
    (match i_offer i with Some o => Some o | None => getOffer (c_role c) st end)
    (i_remaining i) (activeForRole (c_role c) st) (i_crossFamilyOk i)).2 = true) by by rewrite H.
  apply route_spec in H2 as (_ & _ & o & _ & _ & _ & _ & _ & Hr). done.
Qed.

Lemma createRequest_effect e i st :
  wf st → pre (e, OCreate i) st →
  effect (writes (OCreate i) st) st (createRequest num_str str_num sha256 e i st).
Proof using Type.
  intros Hwf Hpre. unfold pre in Hpre. cbn [fst snd] in Hpre. unfold createRequest.
  destruct (admitRequest _ _ _ _) as [[[room key] [prior|]]|] eqn:Hadm; [constructor| |constructor].
  destruct (checkRequest _ _ _) as [c|] eqn:Hc; [|constructor].
  destruct (decision i room c st) as [via join] eqn:Hd.
  set (auto := join && negb (i_deferActivation i)).
  set (g := newEngagement num_str sha256 e i room key c via auto).
  match goal with |- context [let '(_, _) := ?x in _] => destruct x as [st1 un] eqn:Hrec end.
  apply checkRequest_ok in Hc as [Hok Hag].
  eapply commit_born; [done|exact Hpre| | | | |exact Hrec].
  - unfold born, g. simpl. destruct auto; auto.
  - split; simpl.
    + apply inb_spec. by destruct auto.
    + done.
    + destruct auto; [by intros ? [= <-]|done].
    + destruct auto; [eauto|done].
    + by intros [].
    + destruct auto; [done|]. auto.
  - intros ceil Hw. destruct auto eqn:Ha.
    + apply andb_true_iff in Ha as [-> _]. destruct (decision_fits _ _ _ _ _ Hd) as (r & Hr & Hl).
      destruct (c_agent c) as [a|] eqn:Hca.
      2: { intros a. left. rewrite weight_none by done. by apply weightAt_nonneg. }
      destruct (to_bool (i_agent i)); [|done]. destruct (text _ _) as [a'|] eqn:Ht; [|done].
      injection Hag as <-. specialize (Hw _ Ht). rewrite Hr in Hw. pose proof (bounded_le _ _ _ Hw Hl).
      apply (fits_agent _ _ _ a (c_tokens c)); [exact Hca|done|destruct Hok; lia|intros; by apply weightAt_nonneg|].
      pose proof (weightAt_nonneg a (id g) st Hwf). lia.
    + intros a. left. rewrite weight_not_held; [by apply weightAt_nonneg|done].
  - intros k g' s Hk Hs Hg'. cbn in Hg'. eapply findRequest_None; [by eapply admitRequest_new|by eapply om_get_vals|done].
Qed.

(** *** Verdicts *)

Lemma decide_effect e v st :
  wf st → pre (e, ODecide v) st →
  effect (writes (ODecide v) st) st (decide num_str str_num localeCompare e v st).
Proof.
  intros Hwf Hpre. unfold pre in Hpre. cbn [fst snd] in Hpre. unfold EngagementStore.decide.
  destruct (text _ _) as [k|] eqn:Ht; [|constructor].
  destruct (om_get k (engagements st)) as [g|] eqn:Hk; [|constructor].
  destruct (String.eqb_spec (state g) "pending") as [Hp|]; [|constructor]. cbn [negb].
  pose proof (wf_good _ Hwf _ _ Hk) as Hg. pose proof (wf_id _ Hwf _ _ Hk) as Hid.
  destruct (v_approve v); cbn [negb].
  - destruct (posInt _ _ _) as [alloc|] eqn:Hn; [|constructor]. apply posInt_ok in Hn.
    destruct (v_remaining v) as [r|] eqn:Hr; [|constructor].
    destruct (num_ltb r _) eqn:Hl; [constructor|].
    match goal with |- context [let '(_, _) := ?x in _] => destruct x as [st1 un] eqn:Hrec end.
    rewrite Hid in *.
    eapply commit_recorded; [done|done| | | |exact Hrec].
    + unfold approvedE. destruct (_ && _); evolve; intros; congruence.
    + destruct Hg. unfold approvedE. destruct (_ && _); (split; simpl; [by apply inb_spec|done|by intros ? [= <-]|eauto|eauto|done]).
    + intros ceil Hw. destruct (agent g) as [a|] eqn:Ha.
      2: { intros a. left. rewrite weight_none by (by rewrite (proj1 (approvedE_facts _ _ _ _))). by apply weightAt_nonneg. }
      specialize (Hw _ _ _ Ht Hk Ha). rewrite Hr in Hw. pose proof (bounded_le _ _ _ Hw Hl).
      destruct (approvedE_facts e v alloc g) as (E1 & E2 & E3 & _).
      apply (fits_agent _ _ _ a alloc); [congruence|done|destruct Hn; lia|intros; by apply weightAt_nonneg|].
      rewrite E3, Hid. unfold weightAt. rewrite Hk. lia.
  - apply commit_ending; [done|by rewrite Hid|..].
    + evolve; intros; congruence.
    + destruct Hg. split; simpl; [by apply inb_spec|done|done|done|done|done].
    + intros ceil _ a. left. rewrite weight_not_held; [by apply weightAt_nonneg|done].
    + exact Hpre.
Qed.

Lemma revoke_effect e k b r st :
  wf st → pre (e, ORevoke k b r) st →
  effect (writes (ORevoke k b r) st) st (revoke num_str localeCompare e k b r st).
Proof.
  intros Hwf Hpre. unfold pre in Hpre. cbn [fst snd] in Hpre. unfold revoke.
  destruct (text _ _) as [k'|] eqn:Ht; [|constructor].
  destruct (om_get k' (engagements st)) as [g|] eqn:Hk; [|constructor].
  destruct (String.eqb_spec (state g) "active") as [Hp|]; [|constructor]. cbn [negb].
  pose proof (wf_good _ Hwf _ _ Hk) as Hg. pose proof (wf_id _ Hwf _ _ Hk) as Hid.
  apply commit_ending; [done|by rewrite Hid|..].
  - evolve; intros; congruence.
  - destruct Hg. split; simpl; [by apply inb_spec|done|done|done|done|done].
  - intros ceil _ a. left. rewrite weight_not_held; [by apply weightAt_nonneg|done].
  - exact Hpre.
Qed.

(** *** Notices, bindings, withdrawals *)

(** A write that touches neither the verdict nor the hold nor the ask. *)
Record aside (g g1 : Engagement) : Prop := {
  as_ask : same_ask g g1;
  as_verdict : same_verdict g g1;
  as_state : state g1 = state g ∧ fulfillment g1 = fulfillment g;
  as_end : endedAt g1 = endedAt g ∧ endedReason g1 = endedReason g;
}.

Lemma aside_ok op st k g g1 :
  wf st → om_get k (engagements st) = Some g → aside g g1 → evolves g g1 ∧ good g1 ∧ writes op st g1.
Proof.
  intros Hwf Hk [Hask Hv [Hs Hf] He]. pose proof (wf_good _ Hwf _ _ Hk) as [G1 G2 G3 G4 G5 G6].
  destruct Hask as (Hi & A). destruct Hv as (V1 & V2 & V3 & V). split; [|split].
  - split; [by split|rewrite Hs; by left|done|done].
  - destruct A as (_ & _ & _ & _ & _ & _ & _ & A & _). destruct He as [He _].
    split; rewrite ?Hs, ?A, ?V2, ?Hf, ?V3, ?He; done.
  - eapply fits_kept; [done|rewrite Hi; exact (wf_id _ Hwf _ _ Hk)|]. intros a.
    apply weight_same; [done|done|]. unfold holdsAllocation. by rewrite Hs, Hf.
Qed.

Lemma update_aside op st e k g g1 :
  wf st → om_get k (engagements st) = Some g → aside g g1 → effect (writes op st) st (update e k g g1 st).
Proof. intros Hwf Hk Ha. destruct (aside_ok op st k g g1 Hwf Hk Ha) as (? & ? & ?). by apply commit_update. Qed.

Ltac by_side := split; by repeat split.

Lemma queueApprovalNotice_effect op e k st : wf st → effect (writes op st) st (queueApprovalNotice e k st).
Proof.
  intros Hwf. unfold queueApprovalNotice. destruct (om_get k (engagements st)) as [g|] eqn:Hk; [|constructor].
  destruct (_ || _); [constructor|]. apply update_aside; [done|done|by_side].
Qed.

Lemma settleApprovalNotice_effect op e k ev c st :
  wf st → effect (writes op st) st (settleApprovalNotice e k ev c st).
Proof.
  intros Hwf. unfold settleApprovalNotice. destruct (om_get k (engagements st)) as [g|] eqn:Hk; [|constructor].
  destruct (approvalNotice g) as [[]|]; [|constructor..]. apply update_aside; [done|done|by_side].
Qed.

Lemma setBindingOutcome_effect op e k b o err st :
  wf st → effect (writes op st) st (setBindingOutcome num_str e k b o err st).
Proof.
  intros Hwf. unfold setBindingOutcome. destruct (om_get k (engagements st)) as [g|] eqn:Hk; [|constructor].
  match goal with |- context [let '(_, _) := ?x in _] => destruct x as [st1 un] eqn:Hrec end.
  match type of Hrec with record _ _ _ (setE k ?g1 st) = _ => destruct (aside_ok op st k g g1 Hwf Hk) as (? & ? & ?) end;
    [by_side|]. by eapply commit_recorded.
Qed.

Lemma beginWithdrawal_effect op e k s st : wf st → effect (writes op st) st (beginWithdrawal e k s st).
Proof.
  intros Hwf. unfold beginWithdrawal. destruct (om_get k (engagements st)) as [g|] eqn:Hk; [|constructor].
  destruct (_ || _); [constructor|]. apply update_aside; [done|done|by_side].
Qed.

Lemma setWithdrawalOutcome_effect op e k b r t st :
  wf st → effect (writes op st) st (setWithdrawalOutcome num_str e k b r t st).
Proof.
  intros Hwf. unfold setWithdrawalOutcome. destruct (om_get k (engagements st)) as [g|] eqn:Hk; [|constructor].
  destruct (withdrawal g) as [w|]; [|constructor]. destruct (negb (ended g)); [constructor|].
  apply update_aside; [done|done|]. destruct (_ || _); by_side.
Qed.

(** Every operation, in one statement. *)
Lemma exec_effect op st : wf st → pre op st → effect (writes op.2 st) st (exec op st).
Proof.
  intros Hwf Hpre. destruct op as [e []]; unfold exec; cbn [fst snd]; apply effect_forget.
  - by apply selectAgent_effect.
  - by apply planFulfillment_effect.
  - by apply setFulfillmentPhase_effect.
  - by apply addToWhitelist_effect.
  - by apply removeFromWhitelist_effect.
  - by apply setOffer_effect.
  - by apply createRequest_effect.
  - by apply decide_effect.
  - by apply queueApprovalNotice_effect.
  - by apply settleApprovalNotice_effect.
  - by apply setBindingOutcome_effect.
  - by apply beginWithdrawal_effect.
  - by apply setWithdrawalOutcome_effect.
  - by apply revoke_effect.
Qed.

(** *** The store's contract: memory and file agree up to the order of keys *)

Definition Image : Type := gmap string Engagement * gmap string Trust * gmap string Offer * list AuditEntry.
Definition image (st : State) : Image :=
  (list_to_map (engagements st), list_to_map (whitelist st), list_to_map (offers st), audit st).

Lemma om_map_lookup {V} (m : omap V) k : (list_to_map m : gmap string V) !! k = om_get k m.
Proof.
  induction m as [|[k' v] m IH]; simpl; [done|]. destruct (String.eqb_spec k k') as [->|].
  - by rewrite lookup_insert_eq.
  - by rewrite lookup_insert_ne.
Qed.

Lemma om_map_equiv {V} (m1 m2 : omap V) :
  m1 ≈ₘ m2 ↔ (list_to_map m1 : gmap string V) = list_to_map m2.
Proof.
  split.
  - intros H. apply map_eq. intros k. by rewrite !om_map_lookup.
  - intros H k. by rewrite <-!om_map_lookup, H.
Qed.

Lemma image_same st st' : image st = image st' ↔ same st st'.
Proof.
  unfold image. split.
  - intros [= H1%om_map_equiv H2%om_map_equiv H3%om_map_equiv ?]. by split.
  - intros [H1%om_map_equiv H2%om_map_equiv H3%om_map_equiv ->]. by rewrite H1, H2, H3.
Qed.

Definition run_op (op : Env * Op) (st : State) : step_out State Image unit :=
  let o := exec op st in StepOut (so_res o) (so_mem o) (image <$> so_disk o).

#[export] Program Instance engagement_store : Store State Image (Env * Op) unit := {
  st_image := image;
  st_wf := wf;
  st_pre := pre;
  st_exec := run_op;
}.
Next Obligation. intros op m Hwf Hpre. simpl. eapply effect_wf; [done|by apply exec_effect]. Qed.
Next Obligation.
  intros op m Hwf Hpre. pose proof (exec_effect op m Hwf Hpre) as He. unfold atomic, run_op. simpl.
  destruct (is_ok (so_res (exec op m))) eqn:Hr.
  - split; [done|]. destruct (effect_ok _ _ _ He Hr) as [[-> ->]| ->]; done.
  - destruct (effect_throw _ _ _ He Hr) as [-> Hs]. split; [done|]. simpl. by apply image_same.
Qed.

End ops.
