(* ===== verification/EngagementSafety.v ===== *)
(** * Engagements: what the store guarantees

    Auto-join within the contributor's terms and nothing else, commitments within the ceiling,
    one record per request id, the life of an engagement, and memory and file in step. *)

From Stdlib Require Import ZArith QArith Qround Lia String Ascii.
From stdpp Require Import base gmap list strings relations sorting.
From S2P Require Import Prelude OMap Json Store EngagementStore EngagementFacts.
#[local] Open Scope stdpp_scope.

Import EngagementStore.

(** ** What an agent has committed, as a sum of weights *)

Notation held a := (om_sum (weight a)).

Lemma committed_held a st : committedFor a st = held a (engagements st).
Proof.
  unfold committedFor, om_sum, total. induction (om_vals (engagements st)) as [|g l IH]; [done|]. simpl.
  unfold weight at 1. destruct (heldBy a g); simpl; by rewrite IH.
Qed.

Lemma held_deleteAll a l m :
  NoDup (om_keys m) → (∀ g, g ∈ l → om_at (weight a) (id g) m = 0) → held a (deleteAll l m) = held a m.
Proof.
  unfold deleteAll. revert m. induction l as [|g l IH]; intros m Hnd Hl; [done|]. simpl.
  rewrite IH; [|by apply om_nodup_del|].
  - rewrite (om_sum_split (weight a) (id g) m) by done. rewrite (Hl g) by left. lia.
  - intros x Hx. unfold om_at. rewrite om_get_del. destruct (String.eqb _ _); [done|].
    apply (Hl x). by right.
Qed.

Lemma held_touched a st g1 m :
  wf st → touched st g1 m → held a m = committedFor a st - weightAt a (id g1) st + weight a g1.
Proof.
  intros Hwf (l & -> & Hl). rewrite held_deleteAll, om_sum_set, committed_held; [done|apply Hwf|by apply om_nodup_obj_set, Hwf|].
  intros g Hg. destruct (Hl g Hg) as [Hget He]. unfold om_at. rewrite Hget. apply weight_not_held.
  unfold holdsAllocation. by rewrite He.
Qed.

Lemma committed_same a st st' : distinct st → distinct st' → same st st' → committedFor a st = committedFor a st'.
Proof. intros (H1 & _) (H2 & _) [He _ _ _]. rewrite !committed_held. by apply om_sum_equiv. Qed.

Section safety.
Context (num_str : num → string) (str_num : string → num) (sha256 : string → string)
        (localeCompare : string → string → Z).

Notation exec := (exec num_str str_num sha256 localeCompare).
Notation pre := (pre num_str str_num).
Notation within := (within num_str str_num).
Notation run_op := (run_op num_str str_num sha256 localeCompare).

Lemma exec_within ceiling op st :
  wf st → pre op st → within ceiling op.2 st → (∀ a, committedFor a st ≤ ceiling a) →
  ∀ a, committedFor a (so_mem (exec op st)) ≤ ceiling a.
Proof.
  intros Hwf Hpre Hin Hc a. pose proof (exec_effect num_str str_num sha256 localeCompare op st Hwf Hpre) as He.
  pose proof (effect_wf _ _ _ Hwf He) as Hwf'.
  destruct (effect_memory _ _ _ He) as [Hs|[Heq|(g1 & HT & _ & Ht)]].
  - rewrite (committed_same a _ st); [done|by apply wf_distinct..|done].
  - rewrite committed_held, Heq, <-committed_held. done.
  - rewrite committed_held, (held_touched a st g1 _ Hwf Ht). destruct (HT ceiling Hin a) as [?|?]; specialize (Hc a); lia.
Qed.

(** A plan that is refused for its amount leaves its agent in memory, on a record that holds nothing. *)
Lemma refused_plan_holds_nothing e k plan st s c :
  wf st → text (prop_in "agent" plan) 256 = Ok s → posInt num_str str_num (prop_in "allocatedTokens" plan) = Throw c →
  wf (so_mem (exec (e, OPlan k plan) st)) ∧ ∀ a, committedFor a (so_mem (exec (e, OPlan k plan) st)) = committedFor a st.
Proof using Type.
  intros Hwf Hs Hn. unfold EngagementFacts.exec, forget, planFulfillment. cbn [fst snd so_mem]. destruct (om_get k (engagements st)) as [g|] eqn:Hk; [|done].
  destruct (String.eqb_spec (state g) "pending") as [Hp|]; [|done]. cbn [negb].
  destruct (match fulfillment g with Some f => _ | None => false end) eqn:Hf; [done|]. rewrite Hs, Hn. cbn [raise so_mem].
  set (g1 := g <| agent := Some s |>). pose proof (wf_id _ Hwf _ _ Hk) as Hid. pose proof (wf_good _ Hwf _ _ Hk) as Hg.
  assert (Hfree : holdsAllocation g = false).
  { unfold holdsAllocation. rewrite Hp. simpl. destruct (fulfillment g); [|done]. apply negb_false_iff, String.eqb_eq in Hf. by rewrite Hf. }
  assert (Ht : touched st g1 (engagements (setE k g1 st))) by (rewrite <-Hid; apply touched_set).
  split.
  - apply (wf_touched st g1 (setE k g1 st)); try done.
    + by destruct Hg.
    + unfold allowed_change. cbn [id over g1]. rewrite Hid, Hk. split; cbn; [by repeat split|by left|congruence|done].
    + cbn. rewrite Hid. congruence.
    + apply Hwf.
  - intros a. rewrite committed_held, (held_touched a st g1) by done. unfold weightAt. cbn [id over g1]. rewrite Hid, Hk.
    rewrite (weight_not_held a g) by done. rewrite (weight_not_held a g1) by done. lia.
Qed.

(** A new record has a fresh id, and the clock of an ending is past the endings before it. *)
Definition timely (op : Env * Op) (st : State) : Prop :=
  match op.2 with
  | OCreate _ => om_get (newId op.1) (engagements st) = None
  | ODecide _ | ORevoke _ _ _ => clock_ahead op.1 st
  | _ => True
  end.

Lemma timely_cases op st : wf st → timely op st → pre op st ∨
  (wf (so_mem (exec op st)) ∧ ∀ a, committedFor a (so_mem (exec op st)) = committedFor a st).
Proof using Type.
  intros Hwf Ht. destruct op as [e []]; try (left; exact Ht); try (by left). unfold EngagementFacts.pre. cbn [fst snd].
  destruct (text (prop_in "agent" plan) 256) as [s|] eqn:Hs; [|by left].
  destruct (posInt num_str str_num (prop_in "allocatedTokens" plan)) as [n|c] eqn:Hn; [by left|right]. by eapply refused_plan_holds_nothing.
Qed.

(** One operation by a caller that keeps to the ceilings. *)
Inductive budget_step (ceiling : string → Z) : relation (world State Image) :=
| budget_step_intro op w :
    timely op (w_mem w) → within ceiling op.2 (w_mem w) →
    budget_step ceiling w (apply_out w (run_op op (w_mem w))).

(** C17. However requests, verdicts, plans, phases and revocations interleave, whichever are refused and
    whichever writes fail, the tokens an agent's live engagements hold never exceed its ceiling, provided the
    callers keep to it: the remaining figure passed with a request or a verdict is not above what the ceiling
    leaves (the engagement in question aside), the amount of a plan that is accepted fits into what it leaves,
    and so does that of a failed or complete plan that is set back to a phase in which it holds tokens. New
    ids are fresh, and the clock of a verdict or a revocation is past every recorded ending. *)
Theorem commitments_within_ceiling ceiling w w' :
  rtc (budget_step ceiling) w w' → wf (w_mem w) →
  (∀ a, committedFor a (w_mem w) ≤ ceiling a) → ∀ a, committedFor a (w_mem w') ≤ ceiling a.
Proof.
  induction 1 as [w|w1 w2 w3 Hstep _ IH]; [done|]. intros Hwf Hc. destruct Hstep as [op w1 Hpre Hin].
  destruct (timely_cases op (w_mem w1) Hwf Hpre) as [Hp|[Hwf' Heq]]; apply IH; simpl.
  - eapply effect_wf; [done|by apply (exec_effect num_str str_num sha256 localeCompare)].
  - by apply exec_within.
  - exact Hwf'.
  - intros a. rewrite Heq. apply Hc.
Qed.

(** A new request is joined automatically exactly when auto-join was not ruled out or deferred,
    the room is trusted, an offer is published and every one of its caps admits the request (a rate
    cap only if the request states a rate), and the known remaining figure covers it; it then gets
    what it asked for, and otherwise waits without an allocation. *)
Theorem auto_join_exactly_within_terms e i st room key c :
  saves e = SaveDone →
  admitRequest num_str sha256 i st = Ok (room, key, None) → checkRequest num_str str_num i = Ok c →
  ∃ g, so_res (createRequest num_str str_num sha256 e i st) = Ok g ∧
    om_get (id g) (engagements (so_mem (createRequest num_str str_num sha256 e i st))) = Some g ∧
    requestedTokens g = c_tokens c ∧
    (state g = "active" ↔
       i_deferActivation i = false ∧
       within_terms (c_tokens c) (c_rate c) (i_allowAutoJoin i && isWhitelisted room st)
         (match i_offer i with Some o => Some o | None => getOffer (c_role c) st end)
         (i_remaining i) (activeForRole (c_role c) st) (i_crossFamilyOk i)) ∧
    (if String.eqb (state g) "active" then allocatedTokens g = Some (requestedTokens g)
     else state g = "pending" ∧ allocatedTokens g = None).
Proof using Type.
  intros Hs Hadm Hc. unfold createRequest. rewrite Hadm, Hc.
  destruct (decision i room c st) as [via join] eqn:Hd.
  set (auto := join && negb (i_deferActivation i)).
  set (g := newEngagement num_str sha256 e i room key c via auto).
  match goal with |- context [let '(_, _) := ?x in _] => destruct x as [st1 un] eqn:Hrec end.
  apply record_spec in Hrec as ((E1 & _) & _). unfold commit. rewrite Hs. cbn [so_res so_mem].
  exists g. split; [done|]. split; [rewrite E1; apply om_get_obj_set_eq|]. split; [done|].
  rewrite <-route_spec. change (routeRequest _ _ _ _ _ _ _) with (decision i room c st). rewrite Hd. cbn [snd].
  unfold g. simpl. unfold auto.
  destruct join, (i_deferActivation i); simpl; (split; [split; [try discriminate; auto|by intros [? ?]]|done]).
Qed.

(** ** Requests and their ids *)

Lemma findRequest_unique st g s :
  wf st → om_get (id g) (engagements st) = Some g → requestId g = Some s → findRequest s st = Some g.
Proof using Type.
  intros Hwf Hg Hs. destruct (findRequest s st) as [g'|] eqn:E.
  - apply findRequest_Some in E as [(k & Hin)%om_vals_get Hs'].
    apply elem_of_om_get in Hin; [|apply Hwf].
    pose proof (wf_request _ Hwf _ _ _ _ _ Hg Hin Hs Hs') as <-. congruence.
  - pose proof (proj1 (findRequest_None s st) E g) as Hn. exfalso. apply Hn; [by eapply om_get_vals|done].
Qed.

Definition asks (i : RequestInput) (room key : string) : Prop :=
  text (q_projectRoomId (i_ask i)) 256 = Ok room ∧ ROOM_ID_RE room = true ∧
  is_nullish (q_requestId (i_ask i)) = false ∧ text (q_requestId (i_ask i)) 256 = Ok key.

Lemma repeat_answer e i st room key g :
  wf st → asks i room key → om_get (id g) (engagements st) = Some g → requestId g = Some key →
  if String.eqb (requestDigest g) (digestOf num_str sha256 room (i_ask i)) then
    createRequest num_str str_num sha256 e i st = unchanged g st ∧
    replayRequest num_str sha256 (i_ask i) st = Ok (Some g)
  else
    createRequest num_str str_num sha256 e i st = raise "conflict" st ∧
    replayRequest num_str sha256 (i_ask i) st = Throw "conflict".
Proof using Type.
  intros Hwf (Hr & Hre & Hn & Hk) Hg Hs. pose proof (findRequest_unique st g key Hwf Hg Hs) as Hf.
  assert (Hadm : admitRequest num_str sha256 i st =
    if String.eqb (requestDigest g) (digestOf num_str sha256 room (i_ask i)) then Ok (room, Some key, Some g) else Throw "conflict").
  { unfold admitRequest. rewrite Hr. cbn [bind]. rewrite Hre. cbn [negb]. rewrite Hn, Hk. cbn [bind]. by rewrite Hf. }
  unfold createRequest, replayRequest. rewrite Hadm, Hn, Hk. cbn [bind]. rewrite Hf, Hr. cbn [bind].
  by destruct (String.eqb _ _).
Qed.

Lemma created_record e i st room key g :
  wf st → om_get (newId e) (engagements st) = None → asks i room key →
  so_res (createRequest num_str str_num sha256 e i st) = Ok g →
  om_get (id g) (engagements (so_mem (createRequest num_str str_num sha256 e i st))) = Some g ∧
  requestId g = Some key ∧ requestDigest g = digestOf num_str sha256 room (i_ask i).
Proof using Type.
  intros Hwf Hfr (Hr & Hre & Hn & Hk). unfold createRequest.
  assert (Hadm : admitRequest num_str sha256 i st = match findRequest key st with
      | None => Ok (room, Some key, None)
      | Some p => if String.eqb (requestDigest p) (digestOf num_str sha256 room (i_ask i)) then Ok (room, Some key, Some p) else Throw "conflict"
      end).
  { unfold admitRequest. rewrite Hr. cbn [bind]. rewrite Hre. cbn [negb]. rewrite Hn, Hk. done. }
  rewrite Hadm. destruct (findRequest key st) as [p|] eqn:Hf.
  - destruct (String.eqb_spec (requestDigest p) (digestOf num_str sha256 room (i_ask i))) as [Hd|]; [|done].
    simpl. intros [= <-]. apply findRequest_Some in Hf as [(k & Hin)%om_vals_get Hs].
    apply elem_of_om_get in Hin; [|apply Hwf]. by rewrite (wf_id _ Hwf _ _ Hin).
  - destruct (checkRequest _ _ _) as [c|]; [|done]. destruct (decision i room c st) as [via join].
    match goal with |- context [let '(_, _) := ?x in _] => destruct x as [st1 un] eqn:Hrec end.
    apply record_spec in Hrec as ((E1 & _) & _). unfold commit. destruct (saves e); [|done..].
    cbn [so_res so_mem]. intros [= <-]. rewrite E1. split; [apply om_get_obj_set_eq|done].
Qed.

(** A [requestId] stands for one engagement: using it again with the same question returns the
    record as it is now and writes nothing, and with a different question is a conflict that changes
    nothing; [replayRequest] gives the same answer. In particular a request that was just accepted,
    sent again, is answered with the record it created. *)
Theorem request_id_is_idempotent e e2 i st room key :
  wf st → asks i room key →
  (∀ g, om_get (id g) (engagements st) = Some g → requestId g = Some key →
     if String.eqb (requestDigest g) (digestOf num_str sha256 room (i_ask i)) then
       createRequest num_str str_num sha256 e i st = unchanged g st ∧
       replayRequest num_str sha256 (i_ask i) st = Ok (Some g)
     else
       createRequest num_str str_num sha256 e i st = raise "conflict" st ∧
       replayRequest num_str sha256 (i_ask i) st = Throw "conflict") ∧
  (∀ g, om_get (newId e) (engagements st) = None →
     so_res (createRequest num_str str_num sha256 e i st) = Ok g →
     let st' := so_mem (createRequest num_str str_num sha256 e i st) in
     createRequest num_str str_num sha256 e2 i st' = unchanged g st' ∧
     replayRequest num_str sha256 (i_ask i) st' = Ok (Some g)).
Proof using Type.
  intros Hwf Hask. split; [intros g; by apply repeat_answer|]. intros g Hfr Hres st'.
  destruct (created_record e i st room key g Hwf Hfr Hask Hres) as (H1 & H2 & H3).
  assert (Hwf' : wf st').
  { eapply effect_wf; [done|by apply (createRequest_effect num_str str_num)]. }
  pose proof (repeat_answer e2 i st' room key g Hwf' Hask H1 H2) as H. by rewrite H3, String.eqb_refl in H.
Qed.

(** ** The life of an engagement *)

Lemma evolves_refl g : evolves g g.
Proof. split; [by repeat split|by left|by repeat split|done]. Qed.

(** An engagement goes from pending to active or ended and from active to ended, by a verdict or
    a revocation, and nowhere else; what was asked never changes; once decided, the agent, the
    allocation, the decider and the time of decision are fixed, and once ended so are the time and the
    reason. A record only disappears when it has ended, and a record that appears is pending or active. *)
Theorem engagement_life_cycle op st k :
  wf st → pre op st →
  match om_get k (engagements st), om_get k (engagements (so_mem (exec op st))) with
  | Some g, Some g' => evolves g g'
  | Some g, None => ∃ g', evolves g g' ∧ state g' = "ended"
  | None, Some g' => born g'
  | None, None => True
  end.
Proof.
  intros Hwf Hpre. pose proof (exec_effect num_str str_num sha256 localeCompare op st Hwf Hpre) as He.
  assert (Heq : ∀ m, (∀ k, om_get k m = om_get k (engagements st)) →
    match om_get k (engagements st), om_get k m with
    | Some g, Some g' => evolves g g' | Some g, None => ∃ g', evolves g g' ∧ state g' = "ended"
    | None, Some g' => born g' | None, None => True end).
  { intros m ->. destruct (om_get k (engagements st)); [apply evolves_refl|done]. }
  destruct (effect_memory _ _ _ He) as [[Hs _ _ _]|[Hs|(g1 & _ & Hch & l & -> & Hl)]].
  - by apply Heq.
  - apply Heq. by rewrite Hs.
  - unfold allowed_change in Hch. rewrite om_get_deleteAll.
    assert (Hset : om_get k (obj_set (id g1) g1 (engagements st)) = if String.eqb (id g1) k then Some g1 else om_get k (engagements st))
      by apply om_get_obj_set.
    destruct (inb k (id <$> l)) eqn:Hin.
    + apply inb_spec, list_elem_of_fmap in Hin as (x & -> & Hx). destruct (Hl x Hx) as [Hgx Hend].
      rewrite Hset in Hgx. destruct (String.eqb_spec (id g1) (id x)) as [E|Hne].
      * injection Hgx as <-. destruct (om_get (id g1) (engagements st)); [by exists g1|done].
      * rewrite Hgx. exists x. split; [apply evolves_refl|done].
    + rewrite Hset. destruct (String.eqb_spec (id g1) k) as [<-|].
      * destruct (om_get (id g1) (engagements st)); done.
      * destruct (om_get k (engagements st)); [apply evolves_refl|done].
Qed.

(** ** Memory and file *)

Notation step := (@st_step _ _ _ _ (engagement_store num_str str_num sha256 localeCompare)).

(** Whatever operations run and whichever writes fail or throw, the records stay well formed
    (keys are ids, request ids unique, an allocation wherever tokens are held, the audit bounded) and
    the file holds what the memory holds, up to the order of keys. *)
Theorem engagement_store_in_step w w' :
  rtc step w w' → wf (w_mem w) → w_disk w = image (w_mem w) → wf (w_mem w') ∧ w_disk w' = image (w_mem w').
Proof.
  intros Hr Hwf Hs.
  exact (@run_synced _ _ _ _ (engagement_store num_str str_num sha256 localeCompare) w w' Hr Hwf Hs).
Qed.

Lemma commit_fails {A} e undo (a : A) st : saves e ≠ SaveDone → so_disk (commit e undo a st) = None.
Proof. unfold commit. by destruct (saves e). Qed.

Ltac no_write Hs := repeat first
  [ reflexivity | apply (commit_fails _ _ _ _ Hs)
  | match goal with |- context [match ?x with _ => _ end] => destruct x end ].

Lemma failed_write_no_file op st : saves op.1 ≠ SaveDone → so_disk (exec op st) = None.
Proof.
  intros Hs. destruct op as [e []]; unfold exec, forget; cbn [fst snd so_disk] in *;
    unfold selectAgent, planFulfillment, setFulfillmentPhase, addToWhitelist, removeFromWhitelist, setOffer,
      createRequest, EngagementStore.decide, revoke, ending, queueApprovalNotice, settleApprovalNotice, setBindingOutcome,
      beginWithdrawal, setWithdrawalOutcome, update; no_write Hs.
Qed.

(** A write that fails takes everything with it: the call throws, nothing reaches the file, and
    the engagements, the whitelist, the offers and the audit log are what they were, even when the
    change had pushed old audit entries or ended records out. *)
Theorem failed_write_restores_store op st :
  wf st → pre op st → saves op.1 ≠ SaveDone →
  so_disk (exec op st) = None ∧ same (so_mem (exec op st)) st.
Proof.
  intros Hwf Hpre Hs. pose proof (exec_effect num_str str_num sha256 localeCompare op st Hwf Hpre) as He.
  destruct (is_ok (so_res (exec op st))) eqn:Hr; [|by apply (effect_throw _ _ _ He)].
  pose proof (failed_write_no_file op st Hs) as Hn.
  destruct (effect_ok _ _ _ He Hr) as [[-> _]|Hd]; [done|congruence].
Qed.

(** ** Two places where a refusal leaves a trace *)

(** A plan with an agent and an amount that is not accepted throws, but the record in memory already
    names the plan's agent; the file keeps the old one. *)
Lemma refused_plan_changes_agent e k plan st g a c :
  om_get k (engagements st) = Some g → state g = "pending" → fulfillment g = None →
  text (prop_in "agent" plan) 256 = Ok a → posInt num_str str_num (prop_in "allocatedTokens" plan) = Throw c →
  let o := planFulfillment num_str str_num e k plan st in
  so_res o = Throw c ∧ so_disk o = None ∧
  om_get k (engagements (so_mem o)) = Some (g <| agent := Some a |>).
Proof using Type.
  intros Hk Hp Hf Ha Hn. unfold planFulfillment. rewrite Hk, Hp. cbn [negb String.eqb]. rewrite Hf, Ha, Hn.
  cbn -[om_get obj_set]. split; [done|]. split; [done|]. apply om_get_obj_set_eq.
Qed.

(** When the record a call ends is itself among the oldest endings and is pruned, a failed write does
    not bring it back: the undo first restores it and then writes the ended object over it. *)
Lemma pruned_ending_not_undone e k v st g :
  let g1 := revokedE num_str e v g in
  NoDup (om_keys (engagements st)) → (∀ k g, om_get k (engagements st) = Some g → id g = k) →
  om_get k (engagements st) = Some g → saves e ≠ SaveDone →
  g1 ∈ surplus localeCompare (setE k g1 st) →
  ∀ t ty d, so_res (ending localeCompare e k g g1 t ty d st) = Throw "persistence_failed" ∧
    om_get k (engagements (so_mem (ending localeCompare e k g g1 t ty d st))) = Some g1.
Proof using Type.
  intros g1 Hnd Hids Hk Hs Hin t ty d. pose proof (Hids _ _ Hk) as Hid. unfold ending.
  destruct (record t ty d (setE k g1 st)) as [st1 un] eqn:Hrec.
  apply record_spec in Hrec as ((E1 & _ & _) & _ & Hun). unfold pruneEnded.
  assert (Hsur : surplus localeCompare st1 = surplus localeCompare (setE k g1 st)).
  { unfold surplus. by rewrite E1. }
  rewrite Hsur. set (l := surplus _ _) in *. set (m := obj_set k g1 (engagements st)).
  assert (Hl : ∀ x, x ∈ l → om_get (id x) m = Some x).
  { intros x Hx. refine (proj1 (surplus_spec localeCompare m _ _ (setE k g1 st) x _ Hx)).
    - by apply om_nodup_obj_set.
    - intros k' g'. unfold m. rewrite om_get_obj_set. destruct (String.eqb_spec k k') as [->|].
      + by intros [= <-].
      + apply Hids.
    - done. }
  assert (Hget : ∀ m', om_get k (restoreAll l m') = Some g1).
  { intros m'. rewrite (om_get_restoreAll l m' m) by done.
    assert (Hb : inb k (id <$> l) = true); [|by rewrite Hb; unfold m; rewrite om_get_obj_set_eq].
    apply inb_spec, list_elem_of_fmap. by exists g1. }
  unfold commit. destruct (saves e); [done|..]; (cbn [so_res so_mem]; split; [done|]);
    match goal with |- context [un ?s] => rewrite (proj1 (Hun s)) end; cbn [engagements over]; apply Hget.
Qed.

End safety.

(** ** Concrete runs *)

Definition n0 (_ : num) : string := "0".
Definition s0 (_ : string) : num := NaN.
Definition h0 (s : string) : string := s.
Definition l0 (_ _ : string) : Z := 0.

Definition env (t : Z) (r : string) (s : save_outcome) : Env := MkEnv (λ n, t + Z.of_nat n) r s.
Definition tokens (n : Z) : jval := JNum (Fin (inject_Z n)).
Definition room0 : string := "!room:example.org".
Definition input0 : RequestInput :=
  MkRequestInput (MkAsk (JStr room0) (JStr "coder") (JStr "@bo:example.org") (tokens 400) JNull JNull (JStr "$event1"))
    (JStr "Site") (JStr "ada") None (Some (Fin 1000)) true false true.
Definition trust0 : Op := OTrust (JStr room0) (JStr "Site") JUndef.
Definition offer0 : Op := OOffer (JStr "coder") (tokens 2) (tokens 500) JNull (JBool true) JUndef.

Definition run (ops : list (Env * Op)) (st : State) : State := foldl (λ s op, so_mem (exec n0 s0 h0 l0 op s)) st ops.
Definition store0 : State := run [(env 10 "a" SaveDone, trust0); (env 20 "b" SaveDone, offer0)] empty.
Definition store1 : State := run [(env 30 "c" SaveDone, OCreate input0)] store0.
Definition id1 : string := "en_u_c".

Lemma empty_wf : wf empty.
Proof. by split; try apply NoDup_nil_2; simpl; try lia. Qed.

Lemma exec_wf op st : wf st → pre n0 s0 op st → wf (so_mem (exec n0 s0 h0 l0 op st)).
Proof. intros Hwf Hpre. eapply effect_wf; [done|by apply (exec_effect n0 s0 h0 l0)]. Qed.

Lemma store0_wf : wf store0.
Proof. unfold store0, run. cbn [foldl]. apply exec_wf; [apply exec_wf; [apply empty_wf|done]|done]. Qed.

Lemma store1_wf : wf store1.
Proof.
  unfold store1, run. cbn [foldl]. apply exec_wf; [apply store0_wf|]. cbn [pre fst snd]. by vm_compute.
Qed.

Example store1_joined : state <$> om_get id1 (engagements store1) = Some "active".
Proof. by vm_compute. Qed.

Definition world0 : world State Image := World store0 (image store0).
Definition create0 : Env * Op := (env 30 "c" SaveDone, OCreate input0).

Lemma create0_pre : pre n0 s0 create0 store0.
Proof. by vm_compute. Qed.

Lemma store0_committed a : committedFor a store0 = 0.
Proof. by vm_compute. Qed.

Lemma create0_within : within n0 s0 (λ _, 1000) create0.2 store0.
Proof. intros a _. rewrite store0_committed. done. Qed.

Lemma commitments_within_ceiling_witness :
  committedFor "ada" store1 = 400 ∧ committedFor "ada" store1 ≤ 1000.
Proof.
  split; [by vm_compute|].
  apply (commitments_within_ceiling n0 s0 h0 l0 (λ _, 1000) world0 (apply_out world0 (run_op n0 s0 h0 l0 create0 store0))).
  - apply rtc_once. exact (budget_step_intro n0 s0 h0 l0 (λ _, 1000) create0 world0 create0_pre create0_within).
  - apply store0_wf.
  - intros a. change (w_mem world0) with store0. rewrite store0_committed. done.
Defined.

Definition checked0 : Checked := MkChecked "Site" "coder" "@bo:example.org" 400 None (Some "ada").

Lemma auto_join_exactly_within_terms_witness :
  ∃ g, so_res (createRequest n0 s0 h0 (env 30 "c" SaveDone) input0 store0) = Ok g ∧ state g = "active".
Proof.
  destruct (auto_join_exactly_within_terms n0 s0 h0 (env 30 "c" SaveDone) input0 store0 room0 (Some "$event1") checked0)
    as (g & Hr & _ & _ & Hact & _); [done|by vm_compute|by vm_compute|].
  exists g. split; [exact Hr|]. apply Hact. split; [done|]. apply route_spec. by vm_compute.
Defined.

Lemma request_id_is_idempotent_witness :
  ∃ g, createRequest n0 s0 h0 (env 99 "z" SaveDone) input0 store1 = unchanged g store1.
Proof.
  destruct (om_get id1 (engagements store1)) as [g|] eqn:E; [|by vm_compute in E].
  assert (Ha : asks input0 room0 "$event1") by (repeat split; by vm_compute).
  destruct (request_id_is_idempotent n0 s0 h0 (env 99 "z" SaveDone) (env 99 "z" SaveDone) input0 store1 room0 "$event1"
              store1_wf Ha) as [H _].
  exists g. specialize (H g).
  assert (Hid : id g = id1) by exact (wf_id _ store1_wf _ _ E). rewrite Hid in H. specialize (H E).
  vm_compute in E. injection E as <-. specialize (H eq_refl).
  assert (Hd : String.eqb (requestDigest (default (newEngagement n0 h0 (env 0 "" SaveDone) input0 "" None checked0 "" false)
    (om_get id1 (engagements store1)))) (digestOf n0 h0 room0 (i_ask input0)) = true) by by vm_compute.
  revert H. match goal with |- (if ?b then _ else _) → _ => replace b with true by by vm_compute end. by intros [H _].
Defined.

Definition revoke0 : Env * Op := (env 50 "d" SaveDone, ORevoke (JStr id1) JUndef JUndef).
Definition revoke_fails : Env * Op := (env 50 "d" SaveThrew, ORevoke (JStr id1) JUndef JUndef).

Lemma store1_clock t r s : 31 < t → clock_ahead (env t r s) store1.
Proof.
  intros Ht k g Hk Hs. exfalso.
  assert (Hall : forallb (λ g, negb (String.eqb (state g) "ended")) (om_vals (engagements store1)) = true) by by vm_compute.
  rewrite forallb_elem in Hall. specialize (Hall g (om_get_vals _ _ _ Hk)). by rewrite Hs in Hall.
Qed.

Lemma engagement_life_cycle_witness :
  state <$> om_get id1 (engagements store1) = Some "active" ∧
  state <$> om_get id1 (engagements (so_mem (exec n0 s0 h0 l0 revoke0 store1))) = Some "ended" ∧
  match om_get id1 (engagements store1), om_get id1 (engagements (so_mem (exec n0 s0 h0 l0 revoke0 store1))) with
  | Some g, Some g' => evolves g g'
  | _, _ => True
  end.
Proof.
  split; [by vm_compute|]. split; [by vm_compute|].
  pose proof (engagement_life_cycle n0 s0 h0 l0 revoke0 store1 id1 store1_wf (store1_clock 50 "d" SaveDone eq_refl)) as H.
  destruct (om_get id1 (engagements store1)); [|done]. by destruct (om_get id1 _).
Defined.

Lemma engagement_store_in_step_witness :
  wf store1 ∧ w_disk (apply_out world0 (run_op n0 s0 h0 l0 create0 store0)) = image store1.
Proof.
  apply (engagement_store_in_step n0 s0 h0 l0 world0 (apply_out world0 (run_op n0 s0 h0 l0 create0 store0))).
  - apply rtc_once. exact (@st_step_intro _ _ _ _ (engagement_store n0 s0 h0 l0) create0 world0 create0_pre).
  - apply store0_wf.
  - done.
Defined.

Lemma failed_write_restores_store_witness :
  so_res (exec n0 s0 h0 l0 revoke_fails store1) = Throw "persistence_failed" ∧
  same (so_mem (exec n0 s0 h0 l0 revoke_fails store1)) store1.
Proof.
  split; [by vm_compute|].
  destruct (failed_write_restores_store n0 s0 h0 l0 revoke_fails store1 store1_wf (store1_clock 50 "d" SaveThrew eq_refl)) as [_ H];
    [done|exact H].
Defined.
