(* ===== verification/Ledger.v ===== *)
(** * The usage ledger ([lib/metering/ledger.js]): data and operations

    Per agent, the highest figures ever observed for each session, the folded remainder of sessions
    whose detail was given up, and the growth credited to each day and month. The theorems
    follow the module. Token counts are whole numbers as [int] makes them; the ledger as loaded is assumed to
    be one the module wrote. *)

From Stdlib Require Import ZArith QArith Qround Lia String Ascii.
From stdpp Require Import base list strings pretty.
From S2P Require Import Prelude OMap Json.
#[local] Open Scope stdpp_scope.

Module Ledger.

(** ** Token kinds ([lib/metering/parsers.js]) *)

Inductive kind : Type := input | output | cacheWrite | cacheRead.
#[export] Instance kind_eq_dec : EqDecision kind.
Proof. solve_decision. Defined.

Definition KINDS : list kind := [input; output; cacheWrite; cacheRead].
Definition CEILING_KINDS : list kind := [input; output; cacheWrite].
Definition kind_name (k : kind) : string :=
  match k with input => "input" | output => "output" | cacheWrite => "cacheWrite" | cacheRead => "cacheRead" end.

(** A figure for each kind. *)
Record Kinds : Type := MkKinds { k_input : Z; k_output : Z; k_cacheWrite : Z; k_cacheRead : Z }.
Definition kget (t : Kinds) (k : kind) : Z :=
  match k with input => k_input t | output => k_output t | cacheWrite => k_cacheWrite t | cacheRead => k_cacheRead t end.
Definition kinds_of (f : kind → Z) : Kinds := MkKinds (f input) (f output) (f cacheWrite) (f cacheRead).

Definition zero : Kinds := kinds_of (λ _, 0).
Definition sum (a b : Kinds) : Kinds := kinds_of (λ k, kget a k + kget b k).
Definition totalOf (t : Kinds) : Z := foldr (λ k n, kget t k + n) 0 KINDS.
Definition drawnOf (t : Kinds) : Z := foldr (λ k n, kget t k + n) 0 CEILING_KINDS.

Definition is_zero (t : Kinds) : bool := forallb (λ k, kget t k =? 0) KINDS.

(** ** Periods *)

Inductive period : Type := daily | monthly.

(** Year, month and day of a day number counted from 1970-01-01, in the proleptic Gregorian calendar. *)
Definition civil (days : Z) : Z * Z * Z :=
  let z := days + 719468 in
  let era := z / 146097 in
  let doe := z mod 146097 in
  let yoe := (doe - doe / 1460 + doe / 36524 - doe / 146096) / 365 in
  let doy := doe - (365 * yoe + yoe / 4 - yoe / 100) in
  let mp := (5 * doy + 2) / 153 in
  let d := doy - (153 * mp + 2) / 5 + 1 in
  let m := if mp <? 10 then mp + 3 else mp - 9 in
  let y := yoe + era * 400 + (if m <=? 2 then 1 else 0) in
  (y, m, d).

Definition pad2 (n : Z) : string := if n <? 10 then "0" +:+ pretty n else pretty n.

Definition periodKey (at_ : Z) (p : period) : string :=
  let '(y, m, d) := civil (at_ / 86400000) in
  match p with
  | daily => pretty y +:+ "-" +:+ pad2 m +:+ "-" +:+ pad2 d
  | monthly => pretty y +:+ "-" +:+ pad2 m
  end.

(** ** Rows *)

Record Session : Type := MkSession { s_kinds : Kinds; lastSeen : Z }.

Record Row : Type := MkRow {
  sessions : omap Session; retired : Kinds; retiredSessions : Z; regressions : Z;
  framework : option string; p_daily : omap Kinds; p_monthly : omap Kinds;
}.
#[export] Instance Row_settable : Settable Row := λ r,
  MkRow (sessions r) (retired r) (retiredSessions r) (regressions r) (framework r) (p_daily r) (p_monthly r).

Abbreviation State := (omap Row).

Definition emptyRow : Row := MkRow [] zero 0 0 None [] [].
Definition agentRow (name : string) (st : State) : Row := default emptyRow (om_get name st).

(** Fold the sessions seen least recently into the retired figures. *)
Definition retire (k : string) (row : Row) : Row :=
  match om_get k (sessions row) with
  | Some s => row <| retired := sum (retired row) (s_kinds s) |>
                  <| retiredSessions := retiredSessions row + 1 |>
                  <| sessions := om_del k (sessions row) |>
  | None => row
  end.

Definition seenAt (k : string) (row : Row) : Z :=
  match om_get k (sessions row) with Some s => lastSeen s | None => 0 end.

Section ledger.
Context (SESSIONS_PER_AGENT PERIODS_PER_AGENT : nat).

Definition surplus (row : Row) : list string :=
  let keys := om_keys (sessions row) in
  take (length keys - SESSIONS_PER_AGENT) (stable_sort (λ a b, seenAt a row <? seenAt b row) keys).

Definition prune (row : Row) : Row * nat :=
  (foldl (λ r k, retire k r) row (surplus row), length (surplus row)).

(** A bucket grows; past the cap the buckets with the smallest keys are dropped. *)
Definition addBucket (key : string) (delta : Kinds) (m : omap Kinds) : omap Kinds :=
  let m1 := obj_set key (sum (default zero (om_get key m)) delta) m in
  let keys := stable_sort String.ltb (om_keys m1) in
  foldl (λ m k, om_del k m) m1 (take (length keys - PERIODS_PER_AGENT) keys).

Definition addGrowth (at_ : Z) (delta : Kinds) (row : Row) : Row :=
  if is_zero delta then row else
  row <| p_daily := addBucket (periodKey at_ daily) delta (p_daily row) |>
      <| p_monthly := addBucket (periodKey at_ monthly) delta (p_monthly row) |>.

(** ** Observations *)

Record Observation : Type := MkObs {
  o_agent : option string; o_framework : option string; o_sessions : option (list (option string * jval));
}.

Context (num_str : num → string) (str_num : string → num).

(** [int(v)]: a number that is not negative, rounded down; anything else is zero. *)
Definition int (v : jval) : Z :=
  match to_number num_str str_num v with
  | Fin q => if Qle_bool 0 q then Qfloor q else 0
  | _ => 0
  end.

Definition observed (totals : jval) : Kinds := kinds_of (λ k, int (prop totals (kind_name k))).

(** What one reading adds to a mark, kind by kind. *)
Definition growth (seen mark : Kinds) : Kinds :=
  kinds_of (λ k, if kget mark k <? kget seen k then kget seen k - kget mark k else 0).
Definition raised (seen mark : Kinds) : Kinds := kinds_of (λ k, Z.max (kget mark k) (kget seen k)).
Definition grew (seen mark : Kinds) : bool := existsb (λ k, kget mark k <? kget seen k) KINDS.
Definition fell (seen mark : Kinds) : bool := existsb (λ k, kget seen k <? kget mark k) KINDS.

(** One session of one observation. The clock's readings are handed out in order and [n] counts them:
    a new mark is stamped before its growth is dated, an old one after. *)
Definition recordSession (now : nat → Z) (n : nat) (key : string) (totals : jval) (row : Row)
    : Row * bool * nat :=
  let seen := observed totals in
  match om_get key (sessions row) with
  | None =>
      (addGrowth (now (S n)) seen (row <| sessions := obj_set key (MkSession seen (now n)) (sessions row) |>),
       true, if is_zero seen then S n else S (S n))
  | Some prior =>
      let mark := s_kinds prior in
      let up := grew seen mark in
      let row1 := if up then addGrowth (now n) (growth seen mark) row else row in
      let n1 := if up then S n else n in
      let row2 := if fell seen mark then row1 <| regressions := regressions row1 + 1 |> else row1 in
      (row2 <| sessions := obj_set key (MkSession (raised seen mark) (now n1)) (sessions row2) |>,
       fell seen mark || up, S n1)
  end.

Fixpoint recordSessions (now : nat → Z) (n : nat) (l : list (option string * jval)) (row : Row)
    : Row * bool * nat :=
  match l with
  | [] => (row, false, n)
  | (key, totals) :: l' =>
      match truthy_opt key with
      | None => recordSessions now n l' row
      | Some k =>
          let '(row1, c1, n1) := recordSession now n k totals row in
          let '(row2, c2, n2) := recordSessions now n1 l' row1 in
          (row2, c1 || c2, n2)
      end
  end.

Definition opt_str_eqb (a b : option string) : bool := bool_decide (a = b).

(** One agent's part of a sweep. A row is created for it even if nothing is recorded. *)
Definition recordAgent (now : nat → Z) (n : nat) (o : Observation) (st : State) : State * bool * nat :=
  match truthy_opt (o_agent o), o_sessions o with
  | Some a, Some l =>
      let row := agentRow a st in
      let renamed := match truthy_opt (o_framework o) with
                     | Some f => negb (opt_str_eqb (framework row) (Some f))
                     | None => false
                     end in
      let row1 := if renamed then row <| framework := truthy_opt (o_framework o) |> else row in
      let '(row2, c, n') := recordSessions now n l row1 in
      let '(row3, dropped) := prune row2 in
      (obj_set a row3 st, renamed || c || (0 <? dropped)%nat, n')
  | _, _ => (st, false, n)
  end.

Fixpoint recordAll (now : nat → Z) (n : nat) (l : list Observation) (st : State) : State * bool :=
  match l with
  | [] => (st, false)
  | o :: l' =>
      let '(st1, c1, n1) := recordAgent now n o st in
      let '(st2, c2) := recordAll now n1 l' st1 in
      (st2, c1 || c2)
  end.

(** [record]: what it returns, the memory it leaves and what it hands to [persist], whose answer it
    does not look at. *)
Definition record (now : nat → Z) (l : list Observation) (st : State) : bool * State * option State :=
  let '(st', changed) := recordAll now 0 l st in (changed, st', if changed then Some st' else None).

End ledger.

(** ** Queries *)

Record Totals : Type := MkTotals {
  t_agent : string; t_framework : option string; totals : Kinds; total : Z; drawn : Z;
  t_sessions : nat; t_retired : Z; t_regressions : Z;
}.

Definition acc (row : Row) : Kinds := foldl (λ a s, sum a (s_kinds s)) (retired row) (om_vals (sessions row)).

Definition totalsFor (name : string) (st : State) : option Totals :=
  match om_get name st with
  | None => None
  | Some row =>
      Some (MkTotals name (framework row) (acc row) (totalOf (acc row)) (drawnOf (acc row))
              (length (sessions row)) (retiredSessions row) (regressions row))
  end.

Record Bucket : Type := MkBucket { b_period : period; b_key : string; b_totals : Kinds; b_total : Z; b_drawn : Z }.

Definition currentPeriod (name : string) (p : period) (at_ : Z) (st : State) : option Bucket :=
  match om_get name st with
  | None => None
  | Some row =>
      let key := periodKey at_ p in
      match om_get key (match p with daily => p_daily row | monthly => p_monthly row end) with
      | None => None
      | Some b => Some (MkBucket p key b (totalOf b) (drawnOf b))
      end
  end.

Definition sorted_names (st : State) : list string := stable_sort String.ltb (om_keys st).
Definition list_ (st : State) : list Totals := stdpp.base.omap (λ n, totalsFor n st) (sorted_names st).
Definition orphans (currentNames : list string) (st : State) : list string :=
  List.filter (λ n, negb (inb n currentNames)) (sorted_names st).

End Ledger.

(** ** The usage ledger: what its figures mean

    Marks are high-water marks, growth is credited once, pruning keeps the total and bounds the
    detail, no figure ever falls, and the one way a session is counted twice. *)

From Stdlib Require Import ZArith QArith Qround Lia String Ascii.
From stdpp Require Import base list strings.
From S2P Require Import Prelude OMap Json.
#[local] Open Scope stdpp_scope.

Import Ledger.

(** ** Figures *)

Lemma kget_kinds_of f k : kget (kinds_of f) k = f k.
Proof. by destruct k. Qed.
#[local] Hint Rewrite kget_kinds_of : kinds.

Lemma kinds_ext a b : (∀ k, kget a k = kget b k) → a = b.
Proof.
  intros H. pose proof (H input). pose proof (H output). pose proof (H cacheWrite). pose proof (H cacheRead).
  destruct a, b. simpl in *. congruence.
Qed.

Lemma KINDS_all k : k ∈ KINDS.
Proof. unfold KINDS. rewrite !elem_of_cons. destruct k; tauto. Qed.

(** One kind of an agent's total. *)
Notation mark k := (λ s, kget (s_kinds s) k).
Definition figure (k : kind) (row : Row) : Z := kget (retired row) k + om_sum (mark k) (sessions row).

Lemma acc_figure row k : kget (acc row) k = figure k row.
Proof.
  unfold acc, figure, om_sum. generalize (retired row). induction (om_vals (sessions row)) as [|s l IH]; intros a; simpl; [lia|].
  rewrite IH. unfold sum. rewrite kget_kinds_of. lia.
Qed.

Record row_ok (row : Row) : Prop := {
  ok_sessions : NoDup (om_keys (sessions row));
  ok_daily : NoDup (om_keys (p_daily row));
  ok_monthly : NoDup (om_keys (p_monthly row));
  ok_marks : ∀ key s k, om_get key (sessions row) = Some s → 0 ≤ kget (s_kinds s) k;
}.

Lemma emptyRow_ok : row_ok emptyRow.
Proof. split; try apply NoDup_nil_2. done. Qed.

(** ** Growth *)

Lemma addBucket_nodup cap key d m : NoDup (om_keys m) → NoDup (om_keys (addBucket cap key d m)).
Proof.
  intros Hnd. unfold addBucket. generalize (take (length (stable_sort String.ltb (om_keys (obj_set key (sum (default zero (om_get key m)) d) m))) - cap)
     (stable_sort String.ltb (om_keys (obj_set key (sum (default zero (om_get key m)) d) m)))).
  intros l. assert (H : NoDup (om_keys (obj_set key (sum (default zero (om_get key m)) d) m))) by auto with omap.
  revert H. generalize (obj_set key (sum (default zero (om_get key m)) d) m). induction l; simpl; auto with omap.
Qed.

Lemma addGrowth_rest cap t d row :
  sessions (addGrowth cap t d row) = sessions row ∧ retired (addGrowth cap t d row) = retired row.
Proof. unfold addGrowth. by destruct (is_zero d). Qed.

Lemma addGrowth_ok cap t d row : row_ok row → row_ok (addGrowth cap t d row).
Proof.
  intros [H1 H2 H3 H4]. unfold addGrowth. destruct (is_zero d); [done|].
  split; simpl; auto using addBucket_nodup.
Qed.

Section ledger.
Context (SESSIONS PERIODS : nat) (num_str : num → string) (str_num : string → num).

Notation observed := (observed num_str str_num).
Notation recordSession := (recordSession PERIODS num_str str_num).
Notation recordSessions := (recordSessions PERIODS num_str str_num).

Lemma int_nonneg v : 0 ≤ int num_str str_num v.
Proof.
  unfold int. destruct (to_number _ _ v) as [| |q]; [done..|]. destruct (Qle_bool 0 q) eqn:E; [|done].
  apply Qle_bool_iff in E. change 0 with (Qfloor 0). by apply Qfloor_resp_le.
Qed.

Lemma observed_nonneg v k : 0 ≤ kget (observed v) k.
Proof. unfold Ledger.observed. rewrite kget_kinds_of. apply int_nonneg. Qed.

(** The mark of a session, zero when there is none. *)
Definition mark_of (key : string) (row : Row) (k : kind) : Z := om_at (mark k) key (sessions row).

(** What one reading leaves: the mark raised to it, every other mark as it was, nothing retired. *)
Lemma recordSession_spec now n key v row row' c n' :
  row_ok row → recordSession now n key v row = (row', c, n') →
  row_ok row' ∧ retired row' = retired row ∧
  (∃ s, sessions row' = obj_set key s (sessions row) ∧ 
        ∀ k, kget (s_kinds s) k = Z.max (mark_of key row k) (kget (observed v) k)).
Proof.
  intros Hok. unfold Ledger.recordSession. pose proof (observed_nonneg v) as Hpos.
  destruct (om_get key (sessions row)) as [prior|] eqn:Hk.
  - intros [= <- <- <-].
    set (row1 := if grew (observed v) (s_kinds prior) then addGrowth PERIODS (now n) (growth (observed v) (s_kinds prior)) row else row).
    assert (H1 : row_ok row1 ∧ sessions row1 = sessions row ∧ retired row1 = retired row).
    { unfold row1. destruct (grew _ _); [|done]. split; [by apply addGrowth_ok|apply addGrowth_rest]. }
    destruct H1 as ([A1 A2 A3 A4] & Hs & Hr).
    set (row2 := if fell (observed v) (s_kinds prior) then _ else row1).
    assert (H2 : sessions row2 = sessions row ∧ retired row2 = retired row ∧ p_daily row2 = p_daily row1 ∧ p_monthly row2 = p_monthly row1).
    { unfold row2. by destruct (fell _ _). }
    destruct H2 as (Hs2 & Hr2 & Hd & Hm). cbn [sessions retired p_daily p_monthly over].
    rewrite Hs2. split; [|split; [done|]].
    + split; cbn [sessions p_daily p_monthly over]; rewrite ?Hs2, ?Hd, ?Hm; [apply om_nodup_obj_set, Hok|done|done|].
      intros key' s k. rewrite om_get_obj_set. destruct (String.eqb key key').
      * intros [= <-]. unfold raised. simpl. rewrite kget_kinds_of. specialize (Hpos k). lia.
      * apply Hok.
    + eexists. split; [done|]. intros k. simpl. unfold raised. rewrite kget_kinds_of. unfold mark_of, om_at. by rewrite Hk.
  - intros [= <- <- <-].
    match goal with |- context [addGrowth _ _ _ ?r] => set (row1 := r) end.
    destruct (addGrowth_rest PERIODS (now (S n)) (observed v) row1) as [Hs Hr]. rewrite Hr.
    assert (Hok1 : row_ok row1).
    { destruct Hok as [B1 B2 B3 B4]. split; simpl; auto with omap. intros key' s k. rewrite om_get_obj_set.
      destruct (String.eqb key key'); [intros [= <-]; apply Hpos|apply B4]. }
    split; [by apply addGrowth_ok|]. split; [done|]. exists (MkSession (observed v) (now n)). split; [by rewrite Hs|].
    intros k. simpl. unfold mark_of, om_at. rewrite Hk. specialize (Hpos k). lia.
Qed.

Lemma mark_of_set key key' s row' row k :
  sessions row' = obj_set key s (sessions row) →
  mark_of key' row' k = if String.eqb key key' then kget (s_kinds s) k else mark_of key' row k.
Proof. unfold mark_of, om_at. intros ->. rewrite om_get_obj_set. by destruct (String.eqb key key'). Qed.

(** The figure of an agent grows by exactly what a reading raises the session's mark by. *)
Lemma recordSession_figure now n key v row row' c n' k :
  row_ok row → recordSession now n key v row = (row', c, n') →
  figure k row' = figure k row + (mark_of key row' k - mark_of key row k).
Proof.
  intros Hok H. destruct (recordSession_spec _ _ _ _ _ _ _ _ Hok H) as (_ & Hr & s & Hs & _).
  rewrite (mark_of_set key key s row' row k Hs), String.eqb_refl. unfold figure. rewrite Hr, Hs.
  rewrite om_sum_set by apply Hok. unfold mark_of. lia.
Qed.

(** What a sweep says of one session: the largest reading of it. *)
Fixpoint highest (key : string) (l : list (option string * jval)) (k : kind) : Z :=
  match l with
  | [] => 0
  | (Some key', v) :: l' =>
      if truthy key' && String.eqb key' key then Z.max (kget (observed v) k) (highest key l' k) else highest key l' k
  | (None, _) :: l' => highest key l' k
  end.

Lemma highest_nonneg key l k : 0 ≤ highest key l k.
Proof.
  induction l as [|[[key'|] v] l IH]; simpl; [done| |done]. case_match; [|done].
  pose proof (observed_nonneg v k). lia.
Qed.

Lemma recordSessions_marks now n l row row' c n' :
  row_ok row → recordSessions now n l row = (row', c, n') →
  row_ok row' ∧ retired row' = retired row ∧
  ∀ key k, mark_of key row' k = Z.max (mark_of key row k) (highest key l k).
Proof.
  revert n row row' c n'. induction l as [|[key v] l IH]; intros n row row' c n' Hok; simpl.
  - intros [= <- <- <-]. split; [done|]. split; [done|]. intros key k. 
    assert (0 ≤ mark_of key row k); [|lia]. unfold mark_of, om_at. destruct (om_get key _) eqn:E; [|done]. by eapply ok_marks.
  - destruct key as [key|]; simpl; [|by apply IH]. destruct (truthy key) eqn:Ht; simpl; [|by apply IH].
    destruct (recordSession now n key v row) as [[row1 c1] n1] eqn:E1.
    destruct (recordSessions now n1 l row1) as [[row2 c2] n2] eqn:E2. intros [= <- <- <-].
    destruct (recordSession_spec _ _ _ _ _ _ _ _ Hok E1) as (Hok1 & Hr1 & s & Hs & Hmax).
    destruct (IH _ _ _ _ _ Hok1 E2) as (Hok2 & Hr2 & Hm). split; [done|]. split; [congruence|].
    intros key' k. rewrite Hm, (mark_of_set key key' s row1 row k Hs).
    destruct (String.eqb_spec key key') as [<-|]; [rewrite Hmax; lia|done].
Qed.

(** ** Retiring sessions *)

Lemma retire_spec key row :
  row_ok row → row_ok (retire key row) ∧ (∀ k, figure k (retire key row) = figure k row) ∧
  sessions (retire key row) = om_del key (sessions row).
Proof using.
  intros [H1 H2 H3 H4]. unfold retire. destruct (om_get key (sessions row)) as [s|] eqn:Hk.
  - split; [|split; [|done]].
    + split; simpl; auto with omap. intros key' s' k. rewrite om_get_del. by destruct (String.eqb key key'); [|apply H4].
    + intros k. unfold figure. simpl. unfold sum. rewrite kget_kinds_of.
      rewrite (om_sum_split _ key (sessions row)) by done. unfold om_at. rewrite Hk. lia.
  - split; [done|]. split; [done|]. by rewrite om_del_id.
Qed.

Lemma om_del_length {V} key (m : omap V) :
  NoDup (om_keys m) → key ∈ om_keys m → S (length (om_del key m)) = length m.
Proof using.
  unfold om_keys. induction m as [|[k v] m IH]; csimpl; [by intros _ ?%elem_of_nil|].
  intros [Hni Hnd]%NoDup_cons [->|Hin]%elem_of_cons.
  - rewrite String.eqb_refl. simpl. rewrite om_del_id; [done|]. by apply om_get_None.
  - destruct (String.eqb_spec key k) as [->|]; [done|]. simpl. by rewrite IH.
Qed.

Lemma retire_all l row :
  row_ok row → NoDup l → (∀ key, key ∈ l → key ∈ om_keys (sessions row)) →
  let row' := foldl (λ r k, retire k r) row l in
  row_ok row' ∧ (∀ k, figure k row' = figure k row) ∧
  (length (sessions row') + length l = length (sessions row))%nat ∧
  (∀ key, key ∉ l → om_get key (sessions row') = om_get key (sessions row)).
Proof using.
  revert row. induction l as [|key l IH]; intros row Hok Hnd Hin; simpl; [rewrite Nat.add_0_r; by split_and!|].
  apply NoDup_cons in Hnd as [Hni Hnd]. destruct (retire_spec key row Hok) as (Hok1 & Hf1 & Hs1).
  destruct (IH (retire key row) Hok1 Hnd) as (Hok2 & Hf2 & Hl2 & Hg2).
  { intros key' Hk'. rewrite Hs1, om_keys_del. apply elem_of_filter_bool. split; [|by apply Hin; right].
    apply negb_true_iff, String.eqb_neq. by intros ->. }
  split; [done|]. split; [intros k; by rewrite Hf2|]. split.
  - rewrite Hs1 in Hl2. pose proof (om_del_length key (sessions row) (ok_sessions _ Hok) (Hin _ ltac:(left))). lia.
  - intros key' [Hne Hn]%not_elem_of_cons. rewrite Hg2 by done. rewrite Hs1. apply om_get_del_ne. congruence.
Qed.

(** Pruning keeps every figure and the marks that stay, and leaves no more sessions than the cap. *)
Lemma prune_spec row row' n :
  row_ok row → prune SESSIONS row = (row', n) →
  row_ok row' ∧ (∀ k, figure k row' = figure k row) ∧ (length (sessions row') ≤ SESSIONS ∨ row' = row)%nat ∧
  (length (sessions row) ≤ SESSIONS → row' = row)%nat ∧ (length (sessions row') ≤ SESSIONS)%nat ∧
  (∀ key s, om_get key (sessions row') = Some s → om_get key (sessions row) = Some s).
Proof using.
  intros Hok. unfold prune, surplus. set (keys := om_keys (sessions row)).
  set (sorted := stable_sort _ keys). intros [= <- <-].
  assert (Hp : sorted ≡ₚ keys) by apply stable_sort_perm.
  assert (Hlen : length keys = length (sessions row)) by (unfold keys, om_keys; apply length_fmap).
  assert (Hnd : NoDup (take (length keys - SESSIONS) sorted)).
  { eapply sublist_NoDup; [|apply sublist_take]. rewrite Hp. apply Hok. }
  assert (Hin : ∀ key, key ∈ take (length keys - SESSIONS) sorted → key ∈ keys).
  { intros key (i & Hi & _)%elem_of_take. rewrite <-Hp. by eapply list_elem_of_lookup_2. }
  destruct (retire_all _ row Hok Hnd Hin) as (H1 & H2 & H3 & H4).
  assert (Hll : length sorted = length keys) by by rewrite Hp.
  rewrite length_take in H3. split; [done|]. split; [done|]. split; [left; lia|]. split; [|split; [lia|]].
  - intros Hle. replace (length keys - SESSIONS)%nat with 0%nat by lia. done.
  - intros key s Hs. assert (Hn : key ∉ take (length keys - SESSIONS) sorted); [|by rewrite <-H4].
    intros Hk. assert (Hd : ∀ l r, key ∈ l ∨ om_get key (sessions r) = None →
      om_get key (sessions (foldl (λ r k, retire k r) r l)) = None).
    { clear. induction l as [|x l IH]; intros r Hr; simpl; [by destruct Hr as [?%elem_of_nil|]|]. apply IH.
      destruct (decide (x = key)) as [->|Hne].
      - right. unfold retire. destruct (om_get key (sessions r)) eqn:E; [|done]. simpl. apply om_get_del_eq.
      - destruct Hr as [[->|Hr]%elem_of_cons|Hr]; [done|by left|]. right. unfold retire.
        destruct (om_get x (sessions r)); [|done]. simpl. by rewrite om_get_del_ne. }
    by rewrite Hd in Hs by by left.
Qed.

(** ** Whole sweeps *)

Record state_ok (st : State) : Prop := {
  so_keys : NoDup (om_keys st);
  so_rows : ∀ a row, om_get a st = Some row → row_ok row;
}.

Lemma agentRow_ok a st : state_ok st → row_ok (agentRow a st).
Proof using.
  intros [_ H]. unfold agentRow. destruct (om_get a st) eqn:E; [by apply (H a)|apply emptyRow_ok].
Qed.

Lemma recordAgent_spec now n o st st' c n' :
  state_ok st → recordAgent SESSIONS PERIODS num_str str_num now n o st = (st', c, n') →
  state_ok st' ∧
  (∀ a k, figure k (agentRow a st) ≤ figure k (agentRow a st')) ∧
  (∀ a, o_agent o ≠ Some a → om_get a st' = om_get a st).
Proof.
  intros Hst. unfold recordAgent. destruct (truthy_opt (o_agent o)) as [a|] eqn:Ha.
  2: { intros [= <- <- <-]. by split_and!. }
  destruct (o_sessions o) as [l|]; [|intros [= <- <- <-]; by split_and!].
  set (renamed := match truthy_opt (o_framework o) with Some f => _ | None => false end).
  set (row1 := if renamed then _ else _).
  assert (Hok1 : row_ok row1 ∧ ∀ k, figure k row1 = figure k (agentRow a st)).
  { pose proof (agentRow_ok a st Hst) as Hok. unfold row1. destruct renamed; [|done]. by destruct Hok. }
  destruct (recordSessions now n l row1) as [[row2 c2] n2] eqn:E2.
  destruct (prune SESSIONS row2) as [row3 d] eqn:E3. intros [= <- <- <-].
  destruct Hok1 as [Hok1 Hf1].
  pose proof (recordSessions_marks _ _ _ _ _ _ _ Hok1 E2) as (Hok2 & Hr2 & Hm2).
  pose proof (prune_spec _ _ _ Hok2 E3) as (Hok3 & Hf3 & _).
  assert (Hle : ∀ k, figure k row1 ≤ figure k row2).
  { intros k. clear E3 Hok3 Hf3. revert Hok1 E2. clearbody row1. clear Hf1 Hok2 Hr2 Hm2.
    revert row1 row2 c2 n n2. induction l as [|[key v] l IH]; intros row1 row2 c2 n n2 Hok1; simpl.
    - intros [= <- <- <-]. done.
    - destruct (truthy_opt key) as [key'|]; [|by apply IH].
      destruct (recordSession now n key' v row1) as [[rowa ca] na] eqn:Ea.
      destruct (recordSessions now na l rowa) as [[rowb cb] nb] eqn:Eb. intros [= <- <- <-].
      destruct (recordSession_spec _ _ _ _ _ _ _ _ Hok1 Ea) as (Hoka & _ & s & Hs & Hmax).
      rewrite <-(IH rowa rowb cb na nb Hoka Eb).
      rewrite (recordSession_figure _ _ _ _ _ _ _ _ k Hok1 Ea).
      rewrite (mark_of_set key' key' s rowa row1 k Hs), String.eqb_refl, Hmax. lia. }
  split; [|split].
  - split; [apply om_nodup_obj_set, Hst|]. intros b row. rewrite om_get_obj_set.
    destruct (String.eqb a b); [by intros [= <-]|apply Hst].
  - intros b k. unfold agentRow at 2. rewrite om_get_obj_set. destruct (String.eqb_spec a b) as [<-|]; [|done].
    simpl. rewrite Hf3, <-Hf1. apply Hle.
  - intros b Hb. rewrite om_get_obj_set_ne; [done|]. intros ->. apply Hb.
    unfold truthy_opt in Ha. destruct (o_agent o) as [x|]; [|done]. by destruct (truthy x); [injection Ha as ->|].
Qed.

Lemma recordAll_spec now n l st st' c :
  state_ok st → recordAll SESSIONS PERIODS num_str str_num now n l st = (st', c) →
  state_ok st' ∧
  (∀ a k, figure k (agentRow a st) ≤ figure k (agentRow a st')) ∧
  (∀ a, (∀ o, o ∈ l → o_agent o ≠ Some a) → om_get a st' = om_get a st).
Proof.
  revert n st st' c. induction l as [|o l IH]; intros n st st' c Hst; simpl; [intros [= <- <-]; by split_and!|].
  destruct (recordAgent _ _ _ _ now n o st) as [[st1 c1] n1] eqn:E1.
  destruct (recordAll _ _ _ _ now n1 l st1) as [st2 c2] eqn:E2. intros [= <- <-].
  destruct (recordAgent_spec _ _ _ _ _ _ _ Hst E1) as (H1 & H2 & H3).
  destruct (IH _ _ _ _ H1 E2) as (H4 & H5 & H6). split; [done|]. split.
  - intros a k. etrans; [apply H2|apply H5].
  - intros a Ha. rewrite H6, H3; [done|apply Ha; by left|intros o' Ho'; apply Ha; by right].
Qed.

(** ** A sweep adds to an agent's figure exactly what it raises the marks by *)

Definition sum_over (l : list string) (f : string → Z) : Z := foldr (λ x n, f x + n) 0 l.

Lemma sum_over_ext l f g : (∀ x, x ∈ l → f x = g x) → sum_over l f = sum_over l g.
Proof using.
  induction l as [|x l IH]; intros H; simpl; [done|]. rewrite (H x), IH; [done| |by left].
  intros y Hy. apply H. by right.
Qed.

Lemma sum_over_add l f g : sum_over l (λ x, f x + g x) = sum_over l f + sum_over l g.
Proof using. induction l as [|x l IH]; simpl; [done|]. rewrite IH. lia. Qed.

Lemma sum_over_one l key f : NoDup l → key ∈ l → (∀ x, x ≠ key → f x = 0) → sum_over l f = f key.
Proof using.
  intros Hnd Hin H0. induction l as [|x l IH]; [by apply elem_of_nil in Hin|].
  apply NoDup_cons in Hnd as [Hni Hnd]. simpl. apply elem_of_cons in Hin as [->|Hin].
  - assert (Hz : sum_over l f = 0); [|lia].
    rewrite (sum_over_ext l f (λ _, 0)). { clear. induction l; simpl; lia. }
    intros y Hy. apply H0. by intros ->.
  - rewrite IH by done. rewrite H0; [lia|]. by intros ->.
Qed.

Lemma recordSessions_figure now n l row row' c n' keys k :
  row_ok row → recordSessions now n l row = (row', c, n') →
  NoDup keys → (∀ key v, (Some key, v) ∈ l → truthy key = true → key ∈ keys) →
  figure k row' = figure k row + sum_over keys (λ key, mark_of key row' k - mark_of key row k).
Proof.
  intros Hok H Hnd Hin. revert n row row' c n' Hok H.
  induction l as [|[key v] l IH]; intros n row row' c n' Hok; simpl.
  - intros [= <- <- <-]. rewrite (sum_over_ext _ _ (λ _, 0)) by (intros; lia). 
    assert (sum_over keys (λ _, 0) = 0); [|lia]. clear. induction keys; simpl; lia.
  - assert (Hin' : ∀ key v, (Some key, v) ∈ l → truthy key = true → key ∈ keys).
    { intros x w Hx. eapply Hin. by right. }
    destruct key as [key|]; simpl; [|by apply IH]. destruct (truthy key) eqn:Ht; [|by apply IH].
    destruct (recordSession now n key v row) as [[rowa ca] na] eqn:Ea.
    destruct (recordSessions now na l rowa) as [[rowb cb] nb] eqn:Eb. intros [= <- <- <-].
    destruct (recordSession_spec _ _ _ _ _ _ _ _ Hok Ea) as (Hoka & _ & s & Hs & _).
    rewrite (IH Hin' _ _ _ _ _ Hoka Eb), (recordSession_figure _ _ _ _ _ _ _ _ k Hok Ea).
    rewrite (sum_over_ext keys (λ key, mark_of key rowb k - mark_of key row k)
      (λ x, (mark_of x rowb k - mark_of x rowa k) + (mark_of x rowa k - mark_of x row k))) by (intros; lia).
    rewrite sum_over_add. rewrite (sum_over_one keys key (λ x, mark_of x rowa k - mark_of x row k)); [lia|done| |].
    + apply (Hin key v); [by left|done].
    + intros x Hne. rewrite (mark_of_set key x s rowa row k Hs). destruct (String.eqb_spec key x); [congruence|lia].
Qed.

(** What one agent's part of a sweep adds to its figure. *)
Lemma recordAgent_figure now n o st st' c n' a l keys k :
  state_ok st → truthy_opt (o_agent o) = Some a → o_sessions o = Some l →
  recordAgent SESSIONS PERIODS num_str str_num now n o st = (st', c, n') →
  NoDup keys → (∀ key v, (Some key, v) ∈ l → truthy key = true → key ∈ keys) →
  figure k (agentRow a st') = figure k (agentRow a st) +
    sum_over keys (λ key, Z.max (mark_of key (agentRow a st) k) (highest key l k) - mark_of key (agentRow a st) k) ∧
  (length (sessions (agentRow a st')) ≤ SESSIONS)%nat.
Proof.
  intros Hst Ha Hl. unfold recordAgent. rewrite Ha, Hl.
  set (renamed := match truthy_opt (o_framework o) with Some f => _ | None => false end).
  set (row1 := if renamed then _ else _).
  assert (H1 : row_ok row1 ∧ figure k row1 = figure k (agentRow a st) ∧ ∀ key, mark_of key row1 k = mark_of key (agentRow a st) k).
  { pose proof (agentRow_ok a st Hst) as Hok. unfold row1. destruct renamed; [|done]. by destruct Hok. }
  destruct H1 as (Hok1 & Hf1 & Hm1).
  destruct (recordSessions now n l row1) as [[row2 c2] n2] eqn:E2.
  destruct (prune SESSIONS row2) as [row3 d] eqn:E3. intros [= <- <- <-] Hnd Hin.
  pose proof (recordSessions_marks _ _ _ _ _ _ _ Hok1 E2) as (Hok2 & _ & Hm2).
  pose proof (prune_spec _ _ _ Hok2 E3) as (_ & Hf3 & _ & _ & Hlen & _).
  unfold agentRow. rewrite om_get_obj_set_eq. cbn [default]. split; [|done].
  rewrite Hf3, (recordSessions_figure _ _ _ _ _ _ _ _ k Hok1 E2 Hnd Hin).
  change (default emptyRow (om_get a st)) with (agentRow a st). rewrite Hf1. f_equal.
  apply sum_over_ext. intros key _. by rewrite Hm2, Hm1.
Qed.

(** C18. A sweep of an agent's transcripts, in any order and with any repetition, adds to each kind of
    the agent's total exactly the amount by which the largest reading of each session exceeds that
    session's mark: reading a session twice counts once, and a reading below the mark counts nothing.
    Folding sessions away at the end of the sweep changes no figure and leaves at most the cap. *)
Theorem sweep_counts_high_water now n o st st' c n' a l keys k :
  state_ok st → truthy_opt (o_agent o) = Some a → o_sessions o = Some l →
  recordAgent SESSIONS PERIODS num_str str_num now n o st = (st', c, n') →
  NoDup keys → (∀ key v, (Some key, v) ∈ l → truthy key = true → key ∈ keys) →
  figure k (agentRow a st') = figure k (agentRow a st) +
    sum_over keys (λ key, Z.max (mark_of key (agentRow a st) k) (highest key l k) - mark_of key (agentRow a st) k) ∧
  (length (sessions (agentRow a st')) ≤ SESSIONS)%nat.
Proof. exact (recordAgent_figure now n o st st' c n' a l keys k). Qed.

(** No figure of any agent ever falls, whatever a sweep reports: transcripts that shrink, vanish
    or are folded away leave the totals, and so what a ceiling is drawn by, at least where they were;
    agents the sweep does not mention are untouched, and what is handed to the file is the memory. *)
Theorem ledger_never_falls now l st a :
  state_ok st →
  let '(changed, st', written) := record SESSIONS PERIODS num_str str_num now l st in
  state_ok st' ∧
  (∀ k, figure k (agentRow a st) ≤ figure k (agentRow a st')) ∧
  drawnOf (acc (agentRow a st)) ≤ drawnOf (acc (agentRow a st')) ∧
  ((∀ o, o ∈ l → o_agent o ≠ Some a) → totalsFor a st' = totalsFor a st) ∧
  (written = if changed then Some st' else None).
Proof.
  intros Hst. unfold record. destruct (recordAll _ _ _ _ now 0 l st) as [st' c] eqn:E.
  destruct (recordAll_spec _ _ _ _ _ _ Hst E) as (H1 & H2 & H3). split; [done|]. split; [by apply H2|].
  split; [|split; [|done]].
  - unfold drawnOf, CEILING_KINDS. cbn [foldr]. rewrite !acc_figure. pose proof (H2 a input). pose proof (H2 a output).
    pose proof (H2 a cacheWrite). lia.
  - intros Ha. unfold totalsFor. by rewrite H3.
Qed.

(** ** Growth is credited to the current buckets *)

Lemma addBucket_sum t d k m :
  NoDup (om_keys m) → (length m < PERIODS)%nat →
  om_sum (λ b, kget b k) (addBucket PERIODS t d m) = om_sum (λ b, kget b k) m + kget d k.
Proof using.
  intros Hnd Hl. unfold addBucket. set (m1 := obj_set _ _ m).
  assert (Hlen : (length (om_keys m1) ≤ S (length m))%nat).
  { unfold om_keys. rewrite length_fmap. unfold m1, obj_set.
    assert (Hi : ∀ i v, length (index_insert i t v m) = S (length m)).
    { intros i v. pose proof (index_insert_keys i t v m) as Hp%Permutation_length. unfold om_keys in Hp. simpl in Hp.
      by rewrite !length_fmap in Hp. }
    destruct (om_has t m).
    - pose proof (om_keys_replace t (sum (default zero (om_get t m)) d) m) as E%(f_equal length). unfold om_keys in E.
      rewrite !length_fmap in E. lia.
    - destruct (array_index t); [by rewrite Hi|]. rewrite length_app. simpl. lia. }
  replace (length (stable_sort String.ltb (om_keys m1))) with (length (om_keys m1)).
  2: { apply Permutation_length. by rewrite stable_sort_perm. }
  replace (length (om_keys m1) - PERIODS)%nat with 0%nat by lia. simpl.
  unfold m1. rewrite om_sum_set by done. unfold sum. rewrite kget_kinds_of. unfold om_at.
  destruct (om_get t m); simpl; [lia|]. unfold zero. rewrite kget_kinds_of. lia.
Qed.

(** One kind of what the day or month buckets of an agent hold. *)
Definition credited (p : period) (k : kind) (row : Row) : Z :=
  om_sum (λ b, kget b k) (match p with daily => p_daily row | monthly => p_monthly row end).

Lemma is_zero_get d k : is_zero d = true → kget d k = 0.
Proof using. unfold is_zero. rewrite forallb_elem. intros H. by apply Z.eqb_eq, H, KINDS_all. Qed.

Lemma addGrowth_credit t d p k row :
  row_ok row → (length (p_daily row) < PERIODS)%nat → (length (p_monthly row) < PERIODS)%nat →
  credited p k (addGrowth PERIODS t d row) = credited p k row + kget d k.
Proof using.
  intros Hok Hd Hm. unfold addGrowth. destruct (is_zero d) eqn:E; [rewrite (is_zero_get d k E); lia|].
  unfold credited. destruct p; simpl; by rewrite addBucket_sum by (done || apply Hok).
Qed.

Lemma grew_false seen mark k : grew seen mark = false → kget seen k ≤ kget mark k.
Proof using.
  intros H. destruct (Z_lt_le_dec (kget mark k) (kget seen k)) as [Hlt|]; [|done]. exfalso.
  assert (Ht : grew seen mark = true); [|congruence]. apply existsb_exists. exists k.
  split; [apply list_elem_of_In, KINDS_all|]. by apply Z.ltb_lt.
Qed.

(** Whatever one reading adds to an agent's total is credited, once, to a day bucket and to a
    month bucket: while no bucket has been dropped, the buckets of either granularity grow by exactly
    what the total grows by, kind by kind, also when the reading fell or was seen before. *)
Theorem growth_is_credited_once now n key v row row' c n' p k :
  row_ok row → (length (p_daily row) < PERIODS)%nat → (length (p_monthly row) < PERIODS)%nat →
  recordSession now n key v row = (row', c, n') →
  credited p k row' - credited p k row = figure k row' - figure k row.
Proof.
  intros Hok Hd Hm Hrec. rewrite (recordSession_figure _ _ _ _ _ _ _ _ k Hok Hrec).
  destruct (recordSession_spec _ _ _ _ _ _ _ _ Hok Hrec) as (_ & _ & s & Hs & Hmax).
  rewrite (mark_of_set key key s row' row k Hs), String.eqb_refl, Hmax.
  clear s Hs Hmax. revert Hrec. unfold Ledger.recordSession. pose proof (observed_nonneg v k) as Hpos.
  unfold mark_of, om_at. destruct (om_get key (sessions row)) as [prior|] eqn:Hk.
  - intros H%(f_equal (λ x, x.1.1)). cbn [fst] in H. rewrite <-H.
    assert (Hf : ∀ (b : bool) (r : Row) x, credited p k ((if b then r <| regressions := regressions r + 1 |> else r) <| sessions := x |>) = credited p k r).
    { intros b r x. unfold credited. by destruct b, p. }
    rewrite Hf. destruct (grew (observed v) (s_kinds prior)) eqn:Hg.
    + rewrite addGrowth_credit by done. unfold growth. rewrite kget_kinds_of.
      destruct (Z.ltb_spec (kget (s_kinds prior) k) (kget (observed v) k)); lia.
    + pose proof (grew_false _ _ k Hg). lia.
  - intros H%(f_equal (λ x, x.1.1)). cbn [fst] in H. rewrite <-H. match goal with |- context [addGrowth _ _ _ ?r] => set (row1 := r) end.
    assert (Hok1 : row_ok row1).
    { destruct Hok as [B1 B2 B3 B4]. split; simpl; auto with omap. intros key' s' k'. rewrite om_get_obj_set.
      destruct (String.eqb key key'); [intros [= <-]; apply observed_nonneg|apply B4]. }
    rewrite addGrowth_credit by done. unfold row1, credited. destruct p; simpl; lia.
Qed.

(** ** The exception: a session that was folded away and is read again *)

(** Reading a session whose mark is present at its mark adds nothing; the same reading after the
    session was folded into the retired figures adds all of it again. *)
Lemma retired_session_counted_again now n key v row s k :
  row_ok row → om_get key (sessions row) = Some s → s_kinds s = observed v →
  figure k (recordSession now n key v row).1.1 = figure k row ∧
  figure k (recordSession now n key v (retire key row)).1.1 = figure k row + kget (s_kinds s) k.
Proof.
  intros Hok Hk Hs. pose proof (observed_nonneg v k) as Hpos. split.
  - destruct (recordSession now n key v row) as [[row' c] n'] eqn:E. simpl.
    rewrite (recordSession_figure _ _ _ _ _ _ _ _ k Hok E).
    destruct (recordSession_spec _ _ _ _ _ _ _ _ Hok E) as (_ & _ & s' & Hs' & Hmax).
    rewrite (mark_of_set key key s' row' row k Hs'), String.eqb_refl, Hmax. unfold mark_of, om_at. rewrite Hk, Hs. lia.
  - destruct (retire_spec key row Hok) as (Hok1 & Hf1 & Hs1).
    destruct (recordSession now n key v (retire key row)) as [[row' c] n'] eqn:E. simpl.
    rewrite (recordSession_figure _ _ _ _ _ _ _ _ k Hok1 E), Hf1.
    destruct (recordSession_spec _ _ _ _ _ _ _ _ Hok1 E) as (_ & _ & s' & Hs' & Hmax).
    rewrite (mark_of_set key key s' row' _ k Hs'), String.eqb_refl, Hmax. unfold mark_of, om_at.
    rewrite Hs1, om_get_del_eq, Hs. lia.
Qed.

End ledger.

(** ** Concrete sweeps *)

Definition n0 (_ : num) : string := "0".
Definition s0 (_ : string) : num := NaN.
Definition clock (n : nat) : Z := 1709164800000 + Z.of_nat n.
Definition usage (i o : Z) : jval :=
  JObj [("input", JNum (Fin (inject_Z i))); ("output", JNum (Fin (inject_Z o)))].
Definition sweep0 : Observation :=
  MkObs (Some "ada") (Some "claude") (Some [(Some "a", usage 100 10); (Some "b", usage 5 1); (Some "a", usage 90 12)]).
Definition sweep1 : Observation := MkObs (Some "ada") (Some "claude") (Some [(Some "a", usage 120 12)]).

Lemma nil_ok : state_ok [].
Proof. split; [apply NoDup_nil_2|done]. Qed.

Definition ledger0 : State := (recordAgent 500 14 n0 s0 clock 0 sweep0 []).1.1.

Lemma ledger0_ok : state_ok ledger0.
Proof.
  destruct (recordAgent 500 14 n0 s0 clock 0 sweep0 []) as [[st c] n] eqn:E.
  change ledger0 with ((recordAgent 500 14 n0 s0 clock 0 sweep0 []).1.1). rewrite E.
  by apply (recordAgent_spec _ _ _ _ _ _ _ _ _ _ _ nil_ok E).
Qed.

Lemma sweep_counts_high_water_witness :
  figure input (agentRow "ada" ledger0) = 105 ∧
  figure input (agentRow "ada" (recordAgent 500 14 n0 s0 clock 9 sweep1 ledger0).1.1) = 125.
Proof.
  split; [by vm_compute|].
  destruct (recordAgent 500 14 n0 s0 clock 9 sweep1 ledger0) as [[st c] n] eqn:E.
  destruct (sweep_counts_high_water 500 14 n0 s0 clock 9 sweep1 ledger0 st c n "ada" [(Some "a", usage 120 12)] ["a"] input
    ledger0_ok eq_refl eq_refl E) as [H _].
  - apply NoDup_singleton.
  - intros key v [= -> _]%list_elem_of_singleton _. by left.
  - cbn [fst]. rewrite H. by vm_compute.
Defined.

Lemma ledger_never_falls_witness :
  let r := record 500 14 n0 s0 clock [sweep1] ledger0 in
  r.1.1 = true ∧ drawnOf (acc (agentRow "ada" ledger0)) ≤ drawnOf (acc (agentRow "ada" r.1.2)).
Proof.
  intros r. split; [by vm_compute|].
  pose proof (ledger_never_falls 500 14 n0 s0 clock [sweep1] ledger0 "ada" ledger0_ok) as H. unfold r.
  destruct (record 500 14 n0 s0 clock [sweep1] ledger0) as [[c st] w]. apply H.
Defined.

Lemma growth_is_credited_once_witness :
  let row := agentRow "ada" ledger0 in
  credited daily input (recordSession 14 n0 s0 clock 9 "a" (usage 120 12) row).1.1 - credited daily input row = 20.
Proof.
  intros row. destruct (recordSession 14 n0 s0 clock 9 "a" (usage 120 12) row) as [[row' c] n'] eqn:E. cbn [fst].
  rewrite (growth_is_credited_once 14 n0 s0 clock 9 "a" (usage 120 12) row row' c n' daily input
    (agentRow_ok _ _ ledger0_ok)); [|vm_compute; lia|vm_compute; lia|exact E].
  assert (Hr : row' = (recordSession 14 n0 s0 clock 9 "a" (usage 120 12) row).1.1) by (by rewrite E).
  rewrite Hr. by vm_compute.
Defined.

Example retired_twice : figure input
    (recordSession 14 n0 s0 clock 9 "a" (usage 100 12) (retire "a" (agentRow "ada" ledger0))).1.1 = 205.
Proof. by vm_compute. Qed.
