(* ===== verification/Transcripts.v ===== *)
(** * Transcripts ([lib/metering/parsers.js])

    The token figures that the coding tools write to disk: for Claude one usage object per message,
    counted once per record, for Codex a running total of which the last one is the session's. The
    reading of a numeric string and the text of a number are arguments. *)

From Stdlib Require Import ZArith QArith Qround Lia String Ascii.
From stdpp Require Import base list strings.
From S2P Require Import Prelude OMap Json JsonParse Ledger.
#[local] Open Scope stdpp_scope.

Module Transcripts.
Import Ledger.

Definition newline : ascii := ascii_of_nat 10.

Section parsers.
Context (num_str : num → string) (str_num : string → num).
Abbreviation int := (Ledger.int num_str str_num).

(** [accumulate(a, b)], where the members of [b] are looked up under the names of the kinds. *)
Definition accumulate (a : Kinds) (b : kind → jval) : Kinds := kinds_of (λ k, kget a k + int (b k)).

(** [typeof v === 'string' && v], the string *)
Definition nonempty_str (v : jval) : option string :=
  match v with JStr s => if truthy s then Some s else None | _ => None end.

(** The lines that are looked at, each parsed; a line that is no JSON is skipped. *)
Definition records (text : string) : list jval :=
  List.flat_map (λ line, if truthy (trim line) then match json_parse str_num line with Ok v => [v] | Throw _ => [] end else [])
    (split_on newline text).

(** ** Claude *)

Record Claude : Type := MkClaude {
  c_cwd : option string; c_totals : Kinds; c_messages : nat; c_seen : list string; c_models : list string;
}.
#[export] Instance eta_claude : Settable Claude := λ c, MkClaude (c_cwd c) (c_totals c) (c_messages c) (c_seen c) (c_models c).

Definition usageOf (rec : jval) : jval := prop (prop rec "message") "usage".
Definition uuidOf (rec : jval) : option string := nonempty_str (prop rec "uuid").

Definition claudeKind (usage : jval) (k : kind) : jval :=
  match k with
  | input => prop usage "input_tokens"
  | output => prop usage "output_tokens"
  | cacheWrite => prop usage "cache_creation_input_tokens"
  | cacheRead => prop usage "cache_read_input_tokens"
  end.

(** [s.add(x)] *)
Definition add (x : string) (s : list string) : list string := if inb x s then s else s ++ [x].

Definition modelsAfter (rec : jval) (models : list string) : list string :=
  match prop (prop rec "message") "model" with JStr m => add m models | _ => models end.

(** What one record with a usage object does once it is known not to be a repetition. *)
Definition countUsage (rec : jval) (c : Claude) : Claude :=
  c <| c_models := modelsAfter rec (c_models c) |>
    <| c_totals := accumulate (c_totals c) (claudeKind (usageOf rec)) |>
    <| c_messages := S (c_messages c) |>.

(** Reading [cwd] of a line that is the JSON text [null] throws, while no directory is known. *)
Definition claudeCwd (rec : jval) (c : Claude) : result Claude :=
  match c_cwd c with
  | Some _ => Ok c
  | None => if is_nullish rec then Throw "TypeError" else Ok (c <| c_cwd := nonempty_str (prop rec "cwd") |>)
  end.

Definition claudeUsage (rec : jval) (c : Claude) : Claude :=
  if negb (to_bool (usageOf rec)) then c else
  match uuidOf rec with
  | Some id => if inb id (c_seen c) then c else countUsage rec (c <| c_seen := c_seen c ++ [id] |>)
  | None => countUsage rec c
  end.

Definition claudeRecord (rec : jval) (c : Claude) : result Claude :=
  let* c := claudeCwd rec c in Ok (claudeUsage rec c).

Definition claudeRecords (l : list jval) (c : Claude) : result Claude :=
  foldl (λ r rec, let* c := r in claudeRecord rec c) (Ok c) l.

Definition claude0 : Claude := MkClaude None zero 0 [] [].

(** The figures of a session; what one parser alone reports is in [extra]. *)
Record ClaudeSession : Type := MkClaudeSession {
  cs_cwd : option string; cs_totals : Kinds; cs_messages : nat; cs_models : list string; cs_undedupable : nat;
}.

Definition parseClaudeSession (text : string) : result ClaudeSession :=
  let* c := claudeRecords (records text) claude0 in
  Ok (MkClaudeSession (c_cwd c) (c_totals c) (c_messages c) (stable_sort String.ltb (c_models c)) (c_messages c - length (c_seen c))).

(** ** Codex *)

Record Codex : Type := MkCodex { x_cwd : option string; x_last : option jval; x_turns : nat; x_nonMonotonic : nat; x_prev : Z }.
#[export] Instance eta_codex : Settable Codex := λ x, MkCodex (x_cwd x) (x_last x) (x_turns x) (x_nonMonotonic x) (x_prev x).

(** [rec?.payload?.info?.total_token_usage] when it is an object *)
Definition totalUsage (rec : jval) : option jval :=
  match prop (prop (prop rec "payload") "info") "total_token_usage" with
  | (JObj _ | JArr _) as v => Some v
  | _ => None
  end.

Definition totalTokens (usage : jval) : Z := int (prop usage "total_tokens").

Definition codexRecord (x : Codex) (rec : jval) : Codex :=
  let x := match x_cwd x with
           | Some _ => x
           | None => x <| x_cwd := nonempty_str (prop (prop rec "payload") "cwd") |>
           end in
  match totalUsage rec with
  | None => x
  | Some total =>
      let t := totalTokens total in
      x <| x_turns := if t =? x_prev x then x_turns x else S (x_turns x) |>
        <| x_nonMonotonic := if t <? x_prev x then S (x_nonMonotonic x) else x_nonMonotonic x |>
        <| x_prev := t |> <| x_last := Some total |>
  end.

Definition asKinds (t : jval) : Kinds :=
  let cached := int (prop t "cached_input_tokens") in
  MkKinds (Z.max 0 (int (prop t "input_tokens") - cached)) (int (prop t "output_tokens")) 0 cached.

Record CodexSession : Type := MkCodexSession {
  xs_cwd : option string; xs_totals : Kinds; xs_turns : nat; xs_reasoningOutput : Z; xs_nonMonotonic : nat;
  xs_cumulativeTotal : Z; xs_agreesWithCli : option bool;
}.

Definition codex0 : Codex := MkCodex None None 0 0 (-1).

Definition parseCodexSession (text : string) : CodexSession :=
  let x := foldl codexRecord codex0 (records text) in
  let figure k := match x_last x with Some t => int (prop t k) | None => 0 end in
  MkCodexSession (x_cwd x) (match x_last x with Some t => asKinds t | None => zero end) (x_turns x)
    (figure "reasoning_output_tokens") (x_nonMonotonic x) (figure "total_tokens")
    ((λ t, int (prop t "input_tokens") + int (prop t "output_tokens") =? int (prop t "total_tokens")) <$> x_last x).

(** ** Frameworks *)

(** What the attribution reads of a parsed session. *)
Record Session : Type := MkSession { cwd : option string; totals : Kinds }.

(** [PARSERS[id]]: the members that a plain object inherits are found as well. *)
Inductive parser : Type := claude | codex | inherited.
Definition PARSERS (id : string) : option parser :=
  if String.eqb id "claude" then Some claude else if String.eqb id "codex" then Some codex
  else if inb id object_members then Some inherited else None.

(** [None] is the call of something that is no parser. *)
Definition parseSession (p : parser) (text : string) : option (result Session) :=
  match p with
  | claude => Some (let* s := parseClaudeSession text in Ok (MkSession (cs_cwd s) (cs_totals s)))
  | codex => let s := parseCodexSession text in Some (Ok (MkSession (xs_cwd s) (xs_totals s)))
  | inherited => None
  end.

Definition UNSUPPORTED (id : string) : option string :=
  if String.eqb id "octos" then
    Some "octos session files record no usage object and no cwd, so consumption can be neither counted nor attributed from them"
  else if String.eqb id "codex-acp" then Some "no transcript location verified for this adapter"
  else if String.eqb id "hermes" then Some "no transcript location verified for this adapter"
  else None.

Record Support : Type := MkSupport { sp_framework : string; sp_available : bool; sp_reason : option string }.

Definition meteringSupport (frameworkId : jval) : Support :=
  let id := lower (if is_nullish frameworkId then EmptyString else to_str num_str frameworkId) in
  match PARSERS id with
  | Some _ => MkSupport id true None
  | None => MkSupport id false (Some (default "no metering adapter exists for this framework" (UNSUPPORTED id)))
  end.

End parsers.
End Transcripts.

(** ** Transcripts: what the figures of a session are

    A Claude session counts every record once however often its transcript repeats it; a Codex session
    is its last running total. The list of the records that are counted is given by a reference
    function without the bookkeeping of the parser. *)

From Stdlib Require Import ZArith QArith Qround Lia String Ascii Sorted.
From stdpp Require Import base list strings.
From S2P Require Import Prelude OMap Json JsonParse Ledger.
Import Ledger Transcripts.
#[local] Open Scope stdpp_scope.

Lemma split_on_app c a b : split_on c (a +:+ String c b) = split_on c a ++ split_on c b.
Proof.
  induction a as [|d a IH].
  - change (EmptyString +:+ String c b) with (String c b). cbn [split_on]. by rewrite (proj2 (Ascii.eqb_eq c c) eq_refl).
  - change (String d a +:+ String c b) with (String d (a +:+ String c b)). cbn [split_on]. rewrite IH.
    destruct (Ascii.eqb c d); [done|]. destruct (split_on c a) eqn:E; [|done].
    exfalso. destruct a as [|e a]; cbn in E; [done|]. destruct (Ascii.eqb c e); [done|]. by destruct (split_on c a).
Qed.

Section facts.
Context (num_str : num → string) (str_num : string → num).
Abbreviation int := (Ledger.int num_str str_num).
Abbreviation parseClaude := (parseClaudeSession num_str str_num).
Abbreviation parseCodex := (parseCodexSession num_str str_num).
Abbreviation records := (Transcripts.records str_num).

Lemma records_app a b : records (a +:+ String newline b) = records a ++ records b.
Proof. unfold Transcripts.records. rewrite split_on_app, List.flat_map_app. done. Qed.

Lemma int_pos v : 0 ≤ int v.
Proof.
  unfold Ledger.int. destruct (to_number _ _ _) as [| |q]; try done. destruct (Qle_bool 0 q) eqn:E; [|done].
  apply Qle_bool_iff in E. change 0 with (Qfloor 0). by apply Qfloor_resp_le.
Qed.

Lemma kget_of f k : kget (kinds_of f) k = f k.
Proof. by destruct k. Qed.

(** ** Claude *)

Definition hasUsage (rec : jval) : bool := to_bool (usageOf rec).

(** The records that count after those whose ids are [seen]. *)
Fixpoint counted (seen : list string) (l : list jval) : list jval :=
  match l with
  | [] => []
  | r :: l' =>
      if negb (hasUsage r) then counted seen l' else
      match uuidOf r with
      | Some id => if inb id seen then counted seen l' else r :: counted (seen ++ [id]) l'
      | None => r :: counted seen l'
      end
  end.

Definition ids (l : list jval) : list string := List.flat_map (λ r, match uuidOf r with Some id => [id] | None => [] end) l.
Definition anonymous (r : jval) : bool := negb (is_Some_b (uuidOf r)).
Definition usageSum (l : list jval) (k : kind) : Z := foldr (λ r n, int (claudeKind (usageOf r) k) + n) 0 l.

Lemma usageSum_app l1 l2 k : usageSum (l1 ++ l2) k = usageSum l1 k + usageSum l2 k.
Proof. unfold usageSum. induction l1 as [|r l1 IH]; [done|]. cbn. rewrite IH. lia. Qed.

Lemma usageSum_pos l k : 0 ≤ usageSum l k.
Proof. induction l as [|r l IH]; [done|]. cbn. pose proof (int_pos (claudeKind (usageOf r) k)). fold (usageSum l k). lia. Qed.

Lemma counted_app seen l1 l2 : counted seen (l1 ++ l2) = counted seen l1 ++ counted (seen ++ ids (counted seen l1)) l2.
Proof.
  revert seen. induction l1 as [|r l1 IH]; intros seen; cbn [counted app]; [cbn; by rewrite app_nil_r|].
  destruct (hasUsage r); cbn [negb]; [|apply IH]. destruct (uuidOf r) as [id|] eqn:E.
  - destruct (inb id seen); [apply IH|]. rewrite IH. cbn. rewrite E. cbn. by rewrite <-app_assoc.
  - rewrite IH. cbn. by rewrite E.
Qed.

(** Nothing counts that has been seen, and what has an id counts at most once. *)
Lemma counted_ids seen l : NoDup (ids (counted seen l)) ∧ ∀ id, id ∈ ids (counted seen l) → id ∉ seen.
Proof.
  revert seen. induction l as [|r l IH]; intros seen; cbn [counted]; [split; [constructor|intros ? H; by apply elem_of_nil in H]|].
  destruct (hasUsage r); cbn [negb]; [|apply IH]. destruct (uuidOf r) as [id|] eqn:E.
  - destruct (inb id seen) eqn:Hi; [apply IH|]. destruct (IH (seen ++ [id])) as [H1 H2]. cbn. rewrite E. cbn. split.
    + constructor; [|done]. intros H%H2. apply H, elem_of_app. right. left.
    + intros i [->|Hin]%elem_of_cons; [rewrite <-inb_spec, Hi; done|]. apply H2 in Hin. intros ?. apply Hin, elem_of_app. by left.
  - cbn. rewrite E. cbn. apply IH.
Qed.

Lemma counted_complete seen l r id : r ∈ l → hasUsage r = true → uuidOf r = Some id → id ∈ seen ++ ids (counted seen l).
Proof.
  revert seen. induction l as [|x l IH]; intros seen; [by intros H%elem_of_nil|]. intros [->|Hin]%elem_of_cons Hu Hid; cbn [counted].
  - rewrite Hu. cbn [negb]. rewrite Hid. destruct (inb id seen) eqn:E; [apply elem_of_app; left; by apply inb_spec|].
    cbn. rewrite Hid. apply elem_of_app. right. left.
  - assert (IH' : ∀ seen, id ∈ seen ++ ids (counted seen l)) by (intros; by apply IH). clear IH. rename IH' into IH. destruct (hasUsage x); cbn [negb]; [|apply IH]. destruct (uuidOf x) as [i|] eqn:E.
    + destruct (inb i seen); [apply IH|]. specialize (IH (seen ++ [i])). cbn. rewrite E. cbn.
      rewrite <-app_assoc in IH. exact IH.
    + cbn. rewrite E. apply IH.
Qed.

Lemma counted_usage seen l r : r ∈ counted seen l → r ∈ l ∧ hasUsage r = true.
Proof.
  revert seen. induction l as [|x l IH]; intros seen; cbn [counted]; [by intros H%elem_of_nil|]. destruct (hasUsage x) eqn:E; cbn [negb].
  - assert (H : ∀ seen, r ∈ x :: counted seen l → r ∈ x :: l ∧ hasUsage r = true).
    { intros s [->|Hin]%elem_of_cons; [split; [left|done]|]. apply IH in Hin as [? ?]. split; [by right|done]. }
    destruct (uuidOf x); [destruct (inb _ _)|]; [|apply H..]. intros [? ?]%IH. split; [by right|done].
  - intros [? ?]%IH. split; [by right|done].
Qed.

Lemma counted_sublist seen l : sublist (counted seen l) l.
Proof.
  revert seen. induction l as [|x l IH]; intros seen; cbn [counted]; [constructor|]. destruct (hasUsage x); cbn [negb]; [|constructor; apply IH].
  destruct (uuidOf x); [destruct (inb _ _)|]; constructor; apply IH.
Qed.

Lemma counted_anonymous seen l : List.filter anonymous (counted seen l) = List.filter (λ r, hasUsage r && anonymous r) l.
Proof.
  revert seen. induction l as [|x l IH]; intros seen; cbn [counted List.filter]; [done|]. destruct (hasUsage x) eqn:Hu; cbn [negb andb]; [|apply IH].
  unfold anonymous at 2. destruct (uuidOf x) as [id|] eqn:E; cbn [is_Some_b negb].
  - destruct (inb id seen); [apply IH|]. cbn. unfold anonymous at 1. rewrite E. cbn. apply IH.
  - cbn. unfold anonymous at 1. rewrite E. cbn. f_equal. apply IH.
Qed.

Lemma counted_length seen l : length (counted seen l) = (length (ids (counted seen l)) + length (List.filter anonymous (counted seen l)))%nat.
Proof.
  generalize (counted seen l). intros K. induction K as [|r K IH]; [done|]. cbn. unfold anonymous at 1. fold (ids K). destruct (uuidOf r); cbn; lia.
Qed.

Lemma claudeCwd_rest rec c c' : claudeCwd rec c = Ok c' →
  c_totals c' = c_totals c ∧ c_messages c' = c_messages c ∧ c_seen c' = c_seen c ∧ c_models c' = c_models c.
Proof. unfold claudeCwd. destruct (c_cwd c); [by intros [= <-]|]. destruct (is_nullish rec); [done|]. by intros [= <-]. Qed.

Lemma claudeRecords_cons rec l c : claudeRecords num_str str_num (rec :: l) c = (let* c := claudeRecord num_str str_num rec c in claudeRecords num_str str_num l c)%js.
Proof.
  unfold claudeRecords. cbn [foldl bind]. destruct (claudeRecord _ _ rec c) as [c'|e]; [done|]. induction l as [|x l IH]; [done|exact IH].
Qed.

Lemma claude_counts l c c' : claudeRecords num_str str_num l c = Ok c' → let K := counted (c_seen c) l in
  (∀ k, kget (c_totals c') k = kget (c_totals c) k + usageSum K k) ∧ c_messages c' = (c_messages c + length K)%nat ∧ c_seen c' = c_seen c ++ ids K.
Proof.
  revert c. induction l as [|r l IH]; intros c; cbv zeta.
  { intros [= <-]. cbn. split_and!; [intros; lia|lia|by rewrite app_nil_r]. }
  rewrite claudeRecords_cons. unfold claudeRecord. intros (c1 & (c0 & H0 & [= <-])%bind_Ok & H)%bind_Ok.
  apply claudeCwd_rest in H0 as (Ht & Hm & Hs & _). apply IH in H as (A & B & C). clear IH. rewrite <-Hs.
  setoid_rewrite <-Ht. rewrite <-Hm. clear Ht Hm Hs. revert A B C. unfold claudeUsage. fold (hasUsage r).
  cbn [counted]. destruct (hasUsage r); cbn [negb]; [|done].
  assert (Hstep : ∀ seen' i, c_seen c0 ++ i = seen' → let c1 := countUsage num_str str_num r (c0 <| c_seen := seen' |>) in
    (∀ k, kget (c_totals c') k = kget (c_totals c1) k + usageSum (counted (c_seen c1) l) k) →
    c_messages c' = (c_messages c1 + length (counted (c_seen c1) l))%nat → c_seen c' = c_seen c1 ++ ids (counted (c_seen c1) l) →
    (∀ k, kget (c_totals c') k = kget (c_totals c0) k + usageSum (r :: counted seen' l) k) ∧
    c_messages c' = (c_messages c0 + length (r :: counted seen' l))%nat ∧ c_seen c' = c_seen c0 ++ i ++ ids (counted seen' l)).
  { intros seen' i <- c1 A B C. split_and!; [|etrans; [exact B|cbn; lia]|etrans; [exact C|by rewrite app_assoc]].
    intros k. rewrite A. change (c_totals c1) with (accumulate num_str str_num (c_totals c0) (claudeKind (usageOf r))). unfold accumulate. rewrite kget_of.
    change (usageSum (r :: counted (c_seen c0 ++ i) l) k) with (int (claudeKind (usageOf r) k) + usageSum (counted (c_seen c0 ++ i) l) k).
    change (c_seen c1) with (c_seen c0 ++ i). lia. }
  destruct (uuidOf r) as [id|] eqn:E.
  - destruct (inb id (c_seen c0)); [done|]. intros A B C. destruct (Hstep _ [id] eq_refl A B C) as (A' & B' & C'). split_and!; [done|done|].
    rewrite C'. cbn. by rewrite E.
  - intros A B C. destruct (Hstep (c_seen c0) [] ltac:(by rewrite app_nil_r) A B C) as (A' & B' & C'). split_and!; [done|done|].
    rewrite C'. cbn. by rewrite E.
Qed.

(** A Claude session is counted once, whatever its transcript repeats: the figures are the sums
    over some of the records, in their order, that report usage; among these no id occurs twice, every
    id of the transcript that reports usage occurs, and so does every record without an id, whose
    number is reported. *)
Theorem claude_records_counted_once text s :
  parseClaude text = Ok s →
  ∃ K, sublist K (records text) ∧ (∀ r, r ∈ K → hasUsage r = true) ∧ NoDup (ids K) ∧
    (∀ r id, r ∈ records text → hasUsage r = true → uuidOf r = Some id → id ∈ ids K) ∧
    List.filter anonymous K = List.filter (λ r, hasUsage r && anonymous r) (records text) ∧
    (∀ k, kget (cs_totals s) k = usageSum K k) ∧ cs_messages s = length K ∧
    cs_undedupable s = length (List.filter anonymous K).
Proof.
  unfold parseClaudeSession. intros (c & H & [= <-])%bind_Ok. cbn. apply claude_counts in H as (A & B & C). cbn -[counted kget usageSum] in A, B, C.
  exists (counted [] (records text)). destruct (counted_ids [] (records text)) as [Hn _]. split_and!; [apply counted_sublist| |exact Hn| |apply counted_anonymous| |exact B|].
  - intros r Hr. by apply counted_usage in Hr as [_ ?].
  - intros r id Hr Hu Hid. pose proof (counted_complete [] (records text) r id Hr Hu Hid) as Hin. exact Hin.
  - intros k. rewrite A. destruct k; cbn -[usageSum]; lia.
  - rewrite B, C. cbn [length app]. pose proof (counted_length [] (records text)). lia.
Qed.

(** Lines that only repeat records of a transcript change nothing, and lines that add to it never
    lower a figure. *)
Theorem claude_totals_grow a b s s' :
  parseClaude a = Ok s → parseClaude (a +:+ String newline b) = Ok s' →
  (∀ k, kget (cs_totals s) k ≤ kget (cs_totals s') k) ∧ (cs_messages s ≤ cs_messages s')%nat ∧
  ((∀ r, r ∈ records b → hasUsage r = true → ∃ id r', uuidOf r = Some id ∧ r' ∈ records a ∧ hasUsage r' = true ∧ uuidOf r' = Some id) →
   cs_totals s' = cs_totals s ∧ cs_messages s' = cs_messages s).
Proof.
  unfold parseClaudeSession. intros (c & H & [= <-])%bind_Ok (c' & H' & [= <-])%bind_Ok. cbn -[kget].
  apply claude_counts in H as (A & B & _), H' as (A' & B' & _). rewrite records_app in A', B'. cbn -[counted kget usageSum] in A, B, A', B'.
  setoid_rewrite counted_app in A'. rewrite counted_app in B'. cbn [app] in A', B'. set (K := counted [] (records a)) in *.
  split_and!.
  - intros k. rewrite A, A', usageSum_app. pose proof (usageSum_pos (counted (ids K) (records b)) k). lia.
  - rewrite B, B', length_app. lia.
  - intros Hr. assert (Hnil : counted (ids K) (records b) = []).
    { assert (Hseen : ∀ r id, r ∈ records b → hasUsage r = true → uuidOf r = Some id → id ∈ ids K).
      { intros r id Hin Hu Hid. destruct (Hr r Hin Hu) as (id' & r' & Hid' & Hin' & Hu' & Hid''). assert (id' = id) as -> by congruence.
        exact (counted_complete [] (records a) r' id Hin' Hu' Hid''). }
      assert (Hno : ∀ r, r ∈ records b → hasUsage r = true → uuidOf r ≠ None) by (intros r Hin Hu E; destruct (Hr r Hin Hu) as (? & ? & ? & _); congruence).
      clear -Hseen Hno. induction (records b) as [|r l IH]; [done|]. cbn [counted].
      assert (IH' : counted (ids K) l = []) by (apply IH; intros; [eapply Hseen|apply Hno]; try done; by right). clear IH.
      destruct (hasUsage r) eqn:Hu; cbn [negb]; [|done]. destruct (uuidOf r) as [id|] eqn:E; [|exfalso; eapply Hno; [left|done|done]].
      rewrite (proj2 (inb_spec id (ids K))); [done|]. eapply Hseen; [left|done|done]. }
    rewrite Hnil, app_nil_r in B'. split; [|lia].
    assert (Hk : ∀ k, kget (c_totals c') k = kget (c_totals c) k) by (intros k; rewrite A, A', Hnil, app_nil_r; done).
    destruct (c_totals c), (c_totals c'). pose proof (Hk input). pose proof (Hk output). pose proof (Hk cacheWrite). pose proof (Hk cacheRead). cbn in *. congruence.
Qed.

(** The transcript is refused exactly when a line is the text [null] before any line names a directory. *)
Lemma claude_throws_iff l c : c_cwd c = None →
  (claudeRecords num_str str_num l c = Throw "TypeError" ↔
   ∃ l1 v l2, l = l1 ++ v :: l2 ∧ is_nullish v = true ∧ ∀ r, r ∈ l1 → nonempty_str (prop r "cwd") = None).
Proof.
  revert c. induction l as [|r l IH]; intros c Hc; [split; [done|intros (l1 & v & l2 & H & _); by destruct l1]|].
  rewrite claudeRecords_cons. unfold claudeRecord, claudeCwd. rewrite Hc. destruct (is_nullish r) eqn:Hr; cbn [bind].
  { split; [|done]. intros _. exists [], r, l. split_and!; [done|done|]. intros x Hx. by apply elem_of_nil in Hx. }
  set (c1 := claudeUsage _ _ _ _). assert (Hc1 : c_cwd c1 = nonempty_str (prop r "cwd")).
  { unfold c1, claudeUsage. destruct (negb _); [done|]. destruct (uuidOf r); [destruct (inb _ _)|]; done. }
  destruct (nonempty_str (prop r "cwd")) as [d|] eqn:Hd.
  - split.
    + assert (Hok : ∀ l c, c_cwd c = Some d → is_ok (claudeRecords num_str str_num l c) = true).
      { clear. induction l as [|x l IH]; intros c Hc; [done|]. rewrite claudeRecords_cons. unfold claudeRecord, claudeCwd. rewrite Hc. cbn [bind].
        apply IH. unfold claudeUsage. destruct (negb _); [done|]. destruct (uuidOf x); [destruct (inb _ _)|]; done. }
      intros H. specialize (Hok l c1 Hc1). by rewrite H in Hok.
    + intros (l1 & v & l2 & H & Hv & Hb). destruct l1 as [|x l1]; injection H as <- H; [by rewrite Hv in Hr|]. by rewrite (Hb r (list_elem_of_here _ _)) in Hd.
  - rewrite (IH c1 Hc1). split.
    + intros (l1 & v & l2 & -> & Hv & Hb). exists (r :: l1), v, l2. split_and!; [done|done|]. intros x [->|Hx]%elem_of_cons; [done|by apply Hb].
    + intros (l1 & v & l2 & H & Hv & Hb). destruct l1 as [|x l1]; injection H as <- H; [by rewrite Hv in Hr|]. exists l1, v, l2.
      split_and!; [done|done|]. intros y Hy. apply Hb. by right.
Qed.

(** ** Codex *)

(** The running totals of a transcript. *)
Definition usages (l : list jval) : list jval := List.flat_map (λ r, match totalUsage r with Some t => [t] | None => [] end) l.
Abbreviation total := (totalTokens num_str str_num).

(** How often a list of totals changes, beginning after [prev], and how often it falls. *)
Fixpoint changes (prev : Z) (l : list jval) : nat :=
  match l with [] => O | t :: l' => ((if (total t =? prev)%Z then 0 else 1) + changes (total t) l')%nat end.
Fixpoint falls (prev : Z) (l : list jval) : nat :=
  match l with [] => O | t :: l' => ((if (total t <? prev)%Z then 1 else 0) + falls (total t) l')%nat end.

Lemma codex_fold l x : let x' := foldl (codexRecord num_str str_num) x l in
  x_last x' = (match last (usages l) with Some t => Some t | None => x_last x end) ∧
  x_turns x' = (x_turns x + changes (x_prev x) (usages l))%nat ∧ x_nonMonotonic x' = (x_nonMonotonic x + falls (x_prev x) (usages l))%nat.
Proof.
  revert x. induction l as [|r l IH]; intros x; cbn [foldl usages List.flat_map]; [split_and!; cbn; [done|lia|lia]|]. cbv zeta.
  destruct (IH (codexRecord num_str str_num x r)) as (A & B & C). rewrite A, B, C. clear. fold (usages l). unfold codexRecord.
  set (x1 := match x_cwd x with Some _ => x | None => _ end).
  assert (H : x_last x1 = x_last x ∧ x_turns x1 = x_turns x ∧ x_nonMonotonic x1 = x_nonMonotonic x ∧ x_prev x1 = x_prev x) by (unfold x1; by destruct (x_cwd x)).
  destruct H as (H1 & H2 & H3 & H4). destruct (totalUsage r) as [t|]; cbn [app]; [|by rewrite H1, H2, H3, H4].
  cbn. rewrite H2, H3, H4. split_and!; [rewrite last_cons; by destruct (last (usages l))| |].
  - destruct (total t =? x_prev x); lia.
  - destruct (total t <? x_prev x); lia.
Qed.

Lemma falls_sorted l prev : falls prev l = O ↔ StronglySorted Z.le (prev :: (total <$> l)).
Proof.
  revert prev. induction l as [|t l IH]; intros prev; [split; [repeat constructor|done]|]. cbn [falls fmap list_fmap]. split.
  - intros H. destruct (Z.ltb_spec (total t) prev) as [|Hle]; [lia|]. assert (Hs := proj1 (IH (total t)) H).
    constructor; [exact Hs|]. apply StronglySorted_inv in Hs as [_ Hs]. constructor; [done|]. eapply Forall_impl; [exact Hs|]. cbn. intros; lia.
  - intros [Hs Hp]%StronglySorted_inv. apply Forall_cons in Hp as [Hp _]. destruct (Z.ltb_spec (total t) prev); [lia|]. by apply IH.
Qed.

(** A Codex session is the last running total of its transcript, whatever the earlier ones were:
    the figures are read off it, the cached part of the input apart; a turn is a change of the total,
    a fall is reported exactly when the totals do not rise throughout; and when the figures agree with
    the tool's own total, they add up to it exactly if no more was cached than read. *)
Theorem codex_session_is_last_total text :
  let s := parseCodex text in let U := usages (records text) in
  xs_turns s = changes (-1) U ∧
  (xs_nonMonotonic s = O ↔ StronglySorted Z.le (total <$> U)) ∧
  match last U with
  | None => xs_totals s = zero ∧ xs_cumulativeTotal s = 0 ∧ xs_agreesWithCli s = None
  | Some t =>
      xs_totals s = asKinds num_str str_num t ∧ xs_cumulativeTotal s = total t ∧
      (xs_agreesWithCli s = Some true →
       (totalOf (xs_totals s) = xs_cumulativeTotal s ↔ int (prop t "cached_input_tokens") ≤ int (prop t "input_tokens")))
  end.
Proof.
  cbv zeta. unfold parseCodexSession. destruct (codex_fold (records text) codex0) as (A & B & C). cbn [xs_turns xs_nonMonotonic xs_totals xs_cumulativeTotal xs_agreesWithCli].
  rewrite A, B, C. set (U := usages (records text)). split_and!; [done| |].
  - rewrite (falls_sorted U (-1)). split.
    + by intros [? _]%StronglySorted_inv.
    + intros H. constructor; [done|]. apply Forall_forall. intros z Hz. apply list_elem_of_fmap in Hz as (t & -> & _).
      pose proof (int_pos (prop t "total_tokens")). unfold totalTokens. lia.
  - destruct (last U) as [t|]; [|done]. split_and!; [done|done|]. cbn [fmap option_fmap option_map]. intros [= H%Z.eqb_eq].
    unfold totalOf, asKinds, totalTokens. cbn. rewrite <-H. pose proof (int_pos (prop t "cached_input_tokens")). lia.
Qed.

End facts.

(** ** A concrete transcript *)

Definition print_num (n : num) : string := match n with Fin q => pretty.pretty (Qfloor q) | _ => "NaN" end.
Definition read_num (s : string) : num := match parseInt s with Some n => Fin (inject_Z n) | None => NaN end.
Definition line (v : jval) : string := default EmptyString (stringify print_num v).
Definition usage_line (id : jval) (n m : Z) : string :=
  line (JObj [("uuid", id); ("cwd", JStr "/w"); ("message", JObj [("usage", JObj [("input_tokens", JNum (Fin (inject_Z n))); ("cache_read_input_tokens", JNum (Fin (inject_Z m)))])])]).
Definition lines (l : list string) : string := join (String newline EmptyString) l.

Definition resumed : string := lines [usage_line (JStr "u1") 3 5; usage_line JNull 10 0; usage_line (JStr "u1") 3 5; usage_line (JStr "u2") 4 0].

Lemma claude_records_counted_once_witness :
  match parseClaudeSession print_num read_num resumed with
  | Ok s => kget (cs_totals s) input = 17 ∧ kget (cs_totals s) cacheRead = 5 ∧ cs_undedupable s = 1%nat ∧
            ∃ K, sublist K (Transcripts.records read_num resumed) ∧ NoDup (ids K) ∧ cs_messages s = length K
  | Throw _ => False
  end.
Proof.
  destruct (parseClaudeSession print_num read_num resumed) as [s|e] eqn:E; [|by vm_compute in E].
  split_and!; [by vm_compute in E; injection E as <-..|].
  destruct (claude_records_counted_once print_num read_num resumed s E) as (K & H1 & _ & H3 & _ & _ & _ & H7 & _). by exists K.
Defined.

(** One line [null] at the head of a transcript fails the parse. *)
Lemma null_line_fails_parse : parseClaudeSession print_num read_num (lines ["null"; usage_line (JStr "u1") 3 5]) = Throw "TypeError".
Proof. by vm_compute. Qed.

Definition total_line (n i c o : Z) : string :=
  line (JObj [("payload", JObj [("cwd", JStr "/w"); ("info", JObj [("total_token_usage",
    JObj [("total_tokens", JNum (Fin (inject_Z n))); ("input_tokens", JNum (Fin (inject_Z i))); ("cached_input_tokens", JNum (Fin (inject_Z c))); ("output_tokens", JNum (Fin (inject_Z o)))])])])]).

Lemma codex_session_is_last_total_witness :
  let s := parseCodexSession print_num read_num (lines [total_line 10 8 2 2; total_line 10 8 2 2; total_line 25 20 12 5]) in
  totalOf (xs_totals s) = 25 ∧ xs_turns s = 2%nat ∧ xs_nonMonotonic s = 0%nat ∧ xs_totals s = MkKinds 8 5 0 12.
Proof.
  cbv zeta. set (text := lines _). pose proof (codex_session_is_last_total print_num read_num text) as (H & _ & _).
  rewrite H. split_and!; by vm_compute.
Defined.

(** The check that is reported as agreement with the tool's total passes although the figures do not
    add up to it. *)
Lemma agreement_without_sum :
  let s := parseCodexSession print_num read_num (total_line 10 4 7 6) in xs_agreesWithCli s = Some true ∧ totalOf (xs_totals s) = 13 ∧ xs_cumulativeTotal s = 10.
Proof. split_and!; by vm_compute. Qed.
