(* ===== verification/Attribution.v ===== *)
(** * Attribution ([lib/metering/attribute.js]): data and operations

    Which transcripts are an agent's: those whose own directory is the workspace recorded for it. The
    paths are POSIX paths and [process.cwd()] is an argument. The sessions that the injected reader
    yields are a list, and so is the fleet. *)

From Stdlib Require Import ZArith QArith Qround Lia String Ascii.
From stdpp Require Import base list strings pretty.
From S2P Require Import Prelude OMap Json JsonParse Ledger Transcripts.
#[local] Open Scope stdpp_scope.

(** ** Paths *)

Module Paths.

Definition slash : ascii := "/".
Definition absolute (p : string) : bool := String.prefix "/" p.

(** The parts of a path, without the empty ones and the dots; going above the root stays there, going
    above a relative path is kept when [above] says so. *)
Definition push_part (above : bool) (stack : list string) (part : string) : list string :=
  if negb (truthy part) || String.eqb part "." then stack else
  if String.eqb part ".." then
    match reverse stack with
    | top :: _ => if String.eqb top ".." then (if above then stack ++ [part] else stack) else removelast stack
    | [] => if above then [part] else []
    end
  else stack ++ [part].
Definition parts (above : bool) (p : string) : list string := foldl (push_part above) [] (split_on slash p).

(** [path.resolve(p)] in the directory [here], which is absolute. *)
Definition resolve (here p : string) : string :=
  "/" +:+ join "/" (parts false (if absolute p then p else here +:+ "/" +:+ p)).

Definition ends_with_slash (p : string) : bool :=
  match reverse (String.list_ascii_of_string p) with c :: _ => Ascii.eqb c slash | [] => false end.

(** [path.normalize(p)] *)
Definition normalize (p : string) : string :=
  if negb (truthy p) then "." else
  let body := join "/" (parts (negb (absolute p)) p) in
  let body := if truthy body then body else if absolute p then EmptyString else "." in
  let body := if ends_with_slash p && truthy body then body +:+ "/" else body in
  if absolute p then "/" +:+ body else body.

(** [path.join(...ps)] *)
Definition path_join (ps : list string) : string :=
  let l := List.filter truthy ps in if (length l =? 0)%nat then "." else normalize (join "/" l).

Example joined : path_join ["/home/a"; ".claude"; "projects"; "-w-x"] = "/home/a/.claude/projects/-w-x" ∧ path_join [EmptyString; "a"; "../b"] = "b".
Proof. done. Qed.
Example resolved : map (resolve "/srv") ["/a//b/./c/../d/"; "x"; "/.."; EmptyString] = ["/a/b/d"; "/srv/x"; "/"; "/srv"].
Proof. done. Qed.

End Paths.

(** ** Agents *)

Module Attribution.
Import Ledger Transcripts Paths.

(** What a reader counts of its scan ([lib/metering/reader.js]). *)
Record Bounds : Type := MkBounds {
  filesSeen : nat; filesRead : nat; droppedByCount : nat; droppedByAge : nat; truncated : nat;
  unreadOutsideWindow : nat; entriesWalked : nat; entriesUnwalked : nat;
}.
#[export] Instance eta_bounds : Settable Bounds := λ b,
  MkBounds (filesSeen b) (filesRead b) (droppedByCount b) (droppedByAge b) (truncated b) (unreadOutsideWindow b)
    (entriesWalked b) (entriesUnwalked b).
Definition bounds0 : Bounds := MkBounds 0 0 0 0 0 0 0 0.

Section attribute.
Context (num_str : num → string) (str_num : string → num) (here : string).

(** [String(v ?? '')] *)
Definition text_or_empty (v : jval) : string := if is_nullish v then EmptyString else to_str num_str v.

Fixpoint dashes (s : string) : string :=
  match s with
  | EmptyString => EmptyString
  | String c s' => String (if Ascii.eqb c slash then "-"%char else c) (dashes s')
  end.

Definition claudeProjectDir (workspacePath : string) : option string :=
  if absolute workspacePath then Some (dashes workspacePath) else None.

Record Search : Type := MkSearch { dir : string; narrowed : bool; recursive : bool }.

Definition transcriptSearch (framework workspacePath homeDir : string) : option Search :=
  let f := lower framework in
  if String.eqb f "claude" then
    (λ d, MkSearch (path_join [homeDir; ".claude"; "projects"; d]) true false) <$> claudeProjectDir workspacePath
  else if String.eqb f "codex" then Some (MkSearch (path_join [homeDir; ".codex"; "sessions"]) false true)
  else None.

Definition agentTranscriptWorkspace (agent : jval) : option string :=
  let onDemand := strict_eq (prop (prop agent "runner") "mode") (JStr "on-demand") in
  let values := [prop agent "lastWorkspacePath"; prop agent "workspacePath"]
                ++ (if onDemand then [prop agent "workdir"; prop agent "homeDir"] else []) in
  head (List.filter truthy (List.map (λ v, match v with JStr s => trim s | _ => EmptyString end) values)).

(** What is reported of an agent. *)
Record Row : Type := MkRow {
  agent : jval; available : bool; framework : string; workspace : option string; reason : option string;
  totals : option Kinds; total : option Z; sessions : nat; skipped : nat; files : list (string * Kinds);
}.
#[export] Instance eta_row : Settable Row := λ r,
  MkRow (agent r) (available r) (framework r) (workspace r) (reason r) (totals r) (total r) (sessions r) (skipped r) (files r).

Definition unavailable (agent : jval) (framework : string) (workspace : option string) (reason : string) : Row :=
  MkRow agent false framework workspace (Some reason) None None 0 0 [].

Definition no_workspace : string :=
  "no workspace recorded for this agent, so its transcripts cannot be located; a running agent reports one and a stopped one may never have".

(** Whether a parsed session names the workspace. *)
Definition belongs (workspace : string) (s : Session) : bool :=
  match Transcripts.cwd s with Some d => String.eqb (resolve here d) (resolve here workspace) | None => false end.

(** The loop over the sessions: totals, files and how many were opened for nothing. *)
Fixpoint attribute (p : parser) (workspace : string) (l : list (string * string)) (acc : Kinds * list (string * Kinds) * nat)
    : result (Kinds * list (string * Kinds) * nat) :=
  match l with
  | [] => Ok acc
  | (file, text) :: l' =>
      match parseSession num_str str_num p text with
      | None => Throw "TypeError"
      | Some r =>
          let* s := r in
          let '(t, fs, sk) := acc in
          if belongs workspace s then attribute p workspace l' (sum t (Transcripts.totals s), fs ++ [(file, Transcripts.totals s)], sk)
          else attribute p workspace l' (t, fs, S sk)
      end
  end.

(** The reason when no transcript was the agent's: [unreached] candidates were never opened. The dash
    of the text is the long one. *)
Definition noMatchReason (skipped unreached : nat) : string :=
  let parts :=
    (if (0 <? skipped)%nat then ["opened " +:+ pretty (Z.of_nat skipped) +:+ " transcript(s), none of which recorded this workspace"] else [])
    ++ (if (0 <? unreached)%nat then
          [pretty (Z.of_nat unreached) +:+ " further candidate transcript(s) were never opened because the scan stopped at its bounds, so this is not evidence the agent did no work - raise HAGENCY_METERING_MAX_FILES to widen the scan"]
        else []) in
  if (length parts =? 0)%nat then "no transcripts found for this workspace yet" else join "; and " parts.

(** What the reader yields for a search, and its bounds afterwards. *)
Abbreviation reader := (Search → list (string * string) * Bounds).

(** The row of an agent, with the bounds of its reader. *)
Definition meterAgent (a : jval) (homeDir : string) (readSessions : reader) : result (Row * Bounds) :=
  let framework := lower (text_or_empty (prop a "type")) in
  let support := meteringSupport num_str (JStr framework) in
  let name := nullish_or (prop a "name") JNull in
  if negb (sp_available support) then Ok (unavailable name framework None (default EmptyString (sp_reason support)), bounds0) else
  match agentTranscriptWorkspace a with
  | None => Ok (unavailable name framework None no_workspace, bounds0)
  | Some workspace =>
      match transcriptSearch framework workspace homeDir, PARSERS framework with
      | Some search, Some p =>
          let '(l, bounds) := readSessions search in
          let* found := attribute p workspace l (zero, [], O) in
          let '(t, fs, sk) := found in
          if (length fs =? 0)%nat
          then Ok (unavailable (prop a "name") framework (Some workspace) (noMatchReason sk (droppedByCount bounds + entriesUnwalked bounds)), bounds)
          else Ok (MkRow (prop a "name") true framework (Some workspace) None (Some t) (Some (totalOf t)) (length fs) sk fs, bounds)
      | _, _ => Ok (unavailable (prop a "name") framework None ("no transcript location known for " +:+ framework), bounds0)
      end
  end.

(** ** The fleet *)

(** The rows of a workspace, by its resolved path. *)
Definition byWorkspace (rows : list Row) : omap (list jval) :=
  foldl (λ m r, match truthy_opt (workspace r) with
                | Some w => let key := resolve here w in om_set key (default [] (om_get key m) ++ [agent r]) m
                | None => m
                end) [] rows.

Definition sharedReason (others : list jval) : string :=
  "workspace is shared with " +:+ join ", " (List.map text_or_empty others)
  +:+ "; transcripts record the directory, not which agent ran there, so consumption cannot be attributed".

Definition withheld (shared : list jval) (r : Row) : Row :=
  r <| available := false |> <| totals := None |> <| total := None |>
    <| reason := Some (sharedReason (List.filter (λ a, negb (strict_eq a (agent r))) shared)) |>.

Definition settleRow (m : omap (list jval)) (r : Row) : Row :=
  match truthy_opt (workspace r) with
  | Some w =>
      match om_get (resolve here w) m with
      | Some shared => if (1 <? length shared)%nat then withheld shared r else r
      | None => r
      end
  | None => r
  end.

Record Fleet : Type := MkFleet {
  agents : list Row; f_totals : option Kinds; f_total : option Z; attributed : nat; unattributed : nat; f_reason : option string;
}.

Definition summarizeFleet (rows : list Row) : Fleet :=
  let out := List.map (settleRow (byWorkspace rows)) rows in
  let priced := List.filter available out in
  let t := foldl (λ t r, sum t (default zero (totals r))) zero priced in
  let n := (length out - length priced)%nat in
  MkFleet out (if (0 <? length priced)%nat then Some t else None) (if (0 <? length priced)%nat then Some (totalOf t) else None)
    (length priced) n
    (if (0 <? n)%nat then Some (pretty (Z.of_nat n) +:+ " of " +:+ pretty (Z.of_nat (length out)) +:+ " agents could not be attributed") else None).

End attribute.
End Attribution.
