(* ===== verification/Reader.v ===== *)
(** * Reading transcripts ([lib/metering/reader.js]): data and operations

    A directory tree is walked breadth first and the transcripts in it are read, newest first, within
    bounds that are counted; a fleet is metered from its readers and the answer is kept for a while.
    The tree does not change while it is scanned. The text of a bounds report writes its numbers in
    decimal; [localeCompare] is an argument. *)

From Stdlib Require Import ZArith QArith Qround Lia String Ascii.
From stdpp Require Import base list strings pretty.
From S2P Require Import Prelude OMap Json JsonParse Ledger Transcripts Attribution.
#[local] Open Scope stdpp_scope.

Module Reader.
Import Ledger Transcripts Paths Attribution.

(** ** The file system *)

(** A file with what [stat] and reading it give, or a directory with what listing it gives; [None] is
    a call that throws. *)
Inductive node : Type :=
| File (mtimeMs : option Q) (content : option string)
| Directory (entries : option (list (string * node))).

Fixpoint size (n : node) : nat :=
  match n with
  | File _ _ | Directory None => 1
  | Directory (Some l) => S (foldr (λ p k, (size p.2 + k)%nat) 0%nat l)
  end.

Record Limits : Type := MkLimits { l_now : Z; windowMs : Z; maxFiles : nat; maxBytes : nat; maxEntries : nat }.

Definition MAX_ENTRIES : nat := Z.to_nat 20000.
Definition WINDOW_MS : Z := 30 * 24 * 60 * 60 * 1000.
Definition MAX_FILES : nat := 200.
Definition MAX_BYTES : nat := Z.to_nat (8 * 1024 * 1024).
Definition CACHE_TTL_MS : Z := 60000.

Definition ends_with (suffix s : string) : bool :=
  String.eqb (drop_str (String.length s - String.length suffix) s) suffix.

Section reader.
Context (L : Limits).

(** One directory: the transcripts in it, the directories to descend into, and the bounds. *)
Fixpoint listEntries (rec : bool) (d : string) (l : list (string * node)) (b : Bounds)
    : list (string * node) * list (string * node) * Bounds :=
  match l with
  | [] => ([], [], b)
  | (name, n) :: l' =>
      if (maxEntries L <=? entriesWalked b)%nat then listEntries rec d l' (b <| entriesUnwalked := S (entriesUnwalked b) |>) else
      let '(out, queue, b') := listEntries rec d l' (b <| entriesWalked := S (entriesWalked b) |>) in
      let full := path_join [d; name] in
      match n with
      | Directory _ => (out, if rec then (full, n) :: queue else queue, b')
      | File _ _ => (if ends_with ".jsonl" name then (full, n) :: out else out, queue, b')
      end
  end.

(** The queue of directories; every round takes one, and [candidates_enough] shows that the number of
    nodes is enough fuel. *)
Fixpoint walk (fuel : nat) (rec : bool) (queue out : list (string * node)) (b : Bounds) : list (string * node) * Bounds :=
  match fuel, queue with
  | S fuel', (d, n) :: queue' =>
      match n with
      | Directory (Some l) =>
          let '(o, q, b') := listEntries rec d l b in walk fuel' rec (queue' ++ q) (out ++ o) b'
      | _ => walk fuel' rec queue' out b
      end
  | _, _ => (out, b)
  end.

Definition candidates (root : string * node) (rec : bool) (b : Bounds) : list (string * node) * Bounds :=
  walk (size root.2) rec [root] [] b.

Definition cutoff : Z := l_now L - windowMs L.

(** The candidates inside the window. *)
Fixpoint stamp (narrow : bool) (l : list (string * node)) (b : Bounds) : list (string * Q * option string) * Bounds :=
  match l with
  | [] => ([], b)
  | (file, File (Some t) content) :: l' =>
      let b := b <| filesSeen := S (filesSeen b) |> in
      if negb (Qle_bool (inject_Z cutoff) t) then
        stamp narrow l' (if narrow then b <| droppedByAge := S (droppedByAge b) |> else b <| unreadOutsideWindow := S (unreadOutsideWindow b) |>)
      else let '(out, b') := stamp narrow l' b in ((file, t, content) :: out, b')
  | _ :: l' => stamp narrow l' b
  end.

Definition newer (x y : string * Q * option string) : bool := negb (Qle_bool x.1.2 y.1.2).

(** [text.lastIndexOf('\n', n)] *)
Fixpoint last_newline (n : nat) (s : string) : option nat :=
  match s with
  | EmptyString => None
  | String c s' =>
      match (match n with S n' => last_newline n' s' | O => None end) with
      | Some i => Some (S i)
      | None => if Ascii.eqb c newline then Some O else None
      end
  end.

(** A text that is too long is cut before a line; without a line to cut before, the end of the slice
    is [-1] and only the last character goes. *)
Definition cut (text : string) : string :=
  match last_newline (maxBytes L) text with
  | Some i => slice_to i text
  | None => slice_to (String.length text - 1) text
  end.

Fixpoint readAll (l : list (string * Q * option string)) (b : Bounds) : list (string * string) * Bounds :=
  match l with
  | [] => ([], b)
  | (file, _, content) :: l' =>
      if (maxFiles L <=? filesRead b)%nat then readAll l' (b <| droppedByCount := S (droppedByCount b) |>) else
      match content with
      | None => readAll l' b
      | Some text =>
          let long := (maxBytes L <? String.length text)%nat in
          let b := if long then b <| truncated := S (truncated b) |> else b in
          let '(out, b') := readAll l' (b <| filesRead := S (filesRead b) |>) in
          ((file, if long then cut text else text) :: out, b')
      end
  end.

(** [fs] is what the directory of a search holds, if it exists. *)
Definition readSessions (fs : string → option node) (search : Search) : list (string * string) * Bounds :=
  match (if truthy (dir search) then fs (dir search) else None) with
  | None => ([], bounds0)
  | Some root =>
      let '(files, b1) := candidates (dir search, root) (recursive search) bounds0 in
      let '(stamped, b2) := stamp (narrowed search) files b1 in
      readAll (stable_sort newer stamped) b2
  end.

End reader.

(** ** What the bounds mean *)

Definition counted_text (n : nat) (what : string) : list string :=
  if (0 <? n)%nat then [pretty (Z.of_nat n) +:+ " " +:+ what] else [].

Definition boundsReport (b : Bounds) : option string :=
  let understates := counted_text (droppedByAge b) "transcript(s) older than the window" ++ counted_text (droppedByCount b) "transcript(s) beyond the file limit"
    ++ counted_text (truncated b) "transcript(s) truncated at the byte limit" ++ counted_text (entriesUnwalked b) "directory entr(ies) beyond the traversal limit" in
  let unknown := counted_text (unreadOutsideWindow b) "candidate transcript(s) fell outside the window in a search that could not be narrowed to one workspace, so whether any belong to this agent was never read" in
  if (length understates =? 0)%nat then
    if (length unknown =? 0)%nat then None else Some ("scan was bounded: " +:+ join "; " unknown)
  else
    let head := "scan was bounded and this figure understates consumption: " +:+ join "; " understates in
    Some (if (length unknown =? 0)%nat then head else head +:+ ". Separately, " +:+ join "; " unknown).

Definition addBounds (a b : Bounds) : Bounds :=
  MkBounds (filesSeen a + filesSeen b) (filesRead a + filesRead b) (droppedByCount a + droppedByCount b) (droppedByAge a + droppedByAge b)
    (truncated a + truncated b) (unreadOutsideWindow a + unreadOutsideWindow b) (entriesWalked a + entriesWalked b) (entriesUnwalked a + entriesUnwalked b).

(** ** A fleet *)

Record Metered : Type := MkMetered { m_fleet : Fleet; scanned : Bounds; boundsReason : option string; cached : bool; computedAt : Z }.

Record Cache : Type := MkCache { c_at : Z; c_key : option string; c_value : option Metered }.
Definition cache0 : Cache := MkCache 0 None None.
Definition resetMeteringCache (_ : Cache) : Cache := cache0.

Section fleet.
Context (num_str : num → string) (str_num : string → num) (here : string) (before : string → string → bool).

Definition fleetKey (agents : list jval) : string :=
  let row a := (text_or_empty num_str (prop a "name"),
                JArr [nullish_or (prop a "name") (JStr EmptyString); nullish_or (prop a "type") (JStr EmptyString);
                      JStr (default EmptyString (agentTranscriptWorkspace a))]) in
  default EmptyString (stringify num_str (JArr (List.map snd (stable_sort (λ x y, before x.1 y.1) (List.map row agents))))).

(** What one call meets: the clock when it starts and when it has finished, and for each agent the
    limits and the tree its reader sees. *)
Record Env : Type := MkEnv { e_start : Z; e_end : Z; e_limits : nat → Limits; e_fs : nat → string → option node }.

Fixpoint meterAll (e : Env) (homeDir : string) (i : nat) (agents : list jval) : result (list Row * Bounds) :=
  match agents with
  | [] => Ok ([], bounds0)
  | a :: l =>
      let* r := meterAgent num_str str_num here a homeDir (readSessions (e_limits e i) (e_fs e i)) in
      let* rest := meterAll e homeDir (S i) l in
      Ok (r.1 :: rest.1, addBounds r.2 rest.2)
  end.

Definition meterFleet (e : Env) (agents : list jval) (homeDir : string) (force : bool) (c : Cache) : result Metered * Cache :=
  let key := fleetKey agents in
  let hit := match c_value c, c_key c with
             | Some v, Some k => if negb force && String.eqb k key && (e_start e - c_at c <? CACHE_TTL_MS) then Some v else None
             | _, _ => None
             end in
  match hit with
  | Some v => (Ok (MkMetered (m_fleet v) (scanned v) (boundsReason v) true (c_at c)), c)
  | None =>
      match meterAll e homeDir 0 agents with
      | Throw x => (Throw x, c)
      | Ok (rows, b) =>
          let v := MkMetered (summarizeFleet num_str here rows) b (boundsReport b) false (e_end e) in
          (Ok v, MkCache (e_end e) (Some key) (Some v))
      end
  end.

(** ** The usage route ([GET /api/usage] of [backend-v2.js]) up to the ledger *)

Definition kindsJson (t : Kinds) : jval :=
  JObj (List.map (λ k, (kind_name k, JNum (Fin (inject_Z (kget t k))))) KINDS).

Definition observationOf (r : Row) : Ledger.Observation :=
  MkObs (match agent r with JStr s => Some s | _ => None end) (Some (framework r))
    (Some (List.map (λ f, (Some f.1, kindsJson f.2)) (files r))).

(** What the scan gave, the cache, and the ledger after what was seen for the first time is recorded. *)
Definition refreshUsage (S P : nat) (clock : nat → Z) (e : Env) (agents : list jval) (homeDir : string) (c : Cache) (ledger : Ledger.State)
    : result Metered * Cache * Ledger.State :=
  let '(metered, c') := meterFleet e agents homeDir false c in
  match metered with
  | Ok m => if cached m then (metered, c', ledger)
            else (metered, c', (record S P num_str str_num clock (List.map observationOf (List.filter available (Attribution.agents (m_fleet m)))) ledger).1.2)
  | Throw _ => (metered, c', ledger)
  end.

End fleet.
End Reader.

(** ** Reading transcripts: what a scan covers

    The breadth-first walk finds the transcripts that a plain recursion over the tree finds; a scan
    whose bounds report nothing has read all of them, and one that was bounded has read the newest. *)

From Stdlib Require Import ZArith QArith Qround Lia String Ascii Sorted.
From stdpp Require Import base list strings pretty.
From S2P Require Import Prelude OMap Json JsonParse Ledger Transcripts Attribution.
Import Paths Attribution Reader.
#[local] Open Scope stdpp_scope.

(** ** Sorting by a comparison *)

Section sorted.
Context {A : Type} (before : A → A → bool).
Hypothesis before_asym : ∀ x y, before x y = true → before y x = false.
Hypothesis before_trans : ∀ x y z, before y x = false → before z y = false → before z x = false.
Definition in_order (a b : A) : Prop := before b a = false.

Lemma sort_insert_in_order x l : StronglySorted in_order l → StronglySorted in_order (sort_insert before x l).
Proof using before_asym before_trans.
  induction 1 as [|y l Hs IH Hy]; cbn [sort_insert]; [by repeat constructor|]. destruct (before x y) eqn:E.
  - assert (Hyx : in_order x y) by by apply before_asym. constructor; [by constructor|]. constructor; [done|].
    eapply Forall_impl; [exact Hy|]. intros z Hz. by apply (before_trans x y z).
  - constructor; [done|]. rewrite sort_insert_perm. by constructor.
Qed.

Lemma stable_sort_in_order l : StronglySorted in_order (stable_sort before l).
Proof using before_asym before_trans.
  unfold stable_sort. assert (H : ∀ acc, StronglySorted in_order acc → StronglySorted in_order (foldl (λ s x, sort_insert before x s) acc l)).
  { induction l as [|x l IH]; intros acc Hacc; cbn; [done|]. by apply IH, sort_insert_in_order. }
  apply H. constructor.
Qed.
End sorted.

Lemma newer_asym x y : newer x y = true → newer y x = false.
Proof.
  unfold newer. intros H. apply negb_true_iff in H. apply negb_false_iff, Qle_bool_iff.
  destruct (Qlt_le_dec y.1.2 x.1.2) as [Hlt|Hle]; [by apply Qlt_le_weak|]. exfalso. apply Qle_bool_iff in Hle. congruence.
Qed.

Lemma newer_trans x y z : newer y x = false → newer z y = false → newer z x = false.
Proof.
  unfold newer. rewrite !negb_false_iff, !Qle_bool_iff. intros H1 H2. by eapply Qle_trans.
Qed.

Lemma strongly_sorted_app {A} (R : A → A → Prop) l1 l2 x y : StronglySorted R (l1 ++ l2) → x ∈ l1 → y ∈ l2 → R x y.
Proof.
  induction l1 as [|z l1 IH]; intros Hs Hx Hy; [by apply elem_of_nil in Hx|]. cbn in Hs. apply StronglySorted_inv in Hs as [Hs Hz].
  apply elem_of_cons in Hx as [->|Hx]; [|by apply IH]. rewrite Forall_forall in Hz. apply Hz, elem_of_app. by right.
Qed.

(** ** The walk *)

(** The transcripts below a directory, by recursion over the tree. *)
Fixpoint transcripts (rec : bool) (d : string) (n : node) : list (string * node) :=
  match n with
  | Directory (Some l) =>
      List.flat_map (λ p, let full := path_join [d; p.1] in
        match p.2 with
        | Directory _ => if rec then transcripts rec full p.2 else []
        | File _ _ => if ends_with ".jsonl" p.1 then [(full, p.2)] else []
        end) l
  | _ => []
  end.

Definition total_size (queue : list (string * node)) : nat := foldr (λ p k, (size p.2 + k)%nat) 0%nat queue.

Lemma size_pos n : (1 ≤ size n)%nat.
Proof. destruct n as [|[l|]]; cbn; lia. Qed.

Lemma total_size_app q1 q2 : total_size (q1 ++ q2) = (total_size q1 + total_size q2)%nat.
Proof. unfold total_size. induction q1 as [|x q1 IH]; [done|]. cbn. rewrite IH. lia. Qed.

(** The walk only counts entries. *)
Definition walked_only (b b' : Bounds) : Prop :=
  filesSeen b' = filesSeen b ∧ filesRead b' = filesRead b ∧ droppedByCount b' = droppedByCount b ∧ droppedByAge b' = droppedByAge b ∧
  truncated b' = truncated b ∧ unreadOutsideWindow b' = unreadOutsideWindow b.

Lemma walked_only_refl b : walked_only b b.
Proof. done. Qed.
Lemma walked_only_trans b1 b2 b3 : walked_only b1 b2 → walked_only b2 b3 → walked_only b1 b3.
Proof. unfold walked_only. intuition congruence. Qed.

Section scan.
Context (L : Limits).

Lemma list_spec rec d l b out q b' : listEntries L rec d l b = (out, q, b') →
  (total_size q ≤ foldr (λ p k, (size p.2 + k)%nat) 0%nat l)%nat ∧ (entriesUnwalked b ≤ entriesUnwalked b')%nat ∧
  walked_only b b' ∧
  (entriesUnwalked b' = entriesUnwalked b → out ++ flat_map (λ p, transcripts rec p.1 p.2) q ≡ₚ transcripts rec d (Directory (Some l))).
Proof.
  revert b out q b'. induction l as [|[name n] l IH]; intros b out q b'; cbn [listEntries].
  { intros [= <- <- <-]. split_and!; [cbn; lia|lia|done|done]. }
  destruct (maxEntries L <=? entriesWalked b)%nat.
  { intros H. apply IH in H as (A & B & C & D). cbn in A, B, C |- *. split_and!; [pose proof (size_pos n); lia|lia|exact C|].
    intros ?. exfalso. lia. }
  destruct (listEntries L rec d l _) as [[o k] b1] eqn:E. apply IH in E as (A & B & C & D). cbn -[size transcripts] in A, B, C, D.
  intros H. assert (Hb : b1 = b') by (destruct n; by injection H). subst b1. split_and!; [| |exact C|].
  - destruct n as [t c|es]; injection H as <- <-; cbn [foldr snd]; [lia|]. destruct rec; [|lia]. unfold total_size in *. cbn [foldr snd]. lia.
  - exact B.
  - intros Hu. specialize (D Hu). change (transcripts rec d (Directory (Some ((name, n) :: l)))) with
      ((match n with Directory _ => if rec then transcripts rec (path_join [d; name]) n else [] | File _ _ => if ends_with ".jsonl" name then [(path_join [d; name], n)] else [] end)
       ++ transcripts rec d (Directory (Some l))).
    destruct n as [t c|es]; injection H as <- <-.
    + destruct (ends_with ".jsonl" name); [|exact D]. cbn [app]. by constructor.
    + destruct rec; [|exact D]. cbn [flat_map fst snd]. rewrite app_assoc, (Permutation_app_comm o), <-app_assoc. by apply Permutation_app_head.
Qed.

Lemma walk_spec fuel rec queue out b files b' : (total_size queue ≤ fuel)%nat → walk L fuel rec queue out b = (files, b') →
  (entriesUnwalked b ≤ entriesUnwalked b')%nat ∧ walked_only b b' ∧
  (entriesUnwalked b' = entriesUnwalked b → files ≡ₚ out ++ flat_map (λ p, transcripts rec p.1 p.2) queue).
Proof.
  revert queue out b. induction fuel as [|fuel IH]; intros [|[d n] queue] out b Hf; cbn [walk].
  1,3: (intros [= <- <-]; split_and!; [lia|done|intros _; cbn; by rewrite app_nil_r]).
  { exfalso. cbn in Hf. pose proof (size_pos n). lia. }
  cbn [total_size foldr snd] in Hf. fold (total_size queue) in Hf. pose proof (size_pos n).
  destruct n as [t c|[l|]]; [|destruct (listEntries L rec d l b) as [[o q] b1] eqn:E|]; intros H1.
  - apply IH in H1 as (A & B & C); [|lia]. split_and!; [done|done|]. intros Hu. by apply C.
  - apply list_spec in E as (A & B & C & D). apply IH in H1 as (A' & B' & C').
    2:{ rewrite total_size_app. change (size (Directory (Some l))) with (S (foldr (λ p k, (size p.2 + k)%nat) 0%nat l)) in Hf. lia. }
    split_and!; [lia|by eapply walked_only_trans|]. intros Hu. rewrite C' by lia. rewrite flat_map_app, <-app_assoc. apply Permutation_app_head.
    rewrite app_assoc, (Permutation_app_comm o), <-app_assoc. rewrite D by lia. by rewrite Permutation_app_comm.
  - apply IH in H1 as (A & B & C); [|lia]. split_and!; [done|done|]. intros Hu. by apply C.
Qed.

(** The candidates of the window, and what is read of them. *)
Definition stampOf (p : string * node) : list (string * Q * option string) :=
  match p.2 with File (Some t) c => [(p.1, t, c)] | _ => [] end.
Definition inside (x : string * Q * option string) : bool := Qle_bool (inject_Z (cutoff L)) x.1.2.
Definition readOf (x : string * Q * option string) : list (string * string) :=
  match x.2 with Some text => [(x.1.1, if (maxBytes L <? String.length text)%nat then cut L text else text)] | None => [] end.
Definition tooLong (x : string * Q * option string) : bool :=
  match x.2 with Some text => (maxBytes L <? String.length text)%nat | None => false end.

Lemma stamp_spec narrow l b out b' : stamp L narrow l b = (out, b') →
  out = List.filter inside (flat_map stampOf l) ∧
  filesRead b' = filesRead b ∧ droppedByCount b' = droppedByCount b ∧ truncated b' = truncated b ∧ entriesUnwalked b' = entriesUnwalked b ∧
  (droppedByAge b' + unreadOutsideWindow b' = droppedByAge b + unreadOutsideWindow b + length (List.filter (λ x, negb (inside x)) (flat_map stampOf l)))%nat.
Proof.
  revert b out. induction l as [|[p n] l IH]; intros b out; cbn [stamp flat_map].
  { intros [= <- <-]. split_and!; done. }
  destruct n as [[t|] c|es]; cbn [stampOf snd fst app]; try apply IH. cbn [List.filter].
  change (Qle_bool (inject_Z (cutoff L)) t) with (inside (p, t, c)). destruct (inside (p, t, c)); cbn [negb].
  - destruct (stamp L narrow l _) as [o b1] eqn:E. intros [= <- <-]. apply IH in E as (-> & A & B & C & D & F). by split_and!.
  - intros H. apply IH in H as (-> & A & B & C & D & F). destruct narrow; cbn in *; split_and!; try done; lia.
Qed.

Lemma readAll_spec l b out b' : readAll L l b = (out, b') → (filesRead b ≤ maxFiles L)%nat →
  ∃ l1 l2, l = l1 ++ l2 ∧ out = flat_map readOf l1 ∧ droppedByCount b' = (droppedByCount b + length l2)%nat ∧
    filesRead b' = (filesRead b + length out)%nat ∧ (filesRead b' ≤ maxFiles L)%nat ∧
    truncated b' = (truncated b + length (List.filter tooLong l1))%nat ∧
    droppedByAge b' = droppedByAge b ∧ unreadOutsideWindow b' = unreadOutsideWindow b ∧ entriesUnwalked b' = entriesUnwalked b.
Proof.
  revert b out. induction l as [|[[p t] c] l IH]; intros b out; cbn [readAll].
  { intros [= <- <-] Hb. exists [], []. split_and!; try done; cbn; lia. }
  destruct (Nat.leb_spec (maxFiles L) (filesRead b)) as [Hge|Hlt].
  { intros H Hb. assert (Hall : ∀ l b out b', readAll L l b = (out, b') → filesRead b = maxFiles L →
      out = [] ∧ droppedByCount b' = (droppedByCount b + length l)%nat ∧ filesRead b' = filesRead b ∧ truncated b' = truncated b ∧
      droppedByAge b' = droppedByAge b ∧ unreadOutsideWindow b' = unreadOutsideWindow b ∧ entriesUnwalked b' = entriesUnwalked b).
    { clear. induction l as [|[[p t] c] l IH]; intros b out b'; cbn [readAll]; [intros [= <- <-] _; split_and!; try done; cbn; lia|].
      intros H Hm. rewrite Hm, Nat.leb_refl in H. apply IH in H as (-> & A & B & C & D & E & F); [|done]. cbn in *. split_and!; try done. lia. }
    apply Hall in H as (-> & A & B & C & D & E & F); [|cbn; lia]. cbn in *. exists [], ((p, t, c) :: l). split_and!; try done; cbn; lia. }
  destruct c as [text|].
  - destruct (readAll L l _) as [o b1] eqn:E. intros [= <- <-] Hb.
    apply IH in E as (l1 & l2 & -> & Ho & A & B & C & D & F & G & H); [|destruct (maxBytes L <? _)%nat; cbn; lia].
    exists ((p, t, Some text) :: l1), l2. split_and!; try done.
    + by rewrite Ho.
    + rewrite A. by destruct (maxBytes L <? _)%nat.
    + rewrite B. destruct (maxBytes L <? _)%nat; cbn; lia.
    + rewrite D. cbn [List.filter]. change (tooLong (p, t, Some text)) with (maxBytes L <? String.length text)%nat. destruct (maxBytes L <? _)%nat; cbn; lia.
    + rewrite F. by destruct (maxBytes L <? _)%nat.
    + rewrite G. by destruct (maxBytes L <? _)%nat.
    + rewrite H. by destruct (maxBytes L <? _)%nat.
  - intros H Hb. apply IH in H as (l1 & l2 & -> & -> & R); [|done]. exists ((p, t, None) :: l1), l2. split; [done|]; split; [done|exact R].
Qed.

(** Everything that a scan could read: the files below the directory of the search, with their times. *)
Definition readable (search : Search) (root : node) : list (string * Q * option string) :=
  flat_map stampOf (transcripts (recursive search) (dir search) root).

Lemma counted_nil n t : counted_text n t = [] ↔ n = O.
Proof. unfold counted_text. destruct (Nat.ltb_spec 0 n); split; [done|lia|lia|done]. Qed.

Lemma boundsReport_None b : boundsReport b = None ↔
  droppedByAge b = O ∧ droppedByCount b = O ∧ truncated b = O ∧ entriesUnwalked b = O ∧ unreadOutsideWindow b = O.
Proof.
  unfold boundsReport. cbv zeta. match goal with |- context [(length ?u =? 0)%nat] => set (under := u) end.
  match goal with |- context [if (length ?u =? 0)%nat then None else _] => set (unknown := u) end.
  assert (Hu : (length under =? 0)%nat = true ↔ droppedByAge b = O ∧ droppedByCount b = O ∧ truncated b = O ∧ entriesUnwalked b = O).
  { unfold under. rewrite Nat.eqb_eq, !length_app. rewrite <-(counted_nil (droppedByAge b) "transcript(s) older than the window"),
      <-(counted_nil (droppedByCount b) "transcript(s) beyond the file limit"), <-(counted_nil (truncated b) "transcript(s) truncated at the byte limit"),
      <-(counted_nil (entriesUnwalked b) "directory entr(ies) beyond the traversal limit"), <-!length_zero_iff_nil. lia. }
  assert (Hk : (length unknown =? 0)%nat = true ↔ unreadOutsideWindow b = O).
  { unfold unknown. rewrite Nat.eqb_eq, length_zero_iff_nil. apply counted_nil. }
  destruct (length under =? 0)%nat, (length unknown =? 0)%nat; split; try done; intros H; try (split_and!; tauto).
  - destruct H as (? & ? & ? & ? & H). by apply Hk in H.
  - exfalso. assert (false = true) by (apply Hu; tauto). done.
  - exfalso. assert (false = true) by (apply Hu; tauto). done.
Qed.
End scan.

Lemma flat_map_perm {A B} (f : A → list B) l l' : l ≡ₚ l' → flat_map f l ≡ₚ flat_map f l'.
Proof.
  induction 1 as [|x l l' _ IH|x y l|l1 l2 l3 _ IH1 _ IH2]; cbn; [done|by apply Permutation_app_head| |by etrans].
  by rewrite !app_assoc, (Permutation_app_comm (f y)).
Qed.

Lemma filter_bool_perm {A} (p : A → bool) l l' : l ≡ₚ l' → List.filter p l ≡ₚ List.filter p l'.
Proof.
  induction 1 as [|x l l' _ IH|x y l|l1 l2 l3 _ IH1 _ IH2]; cbn; [done| | |by etrans].
  - destruct (p x); [by f_equiv|done].
  - destruct (p x), (p y); try done. apply Permutation_swap.
Qed.

(** What a scan yields, in terms of everything that it could read. *)
Lemma scan_spec L fs search root out b : fs (dir search) = Some root → truthy (dir search) = true → readSessions L fs search = (out, b) →
  ∃ walked l1 l2,
    stable_sort newer (List.filter (inside L) walked) = l1 ++ l2 ∧ out = flat_map (readOf L) l1 ∧
    droppedByCount b = length l2 ∧ filesRead b = length out ∧ (length out ≤ maxFiles L)%nat ∧ truncated b = length (List.filter (tooLong L) l1) ∧
    (droppedByAge b + unreadOutsideWindow b)%nat = length (List.filter (λ x, negb (inside L x)) walked) ∧
    (entriesUnwalked b = O → walked ≡ₚ readable search root).
Proof.
  intros Hfs Hd. unfold readSessions. rewrite Hd, Hfs. unfold candidates.
  destruct (walk L _ _ _ _ _) as [files b1] eqn:E1. destruct (stamp L _ files b1) as [st b2] eqn:E2. intros E3.
  apply walk_spec in E1 as (_ & (_ & W2 & W3 & W4 & W5 & W6) & Hw); [|cbn; lia]. apply stamp_spec in E2 as (-> & A & B & C & D & F).
  apply readAll_spec in E3 as (l1 & l2 & G1 & G2 & G3 & G4 & G5 & G6 & G7 & G8 & G9); [|rewrite A, W2; cbn; lia].
  cbn in W2, W3, W4, W5, W6, Hw. exists (flat_map stampOf files), l1, l2. split_and!; try done; [lia|lia|lia|lia|lia|].
  intros Hu. unfold readable. apply flat_map_perm. rewrite Hw by lia. by rewrite app_nil_r.
Qed.

(** C24. A scan that reports no bound has read everything: if the bounds of a scan say nothing, what it
    yields is, each once and up to order, every readable transcript below the directory of the search,
    whole; the breadth-first walk with its queue finds what a recursion over the tree finds. *)
Theorem unreported_scan_is_complete L fs search root out b :
  fs (dir search) = Some root → truthy (dir search) = true → readSessions L fs search = (out, b) → boundsReport b = None →
  out ≡ₚ flat_map (λ x, match x.2 with Some text => [(x.1.1, text)] | None => [] end) (readable search root).
Proof.
  intros Hfs Hd Hr (H1 & H2 & H3 & H4 & H5)%boundsReport_None. destruct (scan_spec _ _ _ _ _ _ Hfs Hd Hr) as (walked & l1 & l2 & Hs & -> & A & _ & _ & B & C & D).
  assert (l2 = []) as -> by (apply length_zero_iff_nil; lia). rewrite app_nil_r in Hs. assert (Hp : l1 ≡ₚ readable search root).
  { rewrite <-Hs, stable_sort_perm, <-(D H4). assert (Hin : List.filter (λ x, negb (inside L x)) walked = []) by (apply length_zero_iff_nil; lia).
    clear -Hin. induction walked as [|x l IH]; [done|]. cbn in Hin |- *. destruct (inside L x); [by rewrite IH|done]. }
  rewrite (flat_map_perm (readOf L) _ _ Hp). assert (Hl : List.filter (tooLong L) (readable search root) = []).
  { apply length_zero_iff_nil. rewrite <-(Permutation_length (filter_bool_perm (tooLong L) _ _ Hp)). lia. }
  match goal with |- ?a ≡ₚ ?b => cut (a = b); [by intros ->|] end. clear -Hl. induction (readable search root) as [|x l IH]; [done|]. cbn [List.filter flat_map] in *.
  destruct (tooLong L x) eqn:E; [done|]. rewrite IH by done. f_equal. unfold readOf. unfold tooLong in E. destruct x.2; [by rewrite E|done].
Qed.

(** A bounded scan reads the newest: at most the limit of files is read, every candidate of the
    window that was not opened is counted and is no newer than any that was, what lies outside of the
    window is counted too, and a text is only ever cut to a part of it. *)
Theorem bounded_scan_reads_newest L fs search root out b :
  fs (dir search) = Some root → truthy (dir search) = true → readSessions L fs search = (out, b) →
  (length out ≤ maxFiles L)%nat ∧
  ∃ walked opened unopened,
    opened ++ unopened ≡ₚ List.filter (inside L) walked ∧ out = flat_map (readOf L) opened ∧
    (∀ x y, x ∈ opened → y ∈ unopened → (y.1.2 <= x.1.2)%Q) ∧ droppedByCount b = length unopened ∧
    (droppedByAge b + unreadOutsideWindow b)%nat = length (List.filter (λ x, negb (inside L x)) walked) ∧
    (entriesUnwalked b = O → walked ≡ₚ readable search root).
Proof.
  intros Hfs Hd Hr. destruct (scan_spec _ _ _ _ _ _ Hfs Hd Hr) as (walked & l1 & l2 & Hs & -> & A & _ & Hm & _ & C & D).
  split; [done|]. exists walked, l1, l2. split_and!; [by rewrite <-Hs, stable_sort_perm|done| |done|done|done].
  intros x y Hx Hy. pose proof (stable_sort_in_order newer newer_asym newer_trans (List.filter (inside L) walked)) as Hsort. rewrite Hs in Hsort.
  pose proof (strongly_sorted_app _ _ _ _ _ Hsort Hx Hy) as H. unfold in_order, newer in H. by apply negb_false_iff, Qle_bool_iff in H.
Qed.

(** A text is cut before a line, to no more than the limit, if it has a line end that early. *)
Lemma last_newline_spec n s i : last_newline n s = Some i → (i ≤ n)%nat ∧ ∃ rest, s = slice_to i s +:+ String Transcripts.newline rest.
Proof.
  revert n i. induction s as [|c s IH]; intros n i; [by destruct n|]. intros H.
  destruct n as [|n]; cbn [last_newline] in H; [|destruct (last_newline n s) as [j|] eqn:E].
  2:{ injection H as <-. apply IH in E as [Hj [rest Hr]]. split; [lia|]. exists rest. cbn [slice_to].
      change (String c s = String c (slice_to j s +:+ String Transcripts.newline rest)). congruence. }
  all: destruct (Ascii.eqb_spec c Transcripts.newline) as [->|]; [|done]; injection H as <-; split; [lia|]; by exists s.
Qed.

Lemma cut_spec L text : (∃ i, last_newline (maxBytes L) text = Some i) →
  (String.length (cut L text) ≤ maxBytes L)%nat ∧ ∃ rest, text = cut L text +:+ String Transcripts.newline rest.
Proof.
  intros [i E]. unfold cut. rewrite E. apply last_newline_spec in E as [Hi Hr]. split; [|done].
  pose proof (slice_to_length i text). lia.
Qed.

(** Without such a line end only the last character goes: the limit does not hold. *)
Lemma long_line_passes_limit :
  let L := MkLimits 0 0 10 4 10 in String.length (cut L "0123456789") = 9%nat ∧ (maxBytes L < 9)%nat.
Proof. split; [by vm_compute|cbn; lia]. Qed.

(** ** A concrete tree *)

Definition tree : node :=
  Directory (Some [("2026", Directory (Some [("01", Directory (Some [("a.jsonl", File (Some 10%Q) (Some "one")); ("note.txt", File (Some 11%Q) (Some "x"))]));
                                             ("c.jsonl", File (Some 30%Q) (Some "three"))]));
                   ("b.jsonl", File (Some 20%Q) (Some "two")); ("gone", Directory None)]).
Definition tree_fs (d : string) : option node := if String.eqb d "/s" then Some tree else None.
Definition all_of_it : Limits := MkLimits 40 100 10 100 100.
Definition two_files : Limits := MkLimits 40 100 2 100 100.
Definition here_ : Search := MkSearch "/s" false true.

Lemma unreported_scan_is_complete_witness :
  (readSessions all_of_it tree_fs here_).1 = [("/s/2026/c.jsonl", "three"); ("/s/b.jsonl", "two"); ("/s/2026/01/a.jsonl", "one")] ∧
  (readSessions all_of_it tree_fs here_).1 ≡ₚ [("/s/2026/01/a.jsonl", "one"); ("/s/2026/c.jsonl", "three"); ("/s/b.jsonl", "two")].
Proof.
  split; [by vm_compute|].
  refine (unreported_scan_is_complete all_of_it tree_fs here_ tree _ (readSessions all_of_it tree_fs here_).2 eq_refl eq_refl _ _); by vm_compute.
Defined.

Lemma bounded_scan_reads_newest_witness :
  (readSessions two_files tree_fs here_).1 = [("/s/2026/c.jsonl", "three"); ("/s/b.jsonl", "two")] ∧
  droppedByCount (readSessions two_files tree_fs here_).2 = 1%nat ∧
  (length (readSessions two_files tree_fs here_).1 ≤ 2)%nat.
Proof.
  split; [by vm_compute|]. split; [by vm_compute|].
  exact (proj1 (bounded_scan_reads_newest two_files tree_fs here_ tree _ (readSessions two_files tree_fs here_).2 eq_refl eq_refl ltac:(by vm_compute))).
Defined.
