(* ===== verification/UsageFacts.v ===== *)
(** * From transcripts to the ledger

    The figures of an agent are those of the transcripts that name its workspace, the figures of a
    fleet those of the agents that share no workspace, and the ledger, after a scan is recorded, is
    never behind the scan. *)

From Stdlib Require Import ZArith QArith Qround Lia String Ascii.
From stdpp Require Import base list strings pretty.
From S2P Require Import Prelude OMap Json JsonParse Ledger Transcripts Attribution Reader.
Import Ledger Paths Attribution Reader.
#[local] Open Scope stdpp_scope.

Lemma kget_sum a b k : kget (sum a b) k = kget a k + kget b k.
Proof. unfold sum. by rewrite kget_of. Qed.

Section usage.
Context (num_str : num → string) (str_num : string → num) (here : string).

(** ** One agent *)

(** The sessions of a scan that name the workspace, with what each of them used. *)
Definition mine (p : Transcripts.parser) (w : string) (l : list (string * string)) : list (string * Kinds) :=
  flat_map (λ x, match Transcripts.parseSession num_str str_num p x.2 with
                 | Some (Ok s) => if belongs here w s then [(x.1, Transcripts.totals s)] else []
                 | _ => []
                 end) l.

Definition sumKinds (l : list Kinds) (k : kind) : Z := foldr (λ t n, kget t k + n) 0 l.

Lemma sumKinds_app l1 l2 k : sumKinds (l1 ++ l2) k = sumKinds l1 k + sumKinds l2 k.
Proof. unfold sumKinds. induction l1 as [|t l1 IH]; [done|]. cbn. rewrite IH. lia. Qed.

Lemma attribute_spec p w l t fs sk t' fs' sk' : attribute num_str str_num here p w l (t, fs, sk) = Ok (t', fs', sk') →
  fs' = fs ++ mine p w l ∧ (∀ k, kget t' k = kget t k + sumKinds (mine p w l).*2 k) ∧ (sk' + length (mine p w l) = sk + length l)%nat.
Proof.
  revert t fs sk. induction l as [|[f x] l IH]; intros t fs sk; cbn [attribute].
  { intros [= <- <- <-]. cbn. split_and!; [by rewrite app_nil_r|intros; lia|lia]. }
  destruct (Transcripts.parseSession num_str str_num p x) as [[s|e]|] eqn:E; cbn [bind]; [|done|done].
  assert (Hm : mine p w ((f, x) :: l) = (if belongs here w s then [(f, Transcripts.totals s)] else []) ++ mine p w l) by (unfold mine; cbn [flat_map snd fst]; by rewrite E).
  rewrite Hm. destruct (belongs here w s); intros H; apply IH in H as (A & B & C); cbn [app length] in *.
  - split_and!; [by rewrite A, <-app_assoc| |lia]. intros k. rewrite B, kget_sum. cbn. fold (sumKinds (mine p w l).*2 k). unfold list_fmap, fmap in *. lia.
  - split_and!; [done|done|lia].
Qed.

(** The row of an agent whose transcripts were found, and the others: nothing is ever reported as zero. *)
Definition exact (a : jval) (homeDir : string) (rd : Search → list (string * string) * Bounds) (r : Row) : Prop :=
  if available r then
    ∃ w search p,
      agentTranscriptWorkspace a = Some w ∧ transcriptSearch (framework r) w homeDir = Some search ∧ Transcripts.PARSERS (framework r) = Some p ∧
      agent r = prop a "name" ∧ workspace r = Some w ∧ files r = mine p w (rd search).1 ∧ files r ≠ [] ∧ sessions r = length (files r) ∧
      (skipped r + sessions r = length (rd search).1)%nat ∧
      ∃ t, totals r = Some t ∧ total r = Some (totalOf t) ∧ ∀ k, kget t k = sumKinds (files r).*2 k
  else totals r = None ∧ total r = None ∧ reason r ≠ None.

Lemma meterAgent_exact a homeDir rd r b : meterAgent num_str str_num here a homeDir rd = Ok (r, b) → exact a homeDir rd r.
Proof.
  unfold meterAgent. set (f := lower _). destruct (negb _); [by intros [= <- <-]|].
  destruct (agentTranscriptWorkspace a) as [w|] eqn:Ew; [|by intros [= <- <-]].
  destruct (transcriptSearch f w homeDir) as [search|] eqn:Es; [|by intros [= <- <-]].
  destruct (Transcripts.PARSERS f) as [p|] eqn:Ep; [|by intros [= <- <-]].
  destruct (rd search) as [l bd] eqn:Er. intros ([[t fs] sk] & H & Hr)%bind_Ok. cbv beta iota in Hr.
  apply attribute_spec in H as (-> & Ht & Hn). cbn [app] in *. destruct (length (mine p w l) =? 0)%nat eqn:E; injection Hr as <- <-; [done|].
  apply Nat.eqb_neq in E. unfold exact. cbn [available]. exists w, search, p. cbn. rewrite Er. cbn.
  split_and!; try done; [intros Hm; by rewrite Hm in E|]. exists t. split_and!; try done. intros k. rewrite Ht. by destruct k.
Qed.

(** ** The fleet *)

Definition keyOf (r : Row) : option string := resolve here <$> truthy_opt (workspace r).

Lemma byWorkspace_get rows m key :
  om_get key (foldl (λ m r, match truthy_opt (workspace r) with
                            | Some w => let key := resolve here w in om_set key (default [] (om_get key m) ++ [agent r]) m
                            | None => m
                            end) m rows) =
  match default [] (om_get key m) ++ flat_map (λ r, if bool_decide (keyOf r = Some key) then [agent r] else []) rows, om_get key m with
  | [], None => None
  | l, _ => Some l
  end.
Proof.
  revert m. induction rows as [|r rows IH]; intros m; cbn [foldl flat_map].
  { rewrite app_nil_r. destruct (om_get key m) as [[|x l]|]; done. }
  rewrite IH. clear IH. set (rest := flat_map _ rows). assert (Hk : keyOf r = resolve here <$> truthy_opt (workspace r)) by done. rewrite Hk.
  destruct (truthy_opt (workspace r)) as [w|]; cbn [fmap option_fmap option_map].
  2:{ rewrite bool_decide_eq_false_2 by done. done. }
  cbv zeta. rewrite om_get_set. destruct (String.eqb_spec (resolve here w) key) as [->|Hne].
  - rewrite bool_decide_eq_true_2 by done. set (old := om_get _ m). change (default [] (Some (default [] old ++ [agent r]))) with (default [] old ++ [agent r]).
    rewrite <-app_assoc. change ([agent r] ++ rest) with (agent r :: rest). change ([agent r] ++ rest) with (agent r :: rest).
    destruct old as [[|x l]|]; done.
  - rewrite bool_decide_eq_false_2 by congruence. done.
Qed.

(** An agent that stays available shares its workspace with no other row. *)
Lemma settled_alone rows r : r ∈ rows → available (settleRow num_str here (byWorkspace here rows) r) = true →
  available r = true ∧ settleRow num_str here (byWorkspace here rows) r = r ∧
  ∀ key, keyOf r = Some key → length (flat_map (λ x, if bool_decide (keyOf x = Some key) then [agent x] else []) rows) = 1%nat.
Proof.
  intros Hin. unfold settleRow, byWorkspace. unfold keyOf at 1. destruct (truthy_opt (workspace r)) as [w|] eqn:Ew; [|by intros].
  rewrite byWorkspace_get. cbn [om_get default app]. set (l := flat_map _ rows). assert (Hl : (1 ≤ length l)%nat).
  { apply list_elem_of_split in Hin as (l1 & l2 & ->). unfold l. rewrite flat_map_app. cbn [flat_map].
    assert (Hk : keyOf r = Some (resolve here w)) by (unfold keyOf; by rewrite Ew). rewrite Hk, bool_decide_eq_true_2 by done.
    rewrite !length_app. cbn. lia. }
  destruct l as [|x [|y l']] eqn:E; [cbn in Hl; lia| |done]. cbn. intros Ha. split_and!; [done|done|]. intros key [= <-]. change (length l = 1%nat). by rewrite E.
Qed.

Lemma in_two {A B} (P : A → bool) (f : A → B) (l : list A) i j x y : l !! i = Some x → l !! j = Some y → i ≠ j → P x = true → P y = true →
  (2 ≤ length (flat_map (λ z, if P z then [f z] else []) l))%nat.
Proof.
  assert (H : ∀ i x l, l !! i = Some x → P x = true → (1 ≤ length (flat_map (λ z, if P z then [f z] else []) l))%nat).
  { clear. intros i x l Hi Hp. apply list_elem_of_lookup_2, list_elem_of_split in Hi as (l1 & l2 & ->). rewrite flat_map_app. cbn. rewrite Hp, length_app. cbn. lia. }
  revert i j. induction l as [|z l IH]; intros [|i] [|j] Hi Hj Hne Hx Hy; try done; cbn in Hi, Hj |- *.
  - injection Hi as ->. rewrite Hx. cbn. specialize (H j y l Hj Hy). lia.
  - injection Hj as ->. rewrite Hy. cbn. specialize (H i x l Hi Hx). lia.
  - rewrite length_app. specialize (IH i j Hi Hj ltac:(congruence) Hx Hy). lia.
Qed.

Lemma sum_fold rows (t : Kinds) k : kget (foldl (λ t r, sum t (default zero (totals r))) t rows) k = kget t k + sumKinds ((λ r, default zero (totals r)) <$> rows) k.
Proof.
  revert t. induction rows as [|r rows IH]; intros t; [cbn; lia|]. cbn [foldl]. rewrite IH, kget_sum.
  change (sumKinds ((λ r, default zero (totals r)) <$> r :: rows) k) with (kget (default zero (totals r)) k + sumKinds ((λ r, default zero (totals r)) <$> rows) k). lia.
Qed.

(** The reader of the agent number [i]. *)
Definition readerOf (e : Env) (i : nat) : Search → list (string * string) * Bounds := readSessions (e_limits e i) (e_fs e i).

Lemma meterAll_rows e homeDir i agents rows b : meterAll num_str str_num here e homeDir i agents = Ok (rows, b) →
  length rows = length agents ∧ ∀ j a r, agents !! j = Some a → rows !! j = Some r → exact a homeDir (readerOf e (i + j)) r.
Proof.
  revert i rows b. induction agents as [|a l IH]; intros i rows b; cbn [meterAll]; [by intros [= <- <-]|].
  intros ([r bd] & H1 & ([rs bs] & H2 & [= <- <-])%bind_Ok)%bind_Ok. cbn [fst]. destruct (IH _ _ _ H2) as [Hl Hr]. split; [cbn; by rewrite Hl|].
  intros [|j] a' r'; cbn; [intros [= <-] [= <-]; rewrite Nat.add_0_r; by eapply meterAgent_exact|].
  intros Ha Hr'. rewrite Nat.add_succ_r. by apply Hr.
Qed.

(** A fleet's figures: an agent is attributed exactly the transcripts of its scan that name its
    workspace, kind by kind, and otherwise has no figure and a reason; the workspaces of the attributed
    agents differ from each other and from those of all other agents, so no session belongs to two of
    them; and the fleet's figure is their sum, or none when there are none. *)
Theorem fleet_attributes_once e homeDir agents rows b :
  meterAll num_str str_num here e homeDir 0 agents = Ok (rows, b) →
  let F := summarizeFleet num_str here rows in let out := Attribution.agents F in
  length out = length agents ∧
  (∀ i a r, agents !! i = Some a → out !! i = Some r → ∃ r0, exact a homeDir (readerOf e i) r0 ∧
     if available r then r = r0 else totals r = None ∧ total r = None ∧ reason r ≠ None) ∧
  (∀ i j r r' w w', out !! i = Some r → out !! j = Some r' → i ≠ j → available r = true → workspace r = Some w → workspace r' = Some w' →
     w ≠ EmptyString → w' ≠ EmptyString → ∀ s, ¬ (belongs here w s = true ∧ belongs here w' s = true)) ∧
  match f_totals F with
  | Some t => f_total F = Some (totalOf t) ∧ ∀ k, kget t k = sumKinds ((λ r, default zero (totals r)) <$> List.filter available out) k
  | None => List.filter available out = [] ∧ f_total F = None
  end ∧ attributed F = length (List.filter available out) ∧ (attributed F + unattributed F)%nat = length agents.
Proof.
  intros Hrows F out. destruct (meterAll_rows _ _ _ _ _ _ Hrows) as [Hlen Hall].
  set (m := byWorkspace here rows). assert (Hout : out = List.map (settleRow num_str here m) rows) by done.
  assert (Hl : length out = length agents) by (rewrite Hout, List.length_map; lia).
  assert (Hget : ∀ i r, out !! i = Some r → ∃ r0, rows !! i = Some r0 ∧ r = settleRow num_str here m r0).
  { intros i r. rewrite Hout. change (List.map ?f rows) with (f <$> rows). rewrite list_lookup_fmap. intros (r0 & -> & ->)%fmap_Some. by exists r0. }
  split_and!; [exact Hl| | | |done|].
  - intros i a r Ha Hr. destruct (Hget i r Hr) as (r0 & Hr0 & ->). pose proof (Hall i a r0 Ha Hr0) as He.
    exists r0. split; [done|]. destruct (available (settleRow num_str here m r0)) eqn:Eav.
    + by apply settled_alone in Eav as (_ & ? & _); [|by eapply list_elem_of_lookup_2].
    + revert Eav. unfold settleRow. destruct (truthy_opt (workspace r0)); [destruct (om_get _ m) as [l|]; [destruct (1 <? length l)%nat; [done|]|]|];
        intros Eav; unfold exact in He; rewrite Eav in He; exact He.
  - intros i j r r' w w' Hr Hr' Hne Hav Hw Hw' Hnw Hnw' s [H1 H2]. destruct (Hget i r Hr) as (r0 & Hr0 & ->), (Hget j r' Hr') as (r1 & Hr1 & ->).
    destruct (settled_alone rows r0 (list_elem_of_lookup_2 _ _ _ Hr0) Hav) as (_ & Hsame & Hone). fold m in Hsame. rewrite Hsame in Hw.
    assert (Hw1 : workspace r1 = Some w').
    { rewrite <-Hw'. unfold settleRow. destruct (truthy_opt (workspace r1)); [destruct (om_get _ m) as [l|]; [destruct (1 <? length l)%nat|]|]; done. }
    assert (Hk : ∀ r w, workspace r = Some w → w ≠ EmptyString → keyOf r = Some (resolve here w)).
    { intros x v Hx Hv. unfold keyOf. rewrite Hx. cbn. by rewrite (proj2 (truthy_spec v) Hv). }
    unfold belongs in H1, H2. destruct (Transcripts.cwd s) as [d|]; [|done]. apply String.eqb_eq in H1, H2.
    specialize (Hone _ (Hk _ _ Hw Hnw)). enough (2 ≤ length (flat_map (λ x, if bool_decide (keyOf x = Some (resolve here w)) then [agent x] else []) rows))%nat by lia.
    eapply (in_two (λ x, bool_decide (keyOf x = Some (resolve here w))) agent); [exact Hr0|exact Hr1|exact Hne| |].
    + by apply bool_decide_eq_true_2, Hk.
    + apply bool_decide_eq_true_2. rewrite (Hk _ _ Hw1 Hnw'). congruence.
  - unfold F, summarizeFleet. cbn [f_totals f_total Attribution.agents]. fold m. rewrite <-Hout. destruct (List.filter available out) as [|r l] eqn:E; cbn [length Nat.ltb Nat.leb]; [done|].
    split; [done|]. intros k. rewrite sum_fold. destruct k; cbn -[sumKinds fmap]; lia.
  - unfold F, summarizeFleet. cbn [attributed unattributed]. fold m. rewrite <-Hout, <-Hl. pose proof (List.filter_length_le available out). lia.
Qed.

(** ** The ledger *)

Lemma int_of_Z z : 0 ≤ z → Ledger.int num_str str_num (JNum (Fin (inject_Z z))) = z.
Proof.
  intros Hz. unfold Ledger.int. cbn [to_number]. rewrite (proj2 (Qle_bool_iff 0 (inject_Z z))); [apply Qfloor_Z|]. change 0%Q with (inject_Z 0). by rewrite <-Zle_Qle.
Qed.

Lemma observed_kinds t : (∀ k, 0 ≤ kget t k) → observed num_str str_num (kindsJson t) = t.
Proof. intros H. apply kinds_ext. intros k. unfold observed. rewrite kget_of. specialize (H k). destruct k; cbn -[Ledger.int]; by rewrite int_of_Z. Qed.

Lemma parsed_pos p x s k : Transcripts.parseSession num_str str_num p x = Some (Ok s) → 0 ≤ kget (Transcripts.totals s) k.
Proof.
  destruct p; cbn [Transcripts.parseSession]; [| |done].
  - intros [= H]. apply bind_Ok in H as (c & H & [= <-]). unfold Transcripts.parseClaudeSession in H. apply bind_Ok in H as (d & H & [= <-]).
    apply claude_counts in H as (A & _ & _). cbn [Transcripts.totals Transcripts.cs_totals]. rewrite A.
    pose proof (usageSum_pos num_str str_num (counted (Transcripts.c_seen Transcripts.claude0) (Transcripts.records str_num x)) k). destruct k; cbn [kget Ledger.zero kinds_of k_input k_output k_cacheWrite k_cacheRead Transcripts.claude0 Transcripts.c_totals Transcripts.c_seen] in *; lia.
  - intros [= <-]. cbn [Transcripts.totals Transcripts.xs_totals Transcripts.parseCodexSession]. destruct (Transcripts.x_last _) as [t|]; [|by destruct k].
    pose proof (int_pos num_str str_num (prop t "cached_input_tokens")). pose proof (int_pos num_str str_num (prop t "output_tokens")).
    destruct k; cbn -[Ledger.int]; lia.
Qed.

Lemma mine_pos p w l f t k : (f, t) ∈ mine p w l → 0 ≤ kget t k.
Proof.
  unfold mine. intros H. apply list_elem_of_In, in_flat_map in H as ([g x] & _ & H). cbn [snd fst] in H.
  destruct (Transcripts.parseSession num_str str_num p x) as [[s|]|] eqn:E; [|done|done]. destruct (belongs here w s); [|done].
  destruct H as [[= <- <-]|[]]. by eapply parsed_pos.
Qed.

Section recording.
Context (SESSIONS PERIODS : nat).

(** A ledger that the module wrote: its marks and what it retired are not negative. *)
Definition ledger_ok (st : Ledger.State) : Prop := state_ok st ∧ ∀ a k, 0 ≤ kget (retired (agentRow a st)) k.

Lemma ledger_ok_nil : ledger_ok [].
Proof. split; [split; [apply NoDup_nil_2|done]|]. intros a []; cbn; lia. Qed.

Lemma retire_retired key row k : row_ok row → 0 ≤ kget (retired row) k → 0 ≤ kget (retired (retire key row)) k.
Proof.
  intros Hok Hr. unfold retire. destruct (om_get key (Ledger.sessions row)) as [s|] eqn:E; [|done]. cbn. rewrite kget_sum.
  pose proof (ok_marks _ Hok key s k E). lia.
Qed.

Lemma prune_retired row k : row_ok row → 0 ≤ kget (retired row) k → 0 ≤ kget (retired (prune SESSIONS row).1) k.
Proof.
  unfold prune. cbn [fst]. generalize (surplus SESSIONS row). intros l. revert row. induction l as [|key l IH]; intros row Hok Hr; [done|]. cbn.
  apply IH; [by apply retire_spec|by apply retire_retired].
Qed.

Lemma recordAgent_ok now n o st st' c n' : ledger_ok st → recordAgent SESSIONS PERIODS num_str str_num now n o st = (st', c, n') → ledger_ok st'.
Proof.
  intros [Hst Hr] H. split; [by apply (recordAgent_spec _ _ _ _ _ _ _ _ _ _ _ Hst H)|]. revert H. unfold recordAgent.
  destruct (truthy_opt (o_agent o)) as [a|]; [|by intros [= <- _ _]]. destruct (o_sessions o) as [l|]; [|by intros [= <- _ _]].
  set (row1 := if (_ : bool) then _ else _). assert (H1 : row_ok row1 ∧ retired row1 = retired (agentRow a st)).
  { pose proof (agentRow_ok a st Hst) as Hok. unfold row1. destruct (match truthy_opt _ with Some _ => _ | None => _ end); [|done]. by destruct Hok. }
  destruct H1 as [Hok1 Hr1]. destruct (recordSessions _ _ _ now n l row1) as [[row2 c2] n2] eqn:E2. pose proof (prune_retired row2) as Hp.
  destruct (prune SESSIONS row2) as [row3 d]. intros [= <- <- <-] b k.
  destruct (recordSessions_marks _ _ _ _ _ _ _ _ _ _ Hok1 E2) as (Hok2 & Hr2 & _). unfold agentRow. rewrite om_get_obj_set.
  destruct (String.eqb a b); [|apply Hr]. cbn. apply Hp; [done|]. rewrite Hr2, Hr1. apply Hr.
Qed.

Lemma recordAgent_keeps now n o st st' c n' a : recordAgent SESSIONS PERIODS num_str str_num now n o st = (st', c, n') → is_Some (om_get a st) → is_Some (om_get a st').
Proof.
  unfold recordAgent. destruct (truthy_opt (o_agent o)) as [b|]; [|by intros [= <- _ _]]. destruct (o_sessions o) as [l|]; [|by intros [= <- _ _]].
  destruct (recordSessions _ _ _ now n l _) as [[row2 c2] n2]. destruct (prune SESSIONS row2) as [row3 d]. intros [= <- <- <-].
  rewrite om_get_obj_set. by destruct (String.eqb b a).
Qed.

(** The marks of some sessions are part of a figure. *)
Lemma marks_below_sum (l : list string) m k : NoDup l → NoDup (om_keys m) → (∀ key s, om_get key m = Some s → 0 ≤ kget (s_kinds s) k) →
  sum_over l (λ key, om_at (λ s, kget (s_kinds s) k) key m) ≤ om_sum (λ s, kget (s_kinds s) k) m.
Proof.
  revert m. induction l as [|key l IH]; intros m Hl Hm Hpos; cbn.
  - assert (H : ∀ v, v ∈ om_vals m → 0 ≤ kget (s_kinds v) k).
    { intros v (x & Hx)%om_vals_get. eapply Hpos. by apply elem_of_om_get. }
    unfold om_sum. clear -H. induction (om_vals m) as [|v vs IH]; [done|]. cbn. pose proof (H v ltac:(left)). assert (0 ≤ foldr (λ v n, kget (s_kinds v) k + n) 0 vs); [|lia].
    apply IH. intros w Hw. apply H. by right.
  - apply NoDup_cons in Hl as [Hni Hl]. rewrite (om_sum_split _ key m) by done.
    assert (IH' := IH (om_del key m) Hl (om_nodup_del _ _ Hm)). rewrite (sum_over_ext l _ (λ x, om_at (λ s, kget (s_kinds s) k) x m)) in IH'.
    + fold (sum_over l (λ x, om_at (λ s, kget (s_kinds s) k) x m)). assert (sum_over l (λ x, om_at (λ s, kget (s_kinds s) k) x m) ≤ om_sum (λ s, kget (s_kinds s) k) (om_del key m)); [|lia].
      apply IH'. intros x s. rewrite om_get_del. destruct (String.eqb key x); [done|apply Hpos].
    + intros x Hx. unfold om_at. rewrite om_get_del_ne; [done|]. by intros ->.
Qed.

Lemma highest_at l key v k : (Some key, v) ∈ l → truthy key = true → kget (observed num_str str_num v) k ≤ highest num_str str_num key l k.
Proof.
  induction l as [|[[key'|] w] l IH]; [by intros H%elem_of_nil| |]; intros [[= -> ->]|Hin]%elem_of_cons Ht; cbn.
  - rewrite Ht, String.eqb_refl. cbn. lia.
  - specialize (IH Hin Ht). destruct (truthy key' && String.eqb key' key); lia.
  - by apply IH.
Qed.

(** Recording the files of a row leaves its agent with at least their sum. *)
Lemma recordAgent_covers now n o st st' c n' a (fs : list (string * Kinds)) k :
  ledger_ok st → truthy_opt (o_agent o) = Some a → o_sessions o = Some (List.map (λ f, (Some f.1, kindsJson f.2)) fs) →
  NoDup fs.*1 → (∀ f, f ∈ fs → truthy f.1 = true ∧ ∀ k, 0 ≤ kget f.2 k) →
  recordAgent SESSIONS PERIODS num_str str_num now n o st = (st', c, n') → sumKinds fs.*2 k ≤ figure k (agentRow a st').
Proof.
  intros [Hst Hr] Ha Hl Hnd Hfs H. set (l := List.map _ fs) in *. assert (Hkeys : ∀ key v, (Some key, v) ∈ l → truthy key = true → key ∈ fs.*1).
  { intros key v Hin _. apply list_elem_of_In, in_map_iff in Hin as ([f t] & [= <- <-] & Hin). apply list_elem_of_fmap. exists (f, t). split; [done|by apply list_elem_of_In]. }
  destruct (recordAgent_figure _ _ _ _ _ _ _ _ _ _ _ _ _ _ k Hst Ha Hl H Hnd Hkeys) as [-> _]. rename Hr into Hret.
  assert (Hbase : sum_over fs.*1 (λ key, mark_of key (agentRow a st) k) ≤ figure k (agentRow a st)).
  { unfold figure. pose proof (agentRow_ok a st Hst) as Hok. pose proof (Hret a k). unfold mark_of.
    assert (sum_over fs.*1 (λ key, om_at (λ s, kget (s_kinds s) k) key (Ledger.sessions (agentRow a st))) ≤ om_sum (λ s, kget (s_kinds s) k) (Ledger.sessions (agentRow a st))); [|lia].
    apply marks_below_sum; [done|apply Hok|]. intros key s Hs. by apply (ok_marks _ Hok key). }
  assert (Hsum : ∀ l1, (∀ f, f ∈ l1 → f ∈ fs) → sumKinds l1.*2 k + 0 ≤ sum_over l1.*1 (λ key, mark_of key (agentRow a st) k)
      + sum_over l1.*1 (λ key, Z.max (mark_of key (agentRow a st) k) (highest num_str str_num key l k) - mark_of key (agentRow a st) k)).
  { induction l1 as [|f l1 IH]; intros Hin; [done|]. specialize (IH (λ g Hg, Hin g (list_elem_of_further _ _ _ Hg))).
    assert (Hf : f ∈ fs) by (apply Hin; left). destruct (Hfs f Hf) as [Ht Hpos].
    assert (Hh : kget f.2 k ≤ highest num_str str_num f.1 l k).
    { rewrite <-(observed_kinds f.2 Hpos) at 1. apply highest_at; [|done]. apply list_elem_of_In, in_map_iff. exists f. split; [done|by apply list_elem_of_In]. }
    change (sumKinds (f :: l1).*2 k) with (kget f.2 k + sumKinds l1.*2 k). cbn [fmap list_fmap sum_over foldr].
    fold (sum_over l1.*1 (λ key, mark_of key (agentRow a st) k)).
    fold (sum_over l1.*1 (λ key, Z.max (mark_of key (agentRow a st) k) (highest num_str str_num key l k) - mark_of key (agentRow a st) k)). lia. }
  specialize (Hsum fs (λ f Hf, Hf)). lia.
Qed.

Lemma recordAll_covers now n l st st' c o a fs :
  ledger_ok st → o ∈ l → truthy_opt (o_agent o) = Some a → o_sessions o = Some (List.map (λ f, (Some f.1, kindsJson f.2)) fs) →
  NoDup fs.*1 → (∀ f, f ∈ fs → truthy f.1 = true ∧ ∀ k, 0 ≤ kget f.2 k) →
  recordAll SESSIONS PERIODS num_str str_num now n l st = (st', c) →
  is_Some (om_get a st') ∧ ∀ k, sumKinds fs.*2 k ≤ figure k (agentRow a st').
Proof.
  intros Hok Hin Ha Hl Hnd Hfs. revert n st st' c Hok. induction l as [|o' l IH]; intros n st st' c Hok; [by apply elem_of_nil in Hin|]. cbn [recordAll].
  destruct (recordAgent _ _ _ _ now n o' st) as [[st1 c1] n1] eqn:E1. destruct (recordAll _ _ _ _ now n1 l st1) as [st2 c2] eqn:E2. intros [= <- <-].
  pose proof (recordAgent_ok _ _ _ _ _ _ _ Hok E1) as Hok1. apply elem_of_cons in Hin as [->|Hin]; [|by eapply (IH Hin _ st1)].
  destruct (recordAll_spec _ _ _ _ _ _ _ _ _ _ (proj1 Hok1) E2) as (_ & Hmono & _). split.
  - assert (Hs : is_Some (om_get a st1)).
    { revert E1. unfold recordAgent. rewrite Ha, Hl. destruct (recordSessions _ _ _ now n _ _) as [[row2 c3] n3]. destruct (prune SESSIONS row2) as [row3 d].
      intros [= <- <- <-]. by rewrite om_get_obj_set_eq. }
    clear -Hs E2. revert n1 st1 st2 c2 Hs E2. induction l as [|x l IH]; intros n1 st1 st2 c2 Hs; cbn [recordAll]; [by intros [= <- _]|].
    destruct (recordAgent _ _ _ _ now n1 x st1) as [[s1 c1] m1] eqn:E1. destruct (recordAll _ _ _ _ now m1 l s1) as [s2 d2] eqn:E2. intros [= <- <-].
    eapply (IH m1 s1); [|exact E2]. by eapply recordAgent_keeps.
  - intros k. etrans; [|apply Hmono]. exact (recordAgent_covers _ _ _ _ _ _ _ _ _ k Hok Ha Hl Hnd Hfs E1).
Qed.

End recording.

(** The paths of a scan are not empty. *)
Lemma path_join_truthy ps : truthy (path_join ps) = true.
Proof.
  assert (Happ : ∀ a b, truthy a = true → truthy (a +:+ b) = true) by (intros [|c a] b; done).
  unfold path_join. destruct (length _ =? 0)%nat; [done|]. unfold normalize. destruct (negb (truthy _)); [done|]. cbv zeta.
  destruct (absolute _); [by apply Happ|]. match goal with |- context [if truthy ?b then ?b else _] => destruct (truthy b) eqn:E end.
  - rewrite E, andb_true_r. destruct (ends_with_slash _); [by apply Happ|done].
  - change (truthy ".") with true. rewrite andb_true_r. by destruct (ends_with_slash _).
Qed.

Lemma list_paths L rec d l b out q b' : listEntries L rec d l b = (out, q, b') → ∀ f, f ∈ out → truthy f.1 = true.
Proof.
  revert b out q b'. induction l as [|[name n] l IH]; intros b out q b'; cbn [listEntries]; [intros [= <- _ _] f Hf; by apply elem_of_nil in Hf|].
  destruct (_ <=? _)%nat; [apply IH|]. destruct (listEntries L rec d l _) as [[o k] b1] eqn:E. destruct n; intros [= <- _ _] f Hf; [|by eapply IH].
  destruct (ends_with _ _); [|by eapply IH]. apply elem_of_cons in Hf as [->|Hf]; [apply path_join_truthy|by eapply IH].
Qed.

Lemma walk_paths L fuel rec queue out b files b' : walk L fuel rec queue out b = (files, b') →
  (∀ f, f ∈ out → truthy f.1 = true) → ∀ f, f ∈ files → truthy f.1 = true.
Proof.
  revert queue out b. induction fuel as [|fuel IH]; intros [|[d n] queue] out b; cbn [walk]; try by intros [= <- _].
  destruct n as [t c|[l|]]; [by apply IH| |by apply IH]. destruct (listEntries L rec d l b) as [[o q] b1] eqn:E. intros H Hout.
  apply (IH _ _ _ H). intros f [Hf|Hf]%elem_of_app; [by apply Hout|by eapply list_paths].
Qed.

Lemma scan_paths L fs search : ∀ f, f ∈ (readSessions L fs search).1 → truthy f.1 = true.
Proof.
  unfold readSessions. destruct (if truthy _ then _ else _) as [root|]; [|intros f Hf; by apply elem_of_nil in Hf]. unfold candidates.
  destruct (walk L _ _ _ _ _) as [files b1] eqn:E1. destruct (stamp L _ files b1) as [st b2] eqn:E2.
  assert (Hst : ∀ x, x ∈ st → truthy x.1.1 = true).
  { assert (Hfiles : ∀ f, f ∈ files → truthy f.1 = true) by (eapply walk_paths; [exact E1|intros f Hf; by apply elem_of_nil in Hf]).
    clear E1. revert b1 st E2. induction files as [|[p [[t|] c|es]] l IH]; intros b1 st; cbn [stamp]; [intros [= <- _] x Hx; by apply elem_of_nil in Hx| | |].
    - assert (IH' := IH (λ f Hf, Hfiles f (list_elem_of_further _ _ _ Hf))). destruct (negb _); [apply IH'|]. destruct (stamp L _ l _) as [o b3] eqn:E.
      intros [= <- <-] x Hx. apply elem_of_cons in Hx as [->|Hx]; [apply (Hfiles (p, File (Some t) c)); left|by eapply IH'].
    - apply IH. intros f Hf. apply Hfiles. by right.
    - apply IH. intros f Hf. apply Hfiles. by right. }
  assert (Hs : ∀ x, x ∈ stable_sort newer st → truthy x.1.1 = true) by (intros x; rewrite stable_sort_perm; apply Hst).
  clear -Hs. revert b2 Hs. induction (stable_sort newer st) as [|[[p t] c] l IH]; intros b2 Hs f; cbn [readAll]; [by intros Hf%elem_of_nil|].
  assert (IH' := λ b, IH b (λ x Hx, Hs x (list_elem_of_further _ _ _ Hx)) f). destruct (_ <=? _)%nat; [apply IH'|]. destruct c as [text|]; [|apply IH'].
  destruct (readAll L l _) as [o b3] eqn:E. cbn [fst]. intros [->|Hf]%elem_of_cons; [apply (Hs (p, t, Some text)); left|].
  eapply IH'. by rewrite E.
Qed.

Lemma mine_files p w l f : f ∈ mine p w l → ∃ x, (f.1, x) ∈ l.
Proof.
  unfold mine. intros H. apply list_elem_of_In, in_flat_map in H as ([g x] & Hin & H). cbn [snd fst] in H.
  destruct (Transcripts.parseSession num_str str_num p x) as [[s|]|]; [|done|done]. destruct (belongs here w s); [|done].
  destruct H as [<-|[]]. exists x. by apply list_elem_of_In.
Qed.

(** C25. After a scan has been recorded the ledger is never behind it: for every agent that the scan
    attributes transcripts to, each of them once, the ledger has a figure of at least the scan's, kind by
    kind, and no figure of any agent has fallen; a cached answer or a failed scan leaves the ledger alone. *)
Theorem ledger_covers_scan S P clock before e agents homeDir c ledger metered c' ledger' :
  ledger_ok ledger → refreshUsage num_str str_num here before S P clock e agents homeDir c ledger = (metered, c', ledger') →
  ledger_ok ledger' ∧ (∀ a k, figure k (agentRow a ledger) ≤ figure k (agentRow a ledger')) ∧
  match metered with
  | Throw _ => ledger' = ledger
  | Ok m =>
      if cached m then ledger' = ledger else
      ∀ r name, r ∈ Attribution.agents (m_fleet m) → available r = true → agent r = JStr name → truthy name = true → NoDup (files r).*1 →
      ∃ t ever, totals r = Some t ∧ totalsFor name ledger' = Some ever ∧ ∀ k, kget t k ≤ kget (Ledger.totals ever) k
  end.
Proof.
  intros Hok. unfold refreshUsage. destruct (meterFleet _ _ _ _ e agents homeDir false c) as [[m|x] c1] eqn:E; [|by intros [= <- <- <-]].
  destruct (cached m) eqn:Ec; [intros [= <- <- <-]; by rewrite Ec|]. intros [= <- <- <-]. rewrite Ec.
  unfold record. set (l := List.map observationOf _). destruct (recordAll S P num_str str_num clock 0 l ledger) as [st' ch] eqn:Er. cbn [fst snd].
  assert (Hok' : ledger_ok st').
  { clear -Hok Er. revert Er. generalize 0%nat. revert ledger st' ch Hok. induction l as [|o l IH]; intros st st' ch Hok n; cbn [recordAll]; [by intros [= <- _]|].
    destruct (recordAgent _ _ _ _ clock n o st) as [[s1 c1] m1] eqn:E1. destruct (recordAll _ _ _ _ clock m1 l s1) as [s2 d2] eqn:E2. intros [= <- <-].
    eapply IH; [by eapply recordAgent_ok|exact E2]. }
  split; [exact Hok'|]. split; [by apply (recordAll_spec _ _ _ _ _ _ _ _ _ _ (proj1 Hok) Er)|].
  intros r name Hr Hav Hname Ht Hnd. revert E. unfold meterFleet. match goal with |- context [match ?h with Some _ => _ | None => _ end] => destruct h as [v|] end.
  { intros [= <- _]. cbn in Ec. discriminate Ec. }
  destruct (meterAll _ _ _ e homeDir 0 agents) as [[rows b]|] eqn:Em; [|done]. intros [= <- <-]. cbn [m_fleet] in Hr, l.
  destruct (meterAll_rows _ _ _ _ _ _ Em) as [Hlen Hall]. pose proof Hr as Hr'. apply list_elem_of_In, in_map_iff in Hr' as (r0 & Hset & Hin). apply list_elem_of_In in Hin.
  rewrite <-Hset in Hav. destruct (settled_alone rows r0 Hin Hav) as (Hav0 & Hsame & _). rewrite Hsame in Hset. subst r0.
  apply list_elem_of_lookup in Hin as [j Hj]. destruct (lookup_lt_is_Some_2 agents j) as [a Ha]; [rewrite <-Hlen; by eapply lookup_lt_Some|].
  specialize (Hall j a r Ha Hj). unfold exact in Hall. rewrite Hav0 in Hall. destruct Hall as (w & search & p & _ & _ & _ & _ & _ & Hf & _ & _ & _ & t & Htot & _ & Hsum).
  destruct (recordAll_covers S P clock 0 l ledger st' ch (observationOf r) name (files r) Hok) as [[row Hrow] Hfig]; [| |done|done| |exact Er|].
  - apply list_elem_of_In, in_map_iff. exists r. split; [done|]. apply filter_In. split; [by apply list_elem_of_In|done].
  - unfold observationOf. cbn [o_agent]. rewrite Hname. cbn. by rewrite Ht.
  - intros f Hin'. rewrite Hf in Hin'. split; [destruct (mine_files _ _ _ _ Hin') as [x Hx]; exact (scan_paths _ _ _ _ Hx)|].
    destruct f as [f tf]. intros k. by eapply mine_pos.
  - unfold totalsFor. rewrite Hrow. eexists t, _. split_and!; [done|done|]. intros k. cbn [Ledger.totals]. rewrite acc_figure, Hsum.
    specialize (Hfig k). unfold agentRow in Hfig. by rewrite Hrow in Hfig.
Qed.

End usage.

(** ** A concrete fleet *)

Definition agent_w (name type workspace : string) : jval := JObj [("name", JStr name); ("type", JStr type); ("workspacePath", JStr workspace)].
Definition dir_of (text : string) : node := Directory (Some [("s.jsonl", File (Some 5%Q) (Some text))]).
Definition trees (ada : string) (d : string) : option node :=
  if String.eqb d "/h/.claude/projects/-w-ada" then Some (dir_of ada)
  else if String.eqb d "/h/.claude/projects/-w-bob" then Some (dir_of resumed) else None.
Definition env_w (ada : string) : Env := MkEnv 100 101 (λ _, MkLimits 100 1000 10 4000 100) (λ _, trees ada).
Definition ada_text : string :=
  lines [line (JObj [("cwd", JStr "/w/ada/"); ("uuid", JStr "a1"); ("message", JObj [("usage", JObj [("input_tokens", JNum (Fin 7)); ("output_tokens", JNum (Fin 2))])])])].
Definition fleet_w : list jval := [agent_w "ada" "claude" "/w/ada"; agent_w "bob" "octos" "/w/bob"].
Definition before_w (a b : string) : bool := String.ltb a b.
Definition clock_w (n : nat) : Z := Z.of_nat n.
Abbreviation refresh_w ada := (refreshUsage print_num read_num "/srv" before_w 500 14 clock_w (env_w ada) fleet_w "/h" cache0 []).

Definition metered_w : list Row * Bounds :=
  match meterAll print_num read_num "/srv" (env_w ada_text) "/h" 0 fleet_w with Ok r => r | Throw _ => ([], bounds0) end.

Lemma fleet_attributes_once_witness :
  let F := summarizeFleet print_num "/srv" metered_w.1 in
  f_total F = Some 9 ∧ attributed F = 1%nat ∧ length (Attribution.agents F) = length fleet_w.
Proof.
  cbv zeta. do 2 (split; [by vm_compute|]).
  refine (proj1 (fleet_attributes_once print_num read_num "/srv" (env_w ada_text) "/h" fleet_w metered_w.1 metered_w.2 _)). by vm_compute.
Defined.

Lemma ledger_covers_scan_witness :
  let '(metered, c, ledger) := refresh_w ada_text in
  ledger_ok ledger ∧ (Ledger.total <$> totalsFor "ada" ledger) = Some 9 ∧ (∃ m, metered = Ok m ∧ f_total (m_fleet m) = Some 9).
Proof.
  destruct (refresh_w ada_text) as [[metered c] ledger] eqn:E.
  destruct (ledger_covers_scan print_num read_num "/srv" 500 14 clock_w before_w (env_w ada_text) fleet_w "/h" cache0 [] metered c ledger ledger_ok_nil E) as (H & _ & _).
  split; [exact H|]. vm_compute in E. injection E as <- _ <-. split; [by vm_compute|]. by eexists.
Defined.

(** One line that is the text [null], in the transcript of one agent, and no agent has a figure. *)
Lemma null_line_hides_fleet : (refresh_w (lines ["null"; ada_text])).1.1 = Throw "TypeError".
Proof. by vm_compute. Qed.

(** When all the transcripts of an agent are older than the window the reason says that none were
    found, although the scan counted them. *)
Lemma old_transcripts_reported_as_none :
  let a := agent_w "ada" "claude" "/w/ada" in
  let r := meterAgent print_num read_num "/srv" a "/h" (readSessions (MkLimits 5000 1000 10 4000 100) (trees ada_text)) in
  ∃ row b, r = Ok (row, b) ∧ reason row = Some "no transcripts found for this workspace yet" ∧ droppedByAge b = 1%nat.
Proof. cbv zeta. do 2 eexists. split_and!; by vm_compute. Qed.
