(* ===== verification/ProjectSides.v ===== *)
(** * Project sides ([lib/project-side-store.js]): data and operations

    One record per homeserver: the credential held there, a representative, an allocation and the
    projects with their rooms. The store mutates its records in place and then writes the file; a
    write that fails throws and, but for the removal of a side, leaves the memory as it was changed.
    The parser of URLs, [localeCompare] and the text of a number are arguments; the inputs are the
    objects that the routes pass. *)

From Stdlib Require Import ZArith QArith Qround Lia String Ascii.
From stdpp Require Import base list strings.
From S2P Require Import Prelude OMap Json.
#[local] Open Scope stdpp_scope.

Module ProjectSides.

(** ** Data *)

Record Transport : Type := MkTransport { t_url : string; t_token : string; t_generation : Z }.
#[export] Instance Transport_eq_dec : EqDecision Transport.
Proof. solve_decision. Defined.

Inductive Credential : Type :=
| Appservice (transport : option Transport) (asToken hsToken : string) (url : option string) (namespace senderLocalpart : string)
| RegistrationToken (registrationToken : string) (representativeToken : option string).
#[export] Instance Credential_eq_dec : EqDecision Credential.
Proof. solve_decision. Defined.

Definition kindOf (c : Credential) : string :=
  match c with Appservice _ _ _ _ _ _ => "appservice" | RegistrationToken _ _ => "registrationToken" end.

Record Representative : Type := MkRepresentative { mxid : string; localpart : string; observedAt : Z }.

Record Project : Type := MkProject {
  p_id : string; p_name : string; roomId : option string; note : option string; archived : bool; archivedAt : option Z;
  p_createdAt : Z; p_updatedAt : Z;
}.
#[export] Instance eta_project : Settable Project := λ p,
  MkProject (p_id p) (p_name p) (roomId p) (note p) (archived p) (archivedAt p) (p_createdAt p) (p_updatedAt p).

Record Side : Type := MkSide {
  id : string; serverName_ : string; label : string; apiBaseUrl_ : string; credential_ : option Credential;
  pendingCredential : option Credential; pendingIssuedAt : option Z; accessIssuedAt : option Z;
  accessState : string; accessDetail : option string; accessCheckedAt : option Z; allocatedTokens : option Z;
  representative : option Representative; projects : omap Project; active : bool; createdAt : Z; updatedAt : Z;
}.
#[export] Instance eta_side : Settable Side := λ s,
  MkSide (id s) (serverName_ s) (label s) (apiBaseUrl_ s) (credential_ s) (pendingCredential s) (pendingIssuedAt s) (accessIssuedAt s)
    (accessState s) (accessDetail s) (accessCheckedAt s) (allocatedTokens s) (representative s) (projects s) (active s) (createdAt s) (updatedAt s).

Record Audit : Type := MkAudit { a_type : string; a_at : Z; a_detail : list (string * jval) }.

(** The memory, and the file as it was last written. *)
Record State : Type := MkState { sides : omap Side; audit : list Audit; file : option (omap Side * list Audit) }.
#[export] Instance eta_state : Settable State := λ s, MkState (sides s) (audit s) (file s).

(** How writing the file ends: done, thrown before the rename, thrown after it ([chmod]). *)
Inductive save_result : Type := Saved | NotWritten | WrittenThrew.

(** The clock, whose readings are handed out in order, and the save of one call. *)
Record Env : Type := MkEnv { now : nat → Z; save : save_result }.

(** What [new URL] gives. *)
Record URL : Type := MkURL {
  href : string; protocol : string; username : string; password : string; hostname : string; pathname : string; search : string; hash : string;
}.

Definition CREDENTIAL_KINDS : list string := ["appservice"; "registrationToken"].
Definition ACCESS_STATES : list string := ["unverified"; "accepted"; "rejected"; "unreachable"; "blocked"].
Definition DEFAULT_AUDIT_LIMIT : nat := 2000.

(** ** Validation *)

Definition text (value : jval) (max : nat) : result string :=
  let normalized := match value with JStr s => trim s | _ => EmptyString end in
  if negb (truthy normalized) || (max <? String.length normalized)%nat then Throw "bad_request" else Ok normalized.

Definition in_class (a b : nat) (c : ascii) : bool := (a <=? nat_of_ascii c)%nat && (nat_of_ascii c <=? b)%nat.
Definition is_digit (c : ascii) : bool := in_class 48 57 c.
Definition is_lower (c : ascii) : bool := in_class 97 122 c.

(** [/^[a-z0-9][a-z0-9.\-]*(:\d{1,5})?$/] *)
Definition SERVER_NAME_RE (s : string) : bool :=
  let host_char c := is_lower c || is_digit c || Ascii.eqb c "." || Ascii.eqb c "-" in
  let '(host, port) := match index_of ":" s with
                       | Some i => (slice_to i s, Some (drop_str (S i) s))
                       | None => (s, None)
                       end in
  match host with
  | String c rest => (is_lower c || is_digit c) && string_forall host_char rest
  | EmptyString => false
  end && match port with
         | Some p => string_forall is_digit p && (1 <=? String.length p)%nat && (String.length p <=? 5)%nat
         | None => true
         end.

Definition serverName (value : jval) : result string :=
  let* t := text value 255 in
  let normalized := lower t in
  if SERVER_NAME_RE normalized then Ok normalized else Throw "bad_request".

Definition slash : ascii := "/".

(** [s.replace(/\/+$/, '')] and [s.replace(/\/$/, '')] *)
Fixpoint strip_slashes (s : string) : string :=
  match s with
  | EmptyString => EmptyString
  | String c s' => match strip_slashes s' with
                   | EmptyString => if Ascii.eqb c slash then EmptyString else String c EmptyString
                   | t => String c t
                   end
  end.
Fixpoint strip_slash (s : string) : string :=
  match s with
  | EmptyString => EmptyString
  | String c EmptyString => if Ascii.eqb c slash then EmptyString else s
  | String c s' => String c (strip_slash s')
  end.

Section model.
Context (num_str : num → string) (str_num : string → num) (parseURL : string → option URL) (before : string → string → bool) (auditLimit : nat).

(** [new URL(v)] *)
Definition newURL (v : jval) : option URL := parseURL (to_str num_str v).

Definition apiBaseUrl (value : jval) : result string :=
  let* normalized := text value 1024 in
  match parseURL normalized with
  | None => Throw "bad_request"
  | Some u => if inb (protocol u) ["http:"; "https:"] then Ok (strip_slashes normalized) else Throw "bad_request"
  end.

(** [/^hf_[a-f0-9]{32}$/] *)
Definition fleet_id (s : string) : bool :=
  String.prefix "hf_" s && (String.length s =? 35)%nat && string_forall (λ c, is_digit c || in_class 97 102 c) (drop_str 3 s).

(** What the first group of [/^(hf_[a-f0-9]{32})_representative$/] matches. *)
Definition fleetOf (localpart : string) : option string :=
  let id := slice_to 35 localpart in
  if fleet_id id && String.eqb (drop_str 35 localpart) "_representative" then Some id else None.

Definition safe_integer (v : jval) : option Z :=
  match v with
  | JNum (Fin q) => let z := Qfloor q in if Qeq_bool q (inject_Z z) && (Z.abs z <=? 2 ^ 53 - 1) then Some z else None
  | _ => None
  end.

(** [lib/fleet-outbound-config.js] *)
Definition normalizeOutboundTransport (value : jval) (fleetId : option string) : result Transport :=
  let invalid := Throw "invalid outbound fleet configuration" in
  match value, fleetId, prop value "token", safe_integer (prop value "generation") with
  | JObj o, Some fleet, JStr token, Some generation =>
      if negb (forallb (λ k, inb k ["mode"; "url"; "token"; "generation"]) (om_keys o)) || negb (strict_eq (prop value "mode") (JStr "outbound"))
         || negb (fleet_id fleet) || (String.length token <? 16)%nat || (4096 <? String.length token)%nat || string_exists is_ws token || (generation <? 1)
      then invalid else
      match newURL (prop value "url") with
      | None => invalid
      | Some u =>
          if truthy (username u) || truthy (password u) || truthy (search u) || truthy (hash u)
             || negb (String.eqb (strip_slash (pathname u)) ("/api/fleet/v2/" +:+ fleet))
             || negb (String.eqb (protocol u) "https:" || (String.eqb (protocol u) "http:" && inb (hostname u) ["127.0.0.1"; "localhost"; "[::1]"]))
          then invalid else Ok (MkTransport (strip_slash (href u)) token generation)
      end
  | _, _, _, _ => invalid
  end.

Definition is_undef (v : jval) : bool := match v with JUndef => true | _ => false end.

(** [null] and [undefined] are no text; anything else must be one. *)
Definition optional_text (v : jval) (max : nat) : result (option string) :=
  if is_nullish v then Ok None else let* t := text v max in Ok (Some t).

Definition credential (value : jval) : result Credential :=
  match value with
  | JObj _ | JArr _ =>
      let* kind := text (prop value "kind") 64 in
      if negb (inb kind CREDENTIAL_KINDS) then Throw "bad_request" else
      if String.eqb kind "appservice" then
        let* transport :=
          if is_undef (prop value "transport") then Ok None else
          match normalizeOutboundTransport (prop value "transport") (fleetOf (if is_nullish (prop value "senderLocalpart") then EmptyString else to_str num_str (prop value "senderLocalpart"))) with
          | Throw _ => Throw "bad_request"
          | Ok t => if strict_eq (prop value "asToken") (JStr (t_token t)) || strict_eq (prop value "hsToken") (JStr (t_token t))
                    then Throw "bad_request" else Ok (Some t)
          end in
        let* asToken := text (prop value "asToken") 4096 in
        let* hsToken := text (prop value "hsToken") 4096 in
        let* url := if strict_eq (prop value "url") (JStr EmptyString) then Ok None else optional_text (prop value "url") 1024 in
        let* namespace := text (prop value "namespace") 255 in
        let* senderLocalpart := text (prop value "senderLocalpart") 255 in
        Ok (Appservice transport asToken hsToken url namespace (lower senderLocalpart))
      else
        let* registrationToken := text (prop value "registrationToken") 4096 in
        let* representativeToken := optional_text (prop value "representativeToken") 4096 in
        Ok (RegistrationToken registrationToken representativeToken)
  | _ => Throw "bad_request"
  end.

(** ** What leaves the store *)

Record PublicSide : Type := MkPublic {
  v_id : string; v_label : string; v_serverName : string; v_apiBaseUrl : string; credentialKind : option string; hasCredential : bool;
  awaitingInstall : bool; awaitingInstallSince : option Z; v_senderLocalpart : option string; appserviceUrl : option string;
  outboundEndpoint : option string; v_namespace : option string; v_accessIssuedAt : option Z; v_accessState : string;
  v_accessDetail : option string; v_accessCheckedAt : option Z; v_allocatedTokens : option Z; v_representative : option Representative;
  v_projects : list Project; v_active : bool; v_createdAt : Z; v_updatedAt : Z;
}.

(** [connectionMode] is present exactly with [outboundEndpoint]. *)
Definition publicSide (r : Side) : PublicSide :=
  let c := credential_ r in
  MkPublic (id r) (label r) (serverName_ r) (apiBaseUrl_ r) (kindOf <$> c) (is_Some_b c)
    (is_Some_b (pendingCredential r)) (pendingIssuedAt r)
    (match c with Some (Appservice _ _ _ _ _ l) => Some l | _ => None end)
    (match c with Some (Appservice _ _ _ u _ _) => u | _ => None end)
    (match c with Some (Appservice (Some t) _ _ _ _ _) => Some (t_url t) | _ => None end)
    (match c with Some (Appservice _ _ _ _ n _) => Some n | _ => None end)
    (accessIssuedAt r) (accessState r) (truthy_opt (accessDetail r)) (accessCheckedAt r) (allocatedTokens r) (representative r)
    (stable_sort (λ a b, before (p_id a) (p_id b)) (om_vals (projects r))) (active r) (createdAt r) (updatedAt r).

(** ** Saving *)

Definition _load (f : option (omap Side * list Audit)) : State :=
  match f with
  | None => MkState [] [] None
  | Some (s, a) => MkState s (skipn (length a - auditLimit) a) f
  end.

(** The end of a call: the file is written and the answer given, or the save throws. *)
Definition finish {A} (e : Env) (a : A) (st : State) : result A * State :=
  let written := st <| file := Some (sides st, audit st) |> in
  match save e with
  | Saved => (Ok a, written)
  | NotWritten => (Throw "persistence_failed", st)
  | WrittenThrew => (Throw "persistence_failed", written)
  end.

Definition _audit (type : string) (at_ : Z) (detail : list (string * jval)) (st : State) : State :=
  let a := audit st ++ [MkAudit type at_ detail] in st <| audit := skipn (length a - auditLimit) a |>.

Definition setSide (k : string) (r : Side) (st : State) : State := st <| sides := obj_set k r (sides st) |>.

(** The result of a call on a side: [null] when there is none, and the error of a bad id. *)
Definition with_side {A} (idValue : jval) (st : State) (f : string → Side → result (option A) * State) : result (option A) * State :=
  match serverName idValue with
  | Throw x => (Throw x, st)
  | Ok id => match om_get id (sides st) with
             | None => (Ok None, st)
             | Some r => f id r
             end
  end.

(** The usual end of a call on a side: audit, save, answer. *)
Definition commit (e : Env) (type : string) (at_ : Z) (detail : list (string * jval)) (id : string) (r : Side) (st : State)
    : result (option PublicSide) * State :=
  finish e (Some (publicSide r)) (_audit type at_ detail (setSide id r st)).

(** ** Sides *)

Definition nullish_str (o : option string) : jval := match o with Some s => JStr s | None => JNull end.

Definition unverified (r : Side) : Side := r <| accessState := "unverified" |> <| accessDetail := None |> <| accessCheckedAt := None |>.

(** The record that [upsertSide] puts in place of the old one; it has no member for a staged
    credential and none for the time of issue. *)
Definition upserted (input : jval) (server : string) (existing : option Side) (t : Z) : result Side :=
  let* label :=
    match existing with
    | Some x => if is_undef (prop input "label") then Ok (label x) else text (nullish_or (prop input "label") (JStr server)) 255
    | None => text (nullish_or (prop input "label") (JStr server)) 255
    end in
  let url := nullish_or (prop input "api_base_url") (prop input "apiBaseUrl") in
  let* base :=
    match existing with
    | Some x => if is_undef (prop input "api_base_url") && is_undef (prop input "apiBaseUrl") then Ok (apiBaseUrl_ x) else apiBaseUrl url
    | None => apiBaseUrl url
    end in
  let old := existing ≫= credential_ in
  let* cred :=
    match prop input "credential" with
    | JUndef => Ok old
    | JNull => Ok None
    | v => let* c := credential v in Ok (Some c)
    end in
  let from {A} (f : Side → A) (d : A) := match existing with Some x => f x | None => d end in
  let r := MkSide server server label base cred None None None (from accessState "unverified") (from accessDetail None) (from accessCheckedAt None)
             (from allocatedTokens None) (from representative None) (from projects []) (from active true) (from createdAt t) t in
  Ok (if bool_decide (old = cred) then r else unverified r).

Definition upsertSide (e : Env) (input : jval) (st : State) : result (option PublicSide) * State :=
  match serverName (nullish_or (prop input "server_name") (prop input "serverName")) with
  | Throw x => (Throw x, st)
  | Ok server =>
      let existing := om_get server (sides st) in
      match upserted input server existing (now e 0) with
      | Throw x => (Throw x, st)
      | Ok r =>
          commit e (match existing with Some _ => "side_updated" | None => "side_created" end) (now e 1)
            [("side", JStr server); ("credentialKind", nullish_str (kindOf <$> credential_ r));
             ("credentialChanged", JBool (negb (bool_decide ((existing ≫= credential_) = credential_ r))))] server r st
      end
  end.

Definition setAllocation (e : Env) (idValue tokens : jval) (st : State) : result (option PublicSide) * State :=
  with_side idValue st (λ id r,
    let set v := commit e "allocation_set" (now e 1)
                   [("side", JStr id); ("allocatedTokens", match v with Some z => JNum (Fin (inject_Z z)) | None => JNull end)]
                   id (r <| allocatedTokens := v |> <| updatedAt := now e 0 |>) st in
    if is_nullish tokens then set None else
    match to_number num_str str_num tokens with
    | Fin q => let z := Qfloor q in if Qeq_bool q (inject_Z z) && (0 <=? z) then set (Some z) else (Throw "bad_request", st)
    | _ => (Throw "bad_request", st)
    end).

Definition setCredential (e : Env) (idValue value : jval) (stage : bool) (st : State) : result (option PublicSide) * State :=
  with_side idValue st (λ id r,
    let given := match value with JNull => Ok None | v => let* c := credential v in Ok (Some c) end in
    match given with
    | Throw x => (Throw x, st)
    | Ok given =>
        match given, (if stage then credential_ r else None) with
        | Some c, Some _ =>
            commit e "credential_staged" (now e 2) [("side", JStr id); ("credentialKind", JStr (kindOf c))] id
              (r <| pendingCredential := Some c |> <| pendingIssuedAt := Some (now e 0) |> <| updatedAt := now e 1 |>) st
        | _, _ =>
            let n := match given with Some _ => 1%nat | None => 0%nat end in
            commit e "credential_set" (now e (S n)) [("side", JStr id); ("credentialKind", nullish_str (kindOf <$> given))] id
              (unverified (r <| credential_ := given |> <| pendingCredential := None |> <| pendingIssuedAt := None |>
                             <| accessIssuedAt := match given with Some _ => Some (now e 0) | None => None end |> <| updatedAt := now e n |>)) st
        end
    end).

Definition credentialFor (idValue : jval) (st : State) : result (option Credential) :=
  let* id := serverName idValue in Ok (om_get id (sides st) ≫= credential_).
Definition pendingCredentialFor (idValue : jval) (st : State) : result (option Credential) :=
  let* id := serverName idValue in Ok (om_get id (sides st) ≫= pendingCredential).

Definition promotePendingCredential (e : Env) (idValue : jval) (st : State) : result (option PublicSide) * State :=
  with_side idValue st (λ id r,
    match pendingCredential r with
    | None => (Ok None, st)
    | Some c =>
        commit e "credential_promoted" (now e 2) [("side", JStr id); ("credentialKind", JStr (kindOf c))] id
          (r <| credential_ := Some c |> <| pendingCredential := None |> <| pendingIssuedAt := None |>
             <| accessIssuedAt := Some (now e 0) |> <| updatedAt := now e 1 |>) st
    end).

(** A detail that is refused is found out after the state has been set. *)
Definition observeAccess (e : Env) (idValue input : jval) (st : State) : result (option PublicSide) * State :=
  with_side idValue st (λ id r,
    match text (prop input "state") 32 with
    | Throw x => (Throw x, st)
    | Ok state =>
        if negb (inb state ACCESS_STATES) then (Throw "bad_request", st) else
        let r := r <| accessState := state |> in
        match optional_text (prop input "detail") 1024 with
        | Throw x => (Throw x, setSide id r st)
        | Ok detail =>
            commit e "access_observed" (now e 1) [("side", JStr id); ("state", JStr state)] id
              (r <| accessDetail := detail |> <| accessCheckedAt := Some (now e 0) |> <| updatedAt := now e 0 |>) st
        end
    end).

Definition after_colon (s : string) : option string := (λ i, drop_str (S i) s) <$> index_of ":" s.

Definition setRepresentative (e : Env) (idValue input : jval) (st : State) : result (option PublicSide) * State :=
  with_side idValue st (λ id r,
    match text (prop input "mxid") 255 with
    | Throw x => (Throw x, st)
    | Ok m =>
        match String.prefix "@" m, index_of ":" m with
        | true, Some i =>
            if negb (String.eqb (lower (drop_str (S i) m)) (serverName_ r)) then (Throw "bad_request", st) else
            commit e "representative_set" (now e 2) [("side", JStr id); ("mxid", JStr m)] id
              (r <| representative := Some (MkRepresentative m (slice_to (i - 1) (drop_str 1 m)) (now e 0)) |> <| updatedAt := now e 1 |>) st
        | _, _ => (Throw "bad_request", st)
        end
    end).

Definition getSide (idValue : jval) (st : State) : option PublicSide :=
  match serverName idValue with Ok id => publicSide <$> om_get id (sides st) | Throw _ => None end.

Definition listSides (activeOnly : bool) (st : State) : list PublicSide :=
  let all := List.map publicSide (om_vals (sides st)) in if activeOnly then List.filter v_active all else all.

(** ** Projects *)

(** [[\p{L}\p{N}._-]], below 256 *)
Definition slug_char (c : ascii) : bool :=
  is_digit c || is_lower c || in_class 65 90 c || existsb (λ n, Nat.eqb n (nat_of_ascii c)) [46; 95; 45; 170; 178; 179; 181; 185; 186; 188; 189; 190]%nat
  || (in_class 192 255 c && negb (Nat.eqb (nat_of_ascii c) 215) && negb (Nat.eqb (nat_of_ascii c) 247)).

(** Runs of other characters become one dash; [run] tells whether one is being read. *)
Fixpoint dashed (run : bool) (s : string) : string :=
  match s with
  | EmptyString => EmptyString
  | String c s' => if slug_char c then String c (dashed false s') else if run then dashed true s' else String "-" (dashed true s')
  end.

Definition is_dash (c : ascii) : bool := Ascii.eqb c "-".
Fixpoint undash_start (s : string) : string :=
  match s with String c s' => if is_dash c then undash_start s' else s | EmptyString => EmptyString end.
Fixpoint undash_end (s : string) : string :=
  match s with
  | EmptyString => EmptyString
  | String c s' => match undash_end s' with
                   | EmptyString => if is_dash c then EmptyString else String c EmptyString
                   | t => String c t
                   end
  end.

Definition slug (s : string) : string := undash_end (undash_start (dashed false (lower (trim s)))).

(** [/room/i.test(key)] *)
Fixpoint mentions_room (s : string) : bool :=
  match s with EmptyString => false | String _ s' => String.prefix "room" (lower s) || mentions_room s' end.

Definition keysOf (v : jval) : list string := match v with JObj o => om_keys o | _ => [] end.

(** The room that a call names, checked against the side and its projects. *)
Definition checkRoom (sideId id : string) (ps : omap Project) (room : option string) : result (option string) :=
  match room with
  | None => Ok None
  | Some r =>
      if negb (String.prefix "!" r) then Throw "bad_request" else
      if negb (String.eqb (lower (default EmptyString (after_colon r))) sideId) then Throw "bad_request" else
      if existsb (λ p, bool_decide (roomId p = Some r) && negb (String.eqb (p_id p) id)) (om_vals ps) then Throw "conflict" else
      Ok room
  end.

Definition projectFrom (input : jval) (sideId : string) (ps : omap Project) (t : Z) : result Project :=
  let* name := text (prop input "name") 255 in
  let id := slug (if is_nullish (prop input "id") then name else to_str num_str (prop input "id")) in
  throw_if negb (truthy id) with "bad_request" in
  let existing := om_get id ps in
  throw_if existsb (λ k, mentions_room k && negb (inb k ["room_id"; "roomId"; "room"])) (keysOf input) with "bad_request" in
  let raw := nullish_or (prop input "room_id") (nullish_or (prop input "roomId") (prop input "room")) in
  let* room := match raw with
               | JUndef => Ok (existing ≫= roomId)
               | JNull => Ok None
               | v => if strict_eq v (JStr EmptyString) then Ok None else let* r := text v 255 in Ok (Some r)
               end in
  let* room := checkRoom sideId id ps room in
  let* note := if is_undef (prop input "note") then Ok (existing ≫= note) else optional_text (prop input "note") 1024 in
  Ok (MkProject id name room note (match existing with Some p => archived p | None => false end) (existing ≫= archivedAt)
        (match existing with Some p => p_createdAt p | None => t end) t).

Definition upsertProject (e : Env) (sideIdValue input : jval) (st : State) : result (option Project) * State :=
  with_side sideIdValue st (λ id r,
    match projectFrom input id (projects r) (now e 0) with
    | Throw x => (Throw x, st)
    | Ok p =>
        finish e (Some p)
          (_audit (match om_get (p_id p) (projects r) with Some _ => "project_updated" | None => "project_added" end) (now e 1)
             [("side", JStr id); ("project", JStr (p_id p)); ("roomId", nullish_str (roomId p))]
             (setSide id (r <| projects := obj_set (p_id p) p (projects r) |> <| updatedAt := now e 0 |>) st))
    end).

Definition setProjectArchived (e : Env) (sideIdValue projectIdValue : jval) (archive : bool) (st : State) : result (option Project) * State :=
  with_side sideIdValue st (λ id r,
    let pid := lower (trim (if is_nullish projectIdValue then EmptyString else to_str num_str projectIdValue)) in
    match om_get pid (projects r) with
    | None => (Ok None, st)
    | Some p =>
        let p := p <| archived := archive |> <| archivedAt := if archive then Some (now e 0) else None |> <| p_updatedAt := now e 0 |> in
        finish e (Some p)
          (_audit (if archive then "project_archived" else "project_unarchived") (now e 1) [("side", JStr id); ("project", JStr pid)]
             (setSide id (r <| projects := obj_set pid p (projects r) |> <| updatedAt := now e 0 |>) st))
    end).

(** The side and the project of a room. *)
Definition projectForRoom (roomIdValue : jval) (st : State) : option (string * Project) :=
  let room := trim (if is_nullish roomIdValue then EmptyString else to_str num_str roomIdValue) in
  match index_of ":" room with
  | None | Some O => None
  | Some i =>
      let sideId := lower (drop_str (S i) room) in
      match om_get sideId (sides st) with
      | None => None
      | Some r => pair sideId <$> List.find (λ p, bool_decide (roomId p = Some room)) (om_vals (projects r))
      end
  end.

(** ** Leaving *)

Definition setActive (e : Env) (idValue : jval) (on : bool) (st : State) : result (option PublicSide) * State :=
  with_side idValue st (λ id r,
    commit e (if on then "side_reactivated" else "side_deactivated") (now e 1) [("side", JStr id)] id (r <| active := on |> <| updatedAt := now e 0 |>) st).
Definition deactivateSide (e : Env) (idValue : jval) (st : State) : result (option PublicSide) * State := setActive e idValue false st.
Definition reactivateSide (e : Env) (idValue : jval) (st : State) : result (option PublicSide) * State := setActive e idValue true st.

(** The only call that takes its change back when the save throws; the record comes back last. *)
Definition removeSide (e : Env) (idValue : jval) (force : bool) (cleanup : jval) (st : State) : result (option PublicSide) * State :=
  with_side idValue st (λ id r,
    if active r && negb force then (Throw "side_active", st) else
    let st1 := _audit "side_removed" (now e 0) ([("side", JStr id); ("forced", JBool force)] ++ (if to_bool cleanup then [("cleanup", cleanup)] else []))
                 (st <| sides := om_del id (sides st) |>) in
    let '(res, st2) := finish e (Some (publicSide r)) st1 in
    match res with
    | Ok a => (Ok a, st2)
    | Throw x => (Throw x, st2 <| sides := obj_set id r (sides st2) |> <| audit := audit st |>)
    end).

Definition listAudit (st : State) : list Audit := audit st.

End model.
End ProjectSides.
