(* ===== verification/ProjectSideFacts.v ===== *)
(** * Project sides: what holds of every record

    The invariant of the store over any sequence of calls, failed saves and restarts: one record per
    homeserver, a representative and rooms that live on it, a room with one project, a staged
    credential only beside a live one. *)

From Stdlib Require Import ZArith QArith Qround Lia String Ascii.
From stdpp Require Import base list strings relations.
From S2P Require Import Prelude OMap Json ProjectSides.
Import ProjectSides.
#[local] Open Scope stdpp_scope.

Lemma lower_char_idem c : lower_ascii (lower_ascii c) = lower_ascii c.
Proof.
  assert (H : forallb (λ c, Ascii.eqb (lower_ascii (lower_ascii c)) (lower_ascii c)) (chars 256) = true) by (by vm_compute).
  rewrite forallb_elem in H. by apply Ascii.eqb_eq, H, chars_all.
Qed.

Lemma lower_idem s : lower (lower s) = lower s.
Proof. induction s as [|c s IH]; [done|]. cbn. by rewrite lower_char_idem, IH. Qed.

Section facts.
Context (num_str : num → string) (str_num : string → num) (parseURL : string → option URL) (before : string → string → bool) (auditLimit : nat).

(** ** The calls that change the store *)

Inductive request : Type :=
| UpsertSide (input : jval)
| SetAllocation (id tokens : jval)
| SetCredential (id value : jval) (stage : bool)
| Promote (id : jval)
| Observe (id input : jval)
| SetRepresentative (id input : jval)
| UpsertProject (id input : jval)
| SetArchived (id project : jval) (archive : bool)
| SetActive (id : jval) (on : bool)
| RemoveSide (id : jval) (force : bool) (cleanup : jval).

(** What a call answers: a side, a project, or [null]. *)
Inductive answer : Type := ASide (s : option PublicSide) | AProject (p : option Project).

Definition side_answer (o : result (option PublicSide) * State) : result answer * State :=
  (match o.1 with Ok a => Ok (ASide a) | Throw x => Throw x end, o.2).
Definition project_answer (o : result (option Project) * State) : result answer * State :=
  (match o.1 with Ok a => Ok (AProject a) | Throw x => Throw x end, o.2).

Definition exec (e : Env) (q : request) (st : State) : result answer * State :=
  match q with
  | UpsertSide input => side_answer (upsertSide num_str parseURL before auditLimit e input st)
  | SetAllocation id tokens => side_answer (setAllocation num_str str_num before auditLimit e id tokens st)
  | SetCredential id value stage => side_answer (setCredential num_str parseURL before auditLimit e id value stage st)
  | Promote id => side_answer (promotePendingCredential before auditLimit e id st)
  | Observe id input => side_answer (observeAccess before auditLimit e id input st)
  | SetRepresentative id input => side_answer (setRepresentative before auditLimit e id input st)
  | UpsertProject id input => project_answer (upsertProject num_str auditLimit e id input st)
  | SetArchived id project archive => project_answer (setProjectArchived num_str auditLimit e id project archive st)
  | SetActive id on => side_answer (setActive before auditLimit e id on st)
  | RemoveSide id force cleanup => side_answer (removeSide before auditLimit e id force cleanup st)
  end.

(** A call, whatever becomes of its save, or a restart that loads the file. *)
Inductive side_step : relation State :=
| s_call e q st : side_step st (exec e q st).2
| s_load st : side_step st (_load auditLimit (file st)).

Definition empty : State := _load auditLimit None.

(** ** The invariant of a record *)

Definition room_ok (k room : string) : Prop :=
  trim room = room ∧ String.prefix "!" room = true ∧ (lower <$> after_colon room) = Some k.

Record projects_ok (k : string) (ps : omap Project) : Prop := ProjectsOk {
  po_keys : NoDup (om_keys ps);
  po_id : ∀ i p, om_get i ps = Some p → p_id p = i;
  po_room : ∀ i p room, om_get i ps = Some p → roomId p = Some room → room_ok k room;
  po_unique : ∀ i j p q room, om_get i ps = Some p → om_get j ps = Some q → roomId p = Some room → roomId q = Some room → i = j;
}.

Record side_ok (k : string) (r : Side) : Prop := SideOk {
  so_id : id r = k; so_server : serverName_ r = k;
  so_name : SERVER_NAME_RE k = true ∧ lower k = k;
  so_staged : pendingCredential r ≠ None → credential_ r ≠ None;
  so_issued : accessIssuedAt r ≠ None → credential_ r ≠ None;
  so_state : accessState r ∈ ACCESS_STATES;
  so_alloc : ∀ z, allocatedTokens r = Some z → 0 ≤ z;
  so_rep : ∀ p, representative r = Some p → String.prefix "@" (mxid p) = true ∧ (lower <$> after_colon (mxid p)) = Some k;
  so_projects : projects_ok k (projects r);
}.

Definition sides_ok (m : omap Side) : Prop := NoDup (om_keys m) ∧ ∀ k r, om_get k m = Some r → side_ok k r.

Record inv (st : State) : Prop := Inv {
  i_sides : sides_ok (sides st);
  i_file : ∀ s a, file st = Some (s, a) → sides_ok s;
  i_audit : (length (audit st) ≤ auditLimit)%nat;
}.

Lemma sides_ok_set k r m : sides_ok m → side_ok k r → sides_ok (obj_set k r m).
Proof.
  intros [Hn H] Hr. split; [by apply om_nodup_obj_set|]. intros k' r'. rewrite om_get_obj_set. destruct (String.eqb_spec k k') as [<-|]; [by intros [= <-]|apply H].
Qed.

Lemma sides_ok_del k m : sides_ok m → sides_ok (om_del k m).
Proof.
  intros [Hn H]. split; [by apply om_nodup_del|]. intros k' r'. rewrite om_get_del. destruct (String.eqb k k'); [done|apply H].
Qed.

Lemma audit_length t n d st : (length (audit (_audit auditLimit t n d st)) ≤ auditLimit)%nat.
Proof. unfold _audit. cbn. rewrite List.length_skipn, length_app. cbn. lia. Qed.

Lemma inv_finish {A} e (a : A) st : inv st → inv (finish e a st).2.
Proof. intros [H1 H2 H3]. unfold finish. destruct (save e); cbn; split; try done; intros s b [= <- <-]; exact H1. Qed.

Lemma inv_audit t n d st : sides_ok (sides st) → (∀ s a, file st = Some (s, a) → sides_ok s) → inv (_audit auditLimit t n d st).
Proof. intros H1 H2. split; [exact H1|exact H2|apply audit_length]. Qed.

Lemma inv_set e {A} (a : A) k r t n d st : inv st → side_ok k r → inv (finish e a (_audit auditLimit t n d (setSide k r st))).2.
Proof. intros [H1 H2 H3] Hr. apply inv_finish, inv_audit; [by apply sides_ok_set|done]. Qed.

Lemma inv_commit e t n d k r st : inv st → side_ok k r → inv (commit before auditLimit e t n d k r st).2.
Proof. intros. unfold commit. by apply inv_set. Qed.

(** ** Names *)

Lemma serverName_ok v k : serverName v = Ok k → SERVER_NAME_RE k = true ∧ lower k = k.
Proof.
  unfold serverName. intros (t & _ & H)%bind_Ok. destruct (SERVER_NAME_RE (lower t)) eqn:E; [|done]. injection H as <-. split; [done|apply lower_idem].
Qed.

Lemma text_trim v n t : text v n = Ok t → trim t = t.
Proof. unfold text. destruct (_ || _); [done|]. intros [= <-]. destruct v; try done. apply trim_idem. Qed.

(** The calls on a side that answer from a record of the store. *)
Lemma with_side_inv {A} v st (f : string → Side → result (option A) * State) :
  inv st → (∀ k r, om_get k (sides st) = Some r → side_ok k r → inv (f k r).2) → inv (with_side v st f).2.
Proof.
  intros H Hf. unfold with_side. destruct (serverName v) as [k|]; [|done]. destruct (om_get k (sides st)) as [r|] eqn:E; [|done].
  apply Hf; [done|]. by apply (proj2 (i_sides _ H)).
Qed.

(** ** Every call keeps the invariant *)

Ltac keep_side H := destruct H; split; cbn; try done.

Lemma unverified_listed : "unverified" ∈ ACCESS_STATES.
Proof. unfold ACCESS_STATES. by left. Qed.

Lemma upsert_ok input k existing t r : upserted num_str parseURL input k existing t = Ok r → SERVER_NAME_RE k = true ∧ lower k = k →
  (∀ x, existing = Some x → side_ok k x) → side_ok k r.
Proof.
  unfold upserted. intros (l & _ & (base & _ & (cred & _ & [= <-])%bind_Ok)%bind_Ok)%bind_Ok Hk Hx.
  set (r := MkSide _ _ _ _ _ _ _ _ _ _ _ _ _ _ _ _ _).
  assert (Hr : side_ok k r).
  { unfold r. destruct existing as [x|]; [destruct (Hx x eq_refl); by split|]. split; cbn; try done; [exact unverified_listed|].
    split; cbn; try done. apply NoDup_nil_2. }
  destruct (bool_decide _); [done|]. clearbody r. keep_side Hr. exact unverified_listed.
Qed.

Lemma checkRoom_ok k i ps room room' : checkRoom k i ps room = Ok room' → (∀ m, room = Some m → trim m = m) → k ≠ EmptyString →
  room' = room ∧ ∀ m, room = Some m → room_ok k m ∧ ∀ p, p ∈ om_vals ps → roomId p = Some m → p_id p = i.
Proof.
  unfold checkRoom. destruct room as [m|]; [|by intros [= <-]]. destruct (String.prefix "!" m) eqn:E1; cbn [negb]; [|done].
  destruct (String.eqb_spec (lower (default EmptyString (after_colon m))) k) as [<-|]; cbn [negb]; [|done].
  destruct (existsb _ _) eqn:E3; [done|]. intros [= <-] Ht Hk. split; [done|]. intros m' [= <-]. split.
  - split_and!; [by apply Ht|done|]. destruct (after_colon m); [done|by exfalso].
  - intros p Hp Hroom. destruct (String.eqb_spec (p_id p) i) as [|Hne]; [done|]. exfalso.
    rewrite <-not_true_iff_false in E3. apply E3, existsb_exists. exists p. split; [by apply list_elem_of_In|].
    rewrite Hroom, bool_decide_eq_true_2 by done. by apply String.eqb_neq in Hne as ->.
Qed.

Lemma project_ok input k ps t p : projectFrom num_str input k ps t = Ok p → k ≠ EmptyString → projects_ok k ps → projects_ok k (obj_set (p_id p) p ps).
Proof.
  unfold projectFrom. intros (name & _ & H)%bind_Ok Hk Hps. set (i := slug _) in H. destruct (negb (truthy i)); [done|].
  destruct (existsb _ _) in H; [done|]. apply bind_Ok in H as (room & Hroom & H). apply bind_Ok in H as (room' & Hc & H). apply bind_Ok in H as (nt & _ & H).
  injection H as <-. cbn [p_id]. destruct Hps as [Hn Hid Hr Hu].
  assert (Ht : ∀ m, room = Some m → trim m = m).
  { intros m ->. destruct (nullish_or _ _) eqn:E; try discriminate Hroom.
    { injection Hroom as Hroom. destruct (om_get i ps) as [q|] eqn:Eq; [|done]. cbn in Hroom. by destruct (Hr _ _ _ Eq Hroom). }
    all: destruct (strict_eq _ _) in Hroom; [done|]; apply bind_Ok in Hroom as (r & Hr' & [= ->]); by eapply text_trim. }
  destruct (checkRoom_ok _ _ _ _ _ Hc Ht Hk) as [-> Hm].
  split; [by apply om_nodup_obj_set| | |].
  - intros j q. rewrite om_get_obj_set. destruct (String.eqb_spec i j) as [<-|]; [by intros [= <-]|apply Hid].
  - intros j q m. rewrite om_get_obj_set. destruct (String.eqb_spec i j) as [<-|]; [|apply Hr]. intros [= <-] Hq. cbn in Hq. by apply Hm.
  - assert (Hold : ∀ j q m, om_get j ps = Some q → room = Some m → roomId q = Some m → j = i).
    { intros j q m Hq Hm' Hrq. rewrite <-(Hid j q Hq). apply (Hm m Hm'); [|done]. by eapply om_get_vals. }
    intros j1 j2 q1 q2 m. rewrite !om_get_obj_set. destruct (String.eqb_spec i j1) as [<-|], (String.eqb_spec i j2) as [<-|]; [done| | |apply Hu].
    + intros [= <-] Hq Hm1 Hm2. cbn in Hm1. symmetry. by eapply Hold.
    + intros Hq [= <-] Hm1 Hm2. cbn in Hm2. by eapply Hold.
Qed.

Lemma archive_ok k ps i p b t t' : om_get i ps = Some p → projects_ok k ps →
  projects_ok k (obj_set i (p <| archived := b |> <| archivedAt := t |> <| p_updatedAt := t' |>) ps).
Proof.
  intros Hp [Hn Hid Hr Hu]. split; [by apply om_nodup_obj_set| | |].
  - intros j q. rewrite om_get_obj_set. destruct (String.eqb_spec i j) as [<-|]; [|apply Hid]. intros [= <-]. cbn. by apply Hid.
  - intros j q m. rewrite om_get_obj_set. destruct (String.eqb_spec i j) as [<-|]; [|apply Hr]. intros [= <-] Hm. cbn in Hm. by eapply Hr.
  - intros j1 j2 q1 q2 m. rewrite !om_get_obj_set. destruct (String.eqb_spec i j1) as [<-|], (String.eqb_spec i j2) as [<-|]; [done| | |apply Hu].
    + intros [= <-] Hq Hm1 Hm2. cbn in Hm1. by eapply Hu.
    + intros Hq [= <-] Hm1 Hm2. cbn in Hm2. by eapply Hu.
Qed.

Lemma name_nonempty k : SERVER_NAME_RE k = true → k ≠ EmptyString.
Proof. by intros H ->. Qed.

Lemma exec_inv e q st : inv st → inv (exec e q st).2.
Proof.
  intros H. destruct q; cbn [exec side_answer project_answer snd].
  - unfold upsertSide. destruct (serverName _) as [k|] eqn:Ek; [|done]. destruct (upserted _ _ _ _ _ _) as [r|] eqn:Er; [|done].
    apply inv_commit; [done|]. eapply upsert_ok; [done|by eapply serverName_ok|]. intros x Hx. by apply (proj2 (i_sides _ H)).
  - apply with_side_inv; [done|]. intros k r Hg Hr. destruct (is_nullish tokens); [apply inv_commit; [done|]; by keep_side Hr|].
    destruct (to_number _ _ _) as [| |z]; [done|done|]. cbv zeta. destruct (Qeq_bool z _ && _) eqn:E; [|done]. apply andb_true_iff in E as [_ E%Z.leb_le].
    apply inv_commit; [done|]. keep_side Hr. intros z' [= <-]. done.
  - apply with_side_inv; [done|]. intros k r Hg Hr. destruct (match value with JNull => Ok None | _ => _ end) as [given|]; [|done].
    assert (Hplain : side_ok k (unverified (r <| credential_ := given |> <| pendingCredential := None |> <| pendingIssuedAt := None |>
                <| accessIssuedAt := match given with Some _ => Some (now e 0) | None => None end |> <| updatedAt := now e (match given with Some _ => 1 | None => 0 end) |>))).
    { keep_side Hr; [by destruct given|exact unverified_listed]. }
    destruct given as [c|]; [|by apply inv_commit]. destruct (if stage then credential_ r else None) as [c'|] eqn:E; [|by apply inv_commit].
    apply inv_commit; [done|]. destruct stage; [|done]. keep_side Hr. intros _. by rewrite E.
  - apply with_side_inv; [done|]. intros k r Hg Hr. destruct (pendingCredential r) as [c|]; [|done]. apply inv_commit; [done|]. by keep_side Hr.
  - apply with_side_inv; [done|]. intros k r Hg Hr. destruct (text (prop input "state") 32) as [state|]; [|done].
    destruct (negb (inb state ACCESS_STATES)) eqn:Es; [done|]. apply negb_false_iff, inb_spec in Es.
    destruct (optional_text _ _) as [d|]; [apply inv_commit; [done|]; by keep_side Hr|]. cbn [snd]. destruct H as [H1 H2 H3].
    split; [|done|done]. apply sides_ok_set; [done|]. by keep_side Hr.
  - apply with_side_inv; [done|]. intros k r Hg Hr. destruct (text (prop input "mxid") 255) as [m|]; [|done].
    destruct (String.prefix "@" m) eqn:Ep; [|done]. destruct (index_of ":" m) as [i|] eqn:Ei; [|done].
    destruct (String.eqb_spec (lower (drop_str (S i) m)) (serverName_ r)) as [Hl|]; cbn [negb]; [|done]. apply inv_commit; [done|].
    rewrite (so_server _ _ Hr) in Hl. keep_side Hr. intros p [= <-]. cbn. split; [done|]. unfold after_colon. rewrite Ei. exact (f_equal Some Hl).
  - apply with_side_inv; [done|]. intros k r Hg Hr. destruct (projectFrom _ _ _ _ _) as [p|] eqn:Ep; [|done]. apply inv_set; [done|].
    pose proof (project_ok _ _ _ _ _ Ep (name_nonempty _ (proj1 (so_name _ _ Hr))) (so_projects _ _ Hr)). by keep_side Hr.
  - apply with_side_inv; [done|]. intros k r Hg Hr. cbv zeta. destruct (om_get _ (projects r)) as [p|] eqn:Ep; [|done]. apply inv_set; [done|].
    pose proof (archive_ok k (projects r) _ p archive (if archive then Some (now e 0) else None) (now e 0) Ep (so_projects _ _ Hr)). by keep_side Hr.
  - apply with_side_inv; [done|]. intros k r Hg Hr. apply inv_commit; [done|]. by keep_side Hr.
  - apply with_side_inv; [done|]. intros k r Hg Hr. destruct (active r && _); [done|]. cbv zeta.
    set (st1 := _audit _ _ _ _ _). assert (H1 : inv st1) by (apply inv_audit; [by apply sides_ok_del, H|apply H]).
    pose proof (inv_finish e (Some (publicSide before r)) st1 H1) as H2. destruct (finish e _ st1) as [[a|x] st2]; [exact H2|].
    cbn [snd] in *. destruct H2 as [A B C]. split; [by apply sides_ok_set|exact B|apply H].
Qed.

Lemma side_inv st : rtc side_step empty st → inv st.
Proof.
  revert st. refine (rtc_ind_r (R:=side_step) inv empty _ _).
  - split; cbn; [split; [apply NoDup_nil_2|done]|done|lia].
  - intros st st' _ [e q s|s] H; [by apply exec_inv|]. destruct (file s) as [[m a]|] eqn:E; cbn.
    + split; cbn; [by eapply (i_file _ H)|by intros s' a' [= <- <-]; eapply (i_file _ H)|rewrite List.length_skipn; lia].
    + split; cbn; [split; [apply NoDup_nil_2|done]|done|lia].
Qed.

(** ** Rooms *)

Lemma find_unique {A} (f : A → bool) l x : x ∈ l → f x = true → (∀ y, y ∈ l → f y = true → y = x) → List.find f l = Some x.
Proof.
  intros Hin Hx Hu. destruct (List.find f l) as [y|] eqn:E.
  - apply find_some in E as [Hy Hf]. f_equal. apply Hu; [by apply list_elem_of_In|done].
  - exfalso. rewrite (find_none _ _ E x) in Hx; [done|by apply list_elem_of_In].
Qed.

Lemma room_found st k r i p room : inv st → om_get k (sides st) = Some r → om_get i (projects r) = Some p → roomId p = Some room →
  projectForRoom num_str (JStr room) st = Some (k, p).
Proof.
  intros H Hk Hi Hroom. destruct (proj2 (i_sides _ H) k r Hk) as [_ _ Hname _ _ _ _ _ [Hn Hid Hr Hu]].
  destruct (Hr i p room Hi Hroom) as (Ht & Hp & Hc). unfold projectForRoom. cbn [is_nullish to_str]. rewrite Ht.
  unfold after_colon in Hc. destruct (index_of ":" room) as [[|n]|] eqn:E; [| |done].
  - exfalso. destruct room as [|c s]; [done|]. cbn [index_of] in E. destruct (Ascii.eqb ":" c) eqn:Ec; [|by destruct (index_of ":" s)].
    apply Ascii.eqb_eq in Ec as <-. cbn in Hp. done.
  - change (Some (lower (drop_str (S (S n)) room)) = Some k) in Hc. apply (inj Some) in Hc. cbv zeta. rewrite Hc, Hk. rewrite (find_unique _ _ p); [done|by eapply om_get_vals|by apply bool_decide_eq_true_2|].
    intros q (j & Hj)%om_vals_get Hq%bool_decide_eq_true_1. apply (elem_of_om_get) in Hj; [|done]. assert (j = i) as -> by (eapply Hu; [exact Hj|exact Hi|exact Hq|exact Hroom]). congruence.
Qed.

Lemma calls_reach l st : rtc side_step st (fold_left (λ st c, (exec c.1 c.2 st).2) l st).
Proof. revert st. induction l as [|[e q] l IH]; intros st; [done|]. eapply rtc_l; [apply (s_call e q)|apply IH]. Qed.

(** Whatever is called, whichever saves fail and however often the file is loaded again: there is
    one record per homeserver, under its normalized name; its representative and the rooms of its
    projects live there; a room names exactly one project of all sides, and looking it up finds it; an
    allocation is never negative, and a credential is only staged beside a live one. The same holds of
    the records in the file. *)
Theorem sides_are_well_formed st :
  rtc side_step empty st →
  sides_ok (sides st) ∧ (∀ s a, file st = Some (s, a) → sides_ok s) ∧ (length (audit st) ≤ auditLimit)%nat ∧
  (∀ k r i p room, om_get k (sides st) = Some r → om_get i (projects r) = Some p → roomId p = Some room →
     projectForRoom num_str (JStr room) st = Some (k, p) ∧
     ∀ k' r' i' p', om_get k' (sides st) = Some r' → om_get i' (projects r') = Some p' → roomId p' = Some room → k' = k ∧ i' = i).
Proof.
  intros H%side_inv. split_and!; [apply H|apply H|apply H|]. intros k r i p room Hk Hi Hroom.
  pose proof (room_found _ _ _ _ _ _ H Hk Hi Hroom) as Hf. split; [done|]. intros k' r' i' p' Hk' Hi' Hroom'.
  pose proof (room_found _ _ _ _ _ _ H Hk' Hi' Hroom') as Hf'. rewrite Hf in Hf'. injection Hf' as <- <-. split; [done|].
  assert (r' = r) as -> by congruence. destruct (proj2 (i_sides _ H) k r Hk) as [_ _ _ _ _ _ _ _ [_ Hid _ _]].
  by rewrite <-(Hid _ _ Hi), <-(Hid _ _ Hi').
Qed.

End facts.

(** A run: a side is created, given a representative and a project with a room; a second save fails
    and the file is loaded again. *)
Definition at_ (s : save_result) : Env := MkEnv (λ n, Z.of_nat n) s.
Definition parse0 (s : string) : option URL :=
  if String.prefix "https://" s then Some (MkURL s "https:" EmptyString EmptyString "example.org" "/" EmptyString EmptyString) else None.
Definition run0 (l : list (Env * request)) (st : State) : State :=
  fold_left (λ st c, (exec (λ _, "0") (λ _, NaN) parse0 String.ltb 10 c.1 c.2 st).2) l st.
Definition side0 : jval := JObj [("server_name", JStr "Example.org"); ("api_base_url", JStr "https://example.org/");
  ("credential", JObj [("kind", JStr "registrationToken"); ("registrationToken", JStr "secret")])].
Definition project0 (name : string) : jval := JObj [("name", JStr name); ("room_id", JStr "!r1:Example.org")].
Definition calls0 : list (Env * request) :=
  [(at_ Saved, UpsertSide side0); (at_ Saved, SetRepresentative (JStr "example.org") (JObj [("mxid", JStr "@hf:example.org")]));
   (at_ Saved, UpsertProject (JStr "example.org") (project0 "Web Site")); (at_ NotWritten, UpsertProject (JStr "example.org") (project0 "Other"))].

Lemma sides_are_well_formed_witness :
  let st := run0 calls0 (empty 10) in
  rtc (side_step (λ _, "0") (λ _, NaN) parse0 String.ltb 10) (empty 10) st ∧ sides_ok (sides st) ∧
  projectForRoom (λ _, "0") (JStr "!r1:Example.org") st = Some ("example.org", MkProject "web-site" "Web Site" (Some "!r1:Example.org") None false None 0 0).
Proof.
  intros st. assert (H : rtc (side_step (λ _, "0") (λ _, NaN) parse0 String.ltb 10) (empty 10) st) by apply calls_reach.
  destruct (sides_are_well_formed _ _ _ _ _ _ H) as (Hs & _ & _ & Hr). split_and!; [done|done|].
  eapply (Hr "example.org" _ "web-site"); vm_compute; reflexivity.
Defined.

(** ** What the records show *)

Definition staged0 : State := run0
  [(at_ Saved, UpsertSide side0); (at_ Saved, SetCredential (JStr "example.org") (prop side0 "credential") false);
   (at_ Saved, SetCredential (JStr "example.org") (JObj [("kind", JStr "registrationToken"); ("registrationToken", JStr "next")]) true)] (empty 10).
Definition shown (st : State) (f : PublicSide → bool) : option bool := f <$> getSide String.ltb (JStr "example.org") st.

(** An update of the label drops the staged credential and the time the live one was issued; the live
    credential is carried forward. *)
Lemma label_update_drops_staged :
  let st := run0 [(at_ Saved, UpsertSide (JObj [("server_name", JStr "example.org"); ("label", JStr "New")]))] staged0 in
  shown staged0 awaitingInstall = Some true ∧ shown staged0 (λ v, is_Some_b (v_accessIssuedAt v)) = Some true ∧
  shown st awaitingInstall = Some false ∧ shown st (λ v, is_Some_b (v_accessIssuedAt v)) = Some false ∧ shown st hasCredential = Some true.
Proof. by vm_compute. Qed.

(** An observation that is refused for its detail has set the verdict, and left the detail and the time
    of the one before. *)
Lemma refused_observation_changes_verdict :
  let st := run0 [(at_ Saved, Observe (JStr "example.org") (JObj [("state", JStr "rejected"); ("detail", JStr "no such user")]))] staged0 in
  let o := exec (λ _, "0") (λ _, NaN) parse0 String.ltb 10 (at_ Saved) (Observe (JStr "example.org") (JObj [("state", JStr "accepted"); ("detail", JStr " ")])) st in
  o.1 = Throw "bad_request" ∧
  shown o.2 (λ v, String.eqb (v_accessState v) "accepted" && bool_decide (v_accessDetail v = Some "no such user")) = Some true.
Proof. by vm_compute. Qed.

(** A credential that was promoted is used although the save failed, and a restart brings the old one
    back. *)
Lemma failed_promotion_is_live :
  let st := run0 [(at_ NotWritten, Promote (JStr "example.org"))] staged0 in
  credentialFor (JStr "example.org") st = Ok (Some (RegistrationToken "next" None)) ∧
  credentialFor (JStr "example.org") (_load 10 (file st)) = Ok (Some (RegistrationToken "secret" None)).
Proof. by vm_compute. Qed.

(** A token of the application service that is the token of the transport between spaces passes the
    test that they are independent, and is stored without the spaces. *)
Lemma padded_token_passes_independence :
  let fleet := "hf_0123456789abcdef0123456789abcdef" in let token := "0123456789abcdef" in
  let parse s := Some (MkURL s "https:" EmptyString EmptyString "example.org" (drop_str 19 s) EmptyString EmptyString) in
  let url := "https://example.org/api/fleet/v2/" +:+ fleet in
  let value asToken := JObj [("kind", JStr "appservice"); ("senderLocalpart", JStr (fleet +:+ "_representative")); ("namespace", JStr "ac_");
    ("asToken", JStr asToken); ("hsToken", JStr "hs");
    ("transport", JObj [("mode", JStr "outbound"); ("url", JStr url); ("token", JStr token); ("generation", JNum (Fin 1))])] in
  credential (λ _, "0") parse (value token) = Throw "bad_request" ∧
  credential (λ _, "0") parse (value (" " +:+ token)) =
    Ok (Appservice (Some (MkTransport url token 1)) token "hs" None "ac_" (fleet +:+ "_representative")).
Proof. by vm_compute. Qed.
