(* ===== verification/Seats.v ===== *)
(** * Seats and budgets ([lib/seat-store.js], [lib/server-identity.js], the projection of
      [lib/resource-allocation-budget.js]): data and operations

    Which agents share one purchased capacity, how much has been promised out of it, and how much of a
    pool and its seat a new allocation may take. The theorems follow the modules. Figures are rationals:
    the rounding of sums that leave the exact range of doubles is not modelled. The host name and the
    environment variable are arguments, the two hashes parameters. *)

From Stdlib Require Import ZArith QArith Qround Qminmax Lia String Ascii.
From stdpp Require Import base list strings.
From S2P Require Import Prelude OMap Json EngagementStore.
#[local] Open Scope stdpp_scope.

Module ServerIdentity.

Definition normalizeServer (v : jval) : option string :=
  match v with JStr s => truthy_opt (Some (trim s)) | _ => None end.

Definition or_else (a b : option string) : option string := match a with Some _ => a | None => b end.

Definition resolveLocalServerId (envServer hostname : jval) : string :=
  default "local" (or_else (normalizeServer envServer) (normalizeServer hostname)).

Definition add (s : option string) (l : list string) : list string :=
  match s with Some x => if inb x l then l else l ++ [x] | None => l end.

Definition localServerAliases (localServerId hostname : jval) (includeLegacyLocal : bool) : list string :=
  add (normalizeServer hostname) (add (normalizeServer localServerId) (if includeLegacyLocal then ["local"] else [])).

(** Called with the default options: the legacy alias counts, the host name is the machine's. *)
Definition isLocalAgentServer (envServer hostname : jval) (serverId : jval) : bool :=
  match normalizeServer serverId with
  | None => true
  | Some s => inb s (localServerAliases (JStr (resolveLocalServerId envServer hostname)) hostname true)
  end.

Definition serversEquivalent (envServer hostname : jval) (left right : jval) : bool :=
  match normalizeServer left, normalizeServer right with
  | None, None => true
  | Some l, Some r =>
      String.eqb l r ||
      let aliases := localServerAliases (JStr (resolveLocalServerId envServer hostname)) hostname true in
      inb l aliases && inb r aliases
  | _, _ => false
  end.

End ServerIdentity.

Module Seats.
Import ServerIdentity.

(** [a?.b?.c] *)
Definition path (v : jval) (ks : list string) : jval := foldl prop v ks.

Definition authModeOf (agent : jval) : string :=
  let k := path agent ["runtimeProfile"; "primary"; "apiKey"] in
  let hasKey := match k with JBool b => b | JStr s => truthy s | _ => false end in
  if hasKey then "api-key" else "subscription".

Definition CREDENTIAL_HOME : omap string :=
  [("claude", "~/.claude"); ("codex", "~/.codex"); ("codex-acp", "~/.codex"); ("octos", "~/.config/octos");
   ("hermes", "~/.hermes")].

Record Identity : Type := MkIdentity {
  seatId : string; keyId : string; keyed : bool; server : string; framework : string; authMode : string;
  credentialHome : string; keyScope : string; provider : jval;
}.

Section seats.
Context (num_str : num → string) (str_num : string → num) (sha256 : string → string)
        (hmac : string → string → string) (envServer hostname : jval).

Definition serverOfAgent (agent : jval) : string :=
  let rawServer := default "local" (normalizeServer (prop agent "server")) in
  if isLocalAgentServer envServer hostname (JStr rawServer) then "local" else rawServer.

Definition frameworkOf (agent : jval) : string :=
  lower (trim (to_str num_str (js_or (prop agent "type") (JStr "agent")))).

Definition homeOf (framework : string) : string :=
  default ("~/." +:+ framework) (om_get framework CREDENTIAL_HOME).

Definition keyScopeOf (agent : jval) : string :=
  if String.eqb (authModeOf agent) "subscription" then "subscription" else
  match path agent ["runtimeProfile"; "primary"; "apiKey"] with
  | JStr s => if truthy s then "key:" +:+ slice_to 12 (sha256 s) else "key:redacted"
  | _ => "key:redacted"
  end.

(** What is hashed: the JSON text of the array of the three. *)
Definition material (server home scope : string) : string :=
  default "" (stringify num_str (JArr [JStr server; JStr home; JStr scope])).

Definition digest (secret m : string) : string := if truthy secret then hmac secret m else sha256 m.

Definition seatIdentity (keyIdV secret : string) (agent : jval) : Identity :=
  let server := serverOfAgent agent in
  let fw := frameworkOf agent in
  let home := homeOf fw in
  let scope := keyScopeOf agent in
  MkIdentity ("seat_" +:+ keyIdV +:+ "_" +:+ slice_to 16 (digest secret (material server home scope)))
    (if truthy secret then keyIdV else keyIdV +:+ "-unkeyed") (truthy secret) server fw (authModeOf agent) home scope
    (nullish_or (path agent ["runtimeProfile"; "primary"; "provider"]) JNull).

(** [num(v)]: a number that is not negative; empty text, booleans and absence are not numbers. *)
Definition num_ (v : jval) : option Q :=
  match v with
  | JNull | JUndef | JBool _ => None
  | JStr EmptyString => None
  | _ => match to_number num_str str_num v with
         | Fin q => if Qle_bool 0 q then Some q else None
         | _ => None
         end
  end.

(** ** Seats *)

Record Member : Type := MkMember {
  m_agent : jval; m_presetId : jval; m_model : jval; ceilingTokens : option Q; ceilingPeriod : jval;
}.

Record Seat : Type := MkSeat {
  identity : Identity; planLabel : jval; quotaTokens : option Q; period : jval; declaredBy : jval;
  declaredAt : jval; members : list Member; declaredTokens : Q; membersWithoutCeiling : Z;
  membersWithOtherPeriod : Z;
}.

(** The preset an agent names: the last one with that id. *)
Fixpoint presetById (id : jval) (presets : list jval) : option jval :=
  match presets with
  | [] => None
  | p :: ps => match presetById id ps with
               | Some q => Some q
               | None => if strict_eq (prop p "id") id then Some p else None
               end
  end.

Definition presetOf (presets : list jval) (agent : jval) : jval :=
  if to_bool (prop agent "presetId") then default JUndef (presetById (prop agent "presetId") presets) else JNull.

Definition newSeat (declarations : omap jval) (id : Identity) : Seat :=
  let declared := default (JObj []) (om_get (seatId id) declarations) in
  let get k := nullish_or (prop declared k) JNull in
  MkSeat id (get "planLabel") (num_ (prop declared "quotaTokens")) (get "period") (get "declaredBy")
    (get "declaredAt") [] 0 0 0.

Definition memberOf (presets : list jval) (agent : jval) : Member :=
  let preset := presetOf presets agent in
  MkMember (prop agent "name") (nullish_or (prop agent "presetId") JNull)
    (nullish_or (path agent ["runtimeProfile"; "primary"; "model"]) JNull)
    (num_ (path preset ["ceiling"; "tokens"])) (nullish_or (path preset ["ceiling"; "period"]) JNull).

(** Whether a member's ceiling is stated in another period than the seat's. *)
Definition otherPeriod (seatPeriod ceilingPeriod : jval) : bool :=
  to_bool seatPeriod && to_bool ceilingPeriod && negb (strict_eq ceilingPeriod seatPeriod).

Definition join (m : Member) (s : Seat) : Seat :=
  let grown d w o := MkSeat (identity s) (planLabel s) (quotaTokens s) (period s) (declaredBy s) (declaredAt s)
                       (members s ++ [m]) d w o in
  match ceilingTokens m with
  | None => grown (declaredTokens s) (membersWithoutCeiling s + 1)%Z (membersWithOtherPeriod s)
  | Some c =>
      if otherPeriod (period s) (ceilingPeriod m)
      then grown (declaredTokens s) (membersWithoutCeiling s) (membersWithOtherPeriod s + 1)%Z
      else grown (declaredTokens s + c)%Q (membersWithoutCeiling s) (membersWithOtherPeriod s)
  end.

Definition seatAgent (presets : list jval) (declarations : omap jval) (keyIdV secret : string)
    (seats : omap Seat) (agent : jval) : omap Seat :=
  let id := seatIdentity keyIdV secret agent in
  let seat := default (newSeat declarations id) (om_get (seatId id) seats) in
  om_set (seatId id) (join (memberOf presets agent) seat) seats.

Record SeatView : Type := MkSeatView { seat : Seat; overSubscribed : option bool; headroomTokens : option Q }.

Definition view (s : Seat) : SeatView :=
  match quotaTokens s with
  | Some q => if is_nullish (period s) then MkSeatView s None None
              else MkSeatView s (Some (negb (Qle_bool (declaredTokens s) q))) (Some (q - declaredTokens s)%Q)
  | None => MkSeatView s None None
  end.

Definition seatMap (agents presets : list jval) (declarations : omap jval) (keyIdV secret : string) : omap Seat :=
  foldl (seatAgent presets declarations keyIdV secret) [] agents.

Definition buildSeats (agents presets : list jval) (declarations : omap jval) (keyIdV secret : string) : list SeatView :=
  view <$> om_vals (seatMap agents presets declarations keyIdV secret).

Record Declaration : Type := MkDeclaration { d_planLabel : option string; d_quotaTokens : option Q; d_period : option string }.

Definition normalizeDeclaration (input : jval) : option Declaration :=
  let p := match prop input "period" with JStr s => if inb s ["daily"; "monthly"] then Some s else None | _ => None end in
  let q := num_ (prop input "quotaTokens") in
  let l := match prop input "planLabel" with JStr s => truthy_opt (Some (slice_to 128 (trim s))) | _ => None end in
  match q, l, p with None, None, None => None | _, _, _ => Some (MkDeclaration l q p) end.

End seats.
End Seats.

Module ResourceBudget.

(** An engagement with the pool and the seat its agent draws on. *)
Record Commitment : Type := MkCommitment {
  row : EngagementStore.Engagement; r_presetId : jval; r_seatId : jval;
}.

Record Pool : Type := MkPool { ceiling : option Q; p_period : jval; p_committed : Z; p_remaining : option Q }.
Record SeatBudget : Type := MkSeatBudget {
  quota : option Q; s_period : jval; s_committed : Z; s_remaining : option Q; s_status : string;
}.
Record Budget : Type := MkBudget { pool : Pool; seat : SeatBudget; reserved : Z; remainingTokens : option Q }.

Definition tokens (c : Commitment) : Z := default 0 (EngagementStore.allocatedTokens (row c)).

(** One pass of the loop over the three sums. *)
Definition count (presetId seatId : jval) (exclude : option string) (s : Z * Z * Z) (c : Commitment) : Z * Z * Z :=
  let '(poolCommitted, seatCommitted, reserved) := s in
  if negb (EngagementStore.holdsAllocation (row c)) then s else
  let ours := strict_eq (r_presetId c) presetId in
  if EngagementStore.str_eq_opt exclude (EngagementStore.id (row c))
  then (poolCommitted, seatCommitted, if ours then tokens c else reserved)
  else (if ours then poolCommitted + tokens c else poolCommitted,
        if strict_eq (r_seatId c) seatId then seatCommitted + tokens c else seatCommitted, reserved).

(** [Number.isFinite(v) ? v : null] *)
Definition finite (v : jval) : option Q := match v with JNum (Fin q) => Some q | _ => None end.

Definition left (limit : option Q) (committed : Z) : option Q :=
  match limit with Some q => Some (Qmax 0 (q - inject_Z committed)) | None => None end.

Definition resourceAllocationBudget (preset seatId declaration : jval) (commitments : list Commitment)
    (excludeEngagementId : option string) (forAutoJoin : bool) : Budget :=
  let '(poolCommitted, seatCommitted, reserved) :=
    foldl (count (prop preset "id") seatId excludeEngagementId) (0, 0, 0) commitments in
  let limits := prop preset "ceiling" in
  let ceiling := finite (prop limits "tokens") in
  let quota := finite (prop declaration "quotaTokens") in
  let matchingPeriod := strict_eq (prop declaration "period") (prop limits "period") in
  let pool := MkPool ceiling (nullish_or (prop limits "period") JNull) poolCommitted (left ceiling poolCommitted) in
  let seat := MkSeatBudget quota (nullish_or (prop declaration "period") JNull) seatCommitted
    (if matchingPeriod then left quota seatCommitted else None)
    (match quota with None => "undeclared" | Some _ => if matchingPeriod then "declared" else "period_mismatch" end) in
  let unknown := negb (is_Some_b ceiling) || String.eqb (s_status seat) "period_mismatch"
    || (forAutoJoin && to_bool declaration && negb (is_Some_b (s_remaining seat))) in
  MkBudget pool seat reserved
    (if unknown then None else
     match p_remaining pool with
     | Some p => Some (match s_remaining seat with Some s => Qmin p s | None => p end)
     | None => None
     end).

End ResourceBudget.

(** ** Seats and budgets: who shares, what is promised, what is left

    Two agents share a seat exactly when the credential they launch with is the same, because the JSON
    text of three strings determines them; the seats account for every agent once; an allocation within
    the remaining figure fits its pool and its seat; server equivalence is an equivalence relation. *)

From Stdlib Require Import ZArith QArith Qround Qminmax Lia Lqa String Ascii.
From stdpp Require Import base list strings.
From S2P Require Import Prelude OMap Json EngagementStore.
#[local] Open Scope stdpp_scope.

(** ** JSON text determines strings *)

(** The codes of two different characters, and of a character and the closing quote, are never one a
    prefix of the other. *)
Definition clash (s t : string) : bool := String.prefix s t || String.prefix t s.
Definition quote_text : string := String quote_char EmptyString.

Lemma codes_apart c d : clash (escape_char c) (escape_char d) = true → c = d.
Proof.
  assert (H : forallb (λ c, forallb (λ d, negb (clash (escape_char c) (escape_char d)) || Ascii.eqb c d) (chars 256)) (chars 256) = true)
    by (vm_compute; reflexivity).
  rewrite forallb_elem in H. specialize (H c (chars_all c)). rewrite forallb_elem in H. specialize (H d (chars_all d)).
  intros Hc. rewrite Hc in H. by apply Ascii.eqb_eq.
Qed.

Lemma code_not_quote c : clash (escape_char c) quote_text = false.
Proof.
  assert (H : forallb (λ c, negb (clash (escape_char c) quote_text)) (chars 256) = true) by (vm_compute; reflexivity).
  rewrite forallb_elem in H. by apply negb_true_iff, H, chars_all.
Qed.

Lemma prefix_clash (s t x y : string) : s +:+ x = t +:+ y → clash s t = true.
Proof.
  unfold clash. revert t x y. induction s as [|c s IH]; intros t x y H; [by destruct t|].
  destruct t as [|d t]; [by rewrite orb_true_r|]. injection H as <- H. apply IH in H. simpl. by destruct (ascii_dec c c).
Qed.

Lemma append_inj (s x y : string) : s +:+ x = s +:+ y → x = y.
Proof. induction s as [|c s IH]; [done|]. by intros [= H%IH]. Qed.

Lemma escape_inj s t x y : escape s +:+ quote_text +:+ x = escape t +:+ quote_text +:+ y → s = t ∧ x = y.
Proof.
  revert t. induction s as [|c s IH]; intros [|d t]; cbn [escape]; rewrite ?app_assoc_s; intros H.
  - split; [done|]. change (quote_text +:+ x = quote_text +:+ y) in H. by apply append_inj in H.
  - change (quote_text +:+ x = escape_char d +:+ (escape t +:+ quote_text +:+ y)) in H. symmetry in H.
    apply prefix_clash in H. by rewrite code_not_quote in H.
  - change (escape_char c +:+ (escape s +:+ quote_text +:+ x) = quote_text +:+ y) in H.
    apply prefix_clash in H. by rewrite code_not_quote in H.
  - pose proof (codes_apart c d (prefix_clash _ _ _ _ H)) as ->. apply append_inj in H.
    apply IH in H as [-> ->]. done.
Qed.

Import ServerIdentity Seats.

Lemma material_inj num_str a b c a' b' c' :
  material num_str a b c = material num_str a' b' c' → a = a' ∧ b = b' ∧ c = c'.
Proof.
  unfold material. simpl. intros [= H]. rewrite !app_assoc_s in H.
  apply escape_inj in H as [<- [= H]]. rewrite !app_assoc_s in H. apply escape_inj in H as [<- [= H]].
  rewrite !app_assoc_s in H. by apply escape_inj in H as [<- _].
Qed.

Section seats.
Context (num_str : num → string) (str_num : string → num) (sha256 : string → string)
        (hmac : string → string → string) (envServer hostname : jval).

(** What decides whether two agents draw on the same money. *)
Definition credential (agent : jval) : string * string * string :=
  (serverOfAgent envServer hostname agent, homeOf (frameworkOf num_str agent), keyScopeOf sha256 agent).

(** Two agents occupy the same seat exactly when they launch with the same credential: same server
    up to the local machine's aliases, same credential home, same key scope. The hypothesis is that
    the sixteen characters of the digest kept in the id tell these two texts apart. *)
Theorem seat_shared_iff_same_credential keyIdV secret a b :
  let text x := let '(s, h, k) := credential x in material num_str s h k in
  (text a ≠ text b → slice_to 16 (digest sha256 hmac secret (text a)) ≠ slice_to 16 (digest sha256 hmac secret (text b))) →
  seatId (seatIdentity num_str sha256 hmac envServer hostname keyIdV secret a) =
    seatId (seatIdentity num_str sha256 hmac envServer hostname keyIdV secret b) ↔ credential a = credential b.
Proof.
  intros text Hcol. unfold text, credential in *. cbn [seatIdentity seatId]. split.
  - intros H. apply append_inj, append_inj, append_inj in H.
    set (ma := material num_str (serverOfAgent envServer hostname a) _ _) in *.
    set (mb := material num_str (serverOfAgent envServer hostname b) _ _) in *.
    destruct (decide (ma = mb)) as [Hm|Hm]; [|by specialize (Hcol Hm)].
    apply material_inj in Hm as (-> & -> & ->). done.
  - intros [= H1 H2 H3]. by rewrite H1, H2, H3.
Qed.

(** ** Seats account for every agent *)

Definition counted (s : Seat) (m : Member) : option Q :=
  match ceilingTokens m with
  | Some c => if otherPeriod (period s) (ceilingPeriod m) then None else Some c
  | None => None
  end.
Definition counts (p : Member → bool) (l : list Member) : Z := Z.of_nat (length (List.filter p l)).
Definition qsum (l : list Q) : Q := foldr Qplus 0%Q l.

(** A seat's figures are what its members say. *)
Record seat_ok (s : Seat) : Prop := {
  so_declared : (declaredTokens s == qsum (stdpp.base.omap (counted s) (members s)))%Q;
  so_without : membersWithoutCeiling s = counts (λ m, negb (is_Some_b (ceilingTokens m))) (members s);
  so_other : membersWithOtherPeriod s =
    counts (λ m, is_Some_b (ceilingTokens m) && otherPeriod (period s) (ceilingPeriod m)) (members s);
}.

Lemma qsum_snoc l q : (qsum (l ++ [q]) == qsum l + q)%Q.
Proof. induction l as [|x l IH]; simpl; [lra|]. rewrite IH. lra. Qed.

Lemma counts_snoc p l m : counts p (l ++ [m]) = counts p l + (if p m then 1 else 0).
Proof. unfold counts. rewrite List.filter_app. simpl. rewrite length_app. destruct (p m); simpl; lia. Qed.

Lemma join_fields m s :
  identity (join m s) = identity s ∧ quotaTokens (join m s) = quotaTokens s ∧ period (join m s) = period s ∧
  members (join m s) = members s ++ [m].
Proof. unfold join. destruct (ceilingTokens m); [destruct (otherPeriod _ _)|]; done. Qed.

Lemma join_ok m s : seat_ok s → seat_ok (join m s).
Proof.
  intros [H1 H2 H3]. destruct (join_fields m s) as (_ & _ & Hp & Hm).
  assert (Hc : counted (join m s) = counted s) by (unfold counted; by rewrite Hp).
  split; rewrite ?Hc, ?Hp, Hm, ?counts_snoc.
  - rewrite omap_app. simpl. unfold counted at 2, join.
    destruct (ceilingTokens m); [destruct (otherPeriod _ _)|]; simpl; rewrite ?app_nil_r, ?qsum_snoc; rewrite ?H1; lra.
  - unfold join. destruct (ceilingTokens m); [destruct (otherPeriod _ _)|]; simpl; lia.
  - unfold join. destruct (ceilingTokens m); [destruct (otherPeriod _ _)|]; simpl; lia.
Qed.

Lemma newSeat_ok decl id : seat_ok (newSeat num_str str_num decl id).
Proof. by split. Qed.

Section built.
Context (presets : list jval) (declarations : omap jval) (keyIdV secret : string).
Notation idOf a := (seatId (seatIdentity num_str sha256 hmac envServer hostname keyIdV secret a)).
Notation memberOf := (memberOf num_str str_num presets).
Notation seatMap agents := (seatMap num_str str_num sha256 hmac envServer hostname agents presets declarations keyIdV secret).

Definition here (k : string) (agents : list jval) : list jval := List.filter (λ a, String.eqb (idOf a) k) agents.

(** The seat under an id holds the agents with that id, in order, and what was declared for it. *)
Definition seat_of (k : string) (agents : list jval) (s : Seat) : Prop :=
  seat_ok s ∧ seatId (identity s) = k ∧ members s = memberOf <$> here k agents ∧
  quotaTokens s = num_ num_str str_num (prop (default (JObj []) (om_get k declarations)) "quotaTokens") ∧
  period s = nullish_or (prop (default (JObj []) (om_get k declarations)) "period") JNull.

Lemma here_snoc k agents a : here k (agents ++ [a]) = here k agents ++ (if String.eqb (idOf a) k then [a] else []).
Proof. unfold here. rewrite List.filter_app. cbn [List.filter]. by destruct (String.eqb (idOf a) k). Qed.

Lemma seatMap_spec agents :
  NoDup (om_keys (seatMap agents)) ∧
  ∀ k, match om_get k (seatMap agents) with
       | None => here k agents = []
       | Some s => here k agents ≠ [] ∧ seat_of k agents s
       end.
Proof.
  induction agents as [|a agents [Hnd IH]] using rev_ind; [split; [apply NoDup_nil_2|done]|].
  unfold Seats.seatMap in *. rewrite foldl_app. cbn [foldl]. set (m := foldl _ [] agents) in *.
  unfold seatAgent. split; [by apply om_nodup_set|]. intros k. rewrite om_get_set, here_snoc.
  destruct (String.eqb_spec (idOf a) k) as [<-|Hne].
  - split; [by destruct (here _ _)|]. specialize (IH (idOf a)). unfold seat_of. rewrite here_snoc, String.eqb_refl, fmap_app.
    destruct (om_get (idOf a) m) as [s|]; cbn [from_option id].
    + destruct IH as (_ & Hok & Hid & Hm & Hq & Hp).
      destruct (join_fields (memberOf a) s) as (E1 & E2 & E3 & E4). rewrite E1, E2, E3, E4, Hm.
      split; [by apply join_ok|]. by repeat split.
    + rewrite IH. destruct (join_fields (memberOf a) (newSeat num_str str_num declarations
        (seatIdentity num_str sha256 hmac envServer hostname keyIdV secret a))) as (E1 & E2 & E3 & E4).
      rewrite E1, E2, E3, E4. split; [by apply join_ok, newSeat_ok|]. by repeat split.
  - specialize (IH k). rewrite app_nil_r. destruct (om_get k m) as [s|]; [|done].
    destruct IH as (Hn & Hs). split; [done|]. unfold seat_of in *. rewrite here_snoc.
    apply String.eqb_neq in Hne. by rewrite Hne, app_nil_r.
Qed.

(** The seats account for every agent exactly once: each agent is a member of the seat of its id
    and of no other, the declared total is the sum of the ceilings stated in the seat's own period,
    the members left out of it are counted by reason, and a seat is called over-subscribed only
    against a known quota in a known period, when more than the quota has been promised. *)
Theorem seats_account_for_every_agent agents :
  let views := buildSeats num_str str_num sha256 hmac envServer hostname agents presets declarations keyIdV secret in
  (∀ a, a ∈ agents → ∃ v, v ∈ views ∧ seatId (identity (seat v)) = idOf a) ∧
  NoDup ((λ v, seatId (identity (seat v))) <$> views) ∧
  ∀ v, v ∈ views → let s := seat v in
    members s = memberOf <$> here (seatId (identity s)) agents ∧ seat_ok s ∧
    (overSubscribed v = Some true ↔
       ∃ q, quotaTokens s = Some q ∧ is_nullish (period s) = false ∧
            (q < qsum (stdpp.base.omap (counted s) (members s)))%Q).
Proof.
  intros views. destruct (seatMap_spec agents) as [Hnd Hm]. unfold views, buildSeats.
  assert (Hseat : ∀ s, seat (view s) = s).
  { intros s. unfold view. destruct (quotaTokens s); [by destruct (is_nullish _)|done]. }
  assert (Hkey : ∀ k s, om_get k (seatMap agents) = Some s → seatId (identity s) = k).
  { intros k s Hk. specialize (Hm k). rewrite Hk in Hm. by destruct Hm as (_ & _ & ? & _). }
  split; [|split].
  - intros a Ha. specialize (Hm (idOf a)). destruct (om_get (idOf a) (seatMap agents)) as [s|] eqn:E.
    + exists (view s). split; [apply list_elem_of_fmap; exists s; split; [done|by eapply om_get_vals]|].
      rewrite Hseat. by apply Hkey.
    + exfalso. assert (Hin : a ∈ here (idOf a) agents); [|rewrite Hm in Hin; by apply elem_of_nil in Hin].
      unfold here. apply elem_of_filter_bool. by rewrite String.eqb_refl.
  - rewrite <-list_fmap_compose. unfold om_vals. rewrite <-list_fmap_compose.
    replace (_ <$> seatMap agents) with (om_keys (seatMap agents)); [done|]. unfold om_keys.
    apply list_fmap_ext. intros i [k s] Hi. simpl. rewrite Hseat. symmetry. apply Hkey.
    apply elem_of_om_get; [done|]. by eapply list_elem_of_lookup_2.
  - intros v (s & -> & (k & Hk)%om_vals_get)%list_elem_of_fmap. apply elem_of_om_get in Hk; [|done].
    cbn zeta. rewrite Hseat. pose proof (Hkey _ _ Hk) as ->. specialize (Hm k). rewrite Hk in Hm.
    destruct Hm as (_ & Hok & _ & Hmem & _). split; [done|]. split; [done|].
    pose proof (so_declared _ Hok) as Hd. set (total := qsum _) in *. unfold view. destruct (quotaTokens s) as [q|]; [|split; [done|by intros (? & ? & _)]].
    destruct (is_nullish (period s)); [split; [done|by intros (? & _ & ? & _)]|]. simpl. split.
    + intros [= H%negb_true_iff]. exists q. split; [done|]. split; [done|]. rewrite <-Hd. apply Qnot_le_lt. intros Hle.
      apply Qle_bool_iff in Hle. congruence.
    + intros (q' & [= <-] & _ & Hlt). f_equal. apply negb_true_iff. destruct (Qle_bool _ _) eqn:E; [|done].
      apply Qle_bool_iff in E. lra.
Qed.

End built.
End seats.

(** ** Servers *)

(** Server equivalence is an equivalence relation: an absent name is equivalent to an absent name
    only, and all names of the local machine form one class. *)
Theorem servers_equivalence envServer hostname :
  (∀ s, serversEquivalent envServer hostname s s = true) ∧
  (∀ s t, serversEquivalent envServer hostname s t = serversEquivalent envServer hostname t s) ∧
  (∀ s t u, serversEquivalent envServer hostname s t = true → serversEquivalent envServer hostname t u = true →
     serversEquivalent envServer hostname s u = true).
Proof.
  unfold serversEquivalent. set (al := localServerAliases _ _ _). split; [|split].
  - intros s. destruct (normalizeServer s); [|done]. by rewrite String.eqb_refl.
  - intros s t. destruct (normalizeServer s), (normalizeServer t); try done. by rewrite String.eqb_sym, andb_comm.
  - intros s t u. destruct (normalizeServer s) as [a|], (normalizeServer t) as [b|], (normalizeServer u) as [c|]; try done.
    rewrite !orb_true_iff, !andb_true_iff, !String.eqb_eq. intuition congruence.
Qed.

(** ** Budgets *)

Module B := ResourceBudget.

Section budget.
Context (preset seatId declaration : jval).

Notation holds c := (EngagementStore.holdsAllocation (B.row c)).
Definition ours (c : B.Commitment) : bool := strict_eq (B.r_presetId c) (prop preset "id").
Definition sameSeat (c : B.Commitment) : bool := strict_eq (B.r_seatId c) seatId.
Definition excluded (x : option string) (c : B.Commitment) : bool :=
  EngagementStore.str_eq_opt x (EngagementStore.id (B.row c)).

(** Tokens held by the commitments a test selects. *)
Definition held (p : B.Commitment → bool) (l : list B.Commitment) : Z :=
  foldr (λ c n, (if holds c && p c then B.tokens c else 0) + n)%Z 0%Z l.

Lemma held_cons p c l : held p (c :: l) = ((if holds c && p c then B.tokens c else 0) + held p l)%Z.
Proof. done. Qed.

(** The commitments in effect once the reservation is replaced by the new one. *)
Lemma held_replace p x c l :
  holds c = true →
  held (λ d, negb (excluded None d) && p d) (List.filter (λ d, negb (excluded x d)) l ++ [c]) =
    (held (λ d, negb (excluded x d) && p d) l + (if p c then B.tokens c else 0))%Z.
Proof.
  intros Hh. induction l as [|d l IH]; cbn [List.filter app].
  - rewrite held_cons, Hh. unfold held. simpl. destruct (p c); lia.
  - destruct (excluded x d) eqn:E; cbn [negb].
    + rewrite IH, held_cons, E. cbn [negb andb]. rewrite andb_false_r. lia.
    + cbn [app]. rewrite !held_cons, IH, E. cbn [negb andb].
      change (excluded None d) with false. cbn [negb andb]. lia.
Qed.

Lemma count_step x a b r c :
  B.count (prop preset "id") seatId x (a, b, r) c =
    if negb (holds c) then (a, b, r)
    else if excluded x c then (a, b, if ours c then B.tokens c else r)
    else (if ours c then a + B.tokens c else a, if sameSeat c then b + B.tokens c else b, r)%Z.
Proof. done. Qed.

Lemma count_held x l a b r :
  let '(a', b', _) := foldl (B.count (prop preset "id") seatId x) (a, b, r) l in
  a' = (a + held (λ c, negb (excluded x c) && ours c) l)%Z ∧
  b' = (b + held (λ c, negb (excluded x c) && sameSeat c) l)%Z.
Proof.
  revert a b r. induction l as [|c l IH]; intros a b r; cbn [foldl]; [unfold held; simpl; lia|].
  rewrite !held_cons, count_step. destruct (holds c) eqn:Hh; cbn [negb andb].
  2: { specialize (IH a b r). destruct (foldl _ _ l) as [[a' b'] r']. lia. }
  destruct (excluded x c); cbn [negb andb].
  - specialize (IH a b (if ours c then B.tokens c else r)). destruct (foldl _ _ l) as [[a' b'] r']. lia.
  - specialize (IH (if ours c then a + B.tokens c else a)%Z (if sameSeat c then b + B.tokens c else b)%Z r).
    destruct (foldl _ _ l) as [[a' b'] r']. destruct (ours c), (sameSeat c); lia.
Qed.

Definition budget (l : list B.Commitment) (x : option string) (auto : bool) : B.Budget :=
  B.resourceAllocationBudget preset seatId declaration l x auto.

Lemma budget_committed l x auto :
  B.p_committed (B.pool (budget l x auto)) = held (λ c, negb (excluded x c) && ours c) l ∧
  B.s_committed (B.seat (budget l x auto)) = held (λ c, negb (excluded x c) && sameSeat c) l.
Proof.
  unfold budget, B.resourceAllocationBudget. pose proof (count_held x l 0 0 0) as H.
  destruct (foldl _ _ l) as [[a b] r]. destruct H as [-> ->]. done.
Qed.

Lemma left_fits limit committed n r :
  B.left limit committed = Some r → (0 < n)%Z → (inject_Z n <= r)%Q →
  ∃ q, limit = Some q ∧ (inject_Z (committed + n) <= q)%Q.
Proof.
  unfold B.left. destruct limit as [q|]; [|done]. intros [= <-] Hn Hr. exists q. split; [done|].
  assert (Hpos : (0 < inject_Z n)%Q) by (change 0%Q with (inject_Z 0); by rewrite <-Zlt_Qlt).
  rewrite inject_Z_plus. destruct (Q.max_spec 0 (q - inject_Z committed)) as [[_ E]|[_ E]]; rewrite E in Hr; lra.
Qed.

Lemma budget_remaining l x auto r :
  B.remainingTokens (budget l x auto) = Some r →
  (∃ p, B.left (B.ceiling (B.pool (budget l x auto))) (B.p_committed (B.pool (budget l x auto))) = Some p ∧ (r <= p)%Q) ∧
  (B.s_status (B.seat (budget l x auto)) ≠ "period_mismatch") ∧
  (B.s_status (B.seat (budget l x auto)) = "declared" →
    ∃ s, B.left (B.quota (B.seat (budget l x auto))) (B.s_committed (B.seat (budget l x auto))) = Some s ∧ (r <= s)%Q) ∧
  (auto = true → to_bool declaration = true → B.s_status (B.seat (budget l x auto)) = "declared").
Proof.
  unfold budget, B.resourceAllocationBudget. destruct (foldl _ _ l) as [[a b] z]. cbn zeta.
  cbn [B.remainingTokens B.pool B.seat B.s_status B.s_remaining B.p_remaining B.ceiling B.quota B.p_committed B.s_committed].
  destruct (B.finite (prop (prop preset "ceiling") "tokens")) as [c|]; [|done]. cbn [is_Some_b negb orb].
  destruct (B.finite (prop declaration "quotaTokens")) as [q|]; (destruct (strict_eq _ (prop (prop preset "ceiling") "period")));
    cbn [B.left is_Some_b negb orb andb String.eqb Ascii.eqb Bool.eqb]; try done.
  - rewrite andb_false_r. intros [= <-]. split; [|split; [done|split; [|done]]].
    + eexists. split; [done|]. apply Q.le_min_l.
    + intros _. eexists. split; [done|]. apply Q.le_min_r.
  - rewrite andb_true_r. destruct auto, (to_bool declaration); try done; intros [= <-];
      (split; [eexists; split; [done|apply Qle_refl]|done]).
  - rewrite andb_true_r. destruct auto, (to_bool declaration); try done; intros [= <-];
      (split; [eexists; split; [done|apply Qle_refl]|done]).
Qed.

(** C19. The remaining figure is safe to spend: an allocation of at least one token that does not
    exceed it, added to the commitments in place of the reservation it was computed without, keeps
    the pool within its ceiling and, when the seat's quota is declared in the pool's period, the seat
    within its quota. There is no figure without a finite ceiling or across periods, and auto-join
    gets none from a seat that is declared without a quota. *)
Theorem remaining_allocation_fits l x auto r c :
  B.remainingTokens (budget l x auto) = Some r →
  holds c = true → ours c = true → sameSeat c = true → (0 < B.tokens c)%Z → (inject_Z (B.tokens c) <= r)%Q →
  let after := budget (List.filter (λ d, negb (excluded x d)) l ++ [c]) None auto in
  (∃ q, B.ceiling (B.pool after) = Some q ∧ (inject_Z (B.p_committed (B.pool after)) <= q)%Q) ∧
  B.s_status (B.seat after) ≠ "period_mismatch" ∧
  (B.s_status (B.seat after) = "declared" →
     ∃ q, B.quota (B.seat after) = Some q ∧ (inject_Z (B.s_committed (B.seat after)) <= q)%Q) ∧
  (auto = true → to_bool declaration = true → B.s_status (B.seat after) = "declared").
Proof.
  intros Hr Hh Ho Hs Hpos Hle after. destruct (budget_remaining _ _ _ _ Hr) as ((p & Hp & Hrp) & Hm & Hd & Ha).
  assert (Hsame : ∀ l1 x1 l2 x2, B.ceiling (B.pool (budget l1 x1 auto)) = B.ceiling (B.pool (budget l2 x2 auto)) ∧
     B.s_status (B.seat (budget l1 x1 auto)) = B.s_status (B.seat (budget l2 x2 auto)) ∧
     B.quota (B.seat (budget l1 x1 auto)) = B.quota (B.seat (budget l2 x2 auto))).
  { intros. unfold budget, B.resourceAllocationBudget. by destruct (foldl _ _ l1) as [[? ?] ?], (foldl _ _ l2) as [[? ?] ?]. }
  destruct (Hsame (List.filter (λ d, negb (excluded x d)) l ++ [c]) None l x) as (E1 & E2 & E3).
  fold after in E1, E2, E3. rewrite E1, E2, E3.
  destruct (budget_committed (List.filter (λ d, negb (excluded x d)) l ++ [c]) None auto) as [C1 C2].
  fold after in C1, C2. rewrite C1, C2, !held_replace, Ho, Hs by done.
  destruct (budget_committed l x auto) as [D1 D2]. rewrite <-D1, <-D2. split; [|split; [done|split; [|done]]].
  - eapply left_fits; [exact Hp|done|lra].
  - intros H. destruct (Hd H) as (s & Hs' & Hrs). eapply left_fits; [exact Hs'|done|lra].
Qed.

End budget.

(** ** Concrete fleets *)

Definition n0 (_ : num) : string := "0".
Definition s0 (_ : string) : num := NaN.
Definition h0 (s : string) : string := s.
Definition k0 (secret s : string) : string := drop_str 2 s.

Definition agent (name fw srv : string) : jval :=
  JObj [("name", JStr name); ("type", JStr fw); ("server", JStr srv); ("presetId", JStr "p")].
Definition ada : jval := agent "ada" "codex" "box".
Definition bob : jval := agent "bob" "codex-acp" "local".
Definition identityOf (a : jval) : Identity := seatIdentity n0 h0 k0 JUndef (JStr "box") "dev" "key" a.

Lemma seat_shared_iff_same_credential_witness : seatId (identityOf ada) = seatId (identityOf bob).
Proof.
  apply (seat_shared_iff_same_credential n0 h0 k0 JUndef (JStr "box") "dev" "key" ada bob); [|by vm_compute].
  intros H. exfalso. apply H. by vm_compute.
Defined.

Definition token_count (n : Z) : jval := JNum (Fin (inject_Z n)).
Definition monthly : jval := JStr "monthly".
Definition preset0 : jval :=
  JObj [("id", JStr "p"); ("ceiling", JObj [("tokens", token_count 600); ("period", monthly)])].
Definition declared0 : jval := JObj [("quotaTokens", token_count 1000); ("period", monthly)].

Example two_claims_one_quota :
  overSubscribed <$> buildSeats n0 s0 h0 k0 JUndef (JStr "box") [ada; bob] [preset0]
    [(seatId (identityOf ada), declared0)] "dev" "key" = [Some true].
Proof. by vm_compute. Qed.

Definition engagement0 (k : string) (n : Z) : EngagementStore.Engagement :=
  EngagementStore.MkEngagement k None "" JUndef false "Site" "!r:x" "coder" "@b:x" n None (Some "ada") 0 "autoJoin" true
    "active" (Some n) None JNull None None None JUndef None None None JUndef None None.
Definition commitment (k : string) (n : Z) : B.Commitment := B.MkCommitment (engagement0 k n) (JStr "p") (JStr "s").

Lemma remaining_allocation_fits_witness :
  B.remainingTokens (budget preset0 (JStr "s") declared0 [commitment "a" 200; commitment "b" 50] (Some "b") true)
    = Some (inject_Z 600 - inject_Z 200)%Q ∧
  ∃ q, B.ceiling (B.pool (budget preset0 (JStr "s") declared0 [commitment "a" 200; commitment "c" 400] None true)) = Some q ∧
    (600 <= q)%Q.
Proof.
  assert (H : B.remainingTokens (budget preset0 (JStr "s") declared0 [commitment "a" 200; commitment "b" 50] (Some "b") true)
    = Some (inject_Z 600 - inject_Z 200)%Q) by by vm_compute.
  split; [exact H|].
  assert (Hle : (inject_Z (B.tokens (commitment "c" 400)) <= inject_Z 600 - inject_Z 200)%Q) by by apply Qle_bool_iff.
  destruct (remaining_allocation_fits preset0 (JStr "s") declared0 [commitment "a" 200; commitment "b" 50] (Some "b") true
    _ (commitment "c" 400) H eq_refl eq_refl eq_refl eq_refl Hle) as (Hc & _).
  exact Hc.
Defined.
