(* ===== verification/SessionPolicy.v ===== *)
(** * Session policy ([lib/session-policy.js])

    Which terminal sessions an installation may type into: an allow list and a deny list of globs. A
    glob is compiled to the text of a regular expression; the model compiles to that text and reads it
    back as an expression, so that the escaping is part of what is proved. *)

From Stdlib Require Import ZArith Lia String Ascii.
From stdpp Require Import base list strings.
From S2P Require Import Prelude.
#[local] Open Scope stdpp_scope.

Module SessionPolicy.

(** ** Patterns *)

Inductive Parsed : Type := NoOpinion | EMPTY_BUT_SET | Patterns (l : list string).

(** A character of the class [[,\s]]. *)
Definition is_sep (c : ascii) : bool := Ascii.eqb c ","%char || is_ws c.

(** [raw.split(/[,\s]+/)]: [cur] is the part being read, [sep] whether a separator was just seen. *)
Fixpoint split_seps (s cur : string) (sep : bool) : list string :=
  match s with
  | EmptyString => [cur]
  | String c s' =>
      if is_sep c then (if sep then split_seps s' cur true else cur :: split_seps s' EmptyString true)
      else split_seps s' (cur +:+ String c EmptyString) false
  end.

Definition parsePatterns (raw : jval) : Parsed :=
  match raw with
  | JUndef | JNull => NoOpinion
  | JStr s =>
      if negb (truthy (trim s)) then NoOpinion else
      match List.filter truthy (trim <$> split_seps s EmptyString false) with
      | [] => EMPTY_BUT_SET
      | l => Patterns l
      end
  | _ => EMPTY_BUT_SET
  end.

(** ** Globs *)

Definition star : ascii := "*"%char.
Definition dot : ascii := "."%char.
Definition bslash : ascii := ascii_of_nat 92.

(** The characters the escaping prefixes with a backslash: [. * + ? ^ $ { } ( ) | [ ] \ ]. *)
Definition special (c : ascii) : bool :=
  existsb (Nat.eqb (nat_of_ascii c)) [46; 42; 43; 63; 94; 36; 123; 125; 40; 41; 124; 91; 93; 92]%nat.

Fixpoint escape (s : string) : string :=
  match s with
  | EmptyString => EmptyString
  | String c s' => if special c then String bslash (String c (escape s')) else String c (escape s')
  end.

(** The text between [^] and [$]. *)
Definition globBody (pattern : string) : string := join ".*" (escape <$> split_on star pattern).

(** The regular expressions such a text can denote: literal characters and [.*]. *)
Inductive tok : Type := Lit (c : ascii) | DotStar.

(** Reading the text as a regular expression; [None] where it is none of these. *)
Fixpoint readRegExp (s : string) : option (list tok) :=
  match s with
  | EmptyString => Some []
  | String c s' =>
      if Ascii.eqb c bslash then
        match s' with
        | EmptyString => None
        | String d s'' => if special d then cons (Lit d) <$> readRegExp s'' else None
        end
      else if Ascii.eqb c dot then
        match s' with
        | String d s'' => if Ascii.eqb d star then cons DotStar <$> readRegExp s'' else None
        | EmptyString => None
        end
      else if special c then None
      else cons (Lit c) <$> readRegExp s'
  end.

(** [.] matches no line terminator. *)
Definition newline (c : ascii) : bool := (nat_of_ascii c =? 10)%nat || (nat_of_ascii c =? 13)%nat.

(** [/^...$/.test(s)] *)
Fixpoint test (r : list tok) (s : string) : bool :=
  match r with
  | [] => String.eqb s EmptyString
  | Lit c :: r' => match s with String d s' => Ascii.eqb c d && test r' s' | EmptyString => false end
  | DotStar :: r' =>
      (fix run s := test r' s ||
         match s with String d s' => negb (newline d) && run s' | EmptyString => false end) s
  end.

Definition globToRegExp (pattern : string) : option (list tok) := readRegExp (globBody pattern).

Definition includes (c : ascii) (s : string) : bool := string_exists (Ascii.eqb c) s.

Definition matchesOne (name p : string) : bool :=
  if includes star p then match globToRegExp p with Some r => test r name | None => false end
  else String.eqb p name.
Definition matchesAny (name : string) (patterns : list string) : bool := existsb (matchesOne name) patterns.

(** ** The policy *)

Record Policy : Type := MkPolicy {
  allowBroken : bool; denyBroken : bool; allowPatterns : list string; denyPatterns : list string;
}.

Definition broken (p : Parsed) : bool := match p with EMPTY_BUT_SET => true | _ => false end.
Definition patterns (p : Parsed) : list string := match p with Patterns l => l | _ => [] end.

Definition createSessionPolicy (allowlist denylist : jval) : Policy :=
  let a := parsePatterns allowlist in
  let d := parsePatterns denylist in
  MkPolicy (broken a) (broken d) (patterns a) (patterns d).

Definition evaluate (p : Policy) (sessionName : jval) : bool * string :=
  match sessionName with
  | JStr s =>
      let name := trim s in
      if negb (truthy name) then (false, "invalid-session-name") else
      if allowBroken p || denyBroken p then (false, "policy-unreadable") else
      if negb (bool_decide (denyPatterns p = [])) && matchesAny name (denyPatterns p) then (false, "denylisted") else
      if negb (bool_decide (allowPatterns p = []))
      then (if matchesAny name (allowPatterns p) then (true, "allowlisted") else (false, "not-allowlisted"))
      else (true, "no-policy")
  | _ => (false, "invalid-session-name")
  end.

Definition allows (p : Policy) (name : jval) : bool := (evaluate p name).1.

Definition unrestricted (p : Policy) : bool :=
  negb (allowBroken p) && negb (denyBroken p) && bool_decide (allowPatterns p = []) && bool_decide (denyPatterns p = []).

Definition warnings (p : Policy) : list string :=
  (if allowBroken p then ["HAGENCY_SESSION_ALLOWLIST is set but lists no session; refusing all sessions"] else []) ++
  (if denyBroken p then ["HAGENCY_SESSION_DENYLIST is set but lists no session; refusing all sessions"] else []).

Fixpoint filter_ (p : Policy) (names : list jval) (kept rejected : list jval) : list jval * list jval :=
  match names with
  | [] => (kept, rejected)
  | n :: names' => if allows p n then filter_ p names' (kept ++ [n]) rejected else filter_ p names' kept (rejected ++ [n])
  end.

Definition sessionPolicyFromEnv (env : jval) : Policy :=
  createSessionPolicy (prop env "HAGENCY_SESSION_ALLOWLIST") (prop env "HAGENCY_SESSION_DENYLIST").

End SessionPolicy.

Import SessionPolicy.

(** ** Globs mean what the documentation says *)

(** [*] stands for any run of characters without a line break, any other character for itself. *)
Inductive glob : string → string → Prop :=
| glob_nil : glob EmptyString EmptyString
| glob_char c p s : c ≠ star → glob p s → glob (String c p) (String c s)
| glob_star_none p s : glob p s → glob (String star p) s
| glob_star_one p d s : newline d = false → glob (String star p) s → glob (String star p) (String d s).

(** The expression a glob compiles to. *)
Fixpoint compile (p : string) : list tok :=
  match p with
  | EmptyString => []
  | String c p' => (if Ascii.eqb c star then DotStar else Lit c) :: compile p'
  end.

Lemma special_class c : special c = false → Ascii.eqb c bslash = false ∧ Ascii.eqb c dot = false.
Proof.
  intros H. split; apply Ascii.eqb_neq; intros ->; vm_compute in H; discriminate.
Qed.

Lemma special_bslash c : special c = true → readRegExp (String bslash (String c EmptyString)) = Some [Lit c].
Proof. intros H. simpl. by rewrite H. Qed.

Lemma readRegExp_escape s t r :
  readRegExp t = Some r → readRegExp (escape s +:+ t) = Some (List.map Lit (list_ascii_of_string s) ++ r).
Proof.
  intros Ht. induction s as [|c s IH]; [done|]. cbn [escape]. destruct (special c) eqn:Hc.
  - change (readRegExp (String bslash (String c (escape s +:+ t))) = Some (Lit c :: (List.map Lit (list_ascii_of_string s) ++ r))).
    cbn [readRegExp]. rewrite Ascii.eqb_refl, Hc, IH. done.
  - destruct (special_class c Hc) as [H1 H2].
    change (readRegExp (String c (escape s +:+ t)) = Some (Lit c :: (List.map Lit (list_ascii_of_string s) ++ r))).
    cbn [readRegExp]. rewrite H1, H2, Hc, IH. done.
Qed.

Lemma split_on_cons c s : ∃ p ps, split_on c s = p :: ps.
Proof.
  induction s as [|d s (p & ps & IH)]; simpl; [by eexists _, _|]. rewrite IH. destruct (Ascii.eqb c d); by eexists _, _.
Qed.

Fixpoint toks (parts : list string) : list tok :=
  match parts with
  | [] => []
  | [p] => List.map Lit (list_ascii_of_string p)
  | p :: ps => List.map Lit (list_ascii_of_string p) ++ DotStar :: toks ps
  end.

Lemma readRegExp_join parts : readRegExp (join ".*" (escape <$> parts)) = Some (toks parts).
Proof.
  induction parts as [|p [|q ps] IH]; [done|..].
  - pose proof (readRegExp_escape p EmptyString [] eq_refl) as H. rewrite app_nil_r in H. csimpl.
    replace (escape p +:+ "") with (escape p) in H; [exact H|]. clear.
    induction (escape p) as [|c s IH]; [done|]. exact (f_equal (String c) IH).
  - change (readRegExp (escape p +:+ (String dot (String star (join ".*" (escape <$> (q :: ps)))))) =
      Some (List.map Lit (list_ascii_of_string p) ++ DotStar :: toks (q :: ps))).
    apply readRegExp_escape. cbn [readRegExp]. by rewrite IH.
Qed.

Lemma toks_split p : toks (split_on star p) = compile p.
Proof.
  induction p as [|c p IH]; [done|]. cbn [split_on compile]. rewrite Ascii.eqb_sym.
  destruct (split_on_cons star p) as (q & qs & E). rewrite E in *. destruct (Ascii.eqb c star).
  - by rewrite <-IH.
  - rewrite <-IH. by destruct qs.
Qed.

(** The text of the compiled glob denotes the glob: the escaping neither loses nor invents anything. *)
Lemma globToRegExp_compile p : globToRegExp p = Some (compile p).
Proof. unfold globToRegExp, globBody. by rewrite readRegExp_join, toks_split. Qed.

Lemma test_glob p s : test (compile p) s = true ↔ glob p s.
Proof.
  split.
  - revert s. induction p as [|c p IH]; intros s; cbn [compile].
    + simpl. intros ->%String.eqb_eq. constructor.
    + destruct (Ascii.eqb_spec c star) as [->|Hne].
      * induction s as [|d s IHs]; simpl; intros [H|H]%orb_true_iff; [by constructor; auto|done|by constructor; auto|].
        apply andb_true_iff in H as [Hd%negb_true_iff H]. apply glob_star_one; [done|]. by apply IHs.
      * destruct s as [|d s]; [done|]. cbn [test]. intros [->%Ascii.eqb_eq H]%andb_true_iff. constructor; auto.
  - induction 1 as [|c p s Hne _ IH|p s _ IH|p d s Hd _ IH]; [done|..].
    + cbn [compile]. apply Ascii.eqb_neq in Hne. rewrite Hne. cbn [test]. by rewrite Ascii.eqb_refl.
    + simpl. by destruct s; rewrite IH.
    + simpl in *. rewrite Hd. simpl. apply orb_true_iff. by right.
Qed.

Lemma glob_literal p s : includes star p = false → glob p s ↔ p = s.
Proof.
  unfold includes. intros Hp. split.
  - induction 1 as [|c p s Hne _ IH|p s _ IH|p d s Hd _ IH]; simpl in Hp; [done|..|done|done].
    apply orb_false_iff in Hp as [_ Hp]. by rewrite IH.
  - intros <-. induction p as [|c p IH]; [constructor|]. cbn [string_exists] in Hp. apply orb_false_iff in Hp as [Hc Hp].
    constructor; [|auto]. apply Ascii.eqb_neq in Hc. by intros ->.
Qed.

(** A pattern matches a session name exactly when the glob does: every character but [*] stands
    for itself, whatever it means to a regular expression, and [*] for any run of characters without
    a line break. *)
Theorem pattern_matches_glob name p : matchesOne name p = true ↔ glob p name.
Proof.
  unfold matchesOne. destruct (includes star p) eqn:E.
  - rewrite globToRegExp_compile. apply test_glob.
  - rewrite glob_literal by done. by rewrite String.eqb_eq.
Qed.

(** ** The decision *)

Lemma filter_spec p names kept rejected :
  filter_ p names kept rejected = (kept ++ List.filter (allows p) names, rejected ++ List.filter (λ n, negb (allows p n)) names).
Proof.
  revert kept rejected. induction names as [|n names IH]; intros kept rejected; simpl; [by rewrite !app_nil_r|].
  destruct (allows p n); simpl; rewrite IH, <-app_assoc; done.
Qed.

(** A session may be typed into exactly when its name is not blank, neither list is set to
    something that names no session, no deny pattern matches, and the allow list is absent or matches:
    denial wins, and a list that cannot be read refuses everything. Filtering keeps the allowed
    sessions and rejects the others, in the order given. *)
Theorem session_allowed_iff allowlist denylist names :
  let p := createSessionPolicy allowlist denylist in
  (∀ v, allows p v = true ↔
     ∃ s, v = JStr s ∧ trim s ≠ EmptyString ∧
       parsePatterns allowlist ≠ EMPTY_BUT_SET ∧ parsePatterns denylist ≠ EMPTY_BUT_SET ∧
       (∀ l q, parsePatterns denylist = Patterns l → q ∈ l → ¬ glob q (trim s)) ∧
       (∀ l, parsePatterns allowlist = Patterns l → ∃ q, q ∈ l ∧ glob q (trim s))) ∧
  filter_ p names [] [] = (List.filter (allows p) names, List.filter (λ n, negb (allows p n)) names).
Proof.
  intros p. split; [|by rewrite filter_spec].
  assert (Hany : ∀ n l, matchesAny n l = true ↔ ∃ q, q ∈ l ∧ glob q n).
  { intros n l. unfold matchesAny. rewrite existsb_exists. setoid_rewrite <-pattern_matches_glob.
    by setoid_rewrite list_elem_of_In. }
  assert (Hne : ∀ v, parsePatterns v ≠ Patterns []).
  { intros v. unfold parsePatterns. destruct v; try done. destruct (negb _); [done|]. by destruct (List.filter _ _). }
  intros v. destruct v as [| | | |s| | |]; try (split; [done|by intros (? & ? & _)]).
  unfold allows, evaluate, p, createSessionPolicy. cbn [allowBroken denyBroken allowPatterns denyPatterns].
  destruct (truthy (trim s)) eqn:Ht; cbn [negb].
  2: { split; [done|]. intros (s' & [= <-] & Hs & _). apply truthy_spec in Hs. congruence. }
  apply truthy_spec in Ht. pose proof (Hne allowlist) as Ha. pose proof (Hne denylist) as Hd.
  destruct (parsePatterns allowlist) as [| |la] eqn:Ea; cbn [broken patterns orb].
  2: { split; [done|]. by intros (s' & _ & _ & ? & _). }
  all: destruct (parsePatterns denylist) as [| |ld] eqn:Ed; cbn [broken patterns orb];
    try (split; [done|]; by intros (s' & _ & _ & _ & ? & _)).
  all: rewrite ?(bool_decide_false (la = [])), ?(bool_decide_false (ld = [])), ?(bool_decide_true ([] = [])) by congruence; cbn [negb andb].
  - split; [|done]. intros _. exists s. split_and!; done.
  - destruct (matchesAny (trim s) ld) eqn:Em.
    + split; [done|]. intros (s' & [= <-] & _ & _ & _ & Hno & _). apply Hany in Em as (q & Hq & Hg). by destruct (Hno ld q eq_refl Hq).
    + split; [|done]. intros _. exists s. split_and!; try done. intros l q [= <-] Hq Hg.
      assert (matchesAny (trim s) ld = true); [apply Hany; eauto|congruence].
  - destruct (matchesAny (trim s) la) eqn:Em.
    + split; [|done]. intros _. exists s. split_and!; try done. intros l [= <-]. by apply Hany.
    + split; [done|]. intros (s' & [= <-] & _ & _ & _ & _ & Hyes). destruct (Hyes la eq_refl) as (q & Hq & Hg).
      assert (matchesAny (trim s) la = true); [apply Hany; eauto|congruence].
  - destruct (matchesAny (trim s) ld) eqn:Em.
    + split; [done|]. intros (s' & [= <-] & _ & _ & _ & Hno & _). apply Hany in Em as (q & Hq & Hg). by destruct (Hno ld q eq_refl Hq).
    + destruct (matchesAny (trim s) la) eqn:Em2.
      * split; [|done]. intros _. exists s. split_and!; try done.
        -- intros l q [= <-] Hq Hg. assert (matchesAny (trim s) ld = true); [apply Hany; eauto|congruence].
        -- intros l [= <-]. by apply Hany.
      * split; [done|]. intros (s' & [= <-] & _ & _ & _ & _ & Hyes). destruct (Hyes la eq_refl) as (q & Hq & Hg).
        assert (matchesAny (trim s) la = true); [apply Hany; eauto|congruence].
Qed.
