(* ===== verification/PendingInvites.v ===== *)
(** * Pending invitations

    [lib/pending-invite-store.js]: the invitations a project has extended and the contributor has not
    yet answered, one record per room and agent, refreshed by the bridge's polls and settled once. The
    memory is an object keyed by room and agent; [persist] is called after the memory has changed and
    its failure is not undone, so [save] only decides what the caller sees.

    The theorems: every operation moves every record along its life cycle (a pending invitation is
    never dropped, a settled one never altered), folding drops exactly the oldest settled records
    beyond the cap, and the key does not confuse two pairs. *)

From Stdlib Require Import ZArith QArith Qround Lia String Ascii.
From stdpp Require Import base list strings sorting.
From S2P Require Import Prelude OMap Json Store.
#[local] Open Scope stdpp_scope.

Module PendingInvites.

Definition ROOM_ID_RE (s : string) : bool := matrix_id "!" s.
Definition MXID_RE (s : string) : bool := matrix_id "@" s.

(** [/\w/] *)
Definition word_char (c : ascii) : bool :=
  let n := nat_of_ascii c in
  ((48 <=? n)%nat && (n <=? 57)%nat) || ((65 <=? n)%nat && (n <=? 90)%nat)
  || ((97 <=? n)%nat && (n <=? 122)%nat) || (n =? 95)%nat.

(** [/^[\w-]{1,64}$/] *)
Definition AGENT_RE (s : string) : bool :=
  (1 <=? String.length s)%nat && (String.length s <=? 64)%nat
  && string_forall (λ c, word_char c || Ascii.eqb c "-") s.

(** [Math.max(20, Number.parseInt(env || '200', 10) || 200)] *)
Definition SETTLED_CAP (env : option string) : Z :=
  Z.max 20 (match parseInt (default "200" (truthy_opt env)) with
            | Some n => if n =? 0 then 200 else n
            | None => 200
            end).

Definition text (v : jval) (maxLen : nat) : result string :=
  let raw := match v with JStr s => trim s | _ => EmptyString end in
  throw_if negb (truthy raw) with "bad_request" in
  throw_if (maxLen <? String.length raw)%nat with "bad_request" in
  Ok raw.

Definition serverFromRoomId (roomId : string) : option string :=
  match index_of ":" roomId with
  | Some at_ => if (0 <? at_)%nat then Some (drop_str (S at_) roomId) else None
  | None => None
  end.

Definition key (roomId agent : string) : string := roomId +:+ " " +:+ agent.

Record Invite : Type := MkInvite {
  projectRoomId : string;
  agent : string;
  inviter : option string;
  projectServer : option string;
  state : string;
  seenAt : Z;
  decidedAt : option Z;
  decidedBy : jval;
}.
#[export] Instance eta_invite : Settable Invite :=
  λ r, MkInvite (projectRoomId r) (agent r) (inviter r) (projectServer r) (state r) (seenAt r) (decidedAt r) (decidedBy r).

Definition State : Type := omap Invite.

(** The clock, what [persist] does, and the history cap. *)
Record Env : Type := MkEnv { now : Z; save : save_outcome; cap : Z }.

Definition isPending (r : Invite) : bool := String.eqb (state r) "pending".

Definition decidedTime (r : Invite) : Z := default 0 (decidedAt r).

(** The settled entries, oldest first, and those beyond the cap. *)
Definition settledEntries (st : State) : list (string * Invite) :=
  stable_sort (λ a b, decidedTime a.2 <? decidedTime b.2) (List.filter (λ p, negb (isPending p.2)) st).

Definition surplus (c : Z) (st : State) : list (string * Invite) :=
  let settled := settledEntries st in take (length settled - Z.to_nat c) settled.

Definition prune (c : Z) (st : State) : State := foldl (λ m p, om_del p.1 m) st (surplus c st).

Section model.
Context (num_str : num → string) (str_num : string → num).

(** The checked input of [upsert]. *)
Record Report : Type := MkReport { r_roomId : string; r_agent : string; r_inviter : option string; r_seenAt : option Z }.

Definition checkInviter (raw : jval) : result (option string) :=
  if negb (is_nullish raw) && truthy (trim (to_str num_str raw)) then
    let* s := text raw 256 in
    throw_if negb (MXID_RE s) with "bad_request" in Ok (Some s)
  else Ok None.

Definition reported (v : jval) : option Z :=
  match to_number num_str str_num v with Fin q => Some (Qfloor q) | _ => None end.

Definition checkReport (input : jval) : result Report :=
  let* roomId := text (nullish_or (prop input "project_room_id") (prop input "projectRoomId")) 256 in
  throw_if negb (ROOM_ID_RE roomId) with "bad_request" in
  let* a := text (prop input "agent") 64 in
  throw_if negb (AGENT_RE a) with "bad_request" in
  let* i := checkInviter (nullish_or (prop input "inviter") (prop input "inviterMxid")) in
  Ok (MkReport roomId a i (reported (nullish_or (prop input "seen_at") (prop input "seenAt")))).

Definition invitation (e : Env) (existing : option Invite) (r : Report) : Invite :=
  MkInvite (r_roomId r) (r_agent r) (r_inviter r) (serverFromRoomId (r_roomId r)) "pending"
    (match r_seenAt r with Some t => t | None => match existing with Some x => seenAt x | None => now e end end)
    None JNull.

(** [prune(); save();] and the copy handed back. *)
Definition pruneAndSave (e : Env) (answer : Invite) (st : State) : step_out State State Invite :=
  let st' := prune (cap e) st in
  match save e with
  | SaveThrew => StepOut (Throw "save_failed") st' None
  | SaveFalse => StepOut (Ok answer) st' None
  | SaveDone => StepOut (Ok answer) st' (Some st')
  end.

Definition upsert (e : Env) (input : jval) (st : State) : step_out State State Invite :=
  match checkReport input with
  | Throw c => StepOut (Throw c) st None
  | Ok r =>
      let id := key (r_roomId r) (r_agent r) in
      let existing := om_get id st in
      let put := let next := invitation e existing r in pruneAndSave e next (obj_set id next st) in
      match existing with
      | Some x => if negb (isPending x) then StepOut (Ok x) st None else put
      | None => put
      end
  end.

Definition settle (e : Env) (roomId a decision : string) (by_ : jval) (st : State) : step_out State State Invite :=
  if negb (String.eqb decision "accepted") && negb (String.eqb decision "declined") then StepOut (Throw "bad_request") st None else
  match om_get (key roomId a) st with
  | None => StepOut (Throw "not_found") st None
  | Some record =>
      if negb (isPending record) then StepOut (Throw "conflict") st None else
      let next := record <| state := decision |> <| decidedAt := Some (now e) |> <| decidedBy := by_ |> in
      pruneAndSave e next (obj_set (key roomId a) next st)
  end.

End model.

Definition get (roomId a : string) (st : State) : option Invite := om_get (key roomId a) st.

Definition list_ (filter_ : string) (st : State) : list Invite :=
  stable_sort (λ a b, seenAt b <? seenAt a)
    (List.filter (λ r, if String.eqb filter_ "all" then true else String.eqb (state r) filter_) (om_vals st)).

Definition pendingCount (st : State) : nat := length (List.filter isPending (om_vals st)).

(** ** Keys *)

Lemma word_not_ws c : (word_char c || Ascii.eqb c "-") = true → is_ws c = false.
Proof.
  assert (H : forallb (λ c, negb (word_char c || Ascii.eqb c "-") || negb (is_ws c)) (chars 256) = true) by (vm_compute; reflexivity).
  rewrite forallb_elem in H. specialize (H c (chars_all c)). intros E. rewrite E in H. by apply negb_true_iff.
Qed.

Lemma room_no_space r : ROOM_ID_RE r = true → string_exists is_ws r = false.
Proof.
  unfold ROOM_ID_RE. destruct r as [|c r]; [done|]. cbn [matrix_id string_exists]. intros H.
  apply andb_true_iff in H as [H _]. apply andb_true_iff in H as [Hc Hr]. apply Ascii.eqb_eq in Hc as ->.
  by apply negb_true_iff in Hr.
Qed.

(** The space between the halves is the only one, so a key determines its room and its agent. *)
Lemma key_inj r a r' a' : ROOM_ID_RE r = true → ROOM_ID_RE r' = true → key r a = key r' a' → r = r' ∧ a = a'.
Proof.
  intros Hr%room_no_space Hr'%room_no_space. unfold key. revert r' Hr'.
  induction r as [|c r IH]; intros [|c' r'] Hr'; cbn [string_exists] in *.
  - intros H. injection H as H. split; [done|exact H].
  - intros H. injection H as Hc _. apply orb_false_iff in Hr' as [Hw _]. by subst c'.
  - intros H. injection H as Hc _. apply orb_false_iff in Hr as [Hw _]. by subst c.
  - intros H. injection H as Hc H. subst c'. apply orb_false_iff in Hr as [_ Hr]. apply orb_false_iff in Hr' as [_ Hr'].
    destruct (IH Hr r' Hr' H) as [-> ->]. done.
Qed.

(** ** Folding the oldest away *)

Lemma settled_perm st : settledEntries st ≡ₚ List.filter (λ p, negb (isPending p.2)) st.
Proof. apply stable_sort_perm. Qed.

Lemma settled_sorted st : StronglySorted (λ a b, decidedTime a.2 ≤ decidedTime b.2) (settledEntries st).
Proof. apply (stable_sort_sorted _ (λ p, decidedTime p.2)); intros x y H; [by apply Z.ltb_lt|apply Z.ltb_ge; lia]. Qed.

Lemma foldl_del_get {V} (l : list (string * V)) (m : omap V) k :
  om_get k (foldl (λ m p, om_del p.1 m) m l) = if inb k l.*1 then None else om_get k m.
Proof.
  revert m. induction l as [|[k' v] l IH]; intros m; [done|]. cbn [foldl fst]. rewrite IH, om_get_del.
  cbn [fmap list_fmap fst inb existsb]. rewrite (String.eqb_sym k k'). unfold inb. destruct (existsb _ _), (String.eqb k' k); done.
Qed.

Lemma foldl_del_nodup {V} (l : list (string * V)) (m : omap V) :
  NoDup (om_keys m) → NoDup (om_keys (foldl (λ m p, om_del p.1 m) m l)).
Proof. revert m. induction l as [|p l IH]; intros m Hm; [done|]. apply IH. by apply om_nodup_del. Qed.

(** What [prune] does to one record: nothing, unless it is among the surplus, and then it was settled. *)
Lemma prune_get c st k :
  om_get k (prune c st) = if inb k (surplus c st).*1 then None else om_get k st.
Proof. apply foldl_del_get. Qed.

Lemma surplus_settled c st k : NoDup (om_keys st) → inb k (surplus c st).*1 = true →
  ∃ r, (k, r) ∈ surplus c st ∧ om_get k st = Some r ∧ isPending r = false.
Proof.
  intros Hnd Hk. apply inb_spec, list_elem_of_fmap in Hk as ([k' r] & -> & Hin). exists r. split; [done|].
  assert (Hs : (k', r) ∈ settledEntries st) by (unfold surplus in Hin; apply elem_of_take in Hin as (i & Hi & _); by eapply list_elem_of_lookup_2).
  rewrite settled_perm in Hs. apply elem_of_filter_bool in Hs as [Hp Hs]. split; [by apply elem_of_om_get|].
  by apply negb_true_iff in Hp.
Qed.

Lemma settled_of_prune c st : NoDup (om_keys st) →
  List.filter (λ p, negb (isPending p.2)) (prune c st) ≡ₚ drop (length (settledEntries st) - Z.to_nat c) (settledEntries st).
Proof.
  intros Hnd. set (n := (length (settledEntries st) - Z.to_nat c)%nat).
  assert (Hnds : NoDup (settledEntries st)).
  { rewrite settled_perm. apply NoDup_filter_bool. by eapply NoDup_fmap_1. }
  assert (Hsplit : ∀ k r, (k, r) ∈ settledEntries st ↔ om_get k st = Some r ∧ isPending r = false).
  { intros k r. rewrite settled_perm, elem_of_filter_bool, negb_true_iff. cbn [snd]. split.
    - intros [Hp Hin]. split; [by apply elem_of_om_get|done].
    - intros [Hg Hp]. split; [done|by apply om_get_elem_of]. }
  apply NoDup_Permutation.
  - apply NoDup_filter_bool. eapply NoDup_fmap_1. by apply foldl_del_nodup.
  - rewrite <-(take_drop n (settledEntries st)) in Hnds. by apply NoDup_app in Hnds as (_ & _ & ?).
  - intros [k r]. rewrite elem_of_filter_bool, negb_true_iff. cbn [snd].
    assert (Hin : (k, r) ∈ prune c st ↔ om_get k (prune c st) = Some r).
    { split; [by apply elem_of_om_get, foldl_del_nodup|apply om_get_elem_of]. }
    rewrite Hin, prune_get. unfold surplus. fold n. split.
    + intros [Hp Hg]. destruct (inb k _) eqn:E; [done|].
      assert (Hs : (k, r) ∈ settledEntries st) by by apply Hsplit.
      rewrite <-(take_drop n (settledEntries st)) in Hs. apply elem_of_app in Hs as [Hs|Hs]; [|done].
      apply not_true_iff_false in E. destruct E. apply inb_spec, list_elem_of_fmap. by exists (k, r).
    + intros Hd. assert (Hs : (k, r) ∈ settledEntries st).
      { rewrite <-(take_drop n (settledEntries st)). apply elem_of_app. by right. }
      apply Hsplit in Hs as [Hg Hp]. split; [done|]. destruct (inb k _) eqn:E; [|done].
      apply inb_spec, list_elem_of_fmap in E as ([k' r'] & -> & Ht). cbn [fst] in *.
      assert (Hs' : (k', r') ∈ settledEntries st) by (rewrite <-(take_drop n (settledEntries st)); apply elem_of_app; by left).
      apply Hsplit in Hs' as [Hg' _]. rewrite Hg in Hg'. injection Hg' as <-.
      rewrite <-(take_drop n (settledEntries st)) in Hnds. apply NoDup_app in Hnds as (_ & Hdis & _). by destruct (Hdis _ Ht).
Qed.

Definition settledCount (st : State) : nat := length (List.filter (λ p, negb (isPending p.2)) st).

Lemma prune_bound c st : NoDup (om_keys st) → 0 ≤ c → Z.of_nat (settledCount (prune c st)) ≤ c.
Proof.
  intros Hnd Hc. unfold settledCount. rewrite (Permutation_length (settled_of_prune c st Hnd)), length_drop. lia.
Qed.

(** ** The life of an invitation *)

Definition row_ok (k : string) (r : Invite) : Prop :=
  k = key (projectRoomId r) (agent r) ∧ ROOM_ID_RE (projectRoomId r) = true ∧ AGENT_RE (agent r) = true ∧
  projectServer r = serverFromRoomId (projectRoomId r) ∧ inb (state r) ["pending"; "accepted"; "declined"] = true.

Definition invites_wf (st : State) : Prop :=
  NoDup (om_keys st) ∧ ∀ k r, om_get k st = Some r → row_ok k r.

(** One step of one record, [answers] saying that the operation settles it. *)
Inductive invite_move (answers : bool) : option Invite → option Invite → Prop :=
| im_same o : invite_move answers o o
| im_arrive r : state r = "pending" → invite_move answers None (Some r)
| im_refresh r r' : state r = "pending" → state r' = "pending" → invite_move answers (Some r) (Some r')
| im_answer r r' : answers = true → state r = "pending" → inb (state r') ["accepted"; "declined"] = true →
    projectRoomId r' = projectRoomId r → agent r' = agent r → inviter r' = inviter r → seenAt r' = seenAt r →
    invite_move answers (Some r) (Some r')
| im_answer_fold r : answers = true → state r = "pending" → invite_move answers (Some r) None
| im_fold r : state r ≠ "pending" → invite_move answers (Some r) None.

Inductive Op : Type :=
| Upsert (input : jval)
| Settle (roomId a decision : string) (by_ : jval).

Section life.
Context (num_str : num → string) (str_num : string → num).

Definition exec (e : Env) (op : Op) (st : State) : step_out State State Invite :=
  match op with
  | Upsert input => upsert num_str str_num e input st
  | Settle r a d b => settle e r a d b st
  end.

Definition answered (op : Op) (k : string) : bool :=
  match op with Settle r a _ _ => String.eqb (key r a) k | Upsert _ => false end.

Lemma isPending_spec r : isPending r = true ↔ state r = "pending".
Proof. apply String.eqb_eq. Qed.

Lemma checkReport_ok input r : checkReport num_str str_num input = Ok r →
  ROOM_ID_RE (r_roomId r) = true ∧ AGENT_RE (r_agent r) = true.
Proof.
  unfold checkReport. intros H. js_inv H. injection H as <-. apply negb_false_iff in E0, E2. done.
Qed.

Lemma prune_wf c st : invites_wf st → invites_wf (prune c st).
Proof.
  intros [Hnd Hr]. split; [by apply foldl_del_nodup|]. intros k r. rewrite prune_get. destruct (inb _ _); [done|apply Hr].
Qed.

(** Folding a record away, after the record of [k0] was given the value [x]. *)
Lemma put_moves c st k0 x k (answers : bool) :
  invites_wf (obj_set k0 x st) → (k = k0 → invite_move answers (om_get k0 st) (Some x)) →
  (k = k0 → isPending x = false → answers = true ∧ ∃ r, om_get k0 st = Some r ∧ state r = "pending") →
  invite_move answers (om_get k st) (om_get k (prune c (obj_set k0 x st))).
Proof.
  intros Hwf Hx Hs. rewrite prune_get. destruct (inb k _) eqn:E.
  - apply surplus_settled in E as (r & _ & Hg & Hp); [|by apply Hwf]. rewrite om_get_obj_set in Hg.
    destruct (String.eqb_spec k0 k) as [<-|Hne].
    + injection Hg as <-. destruct (Hs eq_refl Hp) as (Ha & r & -> & Hr). by apply im_answer_fold.
    + rewrite Hg. apply im_fold. intros H%isPending_spec. congruence.
  - rewrite om_get_obj_set. destruct (String.eqb_spec k0 k) as [<-|Hne]; [by apply Hx|apply im_same].
Qed.

Lemma invites_obj_set_wf k x st : invites_wf st → row_ok k x → invites_wf (obj_set k x st).
Proof.
  intros [Hnd Hr] Hx. split; [by apply om_nodup_obj_set|]. intros k' r. rewrite om_get_obj_set.
  destruct (String.eqb_spec k k') as [<-|]; [by intros [= <-]|apply Hr].
Qed.

(** What every operation leaves: nothing new, or one record put in place, folded. *)
Lemma exec_cases e op st : invites_wf st →
  (so_mem (exec e op st) = st ∧ so_disk (exec e op st) = None) ∨
  (∃ k x, so_mem (exec e op st) = prune (cap e) (obj_set k x st) ∧ row_ok k x ∧
     invite_move (answered op k) (om_get k st) (Some x) ∧
     (isPending x = false → answered op k = true ∧ ∃ r, om_get k st = Some r ∧ state r = "pending") ∧
     (so_res (exec e op st) = Ok x ∨ save e = SaveThrew) ∧
     so_disk (exec e op st) = match save e with SaveDone => Some (so_mem (exec e op st)) | _ => None end).
Proof.
  intros Hwf.
  assert (Hput : ∀ x st', so_mem (pruneAndSave e x st') = prune (cap e) st' ∧
    (so_res (pruneAndSave e x st') = Ok x ∨ save e = SaveThrew) ∧
    so_disk (pruneAndSave e x st') = match save e with SaveDone => Some (so_mem (pruneAndSave e x st')) | _ => None end).
  { intros x st'. unfold pruneAndSave. destruct (save e); auto. }
  destruct op as [input|r a d b]; cbn [exec answered].
  - unfold upsert. destruct (checkReport num_str str_num input) as [rep|c] eqn:Hc; [|by left].
    apply checkReport_ok in Hc as [Hroom Hag]. set (k := key _ _).
    assert (Hx : row_ok k (invitation e (om_get k st) rep)) by done.
    destruct (om_get k st) as [x|] eqn:Hg; [destruct (isPending x) eqn:Hp; cbn [negb]; [|by left]|].
    + right. exists k, (invitation e (Some x) rep). destruct (Hput (invitation e (Some x) rep) (obj_set k (invitation e (Some x) rep) st)) as (H1 & H2 & H3).
      split_and!; try done. rewrite Hg. apply im_refresh; [by apply isPending_spec|done].
    + right. exists k, (invitation e None rep). destruct (Hput (invitation e None rep) (obj_set k (invitation e None rep) st)) as (H1 & H2 & H3).
      split_and!; try done. rewrite Hg. by apply im_arrive.
  - unfold settle. destruct (negb (String.eqb d "accepted") && negb (String.eqb d "declined")) eqn:Hd; [by left|].
    destruct (om_get (key r a) st) as [x|] eqn:Hg; [|by left]. destruct (isPending x) eqn:Hp; cbn [negb]; [|by left].
    right. set (y := x <| state := d |> <| decidedAt := Some (now e) |> <| decidedBy := b |>). exists (key r a), y.
    destruct (Hput y (obj_set (key r a) y st)) as (H1 & H2 & H3). rewrite String.eqb_refl.
    apply isPending_spec in Hp. destruct Hwf as [_ Hr]. specialize (Hr _ _ Hg). destruct Hr as (Hk & Hroom & Hag & Hsrv & _).
    assert (Hda : inb d ["accepted"; "declined"] = true).
    { unfold inb. cbn [existsb]. by destruct (String.eqb d "accepted"), (String.eqb d "declined"). }
    assert (Hrow : row_ok (key r a) y).
    { unfold row_ok, y. destruct x; cbn in *. split_and!; try done. by destruct (String.eqb d "pending"). }
    split_and!; [exact H1|exact Hrow| | |exact H2|exact H3].
    + rewrite Hg. apply im_answer; [done|done|exact Hda|by destruct x|by destruct x|by destruct x|by destruct x].
    + intros _. split; [done|]. exists x. by split.
Qed.

(** The life of an invitation: whatever an operation does, and whether or not it can be saved,
    every record stays as it was, arrives as pending, is refreshed while pending, is settled by the
    operation that answers it, or is folded away once settled. So a report never reopens a settled
    record that is still there, no pending invitation is dropped unanswered, and the history holds at
    most the cap after any change; the records folded away were decided no later than those kept. *)
Theorem invite_life_cycle e op st :
  invites_wf st → 0 ≤ cap e →
  let st' := so_mem (exec e op st) in
  invites_wf st' ∧
  (∀ k, invite_move (answered op k) (om_get k st) (om_get k st')) ∧
  (st' = st ∨ Z.of_nat (settledCount st') ≤ cap e) ∧
  (∀ k k' r r', om_get k st = Some r → om_get k st' = None → answered op k = false →
     om_get k' st' = Some r' → isPending r' = false → decidedTime r ≤ decidedTime r').
Proof.
  intros Hwf Hcap. cbv zeta.
  destruct (exec_cases e op st Hwf) as [[-> _]|(k0 & x & -> & Hrow & Hmv & Hs & _)].
  { split_and!; [done|intros k; apply im_same|by left|intros k k' r r' H1 H2; congruence]. }
  assert (Hwf' : invites_wf (obj_set k0 x st)) by by apply invites_obj_set_wf.
  split_and!.
  - by apply prune_wf.
  - intros k. apply put_moves; [done|by intros ->|by intros ->].
  - right. apply prune_bound; [apply Hwf'|done].
  - intros k k' r r' Hg Hn Ha Hg' Hp'. rewrite prune_get in Hn. destruct (inb k _) eqn:E.
    2:{ rewrite om_get_obj_set in Hn. destruct (String.eqb k0 k); congruence. }
    apply surplus_settled in E as (y & Hin & Hy & Hyp); [|by apply Hwf'].
    assert (k ≠ k0) as Hne. { intros ->. rewrite om_get_obj_set, String.eqb_refl in Hy. injection Hy as <-. destruct (Hs Hyp). congruence. }
    rewrite om_get_obj_set_ne in Hy by done. rewrite Hg in Hy. injection Hy as <-.
    pose proof (settled_of_prune (cap e) _ (proj1 Hwf')) as Hperm.
    assert (Hd : (k', r') ∈ drop (length (settledEntries (obj_set k0 x st)) - Z.to_nat (cap e)) (settledEntries (obj_set k0 x st))).
    { rewrite <-Hperm. apply elem_of_filter_bool. split; [cbn [snd]; by rewrite Hp'|by apply om_get_elem_of]. }
    exact (sorted_split (λ p, decidedTime p.2) _ _ _ _ (settled_sorted _) Hin Hd).
Qed.

End life.

Definition no_text : num → string := λ _, "0".
Definition no_num : string → num := λ _, Fin 0.
Definition at_ (t : Z) : Env := MkEnv t SaveDone 20.
Definition inviteTo (a : string) : jval := JObj [("project_room_id", JStr "!p:hub"); ("agent", JStr a); ("inviter", JStr "@ann:hub")].

Lemma invite_life_cycle_witness :
  let st := so_mem (exec no_text no_num (at_ 1) (Upsert (inviteTo "bob")) []) in
  let st' := so_mem (exec no_text no_num (at_ 2) (Settle "!p:hub" "bob" "declined" (JStr "operator")) st) in
  invites_wf st' ∧ so_mem (exec no_text no_num (at_ 3) (Upsert (inviteTo "bob")) st') = st'.
Proof.
  assert (H0 : invites_wf []) by (split; [constructor|done]).
  destruct (invite_life_cycle no_text no_num (at_ 1) (Upsert (inviteTo "bob")) [] H0 ltac:(done)) as [H1 _].
  destruct (invite_life_cycle no_text no_num (at_ 2) (Settle "!p:hub" "bob" "declined" (JStr "operator")) _ H1 ltac:(done)) as [H2 _].
  split; [exact H2|]. by vm_compute.
Defined.

(** Folding forgets that an invitation was settled: the next report of it is recorded as new. *)
Definition answer (a : string) (t : Z) (st : State) : State :=
  so_mem (exec no_text no_num (at_ t) (Settle "!p:hub" a "declined" (JStr "operator"))
    (so_mem (exec no_text no_num (at_ t) (Upsert (inviteTo a)) st))).

Fixpoint answerAll (n : nat) (t : Z) (st : State) : State :=
  match n with
  | O => st
  | S n => answerAll n (t + 1) (answer ("a" +:+ String (ascii_of_nat (65 + n)) EmptyString) t st)
  end.

Theorem folded_invite_reopens :
  let declined := answer "bob" 1 [] in
  let later := so_mem (exec no_text no_num (at_ 100) (Upsert (inviteTo "bob")) (answerAll 20 2 declined)) in
  (state <$> get "!p:hub" "bob" declined) = Some "declined" ∧ (state <$> get "!p:hub" "bob" later) = Some "pending".
Proof. by vm_compute. Qed.

End PendingInvites.
