(* ===== verification/Supervisor.v ===== *)
(** * Supervision of agents

    [lib/supervisor-snapshot-store.js], the last assessment of every supervised agent with its count of
    consecutive negative ones, and [lib/supervisor-action-engine.js], which turns an assessment into
    nudges and escalations at most once per cooldown. The engine reads the record the store keeps and
    writes back through [recordNudge] and [recordEscalation]. A mutation that cannot be persisted is
    undone; [Date] and the random part of an event id are arguments. *)

From Stdlib Require Import ZArith QArith Lia String Ascii.
From stdpp Require Import base list strings relations.
From S2P Require Import Prelude OMap Json Store.
#[local] Open Scope stdpp_scope.

Module SnapshotStore.

Definition VALID_STATES : list string := ["focused"; "drifting"; "lost"; "stuck"; "idle"; "done"].
Definition VALID_ACTIONS : list string := ["none"; "nudge"; "escalate"; "interrupt"].
Definition VALID_DOMAINS : list string := ["core"; "adjacent"; "outside"].
Definition NEGATIVE_STATES : list string := ["drifting"; "lost"; "stuck"].
Definition EVENT_RING_LIMIT : nat := 50 * 100.
Definition DEFAULT_LEASE_TTL_MS : Z := 120 * 1000.
Definition DEFAULT_INTERVAL_MS : Z := 60 * 1000.

Definition STATE_TO_CLASSIFICATION : omap string :=
  [("focused", "active"); ("drifting", "suspected_eos"); ("lost", "suspected_eos"); ("stuck", "stalled_wait");
   ("idle", "active"); ("done", "done")].
Definition STATE_TO_STATUS : omap string :=
  [("focused", "FOCUSED"); ("drifting", "DRIFTING"); ("lost", "LOST"); ("stuck", "STUCK"); ("idle", "IDLE"); ("done", "DONE")].

Record Snapshot : Type := MkSnapshot {
  state : string; confidence : Q; reason : string; suggested_action : string; domain : option string;
  pattern : option string; supervisor : string; assessed_at : string; assessed_at_ms : Z;
  consecutiveNegative : Z; classification : string; lifecycleState : string; negative : bool;
  lastEventId : string; lastWarningAt : option Z; lastNudgeAt : option Z; lastNudgeCount : Z;
  lastEscalationAt : option Z; lastEscalationCount : Z;
}.
#[export] Instance eta_snapshot : Settable Snapshot := λ s,
  MkSnapshot (state s) (confidence s) (reason s) (suggested_action s) (domain s) (pattern s) (supervisor s)
    (assessed_at s) (assessed_at_ms s) (consecutiveNegative s) (classification s) (lifecycleState s) (negative s)
    (lastEventId s) (lastWarningAt s) (lastNudgeAt s) (lastNudgeCount s) (lastEscalationAt s) (lastEscalationCount s).

Record Event : Type := MkEvent {
  ev_id : string; ev_ts : Z; ev_agent : string; ev_sweepAt : string; ev_status : string; ev_domain : option string;
  ev_reason : string; ev_pattern : option string; ev_suggestion : string; ev_negative : bool;
  ev_consecutiveNegative : Z; ev_classification : string; ev_lifecycleState : string;
}.

Record Lease : Type := MkLease { supervisorAgent : string; expiresAt : Z }.

Record State : Type := MkState {
  targets : omap Snapshot; events : list Event; leases : omap Lease;
  globalEnabled : bool; globalDisabledReason : option string;
}.
#[export] Instance eta_state : Settable State := λ s,
  MkState (targets s) (events s) (leases s) (globalEnabled s) (globalDisabledReason s).

(** What is persisted: everything but the leases. *)
Record Image : Type := MkImage {
  im_targets : omap Snapshot; im_events : list Event; im_enabled : bool; im_reason : option string;
}.

(** [l.slice(-n)] *)
Definition last_n {A} (n : nat) (l : list A) : list A := skipn (length l - n) l.

Definition image (st : State) : Image :=
  MkImage (targets st) (last_n EVENT_RING_LIMIT (events st)) (globalEnabled st) (globalDisabledReason st).

Definition load (i : option Image) : State :=
  match i with
  | None => MkState [] [] [] true None
  | Some i => MkState (im_targets i) (last_n EVENT_RING_LIMIT (im_events i)) [] (im_enabled i) (truthy_opt (im_reason i))
  end.

(** Successive readings of the clock, [toISOString], the random text of an event id, and what [save] does. *)
Record Env : Type := MkEnv { now : nat → Z; iso : Z → string; z_str : Z → string; random : string; save : save_outcome }.

Definition Out (A : Type) : Type := step_out State Image A.

(** [commitMutation] of a mutator that computed the next state and a value. *)
Definition commitMutation {A} (e : Env) (st next : State) (a : A) : Out A :=
  match save e with
  | SaveDone => StepOut (Ok a) next (Some (image next))
  | SaveFalse | SaveThrew => StepOut (Throw "snapshot_persistence_failed") st None
  end.

Definition unchanged {A} (a : A) (st : State) : Out A := StepOut (Ok a) st None.
Definition raise {A} (c : string) (st : State) : Out A := StepOut (Throw c) st None.

Definition normalizeText (v : jval) (maxLen : nat) : option string := text_of v maxLen.

Definition isLeaseActive (targetAgent : string) (t : Z) (st : State) : bool :=
  match om_get targetAgent (leases st) with Some l => t <? expiresAt l | None => false end.

Definition generateEventId (e : Env) (t : Z) (target : string) : string :=
  "supervisor_" +:+ z_str e t +:+ "_" +:+ target +:+ "_" +:+ random e.

(** [Math.max(0, Math.min(1, c))], or a half when that is no number. *)
Definition clampConfidence (v : jval) : Q :=
  match v with
  | JNum (Fin q) => if Qle_bool q 0 then 0%Q else if Qle_bool 1 q then 1%Q else q
  | JNum (Inf neg) => if neg then 0%Q else 1%Q
  | _ => (1 # 2)%Q
  end.

(** [a || null] on a time *)
Definition time_or_null (o : option Z) : option Z := match o with Some 0 | None => None | Some t => Some t end.

Record Assessment : Type := MkAssessment {
  a_state : string; a_confidence : Q; a_reason : string; a_action : string; a_domain : option string; a_pattern : option string;
}.

Definition checkAssessment (v : jval) : result Assessment :=
  match normalizeText (prop v "state") 32 with
  | None => Throw "invalid_state"
  | Some s =>
      throw_if negb (inb s VALID_STATES) with "invalid_state" in
      let action := default "none" (normalizeText (prop v "suggested_action") 32) in
      throw_if negb (inb action VALID_ACTIONS) with "invalid_action" in
      let dom := normalizeText (prop v "domain") 32 in
      throw_if match dom with Some d => negb (inb d VALID_DOMAINS) | None => false end with "invalid_domain" in
      Ok (MkAssessment s (clampConfidence (prop v "confidence")) (default EmptyString (normalizeText (prop v "reason") 2048))
            action dom (normalizeText (prop v "pattern") 64))
  end.

Definition isNegative (a : Assessment) : bool := inb (a_state a) NEGATIVE_STATES.

Definition assessed (e : Env) (targetAgent supervisorAgent : string) (a : Assessment) (st : State) : Snapshot :=
  let prev := om_get targetAgent (targets st) in
  MkSnapshot (a_state a) (a_confidence a) (a_reason a) (a_action a) (a_domain a) (a_pattern a) supervisorAgent
    (iso e (now e 0)) (now e 1)
    (if isNegative a then match prev with Some p => consecutiveNegative p | None => 0 end + 1 else 0)
    (default "active" (om_get (a_state a) STATE_TO_CLASSIFICATION))
    (if isLeaseActive targetAgent (now e 2) st then "active" else "idle") (isNegative a)
    (generateEventId e (now e 3) targetAgent)
    (match prev with Some p => time_or_null (lastWarningAt p) | None => None end)
    (match prev with Some p => time_or_null (lastNudgeAt p) | None => None end)
    (match prev with Some p => lastNudgeCount p | None => 0 end)
    (match prev with Some p => time_or_null (lastEscalationAt p) | None => None end)
    (match prev with Some p => lastEscalationCount p | None => 0 end).

Definition eventOf (targetAgent : string) (s : Snapshot) : Event :=
  MkEvent (lastEventId s) (assessed_at_ms s) targetAgent (assessed_at s) (default (state s) (om_get (state s) STATE_TO_STATUS))
    (domain s) (reason s) (pattern s) (suggested_action s) (negative s) (consecutiveNegative s) (classification s) (lifecycleState s).

Definition updateAssessment (e : Env) (targetAgent supervisorAgent : string) (v : jval) (st : State) : Out (Snapshot * Event) :=
  match checkAssessment v with
  | Throw c => raise c st
  | Ok a =>
      let s := assessed e targetAgent supervisorAgent a st in
      let ev := eventOf targetAgent s in
      commitMutation e st
        (st <| targets := obj_set targetAgent s (targets st) |> <| events := last_n EVENT_RING_LIMIT (events st ++ [ev]) |>) (s, ev)
  end.

Definition getTarget (targetAgent : string) (st : State) : option Snapshot := om_get targetAgent (targets st).

Definition getEvents (targetAgent : option string) (limit : nat) (st : State) : list Event :=
  last_n limit (match truthy_opt targetAgent with
                | Some t => List.filter (λ ev, String.eqb (ev_agent ev) t) (events st)
                | None => events st
                end).

Definition renewLease (t : Z) (targetAgent supervisorAgent : string) (ttlMs : option Z) (st : State) : State :=
  st <| leases := obj_set targetAgent (MkLease supervisorAgent (t + default DEFAULT_LEASE_TTL_MS ttlMs)) (leases st) |>.

Definition clearLease (targetAgent : string) (st : State) : State := st <| leases := om_del targetAgent (leases st) |>.

(** [targets[targetAgent]] mutated in place. *)
Definition recordOn (e : Env) (targetAgent : string) (f : Snapshot → Snapshot) (st : State) : Out (option Snapshot) :=
  match om_get targetAgent (targets st) with
  | None => unchanged None st
  | Some t => commitMutation e st (st <| targets := obj_set targetAgent (f t) (targets st) |>) (Some (f t))
  end.

Definition recordNudge (e : Env) (targetAgent : string) (st : State) : Out (option Snapshot) :=
  recordOn e targetAgent (λ t, t <| lastNudgeAt := Some (now e 0) |> <| lastNudgeCount := lastNudgeCount t + 1 |>
                                 <| lastWarningAt := Some (now e 0) |>) st.

Definition recordEscalation (e : Env) (targetAgent : string) (st : State) : Out (option Snapshot) :=
  recordOn e targetAgent (λ t, t <| lastEscalationAt := Some (now e 0) |>
                                 <| lastEscalationCount := lastEscalationCount t + 1 |>) st.

Record Control : Type := MkControl { c_enabled : bool; c_reason : option string; c_allowed : list string }.

Definition getControl (agentRegistry : option (omap jval)) (st : State) : Control :=
  MkControl (globalEnabled st) (globalDisabledReason st)
    (match agentRegistry with
     | Some r => List.filter (λ name, match om_get ("supervisor-" +:+ name) r with Some v => to_bool v | None => false end) (om_keys r)
     | None => []
     end).

Definition setEnabled (e : Env) (enabled : bool) (st : State) : Out Control :=
  let next := st <| globalEnabled := enabled |> <| globalDisabledReason := if enabled then None else Some "runtime-disabled" |> in
  commitMutation e st next (getControl None next).

Definition removeTarget (e : Env) (targetAgent : string) (st : State) : Out bool :=
  if negb (om_has targetAgent (targets st)) then unchanged false st else
  commitMutation e st
    (st <| leases := om_del targetAgent (leases st) |> <| targets := om_del targetAgent (targets st) |>
        <| events := List.filter (λ ev, negb (String.eqb (ev_agent ev) targetAgent)) (events st) |>) true.

(** The computed part of [getStatus] at one reading [t] of the clock. *)
Record Status : Type := MkStatus {
  st_control : Control; st_running : bool; st_lastSweepAt : option Z; st_active : nat; st_evaluated : nat;
  st_mode : string; st_eventCount : nat;
}.

Definition getStatus (agentRegistry : option (omap jval)) (t : Z) (st : State) : Status :=
  let all := om_vals (targets st) in
  let active := List.filter (λ k, isLeaseActive k t st) (om_keys (leases st)) in
  let recent := List.filter (λ s, negb (assessed_at_ms s =? 0) && (t - assessed_at_ms s <? DEFAULT_INTERVAL_MS * 2)) all in
  let last := foldl (λ m s, if m <? assessed_at_ms s then assessed_at_ms s else m) 0 all in
  MkStatus (getControl agentRegistry st) (0 <? length active)%nat (if last =? 0 then None else Some last)
    (length active) (length recent)
    (if existsb negative all then "attention" else if (0 <? length active)%nat then "active" else "idle") (length (events st)).

End SnapshotStore.

(** ** The action engine *)

Module ActionEngine.
Import SnapshotStore.

(** The thresholds, as [parseInt] reads them: [None] is NaN, which no count reaches. *)
Record Config : Type := MkConfig { warnAfter : option Z; escalateAfter : option Z; cooldownMs : option Z }.

Definition configFrom (warn escalate cooldown : option string) : Config :=
  MkConfig (parseInt (default "2" (truthy_opt warn))) (parseInt (default "3" (truthy_opt escalate)))
    (parseInt (default "300000" (truthy_opt cooldown))).

(** The double [0.7]. *)
Definition MIN_CONFIDENCE : Q := 3152519739159347 # 4503599627370496.

Definition reaches (n : Z) (threshold : option Z) : bool := match threshold with Some k => k <=? n | None => false end.
Definition beyond (n : Z) (cooldown : option Z) : bool := match cooldown with Some k => k <? n | None => false end.

(** The payload of a message's schema; [p_source] is there only on an escalation. *)
Record Payload : Type := MkPayload {
  p_target : string; p_state : string; p_confidence : Q; p_consecutive : Z; p_reason : string; p_source : option string;
}.
Record Message : Type := MkMessage {
  m_from : string; m_to : string; m_type : string; m_priority : string; m_summary : string; m_full : string;
  m_kind : string; m_version : Z; m_payload : Payload;
}.

Inductive effect : Type :=
| SendMessage (m : Message)
| IngestAlert (alertType dedupeKey severity source sourceAgent summary detail : string)
| BroadcastAudit (kind agent state : string) (confidence : Q) (consecutive ts : Z).

Record Verdict : Type := MkVerdict { nudged : bool; escalated : bool }.

(** The injected environment: the clock, whether each of the two records can be saved, which of the
    optional sinks are there, and the texts [toFixed(2)] and [${n}] give. *)
Record Env : Type := MkEnv {
  e_now : Z; e_nudge : SnapshotStore.Env; e_escalate : SnapshotStore.Env; hasAlerts : bool; hasBroadcast : bool;
  toFixed2 : Q → string; int_str : Z → string;
}.

Definition nl2 : string := String (Ascii.ascii_of_nat 10) (String (Ascii.ascii_of_nat 10) EmptyString).
Definition payloadOf (target : string) (s : Snapshot) (source : option string) : Payload :=
  MkPayload target (state s) (confidence s) (consecutiveNegative s) (reason s) source.

Definition nudgeMessage (e : Env) (target : string) (s : Snapshot) : Message :=
  MkMessage "system" target "inform" "high"
    ("Supervisor: you appear " +:+ state s +:+ ". " +:+ reason s)
    ("[Supervisor assessment] Agent " +:+ target +:+ " classified as " +:+ state s +:+ " (confidence: " +:+ toFixed2 e (confidence s)
     +:+ ", consecutive: " +:+ int_str e (consecutiveNegative s) +:+ ")." +:+ nl2 +:+ "Reason: " +:+ reason s +:+ nl2
     +:+ "Please verify you are on-task and making progress.")
    "supervisor_nudge" 1 (payloadOf target s None).

Definition escalationMessage (e : Env) (target : string) (s : Snapshot) : Message :=
  MkMessage "system" "ac-topleader" "request" "urgent"
    ("Supervisor escalation: " +:+ target +:+ " is " +:+ state s)
    ("[Supervisor escalation] Agent " +:+ target +:+ " has been " +:+ state s +:+ " for " +:+ int_str e (consecutiveNegative s)
     +:+ " consecutive assessments (confidence: " +:+ toFixed2 e (confidence s) +:+ ")." +:+ nl2 +:+ "Reason: " +:+ reason s +:+ nl2
     +:+ "This requires coordinator attention.")
    "escalation" 1 (payloadOf target s (Some "supervisor")).

Definition sinks (e : Env) (kind severity alertSummary target : string) (s : Snapshot) : list effect :=
  (if hasAlerts e
   then [IngestAlert ("supervisor_" +:+ kind) ("supervisor_" +:+ kind +:+ ":" +:+ target) severity "supervisor" target alertSummary
           ("Confidence: " +:+ toFixed2 e (confidence s) +:+ ", consecutive: " +:+ int_str e (consecutiveNegative s) +:+ ". " +:+ reason s)]
   else [])
  ++ (if hasBroadcast e then [BroadcastAudit kind target (state s) (confidence s) (consecutiveNegative s) (e_now e)] else []).

(** One of the two blocks: its message, unless it is in its cooldown; [None] when the record cannot be saved. *)
Definition act (e : Env) (cfg : Config) (last : option Z) (record : SnapshotStore.State → Out (option Snapshot))
    (m : Message) (after : list effect) (st : SnapshotStore.State) : option (SnapshotStore.State * list effect) :=
  if beyond (e_now e - default 0 last) (cooldownMs cfg) then
    let o := record st in
    match so_res o with
    | Ok _ => Some (so_mem o, SendMessage m :: after)
    | Throw _ => None
    end
  else Some (st, []).

(** [evaluateAction] on the store's own record of the target. *)
Definition evaluateAction (e : Env) (cfg : Config) (target : string) (snapshot : option Snapshot) (st : SnapshotStore.State)
    : option Verdict * SnapshotStore.State * list effect :=
  match snapshot with
  | None => (None, st, [])
  | Some s =>
      if negb (negative s) then (None, st, []) else
      if negb (Qle_bool MIN_CONFIDENCE (confidence s)) then (None, st, []) else
      let warn := reaches (consecutiveNegative s) (warnAfter cfg) in
      let esc := reaches (consecutiveNegative s) (escalateAfter cfg) in
      match (if warn
             then act e cfg (lastNudgeAt s) (recordNudge (e_nudge e) target) (nudgeMessage e target s)
                    (sinks e "nudge" "info" ("Supervisor: " +:+ target +:+ " appears " +:+ state s) target s) st
             else Some (st, [])) with
      | None => (Some (MkVerdict false false), st, [])
      | Some (st1, fx1) =>
          match (if esc
                 then act e cfg (lastEscalationAt s) (recordEscalation (e_escalate e) target) (escalationMessage e target s)
                        (sinks e "escalation" "warning" ("Supervisor escalation: " +:+ target +:+ " is " +:+ state s) target s) st1
                 else Some (st1, [])) with
          | None => (Some (MkVerdict warn false), st1, fx1)
          | Some (st2, fx2) => (Some (MkVerdict warn esc), st2, fx1 ++ fx2)
          end
      end
  end.

(** [PATCH /api/supervisor-state/:target], past its authorization: the lease, the assessment, then the
    engine on the snapshot just stored. Every successful save wrote the image of the memory it left;
    the result is the assessment as it was stored, before the engine's bookkeeping that the response
    also shows, and the broadcast of the event is left out. *)
Definition patchSupervisorState (t : Z) (ea : SnapshotStore.Env) (e : Env) (cfg : Config) (target : string) (body : jval)
    (st : SnapshotStore.State) : result Snapshot * SnapshotStore.State * option Image * list effect :=
  let supervisorName := "supervisor-" +:+ target in
  let st1 := renewLease t target supervisorName None st in
  let o := updateAssessment ea target supervisorName body st1 in
  match so_res o with
  | Throw c => (Throw c, so_mem o, None, [])
  | Ok (snapshot, _) =>
      let '(_, st2, fx) := evaluateAction e cfg target (Some snapshot) (so_mem o) in
      (Ok snapshot, st2, Some (image st2), fx)
  end.

End ActionEngine.

(** ** Supervision: what an agent and the coordinator are sent

    The snapshot store keeps the length of the current run of negative assessments and loses nothing
    when a save fails; the engine, run on every assessment, nudges and escalates only on such a run and
    never twice within the cooldown, across saves that fail and restarts of the process. *)

From Stdlib Require Import ZArith QArith Lia String Ascii.
From stdpp Require Import base list strings relations sorting.
From S2P Require Import Prelude OMap Json Store.
Import SnapshotStore ActionEngine.
#[local] Open Scope stdpp_scope.

(** ** One call of the engine *)

(** How a record moves when the engine acts on it. *)
Definition nudgedAt (t : Z) (s : Snapshot) : Snapshot :=
  s <| lastNudgeAt := Some t |> <| lastNudgeCount := lastNudgeCount s + 1 |> <| lastWarningAt := Some t |>.
Definition escalatedAt (t : Z) (s : Snapshot) : Snapshot :=
  s <| lastEscalationAt := Some t |> <| lastEscalationCount := lastEscalationCount s + 1 |>.

(** One of the two blocks on the stored record [s]: it did nothing, or its record was saved first. *)
Lemma act_cases e cfg last env target f m after st st' fx s :
  om_get target (targets st) = Some s →
  act e cfg last (recordOn env target f) m after st = Some (st', fx) →
  (st' = st ∧ fx = []) ∨
  (beyond (e_now e - default 0 last) (cooldownMs cfg) = true ∧ st' = st <| targets := obj_set target (f s) (targets st) |> ∧
   fx = SendMessage m :: after).
Proof.
  intros Hs. unfold act. destruct (beyond _ _) eqn:Hb; [|intros [= <- <-]; by left].
  unfold recordOn. rewrite Hs. unfold commitMutation. destruct (save env); cbn [so_res so_mem]; try done.
  intros [= <- <-]. by right.
Qed.

(** Why a block acts: a negative record whose run reaches the threshold, past the cooldown. *)
Definition acts_on (e : Env) (cfg : Config) (s : Snapshot) (threshold last : option Z) : Prop :=
  negative s = true ∧ reaches (consecutiveNegative s) threshold = true ∧
  beyond (e_now e - default 0 last) (cooldownMs cfg) = true.

(** What the engine does to a stored record, and whether it nudges and escalates. *)
Inductive engine_step (e : Env) (cfg : Config) (s : Snapshot) : Snapshot → bool → bool → Prop :=
| es_none : engine_step e cfg s s false false
| es_nudge : acts_on e cfg s (warnAfter cfg) (lastNudgeAt s) →
    engine_step e cfg s (nudgedAt (now (e_nudge e) 0) s) true false
| es_escalate : acts_on e cfg s (escalateAfter cfg) (lastEscalationAt s) →
    engine_step e cfg s (escalatedAt (now (e_escalate e) 0) s) false true
| es_both : acts_on e cfg s (warnAfter cfg) (lastNudgeAt s) → acts_on e cfg s (escalateAfter cfg) (lastEscalationAt s) →
    engine_step e cfg s (escalatedAt (now (e_escalate e) 0) (nudgedAt (now (e_nudge e) 0) s)) true true.

Definition sent (kind : string) (fx : list effect) : bool :=
  existsb (λ f, match f with SendMessage m => String.eqb (m_kind m) kind | _ => false end) fx.

Lemma sent_app kind fx fy : sent kind (fx ++ fy) = sent kind fx || sent kind fy.
Proof. apply existsb_app. Qed.

Lemma sent_sinks kind e k severity summary target s : sent kind (sinks e k severity summary target s) = false.
Proof. unfold sinks. by destruct (hasAlerts e), (hasBroadcast e). Qed.

Lemma evaluate_step e cfg target s st v st' fx :
  om_get target (targets st) = Some s →
  evaluateAction e cfg target (Some s) st = (v, st', fx) →
  ∃ s', engine_step e cfg s s' (sent "supervisor_nudge" fx) (sent "escalation" fx) ∧
    (∀ k, om_get k (targets st') = if String.eqb target k then Some s' else om_get k (targets st)).
Proof.
  intros Hs. unfold evaluateAction.
  assert (Hsame : ∀ k, om_get k (targets st) = if String.eqb target k then Some s else om_get k (targets st)).
  { intros k. by destruct (String.eqb_spec target k) as [<-|]. }
  destruct (negative s) eqn:Hneg; [|intros [= _ <- <-]; exists s; split; [apply es_none|exact Hsame]].
  destruct (Qle_bool _ _); [|intros [= _ <- <-]; exists s; split; [apply es_none|exact Hsame]]. cbn [negb].
  match goal with |- match ?x with Some _ => _ | None => _ end = _ → _ => destruct x as [[st1 fx1]|] eqn:H1 end.
  2:{ intros [= _ <- <-]. exists s. split; [apply es_none|exact Hsame]. }
  assert (Hn : (st1 = st ∧ fx1 = []) ∨
    (acts_on e cfg s (warnAfter cfg) (lastNudgeAt s) ∧ st1 = st <| targets := obj_set target (nudgedAt (now (e_nudge e) 0) s) (targets st) |> ∧
     sent "supervisor_nudge" fx1 = true ∧ sent "escalation" fx1 = false)).
  { destruct (reaches _ (warnAfter cfg)) eqn:Hw; [|injection H1 as <- <-; by left].
    apply (act_cases _ _ _ _ _ (nudgedAt (now (e_nudge e) 0)) _ _ _ _ _ s Hs) in H1 as [[-> ->]|(Hb & -> & ->)]; [by left|].
    right. split; [by split_and!|]. do 2 (split; [done|]). exact (sent_sinks _ _ _ _ _ _ _). }
  clear H1. match goal with |- match ?x with Some _ => _ | None => _ end = _ → _ => destruct x as [[st2 fx2]|] eqn:H2 end.
  2:{ intros [= _ <- <-]. destruct Hn as [[-> ->]|(Ha & -> & Hf & Hf')]; [exists s; split; [apply es_none|exact Hsame]|].
      eexists. rewrite Hf, Hf'. split; [by apply es_nudge|]. intros k. cbn [targets]. apply om_get_obj_set. }
  intros [= _ <- <-]. rewrite !sent_app.
  set (s1 := if sent "supervisor_nudge" fx1 then nudgedAt (now (e_nudge e) 0) s else s).
  assert (Hs1 : ∀ k, om_get k (targets st1) = if String.eqb target k then Some s1 else om_get k (targets st)).
  { unfold s1. destruct Hn as [[-> ->]|(_ & -> & -> & _)]; [exact Hsame|]. intros k. cbn [targets]. apply om_get_obj_set. }
  assert (Hlast : lastEscalationAt s1 = lastEscalationAt s) by (unfold s1; destruct (sent _ fx1); [by destruct s|done]).
  assert (Hdef : s1 = if sent "supervisor_nudge" fx1 then nudgedAt (now (e_nudge e) 0) s else s) by done. clearbody s1.
  assert (He : (st2 = st1 ∧ fx2 = []) ∨
    (acts_on e cfg s (escalateAfter cfg) (lastEscalationAt s) ∧
     st2 = st1 <| targets := obj_set target (escalatedAt (now (e_escalate e) 0) s1) (targets st1) |> ∧
     sent "escalation" fx2 = true ∧ sent "supervisor_nudge" fx2 = false)).
  { destruct (reaches _ (escalateAfter cfg)) eqn:Hw; [|injection H2 as <- <-; by left].
    pose proof (Hs1 target) as Ht. rewrite String.eqb_refl in Ht.
    destruct (act_cases _ _ _ _ _ (escalatedAt (now (e_escalate e) 0)) _ _ _ _ _ s1 Ht H2) as [[-> ->]|(Hb & -> & ->)]; [by left|].
    right. split; [by split_and!|]. do 2 (split; [done|]). exact (sent_sinks _ _ _ _ _ _ _). }
  exists (if sent "escalation" fx2 then escalatedAt (now (e_escalate e) 0) s1 else s1). split.
  - rewrite Hdef. destruct Hn as [[_ ->]|(Ha & _ & -> & ->)], He as [[_ ->]|(Hb & _ & -> & ->)]; cbn [orb];
      [apply es_none|by apply es_escalate|by apply es_nudge|by apply es_both].
  - intros k. destruct He as [[-> ->]|(_ & -> & -> & _)]; [apply Hs1|]. etrans; [apply om_get_obj_set|]. rewrite Hs1.
    by destruct (String.eqb target k).
Qed.

(** ** Runs of the service *)

(** The current run of negative verdicts, the latest first. *)
Fixpoint run (verdicts : list bool) : Z :=
  match verdicts with
  | true :: l => run l + 1
  | _ => 0
  end.

(** The store and its file, what was sent to whom, when and on which run, and the verdicts on each
    target since it was added. *)
Record sys : Type := Sys {
  s_mem : State; s_file : Image; s_nudges : list (string * Z * Z); s_escalations : list (string * Z * Z);
  s_verdicts : omap (list bool);
}.

Definition sys0 : sys := Sys (load None) (image (load None)) [] [] [].

Section supervision.
Context (cfg : Config).

Definition logged (b : bool) (target : string) (t r : Z) (l : list (string * Z * Z)) := if b then (target, t, r) :: l else l.

Definition afterPatch (t : Z) (ea : SnapshotStore.Env) (e : Env) (target : string) (body : jval) (s : sys) : sys :=
  let '(r, st', disk, fx) := patchSupervisorState t ea e cfg target body (s_mem s) in
  let file := default (s_file s) disk in
  match r with
  | Throw _ => Sys st' file (s_nudges s) (s_escalations s) (s_verdicts s)
  | Ok snap =>
      let vs := negative snap :: default [] (om_get target (s_verdicts s)) in
      Sys st' file (logged (sent "supervisor_nudge" fx) target (e_now e) (run vs) (s_nudges s))
        (logged (sent "escalation" fx) target (e_now e) (run vs) (s_escalations s)) (om_set target vs (s_verdicts s))
  end.

Definition forgetTarget (target : string) (l : list (string * Z * Z)) := List.filter (λ x, negb (String.eqb x.1.1 target)) l.

Definition afterRemove (e : SnapshotStore.Env) (target : string) (s : sys) : sys :=
  let o := removeTarget e target (s_mem s) in
  match so_res o with
  | Ok true => Sys (so_mem o) (default (s_file s) (so_disk o)) (forgetTarget target (s_nudges s))
                 (forgetTarget target (s_escalations s)) (om_del target (s_verdicts s))
  | _ => Sys (so_mem o) (default (s_file s) (so_disk o)) (s_nudges s) (s_escalations s) (s_verdicts s)
  end.

(** An assessment, whose clock does not go back between its decision and its records; a removal; a
    lease; the switch; a restart of the process from its file. *)
Inductive sup_step : relation sys :=
| sp_patch t ea e target body s : 0 < e_now e → e_now e ≤ now (e_nudge e) 0 → e_now e ≤ now (e_escalate e) 0 →
    sup_step s (afterPatch t ea e target body s)
| sp_remove e target s : sup_step s (afterRemove e target s)
| sp_renew t target sup ttl s : sup_step s (Sys (renewLease t target sup ttl (s_mem s)) (s_file s) (s_nudges s) (s_escalations s) (s_verdicts s))
| sp_clear target s : sup_step s (Sys (clearLease target (s_mem s)) (s_file s) (s_nudges s) (s_escalations s) (s_verdicts s))
| sp_enable e b s : sup_step s (Sys (so_mem (setEnabled e b (s_mem s))) (default (s_file s) (so_disk (setEnabled e b (s_mem s))))
    (s_nudges s) (s_escalations s) (s_verdicts s))
| sp_restart s : sup_step s (Sys (load (Some (s_file s))) (s_file s) (s_nudges s) (s_escalations s) (s_verdicts s)).

Definition times (k : string) (l : list (string * Z * Z)) : list Z :=
  List.map (λ x, x.1.2) (List.filter (λ x, String.eqb x.1.1 k) l).

(** Any two sendings, the later first, are further apart than the cooldown. *)
Definition spaced (l : list Z) : Prop := StronglySorted (λ a b, beyond (a - b) (cooldownMs cfg) = true) l.

Definition last_ok (l : list Z) (last : option Z) : Prop := ∀ t, t ∈ l → ∃ x, last = Some x ∧ t ≤ x ∧ 0 < x.

Definition record_ok (s : sys) (k : string) (r : Snapshot) : Prop :=
  consecutiveNegative r = run (default [] (om_get k (s_verdicts s))) ∧
  last_ok (times k (s_nudges s)) (lastNudgeAt r) ∧ last_ok (times k (s_escalations s)) (lastEscalationAt r).

Record sup_inv (s : sys) : Prop := SupInv {
  si_file : im_targets (s_file s) = targets (s_mem s);
  si_rec : ∀ k r, om_get k (targets (s_mem s)) = Some r → record_ok s k r;
  si_none : ∀ k, om_get k (targets (s_mem s)) = None → om_get k (s_verdicts s) = None ∧ times k (s_nudges s) = [] ∧ times k (s_escalations s) = [];
  si_spaced : ∀ k, spaced (times k (s_nudges s)) ∧ spaced (times k (s_escalations s));
  si_warn : ∀ k t n, (k, t, n) ∈ s_nudges s → reaches n (warnAfter cfg) = true;
  si_esc : ∀ k t n, (k, t, n) ∈ s_escalations s → reaches n (escalateAfter cfg) = true;
}.

Lemma times_logged b target t r k l :
  times k (logged b target t r l) = if b && String.eqb target k then t :: times k l else times k l.
Proof. unfold logged, times. destruct b; [|done]. cbn [List.filter fst andb]. by destruct (String.eqb target k). Qed.

Lemma times_forget target k l : times k (forgetTarget target l) = if String.eqb target k then [] else times k l.
Proof.
  unfold times, forgetTarget. induction l as [|x l IH]; [by destruct (String.eqb target k)|]. cbn [List.filter].
  destruct (String.eqb_spec x.1.1 target) as [Hx|Hne]; cbn [negb List.filter].
  - rewrite IH. destruct (String.eqb_spec target k), (String.eqb_spec x.1.1 k); congruence.
  - destruct (String.eqb_spec x.1.1 k) as [Hx|]; cbn [List.map]; rewrite IH; [|done].
    destruct (String.eqb_spec target k); congruence.
Qed.

(** A sending decided past the cooldown of the last one keeps the log spaced. *)
Lemma spaced_logged b target t r k l last :
  spaced (times k l) → (target = k → last_ok (times k l) last) →
  (b = true → beyond (t - default 0 last) (cooldownMs cfg) = true) → spaced (times k (logged b target t r l)).
Proof.
  intros Hs Hl Hb. rewrite times_logged. destruct b; [|done]. destruct (String.eqb_spec target k) as [->|]; [|done]. cbn [andb].
  apply SSorted_cons; [done|]. apply Forall_forall. intros x Hx. destruct (Hl eq_refl x Hx) as (y & -> & Hle & _).
  specialize (Hb eq_refl). cbn [default from_option id] in Hb. unfold beyond in *. destruct (cooldownMs cfg); [lia|done].
Qed.

Hypothesis cooldown_pos : ∀ c, cooldownMs cfg = Some c → 0 ≤ c.

Lemma last_logged b target t r k l last x :
  last_ok (times k l) last → t ≤ x → 0 < x → (b = true → beyond (t - default 0 last) (cooldownMs cfg) = true) →
  last_ok (times k (logged b target t r l)) (if b then Some x else last).
Proof using cooldown_pos.
  intros Hl Ht Hx Hb. rewrite times_logged. destruct b; [|exact Hl]. intros y Hy. exists x. split; [done|]. split; [|done].
  assert (Hold : y ∈ times k l → y ≤ x).
  { intros Hin. destruct (Hl y Hin) as (z & -> & Hle & _). specialize (Hb eq_refl). unfold beyond in Hb. cbn [default from_option id] in Hb.
    destruct (cooldownMs cfg) as [c|] eqn:E; [|done]. specialize (cooldown_pos c eq_refl). lia. }
  destruct (true && String.eqb target k); [|by apply Hold]. apply elem_of_cons in Hy as [->|Hy]; [done|by apply Hold].
Qed.

(** Changing the store without touching its targets. *)
Lemma inv_targets s m f : sup_inv s → targets m = targets (s_mem s) → im_targets f = targets m →
  sup_inv (Sys m f (s_nudges s) (s_escalations s) (s_verdicts s)).
Proof.
  intros [H1 H2 H3 H4 H5 H6] Hm Hf. constructor; cbn [s_mem s_file s_nudges s_escalations s_verdicts]; try done.
  - intros k r. rewrite Hm. apply H2.
  - intros k. rewrite Hm. apply H3.
Qed.

Lemma last_kept l (prev : option Snapshot) f :
  (∀ p, prev = Some p → last_ok l (f p)) → (prev = None → l = []) →
  last_ok l (match prev with Some p => time_or_null (f p) | None => None end).
Proof.
  intros Hp Hn t Ht. destruct prev as [p|]; [|rewrite Hn in Ht by done; by apply elem_of_nil in Ht].
  destruct (Hp p eq_refl t Ht) as (x & -> & Hle & Hx). exists x. split; [|done]. by destruct x.
Qed.

(** The snapshot just stored, before the engine sees it. *)
Lemma assessed_ok ea target sup a s :
  sup_inv s →
  let r := assessed ea target sup a (s_mem s) in
  consecutiveNegative r = run (negative r :: default [] (om_get target (s_verdicts s))) ∧
  last_ok (times target (s_nudges s)) (lastNudgeAt r) ∧ last_ok (times target (s_escalations s)) (lastEscalationAt r).
Proof.
  intros Hinv. destruct (om_get target (targets (s_mem s))) as [p|] eqn:Hp.
  - destruct (si_rec _ Hinv _ _ Hp) as (Hc & Hn & He). unfold assessed. rewrite Hp.
    cbn [consecutiveNegative negative lastNudgeAt lastEscalationAt]. split_and!.
    + rewrite Hc. destruct (isNegative a); done.
    + apply (last_kept _ (Some p) lastNudgeAt); [by intros ? [= <-]|done].
    + apply (last_kept _ (Some p) lastEscalationAt); [by intros ? [= <-]|done].
  - destruct (si_none _ Hinv _ Hp) as (Hv & Hn & He). unfold assessed. rewrite Hp.
    cbn [consecutiveNegative negative lastNudgeAt lastEscalationAt]. rewrite Hv, Hn, He. split_and!.
    + by destruct (isNegative a).
    + intros t Ht. by apply elem_of_nil in Ht.
    + intros t Ht. by apply elem_of_nil in Ht.
Qed.

(** The target's record after the engine, against the logs the engine added to. *)
Lemma engine_ok e s target r r' bn be vs :
  0 < e_now e → e_now e ≤ now (e_nudge e) 0 → e_now e ≤ now (e_escalate e) 0 →
  engine_step e cfg r r' bn be → consecutiveNegative r = run vs →
  last_ok (times target (s_nudges s)) (lastNudgeAt r) → last_ok (times target (s_escalations s)) (lastEscalationAt r) →
  consecutiveNegative r' = run vs ∧
  last_ok (times target (logged bn target (e_now e) (run vs) (s_nudges s))) (lastNudgeAt r') ∧
  last_ok (times target (logged be target (e_now e) (run vs) (s_escalations s))) (lastEscalationAt r').
Proof using cooldown_pos.
  intros H0 Hn He Hstep Hrun Hln Hle.
  pose proof (λ b H, last_logged b target (e_now e) (run vs) target (s_nudges s) (lastNudgeAt r) (now (e_nudge e) 0) Hln Hn ltac:(lia) H) as Ln.
  pose proof (λ b H, last_logged b target (e_now e) (run vs) target (s_escalations s) (lastEscalationAt r) (now (e_escalate e) 0) Hle He ltac:(lia) H) as Le.
  destruct Hstep as [|(_ & _ & Hb)|(_ & _ & Hb)|(_ & _ & Hb) (_ & _ & Hb')]; destruct r; cbn in *;
    (split; [exact Hrun|split]); first [exact Hln|exact Hle|exact (Ln true (λ _, Hb))|exact (Le true (λ _, Hb))|exact (Le true (λ _, Hb'))].
Qed.

Lemma engine_acts e r r' bn be : engine_step e cfg r r' bn be →
  (bn = true → acts_on e cfg r (warnAfter cfg) (lastNudgeAt r)) ∧ (be = true → acts_on e cfg r (escalateAfter cfg) (lastEscalationAt r)).
Proof. by intros []. Qed.

Lemma patch_inv t ea e target body s :
  0 < e_now e → e_now e ≤ now (e_nudge e) 0 → e_now e ≤ now (e_escalate e) 0 →
  sup_inv s → sup_inv (afterPatch t ea e target body s).
Proof using cooldown_pos.
  intros H0 Hn He Hinv. unfold afterPatch, patchSupervisorState, updateAssessment.
  set (st1 := renewLease t target ("supervisor-" +:+ target) None (s_mem s)).
  destruct (checkAssessment body) as [a|c]; [|by apply inv_targets; [done|done|apply si_file]].
  unfold commitMutation. destruct (save ea); cbn [so_res so_mem]; [|by apply inv_targets; [done|done|apply si_file]..].
  set (r := assessed ea target ("supervisor-" +:+ target) a st1).
  destruct (assessed_ok ea target ("supervisor-" +:+ target) a s Hinv) as (Hrun & Hln & Hle).
  match goal with |- context [evaluateAction e cfg target (Some r) ?st] => set (st2 := st) end.
  assert (Hst2 : ∀ k, om_get k (targets st2) = if String.eqb target k then Some r else om_get k (targets (s_mem s))).
  { intros k. apply om_get_obj_set. }
  destruct (evaluateAction e cfg target (Some r) st2) as [[v st3] fx] eqn:Hev.
  apply (evaluate_step _ _ _ r) in Hev as (r' & Hstep & Hget); [|by rewrite Hst2, String.eqb_refl].
  set (vs := negative r :: default [] (om_get target (s_verdicts s))).
  destruct (engine_ok e s target r r' _ _ vs H0 Hn He Hstep Hrun Hln Hle) as (Hrun' & Hln' & Hle').
  apply engine_acts in Hstep as [Han Hae].
  assert (Hother : ∀ b k l, target ≠ k → times k (logged b target (e_now e) (run vs) l) = times k l).
  { intros b k l Hne. rewrite times_logged. destruct (String.eqb_spec target k); [done|by rewrite andb_false_r]. }
  assert (Hrr : consecutiveNegative r = run vs) by exact Hrun.
  constructor; cbn [s_mem s_file s_nudges s_escalations s_verdicts default from_option id].
  - done.
  - intros k x. rewrite Hget, Hst2. unfold record_ok. cbn [s_nudges s_escalations s_verdicts]. destruct (String.eqb_spec target k) as [<-|Hne].
    + intros [= <-]. rewrite om_get_set, String.eqb_refl. by split_and!.
    + intros Hx. rewrite om_get_set, !Hother by done. destruct (String.eqb_spec target k); [done|].
      destruct (si_rec _ Hinv _ _ Hx) as (? & ? & ?). by split_and!.
  - intros k. rewrite Hget, Hst2. destruct (String.eqb_spec target k) as [<-|Hne]; [done|]. intros Hx.
    rewrite om_get_set, !Hother by done. destruct (String.eqb_spec target k); [done|]. by apply si_none.
  - intros k. destruct (si_spaced _ Hinv k) as [Hsn Hse]. split.
    + apply (spaced_logged _ _ _ _ _ _ (lastNudgeAt r) Hsn); [intros <-; exact Hln|]. intros Hb. destruct (Han Hb) as (_ & _ & Hx). exact Hx.
    + apply (spaced_logged _ _ _ _ _ _ (lastEscalationAt r) Hse); [intros <-; exact Hle|]. intros Hb. destruct (Hae Hb) as (_ & _ & Hx). exact Hx.
  - intros k t' n Hin. unfold logged in Hin. destruct (sent "supervisor_nudge" fx); [|by eapply si_warn].
    apply elem_of_cons in Hin as [Hin|Hin]; [|by eapply si_warn]. apply (f_equal snd) in Hin. cbn [snd] in Hin. subst n.
    destruct (Han eq_refl) as (_ & Hw & _). by rewrite <-Hrr.
  - intros k t' n Hin. unfold logged in Hin. destruct (sent "escalation" fx); [|by eapply si_esc].
    apply elem_of_cons in Hin as [Hin|Hin]; [|by eapply si_esc]. apply (f_equal snd) in Hin. cbn [snd] in Hin. subst n.
    destruct (Hae eq_refl) as (_ & Hw & _). by rewrite <-Hrr.
Qed.

Lemma remove_inv e target s : sup_inv s → sup_inv (afterRemove e target s).
Proof.
  intros Hinv. pose proof Hinv as [H1 H2 H3 H4 H5 H6]. unfold afterRemove, removeTarget.
  destruct (negb (om_has target (targets (s_mem s)))); [by apply inv_targets|].
  unfold commitMutation. destruct (save e); cbn [so_res so_mem so_disk]; [|by apply inv_targets..].
  constructor; cbn [s_mem s_file s_nudges s_escalations s_verdicts default from_option id].
  - done.
  - intros k r Hk. change (om_get k (om_del target (targets (s_mem s))) = Some r) in Hk. rewrite om_get_del in Hk.
    unfold record_ok. cbn [s_nudges s_escalations s_verdicts]. rewrite !times_forget, om_get_del.
    destruct (String.eqb target k); [done|]. by apply H2.
  - intros k Hk. change (om_get k (om_del target (targets (s_mem s))) = None) in Hk. rewrite om_get_del in Hk.
    rewrite !times_forget, om_get_del. destruct (String.eqb target k); [done|]. by apply H3.
  - intros k. rewrite !times_forget. destruct (String.eqb target k); [split; constructor|apply H4].
  - intros k t n Hin. apply elem_of_filter_bool in Hin as [_ Hin]. by eapply H5.
  - intros k t n Hin. apply elem_of_filter_bool in Hin as [_ Hin]. by eapply H6.
Qed.

Lemma reach_inv s : rtc sup_step sys0 s → sup_inv s.
Proof using cooldown_pos.
  intros H. refine (rtc_ind_r (R:=sup_step) sup_inv sys0 _ _ s H).
  - constructor; try done; [intros k; split; constructor|..]; (intros k t n Hin; by apply elem_of_nil in Hin).
  - intros x y _ Hstep Hx. destruct Hstep as [t ea e target body s' H0 Hn He|e target s'|t target sup ttl s'|target s'|e b s'|s'].
    + by apply patch_inv.
    + by apply remove_inv.
    + apply inv_targets; [done|done|by apply si_file].
    + apply inv_targets; [done|done|by apply si_file].
    + unfold setEnabled, commitMutation. destruct (save e); cbn [so_mem so_disk default from_option id];
        (apply inv_targets; [done|done|first [done|by apply si_file]]).
    + apply inv_targets; [done| |done]. cbn [load targets]. by apply si_file.
Qed.

(** No agent is nudged and no coordinator alerted about it twice within the cooldown, and never
    but on a run of negative assessments as long as the threshold: over any run of assessments,
    removals, leases, switches, failed saves and restarts, any two nudges to one agent, and any two
    escalations about it, since it was last added are further apart than the cooldown, each was sent
    on a run that reached its threshold, and the stored count of every target is the length of its
    current run of negative assessments. *)
Theorem supervision_is_spaced s :
  rtc sup_step sys0 s →
  (∀ k, spaced (times k (s_nudges s)) ∧ spaced (times k (s_escalations s))) ∧
  (∀ k t n, (k, t, n) ∈ s_nudges s → reaches n (warnAfter cfg) = true) ∧
  (∀ k t n, (k, t, n) ∈ s_escalations s → reaches n (escalateAfter cfg) = true) ∧
  (∀ k r, om_get k (targets (s_mem s)) = Some r → consecutiveNegative r = run (default [] (om_get k (s_verdicts s)))).
Proof using cooldown_pos.
  intros Hs%reach_inv. split_and!; [apply si_spaced, Hs|apply si_warn, Hs|apply si_esc, Hs|].
  intros k r Hk. by apply (si_rec _ Hs).
Qed.

End supervision.

(** ** A concrete run *)

Definition cfg_w : Config := configFrom None None (Some "1000").
Definition store_at (t : Z) : SnapshotStore.Env := SnapshotStore.MkEnv (λ _, t) (λ _, "2026") (λ _, "1") "r" SaveDone.
Definition engine_at (t : Z) : Env := ActionEngine.MkEnv t (store_at t) (store_at t) true true (λ _, "1.00") (λ _, "2").
Definition stuck : jval := JObj [("state", JStr "stuck"); ("confidence", JNum (Fin 1)); ("reason", JStr "no output")].
Definition patch_w (t : Z) (s : sys) : sys := afterPatch cfg_w t (store_at t) (engine_at t) "ada" stuck s.
Definition run_w : sys := patch_w 1700 (patch_w 1500 (patch_w 300 (patch_w 200 sys0))).

Lemma supervision_is_spaced_witness :
  s_nudges run_w = [("ada", 1500, 3)] ∧ s_escalations run_w = [("ada", 1500, 3)] ∧
  (∀ k t n, (k, t, n) ∈ s_nudges run_w → reaches n (warnAfter cfg_w) = true).
Proof.
  split; [by vm_compute|]. split; [by vm_compute|].
  refine (proj1 (proj2 (supervision_is_spaced cfg_w _ run_w _))).
  - intros c Hc. vm_compute in Hc. injection Hc as <-. lia.
  - assert (Hp : ∀ t s, 0 < t → sup_step cfg_w s (patch_w t s)) by (intros t s Ht; apply sp_patch; cbn; lia).
    unfold run_w. eapply rtc_l; [by apply (Hp 200)|]. eapply rtc_l; [by apply (Hp 300)|].
    eapply rtc_l; [by apply (Hp 1500)|]. apply rtc_once. by apply Hp.
Defined.
