(* ===== verification/RateLimit.v ===== *)
(** * The shared Matrix rate-limit gate

    [src/matrix-rate-limit-gate.mjs]: one cooldown clock for every source of Matrix requests, extended
    by each 429 any of them sees. Times are rationals, a [retry_after_ms] need not be whole; a response
    is what the gate looks at of it, its two body readers being asynchronous only in the order of the
    observations, which is the order of the list of a run.

    The theorem: the gate is open exactly when the wait asked for by every 429 seen so far is over. *)

From Stdlib Require Import ZArith QArith Qminmax Lqa Lia String.
From stdpp Require Import base list strings.
From S2P Require Import Prelude OMap Json.
#[local] Open Scope stdpp_scope.

Module RateLimit.

Definition DEFAULT_BACKOFF_MS : Q := 60000.
Definition DEFAULT_MAX_BACKOFF_MS : Q := 120000.

Record MatrixRateLimitGate : Type := MkGate {
  defaultBackoffMs : Q; maxBackoffMs : Q; cooldownUntil : Q; lastRateLimitAtMs : option Q;
}.
#[export] Instance eta_gate : Settable MatrixRateLimitGate :=
  λ g, MkGate (defaultBackoffMs g) (maxBackoffMs g) (cooldownUntil g) (lastRateLimitAtMs g).

Definition createMatrixRateLimitGate (dflt max : option Q) : MatrixRateLimitGate :=
  MkGate (default DEFAULT_BACKOFF_MS dflt) (default DEFAULT_MAX_BACKOFF_MS max) 0 None.

(** A [fetch] response: its status, an own [retryAfterMs], what [clone().json()] and [json()] yield
    when they are functions ([None] inside: they reject), and a plain body. *)
Record Response : Type := MkResponse {
  rs_status : jval; rs_retryAfterMs : jval; rs_clone : option (option jval); rs_json : option (option jval); rs_body : jval;
}.

Section model.
Context (num_str : num → string) (str_num : string → num).

Definition Number (v : jval) : num := to_number num_str str_num v.

Definition fromBody (body : option jval) : jval :=
  match body with Some b => JNum (Number (prop b "retry_after_ms")) | None => JUndef end.

Definition extractRetryAfterMs (r : Response) : jval :=
  match rs_retryAfterMs r with
  | JNum n => JNum n
  | _ =>
      match rs_clone r, rs_json r with
      | Some b, _ => fromBody b
      | None, Some b => fromBody b
      | None, None => match rs_body r with
                      | JObj _ | JArr _ => JNum (Number (prop (rs_body r) "retry_after_ms"))
                      | _ => JUndef
                      end
      end
  end.

Definition isRateLimitError (error : jval) : bool :=
  if negb (to_bool error) then false else
  if num_eqb (Number (prop error "statusCode")) (Fin 429) then true else
  strict_eq (js_or (prop error "errcode") (prop (prop error "body") "errcode")) (JStr "M_LIMIT_EXCEEDED").

(** The wait a 429 asks for. *)
Definition waitMs (raw : jval) (g : MatrixRateLimitGate) : Q :=
  match Number raw with
  | Fin q => if Qle_bool q 0 then defaultBackoffMs g else if Qle_bool q (maxBackoffMs g) then q else maxBackoffMs g
  | _ => defaultBackoffMs g
  end.

(** [t1] and [t2] are the two readings of the clock. *)
Definition _applyCooldown (t1 t2 : Q) (raw : jval) (g : MatrixRateLimitGate) : MatrixRateLimitGate :=
  let g := g <| lastRateLimitAtMs := Some t1 |> in
  let candidateUntil := (t2 + waitMs raw g)%Q in
  if Qle_bool candidateUntil (cooldownUntil g) then g else g <| cooldownUntil := candidateUntil |>.

Definition observeResponse (t1 t2 : Q) (r : option Response) (g : MatrixRateLimitGate) : bool * MatrixRateLimitGate :=
  match r with
  | None => (false, g)
  | Some r => if negb (strict_eq (rs_status r) (JNum (Fin 429))) then (false, g)
              else (true, _applyCooldown t1 t2 (extractRetryAfterMs r) g)
  end.

Definition observeError (t1 t2 : Q) (error : jval) (g : MatrixRateLimitGate) : bool * MatrixRateLimitGate :=
  if negb (isRateLimitError error) then (false, g)
  else (true, _applyCooldown t1 t2 (nullish_or (prop error "retryAfterMs") (prop (prop error "body") "retry_after_ms")) g).

Definition isCoolingDown (t : Q) (g : MatrixRateLimitGate) : bool := negb (Qle_bool (cooldownUntil g) t).
Definition cooldownRemainingMs (t : Q) (g : MatrixRateLimitGate) : Q :=
  if Qle_bool (cooldownUntil g) t then 0 else cooldownUntil g - t.
Definition beforeRequest (t : Q) (g : MatrixRateLimitGate) : bool := negb (isCoolingDown t g).
Definition lastObservedAtMs (g : MatrixRateLimitGate) : option Q := lastRateLimitAtMs g.
Definition reset (g : MatrixRateLimitGate) : MatrixRateLimitGate := g <| cooldownUntil := 0%Q |>.

(** ** Runs *)

Inductive Sighting : Type :=
| SawResponse (t1 t2 : Q) (r : option Response)
| SawError (t1 t2 : Q) (error : jval).

Definition observe (g : MatrixRateLimitGate) (s : Sighting) : MatrixRateLimitGate :=
  match s with
  | SawResponse t1 t2 r => (observeResponse t1 t2 r g).2
  | SawError t1 t2 e => (observeError t1 t2 e g).2
  end.

(** When a sighting's wait ends; [None] when it was no rate limit. *)
Definition endsAt (g : MatrixRateLimitGate) (s : Sighting) : option Q :=
  match s with
  | SawResponse _ t2 (Some r) =>
      if strict_eq (rs_status r) (JNum (Fin 429)) then Some (t2 + waitMs (extractRetryAfterMs r) g)%Q else None
  | SawResponse _ _ None => None
  | SawError _ t2 e =>
      if isRateLimitError e
      then Some (t2 + waitMs (nullish_or (prop e "retryAfterMs") (prop (prop e "body") "retry_after_ms")) g)%Q else None
  end.

Lemma waitMs_limits raw g g' : defaultBackoffMs g = defaultBackoffMs g' → maxBackoffMs g = maxBackoffMs g' → waitMs raw g = waitMs raw g'.
Proof. unfold waitMs. by intros -> ->. Qed.

Lemma apply_spec t1 t2 raw g (x : Q) :
  let g' := _applyCooldown t1 t2 raw g in
  defaultBackoffMs g' = defaultBackoffMs g ∧ maxBackoffMs g' = maxBackoffMs g ∧ lastRateLimitAtMs g' = Some t1 ∧
  ((cooldownUntil g' <= x)%Q ↔ (cooldownUntil g <= x)%Q ∧ (t2 + waitMs raw g <= x)%Q).
Proof.
  unfold _applyCooldown. change (waitMs raw (g <| lastRateLimitAtMs := Some t1 |>)) with (waitMs raw g).
  change (cooldownUntil (g <| lastRateLimitAtMs := Some t1 |>)) with (cooldownUntil g).
  destruct (Qle_bool (t2 + waitMs raw g) (cooldownUntil g)) eqn:E; cbn [defaultBackoffMs maxBackoffMs lastRateLimitAtMs cooldownUntil].
  - apply Qle_bool_iff in E. split_and!; try done. change (cooldownUntil (g <| lastRateLimitAtMs := Some t1 |>)) with (cooldownUntil g).
    split; [intros H; split; [done|lra]|by intros [? _]].
  - split_and!; try done.
    change (cooldownUntil (g <| lastRateLimitAtMs := Some t1 |> <| cooldownUntil := (t2 + waitMs raw g)%Q |>)) with (t2 + waitMs raw g)%Q.
    assert (Hlt : (cooldownUntil g < t2 + waitMs raw g)%Q).
    { apply Qnot_le_lt. intros H. apply Qle_bool_iff in H. congruence. }
    split; [intros H; split; [lra|done]|by intros [_ ?]].
Qed.

Lemma observe_spec g s x :
  defaultBackoffMs (observe g s) = defaultBackoffMs g ∧ maxBackoffMs (observe g s) = maxBackoffMs g ∧
  ((cooldownUntil (observe g s) <= x)%Q ↔ (cooldownUntil g <= x)%Q ∧ (∀ u, endsAt g s = Some u → (u <= x)%Q)).
Proof.
  destruct s as [t1 t2 [r|]|t1 t2 e]; cbn [observe endsAt].
  - unfold observeResponse. destruct (strict_eq _ _); cbn [negb snd].
    + destruct (apply_spec t1 t2 (extractRetryAfterMs r) g x) as (H1 & H2 & _ & H3). split_and!; [done|done|].
      rewrite H3. split; intros [Ha Hb]; (split; [done|]); [by intros u [= <-]|by apply Hb].
    + split_and!; try done. split; [by split|by intros [? _]].
  - unfold observeResponse. cbn [snd]. split_and!; try done. split; [by split|by intros [? _]].
  - unfold observeError. destruct (isRateLimitError e); cbn [negb snd].
    + destruct (apply_spec t1 t2 (nullish_or (prop e "retryAfterMs") (prop (prop e "body") "retry_after_ms")) g x) as (H1 & H2 & _ & H3).
      split_and!; [done|done|]. rewrite H3. split; intros [Ha Hb]; (split; [done|]); [by intros u [= <-]|by apply Hb].
    + split_and!; try done. split; [by split|by intros [? _]].
Qed.

Lemma endsAt_limits g g' s : defaultBackoffMs g = defaultBackoffMs g' → maxBackoffMs g = maxBackoffMs g' → endsAt g s = endsAt g' s.
Proof. intros H1 H2. destruct s as [t1 t2 [r|]|t1 t2 e]; cbn [endsAt]; rewrite ?(waitMs_limits _ g g') by done; done. Qed.

Lemma waitMs_bounds raw g : (0 <= defaultBackoffMs g)%Q → (0 <= maxBackoffMs g)%Q →
  (0 <= waitMs raw g)%Q ∧ (waitMs raw g <= Qmax (defaultBackoffMs g) (maxBackoffMs g))%Q.
Proof.
  intros Hd Hm. unfold waitMs. pose proof (Q.le_max_l (defaultBackoffMs g) (maxBackoffMs g)).
  pose proof (Q.le_max_r (defaultBackoffMs g) (maxBackoffMs g)).
  destruct (Number raw) as [| |q]; try (by split). destruct (Qle_bool q 0) eqn:E0; [by split|].
  assert (0 < q)%Q by (apply Qnot_le_lt; intros ?%Qle_bool_iff; congruence).
  destruct (Qle_bool q (maxBackoffMs g)) eqn:E1; [|by split]. apply Qle_bool_iff in E1. split; lra.
Qed.

(** One clock for everyone: after any sequence of responses and errors from any source, a
    request may go out at time [t] exactly when [t] has passed the initial cooldown and the end of the
    wait that every rate limit among them asked for, in whatever order they came; each such wait is
    at most the larger of the default and the maximal back-off, so the gate always opens again. *)
Theorem gate_opens_after_every_wait g ss t :
  (beforeRequest t (foldl observe g ss) = true ↔
     (cooldownUntil g <= t)%Q ∧ ∀ s u, s ∈ ss → endsAt g s = Some u → (u <= t)%Q) ∧
  ((0 <= defaultBackoffMs g)%Q → (0 <= maxBackoffMs g)%Q → ∀ s u, endsAt g s = Some u →
     let seen := match s with SawResponse _ t2 _ | SawError _ t2 _ => t2 end in
     (seen <= u)%Q ∧ (u <= seen + Qmax (defaultBackoffMs g) (maxBackoffMs g))%Q).
Proof.
  split.
  - unfold beforeRequest, isCoolingDown. rewrite negb_involutive, Qle_bool_iff.
    assert (H : ∀ h, defaultBackoffMs h = defaultBackoffMs g → maxBackoffMs h = maxBackoffMs g →
      (cooldownUntil (foldl observe h ss) <= t)%Q ↔
        (cooldownUntil h <= t)%Q ∧ ∀ s u, s ∈ ss → endsAt g s = Some u → (u <= t)%Q); [|by apply H].
    induction ss as [|s ss IH]; intros h H1 H2; cbn [foldl].
    + split; [intros Hc; split; [done|]; intros s u Hs; by apply elem_of_nil in Hs|by intros [? _]].
    + destruct (observe_spec h s t) as (O1 & O2 & O3). rewrite IH by congruence. rewrite O3, (endsAt_limits h g) by done.
      split.
      * intros [[Hc Hu] Hall]. split; [done|]. intros s' u Hs'. apply elem_of_cons in Hs' as [->|Hs']; [apply Hu|by apply Hall].
      * intros [Hc Hall]. split; [split; [done|]|]; [intros u; apply Hall; by left|intros s' u Hs'; apply Hall; by right].
  - intros Hd Hm s u Hu. assert (Hw : ∃ raw t2, u = (t2 + waitMs raw g)%Q ∧ t2 = match s with SawResponse _ t2 _ | SawError _ t2 _ => t2 end).
    { destruct s as [t1 t2 [r|]|t1 t2 e]; cbn [endsAt] in Hu; try done.
      - destruct (strict_eq _ _); [|done]. injection Hu as <-. by do 2 eexists.
      - destruct (isRateLimitError e); [|done]. injection Hu as <-. by do 2 eexists. }
    destruct Hw as (raw & t2 & -> & ->). destruct (waitMs_bounds raw g Hd Hm) as [Hw1 Hw2]. cbv zeta.
    destruct s; split; lra.
Qed.

End model.

Definition shown : Response := MkResponse (JNum (Fin 429)) JUndef (Some (Some (JObj [("retry_after_ms", JNum (Fin 5000))]))) None JUndef.

Lemma gate_opens_after_every_wait_witness :
  let g := createMatrixRateLimitGate None None in
  let no_str : num → string := λ _, EmptyString in
  let no_num : string → num := λ _, NaN in
  let ss := [SawResponse 100 100 (Some shown); SawError 200 200 (JObj [("errcode", JStr "M_LIMIT_EXCEEDED")])] in
  beforeRequest 6000 (foldl (observe no_str no_num) g ss) = false ∧
  beforeRequest 60200 (foldl (observe no_str no_num) g ss) = true ∧
  ((0 <= defaultBackoffMs g)%Q → ∀ u, endsAt no_str no_num g (SawResponse 100 100 (Some shown)) = Some u → (100 <= u)%Q).
Proof.
  split; [by vm_compute|]. split; [by vm_compute|]. intros Hd u Hu.
  refine (proj1 (proj2 (gate_opens_after_every_wait (λ _, EmptyString) (λ _, NaN) (createMatrixRateLimitGate None None) [] 0) Hd _ _ u Hu)).
  by vm_compute.
Defined.

End RateLimit.
