(* ===== verification/PaneWatch.v ===== *)
(** * Watching panes

    [lib/pane-activity.js] and the observations of [lib/delivery-queue.js]: what the text of a
    terminal pane says, when it last changed, and whether the pane a message is addressed to is idle.
    A sweep lists the panes and captures each of them; its captures are handled in the order in which
    they complete, and the flag that keeps two sweeps apart makes a sweep one operation here. The MD5
    digest is an argument.

    The theorem: a pane is called idle only after a run of captures, all with the same text and the
    last one not busy, that began at least the idle threshold ago. *)

From Stdlib Require Import ZArith Lia String Ascii.
From stdpp Require Import base list strings relations.
From S2P Require Import Prelude OMap.
#[local] Open Scope stdpp_scope.

(** ** What a pane shows *)

Module PaneActivity.

Definition ESC : ascii := ascii_of_nat 27.
Definition newline : ascii := ascii_of_nat 10.
Definition in_range (a b : nat) (c : ascii) : bool := (a <=? nat_of_ascii c)%nat && (nat_of_ascii c <=? b)%nat.
Definition is_digit (c : ascii) : bool := in_range 48 57 c.

Fixpoint count_while (p : ascii → bool) (s : string) : nat :=
  match s with
  | String c s' => if p c then S (count_while p s') else O
  | EmptyString => O
  end.

(** How many characters [ANSI_RE] matches at the head of a text. *)
Definition ansi_len (s : string) : option nat :=
  match s with
  | String e (String b s') =>
      if negb (Ascii.eqb e ESC && Ascii.eqb b "[") then None else
      let n := count_while (λ c, is_digit c || Ascii.eqb c ";" || Ascii.eqb c "?") s' in
      let m := count_while (in_range 32 47) (drop_str n s') in
      match drop_str (n + m) s' with
      | String c _ => if in_range 64 126 c then Some (S (S (S (n + m)))) else None
      | EmptyString => None
      end
  | _ => None
  end.

(** [s.replace(ANSI_RE, '')], the first [skip] characters being part of a match. *)
Fixpoint strip_ansi (skip : nat) (s : string) : string :=
  match s with
  | EmptyString => EmptyString
  | String c s' =>
      match skip with
      | S k => strip_ansi k s'
      | O => match ansi_len s with
             | Some n => strip_ansi (Nat.pred n) s'
             | None => String c (strip_ansi 0 s')
             end
      end
  end.

(** The lines that [recentPaneText] joins. A carriage return before the line feed goes with the rest
    of the trailing white space. *)
Definition recentLines (text : string) (maxLines : nat) : list string :=
  let lines := List.filter (λ l, truthy (trim l)) (List.map trim_end (split_on newline (strip_ansi 0 text))) in
  skipn (length lines - Nat.max 1 maxLines) lines.

Definition word_char (c : ascii) : bool :=
  is_digit c || in_range 65 90 c || in_range 97 122 c || Ascii.eqb c "_".
Definition starts_word (s : string) : bool := match s with String c _ => word_char c | EmptyString => false end.

(** What follows each occurrence of a lower-case word, between two word boundaries and in any case;
    [prev] tells whether the character before the text is part of a word. *)
Fixpoint after_word (w : string) (prev : bool) (s : string) : list string :=
  match s with
  | EmptyString => []
  | String c s' =>
      let rest := drop_str (String.length w) s in
      (if negb prev && String.prefix w (lower s) && negb (starts_word rest) then [rest] else [])
      ++ after_word w (word_char c) s'
  end.

Definition BUSY_WORDS : list string := ["working"; "running"; "thinking"; "processing"].
Definition INTERRUPT : string := "esc to interrupt".

(** [/\bfirst\b[^\n]*\bsecond\b/i] on one line *)
Definition line_has (first second : string) (line : string) : bool :=
  existsb (λ rest, negb (Nat.eqb (length (after_word second true rest)) 0)) (after_word first false line).

(** The [busy] of [detectPaneBusyState]. Its first expression is a case of the second and only changes
    the reason. *)
Definition detectPaneBusyState (text : string) : bool :=
  existsb (λ line, existsb (λ w, line_has w INTERRUPT line || line_has INTERRUPT w line) BUSY_WORDS) (recentLines text 14).

Example busy_in_any_case :
  map detectPaneBusyState ["x" +:+ String ESC "[1mworking" +:+ String ESC "[0m (3s, ESC to interrupt)"; "networking, esc to interrupt";
    "esc to interrupt | thinking"; "Running tests"] = [false; false; true; false] ∧
  detectPaneBusyState (String ESC "[1mWorking" +:+ String ESC "[0m (3s, ESC to interrupt)") = true.
Proof. split; vm_compute; reflexivity. Qed.

End PaneActivity.

(** ** Observations *)

Module PaneWatch.
Import PaneActivity.

Inductive snap : Type :=
| Observed (hash : string) (changedAt observedAt : Z) (busy : bool)
| CaptureFailed (observedAt : Z) (reason : string)
| PaneMissing (observedAt : Z) (reason : string).

Record PaneList : Type := MkPaneList { pl_ok : bool; pl_at : Z; livePanes : list string; pl_reason : option string }.

Record State : Type := MkState {
  paneSnapshots : omap snap; lastPaneListObservation : PaneList;
  offlineAgentSessions : list string; offlineAgentCacheTs : Z;
}.
#[export] Instance eta_state : Settable State := λ s,
  MkState (paneSnapshots s) (lastPaneListObservation s) (offlineAgentSessions s) (offlineAgentCacheTs s).

Definition state0 : State := MkState [] (MkPaneList false 0 [] (Some "not-swept")) [] 0.

Definition OFFLINE_CACHE_TTL_MS : Z := 30000.

Section model.
Context (md5 : string → string) (IDLE_THRESHOLD : Z).

(** [capturePaneActivityAsync]: the text of the pane, or the reason tmux gave. *)
Definition updatePaneSnapshot (target : string) (now : Z) (stdout : result string) (st : State) : State :=
  st <| paneSnapshots := om_set target
    match stdout with
    | Throw reason => CaptureFailed now (if truthy reason then reason else "capture-failed")
    | Ok text =>
        let hash := md5 text in
        let changedAt := match om_get target (paneSnapshots st) with
                         | Some (Observed h c _ _) => if String.eqb h hash then c else now
                         | _ => now
                         end in
        Observed hash changedAt now (detectPaneBusyState text)
    end (paneSnapshots st) |>.

Definition under (target key : string) : bool := String.prefix (target +:+ ":") key.

Definition findPaneObservation (target : string) (st : State) : option snap * string :=
  match om_get target (paneSnapshots st) with
  | Some s => (Some s, target)
  | None =>
      match List.filter (λ p, under target p.1) (paneSnapshots st) with
      | (key, s) :: _ => (Some s, key)
      | [] => (None, target)
      end
  end.

Definition livePanesContainTarget (target : string) (st : State) : bool :=
  let l := livePanes (lastPaneListObservation st) in
  inb target l || existsb (under target) l.

Inductive obs_state : Type := active | idle | capture_failed | pane_missing | untracked | list_failed.
#[export] Instance obs_state_eq_dec : EqDecision obs_state.
Proof. solve_decision. Defined.

Record Observation : Type := MkObservation {
  target_ : string; observedTarget : string; state : obs_state; idleMs : option Z; observedAt_ : option Z;
  busy_ : option bool; reason : option string;
}.

(** [a || null] on a time *)
Definition or_null (t : Z) : option Z := if t =? 0 then None else Some t.

Definition buildTargetObservation (target : string) (now : Z) (st : State) : Observation :=
  let '(observation, observed) := findPaneObservation target st in
  match observation with
  | Some (Observed _ changedAt observedAt busy) =>
      let ms := if busy then 0 else Z.max 0 (now - (if changedAt =? 0 then now else changedAt)) in
      let active_ := busy || (ms <? IDLE_THRESHOLD) in
      MkObservation target observed (if active_ then active else idle) (Some ms) (or_null observedAt) (Some busy) None
  | Some (CaptureFailed observedAt reason) =>
      MkObservation target observed capture_failed None (or_null observedAt) None
        (Some (if truthy reason then reason else "capture-failed"))
  | Some (PaneMissing observedAt reason) =>
      MkObservation target observed pane_missing None (or_null observedAt) None
        (Some (if truthy reason then reason else "pane-missing"))
  | None =>
      let l := lastPaneListObservation st in
      if pl_ok l then
        if livePanesContainTarget target st
        then MkObservation target target untracked None (or_null (pl_at l)) None (Some "not-captured")
        else MkObservation target target pane_missing None (or_null (pl_at l)) None (Some "list-panes-missing")
      else if 0 <? pl_at l
      then MkObservation target target list_failed None (Some (pl_at l)) None
             (Some (default "list-panes-failed" (truthy_opt (pl_reason l))))
      else MkObservation target target untracked None None None (Some "not-swept")
  end.

Definition getTargetObservation (target : string) (now : Z) (st : State) : Observation :=
  if negb (truthy target) then MkObservation target target untracked None None None (Some "invalid-target")
  else buildTargetObservation target now st.

Definition getPaneIdleMs (target : string) (now : Z) (st : State) : Z :=
  let o := getTargetObservation target now st in
  match state o with
  | active | idle => default 0 (idleMs o)
  | _ => -1
  end.

Definition markPaneMissing (target : string) (observedAt : Z) (st : State) : State :=
  st <| paneSnapshots := om_set target (PaneMissing observedAt "list-panes-missing") (paneSnapshots st) |>.

(** What a sweep meets: the clock and the sink when the cache of offline sessions is stale, then what
    [tmux list-panes] printed and when, then the captures in the order in which they complete. *)
Record Sweep : Type := MkSweep {
  sw_now : Z; sw_offline : option (list string); sw_refreshed : Z;
  sw_list : result string; sw_at : Z; sw_captures : list (string * (Z * result string));
}.

Definition refreshOfflineAgentCache (w : Sweep) (st : State) : State :=
  match sw_offline w with
  | Some l => st <| offlineAgentSessions := l |> <| offlineAgentCacheTs := sw_refreshed w |>
  | None => st
  end.

Definition unique (l : list string) : list string := foldl (λ acc s, if inb s acc then acc else acc ++ [s]) [] l.
Definition panesOf (stdout : string) : list string := unique (List.filter truthy (split_on newline (trim stdout))).
Definition sessionName (pane : string) : string := default EmptyString (head (split_on ":" pane)).
Definition activePanes (panes : list string) (st : State) : list string :=
  List.filter (λ p, negb (inb (sessionName p) (offlineAgentSessions st))) panes.

Definition sweepPaneSnapshots (w : Sweep) (st : State) : State :=
  let st := if OFFLINE_CACHE_TTL_MS <? sw_now w - offlineAgentCacheTs st then refreshOfflineAgentCache w st else st in
  match sw_list w with
  | Throw reason =>
      st <| lastPaneListObservation := MkPaneList false (sw_at w) (livePanes (lastPaneListObservation st)) (Some reason) |>
  | Ok stdout =>
      let live := panesOf stdout in
      let st := st <| lastPaneListObservation := MkPaneList true (sw_at w) live None |> in
      let captured := List.filter (λ c, inb c.1 (activePanes live st)) (sw_captures w) in
      let st := foldl (λ s c, updatePaneSnapshot c.1 c.2.1 c.2.2 s) st captured in
      foldl (λ s key, if inb key live then s else markPaneMissing key (sw_at w) s) st (om_keys (paneSnapshots st))
  end.

(** ** Runs of the watcher *)

(** What is seen of a pane: the digest of its text and whether it was busy, or nothing. *)
Inductive look : Type := Saw (hash : string) (busy : bool) (t : Z) | SawNothing.

Definition look_of (now : Z) (stdout : result string) : look :=
  match stdout with Ok text => Saw (md5 text) (detectPaneBusyState text) now | Throw _ => SawNothing end.

(** The watcher and what it saw of each pane, the latest first. *)
Record sys : Type := Sys { s_st : State; s_looks : list (string * look) }.

Definition looks (p : string) (s : sys) : list look := List.map snd (List.filter (λ x, String.eqb x.1 p) (s_looks s)).

(** A sweep as the sequence of the updates it makes. *)
Inductive watch_step : relation sys :=
| w_offline l t s : watch_step s (Sys ((s_st s) <| offlineAgentSessions := l |> <| offlineAgentCacheTs := t |>) (s_looks s))
| w_list l s : watch_step s (Sys ((s_st s) <| lastPaneListObservation := l |>) (s_looks s))
| w_capture p now out s : watch_step s (Sys (updatePaneSnapshot p now out (s_st s)) ((p, look_of now out) :: s_looks s))
| w_missing p now s : watch_step s (Sys (markPaneMissing p now (s_st s)) ((p, SawNothing) :: s_looks s)).

Definition sys0 : sys := Sys state0 [].

(** Every sweep is such a sequence. *)
Lemma sweep_steps w s : ∃ s', rtc watch_step s s' ∧ s_st s' = sweepPaneSnapshots w (s_st s).
Proof.
  unfold sweepPaneSnapshots.
  assert (H1 : ∃ s1, rtc watch_step s s1 ∧ s_st s1 =
    if OFFLINE_CACHE_TTL_MS <? sw_now w - offlineAgentCacheTs (s_st s) then refreshOfflineAgentCache w (s_st s) else s_st s).
  { destruct (OFFLINE_CACHE_TTL_MS <? _); [|by exists s]. unfold refreshOfflineAgentCache.
    destruct (sw_offline w) as [l|]; [|by exists s]. eexists. split; [apply rtc_once, w_offline|done]. }
  destruct H1 as (s1 & H1 & <-). destruct (sw_list w) as [out|reason].
  2:{ eexists. split; [eapply rtc_r; [exact H1|apply w_list]|done]. }
  set (live := panesOf out). set (lst := MkPaneList true (sw_at w) live None).
  set (captured := List.filter _ (sw_captures w)).
  assert (H2 : ∃ s2, rtc watch_step s s2 ∧ s_st s2 = (s_st s1) <| lastPaneListObservation := lst |>).
  { eexists. split; [eapply rtc_r; [exact H1|apply w_list]|done]. }
  destruct H2 as (s2 & H2 & <-). clearbody captured.
  assert (H3 : ∃ s3, rtc watch_step s s3 ∧ s_st s3 = foldl (λ s c, updatePaneSnapshot c.1 c.2.1 c.2.2 s) (s_st s2) captured).
  { clear H1. revert s2 H2. induction captured as [|[p [t o]] l IH]; intros s2 H2; [by exists s2|].
    cbn [foldl fst snd]. eapply (IH (Sys _ _)). eapply rtc_r; [exact H2|apply w_capture]. }
  destruct H3 as (s3 & H3 & <-). generalize (om_keys (paneSnapshots (s_st s3))). intros keys. clear H1 H2. revert s3 H3.
  induction keys as [|k l IH]; intros s3 H3; [by exists s3|]. cbn [foldl]. destruct (inb k live); [by apply IH|].
  eapply (IH (Sys _ _)). eapply rtc_r; [exact H3|apply w_missing].
Qed.

(** The latest looks at a pane: all at the same text, the first of them at [c]. *)
Inductive run_since (h : string) (c : Z) : list look → Prop :=
| run_first b older : (∀ b' t' l, older ≠ Saw h b' t' :: l) → run_since h c (Saw h b c :: older)
| run_more b t l : run_since h c l → run_since h c (Saw h b t :: l).

Definition tracks (o : option snap) (l : list look) : Prop :=
  match o with
  | None => l = []
  | Some (Observed h c t b) => ∃ l', l = Saw h b t :: l' ∧ run_since h c l
  | Some _ => ∃ l', l = SawNothing :: l'
  end.

Lemma looks_cons p q k s : List.map snd (List.filter (λ x, String.eqb x.1 p) ((q, k) :: s_looks s)) = if String.eqb q p then k :: looks p s else looks p s.
Proof. cbn [List.filter fst]. by destruct (String.eqb q p). Qed.

Lemma watch_inv s : rtc watch_step sys0 s → ∀ p, tracks (om_get p (paneSnapshots (s_st s))) (looks p s).
Proof.
  revert s. refine (rtc_ind_r (R:=watch_step) (λ s, ∀ p, tracks (om_get p (paneSnapshots (s_st s))) (looks p s)) sys0 _ _).
  - intros p. done.
  - intros s s' _ Hs IH p. specialize (IH p). destruct Hs as [l t s|l s|q now out s|q now s]; try done.
    + unfold looks. cbn [s_looks]. rewrite looks_cons. unfold updatePaneSnapshot. cbn [s_st over paneSnapshots]. rewrite om_get_set.
      destruct (String.eqb_spec q p) as [->|]; [|done]. destruct out as [text|r]; [|by eexists]. cbn [tracks look_of].
      eexists. split; [done|]. destruct (om_get p (paneSnapshots (s_st s))) as [[h c t b|t r|t r]|]; cbn [tracks] in IH.
      * destruct IH as (l' & Hl & Hrun). destruct (String.eqb_spec h (md5 text)) as [->|Hne]; [by apply run_more|].
        apply run_first. intros b' t' l. rewrite Hl. by intros [= ? _ _ _].
      * destruct IH as (l' & ->). by apply run_first.
      * destruct IH as (l' & ->). by apply run_first.
      * rewrite IH. by apply run_first.
    + unfold looks, markPaneMissing. cbn [s_looks]. rewrite looks_cons. cbn [s_st over paneSnapshots]. rewrite om_get_set.
      destruct (String.eqb_spec q p); [|done]. by eexists.
Qed.

Lemma run_split h c l : run_since h c l →
  ∃ recent b older, l = recent ++ Saw h b c :: older ∧ (∀ k, k ∈ recent → ∃ b' t', k = Saw h b' t') ∧ (∀ b' t' l, older ≠ Saw h b' t' :: l).
Proof.
  induction 1 as [b older Hm|b t l _ IH].
  - exists [], b, older. split_and!; [done| |done]. intros k Hk. by apply elem_of_nil in Hk.
  - destruct IH as (r & b' & o & -> & Hr & Ho). exists (Saw h b t :: r), b', o. split_and!; [done| |done].
    intros k Hk. apply elem_of_cons in Hk as [->|Hk]; [by eexists _, _|by apply Hr].
Qed.

Lemma find_get target st o p : findPaneObservation target st = (Some o, p) → NoDup (om_keys (paneSnapshots st)) →
  om_get p (paneSnapshots st) = Some o ∧ (p = target ∨ under target p = true).
Proof.
  unfold findPaneObservation. intros H Hnd. destruct (om_get target _) as [s|] eqn:E; [injection H as <- <-; auto|].
  destruct (List.filter _ _) as [|[k s] l] eqn:F; [done|]. injection H as <- <-.
  assert (Hin : (k, s) ∈ List.filter (λ p, under target p.1) (paneSnapshots st)) by (rewrite F; left).
  apply elem_of_filter_bool in Hin as [Hu Hin]. split; [by apply elem_of_om_get|by right].
Qed.

Lemma watch_nodup s : rtc watch_step sys0 s → NoDup (om_keys (paneSnapshots (s_st s))).
Proof.
  revert s. refine (rtc_ind_r (R:=watch_step) (λ s, NoDup (om_keys (paneSnapshots (s_st s)))) sys0 _ _); [constructor|].
  intros s s' _ [] IH; try done; unfold updatePaneSnapshot, markPaneMissing; cbn [s_st over paneSnapshots]; by apply om_nodup_set.
Qed.

(** Nothing is typed into a pane that is at work: whatever the sweeps saw and whenever captures
    failed, a target is reported idle only if the latest looks at its pane all showed the same text,
    none of them failed, the last one was not busy, and the first of that run of looks is at least the
    idle threshold old; and the time reported is the age of that run. *)
Theorem idle_pane_is_quiet s target now :
  0 < IDLE_THRESHOLD → rtc watch_step sys0 s →
  let o := getTargetObservation target now (s_st s) in
  state o = idle →
  ∃ h recent b c older,
    looks (observedTarget o) s = recent ++ Saw h b c :: older ∧
    (∀ k, k ∈ recent → ∃ b' t', k = Saw h b' t') ∧ (∀ b' t' l, older ≠ Saw h b' t' :: l) ∧
    (∃ t l, looks (observedTarget o) s = Saw h false t :: l) ∧
    IDLE_THRESHOLD ≤ now - c ∧ idleMs o = Some (now - c) ∧
    (observedTarget o = target ∨ under target (observedTarget o) = true).
Proof.
  intros Hpos Hs. pose proof (watch_inv s Hs) as Hinv. pose proof (watch_nodup s Hs) as Hnd. cbv zeta.
  unfold getTargetObservation. destruct (negb (truthy target)); [done|]. unfold buildTargetObservation.
  destruct (findPaneObservation target (s_st s)) as [[[h c t b|t r|t r]|] p] eqn:F; try done.
  2:{ destruct (pl_ok _); [destruct (livePanesContainTarget _ _)|destruct (0 <? _)]; done. }
  destruct (find_get _ _ _ _ F Hnd) as [Hg Hp]. specialize (Hinv p). rewrite Hg in Hinv.
  destruct Hinv as (l' & Hl & Hrun). cbn [state observedTarget idleMs]. destruct b; [done|]. cbn [orb].
  destruct (Z.ltb_spec (Z.max 0 (now - (if c =? 0 then now else c))) IDLE_THRESHOLD) as [|Hge]; [done|]. intros _.
  apply run_split in Hrun as (recent & b & older & Heq & Hr & Ho).
  destruct (Z.eqb_spec c 0) as [->|Hc]; [lia|].
  exists h, recent, b, c, older. split_and!; [exact Heq|exact Hr|exact Ho|by eexists _, _|lia|f_equal; lia|exact Hp].
Qed.

End model.

Lemma idle_pane_is_quiet_witness :
  let md5 := λ s : string, s in
  let see t text s := Sys (updatePaneSnapshot md5 "ada:0.0" t (Ok text) (s_st s)) (("ada:0.0", look_of md5 t (Ok text)) :: s_looks s) in
  let s := see 30000 "> " (see 12000 "> " (see 11000 "Working (esc to interrupt)" sys0)) in
  let o := getTargetObservation 20000 "ada" 32000 (s_st s) in
  state o = idle ∧ idleMs o = Some 20000 ∧
  (∃ t l, looks (observedTarget o) s = Saw "> " false t :: l).
Proof.
  intros md5 see s o.
  assert (Hs : rtc (watch_step md5) sys0 s).
  { assert (H : ∀ t text s, watch_step md5 s (see t text s)) by (intros; apply w_capture).
    eapply rtc_l; [apply (H 11000)|]. eapply rtc_l; [apply (H 12000)|]. apply rtc_once, (H 30000). }
  split; [by vm_compute|]. split; [by vm_compute|].
  assert (Hi : state o = idle) by (by vm_compute).
  destruct (idle_pane_is_quiet md5 20000 s "ada" 32000 ltac:(lia) Hs Hi) as (h & recent & b & c & older & _ & _ & _ & (t & l & Hl) & _).
  exists t, l. etrans; [exact Hl|]. vm_compute in Hl. by injection Hl as <- _ _.
Defined.

End PaneWatch.
