(* ===== verification/Reminders.v ===== *)
(** * The text of reminders

    The reminder half of [lib/delivery-queue.js] that works on text: the message a reminder carries,
    the payload in which due reminders are typed, several of them merged into one, and reading the
    messages back from a payload. *)

From Stdlib Require Import ZArith Lia String Ascii.
From stdpp Require Import base list strings pretty.
From S2P Require Import Prelude OMap PaneWatch.
#[local] Open Scope stdpp_scope.

Module Reminders.

Record Item : Type := MkItem { createdAt : Z; firedAt : Z; msg : string }.
#[global] Instance Item_eq_dec : EqDecision Item.
Proof. solve_decision. Defined.

Definition MARK : string := "[Self Time Reminder]".

Definition formatRelativeTime (ms : Z) : string :=
  let sec := ms / 1000 in
  if sec <? 60 then pretty sec +:+ "s ago" else
  let min := sec / 60 in
  if min <? 60 then pretty min +:+ "m" +:+ pretty (sec mod 60) +:+ "s ago" else
  let hr := min / 60 in
  pretty hr +:+ "h" +:+ pretty (min mod 60) +:+ "m ago".

(** What follows the first [Msg:] that begins a word; [prev] tells whether the character before the
    text is part of a word. *)
Fixpoint after_msg (prev : bool) (s : string) : option string :=
  match s with
  | EmptyString => None
  | String c s' =>
      if negb prev && String.prefix "Msg:" s then Some (drop_str 4 s) else after_msg (PaneActivity.word_char c) s'
  end.

Definition strip_mark (s : string) : string :=
  if String.prefix MARK s then trim_start (drop_str (String.length MARK) s) else s.

Definition extractReminderMessage (rawValue : string) : string :=
  let raw := trim (strip_mark rawValue) in
  if negb (truthy raw) then "(empty)" else
  match after_msg false raw with
  | Some rest => let m := trim rest in if truthy m then m else raw
  | None => raw
  end.

(** [Number(t) > 0 ? Number(t) : now] *)
Definition time_or (t now : Z) : Z := if 0 <? t then t else now.

Definition reminderItemFromInput (created : Z) (text : string) (firedAt : Z) : Item :=
  MkItem (time_or created firedAt) firedAt (extractReminderMessage text).

(** The items of a queue entry, given those it lists, its time and its payload. *)
Definition normalizeReminderItems (now : Z) (items : list Item) (queuedAt : Z) (payload : string) : list Item :=
  match items with
  | [] => let t := time_or queuedAt now in [MkItem t t (extractReminderMessage payload)]
  | _ => List.map (λ i, MkItem (time_or (createdAt i) now) (time_or (firedAt i) now) (extractReminderMessage (msg i))) items
  end.

(** [From ts:..., Now ts:..., Msg: ...] *)
Definition itemLine (i : Item) : string :=
  "From ts:" +:+ pretty (createdAt i) +:+ " (" +:+ formatRelativeTime (Z.max 0 (firedAt i - createdAt i)) +:+ "), Now ts:"
  +:+ pretty (firedAt i) +:+ ", Msg: " +:+ msg i.

Fixpoint numbered (n : Z) (l : list Item) : list string :=
  match l with
  | [] => []
  | i :: l' => (pretty n +:+ ". " +:+ itemLine i) :: numbered (n + 1) l'
  end.

(** [limit] is [REMINDER_MERGE_PREVIEW_LIMIT]. *)
Definition renderReminderPayload (limit : nat) (now : Z) (items : list Item) : string :=
  match items with
  | [] => MARK +:+ " " +:+ itemLine (MkItem now now "(empty)")
  | [i] => MARK +:+ " " +:+ itemLine i
  | _ =>
      let preview := skipn (length items - limit) items in
      let omitted := (length items - length preview)%nat in
      let lines := numbered 1 preview
        ++ (if (0 <? omitted)%nat then ["... " +:+ pretty (Z.of_nat omitted) +:+ " older reminder(s) omitted"] else []) in
      MARK +:+ " " +:+ pretty (Z.of_nat (length items)) +:+ " reminders due (latest " +:+ pretty (Z.of_nat (length preview)) +:+ " shown):"
      +:+ String PaneActivity.newline (join (String PaneActivity.newline EmptyString) lines)
  end.

Example merged_payload :
  renderReminderPayload 1 0 [MkItem 1000 2000 "a"; MkItem 1000 70000 "b"]
  = "[Self Time Reminder] 2 reminders due (latest 1 shown):" +:+ String PaneActivity.newline
      "1. From ts:1000 (1m9s ago), Now ts:70000, Msg: b" +:+ String PaneActivity.newline "... 1 older reminder(s) omitted".
Proof. vm_compute. reflexivity. Qed.

(** Reading a message again loses what stands before an inner [Msg:], so a reminder that was merged
    or reloaded carries less than the one that was created. *)
Lemma message_read_twice_is_cut :
  let raw := "standup Msg: ask Ada. Msg: and Bob" in
  extractReminderMessage raw = "ask Ada. Msg: and Bob" ∧
  extractReminderMessage (extractReminderMessage raw) = "and Bob".
Proof. split; vm_compute; reflexivity. Qed.

End Reminders.
