(* ===== verification/DeliveryQueue.v ===== *)
(** * The delivery queue ([lib/delivery-queue.js])

    Messages wait here until the pane they are addressed to is idle and are then typed into it, the
    text first and the Enter key after it. The queue, the receipts of idempotent calls and the id
    counter are one group of state, which every operation copies before it changes anything and
    restores when the queue file cannot be written.

    - Objects: an entry is an object that the queue and a delivery in progress share, and a rollback
      puts copies into the queue. An entry carries the number of the rollback that made it, so
      ([id], [object]) is the object's identity.
    - Time: handlers run to completion, so an operation is a step; the gaps at which others run are
      the two calls of tmux. What is unread is answered by the process itself and is an argument.
    - Iteration: the poll loop iterates over a live [Map]. [tick] holds the keys it has yet to
      visit: a key added meanwhile is visited too, one deleted is not, and [clear] followed by [set]
      makes it start again.
    - Failures: writing the queue file may fail before the file is replaced or after it. A crash
      between two writes of an operation leaves the file as that operation does when the second
      write fails before the replacement.

    [from], [to] and [payload] are texts; diagnostics (console, sinks that only observe, the context
    of an event) are left out. Every operation reads the clock once. *)

From Stdlib Require Import ZArith QArith Lia String Ascii.
From stdpp Require Import base list strings pretty.
From S2P Require Import Prelude OMap Json PaneWatch Reminders.
#[local] Open Scope stdpp_scope.

Module DeliveryQueue.

(** ** Data *)

Inductive dstate : Type := delivering | delivered | dropped | partial.
#[export] Instance dstate_eq_dec : EqDecision dstate.
Proof. solve_decision. Defined.

Record NotifyMeta : Type := MkNotifyMeta {
  kind : string; nm_priority : string; requiresInboxCheck : bool; sourceMsgId : option string; messageIds : list string;
  unreadCount : Z; hasHumanUnread : bool; hasRequestUnread : bool; needsReply : bool; hasMcp : bool;
}.
#[export] Instance NotifyMeta_eq_dec : EqDecision NotifyMeta.
Proof. solve_decision. Defined.

Record Entry : Type := MkEntry {
  id : Z; from : string; to : string; payload : string; queuedAt : Z; priority : option string;
  idempotencyKey : option string; notifyMeta : option NotifyMeta; redirectedFrom : option string;
  isReminder : bool; reminderItems : list Reminders.Item; reminderCount : nat;
  deliveryState : option dstate; deliveringAt : option Z; deliveredAt : option Z; droppedAt : option Z; partialAt : option Z;
  deliveryAttempt : Z; object : nat;
}.
#[export] Instance Entry_eq_dec : EqDecision Entry.
Proof. solve_decision. Defined.
#[export] Instance eta_entry : Settable Entry := λ e,
  MkEntry (id e) (from e) (to e) (payload e) (queuedAt e) (priority e) (idempotencyKey e) (notifyMeta e) (redirectedFrom e)
    (isReminder e) (reminderItems e) (reminderCount e) (deliveryState e) (deliveringAt e) (deliveredAt e) (droppedAt e)
    (partialAt e) (deliveryAttempt e) (object e).

Record Receipt : Type := MkReceipt { r_id : Z; r_queuedAt : Z; position : nat; redirected : option string }.

(** What [snapshotQueueState] copies. *)
Record Mem : Type := MkMem { idCounter : Z; queue : omap (list Entry); idempotency : omap Receipt }.
#[export] Instance eta_mem : Settable Mem := λ m, MkMem (idCounter m) (queue m) (idempotency m).

(** The queue file. *)
Record Image : Type := MkImage { im_counter : Z; im_items : list Entry; im_keys : omap Receipt }.

Record Reminder : Type := MkReminder { rem_id : Z; rem_target : string; rem_msg : string; rem_createdAt : Z; fireAt : Q }.
Record RImage : Type := MkRImage { ri_counter : Z; ri_items : list Reminder }.

(** A call of tmux in progress: its entry, the bucket it came from, who waits for it, and whether the
    text has been typed. *)
Record Sender : Type := MkSender { s_entry : Entry; s_target : string; s_manual : bool; s_typed : bool }.

Record Fields : Type := MkFields {
  f_messageId : option string; f_messageIds : list string; f_agent : option string; f_target : option string;
  f_queueEntryId : option Z; f_queuedAt : option Z; f_priority : string; f_notifyMeta : option NotifyMeta; f_attemptId : string;
}.
Record Event : Type := MkEvent { ev_type : string; ev_fields : Fields; ev_reason : option string }.

Record State : Type := MkState {
  mem : Mem; generation : nat; locks : list string; unlocking : list string; tick : option (list string); senders : list Sender;
  reminders : list Reminder; reminderIdCounter : Z; redirects : omap string;
  file : option Image; reminderFile : option RImage; events : list Event; typed : list Entry;
}.
#[export] Instance eta_state : Settable State := λ s,
  MkState (mem s) (generation s) (locks s) (unlocking s) (tick s) (senders s) (reminders s) (reminderIdCounter s) (redirects s)
    (file s) (reminderFile s) (events s) (typed s).

(** What [writeQueueFileAtomic] did: it returned true, it failed before the file was replaced, or it
    failed after that ([chmod] or the [fsync] of the directory). *)
Inductive save_result : Type := Saved | NotWritten | WrittenButFalse.

Section model.
Context (num_str : num → string) (str_num : string → num) (IDLE_THRESHOLD : Z) (REMINDER_MERGE_PREVIEW_LIMIT : nat).

(** ** Entries *)

Definition normalizeQueuePriority (value : jval) : string :=
  match value with
  | JStr s => let p := lower (trim s) in if inb p ["high"; "urgent"] then p else "normal"
  | _ => "normal"
  end.

Definition safeBool (v : jval) : bool := match v with JBool b => b | _ => false end.
Definition safeInt (v : jval) : Z := match parseInt (to_str num_str v) with Some n => Z.max 0 n | None => 0 end.
Definition safeStr (v : jval) (fallback : option string) : option string :=
  match v with JStr s => if truthy (trim s) then Some (trim s) else fallback | _ => fallback end.
Definition trimmedTexts (v : jval) : list string :=
  match v with
  | JArr l => List.flat_map (λ x, match x with JStr s => if truthy (trim s) then [trim s] else [] | _ => [] end) l
  | _ => []
  end.

Definition sanitizeNotifyMeta (raw : jval) : option NotifyMeta :=
  match raw with
  | JObj _ | JArr _ =>
      Some (MkNotifyMeta (default "unknown" (safeStr (prop raw "kind") (Some "unknown"))) (normalizeQueuePriority (prop raw "priority"))
              (safeBool (prop raw "requiresInboxCheck")) (safeStr (prop raw "sourceMsgId") None) (trimmedTexts (prop raw "messageIds"))
              (safeInt (prop raw "unreadCount")) (safeBool (prop raw "hasHumanUnread")) (safeBool (prop raw "hasRequestUnread"))
              (safeBool (prop raw "needsReply")) (safeBool (prop raw "hasMcp")))
  | _ => None
  end.

Definition isBackendNotificationEntry (e : Entry) : bool :=
  String.eqb (from e) "hagency-backend" && String.prefix "[NOTIFICATION]" (payload e).

Definition targetSessionName (target : string) : option string := truthy_opt (head (split_on ":" target)).

(** [normalizeQueuePriority(entry.priority || entry.notifyMeta?.priority)] *)
Definition entryPriority (e : Entry) : string :=
  match truthy_opt (priority e) with
  | Some p => normalizeQueuePriority (JStr p)
  | None => match notifyMeta e with Some m => normalizeQueuePriority (JStr (nm_priority m)) | None => "normal" end
  end.

Definition deliveryMessageId (e : Entry) : option string :=
  match notifyMeta e with Some m => truthy_opt (trim <$> sourceMsgId m) | None => None end.

Definition pos_or_null (t : Z) : option Z := if t =? 0 then None else Some t.

(** [queueEntryDeliveryEventFields], of [entry || {}]. *)
Definition queueEntryDeliveryEventFields (now : Z) (entry : option Entry) : Fields :=
  match entry with
  | None => MkFields None [] None None None None "normal" None ("unknown-message:unknown-target:" +:+ pretty now)
  | Some e =>
      let agent := targetSessionName (to e) in
      let key := match pos_or_null (id e) with Some n => n | None => default now (pos_or_null (queuedAt e)) end in
      MkFields (deliveryMessageId e) (match notifyMeta e with Some m => messageIds m | None => [] end) agent (truthy_opt (Some (to e)))
        (pos_or_null (id e)) (pos_or_null (queuedAt e)) (entryPriority e) (notifyMeta e)
        (default "unknown-message" (deliveryMessageId e) +:+ ":" +:+ default (if truthy (to e) then to e else "unknown-target") agent
         +:+ ":" +:+ pretty key)
  end.

Definition resetQueueEntryDeliveryState (e : Entry) : Entry :=
  e <| deliveryState := None |> <| deliveringAt := None |> <| deliveredAt := None |> <| droppedAt := None |> <| partialAt := None |>.

Definition markQueueEntryDelivering (now : Z) (e : Entry) : Entry :=
  e <| deliveryState := Some delivering |> <| deliveringAt := Some now |> <| deliveryAttempt := Z.max 0 (deliveryAttempt e) + 1 |>.

Definition markQueueEntryTerminal (state : dstate) (now : Z) (e : Entry) : Entry :=
  let e := e <| deliveryState := Some state |> in
  match state with
  | delivered => e <| deliveredAt := Some now |>
  | partial => e <| partialAt := Some now |>
  | _ => e <| droppedAt := Some now |>
  end.

(** ** The queue as a [Map] with a live iterator *)

Definition setQueue (q : omap (list Entry)) (st : State) : State := st <| mem := (mem st) <| queue := q |> |>.

Definition mapSet (t : string) (es : list Entry) (st : State) : State :=
  let fresh := negb (om_has t (queue (mem st))) in
  let st := setQueue (om_set t es (queue (mem st))) st in
  if fresh then st <| tick := (λ l, l ++ [t]) <$> tick st |> else st.

Definition mapDelete (t : string) (st : State) : State :=
  setQueue (om_del t (queue (mem st))) st <| tick := List.filter (λ k, negb (String.eqb t k)) <$> tick st |>.

Definition bucket (t : string) (st : State) : list Entry := default [] (om_get t (queue (mem st))).

Definition same_object (a b : Entry) : bool := (id a =? id b) && Nat.eqb (object a) (object b).

(** A change of the object [e], seen wherever the queue holds it. *)
Definition mutate (e : Entry) (f : Entry → Entry) (st : State) : State :=
  setQueue (prod_map (λ k, k) (List.map (λ x, if same_object x e then f x else x)) <$> queue (mem st)) st.

Definition allEntries (m : Mem) : list Entry := mjoin (om_vals (queue m)).

Definition emit (now : Z) (type : string) (e : option Entry) (reason : option string) (st : State) : State :=
  st <| events := events st ++ [MkEvent type (queueEntryDeliveryEventFields now e) reason] |>.

Definition appendQueuePersistFailedEvent (now : Z) (e : option Entry) (reason : string) (st : State) : State :=
  emit now "queue.persist_failed" e (Some reason) st.

(** ** Saving and restoring *)

Definition imageOf (m : Mem) : Image := MkImage (idCounter m) (allEntries m) (idempotency m).

Definition saveQueue (o : save_result) (st : State) : bool * State :=
  match o with
  | Saved => (true, st <| file := Some (imageOf (mem st)) |>)
  | NotWritten => (false, st)
  | WrittenButFalse => (false, st <| file := Some (imageOf (mem st)) |>)
  end.

(** The copies get a number of their own. [clear] and [set] make the iterator visit every key again. *)
Definition restoreQueueState (snapshot : Mem) (st : State) : State :=
  let g := S (generation st) in
  st <| generation := g |>
     <| mem := snapshot <| queue := prod_map (λ k, k) (List.map (λ e, e <| object := g |>)) <$> queue snapshot |> |>
     <| tick := (λ _, om_keys (queue snapshot)) <$> tick st |>.

Definition removeQueueEntry (target : string) (e : Entry) (st : State) : State :=
  let fix remove (l : list Entry) : option (list Entry) :=
    match l with
    | [] => None
    | x :: l' => if id x =? id e then Some l' else (λ r, x :: r) <$> remove l'
    end in
  match om_get target (queue (mem st)) with
  | None => st
  | Some entries => match remove entries with
                    | None => st
                    | Some [] => mapDelete target st
                    | Some rest => mapSet target rest st
                    end
  end.

Definition claimQueueEntryForDelivery (o : save_result) (now : Z) (e : Entry) (st : State) : bool * State :=
  let e' := markQueueEntryDelivering now e in
  let '(ok, st') := saveQueue o (mutate e (markQueueEntryDelivering now) st) in
  if ok then (true, emit now "queue.dequeued" (Some e') None st')
  else (false, appendQueuePersistFailedEvent now (Some e') "queue-dequeue-save-failed" (restoreQueueState (mem st) st')).

Definition persistQueueEntryQueued (o : save_result) (now : Z) (e : Entry) (reason : string) (st : State) : State :=
  let '(ok, st) := saveQueue o (mutate e resetQueueEntryDeliveryState st) in
  if ok then st else appendQueuePersistFailedEvent now (Some (resetQueueEntryDeliveryState e)) reason st.

(** [o1] is the save of the terminal mark, [o2] the save without the entry. *)
Definition finalizeQueueEntryAfterSideEffect (o1 o2 : save_result) (now : Z) (e : Entry) (target : string) (state : dstate)
    (reason : string) (st : State) : bool * State :=
  let e' := markQueueEntryTerminal state now e in
  let '(ok, st') := saveQueue o1 (mutate e (markQueueEntryTerminal state now) st) in
  if ok then
    let '(ok2, st2) := saveQueue o2 (removeQueueEntry target e' st') in
    (true, if ok2 then st2 else appendQueuePersistFailedEvent now (Some e') (reason +:+ "-remove-failed") st2)
  else (false, appendQueuePersistFailedEvent now (Some e') reason (restoreQueueState (mem st) st')).

Definition archiveDroppedQueueEntries (now : Z) (entries : list Entry) (reason : string) (st : State) : State :=
  foldl (λ s e, emit now "queue.dropped" (Some e) (Some reason) s) st entries.

(** ** Stale notifications *)

(** What one call meets: the clock, what each save does in order, and what the backend says is unread. *)
Record Env : Type := MkEnv { now : Z; save1 : save_result; save2 : save_result; save3 : save_result; unread : nat → string → jval }.

Definition fetchUnreadSnapshot (e : Env) (n : nat) (agentName : option string) : jval :=
  match agentName with Some a => unread e n a | None => JNull end.

Definition textOf (v : jval) : string := match v with JStr s => trim s | _ => EmptyString end.
Definition idOf (msg : jval) : string := match msg with JObj _ => textOf (prop msg "id") | _ => EmptyString end.
Definition itemsOf (v : jval) : list jval := match v with JArr l => l | _ => [] end.
Definition Number (v : jval) : num := to_number num_str str_num v.

Definition unreadIds (snapshot : jval) : list string :=
  List.filter truthy (List.map textOf (itemsOf (prop snapshot "unread_ids")) ++ List.map idOf (itemsOf (prop snapshot "messages"))
                      ++ List.map idOf (itemsOf (prop snapshot "unread"))).

Definition isStaleNotificationBySnapshot (e : Entry) (snapshot : jval) : bool :=
  if negb (isBackendNotificationEntry e && to_bool snapshot) then false else
  let unreadTotal := Number (js_or (prop snapshot "unread_total") (JNum (Fin 0))) in
  if num_eqb unreadTotal (Fin 0) then true else
  let sourceMsgId := match notifyMeta e with Some m => default EmptyString (trim <$> sourceMsgId m) | None => EmptyString end in
  let recordedUnread := match notifyMeta e with Some m => unreadCount m | None => 0 end in
  let fewer := (0 <? recordedUnread) && num_ltb unreadTotal (Fin (inject_Z recordedUnread)) in
  if negb (truthy sourceMsgId) then fewer else
  let ids := unreadIds snapshot in
  if (0 <? length ids)%nat then negb (inb sourceMsgId ids) else
  let latestId := idOf (prop snapshot "latest") in
  if num_eqb unreadTotal (Fin 1) && truthy latestId then negb (String.eqb latestId sourceMsgId) else fewer.

Definition isStaleNotificationEntry (e : Env) (x : Entry) : bool :=
  if negb (isBackendNotificationEntry x) then false
  else isStaleNotificationBySnapshot x (fetchUnreadSnapshot e 1 (targetSessionName (to x))).

(** ** Enqueueing *)

Record Body : Type := MkBody { b_from : string; b_to : string; b_payload : string; b_priority : jval; b_notifyMeta : jval }.
Record Reply : Type := MkReply { rp_status : Z; rp_receipt : option Receipt; rp_deduped : bool; rp_error : option string }.

Definition accepted (e : Env) (body : Body) (key : string) (st : State) : Entry :=
  let redirect := om_get (b_to body) (redirects st) in
  MkEntry (idCounter (mem st) + 1) (if truthy (b_from body) then b_from body else "unknown") (default (b_to body) redirect)
    (b_payload body) (now e) (Some (normalizeQueuePriority (b_priority body))) (truthy_opt (Some key))
    (sanitizeNotifyMeta (b_notifyMeta body)) (match redirect with Some _ => Some (b_to body) | None => None end)
    false [] 0 None None None None None 0 (generation st).

Definition enqueueFromRequestBody (e : Env) (body : Body) (key : string) (st : State) : Reply * State :=
  if negb (truthy (b_to body) && truthy (b_payload body)) then (MkReply 400 None false (Some "missing to or payload"), st) else
  match (if truthy key then om_get key (idempotency (mem st)) else None) with
  | Some r => (MkReply 200 (Some r) true None, st)
  | None =>
      let entry := accepted e body key st in
      let notif := isBackendNotificationEntry entry in
      let old := bucket (to entry) st in
      let superseded := if notif then List.filter isBackendNotificationEntry (reverse old) else [] in
      let kept := if notif then List.filter (λ x, negb (isBackendNotificationEntry x)) old else old in
      let receipt := MkReceipt (id entry) (now e) (S (length kept)) (redirectedFrom entry) in
      let st1 := st <| mem := (mem st) <| idCounter := id entry |>
                                       <| idempotency := if truthy key then om_set key receipt (idempotency (mem st)) else idempotency (mem st) |> |> in
      let '(ok, st2) := saveQueue (save1 e) (mapSet (to entry) (kept ++ [entry]) st1) in
      if ok then
        (MkReply 200 (Some receipt) false None,
         foldl (λ s x, emit (now e) "queue.superseded" (Some x) (Some "superseded-backend-notification") s)
           (emit (now e) "queue.accepted" (Some entry) None st2) superseded)
      else (MkReply 500 None false (Some "queue persistence failed"),
            appendQueuePersistFailedEvent (now e) (Some entry) "queue-accept-save-failed" (restoreQueueState (mem st) st2))
  end.

(** [POST /api/queue] *)
Definition postQueue (e : Env) (body : Body) (header : option string) (st : State) : Reply * State :=
  let key := default EmptyString (trim <$> header) in
  if (255 <? String.length key)%nat then (MkReply 400 None false (Some "idempotency key must be at most 255 characters"), st)
  else enqueueFromRequestBody e body key st.

(** ** Dropping and deleting *)

Definition notificationMatches (source : string) (x : Entry) : bool :=
  isBackendNotificationEntry x &&
  (negb (truthy source) ||
   match notifyMeta x with
   | Some m => String.eqb (default EmptyString (trim <$> sourceMsgId m)) source || inb source (messageIds m)
   | None => false
   end).

Definition dropMatching (agent source : string) (p : string * list Entry) (acc : list Entry * State) : list Entry * State :=
  let '(t, es) := p in
  if match targetSessionName t with Some s => negb (String.eqb s agent) | None => true end then acc else
  let kept := List.filter (λ x, negb (notificationMatches source x)) es in
  (acc.1 ++ List.filter (notificationMatches source) es,
   if (length kept =? 0)%nat then mapDelete t acc.2 else mapSet t kept acc.2).

(** The number removed and whether the save failed. *)
Definition dropQueuedBackendNotificationsBySource (e : Env) (agentName : string) (source : option string) (reason : string) (st : State)
    : nat * bool * State :=
  let agent := trim agentName in
  if negb (truthy agent) then (O, false, st) else
  let sourceId := default EmptyString (trim <$> source) in
  let '(gone, st1) := foldl (λ acc p, dropMatching agent sourceId p acc) ([], st) (queue (mem st)) in
  match gone with
  | [] => (O, false, st1)
  | first :: _ =>
      let '(ok, st2) := saveQueue (save1 e) st1 in
      if ok then (length gone, false, foldl (λ s x, emit (now e) "queue.dropped" (Some x) (Some reason) s) st2 gone)
      else (O, true, appendQueuePersistFailedEvent (now e) (Some first) "queue-source-drop-save-failed" (restoreQueueState (mem st) st2))
  end.

(** The first entry with an id, and its bucket. *)
Definition findEntry (n : Z) (q : omap (list Entry)) : option (string * Entry) :=
  head (List.flat_map (λ p, match List.filter (λ x, id x =? n) p.2 with x :: _ => [(p.1, x)] | [] => [] end) q).

(** [DELETE /api/queue/:id]; [None] is an id that is no number. *)
Definition deleteQueued (e : Env) (n : option Z) (st : State) : Reply * State :=
  match (match n with Some n => findEntry n (queue (mem st)) | None => None end) with
  | None => (MkReply 404 None false (Some "not found"), st)
  | Some (target, x) =>
      match deliveryState x with
      | Some _ => (MkReply 409 None false (Some "delivery in progress"), st)
      | None =>
          let '(ok, st1) := saveQueue (save1 e) (removeQueueEntry target x st) in
          if ok then (MkReply 200 None false None, emit (now e) "queue.canceled" (Some x) (Some "operator-delete") st1)
          else (MkReply 500 None false (Some "queue persistence failed"),
                appendQueuePersistFailedEvent (now e) (Some x) "queue-delete-save-failed" (restoreQueueState (mem st) st1))
      end
  end.

(** ** Delivery *)

Definition lock (t : string) (st : State) : State := st <| locks := if inb t (locks st) then locks st else locks st ++ [t] |>.
Definition unlock (t : string) (st : State) : State := st <| locks := List.filter (λ k, negb (String.eqb t k)) (locks st) |>.
(** [trackRuntimeTimeout(() => delivering.delete(target), ...)], and its firing. *)
Definition unlockLater (t : string) (st : State) : State := st <| unlocking := unlocking st ++ [t] |>.
Definition timeoutFires (i : nat) (st : State) : State :=
  match unlocking st !! i with
  | Some t => unlock t (st <| unlocking := delete i (unlocking st) |>)
  | None => st
  end.

Definition finalPayload (x : Entry) : string :=
  match redirectedFrom x with
  | Some f => payload x +:+ String PaneActivity.newline "[REDIRECT NOTICE] This message was originally addressed to " +:+ String quote_char f
                +:+ String quote_char " which has been renamed to " +:+ String quote_char (to x)
                +:+ String quote_char ". Please update your target for future messages."
  | None => payload x
  end.

(** The result of [deliverMessage]. *)
Inductive outcome : Type := PayloadFailed | EnterFailed | Delivered.

(** What follows [await deliverMessage(entry)], in the poll loop or in the route. *)
Definition settle (e : Env) (s : Sender) (r : outcome) (st : State) : State :=
  let x := s_entry s in let t := s_target s in
  let release := if s_manual s then unlock t else unlockLater t in
  match r with
  | PayloadFailed => release (persistQueueEntryQueued (save1 e) (now e) x "queue-requeue-save-failed" st)
  | EnterFailed =>
      let '(ok, st) := finalizeQueueEntryAfterSideEffect (save1 e) (save2 e) (now e) x t partial "queue-partial-save-failed" st in
      if ok then
        release (archiveDroppedQueueEntries (now e) [x] (if s_manual s then "partial-delivery-manual-send" else "partial-delivery-enter") st)
      else unlock t st
  | Delivered =>
      release (finalizeQueueEntryAfterSideEffect (save1 e) (save2 e) (now e) x t delivered "queue-delivered-save-failed" st).2
  end.

(** The first call of tmux of the sender number [i] ends; then the second. *)
Definition payloadSent (e : Env) (i : nat) (ok : bool) (st : State) : State :=
  match senders st !! i with
  | None => st
  | Some s =>
      if s_typed s then st else
      if ok then st <| senders := <[i := MkSender (s_entry s) (s_target s) (s_manual s) true]> (senders st) |>
                    <| typed := s_entry s :: typed st |>
      else settle e s PayloadFailed
             (emit (now e) "tmux.delivery_failed" (Some (s_entry s)) None (st <| senders := delete i (senders st) |>))
  end.

Definition enterSent (e : Env) (i : nat) (ok : bool) (st : State) : State :=
  match senders st !! i with
  | None => st
  | Some s =>
      if negb (s_typed s) then st else
      let st := st <| senders := delete i (senders st) |> in
      if ok then settle e s Delivered (emit (now e) "tmux.delivered" (Some (s_entry s)) None st)
      else settle e s EnterFailed (emit (now e) "tmux.delivery_partial" (Some (s_entry s)) None st)
  end.

(** The end of a claim: a stale notification is dropped, anything else is handed to tmux. *)
Definition send (e : Env) (manual : bool) (x : Entry) (t : string) (stale : bool) (st : State) : option Reply * State :=
  let x' := markQueueEntryDelivering (now e) x in
  if stale then
    let '(ok, st1) := finalizeQueueEntryAfterSideEffect (save2 e) (save3 e) (now e) x' t dropped "queue-stale-drop-save-failed" st in
    if ok then (Some (MkReply 200 None false None),
                unlock t (archiveDroppedQueueEntries (now e) [x'] (if manual then "stale-notification-manual-send" else "stale-notification-on-deliver") st1))
    else (Some (MkReply 503 None false (Some "queue-persist-failed")), unlock t st1)
  else (None, st <| senders := senders st ++ [MkSender x' t manual false] |>).

(** [POST /api/queue/:id/send] up to its first wait; [None] while the delivery is in progress. *)
Definition sendNow (e : Env) (n : option Z) (st : State) : option Reply * State :=
  match (match n with Some n => findEntry n (queue (mem st)) | None => None end) with
  | None => (Some (MkReply 404 None false (Some "not found")), st)
  | Some (t, x) =>
      if is_Some_b (deliveryState x) || inb t (locks st) then (Some (MkReply 409 None false (Some "already-delivering")), st) else
      let '(ok, st1) := claimQueueEntryForDelivery (save1 e) (now e) x (lock t st) in
      if ok then send e true x t (isStaleNotificationEntry e x) st1
      else (Some (MkReply 503 None false (Some "queue-persist-failed")), unlock t st1)
  end.

(** ** The poll loop *)

(** [processQueueTick] starts unless one is running. *)
Definition startTick (st : State) : State :=
  match tick st with None => st <| tick := Some (om_keys (queue (mem st))) |> | Some _ => st end.

Definition waiting (st : State) : bool := existsb (λ s, negb (s_manual s)) (senders st).

(** The loop has visited every key and is not waiting for tmux. *)
Definition endTick (st : State) : State :=
  match tick st with Some [] => if waiting st then st else st <| tick := None |> | _ => st end.

(** Replace a bucket by what is kept of it, and save. *)
Definition dropFrom (e : Env) (o : save_result) (target : string) (kept gone : list Entry) (failed dropReason : string) (st : State) : bool * State :=
  let '(ok, st1) := saveQueue o (if (length kept =? 0)%nat then mapDelete target st else mapSet target kept st) in
  if ok then (true, archiveDroppedQueueEntries (now e) gone dropReason st1)
  else (false, appendQueuePersistFailedEvent (now e) (head gone) failed (restoreQueueState (mem st) st1)).

(** A notification waiting for a pane that is gone is dropped after five minutes. *)
Definition dropForMissingPane (e : Env) (o : save_result) (target : string) (entries : list Entry) (st : State) : State :=
  match entries with
  | oldest :: _ =>
      if 5 * 60 * 1000 <? now e - queuedAt oldest then
        let gone := List.filter isBackendNotificationEntry entries in
        let kept := List.filter (λ x, negb (isBackendNotificationEntry x)) entries in
        if (length gone =? 0)%nat then st
        else (dropFrom e o target kept gone "queue-pane-missing-drop-save-failed" "pane-missing-over-5m" st).2
      else st
  | [] => st
  end.

(** From the idle gate on. *)
Definition deliverFirst (e : Env) (o : PaneWatch.Observation) (snapshot : jval) (target : string) (entries : list Entry) (st : State) : State :=
  match entries with
  | [] => st
  | x :: _ =>
      let idleMs := default (-1) (PaneWatch.idleMs o) in
      let bypassIdleGate := String.eqb (entryPriority x) "urgent" in
      match PaneWatch.state o with
      | PaneWatch.active | PaneWatch.idle =>
          if negb bypassIdleGate && (idleMs <? IDLE_THRESHOLD) then st else
          let st := lock target st in
          match deliveryState x with
          | Some delivering => unlock target st
          | _ =>
              let '(ok, st1) := claimQueueEntryForDelivery (save1 e) (now e) x st in
              if negb ok then unlock target st1 else
              let stale := if to_bool snapshot && isBackendNotificationEntry x then isStaleNotificationBySnapshot x snapshot
                           else isStaleNotificationEntry e x in
              (send e false x target stale st1).2
          end
      | PaneWatch.pane_missing => dropForMissingPane e (save1 e) target entries st
      | _ => st
      end
  end.

(** One turn of the loop. When notifications were dropped first, that save is [save0]. *)
Definition visit (e : Env) (save0 : save_result) (o : PaneWatch.Observation) (st : State) : State :=
  match tick st with
  | Some (target :: rest) =>
      if waiting st then st else
      let st := st <| tick := Some rest |> in
      let entries := bucket target st in
      match entries with
      | [] => mapDelete target st
      | _ =>
          if inb target (locks st) then st else
          let snapshot := if existsb isBackendNotificationEntry entries then fetchUnreadSnapshot e 0 (targetSessionName target) else JNull in
          let gone := List.filter (λ x, isStaleNotificationBySnapshot x snapshot) entries in
          let kept := List.filter (λ x, negb (isStaleNotificationBySnapshot x snapshot)) entries in
          if (length gone =? 0)%nat then deliverFirst e o snapshot target entries st else
          let '(ok, st1) := dropFrom e save0 target kept gone "queue-stale-drop-save-failed" "stale-notification-unread-changed" st in
          if negb ok then st1 else if (length kept =? 0)%nat then st1 else deliverFirst e o snapshot target kept st1
      end
  | _ => st
  end.

(** [/api/queue]: everything waiting, the oldest first, with the state of its pane. *)
Definition queueSnapshot (observe : string → PaneWatch.Observation) (st : State) : list (Entry * PaneWatch.Observation) :=
  List.map (λ x, (x, observe (to x))) (stable_sort (λ a b, queuedAt a <? queuedAt b) (allEntries (mem st))).

(** ** Reminders *)

Definition snapshotReminderState (st : State) : RImage := MkRImage (reminderIdCounter st) (reminders st).
Definition restoreReminderState (r : RImage) (st : State) : State :=
  st <| reminderIdCounter := ri_counter r |> <| reminders := ri_items r |>.

(** Writing the reminder file does nothing after it has replaced the file. *)
Definition saveReminders (o : save_result) (st : State) : bool * State :=
  match o with
  | Saved => (true, st <| reminderFile := Some (snapshotReminderState st) |>)
  | _ => (false, st)
  end.

Definition reminderItems_of (now : Z) (x : Entry) : list Reminders.Item :=
  Reminders.normalizeReminderItems now (reminderItems x) (queuedAt x) (payload x).

Definition withItems (now : Z) (items : list Reminders.Item) (x : Entry) : Entry :=
  x <| reminderItems := items |> <| reminderCount := length items |>
    <| payload := Reminders.renderReminderPayload REMINDER_MERGE_PREVIEW_LIMIT now items |>.

Definition reminderEntry (now : Z) (target : string) (item : Reminders.Item) (st : State) : Entry :=
  MkEntry (idCounter (mem st) + 1) target target (Reminders.renderReminderPayload REMINDER_MERGE_PREVIEW_LIMIT now [item]) now None
    None None None true [item] 1 None None None None None 0 (generation st).

Definition enqueueReminder (now : Z) (r : Reminder) (st : State) : State :=
  let target := trim (rem_target r) in
  if negb (truthy target) then st else
  let item := Reminders.reminderItemFromInput (rem_createdAt r) (rem_msg r) now in
  let b := bucket target st in
  match last b with
  | Some x =>
      if isReminder x then mutate x (withItems now (reminderItems_of now x ++ [item])) st
      else mapSet target (b ++ [reminderEntry now target item st]) (st <| mem := (mem st) <| idCounter := idCounter (mem st) + 1 |> |>)
  | None => mapSet target [reminderEntry now target item st] (st <| mem := (mem st) <| idCounter := idCounter (mem st) + 1 |> |>)
  end.

Definition due (now : Z) (r : Reminder) : bool := Qle_bool (fireAt r) (inject_Z now).

(** The list is walked from its end. *)
Definition processDueReminders (e : Env) (st : State) : State :=
  let rollback := snapshotReminderState st in
  let fired := List.filter (due (now e)) (reverse (reminders st)) in
  let st1 := (foldl (λ s r, enqueueReminder (now e) r s) st fired) <| reminders := List.filter (λ r, negb (due (now e) r)) (reminders st) |> in
  if (length fired =? 0)%nat then st else
  let '(ok, st2) := saveQueue (save1 e) st1 in
  if negb ok then
    appendQueuePersistFailedEvent (now e) None "due-reminder-queue-save-failed"
      (restoreReminderState rollback (restoreQueueState (mem st) st2))
  else
    let '(ok2, st3) := saveReminders (save2 e) st2 in
    if ok2 then st3 else
    let '(ok3, st4) := saveQueue (save3 e) (restoreReminderState rollback (restoreQueueState (mem st) st3)) in
    appendQueuePersistFailedEvent (now e) None "due-reminder-reminder-save-failed"
      (if ok3 then st4 else appendQueuePersistFailedEvent (now e) None "due-reminder-queue-rollback-save-failed" st4).

(** [POST /api/reminders] with its texts and the finite number that [delay] stands for. *)
Definition createReminder (e : Env) (target : string) (delay : Q) (msg : string) (st : State) : Reply * State :=
  if negb (truthy target) || Qeq_bool delay 0 || negb (truthy msg)
  then (MkReply 400 None false (Some "missing target, delay, or msg"), st) else
  if Qle_bool delay 0 then (MkReply 400 None false (Some "delay must be positive number (seconds)"), st) else
  let n := reminderIdCounter st + 1 in
  let r := MkReminder n target msg (now e) (inject_Z (now e) + delay * 1000) in
  let '(ok, st1) := saveReminders (save1 e) (st <| reminderIdCounter := n |> <| reminders := reminders st ++ [r] |>) in
  if ok then (MkReply 200 None false None, st1)
  else (MkReply 500 None false (Some "reminder persistence failed"),
        appendQueuePersistFailedEvent (now e) None "reminder-create-save-failed" (restoreReminderState (snapshotReminderState st) st1)).

(** [DELETE /api/reminders/:id] *)
Definition deleteReminder (e : Env) (n : option Z) (st : State) : Reply * State :=
  let fix remove (l : list Reminder) : option (list Reminder) :=
    match l with
    | [] => None
    | r :: l' => if match n with Some n => rem_id r =? n | None => false end then Some l' else (λ l, r :: l) <$> remove l'
    end in
  match remove (reminders st) with
  | None => (MkReply 404 None false (Some "not found"), st)
  | Some rest =>
      let '(ok, st1) := saveReminders (save1 e) (st <| reminders := rest |>) in
      if ok then (MkReply 200 None false None, st1)
      else (MkReply 500 None false (Some "reminder persistence failed"),
            appendQueuePersistFailedEvent (now e) None "reminder-delete-save-failed" (restoreReminderState (snapshotReminderState st) st1))
  end.

(** ** Starting *)

(** [compactReminderEntriesInBucket]: neighbouring reminders become one. *)
Fixpoint compactReminders (now : Z) (current : option Entry) (l : list Entry) : list Entry :=
  match l with
  | [] => match current with Some c => [c] | None => [] end
  | x :: l' =>
      if isReminder x then
        match current with
        | Some c => compactReminders now (Some (withItems now (reminderItems_of now c ++ reminderItems_of now x) c)) l'
        | None => compactReminders now (Some (withItems now (reminderItems_of now x) x)) l'
        end
      else match current with Some c => [c] | None => [] end ++ x :: compactReminders now None l'
  end.

Definition compactBucket (now : Z) (entries : list Entry) : list Entry :=
  let l := compactReminders now None entries in
  if (length l =? length entries)%nat then entries else l.

Definition item_eqb (a b : Reminders.Item) : bool :=
  (Reminders.createdAt a =? Reminders.createdAt b) && (Reminders.firedAt a =? Reminders.firedAt b) && String.eqb (Reminders.msg a) (Reminders.msg b).

Definition normalized (now : Z) (x : Entry) : Entry :=
  if negb (isReminder x) then x else
  let items := reminderItems_of now x in
  let p := Reminders.renderReminderPayload REMINDER_MERGE_PREVIEW_LIMIT now items in
  if negb (Nat.eqb (reminderCount x) (length items)) || negb (String.eqb (payload x) p) then withItems now items x else x.

(** What becomes of an entry of the file: recovered, discarded as done, or, when its key says that it
    may have been delivered, suppressed. *)
Inductive recovery : Type := Recovered (x : Entry) | Discarded | Suppressed.

Definition recover (keys : omap Receipt) (x : Entry) : recovery :=
  match deliveryState x with
  | Some delivering =>
      match (match idempotencyKey x with Some k => om_get k keys | None => None end) with
      | Some r => if r_id r =? id x then Suppressed else Recovered (resetQueueEntryDeliveryState x)
      | None => Recovered (resetQueueEntryDeliveryState x)
      end
  | Some _ => Discarded
  | None => Recovered x
  end.

Definition loadEntry (keys : omap Receipt) (q : omap (list Entry)) (x : Entry) : omap (list Entry) :=
  if negb (truthy (to x)) then q else
  match recover keys x with
  | Recovered y => om_set (to y) (default [] (om_get (to y) q) ++ [y <| object := O |>]) q
  | _ => q
  end.

Definition keptKeys (keys : omap Receipt) : omap Receipt :=
  List.filter (λ p, truthy p.1 && (String.length p.1 <=? 255)%nat) keys.

(** [None] is an absent or unreadable file. *)
Definition loadMem (now : Z) (f : option Image) : Mem :=
  match f with
  | None => MkMem 0 [] []
  | Some i =>
      let keys := keptKeys (im_keys i) in
      MkMem (im_counter i)
        (prod_map (λ k, k) (λ es, List.map (normalized now) (compactBucket now es)) <$> foldl (loadEntry keys) [] (im_items i)) keys
  end.

Definition touched (now : Z) (i : Image) : bool :=
  existsb (λ x, truthy (to x) && is_Some_b (deliveryState x)) (im_items i) ||
  existsb (λ p, let es := compactBucket now p.2 in
                negb (Nat.eqb (length es) (length p.2)) || existsb (λ x, isReminder x && negb (String.eqb (payload (normalized now x)) (payload x)
                                                                      && Nat.eqb (reminderCount (normalized now x)) (reminderCount x))) es)
    (foldl (loadEntry (keptKeys (im_keys i))) [] (im_items i)).

Definition suppressions (now : Z) (i : Image) : list Event :=
  List.flat_map (λ x, if truthy (to x) then match recover (keptKeys (im_keys i)) x with
                       | Suppressed => [MkEvent "queue.recovery_suppressed" (queueEntryDeliveryEventFields now (Some x))
                                          (Some "idempotent-delivery-outcome-uncertain")]
                       | _ => []
                       end else []) (im_items i).

(** [initDeliveryQueue]: all state is reset, then the files are loaded; what was typed, and the events
    already written, stay. *)
Definition initDeliveryQueue (e : Env) (redirectFile : omap string) (st : State) : State :=
  let st1 := MkState (loadMem (now e) (file st)) 0 [] [] None [] (match reminderFile st with Some r => ri_items r | None => [] end)
               (match reminderFile st with Some r => ri_counter r | None => 0 end) redirectFile
               (file st) (reminderFile st) (events st ++ match file st with Some i => suppressions (now e) i | None => [] end) (typed st) in
  match file st with
  | Some i => if touched (now e) i then (saveQueue (save1 e) st1).2 else st1
  | None => st1
  end.

Definition stopDeliveryQueueLoops (st : State) : State := st <| unlocking := [] |> <| locks := [] |>.

(** Before the first start. *)
Definition state0 : State := MkState (MkMem 0 [] []) 0 [] [] None [] [] 0 [] None None [] [].

End model.
End DeliveryQueue.
