(* ===== verification/DeliveryFacts.v ===== *)
(** * The delivery queue: invariants of its state

    What every operation of [DeliveryQueue] preserves: ids are unique and below the counter, an entry
    waits in the bucket of its target, an entry with an idempotency key has the id its receipt names,
    in memory and in the file; and once a key has been handed to tmux, every entry with that key, in
    memory and in the file, is marked. *)

From Stdlib Require Import ZArith QArith Lia String Ascii.
From stdpp Require Import base list strings relations.
From S2P Require Import Prelude OMap Json PaneWatch Reminders DeliveryQueue.
Import DeliveryQueue.
#[local] Open Scope stdpp_scope.

(** ** Entries of a queue *)

Definition entriesOf (q : omap (list Entry)) : list Entry := mjoin (om_vals q).

Lemma entriesOf_app q1 q2 : entriesOf (q1 ++ q2) = entriesOf q1 ++ entriesOf q2.
Proof. unfold entriesOf, om_vals. by rewrite fmap_app, join_app. Qed.

Lemma elem_of_entriesOf x q : x ∈ entriesOf q ↔ ∃ t es, (t, es) ∈ q ∧ x ∈ es.
Proof.
  unfold entriesOf. rewrite list_elem_of_join. split.
  - intros (es & Hx & He). apply om_vals_get in He as [t Ht]. by exists t, es.
  - intros (t & es & Ht & Hx). exists es. split; [done|]. apply list_elem_of_fmap. by exists (t, es).
Qed.

(** A change of every entry in place. *)
Definition mapEntries (g : Entry → Entry) (q : omap (list Entry)) : omap (list Entry) := prod_map (λ k, k) (List.map g) <$> q.

Lemma entriesOf_map g q : entriesOf (mapEntries g q) = g <$> entriesOf q.
Proof.
  induction q as [|[t es] q IH]; [done|]. change (entriesOf (mapEntries g ((t, es) :: q))) with ((g <$> es) ++ entriesOf (mapEntries g q)).
  rewrite IH. change (entriesOf ((t, es) :: q)) with (es ++ entriesOf q). by rewrite fmap_app.
Qed.

Lemma entriesOf_del t q es : NoDup (om_keys q) → om_get t q = Some es → entriesOf q ≡ₚ es ++ entriesOf (om_del t q).
Proof.
  induction q as [|[k v] q IH]; [done|]. cbn [om_get om_keys]. intros [Hk Hnd]%NoDup_cons H.
  change (entriesOf ((k, v) :: q)) with (v ++ entriesOf q). unfold om_del in *. cbn [List.filter fst].
  destruct (String.eqb_spec t k) as [->|Hne]; cbn [negb].
  - injection H as ->. f_equiv. fold (om_del k q). rewrite om_del_id; [done|]. by apply om_get_None.
  - change (entriesOf ((k, v) :: ?l)) with (v ++ entriesOf l). rewrite (IH Hnd H). rewrite !(assoc_L (++)). f_equiv.
    apply Permutation_app_comm.
Qed.

Lemma entriesOf_del_none t q : om_get t q = None → entriesOf (om_del t q) = entriesOf q.
Proof. intros H. by rewrite om_del_id. Qed.

Lemma entriesOf_bucket t q : NoDup (om_keys q) → entriesOf q ≡ₚ default [] (om_get t q) ++ entriesOf (om_del t q).
Proof.
  intros Hnd. destruct (om_get t q) as [es|] eqn:E; cbn [default]; [by apply entriesOf_del|]. by rewrite entriesOf_del_none.
Qed.

Lemma om_del_set {V} t (v : V) q : om_del t (om_set t v q) = om_del t q.
Proof.
  unfold om_set. destruct (om_has t q) eqn:E.
  - clear E. induction q as [|[k w] q IH]; [done|]. unfold om_del in *. cbn [om_replace].
    destruct (String.eqb_spec t k) as [->|Hne]; cbn [List.filter fst].
    + by rewrite String.eqb_refl.
    + destruct (String.eqb_spec t k); [done|]. cbn [negb]. by f_equal.
  - apply om_has_false in E. rewrite om_del_snoc by done. by rewrite om_del_id.
Qed.

Lemma entriesOf_set t es q : NoDup (om_keys q) → entriesOf (om_set t es q) ≡ₚ es ++ entriesOf (om_del t q).
Proof.
  intros Hnd. rewrite (entriesOf_bucket t) by by apply om_nodup_set. by rewrite om_get_set_eq, om_del_set.
Qed.

(** ** Smaller queues *)

(** The same message, still marked if it was. *)
Record le_entry (x y : Entry) : Prop := LeEntry {
  le_id : id y = id x; le_key : idempotencyKey y = idempotencyKey x; le_to : to y = to x;
  le_marked : deliveryState x ≠ None → deliveryState y ≠ None;
}.

#[export] Instance le_entry_preorder : PreOrder le_entry.
Proof.
  split; [by split|]. intros x y z [] []. split; try congruence. auto.
Qed.

Record reduces (l l' : list Entry) : Prop := Reduces {
  red_ids : id <$> l' ⊆+ id <$> l;
  red_le : ∀ y, y ∈ l' → ∃ x, x ∈ l ∧ le_entry x y;
}.

#[export] Instance reduces_preorder : PreOrder reduces.
Proof.
  split.
  - intros l. split; [done|]. intros y Hy. by exists y.
  - intros l1 l2 l3 [H1 H2] [H3 H4]. split; [by etrans|]. intros z Hz. destruct (H4 z Hz) as (y & Hy & Hle).
    destruct (H2 y Hy) as (x & Hx & Hle'). exists x. split; [done|by etrans].
Qed.

Lemma reduces_perm l l' : l ≡ₚ l' → reduces l l'.
Proof. intros H. split; [by rewrite H|]. intros y Hy. exists y. split; [by rewrite H|done]. Qed.

Lemma reduces_sub l l' : l' ⊆+ l → reduces l l'.
Proof. intros H. split; [by apply fmap_submseteq|]. intros y Hy. exists y. split; [by eapply elem_of_submseteq|done]. Qed.

Lemma reduces_app l1 l2 k1 k2 : reduces l1 k1 → reduces l2 k2 → reduces (l1 ++ l2) (k1 ++ k2).
Proof.
  intros [H1 H2] [H3 H4]. split; [rewrite !fmap_app; by apply submseteq_app|]. intros y [Hy|Hy]%elem_of_app.
  - destruct (H2 y Hy) as (x & ? & ?). exists x. split; [apply elem_of_app; by left|done].
  - destruct (H4 y Hy) as (x & ? & ?). exists x. split; [apply elem_of_app; by right|done].
Qed.

Lemma reduces_map g l : (∀ x, le_entry x (g x)) → reduces l (g <$> l).
Proof.
  intros Hg. split.
  - rewrite <-list_fmap_compose. apply reflexive_eq. apply list_fmap_ext. intros i x _. apply le_id, Hg.
  - intros y Hy. apply list_elem_of_fmap in Hy as (x & -> & Hx). by exists x.
Qed.

Lemma reduces_nil l : reduces l [].
Proof. apply reduces_sub, submseteq_nil_l. Qed.

#[export] Hint Resolve reduces_nil reduces_map reduces_sub : hagency.

(** ** The invariant *)

Definition valid_key (K : string) : Prop := truthy K = true ∧ (String.length K ≤ 255)%nat.

Definition entry_ok (keys : omap Receipt) (counter : Z) (x : Entry) : Prop :=
  id x ≤ counter ∧ ∀ K, idempotencyKey x = Some K → valid_key K ∧ ∃ r, om_get K keys = Some r ∧ r_id r = id x.

Record items_ok (keys : omap Receipt) (counter : Z) (l : list Entry) : Prop := ItemsOk {
  io_entry : ∀ x, x ∈ l → entry_ok keys counter x;
  io_nodup : NoDup (id <$> l);
}.

Definition bucket_ok (q : omap (list Entry)) : Prop := ∀ t es x, (t, es) ∈ q → x ∈ es → to x = t.

Record mem_ok (m : Mem) : Prop := MemOk {
  mo_items : items_ok (idempotency m) (idCounter m) (entriesOf (queue m));
  mo_keys : NoDup (om_keys (queue m));
  mo_bucket : bucket_ok (queue m);
}.

Definition file_ok (f : option Image) : Prop :=
  match f with Some i => items_ok (im_keys i) (im_counter i) (im_items i) | None => True end.

(** No entry with the key can be taken up again: its receipt is there, and whatever entry has it is marked. *)
Definition held (K : string) (keys : omap Receipt) (l : list Entry) : Prop :=
  (valid_key K ∧ is_Some (om_get K keys)) ∧ ∀ x, x ∈ l → idempotencyKey x = Some K → deliveryState x ≠ None.

Definition held_in_file (K : string) (f : option Image) : Prop :=
  match f with Some i => held K (im_keys i) (im_items i) | None => False end.

Definition gone (K : string) (st : State) : Prop :=
  held K (idempotency (mem st)) (entriesOf (queue (mem st))) ∧ held_in_file K (file st).

Definition has_key (K : string) (x : Entry) : bool := match idempotencyKey x with Some k => String.eqb k K | None => false end.

(** How often an entry with the key was typed, or is about to be. *)
Definition hits (K : string) (st : State) : nat :=
  (length (List.filter (has_key K) (typed st)) +
   length (List.filter (λ s, negb (s_typed s) && has_key K (s_entry s)) (senders st)))%nat.

(** The entry of a call in progress: whatever the queue holds under its id is the same message. *)
Definition sender_ok (m : Mem) (s : Sender) : Prop :=
  s_target s = to (s_entry s) ∧ id (s_entry s) ≤ idCounter m ∧
  ∀ x, x ∈ entriesOf (queue m) → id x = id (s_entry s) → idempotencyKey x = idempotencyKey (s_entry s) ∧ to x = to (s_entry s).

Record inv0 (st : State) : Prop := Inv0 {
  i_mem : mem_ok (mem st);
  i_file : file_ok (file st);
  i_senders : ∀ s, s ∈ senders st → sender_ok (mem st) s;
  i_hits : ∀ K, (hits K st ≤ 1)%nat;
  i_gone : ∀ K, (0 < hits K st)%nat → gone K st;
}.

Definition alive (x : Entry) : Prop := deliveryState x = None ∨ deliveryState x = Some delivering.
Definition all_alive (st : State) : Prop := ∀ x, x ∈ entriesOf (queue (mem st)) → alive x.

Definition inv (st : State) : Prop := inv0 st ∧ all_alive st.

(** The part of the state the invariant speaks of. *)
Definition same_core (st st' : State) : Prop :=
  mem st' = mem st ∧ file st' = file st ∧ senders st' = senders st ∧ typed st' = typed st.

Lemma inv0_core st st' : same_core st st' → inv0 st → inv0 st'.
Proof.
  destruct st, st'. intros (H1 & H2 & H3 & H4). cbn in H1, H2, H3, H4. subst. intros []. by split.
Qed.

Lemma inv_core st st' : same_core st st' → inv st → inv st'.
Proof.
  intros H [H0 Ha]. split; [by eapply inv0_core|]. destruct H as (Hm & _). unfold all_alive. by rewrite Hm.
Qed.

Lemma alive_le x y : le_entry x y → deliveryState y = deliveryState x → alive x → alive y.
Proof. unfold alive. by intros _ ->. Qed.

(** *** Edits of the queue *)

Lemma entry_ok_le keys c c' x y : le_entry x y → c ≤ c' → entry_ok keys c x → entry_ok keys c' y.
Proof. intros [Hi Hk _ _] Hc [H1 H2]. split; [lia|]. rewrite Hi, Hk. exact H2. Qed.

Lemma items_ok_reduces keys c c' l l' : reduces l l' → c ≤ c' → items_ok keys c l → items_ok keys c' l'.
Proof.
  intros [Hids Hle] Hc [He Hn]. split.
  - intros y Hy. destruct (Hle y Hy) as (x & Hx & Hxy). eapply entry_ok_le; [done|done|by apply He].
  - apply submseteq_Permutation in Hids as [k Hk]. rewrite Hk in Hn. by apply NoDup_app in Hn as [? _].
Qed.

Lemma held_reduces K keys l l' : reduces l l' → held K keys l → held K keys l'.
Proof.
  intros [_ Hle] [Hk Hm]. split; [done|]. intros y Hy HK. destruct (Hle y Hy) as (x & Hx & [Hi Hke _ Hst]).
  apply Hst, (Hm x Hx). congruence.
Qed.

Lemma sender_ok_reduces m m' s : reduces (entriesOf (queue m)) (entriesOf (queue m')) → idCounter m ≤ idCounter m' →
  sender_ok m s → sender_ok m' s.
Proof.
  intros [_ Hle] Hc (H1 & H2 & H3). split_and!; [done|lia|]. intros y Hy Hid.
  destruct (Hle y Hy) as (x & Hx & [Hi Hk Ht _]). destruct (H3 x Hx) as [? ?]; [congruence|]. split; congruence.
Qed.

Definition setMem (m : Mem) (st : State) : State := st <| mem := m |>.

Lemma inv0_edit st m : inv0 st → reduces (entriesOf (queue (mem st))) (entriesOf (queue m)) →
  idempotency m = idempotency (mem st) → idCounter (mem st) ≤ idCounter m → NoDup (om_keys (queue m)) → bucket_ok (queue m) →
  inv0 (setMem m st).
Proof.
  intros [[Hi Hk Hb] Hf Hs Hh Hg] Hr Hkeys Hc Hnd Hbk. split.
  - split; [|done|done]. change (mem (setMem m st)) with m. rewrite Hkeys. by eapply items_ok_reduces.
  - done.
  - intros s Hs'. eapply sender_ok_reduces; [done|done|by apply Hs].
  - exact Hh.
  - intros K HK. destruct (Hg K HK) as [H1 H2]. split; [|done]. change (held K (idempotency m) (entriesOf (queue m))). rewrite Hkeys. by eapply held_reduces.
Qed.

Lemma bucket_ok_set t es q : bucket_ok q → (∀ x, x ∈ es → to x = t) → bucket_ok (om_set t es q).
Proof.
  intros Hq Hes t' es' x Hin Hx. unfold om_set in Hin. destruct (om_has t q) eqn:E.
  - clear E. induction q as [|[k v] q IH]; [by apply elem_of_nil in Hin|]. cbn [om_replace] in Hin.
    destruct (String.eqb_spec t k) as [->|Hne].
    + apply elem_of_cons in Hin as [[= -> ->]|Hin]; [by apply Hes|]. eapply Hq; [right; exact Hin|done].
    + apply elem_of_cons in Hin as [[= -> ->]|Hin]; [eapply Hq; [left|done]|]. apply IH; [|done].
      intros a b c Hab Hc. eapply Hq; [right; exact Hab|done].
  - apply elem_of_app in Hin as [Hin|Hin]; [by eapply Hq|]. apply list_elem_of_singleton in Hin as [= -> ->]. by apply Hes.
Qed.

Lemma bucket_ok_del t q : bucket_ok q → bucket_ok (om_del t q).
Proof. intros Hq t' es x Hin Hx. unfold om_del in Hin. apply elem_of_filter_bool in Hin as [_ Hin]. by eapply Hq. Qed.

Lemma bucket_ok_map g q : (∀ x, to (g x) = to x) → bucket_ok q → bucket_ok (mapEntries g q).
Proof.
  intros Hg Hq t es x Hin Hx. unfold mapEntries in Hin. apply list_elem_of_fmap in Hin as ([k v] & [= -> ->] & Hin).
  apply (list_elem_of_fmap g) in Hx as (y & -> & Hy). rewrite Hg. by eapply Hq.
Qed.

Lemma om_keys_mapEntries g q : om_keys (mapEntries g q) = om_keys q.
Proof. unfold mapEntries. apply om_keys_fmap. Qed.

Lemma bucket_get t es q x : bucket_ok q → om_get t q = Some es → x ∈ es → to x = t.
Proof. intros Hq Hg Hx. eapply Hq; [by apply om_get_elem_of|done]. Qed.

Lemma reduces_bucket t es q : NoDup (om_keys q) → reduces (default [] (om_get t q)) es → reduces (entriesOf q) (entriesOf (om_set t es q)).
Proof.
  intros Hnd Hr. etrans; [apply reduces_perm, (entriesOf_bucket t), Hnd|].
  etrans; [|apply reduces_perm; symmetry; by apply entriesOf_set]. by apply reduces_app.
Qed.

Lemma reduces_del t q : NoDup (om_keys q) → reduces (entriesOf q) (entriesOf (om_del t q)).
Proof. intros Hnd. apply reduces_sub. rewrite (entriesOf_bucket t q Hnd). apply submseteq_inserts_l. done. Qed.

Lemma setQueue_core q st : same_core (setMem ((mem st) <| queue := q |>) st) (setQueue q st).
Proof. by repeat split. Qed.

Lemma inv0_setQueue q st : inv0 st → reduces (entriesOf (queue (mem st))) (entriesOf q) → NoDup (om_keys q) → bucket_ok q → inv0 (setQueue q st).
Proof. intros. eapply inv0_core; [apply setQueue_core|]. by apply inv0_edit. Qed.

Lemma mapSet_core t es st : same_core (setQueue (om_set t es (queue (mem st))) st) (mapSet t es st).
Proof. unfold mapSet. destruct (negb _); by repeat split. Qed.

Lemma mapDelete_core t st : same_core (setQueue (om_del t (queue (mem st))) st) (mapDelete t st).
Proof. by repeat split. Qed.

Lemma inv0_mapSet t es st : inv0 st → reduces (bucket t st) es → inv0 (mapSet t es st).
Proof.
  intros H Hr. pose proof (i_mem _ H) as [Hi Hk Hb]. eapply inv0_core; [apply mapSet_core|].
  apply inv0_setQueue; [done|by apply reduces_bucket|by apply om_nodup_set|].
  apply bucket_ok_set; [done|]. intros y Hy. destruct (red_le _ _ Hr y Hy) as (x & Hx & Hle). rewrite (le_to _ _ Hle).
  unfold bucket in Hx. destruct (om_get t (queue (mem st))) as [l|] eqn:E; [by eapply bucket_get|by apply elem_of_nil in Hx].
Qed.

Lemma inv0_mapDelete t st : inv0 st → inv0 (mapDelete t st).
Proof.
  intros H. pose proof (i_mem _ H) as [Hi Hk Hb]. eapply inv0_core; [apply mapDelete_core|].
  apply inv0_setQueue; [done|by apply reduces_del|by apply om_nodup_del|by apply bucket_ok_del].
Qed.

Definition mutated (e : Entry) (f : Entry → Entry) (x : Entry) : Entry := if same_object x e then f x else x.

Lemma mutate_eq e f st : mutate e f st = setQueue (mapEntries (mutated e f) (queue (mem st))) st.
Proof. done. Qed.

Lemma inv0_mutate e f st : (∀ x, le_entry x (f x)) → inv0 st → inv0 (mutate e f st).
Proof.
  intros Hf H. pose proof (i_mem _ H) as [Hi Hk Hb]. rewrite mutate_eq.
  assert (Hm : ∀ x, le_entry x (mutated e f x)) by (intros x; unfold mutated; by destruct (same_object x e)).
  apply inv0_setQueue; [done| | |].
  - rewrite entriesOf_map. by apply reduces_map.
  - by rewrite om_keys_mapEntries.
  - apply bucket_ok_map; [|done]. intros x. by apply le_to.
Qed.

(** *** Saving and restoring *)

Lemma saveQueue_cases o st : (saveQueue o st).2 = st ∨ (saveQueue o st).2 = st <| file := Some (imageOf (mem st)) |>.
Proof. destruct o; auto. Qed.

Lemma saveQueue_true o st st' : saveQueue o st = (true, st') → st' = st <| file := Some (imageOf (mem st)) |>.
Proof. by destruct o; intros [= <-]. Qed.

Lemma saveQueue_rest o st : let st' := (saveQueue o st).2 in
  mem st' = mem st ∧ senders st' = senders st ∧ typed st' = typed st ∧ tick st' = tick st ∧ locks st' = locks st ∧ generation st' = generation st.
Proof. by destruct o. Qed.

Lemma inv0_write st : inv0 st → inv0 (st <| file := Some (imageOf (mem st)) |>).
Proof.
  intros [[Hi Hk Hb] Hf Hs Hh Hg]. split; [by split|exact Hi|exact Hs|exact Hh|]. intros K HK.
  destruct (Hg K HK) as [H1 _]. split; exact H1.
Qed.

Lemma inv0_save o st : inv0 st → inv0 (saveQueue o st).2.
Proof. intros H. destruct (saveQueue_cases o st) as [->| ->]; [done|by apply inv0_write]. Qed.

Lemma inv0_mix st0 st2 : inv0 st0 → inv0 st2 → senders st2 = senders st0 → typed st2 = typed st0 → inv0 (setMem (mem st0) st2).
Proof.
  intros [Hm0 _ Hs0 _ Hg0] [_ Hf2 _ Hh2 Hg2] Hs Ht. split; [done|done| |exact Hh2|].
  - intros s Hin. apply Hs0. by rewrite <-Hs.
  - intros K HK. split; [|apply (Hg2 K HK)]. apply Hg0. unfold hits in *. by rewrite <-Hs, <-Ht.
Qed.

Lemma restore_core m st : same_core
  (setMem (m <| queue := mapEntries (λ e, e <| object := S (generation st) |>) (queue m) |>) st) (restoreQueueState m st).
Proof. by repeat split. Qed.

Lemma le_object x g : le_entry x (x <| object := g |>).
Proof. by split. Qed.

Lemma inv0_restore st0 st2 : inv0 st0 → inv0 st2 → senders st2 = senders st0 → typed st2 = typed st0 →
  inv0 (restoreQueueState (mem st0) st2).
Proof.
  intros H0 H2 Hs Ht. eapply inv0_core; [apply restore_core|]. pose proof (i_mem _ H0) as [Hi Hk Hb].
  set (m := (mem st0) <| queue := mapEntries (λ e, e <| object := S (generation st2) |>) (queue (mem st0)) |>).
  assert (He : entriesOf (queue m) = (λ e, e <| object := S (generation st2) |>) <$> entriesOf (queue (mem st0))) by apply entriesOf_map.
  apply (inv0_edit (setMem (mem st0) st2) m); [by apply inv0_mix| | | | |].
  - rewrite He. apply reduces_map. intros x. apply le_object.
  - done.
  - change (idCounter (mem st0) ≤ idCounter (mem st0)). lia.
  - change (NoDup (om_keys (mapEntries (λ e, e <| object := S (generation st2) |>) (queue (mem st0))))). by rewrite om_keys_mapEntries.
  - by apply bucket_ok_map.
Qed.

Lemma alive_restore st0 st2 : all_alive st0 → all_alive (restoreQueueState (mem st0) st2).
Proof.
  intros Ha x Hx. change (x ∈ entriesOf (mapEntries (λ e, e <| object := S (generation st2) |>) (queue (mem st0)))) in Hx.
  rewrite entriesOf_map in Hx. apply list_elem_of_fmap in Hx as (y & -> & Hy). exact (Ha y Hy).
Qed.

(** An operation that changes the state, saves, and puts the old state back when the save fails. *)
Lemma inv_save_or_restore o st st1 (k : State → State) (k' : State → State) : inv st → inv st1 → senders st1 = senders st → typed st1 = typed st →
  (∀ s, same_core s (k s)) → (∀ s, same_core s (k' s)) →
  inv (let '(ok, st2) := saveQueue o st1 in if ok then k st2 else k' (restoreQueueState (mem st) st2)).
Proof.
  intros [H0 Ha] [H1 Ha1] Hs Ht Hk Hk'. pose proof (inv0_save o st1 H1) as H2. pose proof (saveQueue_rest o st1) as (Hm & Hs2 & Ht2 & _).
  destruct (saveQueue o st1) as [ok st2]. cbn [snd] in *. destruct ok.
  - eapply inv_core; [apply Hk|]. split; [done|]. unfold all_alive. by rewrite Hm.
  - eapply inv_core; [apply Hk'|]. split; [apply inv0_restore; [done|done|congruence|congruence]|by apply alive_restore].
Qed.

Lemma emit_core n t e r s : same_core s (emit n t e r s).
Proof. by repeat split. Qed.

Lemma queue_same_core_refl s : same_core s s.
Proof. by repeat split. Qed.

Lemma queue_same_core_trans s1 s2 s3 : same_core s1 s2 → same_core s2 s3 → same_core s1 s3.
Proof. intros (? & ? & ? & ?) (? & ? & ? & ?). repeat split; congruence. Qed.

Lemma fold_core {A} (f : State → A → State) l s : (∀ s a, same_core s (f s a)) → same_core s (foldl f s l).
Proof.
  intros Hf. revert s. induction l as [|a l IH]; intros s; [apply queue_same_core_refl|]. cbn [foldl].
  eapply queue_same_core_trans; [apply Hf|apply IH].
Qed.

Lemma archive_core n l r s : same_core s (archiveDroppedQueueEntries n l r s).
Proof. apply fold_core. intros. apply emit_core. Qed.

#[export] Hint Resolve emit_core queue_same_core_refl archive_core : hagency.

(** *** Removing an entry *)

Lemma remove_spec target e st : inv0 st →
  inv0 (removeQueueEntry target e st) ∧
  senders (removeQueueEntry target e st) = senders st ∧ typed (removeQueueEntry target e st) = typed st ∧ file (removeQueueEntry target e st) = file st ∧
  (∀ x, x ∈ entriesOf (queue (mem (removeQueueEntry target e st))) → x ∈ entriesOf (queue (mem st))) ∧
  ((∀ x, x ∈ entriesOf (queue (mem st)) → id x = id e → to x = target) →
   ∀ x, x ∈ entriesOf (queue (mem (removeQueueEntry target e st))) → id x ≠ id e).
Proof.
  intros H. pose proof (i_mem _ H) as [Hi Hk Hb]. unfold removeQueueEntry. cbv zeta.
  set (remove := fix remove (l : list Entry) : option (list Entry) := match l with [] => None | x :: l' => _ end).
  assert (Hrem : ∀ l, match remove l with None => ∀ x, x ∈ l → id x ≠ id e
                      | Some r => ∃ x l1 l2, l = l1 ++ x :: l2 ∧ r = l1 ++ l2 ∧ id x = id e end).
  { induction l as [|x l IH]; cbn; [intros x Hx; by apply elem_of_nil in Hx|]. fold remove. destruct (Z.eqb_spec (id x) (id e)) as [He|He].
    - by exists x, [], l.
    - destruct (remove l) as [r|]; cbn.
      + destruct IH as (y & l1 & l2 & -> & -> & Hy). by exists y, (x :: l1), l2.
      + intros y Hy. apply elem_of_cons in Hy as [->|Hy]; [done|by apply IH]. }
  assert (Hother : (∀ x, x ∈ entriesOf (queue (mem st)) → id x = id e → to x = target) →
    ∀ x, x ∈ entriesOf (om_del target (queue (mem st))) → id x ≠ id e).
  { intros Hto x Hx He. assert (Hx' := Hx). apply elem_of_entriesOf in Hx as (t & es & Hin & Hxe).
    unfold om_del in Hin. apply elem_of_filter_bool in Hin as [Hne Hin]. cbn [fst] in Hne.
    assert (to x = t) by by eapply Hb. assert (to x = target).
    { apply Hto; [|done]. apply elem_of_entriesOf. by exists t, es. }
    subst. by rewrite String.eqb_refl in Hne. }
  destruct (om_get target (queue (mem st))) as [es|] eqn:E.
  2:{ split_and!; try done. intros Hto x Hx. apply Hother; [done|]. by rewrite entriesOf_del_none. }
  pose proof (entriesOf_del target _ es Hk E) as Hp. specialize (Hrem es). destruct (remove es) as [r|].
  2:{ split_and!; try done. intros Hto x Hx. rewrite Hp in Hx. apply elem_of_app in Hx as [Hx|Hx]; [by apply Hrem|by apply Hother]. }
  destruct Hrem as (y & l1 & l2 & -> & -> & Hy).
  assert (Hnd : ∀ x, x ∈ l1 ++ l2 → id x ≠ id e).
  { intros x Hx Hxe. pose proof (io_nodup _ _ _ Hi) as Hn. rewrite Hp, <-Permutation_middle in Hn. cbn in Hn.
    apply NoDup_cons in Hn as [Hn _]. apply Hn. rewrite Hy, <-Hxe. apply list_elem_of_fmap_2. apply elem_of_app. by left. }
  assert (Hsub : ∀ x, x ∈ l1 ++ l2 → x ∈ entriesOf (queue (mem st))).
  { intros x Hx. rewrite Hp. apply elem_of_app. left. apply elem_of_app in Hx as [Hx|Hx]; apply elem_of_app; [by left|right; by right]. }
  destruct (l1 ++ l2) as [|z l] eqn:El.
  - split_and!; [by apply inv0_mapDelete|done|done|done| |].
    + intros x Hx. change (x ∈ entriesOf (om_del target (queue (mem st)))) in Hx. rewrite Hp. apply elem_of_app. by right.
    + intros Hto x Hx. apply Hother; [done|exact Hx].
  - destruct (mapSet_core target (z :: l) st) as (Hm & Hf & Hs & Ht). split_and!; [|done|done|done| |].
    + apply inv0_mapSet; [done|]. unfold bucket. rewrite E. cbn [default]. apply reduces_sub. rewrite <-El, <-Permutation_middle.
      by apply submseteq_cons.
    + intros x Hx. rewrite Hm in Hx. change (x ∈ entriesOf (om_set target (z :: l) (queue (mem st)))) in Hx.
      rewrite (entriesOf_set _ _ _ Hk) in Hx. apply elem_of_app in Hx as [Hx|Hx]; [by apply Hsub|]. rewrite Hp. apply elem_of_app. by right.
    + intros Hto x Hx. rewrite Hm in Hx. change (x ∈ entriesOf (om_set target (z :: l) (queue (mem st)))) in Hx.
      rewrite (entriesOf_set _ _ _ Hk) in Hx. apply elem_of_app in Hx as [Hx|Hx]; [by apply Hnd|by apply Hother].
Qed.

(** *** Claims, returns and ends of deliveries *)

Lemma unique_id keys c l x y : items_ok keys c l → x ∈ l → y ∈ l → id x = id y → x = y.
Proof.
  intros [_ Hn] Hx Hy He. apply list_elem_of_lookup in Hx as [i Hi], Hy as [j Hj].
  assert (i = j) as ->; [|congruence]. eapply (NoDup_lookup (id <$> l)); [done|by rewrite list_lookup_fmap, Hi|].
  by rewrite list_lookup_fmap, Hj, He.
Qed.

Lemma same_key_same_id keys c l K x y : items_ok keys c l → x ∈ l → y ∈ l → idempotencyKey x = Some K → idempotencyKey y = Some K → id x = id y.
Proof.
  intros [He _] Hx Hy HKx HKy. destruct (He x Hx) as [_ H1], (He y Hy) as [_ H2].
  destruct (H1 K HKx) as (_ & r1 & G1 & <-), (H2 K HKy) as (_ & r2 & G2 & <-). congruence.
Qed.

Lemma same_object_refl x : same_object x x = true.
Proof. unfold same_object. by rewrite Z.eqb_refl, Nat.eqb_refl. Qed.

Lemma le_delivering n x : le_entry x (markQueueEntryDelivering n x).
Proof. by split. Qed.

Lemma le_terminal state n x : le_entry x (markQueueEntryTerminal state n x).
Proof. by destruct state; split. Qed.

Lemma elem_of_mutated x e f st : x ∈ entriesOf (queue (mem (mutate e f st))) ↔ ∃ y, x = mutated e f y ∧ y ∈ entriesOf (queue (mem st)).
Proof.
  change (x ∈ entriesOf (mapEntries (mutated e f) (queue (mem st))) ↔ ∃ y, x = mutated e f y ∧ y ∈ entriesOf (queue (mem st))).
  by rewrite entriesOf_map, list_elem_of_fmap.
Qed.

Lemma alive_mark e n st : all_alive st → all_alive (mutate e (markQueueEntryDelivering n) st).
Proof.
  intros Ha x Hx. apply elem_of_mutated in Hx as (y & -> & Hy). unfold mutated. destruct (same_object y e); [by right|by apply Ha].
Qed.

(** What lets an entry be handed to tmux: its key was never used, and is held from now on. *)
Definition clear_to_send (x : Entry) (st : State) : Prop :=
  ∀ K, idempotencyKey x = Some K → hits K st = O ∧ gone K st.

Lemma claim_spec o n x st ok st' : inv st → x ∈ entriesOf (queue (mem st)) → deliveryState x = None →
  claimQueueEntryForDelivery o n x st = (ok, st') →
  inv st' ∧ senders st' = senders st ∧ typed st' = typed st ∧
  (ok = true → clear_to_send x st' ∧ ∀ man, sender_ok (mem st') (MkSender (markQueueEntryDelivering n x) (to x) man false)).
Proof.
  intros [H Ha] Hx Hst. unfold claimQueueEntryForDelivery. set (st1 := mutate x (markQueueEntryDelivering n) st).
  assert (H1 : inv0 st1) by (apply inv0_mutate; [apply le_delivering|done]).
  pose proof (i_mem _ H) as [Hi _ Hb]. destruct (saveQueue o st1) as [b st2] eqn:Es. destruct b; intros [= <- <-].
  2:{ pose proof (inv0_save o st1 H1) as H2. pose proof (saveQueue_rest o st1) as (_ & Hs2 & Ht2 & _). rewrite Es in *. cbn [snd] in *.
      split_and!; [|exact Hs2|exact Ht2|done]. split; [|by apply alive_restore]. eapply inv0_core; [apply emit_core|].
      by apply inv0_restore. }
  apply saveQueue_true in Es as ->. assert (H2 := inv0_write st1 H1).
  split_and!; [|done|done|]; [split; [by eapply inv0_core; [apply emit_core|]|exact (alive_mark x n st Ha)]|].
  intros _. split.
  - intros K HK.
    assert (Hheld : held K (idempotency (mem st)) (entriesOf (queue (mem st1)))).
    { destruct (io_entry _ _ _ Hi x Hx) as [_ Hek]. destruct (Hek K HK) as (Hv & r & Hr & _). split; [by split; [|eexists]|].
      intros y Hy HyK. apply elem_of_mutated in Hy as (z & -> & Hz).
      assert (HzK : idempotencyKey z = Some K) by (unfold mutated in HyK; by destruct (same_object z x)).
      assert (z = x) as ->.
      { apply (unique_id _ _ _ z x Hi Hz Hx). by apply (same_key_same_id _ _ _ K z x Hi). }
      unfold mutated. by rewrite same_object_refl. }
    split; [|split; exact Hheld]. destruct (decide (0 < hits K st)%nat) as [Hh|Hh]; [|unfold hits in *; cbn in *; lia].
    exfalso. destruct (i_gone _ H K Hh) as [[_ Hm] _]. by apply (Hm x Hx HK).
  - intros man. split_and!; [done| |].
    + destruct (io_entry _ _ _ Hi x Hx) as [Hc _]. exact Hc.
    + intros y Hy Hid. change (y ∈ entriesOf (queue (mem st1))) in Hy. apply elem_of_mutated in Hy as (z & -> & Hz).
      change (id (markQueueEntryDelivering n x)) with (id x) in Hid.
      assert (z = x) as ->.
      { apply (unique_id _ _ _ z x Hi Hz Hx). unfold mutated in Hid. by destruct (same_object z x). }
      unfold mutated. by rewrite same_object_refl.
Qed.

Lemma hits_cons_sender K s st : hits K (st <| senders := senders st ++ [s] |>) =
  (hits K st + if negb (s_typed s) && has_key K (s_entry s) then 1 else 0)%nat.
Proof.
  unfold hits. cbn [typed senders over]. rewrite List.filter_app, length_app. cbn [List.filter].
  destruct (negb (s_typed s) && has_key K (s_entry s)); cbn; lia.
Qed.

Lemma has_key_spec K x : has_key K x = true ↔ idempotencyKey x = Some K.
Proof.
  unfold has_key. destruct (idempotencyKey x) as [k|]; [|done]. destruct (String.eqb_spec k K) as [->|Hne]; [done|].
  split; [done|by intros [= ->]].
Qed.

Lemma inv_push_sender x t man st : inv st → clear_to_send x st → sender_ok (mem st) (MkSender x t man false) →
  inv (st <| senders := senders st ++ [MkSender x t man false] |>).
Proof.
  intros [[Hm Hf Hs Hh Hg] Ha] Hc Hok. split; [|exact Ha]. split; [done|done| | |].
  - intros s Hin. apply elem_of_app in Hin as [Hin|Hin]; [by apply Hs|]. apply list_elem_of_singleton in Hin as ->. exact Hok.
  - intros K. rewrite hits_cons_sender. cbn [s_typed s_entry negb andb]. destruct (has_key K x) eqn:E; [|specialize (Hh K); lia].
    apply has_key_spec in E. destruct (Hc K E) as [-> _]. lia.
  - intros K. rewrite hits_cons_sender. cbn [s_typed s_entry negb andb]. intros HK. destruct (has_key K x) eqn:E.
    + apply has_key_spec in E. exact (proj2 (Hc K E)).
    + apply (Hg K). lia.
Qed.

Lemma inv_requeue o n s reason st : inv st → sender_ok (mem st) s →
  (∀ K, idempotencyKey (s_entry s) = Some K → hits K st = O) →
  inv (persistQueueEntryQueued o n (s_entry s) reason st).
Proof.
  intros [H Ha] (_ & _ & Hsame) Hhits. unfold persistQueueEntryQueued. set (x := s_entry s) in *.
  set (st1 := mutate x resetQueueEntryDeliveryState st).
  assert (H1 : inv st1).
  { destruct H as [[[He Hn] Hk Hb] Hf Hs Hh Hg].
    assert (Hids : id <$> entriesOf (queue (mem st1)) = id <$> entriesOf (queue (mem st))).
    { change (entriesOf (queue (mem st1))) with (entriesOf (mapEntries (mutated x resetQueueEntryDeliveryState) (queue (mem st)))).
      rewrite entriesOf_map, <-list_fmap_compose. apply list_fmap_ext. intros i y _. unfold mutated; cbn. by destruct (same_object y x). }
    split; [split|].
    - split; [split; [|by rewrite Hids]| |].
      + intros y Hy. apply elem_of_mutated in Hy as (z & -> & Hz). unfold mutated. destruct (same_object z x); exact (He z Hz).
      + change (NoDup (om_keys (mapEntries (mutated x resetQueueEntryDeliveryState) (queue (mem st))))). by rewrite om_keys_mapEntries.
      + apply bucket_ok_map; [|done]. intros y. unfold mutated. by destruct (same_object y x).
    - done.
    - intros s' Hs'. destruct (Hs s' Hs') as (G1 & G2 & G3). split_and!; [done|exact G2|]. intros y Hy Hid.
      apply elem_of_mutated in Hy as (z & -> & Hz). unfold mutated in *. destruct (same_object z x); exact (G3 z Hz Hid).
    - exact Hh.
    - intros K HK. change (hits K st1) with (hits K st) in HK. destruct (Hg K HK) as [[G1 G2] G3]. split; [|exact G3]. split; [exact G1|].
      intros y Hy HyK. apply elem_of_mutated in Hy as (z & -> & Hz). unfold mutated in *. destruct (same_object z x) eqn:E; [|by apply (G2 z)].
      exfalso. unfold same_object in E. apply andb_true_iff in E as [E%Z.eqb_eq _].
      destruct (Hsame z Hz E) as [Hkey _]. change (idempotencyKey z = Some K) in HyK. rewrite Hkey in HyK.
      specialize (Hhits K HyK). lia.
    - intros y Hy. apply elem_of_mutated in Hy as (z & -> & Hz). unfold mutated. destruct (same_object z x); [by left|by apply Ha]. }
  pose proof (inv0_save o st1 (proj1 H1)) as H2. pose proof (saveQueue_rest o st1) as (Hm & _). destruct (saveQueue o st1) as [ok st2]. cbn [snd] in *.
  assert (inv st2) by (split; [done|]; unfold all_alive; rewrite Hm; apply H1).
  destruct ok; [done|]. eapply inv_core; [apply emit_core|done].
Qed.

Lemma inv_finalize o1 o2 n x t state reason st : inv st → (∀ y, y ∈ entriesOf (queue (mem st)) → id y = id x → to y = t) →
  let st' := (finalizeQueueEntryAfterSideEffect o1 o2 n x t state reason st).2 in
  inv st' ∧ senders st' = senders st ∧ typed st' = typed st.
Proof.
  intros [H Ha] Ht. unfold finalizeQueueEntryAfterSideEffect. set (st1 := mutate x (markQueueEntryTerminal state n) st).
  assert (H1 : inv0 st1) by (apply inv0_mutate; [apply le_terminal|done]). pose proof (inv0_save o1 st1 H1) as H2.
  pose proof (saveQueue_rest o1 st1) as (Hm2 & Hs2 & Ht2 & _). destruct (saveQueue o1 st1) as [ok st2]. cbn [snd] in *. destruct ok.
  2:{ split_and!; [|exact Hs2|exact Ht2]. split; [|by apply alive_restore]. eapply inv0_core; [apply emit_core|]. by apply inv0_restore. }
  destruct (remove_spec t (markQueueEntryTerminal state n x) st2 H2) as (H3 & Hs3 & Ht3 & _ & Hsub & Hgone).
  set (st3 := removeQueueEntry t (markQueueEntryTerminal state n x) st2) in *.
  assert (Hidx : id (markQueueEntryTerminal state n x) = id x) by by destruct state.
  assert (Ha3 : all_alive st3).
  { intros y Hy. assert (Hne : id y ≠ id x).
    { rewrite <-Hidx. apply Hgone; [|exact Hy]. intros z Hz Hid. rewrite Hm2 in Hz. apply elem_of_mutated in Hz as (w & -> & Hw).
      rewrite Hidx in Hid. assert (Hi : id (mutated x (markQueueEntryTerminal state n) w) = id w) by (unfold mutated; destruct (same_object w x); by destruct state).
      assert (Hto : to (mutated x (markQueueEntryTerminal state n) w) = to w) by (unfold mutated; destruct (same_object w x); by destruct state).
      rewrite Hto. apply Ht; [done|]. by rewrite <-Hi. }
    apply Hsub in Hy. rewrite Hm2 in Hy. apply elem_of_mutated in Hy as (w & -> & Hw). unfold mutated in *.
    destruct (same_object w x) eqn:E; [|by apply Ha]. exfalso. unfold same_object in E. apply andb_true_iff in E as [E%Z.eqb_eq _].
    apply Hne. rewrite <-E. by destruct state. }
  pose proof (inv0_save o2 st3 H3) as H4. pose proof (saveQueue_rest o2 st3) as (Hm4 & Hs4 & Ht4 & _).
  destruct (saveQueue o2 st3) as [ok2 st4]. cbn [snd] in *.
  assert (inv st4) by (split; [done|]; unfold all_alive; by rewrite Hm4).
  destruct ok2; (split_and!; [|etrans; [|exact Hs2]|etrans; [|exact Ht2]]); [done|congruence|congruence|by eapply inv_core; [apply emit_core|]|..];
    cbn [senders typed emit appendQueuePersistFailedEvent over]; congruence.
Qed.

(** ** The operations *)

Lemma inv_saved o st st1 ok st2 : inv st → inv st1 → senders st1 = senders st → typed st1 = typed st → saveQueue o st1 = (ok, st2) →
  inv st2 ∧ inv (restoreQueueState (mem st) st2) ∧ senders st2 = senders st ∧ typed st2 = typed st.
Proof.
  intros [H0 Ha] [H1 Ha1] Hs Ht E. pose proof (inv0_save o st1 H1) as H2. pose proof (saveQueue_rest o st1) as (Hm & Hs2 & Ht2 & _).
  rewrite E in *. cbn [snd] in *. split_and!; [|split; [|by apply alive_restore]|congruence|congruence].
  - split; [done|]. unfold all_alive. by rewrite Hm.
  - apply inv0_restore; congruence.
Qed.

(** Adding a new message. *)
Definition addEntry (x : Entry) (kept : list Entry) (keys : omap Receipt) (m : Mem) : Mem :=
  MkMem (id x) (om_set (to x) (kept ++ [x]) (queue m)) keys.

Lemma inv_add st x kept keys : inv st → id x = idCounter (mem st) + 1 → deliveryState x = None → kept ⊆+ bucket (to x) st →
  (∀ K, om_get K (idempotency (mem st)) = None → idempotencyKey x = Some K →
     valid_key K ∧ ∃ r, om_get K keys = Some r ∧ r_id r = id x) →
  (∀ K r, om_get K (idempotency (mem st)) = Some r → om_get K keys = Some r ∧ idempotencyKey x ≠ Some K) →
  inv (setMem (addEntry x kept keys (mem st)) st).
Proof.
  intros [[[[He Hn] Hk Hb] Hf Hs Hh Hg] Ha] Hid Hst Hkept Hnew Hold.
  assert (Hp : entriesOf (queue (addEntry x kept keys (mem st))) ≡ₚ x :: kept ++ entriesOf (om_del (to x) (queue (mem st)))).
  { change (entriesOf (om_set (to x) (kept ++ [x]) (queue (mem st))) ≡ₚ x :: kept ++ entriesOf (om_del (to x) (queue (mem st)))).
    rewrite entriesOf_set by done. rewrite <-(assoc_L (++)). cbn [app]. by rewrite <-Permutation_middle. }
  assert (Hsub : kept ++ entriesOf (om_del (to x) (queue (mem st))) ⊆+ entriesOf (queue (mem st))).
  { rewrite (entriesOf_bucket (to x) (queue (mem st)) Hk). by apply submseteq_app. }
  assert (Hin : ∀ y, y ∈ entriesOf (queue (addEntry x kept keys (mem st))) → y = x ∨ y ∈ entriesOf (queue (mem st))).
  { intros y Hy. rewrite Hp in Hy. apply elem_of_cons in Hy as [->|Hy]; [by left|right]. by eapply elem_of_submseteq. }
  assert (Hfresh : ∀ y, y ∈ entriesOf (queue (mem st)) → id y < id x) by (intros y Hy; destruct (He y Hy) as [? _]; lia).
  split; [split|].
  - split; [split| |].
    + intros y Hy. change (mem (setMem ?m st)) with m in *. destruct (Hin y Hy) as [->|Hy'].
      * split; [done|]. intros K HK. destruct (om_get K (idempotency (mem st))) as [r|] eqn:E; [by destruct (Hold K r E)|]. by apply Hnew.
      * destruct (He y Hy') as [Hc Hkey]. split; [specialize (Hfresh y Hy'); cbn; lia|]. intros K HK.
        destruct (Hkey K HK) as (? & r & Hr & ?). split; [done|]. exists r. split; [by apply Hold|done].
    + change (mem (setMem ?m st)) with m. rewrite Hp. cbn. apply NoDup_cons. split.
      * intros Hx. apply list_elem_of_fmap in Hx as (y & Hy & Hyin). assert (id y < id x) by (apply Hfresh; by eapply elem_of_submseteq). lia.
      * apply (fmap_submseteq id) in Hsub. apply submseteq_Permutation in Hsub as [k Hk']. rewrite Hk' in Hn. by apply NoDup_app in Hn as [? _].
    + by apply om_nodup_set.
    + apply bucket_ok_set; [done|]. intros y Hy. apply elem_of_app in Hy as [Hy|Hy]; [|by apply list_elem_of_singleton in Hy as ->].
      assert (Hy' : y ∈ bucket (to x) st) by by eapply elem_of_submseteq. unfold bucket in Hy'.
      destruct (om_get (to x) (queue (mem st))) as [l|] eqn:E; [by eapply bucket_get|by apply elem_of_nil in Hy'].
  - done.
  - intros s Hs'. destruct (Hs s Hs') as (H1 & H2 & H3). split_and!; [done|change (id (s_entry s) ≤ id x); lia|]. intros y Hy Hyid.
    destruct (Hin y Hy) as [->|Hy']; [lia|by apply H3].
  - exact Hh.
  - intros K HK. destruct (Hg K HK) as [[[Hv [r Hr]] H2] H3]. split; [|done]. destruct (Hold K r Hr) as [Hr' Hne]. split; [split; [done|by exists r]|].
    intros y Hy HyK. destruct (Hin y Hy) as [->|Hy']; [done|by apply (H2 y)].
  - intros y Hy. destruct (Hin y Hy) as [->|Hy']; [by left|by apply Ha].
Qed.

Lemma filter_submseteq {A} (p : A → bool) l : List.filter p l ⊆+ l.
Proof.
  apply sublist_submseteq. induction l as [|y l IH]; [done|]. cbn [List.filter]. destruct (p y); by constructor.
Qed.

Lemma inv_mapSet t es st : inv st → es ⊆+ bucket t st → inv (mapSet t es st).
Proof.
  intros [H Ha] Hes. split; [apply inv0_mapSet; [done|by apply reduces_sub]|]. intros x Hx.
  destruct (mapSet_core t es st) as (Hm & _). rewrite Hm in Hx. pose proof (mo_keys _ (i_mem _ H)) as Hk. apply Ha.
  change (x ∈ entriesOf (om_set t es (queue (mem st)))) in Hx. rewrite (entriesOf_set _ _ _ Hk) in Hx.
  rewrite (entriesOf_bucket t) by done. apply elem_of_app in Hx as [Hx|Hx]; apply elem_of_app; [left; by eapply elem_of_submseteq|by right].
Qed.

Lemma inv_mapDelete t st : inv st → inv (mapDelete t st).
Proof.
  intros [H Ha]. split; [by apply inv0_mapDelete|]. intros x Hx. apply Ha. pose proof (mo_keys _ (i_mem _ H)) as Hk.
  change (x ∈ entriesOf (om_del t (queue (mem st)))) in Hx. rewrite (entriesOf_bucket t) by done. apply elem_of_app. by right.
Qed.

(** Replacing a bucket by a part of it. *)
Definition setOrDelete (t : string) (kept : list Entry) (st : State) : State :=
  if (length kept =? 0)%nat then mapDelete t st else mapSet t kept st.

Lemma inv_setOrDelete t kept st : inv st → kept ⊆+ bucket t st → inv (setOrDelete t kept st).
Proof. intros. unfold setOrDelete. destruct (_ =? _)%nat; [by apply inv_mapDelete|by apply inv_mapSet]. Qed.

Lemma setOrDelete_rest t kept st : senders (setOrDelete t kept st) = senders st ∧ typed (setOrDelete t kept st) = typed st.
Proof. unfold setOrDelete. destruct (_ =? _)%nat; [by split|]. destruct (mapSet_core t kept st) as (_ & _ & H1 & H2). by split. Qed.

Lemma setOrDelete_other t kept st t' : t ≠ t' → om_get t' (queue (mem (setOrDelete t kept st))) = om_get t' (queue (mem st)).
Proof.
  intros Hne. unfold setOrDelete. destruct (_ =? _)%nat; [by apply om_get_del_ne|]. destruct (mapSet_core t kept st) as (-> & _).
  by apply om_get_set_ne.
Qed.

Section operations.
Context (num_str : num → string) (str_num : string → num) (IDLE_THRESHOLD : Z) (LIMIT : nat).
Abbreviation enqueueFromRequestBody := (enqueueFromRequestBody num_str).
Abbreviation isStale := (isStaleNotificationBySnapshot num_str str_num).

Lemma inv_enqueue e body key st : (String.length key ≤ 255)%nat → inv st → inv (enqueueFromRequestBody e body key st).2.
Proof.
  intros Hlen H. unfold DeliveryQueue.enqueueFromRequestBody. destruct (negb _); [done|].
  destruct (if truthy key then om_get key (idempotency (mem st)) else None) as [r|] eqn:Hnone; [done|]. cbv zeta.
  set (x := accepted num_str e body key st). set (kept := if isBackendNotificationEntry x then _ else _).
  set (receipt := MkReceipt _ _ _ _). set (keys := if truthy key then om_set key receipt (idempotency (mem st)) else idempotency (mem st)).
  match goal with |- context [saveQueue ?o ?s] => set (st1 := s) end.
  assert (Hx : idempotencyKey x = if truthy key then Some key else None) by done.
  assert (H1 : inv (setMem (addEntry x kept keys (mem st)) st)).
  { apply inv_add; [done|done|done| | |].
    - unfold kept. destruct (isBackendNotificationEntry x); [|done]. apply filter_submseteq.
    - intros K HK. rewrite Hx. unfold keys. destruct (truthy key) eqn:E; [|done]. intros [= <-]. split; [by split|].
      exists receipt. by rewrite om_get_set_eq.
    - intros K r HK. unfold keys. rewrite Hx. destruct (truthy key) eqn:E; [|done].
      assert (key ≠ K) by congruence. rewrite om_get_set_ne by done. split; congruence. }
  assert (Hcore : same_core (setMem (addEntry x kept keys (mem st)) st) st1).
  { unfold st1. destruct (mapSet_core (to x) (kept ++ [x]) (st <| mem := (mem st) <| idCounter := id x |> <| idempotency := keys |> |>)) as (A & B & C & D).
    split_and!; [rewrite A|rewrite B|rewrite C|rewrite D]; done. }
  apply (inv_core _ _ Hcore) in H1. destruct Hcore as (_ & _ & Hs & Ht). destruct (saveQueue (save1 e) st1) as [ok st2] eqn:Es.
  destruct (inv_saved _ st st1 ok st2 H H1 Hs Ht Es) as (H2 & H3 & _). destruct ok; cbn [snd].
  - eapply inv_core; [|exact H2]. eapply queue_same_core_trans; [|apply fold_core; intros; apply emit_core]. apply emit_core.
  - eapply inv_core; [apply emit_core|done].
Qed.

Lemma inv_drop e agent source reason st : inv st → inv (dropQueuedBackendNotificationsBySource e agent source reason st).2.
Proof.
  intros H. unfold dropQueuedBackendNotificationsBySource. destruct (negb _); [done|]. cbv zeta.
  set (a := trim agent). set (src := default EmptyString (trim <$> source)).
  assert (Hfold : ∀ l acc, inv acc.2 → senders acc.2 = senders st → typed acc.2 = typed st → NoDup (om_keys l) →
    (∀ t es, (t, es) ∈ l → om_get t (queue (mem acc.2)) = Some es) →
    let r := foldl (λ acc p, dropMatching a src p acc) acc l in inv r.2 ∧ senders r.2 = senders st ∧ typed r.2 = typed st).
  { induction l as [|[t es] l IH]; intros [g s] Hs Hse Hty Hnd Hget; cbn [foldl]; [done|]. cbn [snd] in *.
    apply NoDup_cons in Hnd as [Hnotin Hnd]. set (kept := List.filter (λ x, negb (notificationMatches src x)) es).
    assert (Hstep : dropMatching a src (t, es) (g, s) =
      if match targetSessionName t with Some s => negb (String.eqb s a) | None => true end then (g, s)
      else (g ++ List.filter (notificationMatches src) es, setOrDelete t kept s)) by done.
    rewrite Hstep. destruct (match targetSessionName t with Some s => negb (String.eqb s a) | None => true end).
    { apply IH; try done. intros t' es' Hin. apply Hget. by right. }
    destruct (setOrDelete_rest t kept s) as [R1 R2]. apply IH; cbn [snd]; [|congruence|congruence|done|].
    - apply inv_setOrDelete; [done|]. unfold bucket. rewrite (Hget t es) by by left. apply filter_submseteq.
    - intros t' es' Hin. rewrite setOrDelete_other; [apply Hget; by right|]. intros ->. apply Hnotin. apply list_elem_of_fmap. by exists (t', es'). }
  pose proof (mo_keys _ (i_mem _ (proj1 H))) as Hk. destruct (Hfold (queue (mem st)) ([], st)) as (H1 & Hs & Ht); try done.
  { intros t es Hin. by apply elem_of_om_get. }
  destruct (foldl _ _ _) as [gone st1]. cbn [snd] in *. destruct gone as [|g gone]; [done|].
  destruct (saveQueue (save1 e) st1) as [ok st2] eqn:Es. destruct (inv_saved _ st st1 ok st2 H H1 Hs Ht Es) as (H2 & H3 & _).
  destruct ok; cbn [snd]; [eapply inv_core; [|exact H2]; apply fold_core; intros; apply emit_core|eapply inv_core; [apply emit_core|done]].
Qed.

Lemma findEntry_spec n q t x : findEntry n q = Some (t, x) → ∃ es, (t, es) ∈ q ∧ x ∈ es ∧ id x = n.
Proof.
  unfold findEntry. intros Hh. assert (Hin : (t, x) ∈ List.flat_map (λ p : string * list Entry,
    match List.filter (λ x, id x =? n) p.2 with x :: _ => [(p.1, x)] | [] => [] end) q) by (destruct (List.flat_map _ q); [done|injection Hh as ->; left]).
  clear Hh. apply list_elem_of_In, in_flat_map in Hin as ([k es] & Hk%list_elem_of_In & Hx). cbn [fst snd] in Hx.
  destruct (List.filter _ es) as [|y l] eqn:F; [done|]. destruct Hx as [[= <- <-]|[]]. exists es.
  assert (Hy : y ∈ List.filter (λ x, id x =? n) es) by (rewrite F; left). apply elem_of_filter_bool in Hy as [He Hy].
  split_and!; [done|done|lia].
Qed.

Lemma found_entry n st t x : inv st → findEntry n (queue (mem st)) = Some (t, x) → x ∈ entriesOf (queue (mem st)) ∧ to x = t.
Proof.
  intros [H _] Hf. destruct (findEntry_spec _ _ _ _ Hf) as (es & Hin & Hx & _). split; [apply elem_of_entriesOf; by exists t, es|].
  by apply (mo_bucket _ (i_mem _ H) t es).
Qed.

Lemma inv_delete e n st : inv st → inv (deleteQueued e n st).2.
Proof.
  intros H. unfold deleteQueued. destruct n as [n|]; [|done]. destruct (findEntry n (queue (mem st))) as [[t x]|] eqn:F; [|done].
  destruct (deliveryState x) eqn:Hd; [done|]. destruct (remove_spec t x st (proj1 H)) as (H1 & Hs & Ht & _ & Hsub & _).
  assert (H1' : inv (removeQueueEntry t x st)) by (split; [done|intros y Hy; apply H, Hsub, Hy]).
  destruct (saveQueue (save1 e) _) as [ok st2] eqn:Es. destruct (inv_saved _ _ _ _ _ H H1' Hs Ht Es) as (H2 & H3 & _).
  destruct ok; cbn [snd]; (eapply inv_core; [apply emit_core|done]).
Qed.

Lemma inv_send e man x t stale st n0 : inv st → n0 = now e → clear_to_send x st → to x = t →
  sender_ok (mem st) (MkSender (markQueueEntryDelivering n0 x) (to x) man false) → inv (send e man x t stale st).2.
Proof.
  intros H -> Hc <- Hok. unfold send. set (x' := markQueueEntryDelivering (now e) x). destruct stale.
  - assert (Hto : ∀ y, y ∈ entriesOf (queue (mem st)) → id y = id x' → to y = to x).
    { intros y Hy Hid. destruct Hok as (_ & _ & H3). by destruct (H3 y Hy Hid). }
    destruct (inv_finalize (save2 e) (save3 e) (now e) x' (to x) dropped "queue-stale-drop-save-failed" st H Hto) as (H1 & _).
    destruct (finalizeQueueEntryAfterSideEffect _ _ _ _ _ _ _ _) as [ok st1]. cbn [snd] in *. destruct ok; cbn [snd].
    + eapply inv_core; [|exact H1]. eapply queue_same_core_trans; [apply archive_core|]. by repeat split.
    + eapply inv_core; [|exact H1]. by repeat split.
  - cbn [snd]. by apply inv_push_sender.
Qed.

Lemma inv_lock t st : inv st → inv (lock t st).
Proof. apply inv_core. by repeat split. Qed.

Lemma inv_unlock t st : inv st → inv (unlock t st).
Proof. apply inv_core. by repeat split. Qed.

Lemma inv_sendNow e n st : inv st → inv (sendNow num_str str_num e n st).2.
Proof.
  intros H. unfold sendNow. destruct n as [n|]; [|done]. destruct (findEntry n (queue (mem st))) as [[t x]|] eqn:F; [|done].
  destruct (found_entry _ _ _ _ H F) as [Hx Hto]. destruct (_ || _) eqn:Hb; [done|]. apply orb_false_iff in Hb as [Hd _].
  assert (Hl : inv (lock t st)) by (by apply inv_lock).
  destruct (claimQueueEntryForDelivery _ _ _ _) as [ok st1] eqn:Hc. destruct (deliveryState x) eqn:Hst; [done|].
  destruct (claim_spec _ _ x (lock t st) ok st1 Hl Hx Hst Hc) as (H1 & _ & _ & Hok). destruct ok.
  - destruct (Hok eq_refl) as [H2 H3]. by eapply inv_send.
  - eapply inv_core; [|exact H1]. by repeat split.
Qed.

(** *** Calls of tmux *)

Definition untyped (K : string) (l : list Sender) : nat := length (List.filter (λ s, negb (s_typed s) && has_key K (s_entry s)) l).

Lemma untyped_app K l1 l2 : untyped K (l1 ++ l2) = (untyped K l1 + untyped K l2)%nat.
Proof. unfold untyped. by rewrite List.filter_app, length_app. Qed.

Lemma untyped_split K l i s s' : l !! i = Some s →
  untyped K l = (untyped K [s] + untyped K (delete i l))%nat ∧ untyped K (<[i:=s']> l) = (untyped K [s'] + untyped K (delete i l))%nat.
Proof.
  intros Hi. assert (Hlt : (i < length l)%nat) by by eapply lookup_lt_Some.
  rewrite <-(take_drop_middle l i s Hi) at 1. rewrite insert_take_drop, delete_take_drop by done.
  rewrite !untyped_app. change (s :: drop (S i) l) with ([s] ++ drop (S i) l). change (s' :: drop (S i) l) with ([s'] ++ drop (S i) l).
  rewrite !untyped_app. lia.
Qed.

Lemma elem_of_delete_list {A} i (l : list A) x : x ∈ delete i l → x ∈ l.
Proof.
  rewrite delete_take_drop. rewrite <-(take_drop i l) at 3. intros [Hx|Hx]%elem_of_app; apply elem_of_app; [by left|right].
  apply list_elem_of_lookup in Hx as [j Hj]. apply list_elem_of_lookup. exists (S j). rewrite lookup_drop in *. by rewrite Nat.add_succ_r.
Qed.

Lemma inv_drop_sender i s st : inv st → senders st !! i = Some s → inv (st <| senders := delete i (senders st) |>).
Proof.
  intros [[Hm Hf Hs Hh Hg] Ha] Hi.
  assert (Hle : ∀ K, (hits K (st <| senders := delete i (senders st) |>) ≤ hits K st)%nat).
  { intros K. unfold hits. cbn [typed senders over]. destruct (untyped_split K (senders st) i s s Hi) as [He _]. unfold untyped in He. lia. }
  split; [|done]. split; [done|done| | |].
  - intros s' Hs'. exact (Hs s' (elem_of_delete_list i _ _ Hs')).
  - intros K. specialize (Hle K). specialize (Hh K). lia.
  - intros K HK. apply (Hg K). specialize (Hle K). lia.
Qed.

Lemma inv_type_sender i s st : inv st → senders st !! i = Some s → s_typed s = false →
  inv (st <| senders := <[i := MkSender (s_entry s) (s_target s) (s_manual s) true]> (senders st) |> <| typed := s_entry s :: typed st |>).
Proof.
  intros [[Hm Hf Hs Hh Hg] Ha] Hi Hu. set (s' := MkSender _ _ _ true). set (st' := _ <| typed := _ |>).
  assert (He : ∀ K, hits K st' = hits K st).
  { intros K. unfold hits. cbn [st' typed senders over]. destruct (untyped_split K (senders st) i s s' Hi) as [E1 E2]. unfold untyped in E1, E2.
    cbn [List.filter]. rewrite E1, E2. cbn [List.filter s' s_typed s_entry negb andb]. rewrite Hu. cbn [negb andb]. destruct (has_key K (s_entry s)); cbn; lia. }
  split; [|done]. split; [done|done| | |].
  - intros x Hx. change (x ∈ <[i:=s']> (senders st)) in Hx. rewrite insert_take_drop in Hx by by eapply lookup_lt_Some.
    assert (Hx' : x = s' ∨ x ∈ senders st).
    { rewrite <-Permutation_middle in Hx. apply elem_of_cons in Hx as [->|Hx]; [by left|right]. rewrite <-delete_take_drop in Hx.
      by apply elem_of_delete_list in Hx. }
    destruct Hx' as [->|Hx']; [|by apply Hs]. exact (Hs s (list_elem_of_lookup_2 _ _ _ Hi)).
  - intros K. rewrite He. apply Hh.
  - intros K. rewrite He. apply Hg.
Qed.

Lemma inv_settle e s r st : inv st → sender_ok (mem st) s →
  (r = PayloadFailed → ∀ K, idempotencyKey (s_entry s) = Some K → hits K st = O) → inv (settle e s r st).
Proof.
  intros H Hok Hr.
  assert (Hto : ∀ y, y ∈ entriesOf (queue (mem st)) → id y = id (s_entry s) → to y = s_target s).
  { intros y Hy Hid. destruct Hok as (-> & _ & H3). by destruct (H3 y Hy Hid). }
  assert (Hrel : ∀ st', inv st' → inv ((if s_manual s then unlock (s_target s) else unlockLater (s_target s)) st')).
  { intros st' H'. destruct (s_manual s); [by apply inv_unlock|]. eapply inv_core; [|exact H']. by repeat split. }
  destruct r; cbn [settle].
  - apply Hrel. apply inv_requeue; auto.
  - pose proof (inv_finalize (save1 e) (save2 e) (now e) (s_entry s) (s_target s) partial "queue-partial-save-failed" st H Hto) as (H1 & _).
    destruct (finalizeQueueEntryAfterSideEffect _ _ _ _ _ _ _ _) as [ok st1]. cbn [snd] in H1. destruct ok; [|by apply inv_unlock].
    apply Hrel. eapply inv_core; [apply archive_core|done].
  - apply Hrel. apply inv_finalize; done.
Qed.

Lemma inv_payload e i ok st : inv st → inv (payloadSent e i ok st).
Proof.
  intros H. unfold payloadSent. destruct (senders st !! i) as [s|] eqn:Hi; [|done]. destruct (s_typed s) eqn:Hu; [done|].
  destruct ok; [by apply inv_type_sender|]. pose proof (inv_drop_sender i s st H Hi) as H1.
  apply inv_settle; [eapply inv_core; [apply emit_core|done]| |].
  - exact (i_senders _ (proj1 H) s (list_elem_of_lookup_2 _ _ _ Hi)).
  - intros _ K HK. pose proof (i_hits _ (proj1 H) K) as Hh. apply has_key_spec in HK. unfold hits in *.
    destruct (untyped_split K (senders st) i s s Hi) as [E _]. unfold untyped in E. cbn [List.filter] in E. rewrite Hu, HK in E.
    cbn [negb andb length] in E. cbn [emit typed senders over]. lia.
Qed.

Lemma inv_enter e i ok st : inv st → inv (enterSent e i ok st).
Proof.
  intros H. unfold enterSent. destruct (senders st !! i) as [s|] eqn:Hi; [|done]. destruct (negb (s_typed s)); [done|].
  pose proof (inv_drop_sender i s st H Hi) as H1.
  destruct ok; (apply inv_settle; [eapply inv_core; [apply emit_core|done]|exact (i_senders _ (proj1 H) s (list_elem_of_lookup_2 _ _ _ Hi))|done]).
Qed.

(** *** The poll loop *)

Lemma inv_dropFrom e o t kept gone r1 r2 st : inv st → kept ⊆+ bucket t st → inv (dropFrom e o t kept gone r1 r2 st).2.
Proof.
  intros H Hk. unfold dropFrom. change (if (length kept =? 0)%nat then mapDelete t st else mapSet t kept st) with (setOrDelete t kept st).
  destruct (setOrDelete_rest t kept st) as [Hs Ht]. destruct (saveQueue o _) as [ok st1] eqn:Es.
  destruct (inv_saved o st (setOrDelete t kept st) ok st1 H (inv_setOrDelete t kept st H Hk) Hs Ht Es) as (H1 & H2 & _).
  destruct ok; cbn [snd]; [eapply inv_core; [apply archive_core|exact H1]|eapply inv_core; [apply emit_core|exact H2]].
Qed.

Lemma dropFrom_bucket e o t kept gone r1 r2 st st' : dropFrom e o t kept gone r1 r2 st = (true, st') → kept ≠ [] →
  om_get t (queue (mem st')) = Some kept.
Proof.
  unfold dropFrom. intros Hd Hne. destruct (length kept =? 0)%nat eqn:E; [by destruct kept|].
  destruct (saveQueue o _) as [ok st1] eqn:Es. destruct ok; [|done]. injection Hd as <-. apply saveQueue_true in Es.
  destruct (archive_core (now e) gone r2 st1) as (-> & _). subst st1.
  change (om_get t (queue (mem (mapSet t kept st))) = Some kept). destruct (mapSet_core t kept st) as (-> & _). apply om_get_set_eq.
Qed.

Lemma bucket_entry t x st : inv st → x ∈ bucket t st → x ∈ entriesOf (queue (mem st)) ∧ to x = t.
Proof.
  intros [H _] Hx. unfold bucket in Hx. destruct (om_get t (queue (mem st))) as [es|] eqn:E; [|by apply elem_of_nil in Hx].
  split; [apply elem_of_entriesOf; exists t, es; split; [by apply om_get_elem_of|done]|].
  eapply bucket_get; [apply (mo_bucket _ (i_mem _ H))|done|done].
Qed.

Abbreviation deliverFirst := (deliverFirst num_str str_num IDLE_THRESHOLD).
Abbreviation visit := (visit num_str str_num IDLE_THRESHOLD).

Lemma inv_deliverFirst e o snap t es st : inv st → bucket t st = es → inv (deliverFirst e o snap t es st).
Proof.
  intros H Hb. unfold DeliveryQueue.deliverFirst. destruct es as [|x es]; [done|].
  assert (Hx : x ∈ bucket t st) by (rewrite Hb; left). destruct (bucket_entry _ _ _ H Hx) as [Hin Hto].
  assert (Hmissing : inv (dropForMissingPane e (save1 e) t (x :: es) st)).
  { unfold dropForMissingPane. destruct (_ <? _); [|done]. cbv zeta. destruct (_ =? _)%nat; [done|]. apply inv_dropFrom; [done|].
    rewrite Hb. apply filter_submseteq. }
  assert (Hgate : inv (let st := lock t st in match deliveryState x with
    | Some delivering => unlock t st
    | _ => let '(ok, st1) := claimQueueEntryForDelivery (save1 e) (now e) x st in
           if negb ok then unlock t st1 else
           let stale := if to_bool snap && isBackendNotificationEntry x then isStale x snap else isStaleNotificationEntry num_str str_num e x in
           (send e false x t stale st1).2
    end)).
  { cbv zeta. pose proof (inv_lock t st H) as Hl. destruct (proj2 H x Hin) as [Hd|Hd]; rewrite Hd; [|by apply inv_unlock].
    destruct (claimQueueEntryForDelivery _ _ _ _) as [ok st1] eqn:Hc.
    destruct (claim_spec _ _ x (lock t st) ok st1 Hl Hin Hd Hc) as (H1 & _ & _ & Hok). destruct ok; cbn [negb]; [|by apply inv_unlock].
    destruct (Hok eq_refl) as [H2 H3]. by eapply inv_send. }
  destruct (PaneWatch.state o); try done; (match goal with |- inv (if ?b then _ else _) => destruct b end; [exact H|exact Hgate]).
Qed.

Lemma inv_visit e o0 o st : inv st → inv (visit e o0 o st).
Proof.
  intros H. unfold DeliveryQueue.visit. destruct (tick st) as [[|t rest]|]; [done| |done]. destruct (waiting st); [done|].
  cbv zeta. set (st0 := st <| tick := Some rest |>). assert (H0 : inv st0) by (eapply inv_core; [|exact H]; by repeat split).
  destruct (bucket t st0) as [|x es] eqn:Hb; [by apply inv_mapDelete|]. destruct (inb t (locks st0)); [done|].
  set (snap := if existsb _ _ then _ else _). destruct (_ =? _)%nat; [by apply inv_deliverFirst|].
  match goal with |- context [dropFrom e o0 t ?k ?g ?a ?b st0] => set (kept := k); set (gone := g) end.
  assert (Hk : kept ⊆+ bucket t st0) by (rewrite Hb; apply filter_submseteq).
  pose proof (inv_dropFrom e o0 t kept gone "queue-stale-drop-save-failed" "stale-notification-unread-changed" st0 H0 Hk) as H1.
  destruct (dropFrom _ _ _ _ _ _ _ _) as [ok st1] eqn:Hd. cbn [snd] in H1. destruct ok; cbn [negb]; [|done].
  clearbody kept gone. destruct (length kept =? 0)%nat eqn:E; [done|]. apply inv_deliverFirst; [done|]. unfold bucket.
  erewrite dropFrom_bucket; [done|exact Hd|by destruct kept].
Qed.

(** *** Reminders *)

Lemma inv_mutate e f st : (∀ x, le_entry x (f x)) → (∀ x, deliveryState (f x) = deliveryState x) → inv st → inv (mutate e f st).
Proof.
  intros Hf Hd [H Ha]. split; [by apply inv0_mutate|]. intros x Hx. apply elem_of_mutated in Hx as (y & -> & Hy).
  unfold mutated. destruct (same_object y e); [|by apply Ha]. unfold alive. rewrite Hd. by apply Ha.
Qed.

Lemma le_withItems n items x : le_entry x (withItems LIMIT n items x).
Proof. by split. Qed.

Lemma inv_enqueueReminder n r st : inv st → let st' := enqueueReminder LIMIT n r st in inv st' ∧ senders st' = senders st ∧ typed st' = typed st.
Proof.
  intros H. unfold enqueueReminder. cbv zeta. set (t := trim (rem_target r)). destruct (negb (truthy t)); [done|].
  set (item := Reminders.reminderItemFromInput _ _ _). set (x := reminderEntry LIMIT n t item st).
  assert (Hnew : ∀ b, b ⊆+ bucket t st →
    let st' := mapSet t (b ++ [x]) (st <| mem := (mem st) <| idCounter := idCounter (mem st) + 1 |> |>) in
    inv st' ∧ senders st' = senders st ∧ typed st' = typed st).
  { intros b Hb. cbv zeta. destruct (mapSet_core t (b ++ [x]) (st <| mem := (mem st) <| idCounter := idCounter (mem st) + 1 |> |>)) as (A & B & C & D).
    split_and!; [|exact C|exact D]. apply (inv_core (setMem (addEntry x b (idempotency (mem st)) (mem st)) st)).
    { split_and!; [exact A|exact B|exact C|exact D]. }
    apply inv_add; [done|done|done|exact Hb|done|]. intros K r' HK. by split. }
  destruct (last (bucket t st)) as [y|] eqn:Hl; [|apply (Hnew []); apply submseteq_nil_l].
  destruct (isReminder y); [|by apply (Hnew (bucket t st))].
  split_and!; [|done|done]. by apply inv_mutate.
Qed.

Lemma saveReminders_core o st : same_core st (saveReminders o st).2.
Proof. by destruct o; repeat split. Qed.

Lemma inv_due e st : inv st → inv (processDueReminders LIMIT e st).
Proof.
  intros H. unfold processDueReminders. cbv zeta. set (fired := List.filter _ _). destruct (length fired =? 0)%nat; [done|].
  assert (Hfold : ∀ s, inv s → senders s = senders st → typed s = typed st →
    let r := foldl (λ s r, enqueueReminder LIMIT (now e) r s) s fired in inv r ∧ senders r = senders st ∧ typed r = typed st).
  { induction fired as [|r l IH]; intros s Hs Hse Hty; cbn [foldl]; [done|].
    destruct (inv_enqueueReminder (now e) r s Hs) as (H1 & H2 & H3). apply IH; [done|congruence|congruence]. }
  destruct (Hfold st H eq_refl eq_refl) as (H1 & Hs1 & Ht1). set (sf := foldl _ st fired) in *.
  set (st1 := sf <| reminders := _ |>). assert (H1' : inv st1) by (eapply inv_core; [|exact H1]; by repeat split).
  destruct (saveQueue (save1 e) st1) as [ok st2] eqn:Es. destruct (inv_saved _ st st1 ok st2 H H1' Hs1 Ht1 Es) as (H2 & H3 & Hs2 & Ht2).
  destruct ok; cbn [negb]; [|eapply inv_core; [|exact H3]; by repeat split].
  pose proof (saveReminders_core (save2 e) st2) as Hc. destruct (saveReminders (save2 e) st2) as [ok2 st3]. cbn [snd] in Hc.
  destruct ok2; [by eapply inv_core|]. assert (H3' : inv st3) by by eapply inv_core. destruct Hc as (_ & _ & Hs3 & Ht3).
  set (st4 := restoreReminderState _ (restoreQueueState (mem st) st3)).
  assert (H4 : inv st4).
  { eapply (inv_core (restoreQueueState (mem st) st3)); [by repeat split|].
    split; [apply inv0_restore; [apply H|apply H3'|congruence|congruence]|apply alive_restore, H]. }
  destruct (saveQueue (save3 e) st4) as [ok3 st5] eqn:E5. destruct (inv_saved _ st4 st4 ok3 st5 H4 H4 eq_refl eq_refl E5) as (H5 & _).
  eapply inv_core; [apply emit_core|]. destruct ok3; [done|]. eapply inv_core; [apply emit_core|done].
Qed.

(** *** Starting *)

Record le_same (x y : Entry) : Prop := LeSame { ls_le : le_entry x y; ls_state : deliveryState y = deliveryState x }.

Lemma compact_spec n cur l : ∀ l0, (match cur with Some c => [c] | None => [] end) ++ l = l0 →
  id <$> compactReminders LIMIT n cur l ⊆+ id <$> l0 ∧ ∀ y, y ∈ compactReminders LIMIT n cur l → ∃ x, x ∈ l0 ∧ le_same x y.
Proof.
  revert cur. induction l as [|x l IH]; intros cur l0 <-; cbn [compactReminders].
  - rewrite app_nil_r. split; [done|]. intros y Hy. exists y. by split.
  - destruct (isReminder x).
    + destruct cur as [c|].
      * destruct (IH (Some (withItems LIMIT n (reminderItems_of n c ++ reminderItems_of n x) c)) _ eq_refl) as [H1 H2]. split.
        -- etrans; [exact H1|]. cbn. apply submseteq_skip, submseteq_cons. done.
        -- intros y Hy. destruct (H2 y Hy) as (z & Hz & Hle). apply elem_of_cons in Hz as [->|Hz].
           ++ exists c. split; [left|]. destruct Hle as [Hle Hs]. split; [etrans; [apply le_withItems|exact Hle]|exact Hs].
           ++ exists z. split; [right; by right|done].
      * destruct (IH (Some (withItems LIMIT n (reminderItems_of n x) x)) _ eq_refl) as [H1 H2]. split; [exact H1|].
        intros y Hy. destruct (H2 y Hy) as (z & Hz & Hle). apply elem_of_cons in Hz as [->|Hz].
        -- exists x. split; [left|]. destruct Hle as [Hle Hs]. split; [etrans; [apply le_withItems|exact Hle]|exact Hs].
        -- exists z. split; [by right|done].
    + destruct (IH None _ eq_refl) as [H1 H2]. split.
      * rewrite !fmap_app. apply submseteq_app; [done|]. cbn. by apply submseteq_skip.
      * intros y Hy. apply elem_of_app in Hy as [Hy|Hy].
        -- exists y. split; [apply elem_of_app; by left|by split].
        -- apply elem_of_cons in Hy as [->|Hy]; [exists x; split; [apply elem_of_app; right; left|by split]|].
           destruct (H2 y Hy) as (z & Hz & Hle). exists z. split; [apply elem_of_app; right; by right|done].
Qed.

Lemma compactBucket_spec n l :
  id <$> compactBucket LIMIT n l ⊆+ id <$> l ∧ ∀ y, y ∈ compactBucket LIMIT n l → ∃ x, x ∈ l ∧ le_same x y.
Proof.
  unfold compactBucket. destruct (_ =? _)%nat; [|exact (compact_spec n None l l eq_refl)]. split; [done|]. intros y Hy. exists y. by split.
Qed.

Lemma normalized_same n x : le_same x (normalized LIMIT n x).
Proof. unfold normalized. destruct (negb (isReminder x)); [by split|]. cbv zeta. destruct (_ || _); by split; [split|]. Qed.

(** The entry [y] that is loaded for the entry [x] of the file. *)
Record loaded (x y : Entry) : Prop := Loaded {
  lo_id : id y = id x; lo_key : idempotencyKey y = idempotencyKey x; lo_to : to y = to x; lo_alive : alive y;
  lo_fresh : ∀ K, valid_key K → idempotencyKey x = Some K → deliveryState x = None;
}.

Lemma loadEntry_spec i q x : items_ok (im_keys i) (im_counter i) (im_items i) → x ∈ im_items i →
  let q' := loadEntry (keptKeys (im_keys i)) q x in
  NoDup (om_keys q) → bucket_ok q →
  NoDup (om_keys q') ∧ bucket_ok q' ∧ (q' = q ∨ ∃ y, loaded x y ∧ entriesOf q' ≡ₚ y :: entriesOf q).
Proof.
  intros Hi Hx q' Hnd Hb. unfold q', loadEntry. destruct (negb (truthy (to x))); [by auto|].
  assert (Hput : ∀ y, loaded x y → NoDup (om_keys (om_set (to y) (default [] (om_get (to y) q) ++ [y <| object := O |>]) q)) ∧
    bucket_ok (om_set (to y) (default [] (om_get (to y) q) ++ [y <| object := O |>]) q) ∧
    (∃ z, loaded x z ∧ entriesOf (om_set (to y) (default [] (om_get (to y) q) ++ [y <| object := O |>]) q) ≡ₚ z :: entriesOf q)).
  { intros y Hl. split_and!.
    - by apply om_nodup_set.
    - apply bucket_ok_set; [done|]. intros z Hz. apply elem_of_app in Hz as [Hz|Hz]; [|by apply list_elem_of_singleton in Hz as ->].
      destruct (om_get (to y) q) as [es|] eqn:E; [by eapply bucket_get|by apply elem_of_nil in Hz].
    - exists (y <| object := O |>). split; [by destruct Hl; split|]. rewrite entriesOf_set by done. rewrite <-(assoc_L (++)). cbn [app].
      rewrite <-Permutation_middle. f_equiv. symmetry. by apply entriesOf_bucket. }
  unfold recover. destruct (deliveryState x) as [[]|] eqn:Hd; [|by auto..|].
  - destruct (match idempotencyKey x with Some k => om_get k (keptKeys (im_keys i)) | None => None end) as [r|] eqn:Hr.
    + destruct (Z.eqb_spec (r_id r) (id x)) as [|Hne]; [by auto|]. exfalso. destruct (idempotencyKey x) as [K|] eqn:HK; [|done].
      unfold keptKeys in Hr. rewrite (om_get_filter_key (λ k, truthy k && (String.length k <=? 255)%nat)) in Hr. destruct (_ && _); [|done].
      destruct (io_entry _ _ _ Hi x Hx) as [_ He]. destruct (He K HK) as (_ & r' & Hr' & Hid). congruence.
    + destruct (Hput (resetQueueEntryDeliveryState x)) as (A & B & C); [|split_and!; [exact A|exact B|by right]].
      split; [done|done|done|by left|]. intros K [Hv1 Hv2] HK. exfalso. rewrite HK in Hr. unfold keptKeys in Hr.
      rewrite (om_get_filter_key (λ k, truthy k && (String.length k <=? 255)%nat)) in Hr. rewrite Hv1 in Hr.
      apply Nat.leb_le in Hv2. rewrite Hv2 in Hr. cbn [andb] in Hr. destruct (io_entry _ _ _ Hi x Hx) as [_ He].
      destruct (He K HK) as (_ & r' & Hr' & _). congruence.
  - destruct (Hput x) as (A & B & C); [by split; [..|left|]|]. split_and!; [exact A|exact B|by right].
Qed.

Lemma loadEntries_spec i l q : items_ok (im_keys i) (im_counter i) (im_items i) → l ⊆+ im_items i → NoDup (om_keys q) → bucket_ok q →
  let q' := foldl (loadEntry (keptKeys (im_keys i))) q l in
  NoDup (om_keys q') ∧ bucket_ok q' ∧ id <$> entriesOf q' ⊆+ (id <$> l) ++ (id <$> entriesOf q) ∧
  ∀ y, y ∈ entriesOf q' → y ∈ entriesOf q ∨ ∃ x, x ∈ l ∧ loaded x y.
Proof.
  intros Hi. revert q. induction l as [|x l IH]; intros q Hl Hnd Hb; cbn [foldl]; [split_and!; [done|done|done|by left]|].
  assert (Hx : x ∈ im_items i) by (eapply elem_of_submseteq; [|exact Hl]; left).
  assert (Hl' : l ⊆+ im_items i) by (etrans; [|exact Hl]; by apply submseteq_cons).
  destruct (loadEntry_spec i q x Hi Hx Hnd Hb) as (Hnd' & Hb' & Hq).
  destruct (IH (loadEntry (keptKeys (im_keys i)) q x) Hl' Hnd' Hb') as (A & B & C & D). split_and!; [exact A|exact B| |].
  - etrans; [exact C|]. destruct Hq as [->|(z & Hz & ->)]; [by apply submseteq_cons|]. cbn. rewrite (lo_id _ _ Hz), <-Permutation_middle. done.
  - intros y Hy. destruct (D y Hy) as [Hy'|(w & Hw & Hle)]; [|right; exists w; split; [by right|done]].
    destruct Hq as [Hq|(z & Hz & Hp)]; [left; by rewrite Hq in Hy'|]. rewrite Hp in Hy'. apply elem_of_cons in Hy' as [->|Hy']; [|by left].
    right. exists x. split; [left|done].
Qed.

(** What [compactBucket] and [normalized] make of the buckets. *)
Lemma settled_spec n q : NoDup (om_keys q) → bucket_ok q →
  let q' := prod_map (λ k, k) (λ es, List.map (normalized LIMIT n) (compactBucket LIMIT n es)) <$> q in
  NoDup (om_keys q') ∧ bucket_ok q' ∧ id <$> entriesOf q' ⊆+ id <$> entriesOf q ∧ ∀ y, y ∈ entriesOf q' → ∃ x, x ∈ entriesOf q ∧ le_same x y.
Proof.
  set (g := λ es, List.map (normalized LIMIT n) (compactBucket LIMIT n es)).
  assert (Hg : ∀ es, id <$> g es ⊆+ id <$> es ∧ ∀ y, y ∈ g es → ∃ x, x ∈ es ∧ le_same x y).
  { intros es. destruct (compactBucket_spec n es) as [H1 H2]. unfold g. split.
    - assert (He : id <$> List.map (normalized LIMIT n) (compactBucket LIMIT n es) = id <$> compactBucket LIMIT n es); [|by rewrite He].
      change (id <$> (normalized LIMIT n <$> compactBucket LIMIT n es) = id <$> compactBucket LIMIT n es).
      rewrite <-list_fmap_compose. apply list_fmap_ext. intros j x _. apply le_id, normalized_same.
    - intros y Hy. apply (list_elem_of_fmap (normalized LIMIT n)) in Hy as (z & -> & Hz). destruct (H2 z Hz) as (x & Hx & [Hle Hs]).
      exists x. split; [done|]. destruct (normalized_same n z) as [Hle' Hs']. split; [by etrans|congruence]. }
  clearbody g. intros Hnd Hb. cbv zeta. split_and!.
  - by rewrite om_keys_fmap.
  - intros t es x Hin Hx. apply list_elem_of_fmap in Hin as ([k v] & [= -> ->] & Hin). destruct (Hg v) as [_ H2].
    destruct (H2 x Hx) as (z & Hz & [Hle _]). rewrite (le_to _ _ Hle). by eapply Hb.
  - clear Hnd Hb. induction q as [|[t es] q IH]; [done|]. change (id <$> (g es ++ entriesOf (prod_map (λ k, k) g <$> q)) ⊆+ id <$> (es ++ entriesOf q)).
    rewrite !fmap_app. apply submseteq_app; [apply Hg|exact IH].
  - intros y Hy. apply elem_of_entriesOf in Hy as (t & es & Hin & Hy). apply list_elem_of_fmap in Hin as ([k v] & [= -> ->] & Hin).
    destruct (Hg v) as [_ H2]. destruct (H2 y Hy) as (x & Hx & Hle). exists x. split; [apply elem_of_entriesOf; by exists k, v|done].
Qed.

Lemma keptKeys_get K keys : valid_key K → om_get K (keptKeys keys) = om_get K keys.
Proof.
  intros [H1 H2]. unfold keptKeys. rewrite (om_get_filter_key (λ k, truthy k && (String.length k <=? 255)%nat)), H1.
  apply Nat.leb_le in H2. by rewrite H2.
Qed.

Lemma loadMem_spec n i : items_ok (im_keys i) (im_counter i) (im_items i) →
  let m := loadMem LIMIT n (Some i) in
  mem_ok m ∧ (∀ y, y ∈ entriesOf (queue m) → alive y) ∧
  (∀ K y, valid_key K → y ∈ entriesOf (queue m) → idempotencyKey y = Some K → ∃ x, x ∈ im_items i ∧ idempotencyKey x = Some K ∧ deliveryState x = None).
Proof.
  intros Hi. cbv zeta. destruct (loadEntries_spec i (im_items i) [] Hi) as (A & B & C & D); [done|constructor|intros t es x Hin; by apply elem_of_nil in Hin|].
  destruct (settled_spec n _ A B) as (A' & B' & C' & D'). unfold loadMem. set (q := _ <$> foldl _ _ _) in *.
  assert (Horigin : ∀ y, y ∈ entriesOf q → ∃ x z, x ∈ im_items i ∧ loaded x z ∧ le_same z y).
  { intros y Hy. destruct (D' y Hy) as (z & Hz & Hle). destruct (D z Hz) as [Hz'|(x & Hx & Hl)]; [by apply elem_of_nil in Hz'|]. by exists x, z. }
  split_and!; [split; [split|exact A'|exact B']| |].
  - intros y Hy. destruct (Horigin y Hy) as (x & z & Hx & [L1 L2 _ _ _] & [[S1 S2 _ _] _]). destruct (io_entry _ _ _ Hi x Hx) as [Hc Hk].
    split; [change (id y ≤ im_counter i); lia|]. intros K HK. destruct (Hk K) as (Hv & r & Hr & Hid); [congruence|]. split; [done|].
    exists r. split; [|congruence]. change (om_get K (keptKeys (im_keys i)) = Some r). by rewrite keptKeys_get.
  - change (NoDup (id <$> entriesOf q)). pose proof (io_nodup _ _ _ Hi) as Hn. assert (Hs : id <$> entriesOf q ⊆+ id <$> im_items i).
    { etrans; [exact C'|]. etrans; [exact C|]. cbn. by rewrite app_nil_r. }
    apply submseteq_Permutation in Hs as [k Hk]. rewrite Hk in Hn. by apply NoDup_app in Hn as [? _].
  - intros y Hy. destruct (Horigin y Hy) as (x & z & _ & Hl & [_ Hs]). unfold alive. rewrite Hs. apply (lo_alive _ _ Hl).
  - intros K y Hv Hy HK. destruct (Horigin y Hy) as (x & z & Hx & Hl & [[_ S2 _ _] _]). exists x.
    assert (HxK : idempotencyKey x = Some K) by (rewrite <-(lo_key _ _ Hl); congruence). split_and!; [done|done|]. by apply (lo_fresh _ _ Hl K).
Qed.

Lemma inv_init e r st : inv st → inv (initDeliveryQueue LIMIT e r st).
Proof.
  intros [[Hm Hf Hs Hh Hg] Ha]. unfold initDeliveryQueue. cbv zeta. set (st1 := MkState (loadMem LIMIT (now e) (file st)) _ _ _ _ _ _ _ _ _ _ _ _).
  assert (Hle : ∀ K, (hits K st1 ≤ hits K st)%nat) by (intros K; unfold hits; cbn; lia).
  assert (H1 : inv st1).
  { assert (Hload : mem_ok (mem st1) ∧ all_alive st1 ∧ ∀ K, (0 < hits K st)%nat → held K (idempotency (mem st1)) (entriesOf (queue (mem st1)))).
    { unfold st1, all_alive. cbn [mem]. destruct (file st) as [i|] eqn:E.
      - destruct (loadMem_spec (now e) i Hf) as (A & B & C). split_and!; [exact A|exact B|]. intros K HK.
        destruct (Hg K HK) as [_ Hfile]. rewrite E in Hfile. destruct Hfile as [[Hv Hr] Hmark].
        split; [split; [done|change (is_Some (om_get K (keptKeys (im_keys i)))); by rewrite keptKeys_get]|].
        intros y Hy HyK. destruct (C K y Hv Hy HyK) as (x & Hx & HxK & Hst). by destruct (Hmark x Hx HxK).
      - split_and!.
        + split; [split; [intros x Hx; by apply elem_of_nil in Hx|constructor]|constructor|intros t es x Hin; by apply elem_of_nil in Hin].
        + intros x Hx. by apply elem_of_nil in Hx.
        + intros K HK. destruct (Hg K HK) as [_ Hfile]. by rewrite E in Hfile. }
    destruct Hload as (A & B & C). split; [|exact B]. split; [exact A|exact Hf| | |].
    - intros s Hin. by apply elem_of_nil in Hin.
    - intros K. specialize (Hle K). specialize (Hh K). lia.
    - intros K HK. assert (HK' : (0 < hits K st)%nat) by (specialize (Hle K); lia). split; [by apply C|exact (proj2 (Hg K HK'))]. }
  destruct (file st) as [i|]; [|exact H1]. destruct (touched LIMIT (now e) i); [|exact H1].
  destruct (saveQueue (save1 e) st1) as [ok st2] eqn:Es. destruct (inv_saved _ st1 st1 ok st2 H1 H1 eq_refl eq_refl Es) as (H2 & _). exact H2.
Qed.

(** *** Runs of the service *)

Inductive queue_step : relation State :=
| q_post e body header st : queue_step st (postQueue num_str e body header st).2
| q_push e body key st : (String.length key ≤ 255)%nat → queue_step st (enqueueFromRequestBody e body key st).2
| q_drop e agent source reason st : queue_step st (dropQueuedBackendNotificationsBySource e agent source reason st).2
| q_delete e n st : queue_step st (deleteQueued e n st).2
| q_send e n st : queue_step st (sendNow num_str str_num e n st).2
| q_payload e i ok st : queue_step st (payloadSent e i ok st)
| q_enter e i ok st : queue_step st (enterSent e i ok st)
| q_timeout i st : queue_step st (timeoutFires i st)
| q_start st : queue_step st (startTick st)
| q_visit e o0 o st : queue_step st (visit e o0 o st)
| q_end st : queue_step st (endTick st)
| q_due e st : queue_step st (processDueReminders LIMIT e st)
| q_remind e target delay msg st : queue_step st (createReminder e target delay msg st).2
| q_unremind e n st : queue_step st (deleteReminder e n st).2
| q_stop st : queue_step st (stopDeliveryQueueLoops st)
| q_init e r st : queue_step st (initDeliveryQueue LIMIT e r st).

Lemma reminder_core e target delay msg st : same_core st (createReminder e target delay msg st).2.
Proof.
  unfold createReminder. do 2 (destruct (_ : bool); [apply queue_same_core_refl|]). cbv zeta.
  match goal with |- context [saveReminders ?o ?s] => pose proof (saveReminders_core o s) as H; destruct (saveReminders o s) as [ok st1] end.
  cbn [snd] in H. destruct ok; cbn [snd]; destruct H as (A & B & C & D); repeat split; done.
Qed.

Lemma unremind_core e n st : same_core st (deleteReminder e n st).2.
Proof.
  unfold deleteReminder. cbv zeta. match goal with |- context [match ?x with Some _ => _ | None => _ end] => destruct x as [rest|] end; [|apply queue_same_core_refl].
  match goal with |- context [saveReminders ?o ?s] => pose proof (saveReminders_core o s) as H; destruct (saveReminders o s) as [ok st1] end.
  cbn [snd] in H. destruct ok; cbn [snd]; destruct H as (A & B & C & D); repeat split; done.
Qed.

Lemma inv_state0 : inv state0.
Proof.
  split; [|intros x Hx; by apply elem_of_nil in Hx]. split.
  - split; [split; [intros x Hx; by apply elem_of_nil in Hx|constructor]|constructor|intros t es x Hin; by apply elem_of_nil in Hin].
  - done.
  - intros s Hs. by apply elem_of_nil in Hs.
  - intros K. cbn. lia.
  - intros K HK. cbn in HK. lia.
Qed.

Lemma queue_step_inv st st' : queue_step st st' → inv st → inv st'.
Proof.
  intros Hs H. destruct Hs.
  - unfold postQueue. cbv zeta. destruct (_ <? _)%nat eqn:E; [done|]. apply Nat.ltb_ge in E. by apply inv_enqueue.
  - by apply inv_enqueue.
  - by apply inv_drop.
  - by apply inv_delete.
  - by apply inv_sendNow.
  - by apply inv_payload.
  - by apply inv_enter.
  - unfold timeoutFires. destruct (_ !! _); [|done]. eapply inv_core; [|exact H]. by repeat split.
  - unfold startTick. destruct (tick st); [done|]. eapply inv_core; [|exact H]. by repeat split.
  - by apply inv_visit.
  - unfold endTick. destruct (tick st) as [[|]|]; [|done..]. destruct (waiting st); [done|]. eapply inv_core; [|exact H]. by repeat split.
  - by apply inv_due.
  - eapply inv_core; [apply reminder_core|done].
  - eapply inv_core; [apply unremind_core|done].
  - eapply inv_core; [|exact H]. by repeat split.
  - by apply inv_init.
Qed.

Lemma queue_inv st : rtc queue_step state0 st → inv st.
Proof.
  revert st. refine (rtc_ind_r (R:=queue_step) inv state0 inv_state0 _). intros st st' _ Hs. by apply queue_step_inv.
Qed.

End operations.
