(* ===== verification/QueueSafety.v ===== *)
(** * The delivery queue: what it promises

    Over every run of [queue_step], with saves that fail before or after the file is replaced, calls of
    tmux that fail or never return, copies put into the queue by a rollback during a delivery, and
    restarts at any point. *)

From Stdlib Require Import ZArith QArith Lia String Ascii.
From stdpp Require Import base list strings relations.
From S2P Require Import Prelude OMap Json PaneWatch Reminders DeliveryQueue DeliveryFacts.
Import DeliveryQueue.
#[local] Open Scope stdpp_scope.

Section promises.
Context (num_str : num → string) (str_num : string → num) (IDLE_THRESHOLD : Z) (LIMIT : nat).
Abbreviation step := (queue_step num_str str_num IDLE_THRESHOLD LIMIT).

(** How often a message with the key was typed into a pane. *)
Definition timesTyped (K : string) (st : State) : nat := length (List.filter (has_key K) (typed st)).

(** C22. A message sent with an idempotency key is typed at most once, ever: whatever is retried by
    its sender or by an operator, whatever saves fail, whenever the process stops and starts again.
    Once it has been typed, the receipt of the key is known to the process and is in the file, and
    sending it again gives that receipt back and does nothing else. *)
Theorem keyed_message_typed_at_most_once st K :
  rtc step state0 st →
  (timesTyped K st ≤ 1)%nat ∧
  ((0 < timesTyped K st)%nat →
   ∃ r i, om_get K (idempotency (mem st)) = Some r ∧ file st = Some i ∧ is_Some (om_get K (im_keys i)) ∧
     ∀ e body, truthy (b_to body) = true → truthy (b_payload body) = true →
       enqueueFromRequestBody num_str e body K st = (MkReply 200 (Some r) true None, st)).
Proof.
  intros [H _]%queue_inv. pose proof (i_hits _ H K) as Hh. unfold hits in Hh. split; [unfold timesTyped; lia|].
  intros Ht. destruct (i_gone _ H K) as [[[Hv [r Hr]] _] Hf]; [unfold hits, timesTyped in *; lia|].
  unfold held_in_file in Hf. destruct (file st) as [i|]; [|done]. destruct Hf as [[_ Hk] _]. exists r, i. split_and!; [done|done|done|].
  intros e body Hto Hp. unfold enqueueFromRequestBody. rewrite Hto, Hp. cbn [andb negb]. destruct Hv as [-> _]. by rewrite Hr.
Qed.

(** The queue stays well formed: the ids of the waiting messages are unique and not above the
    counter, each waits in the bucket of its target, none is marked as done, and one that has a key
    has the id that the key's receipt names; the same holds of ids and receipts in the file. *)
Theorem queue_is_well_formed st :
  rtc step state0 st →
  NoDup (id <$> entriesOf (queue (mem st))) ∧
  (∀ t es x, (t, es) ∈ queue (mem st) → x ∈ es →
     to x = t ∧ id x ≤ idCounter (mem st) ∧ (deliveryState x = None ∨ deliveryState x = Some delivering) ∧
     ∀ K, idempotencyKey x = Some K → ∃ r, om_get K (idempotency (mem st)) = Some r ∧ r_id r = id x) ∧
  (∀ i, file st = Some i → NoDup (id <$> im_items i) ∧
     ∀ x, x ∈ im_items i → id x ≤ im_counter i ∧ ∀ K, idempotencyKey x = Some K → ∃ r, om_get K (im_keys i) = Some r ∧ r_id r = id x).
Proof.
  intros [[[Hi Hk Hb] Hf _ _ _] Ha]%queue_inv. split_and!.
  - apply (io_nodup _ _ _ Hi).
  - intros t es x Hin Hx. assert (Hxe : x ∈ entriesOf (queue (mem st))) by (apply elem_of_entriesOf; by exists t, es).
    destruct (io_entry _ _ _ Hi x Hxe) as [Hc Hkey]. split_and!; [by eapply Hb|done|by apply Ha|]. intros K HK. by apply Hkey.
  - intros i E. rewrite E in Hf. split; [apply (io_nodup _ _ _ Hf)|]. intros x Hx. destruct (io_entry _ _ _ Hf x Hx) as [Hc Hkey].
    split; [done|]. intros K HK. by apply Hkey.
Qed.

End promises.

(** ** A concrete run *)

Definition no_str : num → string := λ _, EmptyString.
Definition no_num : string → num := λ _, NaN.
Definition env (t : Z) (o : save_result) : Env := MkEnv t o Saved Saved (λ _ _, JNull).
Definition quiet : PaneWatch.Observation := PaneWatch.MkObservation "ada" "ada:0.0" PaneWatch.idle (Some 30000) (Some 1) (Some false) None.
Definition hello : Body := MkBody "cli" "ada" "hello" JUndef JUndef.
Abbreviation enqueue_w := (enqueueFromRequestBody no_str).
Abbreviation visit_w := (visit no_str no_num 20000).

(** The message is accepted and typed; the process stops before it can note that; the sender retries. *)
Definition typed_then_crash : State :=
  let st := (enqueue_w (env 1 Saved) hello "k1" state0).2 in
  let st := payloadSent (env 2 Saved) 0 true (visit_w (env 2 Saved) Saved quiet (startTick st)) in
  initDeliveryQueue 20 (env 3 Saved) [] st.

Lemma typed_then_crash_reachable : rtc (queue_step no_str no_num 20000 20) state0 typed_then_crash.
Proof.
  unfold typed_then_crash. cbv zeta. eapply rtc_r; [|apply q_init]. eapply rtc_r; [|apply q_payload]. eapply rtc_r; [|apply q_visit].
  eapply rtc_r; [|apply q_start]. apply rtc_once, q_push. cbn. lia.
Qed.

Lemma keyed_message_typed_at_most_once_witness :
  timesTyped "k1" typed_then_crash = 1%nat ∧ queue (mem typed_then_crash) = [] ∧
  (enqueue_w (env 4 Saved) hello "k1" typed_then_crash).2 = typed_then_crash.
Proof.
  split; [by vm_compute|]. split; [by vm_compute|].
  destruct (keyed_message_typed_at_most_once no_str no_num 20000 20 typed_then_crash "k1" typed_then_crash_reachable) as [_ H].
  destruct H as (r & i & _ & _ & _ & Hd); [by vm_compute; lia|]. by rewrite Hd.
Defined.

Lemma queue_is_well_formed_witness :
  let st := (enqueue_w (env 5 Saved) hello "k2" typed_then_crash).2 in
  id <$> entriesOf (queue (mem st)) = [2] ∧ NoDup (id <$> entriesOf (queue (mem st))).
Proof.
  cbv zeta. split; [by vm_compute|].
  refine (proj1 (queue_is_well_formed no_str no_num 20000 20 _ _)). eapply rtc_r; [apply typed_then_crash_reachable|].
  apply q_push. cbn. lia.
Defined.
