(* ===== verification/QueuePoll.v ===== *)
(** * The delivery queue: the poll loop ends, unless the file cannot be written

    While saves succeed a turn of the loop uses up one key of the map it iterates over, and what it
    starts is two calls of tmux. A save that fails puts every key back in front of the iterator. *)

From Stdlib Require Import ZArith QArith Lia String Ascii.
From stdpp Require Import base list strings relations.
From S2P Require Import Prelude OMap Json PaneWatch Reminders DeliveryQueue DeliveryFacts.
Import DeliveryQueue.
#[local] Open Scope stdpp_scope.

(** ** What leaves the iterator alone *)

Definition pending (st : State) : nat := length (default [] (tick st)).

(** No key is put in front of the iterator, and the calls in progress are those there were. *)
Record calm (st st' : State) : Prop := Calm {
  calm_pending : (pending st' ≤ pending st)%nat;
  calm_running : is_Some (tick st) → is_Some (tick st');
  calm_senders : senders st' = senders st;
}.

#[export] Instance calm_preorder : PreOrder calm.
Proof. split; [by split|]. intros a b c [] []. split; [lia|auto|congruence]. Qed.

Lemma calm_same st st' : tick st' = tick st → senders st' = senders st → calm st st'.
Proof. intros H1 H2. split; [unfold pending; by rewrite H1|by rewrite H1|done]. Qed.

Lemma calm_save st : calm st (saveQueue Saved st).2.
Proof. by apply calm_same. Qed.

Lemma calm_emit n t e r st : calm st (emit n t e r st).
Proof. by apply calm_same. Qed.

Lemma calm_archive n l r st : calm st (archiveDroppedQueueEntries n l r st).
Proof.
  unfold archiveDroppedQueueEntries. revert st. induction l as [|x l IH]; intros st; [done|]. cbn [foldl]. etrans; [apply calm_emit|apply IH].
Qed.

Lemma calm_mapDelete t st : calm st (mapDelete t st).
Proof.
  split; [|unfold mapDelete; cbn [tick over]; by intros [l ->]|done]. unfold pending, mapDelete. cbn [tick over setQueue].
  destruct (tick st) as [l|]; [|done]. cbn. rewrite <-(length_fmap (λ x, x) l), list_fmap_id.
  induction l as [|k l IH]; [done|]. cbn. destruct (negb _); cbn; lia.
Qed.

Lemma calm_mapSet t es st : om_has t (queue (mem st)) = true → calm st (mapSet t es st).
Proof. intros H. unfold mapSet. rewrite H. by apply calm_same. Qed.

Lemma has_get {V} t (q : omap V) v : om_get t q = Some v → om_has t q = true.
Proof. intros H. apply om_has_spec. by eexists. Qed.

Lemma calm_remove t x st : calm st (removeQueueEntry t x st).
Proof.
  unfold removeQueueEntry. cbv zeta. destruct (om_get t (queue (mem st))) as [es|] eqn:E; [|done].
  match goal with |- calm _ (match ?r with Some _ => _ | None => _ end) => destruct r as [[|y l]|] end; [apply calm_mapDelete| |done].
  apply calm_mapSet. by eapply has_get.
Qed.

Lemma calm_claim n x st ok st' : claimQueueEntryForDelivery Saved n x st = (ok, st') → ok = true ∧ calm st st'.
Proof. unfold claimQueueEntryForDelivery. cbn. intros [= <- <-]. split; [done|]. by apply calm_same. Qed.

Lemma calm_requeue n x reason st : calm st (persistQueueEntryQueued Saved n x reason st).
Proof. by apply calm_same. Qed.

Lemma calm_finalize n x t s reason st : calm st (finalizeQueueEntryAfterSideEffect Saved Saved n x t s reason st).2.
Proof.
  unfold finalizeQueueEntryAfterSideEffect. set (st1 := mutate _ _ st). assert (H1 : calm st st1) by by apply calm_same.
  cbn [saveQueue]. set (st2 := st1 <| file := _ |>). assert (H2 : calm st1 st2) by by apply calm_same.
  pose proof (calm_remove t (markQueueEntryTerminal s n x) st2) as H3. cbn [snd].
  etrans; [exact H1|]. etrans; [exact H2|]. etrans; [exact H3|]. by apply calm_same.
Qed.

Lemma calm_setOrDelete t kept st : om_has t (queue (mem st)) = true → calm st (setOrDelete t kept st).
Proof. intros H. unfold setOrDelete. destruct (_ =? _)%nat; [apply calm_mapDelete|by apply calm_mapSet]. Qed.

Lemma calm_dropFrom e t kept gone r1 r2 st : om_has t (queue (mem st)) = true → calm st (dropFrom e Saved t kept gone r1 r2 st).2.
Proof.
  intros H. unfold dropFrom. change (if (length kept =? 0)%nat then mapDelete t st else mapSet t kept st) with (setOrDelete t kept st).
  cbn [saveQueue snd]. etrans; [by apply (calm_setOrDelete t kept)|]. etrans; [|apply calm_archive]. by apply calm_same.
Qed.

(** ** The loop *)

Definition saves_succeed (e : Env) : Prop := save1 e = Saved ∧ save2 e = Saved ∧ save3 e = Saved.

Definition work (s : Sender) : nat := if s_typed s then 1%nat else 2%nat.
Definition totalWork (l : list Sender) : nat := foldr (λ s n, (work s + n)%nat) 0%nat l.
Definition measure (st : State) : nat := (3 * pending st + totalWork (senders st))%nat.

Lemma totalWork_app l1 l2 : totalWork (l1 ++ l2) = (totalWork l1 + totalWork l2)%nat.
Proof. unfold totalWork. induction l1 as [|s l1 IH]; [done|]. cbn. rewrite IH. lia. Qed.

Lemma totalWork_split l i s s' : l !! i = Some s →
  totalWork l = (work s + totalWork (delete i l))%nat ∧ totalWork (<[i:=s']> l) = (work s' + totalWork (delete i l))%nat.
Proof.
  intros Hi. assert (Hlt : (i < length l)%nat) by by eapply lookup_lt_Some.
  rewrite <-(take_drop_middle l i s Hi) at 1. rewrite insert_take_drop, delete_take_drop by done. rewrite !totalWork_app. unfold totalWork. cbn. lia.
Qed.

Section loop.
Context (num_str : num → string) (str_num : string → num) (IDLE_THRESHOLD : Z).
Abbreviation visit := (visit num_str str_num IDLE_THRESHOLD).
Abbreviation deliverFirst := (deliverFirst num_str str_num IDLE_THRESHOLD).

(** One turn of a running loop, or the end of a call of tmux, every save succeeding. *)
Inductive poll_step : relation State :=
| p_visit e o t rest st : saves_succeed e → tick st = Some (t :: rest) → waiting st = false → poll_step st (visit e Saved o st)
| p_payload e i ok s st : saves_succeed e → senders st !! i = Some s → s_typed s = false → poll_step st (payloadSent e i ok st)
| p_enter e i ok s st : saves_succeed e → senders st !! i = Some s → s_typed s = true → poll_step st (enterSent e i ok st).

(** The iterator moves on, and at most one new call of tmux is in progress. *)
Definition advances (st st' : State) : Prop :=
  (pending st' ≤ pending st)%nat ∧ (is_Some (tick st) → is_Some (tick st')) ∧
  (senders st' = senders st ∨ ∃ s, senders st' = senders st ++ [s] ∧ s_typed s = false).

Lemma calm_advances st st' : calm st st' → advances st st'.
Proof. intros []. repeat split; auto. Qed.

Lemma calm_then_advances a b c : calm a b → advances b c → advances a c.
Proof.
  intros [P1 R1 S1] (P2 & R2 & S2). split_and!; [lia|auto|]. rewrite S1 in S2. exact S2.
Qed.

Lemma send_advances e x t stale st : saves_succeed e → advances st (send e false x t stale st).2.
Proof.
  intros (_ & E2 & E3). unfold send. destruct stale.
  - rewrite E2, E3. pose proof (calm_finalize (now e) (markQueueEntryDelivering (now e) x) t dropped "queue-stale-drop-save-failed" st) as H.
    apply calm_advances. destruct (finalizeQueueEntryAfterSideEffect _ _ _ _ _ _ _ _) as [ok st1]. cbn [snd] in H.
    destruct ok; cbn [snd]; (etrans; [exact H|]); [etrans; [apply calm_archive|]|]; by apply calm_same.
  - cbn [snd]. split_and!; [done|auto|]. right. by eexists.
Qed.

Lemma deliverFirst_advances e o snap t es st : saves_succeed e → om_has t (queue (mem st)) = true → advances st (deliverFirst e o snap t es st).
Proof.
  intros He Ht. assert (Hself : advances st st) by by apply calm_advances. unfold DeliveryQueue.deliverFirst. destruct es as [|x es]; [done|].
  assert (Hmiss : advances st (dropForMissingPane e (save1 e) t (x :: es) st)).
  { unfold dropForMissingPane. destruct (_ <? _); [|done]. cbv zeta. destruct (_ =? _)%nat; [done|].
    destruct He as (-> & _ & _). by apply calm_advances, calm_dropFrom. }
  assert (Hlock : calm st (lock t st)) by by apply calm_same.
  assert (Hclaim : advances st (let '(ok, st1) := claimQueueEntryForDelivery (save1 e) (now e) x (lock t st) in
    if negb ok then unlock t st1 else
    (send e false x t (if to_bool snap && isBackendNotificationEntry x then isStaleNotificationBySnapshot num_str str_num x snap
                       else isStaleNotificationEntry num_str str_num e x) st1).2)).
  { rewrite (proj1 He). destruct (claimQueueEntryForDelivery Saved (now e) x (lock t st)) as [ok st1] eqn:Hc.
    apply calm_claim in Hc as [-> Hc]. cbn [negb]. eapply calm_then_advances; [|by apply send_advances]. by etrans. }
  assert (Hun : advances st (unlock t (lock t st))) by (apply calm_advances; etrans; [exact Hlock|]; by apply calm_same).
  destruct (PaneWatch.state o); try exact Hself; try exact Hmiss;
    (match goal with |- advances st (if ?b then _ else _) => destruct b end; [exact Hself|]; destruct (deliveryState x) as [[]|]; [exact Hun|exact Hclaim..]).
Qed.

Lemma visit_advances e o t rest st : saves_succeed e → tick st = Some (t :: rest) → waiting st = false →
  advances (st <| tick := Some rest |>) (visit e Saved o st).
Proof.
  intros He Ht Hw. unfold DeliveryQueue.visit. rewrite Ht, Hw. cbv zeta. set (st0 := st <| tick := Some rest |>).
  assert (Hself : advances st0 st0) by by apply calm_advances.
  destruct (bucket t st0) as [|x es] eqn:Hb; [apply calm_advances, calm_mapDelete|]. destruct (inb t (locks st0)); [done|].
  assert (Hhas : om_has t (queue (mem st0)) = true).
  { unfold bucket in Hb. destruct (om_get t (queue (mem st0))) eqn:E; [by eapply has_get|done]. }
  set (snap := if existsb _ _ then _ else _). destruct (_ =? _)%nat; [by apply deliverFirst_advances|].
  match goal with |- context [dropFrom e Saved t ?k ?g ?a ?b st0] =>
    pose proof (calm_dropFrom e t k g a b st0 Hhas) as Hd; pose proof (dropFrom_bucket e Saved t k g a b st0) as Hbk; set (kept := k) in * end.
  destruct (dropFrom _ _ _ _ _ _ _ _) as [ok st1]. cbn [snd] in Hd. clearbody kept.
  destruct ok; cbn [negb]; [|by apply calm_advances]. destruct (length kept =? 0)%nat eqn:E; [by apply calm_advances|].
  eapply calm_then_advances; [exact Hd|]. apply deliverFirst_advances; [done|]. eapply has_get. apply Hbk; [done|by destruct kept].
Qed.

Lemma settle_calm e s r st : saves_succeed e → calm st (settle e s r st).
Proof.
  intros (E1 & E2 & _). assert (Hrel : ∀ st', calm st' ((if s_manual s then unlock (s_target s) else unlockLater (s_target s)) st')).
  { intros st'. destruct (s_manual s); by apply calm_same. }
  destruct r; cbn [settle]; rewrite ?E1, ?E2.
  - etrans; [|apply Hrel]. apply calm_requeue.
  - pose proof (calm_finalize (now e) (s_entry s) (s_target s) partial "queue-partial-save-failed" st) as H.
    destruct (finalizeQueueEntryAfterSideEffect _ _ _ _ _ _ _ _) as [ok st1]. cbn [snd] in H. destruct ok.
    + etrans; [exact H|]. etrans; [apply calm_archive|apply Hrel].
    + etrans; [exact H|]. by apply calm_same.
  - etrans; [|apply Hrel]. apply calm_finalize.
Qed.

Lemma step_measure st st' : poll_step st st' → (S (measure st') ≤ measure st)%nat ∧ (is_Some (tick st) → is_Some (tick st')).
Proof.
  intros [e o t rest s He Ht Hw|e i ok x s He Hi Hu|e i ok x s He Hi Hu].
  - destruct (visit_advances e o t rest s He Ht Hw) as (H1 & H2 & H3). cbn [tick over] in H2. split; [|intros _; apply H2; by eexists].
    unfold measure. change (pending (s <| tick := Some rest |>)) with (length rest) in H1. assert (Hp : pending s = S (length rest)) by (unfold pending; by rewrite Ht).
    destruct H3 as [->|(y & -> & Hy)]; change (senders (s <| tick := Some rest |>)) with (senders s); [lia|].
    rewrite totalWork_app. unfold totalWork at 2. cbn. unfold work. rewrite Hy. lia.
  - unfold payloadSent. rewrite Hi, Hu. destruct ok.
    + split; [|auto]. unfold measure. cbn [senders over pending]. destruct (totalWork_split (senders s) i x (MkSender (s_entry x) (s_target x) (s_manual x) true) Hi) as [E1 E2].
      change (pending (s <| senders := ?l |> <| typed := ?k |>)) with (pending s). rewrite E1, E2. unfold work, pending. cbn. rewrite Hu. lia.
    + destruct (totalWork_split (senders s) i x x Hi) as [E1 _]. set (s1 := emit _ _ _ _ _).
      destruct (settle_calm e x PayloadFailed s1 He) as [H1 H2 H3]. split; [|exact H2]. unfold measure. rewrite H3, E1.
      change (senders s1) with (delete i (senders s)). change (pending s1) with (pending s) in H1. unfold work. rewrite Hu. lia.
  - unfold enterSent. rewrite Hi, Hu. cbn [negb]. destruct (totalWork_split (senders s) i x x Hi) as [E1 _].
    assert (Hs : ∀ r s1, tick s1 = tick s → senders s1 = delete i (senders s) →
      (S (measure (settle e x r s1)) ≤ measure s)%nat ∧ (is_Some (tick s) → is_Some (tick (settle e x r s1)))).
    { intros r s1 T1 S1. destruct (settle_calm e x r s1 He) as [H1 H2 H3]. rewrite T1 in H2. split; [|exact H2]. unfold measure. rewrite H3, S1, E1.
      assert (pending s1 = pending s) by (unfold pending; by rewrite T1). unfold work. rewrite Hu. lia. }
    destruct ok; by apply Hs.
Qed.

Definition succeeding : Env := MkEnv 0 Saved Saved Saved (λ _ _, JNull).
Definition anywhere : PaneWatch.Observation := PaneWatch.getTargetObservation 0 EmptyString 0 PaneWatch.state0.

(** C23. The poll loop comes to its end, provided that nothing new arrives while it runs: if saves succeed
    and no message is enqueued, no reminder is made and nothing is sent by hand during its awaits, a
    loop that has [p] keys left to visit while [a] calls of tmux are in progress makes at most
    [3 * p + 2 * a] more steps, turns and ends of calls together, whatever the panes show, whatever is
    unread and however tmux answers; and where no further step is possible, it has ended and a new one
    can start. What does arrive adds a key or a call of its own, with the same few steps for each; a
    stream of arrivals that never pauses is not covered. *)
Theorem poll_loop_ends n st st' :
  nsteps poll_step n st st' →
  (n ≤ 3 * pending st + 2 * length (senders st))%nat ∧
  (is_Some (tick st) → (∀ s, ¬ poll_step st' s) → senders st' = [] ∧ tick (endTick st') = None).
Proof.
  intros Hn. assert (H : (n + measure st' ≤ measure st)%nat ∧ (is_Some (tick st) → is_Some (tick st'))).
  { induction Hn as [|n x y z Hxy Hyz IH]; [by split|]. destruct (step_measure x y Hxy) as [H1 H2], IH as [H3 H4]. split; [lia|auto]. }
  destruct H as [Hm Hr]. split.
  - assert (Hw : (totalWork (senders st) ≤ 2 * length (senders st))%nat).
    { unfold totalWork. induction (senders st) as [|s l IH]; [done|]. cbn. unfold work at 1. destruct (s_typed s); lia. }
    unfold measure in Hm. lia.
  - intros Ht Hstuck. destruct (Hr Ht) as [l Hl].
    assert (Hs : senders st' = []).
    { destruct (senders st') as [|s k] eqn:E; [done|]. exfalso. assert (Hi : senders st' !! 0%nat = Some s) by by rewrite E.
      destruct (s_typed s) eqn:Hu; [by eapply Hstuck, (p_enter succeeding 0 true s)|by eapply Hstuck, (p_payload succeeding 0 true s)]. }
    split; [done|]. assert (Hw : waiting st' = false) by (unfold waiting; by rewrite Hs).
    destruct l as [|t rest]; [|exfalso; by eapply Hstuck, (p_visit succeeding anywhere t rest)]. unfold endTick. by rewrite Hl, Hw.
Qed.

Lemma plain_not_stale x snap : isBackendNotificationEntry x = false → isStaleNotificationBySnapshot num_str str_num x snap = false.
Proof. intros H. unfold isStaleNotificationBySnapshot. by rewrite H. Qed.

(** A turn at a target whose only message is no notification. *)
Lemma visit_single e o0 o t rest x st : tick st = Some (t :: rest) → waiting st = false → inb t (locks st) = false →
  bucket t st = [x] → isBackendNotificationEntry x = false →
  visit e o0 o st = deliverFirst e o JNull t [x] (st <| tick := Some rest |>).
Proof.
  intros Ht Hw Hl Hb Hn. unfold DeliveryQueue.visit. rewrite Ht, Hw. cbv zeta.
  change (bucket t (st <| tick := Some rest |>)) with (bucket t st). rewrite Hb.
  change (locks (st <| tick := Some rest |>)) with (locks st). rewrite Hl. cbn [existsb List.filter]. rewrite Hn, plain_not_stale by done. done.
Qed.

Lemma deliver_unsaved e o t x st : save1 e = NotWritten → PaneWatch.state o = PaneWatch.idle →
  IDLE_THRESHOLD ≤ default (-1) (PaneWatch.idleMs o) → deliveryState x = None → inb t (locks st) = false →
  let st' := deliverFirst e o JNull t [x] st in
  tick st' = (λ _, om_keys (queue (mem st))) <$> tick st ∧ senders st' = senders st ∧ locks st' = locks st ∧
  queue (mem st') = mapEntries (λ y, y <| object := S (generation st) |>) (queue (mem st)).
Proof.
  intros Hs Ho Hms Hd Hl. unfold DeliveryQueue.deliverFirst. rewrite Ho. apply Z.ltb_ge in Hms. rewrite Hms, andb_false_r, Hd. cbv zeta.
  unfold claimQueueEntryForDelivery. rewrite Hs. cbn [saveQueue negb]. split_and!; [done|done| |done].
  change (List.filter (λ k, negb (String.eqb t k)) (if inb t (locks st) then locks st else locks st ++ [t]) = locks st).
  rewrite Hl, List.filter_app. cbn. rewrite String.eqb_refl. cbn. rewrite app_nil_r. clear -Hl. induction (locks st) as [|k l IH]; [done|].
  cbn in Hl. apply orb_false_iff in Hl as [H1 H2]. cbn. rewrite H1. cbn. f_equal. by apply IH.
Qed.

(** While the queue file cannot be written, the loop does not end: it comes back to the first idle
    target with a message again and again, and nothing else of the process runs in between. *)
Lemma failing_save_spins e o0 o t x n st :
  save1 e = NotWritten → PaneWatch.state o = PaneWatch.idle → IDLE_THRESHOLD ≤ default (-1) (PaneWatch.idleMs o) →
  isBackendNotificationEntry x = false → deliveryState x = None →
  tick st = Some [t] → waiting st = false → inb t (locks st) = false → queue (mem st) = [(t, [x])] →
  tick (Nat.iter n (visit e o0 o) st) = Some [t].
Proof.
  intros Hs Ho Hms. revert x st. induction n as [|n IH]; intros x st Hn Hd Ht Hw Hl Hq; [done|]. rewrite Nat.iter_succ_r.
  assert (Hb : bucket t st = [x]) by (unfold bucket; rewrite Hq; cbn [om_get]; by rewrite String.eqb_refl).
  rewrite (visit_single e o0 o t [] x st Ht Hw Hl Hb Hn).
  set (st0 := st <| tick := Some [] |>). assert (Hq0 : queue (mem st0) = [(t, [x])]) by exact Hq.
  destruct (deliver_unsaved e o t x st0 Hs Ho Hms Hd Hl) as (A & B & C & D). rewrite Hq0 in A, D.
  set (st1 := deliverFirst _ _ _ _ _ _) in *. clearbody st1.
  apply (IH (x <| object := S (generation st) |>)); [done|done|exact A| | |exact D].
  - unfold waiting. rewrite B. exact Hw.
  - rewrite C. exact Hl.
Qed.

End loop.

(** ** A concrete loop *)

Definition no_str : num → string := λ _, EmptyString.
Definition no_num : string → num := λ _, NaN.
Definition env_w (o : save_result) : Env := MkEnv 1 o Saved Saved (λ _ _, JNull).
Definition quiet_w : PaneWatch.Observation := PaneWatch.MkObservation "ada" "ada:0.0" PaneWatch.idle (Some 30000) (Some 1) (Some false) None.
Definition loop0 : State := startTick (enqueueFromRequestBody no_str (env_w Saved) (MkBody "cli" "ada" "hello" JUndef JUndef) EmptyString state0).2.
Definition loop1 : State := visit no_str no_num 20000 (env_w Saved) Saved quiet_w loop0.
Definition loop2 : State := payloadSent (env_w Saved) 0 true loop1.
Definition loop3 : State := enterSent (env_w Saved) 0 true loop2.

Lemma poll_loop_ends_witness :
  tick loop0 = Some ["ada"] ∧ tick (endTick loop3) = None ∧ map payload (typed loop3) = ["hello"] ∧ queue (mem loop3) = [] ∧
  (3 ≤ 3 * pending loop0 + 2 * length (senders loop0))%nat.
Proof.
  do 4 (split; [by vm_compute|]).
  assert (H1 : poll_step no_str no_num 20000 loop0 loop1).
  { unfold loop1. apply (p_visit _ _ _ _ _ "ada" []); [by repeat split|by vm_compute|by vm_compute]. }
  assert (Hs1 : ∃ s, senders loop1 !! 0%nat = Some s ∧ s_typed s = false) by (vm_compute; eexists; by split).
  assert (Hs2 : ∃ s, senders loop2 !! 0%nat = Some s ∧ s_typed s = true) by (vm_compute; eexists; by split).
  destruct Hs1 as (s1 & Hs1 & Hu1), Hs2 as (s2 & Hs2 & Hu2).
  assert (H2 : poll_step no_str no_num 20000 loop1 loop2) by (unfold loop2; by apply (p_payload _ _ _ _ _ _ s1)).
  assert (H3 : poll_step no_str no_num 20000 loop2 loop3) by (unfold loop3; by apply (p_enter _ _ _ _ _ _ s2)).
  refine (proj1 (poll_loop_ends no_str no_num 20000 3 loop0 loop3 _)).
  apply (nsteps_l _ _ _ _ _ H1), (nsteps_l _ _ _ _ _ H2), (nsteps_l _ _ _ _ _ H3), nsteps_O.
Defined.

Lemma unsaved_loop_spins n : tick (Nat.iter n (visit no_str no_num 20000 (env_w NotWritten) Saved quiet_w) loop0) = Some ["ada"].
Proof.
  destruct (queue (mem loop0)) as [|[t [|x [|]]] [|]] eqn:Hq; try (by vm_compute in Hq). pose proof Hq as Hq'. vm_compute in Hq'. injection Hq' as <- Hx.
  eapply failing_save_spins; try done; by rewrite <-Hx.
Qed.
