(* ===== verification/QueueErrors.v ===== *)
(** * The delivery queue: failed saves

    A call whose save fails reports it and leaves the queue as it was, up to the identity of the
    objects; due reminders enter the queue all together or not at all. The identity of the objects
    matters to a delivery in progress, and a reminder can be merged into a message that is being
    typed: the last two lemmas. *)

From Stdlib Require Import ZArith QArith Lia String Ascii.
From stdpp Require Import base list strings relations.
From S2P Require Import Prelude OMap Json PaneWatch Reminders DeliveryQueue DeliveryFacts.
Import DeliveryQueue.
#[local] Open Scope stdpp_scope.

(** The same queue, of other objects. *)
Definition untag (x : Entry) : Entry := x <| object := O |>.

Record same_queue (m m' : Mem) : Prop := SameQueue {
  sq_counter : idCounter m' = idCounter m;
  sq_keys : idempotency m' = idempotency m;
  sq_queue : mapEntries untag (queue m') = mapEntries untag (queue m);
}.

#[export] Instance same_queue_equivalence : Equivalence same_queue.
Proof. split; [by split|intros ? ? []; by split|intros ? ? ? [] []; split; congruence]. Qed.

Lemma restore_same m st : same_queue m (mem (restoreQueueState m st)).
Proof.
  split; [done|done|]. change (mapEntries untag (mapEntries (λ e, e <| object := S (generation st) |>) (queue m)) = mapEntries untag (queue m)).
  unfold mapEntries. rewrite <-list_fmap_compose. apply list_fmap_ext. intros i [k es] _. unfold compose, prod_map. cbn [fst snd]. f_equal.
  change (untag <$> ((λ e, e <| object := S (generation st) |>) <$> es) = untag <$> es). rewrite <-list_fmap_compose. by apply list_fmap_ext.
Qed.

Lemma unlock_lock t l : inb t l = false → List.filter (λ k, negb (String.eqb t k)) (l ++ [t]) = l.
Proof.
  intros H. rewrite List.filter_app. cbn. rewrite String.eqb_refl, app_nil_r. induction l as [|k l IH]; [done|].
  cbn in H |- *. apply orb_false_iff in H as [H1 H2]. rewrite H1. cbn. f_equal. by apply IH.
Qed.

(** Nothing but the objects, the diagnostics and, when it was replaced after all, the file is changed. *)
Record undone (o : save_result) (st st' : State) : Prop := Undone {
  un_mem : same_queue (mem st) (mem st');
  un_file : file st' = file st ∨ o = WrittenButFalse;
  un_senders : senders st' = senders st; un_typed : typed st' = typed st; un_locks : locks st' = locks st;
  un_reminders : reminders st' = reminders st; un_reminderFile : reminderFile st' = reminderFile st;
}.

Lemma undone_refl o st : undone o st st.
Proof. split; try done. by left. Qed.

Lemma save_undone o st st1 st2 : saveQueue o st1 = (false, st2) → file st1 = file st → senders st1 = senders st → typed st1 = typed st →
  locks st1 = locks st → reminders st1 = reminders st → reminderFile st1 = reminderFile st → undone o st (restoreQueueState (mem st) st2).
Proof.
  intros Hs H1 H2 H3 H4 H5 H6. destruct o; cbn in Hs; try done; injection Hs as <-; split; try done; try (by apply restore_same); [by left|by right].
Qed.

Lemma undone_emit o n t e r st st' : undone o st st' → undone o st (emit n t e r st').
Proof. intros []. by split. Qed.

Lemma mapSet_rest t es st : locks (mapSet t es st) = locks st ∧ reminders (mapSet t es st) = reminders st ∧ reminderFile (mapSet t es st) = reminderFile st ∧
  file (mapSet t es st) = file st ∧ senders (mapSet t es st) = senders st ∧ typed (mapSet t es st) = typed st.
Proof. unfold mapSet. by destruct (negb _). Qed.

Lemma remove_rest t x st : let st' := removeQueueEntry t x st in
  locks st' = locks st ∧ reminders st' = reminders st ∧ reminderFile st' = reminderFile st ∧ file st' = file st ∧ senders st' = senders st ∧ typed st' = typed st.
Proof.
  unfold removeQueueEntry. cbv zeta. destruct (om_get _ _) as [es|]; [|done].
  match goal with |- context [match ?r with Some _ => _ | None => _ end] => destruct r as [[|y l]|] end; [done| |done]. apply mapSet_rest.
Qed.

Section errors.
Context (num_str : num → string) (str_num : string → num) (IDLE_THRESHOLD : Z) (LIMIT : nat).

(** The calls that change the queue once. *)
Inductive request : Type :=
| Enqueue (body : Body) (key : string)
| Delete (n : option Z)
| Send (n : option Z).

Definition perform (e : Env) (q : request) (st : State) : option Reply * State :=
  match q with
  | Enqueue body key => let '(r, st') := enqueueFromRequestBody num_str e body key st in (Some r, st')
  | Delete n => let '(r, st') := deleteQueued e n st in (Some r, st')
  | Send n => sendNow num_str str_num e n st
  end.

Lemma enqueue_undone e body key st : save1 e ≠ Saved →
  let o := enqueueFromRequestBody num_str e body key st in undone (save1 e) st o.2 ∧ (rp_status o.1 ≠ 200 ∨ rp_deduped o.1 = true).
Proof.
  intros Hs. unfold enqueueFromRequestBody. destruct (negb _); [split; [apply undone_refl|by left]|].
  destruct (if truthy key then _ else None) as [r|]; [split; [apply undone_refl|by right]|]. cbv zeta.
  set (x := accepted num_str e body key st).
  match goal with |- context [saveQueue _ (mapSet ?t ?es ?s)] => destruct (mapSet_rest t es s) as (R1 & R2 & R3 & R4 & R5 & R6); set (st1 := mapSet t es s) in * end.
  destruct (saveQueue (save1 e) st1) as [ok st2] eqn:E. destruct ok; [by destruct (save1 e)|].
  cbn [fst snd]. split; [|by left]. apply undone_emit. by eapply save_undone.
Qed.

Lemma delete_undone e n st : save1 e ≠ Saved → let o := deleteQueued e n st in undone (save1 e) st o.2 ∧ rp_status o.1 ≠ 200.
Proof.
  intros Hs. unfold deleteQueued. destruct (match n with Some n => _ | None => None end) as [[t x]|]; [|by split; [apply undone_refl|]].
  destruct (deliveryState x); [by split; [apply undone_refl|]|]. destruct (remove_rest t x st) as (R1 & R2 & R3 & R4 & R5 & R6).
  destruct (saveQueue (save1 e) (removeQueueEntry t x st)) as [ok st2] eqn:E. destruct ok; [by destruct (save1 e)|].
  cbn [fst snd]. split; [|done]. apply undone_emit. by eapply save_undone.
Qed.

Lemma send_undone e n st : save1 e ≠ Saved → let o := sendNow num_str str_num e n st in undone (save1 e) st o.2 ∧ ∃ r, o.1 = Some r ∧ rp_status r ≠ 200.
Proof.
  intros Hs. unfold sendNow. destruct (match n with Some n => _ | None => None end) as [[t x]|]; [|by split; [apply undone_refl|eexists]].
  destruct (_ || _) eqn:Hb; [by split; [apply undone_refl|eexists]|]. apply orb_false_iff in Hb as [_ Hl].
  unfold claimQueueEntryForDelivery. set (st1 := mutate x _ (lock t st)).
  destruct (saveQueue (save1 e) st1) as [ok st2] eqn:E. destruct ok; [by destruct (save1 e)|]. cbn [fst snd].
  split; [|by eexists]. assert (Hlocks : locks st1 = locks st ++ [t]) by (change (locks st1) with (if inb t (locks st) then locks st else locks st ++ [t]); by rewrite Hl).
  pose proof (save_undone (save1 e) (lock t st) st1 st2 E eq_refl eq_refl eq_refl eq_refl eq_refl eq_refl) as [U1 U2 U3 U4 U5 U6 U7].
  split; [exact U1|exact U2|exact U3|exact U4| |exact U6|exact U7].
  change (List.filter (λ k, negb (String.eqb t k)) (locks (restoreQueueState (mem (lock t st)) st2)) = locks st). rewrite U5.
  change (locks (lock t st)) with (if inb t (locks st) then locks st else locks st ++ [t]). rewrite Hl. by apply unlock_lock.
Qed.

(** A call that cannot write the queue file reports an error and takes back what it did: the
    waiting messages, the receipts, the counter, the locks and the reminders are what they were, and so
    is the file unless it had been replaced before the error; only a call answered from its receipt
    still succeeds, without a save. *)
Theorem failed_save_takes_back e q st :
  save1 e ≠ Saved →
  let o := perform e q st in
  undone (save1 e) st o.2 ∧ ∃ r, o.1 = Some r ∧ (rp_status r ≠ 200 ∨ rp_deduped r = true).
Proof.
  intros Hs. destruct q as [body key|n|n]; unfold perform.
  - pose proof (enqueue_undone e body key st Hs) as [H1 H2]. destruct (enqueueFromRequestBody _ _ _ _ _) as [r st']. split; [exact H1|by exists r].
  - pose proof (delete_undone e n st Hs) as [H1 H2]. destruct (deleteQueued _ _ _) as [r st']. split; [exact H1|exists r; auto].
  - pose proof (send_undone e n st Hs) as [H1 (r & H2 & H3)]. split; [exact H1|exists r; auto].
Qed.

End errors.

(** ** Reminders *)

(** How many reminders an entry carries, and how many wait for a target. *)
Definition weight (x : Entry) : nat := if isReminder x then Nat.max 1 (length (reminderItems x)) else 0%nat.
Definition weights (l : list Entry) : nat := foldr (λ x n, (weight x + n)%nat) 0%nat l.
Definition remindersFor (t : string) (st : State) : nat := weights (bucket t st).

Definition isFor (t : string) (r : Reminder) : bool := String.eqb (trim (rem_target r)) t.

Lemma weights_app l1 l2 : weights (l1 ++ l2) = (weights l1 + weights l2)%nat.
Proof. unfold weights. induction l1 as [|x l1 IH]; [done|]. cbn. rewrite IH. lia. Qed.

Lemma items_length n x : length (reminderItems_of n x) = Nat.max 1 (length (reminderItems x)).
Proof.
  unfold reminderItems_of, Reminders.normalizeReminderItems. destruct (reminderItems x) as [|i l]; [done|].
  rewrite List.length_map. cbn. lia.
Qed.

Lemma weights_mutated x f l : (∀ y, y ∈ l → same_object y x = true → y = x) → NoDup (id <$> l) →
  weights (mutated x f <$> l) = if decide (x ∈ l) then (weights l - weight x + weight (f x))%nat else weights l.
Proof.
  intros Hx Hn. assert (Hge : ∀ l, x ∈ l → (weight x ≤ weights l)%nat).
  { intros k Hk. apply list_elem_of_split in Hk as (l1 & l2 & ->). rewrite weights_app. cbn. lia. }
  induction l as [|y l IH]; [destruct (decide _) as [H|]; [by apply elem_of_nil in H|done]|]. cbn in Hn. apply NoDup_cons in Hn as [Hy Hn].
  assert (IH' := IH (λ z Hz, Hx z (list_elem_of_further _ _ _ Hz)) Hn). clear IH. csimpl. unfold weights at 1. cbn [foldr]. fold (weights (mutated x f <$> l)).
  rewrite IH'. clear IH'. unfold mutated. destruct (same_object y x) eqn:E.
  - assert (y = x) as -> by (apply Hx; [left|done]). assert (Hni : x ∉ l) by (intros Hin; apply Hy, list_elem_of_fmap; by exists x).
    destruct (decide (x ∈ l)) as [|_]; [done|]. destruct (decide (x ∈ x :: l)) as [_|H]; [|exfalso; apply H; left]. cbn. fold (weights l). lia.
  - assert (Hne : x ≠ y) by (intros ->; by rewrite same_object_refl in E). destruct (decide (x ∈ l)) as [Hin|Hni].
    + specialize (Hge l Hin). destruct (decide (x ∈ y :: l)) as [_|H]; [|exfalso; apply H; by right]. cbn. fold (weights l). lia.
    + destruct (decide (x ∈ y :: l)) as [H|_]; [apply elem_of_cons in H as [?|?]; done|]. done.
Qed.

Lemma bucket_mutate t x f st : bucket t (mutate x f st) = mutated x f <$> bucket t st.
Proof.
  unfold bucket. change (queue (mem (mutate x f st))) with (mapEntries (mutated x f) (queue (mem st))). unfold mapEntries.
  rewrite om_get_fmap. by destruct (om_get t (queue (mem st))).
Qed.

Lemma bucket_mapSet t t' es st : bucket t (mapSet t' es st) = if String.eqb t' t then es else bucket t st.
Proof.
  unfold bucket. destruct (mapSet_core t' es st) as (-> & _). change (queue (mem (setQueue ?q st))) with q. rewrite om_get_set. by destruct (String.eqb t' t).
Qed.

Section due.
Context (IDLE_THRESHOLD : Z) (LIMIT : nat).

Lemma enqueueReminder_counts n r t st : inv st → truthy t = true →
  remindersFor t (enqueueReminder LIMIT n r st) = (remindersFor t st + if isFor t r then 1 else 0)%nat.
Proof.
  intros H Ht. unfold enqueueReminder, isFor. cbv zeta. set (tgt := trim (rem_target r)). destruct (truthy tgt) eqn:Htgt; cbn [negb].
  2:{ destruct (String.eqb_spec tgt t) as [Heq|]; [congruence|lia]. }
  set (item := Reminders.reminderItemFromInput _ _ _). set (x := reminderEntry LIMIT n tgt item st).
  assert (Hnew : ∀ s, remindersFor t (mapSet tgt (bucket tgt st ++ [x]) (st <| mem := s |>)) =
    if String.eqb tgt t then (remindersFor t st + 1)%nat else weights (bucket t (st <| mem := s |>))).
  { intros s. unfold remindersFor. rewrite bucket_mapSet. destruct (String.eqb_spec tgt t) as [->|]; [|done]. rewrite weights_app. cbn. lia. }
  destruct (last (bucket tgt st)) as [y|] eqn:Hl.
  - destruct (isReminder y) eqn:Hy.
    2:{ rewrite Hnew. destruct (String.eqb tgt t); [done|]. unfold remindersFor. change (bucket t _) with (bucket t st). lia. }
    apply last_Some in Hl as [l Hl]. assert (Hyb : y ∈ bucket tgt st) by (rewrite Hl; apply elem_of_app; right; left).
    destruct (bucket_entry _ _ _ H Hyb) as [Hyin Hyto]. destruct H as [[[Hi Hk Hb] _ _ _ _] _].
    assert (Huniq : ∀ z, z ∈ bucket t st → same_object z y = true → z = y).
    { intros z Hz E. unfold same_object in E. apply andb_true_iff in E as [E%Z.eqb_eq _]. eapply unique_id; [exact Hi| |done|done].
      rewrite (entriesOf_bucket t) by done. apply elem_of_app. by left. }
    assert (Hnd : NoDup (id <$> bucket t st)).
    { pose proof (io_nodup _ _ _ Hi) as Hn. rewrite (entriesOf_bucket t) in Hn by done. rewrite fmap_app in Hn. by apply NoDup_app in Hn as [? _]. }
    unfold remindersFor. rewrite bucket_mutate, (weights_mutated y _ _ Huniq Hnd).
    assert (Hw : weight (withItems LIMIT n (reminderItems_of n y ++ [item]) y) = S (weight y)).
    { unfold weight. change (isReminder (withItems LIMIT n (reminderItems_of n y ++ [item]) y)) with (isReminder y). rewrite Hy.
      change (reminderItems (withItems LIMIT n (reminderItems_of n y ++ [item]) y)) with (reminderItems_of n y ++ [item]).
      rewrite length_app, items_length. cbn. lia. }
    rewrite Hw. destruct (String.eqb_spec tgt t) as [->|Hne].
    + destruct (decide (y ∈ bucket t st)) as [_|]; [|done]. rewrite Hl, weights_app. cbn. lia.
    + destruct (decide (y ∈ bucket t st)) as [Hin|_]; [|lia]. exfalso. apply Hne. unfold bucket in Hin.
      destruct (om_get t (queue (mem st))) as [es|] eqn:E; [|by apply elem_of_nil in Hin]. rewrite <-Hyto. by eapply bucket_get.
  - apply last_None in Hl. specialize (Hnew ((mem st) <| idCounter := idCounter (mem st) + 1 |>)). rewrite Hl in Hnew. cbn [app] in Hnew.
    rewrite Hnew. destruct (String.eqb tgt t); [done|]. unfold remindersFor. change (bucket t _) with (bucket t st). lia.
Qed.

Definition dueFor (n : Z) (t : string) (st : State) : nat := length (List.filter (isFor t) (List.filter (due n) (reminders st))).

Lemma fired_counts n t l : ∀ st, inv st → truthy t = true →
  let st' := foldl (λ s r, enqueueReminder LIMIT n r s) st l in
  remindersFor t st' = (remindersFor t st + length (List.filter (isFor t) l))%nat.
Proof.
  induction l as [|r l IH]; intros st H Ht; cbn [foldl List.filter]; [cbn; lia|].
  rewrite IH by (try done; by apply inv_enqueueReminder). rewrite enqueueReminder_counts by done. destruct (isFor t r); cbn; lia.
Qed.

Lemma filter_perm {A} (p : A → bool) l l' : l ≡ₚ l' → List.filter p l ≡ₚ List.filter p l'.
Proof.
  induction 1 as [|x l l' _ IH|x y l|l1 l2 l3 _ IH1 _ IH2]; cbn; [done| | |by etrans].
  - destruct (p x); [by f_equiv|done].
  - destruct (p x), (p y); try done. apply Permutation_swap.
Qed.

(** Due reminders reach the queue all together or not at all: either none of them is left and
    every target has exactly as many more reminders waiting as were due for it, in memory and in the
    files, or the reminders and the waiting messages are what they were; the first is the case when
    both saves succeed. *)
Theorem due_reminders_all_or_nothing e st num_str str_num :
  rtc (queue_step num_str str_num IDLE_THRESHOLD LIMIT) state0 st →
  let st' := processDueReminders LIMIT e st in
  (reminders st' = List.filter (λ r, negb (due (now e) r)) (reminders st) ∧
   (∀ t, truthy t = true → remindersFor t st' = (remindersFor t st + dueFor (now e) t st)%nat) ∧
   (st' = st ∨ file st' = Some (imageOf (mem st')) ∧ reminderFile st' = Some (snapshotReminderState st')))
  ∨ (reminders st' = reminders st ∧ same_queue (mem st) (mem st') ∧ ¬ (save1 e = Saved ∧ save2 e = Saved)).
Proof.
  intros H%queue_inv. unfold processDueReminders, dueFor. cbv zeta. set (fired := List.filter (due (now e)) (reverse (reminders st))).
  assert (Hf : fired ≡ₚ List.filter (due (now e)) (reminders st)) by apply filter_perm, reverse_Permutation.
  destruct (length fired =? 0)%nat eqn:E.
  { left. apply Nat.eqb_eq in E. assert (Hnil : List.filter (due (now e)) (reminders st) = []).
    { apply Permutation_length in Hf. by destruct (List.filter (due (now e)) (reminders st)); [|cbn in Hf; lia]. }
    split_and!; [|intros t _; rewrite Hnil; cbn; lia|by left]. apply filter_nil_forallb in Hnil. clear -Hnil.
    induction (reminders st) as [|r l IH]; [done|]. cbn in Hnil |- *. apply andb_true_iff in Hnil as [-> Hl]. f_equal. by apply IH. }
  pose proof (λ t, fired_counts (now e) t fired st H) as Hc. set (sf := foldl _ st fired) in *.
  set (st1 := sf <| reminders := _ |>).
  destruct (save1 e) eqn:E1; cbn [saveQueue negb].
  2,3: (right; split_and!; [done|exact (restore_same (mem st) _)|by intros [? _]]).
  unfold saveReminders. destruct (save2 e) eqn:E2; cbn [fst snd].
  - left. split_and!; [done| |by right]. intros t Ht. change (remindersFor t sf = remindersFor t st + length (List.filter (isFor t) (List.filter (due (now e)) (reminders st))))%nat.
    rewrite Hc by done. by rewrite (Permutation_length (filter_perm (isFor t) _ _ Hf)).
  - right. destruct (save3 e); (split_and!; [done|exact (restore_same (mem st) _)|by intros [_ ?]]).
  - right. destruct (save3 e); (split_and!; [done|exact (restore_same (mem st) _)|by intros [_ ?]]).
Qed.

End due.

(** ** Concrete runs *)

Definition to_text : num → string := λ _, EmptyString.
Definition of_text : string → num := λ _, NaN.
Definition at_ (t : Z) (o : save_result) : Env := MkEnv t o Saved Saved (λ _ _, JNull).
Definition ready : PaneWatch.Observation := PaneWatch.MkObservation "ada" "ada:0.0" PaneWatch.idle (Some 30000) (Some 1) (Some false) None.
Definition mail (n : string) : Body := MkBody "cli" "ada" n JUndef JUndef.
Abbreviation enqueue_r := (enqueueFromRequestBody to_text).
Abbreviation visit_r := (visit to_text of_text 20000 (at_ 2 Saved) Saved ready).

Lemma failed_save_takes_back_witness :
  let st := (enqueue_r (at_ 1 Saved) (mail "hello") "k1" state0).2 in
  let o := perform to_text of_text (at_ 2 NotWritten) (Enqueue (mail "again") "k2") st in
  same_queue (mem st) (mem o.2) ∧ length (allEntries (mem o.2)) = 1%nat.
Proof.
  cbv zeta. split; [|by vm_compute].
  by destruct (failed_save_takes_back to_text of_text (at_ 2 NotWritten) (Enqueue (mail "again") "k2")
                 (enqueue_r (at_ 1 Saved) (mail "hello") "k1" state0).2 ltac:(done)) as [[? _ _ _ _ _ _] _].
Defined.

Definition nudged : State := (createReminder (at_ 1000 Saved) "ada" 5 "tea" state0).2.

Lemma due_reminders_all_or_nothing_witness :
  let st' := processDueReminders 20 (at_ 6000 Saved) nudged in
  remindersFor "ada" st' = 1%nat ∧ reminders st' = [] ∧ (reminders st' = [] ∨ reminders st' = reminders nudged).
Proof.
  cbv zeta. do 2 (split; [by vm_compute|]).
  destruct (due_reminders_all_or_nothing 20000 20 (at_ 6000 Saved) nudged to_text of_text
              ltac:(apply rtc_once, (q_remind _ _ _ _ (at_ 1000 Saved)))) as [[H _]|[H _]].
  - left. by vm_compute.
  - right. exact H.
Defined.

(** A message is claimed and its call of tmux started; a call that fails to save replaces the objects
    in the queue; the call of tmux fails and requeues an object that is no longer in the queue. The
    message stays claimed although nobody delivers it: neither the loop nor an operator can send or
    delete it until the process starts again. *)
Definition stranded : State :=
  let st := visit_r (startTick (enqueue_r (at_ 1 Saved) (mail "hello") EmptyString state0).2) in
  let st := (enqueue_r (at_ 3 NotWritten) (mail "again") EmptyString st).2 in
  timeoutFires 0 (endTick (visit_r (payloadSent (at_ 4 Saved) 0 false st))).

Lemma rollback_strands_message :
  senders stranded = [] ∧ locks stranded = [] ∧ tick stranded = None ∧ typed stranded = [] ∧
  map deliveryState (allEntries (mem stranded)) = [Some delivering] ∧
  (rp_status <$> (sendNow to_text of_text (at_ 5 Saved) (Some 1) stranded).1) = Some 409 ∧
  rp_status (deleteQueued (at_ 5 Saved) (Some 1) stranded).1 = 409 ∧
  mem (endTick (visit_r (startTick stranded))) = mem stranded.
Proof. split_and!; by vm_compute. Qed.

(** A reminder that becomes due while an earlier one is being typed is merged into it after the text
    has been given to tmux, and is removed with it: it never reaches the pane. *)
Definition merged : State :=
  let st := processDueReminders 20 (at_ 6000 Saved) nudged in
  let st := (createReminder (at_ 6000 Saved) "ada" 1 "cake" st).2 in
  let st := payloadSent (at_ 6500 Saved) 0 true (visit_r (startTick st)) in
  enterSent (at_ 8000 Saved) 0 true (processDueReminders 20 (at_ 7000 Saved) st).

Lemma reminder_merged_in_flight_is_lost :
  reminders merged = [] ∧ queue (mem merged) = [] ∧ senders merged = [] ∧
  (λ x, map Reminders.msg (reminderItems x)) <$> typed merged = [["tea"]].
Proof. split_and!; by vm_compute. Qed.
