(* ===== verification/ProjectSideSecrecy.v ===== *)
(** * Project sides: a credential does not leave the store

    Tokens go in and are handed to the callers of [credentialFor] and [pendingCredentialFor]; every other
    answer, the listing, the audit and the errors are the same whatever the tokens are. Two runs are compared whose tokens
    differ by an injective renaming [ρ] (the store compares a new credential with the old one, and
    that comparison shows). *)

From Stdlib Require Import ZArith QArith Qround Lia String Ascii.
From stdpp Require Import base list strings relations.
From S2P Require Import Prelude OMap Json ProjectSides ProjectSideFacts.
Import ProjectSides.
#[local] Open Scope stdpp_scope.

(** ** Objects under a change of their values *)

Section values.
Context {V W : Type} (f : V → W).
Abbreviation fmap_vals := (fmap (prod_map (λ k : string, k) f)).

Lemma om_has_fmap k (m : omap V) : om_has k (fmap_vals m) = om_has k m.
Proof. unfold om_has. rewrite om_get_fmap. by destruct (om_get k m). Qed.

Lemma om_replace_fmap k v (m : omap V) : om_replace k (f v) (fmap_vals m) = fmap_vals (om_replace k v m).
Proof. induction m as [|[k' v'] m IH]; [done|]. cbn. destruct (String.eqb k k'); [done|]. cbn. f_equal. exact IH. Qed.

Lemma index_insert_fmap n k v (m : omap V) : index_insert n k (f v) (fmap_vals m) = fmap_vals (index_insert n k v m).
Proof.
  induction m as [|[k' v'] m IH]; [done|]. cbn. destruct (array_index k') as [n'|]; [|done]. destruct (n' <? n); [|done]. cbn. f_equal. exact IH.
Qed.

Lemma obj_set_fmap k v (m : omap V) : obj_set k (f v) (fmap_vals m) = fmap_vals (obj_set k v m).
Proof.
  unfold obj_set. rewrite om_has_fmap, om_replace_fmap. destruct (om_has k m); [done|].
  destruct (array_index k); [apply index_insert_fmap|by rewrite fmap_app].
Qed.

Lemma om_del_fmap k (m : omap V) : om_del k (fmap_vals m) = fmap_vals (om_del k m).
Proof. unfold om_del. induction m as [|[k' v'] m IH]; [done|]. cbn. destruct (String.eqb k k'); cbn; [exact IH|f_equal; exact IH]. Qed.

Lemma om_vals_fmap (m : omap V) : om_vals (fmap_vals m) = f <$> om_vals m.
Proof. unfold om_vals. induction m as [|[k' v'] m IH]; [done|]. cbn. f_equal. exact IH. Qed.
End values.

(** ** A renaming of the tokens *)

Section secrecy.
Context (num_str : num → string) (str_num : string → num) (parseURL : string → option URL) (before : string → string → bool) (auditLimit : nat).
Context (ρ : string → string) `{!Inj (=) (=) ρ}.

Definition ren_transport (t : Transport) : Transport := MkTransport (t_url t) (ρ (t_token t)) (t_generation t).

Definition ren_credential (c : Credential) : Credential :=
  match c with
  | Appservice t a h u n l => Appservice (ren_transport <$> t) (ρ a) (ρ h) u n l
  | RegistrationToken r p => RegistrationToken (ρ r) (ρ <$> p)
  end.

Definition ren_side (r : Side) : Side :=
  r <| credential_ := ren_credential <$> credential_ r |> <| pendingCredential := ren_credential <$> pendingCredential r |>.

Definition ren_sides (m : omap Side) : omap Side := prod_map (λ k, k) ren_side <$> m.
Definition ren (st : State) : State := MkState (ren_sides (sides st)) (audit st) (prod_map ren_sides (λ a, a) <$> file st).

#[local] Instance ren_transport_inj : Inj (=) (=) ren_transport.
Proof. intros [] [] [= -> H%(inj ρ) ->]. by subst. Qed.

#[local] Instance ren_credential_inj : Inj (=) (=) ren_credential.
Proof.
  intros [t a h u n l|r p] [t' a' h' u' n' l'|r' p']; cbn; try done.
  - intros [= H1%(inj _) H2%(inj _) H3%(inj _) -> -> ->]. by subst.
  - intros [= H1%(inj _) H2%(inj _)]. by subst.
Qed.

Lemma ren_public r : publicSide before (ren_side r) = publicSide before r.
Proof.
  destruct r as [? ? ? ? c p ? ? ? ? ? ? ? ? ? ? ?]. destruct c as [c|]; [destruct c as [t ? ? ? ? ?|]; [destruct t|]|]; by destruct p.
Qed.

Lemma ren_set k r st : setSide k (ren_side r) (ren st) = ren (setSide k r st).
Proof. unfold setSide, ren. cbn. unfold ren_sides. by rewrite <-obj_set_fmap. Qed.

Lemma ren_audit t n d st : _audit auditLimit t n d (ren st) = ren (_audit auditLimit t n d st).
Proof. done. Qed.

(** The same answer, and the renamed state. *)
Definition same {A} (o o' : result A * State) : Prop := o'.1 = o.1 ∧ o'.2 = ren o.2.

Lemma same_finish {A} e (a : A) st : same (finish e a st) (finish e a (ren st)).
Proof. unfold finish. by destruct (save e). Qed.

Lemma same_refuse {A} (x : result A) st : same (x, st) (x, ren st).
Proof. done. Qed.

Lemma same_set {A} e (a : A) t n d k r st :
  same (finish e a (_audit auditLimit t n d (setSide k r st))) (finish e a (_audit auditLimit t n d (setSide k (ren_side r) (ren st)))).
Proof. rewrite ren_set, ren_audit. apply same_finish. Qed.

Lemma same_commit e t n d k r r' st : r' = ren_side r → same (commit before auditLimit e t n d k r st) (commit before auditLimit e t n d k r' (ren st)).
Proof. intros ->. unfold commit. rewrite ren_public. apply same_set. Qed.

Lemma same_with {A} v st (f f' : string → Side → result (option A) * State) :
  (∀ k r, om_get k (sides st) = Some r → same (f k r) (f' k (ren_side r))) → same (with_side v st f) (with_side v (ren st) f').
Proof.
  intros H. unfold with_side. destruct (serverName v) as [k|]; [|done]. cbn [sides ren]. unfold ren_sides. rewrite om_get_fmap.
  destruct (om_get k (sides st)) as [r|] eqn:E; [by apply H|done].
Qed.

Lemma same_side o o' : same o o' → same (side_answer o) (side_answer o').
Proof. intros [H1 H2]. split; [|exact H2]. unfold side_answer. cbn. by rewrite H1. Qed.
Lemma same_project o o' : same o o' → same (project_answer o) (project_answer o').
Proof. intros [H1 H2]. split; [|exact H2]. unfold project_answer. cbn. by rewrite H1. Qed.

(** ** Calls that differ in their tokens *)

(** Both are refused with the same error, or the credentials differ by the renaming. *)
Definition credential_related (v v' : jval) : Prop :=
  match credential num_str parseURL v, credential num_str parseURL v' with
  | Ok c, Ok c' => c' = ren_credential c
  | Throw x, Throw y => x = y
  | _, _ => False
  end.

Definition value_related (v v' : jval) : Prop :=
  match v, v' with
  | JUndef, JUndef | JNull, JNull => True
  | JUndef, _ | _, JUndef | JNull, _ | _, JNull => False
  | _, _ => credential_related v v'
  end.

Inductive related : request → request → Prop :=
| r_upsert i i' : (∀ x, x ≠ "credential" → prop i' x = prop i x) → value_related (prop i "credential") (prop i' "credential") →
    related (UpsertSide i) (UpsertSide i')
| r_credential id v v' stage : value_related v v' → related (SetCredential id v stage) (SetCredential id v' stage)
| r_other q : (∀ i, q ≠ UpsertSide i) → (∀ id v stage, q ≠ SetCredential id v stage) → related q q.

Definition map_ok {A B} (f : A → B) (o : result A) : result B := match o with Ok a => Ok (f a) | Throw x => Throw x end.

Lemma given_related old i i' : value_related (prop i "credential") (prop i' "credential") →
  match prop i' "credential" with
  | JUndef => Ok (ren_credential <$> old) | JNull => Ok None | v => let* c := credential num_str parseURL v in Ok (Some c)
  end =
  map_ok (fmap ren_credential)
    match prop i "credential" with JUndef => Ok old | JNull => Ok None | v => let* c := credential num_str parseURL v in Ok (Some c) end.
Proof.
  destruct (prop i "credential"), (prop i' "credential"); try done; cbn [value_related]; unfold credential_related;
    (destruct (credential num_str parseURL _) as [c|x]); (destruct (credential num_str parseURL _) as [c'|x']); try done; by intros ->.
Qed.

Lemma ren_cred_eq (o o' : option Credential) : bool_decide (ren_credential <$> o = ren_credential <$> o') = bool_decide (o = o').
Proof. apply bool_decide_ext. split; [apply (inj (fmap ren_credential))|by intros ->]. Qed.

Lemma given_null v v' : value_related v v' →
  match v' with JNull => Ok None | v => let* c := credential num_str parseURL v in Ok (Some c) end =
  map_ok (fmap ren_credential) match v with JNull => Ok None | v => let* c := credential num_str parseURL v in Ok (Some c) end.
Proof.
  destruct v, v'; try done; cbn [value_related]; unfold credential_related;
    (destruct (credential num_str parseURL _) as [c|x]); (destruct (credential num_str parseURL _) as [c'|x']); try done; by intros ->.
Qed.

Lemma kind_ren c : kindOf (ren_credential c) = kindOf c.
Proof. by destruct c. Qed.
Lemma ren_kind (o : option Credential) : kindOf <$> (ren_credential <$> o) = kindOf <$> o.
Proof. by destruct o as [[]|]. Qed.
Lemma ren_bind (o : option Side) : (ren_side <$> o) ≫= credential_ = ren_credential <$> (o ≫= credential_).
Proof. by destruct o. Qed.

Lemma ren_bind_pending (o : option Side) : (ren_side <$> o) ≫= pendingCredential = ren_credential <$> (o ≫= pendingCredential).
Proof. by destruct o. Qed.

Lemma upserted_ren i i' k existing t : (∀ x, x ≠ "credential" → prop i' x = prop i x) → value_related (prop i "credential") (prop i' "credential") →
  upserted num_str parseURL i' k (ren_side <$> existing) t = map_ok ren_side (upserted num_str parseURL i k existing t).
Proof.
  intros Hp Hv. pose proof (given_related (existing ≫= credential_) _ _ Hv) as Hg. unfold upserted. rewrite !(Hp "label"), !(Hp "api_base_url"), !(Hp "apiBaseUrl") by done.
  destruct existing as [x|]; cbn [fmap option_fmap option_map mbind option_bind] in *.
  - change (label (ren_side x)) with (label x). change (apiBaseUrl_ (ren_side x)) with (apiBaseUrl_ x).
    change (credential_ (ren_side x)) with (ren_credential <$> credential_ x). rewrite Hg.
    destruct (if is_undef (prop i "label") then Ok (label x) else _) as [l|]; [|done].
    destruct (if _ && _ then Ok (apiBaseUrl_ x) else _) as [base|]; [|done].
    match goal with |- context[map_ok (fmap ren_credential) ?g] => destruct g as [c|] end; [|done].
    cbn [bind map_ok]. rewrite ren_cred_eq. by destruct (bool_decide _).
  - change (None : option Credential) with (ren_credential <$> None) in Hg at 1. cbn [fmap option_fmap option_map] in Hg. rewrite Hg.
    destruct (text _ 255) as [l|]; [|done]. destruct (apiBaseUrl _ _) as [base|]; [|done].
    match goal with |- context[map_ok (fmap ren_credential) ?g] => destruct g as [c|] end; [|done].
    cbn [bind map_ok]. by destruct c.
Qed.

Lemma upsert_same e i i' st : (∀ x, x ≠ "credential" → prop i' x = prop i x) → value_related (prop i "credential") (prop i' "credential") →
  same (upsertSide num_str parseURL before auditLimit e i st) (upsertSide num_str parseURL before auditLimit e i' (ren st)).
Proof.
  intros Hp Hv. unfold upsertSide. rewrite !(Hp "server_name"), !(Hp "serverName") by done.
  destruct (serverName _) as [k|]; [|done]. cbn [sides ren]. unfold ren_sides at 1 2 3 4. rewrite om_get_fmap. change (option_map ren_side) with (fmap ren_side).
  rewrite (upserted_ren i i') by done. destruct (upserted _ _ i _ _ _) as [r|]; [|done]. cbn [map_ok].
  change (credential_ (ren_side r)) with (ren_credential <$> credential_ r). rewrite ren_kind, ren_bind, ren_cred_eq.
  destruct (om_get k (sides st)); by apply same_commit.
Qed.

Lemma credential_same e id v v' stage st : value_related v v' →
  same (setCredential num_str parseURL before auditLimit e id v stage st) (setCredential num_str parseURL before auditLimit e id v' stage (ren st)).
Proof.
  intros Hv. unfold setCredential. apply same_with. intros k r _. rewrite (given_null v v' Hv).
  destruct (match v with JNull => Ok None | _ => _ end) as [[c|]|]; cbn [map_ok]; [|by apply same_commit|done].
  change (credential_ (ren_side r)) with (ren_credential <$> credential_ r). cbn [fmap option_fmap option_map]. rewrite kind_ren.
  destruct stage, (credential_ r); by apply same_commit.
Qed.

Lemma remove_same e id force cleanup st :
  same (removeSide before auditLimit e id force cleanup st) (removeSide before auditLimit e id force cleanup (ren st)).
Proof.
  apply same_with. intros k r Hr. change (active (ren_side r)) with (active r). destruct (active r && _); [done|]. rewrite ren_public.
  cbv zeta. change (sides (ren st)) with (ren_sides (sides st)). unfold ren_sides at 1. rewrite om_del_fmap.
  set (st1 := _audit _ _ _ _ (st <| sides := om_del k (sides st) |>)). change (_audit _ _ _ _ _) with (ren st1) at 1.
  destruct (same_finish e (Some (publicSide before r)) st1) as [Ea Es]. destruct (finish e _ st1) as [a st2], (finish e _ (ren st1)) as [a' st2'].
  cbn [fst snd] in Ea, Es. subst a' st2'. destruct a; [done|]. split; [done|]. unfold ren; cbn. f_equal. unfold ren_sides. by rewrite <-obj_set_fmap.
Qed.

Lemma other_same e q st : (∀ i, q ≠ UpsertSide i) → (∀ id v stage, q ≠ SetCredential id v stage) →
  same (exec num_str str_num parseURL before auditLimit e q st) (exec num_str str_num parseURL before auditLimit e q (ren st)).
Proof.
  intros H1 H2. destruct q; cbn [exec]; try (by exfalso; eapply H1); try (by exfalso; eapply H2);
    first [apply same_side|apply same_project]; try apply remove_same; apply same_with; intros k r _; cbv zeta.
  - destruct (is_nullish tokens); [by apply same_commit|]. destruct (to_number _ _ _); try done. destruct (Qeq_bool _ _ && _); [by apply same_commit|done].
  - change (pendingCredential (ren_side r)) with (ren_credential <$> pendingCredential r). destruct (pendingCredential r); [|done].
    cbn [fmap option_fmap option_map]. rewrite kind_ren. by apply same_commit.
  - destruct (text _ _) as [s|]; [|done]. destruct (negb _); [done|]. destruct (optional_text _ _); [by apply same_commit|].
    split; [done|]. exact (ren_set k (r <| accessState := s |>) st).
  - destruct (text _ _) as [m|]; [|done]. destruct (String.prefix "@" m); [|done]. destruct (index_of ":" m); [|done].
    change (serverName_ (ren_side r)) with (serverName_ r). destruct (negb _); [done|by apply same_commit].
  - change (projects (ren_side r)) with (projects r). destruct (projectFrom _ _ _ _ _) as [p|]; [|done].
    exact (same_set e _ _ _ _ k (r <| projects := obj_set (p_id p) p (projects r) |> <| updatedAt := now e 0 |>) st).
  - change (projects (ren_side r)) with (projects r). set (i := lower _). destruct (om_get i (projects r)) as [p|]; [|done].
    set (p' := p <| archived := _ |> <| archivedAt := _ |> <| p_updatedAt := _ |>).
    exact (same_set e _ _ _ _ k (r <| projects := obj_set i p' (projects r) |> <| updatedAt := now e 0 |>) st).
  - by apply same_commit.
Qed.

Lemma exec_same e q q' st : related q q' →
  same (exec num_str str_num parseURL before auditLimit e q st) (exec num_str str_num parseURL before auditLimit e q' (ren st)).
Proof.
  intros [i i' Hp Hv|id v v' stage Hv|q0 H1 H2]; cbn [exec].
  - apply same_side, upsert_same; done.
  - by apply same_side, credential_same.
  - apply other_same; done.
Qed.

(** ** Runs *)

Inductive event : Type := Call (e : Env) (q : request) | Restart.

(** The answers of the calls, in order, and the state after them. *)
Fixpoint run (l : list event) (st : State) : list (result answer) * State :=
  match l with
  | [] => ([], st)
  | Restart :: l => run l (_load auditLimit (file st))
  | Call e q :: l => let o := exec num_str str_num parseURL before auditLimit e q st in let rest := run l o.2 in (o.1 :: rest.1, rest.2)
  end.

Inductive event_related : event → event → Prop :=
| e_call e q q' : related q q' → event_related (Call e q) (Call e q')
| e_restart : event_related Restart Restart.

Lemma load_ren st : _load auditLimit (file (ren st)) = ren (_load auditLimit (file st)).
Proof. unfold _load, ren. cbn. by destruct (file st) as [[s a]|]. Qed.

Lemma run_same l l' st : Forall2 event_related l l' → (run l' (ren st)).1 = (run l st).1 ∧ (run l' (ren st)).2 = ren (run l st).2.
Proof.
  intros H. revert st. induction H as [|x x' l l' [e q q' Hq|] _ IH]; intros st; [done| |].
  - cbn [run fst snd]. destruct (exec_same e q q' st Hq) as [E1 E2]. rewrite E1, E2. destruct (IH (exec num_str str_num parseURL before auditLimit e q st).2) as [I1 I2].
    by rewrite I1, I2.
  - cbn [run]. rewrite load_ren. apply IH.
Qed.

Lemma list_ren active st : listSides before active (ren st) = listSides before active st.
Proof.
  unfold listSides. cbn [sides ren]. unfold ren_sides. rewrite om_vals_fmap. change (fmap ren_side) with (List.map ren_side). rewrite List.map_map.
  by rewrite (List.map_ext _ _ (λ r, ren_public r)).
Qed.

Lemma get_ren v st : getSide before v (ren st) = getSide before v st.
Proof.
  unfold getSide. destruct (serverName v) as [k|]; [|done]. cbn [sides ren]. unfold ren_sides. rewrite om_get_fmap.
  destruct (om_get k (sides st)) as [r|]; [|done]. exact (f_equal Some (ren_public r)).
Qed.

Lemma room_ren v st : projectForRoom num_str v (ren st) = projectForRoom num_str v st.
Proof.
  unfold projectForRoom. cbv zeta. destruct (index_of ":" _) as [[|n]|]; [done| |done]. cbn [sides ren]. unfold ren_sides. rewrite om_get_fmap.
  by destruct (om_get _ (sides st)).
Qed.

(** C26. Two runs of the store whose calls differ only in the tokens of the credentials they are given,
    with restarts and failed saves, give the same answers and the same errors, and afterwards the same
    sides, projects and audit are listed: nothing a caller gets tells one token from another, except
    that the store reports whether a credential equals the one before (the tokens differ by an injective
    renaming). Credentials are handed out by [credentialFor] and [pendingCredentialFor] only, whose answers
    in the two runs differ in nothing but the renamed tokens. *)
Theorem secrets_never_answered l l' st :
  Forall2 event_related l l' →
  let st1 := (run l st).2 in let st2 := (run l' (ren st)).2 in
  (run l' (ren st)).1 = (run l st).1 ∧
  (∀ active, listSides before active st2 = listSides before active st1) ∧
  (∀ v, getSide before v st2 = getSide before v st1) ∧
  (∀ v, projectForRoom num_str v st2 = projectForRoom num_str v st1) ∧
  listAudit st2 = listAudit st1 ∧
  (∀ v, credentialFor v st2 = map_ok (fmap ren_credential) (credentialFor v st1)) ∧
  (∀ v, pendingCredentialFor v st2 = map_ok (fmap ren_credential) (pendingCredentialFor v st1)).
Proof.
  intros H st1 st2. destruct (run_same l l' st H) as [E1 E2]. subst st1 st2. rewrite E2. split_and!; [done|..].
  - intros active. apply list_ren.
  - intros v. apply get_ren.
  - intros v. apply room_ren.
  - done.
  - intros v. unfold credentialFor. destruct (serverName v) as [k|]; [|done]. cbn [bind sides ren map_ok]. unfold ren_sides. rewrite om_get_fmap.
    exact (f_equal Ok (ren_bind _)).
  - intros v. unfold pendingCredentialFor. destruct (serverName v) as [k|]; [|done]. cbn [bind sides ren map_ok]. unfold ren_sides. rewrite om_get_fmap.
    exact (f_equal Ok (ren_bind_pending _)).
Qed.

End secrecy.

(** A customer enrolled with one registration token and then with another, twice with the bytes of the
    tokens changed. *)
Definition side_with (token : string) : jval := JObj [("server_name", JStr "example.org"); ("api_base_url", JStr "https://example.org");
  ("credential", JObj [("kind", JStr "registrationToken"); ("registrationToken", JStr token)])].
Definition calls_with (first second : string) : list event :=
  [Call (at_ Saved) (UpsertSide (side_with first)); Call (at_ NotWritten) (SetCredential (JStr "example.org") (prop (side_with second) "credential") true);
   Restart; Call (at_ Saved) (UpsertSide (side_with second)); Call (at_ Saved) (RemoveSide (JStr "example.org") false JUndef)].
Definition longer (s : string) : string := String "x" s.

#[local] Instance longer_inj : Inj (=) (=) longer.
Proof. by intros s s' [= ->]. Qed.

Lemma side_with_prop a b x : x ≠ "credential" → prop (side_with b) x = prop (side_with a) x.
Proof. intros Hx. unfold side_with, prop. cbn -[String.eqb]. by apply String.eqb_neq in Hx as ->. Qed.

Lemma secrets_never_answered_witness :
  let go := run (λ _, "0") (λ _, NaN) parse0 String.ltb 10 in
  (go (calls_with "xa" "xb") (empty 10)).1 = (go (calls_with "a" "b") (empty 10)).1 ∧
  getSide String.ltb (JStr "example.org") (go (calls_with "xa" "xb") (empty 10)).2 = getSide String.ltb (JStr "example.org") (go (calls_with "a" "b") (empty 10)).2 ∧
  (List.map is_ok (go (calls_with "a" "b") (empty 10)).1) = [true; false; true; false].
Proof.
  intros go. assert (H : Forall2 (event_related (λ _, "0") parse0 longer) (calls_with "a" "b") (calls_with "xa" "xb")).
  { repeat constructor; try done; by apply side_with_prop. }
  destruct (secrets_never_answered (λ _, "0") (λ _, NaN) parse0 String.ltb 10 longer _ _ (empty 10) H) as (E1 & _ & E2 & _).
  split_and!; [exact E1|exact (E2 (JStr "example.org"))|by vm_compute].
Defined.
