(* ===== verification/NotificationRouter.v ===== *)
(** * The notification router ([lib/notification-router.js]): data and operations

    Events of a family pass a circuit breaker and a cooldown per key, and are handed to the sinks at
    once or gathered for a window and handed over as one aggregate. Emissions, timers, promises of
    sinks, pruning, clearing and destruction are the events of one thread; a sink does not call the
    router. The families, the sinks' names and the persisted cooldown are the constructor's arguments. *)

From Stdlib Require Import ZArith Lia String Ascii.
From stdpp Require Import base list strings.
From S2P Require Import Prelude OMap.
#[local] Open Scope stdpp_scope.

(** The store of a persisted cooldown: [read] and [write] on a state of their own. A write never takes
    a mark back: what is read is at least the older of the mark and the time written. *)
Class CooldownStore (W : Type) := {
  cd_read : string → W → Z;
  cd_write : string → Z → W → W;
  cd_write_read k k' ts w : Z.min (cd_read k w) ts ≤ cd_read k (cd_write k' ts w);
}.

Module NotificationRouter.

Definition PRUNE_INTERVAL_MS : Z := 60000.
Definition HARD_CAP_PER_FAMILY : nat := Z.to_nat 5000.
Definition MIN_MAX_AGE_MS : Z := 300000.

Section model.
Context {Payload W : Type} `{!CooldownStore W}.

(** ** Configuration *)

Record Breaker : Type := MkBreaker { threshold : Z; cb_cooldownMs : Z }.

(** [FamilyConfig]; [maxBurst] is 0 when absent. *)
Record FamilyConfig : Type := MkConfig {
  cooldownMs : Z; aggregateWindowMs : option Z; maxBurst : Z; dedupeKeyFn : option (Payload → string);
  aggregateFn : option (omap Payload → option Payload); circuitBreaker : option Breaker; persistedCooldown : bool; c_sinks : option (list string);
}.

Context (config : omap FamilyConfig) (sinks : list string).

Record Options : Type := MkOptions { dedupeKey : option string; bypassCooldown : bool; skipPersistedWrite : bool }.

(** ** State *)

(** [buffer] holds the buffered payloads of an aggregating family; [flushTimer] the time it is due. *)
Record FamilyState : Type := MkFamily {
  lastEmitAt : omap Z; buffer : option (omap Payload); pendingCooldownOptions : option (omap bool); flushTimer : option Z;
  burstCount : omap Z; cbFails : Z; cbOpenUntil : Z;
}.
#[export] Instance eta_family : Settable FamilyState := λ s,
  MkFamily (lastEmitAt s) (buffer s) (pendingCooldownOptions s) (flushTimer s) (burstCount s) (cbFails s) (cbOpenUntil s).

(** Promises of sinks that a breaker watches, with the age of the family objects they refer to:
    [destroy] drops those objects, and what their promises do then is not seen by anyone. *)
Record State : Type := MkState { families : omap FamilyState; world : W; promises : list (nat * string); age : nat; pruning : bool }.
#[export] Instance eta_state : Settable State := λ s, MkState (families s) (world s) (promises s) (age s) (pruning s).

Definition init (w : W) : State := MkState [] w [] 0 true.

(** What a sink does when it is called: it throws, returns, or returns a promise. *)
Inductive sink_result : Type := Threw | Returned | Promised.

(** The clock of an event and what the sinks do during it. *)
Record Env : Type := MkEnv { now : nat → Z; sinkDoes : string → string → sink_result }.

(** A call of a sink; [keys] are the keys of the payloads it carries. *)
Record Call : Type := MkCall { to : string; of_family : string; payload : Payload; aggregated : bool; at_ : Z; keys : list string }.

Inductive reason : Type := unknown_family | circuit_open | persisted_cooldown | cooldown | burst_flush | buffered | dispatched.
Record Answer : Type := MkAnswer { accepted : bool; why : reason }.

Definition setFamily (f : string) (s : FamilyState) (st : State) : State := st <| families := om_set f s (families st) |>.

(** ** Operations *)

Definition fresh (cfg : FamilyConfig) : FamilyState :=
  let hasAggregation := match aggregateFn cfg, aggregateWindowMs cfg with Some _, Some w => 0 <=? w | _, _ => false end in
  MkFamily [] (if hasAggregation then Some [] else None) (if hasAggregation then Some [] else None) None [] 0 0.

Definition _getState (f : string) (cfg : FamilyConfig) (st : State) : FamilyState * State :=
  match om_get f (families st) with
  | Some s => (s, st)
  | None => (fresh cfg, setFamily f (fresh cfg) st)
  end.

(** The sinks are called in order; a promise is watched when the family has a breaker. *)
Fixpoint callSinks (e : Env) (f : string) (cfg : FamilyConfig) (p : Payload) (agg : bool) (t : Z) (ks : list string) (names : list string) (st : State)
    : bool * State * list Call :=
  match names with
  | [] => (false, st, [])
  | n :: names =>
      if negb (inb n sinks) then callSinks e f cfg p agg t ks names st else
      let r := sinkDoes e f n in
      let st := match r, circuitBreaker cfg with Promised, Some _ => st <| promises := promises st ++ [(age st, f)] |> | _, _ => st end in
      let '(d, st, calls) := callSinks e f cfg p agg t ks names st in
      (match r with Threw => d | _ => true end, st, MkCall n f p agg t ks :: calls)
  end.

Definition _dispatch (e : Env) (f : string) (cfg : FamilyConfig) (p : Payload) (agg : bool) (t : Z) (ks : list string) (st : State) : bool * State * list Call :=
  callSinks e f cfg p agg t ks (match c_sinks cfg with Some l => l | None => sinks end) st.

Definition _commitCooldown (f : string) (cfg : FamilyConfig) (k : string) (ts : Z) (skip : bool) (st : State) : State :=
  match om_get f (families st) with
  | None => st
  | Some s =>
      let st := setFamily f (s <| lastEmitAt := om_set k ts (lastEmitAt s) |>) st in
      if persistedCooldown cfg && negb skip then st <| world := cd_write k ts (world st) |> else st
  end.

(** [flush]; the aggregate is dispatched and, when a sink took it, the cooldown of its keys starts. *)
Definition flush (e : Env) (t : Z) (f : string) (st : State) : State * list Call :=
  match om_get f config, om_get f (families st) with
  | Some cfg, Some s =>
      match buffer s with
      | Some (x :: b) =>
          let entries := x :: b in
          let opts := default [] (pendingCooldownOptions s) in
          let st := setFamily f (s <| flushTimer := None |> <| buffer := Some [] |> <| pendingCooldownOptions := (λ _, []) <$> pendingCooldownOptions s |>
                                   <| burstCount := [] |>) st in
          match (match aggregateFn cfg with Some g => g entries | None => None end) with
          | None => (st, [])
          | Some p =>
              let '(took, st, calls) := _dispatch e f cfg p true t (om_keys entries) st in
              (if took then fold_left (λ st k, _commitCooldown f cfg k t (default false (om_get k opts)) st) (om_keys entries) st else st, calls)
          end
      | _ => (st, [])
      end
  | _, _ => (st, [])
  end.

Definition _scheduleFlush (e : Env) (f : string) (cfg : FamilyConfig) (st : State) : State * list Call :=
  let ms := default 0 (aggregateWindowMs cfg) in
  if ms <=? 0 then flush e (now e 1) f st else
  match om_get f (families st) with
  | Some s => match flushTimer s with
              | Some _ => (st, [])
              | None => (setFamily f (s <| flushTimer := Some (now e 1 + ms) |>) st, [])
              end
  | None => (st, [])
  end.

Definition keyOf (cfg : FamilyConfig) (p : Payload) (o : Options) : string :=
  match dedupeKeyFn cfg with
  | Some g => g p
  | None => match truthy_opt (dedupeKey o) with Some k => k | None => "default" end
  end.

(** The two gates; [Some r] refuses. *)
Definition gate (cfg : FamilyConfig) (s : FamilyState) (k : string) (t : Z) (o : Options) (w : W) : option reason :=
  if is_Some_b (circuitBreaker cfg) && (t <? cbOpenUntil s) then Some circuit_open else
  if bypassCooldown o then None else
  if persistedCooldown cfg then (if (0 <? cooldownMs cfg) && (t - cd_read k w <? cooldownMs cfg) then Some persisted_cooldown else None)
  else if (0 <? cooldownMs cfg) && (t - default 0 (om_get k (lastEmitAt s)) <? cooldownMs cfg) then Some cooldown else None.

Definition emit (e : Env) (f : string) (p : Payload) (o : Options) (st : State) : Answer * State * list Call :=
  match om_get f config with
  | None => (MkAnswer false unknown_family, st, [])
  | Some cfg =>
      let '(s, st) := _getState f cfg st in
      let t := now e 0 in
      let k := keyOf cfg p o in
      match gate cfg s k t o (world st) with
      | Some r => (MkAnswer false r, st, [])
      | None =>
          match buffer s with
          | Some b =>
              let burst := default 0 (om_get k (burstCount s)) + 1 in
              let s := s <| buffer := Some (om_set k p b) |> <| pendingCooldownOptions := om_set k (skipPersistedWrite o) <$> pendingCooldownOptions s |>
                         <| burstCount := om_set k burst (burstCount s) |> in
              let st := setFamily f s st in
              if negb (maxBurst cfg =? 0) && (maxBurst cfg <=? burst) then
                let '(st, calls) := flush e (now e 1) f st in (MkAnswer true burst_flush, st, calls)
              else
                let '(st, calls) := _scheduleFlush e f cfg st in (MkAnswer true buffered, st, calls)
          | None =>
              let '(took, st, calls) := _dispatch e f cfg p false t [k] st in
              (MkAnswer true dispatched, if took then _commitCooldown f cfg k t (skipPersistedWrite o) st else st, calls)
          end
      end
  end.

(** The callback of [setTimeout]. *)
Definition timerFires (e : Env) (f : string) (st : State) : State * list Call :=
  match om_get f (families st) with
  | Some s => match flushTimer s with
              | Some due => if due <=? now e 0 then flush e (now e 0) f (setFamily f (s <| flushTimer := None |>) st) else (st, [])
              | None => (st, [])
              end
  | None => (st, [])
  end.

Definition ofAgent (a k : string) : bool := String.eqb k a || String.prefix (a +:+ ":") k.
Definition drop_keys {V} (a : string) (m : omap V) : omap V := List.filter (λ x, negb (ofAgent a x.1)) m.

Definition clearAgent (a : string) (st : State) : State :=
  st <| families := prod_map (λ k, k) (λ s, s <| lastEmitAt := drop_keys a (lastEmitAt s) |> <| burstCount := drop_keys a (burstCount s) |>
                       <| buffer := drop_keys a <$> buffer s |> <| pendingCooldownOptions := drop_keys a <$> pendingCooldownOptions s |>) <$> families st |>.

(** The [i]-th of the promises that are watched settles. *)
Definition settles (e : Env) (i : nat) (fulfilled : bool) (st : State) : State :=
  match promises st !! i with
  | None => st
  | Some (a, f) =>
      let st := st <| promises := delete i (promises st) |> in
      if negb (Nat.eqb a (age st)) then st else
      match om_get f (families st), om_get f config ≫= circuitBreaker with
      | Some s, Some b =>
          if fulfilled then setFamily f (s <| cbFails := 0 |>) st else
          let fails := cbFails s + 1 in
          if threshold b <=? fails then setFamily f (s <| cbOpenUntil := now e 0 + cb_cooldownMs b |> <| cbFails := 0 |>) st
          else setFamily f (s <| cbFails := fails |>) st
      | _, _ => st
      end
  end.

Definition older (x y : string * Z) : bool := x.2 <? y.2.

Definition pruneFamily (t : Z) (f : string) (s : FamilyState) : FamilyState :=
  let maxAge := match om_get f config with
                | Some cfg => Z.max (Z.max (cooldownMs cfg) (default 0 (aggregateWindowMs cfg))) MIN_MAX_AGE_MS
                | None => MIN_MAX_AGE_MS
                end in
  let live := List.filter (λ x, negb (x.2 <? t - maxAge)) (lastEmitAt s) in
  let excess := (length live - HARD_CAP_PER_FAMILY)%nat in
  s <| lastEmitAt := fold_left (λ m k, om_del k m) (om_keys (take excess (stable_sort older live))) live |>.

(** The callback of [setInterval]. *)
Definition _pruneStale (e : Env) (st : State) : State :=
  if pruning st then st <| families := List.map (λ x, (x.1, pruneFamily (now e 0) x.1 x.2)) (families st) |> else st.

Fixpoint flushAll (e : Env) (n : nat) (fs : list string) (st : State) : State * list Call :=
  match fs with
  | [] => (st, [])
  | f :: fs => let '(st, calls) := flush e (now e n) f st in let '(st, more) := flushAll e (S n) fs st in (st, calls ++ more)
  end.

Definition destroy (e : Env) (st : State) : State * list Call :=
  let '(st, calls) := flushAll e 0 (om_keys (families st)) (st <| pruning := false |>) in
  (st <| families := [] |> <| age := S (age st) |>, calls).

(** ** Events *)

Inductive event : Type :=
| Emit (f : string) (p : Payload) (o : Options)
| Timer (f : string)
| Settle (i : nat) (fulfilled : bool)
| Prune
| Clear (a : string)
| Destroy.

Definition exec (e : Env) (x : event) (st : State) : State * list Call :=
  match x with
  | Emit f p o => let '(_, st, calls) := emit e f p o st in (st, calls)
  | Timer f => timerFires e f st
  | Settle i ok => (settles e i ok st, [])
  | Prune => (_pruneStale e st, [])
  | Clear a => (clearAgent a st, [])
  | Destroy => destroy e st
  end.

Fixpoint run (l : list (Env * event)) (st : State) : State * list Call :=
  match l with
  | [] => (st, [])
  | (e, x) :: l => let '(st, calls) := exec e x st in let '(st, more) := run l st in (st, calls ++ more)
  end.

End model.

(** The cooldown of blocked agents, kept in the runtime records of the backend ([lastBlockedNotificationTs]
    of the agents that have one). *)
Definition runtime_read (k : string) (w : omap Z) : Z := Z.max 0 (default 0 (om_get k w)).
Definition runtime_write (k : string) (ts : Z) (w : omap Z) : omap Z := if om_has k w then om_replace k ts w else w.

Lemma runtime_write_read k k' ts w : Z.min (runtime_read k w) ts ≤ runtime_read k (runtime_write k' ts w).
Proof.
  unfold runtime_read, runtime_write. destruct (om_has k' w) eqn:E; [|lia]. rewrite om_get_replace.
  destruct (String.eqb_spec k' k) as [->|]; [rewrite E; cbn; lia|lia].
Qed.

#[export] Instance runtimeCooldown : CooldownStore (omap Z) :=
  {| cd_read := runtime_read; cd_write := runtime_write; cd_write_read := runtime_write_read |}.

End NotificationRouter.
