(* ===== verification/RouterFacts.v ===== *)
(** * The notification router: cooldowns, aggregates, the breaker

    What a dispatch and a flush do to the state; the events of a family between two calls of its sinks;
    the way of an accepted payload to the sinks; the breaker against a count of consecutive failures. *)

From Stdlib Require Import ZArith Lia String Ascii.
From stdpp Require Import base list strings.
From S2P Require Import Prelude OMap NotificationRouter.
Import NotificationRouter.
#[local] Open Scope stdpp_scope.

Section facts.
Context {Payload W : Type} `{!CooldownStore W} (config : omap (@FamilyConfig Payload)) (sinks : list string).

Abbreviation State := (@State Payload W).
Abbreviation family st f := (om_get f (families st)).

(** ** Dispatch *)

Definition names (cfg : @FamilyConfig Payload) : list string :=
  List.filter (λ n, inb n sinks) (match c_sinks cfg with Some l => l | None => sinks end).

Definition takes (e : Env) (f n : string) : bool := match sinkDoes e f n with Threw => false | _ => true end.

Definition callsOf (f : string) (cfg : FamilyConfig) (p : Payload) (agg : bool) (t : Z) (ks : list string) : list Call :=
  List.map (λ n, MkCall n f p agg t ks) (names cfg).

(** The promises that a dispatch leaves. *)
Definition watched (st : State) (f : string) (cfg : @FamilyConfig Payload) (ps : list (nat * string)) : Prop :=
  ∀ x, x ∈ ps → x = (age st, f) ∧ circuitBreaker cfg ≠ None.

Lemma callSinks_spec e f cfg p agg t ks l (st : State) : ∃ ps, watched st f cfg ps ∧
  callSinks sinks e f cfg p agg t ks l st =
    (existsb (takes e f) (List.filter (λ n, inb n sinks) l), st <| promises := promises st ++ ps |>,
     List.map (λ n, MkCall n f p agg t ks) (List.filter (λ n, inb n sinks) l)).
Proof.
  revert st. induction l as [|n l IH]; intros st; cbn [callSinks List.filter].
  - exists []. split; [by intros x ?%elem_of_nil|]. destruct st; cbn. by rewrite app_nil_r.
  - destruct (inb n sinks); cbn [negb]; [|apply IH]. cbn [existsb List.map].
    set (st1 := match sinkDoes e f n, circuitBreaker cfg with Promised, Some _ => _ | _, _ => _ end).
    assert (∃ qs, watched st f cfg qs ∧ st1 = st <| promises := promises st ++ qs |>) as (qs & Hq & E).
    { unfold st1. destruct (sinkDoes e f n), (circuitBreaker cfg) eqn:Ec;
        try (exists []; split; [by intros x ?%elem_of_nil|destruct st; cbn; by rewrite app_nil_r]).
      exists [(age st, f)]. split; [|done]. intros x ->%list_elem_of_singleton. by rewrite Ec. }
    clearbody st1. subst st1. destruct (IH (st <| promises := promises st ++ qs |>)) as (ps & Hp & ->). exists (qs ++ ps). split.
    + intros x [Hx|Hx]%elem_of_app; [by apply Hq|by apply Hp].
    + cbn. rewrite app_assoc. unfold takes at 2. by destruct (sinkDoes e f n).
Qed.

Lemma dispatch_spec e f cfg p agg t ks (st : State) : ∃ ps, watched st f cfg ps ∧
  _dispatch sinks e f cfg p agg t ks st = (existsb (takes e f) (names cfg), st <| promises := promises st ++ ps |>, callsOf f cfg p agg t ks).
Proof. apply callSinks_spec. Qed.

(** ** Commits *)

(** [f] is now [s], and the rest of the router is as it was but for the persisted marks, which are no
    older than before or than [t]. *)
Record only (f : string) (t : Z) (s : FamilyState) (st st' : State) : Prop := Only {
  o_family : family st' f = Some s;
  o_other : ∀ g, g ≠ f → family st' g = family st g;
  o_keys : om_keys (families st') = om_keys (families st) ∨ family st f = None ∧ om_keys (families st') = om_keys (families st) ++ [f];
  o_world : ∀ k, Z.min (cd_read k (world st)) t ≤ cd_read k (world st');
  o_promises : promises st' = promises st; o_age : age st' = age st; o_pruning : pruning st' = pruning st;
}.

Lemma only_set f t s (st : State) : only f t s st (setFamily f s st).
Proof.
  split; cbn; try done; [by rewrite om_get_set_eq|intros g Hg; by rewrite om_get_set_ne| |lia].
  destruct (om_get f (families st)) eqn:E; [left; by apply om_keys_set_old; rewrite E|right]. split; [done|]. rewrite om_keys_set_new by done.
  unfold om_keys. by rewrite fmap_app.
Qed.

Lemma only_trans f t s s' (st st' st'' : State) : only f t s st st' → only f t s' st' st'' → only f t s' st st''.
Proof.
  intros [A1 A2 A3 A4 A5 A6 A7] [B1 B2 B3 B4 B5 B6 B7]. split; try congruence.
  - intros g Hg. rewrite B2, A2; done.
  - destruct B3 as [B3|[B3 _]]; [|congruence]. by rewrite B3.
  - intros k. specialize (A4 k). specialize (B4 k). lia.
Qed.

Definition marks (ks : list string) (t : Z) (m : omap Z) : omap Z := fold_left (λ m k, om_set k t m) ks m.

Lemma marks_get ks t m k : om_get k (marks ks t m) = if decide (k ∈ ks) then Some t else om_get k m.
Proof.
  unfold marks. revert m. induction ks as [|k' ks IH]; intros m; cbn [fold_left].
  - case_decide; [by apply elem_of_nil in H|done].
  - rewrite IH, om_get_set. repeat case_decide; try done.
    + exfalso. apply H0. by right.
    + destruct (String.eqb_spec k' k) as [->|]; [done|]. exfalso. apply elem_of_cons in H0 as [->|]; done.
    + destruct (String.eqb_spec k' k) as [->|]; [|done]. exfalso. apply H0. by left.
Qed.

Lemma commit_only f cfg k t skip (st : State) s : family st f = Some s →
  only f t (s <| lastEmitAt := om_set k t (lastEmitAt s) |>) st (_commitCooldown f cfg k t skip st).
Proof.
  intros Hs. unfold _commitCooldown. rewrite Hs. destruct (persistedCooldown cfg && negb skip); [|apply only_set].
  destruct (only_set f t (s <| lastEmitAt := om_set k t (lastEmitAt s) |>) st). split; try done. intros k'. cbn. apply cd_write_read.
Qed.

Lemma commits_only f cfg ks t (skip : string → bool) (st : State) s : family st f = Some s →
  only f t (s <| lastEmitAt := marks ks t (lastEmitAt s) |>) st (fold_left (λ st k, _commitCooldown f cfg k t (skip k) st) ks st).
Proof.
  revert st s. induction ks as [|k ks IH]; intros st s Hs; cbn [fold_left].
  - split; try done; [destruct s; apply Hs|by left|lia].
  - pose proof (commit_only f cfg k t (skip k) st s Hs) as H1. eapply only_trans; [exact H1|].
    exact (IH _ _ (o_family _ _ _ _ _ H1)).
Qed.

(** ** A flush *)

Definition aggregateOf (cfg : @FamilyConfig Payload) (entries : omap Payload) : option Payload :=
  match aggregateFn cfg with Some g => g entries | None => None end.
Definition cleared (s : @FamilyState Payload) : FamilyState :=
  s <| flushTimer := None |> <| buffer := Some [] |> <| pendingCooldownOptions := (λ _, []) <$> pendingCooldownOptions s |> <| burstCount := [] |>.
Definition handed (f : string) (cfg : FamilyConfig) (t : Z) (entries : omap Payload) : list Call :=
  match aggregateOf cfg entries with Some p => callsOf f cfg p true t (om_keys entries) | None => [] end.
Definition took (e : Env) (f : string) (cfg : FamilyConfig) (entries : omap Payload) : bool :=
  is_Some_b (aggregateOf cfg entries) && existsb (takes e f) (names cfg).

Lemma only_promises f t s (st st' : State) ps : only f t s (st <| promises := ps |>) st' →
  only f t s st (st' <| promises := promises st |>) ∧ st' = st' <| promises := promises st |> <| promises := ps |>.
Proof. intros []. split; [by split|]. destruct st'; cbn in *; by subst. Qed.

Lemma flush_spec e t f cfg (st : State) s x b : om_get f config = Some cfg → family st f = Some s → buffer s = Some (x :: b) →
  ∃ ps st', watched st f cfg ps ∧
    only f t (cleared s <| lastEmitAt := if took e f cfg (x :: b) then marks (om_keys (x :: b)) t (lastEmitAt s) else lastEmitAt s |>) st st' ∧
    flush config sinks e t f st = (st' <| promises := promises st ++ ps |>, handed f cfg t (x :: b)).
Proof.
  intros Hc Hs Hb. unfold flush. rewrite Hc, Hs, Hb. cbv zeta. set (s1 := s <| flushTimer := _ |> <| buffer := _ |> <| pendingCooldownOptions := _ |> <| burstCount := _ |>).
  pose proof (only_set f t s1 st) as H1. set (st1 := setFamily f s1 st) in *. unfold handed, took. fold (aggregateOf cfg (x :: b)).
  destruct (aggregateOf cfg (x :: b)) as [p|]; cbn [is_Some_b andb].
  - destruct (dispatch_spec e f cfg p true t (om_keys (x :: b)) st1) as (ps & Hp & ->). change (promises st1) with (promises st).
    destruct (existsb (takes e f) (names cfg)).
    + set (opts := default [] _). set (st2 := st1 <| promises := _ |>).
      pose proof (commits_only f cfg (om_keys (x :: b)) t (λ k, default false (om_get k opts)) st2 s1 (o_family _ _ _ _ _ H1)) as H2.
      apply only_promises in H2 as [H2 E2]. eexists ps, _. split; [exact Hp|]. split; [eapply only_trans; [exact H1|exact H2]|].
      f_equal. exact E2.
    + exists ps, st1. split; [done|]. split; [exact H1|done].
  - exists [], st1. split; [by intros y ?%elem_of_nil|]. split; [exact H1|]. f_equal. destruct st; cbn. by rewrite app_nil_r.
Qed.

Lemma flush_idle e t f (st : State) : (∀ cfg s x b, om_get f config = Some cfg → family st f = Some s → buffer s = Some (x :: b) → False) →
  flush config sinks e t f st = (st, []).
Proof.
  intros H. unfold flush. destruct (om_get f config) as [cfg|] eqn:E1; [|done]. destruct (family st f) as [s|] eqn:E2; [|done].
  destruct (buffer s) as [[|x b]|] eqn:E3; try done. exfalso. by eapply H.
Qed.

End facts.

(** ** The notification router: the cooldown keeps calls apart

    From a call that a sink took for a key, every later call for that key is at least a cooldown
    away, in any interleaving of emissions, timers, promises and pruning: the mark of the call stays
    where the gate reads it, or is only pruned when it is too old to matter. *)

From Stdlib Require Import ZArith Lia String Ascii.
From stdpp Require Import base list strings.
From S2P Require Import Prelude OMap NotificationRouter.
Import NotificationRouter.
#[local] Open Scope stdpp_scope.

(** ** One mark per key *)

Section nodup.
Context {Payload W : Type} `{!CooldownStore W} (config : omap (@FamilyConfig Payload)) (sinks : list string).
Abbreviation State := (@State Payload W).
Abbreviation family st f := (om_get f (families st)).

Lemma marks_nodup ks t m : NoDup (om_keys m) → NoDup (om_keys (marks ks t m)).
Proof. unfold marks. revert m. induction ks as [|x ks IH]; intros m Hm; [done|]. cbn. by apply IH, om_nodup_set. Qed.

Definition nodups (st : State) : Prop := ∀ g s, family st g = Some s → NoDup (om_keys (lastEmitAt s)).

Lemma nodups_only g t s st st' : nodups st → only g t s st st' → NoDup (om_keys (lastEmitAt s)) → nodups st'.
Proof.
  intros H Ho Hs g' s' E. destruct (decide (g' = g)) as [->|Hg].
  - rewrite (o_family _ _ _ _ _ Ho) in E. by injection E as <-.
  - rewrite (o_other _ _ _ _ _ Ho) in E by done. by eapply H.
Qed.

Lemma nodups_set g s st : nodups st → NoDup (om_keys (lastEmitAt s)) → nodups (setFamily g s st).
Proof. intros H Hs. exact (nodups_only g 0 s st _ H (only_set g 0 s st) Hs). Qed.

Lemma nodups_flush e t g st : nodups st → nodups (flush config sinks e t g st).1.
Proof.
  intros H. destruct (om_get g config) as [cfg|] eqn:Ec; [|by rewrite flush_idle by congruence].
  destruct (family st g) as [s|] eqn:Es; [|by rewrite flush_idle by congruence].
  destruct (buffer s) as [[|x b]|] eqn:Eb; try (by rewrite flush_idle by congruence).
  destruct (flush_spec config sinks e t g cfg st s x b Ec Es Eb) as (ps & st' & _ & Ho & ->). enough (H1 : nodups st') by exact H1. eapply (nodups_only g t); [exact H|exact Ho|].
  cbn -[om_keys]. destruct (took _ _ _ _ _); [apply marks_nodup|]; by eapply H.
Qed.

Lemma nodups_schedule e g cfg st : nodups st → nodups (_scheduleFlush config sinks e g cfg st).1.
Proof.
  intros H. unfold _scheduleFlush. cbv zeta. destruct (_ <=? 0); [by apply nodups_flush|]. destruct (family st g) as [s|] eqn:Es; [|done].
  destruct (flushTimer s); [done|]. apply nodups_set; [done|]. exact (H _ _ Es).
Qed.

Lemma nodups_emit e g p o st : nodups st → nodups (emit config sinks e g p o st).1.2.
Proof.
  intros H. unfold emit. destruct (om_get g config) as [cfg|]; [|done].
  assert (∃ s st0, _getState g cfg st = (s, st0) ∧ nodups st0 ∧ family st0 g = Some s) as (s & st0 & -> & H0 & Hs).
  { unfold _getState. destruct (family st g) as [s|] eqn:Es; [eauto|]. eexists _, _. split; [done|]. split; [|cbn; by rewrite om_get_set_eq].
    apply nodups_set; [done|]. apply NoDup_nil_2. }
  cbv zeta. destruct (gate _ _ _ _ _ _); [done|]. destruct (buffer s) as [b|].
  - set (s1 := s <| buffer := _ |> <| pendingCooldownOptions := _ |> <| burstCount := _ |>).
    assert (H1 : nodups (setFamily g s1 st0)) by (apply nodups_set; [done|exact (H0 _ _ Hs)]). destruct (negb _ && _).
    + pose proof (nodups_flush e (now e 1) g _ H1). by destruct (flush _ _ _ _ _ _).
    + pose proof (nodups_schedule e g cfg _ H1). by destruct (_scheduleFlush _ _ _ _ _ _).
  - destruct (dispatch_spec sinks e g cfg p false (now e 0) [keyOf cfg p o] st0) as (ps & _ & ->). cbn [fst snd]. destruct (existsb _ _); [|exact H0].
    eapply nodups_only; [|eapply commit_only; exact Hs|]; [exact H0|]. cbn. apply om_nodup_set. exact (H0 _ _ Hs).
Qed.

Lemma nodups_settle e i ok st : nodups st → nodups (settles config e i ok st).
Proof.
  intros H. unfold settles. destruct (promises st !! i) as [[a g]|]; [|done]. set (st1 := st <| promises := _ |>).
  assert (H1 : nodups st1) by exact H. destruct (negb _); [done|]. destruct (family st1 g) as [s|] eqn:Es; [|done].
  destruct (_ ≫= _); [|done]. destruct ok; [|destruct (_ <=? _)]; (apply nodups_set; [done|]); exact (H1 _ _ Es).
Qed.

Lemma fold_del_nodup {V} (ks : list string) (m : omap V) : NoDup (om_keys m) → NoDup (om_keys (fold_left (λ m k, om_del k m) ks m)).
Proof. revert m. induction ks as [|x ks IH]; intros m Hm; [done|]. cbn. by apply IH, om_nodup_del. Qed.

Lemma om_get_map_keyed {A B} (h : string → A → B) x (m : omap A) : om_get x (List.map (λ y, (y.1, h y.1 y.2)) m) = h x <$> om_get x m.
Proof. induction m as [|[y v] m IH]; [done|]. cbn. destruct (String.eqb_spec x y) as [->|]; [done|exact IH]. Qed.

Lemma nodups_exec e x st : nodups st → nodups (exec config sinks e x st).1.
Proof.
  intros H. destruct x as [g p o|g|i ok| |a|]; cbn [exec fst].
  - pose proof (nodups_emit e g p o st H). by destruct (emit _ _ _ _ _ _ _) as [[? ?] ?].
  - unfold timerFires. destruct (family st g) as [s|] eqn:Es; [|done]. destruct (flushTimer s) as [due|]; [|done]. destruct (due <=? now e 0); [|done].
    apply nodups_flush, nodups_set; [done|exact (H _ _ Es)].
  - by apply nodups_settle.
  - unfold _pruneStale. destruct (pruning st); [|done]. intros g s. cbn [families]. cbn. rewrite om_get_map_keyed.
    destruct (om_get g (families st)) as [s0|] eqn:E; [|done]. intros [= <-]. apply fold_del_nodup, om_nodup_filter. by eapply H.
  - intros g s. cbn. rewrite om_get_fmap. destruct (om_get g (families st)) as [s0|] eqn:E; [|done]. intros [= <-]. cbn.
    apply om_nodup_filter. by eapply H.
  - unfold destroy. by destruct (flushAll _ _ _ _ _ _).
Qed.

Lemma nodups_run l st : nodups st → nodups (run config sinks l st).1.
Proof.
  revert st. induction l as [|[e x] l IH]; intros st H; [done|]. cbn [run]. pose proof (nodups_exec e x st H) as H1.
  destruct (exec config sinks e x st) as [st1 calls]. specialize (IH st1 H1). by destruct (run config sinks l st1).
Qed.

End nodup.

Section spacing.
Context {Payload W : Type} `{!CooldownStore W} (config : omap (@FamilyConfig Payload)) (sinks : list string).
Abbreviation State := (@State Payload W).
Abbreviation family st f := (om_get f (families st)).

(** One family with a cooldown, one key, and the time [t0] of a call that was taken. *)
Context (f k : string) (cfg : @FamilyConfig Payload) (Hcfg : om_get f config = Some cfg) (Hcd : 0 < cooldownMs cfg) (t0 : Z).

Definition waits (s : @FamilyState Payload) : Prop := ∃ b, buffer s = Some b ∧ k ∈ om_keys b.

(** What the gate reads is [t0] or newer, or [t0] is a cooldown ago. *)
Definition marked (t : Z) (s : @FamilyState Payload) (w : W) : Prop :=
  if persistedCooldown cfg then t0 ≤ cd_read k w ∨ cooldownMs cfg ≤ t - t0
  else match om_get k (lastEmitAt s) with Some ts => t0 ≤ ts | None => cooldownMs cfg ≤ t - t0 end.

Record spaced_s (t : Z) (s : @FamilyState Payload) (w : W) : Prop := SpacedS {
  sp_marked : marked t s w;
  sp_waits : waits s → cooldownMs cfg ≤ t - t0;
  sp_nodup : NoDup (om_keys (lastEmitAt s));
}.

Definition spaced (t : Z) (st : State) : Prop := t0 ≤ t ∧ ∃ s, family st f = Some s ∧ spaced_s t s (world st).

Definition far (calls : list (@Call Payload)) : Prop := ∀ c, c ∈ calls → of_family c = f → k ∈ keys c → cooldownMs cfg ≤ at_ c - t0.

Lemma far_nil : far [].
Proof. by intros c ?%elem_of_nil. Qed.

Lemma far_app l l' : far l → far l' → far (l ++ l').
Proof. intros H H' c [Hc|Hc]%elem_of_app; eauto. Qed.

Lemma far_callsOf g cfg' p agg t ks : (g = f → k ∈ ks → cooldownMs cfg ≤ t - t0) → far (callsOf sinks g cfg' p agg t ks).
Proof. intros H c (n & -> & _)%list_elem_of_fmap Hg Hk. by apply H. Qed.

Lemma marked_weaken t t' s w : t ≤ t' → marked t s w → marked t' s w.
Proof. unfold marked. intros Ht. destruct (persistedCooldown cfg); [intros [|]; [by left|right; lia]|]. destruct (om_get k (lastEmitAt s)); lia. Qed.

Lemma spaced_weaken t t' st : t ≤ t' → spaced t st → spaced t' st.
Proof.
  intros Ht [H0 (s & Hs & [H1 H2 H3])]. split; [lia|]. exists s. split; [done|]. split; [by eapply marked_weaken|intros; specialize (H2 ltac:(done)); lia|done].
Qed.

(** Marks do not get older. *)
Lemma marked_newer t t' s s' w w' : t ≤ t' → t0 ≤ t' → marked t s w → (∀ k, Z.min (cd_read k w) t' ≤ cd_read k w') →
  (∀ ts, om_get k (lastEmitAt s) = Some ts → ∃ ts', om_get k (lastEmitAt s') = Some ts' ∧ (ts' = ts ∨ t0 ≤ ts')) →
  (om_get k (lastEmitAt s) = None → ∀ ts, om_get k (lastEmitAt s') = Some ts → t0 ≤ ts) → marked t' s' w'.
Proof.
  unfold marked. intros Ht H0 H Hw H1 H2. destruct (persistedCooldown cfg).
  - specialize (Hw k). destruct H; [left; lia|right; lia].
  - destruct (om_get k (lastEmitAt s)) as [ts|].
    + destruct (H1 ts eq_refl) as (ts' & -> & [->|]); lia.
    + destruct (om_get k (lastEmitAt s')) as [ts|]; [by eapply H2|lia].
Qed.

(** [f] becomes [s'], whose marks are those of [s] or set at [t']. *)
Lemma spaced_only t t' s s' st st' : spaced t st → family st f = Some s → t ≤ t' → only f t' s' st st' →
  (lastEmitAt s' = lastEmitAt s ∨ ∃ ks, lastEmitAt s' = marks ks t' (lastEmitAt s)) → (waits s' → cooldownMs cfg ≤ t' - t0) → spaced t' st'.
Proof.
  intros [H0 (s1 & Hs1 & [H1 H2 H3])] Hs Ht Ho Hm Hw. rewrite Hs1 in Hs. injection Hs as ->. split; [lia|]. exists s'. split; [apply Ho|]. split; [|done|].
  - eapply (marked_newer t t' s); [done|lia|done|apply Ho| |].
    + intros ts E. destruct Hm as [->|(ks & ->)]; [eauto|]. rewrite marks_get. case_decide; [|eauto]. eexists. split; [done|right; lia].
    + intros E ts. destruct Hm as [->|(ks & ->)]; [by rewrite E|]. rewrite marks_get. case_decide; [|by rewrite E]. intros [= <-]. lia.
  - destruct Hm as [->|(ks & ->)]; [done|]. unfold marks. revert H3. generalize (lastEmitAt s). induction ks as [|k' ks IH]; intros m Hm; [done|].
    cbn. apply IH. by apply om_nodup_set.
Qed.

Lemma spaced_other g t t' s' st st' : g ≠ f → spaced t st → t ≤ t' → only g t' s' st st' → spaced t' st'.
Proof.
  intros Hg [H0 (s & Hs & [H1 H2 H3])] Ht Ho. split; [lia|]. exists s. split; [rewrite (o_other _ _ _ _ _ Ho); [done|by apply not_eq_sym]|].
  split; [|intros Hw; specialize (H2 Hw); lia|done].
  eapply (marked_newer t t' s); [done|lia|done|apply Ho|eauto|intros E ts; by rewrite E].
Qed.

Lemma spaced_flush e t t' g st : spaced t st → t ≤ t' →
  spaced t' (flush config sinks e t' g st).1 ∧ far (flush config sinks e t' g st).2.
Proof.
  intros H Ht. destruct (om_get g config) as [cfg'|] eqn:Ec.
  2: { rewrite flush_idle by congruence. split; [by eapply spaced_weaken|apply far_nil]. }
  destruct (family st g) as [s|] eqn:Es.
  2: { rewrite flush_idle by congruence. split; [by eapply spaced_weaken|apply far_nil]. }
  destruct (buffer s) as [[|x b]|] eqn:Eb.
  1,3: (rewrite flush_idle by congruence; split; [by eapply spaced_weaken|apply far_nil]).
  destruct (flush_spec config sinks e t' g cfg' st s x b Ec Es Eb) as (ps & st' & _ & Ho & ->). cbn [fst snd].
  assert (spaced t' st' ∧ (g = f → k ∈ om_keys (x :: b) → cooldownMs cfg ≤ t' - t0)) as [H1 H2].
  { destruct (decide (g = f)) as [->|Hg]; [|split; [by eapply spaced_other|done]]. split.
    - eapply (spaced_only t t'); [done|exact Es|done|exact Ho| |].
      + cbn -[om_keys]. destruct (took _ _ _ _ _); [right; by eexists|by left].
      + intros (b' & Hb' & Hk). cbn in Hb'. injection Hb' as <-. by apply elem_of_nil in Hk.
    - intros _ Hk. destruct H as [_ (s1 & Hs1 & [_ Hw _])]. rewrite Es in Hs1. injection Hs1 as <-.
      assert (cooldownMs cfg ≤ t - t0) by (apply Hw; by exists (x :: b)). lia. }
  split; [exact H1|]. unfold handed. destruct (aggregateOf cfg' (x :: b)); [by apply far_callsOf|apply far_nil].
Qed.

(** ** The events that leave the cooldown alone *)

(** No emission for the key that bypasses the cooldown, the agent of the key is not cleared, the
    router not destroyed, and no pruning finds more keys than the cap. *)
Definition ordinary (st : State) (x : @event Payload) : Prop :=
  match x with
  | Emit g p o => g = f → keyOf cfg p o = k → bypassCooldown o = false
  | Clear a => ofAgent a k = false
  | Prune => ∀ s, family st f = Some s → (length (lastEmitAt s) ≤ HARD_CAP_PER_FAMILY)%nat
  | Destroy => False
  | Timer _ | Settle _ _ => True
  end.

Lemma gate_far s k' t o w : spaced_s t s w → gate cfg s k' t o w = None → k' = k → bypassCooldown o = false → cooldownMs cfg ≤ t - t0.
Proof.
  intros [Hm _ _] Hg -> Hb. unfold gate in Hg. rewrite Hb in Hg. destruct (_ && (t <? _)); [done|]. unfold marked in Hm. destruct (persistedCooldown cfg).
  - destruct (_ && _) eqn:E in Hg; [done|]. apply andb_false_iff in E as [E%Z.ltb_ge|E%Z.ltb_ge]; [lia|]. destruct Hm; lia.
  - destruct (_ && _) eqn:E in Hg; [done|]. apply andb_false_iff in E as [E%Z.ltb_ge|E%Z.ltb_ge]; [lia|].
    destruct (om_get k (lastEmitAt s)); cbn in E; lia.
Qed.

Lemma spaced_schedule e t g cfg' st : spaced t st → (∀ n, t ≤ now e n) → ∀ t', (∀ n, now e n ≤ t') →
  spaced t' (_scheduleFlush config sinks e g cfg' st).1 ∧ far (_scheduleFlush config sinks e g cfg' st).2.
Proof.
  intros H Ht t' Ht'. unfold _scheduleFlush. pose proof (Ht 1%nat) as T1. pose proof (Ht' 1%nat) as T2. cbv zeta. destruct (_ <=? 0).
  { destruct (spaced_flush e t (now e 1) g st) as [H1 H2]; [done|done|]. split; [by eapply spaced_weaken|done]. }
  destruct (family st g) as [s|] eqn:Es; [|split; [eapply spaced_weaken; [|done]; lia|apply far_nil]].
  destruct (flushTimer s); cbn [fst snd]; (split; [|apply far_nil]); [eapply spaced_weaken; [|done]; lia|].
  set (s' := s <| flushTimer := _ |>). pose proof (only_set g t' s' st) as Ho. destruct (decide (g = f)) as [->|Hg]; [|eapply spaced_other; [done|done| |done]; lia].
  eapply (spaced_only t t' s); [done|done|lia|done|by left|]. destruct H as [_ (s1 & Hs1 & [_ Hw _])]. rewrite Es in Hs1. injection Hs1 as <-.
  intros Hw'. assert (cooldownMs cfg ≤ t - t0) by (by apply Hw). lia.
Qed.

Lemma spaced_put t g s s' st : spaced t st → family st g = Some s → lastEmitAt s' = lastEmitAt s → (g = f → waits s' → cooldownMs cfg ≤ t - t0) →
  spaced t (setFamily g s' st).
Proof.
  intros H Hs Hl Hw. pose proof (only_set g t s' st) as Ho. destruct (decide (g = f)) as [->|Hg]; [|eapply spaced_other; [done|done| |done]; lia].
  eapply (spaced_only t t s); [done|done|lia|done|by left|by apply Hw].
Qed.

Lemma spaced_getState t g cfg' st : spaced t st → om_get g config = Some cfg' → ∃ s st0, _getState g cfg' st = (s, st0) ∧ spaced t st0 ∧ family st0 g = Some s.
Proof.
  intros H Hc. unfold _getState. destruct (family st g) as [s|] eqn:E; [eauto|]. eexists _, _. split; [done|]. split; [|cbn; by rewrite om_get_set_eq].
  pose proof (only_set g t (fresh cfg') st) as Ho. eapply (spaced_other g t t); [|done|lia|done]. intros ->. destruct H as [_ (s & Hs & _)]. congruence.
Qed.

Lemma elem_of_om_keys {V} (x : string) (m : omap V) : x ∈ om_keys m ↔ is_Some (om_get x m).
Proof. rewrite <-not_eq_None_Some, om_get_None. destruct (decide (x ∈ om_keys m)); tauto. Qed.

Lemma elem_of_keys_set {V} (x y : string) (v : V) m : x ∈ om_keys (om_set y v m) → x = y ∨ x ∈ om_keys m.
Proof.
  unfold om_set. destruct (om_has y m); [rewrite om_keys_replace; auto|]. unfold om_keys. rewrite fmap_app, elem_of_app.
  cbn. rewrite list_elem_of_singleton. tauto.
Qed.

(** The readings of the clock during an event, which lies between [t] and [t']. *)
Definition clock (t : Z) (e : Env) (t' : Z) : Prop := t ≤ now e 0 ∧ ∀ n, now e 0 ≤ now e n ≤ t'.

Lemma spaced_emit e t t' g p o st : spaced t st → clock t e t' → ordinary st (Emit g p o) →
  spaced t' (exec config sinks e (Emit g p o) st).1 ∧ far (exec config sinks e (Emit g p o) st).2.
Proof.
  intros H [Ht0 Ht] Ho. cbn [exec]. unfold emit. assert (Hu : spaced (now e 0) st) by (by eapply spaced_weaken).
  assert (Hend : ∀ st' n, spaced (now e n) st' → spaced t' st') by (intros st' n; apply spaced_weaken, Ht).
  destruct (om_get g config) as [cfg'|] eqn:Ec; [|split; [by eapply Hend|apply far_nil]].
  destruct (spaced_getState (now e 0) g cfg' st Hu Ec) as (s & st0 & -> & H0 & Hs). cbv zeta. set (k' := keyOf cfg' p o).
  destruct (gate cfg' s k' (now e 0) o (world st0)) as [r|] eqn:Eg; [split; [by eapply Hend|apply far_nil]|].
  assert (Hk : g = f → k' = k → cooldownMs cfg ≤ now e 0 - t0).
  { intros -> Ek. assert (cfg' = cfg) as -> by congruence. destruct H0 as [_ (s1 & Hs1 & Hsp)]. rewrite Hs1 in Hs. injection Hs as <-.
    eapply gate_far; [exact Hsp|exact Eg|done|by apply Ho]. }
  destruct (buffer s) as [b|] eqn:Eb.
  - set (s1 := s <| buffer := _ |> <| pendingCooldownOptions := _ |> <| burstCount := _ |>).
    assert (H1 : spaced (now e 0) (setFamily g s1 st0)).
    { eapply spaced_put; [done|exact Hs|done|]. intros -> (b' & Hb' & Hin). cbn in Hb'. injection Hb' as <-. apply elem_of_keys_set in Hin as [->|Hin]; [by apply Hk|].
      destruct H0 as [_ (s2 & Hs2 & [_ Hw _])]. rewrite Hs2 in Hs. injection Hs as <-. apply Hw. by exists b. }
    destruct (negb _ && _).
    + pose proof (spaced_flush e (now e 0) (now e 1) g _ H1 (proj1 (Ht 1%nat))) as [H2 H3]. destruct (flush _ _ _ _ _ _). split; [by eapply Hend|done].
    + pose proof (spaced_schedule e (now e 0) g cfg' _ H1 (λ n, proj1 (Ht n)) t' (λ n, proj2 (Ht n))) as H2. by destruct (_scheduleFlush _ _ _ _ _ _).
  - destruct (dispatch_spec sinks e g cfg' p false (now e 0) [k'] st0) as (ps & _ & ->).
    assert (Hfar : far (callsOf sinks g cfg' p false (now e 0) [k'])) by (apply far_callsOf; intros -> ->%list_elem_of_singleton; by apply Hk).
    set (st1 := st0 <| promises := _ |>). assert (H1 : spaced (now e 0) st1) by exact H0. destruct (existsb _ _); (split; [|exact Hfar]); [|by eapply Hend].
    pose proof (commit_only g cfg' k' (now e 0) (skipPersistedWrite o) st1 s Hs) as Hc. apply (Hend _ 0%nat). cbn [fst snd].
    destruct (decide (g = f)) as [->|Hg]; [|eapply spaced_other; [done|exact H1| |exact Hc]; lia].
    eapply (spaced_only (now e 0)); [exact H1|exact Hs|lia|exact Hc|right; by exists [k']|]. intros (b & Hb & _). cbn in Hb. congruence.
Qed.

Lemma spaced_timer e t t' g st : spaced t st → clock t e t' →
  spaced t' (exec config sinks e (Timer g) st).1 ∧ far (exec config sinks e (Timer g) st).2.
Proof.
  intros H [Ht0 Ht]. assert (Hu : spaced (now e 0) st) by (by eapply spaced_weaken). pose proof (proj2 (Ht 0%nat)) as Hle.
  cbn [exec]. unfold timerFires. destruct (family st g) as [s|] eqn:Es; [|split; [by eapply spaced_weaken|apply far_nil]].
  destruct (flushTimer s) as [due|]; [|split; [by eapply spaced_weaken|apply far_nil]].
  destruct (due <=? now e 0); [|split; [by eapply spaced_weaken|apply far_nil]].
  set (s' := s <| flushTimer := None |>). assert (H1 : spaced (now e 0) (setFamily g s' st)).
  { eapply spaced_put; [done|exact Es|done|]. intros ->. destruct Hu as [_ (s1 & Hs1 & [_ Hw _])]. rewrite Hs1 in Es. by injection Es as ->. }
  destruct (spaced_flush e (now e 0) (now e 0) g _ H1 (Z.le_refl _)) as [H2 H3]. split; [by eapply spaced_weaken|done].
Qed.

Lemma spaced_settle e i ok t st : spaced t st → spaced t (settles config e i ok st).
Proof.
  intros H. unfold settles. destruct (promises st !! i) as [[a g]|]; [|done]. set (st1 := st <| promises := _ |>).
  assert (H1 : spaced t st1) by exact H. destruct (negb _); [exact H1|]. destruct (family st1 g) as [s|] eqn:Es; [|exact H1].
  destruct (om_get g config ≫= circuitBreaker) as [b|]; [|exact H1].
  assert (Hp : ∀ s', lastEmitAt s' = lastEmitAt s → buffer s' = buffer s → spaced t (setFamily g s' st1)).
  { intros s' Hl Hb. eapply spaced_put; [done|exact Es|done|]. intros -> (b' & Hb' & Hin). destruct H1 as [_ (s1 & Hs1 & [_ Hw _])].
    rewrite Hs1 in Es. injection Es as ->. apply Hw. exists b'. split; [congruence|done]. }
  destruct ok; [by apply Hp|]. destruct (_ <=? _); by apply Hp.
Qed.

Lemma spaced_prune e t t' st : spaced t st → clock t e t' → ordinary st Prune → spaced t' (_pruneStale config e st).
Proof.
  intros H [Ht0 Ht] Ho. eapply (spaced_weaken (now e 0)); [apply (Ht 0%nat)|]. eapply spaced_weaken in H; [|exact Ht0]. unfold _pruneStale.
  destruct (pruning st); [|done]. destruct H as [H0 (s & Hs & [H1 H2 H3])]. split; [done|]. exists (pruneFamily config (now e 0) f s). cbn [families].
  split; [cbn; by rewrite om_get_map_keyed, Hs|]. unfold pruneFamily. rewrite Hcfg. set (maxAge := Z.max _ _).
  set (live := List.filter _ _). assert (Hlen : (length live ≤ HARD_CAP_PER_FAMILY)%nat).
  { unfold live. etransitivity; [apply filter_length_le|]. by apply Ho. }
  replace (length live - HARD_CAP_PER_FAMILY)%nat with 0%nat by lia. rewrite take_0. cbn [om_keys fmap list_fmap fold_left].
  assert (Hget : ∀ ts, om_get k live = Some ts ↔ om_get k (lastEmitAt s) = Some ts ∧ negb (ts <? now e 0 - maxAge) = true).
  { intros ts. exact (om_get_filter (λ _ v, negb (v <? now e 0 - maxAge)) _ H3 k ts). }
  assert (cooldownMs cfg ≤ maxAge) by lia. split; [|exact H2|by apply om_nodup_filter].
  unfold marked in *. destruct (persistedCooldown cfg); [done|]. cbn. destruct (om_get k live) as [ts|] eqn:E.
  - destruct (proj1 (Hget ts) eq_refl) as [E' _]. by rewrite E' in H1.
  - destruct (om_get k (lastEmitAt s)) as [ts|] eqn:E'; [|done]. destruct (Z.ltb_spec ts (now e 0 - maxAge)); [lia|].
    exfalso. assert (None = Some ts) by (apply Hget; split; [done|]; by apply negb_true_iff, Z.ltb_ge). done.
Qed.

Lemma spaced_clear a t st : spaced t st → ofAgent a k = false → spaced t (clearAgent a st).
Proof.
  intros [H0 (s & Hs & [H1 H2 H3])] Hk. split; [done|]. unfold clearAgent. cbn [families]. eexists. split; [cbn; rewrite om_get_fmap, Hs; reflexivity|].
  assert (Hget : ∀ V (m : omap V), om_get k (drop_keys a m) = om_get k m).
  { intros V m. unfold drop_keys. rewrite (om_get_filter_key (λ y, negb (ofAgent a y))). by rewrite Hk. }
  split; cbn.
  - unfold marked in *. destruct (persistedCooldown cfg); [done|]. cbn. by rewrite Hget.
  - intros (b & Hb & Hin). apply H2. cbn in Hb. destruct (buffer s) as [b0|] eqn:Eb; [|done]. injection Hb as <-. exists b0. split; [done|].
    apply elem_of_om_keys. apply elem_of_om_keys in Hin. by rewrite Hget in Hin.
  - by apply om_nodup_filter.
Qed.

(** ** Runs *)

(** The events between [t] and [t'], in the order of their times, all of them ordinary. *)
Inductive ordinary_run : Z → State → list (Env * event) → Prop :=
| or_nil t st : ordinary_run t st []
| or_cons t t' e x l st : clock t e t' → ordinary st x → ordinary_run t' (exec config sinks e x st).1 l → ordinary_run t st ((e, x) :: l).

Lemma spaced_exec e x t t' st : spaced t st → clock t e t' → ordinary st x →
  spaced t' (exec config sinks e x st).1 ∧ far (exec config sinks e x st).2.
Proof.
  intros H Hc Ho. assert (t ≤ t') by (destruct Hc as [? Hc]; specialize (Hc 0%nat); lia).
  destruct x as [g p o|g|i ok| |a|]; [by eapply spaced_emit|by eapply spaced_timer| | | |done]; (split; [|apply far_nil]); cbn [exec fst].
  - by apply spaced_settle, (spaced_weaken t).
  - by eapply spaced_prune.
  - apply spaced_clear; [by eapply spaced_weaken|done].
Qed.

Lemma spaced_run t st l : spaced t st → ordinary_run t st l → far (run config sinks l st).2.
Proof.
  intros H Hr. revert H. induction Hr as [t st|t t' e x l st Hc Ho _ IH]; intros H; [apply far_nil|]. cbn [run].
  destruct (spaced_exec e x t t' st H Hc Ho) as [H1 H2]. destruct (exec config sinks e x st) as [st1 calls]. specialize (IH H1). cbn [fst snd] in *.
  destruct (run config sinks l st1) as [st2 more]. by apply far_app.
Qed.

(** ** From a call that was taken *)

Definition started (u : Z) (st : State) : Prop :=
  ∃ s, family st f = Some s ∧ om_get k (lastEmitAt s) = Some u ∧ (waits s → False) ∧ NoDup (om_keys (lastEmitAt s)).

Lemma flush_started e u g st c : c ∈ (flush config sinks e u g st).2 → of_family c = f → k ∈ keys c → takes e f (to c) = true →
  (∀ s, family st f = Some s → NoDup (om_keys (lastEmitAt s))) → at_ c = u ∧ started u (flush config sinks e u g st).1.
Proof.
  intros Hin Hf Hk Ht Hn. destruct (om_get g config) as [cfg'|] eqn:Ec; [|rewrite flush_idle in Hin by congruence; by apply elem_of_nil in Hin].
  destruct (family st g) as [s|] eqn:Es; [|rewrite flush_idle in Hin by congruence; by apply elem_of_nil in Hin].
  destruct (buffer s) as [[|x b]|] eqn:Eb; try (rewrite flush_idle in Hin by congruence; by apply elem_of_nil in Hin).
  destruct (flush_spec config sinks e u g cfg' st s x b Ec Es Eb) as (ps & st' & _ & Ho & E). rewrite E in Hin |- *. cbn [fst snd] in *.
  unfold handed in Hin. destruct (aggregateOf cfg' (x :: b)) as [p|] eqn:Ea; [|by apply elem_of_nil in Hin].
  apply list_elem_of_fmap in Hin as (n & -> & Hn'). cbn in Hf, Ht, Hk. subst g. split; [done|].
  assert (Htook : took sinks e f cfg' (x :: b) = true).
  { unfold took. rewrite Ea. apply existsb_exists. exists n. split; [by apply list_elem_of_In|done]. }
  rewrite Htook in Ho. eexists. split; [exact (o_family _ _ _ _ _ Ho)|]. cbn -[om_keys]. split_and!.
  - rewrite marks_get. by rewrite decide_True.
  - intros (b' & [= <-] & H). by apply elem_of_nil in H.
  - by apply marks_nodup, Hn.
Qed.

(** [o] is what an event did: the call [c], if it made it, left its mark. *)
Definition starts (e : Env) (c : @Call Payload) (o : State * list Call) : Prop :=
  c ∈ o.2 → of_family c = f → k ∈ keys c → takes e f (to c) = true → (∃ n, at_ c = now e n) ∧ started (at_ c) o.1.

Lemma starts_flush e n g st c : nodups st → starts e c (flush config sinks e (now e n) g st).
Proof. intros H Hin Hf Hk Ht. destruct (flush_started e (now e n) g st c Hin Hf Hk Ht (H f)) as [-> ?]. eauto. Qed.

Lemma starts_none e c st : starts e c (st, []).
Proof. by intros ?%elem_of_nil. Qed.

Lemma starts_emit e g p o st c : nodups st → starts e c (exec config sinks e (Emit g p o) st).
Proof.
  intros H. cbn [exec]. unfold emit. destruct (om_get g config) as [cfg'|]; [|apply starts_none].
  assert (∃ s st0, _getState g cfg' st = (s, st0) ∧ nodups st0 ∧ family st0 g = Some s) as (s & st0 & -> & H0 & Hs).
  { unfold _getState. destruct (family st g) as [s|] eqn:Es; [eauto|]. eexists _, _. split; [done|]. split; [|cbn; by rewrite om_get_set_eq].
    apply nodups_set; [done|]. apply NoDup_nil_2. }
  cbv zeta. set (k' := keyOf cfg' p o). destruct (gate _ _ _ _ _ _); [apply starts_none|]. destruct (buffer s) as [b|] eqn:Eb.
  - set (s1 := s <| buffer := _ |> <| pendingCooldownOptions := _ |> <| burstCount := _ |>).
    assert (H1 : nodups (setFamily g s1 st0)) by (apply nodups_set; [done|exact (H0 _ _ Hs)]). destruct (negb _ && _).
    + pose proof (starts_flush e 1 g _ c H1) as H2. by destruct (flush _ _ _ _ _ _).
    + unfold _scheduleFlush. cbv zeta. destruct (_ <=? 0); [pose proof (starts_flush e 1 g _ c H1) as H2; by destruct (flush _ _ _ _ _ _)|].
      destruct (family (setFamily g s1 st0) g) as [s2|]; [destruct (flushTimer s2)|]; apply starts_none.
  - destruct (dispatch_spec sinks e g cfg' p false (now e 0) [k'] st0) as (ps & _ & ->). intros Hin Hf Hk Ht. cbn [fst snd] in *.
    apply list_elem_of_fmap in Hin as (n & -> & Hn). cbn in Hf, Hk, Ht. subst g. apply list_elem_of_singleton in Hk as <-.
    split; [by exists 0%nat|]. assert (Htook : existsb (takes e f) (names sinks cfg') = true) by (apply existsb_exists; exists n; by rewrite <-list_elem_of_In).
    rewrite Htook. set (st1 := st0 <| promises := _ |>). pose proof (commit_only f cfg' k (now e 0) (skipPersistedWrite o) st1 s Hs) as Hc.
    eexists. split; [exact (o_family _ _ _ _ _ Hc)|]. cbn. split_and!; [by rewrite om_get_set_eq|intros (b & Hb & _); cbn in Hb; congruence|].
    apply om_nodup_set. exact (H0 _ _ Hs).
Qed.

Lemma starts_exec e x st c : nodups st → x ≠ Destroy → starts e c (exec config sinks e x st).
Proof.
  intros H Hx. destruct x as [g p o|g|i ok| |a|]; [by apply starts_emit| |apply starts_none..|done]. cbn [exec]. unfold timerFires.
  destruct (family st g) as [s|] eqn:Es; [|apply starts_none]. destruct (flushTimer s) as [due|]; [|apply starts_none].
  destruct (due <=? now e 0); [|apply starts_none]. apply starts_flush, nodups_set; [done|exact (H _ _ Es)].
Qed.

End spacing.

(** The cooldown of a family keeps the calls of its sinks apart. Let a call for a key be taken by a
    sink, at a time [t], and let any events follow, in the order of their times, in which no emission for
    the key bypasses the cooldown, the agent of the key is not cleared, the router is not destroyed and no
    pruning meets more than 5000 keys: then whatever is emitted, buffered, flushed or pruned, every later
    call that carries a payload of the key comes at [t] plus the cooldown or after it. For a family with a
    persisted cooldown the mark of the call must have been written. *)
Theorem cooldown_spaces_calls {Payload W : Type} `{!CooldownStore W} (config : omap (@FamilyConfig Payload)) sinks f k cfg (w : W) l0 e x t t' c l :
  let st := (run config sinks l0 (init w)).1 in let st1 := (exec config sinks e x st).1 in
  om_get f config = Some cfg → 0 < cooldownMs cfg →
  x ≠ Destroy → clock t e t' → c ∈ (exec config sinks e x st).2 → of_family c = f → k ∈ keys c → takes e f (to c) = true →
  (persistedCooldown cfg = true → at_ c ≤ cd_read k (world st1)) → ordinary_run config sinks f k cfg t' st1 l →
  ∀ c', c' ∈ (run config sinks l st1).2 → of_family c' = f → k ∈ keys c' → at_ c + cooldownMs cfg ≤ at_ c'.
Proof.
  intros st st1 Hcfg Hcd Hx [_ Hclock] Hc Hf Hk Ht Hp Hl c' Hc' Hf' Hk'.
  assert (H0 : nodups st) by (apply nodups_run; intros g s; done).
  destruct (starts_exec config sinks f k e x st c H0 Hx Hc Hf Hk Ht) as [[n Hn] (s & Hs & Hm & Hw & Hd)].
  enough (cooldownMs cfg ≤ at_ c' - at_ c) by lia. eapply (spaced_run config sinks f k cfg Hcfg Hcd (at_ c) t' st1 l); [|done..].
  split; [rewrite Hn; apply Hclock|]. exists s. split; [done|]. split; [|intros ?; by exfalso; apply Hw|done].
  unfold marked. destruct (persistedCooldown cfg); [left; by apply Hp|]. by rewrite Hm.
Qed.

(** Warnings gathered for 100 ms with a cooldown of a second: two are flushed at 5100, one at 5500 is
    refused, one at 6200 is accepted and flushed at 6300. *)
Definition warnings : @FamilyConfig string :=
  MkConfig 1000 (Some 100) 0 None (Some (λ b, Some (String.concat "," (om_vals b)))) None false None.
Definition plain : Options := MkOptions None false false.
Definition at_time (t : Z) : Env := MkEnv (λ _, t) (λ _ _, Returned).
Definition warn (p : string) : @event string := Emit "warning" p plain.
Definition before0 : list (Env * @event string) := [(at_time 5000, warn "a"); (at_time 5050, warn "b")].
Definition after0 : list (Env * @event string) :=
  [(at_time 5500, warn "c"); (at_time 6000, Prune); (at_time 6200, warn "d"); (at_time 6300, Timer "warning")].

Lemma cooldown_spaces_calls_witness :
  let config := [("warning", warnings)] in let st := (run config ["out"] before0 (init ([] : omap Z))).1 in
  let o := exec config ["out"] (at_time 5100) (Timer "warning") st in
  let c := MkCall "out" "warning" "b" true 5100 ["default"] in let c' := MkCall "out" "warning" "d" true 6300 ["default"] in
  o.2 = [c] ∧ (run config ["out"] after0 o.1).2 = [c'] ∧ at_ c + 1000 ≤ at_ c'.
Proof.
  cbv zeta. split; [by vm_compute|]. split; [by vm_compute|].
  refine (cooldown_spaces_calls [("warning", warnings)] ["out"] "warning" "default" warnings ([] : omap Z) before0 (at_time 5100) (Timer "warning") 5000 5200
    (MkCall "out" "warning" "b" true 5100 ["default"]) after0 _ _ _ _ _ _ _ _ _ _ (MkCall "out" "warning" "d" true 6300 ["default"]) _ _ _).
  all: try (by vm_compute); try (split; cbn; lia); try (vm_compute; by left).
  apply or_cons with (t' := 5500); [split; cbn; lia|done|]. apply or_cons with (t' := 6000); [split; cbn; lia| |].
  { intros s E. vm_compute in E. injection E as <-. unfold HARD_CAP_PER_FAMILY. cbn [lastEmitAt length]. lia. }
  apply or_cons with (t' := 6200); [split; cbn; lia|done|]. apply or_cons with (t' := 6300); [split; cbn; lia|done|]. constructor.
Defined.
