(* ===== verification/RouterDelivery.v ===== *)
(** * The notification router: what is accepted reaches the sinks

    A payload that an aggregating family accepts is in the buffer behind an armed timer until a flush
    hands it over: at the latest by the timer, a window after it was accepted. *)

From Stdlib Require Import ZArith Lia String Ascii.
From stdpp Require Import base list strings.
From S2P Require Import Prelude OMap NotificationRouter RouterFacts.
Import NotificationRouter.
#[local] Open Scope stdpp_scope.

Section delivery.
Context {Payload W : Type} `{!CooldownStore W} (config : omap (@FamilyConfig Payload)) (sinks : list string).
Abbreviation State := (@State Payload W).
Abbreviation family st f := (om_get f (families st)).

(** ** Other families *)

Lemma flush_other e t g f st : g ≠ f → family (flush config sinks e t g st).1 f = family st f.
Proof.
  intros Hg. destruct (om_get g config) as [cfg|] eqn:Ec; [|by rewrite flush_idle by congruence].
  destruct (family st g) as [s|] eqn:Es; [|by rewrite flush_idle by congruence].
  destruct (buffer s) as [[|x b]|] eqn:Eb; try (by rewrite flush_idle by congruence).
  destruct (flush_spec config sinks e t g cfg st s x b Ec Es Eb) as (ps & st' & _ & Ho & ->). exact (o_other _ _ _ _ _ Ho f (not_eq_sym Hg)).
Qed.

Lemma set_other g f s (st : State) : g ≠ f → family (setFamily g s st) f = family st f.
Proof. intros Hg. cbn. by rewrite om_get_set_ne. Qed.

Lemma schedule_other e g f cfg st : g ≠ f → family (_scheduleFlush config sinks e g cfg st).1 f = family st f.
Proof.
  intros Hg. unfold _scheduleFlush. cbv zeta. destruct (_ <=? 0); [by apply flush_other|]. destruct (family st g) as [s|]; [|done].
  destruct (flushTimer s); [done|by apply set_other].
Qed.

Lemma getState_spec g cfg (st : State) : ∃ s st0, _getState g cfg st = (s, st0) ∧ family st0 g = Some s ∧ (family st g = Some s ∧ st0 = st ∨ s = fresh cfg ∧ family st g = None) ∧
  ∀ f, g ≠ f → family st0 f = family st f.
Proof.
  unfold _getState. destruct (family st g) as [s|] eqn:E; [exists s, st; split_and!; [done|done|by left|done]|].
  eexists _, _. split_and!; [reflexivity|by cbn; rewrite om_get_set_eq|by right|]. intros f Hf. by apply set_other.
Qed.

Lemma emit_other e g f p o st : g ≠ f → family (emit config sinks e g p o st).1.2 f = family st f.
Proof.
  intros Hg. unfold emit. destruct (om_get g config) as [cfg|]; [|done]. destruct (getState_spec g cfg st) as (s & st0 & -> & Hs & _ & Ho). rewrite <-(Ho f Hg).
  cbv zeta. destruct (gate _ _ _ _ _ _); [done|]. destruct (buffer s) as [b|].
  - set (s1 := s <| buffer := _ |> <| pendingCooldownOptions := _ |> <| burstCount := _ |>). destruct (negb _ && _).
    + pose proof (flush_other e (now e 1) g f (setFamily g s1 st0) Hg) as E. destruct (flush _ _ _ _ _ _). cbn [fst snd] in *. rewrite E. by apply set_other.
    + pose proof (schedule_other e g f cfg (setFamily g s1 st0) Hg) as E. destruct (_scheduleFlush _ _ _ _ _ _). cbn [fst snd] in *. rewrite E. by apply set_other.
  - destruct (dispatch_spec sinks e g cfg p false (now e 0) [keyOf cfg p o] st0) as (ps & _ & ->). cbn [fst snd]. destruct (existsb _ _); [|done].
    set (st1 := st0 <| promises := _ |>). pose proof (commit_only g cfg (keyOf cfg p o) (now e 0) (skipPersistedWrite o) st1 s Hs) as Hc.
    exact (o_other _ _ _ _ _ Hc f (not_eq_sym Hg)).
Qed.

Lemma timer_other e g f st : g ≠ f → family (timerFires config sinks e g st).1 f = family st f.
Proof.
  intros Hg. unfold timerFires. destruct (family st g) as [s|]; [|done]. destruct (flushTimer s); [|done]. destruct (_ <=? _); [|done].
  rewrite flush_other by done. by apply set_other.
Qed.

(** A promise changes only the breaker of its family. *)
Lemma settle_family e i ok f (st : State) : ∀ s, family st f = Some s → ∃ s', family (settles config e i ok st) f = Some s' ∧
  buffer s' = buffer s ∧ flushTimer s' = flushTimer s.
Proof.
  intros s Hs. unfold settles. destruct (promises st !! i) as [[a g]|]; [|eauto]. set (st1 := st <| promises := _ |>).
  assert (H1 : family st1 f = Some s) by exact Hs. destruct (negb _); [eauto|]. destruct (family st1 g) as [s1|] eqn:E1; [|eauto].
  destruct (_ ≫= _) as [b|]; [|eauto]. destruct (decide (g = f)) as [->|Hg].
  - rewrite H1 in E1. injection E1 as <-. destruct ok; [|destruct (_ <=? _)]; cbn; rewrite om_get_set_eq; eauto.
  - destruct ok; [|destruct (_ <=? _)]; rewrite set_other by done; eauto.
Qed.

(** ** An aggregating family *)

Context (f k : string) (p : Payload) (cfg : @FamilyConfig Payload) (Hcfg : om_get f config = Some cfg).
Context (g : omap Payload → option Payload) (Hg : aggregateFn cfg = Some g) (w : Z) (Hw : aggregateWindowMs cfg = Some w) (Hpos : 0 < w).

(** The calls hand the aggregate of a buffer with the payload to every sink of the family, unless the
    aggregate function says that there is nothing to hand over. *)
Definition delivered (calls : list (@Call Payload)) : Prop :=
  ∃ entries t, om_get k entries = Some p ∧ ∀ q, g entries = Some q → ∀ n, n ∈ names sinks cfg → MkCall n f q true t (om_keys entries) ∈ calls.

(** The payload waits behind a timer that is due at [d] or before. *)
Definition waiting (d : Z) (st : State) : Prop :=
  ∃ s b due, family st f = Some s ∧ buffer s = Some b ∧ om_get k b = Some p ∧ flushTimer s = Some due ∧ due ≤ d.

Lemma delivered_l l l' : delivered l → delivered (l ++ l').
Proof. intros (en & t & H1 & H2). exists en, t. split; [done|]. intros q Hq n Hn. apply elem_of_app. left. by apply H2. Qed.
Lemma delivered_r l l' : delivered l' → delivered (l ++ l').
Proof. intros (en & t & H1 & H2). exists en, t. split; [done|]. intros q Hq n Hn. apply elem_of_app. right. by apply H2. Qed.

Lemma flush_delivers e t st s b : family st f = Some s → buffer s = Some b → om_get k b = Some p → delivered (flush config sinks e t f st).2.
Proof.
  intros Hs Hb Hk. destruct b as [|x b]; [done|].
  destruct (flush_spec config sinks e t f cfg st s x b Hcfg Hs Hb) as (ps & st' & _ & _ & ->). exists (x :: b), t. split; [done|].
  intros q Hq n Hn. cbn [snd]. unfold handed, aggregateOf. rewrite Hg, Hq. apply list_elem_of_fmap. eauto.
Qed.

Lemma flushAll_delivers e n fs d st : f ∈ fs → waiting d st → delivered (flushAll config sinks e n fs st).2.
Proof.
  revert n st. induction fs as [|h fs IH]; intros n st Hin H; [by apply elem_of_nil in Hin|]. cbn [flushAll].
  destruct (decide (h = f)) as [->|Hh].
  - destruct H as (s & b & due & Hs & Hb & Hk & _). pose proof (flush_delivers e (now e n) st s b Hs Hb Hk) as H1.
    destruct (flush _ _ _ _ _ _) as [st1 c1]. destruct (flushAll _ _ _ _ _ _). by apply delivered_l.
  - pose proof (flush_other e (now e n) h f st Hh) as E. destruct (flush _ _ _ _ _ _) as [st1 c1].
    assert (H1 : waiting d st1). { destruct H as (s & b & due & Hs & Hb & Hk & Ht). exists s, b, due. by rewrite <-Hs. }
    assert (Hin' : f ∈ fs) by (apply elem_of_cons in Hin as [->|]; done).
    specialize (IH (S n) st1 Hin' H1). destruct (flushAll _ _ _ _ _ _). by apply delivered_r.
Qed.

(** ** Events that leave the payload in place *)

(** No later payload for the key, and the agent of the key is not cleared. *)
Definition untouched (x : @event Payload) : Prop :=
  match x with
  | Emit h q o => h = f → keyOf cfg q o ≠ k
  | Clear a => ofAgent a k = false
  | _ => True
  end.

Lemma waiting_keep d st st' : waiting d st → (∀ s, family st f = Some s → ∃ s', family st' f = Some s' ∧ buffer s' = buffer s ∧ flushTimer s' = flushTimer s) →
  waiting d st'.
Proof. intros (s & b & due & Hs & Hb & Hk & Ht & Hd) H. destruct (H s Hs) as (s' & Hs' & E1 & E2). exists s', b, due. split_and!; congruence. Qed.

Lemma waiting_emit e q o d st : waiting d st → keyOf cfg q o ≠ k →
  waiting d (emit config sinks e f q o st).1.2 ∨ delivered (emit config sinks e f q o st).2.
Proof.
  intros H Hk. unfold emit. rewrite Hcfg. destruct (getState_spec f cfg st) as (s & st0 & -> & Hs & [[Hs0 ->]|[_ Hn]] & _).
  2: { destruct H as (s' & _ & _ & Hs' & _). congruence. }
  cbv zeta. destruct (gate _ _ _ _ _ _); [by left|]. destruct H as (s' & b & due & Hs' & Hb & Hkb & Ht & Hd).
  assert (s' = s) as -> by congruence. rewrite Hb. set (s1 := s <| buffer := _ |> <| pendingCooldownOptions := _ |> <| burstCount := _ |>).
  assert (Hk1 : om_get k (om_set (keyOf cfg q o) q b) = Some p) by (by rewrite om_get_set_ne).
  assert (H1 : family (setFamily f s1 st) f = Some s1) by (cbn; by rewrite om_get_set_eq). destruct (negb _ && _).
  - right. pose proof (flush_delivers e (now e 1) (setFamily f s1 st) s1 _ H1 eq_refl Hk1) as H2. by destruct (flush _ _ _ _ _ _).
  - left. unfold _scheduleFlush. rewrite Hw. cbv zeta. change (default 0 (Some w)) with w. destruct (Z.leb_spec w 0); [lia|]. rewrite H1. change (flushTimer s1) with (flushTimer s). rewrite Ht.
    exists s1, (om_set (keyOf cfg q o) q b), due. split_and!; [exact H1|done|exact Hk1|exact Ht|exact Hd].
Qed.

Lemma waiting_timer e h d st : waiting d st → waiting d (timerFires config sinks e h st).1 ∨ delivered (timerFires config sinks e h st).2.
Proof.
  intros H. destruct (decide (h = f)) as [->|Hh].
  - pose proof H as H0. destruct H0 as (s & b & due & Hs & Hb & Hk & Ht & Hd). unfold timerFires. rewrite Hs, Ht. destruct (due <=? now e 0); [|by left]. right.
    eapply flush_delivers; [by cbn; rewrite om_get_set_eq|exact Hb|done].
  - left. eapply waiting_keep; [done|]. intros s Hs. exists s. by rewrite timer_other.
Qed.

Lemma waiting_clear a d st : waiting d st → ofAgent a k = false → waiting d (clearAgent a st).
Proof.
  intros (s & b & due & Hs & Hb & Hk & Ht & Hd) Ha. eexists _, (drop_keys a b), due. split; [cbn; rewrite om_get_fmap, Hs; reflexivity|]. cbn. split; [by rewrite Hb|].
  split; [|done]. unfold drop_keys. rewrite (om_get_filter_key (λ y, negb (ofAgent a y))). by rewrite Ha.
Qed.

Lemma waiting_exec e x d st : waiting d st → untouched x → waiting d (exec config sinks e x st).1 ∨ delivered (exec config sinks e x st).2.
Proof.
  intros H Hx. destruct x as [h q o|h|i ok| |a|]; cbn [exec].
  - destruct (decide (h = f)) as [->|Hh].
    + pose proof (waiting_emit e q o d st H (Hx eq_refl)) as H1. by destruct (emit _ _ _ _ _ _ _) as [[? ?] ?].
    + left. pose proof (emit_other e h f q o st Hh) as E. destruct (emit _ _ _ _ _ _ _) as [[an st2] cs]. cbn [fst snd] in *.
      eapply waiting_keep; [done|]. intros s Hs. exists s. by rewrite E.
  - by apply waiting_timer.
  - left. eapply waiting_keep; [done|]. apply settle_family.
  - left. unfold _pruneStale. cbn [fst]. destruct (pruning st); [|done]. eapply waiting_keep; [done|]. intros s Hs. cbn.
    rewrite om_get_map_keyed, Hs. by eexists.
  - left. by apply waiting_clear.
  - right. unfold destroy. set (st0 := st <| pruning := false |>). assert (H0 : waiting d st0) by exact H.
    assert (Hin : f ∈ om_keys (families st0)) by (apply elem_of_om_keys; destruct H0 as (s & _ & _ & Hs & _); by exists s).
    pose proof (flushAll_delivers e 0 _ d st0 Hin H0) as H1. change (families st0) with (families st) in H1. by destruct (flushAll _ _ _ _ _ _).
Qed.

Lemma waiting_run l e d st : waiting d st → Forall (λ x, untouched x.2) l → d ≤ now e 0 → delivered (run config sinks (l ++ [(e, Timer f)]) st).2.
Proof.
  intros H Hl Hd. revert st H. induction Hl as [|[e' x] l Hx _ IH]; intros st H; cbn [app run].
  - destruct H as (s & b & due & Hs & Hb & Hk & Ht & Hdue). cbn [exec]. unfold timerFires. rewrite Hs, Ht. destruct (Z.leb_spec due (now e 0)); [|lia].
    set (s1 := s <| flushTimer := None |>). assert (H1 : family (setFamily f s1 st) f = Some s1) by (cbn; by rewrite om_get_set_eq).
    pose proof (flush_delivers e (now e 0) (setFamily f s1 st) s1 b H1 Hb Hk) as H2. destruct (flush _ _ _ _ _ _). by rewrite app_nil_r.
  - pose proof (waiting_exec e' x d st H Hx) as H1. destruct (exec _ _ _ _ _) as [st1 c1]. cbn [fst snd] in H1. destruct H1 as [H1|H1].
    + specialize (IH st1 H1). destruct (run _ _ _ _). by apply delivered_r.
    + destruct (run _ _ _ _). by apply delivered_l.
Qed.

(** ** The family before the payload *)

(** It has a buffer, and its timer is due within the window of [T]. *)
Definition armed (T : Z) (st : State) : Prop :=
  ∀ s, family st f = Some s → (∃ b, buffer s = Some b) ∧ ∀ due, flushTimer s = Some due → due ≤ T + w.

Lemma armed_same T st st' : armed T st → family st' f = family st f → armed T st'.
Proof. intros H E s. rewrite E. apply H. Qed.

Lemma armed_set T s (st : State) : (∃ b, buffer s = Some b) → (∀ due, flushTimer s = Some due → due ≤ T + w) → armed T (setFamily f s st).
Proof. intros H1 H2 s'. cbn. rewrite om_get_set_eq. by intros [= <-]. Qed.

Lemma armed_flush e t h T st : armed T st → armed T (flush config sinks e t h st).1.
Proof.
  intros H. destruct (decide (h = f)) as [->|Hh]; [|eapply armed_same; [done|by apply flush_other]].
  destruct (family st f) as [s|] eqn:Es; [|by rewrite flush_idle by congruence].
  destruct (buffer s) as [[|x b]|] eqn:Eb; try (by rewrite flush_idle by congruence).
  destruct (flush_spec config sinks e t f cfg st s x b Hcfg Es Eb) as (ps & st' & _ & Ho & ->). intros s' Hs'. cbn in Hs'.
  rewrite (o_family _ _ _ _ _ Ho) in Hs'. injection Hs' as <-. cbn. split; [eauto|done].
Qed.

Lemma armed_emit e h q o T st : armed T st → (∀ n, now e n ≤ T) → armed T (emit config sinks e h q o st).1.2.
Proof.
  intros H He. destruct (decide (h = f)) as [->|Hh]; [|eapply armed_same; [done|by apply emit_other]].
  unfold emit. rewrite Hcfg. destruct (getState_spec f cfg st) as (s & st0 & -> & Hs & Hor & _). cbv zeta.
  assert (armed T st0 ∧ ∃ b, buffer s = Some b) as [H0 [b Hb]].
  { destruct Hor as [[Hs0 ->]|[-> Hn]]; [split; [done|by apply H]|].
    assert (Hf : ∃ b, buffer (fresh cfg) = Some b) by (unfold fresh; rewrite Hg, Hw; destruct (Z.leb_spec 0 w); [cbn; eauto|lia]).
    split; [|done]. intros s' Hs'. rewrite Hs in Hs'. injection Hs' as <-. split; [done|]. unfold fresh. done. }
  destruct (gate _ _ _ _ _ _); [done|]. rewrite Hb. set (s1 := s <| buffer := _ |> <| pendingCooldownOptions := _ |> <| burstCount := _ |>).
  assert (H1 : armed T (setFamily f s1 st0)) by (apply armed_set; [by eexists|apply (H0 s Hs)]). destruct (negb _ && _).
  - pose proof (armed_flush e (now e 1) f T _ H1). by destruct (flush _ _ _ _ _ _).
  - unfold _scheduleFlush. rewrite Hw. cbv zeta. change (default 0 (Some w)) with w. destruct (Z.leb_spec w 0); [lia|].
    assert (E1 : family (setFamily f s1 st0) f = Some s1) by (cbn; by rewrite om_get_set_eq). rewrite E1. destruct (flushTimer s1) as [due|] eqn:Ed; [done|].
    cbn [fst snd]. apply armed_set; [by eexists|]. intros due [= <-]. specialize (He 1%nat). lia.
Qed.

Lemma armed_exec e x T st : armed T st → (∀ n, now e n ≤ T) → armed T (exec config sinks e x st).1.
Proof.
  intros H He. destruct x as [h q o|h|i ok| |a|]; cbn [exec fst].
  - pose proof (armed_emit e h q o T st H He). by destruct (emit _ _ _ _ _ _ _) as [[? ?] ?].
  - destruct (decide (h = f)) as [->|Hh]; [|eapply armed_same; [done|by apply timer_other]]. unfold timerFires.
    destruct (family st f) as [s|] eqn:Es; [|done]. destruct (flushTimer s) as [due|]; [|done]. destruct (due <=? now e 0); [|done].
    apply armed_flush, armed_set; [apply (H s Es)|done].
  - destruct (family st f) as [s|] eqn:Es.
    + destruct (settle_family e i ok f st s Es) as (s' & Hs' & E1 & E2). intros s2. rewrite Hs'. intros [= <-]. rewrite E1, E2. by apply H.
    + unfold settles. destruct (promises st !! i) as [[a h]|]; [|done]. set (st1 := st <| promises := _ |>). assert (H1 : armed T st1) by exact H.
      destruct (negb _); [done|]. destruct (family st1 h) as [s|] eqn:Eh; [|done]. destruct (_ ≫= _) as [b|]; [|done].
      assert (Hh : h ≠ f) by (intros ->; change (families st1) with (families st) in Eh; congruence).
      destruct ok; [|destruct (_ <=? _)]; (eapply armed_same; [exact H1|by apply set_other]).
  - unfold _pruneStale. destruct (pruning st); [|done]. intros s. cbn. rewrite om_get_map_keyed. destruct (om_get f (families st)) as [s0|] eqn:E; [|done].
    intros [= <-]. cbn. by apply H.
  - intros s. cbn. rewrite om_get_fmap. destruct (om_get f (families st)) as [s0|] eqn:E; [|done]. intros [= <-]. cbn.
    destruct (H s0 E) as [[b Hb] Hd]. rewrite Hb. split; [by eexists|done].
  - unfold destroy. destruct (flushAll _ _ _ _ _ _) as [st1 c1]. by intros s.
Qed.

Lemma armed_run l T st : armed T st → Forall (λ x, ∀ n, now x.1 n ≤ T) l → armed T (run config sinks l st).1.
Proof.
  intros H Hl. revert st H. induction Hl as [|[e x] l He _ IH]; intros st H; [done|]. cbn [run]. pose proof (armed_exec e x T st H He) as H1.
  destruct (exec _ _ _ _ _) as [st1 c1]. specialize (IH st1 H1). by destruct (run _ _ _ _).
Qed.

Lemma emit_waits e o T st : armed T st → (∀ n, now e n ≤ T) → keyOf cfg p o = k → accepted (emit config sinks e f p o st).1.1 = true →
  waiting (T + w) (emit config sinks e f p o st).1.2 ∨ delivered (emit config sinks e f p o st).2.
Proof.
  intros H He Hk. pose proof (armed_emit e f p o T st H He) as Ha. unfold emit in *. rewrite Hcfg in *.
  destruct (getState_spec f cfg st) as (s & st0 & E & Hs & Hor & _). rewrite E in *. cbv zeta in *. rewrite Hk in *.
  assert (∃ b, buffer s = Some b) as [b Hb].
  { destruct Hor as [[Hs0 ->]|[-> Hn]]; [by apply H|]. unfold fresh. rewrite Hg, Hw. destruct (Z.leb_spec 0 w); [cbn; eauto|lia]. }
  destruct (gate _ _ _ _ _ _); [done|]. rewrite Hb in *. set (s1 := s <| buffer := _ |> <| pendingCooldownOptions := _ |> <| burstCount := _ |>) in *. intros _.
  assert (H1 : family (setFamily f s1 st0) f = Some s1) by (cbn; by rewrite om_get_set_eq).
  assert (Hk1 : om_get k (om_set k p b) = Some p) by apply om_get_set_eq. destruct (negb _ && _).
  - right. pose proof (flush_delivers e (now e 1) (setFamily f s1 st0) s1 _ H1 eq_refl Hk1). by destruct (flush _ _ _ _ _ _).
  - left. unfold _scheduleFlush in *. rewrite Hw in *. cbv zeta in *. change (default 0 (Some w)) with w in *. destruct (Z.leb_spec w 0); [lia|].
    rewrite H1 in *. destruct (flushTimer s1) as [due|] eqn:Ed; cbn [fst snd] in *.
    + exists s1, (om_set k p b), due. split_and!; [exact H1|done|exact Hk1|exact Ed|]. by apply (Ha s1 H1).
    + eexists _, (om_set k p b), _. split; [cbn; by rewrite om_get_set_eq|]. split_and!; [done|exact Hk1|done|]. specialize (He 1%nat). lia.
Qed.

End delivery.

(** A payload that an aggregating family accepts reaches the sinks. Once [emit] has answered that it
    accepts the payload, whatever follows - emissions for other keys and families, timers, promises,
    pruning, the destruction of the router - a flush hands an aggregate that contains the payload to
    every sink of the family (unless the aggregate function returns nothing for it), at the latest when
    the timer fires a window after the payload was accepted; only a later payload for the key takes its
    place, and clearing the agent of the key removes it. *)
Theorem accepted_payload_reaches_sinks {Payload W : Type} `{!CooldownStore W} (config : omap (@FamilyConfig Payload)) sinks f p cfg g w (w0 : W) l0 T e o l e' :
  let st := (run config sinks l0 (init w0)).1 in let em := emit config sinks e f p o st in
  om_get f config = Some cfg → aggregateFn cfg = Some g → aggregateWindowMs cfg = Some w → 0 < w →
  Forall (λ x, ∀ n, now x.1 n ≤ T) l0 → (∀ n, now e n ≤ T) → accepted em.1.1 = true →
  Forall (λ x, untouched f (keyOf cfg p o) cfg x.2) l → T + w ≤ now e' 0 →
  delivered sinks f (keyOf cfg p o) p cfg g (em.2 ++ (run config sinks (l ++ [(e', Timer f)]) em.1.2).2).
Proof.
  intros st em Hcfg Hg Hw Hpos Hl0 He Hacc Hl He'.
  assert (Ha : armed f w T st) by (eapply (armed_run config sinks f cfg Hcfg g Hg w Hw Hpos); [by intros s|done]).
  destruct (emit_waits config sinks f (keyOf cfg p o) p cfg Hcfg g Hg w Hw Hpos e o T st Ha He eq_refl Hacc) as [H|H].
  - apply delivered_r. by eapply (waiting_run config sinks f _ p cfg Hcfg g Hg w Hw Hpos).
  - by apply delivered_l.
Qed.

Lemma accepted_payload_reaches_sinks_witness :
  let config := [("warning", warnings)] in let st := (run config ["out"] before0 (init ([] : omap Z))).1 in
  let em := emit config ["out"] (at_time 5060) "warning" "x" plain st in
  accepted em.1.1 = true ∧
  delivered ["out"] "warning" "default" "x" warnings (λ b, Some (String.concat "," (om_vals b)))
    (em.2 ++ (run config ["out"] ([(at_time 5070, Prune); (at_time 5080, Emit "other" "y" plain)] ++ [(at_time 5160, Timer "warning")]) em.1.2).2).
Proof.
  cbv zeta. split; [by vm_compute|].
  refine (accepted_payload_reaches_sinks [("warning", warnings)] ["out"] "warning" "x" warnings _ 100 ([] : omap Z) before0 5060 (at_time 5060) plain
    [(at_time 5070, Prune); (at_time 5080, Emit "other" "y" plain)] (at_time 5160) _ _ _ _ _ _ _ _ _); try done.
  all: repeat constructor; try (intros; cbn; lia); done.
Defined.
