(* ===== verification/RouterBreaker.v ===== *)
(** * The notification router: the circuit breaker

    The breaker against a reference that looks at the outcomes of the promises of a family, latest
    first: it opens when the failures in a row reach a multiple of the threshold. *)

From Stdlib Require Import ZArith Lia String Ascii.
From stdpp Require Import base list strings.
From S2P Require Import Prelude OMap NotificationRouter RouterFacts RouterDelivery.
Import NotificationRouter.
#[local] Open Scope stdpp_scope.

(** ** The reference *)

(** Outcomes of promises, latest first: whether each was fulfilled, and when it settled. *)
Definition outcome : Type := bool * Z.

(** How many of the latest are failures in a row. *)
Fixpoint in_a_row (l : list outcome) : Z :=
  match l with
  | (false, _) :: l => 1 + in_a_row l
  | _ => 0
  end.

Fixpoint opened_until (threshold wait : Z) (l : list outcome) : Z :=
  match l with
  | [] => 0
  | (ok, t) :: l' => if negb ok && (in_a_row l mod threshold =? 0) then t + wait else opened_until threshold wait l'
  end.

Lemma in_a_row_nonneg l : 0 ≤ in_a_row l.
Proof. induction l as [|[[] t] l IH]; cbn; lia. Qed.

(** Counting to the threshold and starting again is counting modulo the threshold. *)
Lemma mod_succ n m : 0 < m → 0 ≤ n → (n + 1) mod m = if m <=? n mod m + 1 then 0 else n mod m + 1.
Proof.
  intros Hm Hn. pose proof (Z.mod_pos_bound n m Hm). pose proof (Z.div_mod n m ltac:(lia)).
  destruct (Z.leb_spec m (n mod m + 1)).
  - symmetry. apply (Z.mod_unique _ _ (n / m + 1)); nia.
  - symmetry. apply (Z.mod_unique _ _ (n / m)); nia.
Qed.

Section breaker.
Context {Payload W : Type} `{!CooldownStore W} (config : omap (@FamilyConfig Payload)) (sinks : list string).
Abbreviation State := (@State Payload W).
Abbreviation family st f := (om_get f (families st)).

(** ** What other events do to breakers and promises *)

Definition breakerOf (s : @FamilyState Payload) : Z * Z := (cbFails s, cbOpenUntil s).

(** Breakers stay, new families start closed, and new promises belong to families with a breaker. *)
Record grows (st st' : State) : Prop := Grows {
  g_age : age st' = age st;
  g_old : ∀ h s, family st h = Some s → ∃ s', family st' h = Some s' ∧ breakerOf s' = breakerOf s;
  g_new : ∀ h s', family st' h = Some s' → family st h = None → breakerOf s' = (0, 0);
  g_promises : ∃ ps, promises st' = promises st ++ ps ∧
    ∀ x, x ∈ ps → x.1 = age st ∧ is_Some (om_get x.2 config ≫= circuitBreaker) ∧ is_Some (family st' x.2);
}.

Lemma grows_refl st : grows st st.
Proof. split; [done|eauto|congruence|]. exists []. split; [by rewrite app_nil_r|]. by intros x ?%elem_of_nil. Qed.

Lemma grows_trans st1 st2 st3 : grows st1 st2 → grows st2 st3 → grows st1 st3.
Proof.
  intros [A1 A2 A3 (ps & A4 & A5)] [B1 B2 B3 (qs & B4 & B5)]. split; [congruence| | |].
  - intros h s Hs. destruct (A2 h s Hs) as (s2 & Hs2 & E2). destruct (B2 h s2 Hs2) as (s3 & Hs3 & E3). exists s3. split; [done|congruence].
  - intros h s Hs Hn. destruct (family st2 h) as [s2|] eqn:E2; [|by apply (B3 h)].
    destruct (B2 h s2 E2) as (s3 & Hs3 & E3). rewrite Hs in Hs3. injection Hs3 as <-. rewrite E3. by apply (A3 h).
  - exists (ps ++ qs). split; [by rewrite B4, A4, app_assoc|]. intros x [Hx|Hx]%elem_of_app.
    + destruct (A5 x Hx) as (H1 & H2 & [s Hs]). split_and!; [done|done|]. destruct (B2 _ s Hs) as (s' & Hs' & _). by exists s'.
    + destruct (B5 x Hx) as (H1 & H2). split; [congruence|done].
Qed.

(** A family is changed but for its breaker. *)
Lemma grows_only f t s st st' : only f t s st st' → (∀ s0, family st f = Some s0 → breakerOf s = breakerOf s0) →
  (family st f = None → breakerOf s = (0, 0)) → grows st st'.
Proof.
  intros Ho H1 H2. split; [apply Ho| | |].
  - intros h s0 Hs. destruct (decide (h = f)) as [->|Hh]; [|exists s0; by rewrite (o_other _ _ _ _ _ Ho)].
    exists s. split; [apply Ho|by apply H1].
  - intros h s0 Hs Hn. destruct (decide (h = f)) as [->|Hh].
    + rewrite (o_family _ _ _ _ _ Ho) in Hs. injection Hs as <-. by apply H2.
    + rewrite (o_other _ _ _ _ _ Ho) in Hs by done. congruence.
  - exists []. split; [rewrite (o_promises _ _ _ _ _ Ho); by rewrite app_nil_r|]. by intros x ?%elem_of_nil.
Qed.

Lemma grows_set f s (st : State) : (∀ s0, family st f = Some s0 → breakerOf s = breakerOf s0) → (family st f = None → breakerOf s = (0, 0)) →
  grows st (setFamily f s st).
Proof. apply (grows_only f 0), only_set. Qed.

Lemma grows_promises f cfg ps (st : State) : om_get f config = Some cfg → watched st f cfg ps → is_Some (family st f) →
  grows st (st <| promises := promises st ++ ps |>).
Proof.
  intros Hc Hp Hs. split; [done|eauto|cbn; congruence|]. exists ps. split; [done|]. intros x [-> Hb]%Hp. split_and!; [done| |done].
  cbn. rewrite Hc. cbn. by apply not_eq_None_Some.
Qed.

Lemma grows_flush e t g st : grows st (flush config sinks e t g st).1.
Proof.
  destruct (om_get g config) as [cfg|] eqn:Ec; [|rewrite flush_idle by congruence; apply grows_refl].
  destruct (family st g) as [s|] eqn:Es; [|rewrite flush_idle by congruence; apply grows_refl].
  destruct (buffer s) as [[|x b]|] eqn:Eb; try (rewrite flush_idle by congruence; apply grows_refl).
  destruct (flush_spec config sinks e t g cfg st s x b Ec Es Eb) as (ps & st' & Hp & Ho & ->). cbn [fst].
  apply (grows_trans _ st'); [eapply grows_only; [exact Ho|intros s0; rewrite Es; by intros [= <-]|congruence]|].
  rewrite <-(o_promises _ _ _ _ _ Ho). apply (grows_promises g cfg); [done| |by eexists; apply Ho].
  intros y Hy. rewrite (o_age _ _ _ _ _ Ho). by apply Hp.
Qed.

Lemma grows_schedule e g cfg st : grows st (_scheduleFlush config sinks e g cfg st).1.
Proof.
  unfold _scheduleFlush. cbv zeta. destruct (_ <=? 0); [apply grows_flush|]. destruct (family st g) as [s|] eqn:Es; [|apply grows_refl].
  destruct (flushTimer s); [apply grows_refl|]. apply grows_set; [intros s0; rewrite Es; by intros [= <-]|congruence].
Qed.

Lemma grows_getState g cfg (st : State) : ∃ s st0, _getState g cfg st = (s, st0) ∧ family st0 g = Some s ∧ grows st st0.
Proof.
  unfold _getState. destruct (family st g) as [s|] eqn:E; [exists s, st; split_and!; [done|done|apply grows_refl]|].
  eexists _, _. split; [reflexivity|]. split; [by cbn; rewrite om_get_set_eq|]. apply grows_set; [congruence|done].
Qed.

Lemma grows_emit e g p o st : grows st (emit config sinks e g p o st).1.2.
Proof.
  unfold emit. destruct (om_get g config) as [cfg|] eqn:Ec; [|apply grows_refl].
  destruct (grows_getState g cfg st) as (s & st0 & -> & Hs & H0). eapply grows_trans; [exact H0|].
  cbv zeta. destruct (gate _ _ _ _ _ _); [apply grows_refl|]. destruct (buffer s) as [b|] eqn:Eb.
  - set (s1 := s <| buffer := _ |> <| pendingCooldownOptions := _ |> <| burstCount := _ |>).
    assert (H1 : grows st0 (setFamily g s1 st0)) by (apply grows_set; [intros s0; rewrite Hs; by intros [= <-]|congruence]). destruct (negb _ && _).
    + pose proof (grows_flush e (now e 1) g (setFamily g s1 st0)) as H2. destruct (flush _ _ _ _ _ _) as [st1 c1]. by eapply grows_trans.
    + pose proof (grows_schedule e g cfg (setFamily g s1 st0)) as H2. destruct (_scheduleFlush _ _ _ _ _ _) as [st1 c1]. by eapply grows_trans.
  - destruct (dispatch_spec sinks e g cfg p false (now e 0) [keyOf cfg p o] st0) as (ps & Hp & ->). cbn [fst snd].
    set (st1 := st0 <| promises := _ |>). assert (H1 : grows st0 st1) by (apply (grows_promises g cfg); [done|done|by eexists]).
    destruct (existsb _ _); [|done]. eapply grows_trans; [exact H1|].
    eapply grows_only; [eapply commit_only; exact Hs| |]; change (families st1) with (families st0); rewrite Hs; [by intros s0 [= <-]|done].
Qed.

Lemma grows_timer e g st : grows st (timerFires config sinks e g st).1.
Proof.
  unfold timerFires. destruct (family st g) as [s|] eqn:Es; [|apply grows_refl]. destruct (flushTimer s); [|apply grows_refl].
  destruct (_ <=? _); [|apply grows_refl]. eapply grows_trans; [|apply grows_flush].
  apply grows_set; [intros s0; rewrite Es; by intros [= <-]|congruence].
Qed.

Lemma grows_families (m : omap (@FamilyState Payload)) (st : State) : (∀ h, breakerOf <$> om_get h m = breakerOf <$> family st h) → grows st (st <| families := m |>).
Proof.
  intros H. split; [done| | |].
  - intros h s Hs. specialize (H h). rewrite Hs in H. cbn. destruct (om_get h m) as [s'|]; [|done]. exists s'. split; [done|]. exact (inj Some _ _ H).
  - intros h s Hs Hn. specialize (H h). rewrite Hn in H. cbn in Hs. by rewrite Hs in H.
  - exists []. split; [cbn; by rewrite app_nil_r|]. by intros x ?%elem_of_nil.
Qed.

Lemma grows_prune e st : grows st (_pruneStale config e st).
Proof.
  unfold _pruneStale. destruct (pruning st); [|apply grows_refl]. apply grows_families. intros h. rewrite om_get_map_keyed.
  by destruct (om_get h (families st)).
Qed.

Lemma grows_clear a (st : State) : grows st (clearAgent a st).
Proof. unfold clearAgent. apply grows_families. intros h. rewrite om_get_fmap. by destruct (om_get h (families st)). Qed.

Lemma grows_flushAll e n fs st : grows st (flushAll config sinks e n fs st).1.
Proof.
  revert n st. induction fs as [|g fs IH]; intros n st; cbn [flushAll]; [apply grows_refl|]. pose proof (grows_flush e (now e n) g st) as H.
  destruct (flush _ _ _ _ _ _) as [st1 c1]. specialize (IH (S n) st1). destruct (flushAll _ _ _ _ _ _). by eapply grows_trans.
Qed.

(** ** The outcomes of a run *)

(** The outcomes that the breaker of [f] has seen, latest first; [destroy] starts afresh. *)
Definition seen (f : string) (e : Env) (x : @event Payload) (st : State) (l : list outcome) : list outcome :=
  match x with
  | Settle i ok => match promises st !! i with
                   | Some (a, h) => if String.eqb h f && Nat.eqb a (age st) then (ok, now e 0) :: l else l
                   | None => l
                   end
  | Destroy => []
  | _ => l
  end.

Fixpoint outcomes (f : string) (l : list (Env * event)) (st : State) (acc : list outcome) : list outcome :=
  match l with
  | [] => acc
  | (e, x) :: l => outcomes f l (exec config sinks e x st).1 (seen f e x st acc)
  end.

Context (f : string) (b : Breaker) (Hb : om_get f config ≫= circuitBreaker = Some b) (Hpos : 0 < threshold b).

Record counted (l : list outcome) (st : State) : Prop := Counted {
  c_breaker : ∀ s, family st f = Some s → breakerOf s = (in_a_row l mod threshold b, opened_until (threshold b) (cb_cooldownMs b) l);
  c_none : family st f = None → l = [];
  c_promises : ∀ x, x ∈ promises st → (x.1 ≤ age st)%nat ∧ (x.1 = age st → is_Some (om_get x.2 config ≫= circuitBreaker) ∧ is_Some (family st x.2));
}.

Lemma counted_grows l st st' : counted l st → grows st st' → counted l st'.
Proof.
  intros [H1 H2 H3] [A1 A2 A3 (ps & A4 & A5)]. split.
  - intros s Hs. destruct (family st f) as [s0|] eqn:E.
    + destruct (A2 f s0 E) as (s' & Hs' & E'). rewrite Hs in Hs'. injection Hs' as <-. rewrite E'. by apply H1.
    + rewrite (A3 f s Hs E), (H2 eq_refl). cbn. by rewrite Z.mod_0_l by lia.
  - intros Hn. apply H2. destruct (family st f) as [s0|] eqn:E; [|done]. destruct (A2 f s0 E) as (s' & Hs' & _). congruence.
  - intros x. rewrite A4, A1. intros [Hx|Hx]%elem_of_app.
    + destruct (H3 x Hx) as [L R]. split; [done|]. intros Ha. destruct (R Ha) as [R1 [s0 Hs0]]. split; [done|].
      destruct (A2 _ s0 Hs0) as (s' & Hs' & _). by exists s'.
    + destruct (A5 x Hx) as (E & R). split; [lia|done].
Qed.

Lemma counted_settle e i ok l st : counted l st → counted (seen f e (Settle i ok) st l) (settles config e i ok st).
Proof.
  intros [H1 H2 H3]. cbn [seen]. unfold settles. destruct (promises st !! i) as [[a h]|] eqn:Ei; [|done]. set (st1 := st <| promises := _ |>).
  assert (Hp : ∀ x, x ∈ promises st1 → x ∈ promises st) by (intros x; apply list_elem_of_delete_inv).
  assert (Hst1 : counted l st1) by (split; [exact H1|exact H2|intros x Hx; exact (H3 x (Hp x Hx))]).
  change (age st1) with (age st). destruct (Nat.eqb_spec a (age st)) as [->|Ha]; cbn [negb andb]; [|by rewrite andb_false_r]. rewrite andb_true_r.
  destruct (H3 (age st, h)) as [_ H4]; [by eapply list_elem_of_lookup_2|]. destruct (H4 eq_refl) as [[b' Hb'] [s Hs]]. cbn [snd] in *.
  change (families st1) with (families st). rewrite Hs, Hb'.
  assert (Hput : ∀ s', (h = f → breakerOf s' = (in_a_row ((ok, now e 0) :: l) mod threshold b, opened_until (threshold b) (cb_cooldownMs b) ((ok, now e 0) :: l))) →
    counted (if String.eqb h f then (ok, now e 0) :: l else l) (setFamily h s' st1)).
  { intros s' Hs'. destruct (String.eqb_spec h f) as [->|Hh]; split; cbn.
    - rewrite om_get_set_eq. intros s0 [= <-]. by apply Hs'.
    - by rewrite om_get_set_eq.
    - intros x Hx. destruct (H3 x (Hp x Hx)) as [L R]. split; [done|]. intros Ha. destruct (R Ha) as [R1 [s0 R2]]. split; [done|]. rewrite om_get_set. destruct (String.eqb _ _); eauto.
    - rewrite om_get_set_ne by done. apply H1.
    - rewrite om_get_set_ne by done. apply H2.
    - intros x Hx. destruct (H3 x (Hp x Hx)) as [L R]. split; [done|]. intros Ha. destruct (R Ha) as [R1 [s0 R2]]. split; [done|]. rewrite om_get_set. destruct (String.eqb _ _); eauto. }
  assert (Hf : h = f → b' = b ∧ cbFails s = in_a_row l mod threshold b ∧ cbOpenUntil s = opened_until (threshold b) (cb_cooldownMs b) l).
  { intros ->. rewrite Hb in Hb'. injection Hb' as <-. specialize (H1 s Hs). unfold breakerOf in H1. by injection H1 as -> ->. }
  pose proof (in_a_row_nonneg l) as Hn. pose proof (mod_succ (in_a_row l) (threshold b) Hpos Hn) as Hm. destruct ok.
  - apply Hput. intros Eh. destruct (Hf Eh) as (-> & _ & E2). unfold breakerOf. cbn. by rewrite E2, Z.mod_0_l by lia.
  - cbv zeta. destruct (Z.leb_spec (threshold b') (cbFails s + 1)) as [Hle|Hlt]; apply Hput; intros Eh; destruct (Hf Eh) as (-> & E1 & E2);
      unfold breakerOf; cbn; rewrite (Z.add_comm 1), Hm, <-E1.
    + by rewrite (proj2 (Z.leb_le _ _)).
    + rewrite (proj2 (Z.leb_gt _ _)), E2 by done. pose proof (Z.mod_pos_bound (in_a_row l) (threshold b) Hpos).
      destruct (Z.eqb_spec (cbFails s + 1) 0); [lia|done].
Qed.

Lemma counted_exec e x l st : counted l st → counted (seen f e x st l) (exec config sinks e x st).1.
Proof.
  intros H. destruct x as [g p o|g|i ok| |a|]; cbn [exec fst].
  - eapply counted_grows; [done|]. pose proof (grows_emit e g p o st). by destruct (emit _ _ _ _ _ _ _) as [[? ?] ?].
  - eapply counted_grows; [done|]. apply grows_timer.
  - by apply counted_settle.
  - eapply counted_grows; [done|]. apply grows_prune.
  - eapply counted_grows; [done|]. apply grows_clear.
  - unfold destroy. set (st0 := st <| pruning := false |>). assert (H0 : counted l st0) by (destruct H; by split).
    pose proof (counted_grows _ _ _ H0 (grows_flushAll e 0 (om_keys (families st)) st0)) as H1.
    destruct (flushAll _ _ _ _ _ _) as [st1 c1]. cbn [fst] in *. split; cbn; [done|done|]. intros x Hx. destruct (c_promises _ _ H1 x Hx) as [L _].
    split; [lia|]. intros E. lia.
Qed.

Lemma counted_run l acc st : counted acc st → counted (outcomes f l st acc) (run config sinks l st).1.
Proof.
  revert acc st. induction l as [|[e x] l IH]; intros acc st H; [done|]. cbn [run outcomes]. pose proof (counted_exec e x acc st H) as H1.
  destruct (exec config sinks e x st) as [st1 c1]. specialize (IH _ st1 H1). cbn [fst]. by destruct (run config sinks l st1).
Qed.

End breaker.

(** The breaker of a family opens when its promises have failed [threshold] times in a row, and
    again after every further [threshold] failures without a success between them: after any run, an
    emission is refused for the open breaker exactly when it comes before the end of the wait that the
    latest such failure began. Promises of families that [destroy] dropped do not count, nor do calls
    that throw or return no promise. *)
Theorem breaker_opens_after_failures {Payload W : Type} `{!CooldownStore W} (config : omap (@FamilyConfig Payload)) sinks f cfg b (w : W) l e p o :
  let st := (run config sinks l (init w)).1 in
  om_get f config = Some cfg → circuitBreaker cfg = Some b → 0 < threshold b →
  why (emit config sinks e f p o st).1.1 = circuit_open ↔
  now e 0 < opened_until (threshold b) (cb_cooldownMs b) (outcomes config sinks f l (init w) []).
Proof.
  intros st Hc Hb Hpos. assert (Hcb : om_get f config ≫= circuitBreaker = Some b) by (by rewrite Hc).
  assert (H : counted config f b (outcomes config sinks f l (init w) []) st).
  { apply counted_run; [done|done|]. split; [by intros s|done|]. by intros x ?%elem_of_nil. }
  unfold emit. rewrite Hc. destruct (getState_spec f cfg st) as (s & st0 & -> & Hs & Hor & _). cbv zeta.
  assert (E : cbOpenUntil s = opened_until (threshold b) (cb_cooldownMs b) (outcomes config sinks f l (init w) [])).
  { destruct Hor as [[Hs0 _]|[-> Hn]]; [pose proof (c_breaker _ _ _ _ _ H s Hs0) as E; by injection E|]. by rewrite (c_none _ _ _ _ _ H Hn). }
  rewrite <-E. unfold gate at 1. rewrite Hb. cbn [is_Some_b andb]. destruct (Z.ltb_spec (now e 0) (cbOpenUntil s)); [done|]. split; [|lia].
  intros Hw. by repeat (case_match; simplify_eq/=).
Qed.

(** Three failures in a row, with a threshold of two: the breaker is open for 500 ms from the second. *)
Definition flaky : @FamilyConfig string := MkConfig 0 None 0 None None (Some (MkBreaker 2 500)) false None.
Definition promise_at (t : Z) : Env := MkEnv (λ _, t) (λ _ _, Promised).
Definition failures : list (Env * @event string) :=
  [(promise_at 1000, Emit "push" "a" plain); (promise_at 1001, Emit "push" "b" plain); (promise_at 1002, Emit "push" "c" plain);
   (promise_at 1100, Settle 0 false); (promise_at 1200, Settle 0 false); (promise_at 1300, Settle 0 false)].

Lemma breaker_opens_after_failures_witness :
  let config := [("push", flaky)] in let st := (run config ["out"] failures (init ([] : omap Z))).1 in
  why (emit config ["out"] (promise_at 1699) "push" "d" plain st).1.1 = circuit_open ∧
  why (emit config ["out"] (promise_at 1700) "push" "d" plain st).1.1 ≠ circuit_open.
Proof.
  intros config st.
  pose proof (λ t, breaker_opens_after_failures config ["out"] "push" flaky (MkBreaker 2 500) ([] : omap Z) failures (promise_at t) "d" plain eq_refl eq_refl (eq_refl : (0 ?= 2) = Lt)) as H.
  split; [apply (H 1699); by vm_compute|]. intros E. apply (H 1700) in E. by vm_compute in E.
Defined.
