(* ===== verification/Uri.v ===== *)
(** * Percent encoding: [encodeURIComponent] and [decodeURIComponent]

    On texts of code units below 256, whose UTF-8 takes one or two bytes. *)

From Stdlib Require Import ZArith Lia String Ascii.
From stdpp Require Import base list strings.
From S2P Require Import Prelude.
#[local] Open Scope stdpp_scope.

Module Uri.

Definition percent : ascii := ascii_of_nat 37.

Definition between (a b n : nat) : bool := (a <=? n)%nat && (n <=? b)%nat.

(** [A-Z a-z 0-9 - _ . ! ~ * ' ( )] *)
Definition unreserved (c : ascii) : bool :=
  let n := nat_of_ascii c in
  between 65 90 n || between 97 122 n || between 48 57 n || existsb (Nat.eqb n) [45; 95; 46; 33; 126; 42; 39; 40; 41]%nat.

Definition upper_hex (n : nat) : ascii := if (n <? 10)%nat then ascii_of_nat (48 + n) else ascii_of_nat (55 + n).

Definition octet (b : nat) (t : string) : string := String percent (String (upper_hex (b / 16)) (String (upper_hex (b mod 16)) t)).

Definition encode_char (c : ascii) (t : string) : string :=
  let n := nat_of_ascii c in
  if unreserved c then String c t else if (n <? 128)%nat then octet n t else octet (192 + n / 64) (octet (128 + n mod 64) t).

Fixpoint encodeURIComponent (s : string) : string :=
  match s with EmptyString => EmptyString | String c s' => encode_char c (encodeURIComponent s') end.

Definition hex_value (c : ascii) : option nat :=
  let n := nat_of_ascii c in
  if between 48 57 n then Some (n - 48)%nat else if between 65 70 n then Some (n - 55)%nat else if between 97 102 n then Some (n - 87)%nat else None.

Definition byte_of (h l : ascii) : option nat :=
  match hex_value h, hex_value l with Some a, Some b => Some (16 * a + b)%nat | _, _ => None end.

(** [None] is the [URIError]; a character beyond 255 is outside of the model. *)
Fixpoint decodeURIComponent (s : string) : option string :=
  match s with
  | EmptyString => Some EmptyString
  | String c s1 =>
      if negb (Ascii.eqb c percent) then String c <$> decodeURIComponent s1 else
      match s1 with
      | String h (String l s2) =>
          match byte_of h l with
          | None => None
          | Some b =>
              if (b <? 128)%nat then String (ascii_of_nat b) <$> decodeURIComponent s2 else
              if between 194 195 b then
                match s2 with
                | String p (String h' (String l' s3)) =>
                    match byte_of h' l' with
                    | Some b' => if Ascii.eqb p percent && between 128 191 b'
                                 then String (ascii_of_nat (64 * (b - 192) + (b' - 128))) <$> decodeURIComponent s3 else None
                    | None => None
                    end
                | _ => None
                end
              else None
          end
      | _ => None
      end
  end.

Lemma decode_encode_char c t : decodeURIComponent (encode_char c t) = String c <$> decodeURIComponent t.
Proof. by destruct c as [[] [] [] [] [] [] [] []]. Qed.

Lemma decode_encode s : decodeURIComponent (encodeURIComponent s) = Some s.
Proof. induction s as [|c s IH]; [done|]. cbn [encodeURIComponent]. by rewrite decode_encode_char, IH. Qed.

(** What is encoded has no line end and no slash. *)
Definition plain_char (c : ascii) : bool := unreserved c || Ascii.eqb c percent.

Lemma encode_char_plain c t : string_forall plain_char t = true → string_forall plain_char (encode_char c t) = true.
Proof. intros H. destruct c as [[] [] [] [] [] [] [] []]; exact H. Qed.

Lemma encode_plain s : string_forall plain_char (encodeURIComponent s) = true.
Proof. induction s as [|c s IH]; [done|]. by apply encode_char_plain. Qed.

Lemma encode_nonempty s : s ≠ EmptyString → encodeURIComponent s ≠ EmptyString.
Proof. intros Hs. destruct s as [|c s]; [done|]. cbn. unfold encode_char. by repeat case_match. Qed.

End Uri.
