(* ===== verification/AppserviceReceiver.v ===== *)
(** * The application service: receivers and their router ([lib/appservice-receiver.js])

    A receiver authenticates a request of a homeserver, handles a transaction once its events have been
    processed, and remembers its id; the router finds the receiver of a side by its token. Handling is
    asynchronous where the code awaits the processing of the events: [begin] runs up to there, [finish]
    from there. Random bytes are arguments; the error of a throw is its text. *)

From Stdlib Require Import ZArith QArith Qround Lia String Ascii.
From stdpp Require Import base list strings.
From S2P Require Import Prelude OMap Json Uri.
#[local] Open Scope stdpp_scope.

(** A request as the listener, the edge puller or the sync collector describes it: its members
    [query.access_token] and [headers.authorization ?? headers.Authorization], the parsed body and
    the mode and side of the adapter. *)
Record Request : Type := MkRequest {
  method : string; path : string; query_token : jval; authorization : jval; body : jval; mode : jval; transportSide : jval;
}.

Record Response : Type := MkResponse { status : Z; errcode : option string; duplicate : bool; retryAfterMs : option Z }.
Definition ok200 : Response := MkResponse 200 None false None.
Definition refuse (s : Z) (code : string) : Response := MkResponse s (Some code) false None.

(** What [secretEquals] decides. *)
Definition secretEquals (a : jval) (b : string) : bool := match a with JStr s => String.eqb s b | _ => false end.

(** The token of a header [Bearer ...]. *)
Definition bearer (auth : jval) : option string :=
  match auth with JStr s => if String.prefix "Bearer " s then Some (drop_str 7 s) else None | _ => None end.

Definition line_end (c : ascii) : bool := let n := nat_of_ascii c in (n =? 10)%nat || (n =? 13)%nat.

(** The group of [^prefix(.+)$]. *)
Definition after_prefix (prefix path : string) : option string :=
  if String.prefix prefix path then
    let rest := drop_str (String.length prefix) path in if truthy rest && negb (string_exists line_end rest) then Some rest else None
  else None.

Definition transactions : string := "/_matrix/app/v1/transactions/".
Definition users : string := "/_matrix/app/v1/users/".

(** [Array.isArray(body?.events) ? body.events : []] *)
Definition eventsOf (b : jval) : list jval := match prop b "events" with JArr l => l | _ => [] end.

Module Receiver.

Definition DEFAULT_SEEN_LIMIT : nat := Z.to_nat 4096.

Record Traffic : Type := MkTraffic {
  firstSeenAt : option Z; lastSeenAt : option Z; n_transactions : Z; duplicates : Z; n_events : Z; rejected : Z; lastRejectedAt : option Z;
}.
#[export] Instance eta_traffic : Settable Traffic := λ t,
  MkTraffic (firstSeenAt t) (lastSeenAt t) (n_transactions t) (duplicates t) (n_events t) (rejected t) (lastRejectedAt t).

(** [seen] holds the remembered ids, oldest first. *)
Record State : Type := MkState { seen : list string; traffic : Traffic }.
#[export] Instance eta_state : Settable State := λ s, MkState (seen s) (traffic s).

Definition init : State := MkState [] (MkTraffic None None 0 0 0 0 None).

(** What [createAppserviceReceiver] was given; the answers of the fleet and of the user query are those
    of the callbacks, where there are any. *)
Record Config : Type := MkConfig { hsToken : string; seenLimit : nat; onFleetRequest : option Response; onUserQuery : option bool }.

Definition noteAccepted (now : Z) (count : nat) (st : State) : State :=
  let t := traffic st in
  let first := match firstSeenAt t with None => Some now | f => f end in
  let t' := t <| firstSeenAt := first |> <| lastSeenAt := Some now |> <| n_transactions := n_transactions t + 1 |>
              <| n_events := n_events t + Z.of_nat count |> in
  st <| traffic := t' |>.

Definition noteRejected (now : Z) (st : State) : State :=
  let t := traffic st in let t' := t <| rejected := rejected t + 1 |> <| lastRejectedAt := Some now |> in st <| traffic := t' |>.

Definition noteDuplicate (st : State) : State :=
  let t := traffic st in let t' := t <| duplicates := duplicates t + 1 |> in st <| traffic := t' |>.

(** [while (seen.size > seenLimit) seen.delete(oldest)] *)
Definition rememberTxn (cfg : Config) (txn : string) (st : State) : State :=
  let s := if inb txn (seen st) then seen st else seen st ++ [txn] in st <| seen := drop (length s - seenLimit cfg) s |>.

Definition authorized (cfg : Config) (r : Request) : bool :=
  secretEquals (query_token r) (hsToken cfg) ||
  match bearer (authorization r) with Some t => String.eqb t (hsToken cfg) | None => false end.

(** Up to the first [await]: an answer, a throw ([decodeURIComponent]), or events to be processed. *)
Inductive begun : Type := Done (r : Response) | Threw | Processing (txn : string) (events : list jval) (m : string).

Definition begin (cfg : Config) (now : Z) (r : Request) (st : State) : begun * State :=
  if negb (authorized cfg r) then
    (Done (refuse 403 "M_FORBIDDEN"), noteRejected now st)
  else
  match (if String.prefix "/api/fleet/v1/" (path r) then onFleetRequest cfg else None) with
  | Some answer => (Done answer, st)
  | None =>
      match after_prefix transactions (path r), String.eqb (method r) "PUT" with
      | Some raw, true =>
          match Uri.decodeURIComponent raw with
          | None => (Threw, st)
          | Some txn =>
              if inb txn (seen st) then
                (Done (MkResponse 200 None true None), noteAccepted now 0 (noteDuplicate st))
              else
                let events := eventsOf (body r) in
                let st := noteAccepted now (length events) st in
                match mode r with
                | JStr m => if inb m ["push"; "edge"; "sync"] then (Processing txn events m, st) else (Done (refuse 500 "M_UNKNOWN"), st)
                | _ => (Done (refuse 500 "M_UNKNOWN"), st)
                end
          end
      | _, _ =>
          match after_prefix users (path r), String.eqb (method r) "GET" with
          | Some raw, true =>
              match Uri.decodeURIComponent raw with
              | None => (Threw, st)
              | Some _ => (Done (if default false (onUserQuery cfg) then ok200 else refuse 404 "M_NOT_FOUND"), st)
              end
          | _, _ => (Done (refuse 404 "M_UNRECOGNIZED"), st)
          end
      end
  end.

(** How processing the events ended. *)
Inductive outcome : Type := Processed | Failed (retryAfterMs : option Z).

Definition finish (cfg : Config) (txn : string) (o : outcome) (st : State) : Response * State :=
  match o with
  | Processed => (ok200, rememberTxn cfg txn st)
  | Failed retry => (MkResponse 500 (Some "M_UNKNOWN") false retry, st)
  end.

End Receiver.

Module Router.
Import Receiver.

(** [serial] tells one receiver object from another. *)
Record Entry : Type := MkEntry { cfg : Config; receiver : State; announced : bool; serial : nat }.
#[export] Instance eta_entry : Settable Entry := λ e, MkEntry (cfg e) (receiver e) (announced e) (serial e).

(** The entries by the key of their side, in the order they were set, and the serial of the next. *)
Record Entries : Type := MkEntries { table : omap Entry; next_serial : nat }.

(** A side as it is handed to [setSides]; [usable] tells whether its [onEvents] is a function. *)
Record SideInput : Type := MkSideInput { in_sideId : jval; in_hsToken : jval; usable : bool; in_seenLimit : option nat; in_fleet : option Response; in_users : option bool }.

Section router.
Context (num_str : num → string).

Definition sideKey (v : jval) : string := lower (trim (to_str num_str v)).

Definition createAppserviceReceiver (s : SideInput) (n : nat) : result Entry :=
  match in_hsToken s with
  | JStr token => throw_if negb (truthy token) with "bad_request" in
                  throw_if negb (usable s) with "bad_request" in
                  Ok (MkEntry (MkConfig token (default DEFAULT_SEEN_LIMIT (in_seenLimit s)) (in_fleet s) (in_users s)) init false n)
  | _ => Throw "bad_request"
  end.

(** The loop of [setSides]; [old] are the entries before, [n] is the serial of the next receiver. *)
Fixpoint rebuild (old : omap Entry) (next : list SideInput) (new : omap Entry) (n : nat) : result Entries :=
  match next with
  | [] => Ok (MkEntries new n)
  | s :: next =>
      if negb (to_bool (in_sideId s)) || negb (to_bool (in_hsToken s)) then rebuild old next new n else
      let key := sideKey (in_sideId s) in
      let fresh := let* e := createAppserviceReceiver s n in rebuild old next (om_set key e new) (S n) in
      match om_get key old with
      | Some e => if strict_eq (JStr (hsToken (cfg e))) (in_hsToken s) then rebuild old next (om_set key e new) n else fresh
      | None => fresh
      end
  end.

(** A throw leaves the entries as they were. *)
Definition setSides (next : list SideInput) (es : Entries) : result unit * Entries :=
  match rebuild (table es) next [] (next_serial es) with Ok new => (Ok (), new) | Throw x => (Throw x, es) end.

Definition tokenFrom (r : Request) : option string :=
  match query_token r with
  | JStr t => if truthy t then Some t else bearer (authorization r)
  | _ => bearer (authorization r)
  end.

Definition matching (r : Request) (es : Entries) : list (string * Entry) :=
  match tokenFrom r with
  | Some t => if truthy t then List.filter (λ x, String.eqb t (hsToken (cfg x.2))) (table es) else []
  | None => []
  end.

(** [Awaiting] names the receiver that awaits, by the key of its side and its serial. *)
Inductive routed : Type := Answer (r : Response) (side : option string) | Thrown | Awaiting (side : string) (n : nat) (txn : string) (events : list jval) (m : string).

Definition put (side : string) (e : Entry) (es : Entries) : Entries := MkEntries (om_set side e (table es)) (next_serial es).

Definition begin (now : Z) (r : Request) (es : Entries) : routed * Entries :=
  match matching r es with
  | [(side, e)] =>
      if negb (is_nullish (transportSide r)) && negb (String.eqb (sideKey (transportSide r)) side) then (Answer (refuse 500 "M_UNKNOWN") None, es) else
      let '(b, st) := Receiver.begin (cfg e) now r (receiver e) in
      let es := put side (e <| announced := true |> <| receiver := st |>) es in
      match b with
      | Done a => (Answer a (Some side), es)
      | Threw => (Thrown, es)
      | Processing txn events m => (Awaiting side (serial e) txn events m, es)
      end
  | _ => (Answer (refuse 403 "M_FORBIDDEN") None, es)
  end.

(** The receiver that began the transaction finishes it; one that a refresh has dropped remembers it
    where nobody looks. *)
Definition finish (side : string) (n : nat) (txn : string) (o : outcome) (es : Entries) : Response * Entries :=
  match o with
  | Failed retry => (MkResponse 500 (Some "M_UNKNOWN") false retry, es)
  | Processed =>
      (ok200, match om_get side (table es) with
              | Some e => if Nat.eqb (serial e) n then put side (e <| receiver := (Receiver.finish (cfg e) txn Processed (receiver e)).2 |>) es else es
              | None => es
              end)
  end.

End router.
End Router.
