(* ===== verification/AppserviceEdge.v ===== *)
(** * The application service: the edge beside the homeserver ([lib/appservice-edge.js])

    The edge holds a transaction of the homeserver open until Hagency, which polls it, acknowledges it.
    A call of [handle] either answers at once or leaves a promise that a later event resolves: requests
    have numbers, and an event gives the answers it hands out, by number. *)

From Stdlib Require Import ZArith Lia String Ascii.
From stdpp Require Import base list strings.
From S2P Require Import Prelude OMap Json Uri AppserviceReceiver.
#[local] Open Scope stdpp_scope.

Module Edge.

Definition DEFAULT_DELIVER_TIMEOUT_MS : Z := 30000.
Definition DEFAULT_POLL_TIMEOUT_MS : Z := 25000.

Record Config : Type := MkConfig { hsToken : string; linkToken : string }.

(** The transaction of request [holder]; [taken] once it has been handed to Hagency. *)
Record InFlight : Type := MkInFlight { txnId : string; f_body : jval; holder : nat; taken : bool }.
#[export] Instance eta_inFlight : Settable InFlight := λ f, MkInFlight (txnId f) (f_body f) (holder f) (taken f).

Record Traffic : Type := MkTraffic {
  firstSeenAt : option Z; lastSeenAt : option Z; n_transactions : Z; delivered : Z; timedOut : Z; rejected : Z; lastRejectedAt : option Z;
  hagencyLastSeenAt : option Z;
}.
#[export] Instance eta_traffic : Settable Traffic := λ t,
  MkTraffic (firstSeenAt t) (lastSeenAt t) (n_transactions t) (delivered t) (timedOut t) (rejected t) (lastRejectedAt t) (hagencyLastSeenAt t).

(** [waitingPoller] is the request of the poll that waits. *)
Record State : Type := MkState { inFlight : option InFlight; waitingPoller : option nat; traffic : Traffic }.
#[export] Instance eta_state : Settable State := λ s, MkState (inFlight s) (waitingPoller s) (traffic s).

Definition init : State := MkState None None (MkTraffic None None 0 0 0 0 None None).

(** A request of the homeserver or of Hagency; [link] is the header [x-hagency-link]. *)
Record EdgeRequest : Type := MkEdgeRequest { req : Request; link : jval }.

(** What [status] reports of the transaction and the poller. *)
Record Status : Type := MkStatus { s_traffic : Traffic; s_inFlight : option (string * bool); hagencyWaiting : bool }.

Inductive answer : Type :=
| Plain (s : Z)
| Transaction (txn : string) (events : jval)
| StatusReport (s : Status)
| Thrown.

(** The status; a rejected promise has none. *)
Definition code (a : answer) : option Z := match a with Plain s => Some s | Transaction _ _ | StatusReport _ => Some 200 | Thrown => None end.

(** [body?.events ?? []] *)
Definition eventsIn (b : jval) : jval := nullish_or (prop b "events") (JArr []).

Definition fromHomeserver (cfg : Config) (r : Request) : bool :=
  match query_token r with
  | JStr t => if String.eqb t (hsToken cfg) then true else match bearer (authorization r) with Some a => String.eqb a (hsToken cfg) | None => false end
  | _ => match bearer (authorization r) with Some a => String.eqb a (hsToken cfg) | None => false end
  end.

Definition fromHagency (cfg : Config) (r : EdgeRequest) : bool := match link r with JStr t => String.eqb t (linkToken cfg) | _ => false end.

Definition note (f : Traffic → Traffic) (st : State) : State := let t := f (traffic st) in st <| traffic := t |>.

(** Hand whatever is pending to a waiting poller, if both exist. *)
Definition pump (st : State) : State * list (nat * answer) :=
  match inFlight st, waitingPoller st with
  | Some f, Some p =>
      if taken f then (st, []) else
      let f' := f <| taken := true |> in
      (st <| waitingPoller := None |> <| inFlight := Some f' |>, [(p, Transaction (txnId f) (eventsIn (f_body f)))])
  | _, _ => (st, [])
  end.

Definition rejectNow (now : Z) (t : Traffic) : Traffic := t <| rejected := rejected t + 1 |> <| lastRejectedAt := Some now |>.
Definition heardFrom (now : Z) (t : Traffic) : Traffic :=
  let first := match firstSeenAt t with None => Some now | f => f end in
  t <| firstSeenAt := first |> <| lastSeenAt := Some now |> <| n_transactions := n_transactions t + 1 |>.
Definition heardHagency (now : Z) (t : Traffic) : Traffic := t <| hagencyLastSeenAt := Some now |>.

(** [handle] for the request numbered [n]; no answer means that it waits. *)
Definition handle (cfg : Config) (now : Z) (n : nat) (r : EdgeRequest) (st : State) : State * list (nat * answer) :=
  let answer_now a st := (st, [(n, a)]) in
  let p := path (req r) in
  let m := method (req r) in
  match after_prefix transactions p, String.eqb m "PUT" with
  | Some raw, true =>
      if negb (fromHomeserver cfg (req r)) then answer_now (Plain 403) (note (rejectNow now) st) else
      match Uri.decodeURIComponent raw with
      | None => answer_now Thrown st
      | Some txn =>
          let st := note (heardFrom now) st in
          match inFlight st with
          | Some _ => answer_now (Plain 500) st
          | None => pump (st <| inFlight := Some (MkInFlight txn (body (req r)) n false) |>)
          end
      end
  | _, _ =>
      if String.prefix users p && String.eqb m "GET" then
        if negb (fromHomeserver cfg (req r)) then answer_now (Plain 403) (note (rejectNow now) st) else answer_now (Plain 404) st
      else if String.eqb p "/_hagency/edge/pull" && String.eqb m "GET" then
        if negb (fromHagency cfg r) then answer_now (Plain 403) st else
        let st := note (heardHagency now) st in
        match waitingPoller st, inFlight st with
        | Some _, _ => answer_now (Plain 409) st
        | None, Some f =>
            if taken f then pump (st <| waitingPoller := Some n |>)
            else let f' := f <| taken := true |> in answer_now (Transaction (txnId f) (eventsIn (f_body f))) (st <| inFlight := Some f' |>)
        | None, None => pump (st <| waitingPoller := Some n |>)
        end
      else if String.eqb p "/_hagency/edge/ack" && String.eqb m "POST" then
        if negb (fromHagency cfg r) then answer_now (Plain 403) st else
        let st := note (heardHagency now) st in
        let acked := match prop (body (req r)) "txn_id" with JStr t => t | _ => EmptyString end in
        let fine := negb (strict_eq (prop (body (req r)) "ok") (JBool false)) in
        match inFlight st with
        | None => answer_now (Plain 409) st
        | Some f =>
            if negb (String.eqb acked (txnId f)) then answer_now (Plain 409) st else
            let st := st <| inFlight := None |> in
            let st := if fine then note (λ t, t <| delivered := delivered t + 1 |>) st else st in
            (st, [(holder f, Plain (if fine then 200 else 500)); (n, Plain 200)])
        end
      else if String.eqb p "/_hagency/edge/status" && String.eqb m "GET" then
        if negb (fromHagency cfg r) then answer_now (Plain 403) st else
        answer_now (StatusReport (MkStatus (traffic st) ((λ f, (txnId f, taken f)) <$> inFlight st) (is_Some_b (waitingPoller st)))) st
      else answer_now (Plain 404) st
  end.

(** The timer of the transaction in flight; acknowledging or closing clears it. *)
Definition deliverTimeout (st : State) : State * list (nat * answer) :=
  match inFlight st with
  | Some f => (note (λ t, t <| timedOut := timedOut t + 1 |>) (st <| inFlight := None |>), [(holder f, Plain 500)])
  | None => (st, [])
  end.

(** The timer of the waiting poll. *)
Definition pollTimeout (st : State) : State * list (nat * answer) :=
  match waitingPoller st with
  | Some p => (st <| waitingPoller := None |>, [(p, Plain 204)])
  | None => (st, [])
  end.

Definition close (st : State) : State * list (nat * answer) :=
  (st <| inFlight := None |> <| waitingPoller := None |>,
   match inFlight st with Some f => [(holder f, Plain 500)] | None => [] end ++
   match waitingPoller st with Some p => [(p, Plain 204)] | None => [] end).

End Edge.
