(* ===== verification/AppservicePuller.v ===== *)
(** * The application service: the puller of the edge ([lib/appservice-puller.js])

    Hagency dials out: it polls the edge, hands a transaction to the router, acknowledges it and polls
    again. The loop is a machine whose steps are the answers it waits for. *)

From Stdlib Require Import ZArith QArith Qround Lia String Ascii.
From stdpp Require Import base list strings.
From S2P Require Import Prelude OMap Json Uri AppserviceReceiver AppserviceEdge.
#[local] Open Scope stdpp_scope.

Module Puller.

Definition BACKOFF_MS : list Z := [1000; 2000; 5000; 10000; 30000].
Definition POLLER_CONFLICT_RETRY_MS : Z := 1000.

(** ** Configuration from the environment *)

Inductive LinkConfig : Type := Enabled (url token side : string) | Disabled (reason : string).

(** [s.replace(/\/+$/, '')] *)
Fixpoint strip_slashes (s : string) : string :=
  match s with
  | EmptyString => EmptyString
  | String c s' => match strip_slashes s' with
                   | EmptyString => if Ascii.eqb c "/" then EmptyString else String c EmptyString
                   | t => String c t
                   end
  end.

(** [/^https?:\/\//i] *)
Definition absolute_url (s : string) : bool := let l := lower (slice_to 8 s) in String.prefix "http://" l || String.prefix "https://" l.

(** [/\/\s*$/] on a trimmed text. *)
Definition ends_in_slash (s : string) : bool := negb (String.eqb (strip_slashes s) s).

(** The members of [env] as texts; one that is not set is empty. *)
Definition resolveEdgeLinkConfig (edgeUrl linkToken edgeSide : string) : LinkConfig :=
  let url := strip_slashes (trim edgeUrl) in
  let token := trim linkToken in
  let side := trim edgeSide in
  if truthy side && (ends_in_slash side || absolute_url side) then Disabled "HAGENCY_EDGE_SIDE must be a side id" else
  let side := lower side in
  if negb (truthy side) then Disabled "HAGENCY_EDGE_SIDE names no project side" else
  if negb (truthy url) && negb (truthy token) then Disabled "no co-located appservice is expected" else
  if negb (truthy url) then Disabled "HAGENCY_EDGE_URL is not set" else
  if negb (truthy token) then Disabled "HAGENCY_EDGE_LINK_TOKEN is not set" else
  if absolute_url url then Enabled url token side else Disabled "HAGENCY_EDGE_URL must be an absolute http(s) URL".

(** ** The loop *)

Record Stats : Type := MkStats { collected : Z; processed : Z; failed : Z; lastCollectedAt : option Z; lastErrorAt : option Z; lastError : option string }.
#[export] Instance eta_stats : Settable Stats := λ s, MkStats (collected s) (processed s) (failed s) (lastCollectedAt s) (lastErrorAt s) (lastError s).

(** Where the loop waits: for the answer of a poll, for the router, for the answer of an
    acknowledgement, or for a timer. *)
Inductive phase : Type := Pulling | Handling (txn : string) | Acking (txn : string) (fine : bool) | Sleeping (ms : Z).

Record State : Type := MkState { at_ : phase; failures : nat; stats : Stats }.
#[export] Instance eta_state : Settable State := λ s, MkState (at_ s) (failures s) (stats s).

Definition init : State := MkState Pulling 0 (MkStats 0 0 0 None None None).

Definition error (now : Z) (what : string) (s : Stats) : Stats := s <| lastError := Some what |> <| lastErrorAt := Some now |>.
Definition failure (s : Stats) : Stats := s <| failed := failed s + 1 |>.

(** The [catch] of the loop. *)
Definition caught (now : Z) (what : string) (st : State) : State :=
  let s := error now what (failure (stats st)) in
  let wait := nth (Nat.min (failures st) (length BACKOFF_MS - 1)) BACKOFF_MS 0 in
  MkState (Sleeping wait) (S (failures st)) s.

(** What a poll brings: an answer with its status and JSON body, or an error (of the network, of the
    time limit, of the body). *)
Inductive pulled : Type := PullAnswer (s : Z) (payload : jval) | PullError (what : string).

(** The request that the puller hands to the router. *)
Definition request (side hsToken txn : string) (events : list jval) : Request :=
  MkRequest "PUT" (transactions +:+ Uri.encodeURIComponent txn) JUndef (JStr ("Bearer " +:+ hsToken)) (JObj [("events", JArr events)]) (JStr "edge") (JStr side).

(** After the answer of a poll: the state, and the transaction to hand to the router. *)
Definition onPull (now : Z) (a : pulled) (st : State) : State * option (string * list jval) :=
  match a with
  | PullError what => (caught now what st, None)
  | PullAnswer s payload =>
      if s =? 204 then (st <| failures := 0%nat |> <| at_ := Pulling |>, None) else
      if s =? 403 then let e := error now "link token rejected" (stats st) in (st <| stats := e |> <| at_ := Sleeping 30000 |>, None) else
      if s =? 409 then let e := error now "the edge is still holding a poll slot" (stats st) in
                       (st <| stats := e |> <| at_ := Sleeping POLLER_CONFLICT_RETRY_MS |>, None) else
      if negb ((200 <=? s) && (s <? 300)) then (caught now "pull answered HTTP" st, None) else
      match prop payload "txn_id" with
      | JStr txn =>
          if negb (truthy txn) then (caught now "pull answered without a txn_id" st, None) else
          let e := stats st in let e := e <| collected := collected e + 1 |> <| lastCollectedAt := Some now |> in
          (MkState (Handling txn) 0 e, Some (txn, eventsOf payload))
      | _ => (caught now "pull answered without a txn_id" st, None)
      end
  end.

(** After the router: the acknowledgement to send, unless the router threw. *)
Definition onHandled (now : Z) (txn : string) (a : option Response) (st : State) : State * option (string * bool) :=
  match a with
  | None => (caught now "router threw" st, None)
  | Some r =>
      let fine := status r =? 200 in
      let e := stats st in
      let e := if fine then e <| processed := processed e + 1 |> else error now "router answered" (failure e) in
      (st <| stats := e |> <| at_ := Acking txn fine |>, Some (txn, fine))
  end.

(** After the answer of the acknowledgement; only an error of the network counts. *)
Definition onAcked (now : Z) (arrived : bool) (st : State) : State :=
  if arrived then st <| at_ := Pulling |> else caught now "acknowledgement failed" st.

Definition onWake (st : State) : State := st <| at_ := Pulling |>.

(** The acknowledgement as the edge receives it. *)
Definition ackRequest (linkToken txn : string) (fine : bool) : Edge.EdgeRequest :=
  Edge.MkEdgeRequest (MkRequest "POST" "/_hagency/edge/ack" JUndef JUndef (JObj [("txn_id", JStr txn); ("ok", JBool fine)]) JUndef JUndef) (JStr linkToken).
Definition pullRequest (linkToken : string) : Edge.EdgeRequest :=
  Edge.MkEdgeRequest (MkRequest "GET" "/_hagency/edge/pull" JUndef JUndef JUndef JUndef JUndef) (JStr linkToken).

End Puller.
