(* ===== verification/AppserviceFlow.v ===== *)
(** * The application service: homeserver, edge and puller together

    The three machines and the network between them: any request may reach the edge from outside, polls
    and acknowledgements travel in any order and may be lost or late, timers fire at any moment, either
    process may restart, and the sides may be refreshed. What holds then: a transaction that the edge
    answers with 200 was processed, and one receiver does not process it twice within its window. *)

From Stdlib Require Import ZArith QArith Lia String Ascii.
From stdpp Require Import base list strings relations.
From S2P Require Import Prelude OMap Json Uri AppserviceReceiver AppserviceEdge AppservicePuller.
#[local] Open Scope stdpp_scope.

Section flow.
Context (num_str : num → string) (edgeCfg : Edge.Config) (side : string) (hsToken : string).

(** The homeserver sends the same events whenever it sends a transaction. *)
Context (content : string → list jval).

(** The key of the side that the edge serves. *)
Definition key : string := Router.sideKey num_str (JStr side).

(** [puts] are the transactions that were sent to the edge, by request, and [out] the answers that the
    edge gave; [done] are the transactions whose events were processed, and [recent] those that the
    present receiver of the side remembered, latest last. *)
Record System : Type := MkSystem {
  edge : Edge.State; puller : Puller.State; router : Router.Entries;
  poll : option nat; awaiting : option (string * nat * string * list jval); number : nat;
  polls : list nat; acks : list (nat * string * bool); puts : list (nat * string); out : list (nat * Edge.answer);
  done : list (string * list jval); recent : list string;
}.
#[export] Instance eta_system : Settable System := λ s,
  MkSystem (edge s) (puller s) (router s) (poll s) (awaiting s) (number s) (polls s) (acks s) (puts s) (out s) (done s) (recent s).

Definition start : System := MkSystem Edge.init Puller.init (Router.MkEntries [] 0) None None 0 [] [] [] [] [] [].

(** An answer of the edge as the puller sees it. *)
Definition seenBy (a : Edge.answer) : Puller.pulled :=
  match a with
  | Edge.Plain s => Puller.PullAnswer s JNull
  | Edge.Transaction txn events => Puller.PullAnswer 200 (JObj [("txn_id", JStr txn); ("events", events)])
  | Edge.StatusReport _ => Puller.PullAnswer 200 JNull
  | Edge.Thrown => Puller.PullError "no answer"
  end.

Definition at_edge (o : Edge.State * list (nat * Edge.answer)) (s : System) : System := s <| edge := o.1 |> <| out := out s ++ o.2 |>.

(** The transaction that a request to the edge carries. *)
Definition putOf (r : Edge.EdgeRequest) : option string :=
  match after_prefix transactions (path (Edge.req r)), String.eqb (method (Edge.req r)) "PUT" with
  | Some raw, true => Uri.decodeURIComponent raw
  | _, _ => None
  end.

Definition arrives (now : Z) (r : Edge.EdgeRequest) (s : System) : System :=
  let n := number s in
  let s := s <| number := S n |> <| puts := match putOf r with Some txn => puts s ++ [(n, txn)] | None => puts s end |> in
  at_edge (Edge.handle edgeCfg now n r (edge s)) s.

(** The end of handling at the puller: an acknowledgement is sent, or the loop backs off. *)
Definition handled (now : Z) (txn : string) (a : option Response) (s : System) : System :=
  let '(p, ack) := Puller.onHandled now txn a (puller s) in
  let s := s <| puller := p |> in
  match ack with
  | Some (t, fine) => let n := number s in s <| number := S n |> <| acks := acks s ++ [(n, t, fine)] |>
  | None => s
  end.

(** A poll is answered; a transaction goes to the router. *)
Definition pulled (now : Z) (a : Puller.pulled) (s : System) : System :=
  let '(p, got) := Puller.onPull now a (puller s) in
  let s := s <| puller := p |> <| poll := None |> in
  match got with
  | None => s
  | Some (txn, events) =>
      let '(r, es) := Router.begin num_str now (Puller.request side hsToken txn events) (router s) in
      let s := s <| router := es |> in
      match r with
      | Router.Answer a _ => handled now txn (Some a) s
      | Router.Thrown => handled now txn None s
      | Router.Awaiting k n t evs _ => s <| awaiting := Some (k, n, t, evs) |>
      end
  end.

(** The receiver of the side, by its serial. *)
Definition serialOf (es : Router.Entries) : option nat := Router.serial <$> om_get key (Router.table es).

(** The processing of the events ends. *)
Definition finished (now : Z) (o : Receiver.outcome) (s : System) : System :=
  match awaiting s with
  | None => s
  | Some (k, n, txn, evs) =>
      let '(a, es) := Router.finish k n txn o (router s) in
      let s' := match o with
                | Receiver.Processed => s <| done := done s ++ [(txn, evs)] |> <| recent := if bool_decide (serialOf (router s) = Some n) then recent s ++ [txn] else recent s |>
                | Receiver.Failed _ => s
                end in
      handled now txn (Some a) (s' <| router := es |> <| awaiting := None |>)
  end.

Definition refreshed (next : list Router.SideInput) (s : System) : System :=
  let es := (Router.setSides num_str next (router s)).2 in
  s <| router := es |> <| recent := if bool_decide (serialOf es = serialOf (router s)) then recent s else [] |>.

(** The requests from outside: nobody else knows the link token, and the homeserver repeats itself. *)
Definition outside (r : Edge.EdgeRequest) : Prop :=
  Edge.fromHagency edgeCfg r = false ∧
  ∀ txn, putOf r = Some txn → Edge.fromHomeserver edgeCfg (Edge.req r) = true → eventsOf (body (Edge.req r)) = content txn.

Inductive flow_step : relation System :=
| f_outside now r s : outside r → flow_step s (arrives now r s)
| f_poll s : Puller.at_ (puller s) = Puller.Pulling → poll s = None →
    flow_step s (s <| poll := Some (number s) |> <| polls := polls s ++ [number s] |> <| number := S (number s) |>)
| f_poll_arrives now n s : n ∈ polls s →
    flow_step s (at_edge (Edge.handle edgeCfg now n (Puller.pullRequest (Edge.linkToken edgeCfg)) (edge s)) s)
| f_poll_lost n s : flow_step s (s <| polls := List.filter (λ m, negb (Nat.eqb m n)) (polls s) |>)
| f_pulled now n a s : poll s = Some n → (n, a) ∈ out s → flow_step s (pulled now (seenBy a) s)
| f_poll_failed now what s : poll s ≠ None → flow_step s (pulled now (Puller.PullError what) s)
| f_finished now o s : flow_step s (finished now o s)
| f_ack_arrives now n txn fine s : (n, txn, fine) ∈ acks s →
    flow_step s (at_edge (Edge.handle edgeCfg now n (Puller.ackRequest (Edge.linkToken edgeCfg) txn fine) (edge s)) s)
| f_acked now ok txn fine s : Puller.at_ (puller s) = Puller.Acking txn fine → flow_step s (s <| puller := Puller.onAcked now ok (puller s) |>)
| f_wake ms s : Puller.at_ (puller s) = Puller.Sleeping ms → flow_step s (s <| puller := Puller.onWake (puller s) |>)
| f_deliver_timeout s : flow_step s (at_edge (Edge.deliverTimeout (edge s)) s)
| f_poll_timeout s : flow_step s (at_edge (Edge.pollTimeout (edge s)) s)
| f_close s : flow_step s (at_edge (Edge.close (edge s)) s)
| f_edge_restarts s : flow_step s (s <| edge := Edge.init |>)
| f_refresh next s : flow_step s (refreshed next s)
| f_restart s : flow_step s (s <| puller := Puller.init |> <| router := Router.MkEntries [] 0 |> <| poll := None |> <| awaiting := None |> <| recent := [] |>).

End flow.

(** ** The application service: what a transaction goes through

    What one request does at the edge, the answer of the router to the puller's request, and the
    invariants of the whole flow: the books of the edge, and those of the receiver of the side. *)

From Stdlib Require Import ZArith QArith Lia String Ascii.
From stdpp Require Import base list strings relations.
From S2P Require Import Prelude OMap Json Uri AppserviceReceiver AppserviceEdge AppservicePuller.
#[local] Open Scope stdpp_scope.
#[local] Existing Instances Edge.eta_inFlight Edge.eta_state eta_system.

(** ** The edge *)

(** What the edge may answer to request [m] while it handles request [n]. *)
Inductive answers (cfg : Edge.Config) (n : nat) (r : Edge.EdgeRequest) (st : Edge.State) : nat → Edge.answer → Prop :=
| a_refused m a : Edge.code a ≠ Some 200 → (∀ t ev, a ≠ Edge.Transaction t ev) → answers cfg n r st m a
| a_own a : putOf r = None → (∀ t ev, a ≠ Edge.Transaction t ev) → answers cfg n r st n a
| a_handed m f : putOf r = None ∧ m = n ∧ Edge.inFlight st = Some f ∨
                 Edge.waitingPoller st = Some m ∧ putOf r = Some (Edge.txnId f) ∧ Edge.fromHomeserver cfg (Edge.req r) = true ∧
                   Edge.f_body f = body (Edge.req r) →
                 answers cfg n r st m (Edge.Transaction (Edge.txnId f) (Edge.eventsIn (Edge.f_body f)))
| a_acked f : Edge.inFlight st = Some f → Edge.fromHagency cfg r = true → path (Edge.req r) = "/_hagency/edge/ack" →
              match prop (body (Edge.req r)) "txn_id" with JStr t => t | _ => EmptyString end = Edge.txnId f →
              strict_eq (prop (body (Edge.req r)) "ok") (JBool false) = false →
              answers cfg n r st (Edge.holder f) (Edge.Plain 200).

(** The transaction in flight afterwards is the one before, or that of the request. *)
Inductive holds (cfg : Edge.Config) (n : nat) (r : Edge.EdgeRequest) (st : Edge.State) : Edge.InFlight → Prop :=
| h_same f b : Edge.inFlight st = Some f → holds cfg n r st (f <| Edge.taken := b |>)
| h_new f : putOf r = Some (Edge.txnId f) → Edge.fromHomeserver cfg (Edge.req r) = true → Edge.holder f = n →
            Edge.f_body f = body (Edge.req r) → holds cfg n r st f.

Lemma holds_same cfg n r st f : Edge.inFlight st = Some f → holds cfg n r st f.
Proof. intros H. destruct f as [a b c d]. exact (h_same _ _ _ _ (Edge.MkInFlight a b c d) d H). Qed.

#[local] Ltac edge_case :=
  lazymatch goal with
  | H : False |- _ => destruct H
  | H : _ ∈ [] |- _ => by apply elem_of_nil in H
  | H : (_, _) ∈ _ :: _ |- _ => apply elem_of_cons in H as [[= -> ->]|H]
  | H : Some _ = Some _ |- _ => injection H as <-
  | H : Some _ = Some _ |- _ => injection H as H
  end.

#[local] Ltac put_of :=
  unfold putOf; cbn; repeat match goal with E : ?x = _ |- context [match ?x with _ => _ end] => rewrite E end; try done.

Lemma handle_edge cfg now n r st : let o := Edge.handle cfg now n r st in
  (∀ m a, (m, a) ∈ o.2 → answers cfg n r st m a) ∧
  (∀ f, Edge.inFlight o.1 = Some f → holds cfg n r st f) ∧
  (∀ p, Edge.waitingPoller o.1 = Some p → Edge.waitingPoller st = Some p ∨ p = n ∧ putOf r = None).
Proof.
  destruct st as [fl wp tr]. unfold Edge.handle, Edge.pump, putOf, Edge.note. cbn zeta.
  repeat case_match; rewrite ?negb_true_iff, ?negb_false_iff, ?andb_true_iff in *; destruct_and?; cbn in *; simplify_eq;
    split_and!; intros; repeat edge_case; cbn in *; simplify_eq.
  all: try (left; done); try (right; split; [done|by put_of]).
  all: try (by apply a_refused); try (by apply holds_same); try (by apply h_new; [put_of|..]).
  all: try (by apply a_own; [put_of|]).
  all: try (by eapply a_acked; [done|done|by apply String.eqb_eq| |]; repeat case_match; simplify_eq/=; try done; apply String.eqb_eq).
  all: match goal with |- answers ?c ?n ?r (Edge.MkState ?o ?w ?t) ?m (Edge.Transaction ?x (Edge.eventsIn ?b)) =>
         match o with
         | Some ?i => apply (a_handed c n r _ m i); left; split_and!; [put_of|..]; done
         | None => apply (a_handed c n r _ m (Edge.MkInFlight x b 0 false)); right; split_and!; [|put_of|..]; done
         end
       end.
Qed.

(** The other events of the edge answer with a timeout. *)
Lemma edge_drops st o : o = Edge.deliverTimeout st ∨ o = Edge.pollTimeout st ∨ o = Edge.close st →
  (∀ m a, (m, a) ∈ o.2 → Edge.code a ≠ Some 200 ∧ ∀ t ev, a ≠ Edge.Transaction t ev) ∧
  (∀ f, Edge.inFlight o.1 = Some f → Edge.inFlight st = Some f) ∧ (∀ p, Edge.waitingPoller o.1 = Some p → Edge.waitingPoller st = Some p).
Proof.
  destruct st as [[f|] [w|] tr]; intros [->|[->| ->]]; cbn; split_and!; intros; repeat edge_case; cbn in *; simplify_eq; try done.
Qed.

(** ** The puller *)

Lemma pull_seen now a p p' txn events : Puller.onPull now (seenBy a) p = (p', Some (txn, events)) →
  txn ≠ EmptyString ∧ ∃ ev, a = Edge.Transaction txn ev ∧ events = eventsOf (JObj [("txn_id", JStr txn); ("events", ev)]).
Proof.
  destruct a as [c|t ev|st|]; cbn [seenBy Puller.onPull]; [|..]; try (intros; simplify_eq/=; fail).
  - unfold Puller.onPull. repeat case_match; by intros [= <-].
  - cbn. destruct (truthy t) eqn:Et; cbn; intros [= <- <- <-].
    split; [by apply truthy_spec|]. by exists ev.
Qed.

Lemma pull_nonempty now a p p' txn events : Puller.onPull now (seenBy a) p = (p', Some (txn, events)) → txn ≠ EmptyString.
Proof. by intros [H _]%pull_seen. Qed.

(** ** The router *)

Section router.
Context (num_str : num → string).

Lemma string_prefix_app p s : String.prefix p (p +:+ s) = true.
Proof. induction p as [|c p IH]; [by destruct s|]. change ((if ascii_dec c c then String.prefix p (p +:+ s) else false) = true). by destruct (ascii_dec c c). Qed.

Lemma drop_str_app p s : drop_str (String.length p) (p +:+ s) = s.
Proof. by induction p. Qed.

Lemma bearer_app t : bearer (JStr ("Bearer " +:+ t)) = Some t.
Proof. unfold bearer. by rewrite string_prefix_app, (drop_str_app "Bearer "). Qed.

Lemma encoded_no_line_end s : string_exists line_end (Uri.encodeURIComponent s) = false.
Proof.
  pose proof (Uri.encode_plain s) as H. induction (Uri.encodeURIComponent s) as [|c u IH]; [done|].
  unfold string_forall in *. cbn in *. apply negb_true_iff, orb_false_iff in H as [Hc Hu]. rewrite IH; [|by rewrite Hu].
  by destruct c as [[] [] [] [] [] [] [] []].
Qed.

(** The puller's request is taken apart as it was put together. *)
Lemma after_prefix_encode s : s ≠ EmptyString → after_prefix transactions (transactions +:+ Uri.encodeURIComponent s) = Some (Uri.encodeURIComponent s).
Proof.
  intros Hs. unfold after_prefix. rewrite string_prefix_app, drop_str_app, encoded_no_line_end, andb_true_r.
  assert (truthy (Uri.encodeURIComponent s) = true) as -> by (by apply truthy_spec, Uri.encode_nonempty). done.
Qed.

(** What a receiver answers to the puller: it processes the events, or it has seen the transaction. *)
Lemma begin_request cfg now side token txn events st b st' : txn ≠ EmptyString →
  Receiver.begin cfg now (Puller.request side token txn events) st = (b, st') →
  Receiver.seen st' = Receiver.seen st ∧
  (b = Receiver.Processing txn events "edge" ∧ txn ∉ Receiver.seen st ∨
   (∃ r, b = Receiver.Done r ∧ (status r = 200 → txn ∈ Receiver.seen st))).
Proof.
  intros Ht. unfold Receiver.begin. destruct (Receiver.authorized _ _); cbn [negb]; [|intros [= <- <-]; split; [done|right; eexists; by split]].
  change (String.prefix "/api/fleet/v1/" _) with false. cbn [method path Puller.request]. rewrite after_prefix_encode, Uri.decode_encode by done. cbn.
  destruct (inb txn (Receiver.seen st)) eqn:E; intros [= <- <-]; (split; [done|]).
  - right. eexists. split; [done|]. intros _. by apply inb_spec.
  - left. split; [done|]. rewrite <-inb_spec, E. done.
Qed.

(** What matters of an entry to the flow. *)
Definition view (e : Router.Entry) : Receiver.Config * nat * list string := (Router.cfg e, Router.serial e, Receiver.seen (Router.receiver e)).
Definition seat (k : string) (es : Router.Entries) : option (Receiver.Config * nat * list string) := view <$> om_get k (Router.table es).

(** Every side has one entry, and no receiver has a serial that is still to come. *)
Record sound (es : Router.Entries) : Prop := Sound {
  so_nodup : NoDup (om_keys (Router.table es));
  so_serial : ∀ k e, om_get k (Router.table es) = Some e → (Router.serial e < Router.next_serial es)%nat;
}.

Lemma sound_put k e es : sound es → (Router.serial e < Router.next_serial es)%nat → sound (Router.put k e es).
Proof.
  intros [H1 H2] He. split; cbn; [by apply om_nodup_set|]. intros k' e'. rewrite om_get_set. destruct (String.eqb k k'); [by intros [= <-]|apply H2].
Qed.

Lemma seat_put k k' e es : seat k' (Router.put k e es) = if String.eqb k k' then Some (view e) else seat k' es.
Proof. unfold seat. cbn. rewrite om_get_set. by destruct (String.eqb k k'). Qed.

Lemma router_begin now side token txn events es r es' : sound es → txn ≠ EmptyString →
  Router.begin num_str now (Puller.request side token txn events) es = (r, es') →
  sound es' ∧ Router.next_serial es' = Router.next_serial es ∧ (∀ k, seat k es' = seat k es) ∧
  match r with
  | Router.Answer a _ => status a = 200 → ∃ c n l, seat (key num_str side) es = Some (c, n, l) ∧ txn ∈ l
  | Router.Thrown => False
  | Router.Awaiting k n t evs _ => k = key num_str side ∧ t = txn ∧ evs = events ∧ ∃ c l, seat k es = Some (c, n, l) ∧ txn ∉ l
  end.
Proof.
  intros Hes Ht. unfold Router.begin. destruct (Router.matching _ es) as [|[k e] [|? ?]] eqn:Em; try by intros [= <- <-].
  assert (He : om_get k (Router.table es) = Some e).
  { apply elem_of_om_get; [apply Hes|]. assert (H : (k, e) ∈ Router.matching (Puller.request side token txn events) es) by (rewrite Em; by left).
    unfold Router.matching in H. repeat case_match; try by apply elem_of_nil in H. by apply elem_of_filter_bool in H as [_ H]. }
  cbn [transportSide Puller.request is_nullish negb]. destruct (String.eqb (Router.sideKey num_str (JStr side)) k) eqn:Ek; cbn [andb negb]; [|by intros [= <- <-]].
  apply String.eqb_eq in Ek as <-. fold (key num_str side) in *. destruct (Receiver.begin _ _ _ _) as [b st] eqn:Eb.
  destruct (begin_request _ _ _ _ _ _ _ _ _ Ht Eb) as [Hs Hb]. cbn zeta.
  set (es1 := Router.put _ _ es). assert (Hsound : sound es1) by (apply sound_put; [done|]; by apply (so_serial _ Hes _ _ He)).
  assert (Hseat : ∀ k, seat k es1 = seat k es).
  { intros k. unfold es1. rewrite seat_put. destruct (String.eqb_spec (key num_str side) k) as [<-|]; [|done]. unfold seat. rewrite He. cbn. unfold view. by rewrite <-Hs. }
  assert (Hk : seat (key num_str side) es = Some (view e)) by (unfold seat; by rewrite He).
  destruct Hb as [[-> Hn]|(a & -> & Ha)]; intros [= <- <-]; split_and!; try done.
  - eexists _, _. by rewrite Hk.
  - intros H200. eexists _, _, _. split; [exact Hk|]. by apply Ha.
Qed.

Lemma sound_start : sound (Router.MkEntries [] 0).
Proof. split; [constructor|done]. Qed.

Lemma router_finish k n txn o es a es' : sound es → Router.finish k n txn o es = (a, es') →
  sound es' ∧ Router.next_serial es' = Router.next_serial es ∧ (status a = 200 → o = Receiver.Processed) ∧
  (∀ k', k' ≠ k → seat k' es' = seat k' es) ∧
  match seat k es with
  | Some (c, m, l) => seat k es' =
      if match o with Receiver.Processed => Nat.eqb m n | Receiver.Failed _ => false end then
        let l' := if inb txn l then l else l ++ [txn] in Some (c, m, drop (length l' - Receiver.seenLimit c) l')
      else Some (c, m, l)
  | None => seat k es' = None
  end.
Proof.
  intros Hes. unfold Router.finish. destruct o as [|retry]; intros [= <- <-]; cbn [status].
  2: { split_and!; try done. by destruct (seat k es) as [[[c m] l]|] eqn:E. }
  unfold seat. destruct (om_get k (Router.table es)) as [e|] eqn:E; cbn [fmap option_fmap option_map view]; [|by rewrite E].
  destruct (Nat.eqb_spec (Router.serial e) n) as [<-|Hn].
  - split_and!; try done.
    + apply sound_put; [done|]. cbn. by apply (so_serial _ Hes _ _ E).
    + intros k' Hk'. cbn. rewrite om_get_set. by destruct (String.eqb_spec k k').
    + cbn. rewrite om_get_set, String.eqb_refl. done.
  - by rewrite E.
Qed.

(** After a refresh a side has the receiver it had, or a new one, or none. *)
Definition kept (es es' : Router.Entries) (k : string) : Prop :=
  seat k es' = seat k es ∨ seat k es' = None ∨ ∃ c n, seat k es' = Some (c, n, []) ∧ (Router.next_serial es ≤ n)%nat.

Lemma rebuild_kept es next new n es' : sound es →
  Router.rebuild num_str (Router.table es) next new n = Ok es' → (Router.next_serial es ≤ n)%nat →
  sound (Router.MkEntries new n) → (∀ k, kept es (Router.MkEntries new n) k) →
  sound es' ∧ (Router.next_serial es ≤ Router.next_serial es')%nat ∧ ∀ k, kept es es' k.
Proof.
  intros Hes. revert new n. induction next as [|s next IH]; intros new n; cbn [Router.rebuild]; [by intros [= <-]|].
  destruct (_ || _); [apply IH|]. cbn zeta. set (k0 := Router.sideKey _ _). set (fresh := bind _ _). clearbody k0.
  intros H Hn Hnew Hk.
  assert (Hput : ∀ e m, (n ≤ m)%nat → (Router.serial e < m)%nat → (seat k0 es = Some (view e) ∨ ∃ c, view e = (c, n, [])) →
    let es1 := Router.MkEntries (om_set k0 e new) m in sound es1 ∧ ∀ k, kept es es1 k).
  { intros e m Hm He Hv es1. split.
    - destruct Hnew as [N1 N2]. apply (sound_put k0 e (Router.MkEntries new m)); [|done]. split; [done|]. intros k e' Hg. specialize (N2 _ _ Hg). cbn in *. lia.
    - intros k. unfold kept. assert (Hseat : seat k es1 = if String.eqb k0 k then Some (view e) else seat k (Router.MkEntries new n)) by (apply (seat_put k0 k e (Router.MkEntries new m))).
      rewrite Hseat. destruct (String.eqb_spec k0 k) as [Hk0|_]; [|apply Hk]; rewrite <-Hk0. destruct Hv as [->|[c ->]]; [by left|right; right; eauto]. }
  assert (Hfresh : fresh = Ok es' → sound es' ∧ (Router.next_serial es ≤ Router.next_serial es')%nat ∧ ∀ k, kept es es' k).
  { unfold fresh. intros (e & He & Hrest)%bind_Ok.
    assert (Router.serial e = n ∧ Receiver.seen (Router.receiver e) = []) as [E1 E2].
    { unfold Router.createAppserviceReceiver in He. case_match; try done. js_inv He. by simplify_eq/=. }
    destruct (Hput e (S n)) as [S1 S2]; [lia|lia|right; eexists; unfold view; by rewrite E1, E2|]. apply (IH _ _ Hrest); [lia|done|done]. }
  destruct (om_get k0 (Router.table es)) as [e|] eqn:E; [|auto]. destruct (strict_eq _ _); [|auto].
  destruct (Hput e n) as [S1 S2]; [lia|pose proof (so_serial _ Hes _ _ E); lia|left; unfold seat; by rewrite E|]. by apply (IH _ _ H).
Qed.

Lemma setSides_kept next es : sound es → let es' := (Router.setSides num_str next es).2 in
  sound es' ∧ (Router.next_serial es ≤ Router.next_serial es')%nat ∧ ∀ k, kept es es' k.
Proof.
  intros Hes. unfold Router.setSides. destruct (Router.rebuild _ _ _ _ _) as [es'|x] eqn:E; cbn; [|split_and!; [done..|by left]].
  apply (rebuild_kept _ _ _ _ _ Hes E); [done| |by right; left]. split; [constructor|done].
Qed.

End router.

(** ** A run

    One side whose receiver remembers one transaction; the homeserver sends three transactions, the
    third of them the first again. *)

Module Sample.

Definition cfg : Edge.Config := Edge.MkConfig "hs" "link".
Definition content (t : string) : list jval := [JStr t].
Definition num_str (_ : num) : string := EmptyString.

Definition send (t : string) : Edge.EdgeRequest :=
  Edge.MkEdgeRequest (MkRequest "PUT" (transactions +:+ Uri.encodeURIComponent t) (JStr "hs") JUndef (JObj [("events", JArr (content t))]) JUndef JUndef) JUndef.

Definition polled (s : System) : System := s <| poll := Some (number s) |> <| polls := polls s ++ [number s] |> <| number := S (number s) |>.
Definition poll_arrived (n : nat) (s : System) : System := at_edge (Edge.handle cfg 0 n (Puller.pullRequest "link") (edge s)) s.
Definition acked (n : nat) (t : string) (s : System) : System := at_edge (Edge.handle cfg 0 n (Puller.ackRequest "link" t true) (edge s)) s.
Definition ready (s : System) : System := s <| puller := Puller.onAcked 0 true (puller s) |>.

(** Poll [n], transaction [n + 1], acknowledgement [n + 2]. *)
Definition collected (n : nat) (t : string) (s : System) : System :=
  pulled num_str "alpha" "hs" 0 (seenBy (Edge.Transaction t (JArr (content t)))) (arrives cfg 0 (send t) (poll_arrived n (polled s))).
Definition round (n : nat) (t : string) (s : System) : System :=
  ready (acked (n + 2) t (finished num_str "alpha" 0 Receiver.Processed (collected n t s))).

Definition s0 : System := refreshed num_str "alpha" [Router.MkSideInput (JStr "alpha") (JStr "hs") true (Some 1%nat) None None] start.
Definition s1 : System := round 0 "a b" s0.
Definition s2 : System := round 3 "t2" s1.
Definition s3 : System := round 6 "a b" s2.

Abbreviation step := (flow_step num_str cfg "alpha" "hs" content).

Lemma round_steps n t s : Puller.at_ (puller s) = Puller.Pulling → poll s = None → number s = n → putOf (send t) = Some t →
  (n, Edge.Transaction t (JArr (content t))) ∈ out (arrives cfg 0 (send t) (poll_arrived n (polled s))) →
  poll (arrives cfg 0 (send t) (poll_arrived n (polled s))) = Some n →
  ((n + 2)%nat, t, true) ∈ acks (finished num_str "alpha" 0 Receiver.Processed (collected n t s)) →
  Puller.at_ (puller (acked (n + 2) t (finished num_str "alpha" 0 Receiver.Processed (collected n t s)))) = Puller.Acking t true →
  rtc step s (round n t s).
Proof.
  intros Hp Hn Hnum Ht Ho Hpoll Ha Hat.
  eapply rtc_l; [by apply f_poll|]. eapply rtc_l; [apply (f_poll_arrives _ _ _ _ _ 0 n); cbn; apply elem_of_app; right; rewrite Hnum; by left|].
  eapply rtc_l; [apply (f_outside _ _ _ _ _ 0 (send t)); split; [done|]; rewrite Ht; by intros ? [= <-]|].
  eapply rtc_l; [by apply (f_pulled _ _ _ _ _ 0 n)|]. eapply rtc_l; [apply (f_finished _ _ _ _ _ 0 Receiver.Processed)|].
  eapply rtc_l; [by apply (f_ack_arrives _ _ _ _ _ 0 (n + 2) t true)|]. eapply rtc_l; [by eapply (f_acked _ _ _ _ _ 0 true)|]. done.
Qed.

Lemma reaches_s1 : rtc step start s1.
Proof.
  eapply rtc_l; [apply f_refresh|]. apply round_steps; try (vm_compute; reflexivity); apply list_elem_of_In; vm_compute; tauto.
Qed.

Lemma reaches_s3 : rtc step start s3.
Proof.
  etrans; [apply reaches_s1|]. etrans; [apply (round_steps 3 "t2")|apply (round_steps 6 "a b")];
    try (vm_compute; reflexivity); apply list_elem_of_In; vm_compute; tauto.
Qed.

End Sample.
