(* ===== verification/AppserviceBooks.v ===== *)
(** * The application service: an answer 200 of the edge

    The invariant of the flow that accounts for requests, answers and processed transactions, and what
    it gives: the homeserver is told 200 for a transaction only when its events were processed. *)

From Stdlib Require Import ZArith QArith Lia String Ascii.
From stdpp Require Import base list strings relations.
From S2P Require Import Prelude OMap Json Uri AppserviceReceiver AppserviceEdge AppservicePuller AppserviceFlow.
#[local] Open Scope stdpp_scope.

Section books.
Context (num_str : num → string) (edgeCfg : Edge.Config) (side : string) (hsToken : string) (content : string → list jval).

Abbreviation step := (flow_step num_str edgeCfg side hsToken content).
Abbreviation seat_of s := (seat (key num_str side) (router s)).

Definition spoken (s : System) (n : nat) : Prop :=
  n ∈ polls s ∨ Edge.waitingPoller (edge s) = Some n ∨ ∃ t b, (n, t, b) ∈ acks s.

(** Requests, answers and acknowledgements. *)
Record Net (s : System) : Prop := MkNet {
  b_put : ∀ n t, (n, t) ∈ puts s → (n < number s)%nat;
  b_fun : ∀ n t t', (n, t) ∈ puts s → (n, t') ∈ puts s → t = t';
  b_spoken : ∀ n, spoken s n → (n < number s)%nat ∧ ∀ t, (n, t) ∉ puts s;
  b_flight : ∀ f, Edge.inFlight (edge s) = Some f →
    (Edge.holder f, Edge.txnId f) ∈ puts s ∧ eventsOf (Edge.f_body f) = content (Edge.txnId f);
  b_event : ∀ n t ev, (n, Edge.Transaction t ev) ∈ out s → eventsOf (JObj [("txn_id", JStr t); ("events", ev)]) = content t;
  b_200 : ∀ n a, (n, a) ∈ out s → Edge.code a = Some 200 → (n < number s)%nat ∧ ∀ t, (n, t) ∈ puts s → (t, content t) ∈ done s;
  b_ack : ∀ n t, (n, t, true) ∈ acks s → (t, content t) ∈ done s;
}.

(** The transaction being processed, and those that the receiver of the side remembers. *)
Record Desk (s : System) : Prop := MkDesk {
  b_await : ∀ k n t evs, awaiting s = Some (k, n, t, evs) → k = key num_str side ∧ evs = content t;
  b_sound : sound (router s);
  b_seen : ∀ c n l t, seat_of s = Some (c, n, l) → t ∈ l → (t, content t) ∈ done s;
}.

Lemma net_start : Net start.
Proof.
  assert (H : ∀ A (x : A), x ∈ [] → False) by (by intros A x ?%elem_of_nil).
  split; cbn; intros; try done; exfalso; try (eapply H; eassumption).
  match goal with Hs : spoken _ _ |- _ => destruct Hs as [?|[?|(? & ? & ?)]] end; cbn in *; try done; eapply H; eassumption.
Qed.

Lemma desk_start : Desk start.
Proof. split; cbn; [done|apply sound_start|done]. Qed.

(** What a step other than the edge's may do to the books. *)
Lemma net_move s s' : Net s → edge s' = edge s → out s' = out s → (number s ≤ number s')%nat → (∀ x, x ∈ done s → x ∈ done s') →
  puts s' = puts s ∨ number s' = S (number s) ∧ (∃ t, puts s' = puts s ++ [(number s, t)]) ∧ polls s' = polls s ∧ acks s' = acks s →
  (∀ n, n ∈ polls s' → n ∈ polls s ∨ number s ≤ n < number s')%nat →
  (∀ n t b, (n, t, b) ∈ acks s' → (n, t, b) ∈ acks s ∨ (number s ≤ n < number s')%nat ∧ (b = true → (t, content t) ∈ done s')) →
  Net s'.
Proof.
  intros [N1 N2 N3 N4 N5 N6 N7] He Ho Hn Hd Hputs Hpolls Hacks.
  assert (Hp : ∀ n t, (n, t) ∈ puts s' → (n, t) ∈ puts s ∨ n = number s ∧ (n < number s')%nat ∧ puts s' = puts s ++ [(n, t)]).
  { intros n t H. destruct Hputs as [E|(E & (t' & Ht) & _)]; [left; by rewrite <-E|]. rewrite Ht in H.
    apply elem_of_app in H as [H|[= -> ->]%list_elem_of_singleton]; [by left|right; split_and!; [done|lia|done]]. }
  assert (Hin : ∀ x, x ∈ puts s → x ∈ puts s').
  { intros x Hx. destruct Hputs as [->|(_ & (t & ->) & _)]; [done|]. apply elem_of_app. by left. }
  assert (Hfresh : ∀ n, (∃ t, (n, t) ∈ puts s') → (∀ t, (n, t) ∉ puts s) → n = number s).
  { intros n (t & Ht) Hno. by destruct (Hp _ _ Ht) as [?%Hno|[? _]]. }
  assert (Hsp : ∀ n, spoken s' n → spoken s n ∨ (number s ≤ n < number s')%nat ∧ puts s' = puts s).
  { intros n H. destruct Hputs as [E|(_ & _ & E1 & E2)].
    - destruct H as [[H|H]%Hpolls|[H|(t & b & [H|[H _]]%Hacks)]]; try (right; split; [lia|done]); left; unfold spoken; [by left|right; left; by rewrite <-He|eauto].
    - left. unfold spoken in *. by rewrite <-E1, <-E2, <-He. }
  split; rewrite ?He, ?Ho.
  - intros n t [H%N1|[_ [H _]]]%Hp; lia.
  - intros n t t' H1 H2. destruct (Hp _ _ H1) as [A|(-> & _ & A)], (Hp _ _ H2) as [B|(E & _ & B)]; [by eapply N2| | |].
    + subst n. apply N1 in A. lia.
    + apply N1 in B. lia.
    + rewrite A in B. apply app_inj_tail in B as [_ [= ->]]. done.
  - intros n [H|[H E]]%Hsp.
    + destruct (N3 _ H) as [Hlt Hno]. split; [lia|]. intros t Ht. assert (n = number s) by eauto. lia.
    + split; [lia|]. intros t. rewrite E. intros Ht%N1. lia.
  - intros f Hf. destruct (N4 _ Hf) as [H1 H2]. auto.
  - apply N5.
  - intros n a H1 H2. destruct (N6 _ _ H1 H2) as [Hlt Hdone]. split; [lia|]. intros t [H|[-> _]]%Hp; [auto|lia].
  - intros n t [H|[_ H]]%Hacks; eauto.
Qed.

Lemma net_answer o s : Net s →
  (∀ m a, (m, a) ∈ o.2 → (∀ t ev, a = Edge.Transaction t ev → eventsOf (JObj [("txn_id", JStr t); ("events", ev)]) = content t) ∧
     (Edge.code a = Some 200 → (m < number s)%nat ∧ ∀ t, (m, t) ∈ puts s → (t, content t) ∈ done s)) →
  (∀ f, Edge.inFlight o.1 = Some f → (Edge.holder f, Edge.txnId f) ∈ puts s ∧ eventsOf (Edge.f_body f) = content (Edge.txnId f)) →
  (∀ p, Edge.waitingPoller o.1 = Some p → (p < number s)%nat ∧ ∀ t, (p, t) ∉ puts s) →
  Net (at_edge o s).
Proof.
  intros [N1 N2 N3 N4 N5 N6 N7] Ha Hf Hw. split; cbn; try done.
  - intros n [H|[H|H]]; [apply N3; by left|by apply Hw|apply N3; right; by right].
  - intros n t ev [H|H]%elem_of_app; [by eapply N5|]. by eapply Ha.
  - intros n a [H|H]%elem_of_app; [by apply N6|]. by eapply Ha.
Qed.

Lemma eventsOf_in t b : eventsOf (JObj [("txn_id", JStr t); ("events", Edge.eventsIn b)]) = eventsOf b.
Proof. unfold eventsOf, Edge.eventsIn. change (prop (JObj _) "events") with (nullish_or (prop b "events") (JArr [])). by destruct (prop b "events"). Qed.

(** A request is handled whose number is known to the books. *)
Lemma net_handle now n r s : Net s → (n < number s)%nat → (∀ t, (n, t) ∈ puts s ↔ putOf r = Some t) →
  (∀ t, putOf r = Some t → Edge.fromHomeserver edgeCfg (Edge.req r) = true → eventsOf (body (Edge.req r)) = content t) →
  (∀ t, Edge.fromHagency edgeCfg r = true → path (Edge.req r) = "/_hagency/edge/ack" →
     match prop (body (Edge.req r)) "txn_id" with JStr t => t | _ => EmptyString end = t →
     strict_eq (prop (body (Edge.req r)) "ok") (JBool false) = false → (t, content t) ∈ done s) →
  Net (at_edge (Edge.handle edgeCfg now n r (edge s)) s).
Proof.
  intros HN Hn Hput Hev Hack. destruct (handle_edge edgeCfg now n r (edge s)) as (Ha & Hf & Hw). pose proof HN as [N1 N2 N3 N4 N5 N6 N7].
  assert (Hfree : putOf r = None → ∀ t, (n, t) ∉ puts s) by (intros E t Ht%Hput; congruence).
  apply net_answer; [done| | |].
  - intros m a [m' a' Hc He|a' Hr He|m' f Hr|f Hfl Hh Hp Ht Hok]%Ha.
    + split; [by intros t ev []%He|done].
    + split; [by intros t ev []%He|]. intros _. split; [done|]. by intros t ?%Hfree.
    + split.
      * intros t ev [= <- <-]. rewrite eventsOf_in. destruct Hr as [(_ & _ & E)|(_ & E & E' & ->)]; [by apply N4|by apply Hev].
      * intros _. destruct Hr as [(E & -> & _)|(E & _)]; [split; [done|]; by intros t ?%Hfree|].
        destruct (N3 m') as [H1 H2]; [right; by left|]. split; [done|]. by intros t ?%H2.
    + split; [done|]. intros _. destruct (N4 _ Hfl) as [Hin _]. split; [by eapply N1|]. intros t Hin2. rewrite (N2 _ _ _ Hin2 Hin). eauto.
  - intros f [g b Hg|g Hr E1 E2 E3]%Hf; [apply (N4 _ Hg)|]. split; [rewrite E2; by apply Hput|]. rewrite E3. by apply Hev.
  - intros p [E|[-> E]]%Hw; [apply N3; right; by left|]. split; [done|by apply Hfree].
Qed.

Lemma net_arrives now r s : Net s → outside edgeCfg content r → Net (arrives edgeCfg now r s).
Proof.
  intros HN [Hh Hev]. unfold arrives. set (s1 := s <| number := S (number s) |>).
  set (s2 := s1 <| puts := match putOf r with Some t => puts s1 ++ [(number s, t)] | None => puts s1 end |>).
  assert (HN2 : Net s2).
  { apply (net_move s); try done; cbn; [lia| |by left|by left]. destruct (putOf r); [right|by left]. split_and!; [done|by eexists|done..]. }
  change (Net (at_edge (Edge.handle edgeCfg now (number s) r (edge s2)) s2)). apply net_handle; [done|cbn; lia| |done|intros t E; congruence].
  intros t. cbn. assert (Hno : (number s, t) ∉ puts s) by (intros ?%(b_put _ HN); lia). destruct (putOf r) as [t'|].
  - rewrite elem_of_app, list_elem_of_singleton. split; [by intros [?%Hno|[= ->]]|intros [= ->]; by right].
  - split; [done|done].
Qed.

Lemma desk_move s s' : Desk s → router s' = router s → awaiting s' = awaiting s → done s' = done s → Desk s'.
Proof. intros [D1 D2 D3] E1 E2 E3. split; rewrite ?E1, ?E2, ?E3; done. Qed.

Lemma books_handled now t a s : Net s → Desk s → (∀ r, a = Some r → status r = 200 → (t, content t) ∈ done s) →
  Net (handled now t a s) ∧ Desk (handled now t a s).
Proof.
  intros HN HD Ha. unfold handled, Puller.onHandled. destruct a as [r|]; cbn zeta; (split; [|by eapply desk_move]).
  - apply (net_move s); try done; cbn; [lia|by left|by left|]. intros n t' b [H|[= -> -> ->]%list_elem_of_singleton]%elem_of_app; [by left|right].
    split; [lia|]. intros Hs%Z.eqb_eq. by eapply Ha.
  - apply (net_move s); try done; cbn; [by left..].
Qed.

Lemma books_pulled now a s : Net s → Desk s →
  (∀ txn events, (Puller.onPull now a (puller s)).2 = Some (txn, events) → txn ≠ EmptyString ∧ events = content txn) →
  let s' := pulled num_str side hsToken now a s in Net s' ∧ Desk s'.
Proof.
  intros HN HD Hp. cbn zeta. unfold pulled. destruct (Puller.onPull now a (puller s)) as [p [[txn events]|]] eqn:E.
  2: { split; [by apply (net_move s); try done; [by left..]|by apply (desk_move s)]. }
  destruct (Hp _ _ eq_refl) as [Ht ->]. cbn zeta. destruct (Router.begin _ _ _ _) as [r es] eqn:Er.
  destruct (router_begin _ _ _ _ _ _ _ _ _ (b_sound _ HD) Ht Er) as (Hs & _ & Hk & Hr). cbn in *.
  set (s1 := s <| puller := p |> <| poll := None |> <| router := es |>).
  assert (HN1 : Net s1) by (apply (net_move s); try done; [by left..]).
  assert (HD1 : Desk s1).
  { destruct HD as [D1 D2 D3]. split; cbn; [done|done|]. intros c n l t. rewrite Hk. apply D3. }
  destruct r as [a' sd| |k n t evs m]; [|done|].
  - apply (books_handled now txn (Some a') s1); [done|done|]. intros r [= <-] H200. destruct (Hr H200) as (c & n & l & E1 & E2). by apply (b_seen _ HD c n l).
  - destruct Hr as (-> & -> & -> & _). split; [by apply (net_move s1); try done; [by left..]|]. destruct HD1 as [D1 D2 D3]. split; [|done|done]. cbn. by intros ???? [= <- <- <- <-].
Qed.

Lemma books_finished now o s : Net s → Desk s → let s' := finished num_str side now o s in Net s' ∧ Desk s'.
Proof.
  intros HN HD. cbn zeta. unfold finished. destruct (awaiting s) as [[[[k n] txn] evs]|] eqn:Ea; [|done].
  destruct (b_await _ HD _ _ _ _ Ea) as [-> ->]. destruct (Router.finish _ _ _ _ _) as [a es] eqn:Ef.
  destruct (router_finish _ _ _ _ _ _ _ (b_sound _ HD) Ef) as (Hs & _ & Ha & _ & Hk). cbn zeta.
  set (s1 := match o with Receiver.Processed => _ | Receiver.Failed _ => s end).
  assert (Hd : done s1 = match o with Receiver.Processed => done s ++ [(txn, content txn)] | Receiver.Failed _ => done s end) by (by destruct o).
  assert (Hsub : ∀ x, x ∈ done s → x ∈ done s1) by (rewrite Hd; destruct o; [intros x Hx; apply elem_of_app; by left|done]).
  assert (HN1 : Net s1) by (apply (net_move s); try done; destruct o; try done; [by left..]).
  assert (Hdone : status a = 200 → (txn, content txn) ∈ done s1).
  { intros ->%Ha. rewrite Hd. apply elem_of_app. right. by apply list_elem_of_singleton. }
  apply books_handled; [by apply (net_move s1); try done; [by left..]| |by intros r [= <-]].
  split; [done|done|]. intros c m l t E Hl. change (seat (key num_str side) es = Some (c, m, l)) in E. change ((t, content t) ∈ done s1). destruct (seat (key num_str side) (router s)) as [[[c0 m0] l0]|] eqn:E0; [|congruence].
  rewrite Hk in E. assert (Hin : t ∈ l0 ∨ (o = Receiver.Processed ∧ t = txn)).
  { destruct o; [|by simplify_eq; left]. destruct (Nat.eqb m0 n); cbn in E; simplify_eq; [|by left]. 
    apply (subseteq_drop _ _ t) in Hl. destruct (inb txn l0); [by left|]. apply elem_of_app in Hl as [| ->%list_elem_of_singleton]; auto. }
  destruct Hin as [Hin|[-> ->]]; [by apply Hsub, (b_seen _ HD c0 m0 l0)|]. rewrite Hd. apply elem_of_app. right. by apply list_elem_of_singleton.
Qed.

Lemma books_refreshed next s : Net s → Desk s → let s' := refreshed num_str side next s in Net s' ∧ Desk s'.
Proof.
  intros HN HD. destruct (setSides_kept num_str next _ (b_sound _ HD)) as (Hs & _ & Hk). cbn zeta in *. unfold refreshed. cbn zeta.
  split; [by apply (net_move s); try done; [by left..]|]. destruct HD as [D1 D2 D3]. split; [done|done|].
  intros c n l t E Hl. change (seat (key num_str side) (Router.setSides num_str next (router s)).2 = Some (c, n, l)) in E. destruct (Hk (key num_str side)) as [H|[H|(c' & n' & H & _)]]; rewrite H in E; [by apply (D3 c n l)|done|].
  injection E as <- <- <-. by apply elem_of_nil in Hl.
Qed.

Lemma edge_drop_net o s : Net s → o = Edge.deliverTimeout (edge s) ∨ o = Edge.pollTimeout (edge s) ∨ o = Edge.close (edge s) ∨ o = (Edge.init, []) →
  Net (at_edge o s).
Proof.
  intros HN Ho.
  assert ((∀ m a, (m, a) ∈ o.2 → Edge.code a ≠ Some 200 ∧ ∀ t ev, a ≠ Edge.Transaction t ev) ∧
    (∀ f, Edge.inFlight o.1 = Some f → Edge.inFlight (edge s) = Some f) ∧ (∀ p, Edge.waitingPoller o.1 = Some p → Edge.waitingPoller (edge s) = Some p)) as (Ha & Hf & Hw).
  { destruct Ho as [E|[E|[E| ->]]]; [by apply edge_drops; auto..|]. split_and!; [by intros m a ?%elem_of_nil|done|done]. }
  apply net_answer; [done| | |].
  - intros m a [H1 H2]%Ha. split; [by intros t ev []%H2|done].
  - intros f E%Hf. by apply (b_flight _ HN).
  - intros p E%Hw. apply (b_spoken _ HN). right. by left.
Qed.

Lemma books_step s s' : step s s' → Net s → Desk s → Net s' ∧ Desk s'.
Proof.
  intros Hstep HN HD. assert (Hedge : ∀ o, Net (at_edge o s) → Net (at_edge o s) ∧ Desk (at_edge o s)) by (intros o H; split; [done|by apply (desk_move s)]).
  destruct Hstep as [ms0 r s Hr|s|ms0 n s Hn|n s|ms0 n a s Hp Ho|ms0 what s _|ms0 o s|ms0 n txn fine s Hn|ms0 ok txn fine s _|ms s _|s|s|s|s|next s|s].
  - split; [by apply net_arrives|by apply (desk_move s)].
  - split; [|by apply (desk_move s)]. apply (net_move s); try done; cbn; [lia|by left| |by left].
    intros n [Hm| ->%list_elem_of_singleton]%elem_of_app; [by left|right; lia].
  - apply Hedge. destruct (b_spoken _ HN n) as [H1 H2]; [by left|]. apply net_handle; try done.
    intros t. split; [by intros ?%H2|done].
  - split; [|by apply (desk_move s)]. apply (net_move s); try done; cbn; [by left| |by left]. intros m [_ H]%elem_of_filter_bool. by left.
  - apply books_pulled; [done..|]. intros txn events E. destruct (Puller.onPull _ _ _) as [p' g] eqn:Ep. cbn in E. subst g.
    destruct (pull_seen _ _ _ _ _ _ Ep) as (Ht & ev & -> & ->). split; [done|]. by apply (b_event _ HN n).
  - by apply books_pulled.
  - by apply books_finished.
  - apply Hedge. destruct (b_spoken _ HN n) as [H1 H2]; [right; right; eauto|]. apply net_handle; try done.
    + intros t. split; [by intros ?%H2|done].
    + cbn. intros t _ _ <- Hok. destruct fine; [|done]. by apply (b_ack _ HN n).
  - split; [by apply (net_move s); try done; [by left..]|by apply (desk_move s)].
  - split; [by apply (net_move s); try done; [by left..]|by apply (desk_move s)].
  - apply Hedge, edge_drop_net; auto.
  - apply Hedge, edge_drop_net; auto.
  - apply Hedge, edge_drop_net; auto 6.
  - assert (s <| edge := Edge.init |> = at_edge (Edge.init, []) s) as -> by (destruct s; unfold at_edge; cbn; by rewrite app_nil_r).
    apply Hedge, edge_drop_net; auto 6.
  - by apply books_refreshed.
  - split; [by apply (net_move s); try done; [by left..]|]. split; cbn; [done|apply sound_start|done].
Qed.

Lemma reachable_books s : rtc step start s → Net s ∧ Desk s.
Proof.
  intros H. assert (∀ a b, rtc step a b → Net a ∧ Desk a → Net b ∧ Desk b) as Hind.
  { intros a b Hab. induction Hab as [|a c b Hac _ IH]; [done|]. intros [HN HD]. apply IH. by eapply books_step. }
  apply (Hind _ _ H). split; [apply net_start|apply desk_start].
Qed.

(** C27. The homeserver may forget a transaction once it is answered with 200, and the edge answers so
    only for events that were processed: whatever order requests, polls and acknowledgements arrive in,
    whichever are lost, repeated or late, whenever timers fire, sides are refreshed or either process
    restarts, when the edge has answered the request that brought a transaction with status 200, then
    Hagency has processed exactly the events of that transaction. *)
Theorem edge_200_means_processed s n txn a :
  rtc step start s → (n, txn) ∈ puts s → (n, a) ∈ out s → Edge.code a = Some 200 → (txn, content txn) ∈ done s.
Proof. intros [HN _]%reachable_books Hp Ho Hc. by apply (b_200 _ HN n a). Qed.

End books.

Lemma edge_200_means_processed_witness :
  (1%nat, "a b") ∈ puts Sample.s1 ∧ (1%nat, Edge.Plain 200) ∈ out Sample.s1 ∧ ("a b", Sample.content "a b") ∈ done Sample.s1.
Proof.
  split_and!; [apply list_elem_of_In; vm_compute; tauto..|].
  apply (edge_200_means_processed Sample.num_str Sample.cfg "alpha" "hs" Sample.content Sample.s1 1 "a b" (Edge.Plain 200));
    [apply Sample.reaches_s1|apply list_elem_of_In; vm_compute; tauto..|reflexivity].
Defined.
