(* ===== verification/AppserviceWindow.v ===== *)
(** * The application service: a transaction is not processed twice

    A receiver remembers the last [seenLimit] transactions that it processed: within the life of a
    receiver a transaction is processed again only after so many others. *)

From Stdlib Require Import ZArith QArith Lia String Ascii.
From stdpp Require Import base list strings relations.
From S2P Require Import Prelude OMap Json Uri AppserviceReceiver AppserviceEdge AppservicePuller AppserviceFlow.
#[local] Open Scope stdpp_scope.

Section window.
Context (num_str : num → string) (edgeCfg : Edge.Config) (side : string) (hsToken : string) (content : string → list jval).

Abbreviation step := (flow_step num_str edgeCfg side hsToken content).
Abbreviation k0 := (key num_str side).
Abbreviation seat_of s := (seat k0 (router s)).

Record Window (s : System) : Prop := MkWindow {
  w_sound : sound (router s);
  w_await : ∀ k n t evs, awaiting s = Some (k, n, t, evs) →
    k = k0 ∧ (n < Router.next_serial (router s))%nat ∧ ∀ c l, seat_of s = Some (c, n, l) → t ∉ l;
  w_seen : ∀ c n l, seat_of s = Some (c, n, l) →
    l = drop (length (recent s) - Receiver.seenLimit c) (recent s) ∧ spaced (Receiver.seenLimit c) (recent s);
}.

Lemma window_start : Window start.
Proof. split; [apply sound_start|done|done]. Qed.

Lemma window_move s s' : Window s → router s' = router s → recent s' = recent s → awaiting s' = awaiting s ∨ awaiting s' = None → Window s'.
Proof. intros [W1 W2 W3] E1 E2 [E3|E3]; split; rewrite ?E1, ?E2, ?E3; done. Qed.

Lemma window_handled now t a s : Window s → Window (handled now t a s).
Proof. intros HW. unfold handled, Puller.onHandled. destruct a as [r|]; cbn zeta; by (eapply window_move; [done|..]; auto). Qed.

Lemma serialOf_seat es : serialOf num_str side es = (λ x, x.1.2) <$> seat k0 es.
Proof. unfold serialOf, seat. by destruct (om_get _ _). Qed.

Lemma window_pulled now a s : Window s →
  (∀ txn events, (Puller.onPull now a (puller s)).2 = Some (txn, events) → txn ≠ EmptyString) → Window (pulled num_str side hsToken now a s).
Proof.
  intros HW Hp. unfold pulled. destruct (Puller.onPull now a (puller s)) as [p [[txn events]|]]; [|by apply (window_move s); auto].
  specialize (Hp _ _ eq_refl). cbn zeta. destruct (Router.begin _ _ _ _) as [r es] eqn:Er.
  destruct (router_begin _ _ _ _ _ _ _ _ _ (w_sound _ HW) Hp Er) as (Hs & Hn & Hk & Hr).
  assert (Hserial : ∀ c n l, seat_of s = Some (c, n, l) → (n < Router.next_serial es)%nat).
  { intros c n l. rewrite Hn. unfold seat. destruct (om_get k0 (Router.table (router s))) as [e|] eqn:E; [|done].
    cbn. intros [= _ <- _]. by apply (so_serial _ (w_sound _ HW) _ _ E). }
  assert (HW1 : Window (s <| puller := p |> <| poll := None |> <| router := es |>)).
  { destruct HW as [W1 W2 W3]. split; cbn; [done| |].
    - intros k n t evs E. rewrite Hn. destruct (W2 _ _ _ _ E) as (H1 & H2 & H3). split_and!; [done..|]. intros c l. rewrite Hk. apply H3.
    - intros c n l. rewrite Hk. apply W3. }
  destruct r as [a' sd| |k n t evs m]; [by apply (window_handled now txn (Some a') _ HW1)|done|].
  destruct Hr as (-> & -> & -> & c & l & E & Hl). destruct HW1 as [W1 W2 W3]. split; [done| |done]. cbn. intros ???? [= <- <- <- <-].
  split_and!; [done|by eapply Hserial|]. intros c' l' E'. change (seat k0 es = Some (c', n, l')) in E'. rewrite Hk, E in E'. by injection E' as <- <-.
Qed.

Lemma window_finished now o s : Window s → Window (finished num_str side now o s).
Proof.
  intros HW. unfold finished. destruct (awaiting s) as [[[[k n] txn] evs]|] eqn:Ea; [|done].
  destruct (w_await _ HW _ _ _ _ Ea) as (-> & Hn & Hfresh). destruct (Router.finish _ _ _ _ _) as [a es] eqn:Ef.
  destruct (router_finish _ _ _ _ _ _ _ (w_sound _ HW) Ef) as (Hs & _ & _ & _ & Hk). cbn zeta. apply window_handled.
  split; [done|done|]. intros c m l E. change (seat k0 es = Some (c, m, l)) in E.
  destruct (seat k0 (router s)) as [[[c0 m0] l0]|] eqn:E0; [|congruence]. destruct (w_seen _ HW _ _ _ E0) as [El Hsp]. rewrite Hk in E.
  destruct o as [|retry]; cbn [recent]; [|injection E as <- <- <-; by split].
  rewrite serialOf_seat, E0. cbn [fmap option_fmap option_map fst snd]. destruct (Nat.eqb_spec m0 n) as [->|Hne].
  - rewrite bool_decide_true by done. assert (Hnew : txn ∉ l0) by (by eapply Hfresh). rewrite <-inb_spec, not_true_iff_false in Hnew. rewrite Hnew in E.
    injection E as <- <- <-. rewrite <-not_true_iff_false, inb_spec in Hnew. rewrite El in Hnew |- *. split; [apply drop_snoc|by apply spaced_snoc].
  - rewrite bool_decide_false by congruence. injection E as <- <- <-. by split.
Qed.

Lemma window_refreshed next s : Window s → Window (refreshed num_str side next s).
Proof.
  intros HW. destruct (setSides_kept num_str next _ (w_sound _ HW)) as (Hs & Hle & Hk). specialize (Hk k0). unfold refreshed. cbn zeta in *.
  set (es := (Router.setSides _ _ _).2) in *. set (s' := _ <| recent := _ |>).
  assert (Hcase : seat k0 es = seat_of s ∨ recent s' = [] ∧ (seat k0 es = None ∨ ∃ c n, seat k0 es = Some (c, n, []) ∧ (Router.next_serial (router s) ≤ n)%nat)
                  ∨ seat k0 es = None).
  { destruct Hk as [H|[H|(c & n & H & Hc)]]; [by left|by right; right|]. right. left. split; [|right; eauto]. unfold s'. cbn.
    rewrite bool_decide_false; [done|]. rewrite !serialOf_seat, H. unfold seat. destruct (om_get k0 (Router.table (router s))) as [e|] eqn:E; [|done].
    cbn. pose proof (so_serial _ (w_sound _ HW) _ _ E). intros [= ?]. lia. }
  assert (Hrec : seat k0 es = seat_of s → recent s' = recent s).
  { intros H. unfold s'. cbn. by rewrite bool_decide_true by (by rewrite !serialOf_seat, H). }
  destruct HW as [W1 W2 W3]. split; [done| |].
  - intros k n t evs E. destruct (W2 _ _ _ _ E) as (-> & Hn & Hf). split_and!; [done|change (n < Router.next_serial es)%nat; lia|].
    intros c l Ec. change (seat k0 es = Some (c, n, l)) in Ec. destruct Hcase as [H|[(_ & [H|(c' & n' & H & Hge)])|H]]; rewrite H in Ec; [by eapply Hf|done| |done].
    injection Ec as _ _ <-. apply not_elem_of_nil.
  - intros c n l Ec. change (seat k0 es = Some (c, n, l)) in Ec. destruct Hcase as [H|[(Hr & [H|(c' & n' & H & Hge)])|H]]; [|congruence| |congruence].
    + rewrite (Hrec H). rewrite H in Ec. by apply (W3 c n).
    + rewrite Hr. rewrite H in Ec. injection Ec as <- <- <-. split; [done|apply spaced_nil].
Qed.

Lemma window_step s s' : step s s' → Window s → Window s'.
Proof.
  intros Hstep HW. destruct Hstep as [ms r s Hr|s|ms n s Hn|n s|ms n a s Hp Ho|ms what s _|ms o s|ms n txn fine s Hn|ms ok txn fine s _|ms s _|s|s|s|s|next s|s];
    try (by apply (window_move s); auto).
  - apply window_pulled; [done|]. intros txn events E. destruct (Puller.onPull _ _ _) as [p' g] eqn:Ep. cbn in E. subst g. by eapply pull_nonempty.
  - by apply window_finished.
  - by apply window_refreshed.
  - split; [apply sound_start|done|done].
Qed.

Lemma reachable_window s : rtc step start s → Window s.
Proof.
  intros H. assert (∀ a b, rtc step a b → Window a → Window b) as Hind.
  { intros a b Hab. induction Hab as [|a c b Hac _ IH]; [done|]. intros HW. apply IH. by eapply window_step. }
  apply (Hind _ _ H), window_start.
Qed.

(** C28. Where transactions come through the edge and the puller, one after the other, repeats of the
    homeserver are absorbed: among the transactions that the present receiver of a side has processed,
    in their order, two occurrences of the same transaction have at least as many others between them
    as the receiver remembers ids; in particular nothing is processed twice in a row. A restart, or a
    refresh that changes the token of the side, starts with a new receiver. Deliveries that a homeserver
    pushes to the backend directly are not covered: a second one that arrives while the first is still
    being processed is not known yet, and is processed too. *)
Theorem repeats_are_absorbed s e i j txn :
  rtc step start s → om_get k0 (Router.table (router s)) = Some e → (i < j)%nat →
  recent s !! i = Some txn → recent s !! j = Some txn → (Receiver.seenLimit (Router.cfg e) < j - i)%nat.
Proof.
  intros HW%reachable_window He Hij Hi Hj. destruct (w_seen _ HW (Router.cfg e) (Router.serial e) (Receiver.seen (Router.receiver e))) as [_ Hs]; [|by eapply Hs].
  unfold seat. by rewrite He.
Qed.

End window.

Lemma repeats_are_absorbed_witness : ∃ e, om_get (key Sample.num_str "alpha") (Router.table (router Sample.s3)) = Some e ∧
  recent Sample.s3 = ["a b"; "t2"; "a b"] ∧ (Receiver.seenLimit (Router.cfg e) < 2 - 0)%nat.
Proof.
  eexists. split_and!; [vm_compute; reflexivity..|].
  apply (repeats_are_absorbed Sample.num_str Sample.cfg "alpha" "hs" Sample.content Sample.s3 _ 0 2 "a b");
    [apply Sample.reaches_s3|vm_compute; reflexivity|lia|vm_compute; reflexivity..].
Defined.
