(* ===== verification/SyncCollector.v ===== *)
(** * The application service: the sync collector ([lib/appservice-sync.js])

    The third way in: an outbound loop that logs in as the application service, polls [/sync], and hands
    each batch to the router before it moves the cursor. Here too is the queue of rooms to reconcile that
    the bridge keeps for it (the object handed over in [startAppserviceIntake] of [bridge-matrix.js]).
    One turn of the loop is a computation with the answers of the outside world as arguments; what it did
    is in a log. The texts of errors, and the stats that only report them, are left out. *)

From Stdlib Require Import ZArith QArith Qround Lia String Ascii.
From stdpp Require Import base list strings pretty.
From S2P Require Import Prelude OMap Json Uri AppserviceReceiver AppservicePuller.
#[local] Open Scope stdpp_scope.

Module SyncCollector.

(** ** Configuration *)

Inductive SyncConfig : Type := Enabled (side baseUrl : string) | Disabled (reason : string).

(** The members of [env] as texts; one that is not set is empty. *)
Definition resolveAppserviceSyncConfig (syncSide syncUrl : string) : SyncConfig :=
  let side := trim syncSide in
  let baseUrl := Puller.strip_slashes (trim syncUrl) in
  if negb (truthy side) && negb (truthy baseUrl) then Disabled "HAGENCY_APPSERVICE_SYNC_SIDE is not set" else
  if truthy side && (Puller.ends_in_slash side || Puller.absolute_url side) then Disabled "HAGENCY_APPSERVICE_SYNC_SIDE must be a side id" else
  let side := lower side in
  if negb (truthy side) then Disabled "HAGENCY_APPSERVICE_SYNC_SIDE names no project side" else
  if negb (truthy baseUrl) then Disabled "HAGENCY_APPSERVICE_SYNC_URL names no homeserver" else
  if negb (Puller.absolute_url baseUrl) then Disabled "HAGENCY_APPSERVICE_SYNC_URL must be an absolute http(s) URL" else
  Enabled side baseUrl.

Definition MAX_BACKOFF_MS : Z := 60000.
Definition MAX_BATCH_BACKOFF_MS : Z := 300000.

(** ** Errors *)

(** What the [catch] of the loop tells apart: [status === 401], [code === 'retryable_batch'] with its
    [retryAfterMs], and the rest. *)
Inductive failure : Type := Unauthorized | RetryableBatch (retryAfterMs : option Z) | Other.

(** The answer of a request: its status and its JSON body ([{}] where that does not parse), or an error
    of the network. *)
Inductive answered : Type := Answered (s : Z) (body : jval) | NetworkError.

Definition ok (s : Z) : bool := (200 <=? s) && (s <? 300).

(** [appserviceLogin], as far as its answer goes: the access token. *)
Definition appserviceLogin (a : answered) : failure + jval :=
  match a with
  | NetworkError => inl Other
  | Answered s body => if negb (ok s) then inl (if s =? 401 then Unauthorized else Other) else inr (nullish_or (prop body "access_token") JNull)
  end.

(** ** The projection of a sync response *)

Record Batch : Type := MkBatch {
  nextBatch : string; timelineEvents : list jval; inviteEvents : list jval; stateEvents : list jval;
  leaves : list string; roomsNeedingReconcile : list string; reconcileTokens : omap jval; initial : bool;
}.
#[export] Instance eta_batch : Settable Batch := λ b,
  MkBatch (nextBatch b) (timelineEvents b) (inviteEvents b) (stateEvents b) (leaves b) (roomsNeedingReconcile b) (reconcileTokens b) (initial b).

(** [Object.entries(v)] *)
Definition entries (v : jval) : omap jval :=
  match v with
  | JObj o => o
  | JArr l => imap (λ i x, (pretty (N.of_nat i), x)) l
  | JStr s => imap (λ i c, (pretty (N.of_nat i), JStr (String c EmptyString))) (list_ascii_of_string s)
  | _ => []
  end.

(** [{ ...ev, room_id: roomId }] *)
Definition inRoom (roomId : string) (ev : jval) : jval := JObj (obj_set "room_id" (JStr roomId) (entries ev)).

(** [Array.isArray(v) ? v : []] *)
Definition listOf (v : jval) : list jval := match v with JArr l => l | _ => [] end.

(** The turn of the loop over [rooms.join] for one room. *)
Definition joinedRoom (b : Batch) (p : string * jval) : Batch :=
  let '(roomId, room) := p in
  let timeline := prop room "timeline" in
  let b := b <| timelineEvents := timelineEvents b ++ List.map (inRoom roomId) (listOf (prop timeline "events")) |> in
  let b := b <| stateEvents := stateEvents b ++ List.map (inRoom roomId) (listOf (prop (prop room "state") "events")) |> in
  if strict_eq (prop timeline "limited") (JBool true) then
    b <| roomsNeedingReconcile := roomsNeedingReconcile b ++ [roomId] |>
      <| reconcileTokens := obj_set roomId (nullish_or (prop timeline "prev_batch") JNull) (reconcileTokens b) |>
  else b.

Definition invitedRoom (b : Batch) (p : string * jval) : Batch :=
  b <| inviteEvents := inviteEvents b ++ List.map (inRoom p.1) (listOf (prop (prop p.2 "invite_state") "events")) |>.

(** [!since] *)
Definition isInitial (since : option string) : bool := match since with Some s => negb (truthy s) | None => true end.

Definition appserviceSyncOnce (since : option string) (a : answered) : failure + Batch :=
  match a with
  | NetworkError => inl Other
  | Answered s body =>
      if s =? 401 then inl Unauthorized else
      if negb (ok s) then inl Other else
      match prop body "next_batch" with
      | JStr next =>
          if negb (truthy next) then inl Other else
          let rooms := prop body "rooms" in
          match rooms with
          | JUndef | JObj _ =>
              let b := MkBatch next [] [] [] [] [] [] (isInitial since) in
              let b := foldl joinedRoom b (entries (nullish_or (prop rooms "join") (JObj []))) in
              let b := b <| leaves := om_keys (entries (nullish_or (prop rooms "leave") (JObj []))) |> in
              inr (foldl invitedRoom b (entries (nullish_or (prop rooms "invite") (JObj []))))
          | _ => inl Other
          end
      | _ => inl Other
      end
  end.

(** ** The queue of the bridge *)

(** What is recorded for a room: the join whose history is to be fetched, the gap to be filled, or an
    entry of an earlier version that proves nothing. *)
Inductive kind : Type := KJoin | KGap | KUnproven.

Record Pending : Type := MkPending { p_kind : kind; from : option string; to : option string; queuedAt : Z }.

(** [writePendingReconcile] without the saving: the verdict [cleared] and the verdict [pending]. *)
Definition clearPending (roomId : string) (q : omap Pending) : omap Pending := om_del roomId q.

Definition merge (now : Z) (bounds : kind * option string * string) (previous : option Pending) : Pending :=
  let '(k, f, t) := bounds in
  match previous with
  | Some p =>
      match p_kind p with
      | KUnproven => p
      | KGap => MkPending KGap (from p) (Some t) (queuedAt p)
      | KJoin => MkPending k f (Some t) (queuedAt p)
      end
  | None => MkPending k f (Some t) now
  end.

Definition recordPending (now : Z) (roomId : string) (bounds : kind * option string * string) (q : omap Pending) : omap Pending :=
  obj_set roomId (merge now bounds (om_get roomId q)) q.

(** ** The loop *)

Record Stats : Type := MkStats { polls : Z; events : Z; processed : Z; failed : Z; logins : Z; batchAttempts : Z; lastFailedBatch : option string }.
#[export] Instance eta_stats : Settable Stats := λ s,
  MkStats (polls s) (events s) (processed s) (failed s) (logins s) (batchAttempts s) (lastFailedBatch s).

(** What a turn did, for the record. *)
Inductive event : Type :=
| CredentialChanged
| LoggedIn
| Retried (roomId : string) (bounds : option Pending) (fine : bool)
| Polled (since : option string) (b : Batch)
| Handed (txnId : string) (evs : list jval) (a : option Response)
| Advanced (since : option string) (b : Batch)
| Relogin
| Slept (ms : Z).

(** The variables of the loop, the stored cursor and the queue, and the log. *)
Record State : Type := MkState {
  accessToken : jval; credentialAsToken : option string; backoffMs : Z; batchBackoffMs : Z; loginGeneration : nat; stats : Stats;
  cursor : option string; queue : omap Pending; log : list event;
}.
#[export] Instance eta_state : Settable State := λ s,
  MkState (accessToken s) (credentialAsToken s) (backoffMs s) (batchBackoffMs s) (loginGeneration s) (stats s) (cursor s) (queue s) (log s).

(** The start of the process, with what the bridge has stored. *)
Definition start (c : option string) (q : omap Pending) : State := MkState JNull None 1000 1000 0 (MkStats 0 0 0 0 0 0 None) c q [].

(** The answers that one turn meets: the credential of the side ([asToken]), the login, the sync, the
    router ([None] where it throws), the recoveries at the top of the turn and at its end, and whether
    the state can be saved when a room is recorded and when the cursor is. *)
Record Env : Type := MkEnv {
  e_now : Z; e_credential : option string; e_login : answered; e_sync : answered; e_router : option Response;
  e_retry : string → bool; e_backfill : string → bool; e_save : string → bool; e_saveCursor : bool;
}.

Definition M (A : Type) : Type := State → (failure + A) * State.
#[export] Instance ret : MRet M := λ A a s, (inr a, s).
Definition throw {A} (f : failure) : M A := λ s, (inl f, s).
#[export] Instance bind : MBind M := λ A B k m s, let '(r, s) := m s in match r with inr a => k a s | inl f => (inl f, s) end.
Definition modify (f : State → State) : M unit := λ s, (inr tt, f s).
Definition gets {A} (f : State → A) : M A := λ s, (inr (f s), s).
Definition lift {A} (r : failure + A) : M A := λ s, (r, s).
Definition record (e : event) : M unit := modify (λ s, s <| log := log s ++ [e] |>).

Definition each {A} (f : A → M unit) : list A → M unit := foldr (λ a m, f a ;; m) (mret tt).

(** The credential; another [asToken] forgets what the old one had given. *)
Definition takeCredential (e : Env) : M unit :=
  match e_credential e with
  | Some asToken =>
      if negb (truthy asToken) then throw Other else
      old ← gets credentialAsToken;
      (match old with
       | Some t => if truthy t && negb (String.eqb asToken t) then modify (λ s, s <| accessToken := JNull |> <| loginGeneration := 0%nat |>) ;; record CredentialChanged else mret tt
       | None => mret tt
       end) ;;
      modify (λ s, s <| credentialAsToken := Some asToken |>)
  | None => throw Other
  end.

Definition logIn (e : Env) : M unit :=
  t ← gets accessToken;
  if to_bool t then mret tt else
  t ← lift (appserviceLogin (e_login e));
  modify (λ s, let st := stats s in let st' := st <| logins := logins st + 1 |> in s <| accessToken := t |> <| loginGeneration := S (loginGeneration s) |> <| stats := st' |>) ;;
  record LoggedIn.

(** The recovery of one room by [onRoomsNeedingReconcile], which reads its entry; success clears it. *)
Definition recoverRoom (fine : string → bool) (roomId : string) : M unit :=
  q ← gets queue;
  record (Retried roomId (om_get roomId q) (fine roomId)) ;;
  if fine roomId then modify (λ s, s <| queue := clearPending roomId (queue s) |>) else mret tt.

Definition retryPending (e : Env) : M unit := rooms ← gets (λ s, om_keys (queue s)); each (recoverRoom (e_retry e)) rooms.

(** The rooms of a batch that have a gap are recorded before the cursor moves. *)
Definition recordRooms (e : Env) (bounds : kind * option string * string) (b : Batch) : M unit :=
  each (λ r, modify (λ s, s <| queue := recordPending (e_now e) r bounds (queue s) |>) ;; if e_save e r then mret tt else throw Other) (roomsNeedingReconcile b).

Definition writeCursor (e : Env) (since : option string) (b : Batch) : M unit :=
  modify (λ s, s <| cursor := Some (nextBatch b) |>) ;; record (Advanced since b) ;; if e_saveCursor e then mret tt else throw Other.

Definition resetBatchRetry : M unit :=
  modify (λ s, let st := stats s in let st' := st <| batchAttempts := 0 |> <| lastFailedBatch := None |> in s <| stats := st' |> <| batchBackoffMs := 1000 |>).

Definition deliverable (b : Batch) : list jval := inviteEvents b ++ (if initial b then [] else timelineEvents b ++ stateEvents b).

Definition txnOf (b : Batch) : string := "sync-" +:+ nextBatch b.

(** The request that the collector hands to the router, whose answer is [e_router]. *)
Definition request (side hsToken : string) (b : Batch) : Request :=
  MkRequest "PUT" (transactions +:+ Uri.encodeURIComponent (txnOf b)) JUndef (JStr ("Bearer " +:+ hsToken)) (JObj [("events", JArr (deliverable b))]) (JStr "sync") (JStr side).

Definition boundsOf (since : option string) (b : Batch) : kind * option string * string :=
  if initial b then (KJoin, None, nextBatch b) else (KGap, since, nextBatch b).

(** The body of the [try]. *)
Definition turn (e : Env) : M unit :=
  takeCredential e ;;
  logIn e ;;
  since ← gets cursor;
  retryPending e ;;
  b ← lift (appserviceSyncOnce since (e_sync e));
  modify (λ s, let st := stats s in let st' := st <| polls := polls st + 1 |> in
            s <| stats := st' |> <| backoffMs := 1000 |> <| loginGeneration := if to_bool (accessToken s) then 1%nat else 0%nat |>) ;;
  record (Polled since b) ;;
  let evs := deliverable b in
  let bounds := boundsOf since b in
  if negb (Nat.eqb (length evs) 0) then
    record (Handed (txnOf b) evs (e_router e)) ;;
    match e_router e with
    | None => throw Other
    | Some a =>
        modify (λ s, let st := stats s in let st' := st <| events := events st + Z.of_nat (length evs) |> in s <| stats := st' |>) ;;
        if status a =? 200 then
          modify (λ s, let st := stats s in let st' := st <| processed := processed st + 1 |> in s <| stats := st' |>) ;;
          resetBatchRetry ;;
          recordRooms e bounds b ;;
          writeCursor e since b ;;
          each (recoverRoom (e_backfill e)) (roomsNeedingReconcile b)
        else
          modify (λ s, let st := stats s in
                    let st' := st <| failed := failed st + 1 |> <| lastFailedBatch := Some (nextBatch b) |> <| batchAttempts := batchAttempts st + 1 |> in s <| stats := st' |>) ;;
          throw (RetryableBatch (match retryAfterMs a with Some r => if 0 <=? r then Some r else None | None => None end))
    end
  else
    recordRooms e bounds b ;;
    writeCursor e since b ;;
    resetBatchRetry ;;
    each (recoverRoom (e_backfill e)) (roomsNeedingReconcile b).

Definition sleepAs (s : State) (f : failure) : Z :=
  match f with
  | RetryableBatch r => Z.min (match r with Some r => Z.max r (batchBackoffMs s) | None => batchBackoffMs s end) MAX_BATCH_BACKOFF_MS
  | _ => backoffMs s
  end.

(** The [catch]: a fast re-login, or a sleep whose next is twice as long. *)
Definition caught (f : failure) (s : State) : State :=
  let fast := match f with Unauthorized => to_bool (accessToken s) && Nat.eqb (loginGeneration s) 1 | _ => false end in
  if fast then s <| accessToken := JNull |> <| log := log s ++ [Relogin] |> else
  let s' := s <| log := log s ++ [Slept (sleepAs s f)] |> in
  match f with
  | RetryableBatch _ => s' <| batchBackoffMs := Z.min (batchBackoffMs s * 2) MAX_BATCH_BACKOFF_MS |>
  | _ => s' <| backoffMs := Z.min (backoffMs s * 2) MAX_BACKOFF_MS |>
  end.

Definition iterate (e : Env) (s : State) : State :=
  let '(r, s) := turn e s in match r with inr _ => s | inl f => caught f s end.

Definition run (es : list Env) (s : State) : State := foldl (λ s e, iterate e s) s es.

End SyncCollector.
