(* ===== verification/SyncFacts.v ===== *)
(** * The sync collector: the cursor and the re-login

    Rules for the computations of a turn, and two properties of the loop: the cursor passes a batch only
    when the router has answered 200 for what the batch delivers, and a rejected token is replaced
    without a pause once per healthy stretch. *)

From Stdlib Require Import ZArith Lia String Ascii.
From stdpp Require Import base list strings.
From S2P Require Import Prelude OMap Json Uri AppserviceReceiver AppservicePuller SyncCollector.
Import SyncCollector.
#[local] Open Scope stdpp_scope.

(** ** Rules *)

(** From [P], [m] ends well in [Q] or fails in [E]. *)
Definition triple {A} (P : State → Prop) (m : M A) (Q : A → State → Prop) (E : failure → State → Prop) : Prop :=
  ∀ s, P s → match m s with (inr a, s') => Q a s' | (inl f, s') => E f s' end.

Lemma t_bind {A B} P (m : M A) (k : A → M B) R Q E : triple P m R E → (∀ a, triple (R a) (k a) Q E) → triple P (m ≫= k) Q E.
Proof.
  intros Hm Hk s Hs. specialize (Hm s Hs). change ((m ≫= k) s) with (let '(r, s) := m s in match r with inr a => k a s | inl f => (inl f, s) end).
  destruct (m s) as [[f|a] s']; [done|]. by apply Hk.
Qed.

Lemma t_seq {A} P (m : M unit) (k : M A) R Q E : triple P m (λ _, R) E → triple R k Q E → triple P (m ;; k) Q E.
Proof. intros Hm Hk. by eapply t_bind with (R := λ _, R). Qed.

Lemma t_ret {A} (a : A) (P : State → Prop) Q E : (∀ s, P s → Q a s) → triple P (mret a) Q E.
Proof. intros H s Hs. by apply H. Qed.

Lemma t_throw {A} f (P : State → Prop) (Q : A → State → Prop) E : (∀ s, P s → E f s) → triple P (throw f) Q E.
Proof. intros H s Hs. by apply H. Qed.

Lemma t_modify g (P : State → Prop) Q E : (∀ s, P s → Q tt (g s)) → triple P (modify g) Q E.
Proof. intros H s Hs. by apply H. Qed.

Lemma t_record e (P : State → Prop) Q E : (∀ s, P s → Q tt (s <| log := log s ++ [e] |>)) → triple P (record e) Q E.
Proof. intros H s Hs. by apply H. Qed.

Lemma t_gets {A} (g : State → A) P E : triple P (gets g) (λ a s, a = g s ∧ P s) E.
Proof. intros s Hs. by split. Qed.

Lemma t_lift {A} (r : failure + A) (P : State → Prop) E : (∀ f s, r = inl f → P s → E f s) → triple P (lift r) (λ a s, r = inr a ∧ P s) E.
Proof. intros H s Hs. destruct r as [f|a]; [by apply H|done]. Qed.

Lemma t_each {A} (f : A → M unit) l P E : (∀ a, a ∈ l → triple P (f a) (λ _, P) E) → triple P (each f l) (λ _, P) E.
Proof.
  induction l as [|a l IH]; intros H; [by apply t_ret|]. change (each f (a :: l)) with (f a ;; each f l).
  eapply t_bind with (R := λ _, P); [apply H; by left|]. intros _. apply IH. intros b Hb. apply H. by right.
Qed.

Lemma t_weaken {A} P P' (m : M A) Q Q' (E : failure → State → Prop) :
  triple P' m Q' E → (∀ s, P s → P' s) → (∀ a s, Q' a s → Q a s) → triple P m Q E.
Proof. intros Hm HP HQ s Hs. specialize (Hm s (HP s Hs)). destruct (m s) as [[f|a] s']; auto. Qed.

(** An invariant of the turns and of the [catch] is one of the loop. *)
Lemma run_invariant_in (I : State → Prop) es s : I s → (∀ e, e ∈ es → triple I (turn e) (λ _, I) (λ f s', I (caught f s'))) → I (run es s).
Proof.
  unfold run. revert s. induction es as [|e es IH]; intros s Hs Hturn; [done|]. cbn [foldl]. apply IH; [|intros e' He'; apply Hturn; by right].
  unfold iterate. specialize (Hturn e ltac:(by left) s Hs). by destruct (turn e s) as [[f|a] s'].
Qed.

Lemma run_invariant (I : State → Prop) es s : I s → (∀ e, triple I (turn e) (λ _, I) (λ f s', I (caught f s'))) → I (run es s).
Proof. intros Hs Hturn. apply run_invariant_in; auto. Qed.

(** ** The cursor *)

(** The cursor after what is in a log. *)
Definition after (c : option string) (l : list event) : option string :=
  foldl (λ c e, match e with Advanced _ b => Some (nextBatch b) | _ => c end) c l.

(** The events of the rooms in one part of a response, in its order, each with the id of its room. *)
Definition eventsIn (part member : string) (body : jval) : list jval :=
  concat (List.map (λ p, List.map (λ event, JObj (obj_set "room_id" (JStr p.1) (entries event))) (listOf (prop (prop p.2 member) "events")))
    (entries (nullish_or (prop (prop body "rooms") part) (JObj [])))).

(** What is to be delivered of the response to a poll from [since]. *)
Definition eventsOf (since : option string) (body : jval) : list jval :=
  eventsIn "invite" "invite_state" body ++
  match since with
  | None | Some EmptyString => []
  | Some _ => eventsIn "join" "timeline" body ++ eventsIn "join" "state" body
  end.

(** The turn in which the cursor moved: what the poll from the cursor was answered, and the router's
    answer if there was anything to deliver. *)
Definition justified (es : list Env) (c : option string) (l1 : list event) (since : option string) (b : Batch) : Prop :=
  since = after c l1 ∧ ∃ e s body, e ∈ es ∧ e_sync e = Answered s body ∧ 200 ≤ s < 300 ∧ prop body "next_batch" = JStr (nextBatch b) ∧ nextBatch b ≠ EmptyString ∧ ∃ l0,
    l1 = l0 ++ [Polled since b] ∧ eventsOf since body = [] ∨
    ∃ a, l1 = l0 ++ [Polled since b; Handed ("sync-" +:+ nextBatch b) (eventsOf since body) (Some a)] ∧ e_router e = Some a ∧ status a = 200.

Definition all_justified (es : list Env) (c : option string) (l : list event) : Prop := ∀ l1 since b l2, l = l1 ++ Advanced since b :: l2 → justified es c l1 since b.

Definition moves (e : event) : bool := match e with Advanced _ _ => true | _ => false end.

Lemma after_snoc c l e : after c (l ++ [e]) = match e with Advanced _ b => Some (nextBatch b) | _ => after c l end.
Proof. unfold after. by rewrite foldl_app. Qed.

Lemma snoc_split {A} (l : list A) x l1 y l2 : l ++ [x] = l1 ++ y :: l2 → (l2 = [] ∧ l = l1 ∧ x = y) ∨ ∃ l2', l2 = l2' ++ [x] ∧ l = l1 ++ y :: l2'.
Proof.
  destruct l2 as [|z l2 _] using rev_ind.
  - intros [-> ->]%app_inj_tail. by left.
  - intros H. right. rewrite app_comm_cons, app_assoc in H. apply app_inj_tail in H as [-> ->]. eauto.
Qed.

Lemma all_justified_snoc es c l e : all_justified es c l → match e with Advanced since b => justified es c l since b | _ => True end → all_justified es c (l ++ [e]).
Proof. intros Hl He l1 since b l2 [(-> & -> & ->)|(l2' & -> & ->)]%snoc_split; [done|by eapply Hl]. Qed.

(** *** A response *)

Lemma joined_spec l b : let b' := foldl joinedRoom b l in
  nextBatch b' = nextBatch b ∧ initial b' = initial b ∧ inviteEvents b' = inviteEvents b ∧
  timelineEvents b' = timelineEvents b ++ concat (List.map (λ p, List.map (inRoom p.1) (listOf (prop (prop p.2 "timeline") "events"))) l) ∧
  stateEvents b' = stateEvents b ++ concat (List.map (λ p, List.map (inRoom p.1) (listOf (prop (prop p.2 "state") "events"))) l).
Proof.
  revert b. induction l as [|[room v] l IH]; intros b; cbn zeta; [cbn; by rewrite !app_nil_r|]. cbn [foldl List.map concat fst snd]. destruct (IH (joinedRoom b (room, v))) as (-> & -> & -> & -> & ->).
  unfold joinedRoom. cbn zeta. destruct (strict_eq _ _); cbn; by rewrite <-!app_assoc.
Qed.

Lemma invited_spec l b : let b' := foldl invitedRoom b l in
  nextBatch b' = nextBatch b ∧ initial b' = initial b ∧ timelineEvents b' = timelineEvents b ∧ stateEvents b' = stateEvents b ∧
  inviteEvents b' = inviteEvents b ++ concat (List.map (λ p, List.map (inRoom p.1) (listOf (prop (prop p.2 "invite_state") "events"))) l).
Proof.
  revert b. induction l as [|[room v] l IH]; intros b; cbn zeta; [cbn; by rewrite !app_nil_r|]. cbn [foldl List.map concat fst snd]. destruct (IH (invitedRoom b (room, v))) as (-> & -> & -> & -> & ->).
  cbn. by rewrite <-!app_assoc.
Qed.

Lemma once_spec since a b : appserviceSyncOnce since a = inr b →
  ∃ s body, a = Answered s body ∧ 200 ≤ s < 300 ∧ prop body "next_batch" = JStr (nextBatch b) ∧ nextBatch b ≠ EmptyString ∧ deliverable b = eventsOf since body.
Proof.
  destruct a as [s body|]; [|done]. cbn [appserviceSyncOnce]. destruct (s =? 401); [done|]. destruct (ok s) eqn:Ok; [|done]. cbn [negb]. destruct (prop body "next_batch") as [| | | |next| | |] eqn:En; try done.
  destruct (truthy next) eqn:Et; [|done]. cbn [negb]. cbv zeta. set (rooms := prop body "rooms"). intros H. exists s, body. split; [done|]. split; [unfold ok in Ok; lia|].
  set (b1 := foldl joinedRoom (MkBatch next [] [] [] [] [] [] (isInitial since)) (entries (nullish_or (prop rooms "join") (JObj [])))) in H.
  assert (E : b = foldl invitedRoom (b1 <| leaves := om_keys (entries (nullish_or (prop rooms "leave") (JObj []))) |>) (entries (nullish_or (prop rooms "invite") (JObj [])))) by (by destruct rooms; simplify_eq).
  destruct (joined_spec (entries (nullish_or (prop rooms "join") (JObj []))) (MkBatch next [] [] [] [] [] [] (isInitial since))) as (J1 & J2 & J3 & J4 & J5). fold b1 in J1, J2, J3, J4, J5.
  destruct (invited_spec (entries (nullish_or (prop rooms "invite") (JObj []))) (b1 <| leaves := om_keys (entries (nullish_or (prop rooms "leave") (JObj []))) |>)) as (I1 & I2 & I3 & I4 & I5). rewrite <-E in I1, I2, I3, I4, I5.
  cbn in *. rewrite I1, J1. split; [done|]. split; [by intros ->|]. unfold deliverable. rewrite I2, I3, I4, I5, J2, J3, J4, J5. unfold eventsOf, eventsIn, isInitial, inRoom. fold rooms.
  by destruct since as [[|]|].
Qed.

Section sound.
Context (es : list Env).

Definition Sound (c : option string) (s : State) : Prop := cursor s = after c (log s) ∧ all_justified es c (log s).

Lemma sound_record c s e : Sound c s → moves e = false → Sound c (s <| log := log s ++ [e] |>).
Proof.
  intros [H1 H2] He. split; cbn; [rewrite after_snoc|apply all_justified_snoc]; by destruct e.
Qed.

Lemma sound_caught c f s : Sound c s → Sound c (caught f s).
Proof.
  intros H. unfold caught. destruct (match f with Unauthorized => _ | _ => _ end).
  - by apply (sound_record c s Relogin).
  - pose proof (sound_record c s (Slept (sleepAs s f)) H eq_refl) as [H1 H2]. by destruct f.
Qed.

Section cursor.
Context (c : option string) (e : Env) (He : e ∈ es).
Abbreviation fails := (λ f s, Sound c (caught f s)).

Lemma sound_credential : triple (Sound c) (takeCredential e) (λ _, Sound c) fails.
Proof.
  unfold takeCredential. destruct (e_credential e) as [t|]; [|apply t_throw; intros; by apply sound_caught].
    destruct (negb (truthy t)); [apply t_throw; intros; by apply sound_caught|].
    eapply t_bind; [apply t_gets|]. intros old. eapply t_bind with (R := λ _, Sound c); [|intros _; by apply t_modify].
    destruct old as [o|]; [|by apply t_ret; intros s [_ H]]. destruct (_ && _); [|by apply t_ret; intros s [_ H]].
    eapply t_bind with (R := λ _, Sound c); [by apply t_modify; intros s [_ H]|]. intros _. apply t_record. intros s H. by apply sound_record.
Qed.

Lemma sound_login : triple (Sound c) (logIn e) (λ _, Sound c) fails.
Proof.
  unfold logIn. eapply t_bind; [apply t_gets|]. intros t. destruct (to_bool t); [by apply t_ret; intros s [_ H]|].
    eapply t_bind; [apply t_lift; intros f s _ [_ H]; by apply sound_caught|]. intros t'.
    eapply t_bind with (R := λ _, Sound c); [by apply t_modify; intros s (_ & _ & H)|]. intros _. apply t_record. intros s H. by apply sound_record.
Qed.

(** Recoveries keep what holds of the log and the cursor. *)
Lemma sound_recover fine l (P : State → Prop) : (∀ s e' q, P s → moves e' = false → P (s <| log := log s ++ [e'] |> <| queue := q |>)) →
  triple P (each (recoverRoom fine) l) (λ _, P) fails.
Proof.
  intros HP. apply t_each. intros r _. unfold recoverRoom. eapply t_bind; [apply t_gets|]. intros q.
  eapply t_bind with (R := λ _ s, ∀ q', P (s <| queue := q' |>)).
  - apply t_record. intros s [_ H] q'. by apply HP.
  - intros _. destruct (fine r); [by apply t_modify; intros s H|]. apply t_ret. intros s H. specialize (H (queue s)). by destruct s.
Qed.

(** Just after the poll, and once the batch may be passed. *)
Definition polled (since : option string) (b : Batch) (s : State) : Prop :=
  Sound c s ∧ since = cursor s ∧ appserviceSyncOnce since (e_sync e) = inr b ∧ ∃ l0, log s = l0 ++ [Polled since b].
Definition passable (since : option string) (b : Batch) (s : State) : Prop := Sound c s ∧ justified es c (log s) since b.

Lemma sound_pass since b (m : M unit) :
  triple (λ s, Sound c s) m (λ _, Sound c) fails →
  triple (passable since b) (recordRooms e (boundsOf since b) b ;; writeCursor e since b ;; m) (λ _, Sound c) fails.
Proof.
  intros Hm. eapply t_bind with (R := λ _, passable since b); [|intros _; eapply t_bind with (R := λ _, Sound c); [|intros _; exact Hm]].
  - apply t_each. intros r _. eapply t_bind with (R := λ _, passable since b); [by apply t_modify|]. intros _.
    destruct (e_save e r); [by apply t_ret|]. apply t_throw. intros s [H _]. by apply sound_caught.
  - unfold writeCursor. eapply t_bind with (R := λ _ s, cursor s = Some (nextBatch b) ∧ all_justified es c (log s) ∧ justified es c (log s) since b).
    + apply t_modify. by intros s [[_ H] H'].
    + intros _. eapply t_bind with (R := λ _, Sound c).
      * apply t_record. intros s (H1 & H2 & H3). split; cbn; [by rewrite after_snoc|by apply all_justified_snoc].
      * intros _. destruct (e_saveCursor e); [by apply t_ret|]. apply t_throw. intros s H. by apply sound_caught.
Qed.

Lemma sound_turn : triple (Sound c) (turn e) (λ _, Sound c) fails.
Proof.
  unfold turn. eapply t_seq; [apply sound_credential|]. eapply t_seq; [apply sound_login|].
  eapply t_bind; [apply t_gets|]. intros since.
  eapply t_bind with (R := λ _ s, since = cursor s ∧ Sound c s).
  { unfold retryPending. eapply t_bind; [apply t_gets|]. intros rooms. eapply t_weaken; [apply (sound_recover _ _ (λ s, since = cursor s ∧ Sound c s))|by intros s (_ & H)|done].
    intros s e' q [H1 H2] He'. split; [done|]. by apply (sound_record c s e'). }
  intros _. eapply t_bind; [apply t_lift; intros f s _ [_ H]; by apply sound_caught|]. intros b.
  eapply t_bind with (R := λ _ s, since = cursor s ∧ Sound c s ∧ appserviceSyncOnce since (e_sync e) = inr b); [apply t_modify; intros s (H0 & H1 & H2); by split|]. intros _.
  eapply t_bind with (R := λ _, polled since b).
  { apply t_record. intros s (H1 & H2 & H3). split; [by apply sound_record|]. split; [done|]. split; [done|]. by eexists. }
  intros _. assert (Hback : triple (Sound c) (each (recoverRoom (e_backfill e)) (roomsNeedingReconcile b)) (λ _, Sound c) fails).
  { apply sound_recover. intros s e' q H He'. by apply (sound_record c s e'). }
  assert (Hreset : triple (Sound c) resetBatchRetry (λ _, Sound c) fails) by (by apply t_modify).
  destruct (negb (length (deliverable b) =? 0)%nat) eqn:Hlen.
  - set (handed := λ a s, Sound c s ∧ since = cursor s ∧ appserviceSyncOnce since (e_sync e) = inr b ∧ ∃ l0, log s = l0 ++ [Polled since b; Handed (txnOf b) (deliverable b) a]).
    eapply t_bind with (R := λ _, handed (e_router e)).
    { apply t_record. intros s (H1 & H2 & Ho & l0 & H3). split; [by apply sound_record|]. split; [done|]. split; [done|]. exists l0. cbn. by rewrite H3, <-app_assoc. }
    intros _. destruct (e_router e) as [a|] eqn:Er; [|apply t_throw; intros s [H _]; by apply sound_caught].
    eapply t_bind with (R := λ _, handed (Some a)); [by apply t_modify|].
    intros _. destruct (Z.eqb_spec (status a) 200) as [Ha|_].
    + eapply t_bind with (R := λ _, passable since b).
      { apply t_modify. intros s (H1 & H2 & (n & body & Hs & Hn & Hnext & Ht & Hd)%once_spec & l0 & H3). split; [done|]. split; [rewrite H2; apply H1|].
        exists e, n, body. split_and!; [done|done|lia|lia|done|done|]. exists l0. right. exists a. rewrite <-Hd. done. }
      intros _. eapply t_bind with (R := λ _, passable since b); [by apply t_modify|]. intros _. by apply sound_pass.
    + eapply t_bind with (R := λ _, Sound c); [by apply t_modify; intros s [H _]|]. intros _. apply t_throw. intros. by apply sound_caught.
  - apply negb_false_iff, Nat.eqb_eq, nil_length_inv in Hlen.
    eapply t_weaken with (P' := passable since b) (Q' := λ _, Sound c); [|intros s (H1 & H2 & (n & body & Hs & Hn & Hnext & Ht & Hd)%once_spec & l0 & H3)|done].
    + apply sound_pass. by eapply t_seq; [apply Hreset|].
    + split; [done|]. split; [rewrite H2; apply H1|]. exists e, n, body. split_and!; [done|done|lia|lia|done|done|]. exists l0. left. by rewrite <-Hd.
Qed.
End cursor.
End sound.

(** C29. Sync intake never skips a batch: every time the cursor moves, to the [next_batch] of a response,
    that response was the 2xx answer to a poll from the cursor as it stood, and either there was nothing
    in it to deliver or the router had answered 200 to a transaction with exactly its events: those of
    the invitations, then those of the timelines, then those of the states of the joined rooms, each in
    the order of the response and with the id of its room. From the first poll, which has no cursor, only
    the events of invitations are delivered, as the code means it. So the responses that were passed form
    a chain from the cursor found at the start, whatever logins, polls, router answers, recoveries and
    saves fail in between. *)
Theorem cursor_passes_accepted_batches c q es l1 since b l2 :
  log (run es (start c q)) = l1 ++ Advanced since b :: l2 → justified es c l1 since b ∧ cursor (run es (start c q)) = after c (log (run es (start c q))).
Proof.
  assert (H : Sound es c (run es (start c q))).
  { apply run_invariant_in; [split; [done|]|intros e He; by apply sound_turn]. intros l1' since' b' l2' H. cbn in H. by destruct l1'. }
  destruct H as [H1 H2]. intros E. split; [by eapply H2|done].
Qed.

(** The first poll delivers an invite, the second a message; then the router refuses a batch. *)
Lemma cursor_passes_accepted_batches_witness :
  let event k v := JObj [("type", JStr k); ("id", JStr v)] in
  let env sync answer := MkEnv 0 (Some "as") (Answered 200 (JObj [("access_token", JStr "t")])) (Answered 200 sync) (Some answer) (λ _, true) (λ _, true) (λ _, true) true in
  let invite := JObj [("next_batch", JStr "s1"); ("rooms", JObj [("invite", JObj [("!r:h", JObj [("invite_state", JObj [("events", JArr [event "i" "1"])])])])])] in
  let message n v := JObj [("next_batch", JStr n); ("rooms", JObj [("join", JObj [("!r:h", JObj [("timeline", JObj [("events", JArr [event "m" v])])])])])] in
  let s := run [env invite ok200; env (message "s2" "2") ok200; env (message "s3" "3") (refuse 500 "M_UNKNOWN")] (start None []) in
  cursor s = Some "s2" ∧ ∃ l1 b l2, log s = l1 ++ Advanced (Some "s1") b :: l2 ∧ length (timelineEvents b) = 1%nat ∧ justified [env invite ok200; env (message "s2" "2") ok200; env (message "s3" "3") (refuse 500 "M_UNKNOWN")] None l1 (Some "s1") b.
Proof.
  intros event env invite message s. split; [vm_compute; reflexivity|].
  assert (E : ∃ l1 b l2, log s = l1 ++ Advanced (Some "s1") b :: l2 ∧ length (timelineEvents b) = 1%nat).
  { eexists [_; _; _; _; _; _], _, _. split; vm_compute; reflexivity. }
  destruct E as (l1 & b & l2 & E & Hb). exists l1, b, l2. split; [exact E|]. split; [exact Hb|].
  apply (cursor_passes_accepted_batches None [] [env invite ok200; env (message "s2" "2") ok200; env (message "s3" "3") (refuse 500 "M_UNKNOWN")] l1 _ b l2 E).
Defined.
