(* ===== verification/SyncRelogin.v ===== *)
(** * The sync collector: the 401 breaker

    A rejected token is replaced without a pause at most once per healthy stretch, and every other
    failure waits for between one second and five minutes. *)

From Stdlib Require Import ZArith Lia String Ascii.
From stdpp Require Import base list strings.
From S2P Require Import Prelude OMap Json Uri AppserviceReceiver AppservicePuller SyncCollector SyncFacts.
Import SyncCollector.
#[local] Open Scope stdpp_scope.

(** A response of the homeserver, or another credential, begins a new stretch. *)
Definition heals (e : event) : bool := match e with Polled _ _ | CredentialChanged => true | _ => false end.

(** Whether the fast re-login of the present stretch has been used. *)
Definition burned (l : list event) : bool := foldl (λ b e, match e with Relogin => true | _ => if heals e then false else b end) false l.

Definition rationed (l : list event) : Prop := ∀ l1 l2, l = l1 ++ Relogin :: l2 → burned l1 = false.

Definition paced (l : list event) : Prop := ∀ ms, Slept ms ∈ l → 1000 ≤ ms ≤ MAX_BATCH_BACKOFF_MS.

Lemma burned_snoc l e : burned (l ++ [e]) = match e with Relogin => true | _ => if heals e then false else burned l end.
Proof. unfold burned. by rewrite foldl_app. Qed.

Lemma burned_after l1 l2 : burned (l1 ++ Relogin :: l2) = false → ∃ x, x ∈ l2 ∧ heals x = true.
Proof.
  induction l2 as [|x l2 IH] using rev_ind; [by rewrite burned_snoc|].
  rewrite app_comm_cons, app_assoc, burned_snoc. destruct (heals x) eqn:E.
  - intros _. exists x. split; [apply elem_of_app; right; by left|done].
  - intros H. destruct x; try done; destruct (IH H) as (y & Hy & Ey); exists y; (split; [apply elem_of_app; by left|done]).
Qed.

Record Calm (s : State) : Prop := MkCalm {
  c_backoff : 1000 ≤ backoffMs s ≤ MAX_BACKOFF_MS; c_batch : 1000 ≤ batchBackoffMs s ≤ MAX_BATCH_BACKOFF_MS;
  c_paced : paced (log s); c_rationed : rationed (log s);
}.

Definition Spent (s : State) : Prop := burned (log s) = true → (2 ≤ loginGeneration s)%nat ∨ loginGeneration s = 1%nat ∧ to_bool (accessToken s) = false.

Definition Rationed (s : State) : Prop := Calm s ∧ Spent s.

Lemma calm_record s e : Calm s → match e with Slept ms => 1000 ≤ ms ≤ MAX_BATCH_BACKOFF_MS | Relogin => burned (log s) = false | _ => True end →
  Calm (s <| log := log s ++ [e] |>).
Proof.
  intros [H1 H2 H3 H4] He. split; cbn; [done|done| |].
  - intros ms [H|H%list_elem_of_singleton]%elem_of_app; [by apply H3|by subst e].
  - intros l1 l2 [(-> & <- & ->)|(l2' & -> & E)]%snoc_split; [done|by apply (H4 l1 l2')].
Qed.

(** Any event but a re-login leaves no new debt. *)
Lemma rationed_record s e : Rationed s → match e with Slept _ | Relogin => False | _ => True end → Rationed (s <| log := log s ++ [e] |>).
Proof.
  intros [HC HS] He. split; [by apply calm_record; [|destruct e]|]. unfold Spent. cbn. rewrite burned_snoc. by destruct e.
Qed.

Lemma rationed_caught f s : Rationed s → Rationed (caught f s).
Proof.
  intros [HC HS]. unfold caught. destruct (match f with Unauthorized => _ | _ => _ end) eqn:E.
  - destruct f; try done. apply andb_true_iff in E as [Et Eg%Nat.eqb_eq]. assert (burned (log s) = false).
    { destruct (burned (log s)) eqn:Eb; [|done]. destruct (HS Eb) as [?|[_ ?]]; [lia|congruence]. }
    split; [|by right]. set (s1 := s <| accessToken := JNull |>). assert (K : Calm s1) by (by destruct HC). exact (calm_record s1 Relogin K H).
  - assert (Hms : 1000 ≤ sleepAs s f ≤ MAX_BATCH_BACKOFF_MS).
    { destruct HC as [H1 H2 _ _]. unfold sleepAs, MAX_BACKOFF_MS, MAX_BATCH_BACKOFF_MS in *. destruct f as [|[r|]|]; lia. }
    destruct (calm_record s (Slept (sleepAs s f)) HC Hms) as [H1 H2 H3 H4]. unfold MAX_BACKOFF_MS, MAX_BATCH_BACKOFF_MS in *.
    assert (HS' : Spent (s <| log := log s ++ [Slept (sleepAs s f)] |>)) by (unfold Spent; cbn; by rewrite burned_snoc).
    cbn in H1, H2. destruct f; (split; [split; cbn; unfold MAX_BACKOFF_MS, MAX_BATCH_BACKOFF_MS; first [lia|exact H3|exact H4]|done]).
Qed.

(** A change of what the ration does not look at. *)
Definition same (s s' : State) : Prop :=
  backoffMs s' = backoffMs s ∧ batchBackoffMs s' = batchBackoffMs s ∧ log s' = log s ∧ loginGeneration s' = loginGeneration s ∧ accessToken s' = accessToken s.

Lemma rationed_same s s' : Rationed s → same s s' → Rationed s'.
Proof.
  intros [[H1 H2 H3 H4] H5] (E1 & E2 & E3 & E4 & E5). unfold Rationed, Spent in *. split; [split|]; by rewrite ?E1, ?E2, ?E3, ?E4, ?E5.
Qed.

Section turns.
Context (e : Env).
Abbreviation fails := (λ f s, Rationed (caught f s)).

Lemma r_throw {A} f : triple Rationed (throw f : M A) (λ _, Rationed) fails.
Proof. apply t_throw. intros s H. by apply rationed_caught. Qed.

Lemma r_modify g : (∀ s, same s (g s)) → triple Rationed (modify g) (λ _, Rationed) fails.
Proof. intros Hg. apply t_modify. intros s H. by eapply rationed_same. Qed.

Lemma r_record x : match x with Slept _ | Relogin => False | _ => True end → triple Rationed (record x) (λ _, Rationed) fails.
Proof. intros Hx. apply t_record. intros s H. by apply rationed_record. Qed.

Lemma r_credential : triple Rationed (takeCredential e) (λ _, Rationed) fails.
Proof.
  unfold takeCredential. destruct (e_credential e) as [t|]; [|apply r_throw]. destruct (negb (truthy t)); [apply r_throw|].
  eapply t_bind; [apply t_gets|]. intros old. eapply t_seq; [|by apply r_modify].
  destruct old as [o|]; [|by apply t_ret; intros s [_ H]]. destruct (_ && _); [|by apply t_ret; intros s [_ H]].
  apply t_seq with (R := Calm); [by apply t_modify; intros s [_ [[] _]]|]. apply t_record. intros s H.
  split; [by apply calm_record|]. unfold Spent. cbn. by rewrite burned_snoc.
Qed.

Lemma r_login : triple Rationed (logIn e) (λ _, Rationed) fails.
Proof.
  unfold logIn. eapply t_bind; [apply t_gets|]. intros t. destruct (to_bool t) eqn:Et; [by apply t_ret; intros s [_ H]|].
  eapply t_bind; [apply t_lift; intros f s _ [_ H]; by apply rationed_caught|]. intros t'.
  apply t_seq with (R := Rationed); [|by apply r_record]. apply t_modify. intros s (_ & _ & [[] HS]). split; [done|].
  intros Hb. left. cbn in *. destruct (HS Hb) as [?|[? _]]; lia.
Qed.

Lemma r_recover fine l : triple Rationed (each (recoverRoom fine) l) (λ _, Rationed) fails.
Proof.
  apply t_each. intros r _. unfold recoverRoom. eapply t_bind; [apply t_gets|]. intros q.
  apply t_seq with (R := Rationed); [eapply t_weaken; [by apply r_record|by intros s [_ H]|done]|].
  destruct (fine r); [by apply r_modify|by apply t_ret].
Qed.

Lemma r_pass bounds since b (m : M unit) : triple Rationed m (λ _, Rationed) fails →
  triple Rationed (recordRooms e bounds b ;; writeCursor e since b ;; m) (λ _, Rationed) fails.
Proof.
  intros Hm. apply t_seq with (R := Rationed); [|apply t_seq with (R := Rationed); [|exact Hm]].
  - apply t_each. intros r _. eapply t_seq; [by apply r_modify|]. destruct (e_save e r); [by apply t_ret|apply r_throw].
  - unfold writeCursor. eapply t_seq; [by apply r_modify|]. eapply t_seq; [by apply r_record|]. destruct (e_saveCursor e); [by apply t_ret|apply r_throw].
Qed.

Lemma r_reset : triple Rationed resetBatchRetry (λ _, Rationed) fails.
Proof. apply t_modify. intros s [[H1 H2 H3 H4] HS]. split; [|done]. split; cbn; [done|unfold MAX_BATCH_BACKOFF_MS; lia|done|done]. Qed.

Lemma r_turn : triple Rationed (turn e) (λ _, Rationed) fails.
Proof.
  unfold turn. eapply t_seq; [apply r_credential|]. eapply t_seq; [apply r_login|].
  eapply t_bind; [apply t_gets|]. intros since. apply t_seq with (R := Rationed).
  { unfold retryPending. eapply t_bind; [apply t_gets|]. intros rooms. eapply t_weaken with (Q' := λ _, Rationed); [apply r_recover|by intros s (_ & _ & H)|done]. }
  eapply t_bind; [apply t_lift; intros f s _ H; by apply rationed_caught|]. intros b.
  apply t_seq with (R := Calm).
  { apply t_modify. intros s (_ & [H1 H2 H3 H4] & _). split; cbn; [unfold MAX_BACKOFF_MS; lia|done..]. }
  apply t_seq with (R := Rationed).
  { apply t_record. intros s H. split; [by apply calm_record|]. unfold Spent. cbn. by rewrite burned_snoc. }
  destruct (negb _).
  - eapply t_seq; [by apply r_record|]. destruct (e_router e) as [a|]; [|apply r_throw]. eapply t_seq; [by apply r_modify|].
    destruct (_ =? _)%Z; (eapply t_seq; [by apply r_modify|]); [|apply r_throw]. eapply t_seq; [apply r_reset|]. apply r_pass, r_recover.
  - apply r_pass. eapply t_seq; [apply r_reset|]. apply r_recover.
Qed.
End turns.

(** A homeserver that rejects the token is not hammered: between two logins that follow a 401
    without a pause there is an answered poll or a change of the credential, and every other failed turn
    sleeps between one second and five minutes before the next. *)
Theorem relogin_is_rationed c q es : let l := log (run es (start c q)) in
  (∀ l1 l2 l3, l = l1 ++ Relogin :: l2 ++ Relogin :: l3 → ∃ x, x ∈ l2 ∧ heals x = true) ∧
  (∀ ms, Slept ms ∈ l → 1000 ≤ ms ≤ MAX_BATCH_BACKOFF_MS).
Proof.
  cbn zeta. assert (H : Rationed (run es (start c q))).
  { apply run_invariant; [|intros e; apply r_turn]. split; [split; cbn; unfold MAX_BACKOFF_MS, MAX_BATCH_BACKOFF_MS; try lia|done].
    - by intros ms ?%elem_of_nil.
    - intros l1' l2' Hl. by destruct l1'. }
  destruct H as [[_ _ Hp Hr] _]. split; [|exact Hp]. intros l1 l2 l3 E. apply (burned_after l1), (Hr _ l3). by rewrite E, <-app_assoc.
Qed.

(** A token that is rejected, replaced, rejected again; then the homeserver recovers, and rejects. *)
Lemma relogin_is_rationed_witness :
  let env login sync := MkEnv 0 (Some "as") login sync None (λ _, true) (λ _, true) (λ _, true) true in
  let token := Answered 200 (JObj [("access_token", JStr "t")]) in
  let fine := Answered 200 (JObj [("next_batch", JStr "s1")]) in
  let l := log (run [env token (Answered 401 JNull); env token (Answered 401 JNull); env token fine; env token (Answered 401 JNull)] (start None [])) in
  (∃ l1 l2 l3, l = l1 ++ Relogin :: l2 ++ Relogin :: l3 ∧ ∃ x, x ∈ l2 ∧ heals x = true) ∧ Slept 1000 ∈ l ∧ 1000 ≤ 1000 ≤ MAX_BATCH_BACKOFF_MS.
Proof.
  intros env token fine l. destruct (relogin_is_rationed None [] [env token (Answered 401 JNull); env token (Answered 401 JNull); env token fine; env token (Answered 401 JNull)]) as [H1 H2].
  set (b := MkBatch "s1" [] [] [] [] [] [] true).
  assert (E : l = [LoggedIn] ++ Relogin :: [LoggedIn; Slept 1000; Polled None b; Advanced None b] ++ Relogin :: []) by (vm_compute; reflexivity).
  split; [|split].
  - exists [LoggedIn], [LoggedIn; Slept 1000; Polled None b; Advanced None b], []. split; [exact E|]. by apply (H1 _ _ _ E).
  - rewrite E. apply list_elem_of_In. vm_compute. tauto.
  - apply H2. change (Slept 1000 ∈ l). rewrite E. apply list_elem_of_In. vm_compute. tauto.
Defined.
