(* ===== verification/SyncGaps.v ===== *)
(** * The sync collector: gaps

    A response with a limited timeline leaves out events. The rooms concerned are recorded before the
    cursor moves, and an entry goes only when its recovery has succeeded; a later gap of the same room
    widens the entry. *)

From Stdlib Require Import ZArith Lia String Ascii.
From stdpp Require Import base list strings.
From S2P Require Import Prelude OMap Json Uri AppserviceReceiver AppservicePuller SyncCollector SyncFacts.
Import SyncCollector.
#[local] Open Scope stdpp_scope.

Section gaps.
(** The position of a token in the stream of the homeserver, and one that no token on disk exceeds. *)
Context (pos : string → nat) (base : nat).

Definition at_cursor (o : option string) : nat := match o with Some t => pos t | None => 0%nat end.

(** The position of the latest response. *)
Definition reached (l : list event) : nat := foldl (λ h e, match e with Polled _ b => pos (nextBatch b) | _ => h end) base l.

#[local] Arguments reached : simpl never.

(** The homeserver never answers with an earlier [next_batch] than before. *)
Definition forward (l : list event) : Prop := ∀ l1 since b l2, l = l1 ++ Polled since b :: l2 → (reached l1 ≤ pos (nextBatch b))%nat.

(** The entry spans the gap between the cursor [c] and the response [b]. *)
Definition spans (p : Pending) (c : string) (b : Batch) : Prop :=
  p_kind p = KGap ∧ ∃ f t, from p = Some f ∧ to p = Some t ∧ (pos f ≤ pos c)%nat ∧ (pos (nextBatch b) ≤ pos t)%nat.

Definition proper (cur hi : nat) (q : omap Pending) : Prop := ∀ r p, om_get r q = Some p →
  p_kind p ≠ KUnproven ∧ (p_kind p = KGap → ∃ f t, from p = Some f ∧ to p = Some t ∧ (pos f ≤ cur)%nat ∧ (pos t ≤ hi)%nat).

(** The gap is still recorded, or has been recovered since. *)
Definition remembered (q : omap Pending) (l : list event) (r c : string) (b : Batch) : Prop :=
  (∃ p, om_get r q = Some p ∧ spans p c b) ∨ ∃ p, Retried r (Some p) true ∈ l ∧ spans p c b.

Record Kept (s : State) : Prop := MkKept {
  k_cursor : (at_cursor (cursor s) ≤ reached (log s))%nat;
  k_proper : proper (at_cursor (cursor s)) (reached (log s)) (queue s);
  k_gaps : ∀ l1 c b l2 r, log s = l1 ++ Advanced (Some c) b :: l2 → initial b = false → r ∈ roomsNeedingReconcile b → remembered (queue s) l2 r c b;
}.

Definition Inv (s : State) : Prop := forward (log s) → Kept s.

Lemma reached_snoc l e : reached (l ++ [e]) = match e with Polled _ b => pos (nextBatch b) | _ => reached l end.
Proof. unfold reached. by rewrite foldl_app. Qed.

Lemma forward_snoc l e : forward (l ++ [e]) → forward l ∧ match e with Polled _ b => (reached l ≤ pos (nextBatch b))%nat | _ => True end.
Proof.
  intros H. split.
  - intros l1 since b l2 ->. apply (H l1 since b (l2 ++ [e])). by rewrite <-app_assoc.
  - destruct e; try done. by eapply (H l).
Qed.

Lemma remembered_snoc q l e r c b : remembered q l r c b → remembered q (l ++ [e]) r c b.
Proof. intros [H|(p & H & Hp)]; [by left|right]. exists p. split; [apply elem_of_app; by left|done]. Qed.

(** Events that do not move the cursor. *)
Lemma inv_record s e : Inv s → moves e = false → match e with Polled _ _ => False | _ => True end → Inv (s <| log := log s ++ [e] |>).
Proof.
  intros HI He Hp [Hf _]%forward_snoc. destruct (HI Hf) as [H1 H2 H3]. assert (Hr : reached (log s ++ [e]) = reached (log s)) by (rewrite reached_snoc; by destruct e).
  split; cbn; rewrite ?Hr; [done|done|]. intros l1 c b l2 r [(-> & _ & ->)|(l2' & -> & E)]%snoc_split Hi Hin; [done|]. apply remembered_snoc. by apply (H3 l1).
Qed.

Lemma inv_same s s' : Inv s → cursor s' = cursor s → queue s' = queue s → log s' = log s → Inv s'.
Proof. intros HI E1 E2 E3. unfold Inv. rewrite E3. intros Hf. destruct (HI Hf) as [H1 H2 H3]. split; by rewrite ?E1, ?E2, ?E3. Qed.

Lemma inv_caught f s : Inv s → Inv (caught f s).
Proof.
  intros HI. unfold caught. destruct (match f with Unauthorized => _ | _ => _ end).
  - eapply inv_same; [by apply (inv_record s Relogin)|done..].
  - pose proof (inv_record s (Slept (sleepAs s f)) HI eq_refl I) as H. destruct f; by (eapply inv_same; [exact H|..]).
Qed.

(** A recovery that succeeded may take the entry away. *)
Lemma inv_recover s r : Inv s →
  Inv (s <| log := log s ++ [Retried r (om_get r (queue s)) true] |> <| queue := clearPending r (queue s) |>).
Proof.
  intros HI [Hf _]%forward_snoc. destruct (HI Hf) as [H1 H2 H3]. split; cbn; rewrite ?reached_snoc; [done| |].
  - intros r' p. unfold clearPending. rewrite om_get_del. destruct (String.eqb r r'); [done|]. apply H2.
  - intros l1 c b l2 r' [(_ & _ & [=])|(l2' & -> & E)]%snoc_split Hi Hin. destruct (H3 _ _ _ _ _ E Hi Hin) as [(p & Hp & Hs)|(p & Hp & Hs)].
    + unfold remembered, clearPending. rewrite om_get_del. destruct (String.eqb_spec r r') as [<-|]; [|by left; exists p].
      right. exists p. split; [|done]. rewrite Hp. apply elem_of_app. right. by left.
    + right. exists p. split; [apply elem_of_app; by left|done].
Qed.

Lemma inv_polled s since b : Inv s → Inv (s <| log := log s ++ [Polled since b] |>).
Proof.
  intros HI [Hf Hle]%forward_snoc. destruct (HI Hf) as [H1 H2 H3]. split; cbn; rewrite ?reached_snoc; [lia| |].
  - intros r p Hp. destruct (H2 r p Hp) as [A B]. split; [done|]. intros Hk. destruct (B Hk) as (f & t & B1 & B2 & B3 & B4). exists f, t. split_and!; [done..|lia].
  - intros l1 c b' l2 r [(_ & _ & [=])|(l2' & -> & E)]%snoc_split Hi Hin. apply remembered_snoc. by apply (H3 l1).
Qed.

Lemma joined_initial l b : initial (foldl joinedRoom b l) = initial b.
Proof. revert b. induction l as [|[r v] l IH]; intros b; [done|]. cbn [foldl]. rewrite IH. unfold joinedRoom. by destruct (strict_eq _ _). Qed.

Lemma invited_initial l b : initial (foldl invitedRoom b l) = initial b.
Proof. revert b. induction l as [|p l IH]; intros b; [done|]. cbn [foldl]. by rewrite IH. Qed.

Lemma once_initial since a b : appserviceSyncOnce since a = inr b → initial b = isInitial since.
Proof.
  unfold appserviceSyncOnce. intros H. repeat case_match; simplify_eq; rewrite invited_initial; cbn; by rewrite ?joined_initial.
Qed.

(** ** Recording *)

(** The stage between the poll and the cursor. *)
Record stage (since : option string) (b : Batch) (s : State) : Prop := MkStage {
  g_inv : Inv s; g_since : since = cursor s; g_initial : initial b = isInitial since;
  g_reached : reached (log s) = pos (nextBatch b); g_forward : forward (log s) → (at_cursor since ≤ pos (nextBatch b))%nat;
}.

Definition recorded (since : option string) (b : Batch) (l : list string) (s : State) : Prop :=
  stage since b s ∧ (forward (log s) → ∀ r c, r ∈ l → since = Some c → initial b = false → ∃ p, om_get r (queue s) = Some p ∧ spans p c b).

Lemma merge_cases now since b o : (∀ p, o = Some p → p_kind p ≠ KUnproven) → let p' := merge now (boundsOf since b) o in
  p_kind p' ≠ KUnproven ∧
  (∀ p, o = Some p → p_kind p = KGap → p_kind p' = KGap ∧ from p' = from p ∧ to p' = Some (nextBatch b)) ∧
  ((∀ p, o = Some p → p_kind p ≠ KGap) → (p_kind p' = KGap → initial b = false) ∧ (initial b = false → p_kind p' = KGap ∧ from p' = since ∧ to p' = Some (nextBatch b))).
Proof.
  intros Ho. unfold merge, boundsOf. destruct o as [p|].
  - specialize (Ho p eq_refl). destruct (p_kind p) eqn:E; destruct (initial b); cbn; split_and!; try done; intros; simplify_eq; try congruence; try (by split_and!).
    all: exfalso; eapply H; eauto.
  - destruct (initial b); cbn; split_and!; try done; intros; simplify_eq; by split_and!.
Qed.

Lemma recorded_snoc now since b l r s : recorded since b l s →
  recorded since b (l ++ [r]) (s <| queue := recordPending now r (boundsOf since b) (queue s) |>).
Proof.
  intros [[HI Hs Hi Hr Hf] Hl]. set (s' := s <| queue := _ |>).
  assert (Hget : ∀ r', om_get r' (queue s') = if String.eqb r r' then Some (merge now (boundsOf since b) (om_get r (queue s))) else om_get r' (queue s)).
  { intros r'. unfold s'. cbn. unfold recordPending. by rewrite om_get_obj_set. }
  assert (Hmerge : forward (log s) → let p' := merge now (boundsOf since b) (om_get r (queue s)) in
    p_kind p' ≠ KUnproven ∧ (p_kind p' = KGap → ∃ f t, from p' = Some f ∧ to p' = Some t ∧ (pos f ≤ at_cursor since)%nat ∧ (pos t ≤ pos (nextBatch b))%nat) ∧
    (∀ c, since = Some c → initial b = false → spans p' c b) ∧ (∀ p c b', om_get r (queue s) = Some p → spans p c b' → spans p' c b')).
  { intros Hfw. destruct (HI Hfw) as [H1 H2 H3]. rewrite Hr in H2. rewrite <-Hs in H2.
    destruct (merge_cases now since b (om_get r (queue s))) as (M1 & M2 & M3); [intros p Hp; by apply (H2 r p)|].
    assert (Hold : (∃ p, om_get r (queue s) = Some p ∧ p_kind p = KGap) ∨ (∀ p, om_get r (queue s) = Some p → p_kind p ≠ KGap)).
    { destruct (om_get r (queue s)) as [p|]; [|by right]. destruct (p_kind p) eqn:E; [right|left|right]; try (intros ? [= <-]; congruence). eauto. }
    destruct Hold as [(p & Ep & Hk)|Hno].
    - destruct (M2 p Ep Hk) as (A1 & A2 & A3). destruct (proj2 (H2 r p Ep) Hk) as (f & t & B1 & B2 & B3 & B4). split_and!; [done| | |].
      + intros _. exists f, (nextBatch b). rewrite A2, A3. by split_and!.
      + intros c -> Hib. split; [done|]. exists f, (nextBatch b). rewrite A2, A3. by split_and!.
      + intros p0 c b' E0 (_ & f0 & t0 & C1 & C2 & C3 & C4). assert (p0 = p) as -> by congruence. split; [done|]. exists f, (nextBatch b).
        rewrite A2, A3. assert (f0 = f) as -> by congruence. assert (t0 = t) as -> by congruence. split_and!; [done..|lia].
    - destruct (M3 Hno) as [N1 N2]. split_and!; [done| | |].
      + intros Hg. specialize (N1 Hg). destruct (N2 N1) as (_ & A2 & A3). rewrite Hi in N1. destruct since as [c|]; [|done]. exists c, (nextBatch b). split_and!; [done..|lia].
      + intros c -> Hib. destruct (N2 Hib) as (A1 & A2 & A3). split; [done|]. exists c, (nextBatch b). split_and!; [done..|lia].
      + intros p0 c b' E0 (Hk & _). by apply Hno in E0. }
  split.
  - split; [|done..]. intros Hfw. change (forward (log s)) in Hfw. destruct (HI Hfw) as [H1 H2 H3]. destruct (Hmerge Hfw) as (M1 & M2 & M3 & M4).
    split; [done| |].
    + intros r' p. rewrite Hget. destruct (String.eqb_spec r r') as [<-|]; [|by apply H2]. intros [= <-]. split; [done|]. change (cursor s') with (cursor s). rewrite <-Hs. change (log s') with (log s). rewrite Hr. exact M2.
    + intros l1 c b' l2 r' E Hi' Hin. destruct (H3 _ _ _ _ _ E Hi' Hin) as [(p & Hp & Hsp)|Hx]; [left|by right].
      rewrite Hget. destruct (String.eqb_spec r r') as [<-|]; [|by exists p]. eexists. split; [done|]. by eapply M4.
  - intros Hfw r' c Hin Hc Hib. change (forward (log s)) in Hfw. destruct (Hmerge Hfw) as (M1 & M2 & M3 & M4). rewrite Hget.
    apply elem_of_app in Hin as [Hin| ->%list_elem_of_singleton].
    + destruct (Hl Hfw r' c Hin Hc Hib) as (p & Hp & Hsp). destruct (String.eqb_spec r r') as [<-|]; [|by exists p]. eexists. split; [done|]. by eapply M4.
    + rewrite String.eqb_refl. eexists. split; [done|]. by apply M3.
Qed.

(** ** The turns *)

Section turn.
Context (e : Env).
Abbreviation fails := (λ f s, Inv (caught f s)).

Lemma i_throw {A} f (P : State → Prop) : (∀ s, P s → Inv s) → triple P (throw f : M A) (λ _, Inv) fails.
Proof. intros H. apply t_throw. intros s Hs. by apply inv_caught, H. Qed.

Lemma i_modify g : (∀ s, cursor (g s) = cursor s ∧ queue (g s) = queue s ∧ log (g s) = log s) → triple Inv (modify g) (λ _, Inv) fails.
Proof. intros Hg. apply t_modify. intros s H. destruct (Hg s) as (? & ? & ?). by eapply inv_same. Qed.

Lemma i_record x : moves x = false → match x with Polled _ _ => False | _ => True end → triple Inv (record x) (λ _, Inv) fails.
Proof. intros H1 H2. apply t_record. intros s H. by apply inv_record. Qed.

Lemma i_credential : triple Inv (takeCredential e) (λ _, Inv) fails.
Proof.
  unfold takeCredential. destruct (e_credential e) as [t|]; [|by apply i_throw]. destruct (negb (truthy t)); [by apply i_throw|].
  eapply t_bind; [apply t_gets|]. intros old. eapply t_seq; [|by apply i_modify].
  destruct old as [o|]; [|by apply t_ret; intros s [_ H]]. destruct (_ && _); [|by apply t_ret; intros s [_ H]].
  apply t_seq with (R := Inv); [|by apply i_record]. eapply t_weaken; [by apply i_modify|by intros s [_ H]|done].
Qed.

Lemma i_login : triple Inv (logIn e) (λ _, Inv) fails.
Proof.
  unfold logIn. eapply t_bind; [apply t_gets|]. intros t. destruct (to_bool t) eqn:Et; [by apply t_ret; intros s [_ H]|].
  eapply t_bind; [apply t_lift; intros f s _ [_ H]; by apply inv_caught|]. intros t'.
  apply t_seq with (R := Inv); [|by apply i_record]. eapply t_weaken; [by apply i_modify|by intros s (_ & _ & H)|done].
Qed.

Lemma i_recover since fine l : triple (λ s, since = cursor s ∧ Inv s) (each (recoverRoom fine) l) (λ _ s, since = cursor s ∧ Inv s) fails.
Proof.
  apply t_each. intros r _ s [Hs HI]. unfold recoverRoom, gets, record, modify. cbn. destruct (fine r).
  - cbn. split; [done|]. by apply inv_recover.
  - cbn. split; [done|]. by apply inv_record.
Qed.

Lemma i_recover' fine l : triple Inv (each (recoverRoom fine) l) (λ _, Inv) fails.
Proof.
  intros s Hs. pose proof (i_recover (cursor s) fine l s (conj eq_refl Hs)) as H. destruct (each _ _ s) as [[f|[]] s']; [done|]. by destruct H.
Qed.

(** [t_each] with what has been done so far. *)
Lemma t_each_acc {A} (f : A → M unit) l (P : list A → State → Prop) E :
  (∀ l1 a, triple (P l1) (f a) (λ _, P (l1 ++ [a])) E) → ∀ l0, triple (P l0) (each f l) (λ _, P (l0 ++ l)) E.
Proof.
  intros H. induction l as [|a l IH]; intros l0; [apply t_ret; by rewrite app_nil_r|]. change (each f (a :: l)) with (f a ;; each f l).
  eapply t_seq; [apply H|]. specialize (IH (l0 ++ [a])). by rewrite <-app_assoc in IH.
Qed.

Lemma i_pass since b (m : M unit) : triple Inv m (λ _, Inv) fails →
  triple (stage since b) (recordRooms e (boundsOf since b) b ;; writeCursor e since b ;; m) (λ _, Inv) fails.
Proof.
  intros Hm. apply t_seq with (R := recorded since b (roomsNeedingReconcile b)); [|apply t_seq with (R := Inv); [|exact Hm]].
  - apply (t_weaken _ (recorded since b []) _ _ (λ _, recorded since b ([] ++ roomsNeedingReconcile b))); [|by intros s H; split; [done|intros _ r c ?%elem_of_nil]|done].
    apply (t_each_acc _ _ (recorded since b)). intros l1 r. apply t_seq with (R := recorded since b (l1 ++ [r])).
    + apply t_modify. intros s H. by apply recorded_snoc.
    + destruct (e_save e r); [by apply t_ret|]. apply t_throw. intros s [[H _ _ _ _] _]. by apply inv_caught.
  - unfold writeCursor. apply t_seq with (R := λ s, cursor s = Some (nextBatch b) ∧ ∃ o, recorded since b (roomsNeedingReconcile b) (s <| cursor := o |>)).
    + apply t_modify. intros s H. split; [done|]. exists (cursor s). by destruct s.
    + apply t_seq with (R := Inv); [|destruct (e_saveCursor e); [by apply t_ret|by apply i_throw]].
      apply t_record. intros s (Hc & o & [[HI Hs Hi Hr Hf] Hl]) [Hfw _]%forward_snoc.
      destruct (HI Hfw) as [H1 H2 H3]. cbn in *. subst o. specialize (Hf Hfw). rewrite Hr in *.
      split; cbn; rewrite ?reached_snoc, ?Hc, ?Hr; [done| |].
      * intros r p Hp. destruct (H2 r p Hp) as [A B]. split; [done|]. intros Hk. destruct (B Hk) as (f & t & B1 & B2 & B3 & B4).
        exists f, t. split_and!; [done..|cbn; lia|done].
      * intros l1 c b' l2 r [(-> & _ & [= -> ->])|(l2' & -> & E)]%snoc_split Hib Hin.
        -- left. by apply (Hl Hfw r c).
        -- apply remembered_snoc. by apply (H3 l1).
Qed.

Lemma i_turn : triple Inv (turn e) (λ _, Inv) fails.
Proof.
  unfold turn. eapply t_seq; [apply i_credential|]. eapply t_seq; [apply i_login|].
  eapply t_bind; [apply t_gets|]. intros since. apply t_seq with (R := λ s, since = cursor s ∧ Inv s).
  { unfold retryPending. eapply t_bind; [apply t_gets|]. intros rooms. eapply t_weaken with (Q' := λ _ s, since = cursor s ∧ Inv s); [apply i_recover|by intros s (_ & H)|done]. }
  eapply t_bind; [apply t_lift; intros f s _ [_ H]; by apply inv_caught|]. intros b.
  apply t_seq with (R := λ s, since = cursor s ∧ Inv s ∧ initial b = isInitial since).
  { apply t_modify. intros s (Hb & Hs & HI). split_and!; [done|by eapply inv_same|]. by eapply once_initial. }
  apply t_seq with (R := stage since b).
  { apply t_record. intros s (Hs & HI & Hi). split; [by apply inv_polled|done|done|cbn; by rewrite reached_snoc|].
    intros [Hf Hle]%forward_snoc. destruct (HI Hf) as [H1 _ _]. rewrite <-Hs in H1. lia. }
  assert (Hstage : ∀ g, (∀ s, cursor (g s) = cursor s ∧ queue (g s) = queue s ∧ log (g s) = log s) → triple (stage since b) (modify g) (λ _, stage since b) fails).
  { intros g Hg. apply t_modify. intros s [S1 S2 S3 S4 S5]. destruct (Hg s) as (E1 & E2 & E3). split; [by eapply inv_same|by rewrite E1|done|by rewrite E3|by rewrite E3]. }
  destruct (negb _).
  - eapply t_seq.
    { apply t_record with (Q := λ _, stage since b). intros s [S1 S2 S3 S4 S5]. split; [by apply inv_record|done|done|cbn; by rewrite reached_snoc|]. by intros [Hf _]%forward_snoc; apply S5. }
    destruct (e_router e) as [a|]; [|by apply i_throw; intros s []]. eapply t_seq; [by apply Hstage|].
    destruct (_ =? _)%Z; (eapply t_seq; [by apply Hstage|]); [|by apply i_throw; intros s []]. eapply t_seq; [by apply Hstage|]. apply i_pass, i_recover'.
  - apply i_pass. eapply t_seq; [by apply i_modify|]. apply i_recover'.
Qed.
End turn.

(** C30. A gap found from a cursor is never forgotten: when the cursor has passed a response to a poll
    from an earlier cursor that left out events of a room (its timeline was limited), then from that
    moment on either the room's entry in the stored queue
    spans the gap, from the cursor of that poll or before to the response or after, or a recovery over
    such bounds has succeeded since; crashes of the recovery, failures to save, and later gaps of the
    same room included. The first poll of all, which has no cursor, is excepted: its rooms are queued as
    joins, and a later gap of the room replaces that entry. The homeserver's
    positions only go forward, and the queue found at the start is proper up to the position [base]. *)
Theorem gaps_are_kept_until_recovered c q es l1 since b l2 r :
  let s := run es (start (Some c) q) in
  (pos c ≤ base)%nat → proper (pos c) base q → forward (log s) →
  log s = l1 ++ Advanced (Some since) b :: l2 → initial b = false → r ∈ roomsNeedingReconcile b → remembered (queue s) l2 r since b.
Proof.
  intros s Hc Hq Hf E Hi Hr. assert (H : Inv s).
  { apply run_invariant; [|intros e; apply i_turn]. intros _. split; [done|done|]. intros l1' c' b' l2' r' E'. by destruct l1'. }
  by eapply (k_gaps _ (H Hf)).
Qed.

End gaps.

(** [forward], decided. *)
Fixpoint forwardb (pos : string → nat) (h : nat) (l : list event) : bool :=
  match l with
  | [] => true
  | Polled _ b :: l => (h <=? pos (nextBatch b))%nat && forwardb pos (pos (nextBatch b)) l
  | _ :: l => forwardb pos h l
  end.

Lemma forwardb_spec pos h l : forwardb pos h l = true → forward pos h l.
Proof.
  revert h. induction l as [|e l IH]; intros h Hb l1 since b l2 E; [by destruct l1|].
  destruct l1 as [|e' l1]; cbn in E; injection E as -> E.
  - cbn in Hb. apply andb_true_iff in Hb as [Hb%Nat.leb_le _]. exact Hb.
  - destruct e' as [| | |since' b'| | | |]; try by apply (IH h Hb l1 since b l2 E). cbn in Hb. apply andb_true_iff in Hb as [_ Hb]. by apply (IH _ Hb l1 since b l2 E).
Qed.

(** The recovery fails three times, and a second gap widens the entry. *)
Lemma gaps_are_kept_until_recovered_witness :
  let pos t := Z.to_nat (default 0 (parseInt (drop_str 1 t))) in
  let sync n limited := Answered 200 (JObj [("next_batch", JStr n); ("rooms", JObj [("join", JObj [("!r:h", JObj [("timeline", JObj [("limited", JBool limited); ("prev_batch", JStr "p")])])])])]) in
  let env sync := MkEnv 0 (Some "as") (Answered 200 (JObj [("access_token", JStr "t")])) sync None (λ _, false) (λ _, false) (λ _, true) true in
  let s := run [env (sync "s2" true); env (sync "s3" false); env (sync "s4" true)] (start (Some "s1") []) in
  queue s = [("!r:h", MkPending KGap (Some "s1") (Some "s4") 0)] ∧ ∃ l2 b, nextBatch b = "s2" ∧ remembered pos (queue s) l2 "!r:h" "s1" b.
Proof.
  intros pos sync env s. split; [vm_compute; reflexivity|].
  assert (E : ∃ l1 b l2, log s = l1 ++ Advanced (Some "s1") b :: l2 ∧ nextBatch b = "s2" ∧ initial b = false ∧ roomsNeedingReconcile b = ["!r:h"]).
  { eexists [_; _], _, _. split_and!; vm_compute; reflexivity. }
  destruct E as (l1 & b & l2 & E & E1 & E2 & E3). exists l2, b. split; [exact E1|].
  apply (gaps_are_kept_until_recovered pos 1 "s1" [] [env (sync "s2" true); env (sync "s3" false); env (sync "s4" true)] l1 "s1" b l2 "!r:h").
  - vm_compute. lia.
  - intros r p Hp. discriminate Hp.
  - apply forwardb_spec. vm_compute. reflexivity.
  - exact E.
  - exact E2.
  - rewrite E3. by left.
Defined.

(** A gap of a room whose join is still to be fetched takes the place of that entry. *)
Example gap_replaces_join now c t p : p_kind p = KJoin → merge now (KGap, Some c, t) (Some p) = MkPending KGap (Some c) (Some t) (queuedAt p).
Proof. unfold merge. by intros ->. Qed.
