(* ===== verification/Backfill.v ===== *)
(** * Fetching what sync left out ([bridge-matrix.js], [lib/representative-sync.js])

    Three walks over a room's history: [backfillSyncGapOnSide] forwards over a gap between two tokens,
    [backfillJoinedRoomOnSide] with [pendingJoinBackfill] backwards to the invite that a join answers, and
    [reconcileRepresentativeTimeline] backwards to an event already seen. The homeserver's pages are an
    argument; the loops are bounded as in the code, by their budgets of pages. *)

From Stdlib Require Import ZArith Lia String Ascii.
From stdpp Require Import base list strings.
From S2P Require Import Prelude OMap Json SyncCollector.
#[local] Open Scope stdpp_scope.

Module Backfill.

(** A page as [roomMessagesOnSide] answers it; [page_end] is [null] where it is [None]. *)
Record Page : Type := MkPage { known : bool; chunk : list jval; page_end : option string }.

(** The answer of the homeserver to [/messages]; the error of a request that fails is [None]. *)
Definition roomMessagesOnSide (answer : option (Z * jval)) : Page :=
  let unreadable := MkPage false [] None in
  match answer with
  | None => unreadable
  | Some (s, data) =>
      if negb (SyncCollector.ok s) then unreadable else
      match prop data "chunk", prop data "end" with
      | JArr l, JStr t => MkPage true l (Some t)
      | JArr l, (JUndef | JNull) => MkPage true l None
      | _, _ => unreadable
      end
  end.

(** [!page.end] *)
Definition ended (p : Page) : bool := match page_end p with Some t => negb (truthy t) | None => true end.

Definition is_object (v : jval) : bool := match v with JObj _ => true | _ => false end.
Definition text (v : jval) : bool := match v with JStr s => truthy s | _ => false end.
Definition is_message (ev : jval) : bool := strict_eq (prop ev "type") (JStr "m.room.message").

(** What a page of a gap must consist of. *)
Definition well_formed (ev : jval) : bool :=
  is_object ev && text (prop ev "event_id") && text (prop ev "type") && text (prop ev "sender") && is_object (prop ev "content").

Section budgets.
Context (LIMIT MAX_EVENTS PAGES : nat).

(** ** The gap *)

(** The loop of [backfillSyncGapOnSide]; [fuel] is what is left of the budget of pages, [n] the number of
    events so far, and [tokens] those already used. *)
Fixpoint gapPages (fuel : nat) (page : string → nat → Page) (roomId to : string) (from : string) (n : nat) (tokens : list string) : result (list jval) :=
  let exhausted := Throw "pagination budget exhausted" in
  match fuel with
  | O => exhausted
  | S fuel =>
      if negb (n <? MAX_EVENTS)%nat then exhausted else
      let limit := Nat.min LIMIT (MAX_EVENTS - n) in
      let p := page from limit in
      throw_if negb (known p) with "history unreadable" in
      throw_if (limit <? length (chunk p))%nat with "page exceeds event budget" in
      throw_if existsb (λ ev, negb (well_formed ev)) (chunk p) with "malformed event in history page" in
      let events := List.map (SyncCollector.inRoom roomId) (chunk p) in
      if ended p then Ok events else
      match page_end p with
      | Some e =>
          if String.eqb e to then Ok events else
          throw_if inb e tokens with "stalled pagination" in
          let* rest := gapPages fuel page roomId to e (n + length (chunk p)) (tokens ++ [e]) in Ok (events ++ rest)
      | None => Ok events
      end
  end.

(** [ready] tells whether the side has a credential and the router; [router] is the router's status for
    the transaction with the messages. The result are the messages that were handed over. *)
Definition backfillSyncGapOnSide (ready : bool) (page : string → nat → Page) (router : list jval → option Z) (roomId : string)
    (bounds : option SyncCollector.Pending) : result (list jval) :=
  match bounds with
  | Some (SyncCollector.MkPending SyncCollector.KGap (Some from) (Some to) _) =>
      throw_if negb (truthy from) || negb (truthy to) with "missing durable cursor bounds" in
      throw_if negb ready with "side credential or router unavailable" in
      let* events := gapPages PAGES page roomId to from 0 [from] in
      let messages := List.filter is_message events in
      throw_if negb (Nat.eqb (length messages) 0) && negb (bool_decide (router messages = Some 200)) with "router refused" in
      Ok messages
  | _ => Throw "missing durable cursor bounds"
  end.

(** ** The join *)

Inductive boundary : Type := NoInput | Unproven | InviteJoin | InviteEnd.

Definition membershipOf (me : string) (ev : jval) : jval :=
  if strict_eq (prop ev "type") (JStr "m.room.member") && strict_eq (prop ev "state_key") (JStr me) then prop (prop ev "content") "membership" else JUndef.

(** The loop that finds the last invite and the join that follows it. *)
Definition mark (me : string) (acc : nat * option nat * option nat) (ev : jval) : nat * option nat * option nat :=
  let '(i, inviteIdx, joinIdx) := acc in
  match membershipOf me ev with
  | JStr m =>
      if String.eqb m "invite" then (S i, Some i, None)
      else if String.eqb m "join" then
        match inviteIdx, joinIdx with Some _, None => (S i, inviteIdx, Some i) | _, _ => (S i, inviteIdx, joinIdx) end
      else (S i, inviteIdx, joinIdx)
  | _ => (S i, inviteIdx, joinIdx)
  end.

Definition wanted (me : string) (ev : jval) : bool :=
  is_message ev && to_bool (prop ev "event_id") && negb (strict_eq (prop ev "sender") (JStr me)).

(** The callers pass no [seen]. *)
Definition pendingJoinBackfill (chunk : list jval) (me : string) : list jval * boundary :=
  if negb (truthy me) then ([], NoInput) else
  let timeline := reverse chunk in
  let '(_, inviteIdx, joinIdx) := foldl (mark me) (0%nat, None, None) timeline in
  match inviteIdx with
  | None => ([], Unproven)
  | Some i =>
      let stop := default (length timeline) joinIdx in
      (List.filter (wanted me) (take (stop - S i) (drop (S i) timeline)), match joinIdx with Some _ => InviteJoin | None => InviteEnd end)
  end.

(** The loop of [backfillJoinedRoomOnSide]; a page that cannot be read throws. *)
Fixpoint joinPages (fuel : nat) (page : option string → Page) (me : string) (from : option string) (acc : list jval) : result (list jval) :=
  match fuel with
  | O => Ok acc
  | S fuel =>
      if negb (length acc <? MAX_EVENTS)%nat then Ok acc else
      let p := page from in
      throw_if negb (known p) with "history unreadable" in
      let acc := acc ++ chunk p in
      match pendingJoinBackfill acc me with
      | (_, Unproven) =>
          if Nat.eqb (length (chunk p)) 0 || ended p || bool_decide (page_end p = from) then Ok acc
          else joinPages fuel page me (page_end p) acc
      | _ => Ok acc
      end
  end.

(** What is to be routed. Without a provenance (the sync collector's call) a history that cannot be
    read is answered like an empty one. *)
Definition backfillJoinedRoomOnSide (ready provenance : bool) (page : option string → Page) (me : string) : result (list jval) :=
  if negb ready || negb (truthy me) then if provenance then Throw "representative backfill credential is unavailable" else Ok [] else
  match joinPages PAGES page me None [] with
  | Throw x => if provenance then Throw x else Ok []
  | Ok acc => Ok (pendingJoinBackfill acc me).1
  end.

End budgets.

(** ** The representative's timeline *)

(** One page, event by event: [inl] what is delivered when a known event is met, [inr] what is pending. *)
Fixpoint walk (knownIds : list string) (l : list jval) (pending : list jval) : result (list jval + list jval) :=
  match l with
  | [] => Ok (inr pending)
  | ev :: l =>
      throw_if is_nullish ev with "TypeError" in
      if match prop ev "event_id" with JStr s => inb s knownIds | _ => false end then Ok (inl (reverse pending)) else
      walk knownIds l (if is_message ev && to_bool (prop ev "event_id") then pending ++ [ev] else pending)
  end.

Fixpoint reconcilePages (fuel : nat) (page : string → Page) (knownIds : list string) (cursor : string) (pending : list jval) : result (list jval) :=
  match fuel with
  | O => Throw "unproven_gap_boundary"
  | S fuel =>
      let p := page cursor in
      throw_if negb (known p) with "sync gap history is unavailable" in
      let* r := walk knownIds (chunk p) pending in
      match r with
      | inl delivered => Ok delivered
      | inr pending =>
          match page_end p with
          | Some e => if negb (truthy e) || String.eqb e cursor || Nat.eqb (length (chunk p)) 0 then Throw "unproven_gap_boundary"
                      else reconcilePages fuel page knownIds e pending
          | None => Throw "unproven_gap_boundary"
          end
      end
  end.

(** The events that are handed to [onEvents]. *)
Definition reconcileRepresentativeTimeline (from : option string) (knownEventIds : list string) (page : string → Page) (maxPages : nat) : result (list jval) :=
  match from with
  | Some f => throw_if negb (truthy f) || Nat.eqb (length knownEventIds) 0 with "unproven_gap_boundary" in
              reconcilePages maxPages page knownEventIds f []
  | None => Throw "unproven_gap_boundary"
  end.

End Backfill.

(** ** Fetching what sync left out: what the walks deliver

    Against a room history of which the homeserver's pages are consecutive pieces: a gap recovery that
    succeeds has handed over exactly the messages of the gap; a join backfill routes only what was said
    after the latest invite of all and before the join that answered it; the representative's walk
    delivers what follows the last known event. *)

From Stdlib Require Import ZArith Lia String Ascii.
From stdpp Require Import base list strings.
From S2P Require Import Prelude OMap Json SyncCollector.
Import Backfill.
#[local] Open Scope stdpp_scope.

Lemma take_drop_add {A} (l : list A) i k n : take k (drop i l) ++ take (n - k) (drop (i + k) l) = take (Nat.max k n) (drop i l).
Proof.
  rewrite <-drop_drop. rewrite take_take_drop. f_equal. lia.
Qed.

(** ** The gap *)

Section gap.
Context (LIMIT MAX_EVENTS PAGES : nat) (page : string → nat → Page) (to : string).

(** The events of the room in order, and how many of them lie before a token; [stop] lie before [to]. *)
Context (history : list jval) (before : string → option nat) (stop : nat).

(** The homeserver answers a token with consecutive events from there on, up to [to] at most. *)
Definition serves_forward : Prop := ∀ from limit i, before from = Some i → known (page from limit) = true →
  ∃ k, chunk (page from limit) = take k (drop i history) ∧ (i + k ≤ stop)%nat ∧
    (ended (page from limit) = true → (i + k)%nat = stop) ∧
    ∀ e, page_end (page from limit) = Some e → truthy e = true → before e = Some (i + k)%nat.

(** What an event of a gap must have. *)
Definition proper_event (ev : jval) : Prop := ∃ o id type sender content, ev = JObj o ∧ prop ev "event_id" = JStr id ∧ prop ev "type" = JStr type ∧
  prop ev "sender" = JStr sender ∧ prop ev "content" = JObj content ∧ id ≠ EmptyString ∧ type ≠ EmptyString ∧ sender ≠ EmptyString.

Lemma text_spec v : text v = true → ∃ s, v = JStr s ∧ s ≠ EmptyString.
Proof. destruct v as [| | | |s| | |]; try done. intros H. exists s. split; [done|by intros ->]. Qed.

Lemma well_formed_spec ev : well_formed ev = true → proper_event ev.
Proof.
  unfold well_formed. intros [[[[Ho (id & Hid & Ni)%text_spec]%andb_true_iff (type & Ht & Nt)%text_spec]%andb_true_iff (sender & Hs & Ns)%text_spec]%andb_true_iff Hc]%andb_true_iff.
  destruct (prop ev "content") as [| | | | | |content|] eqn:Ec; try done. destruct ev as [| | | | | |o|] eqn:E; try done. by exists o, id, type, sender, content.
Qed.

Lemma gapPages_exact fuel roomId from i n tokens events : serves_forward → before to = Some stop → before from = Some i →
  gapPages LIMIT MAX_EVENTS fuel page roomId to from n tokens = Ok events →
  events = List.map (SyncCollector.inRoom roomId) (take (stop - i) (drop i history)) ∧ ∀ ev, ev ∈ take (stop - i) (drop i history) → proper_event ev.
Proof.
  intros Hserve Hto. revert from i n tokens events. induction fuel as [|fuel IH]; intros from i n tokens events Hi; cbn [gapPages]; [done|].
  destruct (negb _); [done|]. cbn zeta. set (p := page from _). intros H. destruct (negb (known p)) eqn:Hk; [done|].
  apply negb_false_iff in Hk. destruct (Hserve _ _ _ Hi Hk) as (k & Hc & Hle & Hend & Hnext). fold p in Hc, Hend, Hnext.
  destruct (_ <? _)%nat; [done|]. destruct (existsb _ _) eqn:Hbad; [done|]. rewrite Hc in H, Hbad.
  assert (Hfine : ∀ ev, ev ∈ take k (drop i history) → proper_event ev).
  { intros ev Hev. apply well_formed_spec. destruct (well_formed ev) eqn:Hw; [done|]. exfalso. apply not_true_iff_false in Hbad. apply Hbad, existsb_exists. exists ev.
    split; [by apply list_elem_of_In|by rewrite Hw]. }
  assert (Hlast : (i + k)%nat = stop → List.map (SyncCollector.inRoom roomId) (take k (drop i history)) = List.map (SyncCollector.inRoom roomId) (take (stop - i) (drop i history)) ∧
    ∀ ev, ev ∈ take (stop - i) (drop i history) → proper_event ev).
  { intros E. replace (stop - i)%nat with k by lia. done. }
  destruct (ended p) eqn:He; [injection H as <-; auto|]. destruct (page_end p) as [e|] eqn:Ee; [|unfold ended in He; by rewrite Ee in He].
  assert (Ht : truthy e = true) by (unfold ended in He; rewrite Ee in He; by apply negb_false_iff).
  specialize (Hnext e eq_refl Ht). destruct (String.eqb_spec e to) as [->|_].
  - injection H as <-. apply Hlast. congruence.
  - destruct (inb e tokens); [done|]. apply bind_Ok in H as (rest & Hr & [= <-]). destruct (IH _ _ _ _ _ Hnext Hr) as [-> Hrest]. rewrite <-map_app.
    assert (Et : take (stop - i) (drop i history) = take k (drop i history) ++ take (stop - (i + k)) (drop (i + k) history)).
    { replace (stop - (i + k))%nat with ((stop - i) - k)%nat by lia. rewrite take_drop_add. f_equal. lia. }
    rewrite Et. split; [done|]. intros ev [Hev|Hev]%elem_of_app; auto.
Qed.

(** C31. A gap is only taken off the list when it has really been filled: when the recovery of a gap
    succeeds, what it handed over are exactly the messages of the room between the two tokens, each once
    and in order, and, if there are any, the router has answered 200 for them; and no event of the gap,
    message or not, was malformed: each is an object with an id, a type and a sender that are texts and
    not empty, and with an object for its content. *)
Theorem gap_recovery_is_exact ready router roomId from queuedAt i messages :
  serves_forward → before from = Some i → before to = Some stop →
  backfillSyncGapOnSide LIMIT MAX_EVENTS PAGES ready page router roomId (Some (SyncCollector.MkPending SyncCollector.KGap (Some from) (Some to) queuedAt)) = Ok messages →
  messages = List.filter (λ ev, strict_eq (prop ev "type") (JStr "m.room.message")) (List.map (SyncCollector.inRoom roomId) (take (stop - i) (drop i history))) ∧
  (∀ ev, ev ∈ take (stop - i) (drop i history) → proper_event ev) ∧
  (messages = [] ∨ router messages = Some 200).
Proof.
  intros Hs Hi Hto. unfold backfillSyncGapOnSide. destruct (_ || _); [done|]. destruct (negb ready); [done|].
  intros (events & He & H)%bind_Ok. destruct (_ && _) eqn:Hc; [done|]. injection H as <-. destruct (gapPages_exact _ _ _ _ _ _ _ Hs Hto Hi He) as [-> Hfine]. split; [done|]. split; [done|].
  apply andb_false_iff in Hc as [Hc|Hc].
  - left. by apply negb_false_iff, Nat.eqb_eq, nil_length_inv in Hc.
  - right. by apply negb_false_iff, bool_decide_eq_true in Hc.
Qed.
End gap.

(** ** The join *)

Section join.
Context (me : string).

Definition invited (ev : jval) : bool := strict_eq (membershipOf me ev) (JStr "invite").
Definition joined (ev : jval) : bool := strict_eq (membershipOf me ev) (JStr "join").

(** What the marks say about a timeline. *)
Definition marked (l : list jval) (inviteIdx joinIdx : option nat) : Prop :=
  match inviteIdx with
  | None => joinIdx = None ∧ ∀ y, y ∈ l → invited y = false
  | Some i => ∃ A x B R, l = A ++ x :: B ++ R ∧ i = length A ∧ invited x = true ∧
      (∀ y, y ∈ B ++ R → invited y = false) ∧ (∀ y, y ∈ B → joined y = false) ∧
      match joinIdx with None => R = [] | Some j => j = (length A + S (length B))%nat ∧ ∃ y C, R = y :: C ∧ joined y = true end
  end.

Lemma mark_spec l : ∃ inviteIdx joinIdx, foldl (mark me) (0%nat, None, None) l = (length l, inviteIdx, joinIdx) ∧ marked l inviteIdx joinIdx.
Proof.
  induction l as [|z l IH] using rev_ind; [exists None, None; split; [done|]; split; [done|]; by intros y ?%elem_of_nil|].
  destruct IH as (v & j & IH & Hm). rewrite foldl_app, IH, length_app. cbn [foldl length mark]. rewrite Nat.add_1_r.
  assert (Hkeep : invited z = false → (v ≠ None → j = None → joined z = false) → marked (l ++ [z]) v j).
  { intros Hz Hj. destruct v as [i|].
    - destruct Hm as (A & x & B & R & -> & -> & Hx & Hinv & Hjoin & HR). exists A, x. destruct j as [j|].
      + destruct HR as (-> & y & C & -> & Hy). exists B, (y :: C ++ [z]). split_and!; try done; [by rewrite <-!app_assoc, <-app_comm_cons, <-app_assoc| |eauto].
        intros y' Hy'. rewrite app_comm_cons, app_assoc in Hy'. apply elem_of_app in Hy' as [Hy'| ->%list_elem_of_singleton]; [by apply Hinv|done].
      + subst R. rewrite app_nil_r in *. exists (B ++ [z]), []. rewrite app_nil_r. split_and!; try done; [by rewrite <-app_assoc| |];
          intros y' [Hy'| ->%list_elem_of_singleton]%elem_of_app; auto.
    - destruct Hm as [-> Hm]. split; [done|]. intros y [Hy| ->%list_elem_of_singleton]%elem_of_app; auto. }
  unfold invited, joined in *. destruct (membershipOf me z) as [| | | |m| | |] eqn:Ez; try (exists v, j; split; [done|]; by apply Hkeep).
  cbn [strict_eq] in Hkeep. destruct (String.eqb_spec m "invite") as [->|Hni].
  - exists (Some (length l)), None. split; [done|]. exists l, z, [], []. split_and!; try done; [unfold invited; by rewrite Ez|by intros y ?%elem_of_nil..].
  - destruct (String.eqb_spec m "join") as [->|Hnj]; [|exists v, j; split; [done|]; by apply Hkeep].
    destruct v as [i|]; [|exists None, j; split; [done|]; by apply Hkeep]. destruct j as [j|]; [exists (Some i), (Some j); split; [done|]; by apply Hkeep|].
    exists (Some i), (Some (length l)). split; [done|]. destruct Hm as (A & x & B & R & -> & -> & Hx & Hinv & Hjoin & ->). rewrite app_nil_r in *.
    exists A, x, B, [z]. split_and!; try done; [by rewrite <-app_assoc| |rewrite length_app; cbn; lia|exists z, []; split; [done|]; unfold joined; by rewrite Ez].
    intros y [Hy| ->%list_elem_of_singleton]%elem_of_app; [auto|]. unfold invited. by rewrite Ez.
Qed.

(** What was said since the latest invite and before the join that followed it. *)
Definition since_invite (timeline evs : list jval) : Prop := ∃ A x B R, timeline = A ++ x :: B ++ R ∧ invited x = true ∧
  (∀ y, y ∈ B ++ R → invited y = false) ∧ (∀ y, y ∈ B → joined y = false) ∧ (R = [] ∨ ∃ y C, R = y :: C ∧ joined y = true) ∧
  evs = List.filter (wanted me) B.

Lemma pending_spec chunk : truthy me = true → match pendingJoinBackfill chunk me with
  | (evs, Unproven) => evs = [] ∧ ∀ y, y ∈ reverse chunk → invited y = false
  | (evs, NoInput) => False
  | (evs, _) => since_invite (reverse chunk) evs
  end.
Proof.
  intros Hme. unfold pendingJoinBackfill. rewrite Hme. cbn [negb]. destruct (mark_spec (reverse chunk)) as (v & j & -> & Hm).
  destruct v as [i|]; [|by destruct Hm]. destruct Hm as (A & x & B & R & E & -> & Hx & Hinv & Hjoin & HR).
  assert (Htake : take (default (length (reverse chunk)) j - S (length A)) (drop (S (length A)) (reverse chunk)) = B).
  { rewrite E. rewrite (cons_middle x A (B ++ R)), app_assoc, drop_app_length' by (rewrite length_app; cbn; lia). destruct j as [j|]; cbn [default].
    - destruct HR as [-> _]. replace (_ - _)%nat with (length B) by (cbn; lia). by rewrite take_app_length.
    - subst R. rewrite app_nil_r. apply take_ge. rewrite !length_app. cbn. lia. }
  rewrite Htake. destruct j as [j|]; exists A, x, B, R; split_and!; try done; [right; by destruct HR|by left].
Qed.

Context (LIMIT MAX_EVENTS PAGES : nat) (page : option string → Page).

(** The room's timeline, oldest first, and how many of its events a token has behind it, newest first. *)
Context (timeline : list jval) (behind : option string → option nat).

Definition serves_backward : Prop := behind None = Some 0%nat ∧ ∀ from i, behind from = Some i → known (page from) = true →
  ∃ k, chunk (page from) = take k (drop i (reverse timeline)) ∧ ∀ e, page_end (page from) = Some e → truthy e = true → behind (Some e) = Some (i + k)%nat.

Lemma joinPages_suffix fuel from i acc acc' : serves_backward → behind from = Some i → acc = take i (reverse timeline) →
  joinPages MAX_EVENTS fuel page me from acc = Ok acc' → ∃ n, acc' = take n (reverse timeline).
Proof.
  intros [_ Hserve]. revert from i acc. induction fuel as [|fuel IH]; intros from i acc Hi Hacc; cbn [joinPages]; [intros [= <-]; eauto|].
  destruct (negb _); [intros [= <-]; eauto|]. cbn zeta. destruct (negb (known _)) eqn:Hk; [done|]. apply negb_false_iff in Hk.
  destruct (Hserve _ _ Hi Hk) as (k & Hc & Hnext). assert (Hacc' : acc ++ chunk (page from) = take (i + k) (reverse timeline)).
  { by rewrite Hacc, Hc, take_take_drop. }
  destruct (pendingJoinBackfill _ _) as [evs b]. destruct b; try (intros [= <-]; eauto; fail).
  destruct (_ || _) eqn:Hstop; [intros [= <-]; eauto|]. apply orb_false_iff in Hstop as [[_ He]%orb_false_iff _].
  unfold ended in He. destruct (page_end (page from)) as [e|] eqn:Ee; [|done]. apply negb_false_iff in He. apply (IH _ _ _ (Hnext e eq_refl He)). done.
Qed.

(** A backfill on joining executes nothing that was not addressed to this join: whatever the pages
    and the budget, the messages it routes are those between the latest invite in the whole timeline of
    the room and the join that follows it (or the end), in order and without the member's own; where that
    invite is not within reach it routes nothing. *)
Theorem join_backfill_routes_only_since_invite ready provenance evs :
  serves_backward → backfillJoinedRoomOnSide MAX_EVENTS PAGES ready provenance page me = Ok evs → evs = [] ∨ since_invite timeline evs.
Proof.
  intros Hs. unfold backfillJoinedRoomOnSide. destruct (_ || _) eqn:Hready; [destruct provenance; [done|intros [= <-]; by left]|].
  apply orb_false_iff in Hready as [_ Hme%negb_false_iff]. destruct (joinPages _ _ _ _ _ _) as [acc|x] eqn:Ej; [|destruct provenance; [done|intros [= <-]; by left]].
  intros [= <-]. destruct (joinPages_suffix _ _ _ _ _ Hs (proj1 Hs) (eq_sym (take_0 _)) Ej) as [n ->].
  pose proof (pending_spec (take n (reverse timeline)) Hme) as H. destruct (pendingJoinBackfill _ _) as [evs b]. cbn [fst].
  assert (Hsuffix : ∃ P, timeline = P ++ reverse (take n (reverse timeline))).
  { exists (reverse (drop n (reverse timeline))). by rewrite <-reverse_app, take_drop, reverse_involutive. }
  destruct Hsuffix as [P HP]. assert (Hlift : since_invite (reverse (take n (reverse timeline))) evs → since_invite timeline evs).
  { intros (A & x & B & R & E & Hrest). exists (P ++ A), x, B, R. split; [|done]. by rewrite HP, E, <-app_assoc. }
  destruct b; [done|left; by destruct H|right; auto..].
Qed.
End join.

(** ** The representative's timeline *)

Section timeline.
Context (knownIds : list string) (page : string → Page) (timeline : list jval) (behind : string → option nat).

Definition seen_before (ev : jval) : bool := match prop ev "event_id" with JStr s => inb s knownIds | _ => false end.
Definition kept (ev : jval) : bool := is_message ev && to_bool (prop ev "event_id").

Definition serves_back : Prop := ∀ from i, behind from = Some i → known (page from) = true →
  ∃ k, chunk (page from) = take k (drop i (reverse timeline)) ∧ ∀ e, page_end (page from) = Some e → truthy e = true → behind e = Some (i + k)%nat.

Lemma reconcile_walk_spec l pending r : walk knownIds l pending = Ok r →
  match r with
  | inr p => (∀ y, y ∈ l → seen_before y = false) ∧ p = pending ++ List.filter kept l
  | inl d => ∃ l1 k l2, l = l1 ++ k :: l2 ∧ seen_before k = true ∧ (∀ y, y ∈ l1 → seen_before y = false) ∧ d = reverse (pending ++ List.filter kept l1)
  end.
Proof.
  revert pending. induction l as [|ev l IH]; intros pending; cbn [walk]; [intros [= <-]; split; [by intros y ?%elem_of_nil|by rewrite app_nil_r]|].
  intros H. destruct (is_nullish ev); [done|]. fold (seen_before ev) in H. destruct (seen_before ev) eqn:Es.
  - injection H as <-. exists [], ev, l. split_and!; try done; [by intros y ?%elem_of_nil|by rewrite app_nil_r].
  - assert (Hstep : ∀ l', (if kept ev then pending ++ [ev] else pending) ++ List.filter kept l' = pending ++ List.filter kept (ev :: l')).
    { intros l'. cbn. destruct (kept ev); [by rewrite <-app_assoc|done]. }
    fold (kept ev) in H. specialize (IH _ H). destruct r as [d|p].
    + destruct IH as (l1 & k & l2 & -> & Hk & Hno & ->). exists (ev :: l1), k, l2. split_and!; try done; [|by rewrite Hstep].
      intros y [->|Hy]%elem_of_cons; auto.
    + destruct IH as [Hno ->]. split; [|by rewrite Hstep]. intros y [->|Hy]%elem_of_cons; auto.
Qed.

Lemma reconcilePages_spec fuel cursor i0 n delivered : serves_back → behind cursor = Some (i0 + n)%nat →
  let past := take n (drop i0 (reverse timeline)) in (∀ y, y ∈ past → seen_before y = false) →
  reconcilePages fuel page knownIds cursor (List.filter kept past) = Ok delivered →
  ∃ l1 k l2, drop i0 (reverse timeline) = l1 ++ k :: l2 ∧ seen_before k = true ∧ (∀ y, y ∈ l1 → seen_before y = false) ∧ delivered = reverse (List.filter kept l1).
Proof.
  intros Hserve. revert cursor n. induction fuel as [|fuel IH]; intros cursor n Hi past Hpast; cbn [reconcilePages]; [done|].
  cbn zeta. intros H. destruct (negb (known _)) eqn:Hk; [done|]. apply negb_false_iff in Hk. destruct (Hserve _ _ Hi Hk) as (k & Hc & Hnext).
  apply bind_Ok in H as (r & Hw & H). apply reconcile_walk_spec in Hw. rewrite Hc in Hw, H.
  assert (Hmore : past ++ take k (drop (i0 + n) (reverse timeline)) = take (n + k) (drop i0 (reverse timeline))) by (unfold past; rewrite <-drop_drop; by rewrite take_take_drop).
  destruct r as [d|p].
  - injection H as <-. destruct Hw as (l1 & x & l2 & E & Hx & Hno & ->). exists (past ++ l1), x, (l2 ++ drop (n + k) (drop i0 (reverse timeline))).
    split_and!; [|done|intros y [Hy|Hy]%elem_of_app; auto|by rewrite List.filter_app].
    rewrite <-(take_drop (n + k) (drop i0 (reverse timeline))) at 1. rewrite <-Hmore, E, <-!app_assoc, <-app_comm_cons. done.
  - destruct Hw as [Hno ->]. destruct (page_end (page cursor)) as [e|] eqn:Ee; [|done]. destruct (_ || _) eqn:Hstop; [done|].
    apply orb_false_iff in Hstop as [[He%negb_false_iff _]%orb_false_iff _]. rewrite <-List.filter_app, Hmore in H.
    apply (IH e (n + k)%nat); [by rewrite Nat.add_assoc; apply Hnext| |exact H].
    rewrite <-Hmore. intros y [Hy|Hy]%elem_of_app; auto.
Qed.

Lemma filter_reverse {A} (f : A → bool) l : List.filter f (reverse l) = reverse (List.filter f l).
Proof.
  induction l as [|x l IH]; [done|]. rewrite reverse_cons, List.filter_app, IH. cbn [List.filter]. destruct (f x); [by rewrite reverse_cons|by rewrite app_nil_r].
Qed.

(** The representative's recovery neither guesses nor repeats: when it succeeds, the timeline up to
    the token from which it started has a last event that was observed before, and what it delivers are
    exactly the messages after that event, in order; otherwise it fails and the gap stays recorded. *)
Theorem representative_recovery_is_exact from i maxPages delivered :
  serves_back → behind from = Some i → reconcileRepresentativeTimeline (Some from) knownIds page maxPages = Ok delivered →
  ∃ A k B, take (length timeline - i) timeline = A ++ k :: B ∧ seen_before k = true ∧ (∀ y, y ∈ B → seen_before y = false) ∧ delivered = List.filter kept B.
Proof.
  intros Hs Hi. unfold reconcileRepresentativeTimeline. destruct (_ || _); [done|]. intros H.
  destruct (reconcilePages_spec maxPages from i 0 delivered Hs) as (l1 & k & l2 & E & Hk & Hno & ->); [by rewrite Nat.add_0_r|by intros y ?%elem_of_nil|exact H|].
  exists (reverse l2), k, (reverse l1). split_and!; [|done|intros y Hy; apply Hno; by apply elem_of_reverse|by rewrite filter_reverse].
  assert (Et : take (length timeline - i) timeline = reverse (drop i (reverse timeline))).
  { rewrite <-(reverse_involutive timeline) at 2. rewrite <-(take_drop i (reverse timeline)) at 1. rewrite reverse_app.
    assert (Hlen : length (reverse (drop i (reverse timeline))) = (length timeline - i)%nat) by (rewrite length_reverse, length_drop, length_reverse; lia).
    rewrite <-Hlen. apply take_app_length. }
  rewrite Et, E, reverse_app, reverse_cons, <-app_assoc. done.
Qed.
End timeline.

(** ** Concrete histories *)

Definition sample_event (type id : string) (content : list (string * jval)) : jval :=
  JObj [("type", JStr type); ("event_id", JStr id); ("sender", JStr "@u:h"); ("state_key", JStr "@me:h"); ("content", JObj content)].
Definition sample_message (id : string) : jval := sample_event "m.room.message" id [].
Definition sample_member (id m : string) : jval := sample_event "m.room.member" id [("membership", JStr m)].

(** Two pages, of which the second ends at the upper token. *)
Lemma gap_recovery_is_exact_witness :
  let history := [sample_message "1"; sample_member "2" "join"; sample_message "3"; sample_message "4"] in
  let before t := if String.eqb t "a" then Some 0%nat else if String.eqb t "b" then Some 2%nat else if String.eqb t "c" then Some 3%nat else None in
  let page t (_ : nat) := if String.eqb t "a" then MkPage true [sample_message "1"; sample_member "2" "join"] (Some "b")
                          else if String.eqb t "b" then MkPage true [sample_message "3"] (Some "c") else MkPage true [] (Some "c") in
  let router (_ : list jval) := Some 200 in
  ∃ messages, backfillSyncGapOnSide 50 500 5 true page router "!r:h" (Some (SyncCollector.MkPending SyncCollector.KGap (Some "a") (Some "c") 7)) = Ok messages ∧
    length messages = 2%nat ∧ messages = List.filter (λ ev, strict_eq (prop ev "type") (JStr "m.room.message")) (List.map (SyncCollector.inRoom "!r:h") (take (3 - 0) (drop 0 history))).
Proof.
  intros history before page router. eexists. split; [vm_compute; reflexivity|]. split; [vm_compute; reflexivity|].
  apply (gap_recovery_is_exact 50 500 5 page "c" history before 3 true router "!r:h" "a" 7 0); [|reflexivity..].
  intros t limit i. unfold before, page. destruct (String.eqb t "a"); [|destruct (String.eqb t "b"); [|destruct (String.eqb t "c"); [|done]]]; intros [= <-] _;
    [exists 2%nat|exists 1%nat|exists 0%nat]; (split; [reflexivity|]); (split; [lia|]); (split; [done|]); by intros e [= <-] _.
Defined.

(** A message of an earlier membership, the invite, two messages, the join, and one after it. *)
Lemma join_backfill_routes_only_since_invite_witness :
  let timeline := [sample_message "1"; sample_member "2" "invite"; sample_message "3"; sample_message "4"; sample_member "5" "join"; sample_message "6"] in
  let behind (t : option string) := match t with None => Some 0%nat | _ => None end in
  let page (_ : option string) := MkPage true (reverse timeline) None in
  let evs := [sample_message "3"; sample_message "4"] in
  backfillJoinedRoomOnSide 500 5 true false page "@me:h" = Ok evs ∧ (evs = [] ∨ since_invite "@me:h" timeline evs).
Proof.
  intros timeline behind page evs. assert (E : backfillJoinedRoomOnSide 500 5 true false page "@me:h" = Ok evs) by (vm_compute; reflexivity).
  split; [exact E|]. apply (join_backfill_routes_only_since_invite "@me:h" 500 5 page timeline behind true false evs); [|exact E].
  split; [reflexivity|]. intros [t|] i; [done|]. intros [= <-] _. exists 6%nat. split; [vm_compute; reflexivity|done].
Defined.

(** The newest event of the timeline lies after the token; the oldest is known. *)
Lemma representative_recovery_is_exact_witness :
  let timeline := [sample_message "0"; sample_message "1"; sample_member "2" "join"; sample_message "3"; sample_message "4"] in
  let behind t := if String.eqb t "p" then Some 1%nat else if String.eqb t "q" then Some 3%nat else None in
  let page t := if String.eqb t "p" then MkPage true [sample_message "3"; sample_member "2" "join"] (Some "q") else MkPage true [sample_message "1"; sample_message "0"] None in
  let delivered := [sample_message "1"; sample_message "3"] in
  reconcileRepresentativeTimeline (Some "p") ["0"] page 10 = Ok delivered ∧
  ∃ A k B, take (length timeline - 1) timeline = A ++ k :: B ∧ seen_before ["0"] k = true ∧ (∀ y, y ∈ B → seen_before ["0"] y = false) ∧ delivered = List.filter kept B.
Proof.
  intros timeline behind page delivered. assert (E : reconcileRepresentativeTimeline (Some "p") ["0"] page 10 = Ok delivered) by (vm_compute; reflexivity).
  split; [exact E|]. apply (representative_recovery_is_exact ["0"] page timeline behind "p" 1 10 delivered); [|reflexivity|exact E].
  intros t i. unfold behind, page. destruct (String.eqb t "p"); [|destruct (String.eqb t "q"); [|done]]; intros [= <-] _; exists 2%nat;
    (split; [vm_compute; reflexivity|]); [by intros e [= <-] _|done].
Defined.
