(* ===== verification/SideProvenance.v ===== *)
(** * Side provenance ([lib/side-provenance.js], and the gate of [bridge-matrix.js])

    What an event of a project side must prove before anything is done with it: an origin that agrees
    with the authenticated side and the loaded registration, a room in which the side's representative
    is joined (or the first invite to it), and an identity to be claimed. The decimal text of a number is
    a parameter, as elsewhere. *)

From Stdlib Require Import ZArith QArith Lia String Ascii.
From stdpp Require Import base list strings.
From S2P Require Import Prelude OMap Json.
#[local] Open Scope stdpp_scope.

Module SideProvenance.

(** A [SideProvenanceError]. *)
Record Refusal : Type := MkRefusal { code : string; retryable : bool; retryAfterMs : option Z }.
Definition terminal (c : string) : Refusal := MkRefusal c false None.
Definition retry (c : string) : Refusal := MkRefusal c true None.

Definition INTAKE_MODES : list string := ["push"; "edge"; "sync"].

Section provenance.
Context (num_str : num → string).

(** [String(v ?? '')] *)
Definition str_of (v : jval) : string := if is_nullish v then EmptyString else to_str num_str v.

Definition normalizeSideKey (v : jval) : string := lower (trim (str_of v)).

Definition is_mode (v : jval) : bool := match v with JStr m => inb m INTAKE_MODES | _ => false end.

(** [typeof v === 'object'] and not null. *)
Definition objectlike (v : jval) : bool := match v with JObj _ | JArr _ => true | _ => false end.

(** An entry of the loaded registry; a member that is not there is [undefined]. *)
Record Registered : Type := MkRegistered { registration : jval; serverName : jval; representative : jval }.

Definition assertTransportProvenanceConsistency (provenance authenticatedSideId : jval) (snapshotEntry : option Registered) : Refusal + unit :=
  if negb (objectlike provenance) then inl (retry "invalid_transport_provenance") else
  if negb (is_mode (prop provenance "mode")) then inl (retry "invalid_transport_provenance") else
  let claimed := normalizeSideKey (prop provenance "sideId") in
  let authenticated := normalizeSideKey authenticatedSideId in
  if negb (truthy claimed) || negb (String.eqb claimed authenticated) then inl (retry "invalid_transport_provenance") else
  match snapshotEntry with
  | Some r => if negb (String.eqb (str_of (registration r)) (to_str num_str (prop provenance "registration"))) then inl (retry "invalid_transport_provenance") else inr tt
  | None => inr tt
  end.

Definition trimmed (v : jval) : string := match v with JStr s => trim s | _ => EmptyString end.

Definition buildSideProvenance (registration sideId mode : jval) : Refusal + jval :=
  let reg := trimmed registration in
  let side := lower (trimmed sideId) in
  if negb (truthy reg) then inl (terminal "missing_provenance") else
  if negb (truthy side) then inl (terminal "missing_provenance") else
  if negb (is_mode mode) then inl (terminal "missing_provenance") else
  inr (JObj [("registration", JStr reg); ("sideId", JStr side); ("mode", mode)]).

Definition representativeMxidFor (side : Registered) : Refusal + string :=
  let mxid := trimmed (prop (representative side) "mxid") in
  if truthy mxid then inr mxid else inl (retry "room_relation_unavailable").

(** ** Shapes *)

(** [/^[sigil][^:\s(@)]+:[^\s(@)]+$/] on a text; [bad] are the characters that neither part has. *)
Definition shaped (sigil : ascii) (bad : ascii → bool) (s : string) : bool :=
  match s with
  | String c rest =>
      Ascii.eqb c sigil &&
      match index_of ":" rest with
      | Some n =>
          let name := slice_to n rest in
          let server := drop_str (S n) rest in
          truthy name && truthy server && negb (string_exists bad name) && negb (string_exists bad server)
      | None => false
      end
  | EmptyString => false
  end.

Definition isFullMxid (s : string) : bool := shaped "@" (λ c, is_ws c || Ascii.eqb c "@") (trim s).

Definition isValidRoomId (v : jval) : bool := match v with JStr s => shaped "!" is_ws (trim s) | _ => false end.

Definition is_invite (event : jval) : bool :=
  strict_eq (prop event "type") (JStr "m.room.member") && strict_eq (prop (prop event "content") "membership") (JStr "invite").

Definition isFirstInviteBootstrap (event : jval) (representativeMxid : string) : bool :=
  is_invite event && isFullMxid representativeMxid && String.eqb (trim (str_of (prop event "state_key"))) (trim representativeMxid).

(** ** The room relation *)

Inductive relation : Type := BootstrapInvite | RepresentativeJoined.

(** What the lookup answers: a read, or [None] where it threw. *)
Record Read : Type := MkRead { complete : bool; membership : string; readRetryAfter : option Z }.

Definition assertRoomRelation (event roomId : jval) (representativeMxid : string) (memberLookup : jval → string → option Read) : Refusal + relation :=
  if negb (isValidRoomId roomId) then inl (terminal "invalid_room_id") else
  if isFirstInviteBootstrap event representativeMxid then inr BootstrapInvite else
  match memberLookup roomId representativeMxid with
  | None => inl (retry "room_relation_unavailable")
  | Some read =>
      if negb (complete read) then
        inl (MkRefusal "room_relation_unavailable" true (match readRetryAfter read with Some r => if 0 <=? r then Some r else None | None => None end)) else
      if String.eqb (membership read) "join" then inr RepresentativeJoined else inl (terminal "room_side_mismatch")
  end.

(** ** Claims *)

(** [`${registration}|${roomId}|${eventId}`] *)
Definition eventClaimKey (registration roomId eventId : string) : string := registration +:+ "|" +:+ roomId +:+ "|" +:+ eventId.

(** The values of [JSON.parse] have no duplicate keys; the order of [sort()] is that of code units. *)
Fixpoint canonicalJson (v : jval) : string :=
  match v with
  | JArr l => "[" +:+ join "," (List.map canonicalJson l) +:+ "]"
  | JObj o =>
      "{" +:+ join "," (List.map (λ p, quoted p.1 +:+ ":" +:+ p.2)
        (stable_sort (λ p q, String.ltb p.1 q.1) ((fix go o := match o with [] => [] | (k, x) :: o => (k, canonicalJson x) :: go o end) o))) +:+ "}"
  | _ => default "null" (stringify num_str v)
  end.

Definition idlessInviteClaimKey (registration roomId : string) (event : jval) : Refusal + string :=
  let sender := trim (str_of (prop event "sender")) in
  let stateKey := trim (str_of (prop event "state_key")) in
  let member := match prop (prop event "content") "membership" with JStr s => s | _ => EmptyString end in
  if negb (isFullMxid sender) || negb (isFullMxid stateKey) || negb (truthy member) then inl (terminal "invalid_event_identity") else
  let stripped := nullish_or (prop (prop event "unsigned") "invite_room_state") (nullish_or (prop event "invite_room_state") (JArr [])) in
  let authRelevant := List.map (λ st, JObj [("type", prop st "type"); ("state_key", JStr (str_of (prop st "state_key"))); ("content", nullish_or (prop st "content") JNull)])
    (List.filter (λ st, match prop st "type" with JStr _ => true | _ => false end) (match stripped with JArr l => l | _ => [] end)) in
  inr (canonicalJson (JObj [
    ("k", JStr "idless-invite"); ("registration", JStr registration); ("room", JStr roomId); ("sender", JStr sender); ("state_key", JStr stateKey);
    ("membership", JStr member); ("content", nullish_or (prop event "content") JNull); ("stripped", JArr authRelevant)])).

Definition claimKeyFor (registration roomId : string) (event : jval) : Refusal + string :=
  let eventId := trimmed (prop event "event_id") in
  if truthy eventId then inr (eventClaimKey registration roomId eventId) else
  if is_invite event then idlessInviteClaimKey registration roomId event else
  inl (terminal "invalid_event_identity").

(** ** The gate ([assertSideProvenanceForEvent]) *)

(** What the gate knows: the registry ([None] before the first load), the generation of the acting
    credential ([None] where there is none; its registration may be missing), and what the member read
    answers. *)
Record Gate : Type := MkGate {
  snapshot : option (omap Registered); acting : option (option string); joinedMembers : jval → bool * list string * string * option Z;
}.

(** [/M_FORBIDDEN|HTTP 403/i] *)
Definition mentions_forbidden (reason : string) : bool :=
  let l := lower reason in
  let fix at_any (s : string) := String.prefix "m_forbidden" s || String.prefix "http 403" s || match s with String _ s => at_any s | EmptyString => false end in at_any l.

(** The lookup that production uses; the read is known with its members, or has a reason (a read that
    throws has its message for a reason). *)
Definition memberLookup (g : Gate) (roomId : jval) (mxid : string) : option Read :=
  let '(known, members, reason, retryAfter) := joinedMembers g roomId in
  if known then Some (MkRead true (if existsb (λ m, String.eqb (trim m) mxid) members then "join" else "leave") None)
  else if mentions_forbidden reason then Some (MkRead true "leave" None) else Some (MkRead false EmptyString retryAfter).

(** [Rejected] is a terminal verdict, an error is one to be retried. *)
Inductive verdict : Type := Rejected (c : string) | Claim (key : string).

(** A refusal of a check: terminal ones reject the event. *)
Definition refused (r : Refusal) : Refusal + verdict := if retryable r then inl r else inr (Rejected (code r)).

(** Up to the look at the claims. *)
Definition assertSideProvenanceForEvent (g : Gate) (provenance sideId roomId event : jval) : Refusal + verdict :=
  match assertTransportProvenanceConsistency provenance sideId None with
  | inl r => refused r
  | inr _ =>
      match snapshot g with
      | None => inl (retry "side_registry_unavailable")
      | Some sides =>
          match om_get (normalizeSideKey (prop provenance "sideId")) sides with
          | None => inr (Rejected "side_not_registered")
          | Some registered =>
              match assertTransportProvenanceConsistency provenance sideId (Some registered) with
              | inl r => refused r
              | inr _ =>
                  if negb (to_bool (prop (representative registered) "mxid")) then inr (Rejected "side_incomplete_registration") else
                  match representativeMxidFor registered with
                  | inl r => inl r
                  | inr mxid =>
                      match acting g with
                      | None => inl (retry "room_relation_unavailable")
                      | Some generation =>
                          if match generation with
                             | Some r => truthy r && to_bool (registration registered) && negb (strict_eq (JStr r) (registration registered))
                             | None => false end
                          then inl (retry "acting_registration_stale") else
                          match assertRoomRelation event roomId mxid (memberLookup g) with
                          | inl r => refused r
                          | inr _ =>
                              match claimKeyFor (to_str num_str (prop provenance "registration")) (to_str num_str roomId) event with
                              | inl _ => inr (Rejected "invalid_event_identity")
                              | inr key => inr (Claim key)
                              end
                          end
                      end
                  end
              end
          end
      end
  end.

End provenance.
End SideProvenance.
