(* ===== verification/Ingress.v ===== *)
(** * The ingress of project sides ([handleAppserviceEvents] of [bridge-matrix.js])

    Transactions arrive over several intakes and are handled concurrently: each is a thread that goes
    through its events, and between two [await]s nothing else runs. An event that the gate admits is
    claimed before its typed path runs; a concurrent delivery of the same event waits for the leader, and
    takes over if the leader fails. The typed path itself is an oracle: it succeeds or throws. *)

From Stdlib Require Import ZArith Lia String Ascii.
From stdpp Require Import base list strings gmap relations.
From S2P Require Import Prelude OMap Json SideProvenance.
#[local] Open Scope stdpp_scope.

Module Ingress.

(** The bound on the completed claims. *)
Definition RETAINED : nat := Z.to_nat 4096.

(** ** What becomes of an event before its claim *)

(** [Skip] passes over the event; [Retry] makes the whole batch fail; [Admit] goes to the claims, and an
    encrypted event no further than a warning there. *)
Inductive gated : Type := Skip | Retry | Admit (key : string) (encrypted : bool).

(** The handling of a direct chat, by the dedicated devices: [None] where the event belongs to none,
    otherwise whether the side owns it. *)
Definition direct (num_str : num → string) (g : SideProvenance.Gate) (provenance sideId : jval) (owned : option bool) : option gated :=
  match owned with
  | None => None
  | Some mine =>
      match SideProvenance.snapshot g with
      | Some sides =>
          match om_get (SideProvenance.normalizeSideKey num_str sideId) sides with
          | Some registered =>
              match SideProvenance.assertTransportProvenanceConsistency num_str provenance sideId (Some registered) with
              | inl _ => Some Retry
              | inr _ => if mine then Some Skip else None
              end
          | None => None
          end
      | None => None
      end
  end.

(** One turn of the loop of [handleAppserviceEvents], up to the claims. *)
Definition gate (num_str : num → string) (g : SideProvenance.Gate) (provenance sideId event : jval) (owned : option bool) : gated :=
  let roomId := prop event "room_id" in
  if negb (to_bool roomId) then Skip else
  match direct num_str g provenance sideId owned with
  | Some r => r
  | None =>
      match SideProvenance.assertSideProvenanceForEvent num_str g provenance sideId roomId event with
      | inl _ => Retry
      | inr (SideProvenance.Rejected _) => Skip
      | inr (SideProvenance.Claim key) => Admit key (strict_eq (prop event "type") (JStr "m.room.encrypted"))
      end
  end.

(** The representative's first invites go first. *)
Definition bootstrap (num_str : num → string) (representativeMxid : string) (event : jval) : bool :=
  to_bool (prop event "room_id") && truthy representativeMxid && SideProvenance.is_invite event &&
  String.eqb (trim (SideProvenance.str_of num_str (prop event "state_key"))) representativeMxid.

Definition ordered (num_str : num → string) (representativeMxid : string) (events : list jval) : list jval :=
  List.filter (bootstrap num_str representativeMxid) events ++ List.filter (λ e, negb (bootstrap num_str representativeMxid e)) events.

(** ** Claims *)

(** An attempt has a number; [Inflight] names the one whose signal followers await. *)
Inductive claim : Type := Completed | Inflight (attempt : nat).

(** Where a thread waits: before its next event; to resume after the gate's verdict; for the signal of
    an attempt; for its own typed path; or it has ended. *)
Inductive pc : Type :=
| Gating
| Entering (key : string)
| Awaiting (attempt : nat) (key : string)
| Running (attempt : nat) (key : string)
| Answered (ok : bool).

(** An event with what the gate knew when it was looked at (the owner of a direct chat included), and, once
    it is done with, what became of it: settled under a key, or skipped. *)
Record Look : Type := MkLook { l_event : jval; l_gate : SideProvenance.Gate; l_owned : option bool }.
Definition nothing : Look := MkLook JUndef (SideProvenance.MkGate None None (λ _, (false, [], EmptyString, None))) None.

(** A delivery: its side and the provenance attached to it, the event it is at ([current]), the events not
    yet begun, and for the record the whole batch and what became of each event so far. *)
Record Thread : Type := MkThread {
  at_ : pc; side : jval; provenance : jval; batch : list jval; current : Look; todo : list jval; passed : list (Look * option string);
}.

(** [sideProvenanceClaims], [sideProvenanceClaimOrder], the signals that were given, and the threads; for
    the record, [successes] are the typed paths that succeeded, latest last, and [past] those of the earlier
    runs of the process. *)
Record State : Type := MkState {
  claims : gmap string claim; order : list string; settled : gmap nat bool; threads : gmap nat Thread; next : nat;
  successes : list string; attempts : gmap nat string; past : list (list string);
}.

(** A process at its start. *)
Definition fresh (runs : list (list string)) : State := MkState ∅ [] ∅ ∅ 0 [] ∅ runs.
Definition init : State := fresh [].

Definition put (t : nat) (th : Thread) (s : State) : State :=
  MkState (claims s) (order s) (settled s) (<[t := th]> (threads s)) (next s) (successes s) (attempts s) (past s).

Definition at_pc (p : pc) (th : Thread) : Thread := MkThread p (side th) (provenance th) (batch th) (current th) (todo th) (passed th).

(** The thread goes on with its next event. *)
Definition settle (key : option string) (th : Thread) : Thread :=
  MkThread Gating (side th) (provenance th) (batch th) nothing (todo th) (passed th ++ [(current th, key)]).
Definition onwards : Thread → Thread := settle None.
Definition satisfied (key : string) : Thread → Thread := settle (Some key).
Definition take_up (l : Look) (rest : list jval) (th : Thread) : Thread :=
  MkThread Gating (side th) (provenance th) (batch th) l rest (passed th).

(** The look at the claims after the gate. *)
Definition look (key : string) (encrypted : bool) (s : State) (th : Thread) : Thread :=
  match claims s !! key with
  | Some Completed => satisfied key th
  | Some (Inflight n) => at_pc (Awaiting n key) th
  | None => if encrypted then onwards th else at_pc (Entering key) th
  end.

(** [executeTypedForClaim] up to its [await]. *)
Definition enter (t : nat) (key : string) (th : Thread) (s : State) : State :=
  match claims s !! key with
  | Some Completed => put t (satisfied key th) s
  | Some (Inflight n) => put t (at_pc (Awaiting n key) th) s
  | None =>
      let n := next s in
      put t (at_pc (Running n key) th)
        (MkState (<[key := Inflight n]> (claims s)) (order s) (settled s) (threads s) (S n) (successes s) (<[n := key]> (attempts s)) (past s))
  end.

(** A follower resumes with the signal of the leader. *)
Definition resume (t n : nat) (key : string) (ok : bool) (th : Thread) (s : State) : State :=
  match claims s !! key with
  | Some Completed => put t (satisfied key th) s
  | _ => if ok then put t (satisfied key th) s else put t (at_pc (Entering key) th) s
  end.

(** [while (order.length > 4096)] the oldest goes, with its claim if that is completed. *)
Fixpoint rotate (fuel : nat) (o : list string) (c : gmap string claim) : list string * gmap string claim :=
  match fuel, o with
  | S fuel, k :: o' =>
      if (RETAINED <? length o)%nat then rotate fuel o' (match c !! k with Some Completed => delete k c | _ => c end) else (o, c)
  | _, _ => (o, c)
  end.

Definition succeed (t n : nat) (key : string) (th : Thread) (s : State) : State :=
  let o := order s ++ [key] in
  let '(o', c') := rotate (length o) o (<[key := Completed]> (claims s)) in
  put t (satisfied key th) (MkState c' o' (<[n := true]> (settled s)) (threads s) (next s) (successes s ++ [key]) (attempts s) (past s)).

Definition fail (t n : nat) (key : string) (th : Thread) (s : State) : State :=
  put t (at_pc (Answered false) th)
    (MkState (delete key (claims s)) (order s) (<[n := false]> (settled s)) (threads s) (next s) (successes s) (attempts s) (past s)).

Section steps.
Context (num_str : num → string).

(** A delivery arrives; the events of a thread pass the gate, whose knowledge may be different each
    time; threads enter, resume, succeed and fail in any order; a restart forgets everything but the record. *)
Inductive step : relation State :=
| s_arrive t sideId provenance mxid events s : threads s !! t = None →
    step s (let batch := ordered num_str mxid events in put t (MkThread Gating sideId provenance batch nothing batch []) s)
| s_gate t th event rest g owned s : threads s !! t = Some th → at_ th = Gating → todo th = event :: rest →
    step s (let th := take_up (MkLook event g owned) rest th in
            match gate num_str g (provenance th) (side th) event owned with
            | Skip => put t (onwards th) s
            | Retry => put t (at_pc (Answered false) th) s
            | Admit key encrypted => put t (look key encrypted s th) s
            end)
| s_enter t th key s : threads s !! t = Some th → at_ th = Entering key → step s (enter t key th s)
| s_resume t th n key ok s : threads s !! t = Some th → at_ th = Awaiting n key → settled s !! n = Some ok → step s (resume t n key ok th s)
| s_succeed t th n key s : threads s !! t = Some th → at_ th = Running n key → step s (succeed t n key th s)
| s_fail t th n key s : threads s !! t = Some th → at_ th = Running n key → step s (fail t n key th s)
| s_answer t th s : threads s !! t = Some th → at_ th = Gating → todo th = [] → step s (put t (at_pc (Answered true) th) s)
| s_restart s : step s (fresh (past s ++ [successes s])).

End steps.
End Ingress.
