(* ===== verification/IngressFacts.v ===== *)
(** * The ingress of project sides: once, and only with proof

    What the gate admits; and for any interleaving of deliveries: the typed path of an event never runs
    twice at once, a success suppresses the repeats, and a batch that is answered well has nothing left
    undone. *)

From Stdlib Require Import ZArith QArith Lia String Ascii.
From stdpp Require Import base list strings gmap relations.
From S2P Require Import Prelude OMap Json SideProvenance Ingress.
Import Ingress.
#[local] Open Scope stdpp_scope.

(** ** Rotation *)

Lemma rotate_spec fuel o c : (length o ≤ fuel)%nat → NoDup o → (∀ k, k ∈ o → c !! k = Some Completed) →
  let r := rotate fuel o c in
  r.1 = drop (length o - RETAINED) o ∧ ∀ k, r.2 !! k = if decide (k ∈ take (length o - RETAINED) o) then None else c !! k.
Proof.
  revert o c. induction fuel as [|fuel IH]; intros o c Hf Hnd Hc; (destruct o as [|x o]; [split; [done|]; intros k; cbn; by rewrite decide_False by apply not_elem_of_nil|]).
  { cbn in Hf. lia. }
  cbn [rotate]. destruct (Nat.ltb_spec RETAINED (length (x :: o))) as [Hlt|Hge].
  - rewrite (Hc x) by (by left). apply NoDup_cons in Hnd as [Hx Hnd]. destruct (IH o (delete x c)) as [E1 E2]; [cbn in Hf; lia|done| |].
    { intros k Hk. rewrite lookup_delete_ne by (by intros ->). apply Hc. by right. }
    assert (En : (length (x :: o) - RETAINED)%nat = S (length o - RETAINED)) by (cbn in *; lia). rewrite En. split; [exact E1|]. intros k. rewrite E2. cbn [take].
    destruct (decide (k ∈ take (length o - RETAINED) o)) as [H|H]; [by rewrite decide_True by (by right)|].
    destruct (decide (k = x)) as [->|Hne]; [by rewrite decide_True, lookup_delete_eq by (by left)|].
    rewrite lookup_delete_ne by done. by rewrite decide_False by (by intros [?|?]%elem_of_cons).
  - replace (length (x :: o) - RETAINED)%nat with 0%nat by lia. split; [done|]. intros k. cbn. by rewrite decide_False by apply not_elem_of_nil.
Qed.

(** ** The invariant *)

Section invariant.
Context (num_str : num → string).

(** The verdict of the gate on an event, with what it knew when it looked. *)
Definition verdict_on (th : Thread) (l : Look) : gated := gate num_str (l_gate l) (provenance th) (side th) (l_event l) (l_owned l).

(** What a thread says about its batch: the events it is done with come first, and each was skipped by
    the gate (or is encrypted), or admitted under a key that has succeeded. *)
Definition judged (succ : list string) (th : Thread) (x : Look * option string) : Prop :=
  match x.2 with
  | Some key => key ∈ succ ∧ ∃ encrypted, verdict_on th x.1 = Admit key encrypted
  | None => verdict_on th x.1 = Skip ∨ ∃ key, verdict_on th x.1 = Admit key true
  end.

Definition events_of (l : list (Look * option string)) : list jval := List.map (λ x, l_event x.1) l.

Definition busy (p : pc) : option string := match p with Entering k | Awaiting _ k | Running _ k => Some k | _ => None end.

Record accounted (succ : list string) (th : Thread) : Prop := MkAccounted {
  ac_batch : at_ th ≠ Answered false → batch th = events_of (passed th) ++ (match busy (at_ th) with Some _ => [l_event (current th)] | None => [] end) ++ todo th;
  ac_judged : ∀ x, x ∈ passed th → judged succ th x;
  ac_current : ∀ key, busy (at_ th) = Some key → ∃ encrypted, verdict_on th (current th) = Admit key encrypted;
  ac_answered : at_ th = Answered true → todo th = [];
}.

Record Inv (s : State) : Prop := MkInv {
  i_order : order s = drop (length (successes s) - RETAINED) (successes s);
  i_spaced : spaced RETAINED (successes s);
  i_completed : ∀ k, claims s !! k = Some Completed ↔ k ∈ order s;
  i_running : ∀ t th n k, threads s !! t = Some th → at_ th = Running n k → claims s !! k = Some (Inflight n) ∧ attempts s !! n = Some k;
  i_single : ∀ t t' th th' n k k', threads s !! t = Some th → threads s !! t' = Some th' → at_ th = Running n k → at_ th' = Running n k' → t = t';
  i_inflight : ∀ k n, claims s !! k = Some (Inflight n) → attempts s !! n = Some k;
  i_waiting : ∀ t th n k, threads s !! t = Some th → at_ th = Awaiting n k → attempts s !! n = Some k;
  i_next : ∀ n k, attempts s !! n = Some k → (n < next s)%nat;
  i_settled : ∀ n, settled s !! n = Some true → ∃ k, attempts s !! n = Some k ∧ k ∈ successes s;
  i_accounted : ∀ t th, threads s !! t = Some th → accounted (successes s) th;
  i_past : ∀ l, l ∈ past s → spaced RETAINED l;
}.

Lemma claims_init runs : (∀ l, l ∈ runs → spaced RETAINED l) → Inv (fresh runs).
Proof.
  intros Hr. split; cbn; try done; try (intros; by rewrite lookup_empty in *).
  intros k. rewrite lookup_empty. split; [done|]. by intros ?%elem_of_nil.
Qed.

(** A thread moves to where it neither runs nor awaits, or awaits an attempt of its key. *)
Lemma inv_put t th s : Inv s →
  match at_ th with Running _ _ => False | Awaiting n k => attempts s !! n = Some k | _ => True end →
  accounted (successes s) th → Inv (put t th s).
Proof.
  intros [H1 H2 H3 H4 H5 H6 H7 H8 H9 H10 H11] Hat Hp. split; cbn; try done.
  - intros t' th' n k [(-> & <-)|[Hne Hl]]%lookup_insert_Some Ha; [by rewrite Ha in Hat|by eapply H4].
  - intros t1 t2 th1 th2 n k k' [(-> & <-)|[Hne Hl]]%lookup_insert_Some; [intros _ Ha; by rewrite Ha in Hat|].
    intros [(-> & <-)|[Hne' Hl']]%lookup_insert_Some; [intros _ Ha; by rewrite Ha in Hat|by eapply H5].
  - intros t' th' n k [(-> & <-)|[Hne Hl]]%lookup_insert_Some Ha; [by rewrite Ha in Hat|by eapply H7].
  - intros t' th' [(-> & <-)|[Hne Hl]]%lookup_insert_Some; [done|by eapply H10].
Qed.

Lemma judged_more succ succ' th x : (∀ k, k ∈ succ → k ∈ succ') → judged succ th x → judged succ' th x.
Proof. unfold judged. intros Hs H. destruct (x.2); [|done]. destruct H as [H1 H2]. auto. Qed.

Lemma accounted_more succ succ' th : (∀ k, k ∈ succ → k ∈ succ') → accounted succ th → accounted succ' th.
Proof. intros Hs [H1 H2 H3 H4]. split; [done| |done|done]. intros x Hx. by eapply judged_more; [|apply H2]. Qed.

(** The current event is settled. *)
Lemma accounted_settle succ th key x : accounted succ th → busy (at_ th) = Some x → judged succ th (current th, key) → accounted succ (settle key th).
Proof.
  intros [H1 H2 H3 H4] Hb Hj. split; cbn; [|by intros y [Hy| ->%list_elem_of_singleton]%elem_of_app; [apply H2|]|done|done].
  intros _. rewrite H1 by (by intros E; rewrite E in Hb). rewrite Hb. unfold events_of. rewrite map_app, <-app_assoc. done.
Qed.

Lemma accounted_satisfied succ th key : accounted succ th → busy (at_ th) = Some key → key ∈ succ → accounted succ (satisfied key th).
Proof.
  intros HA Hb Hk. eapply accounted_settle; [done|done|]. destruct (ac_current _ _ HA key Hb) as (e & Hg). split; [done|]. by exists e.
Qed.

(** The thread stays with its event. *)
Lemma accounted_at succ th p key : accounted succ th → busy (at_ th) = Some key → busy p = Some key → accounted succ (at_pc p th).
Proof.
  intros [H1 H2 H3 H4] Hb Hp. split; cbn; [|done| |by intros ->].
  - intros _. rewrite Hp, H1 by (by intros E; rewrite E in Hb). by rewrite Hb.
  - intros k Hk. apply H3. congruence.
Qed.

Lemma completed_success s k : Inv s → claims s !! k = Some Completed → k ∈ successes s.
Proof. intros HI Hk. apply (i_completed _ HI) in Hk. rewrite (i_order _ HI) in Hk. by apply subseteq_drop in Hk. Qed.

(** The verdict is as good as a thread that stands before its claim. *)
Lemma inv_look t th k encrypted s : Inv s → accounted (successes s) (at_pc (Entering k) th) →
  (encrypted = true → judged (successes s) th (current th, None)) → Inv (put t (look k encrypted s th) s).
Proof.
  intros HI HA He. unfold look. destruct (claims s !! k) as [[|n]|] eqn:E.
  - apply inv_put; [done|done|]. apply (accounted_satisfied _ (at_pc (Entering k) th)); [done|done|by apply completed_success].
  - apply inv_put; [done|by apply (i_inflight _ HI)|]. by apply (accounted_at _ (at_pc (Entering k) th) _ k).
  - destruct encrypted; apply inv_put; try done. apply (accounted_settle _ (at_pc (Entering k) th) None k); [done|done|by apply He].
Qed.

Lemma claims_enter t th k s : Inv s → threads s !! t = Some th → at_ th = Entering k → Inv (enter t k th s).
Proof.
  intros HI Ht Ha. pose proof (i_accounted _ HI t th Ht) as HA. assert (Hb : busy (at_ th) = Some k) by (by rewrite Ha). unfold enter.
  destruct (claims s !! k) as [[|n]|] eqn:E.
  - apply inv_put; [done|done|]. apply accounted_satisfied; [done|done|by apply completed_success].
  - apply inv_put; [done|by apply (i_inflight _ HI)|by eapply accounted_at].
  - pose proof HI as [H1 H2 H3 H4 H5 H6 H7 H8 H9 H10 H11]. assert (Hfresh : ∀ k', attempts s !! next s ≠ Some k') by (intros k' ?%H8; lia). split; cbn; try done.
    + intros k'. destruct (decide (k = k')) as [<-|Hne]; [rewrite lookup_insert_eq|by rewrite lookup_insert_ne]. split; [done|]. intros Hk%H3. congruence.
    + intros t' th' n k' [(-> & <-)|[Hne Hl]]%lookup_insert_Some Ha'; cbn in Ha'.
      * injection Ha' as <- <-. by rewrite !lookup_insert_eq.
      * destruct (H4 _ _ _ _ Hl Ha') as [C1 C2]. rewrite !lookup_insert_ne; [done| |]; [intros <-; by eapply Hfresh|intros <-; congruence].
    + intros t1 t2 th1 th2 n k1 k2 [(-> & <-)|[Hne Hl]]%lookup_insert_Some [(-> & <-)|[Hne' Hl']]%lookup_insert_Some A1 A2; cbn in A1, A2; [done| | |by eapply H5].
      * injection A1 as <- <-. destruct (H4 _ _ _ _ Hl' A2) as [_ C]. by apply Hfresh in C.
      * injection A2 as <- <-. destruct (H4 _ _ _ _ Hl A1) as [_ C]. by apply Hfresh in C.
    + intros k' n. destruct (decide (k = k')) as [<-|Hne]; [rewrite lookup_insert_eq|rewrite lookup_insert_ne by done].
      * intros [= <-]. by rewrite lookup_insert_eq.
      * intros Hk%H6. rewrite lookup_insert_ne; [done|]. intros <-. by apply Hfresh in Hk.
    + intros t' th' n k' [(-> & <-)|[Hne Hl]]%lookup_insert_Some Ha'; [done|]. specialize (H7 _ _ _ _ Hl Ha'). rewrite lookup_insert_ne; [done|]. intros <-. by apply Hfresh in H7.
    + intros n k' [(<- & _)|[Hne Hl]]%lookup_insert_Some; [lia|]. apply H8 in Hl. lia.
    + intros n Hn. destruct (H9 n Hn) as (k' & C1 & C2). exists k'. split; [|done]. rewrite lookup_insert_ne; [done|]. intros <-. by apply Hfresh in C1.
    + intros t' th' [(-> & <-)|[Hne Hl]]%lookup_insert_Some; [by eapply accounted_at|by eapply H10].
Qed.

Lemma inv_resume t th n k ok s : Inv s → threads s !! t = Some th → at_ th = Awaiting n k → settled s !! n = Some ok → Inv (resume t n k ok th s).
Proof.
  intros HI Ht Ha Hok. pose proof (i_accounted _ HI t th Ht) as HA. assert (Hb : busy (at_ th) = Some k) by (by rewrite Ha).
  assert (Hdone : claims s !! k = Some Completed ∨ ok = true → k ∈ successes s).
  { intros [Hc| ->]; [by apply completed_success|]. destruct (i_settled _ HI n Hok) as (k' & C1 & C2).
    rewrite (i_waiting _ HI _ _ _ _ Ht Ha) in C1. by injection C1 as <-. }
  assert (Hsat : k ∈ successes s → Inv (put t (satisfied k th) s)) by (intros Hk; apply inv_put; [done|done|by apply accounted_satisfied]).
  assert (Hre : Inv (put t (at_pc (Entering k) th) s)) by (apply inv_put; [done|done|by eapply accounted_at]).
  unfold resume. destruct (claims s !! k) as [[|m]|]; [auto|destruct ok; auto..].
Qed.

(** Only one thread runs a key. *)
Lemma running_once s t t' th th' n n' k : Inv s → threads s !! t = Some th → threads s !! t' = Some th' →
  at_ th = Running n k → at_ th' = Running n' k → t = t'.
Proof.
  intros HI H1 H2 A1 A2. destruct (i_running _ HI _ _ _ _ H1 A1) as [C1 _], (i_running _ HI _ _ _ _ H2 A2) as [C2 _].
  assert (n' = n) as -> by congruence. by eapply (i_single _ HI).
Qed.

Lemma inv_succeed t th n k s : Inv s → threads s !! t = Some th → at_ th = Running n k → Inv (succeed t n k th s).
Proof.
  intros HI Ht Ha. destruct (i_running _ HI _ _ _ _ Ht Ha) as [Hk Hn]. pose proof HI as [H1 H2 H3 H4 H5 H6 H7 H8 H9 H10 H11].
  assert (Hfresh : k ∉ order s) by (intros Hin%H3; congruence). set (c1 := <[k:=Completed]> (claims s)).
  assert (Hsp : spaced RETAINED (successes s ++ [k])) by (apply spaced_snoc; [done|by rewrite <-H1]).
  assert (Hc1 : ∀ x, c1 !! x = Some Completed ↔ x ∈ order s ++ [k]).
  { intros x. unfold c1. rewrite elem_of_app, list_elem_of_singleton. destruct (decide (k = x)) as [<-|Hne]; [rewrite lookup_insert_eq; tauto|].
    rewrite lookup_insert_ne, H3 by done. split; [by left|by intros [?|?]]. }
  assert (Hnd : NoDup (order s ++ [k])).
  { apply NoDup_app. split_and!; [rewrite H1; by apply spaced_window_nodup|by intros x Hx ->%list_elem_of_singleton|apply NoDup_singleton]. }
  destruct (rotate_spec (length (order s ++ [k])) (order s ++ [k]) c1 (le_n _) Hnd (λ x Hx, proj2 (Hc1 x) Hx)) as [E1 E2].
  unfold succeed. fold c1. destruct (rotate _ _ _) as [o' c']. cbn in E1, E2. subst o'.
  assert (Horder : drop (length (order s ++ [k]) - RETAINED) (order s ++ [k]) = drop (length (successes s ++ [k]) - RETAINED) (successes s ++ [k])).
  { rewrite H1. apply drop_snoc. }
  assert (Hkeep : ∀ x, x ∉ order s ++ [k] → c' !! x = claims s !! x).
  { intros x Hx. rewrite E2, decide_False. - unfold c1. rewrite lookup_insert_ne; [done|]. intros <-. apply Hx, elem_of_app. right. by left.
    - intros Hin. apply Hx. by apply subseteq_take in Hin. }
  assert (Hrun : ∀ t' th' m k', threads s !! t' = Some th' → at_ th' = Running m k' → t' ≠ t → k' ∉ order s ++ [k]).
  { intros t' th' m k' Hl Hr Hne [Hin%H3| ->%list_elem_of_singleton]%elem_of_app; [destruct (H4 _ _ _ _ Hl Hr) as [C _]; congruence|].
    by apply Hne, (running_once s t' t th' th m n k). }
  split; cbn; try done.
  - intros x. rewrite E2. split.
    + case_decide as Hin; [done|]. intros Hx%Hc1. rewrite <-(take_drop (length (order s ++ [k]) - RETAINED) (order s ++ [k])) in Hx. by apply elem_of_app in Hx as [?|?].
    + intros Hx. rewrite decide_False; [apply Hc1; by apply subseteq_drop in Hx|]. intros Hin.
      rewrite <-(take_drop (length (order s ++ [k]) - RETAINED) (order s ++ [k])) in Hnd. apply NoDup_app in Hnd as (_ & Hd & _). by apply (Hd x).
  - intros t' th' m k' [(-> & <-)|[Hne Hl]]%lookup_insert_Some Hr; [done|]. rewrite Hkeep by (eapply Hrun; [done|done|congruence]). by eapply H4.
  - intros t1 t2 th1 th2 m k1 k2 [(-> & <-)|[Hne Hl]]%lookup_insert_Some; [done|]. intros [(-> & <-)|[Hne' Hl']]%lookup_insert_Some; [done|by eapply H5].
  - intros x m. rewrite E2. case_decide; [done|]. unfold c1. destruct (decide (k = x)) as [<-|Hne]; [by rewrite lookup_insert_eq|rewrite lookup_insert_ne by done; apply H6].
  - intros t' th' m k' [(-> & <-)|[Hne Hl]]%lookup_insert_Some Hr; [done|by eapply H7].
  - intros m [(-> & _)|[Hne Hm]]%lookup_insert_Some; [exists k; split; [done|]; apply elem_of_app; right; by left|].
    destruct (H9 m Hm) as (k' & C1 & C2). exists k'. split; [done|]. apply elem_of_app. by left.
  - assert (Hmore : ∀ x, x ∈ successes s → x ∈ successes s ++ [k]) by (intros x Hx; apply elem_of_app; by left).
    intros t' th' [(-> & <-)|[Hne Hl]]%lookup_insert_Some; [|by eapply accounted_more; [|eapply H10]].
    apply accounted_satisfied; [by eapply accounted_more; [|eapply H10]|by rewrite Ha|]. apply elem_of_app. right. by left.
Qed.

Lemma inv_fail t th n k s : Inv s → threads s !! t = Some th → at_ th = Running n k → Inv (fail t n k th s).
Proof.
  intros HI Ht Ha. destruct (i_running _ HI _ _ _ _ Ht Ha) as [Hk Hn]. pose proof HI as [H1 H2 H3 H4 H5 H6 H7 H8 H9 H10 H11].
  split; cbn; try done.
  - intros x. destruct (decide (k = x)) as [<-|Hne]; [rewrite lookup_delete_eq|by rewrite lookup_delete_ne]. split; [done|]. intros Hin%H3. congruence.
  - intros t' th' m k' [(-> & <-)|[Hne Hl]]%lookup_insert_Some Hr; [done|]. destruct (H4 _ _ _ _ Hl Hr) as [C1 C2]. split; [|done].
    rewrite lookup_delete_ne; [done|]. intros <-. apply Hne. by apply (running_once s t t' th th' n m k).
  - intros t1 t2 th1 th2 m k1 k2 [(-> & <-)|[Hne Hl]]%lookup_insert_Some; [done|]. intros [(-> & <-)|[Hne' Hl']]%lookup_insert_Some; [done|by eapply H5].
  - intros x m [Hne Hx]%lookup_delete_Some. by apply H6.
  - intros t' th' m k' [(-> & <-)|[Hne Hl]]%lookup_insert_Some Hr; [done|by eapply H7].
  - intros m [(-> & ?)|[Hne Hm]]%lookup_insert_Some; [done|by apply H9].
  - intros t' th' [(-> & <-)|[Hne Hl]]%lookup_insert_Some; [|by eapply H10]. destruct (H10 _ _ Ht) as [A1 A2 A3 A4]. by split.
Qed.

Lemma claims_step s s' : step num_str s s' → Inv s → Inv s'.
Proof.
  intros Hstep HI. destruct Hstep as [t sd pv mxid events s Hn|t th ev rest g owned s Ht Ha Htodo|t th k s Ht Ha|t th n k ok s Ht Ha Hok|t th n k s Ht Ha|t th n k s Ht Ha|t th s Ht Ha Htodo|s].
  - apply inv_put; [done|done|]. split; cbn; try done. by intros x ?%elem_of_nil.
  - destruct (i_accounted _ HI t th Ht) as [A1 A2 A3 A4]. cbn zeta. set (th1 := take_up (MkLook ev g owned) rest th).
    assert (Hbatch : batch th1 = events_of (passed th1) ++ [ev] ++ rest) by (unfold th1; cbn; rewrite A1, Ha, Htodo by (by rewrite Ha); done).
    assert (HA : ∀ k e, gate num_str g (provenance th1) (side th1) ev owned = Admit k e → accounted (successes s) (at_pc (Entering k) th1)).
    { intros k e Hg. split; [by intros _|exact A2| |done]. intros k' [= <-]. by exists e. }
    destruct (gate num_str g (provenance th1) (side th1) ev owned) as [| |key encrypted] eqn:Eg.
    + apply inv_put; [done|done|]. split; cbn; [|by intros y [Hy| ->%list_elem_of_singleton]%elem_of_app; [apply A2|by left]|done|done].
      intros _. change (batch th) with (batch th1). unfold events_of. cbn. rewrite map_app, <-app_assoc. exact Hbatch.
    + apply inv_put; [done|done|]. by split.
    + apply inv_look; [done|by eapply HA|]. intros ->. right. by exists key.
  - by apply claims_enter.
  - by eapply inv_resume.
  - by apply inv_succeed.
  - by apply inv_fail.
  - destruct (i_accounted _ HI t th Ht) as [A1 A2 A3 A4]. apply inv_put; [done|done|]. split; cbn; [|exact A2|done|done].
    intros _. rewrite A1 by (by rewrite Ha). by rewrite Ha.
  - apply claims_init. cbn. intros l [Hl| ->%list_elem_of_singleton]%elem_of_app; [by apply (i_past _ HI)|apply (i_spaced _ HI)].
Qed.

Lemma reachable_inv s : rtc (step num_str) init s → Inv s.
Proof.
  intros H. assert (∀ a b, rtc (step num_str) a b → Inv a → Inv b) as Hind.
  { intros a b Hab. induction Hab as [|a c b Hac _ IH]; [done|]. intros HI. apply IH. by eapply claims_step. }
  apply (Hind _ _ H), claims_init. by intros l ?%elem_of_nil.
Qed.

(** C32. A project side's event takes effect once per run of the process: for every interleaving of the
    intakes, their failures and their repeats, two deliveries never run the typed path of the same event at
    the same time, and between two successes of the same event, in this run or within any run before, there
    are at least 4096 successes of others. A restart forgets the claims, so an event that is delivered again
    after it takes effect again. *)
Theorem typed_path_runs_once s : rtc (step num_str) init s →
  (∀ t t' th th' n n' key, threads s !! t = Some th → threads s !! t' = Some th' → at_ th = Running n key → at_ th' = Running n' key → t = t') ∧
  (∀ run i j key, run ∈ past s ++ [successes s] → (i < j)%nat → run !! i = Some key → run !! j = Some key → (RETAINED < j - i)%nat).
Proof.
  intros HI%reachable_inv. split; [intros; by eapply running_once|]. intros run i j key [Hr| ->%list_elem_of_singleton]%elem_of_app; [by apply (i_past _ HI)|apply (i_spaced _ HI)].
Qed.

End invariant.

(** ** A run

    Two deliveries of one event: the second waits for the first, which fails, and takes over. *)

Module Sample.
Import SideProvenance.

Definition num_str (_ : num) : string := EmptyString.
Definition event : jval := JObj [("room_id", JStr "!r:h"); ("type", JStr "m.room.message"); ("event_id", JStr "$1")].
Definition prov (mode : string) : jval := JObj [("registration", JStr "reg"); ("sideId", JStr "alpha"); ("mode", JStr mode)].
Definition knowledge : SideProvenance.Gate :=
  MkGate (Some [("alpha", MkRegistered (JStr "reg") (JStr "alpha") (JObj [("mxid", JStr "@rep:h")]))]) (Some (Some "reg")) (λ _, (true, ["@rep:h"; "@u:h"], EmptyString, None)).
Definition key : string := "reg|!r:h|$1".

Definition thread (mode : string) : Thread := MkThread Gating (JStr "alpha") (prov mode) [event] nothing [event] [].
Definition seen : Look := MkLook event knowledge None.
Definition up (mode : string) : Thread := take_up seen [] (thread mode).

Definition s1 : State := put 0 (look key false (put 0 (thread "push") init) (up "push")) (put 0 (thread "push") init).
Definition s2 : State := enter 0 key (at_pc (Entering key) (up "push")) s1.
Definition s3 : State := put 1 (look key false (put 1 (thread "sync") s2) (up "sync")) (put 1 (thread "sync") s2).
Definition s4 : State := fail 0 0 key (at_pc (Running 0 key) (up "push")) s3.
Definition s5 : State := resume 1 0 key false (at_pc (Awaiting 0 key) (up "sync")) s4.
Definition s6 : State := enter 1 key (at_pc (Entering key) (up "sync")) s5.
Definition s7 : State := succeed 1 1 key (at_pc (Running 1 key) (up "sync")) s6.
Definition last : Thread := satisfied key (at_pc (Running 1 key) (up "sync")).
Definition s8 : State := put 1 (at_pc (Answered true) last) s7.

Lemma admits mode : mode = "push" ∨ mode = "sync" → gate num_str knowledge (prov mode) (JStr "alpha") event None = Admit key false.
Proof. by intros [-> | ->]. Qed.

Lemma begins t mode s : mode = "push" ∨ mode = "sync" → threads s !! t = None →
  rtc (step num_str) s (put t (look key false (put t (thread mode) s) (up mode)) (put t (thread mode) s)).
Proof.
  intros Hm Ht. eapply rtc_l; [apply (s_arrive num_str t (JStr "alpha") (prov mode) EmptyString [event] s Ht)|].
  change (rtc (step num_str) (put t (thread mode) s) (put t (look key false (put t (thread mode) s) (up mode)) (put t (thread mode) s))).
  eapply rtc_l; [apply (s_gate num_str t (thread mode) event [] knowledge None); [cbn; apply lookup_insert_eq|done..]|].
  cbn zeta. fold seen. change (provenance (take_up seen [] (thread mode))) with (prov mode). change (side (take_up seen [] (thread mode))) with (JStr "alpha"). by rewrite admits.
Qed.

Lemma reaches_s8 : rtc (step num_str) init s8.
Proof.
  trans s1; [exact (begins 0 "push" init (or_introl eq_refl) eq_refl)|].
  apply (rtc_l _ s1 s2); [apply (s_enter num_str 0 (at_pc (Entering key) (up "push")) key s1); [vm_compute; reflexivity|reflexivity]|].
  trans s3; [apply (begins 1 "sync" s2 (or_intror eq_refl)); vm_compute; reflexivity|].
  apply (rtc_l _ s3 s4); [apply (s_fail num_str 0 (at_pc (Running 0 key) (up "push")) 0 key s3); [vm_compute; reflexivity|reflexivity]|].
  apply (rtc_l _ s4 s5); [apply (s_resume num_str 1 (at_pc (Awaiting 0 key) (up "sync")) 0 key false s4); [vm_compute; reflexivity|reflexivity|vm_compute; reflexivity]|].
  apply (rtc_l _ s5 s6); [apply (s_enter num_str 1 (at_pc (Entering key) (up "sync")) key s5); [vm_compute; reflexivity|reflexivity]|].
  apply (rtc_l _ s6 s7); [apply (s_succeed num_str 1 (at_pc (Running 1 key) (up "sync")) 1 key s6); [vm_compute; reflexivity|reflexivity]|].
  apply rtc_once. apply (s_answer num_str 1 last s7); [vm_compute; reflexivity|reflexivity|reflexivity].
Qed.

End Sample.

Lemma typed_path_runs_once_witness :
  (∀ t t' th th' n n' key, threads Sample.s8 !! t = Some th → threads Sample.s8 !! t' = Some th' → at_ th = Running n key → at_ th' = Running n' key → t = t') ∧
  (∀ run i j key, run ∈ past Sample.s8 ++ [successes Sample.s8] → (i < j)%nat → run !! i = Some key → run !! j = Some key → (RETAINED < j - i)%nat).
Proof. exact (typed_path_runs_once Sample.num_str Sample.s8 Sample.reaches_s8). Defined.


(** After a restart the event that has succeeded is delivered and succeeds again. *)
Example restart_repeats : ∃ s, rtc (step Sample.num_str) init s ∧ past s = [[Sample.key]] ∧ successes s = [Sample.key].
Proof.
  set (r0 := fresh [[Sample.key]]). set (r1 := put 0 (look Sample.key false (put 0 (Sample.thread "push") r0) (Sample.up "push")) (put 0 (Sample.thread "push") r0)).
  set (r2 := enter 0 Sample.key (at_pc (Entering Sample.key) (Sample.up "push")) r1). set (r3 := succeed 0 0 Sample.key (at_pc (Running 0 Sample.key) (Sample.up "push")) r2).
  exists r3. split; [|split; vm_compute; reflexivity]. trans Sample.s8; [exact Sample.reaches_s8|].
  apply (rtc_l _ Sample.s8 r0); [exact (s_restart Sample.num_str Sample.s8)|]. trans r1; [exact (Sample.begins 0 "push" r0 (or_introl eq_refl) eq_refl)|].
  apply (rtc_l _ r1 r2); [apply (s_enter Sample.num_str 0 (at_pc (Entering Sample.key) (Sample.up "push")) Sample.key r1); [vm_compute; reflexivity|reflexivity]|].
  apply rtc_once. apply (s_succeed Sample.num_str 0 (at_pc (Running 0 Sample.key) (Sample.up "push")) 0 Sample.key r2); [vm_compute; reflexivity|reflexivity].
Qed.

(** ** The gate *)

Section gate.
Import SideProvenance.
Context (num_str : num → string).

Lemma consistent_spec provenance sideId r : assertTransportProvenanceConsistency num_str provenance sideId (Some r) = inr tt →
  is_mode (prop provenance "mode") = true ∧ normalizeSideKey num_str (prop provenance "sideId") = normalizeSideKey num_str sideId ∧
  str_of num_str (registration r) = to_str num_str (prop provenance "registration").
Proof.
  unfold assertTransportProvenanceConsistency. destruct (negb (objectlike _)); [done|]. destruct (is_mode _); [|done]. cbn zeta.
  destruct (negb (truthy _) || _) eqn:E; [done|]. apply orb_false_iff in E as [_ E%negb_false_iff%String.eqb_eq].
  destruct (negb (String.eqb (str_of _ _) _)) eqn:E2; [done|]. apply negb_false_iff, String.eqb_eq in E2. done.
Qed.

(** A mismatch is to be retried, like everything else that this check refuses. *)
Example mismatch_is_retried provenance sideId r x : assertTransportProvenanceConsistency num_str provenance sideId r = inl x → retryable x = true.
Proof. unfold assertTransportProvenanceConsistency. intros H. repeat case_match; simplify_eq/=; done. Qed.

(** Two events of two rooms under one claim. *)
Example claims_collide : isValidRoomId (JStr "!a:h") = true ∧ isValidRoomId (JStr "!a:h|x") = true ∧ eventClaimKey "r" "!a:h" "x|y" = eventClaimKey "r" "!a:h|x" "y".
Proof. done. Qed.

(** A text [sigil name:server], whose name and server are not empty and have no spaces (nor an [@], in
    the id of a user). *)
Definition address (sigil : ascii) (bad : ascii → bool) (s : string) : Prop :=
  ∃ name server, s = String sigil (name +:+ ":" +:+ server) ∧ name ≠ EmptyString ∧ server ≠ EmptyString ∧
    string_exists bad name = false ∧ string_exists bad server = false.

Lemma shaped_spec sigil bad s : shaped sigil bad s = true → address sigil bad s.
Proof.
  destruct s as [|c rest]; [done|]. cbn [shaped]. intros [->%Ascii.eqb_eq H]%andb_true_iff. destruct (index_of ":" rest) as [n|] eqn:En; [|done].
  apply andb_true_iff in H as [[[H1 H2]%andb_true_iff H3%negb_true_iff]%andb_true_iff H4%negb_true_iff]. exists (slice_to n rest), (drop_str (S n) rest).
  split; [f_equal; by apply index_of_split|]. split; [by intros E; rewrite E in H1|]. split; [by intros E; rewrite E in H2|]. done.
Qed.

(** An invitation of a user, field by field. *)
Definition invites (event : jval) (mxid : string) : Prop :=
  prop event "type" = JStr "m.room.member" ∧ prop (prop event "content") "membership" = JStr "invite" ∧ trim (str_of num_str (prop event "state_key")) = trim mxid.

Lemma is_invite_spec event : is_invite event = true → prop event "type" = JStr "m.room.member" ∧ prop (prop event "content") "membership" = JStr "invite".
Proof. unfold is_invite. intros [H1%strict_eq_text H2%strict_eq_text]%andb_true_iff. done. Qed.

Lemma bootstrap_spec event mxid : isFirstInviteBootstrap num_str event mxid = true → invites event mxid ∧ address "@" (λ c, is_ws c || Ascii.eqb c "@") (trim mxid).
Proof. unfold isFirstInviteBootstrap. intros [[[H1 H2]%is_invite_spec H3%shaped_spec]%andb_true_iff H4%String.eqb_eq]%andb_true_iff. done. Qed.

Lemma related_spec event roomId mxid g rel : assertRoomRelation num_str event roomId mxid (memberLookup g) = inr rel →
  (∃ room, roomId = JStr room ∧ address "!" is_ws (trim room)) ∧ (invites event mxid ∧ address "@" (λ c, is_ws c || Ascii.eqb c "@") (trim mxid) ∨
    ∃ members reason after, joinedMembers g roomId = (true, members, reason, after) ∧ ∃ m, m ∈ members ∧ trim m = mxid).
Proof.
  unfold assertRoomRelation. destruct (isValidRoomId roomId) eqn:Ev; [|done]. destruct roomId as [| | | |room| | |]; try done. apply shaped_spec in Ev. cbn [negb].
  intros H. split; [by exists room|]. revert H. destruct (isFirstInviteBootstrap _ _ _) eqn:Eb; [by apply bootstrap_spec in Eb; intros _; left|].
  unfold memberLookup. destruct (joinedMembers g _) as [[[known members] reason] after]. destruct known; cbn.
  - destruct (existsb _ _) eqn:E; cbn; [|done]. intros _. right. exists members, reason, after. split; [done|].
    apply existsb_exists in E as (m & Hm & Em%String.eqb_eq). exists m. split; [by apply list_elem_of_In|done].
  - by destruct (mentions_forbidden reason).
Qed.

Lemma representative_reads r mxid : representativeMxidFor r = inr mxid → ∃ raw, prop (representative r) "mxid" = JStr raw ∧ trim raw ≠ EmptyString ∧ mxid = trim raw.
Proof.
  unfold representativeMxidFor, trimmed. destruct (prop (representative r) "mxid") as [| | | |raw| | |]; try done. destruct (truthy (trim raw)) eqn:E; [|done].
  intros [= <-]. exists raw. split; [done|]. split; [by intros H; rewrite H in E|done].
Qed.

(** The text that an event is claimed under: its registration, room and id; an invitation without an id
    under the object of everything in it that authorises. *)
Definition claimed_as (registration roomId : string) (event : jval) (claimKey : string) : Prop :=
  (∃ raw, prop event "event_id" = JStr raw ∧ trim raw ≠ EmptyString ∧ claimKey = registration +:+ "|" +:+ roomId +:+ "|" +:+ trim raw) ∨
  ((∀ raw, prop event "event_id" = JStr raw → trim raw = EmptyString) ∧ ∃ user,
   let sender := trim (str_of num_str (prop event "sender")) in
   let stripped := match nullish_or (prop (prop event "unsigned") "invite_room_state") (nullish_or (prop event "invite_room_state") (JArr [])) with JArr l => l | _ => [] end in
   invites event user ∧ address "@" (λ c, is_ws c || Ascii.eqb c "@") (trim user) ∧ address "@" (λ c, is_ws c || Ascii.eqb c "@") (trim sender) ∧
   claimKey = canonicalJson num_str (JObj [
     ("k", JStr "idless-invite"); ("registration", JStr registration); ("room", JStr roomId); ("sender", JStr sender); ("state_key", JStr (trim user));
     ("membership", JStr "invite"); ("content", nullish_or (prop event "content") JNull);
     ("stripped", JArr (List.map (λ st, JObj [("type", prop st "type"); ("state_key", JStr (str_of num_str (prop st "state_key"))); ("content", nullish_or (prop st "content") JNull)])
       (List.filter (λ st, match prop st "type" with JStr _ => true | _ => false end) stripped)))])).

Lemma claimed_key_spec registration roomId event claimKey : claimKeyFor num_str registration roomId event = inr claimKey → claimed_as registration roomId event claimKey.
Proof.
  unfold claimKeyFor, claimed_as. cbv zeta. destruct (truthy (trimmed (prop event "event_id"))) eqn:Et.
  - intros [= <-]. left. unfold trimmed in *. destruct (prop event "event_id") as [| | | |raw| | |]; try done. exists raw. split; [done|]. split; [by intros E; rewrite E in Et|done].
  - destruct (is_invite event) eqn:Ei; [|done]. apply is_invite_spec in Ei as [H1 H2]. unfold idlessInviteClaimKey. rewrite H2. cbv zeta.
    destruct (isFullMxid _) eqn:Es; [|done]. destruct (isFullMxid (trim (str_of num_str (prop event "state_key")))) eqn:Ek; [|done]. apply shaped_spec in Es, Ek. cbn [negb orb truthy String.eqb].
    intros [= <-]. right. split.
    { intros raw E. rewrite E in Et. cbn [trimmed] in Et. unfold truthy in Et. by apply negb_false_iff, String.eqb_eq in Et. }
    exists (str_of num_str (prop event "state_key")). rewrite trim_idem in Ek. done.
Qed.

(** C34. Nothing of a project side is acted on without proof. If the gate lets an event be claimed, its
    origin names the authenticated side and the registration that is loaded for that side now, the room
    is a room id, and the representative recorded for the side is among the joined members of exactly that
    room, unless the event is a membership event that invites that representative. The claim is the text
    of the registration, the room and the event's id; only an invitation without an id has another, the
    canonical JSON of its sender, its target and the contents that authorise it. *)
Theorem admitted_events_are_proven g provenance sideId roomId event claimKey :
  assertSideProvenanceForEvent num_str g provenance sideId roomId event = inr (Claim claimKey) →
  ∃ sides r raw room, snapshot g = Some sides ∧ om_get (lower (trim (str_of num_str sideId))) sides = Some r ∧
    lower (trim (str_of num_str (prop provenance "sideId"))) = lower (trim (str_of num_str sideId)) ∧
    str_of num_str (registration r) = to_str num_str (prop provenance "registration") ∧
    prop (representative r) "mxid" = JStr raw ∧ trim raw ≠ EmptyString ∧ roomId = JStr room ∧ address "!" is_ws (trim room) ∧
    (invites event (trim raw) ∧ address "@" (λ c, is_ws c || Ascii.eqb c "@") (trim raw) ∨
     ∃ members reason after, joinedMembers g (JStr room) = (true, members, reason, after) ∧ ∃ m, m ∈ members ∧ trim m = trim raw) ∧
    claimed_as (to_str num_str (prop provenance "registration")) room event claimKey.
Proof.
  unfold assertSideProvenanceForEvent, refused. destruct (assertTransportProvenanceConsistency _ _ _ None) as [x|]; [by destruct (retryable x)|].
  destruct (snapshot g) as [sides|]; [|done]. destruct (om_get _ sides) as [r|] eqn:Er; [|done].
  destruct (assertTransportProvenanceConsistency _ _ _ (Some r)) as [x|[]] eqn:Ec; [by destruct (retryable x)|]. destruct (consistent_spec _ _ _ Ec) as (_ & Hside & Hreg).
  destruct (negb _); [done|]. destruct (representativeMxidFor r) as [x|mxid] eqn:Em; [done|]. destruct (acting g) as [generation|]; [|done].
  destruct (match generation with Some _ => _ | None => _ end); [done|]. destruct (assertRoomRelation _ _ _ _ _) as [x|rel] eqn:Erel; [by destruct (retryable x)|].
  destruct (claimKeyFor _ _ _ _) as [x|key'] eqn:Ek; [done|]. intros [= <-]. apply related_spec in Erel as [(room & -> & Hroom) Hrel]. apply representative_reads in Em as (raw & Em & Hm & ->).
  exists sides, r, raw, room. unfold normalizeSideKey in *. rewrite <-Hside. apply claimed_key_spec in Ek. rewrite trim_idem in Hrel. done.
Qed.
End gate.

Lemma admitted_events_are_proven_witness :
  SideProvenance.assertSideProvenanceForEvent Sample.num_str Sample.knowledge (Sample.prov "edge") (JStr " Alpha") (JStr "!r:h") Sample.event = inr (SideProvenance.Claim Sample.key) ∧
  claimed_as Sample.num_str "reg" "!r:h" Sample.event Sample.key.
Proof.
  split; [vm_compute; reflexivity|].
  destruct (admitted_events_are_proven Sample.num_str Sample.knowledge (Sample.prov "edge") (JStr " Alpha") (JStr "!r:h") Sample.event Sample.key)
    as (sides & r & raw & room & _ & _ & _ & _ & _ & _ & E & _ & _ & H); [vm_compute; reflexivity|]. injection E as <-. exact H.
Defined.
