(* ===== verification/FleetStore.v ===== *)
(** * The durable inbox and outbox of a managed fleet ([lib/fleet-outbound-store.js])

    Tables are lists of rows in the order of their row ids, and a statement acts on them as its SQL says;
    a statement or transaction that throws leaves the tables alone. Rows of [inbox] and [requests] are
    never deleted, so a row id is a position, from 1. A column that holds a JSON text is the value it
    parses to. The file is created with the present schema: the migrations of older files are left out,
    and so are keys that are not texts (the call throws here). *)

From Stdlib Require Import ZArith QArith Qround Lia String Ascii.
From stdpp Require Import base list strings.
From S2P Require Import Prelude OMap Json ExecAuth ProjectSides.
#[local] Open Scope stdpp_scope.

Module FleetStore.

(** ** Tables *)

Inductive delivery_state : Type := Received | Acked | Reclaim | Done.
#[export] Instance delivery_state_dec : EqDecision delivery_state.
Proof. solve_decision. Defined.

Record InboxRow : Type := MkInbox {
  i_id : string; lane : string; i_kind : string; i_digest : string; i_payload : jval; token : string;
  state : delivery_state; i_generation : Z; retry_at : Z; error : option string;
}.
#[export] Instance eta_inbox : Settable InboxRow := λ r,
  MkInbox (i_id r) (lane r) (i_kind r) (i_digest r) (i_payload r) (token r) (state r) (i_generation r) (retry_at r) (error r).

Record RequestRow : Type := MkRequest {
  r_id : string; r_payload : jval; r_admitted : bool; status : option jval; check_at : Z; observed_at : Z;
}.
#[export] Instance eta_request : Settable RequestRow := λ r,
  MkRequest (r_id r) (r_payload r) (r_admitted r) (status r) (check_at r) (observed_at r).

(** The metadata, where a number is kept as its text, and the tables; [outbox] is its single row, the
    update and [cursor_after]. *)
Record DB : Type := MkDB {
  binding : string; consumer : string; sequence : Z; generation : option Z; fingerprint : option string; status_cursor : Z;
  inbox : list InboxRow; requests : list RequestRow; receipts : list (string * jval); outbox : option (jval * option Z);
}.
#[export] Instance eta_db : Settable DB := λ s,
  MkDB (binding s) (consumer s) (sequence s) (generation s) (fingerprint s) (status_cursor s) (inbox s) (requests s) (receipts s) (outbox s).

Definition MAX_SAFE : Z := 2 ^ 53 - 1.
Definition isSafeInteger (z : Z) : bool := Z.abs z <=? MAX_SAFE.

(** [UPDATE ... SET f WHERE p] *)
Definition update_where {R} (p : R → bool) (f : R → R) (rows : list R) : list R := List.map (λ r, if p r then f r else r) rows.

(** The rows with their row ids. *)
Fixpoint numbered {R} (n : Z) (rows : list R) : list (Z * R) :=
  match rows with [] => [] | r :: rows => (n, r) :: numbered (n + 1) rows end.

(** [Buffer.byteLength], of characters below 256. *)
Fixpoint byteLength (s : string) : Z :=
  match s with EmptyString => 0 | String c s => (if (nat_of_ascii c <? 128)%nat then 1 else 2) + byteLength s end.

Section store.
Context (num_str : num → string) (sha256 : string → string) (toISOString : Z → string).

Definition json_text (v : jval) : string := default EmptyString (stringify num_str v).

(** [canonical] sorts the keys of every object before it is printed. *)
Definition canonical (v : jval) : string := json_text (ExecAuth.canonical v).
Definition outboundDigest (v : jval) : string := sha256 (canonical v).

(** The constructor, on a new file ([None]) or an existing one. *)
Definition open (file : option DB) (b : jval) (uuid : string) : result DB :=
  match file with
  | None => Ok (MkDB (outboundDigest b) uuid 0 None None 0 [] [] [] None)
  | Some s => throw_if negb (String.eqb (binding s) (outboundDigest b)) with "outbound inbox belongs to another registration" in Ok s
  end.

Definition pendingUpdate (s : DB) : option jval := fst <$> outbox s.

(** ** Generations of the transport *)

(** [SELECT MAX(generation) FROM inbox] *)
Definition max_generation (rows : list InboxRow) : option Z :=
  foldr (λ r m, Some (match m with Some g => Z.max (i_generation r) g | None => i_generation r end)) None rows.

Definition previousGeneration (s : DB) : option Z :=
  match generation s with
  | Some g => Some g
  | None =>
      match pendingUpdate s with
      | Some p => match ProjectSides.safe_integer (prop p "generation") with Some g => Some g | None => max_generation (inbox s) end
      | None => max_generation (inbox s)
      end
  end.

Definition is_probe (r : InboxRow) : bool := String.eqb (i_kind r) "probe".
Definition is_done (r : InboxRow) : bool := bool_decide (state r = Done).

(** The two updates of the inbox when the transport is rotated. *)
Definition carry_over (r : InboxRow) : InboxRow := r <| state := Acked |> <| retry_at := 0 |> <| error := None |>.
Definition retire (r : InboxRow) : InboxRow := r <| state := Done |> <| retry_at := 0 |> <| error := Some "transport_generation_retired" |>.
Definition rotate_inbox (gen : Z) (rows : list InboxRow) : list InboxRow :=
  update_where (λ r, is_probe r && negb (is_done r) && (i_generation r <? gen)) retire
    (update_where (λ r, negb (is_probe r) && negb (is_done r)) carry_over rows).

Definition forget_observation (r : RequestRow) : RequestRow := r <| status := None |> <| check_at := 0 |> <| observed_at := 0 |>.

(** The tables afterwards, and [changed]. *)
Definition activateTransport (gen : Z) (print : string) (s : DB) : result (DB * bool) :=
  throw_if negb (isSafeInteger gen) || (gen <? 1) || negb (truthy print) || (512 <? String.length print)%nat
    with "invalid outbound transport identity" in
  let previous := previousGeneration s in
  let activated := s <| generation := Some gen |> <| fingerprint := Some print |> in
  match generation s, previous with
  | None, None => Ok (activated, true)
  | saved, Some p =>
      if negb (is_Some_b saved) && (p =? gen) then Ok (activated, true) else
      if p =? gen then
        throw_if negb (bool_decide (fingerprint s = Some print)) with "outbound transport changed without a new generation" in Ok (s, false)
      else
        throw_if gen <? p with "outbound transport generation is stale" in
        Ok (s <| inbox := rotate_inbox gen (inbox s) |> <| receipts := [] |> <| outbox := None |>
              <| requests := List.map forget_observation (requests s) |>
              <| generation := Some gen |> <| fingerprint := Some print |> <| sequence := 0 |> <| status_cursor := 0 |>, true)
  | Some _, None => Ok (s, false) (* [previousGeneration] is the saved one *)
  end.

(** ** The inbox *)

Definition LANES : list string := ["matrix"; "work"].
Definition KINDS : list string := ["transaction"; "probe"; "request"].

Definition bounded (v : jval) (max : nat) : option string :=
  match v with JStr t => if truthy t && (String.length t <=? max)%nat then Some t else None | _ => None end.
Definition one_of (v : jval) (l : list string) : option string := match v with JStr t => if inb t l then Some t else None | _ => None end.

(** A delivery that passed the checks of [receive]: id, lane, kind, token and payload. *)
Definition delivery_of (delivery : jval) : option (string * string * string * string * jval) :=
  match bounded (prop delivery "id") 512, one_of (prop delivery "lane") LANES, one_of (prop delivery "kind") KINDS,
        bounded (prop delivery "token") 4096, prop delivery "payload" with
  | Some id, Some l, Some k, Some t, JObj o =>
      if Bool.eqb (String.eqb l "matrix") (String.eqb k "transaction") then Some (id, l, k, t, JObj o) else None
  | _, _, _, _, _ => None
  end.

Definition named (l id : string) (r : InboxRow) : bool := String.eqb (lane r) l && String.eqb (i_id r) id.

Definition redelivered (t : string) (r : InboxRow) : InboxRow :=
  let st := if is_done r then Done else Received in r <| token := t |> <| state := st |> <| retry_at := 0 |>.

Definition receive (delivery : jval) (gen : Z) (s : DB) : result DB :=
  throw_if negb (isSafeInteger gen) || (gen <? 1) || match generation s with Some g => negb (gen =? g) | None => false end
    with "outbound delivery generation mismatch" in
  match delivery_of delivery with
  | None => Throw "invalid outbound delivery"
  | Some (id, l, k, t, payload) =>
      let digest := outboundDigest (JObj [("lane", JStr l); ("kind", JStr k); ("payload", payload)]) in
      let previous := List.find (named l id) (inbox s) in
      throw_if match previous with Some r => negb (String.eqb (i_digest r) digest) | None => false end
        with "outbound delivery content conflict" in
      throw_if 4 * 1024 * 1024 <? byteLength (json_text payload) with "outbound delivery exceeds inbox limit" in
      match previous with
      | Some _ => Ok (s <| inbox := update_where (named l id) (redelivered t) (inbox s) |>)
      | None => let row := MkInbox id l k digest (clone payload) t Received gen 0 None in Ok (s <| inbox := inbox s ++ [row] |>)
      end
  end.

(** [state NOT IN ('done','reclaim')] *)
Definition open_row (r : InboxRow) : bool := match state r with Received | Acked => true | _ => false end.

(** The matrix lane keeps its order: a row that waits for its retry holds back those behind it. *)
Definition next (l : string) (now : Z) (s : DB) : option InboxRow :=
  let row := if String.eqb l "matrix" then List.find (λ r, String.eqb (lane r) l && open_row r) (inbox s)
             else List.find (λ r, String.eqb (lane r) l && open_row r && (retry_at r <=? now)) (inbox s) in
  match row with Some r => if now <? retry_at r then None else Some r | None => None end.

Definition laneFor (id : string) (l : option string) (s : DB) : result string :=
  match l with
  | Some l => throw_if negb (inb l LANES) with "invalid outbound lane" in Ok l
  | None =>
      match List.filter (λ r, String.eqb (i_id r) id) (inbox s) with
      | [r] => Ok (lane r)
      | _ => Throw "outbound delivery lane is missing or ambiguous"
      end
  end.

Definition set_state (d : delivery_state) (l id : string) (s : DB) : DB :=
  s <| inbox := update_where (λ r, named l id r && negb (is_done r)) (λ r, r <| state := d |>) (inbox s) |>.

Definition acknowledged (id : string) (l : option string) (s : DB) : result DB := let* l := laneFor id l s in Ok (set_state Acked l id s).
Definition reclaim (id : string) (l : option string) (s : DB) : result DB := let* l := laneFor id l s in Ok (set_state Reclaim l id s).

Definition retry (id code : string) (now : Z) (l : option string) (s : DB) : result DB :=
  let* l := laneFor id l s in
  Ok (s <| inbox := update_where (named l id) (λ r, r <| retry_at := now + 5000 |> <| error := Some (slice_to 160 code) |>) (inbox s) |>).

(** The first row of a lane that is received or acknowledged: when it may be tried again. *)
Definition waiting (l : string) (s : DB) : option Z := retry_at <$> List.find (λ r, String.eqb (lane r) l && open_row r) (inbox s).

(** ** Requests and receipts *)

Definition find_request (id : string) (s : DB) : option RequestRow := List.find (λ r, String.eqb (r_id r) id) (requests s).

(** [INSERT ... ON CONFLICT(id) DO NOTHING] *)
Definition track (request : jval) (s : DB) : result DB :=
  match prop request "requestId" with
  | JStr id =>
      match find_request id s with
      | Some r => throw_if negb (String.eqb (outboundDigest (r_payload r)) (outboundDigest request)) with "outbound request content conflict" in Ok s
      | None => Ok (s <| requests := requests s ++ [MkRequest id (clone request) false None 0 0] |>)
      end
  | _ => Throw "TypeError"
  end.

(** [INSERT ... ON CONFLICT(id) DO UPDATE] *)
Definition keep_receipt (receipt : jval) (s : DB) : result DB :=
  match prop receipt "sourceEventId" with
  | JStr id => Ok (s <| receipts := om_set id (clone receipt) (receipts s) |>)
  | _ => Throw "TypeError"
  end.

(** One transaction. *)
Definition finish (id : string) (request receipt : option jval) (l : option string) (s : DB) : result DB :=
  let* l := laneFor id l s in
  let* s1 := match request with Some q => track q s | None => Ok s end in
  let* s2 := match receipt with Some q => keep_receipt q s1 | None => Ok s1 end in
  Ok (s2 <| inbox := update_where (named l id) (λ r, r <| state := Done |> <| error := None |>) (inbox s2) |>).

Definition trackedRequests (s : DB) : list RequestRow := requests s.

(** [ORDER BY check_at, rowid LIMIT 3] *)
Definition dueRequests (now : Z) (s : DB) : list RequestRow :=
  take 3 (stable_sort (λ a b, check_at a <? check_at b) (List.filter (λ r, check_at r <=? now) (requests s))).

Definition on_request (id : string) (f : RequestRow → RequestRow) (s : DB) : DB :=
  s <| requests := update_where (λ r, String.eqb (r_id r) id) f (requests s) |>.

Definition deferRequest (id : string) (now : Z) : DB → DB := on_request id (λ r, r <| check_at := now + 15000 |>).
Definition observeRequest (id : string) (st : jval) (now : Z) : DB → DB :=
  on_request id (λ r, let at_ := if isSafeInteger now && (0 <? now) then now else 0 in r <| status := Some (clone st) |> <| observed_at := at_ |>).
Definition admitted (id : string) : DB → DB := on_request id (λ r, r <| r_admitted := true |>).

(** ** What is published of the requests *)

Definition members (v : jval) : list (string * jval) := match v with JObj o => o | _ => [] end.
Definition assign (fields : list (string * jval)) (o : list (string * jval)) : list (string * jval) := foldl (λ o p, obj_set p.1 p.2 o) o fields.

(** A time that [Date] can represent. *)
Definition observedAt (r : RequestRow) : option Z :=
  if isSafeInteger (observed_at r) && (0 <? observed_at r) && (observed_at r <=? 8640 * 10 ^ 12) then Some (observed_at r) else None.

Definition unverified : list (string * jval) :=
  [("ready", JBool false); ("fulfillment", JObj [("phase", JStr "verification"); ("incomplete", JBool true);
    ("error", JStr "Hagency must refresh request verification before this agent is usable.")])].

Definition snapshotOf (now : Z) (r : RequestRow) : jval :=
  let at_ := observedAt r in
  let st := assign [("observedAt", str_or_null (toISOString <$> at_))] (members (default JUndef (status r))) in
  match at_ with
  | Some t => if isSafeInteger now && (t <=? now) && (now - t <? 90000) then JObj st else JObj (assign unverified st)
  | None => JObj (assign unverified st)
  end.

Definition observed (p : Z * RequestRow) : bool := is_Some_b (status p.2).

(** The next two hundred behind the cursor, or the first ones when there are none. *)
Definition snapshotRows (s : DB) : list (Z * RequestRow) :=
  match take 200 (List.filter (λ p, observed p && (status_cursor s <? p.1)) (numbered 1 (requests s))) with
  | [] => take 200 (List.filter observed (numbered 1 (requests s)))
  | rows => rows
  end.

Definition requestSnapshots (now : Z) (s : DB) : list jval := List.map (λ p, snapshotOf now p.2) (snapshotRows s).

(** ** The outbox *)

Definition rowid_of (id : string) (s : DB) : option Z := fst <$> List.find (λ p, String.eqb (r_id p.2) id) (numbered 1 (requests s)).

(** The row id of the last request that an update speaks of. *)
Definition cursorOf (statuses : jval) (s : DB) : option Z :=
  match statuses with
  | JArr l => match last l with
              | Some st => match prop st "requestId" with JStr id => if truthy id then rowid_of id s else None | _ => None end
              | None => None end
  | _ => None
  end.

(** The update to be sent and the tables. An update that waits for its acceptance is sent as it is. *)
Definition enqueueUpdate (body : list (string * jval)) (s : DB) : result (jval * DB) :=
  match pendingUpdate s with
  | Some pending => Ok (pending, s)
  | None =>
      let n := sequence s + 1 in
      throw_if negb (isSafeInteger n) with "outbound sequence exhausted" in
      let statuses := prop (JObj body) "statuses" in
      throw_if to_bool statuses && match statuses with JArr l => (200 <? length l)%nat | _ => true end
        with "outbound status batch exceeds limit" in
      let probeReceipts := List.map snd (take 10 (receipts s)) in
      let payload := JObj (assign [("sequence", JNum (Fin (inject_Z n))); ("probeReceipts", JArr probeReceipts)] body) in
      Ok (payload, s <| sequence := n |> <| outbox := Some (clone payload, cursorOf statuses s) |>)
  end.

(** [DELETE FROM receipts WHERE id=? AND payload=?] *)
Definition delete_receipt (rs : list (string * jval)) (receipt : jval) : list (string * jval) :=
  match prop receipt "sourceEventId" with
  | JStr id => List.filter (λ p, negb (String.eqb p.1 id && String.eqb (json_text p.2) (json_text receipt))) rs
  | _ => rs
  end.

Definition updateAccepted (payload : jval) (s : DB) : result DB :=
  match outbox s with
  | None => Throw "outbound update receipt mismatch"
  | Some (pending, cursor_after) =>
      throw_if negb (String.eqb (outboundDigest pending) (outboundDigest payload)) with "outbound update receipt mismatch" in
      let sent := match prop pending "probeReceipts" with JArr l => l | _ => [] end in
      Ok (s <| receipts := foldl delete_receipt (receipts s) sent |>
            <| status_cursor := default (status_cursor s) cursor_after |> <| outbox := None |>)
  end.

End store.
End FleetStore.
