(* ===== verification/FleetClient.v ===== *)
(** * The outbound client of a fleet ([lib/fleet-outbound-client.js])

    Four loops over one store: two lanes that poll, acknowledge and process deliveries, the publication
    of updates, and the reconciliation of requests. A loop is cut where the code awaits; the loops, the
    answers of the server, and the stop and start of a client interleave freely. A call that throws
    ends its turn of the loop; a write to the store may always fail ([s_lane_throws], [s_idle]), which
    throws as well. Once a client is stopped, [active] throws before anything is written. *)

From Stdlib Require Import ZArith QArith Lia String Ascii.
From stdpp Require Import base list strings relations.
From S2P Require Import Prelude OMap Json ExecAuth ProjectSides FleetStore.
#[local] Open Scope stdpp_scope.

Module FleetClient.
Import FleetStore.

(** What comes back of a request: an answer, its status and its JSON body, or the error of [fetch] or of
    [json()] with its [code]. What comes back of a function of the bridge: its value, or its error. *)
Inductive response : Type := Response (status : Z) (data : jval) | NoResponse (code : jval).
Inductive outcome : Type := Returned (v : jval) | Thrown (code : jval).

(** The data of a call, or an error and its [code]. *)
Inductive reply : Type := Reply (data : jval) | Failed (code : jval).

Definition is200 (v : jval) : bool := strict_eq (prop v "status") (JNum (Fin 200)).

(** [call], after [fetch]: [response.ok], or an error with the code of the body; reading the code of a
    body that is null throws in turn. *)
Definition call (r : response) : reply :=
  match r with
  | Response s data => if (200 <=? s) && (s <? 300) then Reply data else Failed (prop data "code")
  | NoResponse code => Failed code
  end.

(** [runProtocol], after the bridge has answered. *)
Definition runProtocol (o : outcome) : reply :=
  match o with
  | Returned v => if is_nullish v then Failed JUndef else if is200 v then Reply (prop v "body") else Failed (prop (prop v "body") "code")
  | Thrown code => Failed code
  end.

(** What a lane waits for: nothing; its poll; the acknowledgement of the delivery it just stored, or of
    a row it is about to process; the processing of a row. *)
Inductive lane_pc : Type := LIdle | LPolling | LStored (delivery : jval) | LAcking (row : InboxRow) | LHandling (row : InboxRow).
Inductive publish_pc : Type := PIdle | PCapabilities | PSending (payload : jval).
(** A request under reconciliation, with the row as it was read. *)
Inductive task : Type := TAdmitting (row : RequestRow) | TAsking (row : RequestRow).

Record Client : Type := MkClient {
  gen : Z; matrix : lane_pc; work : lane_pc; publishing : publish_pc; tasks : list task;
}.
#[export] Instance eta_client : Settable Client := λ c, MkClient (gen c) (matrix c) (work c) (publishing c) (tasks c).

Definition lane_of (l : string) (c : Client) : lane_pc := if String.eqb l "matrix" then matrix c else work c.
Definition set_lane (l : string) (p : lane_pc) (c : Client) : Client :=
  if String.eqb l "matrix" then c <| matrix := p |> else c <| work := p |>.

(** What an observer sees. *)
Inductive event : Type :=
| EAckSent (l id tok kind : string) (payload : jval)
| ERowAckSent (l id tok : string)
| EReturned (l id : string) (payload v : jval)
| EObserved (id : string) (status : jval) (at_ : Z)
| EFrozen (g : Z) (payload : jval) (at_ : Z)
| ESent (g : Z) (payload : jval)
| EAccepted (g : Z) (payload : jval).

Section client.
Context (num_str : num → string) (sha256 : string → string) (toISOString : Z → string).

(** ** A lane *)

(** [processOnce] up to its first [await], or [receiveOnce] up to its; [None] is a turn that is over. *)
Definition turn (l : string) (now : Z) (s : DB) : lane_pc :=
  match next l now s with
  | Some r => if bool_decide (state r = Received) then LAcking r else LHandling r
  | None => if String.eqb l "matrix" && is_Some_b (waiting l s) then LIdle else LPolling
  end.

(** [receiveOnce] after the poll. *)
Definition onPoll (l : string) (g : Z) (r : reply) (s : DB) : lane_pc * DB :=
  match r with
  | Failed _ => (LIdle, s)
  | Reply data =>
      if negb (strict_eq (prop data "v") (JNum (Fin 2))) || negb (strict_eq (prop data "generation") (JNum (Fin (inject_Z g)))) then (LIdle, s) else
      let delivery := prop data "delivery" in
      if negb (to_bool delivery) then (LIdle, s) else
      if negb (strict_eq (prop delivery "lane") (JStr l)) then (LIdle, s) else
      match receive num_str sha256 delivery g s with
      | Throw _ => (LIdle, s)
      | Ok s' => (LStored delivery, s')
      end
  end.

(** [ack] after the call: whether it was acknowledged, or the code of the error. *)
Definition onAck (id l : string) (r : reply) (s : DB) : (jval + unit) * DB :=
  match r with
  | Reply _ => match acknowledged id (Some l) s with Ok s' => (inr tt, s') | Throw _ => (inl JUndef, s) end
  | Failed code =>
      let s' := if strict_eq code (JStr "stale_lease") then match reclaim id (Some l) s with Ok s' => s' | Throw _ => s end else s in
      (inl code, s')
  end.

(** The [catch] of [processOnce]. *)
Definition postpone (row : InboxRow) (code : jval) (now : Z) (s : DB) : DB :=
  match retry (i_id row) (if is_nullish code then "processing_pending" else to_str num_str code) now (Some (lane row)) s with Ok s' => s' | Throw _ => s end.

Definition onRowAck (row : InboxRow) (r : reply) (now : Z) (s : DB) : lane_pc * DB :=
  match onAck (i_id row) (lane row) r s with
  | (inr _, s') => (LHandling row, s')
  | (inl code, s') => (LIdle, postpone row code now s')
  end.

(** [processOnce] after the work. A transaction is done when the router answered 200, a probe when it has
    its receipt; a request needs no more than to be tracked. What the work returned is on record. *)
Definition onHandled (row : InboxRow) (o : outcome) (now : Z) (s : DB) : DB * list event :=
  let evs := match o with Returned v => [EReturned (lane row) (i_id row) (i_payload row) v] | Thrown _ => [] end in
  let conclude (request receipt : option jval) (evs : list event) :=
    match finish num_str sha256 (i_id row) request receipt (Some (lane row)) s with
    | Ok s' => (s', evs)
    | Throw _ => (postpone row JUndef now s, evs)
    end in
  if String.eqb (i_kind row) "transaction" then
    match o with
    | Returned v => if negb (is200 v) then (postpone row (JStr "matrix_processing_pending") now s, evs) else conclude None None evs
    | Thrown code => (postpone row code now s, evs)
    end
  else if String.eqb (i_kind row) "request" then conclude (Some (i_payload row)) None []
  else
    match runProtocol o with
    | Reply receipt => conclude None (if to_bool receipt then Some receipt else None) evs
    | Failed code => (postpone row code now s, evs)
    end.

(** The [transaction] that bridge-matrix.js hands to the client: which events the router is given. A row
    of an earlier generation loses the probes of the fleet, whose machine is gone. *)
Definition FLEET_PROBE_EVENT : string := "com.hagency.connection.probe.v1".
Definition transaction (g : Z) (row : InboxRow) : result (string * list jval) :=
  match prop (i_payload row) "transactionId", prop (prop (i_payload row) "body") "events" with
  | JStr txn, JArr events =>
      Ok (txn, if i_generation row =? g then events else List.filter (λ ev, negb (strict_eq (prop ev "type") (JStr FLEET_PROBE_EVENT))) events)
  | _, _ => Throw "invalid outbound Matrix transaction"
  end.

(** ** Publication and reconciliation *)

(** [publishOnce] once the capabilities are known; an update that waits goes first. *)
Definition body (g : Z) (capabilities : jval) (statuses : list jval) : list (string * jval) :=
  [("v", JNum (Fin 2)); ("generation", JNum (Fin (inject_Z g))); ("heartbeat", JBool true); ("capabilities", capabilities); ("statuses", JArr statuses)].

Definition publish (g : Z) (capabilities : jval) (now : Z) (s : DB) : result (jval * DB) :=
  enqueueUpdate (body g capabilities (requestSnapshots toISOString now s)) s.

(** The [catch] of [reconcileRequestsOnce]: what is recorded of a request that could not be verified. *)
Definition unreachable (row : RequestRow) : jval :=
  let st := match status row with Some v => v | None => JUndef end in
  JObj (assign [("state", if r_admitted row && is_Some_b (status row) then prop st "state" else JStr "submission_pending");
                ("ready", JBool false);
                ("fulfillment", JObj [("phase", JStr (if r_admitted row then "verification" else "admission")); ("incomplete", JBool true);
                   ("error", JStr "Hagency is retrying request verification; see its provider diagnostics.")])]
          (assign (members st) (members (r_payload row)))).

(** ** The store, the client over it, and what happened *)

Record System : Type := MkSystem { db : DB; client : option Client; log : list event }.
#[export] Instance eta_system : Settable System := λ s, MkSystem (db s) (client s) (log s).

Definition fresh (g : Z) : Client := MkClient g LIdle LIdle PIdle [].

(** The acknowledgement that a lane has sent. *)
Definition ack_of (p : lane_pc) : list event :=
  match p with
  | LStored d =>
      match prop d "lane", prop d "id", prop d "token", prop d "kind" with JStr l, JStr id, JStr t, JStr k => [EAckSent l id t k (prop d "payload")] | _, _, _, _ => [] end
  | LAcking r => [ERowAckSent (lane r) (i_id r) (token r)]
  | _ => []
  end.

Definition enter_lane (l : string) (p : lane_pc) (c : Client) (s : DB) (lg : list event) : System :=
  MkSystem s (Some (set_lane l p c)) (lg ++ ack_of p).

Inductive step : relation System :=
(* a client starts on the store, and stops or dies *)
| s_start g print s s' ch lg : activateTransport g print s = Ok (s', ch) → step (MkSystem s None lg) (MkSystem s' (Some (fresh g)) lg)
| s_stop s c lg : step (MkSystem s (Some c) lg) (MkSystem s None lg)
(* the lanes *)
| s_turn l now s c lg : lane_of l c = LIdle → l ∈ LANES → step (MkSystem s (Some c) lg) (enter_lane l (turn l now s) c s lg)
| s_poll l r s c lg : lane_of l c = LPolling → l ∈ LANES →
    step (MkSystem s (Some c) lg) (let '(p, s') := onPoll l (gen c) (call r) s in enter_lane l p c s' lg)
| s_stored_ack l d r s c lg : lane_of l c = LStored d → l ∈ LANES →
    step (MkSystem s (Some c) lg)
      (match prop d "id" with JStr id => enter_lane l LIdle c (onAck id l (call r) s).2 lg | _ => enter_lane l LIdle c s lg end)
| s_row_ack l row r now s c lg : lane_of l c = LAcking row → l ∈ LANES →
    step (MkSystem s (Some c) lg) (let '(p, s') := onRowAck row (call r) now s in enter_lane l p c s' lg)
| s_handled l row o now s c lg : lane_of l c = LHandling row → l ∈ LANES →
    step (MkSystem s (Some c) lg) (let '(s', evs) := onHandled row o now s in enter_lane l LIdle c s' (lg ++ evs))
| s_idle l s c lg : l ∈ LANES → step (MkSystem s (Some c) lg) (enter_lane l LIdle c s lg)
| s_lane_throws l row code now s c lg : (lane_of l c = LAcking row ∨ lane_of l c = LHandling row) → l ∈ LANES →
    step (MkSystem s (Some c) lg) (enter_lane l LIdle c (postpone row code now s) lg)
(* the publication *)
| s_publish_pending payload s c lg : publishing c = PIdle → pendingUpdate s = Some payload →
    step (MkSystem s (Some c) lg) (MkSystem s (Some (c <| publishing := PSending payload |>)) (lg ++ [ESent (gen c) payload]))
| s_publish_ask s c lg : publishing c = PIdle → pendingUpdate s = None →
    step (MkSystem s (Some c) lg) (MkSystem s (Some (c <| publishing := PCapabilities |>)) lg)
| s_publish now o capabilities payload s' s c lg : publishing c = PCapabilities → publish (gen c) capabilities now s = Ok (payload, s') → runProtocol o = Reply capabilities →
    step (MkSystem s (Some c) lg)
      (MkSystem s' (Some (c <| publishing := PSending payload |>)) (lg ++ [EFrozen (gen c) payload now; ESent (gen c) payload]))
| s_accepted payload r data s' s c lg : publishing c = PSending payload → updateAccepted num_str sha256 payload s = Ok s' → call r = Reply data →
    step (MkSystem s (Some c) lg) (MkSystem s' (Some (c <| publishing := PIdle |>)) (lg ++ [EAccepted (gen c) payload]))
| s_publish_fails s c lg : step (MkSystem s (Some c) lg) (MkSystem s (Some (c <| publishing := PIdle |>)) lg)
(* the reconciliation: requests that are due are deferred and taken up, one by one *)
| s_due now row s c lg : row ∈ dueRequests now s →
    step (MkSystem s (Some c) lg)
      (let t := if r_admitted row then TAsking row else TAdmitting row in
       MkSystem (deferRequest (r_id row) now s) (Some (c <| tasks := tasks c ++ [t] |>)) lg)
| s_admitted row o data ts1 ts2 s c lg : tasks c = ts1 ++ TAdmitting row :: ts2 → runProtocol o = Reply data →
    step (MkSystem s (Some c) lg) (MkSystem (admitted (r_id row) s) (Some (c <| tasks := ts1 ++ TAsking row :: ts2 |>)) lg)
| s_observed row o st now ts1 ts2 s c lg : tasks c = ts1 ++ TAsking row :: ts2 → runProtocol o = Reply st →
    step (MkSystem s (Some c) lg)
      (MkSystem (observeRequest (r_id row) st now s) (Some (c <| tasks := ts1 ++ ts2 |>)) (lg ++ [EObserved (r_id row) (clone st) now]))
| s_unverified row now t ts1 ts2 s c lg : tasks c = ts1 ++ t :: ts2 → t = TAdmitting row ∨ t = TAsking row →
    step (MkSystem s (Some c) lg) (MkSystem (observeRequest (r_id row) (unreachable row) now s) (Some (c <| tasks := ts1 ++ ts2 |>)) lg)
| s_task_dies t ts1 ts2 s c lg : tasks c = ts1 ++ t :: ts2 →
    step (MkSystem s (Some c) lg) (MkSystem s (Some (c <| tasks := ts1 ++ ts2 |>)) lg).

(** A new file. *)
Definition start (b : jval) (uuid : string) : System :=
  MkSystem (MkDB (outboundDigest num_str sha256 b) uuid 0 None None 0 [] [] [] None) None [].

End client.
End FleetClient.
