(* ===== verification/FleetFacts.v ===== *)
(** * Facts of the fleet's store ([FleetStore])

    What each operation does to the rows of the inbox: it touches one lane, keeps the content of every
    row and its place, and only [finish] completes a row. *)

From Stdlib Require Import ZArith QArith Lia String Ascii.
From stdpp Require Import base list strings relations.
From S2P Require Import Prelude OMap Json ExecAuth ProjectSides FleetStore FleetClient.
#[local] Open Scope stdpp_scope.
Import FleetStore FleetClient.
#[local] Existing Instances eta_inbox eta_request eta_db eta_client.

(** ** Rows keep their content *)

Record same (r r' : InboxRow) : Prop := MkSame {
  same_id : i_id r' = i_id r; same_lane : lane r' = lane r; same_kind : i_kind r' = i_kind r; same_payload : i_payload r' = i_payload r;
  same_digest : i_digest r' = i_digest r; same_generation : i_generation r' = i_generation r;
}.

#[export] Instance same_preorder : PreOrder same.
Proof. split; [by intros r; split|]. intros a b c [] []. split; congruence. Qed.

Lemma same_name r r' : same r r' → (lane r', i_id r') = (lane r, i_id r).
Proof. intros []. congruence. Qed.

Lemma named_spec l id r : named l id r = true ↔ lane r = l ∧ i_id r = id.
Proof. unfold named. rewrite andb_true_iff, !String.eqb_eq. done. Qed.

Lemma named_same l id r r' : same r r' → named l id r' = named l id r.
Proof. intros []. unfold named. congruence. Qed.

(** [fin] is the row that the operation may complete. *)
Record touch (l : string) (fin : option string) (f : InboxRow → InboxRow) : Prop := MkTouch {
  touch_same : ∀ r, same r (f r);
  touch_lane : ∀ r, lane r ≠ l → f r = r;
  touch_done : ∀ r, state r = Done → state (f r) = Done;
  touch_fin : ∀ r, state (f r) = Done → state r = Done ∨ fin = Some (i_id r);
}.

(** The inbox of [s'] is that of [s] after an operation on lane [l]. *)
Inductive touched (l : string) (fin : option string) (s s' : DB) : Prop :=
| touched_map f : touch l fin f → inbox s' = f <$> inbox s → touched l fin s s'
| touched_new row : fin = None → inbox s' = inbox s ++ [row] → lane row = l → l ∈ LANES → state row = Received →
    (∀ r, r ∈ inbox s → named l (i_id row) r = false) → touched l fin s s'.

Lemma touch_where l fin p f :
  (∀ r, p r = true → lane r = l ∧ same r (f r) ∧ (state r = Done → state (f r) = Done) ∧ (state (f r) = Done → state r = Done ∨ fin = Some (i_id r))) →
  touch l fin (λ r, if p r then f r else r).
Proof.
  intros H. split; intros r; destruct (p r) eqn:E; try done; try (destruct (H r E) as (? & ? & ? & ?); auto; done). by left.
Qed.

Lemma touched_id l s : touched l None s s.
Proof. apply (touched_map _ _ _ _ (λ r, r)); [split; naive_solver|]. by rewrite list_fmap_id. Qed.

(** Neither the requests nor the metadata play a part. *)
Lemma touched_inbox l fin s s1 s2 : inbox s1 = inbox s2 → touched l fin s s1 → touched l fin s s2.
Proof. intros E [f Hf Hi|row]; [eapply touched_map; [done|congruence]|]. eapply touched_new; try done. congruence. Qed.

Lemma is_done_spec r : is_done r = true ↔ state r = Done.
Proof. unfold is_done. apply bool_decide_eq_true. Qed.

Lemma laneFor_lane id l s l' : laneFor id (Some l) s = Ok l' → l' = l ∧ l ∈ LANES.
Proof. unfold laneFor. intros H. js_inv H. injection H as <-. split; [done|]. by apply inb_spec, negb_false_iff. Qed.

Lemma set_state_touched d l id s : d ≠ Done → touched l None s (set_state d l id s).
Proof.
  intros Hd. apply (touched_map _ _ _ _ (λ r, if named l id r && negb (is_done r) then r <| state := d |> else r)); [|done].
  apply touch_where. intros r [Hn Hx]%andb_true_iff. apply named_spec in Hn as [Hl _].
  split_and!; [done|by split| |by left; destruct d]. intros E%is_done_spec. by rewrite E in Hx.
Qed.

Lemma acknowledged_touched id l s s' : acknowledged id (Some l) s = Ok s' → touched l None s s'.
Proof. unfold acknowledged. intros (l' & [-> _]%laneFor_lane & [= <-])%bind_Ok. by apply set_state_touched. Qed.

Lemma reclaim_touched id l s s' : reclaim id (Some l) s = Ok s' → touched l None s s'.
Proof. unfold reclaim. intros (l' & [-> _]%laneFor_lane & [= <-])%bind_Ok. by apply set_state_touched. Qed.

Lemma retry_touched id code now l s s' : retry id code now (Some l) s = Ok s' → touched l None s s'.
Proof.
  unfold retry. intros (l' & [-> _]%laneFor_lane & [= <-])%bind_Ok.
  apply (touched_map _ _ _ _ (λ r, if named l id r then r <| retry_at := now + 5000 |> <| error := Some (slice_to 160 code) |> else r)); [|done].
  apply touch_where. intros r [Hl _]%named_spec. split_and!; [done|by split|done|by left].
Qed.

Lemma postpone_touched num_str row code now s : touched (lane row) None s (postpone num_str row code now s).
Proof. unfold postpone. destruct (retry _ _ _ _ _) as [s'|] eqn:E; [by eapply retry_touched|apply touched_id]. Qed.

Lemma delivery_of_spec d id l k t p : delivery_of d = Some (id, l, k, t, p) →
  prop d "id" = JStr id ∧ prop d "lane" = JStr l ∧ prop d "kind" = JStr k ∧ prop d "token" = JStr t ∧ prop d "payload" = p ∧
  l ∈ LANES ∧ k ∈ KINDS ∧ (l = "matrix" ↔ k = "transaction").
Proof.
  unfold delivery_of, bounded, one_of.
  destruct (prop d "id") as [| | | |a| | |]; try done. destruct (truthy a && _)%nat; [|done].
  destruct (prop d "lane") as [| | | |b| | |]; try done. destruct (inb b LANES) eqn:Hb; [|done].
  destruct (prop d "kind") as [| | | |c| | |]; try done. destruct (inb c KINDS) eqn:Hc; [|done].
  destruct (prop d "token") as [| | | |e| | |]; try done. destruct (truthy e && _)%nat; [|done].
  destruct (prop d "payload") as [| | | | | |o|]; try done.
  destruct (Bool.eqb (String.eqb b "matrix") (String.eqb c "transaction")) eqn:E; [|done]. intros [= -> -> -> -> <-].
  apply inb_spec in Hb, Hc. split_and!; try done.
  apply eqb_prop in E. destruct (String.eqb_spec l "matrix"), (String.eqb_spec k "transaction"); naive_solver.
Qed.

Lemma find_none_elem {A} (p : A → bool) l : List.find p l = None → ∀ x, x ∈ l → p x = false.
Proof. intros H x Hx. eapply find_none; [done|]. by apply list_elem_of_In. Qed.

Lemma find_some_elem {A} (p : A → bool) l x : List.find p l = Some x → x ∈ l ∧ p x = true.
Proof. intros [H ?]%find_some. split; [by apply list_elem_of_In|done]. Qed.

Lemma find_first {A} (p : A → bool) l x : List.find p l = Some x → ∃ i, l !! i = Some x ∧ p x = true ∧ ∀ j y, (j < i)%nat → l !! j = Some y → p y = false.
Proof.
  induction l as [|a l IH]; [done|]. cbn. destruct (p a) eqn:E.
  - intros [= <-]. exists 0%nat. split_and!; [done..|]. intros j y ?. lia.
  - intros (i & Hi & Hp & Hb)%IH. exists (S i). split_and!; [done..|]. intros [|j] y Hj; [by intros [= <-]|]. apply Hb. lia.
Qed.

Section facts.
Context (num_str : num → string) (sha256 : string → string).

(** The digest of a content, and a row whose digest is that of the content it was given. *)
Definition digest_of (l kind : string) (payload : jval) : string := outboundDigest num_str sha256 (JObj [("lane", JStr l); ("kind", JStr kind); ("payload", payload)]).
Definition digested (r : InboxRow) : Prop := ∃ sent, i_payload r = clone sent ∧ i_digest r = digest_of (lane r) (i_kind r) sent.

Lemma receive_spec d g s s' : receive num_str sha256 d g s = Ok s' → ∃ id l k t p, delivery_of d = Some (id, l, k, t, p) ∧
  touched l None s s' ∧ (∃ r, r ∈ inbox s' ∧ named l id r = true ∧ i_digest r = digest_of l k p) ∧
  (∀ r', r' ∈ inbox s' → (∃ r, r ∈ inbox s ∧ same r r') ∨ digested r') ∧ s' = s <| inbox := inbox s' |>.
Proof.
  unfold receive. destruct (_ || _ || _); [done|].
  destruct (delivery_of d) as [[[[[id l] k] t] p]|] eqn:Hd; [|done]. intros H. fold (digest_of l k p) in H. js_inv H. exists id, l, k, t, p. split; [done|].
  pose proof (delivery_of_spec _ _ _ _ _ _ Hd) as (_ & _ & _ & _ & _ & Hl & _ & _).
  destruct (List.find (named l id) (inbox s)) as [r|] eqn:Ef; injection H as <-; cbn [inbox].
  - apply find_some_elem in Ef as [Hr Hn]. split_and!; [| | |done].
    + apply (touched_map _ _ _ _ (λ r, if named l id r then redelivered t r else r)); [|done].
      apply touch_where. intros x [Hx _]%named_spec. split_and!; [done|by split| |].
      * intros Hdone%is_done_spec. unfold redelivered. by rewrite Hdone.
      * unfold redelivered. destruct (is_done x) eqn:Hx'; [by left; apply is_done_spec|done].
    + exists (redelivered t r). split_and!; [|by rewrite (named_same _ _ r)|by apply String.eqb_eq, negb_false_iff]. cbn. apply list_elem_of_In, in_map_iff. exists r. rewrite Hn. split; [done|by apply list_elem_of_In].
    + intros r' Hr'. left. apply list_elem_of_In, in_map_iff in Hr' as (x & <- & Hx). exists x. split; [by apply list_elem_of_In|]. by destruct (named l id x).
  - split_and!; [| | |done].
    + eapply touched_new; try done. intros r Hr. by eapply find_none_elem.
    + eexists. split_and!; [apply elem_of_app; right; by apply list_elem_of_singleton|by apply named_spec|done].
    + intros r' [Hr'| ->%list_elem_of_singleton]%elem_of_app; [left; by exists r'|right]. by exists p.
Qed.

(** Requests are never dropped, and their payload never changes. *)
Definition requests_kept (s s' : DB) : Prop := ∀ q, q ∈ requests s → ∃ q', q' ∈ requests s' ∧ r_id q' = r_id q ∧ r_payload q' = r_payload q.

#[export] Instance requests_kept_refl : Reflexive requests_kept.
Proof. intros s q Hq. eauto. Qed.

Lemma requests_kept_eq s s' : requests s' = requests s → requests_kept s s'.
Proof. intros E q Hq. exists q. by rewrite E. Qed.

Lemma on_request_kept id f s : (∀ q, r_id (f q) = r_id q ∧ r_payload (f q) = r_payload q) → requests_kept s (on_request id f s).
Proof.
  intros Hf q Hq. exists (if String.eqb (r_id q) id then f q else q). split; [|destruct (String.eqb _ _); [apply Hf|done]].
  cbn. apply list_elem_of_In, in_map_iff. exists q. split; [done|by apply list_elem_of_In].
Qed.

(** The request that a payload asks for is on file. *)
Definition is_tracked (payload : jval) (s : DB) : Prop :=
  ∃ q id, prop payload "requestId" = JStr id ∧ q ∈ requests s ∧ r_id q = id ∧
    (r_payload q = clone payload ∨ outboundDigest num_str sha256 (r_payload q) = outboundDigest num_str sha256 payload).

Lemma is_tracked_kept payload s s' : requests_kept s s' → is_tracked payload s → is_tracked payload s'.
Proof.
  intros Hk (q & id & Hid & Hq & <- & Hp). apply Hk in Hq as (q' & Hq' & Ei & Ep).
  exists q', (r_id q). rewrite Ep. done.
Qed.

Lemma track_spec q s s' : track num_str sha256 q s = Ok s' → is_tracked q s' ∧ requests_kept s s' ∧ s' = s <| requests := requests s' |>.
Proof.
  unfold track. destruct (prop q "requestId") as [| | | |id| | |] eqn:Hid; try done.
  destruct (find_request id s) as [r|] eqn:Ef.
  - destruct (String.eqb _ _) eqn:E; [|done]. intros [= <-]. apply find_some_elem in Ef as [Hr Hn%String.eqb_eq]. apply String.eqb_eq in E.
    split_and!; [|done|by destruct s]. exists r, id. split_and!; try done. by right.
  - intros [= <-]. split_and!; [| |done].
    + exists (MkRequest id (clone q) false None 0 0), id. split_and!; try done; [|by left]. cbn. apply elem_of_app. right. by apply list_elem_of_singleton.
    + intros x Hx. exists x. split_and!; try done. cbn. apply elem_of_app. by left.
Qed.

Lemma finish_spec id q p l s s' : finish num_str sha256 id q p (Some l) s = Ok s' →
  touched l (Some id) s s' ∧ requests_kept s s' ∧ (∀ v, q = Some v → is_tracked v s') ∧
  s' = s <| inbox := inbox s' |> <| requests := requests s' |> <| receipts := receipts s' |>.
Proof.
  unfold finish. intros (l' & [-> _]%laneFor_lane & H)%bind_Ok. apply bind_Ok in H as (s1 & H1 & H). apply bind_Ok in H as (s2 & H2 & [= <-]).
  assert (E2 : s2 = s1 <| receipts := receipts s2 |>).
  { destruct p as [v|]; [|injection H2 as <-; by destruct s1]. unfold keep_receipt in H2. destruct (prop v _); try done. by injection H2 as <-. }
  assert (E1 : s1 = s <| requests := requests s1 |> ∧ requests_kept s s1 ∧ ∀ v, q = Some v → is_tracked v s1).
  { destruct q as [v|]; [|injection H1 as <-; split_and!; [by destruct s|done|done]]. apply track_spec in H1 as (? & ? & ?). split_and!; [done|done|]. by intros ? [= <-]. }
  destruct E1 as (E1 & Hk & Ht). rewrite E2, E1. split_and!; [| | |done].
  - apply (touched_map _ _ _ _ (λ r, if named l id r then r <| state := Done |> <| error := None |> else r)); [|done].
    apply touch_where. intros r [Hl Hi]%named_spec. split_and!; [done|by split|done|]. intros _. right. by rewrite Hi.
  - intros x Hx%Hk. exact Hx.
  - intros v Hv%Ht. revert Hv. by apply is_tracked_kept, requests_kept_eq.
Qed.

(** The work on a row returned an answer of status 200. *)
Definition worked (lg : list event) (r : InboxRow) : Prop := ∃ v q, EReturned (lane r) (i_id r) (i_payload r) v ∈ lg ∧ prop v "status" = JNum (Fin q) ∧ (q == 200)%Q.

(** What is handled: postponed, or finished with what its kind asks for. *)
Lemma handled_spec row o now s : let '(s', evs) := onHandled num_str sha256 row o now s in (evs = [] ∨ ∃ v, evs = [EReturned (lane row) (i_id row) (i_payload row) v]) ∧
  ((∃ code, s' = postpone num_str row code now s) ∨
   ∃ request receipt, finish num_str sha256 (i_id row) request receipt (Some (lane row)) s = Ok s' ∧
     (String.eqb (i_kind row) "request" = true → String.eqb (i_kind row) "transaction" = false → request = Some (i_payload row)) ∧
     ((String.eqb (i_kind row) "transaction" = true ∨ String.eqb (i_kind row) "request" = false) → worked evs row)).
Proof.
  unfold onHandled. set (evs := match o with Returned v => [EReturned (lane row) (i_id row) (i_payload row) v] | Thrown _ => [] end).
  assert (Hev : evs = [] ∨ ∃ v, evs = [EReturned (lane row) (i_id row) (i_payload row) v]) by (unfold evs; destruct o; eauto).
  assert (Hw : ∀ v, o = Returned v → is200 v = true → worked evs row).
  { intros v -> H. unfold is200 in H. destruct (prop v "status") as [| | |[| |q]| | | |] eqn:Es; try done. exists v, q. split; [by apply list_elem_of_singleton|]. split; [done|by apply Qeq_bool_iff]. }
  destruct (String.eqb (i_kind row) "transaction") eqn:E1; [|destruct (String.eqb (i_kind row) "request") eqn:E2].
  - destruct o as [v|code]; [|split; [done|left; eauto]]. destruct (is200 v) eqn:E; cbn [negb]; [|split; [done|left; eauto]].
    destruct (finish _ _ _ _ _ _ _) as [s'|] eqn:Ef; (split; [done|]); [right; eexists _, _; split_and!; [exact Ef|done|eauto]|left; eauto].
  - destruct (finish _ _ _ _ _ _ _) as [s'|] eqn:Ef; (split; [by left|]); [right; eexists _, _; split_and!; [exact Ef|done|by intros [?|?]]|left; eauto].
  - destruct (runProtocol o) as [receipt|code] eqn:Er; [|split; [done|left; eauto]].
    destruct (finish _ _ _ _ _ _ _) as [s'|] eqn:Ef; (split; [done|]); [right; eexists _, _; split_and!; [exact Ef|done|intros _]|left; eauto].
    destruct o as [v|]; [|done]. apply (Hw v eq_refl). cbn in Er. destruct (is_nullish v); [done|]. by destruct (is200 v).
Qed.

(** The rotation of a transport, or its first activation. *)
Lemma rotate_same g r : same r ((λ r, if is_probe r && negb (is_done r) && (i_generation r <? g) then retire r else r) (if negb (is_probe r) && negb (is_done r) then carry_over r else r)).
Proof. cbv beta. repeat case_match; by split. Qed.

Lemma rotate_inbox_rows g rows : ∃ f, rotate_inbox g rows = f <$> rows ∧ (∀ r, same r (f r)) ∧
  (∀ r, state r = Done → f r = r) ∧ (∀ r, state (f r) = Done → state r = Done ∨ is_probe r = true ∧ i_generation r < g).
Proof.
  unfold rotate_inbox, update_where. rewrite List.map_map. eexists. split; [reflexivity|]. cbv beta. split_and!.
  - apply rotate_same.
  - intros r H%is_done_spec. rewrite H, !andb_false_r. by rewrite H, andb_false_r.
  - intros r. destruct (is_done r) eqn:E; [by left; apply is_done_spec|]. destruct (is_probe r) eqn:Ep; cbn [negb andb].
    + rewrite Ep, E. cbn [negb andb]. destruct (Z.ltb_spec (i_generation r) g); [by right|]. by left.
    + change (is_probe (carry_over r)) with (is_probe r). by rewrite Ep.
Qed.

Lemma activate_spec g print s s' ch : activateTransport g print s = Ok (s', ch) →
  generation s' = Some g ∧ (∀ p, generation s = Some p → p ≤ g) ∧
  ((inbox s' = inbox s ∧ requests s' = requests s ∧ outbox s' = outbox s ∧ sequence s' = sequence s ∧ (generation s = Some g ∨ generation s = None)) ∨
   (inbox s' = rotate_inbox g (inbox s) ∧ requests s' = List.map forget_observation (requests s) ∧ outbox s' = None ∧ sequence s' = 0 ∧ ∀ p, generation s = Some p → p < g)).
Proof.
  unfold activateTransport. destruct (_ || _ || _ || _)%bool; [done|]. unfold previousGeneration.
  destruct (generation s) as [p|] eqn:Eg.
  - cbn [is_Some_b negb andb]. destruct (Z.eqb_spec p g) as [->|].
    + destruct (bool_decide _); [|done]. intros [= <- <-]. split_and!; [done|by intros ? [= <-]|left; split_and!; by auto].
    + destruct (Z.ltb_spec g p); [done|]. intros [= <- <-]. split_and!; [done|intros ? [= <-]; lia|right]. split_and!; try done. intros ? [= <-]. lia.
  - set (prev := match pendingUpdate s with Some _ => _ | None => _ end). destruct prev as [p|].
    + cbn [is_Some_b negb andb]. destruct (Z.eqb_spec p g) as [->|].
      * intros [= <- <-]. split_and!; [done|done|left; split_and!; by auto].
      * destruct (Z.ltb_spec g p); [done|]. intros [= <- <-]. split_and!; [done|done|by right].
    + intros [= <- <-]. split_and!; [done|done|left; split_and!; by auto].
Qed.

End facts.

(** ** A run of a fleet's client

    A transaction and a request arrive, are acknowledged and processed; the request is admitted and
    found ready; two updates are published. *)

From Stdlib Require Import ZArith QArith Lia String Ascii.
From stdpp Require Import base list strings relations.
From S2P Require Import Prelude OMap Json ExecAuth ProjectSides FleetStore FleetClient.
#[local] Open Scope stdpp_scope.

Module FleetSample.
Import FleetStore FleetClient.
#[local] Existing Instances eta_inbox eta_request eta_db eta_client.

(** Any printing of numbers, digest and clock face. *)
Definition num_str (n : num) : string := match n with Fin q => if Qeq_bool q 1 then "1" else if Qeq_bool q 2 then "2" else "0" | _ => "NaN" end.
Definition sha256 (s : string) : string := s.
Definition toISOString (t : Z) : string := "1970-01-01T00:00:00.000Z".
Abbreviation step := (step num_str sha256 toISOString).

Definition delivery (l k id : string) (payload : jval) : jval :=
  JObj [("id", JStr id); ("lane", JStr l); ("kind", JStr k); ("token", JStr ("lease-" +:+ id)); ("payload", payload)].
Definition polled (d : jval) : response := Response 200 (JObj [("v", JNum (Fin 2)); ("generation", JNum (Fin 1)); ("delivery", d)]).
Definition fine : response := Response 200 JNull.
Definition routed : outcome := Returned (JObj [("status", JNum (Fin 200)); ("body", JObj [])]).
Definition returns (v : jval) : outcome := Returned (JObj [("status", JNum (Fin 200)); ("body", v)]).

Definition transaction1 : jval := JObj [("transactionId", JStr "t1"); ("body", JObj [("events", JArr [])])].
Definition request1 : jval := JObj [("requestId", JStr "q1"); ("role", JStr "coding")].
Definition ready1 : jval := JObj [("requestId", JStr "q1"); ("state", JStr "active"); ("ready", JBool true)].

Definition s0 : System := start num_str sha256 (JStr "binding") "consumer".

Definition db0 : DB := Eval vm_compute in match activateTransport 1 "machine" (db s0) with Ok (s, _) => s | Throw _ => db s0 end.
Definition db1 : DB := Eval vm_compute in (onPoll num_str sha256 "matrix" 1 (call (polled (delivery "matrix" "transaction" "d1" transaction1))) db0).2.
Definition db2 : DB := Eval vm_compute in (onAck "d1" "matrix" (call fine) db1).2.
Definition row2 : InboxRow := Eval vm_compute in default (MkInbox "" "" "" "" JNull "" Received 0 0 None) (next "matrix" 1000 db2).
Definition db3 : DB := Eval vm_compute in (onHandled num_str sha256 row2 routed 1000 db2).1.
Definition db4 : DB := Eval vm_compute in (onPoll num_str sha256 "work" 1 (call (polled (delivery "work" "request" "d1" request1))) db3).2.
Definition row4 : InboxRow := Eval vm_compute in default row2 (next "work" 1000 db4).
Definition db5 : DB := Eval vm_compute in (onRowAck num_str row4 (call fine) 1000 db4).2.
Definition db6 : DB := Eval vm_compute in (onHandled num_str sha256 row4 routed 1000 db5).1.

Definition client0 : Client := fresh 1.
Definition at_matrix (p : lane_pc) : Client := MkClient 1 p LIdle PIdle [].
Definition at_work (p : lane_pc) : Client := MkClient 1 LIdle p PIdle [].

Definition log1 : list event := [EAckSent "matrix" "d1" "lease-d1" "transaction" transaction1].
Definition log3 : list event := log1 ++ [EReturned "matrix" "d1" transaction1 (JObj [("status", JNum (Fin 200)); ("body", JObj [])])].
Definition log4 : list event := log3 ++ [EAckSent "work" "d1" "lease-d1" "request" request1] ++ [ERowAckSent "work" "d1" "lease-d1"].

Definition s1 : System := MkSystem db1 (Some (at_matrix (LStored (delivery "matrix" "transaction" "d1" transaction1)))) log1.
Definition s2 : System := MkSystem db2 (Some (at_matrix (LHandling row2))) log1.
Definition s3 : System := MkSystem db3 (Some client0) log3.
Definition s4 : System := MkSystem db4 (Some (at_work (LAcking row4))) log4.
Definition s6 : System := MkSystem db6 (Some client0) log4.

Lemma run1 : rtc step s0 s1.
Proof.
  apply (rtc_l _ s0 (MkSystem db0 (Some client0) [])); [apply (s_start _ _ _ 1 "machine" (db s0) db0 true []); vm_compute; reflexivity|].
  apply (rtc_l _ _ (MkSystem db0 (Some (at_matrix LPolling)) [])); [exact (s_turn num_str sha256 toISOString "matrix" 1000 db0 client0 [] eq_refl ltac:(by left))|].
  apply rtc_once. exact (s_poll num_str sha256 toISOString "matrix" (polled (delivery "matrix" "transaction" "d1" transaction1)) db0 (at_matrix LPolling) [] eq_refl ltac:(by left)).
Qed.

Lemma run2 : rtc step s0 s2.
Proof.
  transitivity s1; [exact run1|].
  apply (rtc_l _ _ (MkSystem db2 (Some client0) log1)); [exact (s_stored_ack num_str sha256 toISOString "matrix" _ fine db1 (at_matrix (LStored _)) log1 eq_refl ltac:(by left))|].
  apply rtc_once. exact (s_turn num_str sha256 toISOString "matrix" 1000 db2 client0 log1 eq_refl ltac:(by left)).
Qed.

Lemma run3 : rtc step s0 s3.
Proof.
  transitivity s2; [exact run2|].
  apply rtc_once. exact (s_handled num_str sha256 toISOString "matrix" row2 routed 1000 db2 (at_matrix (LHandling row2)) log1 eq_refl ltac:(by left)).
Qed.

Lemma run6 : rtc step s0 s6.
Proof.
  transitivity s3; [exact run3|].
  apply (rtc_l _ _ (MkSystem db3 (Some (at_work LPolling)) log3)); [exact (s_turn num_str sha256 toISOString "work" 1000 db3 client0 log3 eq_refl ltac:(by right; left))|].
  apply (rtc_l _ _ (MkSystem db4 (Some (at_work (LStored (delivery "work" "request" "d1" request1)))) (log3 ++ [EAckSent "work" "d1" "lease-d1" "request" request1])));
    [exact (s_poll num_str sha256 toISOString "work" (polled (delivery "work" "request" "d1" request1)) db3 (at_work LPolling) log3 eq_refl ltac:(by right; left))|].
  (* the answer to the acknowledgement is lost; the row is acknowledged again before it is processed *)
  apply (rtc_l _ _ (MkSystem db4 (Some client0) (log3 ++ [EAckSent "work" "d1" "lease-d1" "request" request1])));
    [exact (s_stored_ack num_str sha256 toISOString "work" _ (NoResponse JUndef) db4 (at_work (LStored _)) _ eq_refl ltac:(by right; left))|].
  apply (rtc_l _ _ s4); [exact (s_turn num_str sha256 toISOString "work" 1000 db4 client0 (log3 ++ [EAckSent "work" "d1" "lease-d1" "request" request1]) eq_refl ltac:(by right; left))|].
  apply (rtc_l _ _ (MkSystem db5 (Some (at_work (LHandling row4))) log4));
    [exact (s_row_ack num_str sha256 toISOString "work" row4 fine 1000 db4 (at_work (LAcking row4)) log4 eq_refl ltac:(by right; left))|].
  apply rtc_once. exact (s_handled num_str sha256 toISOString "work" row4 routed 1000 db5 (at_work (LHandling row4)) log4 eq_refl ltac:(by right; left)).
Qed.

(** The request is taken up, admitted and found ready; then two updates. *)
Definition row6 : RequestRow := Eval vm_compute in default (MkRequest "" JNull false None 0 0) (head (dueRequests 1000 db6)).
Definition db7 : DB := Eval vm_compute in observeRequest "q1" ready1 1500 (admitted "q1" (deferRequest "q1" 1000 db6)).
Definition log7 : list event := log4 ++ [EObserved "q1" ready1 1500].
Definition s7 : System := MkSystem db7 (Some client0) log7.

Lemma run7 : rtc step s0 s7.
Proof.
  transitivity s6; [exact run6|].
  apply (rtc_l _ _ (MkSystem (deferRequest "q1" 1000 db6) (Some (MkClient 1 LIdle LIdle PIdle [TAdmitting row6])) log4));
    [exact (s_due num_str sha256 toISOString 1000 row6 db6 client0 log4 ltac:(by left))|].
  apply (rtc_l _ _ (MkSystem (admitted "q1" (deferRequest "q1" 1000 db6)) (Some (MkClient 1 LIdle LIdle PIdle [TAsking row6])) log4));
    [exact (s_admitted num_str sha256 toISOString row6 (returns JNull) JNull [] [] (deferRequest "q1" 1000 db6) (MkClient 1 LIdle LIdle PIdle [TAdmitting row6]) log4 eq_refl eq_refl)|].
  apply rtc_once.
  exact (s_observed num_str sha256 toISOString row6 (returns ready1) ready1 1500 [] [] (admitted "q1" (deferRequest "q1" 1000 db6)) (MkClient 1 LIdle LIdle PIdle [TAsking row6]) log4 eq_refl eq_refl).
Qed.

Definition published (now : Z) (s : DB) : jval * DB := match publish toISOString 1 JNull now s with Ok r => r | Throw _ => (JNull, s) end.
Definition accepted (p : jval) (s : DB) : DB := match updateAccepted num_str sha256 p s with Ok s' => s' | Throw _ => s end.

Definition update1 : jval := Eval vm_compute in (published 2000 db7).1.
Definition db8 : DB := Eval vm_compute in (published 2000 db7).2.
Definition db9 : DB := Eval vm_compute in accepted update1 db8.
Definition update2 : jval := Eval vm_compute in (published 3000 db9).1.
Definition db11 : DB := Eval vm_compute in (published 3000 db9).2.
Definition log8 : list event := log7 ++ [EFrozen 1 update1 2000; ESent 1 update1].
Definition log9 : list event := log8 ++ [EAccepted 1 update1].
Definition log11 : list event := log9 ++ [EFrozen 1 update2 3000; ESent 1 update2].
Definition at_publish (p : publish_pc) : Client := MkClient 1 LIdle LIdle p [].
Definition s8 : System := MkSystem db8 (Some (at_publish (PSending update1))) log8.
Definition s9 : System := MkSystem db9 (Some client0) log9.
Definition s11 : System := MkSystem db11 (Some (at_publish (PSending update2))) log11.

Lemma run8 : rtc step s0 s8.
Proof.
  transitivity s7; [exact run7|].
  apply (rtc_l _ _ (MkSystem db7 (Some (at_publish PCapabilities)) log7)); [exact (s_publish_ask num_str sha256 toISOString db7 client0 log7 eq_refl eq_refl)|].
  apply rtc_once. apply (s_publish num_str sha256 toISOString 2000 (returns JNull) JNull update1 db8 db7 (at_publish PCapabilities) log7 eq_refl); vm_compute; reflexivity.
Qed.

Lemma run11 : rtc step s0 s11.
Proof.
  transitivity s8; [exact run8|].
  apply (rtc_l _ _ s9); [apply (s_accepted num_str sha256 toISOString update1 fine JNull db9 db8 (at_publish (PSending update1)) log8 eq_refl); vm_compute; reflexivity|].
  apply (rtc_l _ _ (MkSystem db9 (Some (at_publish PCapabilities)) log9)); [exact (s_publish_ask num_str sha256 toISOString db9 client0 log9 eq_refl eq_refl)|].
  apply rtc_once. apply (s_publish num_str sha256 toISOString 3000 (returns JNull) JNull update2 db11 db9 (at_publish PCapabilities) log9 eq_refl); vm_compute; reflexivity.
Qed.

End FleetSample.
