(* ===== verification/FleetWork.v ===== *)
(** * What a fleet's inbox promises

    A delivery is acknowledged to the server only once it is on file; its content stays; a row is done
    only when its work was; and the matrix lane is worked off in order. *)

From Stdlib Require Import ZArith QArith Lia String Ascii.
From stdpp Require Import base list strings relations.
From S2P Require Import Prelude OMap Json ExecAuth ProjectSides FleetStore FleetClient FleetFacts.
#[local] Open Scope stdpp_scope.
Import FleetStore FleetClient.
#[local] Existing Instances eta_inbox eta_request eta_db eta_client.

Section work.
Context (num_str : num → string) (sha256 : string → string) (toISOString : Z → string).
Abbreviation step := (step num_str sha256 toISOString).

(** ** The invariant *)

(** The row is on file and not done; in the matrix lane every row before it is done, or was handed back
    to the server. *)
Definition in_order (l : string) (row : InboxRow) (rows : list InboxRow) : Prop :=
  ∃ i r, rows !! i = Some r ∧ same row r ∧ state r ≠ Done ∧
    (l = "matrix" → ∀ j x, (j < i)%nat → rows !! j = Some x → lane x = l → state x = Done ∨ state x = Reclaim).

Definition on_file (l id : string) (s : DB) : Prop := ∃ r, r ∈ inbox s ∧ lane r = l ∧ i_id r = id.

(** ... with the digest of a content. *)
Definition filed (l id kind : string) (payload : jval) (s : DB) : Prop :=
  ∃ r, r ∈ inbox s ∧ lane r = l ∧ i_id r = id ∧ i_digest r = digest_of num_str sha256 l kind payload.

(** What an acknowledgement says. *)
Definition ack_ok (e : event) (s : DB) : Prop :=
  match e with EAckSent l id _ kind payload => filed l id kind payload s | ERowAckSent l id _ => on_file l id s | _ => True end.
Definition no_ack (e : event) : Prop := match e with EAckSent _ _ _ _ _ | ERowAckSent _ _ _ => False | _ => True end.

Definition lane_ok (l : string) (p : lane_pc) (s : DB) : Prop :=
  match p with
  | LIdle | LPolling => True
  | LStored d => ∃ id kind, prop d "lane" = JStr l ∧ prop d "id" = JStr id ∧ prop d "kind" = JStr kind ∧ filed l id kind (prop d "payload") s
  | LAcking row | LHandling row => lane row = l ∧ in_order l row (inbox s)
  end.

(** The work of a row was done: the router answered 200 to the transaction, the request is tracked, the
    probe was answered with 200 or belongs to a machine that was replaced. *)
Definition completed (lg : list event) (s : DB) (r : InboxRow) : Prop :=
  if String.eqb (i_kind r) "transaction" then worked lg r
  else if String.eqb (i_kind r) "request" then is_tracked num_str sha256 (i_payload r) s
  else worked lg r ∨ ∃ g, generation s = Some g ∧ i_generation r < g.

Record Inv (st : System) : Prop := MkInv {
  w_names : NoDup ((λ r, (lane r, i_id r)) <$> inbox (db st));
  w_acked : ∀ e, e ∈ log st → ack_ok e (db st);
  w_done : ∀ r, r ∈ inbox (db st) → state r = Done → completed (log st) (db st) r;
  w_lane : ∀ c l, client st = Some c → l ∈ LANES → lane_ok l (lane_of l c) (db st);
}.

(** ** Operations on a lane *)

Lemma lane_set l l' p c : l ∈ LANES → l' ∈ LANES → lane_of l' (set_lane l p c) = if String.eqb l l' then p else lane_of l' c.
Proof.
  intros Hl Hl'. unfold LANES in Hl, Hl'. rewrite !elem_of_cons, elem_of_nil in Hl, Hl'.
  destruct Hl as [->|[->|[]]], Hl' as [->|[->|[]]]; done.
Qed.

Lemma on_file_touched l' fin l id s s' : touched l' fin s s' → on_file l id s → on_file l id s'.
Proof.
  intros Ht (r & Hr & El & Ei). destruct Ht as [f Hf E|row _ E].
  - destruct (touch_same _ _ _ Hf r). exists (f r). split_and!; [|congruence..]. rewrite E. by apply list_elem_of_fmap_2.
  - exists r. split_and!; [|done..]. rewrite E. apply elem_of_app. by left.
Qed.

Lemma filed_touched l' fin l id k p s s' : touched l' fin s s' → filed l id k p s → filed l id k p s'.
Proof.
  intros Ht (r & Hr & El & Ei & Ed). destruct Ht as [f Hf E|row _ E].
  - destruct (touch_same _ _ _ Hf r). exists (f r). split_and!; [|congruence..]. rewrite E. by apply list_elem_of_fmap_2.
  - exists r. split_and!; [|done..]. rewrite E. apply elem_of_app. by left.
Qed.

Lemma ack_touched l' fin e s s' : touched l' fin s s' → ack_ok e s → ack_ok e s'.
Proof. intros Ht. destruct e; try done; cbn; [by eapply filed_touched|by eapply on_file_touched]. Qed.

Lemma in_order_touched l' fin l row s s' : l ≠ l' → lane row = l → touched l' fin s s' → in_order l row (inbox s) → in_order l row (inbox s').
Proof.
  intros Hne Hrow Ht (i & r & Hi & Hs & Hd & Ho). destruct Ht as [f Hf E|new _ E Hl]; rewrite E.
  - assert (Hsame : f r = r). { apply (touch_lane _ _ _ Hf). rewrite (same_lane _ _ Hs). congruence. }
    exists i, r. rewrite list_lookup_fmap, Hi. cbn. rewrite Hsame. split_and!; [done..|]. intros Hm j x Hj Hx Hxl.
    rewrite list_lookup_fmap in Hx. destruct (inbox s !! j) as [y|] eqn:Ey; [|done]. injection Hx as <-.
    destruct (touch_same _ _ _ Hf y) as [_ Hyl _ _ _ _]. rewrite (touch_lane _ _ _ Hf y) by congruence. apply (Ho Hm j); [done|done|congruence].
  - exists i, r. split_and!; [by apply lookup_app_l_Some|done|done|]. intros Hm j x Hj Hx. apply (Ho Hm j); [done|].
    rewrite lookup_app_l in Hx; [done|]. apply lookup_lt_Some in Hi. lia.
Qed.

Lemma completed_mono lg lg' s s' r r' : same r r' → (∀ e, e ∈ lg → e ∈ lg') → requests_kept s s' →
  (∀ p, generation s = Some p → ∃ g, generation s' = Some g ∧ p ≤ g) → completed lg s r → completed lg' s' r'.
Proof.
  intros [Ei El Ek Ep _ Eg] Hlog Hreq Hgen. unfold completed. rewrite Ek, Ep, Eg.
  assert (Hw : worked lg r → worked lg' r') by (intros (v & q & Hv & Hs); exists v, q; rewrite Ei, El, Ep; split; [by apply Hlog|done]).
  destruct (String.eqb _ _); [apply Hw|]. destruct (String.eqb _ _); [by apply is_tracked_kept|].
  intros [H|(g & Hg & Hlt)]; [left; by apply Hw|right]. apply Hgen in Hg as (g' & Hg' & ?). exists g'. split; [done|lia].
Qed.

Lemma names_touched l fin s s' : touched l fin s s' → NoDup ((λ r, (lane r, i_id r)) <$> inbox s) → NoDup ((λ r, (lane r, i_id r)) <$> inbox s').
Proof.
  intros [f Hf ->|row _ -> Hl _ _ Hnew] H.
  - rewrite <-list_fmap_compose. erewrite list_fmap_ext; [exact H|]. intros i r _. apply same_name, (touch_same _ _ _ Hf).
  - rewrite fmap_app. apply NoDup_app. split_and!; [done| |apply NoDup_singleton].
    intros x (r & -> & Hr)%list_elem_of_fmap Hx%list_elem_of_singleton. injection Hx as H1 H2.
    apply Hnew in Hr. assert (named l (i_id row) r = true) by (apply named_spec; by rewrite H1). congruence.
Qed.

(** Everything but the two lanes follows from what the operation touched. *)
Lemma touched_inv l fin s s' c c' lg evs : Inv (MkSystem s (Some c) lg) → touched l fin s s' → requests_kept s s' → generation s' = generation s →
  (∀ r, r ∈ inbox s → lane r = l → fin = Some (i_id r) → completed (lg ++ evs) s' r) →
  (∀ e, e ∈ evs → ack_ok e s') →
  (∀ l', l' ∈ LANES → l' ≠ l → lane_of l' c' = lane_of l' c) → (l ∈ LANES → lane_ok l (lane_of l c') s') →
  Inv (MkSystem s' (Some c') (lg ++ evs)).
Proof.
  intros [Hn Ha Hd Hl] Ht Hreq Hgen Hfin Hack Hother Hown. cbn [db client log] in *. split; cbn [db client log].
  - by eapply names_touched.
  - intros e [H|H]%elem_of_app; [|by eapply Hack]. eapply ack_touched; [done|]. by eapply Ha.
  - intros r Hr Hdone.
    assert (Hmono : ∀ r0, same r0 r → completed lg s r0 → completed (lg ++ evs) s' r).
    { intros r0 Hs. apply completed_mono; [done|intros e He; apply elem_of_app; by left|done|]. intros p Hp. exists p. split; [congruence|lia]. }
    destruct Ht as [f Hf E|row Hf E ? ? Hst].
    + rewrite E in Hr. apply list_elem_of_fmap in Hr as (r0 & -> & Hr0). pose proof (touch_same _ _ _ Hf r0) as Hs.
      destruct (touch_fin _ _ _ Hf r0 Hdone) as [?|Hx]; [apply (Hmono r0 Hs), Hd; done|].
      destruct (decide (lane r0 = l)) as [Hlane|Hlane]; [|rewrite (touch_lane _ _ _ Hf _ Hlane) in Hdone; by apply (Hmono r0 Hs), Hd].
      eapply completed_mono; [exact Hs|done|reflexivity|intros p ?; exists p; split; [done|lia]|by apply Hfin].
    + rewrite E in Hr. apply elem_of_app in Hr as [Hr| ->%list_elem_of_singleton]; [by apply (Hmono r), Hd|congruence].
  - intros c0 l0 [= <-] Hl0. destruct (decide (l0 = l)) as [->|Hne]; [by apply Hown|]. rewrite Hother by done.
    specialize (Hl c l0 eq_refl Hl0). destruct (lane_of l0 c) as [| |d|row|row]; cbn in Hl |- *; try done.
    + destruct Hl as (id & k & ? & ? & ? & ?). exists id, k. split_and!; [done..|]. by eapply filed_touched.
    + destruct Hl as [? ?]. split; [done|]. by eapply in_order_touched.
    + destruct Hl as [? ?]. split; [done|]. by eapply in_order_touched.
Qed.

(** A lane goes on to [p] after an operation of its own. *)
Lemma enter_inv l fin s s' p c lg evs : Inv (MkSystem s (Some c) lg) → l ∈ LANES → touched l fin s s' → requests_kept s s' → generation s' = generation s →
  (∀ r, r ∈ inbox s → lane r = l → fin = Some (i_id r) → completed (lg ++ evs) s' r) →
  (∀ e, e ∈ evs → no_ack e) → lane_ok l p s' → Inv (enter_lane l p c s' (lg ++ evs)).
Proof.
  intros HI Hl Ht Hreq Hgen Hfin Hev Hp. unfold enter_lane. rewrite <-app_assoc. eapply touched_inv; try done.
  - intros r Hr Hrl Hrf. eapply completed_mono; [reflexivity| |reflexivity|intros g ?; exists g; split; [done|lia]|by apply Hfin].
    intros e. rewrite !elem_of_app. tauto.
  - intros e [H|H]%elem_of_app; [apply Hev in H; by destruct e|]. unfold ack_of in H. destruct p as [| |d|row|row]; cbn in Hp; try by apply elem_of_nil in H.
    + destruct Hp as (i & k & El & Ei & Ek & Hf). rewrite El, Ei, Ek in H. destruct (prop d "token"); try by apply elem_of_nil in H.
      by apply list_elem_of_singleton in H as ->.
    + apply list_elem_of_singleton in H as ->. destruct Hp as (El & i & r & Hi & [] & _). exists r. split_and!; [by eapply list_elem_of_lookup_2|congruence..].
  - intros l' Hl' Hne. rewrite lane_set by done. destruct (String.eqb_spec l l'); congruence.
  - intros _. rewrite lane_set by done. by rewrite String.eqb_refl.
Qed.

(** ** Every step preserves it *)

Lemma turn_ok l now s : l ∈ LANES → lane_ok l (turn l now s) s.
Proof.
  intros Hl. unfold turn. destruct (next l now s) as [r|] eqn:E; [|by destruct (_ && _)].
  assert (lane r = l ∧ in_order l r (inbox s)) as ?; [|by destruct (bool_decide _)].
  unfold next in E. destruct (String.eqb_spec l "matrix") as [->|Hne]; destruct (List.find _ _) as [r0|] eqn:Ef; try done; destruct (_ <? _); try done; injection E as ->.
  - apply find_first in Ef as (i & Hi & Hp & Hbefore). apply andb_true_iff in Hp as [Hlane%String.eqb_eq Hopen]. split; [done|].
    exists i, r. split_and!; [done..|unfold open_row in Hopen; by destruct (state r)|]. intros _ j x Hj Hx Hxl. specialize (Hbefore j x Hj Hx).
    rewrite Hxl, String.eqb_refl in Hbefore. unfold open_row in Hbefore. destruct (state x); auto; done.
  - apply find_some_elem in Ef as [Hr Hp]. apply andb_true_iff in Hp as [[Hlane%String.eqb_eq Hopen]%andb_true_iff _]. split; [done|].
    apply list_elem_of_lookup_1 in Hr as [i Hi]. exists i, r. split_and!; [done..|unfold open_row in Hopen; by destruct (state r)|done].
Qed.

(** The acknowledgement of a row leaves it next in its lane. *)
Lemma acknowledged_in_order l row s s' : NoDup ((λ r, (lane r, i_id r)) <$> inbox s) → lane row = l → in_order l row (inbox s) →
  acknowledged (i_id row) (Some l) s = Ok s' → in_order l row (inbox s').
Proof.
  intros Hn Hrow (i & r & Hi & Hs & Hd & Ho) H. unfold acknowledged in H. apply bind_Ok in H as (l' & [-> _]%laneFor_lane & [= <-]).
  cbn [inbox set_state]. unfold set_state, update_where. cbn.
  eexists i, _. split; [rewrite list_lookup_fmap, Hi; reflexivity|]. split_and!.
  - destruct (_ && _); [|done]. transitivity r; [done|by split].
  - destruct (named l (i_id row) r && _) eqn:E; [done|done].
  - intros Hm j x Hj Hx Hxl. rewrite list_lookup_fmap in Hx. destruct (inbox s !! j) as [y|] eqn:Ey; [|done]. injection Hx as <-.
    destruct (named l (i_id row) y) eqn:Hname; [|by apply (Ho Hm j)]. exfalso. apply named_spec in Hname as [Hyl Hyi].
    assert (j = i); [|lia]. eapply (NoDup_lookup _ _ _ (lane row, i_id row) Hn); rewrite list_lookup_fmap, ?Ey, ?Hi; cbn; [by rewrite Hyl, Hyi, Hrow|].
    by rewrite (same_name _ _ Hs).
Qed.

Lemma postponed_inv l row code now s c lg : Inv (MkSystem s (Some c) lg) → l ∈ LANES → lane row = l → Inv (enter_lane l LIdle c (postpone num_str row code now s) lg).
Proof.
  intros HI Hl Hrow. rewrite <-(app_nil_r lg). pose proof (postpone_touched num_str row code now s) as Ht. rewrite Hrow in Ht.
  assert (Hr : requests (postpone num_str row code now s) = requests s ∧ generation (postpone num_str row code now s) = generation s).
  { unfold postpone, retry. destruct (laneFor _ _ _); done. }
  eapply enter_inv; try done; [apply requests_kept_eq, Hr|apply Hr|by intros ? ?%elem_of_nil].
Qed.

Lemma ack_spec id l r s : touched l None s (onAck id l r s).2 ∧ requests (onAck id l r s).2 = requests s ∧ generation (onAck id l r s).2 = generation s ∧
  ((onAck id l r s).1 = inr () → acknowledged id (Some l) s = Ok (onAck id l r s).2).
Proof.
  unfold onAck. destruct r as [data|code].
  - destruct (acknowledged id (Some l) s) as [s'|] eqn:E; cbn; [|split_and!; [apply touched_id|done..]].
    split_and!; [by eapply acknowledged_touched| | |done]; unfold acknowledged in E; by apply bind_Ok in E as (? & _ & [= <-]).
  - destruct (strict_eq code _); cbn; [|split_and!; [apply touched_id|done..]]. destruct (reclaim id (Some l) s) as [s'|] eqn:E; [|split_and!; [apply touched_id|done..]].
    split_and!; [by eapply reclaim_touched| | |done]; unfold reclaim in E; by apply bind_Ok in E as (? & _ & [= <-]).
Qed.

Lemma stored_ack_inv l d id r s c lg : Inv (MkSystem s (Some c) lg) → lane_of l c = LStored d → l ∈ LANES → prop d "id" = JStr id →
  Inv (enter_lane l LIdle c (onAck id l r s).2 lg).
Proof.
  intros HI _ Hl _. destruct (ack_spec id l r s) as (Ht & Hr & Hg & _). rewrite <-(app_nil_r lg).
  eapply enter_inv; try done; [by apply requests_kept_eq|by intros ? ?%elem_of_nil].
Qed.

Lemma row_ack_inv l row r now s c lg : Inv (MkSystem s (Some c) lg) → lane_of l c = LAcking row → l ∈ LANES →
  Inv (let '(p, s') := onRowAck num_str row r now s in enter_lane l p c s' lg).
Proof.
  intros HI Hpc Hl. pose proof (w_lane _ HI c l eq_refl Hl) as Hok. rewrite Hpc in Hok. destruct Hok as [Hrow Ho].
  unfold onRowAck. rewrite Hrow. pose proof (ack_spec (i_id row) l r s) as (Ht & Hr & Hg & Hack). destruct (onAck (i_id row) l r s) as [[code|[]] s'].
  - cbn in *. assert (HI' : Inv (enter_lane l LIdle c s' lg)).
    { rewrite <-(app_nil_r lg). eapply enter_inv; try done; [by apply requests_kept_eq|by intros ? ?%elem_of_nil]. }
    unfold enter_lane in HI'. cbn [ack_of] in HI'. rewrite app_nil_r in HI'. pose proof (postponed_inv _ row code now _ _ _ HI' Hl Hrow) as H.
    unfold enter_lane in H |- *. cbn [ack_of] in *. by destruct (String.eqb l "matrix") eqn:E; unfold set_lane in *; rewrite E in *.
  - cbn in *. rewrite <-(app_nil_r lg). eapply enter_inv; try done; [by apply requests_kept_eq|by intros ? ?%elem_of_nil|].
    split; [done|]. eapply acknowledged_in_order; [apply (w_names _ HI)|done..|by apply Hack].
Qed.

Lemma handled_inv l row o now s c lg : Inv (MkSystem s (Some c) lg) → lane_of l c = LHandling row → l ∈ LANES →
  Inv (let '(s', evs) := onHandled num_str sha256 row o now s in enter_lane l LIdle c s' (lg ++ evs)).
Proof.
  intros HI Hpc Hl. pose proof (w_lane _ HI c l eq_refl Hl) as Hok. rewrite Hpc in Hok. destruct Hok as [Hrow (i & r0 & Hi & Hs & _)]. cbn [db] in Hi.
  pose proof (handled_spec num_str sha256 row o now s) as H. destruct (onHandled _ _ _ _ _ _) as [s' evs]. destruct H as [He [(code & ->)|(request & receipt & Ef & Hreq & Hw)]].
  all: assert (Hev : ∀ e, e ∈ evs → no_ack e) by (destruct He as [->|[v ->]]; [by intros ? ?%elem_of_nil|by intros ? ->%list_elem_of_singleton]).
  { pose proof (postpone_touched num_str row code now s) as Ht. rewrite Hrow in Ht.
    assert (Hr : requests (postpone num_str row code now s) = requests s ∧ generation (postpone num_str row code now s) = generation s).
    { unfold postpone, retry. destruct (laneFor _ _ _); done. }
    eapply enter_inv; try done; [apply requests_kept_eq, Hr|apply Hr]. }
  apply finish_spec in Ef as (Ht & Hk & Htr & E). rewrite Hrow in Ht. eapply enter_inv; try done; [by rewrite E|].
  intros r1 Hr1 Hl1 [= Hi1]. assert (r1 = r0) as ->.
  { apply list_elem_of_lookup_1 in Hr1 as [j Hj]. assert (j = i); [|congruence].
    eapply (NoDup_lookup _ _ _ (lane row, i_id row) (w_names _ HI)); cbn; rewrite list_lookup_fmap, ?Hj, ?Hi; cbn; [by rewrite Hl1, Hrow, Hi1|].
    by rewrite (same_name _ _ Hs). }
  destruct Hs as [Ei El Ek Ep _ _]. assert (Hw' : worked evs row → worked (lg ++ evs) r0).
  { intros (v & q & Hv & H200). exists v, q. rewrite Ei, El, Ep. split; [apply elem_of_app; by right|done]. }
  unfold completed. rewrite Ek, Ep. destruct (String.eqb (i_kind row) "transaction") eqn:E1; [auto|]. destruct (String.eqb (i_kind row) "request") eqn:E2; [by apply Htr, Hreq|]. left. auto.
Qed.

Lemma poll_inv l r s c lg : Inv (MkSystem s (Some c) lg) → l ∈ LANES → Inv (let '(p, s') := onPoll num_str sha256 l (gen c) r s in enter_lane l p c s' lg).
Proof.
  intros HI Hl. rewrite <-(app_nil_r lg).
  assert (Hidle : Inv (enter_lane l LIdle c s (lg ++ []))) by (eapply (enter_inv _ None); try done; [apply touched_id|by intros ? ?%elem_of_nil]).
  unfold onPoll. destruct r as [data|]; [|done]. destruct (_ || _); [done|]. destruct (negb _); [done|].
  destruct (strict_eq _ (JStr l)) eqn:El; [|done]. cbn [negb]. destruct (receive _ _ _ _ _) as [s'|] eqn:Er; [|done].
  apply receive_spec in Er as (id & l' & k & t & p & Hd & Ht & (r & Hr & [Hrl Hri]%named_spec & Hdig) & _ & E).
  apply delivery_of_spec in Hd as (Hid & Hlane & Hkind & _ & Hp & _). assert (l' = l) as ->.
  { rewrite Hlane in El. by apply String.eqb_eq in El. }
  eapply enter_inv; try done; [apply requests_kept_eq; by rewrite E|by rewrite E|by intros ? ?%elem_of_nil|].
  exists id, k. split_and!; [done..|]. exists r. split_and!; [done..|by rewrite Hp].
Qed.

(** Steps that leave the lanes and the inbox alone. *)
Lemma quiet_inv s s' c c' lg evs : Inv (MkSystem s (Some c) lg) → inbox s' = inbox s → requests_kept s s' → generation s' = generation s →
  matrix c' = matrix c → work c' = work c → (∀ e, e ∈ evs → no_ack e) → Inv (MkSystem s' (Some c') (lg ++ evs)).
Proof.
  intros HI Hi Hr Hg Hm Hw Hev. pose proof (touched_inbox "matrix" None s s s' ltac:(done) (touched_id _ _)) as Ht.
  eapply touched_inv; try done; [intros e He%Hev; by destruct e|intros l' _ _; unfold lane_of; by rewrite Hm, Hw|].
  intros Hl. pose proof (w_lane _ HI c "matrix" eq_refl Hl) as Hok. unfold lane_of in *. cbn [String.eqb Ascii.eqb Bool.eqb] in *. cbn in *.
  rewrite Hm. destruct (matrix c); cbn in *; rewrite ?Hi; try done. unfold filed in *. by rewrite Hi.
Qed.

Lemma start_inv g print s s' ch lg : Inv (MkSystem s None lg) → activateTransport g print s = Ok (s', ch) → Inv (MkSystem s' (Some (fresh g)) lg).
Proof.
  intros [Hn Ha Hd _] H. cbn [db log client] in *. apply activate_spec in H as (Hg & Hle & H).
  assert (∃ f, inbox s' = f <$> inbox s ∧ (∀ r, same r (f r)) ∧ (∀ r, state (f r) = Done → state r = Done ∨ is_probe r = true ∧ i_generation r < g) ∧ requests_kept s s') as (f & Hi & Hs & Hdone & Hk).
  { destruct H as [(Hi & Hr & _)|(Hi & Hr & _)].
    - exists (λ r, r). rewrite list_fmap_id. split_and!; try done; [naive_solver|by apply requests_kept_eq].
    - destruct (rotate_inbox_rows g (inbox s)) as (f & Hf & Hs & _ & Hdone). exists f. split_and!; [congruence|done|done|].
      intros q Hq. exists (forget_observation q). split_and!; [rewrite Hr; apply list_elem_of_In, in_map_iff; exists q; split; [done|by apply list_elem_of_In]|done|done]. }
  split; cbn [db log client].
  - rewrite Hi, <-list_fmap_compose. erewrite list_fmap_ext; [exact Hn|]. intros i r _. apply same_name, Hs.
  - intros e He%Ha. assert (Hin : ∀ r, r ∈ inbox s → f r ∈ inbox s' ∧ same r (f r)) by (intros r Hr; rewrite Hi; split; [by apply list_elem_of_fmap_2|done]).
    destruct e; try done; cbn in He |- *; [destruct He as (r & Hr & El & Ei & Ed)|destruct He as (r & Hr & El & Ei)]; destruct (Hin r Hr) as [? []]; exists (f r); split_and!; congruence.
  - intros r' Hr' Hst. rewrite Hi in Hr'. apply list_elem_of_fmap in Hr' as (r & -> & Hr). destruct (Hdone r Hst) as [Hst0|[Hp Hlt]].
    + eapply completed_mono; [apply Hs|done|exact Hk| |by apply Hd]. intros p Hp. exists g. split; [done|by apply Hle].
    + destruct (Hs r) as [_ _ Ek _ _ Eg]. unfold completed, is_probe in *. rewrite Ek. apply String.eqb_eq in Hp as ->. right. exists g. by rewrite Eg.
  - intros c l [= <-] _. unfold lane_of. by destruct (String.eqb l "matrix").
Qed.

Lemma step_inv st st' : step st st' → Inv st → Inv st'.
Proof.
  intros [] HI.
  - by eapply start_inv.
  - destruct HI as [? ? ? _]. by split.
  - rewrite <-(app_nil_r lg). eapply (enter_inv _ None); try done; [apply touched_id|by intros ? ?%elem_of_nil|by apply turn_ok].
  - by apply poll_inv.
  - pose proof (w_lane _ HI c l eq_refl ltac:(done)) as Hok. rewrite H in Hok. destruct Hok as (id & k & _ & Hid & _). rewrite Hid. by eapply stored_ack_inv.
  - by apply row_ack_inv.
  - by apply handled_inv.
  - rewrite <-(app_nil_r lg). eapply (enter_inv _ None); try done; [apply touched_id|by intros ? ?%elem_of_nil].
  - pose proof (w_lane _ HI c l eq_refl ltac:(done)) as Hok. apply postponed_inv; try done. destruct H as [H|H]; rewrite H in Hok; apply Hok.
  - eapply quiet_inv; try done. by intros ? ->%list_elem_of_singleton.
  - rewrite <-(app_nil_r lg). eapply quiet_inv; try done. by intros ? ?%elem_of_nil.
  - assert (inbox s' = inbox s ∧ requests s' = requests s ∧ generation s' = generation s) as (? & ? & ?).
    { unfold publish, enqueueUpdate in H0. destruct (pendingUpdate s) as [p|]; [by injection H0 as <- <-|]. js_inv H0. by injection H0 as <- <-. }
    eapply quiet_inv; try done; [by apply requests_kept_eq|]. intros ? [->| ->%list_elem_of_singleton]%elem_of_cons; done.
  - assert (inbox s' = inbox s ∧ requests s' = requests s ∧ generation s' = generation s) as (? & ? & ?).
    { unfold updateAccepted in H0. destruct (outbox s) as [[p cur]|]; [|done]. js_inv H0. by injection H0 as <-. }
    eapply quiet_inv; try done; [by apply requests_kept_eq|by intros ? ->%list_elem_of_singleton].
  - rewrite <-(app_nil_r lg). eapply quiet_inv; try done. by intros ? ?%elem_of_nil.
  - rewrite <-(app_nil_r lg). eapply quiet_inv; try done; [by apply on_request_kept|by intros ? ?%elem_of_nil].
  - rewrite <-(app_nil_r lg). eapply quiet_inv; try done; [by apply on_request_kept|by intros ? ?%elem_of_nil].
  - eapply quiet_inv; try done; [by apply on_request_kept|by intros ? ->%list_elem_of_singleton].
  - rewrite <-(app_nil_r lg). eapply quiet_inv; try done; [by apply on_request_kept|by intros ? ?%elem_of_nil].
  - rewrite <-(app_nil_r lg). eapply quiet_inv; try done. by intros ? ?%elem_of_nil.
Qed.

Lemma run_inv b uuid st : rtc step (start num_str sha256 b uuid) st → Inv st.
Proof.
  intros H. assert (HI : Inv (start num_str sha256 b uuid)).
  { split; cbn; [constructor|by intros ? ?%elem_of_nil|by intros ? ?%elem_of_nil|done]. }
  revert HI. induction H as [|a b' c Hab _ IH]; [done|]. intros HI. apply IH. by eapply step_inv.
Qed.

(** ** Rows stay *)

Definition keeps (rows rows' : list InboxRow) : Prop := ∀ r, r ∈ rows → ∃ r', r' ∈ rows' ∧ same r r' ∧ (state r = Done → state r' = Done).

Lemma touched_keeps l fin s s' : touched l fin s s' → keeps (inbox s) (inbox s').
Proof.
  intros [f Hf E|row _ E] r Hr; rewrite E.
  - exists (f r). split_and!; [by apply list_elem_of_fmap_2|apply (touch_same _ _ _ Hf)|apply (touch_done _ _ _ Hf)].
  - exists r. split_and!; [apply elem_of_app; by left|done|done].
Qed.

#[local] Instance keeps_preorder : PreOrder keeps.
Proof.
  split; [by intros rows r Hr; exists r|]. intros a b c Hab Hbc r (r1 & H1 & S1 & D1)%Hab. apply Hbc in H1 as (r2 & H2 & S2 & D2).
  exists r2. split_and!; [done|by transitivity r1|auto].
Qed.

Lemma row_ack_keeps row r now s : keeps (inbox s) (inbox (onRowAck num_str row r now s).2).
Proof.
  unfold onRowAck. destruct (ack_spec (i_id row) (lane row) r s) as (Ht & _). destruct (onAck _ _ r s) as [[code|] s']; cbn in *; [|by eapply touched_keeps].
  transitivity (inbox s'); [by eapply touched_keeps|]. eapply touched_keeps, postpone_touched.
Qed.

Lemma handled_touched row o now s : ∃ fin, touched (lane row) fin s (onHandled num_str sha256 row o now s).1.
Proof.
  pose proof (handled_spec num_str sha256 row o now s) as H. destruct (onHandled _ _ _ _ _ _) as [s' evs]. destruct H as [_ [(code & ->)|(request & receipt & Ef & _)]].
  - eexists. apply postpone_touched.
  - apply finish_spec in Ef as [Ht _]. by eexists.
Qed.

Lemma handled_keeps row o now s : keeps (inbox s) (inbox (onHandled num_str sha256 row o now s).1).
Proof. destruct (handled_touched row o now s) as [fin Ht]. by eapply touched_keeps. Qed.

Lemma poll_keeps l g r s : keeps (inbox s) (inbox (onPoll num_str sha256 l g r s).2).
Proof.
  unfold onPoll. destruct r as [data|]; [|done]. destruct (_ || _); [done|]. destruct (negb _); [done|]. destruct (negb _); [done|].
  destruct (receive _ _ _ _ _) as [s'|] eqn:E; [|done]. apply receive_spec in E as (? & ? & ? & ? & ? & _ & Ht & _). by eapply touched_keeps.
Qed.

Lemma step_keeps st st' : step st st' → keeps (inbox (db st)) (inbox (db st')).
Proof.
  intros []; cbn [db log client enter_lane]; try done.
  - apply activate_spec in H as (_ & _ & [(E & _)|(E & _)]); rewrite E; [done|].
    destruct (rotate_inbox_rows g (inbox s)) as (f & -> & Hs & Hd & _). intros r Hr. exists (f r). split_and!; [by apply list_elem_of_fmap_2|apply Hs|].
    intros Hdone. by rewrite Hd.
  - pose proof (poll_keeps l (gen c) (call r) s). by destruct (onPoll _ _ _ _ _ _).
  - destruct (prop d "id"); try done. cbn. destruct (ack_spec s0 l (call r) s) as (Ht & _). by eapply touched_keeps.
  - pose proof (row_ack_keeps row (call r) now s). by destruct (onRowAck _ _ _ _).
  - pose proof (handled_keeps row o now s). by destruct (onHandled _ _ _ _ _ _).
  - eapply touched_keeps, postpone_touched.
  - unfold publish, enqueueUpdate in H0. destruct (pendingUpdate s) as [p|]; [by injection H0 as <- <-|]. js_inv H0. by injection H0 as <- <-.
  - unfold updateAccepted in H0. destruct (outbox s) as [[p cur]|]; [|done]. js_inv H0. by injection H0 as <-.
Qed.

(** ** Rows and their digests *)

(** Rows are those there were, or new ones with the digest of the content they were given. *)
Definition from_rows (s s' : DB) : Prop := ∀ r', r' ∈ inbox s' → (∃ r, r ∈ inbox s ∧ same r r') ∨ digested num_str sha256 r'.

Lemma from_rows_eq s s' : inbox s' = inbox s → from_rows s s'.
Proof. intros E r Hr. rewrite E in Hr. left. by exists r. Qed.

Lemma touched_rows l fin s s' : touched l fin s s' → length (inbox s') = length (inbox s) → from_rows s s'.
Proof.
  intros [f Hf E|row _ E] Hlen r' Hr'; [|rewrite E, length_app in Hlen; cbn in Hlen; lia].
  rewrite E in Hr'. apply list_elem_of_fmap in Hr' as (r & -> & Hr). left. exists r. split; [done|apply Hf].
Qed.

Lemma postpone_rows row code now s : from_rows s (postpone num_str row code now s).
Proof.
  eapply touched_rows; [apply postpone_touched|]. unfold postpone, retry. destruct (laneFor _ _ _); cbn; [|done]. apply length_map.
Qed.

Lemma ack_rows id l r s : from_rows s (onAck id l r s).2.
Proof.
  destruct (ack_spec id l r s) as (Ht & _). eapply touched_rows; [exact Ht|]. unfold onAck, acknowledged, reclaim.
  destruct r; [|destruct (strict_eq _ _); [|done]]; destruct (laneFor _ _ _); cbn; try done; apply length_map.
Qed.

Lemma row_ack_rows row r now s : from_rows s (onRowAck num_str row r now s).2.
Proof.
  unfold onRowAck. pose proof (ack_rows (i_id row) (lane row) r s) as H. destruct (onAck _ _ r s) as [[code|] s']; [|done]. cbn in *.
  intros r2 [(r1 & H1 & S1)|?]%postpone_rows; [|by right]. apply H in H1 as [(r0 & H0 & S0)|(sent & Ep & Ed)]; [left; exists r0; split; [done|by transitivity r1]|right].
  exists sent. destruct S1. split; [congruence|]. congruence.
Qed.

Lemma handled_rows row o now s : from_rows s (onHandled num_str sha256 row o now s).1.
Proof.
  pose proof (handled_spec num_str sha256 row o now s) as H. destruct (onHandled _ _ _ _ _ _) as [s' evs]. destruct H as [_ [(code & ->)|(request & receipt & Ef & _)]]; [apply postpone_rows|].
  apply finish_spec in Ef as [[f Hf E|row' Hf] _]; [|done]. intros r' Hr'. cbn in Hr'. rewrite E in Hr'. apply list_elem_of_fmap in Hr' as (r & -> & Hr). left. exists r. split; [done|apply Hf].
Qed.

Lemma poll_rows l g r s : from_rows s (onPoll num_str sha256 l g r s).2.
Proof.
  unfold onPoll. destruct r as [data|]; [|by apply from_rows_eq]. destruct (_ || _); [by apply from_rows_eq|]. destruct (negb _); [by apply from_rows_eq|]. destruct (negb _); [by apply from_rows_eq|].
  destruct (receive _ _ _ _ _) as [s'|] eqn:E; [|by apply from_rows_eq]. by apply receive_spec in E as (? & ? & ? & ? & ? & _ & _ & _ & H & _).
Qed.

Lemma step_rows st st' : step st st' → from_rows (db st) (db st').
Proof.
  intros []; cbn [db log client enter_lane]; try (by apply from_rows_eq).
  - apply activate_spec in H as (_ & _ & [(E & _)|(E & _)]); [by apply from_rows_eq|].
    destruct (rotate_inbox_rows g (inbox s)) as (f & Ef & Hs & _). rewrite Ef in E. intros r'. rewrite E. intros (r & -> & Hr)%list_elem_of_fmap. left. by exists r.
  - pose proof (poll_rows l (gen c) (call r) s). by destruct (onPoll _ _ _ _ _ _).
  - destruct (prop d "id"); try (by apply from_rows_eq). apply ack_rows.
  - pose proof (row_ack_rows row (call r) now s). by destruct (onRowAck _ _ _ _ _).
  - pose proof (handled_rows row o now s). by destruct (onHandled _ _ _ _ _ _).
  - apply postpone_rows.
  - unfold publish, enqueueUpdate in H0. destruct (pendingUpdate s) as [p|]; [injection H0 as <- <-; by apply from_rows_eq|]. js_inv H0. injection H0 as <- <-. by apply from_rows_eq.
  - unfold updateAccepted in H0. destruct (outbox s) as [[p cur]|]; [|done]. js_inv H0. injection H0 as <-. by apply from_rows_eq.
Qed.

Lemma run_digested b uuid st : rtc step (start num_str sha256 b uuid) st → ∀ r, r ∈ inbox (db st) → digested num_str sha256 r.
Proof.
  intros H. apply rtc_nsteps in H as [n H]. revert st H. induction n as [|n IH]; intros st.
  { intros H. inversion H; subst. by intros r ?%elem_of_nil. }
  intros (y & Hy & Hs)%nsteps_inv_r r' Hr'. apply (step_rows _ _ Hs) in Hr' as [(r & Hr & [])|]; [|done]. apply (IH y Hy) in Hr as (sent & Ep & Ed). exists sent. split; congruence.
Qed.

(** ** The properties *)

(** C35. Work that was taken over from the server is not lost. An acknowledgement of a delivery is only ever
    sent when its content is on file: a row of that lane and id, made of a delivery whose kind and payload
    have the same SHA-256 digest as those acknowledged (only then is it the same delivery to the store);
    and an acknowledgement of a row only when that row is on file. A row on file stays there with its
    content, through crashes, rotations of the transport and deliveries that come again. And a row is done
    only when its work was: the router returned the status 200 for that transaction, that request is
    tracked, the probe was answered with 200 or belongs to a machine that was replaced. *)
Theorem acknowledged_work_is_kept b uuid st :
  rtc step (start num_str sha256 b uuid) st →
  (∀ l id t kind payload, EAckSent l id t kind payload ∈ log st → ∃ r sent, r ∈ inbox (db st) ∧ lane r = l ∧ i_id r = id ∧ i_payload r = clone sent ∧
     outboundDigest num_str sha256 (JObj [("lane", JStr l); ("kind", JStr (i_kind r)); ("payload", sent)]) =
     outboundDigest num_str sha256 (JObj [("lane", JStr l); ("kind", JStr kind); ("payload", payload)])) ∧
  (∀ l id t, ERowAckSent l id t ∈ log st → ∃ r, r ∈ inbox (db st) ∧ lane r = l ∧ i_id r = id) ∧
  (∀ r, r ∈ inbox (db st) → state r = Done → completed (log st) (db st) r) ∧
  (∀ st' r, rtc step st st' → r ∈ inbox (db st) → ∃ r', r' ∈ inbox (db st') ∧ same r r' ∧ (state r = Done → state r' = Done)).
Proof.
  intros H. pose proof (run_digested _ _ _ H) as Hdig. apply run_inv in H as [_ Ha Hd _]. split_and!; [|intros l id t He; by apply (Ha _ He)|done|].
  - intros l id t kind payload He. destruct (Ha _ He) as (r & Hr & El & Ei & Ed). destruct (Hdig r Hr) as (sent & Ep & Es). exists r, sent. split_and!; try done.
    rewrite Es, El in Ed. exact Ed.
  - intros st' r H. revert r. change (keeps (inbox (db st)) (inbox (db st'))).
    clear Ha Hd Hdig. induction H as [|x y z Hxy _ IH]; [done|]. transitivity (inbox (db y)); [by apply step_keeps|done].
Qed.

(** The transactions of a homeserver are processed in their order: while the matrix lane acknowledges
    or processes a row, that row is not done, and every matrix row that arrived before it is done or was
    handed back to the server because its lease was lost. *)
Theorem matrix_lane_in_order b uuid st c row :
  rtc step (start num_str sha256 b uuid) st → client st = Some c → matrix c = LAcking row ∨ matrix c = LHandling row →
  ∃ i r, inbox (db st) !! i = Some r ∧ same row r ∧ state r ≠ Done ∧
    ∀ j x, (j < i)%nat → inbox (db st) !! j = Some x → lane x = "matrix" → state x = Done ∨ state x = Reclaim.
Proof.
  intros HI%run_inv Hc Hrow. assert (Hok : lane_ok "matrix" (matrix c) (db st)) by (apply (w_lane _ HI c "matrix" Hc); by left).
  assert (in_order "matrix" row (inbox (db st))) as (i & r & Hi & Hs & Hd & Ho) by (destruct Hrow as [H|H]; rewrite H in Hok; apply Hok).
  exists i, r. split_and!; try done. intros j x. by apply Ho.
Qed.

End work.

Lemma acknowledged_work_is_kept_witness :
  let st := FleetSample.s6 in rtc (step FleetSample.num_str FleetSample.sha256 FleetSample.toISOString) FleetSample.s0 st ∧
  length (List.filter is_done (inbox (db st))) = 2%nat ∧ ∀ r, r ∈ inbox (db st) → state r = Done → completed FleetSample.num_str FleetSample.sha256 (log st) (db st) r.
Proof.
  split_and!; [exact FleetSample.run6|reflexivity|].
  exact (proj1 (proj2 (proj2 (acknowledged_work_is_kept FleetSample.num_str FleetSample.sha256 FleetSample.toISOString (JStr "binding") "consumer" FleetSample.s6 FleetSample.run6)))).
Defined.

Lemma matrix_lane_in_order_witness : ∃ i r, inbox (db FleetSample.s2) !! i = Some r ∧ same FleetSample.row2 r ∧ state r ≠ Done ∧
    ∀ j x, (j < i)%nat → inbox (db FleetSample.s2) !! j = Some x → lane x = "matrix" → state x = Done ∨ state x = Reclaim.
Proof.
  exact (matrix_lane_in_order FleetSample.num_str FleetSample.sha256 FleetSample.toISOString (JStr "binding") "consumer" FleetSample.s2
    (FleetSample.at_matrix (LHandling FleetSample.row2)) FleetSample.row2 FleetSample.run2 eq_refl (or_intror eq_refl)).
Defined.
