(* ===== verification/FleetUpdates.v ===== *)
(** * What a fleet publishes

    A sequence number names one update of its generation and is only used once all before it were
    accepted; and a request is published as ready only on a check that is less than ninety seconds old. *)

From Stdlib Require Import ZArith QArith Lia String Ascii.
From stdpp Require Import base list strings relations.
From S2P Require Import Prelude OMap Json JsonParse ExecAuth ProjectSides FleetStore FleetClient FleetFacts.
#[local] Open Scope stdpp_scope.
Import FleetStore FleetClient.
#[local] Existing Instances eta_inbox eta_request eta_db eta_client.

Lemma prop_in_get k (o : omap jval) : prop_in k o = default JUndef (om_get k o).
Proof. induction o as [|[k' x] o IH]; [done|]. cbn [prop_in om_get]. destruct (String.eqb k k'); [done|exact IH]. Qed.

(** A split of a log that grew by one event. *)
Lemma snoc_cases {A} (l l1 l2 : list A) x y : l ++ [x] = l1 ++ y :: l2 → (l1 = l ∧ y = x ∧ l2 = []) ∨ ∃ l2', l = l1 ++ y :: l2'.
Proof.
  intros H. destruct l2 as [|z l2 _] using rev_ind.
  - left. apply app_inj_tail in H as [-> ->]. done.
  - right. exists l2. rewrite app_comm_cons, app_assoc in H. by apply app_inj_tail in H as [-> _].
Qed.

Section updates.
Context (num_str : num → string) (sha256 : string → string) (toISOString : Z → string).
Abbreviation step := (step num_str sha256 toISOString).
Abbreviation text := (json_text num_str).

(** A JSON text parses to a value with the same text. *)
Lemma copy_text v w : json_copy v = Some w → stringify num_str w = stringify num_str v.
Proof.
  revert w. induction v as [| |b|n|s|l IH|o IH|f] using jval_ind'; intros w; try by intros [= <-].
  - destruct n; by intros [= <-].
  - intros [= <-]. cbn [stringify]. do 4 f_equal. rewrite List.map_map. induction IH as [|x l Hx _ IHl]; [done|]. cbn [List.map]. f_equal; [|exact IHl].
    pose proof (stringify_copy num_str x) as Hc. destruct (json_copy x) as [y|]; cbn; [by rewrite (Hx y eq_refl)|]. by rewrite (proj2 Hc eq_refl).
  - intros [= <-]. cbn [stringify]. do 4 f_equal. induction o as [|[k x] o IHo]; [done|]. apply Forall_cons in IH as [Hx IH]. cbn in Hx. specialize (IHo IH).
    pose proof (stringify_copy num_str x) as Hc. destruct (json_copy x) as [y|] eqn:Ey.
    + rewrite (Hx y eq_refl). destruct (stringify num_str x); [by f_equal|by destruct (proj1 Hc eq_refl)].
    + by rewrite (proj2 Hc eq_refl).
Qed.

Lemma clone_text v : text (clone v) = text v.
Proof.
  unfold clone, json_text. destruct (json_copy v) as [w|] eqn:E; cbn; [by rewrite (copy_text v w)|]. by rewrite (proj2 (stringify_copy num_str v) E).
Qed.

(** ** An update *)

Definition numbered_as (p : jval) (n : Z) : Prop := prop p "sequence" = JNum (Fin (inject_Z n)).
Definition update (g : Z) (capabilities : jval) (statuses : list jval) (n : Z) (rs : list jval) : jval :=
  JObj (body g capabilities statuses ++ [("sequence", JNum (Fin (inject_Z n))); ("probeReceipts", JArr rs)]).

Lemma update_numbered g cap sts n rs : numbered_as (update g cap sts n rs) n ∧ numbered_as (clone (update g cap sts n rs)) n.
Proof. split; [done|]. unfold numbered_as, clone, update, body. cbn. by destruct (json_copy cap). Qed.

Lemma numbered_inj p n m : numbered_as p n → numbered_as p m → n = m.
Proof. unfold numbered_as. intros -> [= ->]. done. Qed.

Lemma publish_spec g cap now s p s' : pendingUpdate s = None → publish toISOString g cap now s = Ok (p, s') →
  p = update g cap (requestSnapshots toISOString now s) (sequence s + 1) (List.map snd (take 10 (receipts s))) ∧
  ∃ cur, s' = s <| sequence := sequence s + 1 |> <| outbox := Some (clone p, cur) |>.
Proof.
  unfold publish, enqueueUpdate. intros ->. destruct (negb (isSafeInteger _)); [done|]. destruct (to_bool _ && _); [done|]. intros [= <- <-]. eauto.
Qed.

Lemma accepted_spec p s s' : updateAccepted num_str sha256 p s = Ok s' → is_Some (outbox s) ∧ outbox s' = None ∧ sequence s' = sequence s ∧
  generation s' = generation s ∧ requests s' = requests s.
Proof. unfold updateAccepted. destruct (outbox s) as [[q cur]|]; [|done]. intros H. js_inv H. by injection H as <-. Qed.

(** ** The invariant of the outbox *)

Definition was_accepted (g m : Z) (lg : list event) : Prop := ∃ q, EAccepted g q ∈ lg ∧ numbered_as q m.

Record Inv (st : System) : Prop := MkInv {
  u_zero : 0 ≤ sequence (db st);
  u_none : generation (db st) = None → sequence (db st) = 0 ∧ outbox (db st) = None;
  u_client : ∀ c, client st = Some c → generation (db st) = Some (gen c);
  u_sent : ∀ g p, ESent g p ∈ log st → ∃ G n, generation (db st) = Some G ∧ numbered_as p n ∧ 1 ≤ n ∧ (g < G ∨ g = G ∧ n ≤ sequence (db st));
  u_same : ∀ g p p' n, ESent g p ∈ log st → ESent g p' ∈ log st → numbered_as p n → numbered_as p' n → text p = text p';
  u_outbox : ∀ p cur, outbox (db st) = Some (p, cur) → numbered_as p (sequence (db st)) ∧ 1 ≤ sequence (db st) ∧
    ∀ G q, generation (db st) = Some G → ESent G q ∈ log st → numbered_as q (sequence (db st)) → text q = text p;
  u_accepted : ∀ G m, generation (db st) = Some G → 1 ≤ m ≤ sequence (db st) → m < sequence (db st) ∨ outbox (db st) = None → was_accepted G m (log st);
  u_sending : ∀ c p, client st = Some c → publishing c = PSending p → numbered_as p (sequence (db st)) ∧ ∃ p0 cur, outbox (db st) = Some (p0, cur) ∧ text p = text p0;
  u_asking : ∀ c, client st = Some c → publishing c = PCapabilities → outbox (db st) = None;
  u_order : ∀ l1 l2 g p, log st = l1 ++ ESent g p :: l2 → ∃ n, numbered_as p n ∧ 1 ≤ n ∧ ∀ m, 1 ≤ m < n → was_accepted g m l1;
}.

Lemma was_accepted_app g m lg lg' : was_accepted g m lg → was_accepted g m (lg ++ lg').
Proof. intros (q & Hq & Hn). exists q. split; [|done]. apply elem_of_app. by left. Qed.

(** Steps that do not concern the publication: the outbox, the sequence and the generation are as they
    were, and no update is sent. *)
Definition silent (evs : list event) : Prop := ∀ e, e ∈ evs → match e with ESent _ _ | EAccepted _ _ => False | _ => True end.

Lemma silent_sent evs lg g p : silent evs → ESent g p ∈ lg ++ evs → ESent g p ∈ lg.
Proof. intros He [H|H]%elem_of_app; [done|]. by apply He in H. Qed.

Lemma silent_order evs lg : silent evs → (∀ l1 l2 g p, lg = l1 ++ ESent g p :: l2 → ∃ n, numbered_as p n ∧ 1 ≤ n ∧ ∀ m, 1 ≤ m < n → was_accepted g m l1) →
  ∀ l1 l2 g p, lg ++ evs = l1 ++ ESent g p :: l2 → ∃ n, numbered_as p n ∧ 1 ≤ n ∧ ∀ m, 1 ≤ m < n → was_accepted g m l1.
Proof.
  intros He Ho. induction evs as [|e evs IH] using rev_ind; [by rewrite app_nil_r|]. intros l1 l2 g p H. rewrite app_assoc in H.
  apply snoc_cases in H as [(_ & <- & _)|(l2' & H)].
  - exfalso. by apply (He (ESent g p)), elem_of_app; right; apply list_elem_of_singleton.
  - eapply IH; [|exact H]. intros x Hx. apply He, elem_of_app. by left.
Qed.

Lemma silent_inv s s' c c' lg evs : Inv (MkSystem s (Some c) lg) → generation s' = generation s → sequence s' = sequence s → outbox s' = outbox s →
  gen c' = gen c → publishing c' = publishing c ∨ publishing c' = PIdle → silent evs → Inv (MkSystem s' (Some c') (lg ++ evs)).
Proof.
  intros [H0 Hn Hc Hs Hsame Ho Ha Hsend Hask Hord] Eg Es Eo Ec Hp He. cbn [db client log] in *. split; cbn [db client log]; rewrite ?Eg, ?Es, ?Eo.
  - done.
  - done.
  - intros ? [= <-]. rewrite Ec. by apply Hc.
  - intros g p H%silent_sent; [|done]. by apply Hs.
  - intros g p p' n H%silent_sent H'%silent_sent; [|done..]. by apply (Hsame g p p' n).
  - intros p cur Hout. destruct (Ho p cur Hout) as (? & ? & Ht). split_and!; [done..|]. intros G q HG Hq%silent_sent; [|done]. by apply (Ht G).
  - intros G m HG Hm Hor. by apply was_accepted_app, Ha.
  - intros ? p [= <-] Hpub. destruct Hp as [Hp|Hp]; rewrite Hp in Hpub; [|done]. by apply (Hsend c).
  - intros ? [= <-] Hpub. destruct Hp as [Hp|Hp]; rewrite Hp in Hpub; [|done]. by apply (Hask c).
  - by apply silent_order.
Qed.

(** Sending the update in the outbox, again or for the first time. *)
Lemma sent_inv s c lg p p0 cur : Inv (MkSystem s (Some c) lg) → outbox s = Some (p0, cur) → text p = text p0 → numbered_as p (sequence s) →
  Inv (MkSystem s (Some (c <| publishing := PSending p |>)) (lg ++ [ESent (gen c) p])).
Proof.
  intros [H0 Hn Hc Hs Hsame Ho Ha Hsend Hask Hord] Eo Ht Hp. cbn [db client log] in *. destruct (Ho p0 cur Eo) as (Hp0 & H1 & Htext). specialize (Hc c eq_refl).
  assert (Hin : ∀ g q, ESent g q ∈ lg ++ [ESent (gen c) p] → ESent g q ∈ lg ∨ g = gen c ∧ q = p).
  { intros g q [?|[= -> ->]%list_elem_of_singleton]%elem_of_app; auto. }
  assert (Hq : ∀ q, ESent (gen c) q ∈ lg → numbered_as q (sequence s) → text q = text p) by (intros q Hq Hqn; rewrite Ht; by apply (Htext (gen c))).
  split; cbn [db client log].
  - done.
  - done.
  - intros ? [= <-]. done.
  - intros g q [?|[-> ->]]%Hin; [by apply Hs|]. exists (gen c), (sequence s). split_and!; [done..|by right].
  - intros g q q' n [Hi|[Hg ->]]%Hin [Hi'|[Hg' ->]]%Hin Hqn Hqn'; [by apply (Hsame g q q' n)| | |done].
    + subst g. rewrite (numbered_inj p n (sequence s)) in Hqn by done. by apply Hq.
    + subst g. symmetry. rewrite (numbered_inj p n (sequence s)) in Hqn' by done. by apply Hq.
  - intros q cur' E. rewrite Eo in E. injection E as <- <-. split_and!; [done..|]. intros G q HG [Hi|[_ ->]]%Hin Hqn; [by apply (Htext G)|done].
  - intros G m HG Hm Hor. by apply was_accepted_app, Ha.
  - intros ? q [= <-] [= <-]. split; [done|]. by exists p0, cur.
  - by intros ? [= <-].
  - intros l1 l2 g q [(-> & [= -> ->] & _)|(l2' & H)]%snoc_cases; [|by eapply Hord].
    exists (sequence s). split_and!; [done..|]. intros m Hm. apply Ha; [done|lia|left; lia].
Qed.

(** A new update takes the next number. *)
Lemma frozen_inv s s' c lg cap now p : Inv (MkSystem s (Some c) lg) → outbox s = None → publish toISOString (gen c) cap now s = Ok (p, s') →
  Inv (MkSystem s' (Some (c <| publishing := PIdle |>)) (lg ++ [EFrozen (gen c) p now])).
Proof.
  intros [H0 Hn Hc Hs Hsame Ho Ha Hsend Hask Hord] Eo H. apply publish_spec in H as (-> & cur & ->); [|unfold pendingUpdate; by rewrite Eo].
  set (q := update _ _ _ _ _). destruct (update_numbered (gen c) cap (requestSnapshots toISOString now s) (sequence s + 1) (List.map snd (take 10 (receipts s)))) as [_ Hq]. fold q in Hq.
  cbn [db client log] in *. specialize (Hc c eq_refl). assert (Hev : silent [EFrozen (gen c) q now]) by (by intros e ->%list_elem_of_singleton).
  split; cbn [db client log outbox sequence generation over].
  - lia.
  - intros Hg. congruence.
  - intros ? [= <-]. done.
  - intros g p Hp%silent_sent; [|done]. destruct (Hs g p Hp) as (G & n & ? & ? & ? & [?|[? ?]]); exists G, n; split_and!; try done; [by left|right; split; [done|lia]].
  - intros g p p' n Hp%silent_sent Hp'%silent_sent; [|done..]. by apply (Hsame g p p' n).
  - intros p cur' [= <- <-]. split_and!; [done|lia|]. intros G p HG Hp%silent_sent Hpn; [|done]. destruct (Hs G p Hp) as (G' & n & HG' & Hpn' & _ & Hle).
    pose proof (numbered_inj _ _ _ Hpn Hpn'). rewrite HG' in HG. injection HG as ->. lia.
  - intros G m HG Hm Hor. apply was_accepted_app, Ha; [done| |by right]. destruct Hor; [lia|done].
  - by intros ? p [= <-].
  - by intros ? [= <-].
  - by apply silent_order.
Qed.

Lemma accept_inv s s' c lg p : Inv (MkSystem s (Some c) lg) → publishing c = PSending p → updateAccepted num_str sha256 p s = Ok s' →
  Inv (MkSystem s' (Some (c <| publishing := PIdle |>)) (lg ++ [EAccepted (gen c) p])).
Proof.
  intros [H0 Hn Hc Hs Hsame Ho Ha Hsend Hask Hord] Hpub H. apply accepted_spec in H as ([[p0 cur] Eo] & Eo' & Es & Eg & _).
  cbn [db client log] in *. specialize (Hc c eq_refl). destruct (Hsend c p eq_refl Hpub) as (Hp & _).
  assert (Hin : ∀ g q, ESent g q ∈ lg ++ [EAccepted (gen c) p] → ESent g q ∈ lg) by (by intros g q [?|?%list_elem_of_singleton]%elem_of_app).
  split; cbn [db client log]; rewrite ?Eg, ?Es, ?Eo'.
  - done.
  - intros Hg. congruence.
  - intros ? [= <-]. done.
  - intros g q Hq%Hin. by apply Hs.
  - intros g q q' n Hq%Hin Hq'%Hin. by apply (Hsame g q q' n).
  - done.
  - intros G m HG Hm _. destruct (decide (m = sequence s)) as [->|Hne]; [|apply was_accepted_app, Ha; [done..|left; lia]].
    exists p. split; [|done]. apply elem_of_app. right. apply list_elem_of_singleton. congruence.
  - by intros ? q [= <-].
  - by intros ? [= <-].
  - intros l1 l2 g q [(_ & ? & _)|(l2' & H)]%snoc_cases; [done|by eapply Hord].
Qed.

Lemma start_step_inv g print s s' ch lg : Inv (MkSystem s None lg) → activateTransport g print s = Ok (s', ch) → Inv (MkSystem s' (Some (fresh g)) lg).
Proof.
  intros [H0 Hn _ Hs Hsame Ho Ha _ _ Hord] H. cbn [db client log] in *. apply activate_spec in H as (Hg & Hle & H). split; cbn [db client log].
  - destruct H as [(_ & _ & _ & -> & _)|(_ & _ & _ & -> & _)]; lia.
  - congruence.
  - by intros ? [= <-].
  - intros g0 p Hp. destruct (Hs g0 p Hp) as (G & n & HG & Hpn & Hn1 & Hor). exists g, n. split_and!; [done..|].
    destruct H as [(_ & _ & _ & -> & [HgG|?])|(_ & _ & _ & _ & Hlt)]; [|congruence|].
    + rewrite HG in HgG. by injection HgG as ->.
    + specialize (Hlt G HG). lia.
  - done.
  - destruct H as [(_ & _ & Eo & -> & Hsame')|(_ & _ & Eo & _)]; rewrite Eo; [|done]. intros p cur E.
    destruct (Ho p cur E) as (? & ? & Ht). split_and!; [done..|]. intros G q HG. rewrite Hg in HG. injection HG as <-.
    destruct Hsame' as [HG|HN]; [by apply (Ht g)|]. apply Hn in HN as [_ HN]. congruence.
  - intros G m HG Hm Hor. rewrite Hg in HG. injection HG as <-.
    destruct H as [(_ & _ & Eo & Es & Hsame')|(_ & _ & _ & Es & _)]; rewrite ?Es in *; [|lia].
    destruct Hsame' as [HG|HN]; [apply Ha; try done; by rewrite <-Eo|]. apply Hn in HN as [HN _]. lia.
  - by intros ? p [= <-].
  - by intros ? [= <-].
  - done.
Qed.

Lemma postpone_rest row code now s : generation (postpone num_str row code now s) = generation s ∧ sequence (postpone num_str row code now s) = sequence s ∧
  outbox (postpone num_str row code now s) = outbox s ∧ requests (postpone num_str row code now s) = requests s.
Proof. unfold postpone, retry. by destruct (laneFor _ _ _). Qed.

Lemma ack_rest id l r s : generation (onAck id l r s).2 = generation s ∧ sequence (onAck id l r s).2 = sequence s ∧ outbox (onAck id l r s).2 = outbox s ∧
  requests (onAck id l r s).2 = requests s.
Proof.
  unfold onAck, acknowledged, reclaim. destruct r; [by destruct (laneFor _ _ _)|]. destruct (strict_eq _ _); [|done]. by destruct (laneFor _ _ _).
Qed.

Lemma poll_rest l g r s : let s' := (onPoll num_str sha256 l g r s).2 in generation s' = generation s ∧ sequence s' = sequence s ∧ outbox s' = outbox s ∧ requests s' = requests s.
Proof.
  unfold onPoll. destruct r as [data|]; [|done]. destruct (_ || _); [done|]. destruct (negb _); [done|]. destruct (negb _); [done|].
  destruct (receive _ _ _ _ _) as [s'|] eqn:E; [|done]. apply receive_spec in E as (? & ? & ? & ? & ? & _ & _ & _ & _ & ->). done.
Qed.

Lemma row_ack_rest row r now s : let s' := (onRowAck num_str row r now s).2 in generation s' = generation s ∧ sequence s' = sequence s ∧ outbox s' = outbox s ∧ requests s' = requests s.
Proof.
  unfold onRowAck. pose proof (ack_rest (i_id row) (lane row) r s) as Ha. destruct (onAck _ _ r s) as [[code|] s']; cbn in *; [|done].
  destruct (postpone_rest row code now s') as (-> & -> & -> & ->). done.
Qed.

Lemma handled_rest row o now s : let s' := (onHandled num_str sha256 row o now s).1 in generation s' = generation s ∧ sequence s' = sequence s ∧ outbox s' = outbox s.
Proof.
  pose proof (handled_spec num_str sha256 row o now s) as H. destruct (onHandled _ _ _ _ _ _) as [s' evs]. destruct H as [_ [(code & ->)|(request & receipt & Ef & _)]]; cbn.
  - by destruct (postpone_rest row code now s) as (-> & -> & -> & _).
  - apply finish_spec in Ef as (_ & _ & _ & ->). done.
Qed.

Lemma silent_ack p : silent (ack_of p).
Proof.
  destruct p as [| |d|row|row]; try (by intros e ?%elem_of_nil); [|by intros e ->%list_elem_of_singleton].
  cbn. destruct (prop d "lane"), (prop d "id"), (prop d "token"), (prop d "kind"); intros e He; (by apply elem_of_nil in He) || (by apply list_elem_of_singleton in He as ->).
Qed.

Lemma handled_silent row o now s : silent (onHandled num_str sha256 row o now s).2.
Proof.
  pose proof (handled_spec num_str sha256 row o now s) as H. destruct (onHandled _ _ _ _ _ _) as [s' evs]. destruct H as [[->|[v ->]] _]; intros e He; [by apply elem_of_nil in He|by apply list_elem_of_singleton in He as ->].
Qed.

Lemma updates_lane_inv l p s s' c lg evs : Inv (MkSystem s (Some c) lg) → generation s' = generation s ∧ sequence s' = sequence s ∧ outbox s' = outbox s → silent evs →
  Inv (enter_lane l p c s' (lg ++ evs)).
Proof.
  intros HI (? & ? & ?) He. unfold enter_lane. rewrite <-app_assoc. eapply silent_inv; try done; [by unfold set_lane; destruct (String.eqb _ _)|left; by unfold set_lane; destruct (String.eqb _ _)|].
  intros e [H'|H']%elem_of_app; [by apply He|by apply silent_ack in H'].
Qed.

Lemma nothing_silent : silent [].
Proof. by intros e ?%elem_of_nil. Qed.

Lemma updates_step_inv st st' : step st st' → Inv st → Inv st'.
Proof.
  intros [] HI.
  - by eapply start_step_inv.
  - destruct HI. by split.
  - rewrite <-(app_nil_r lg). by apply (updates_lane_inv _ _ s); [| |apply nothing_silent].
  - pose proof (poll_rest l (gen c) (call r) s) as (? & ? & ? & _). destruct (onPoll _ _ _ _ _ _) as [p s']. rewrite <-(app_nil_r lg). by apply (updates_lane_inv _ _ s); [| |apply nothing_silent].
  - rewrite <-(app_nil_r lg). destruct (prop d "id"); try (by apply (updates_lane_inv _ _ s); [| |apply nothing_silent]).
    destruct (ack_rest s0 l (call r) s) as (? & ? & ? & _). by apply (updates_lane_inv _ _ s); [| |apply nothing_silent].
  - pose proof (row_ack_rest row (call r) now s) as (? & ? & ? & _). destruct (onRowAck _ _ _ _ _) as [p s']. rewrite <-(app_nil_r lg). by apply (updates_lane_inv _ _ s); [| |apply nothing_silent].
  - pose proof (handled_rest row o now s) as Hr. pose proof (handled_silent row o now s) as He. destruct (onHandled _ _ _ _ _ _) as [s' evs]. by apply (updates_lane_inv _ _ s).
  - rewrite <-(app_nil_r lg). by apply (updates_lane_inv _ _ s); [| |apply nothing_silent].
  - destruct (postpone_rest row code now s) as (? & ? & ? & _). rewrite <-(app_nil_r lg). by apply (updates_lane_inv _ _ s); [| |apply nothing_silent].
  - unfold pendingUpdate in H0. destruct (outbox s) as [[p0 cur]|] eqn:Eo; [|done]. injection H0 as <-. eapply sent_inv; try done. by apply (u_outbox _ HI p0 cur).
  - rewrite <-(app_nil_r lg). assert (Hidle : Inv (MkSystem s (Some (c <| publishing := PIdle |>)) (lg ++ []))).
    { eapply silent_inv; try done; [by right|apply nothing_silent]. }
    destruct Hidle as [? ? Hcl ? ? ? ? ? ? ?].
    split; try done; cbn [db client log]; [intros ? [= <-]; exact (Hcl _ eq_refl)|by intros ? p [= <-]|]. intros _ _ _. unfold pendingUpdate in H0. by destruct (outbox s).
  - pose proof (u_asking _ HI c eq_refl H) as Eo. cbn in Eo. pose proof (frozen_inv _ _ _ _ _ _ _ HI Eo H0) as HF.
    apply publish_spec in H0 as (Ep & cur & Es); [|unfold pendingUpdate; by rewrite Eo].
    change [EFrozen (gen c) payload now; ESent (gen c) payload] with ([EFrozen (gen c) payload now] ++ [ESent (gen c) payload]). rewrite app_assoc. assert (Hp := update_numbered (gen c) capabilities (requestSnapshots toISOString now s) (sequence s + 1) (List.map snd (take 10 (receipts s)))).
    rewrite <-Ep in Hp. exact (sent_inv s' (c <| publishing := PIdle |>) _ payload (clone payload) cur HF ltac:(by rewrite Es) ltac:(by rewrite clone_text) ltac:(by rewrite Es; apply Hp)).
  - by apply accept_inv with s.
  - rewrite <-(app_nil_r lg). eapply silent_inv; try done; [by right|apply nothing_silent].
  - rewrite <-(app_nil_r lg). eapply silent_inv; try done; [by left|apply nothing_silent].
  - rewrite <-(app_nil_r lg). eapply silent_inv; try done; [by left|apply nothing_silent].
  - eapply silent_inv; try done; [by left|]. by intros e ->%list_elem_of_singleton.
  - rewrite <-(app_nil_r lg). eapply silent_inv; try done; [by left|apply nothing_silent].
  - rewrite <-(app_nil_r lg). eapply silent_inv; try done; [by left|apply nothing_silent].
Qed.

Lemma outbox_inv b uuid st : rtc step (start num_str sha256 b uuid) st → Inv st.
Proof.
  intros H. assert (HI : Inv (start num_str sha256 b uuid)).
  { split; cbn; try done; try (by intros ? ? ?%elem_of_nil); try (by intros ? ? ? ? ?%elem_of_nil). by intros [|]. }
  revert HI. induction H as [|x y z Hxy _ IH]; [done|]. intros HI. apply IH. by eapply updates_step_inv.
Qed.

(** Updates are published in order, each exactly as it was first written: whatever answers are lost
    and however often the client stops and starts, two updates sent under the same number of the same
    generation have the same text; and an update is only sent after every earlier number of its
    generation was accepted. *)
Theorem update_number_names_one_update b uuid st :
  rtc step (start num_str sha256 b uuid) st →
  (∀ g p p' n, ESent g p ∈ log st → ESent g p' ∈ log st → numbered_as p n → numbered_as p' n → text p = text p') ∧
  (∀ l1 l2 g p, log st = l1 ++ ESent g p :: l2 →
     ∃ n, numbered_as p n ∧ 1 ≤ n ∧ ∀ m, 1 ≤ m < n → ∃ q, EAccepted g q ∈ l1 ∧ numbered_as q m).
Proof. intros HI%outbox_inv. split; [apply (u_same _ HI)|apply (u_order _ HI)]. Qed.

End updates.

Lemma update_number_names_one_update_witness : numbered_as FleetSample.update2 2 ∧
  ∃ q, EAccepted 1 q ∈ FleetSample.log9 ++ [EFrozen 1 FleetSample.update2 3000] ∧ numbered_as q 1.
Proof.
  split; [reflexivity|].
  destruct (proj2 (update_number_names_one_update FleetSample.num_str FleetSample.sha256 FleetSample.toISOString (JStr "binding") "consumer" FleetSample.s11 FleetSample.run11)
    (FleetSample.log9 ++ [EFrozen 1 FleetSample.update2 3000]) [] 1 FleetSample.update2 eq_refl) as (n & Hn & _ & Hm).
  assert (n = 2) as -> by (revert Hn; unfold numbered_as; vm_compute; by intros [= <-]). apply (Hm 1). lia.
Defined.
