(* ===== verification/FleetReady.v ===== *)
(** * When a request is published as ready

    A status that a fleet publishes says [ready] only if the protocol found it so, less than ninety
    seconds before the update was written; and every observed request has its turn. *)

From Stdlib Require Import ZArith QArith Lia String Ascii.
From stdpp Require Import base list strings relations.
From S2P Require Import Prelude OMap Json JsonParse ExecAuth ProjectSides FleetStore FleetClient FleetFacts FleetUpdates.
#[local] Open Scope stdpp_scope.
Import FleetStore FleetClient.
#[local] Existing Instances eta_inbox eta_request eta_db eta_client.

Lemma prop_members v k : prop (JObj (members v)) k = prop v k.
Proof. by destruct v. Qed.

(** Assigned fields have their last value. *)
Lemma assign_other k fields (o : list (string * jval)) : k ∉ fields.*1 → prop_in k (assign fields o) = prop_in k o.
Proof.
  unfold assign. revert o. induction fields as [|[k' v] fields IH]; intros o Hk; [done|]. cbn in Hk |- *. apply not_elem_of_cons in Hk as [Hne Hk].
  rewrite IH, !prop_in_get, om_get_obj_set_ne; done.
Qed.

Lemma assign_here k v fields (o : list (string * jval)) : k ∉ fields.*1 → prop_in k (assign ((k, v) :: fields) o) = v.
Proof. intros Hk. change (assign ((k, v) :: fields) o) with (assign fields (obj_set k v o)). by rewrite assign_other, prop_in_get, om_get_obj_set_eq. Qed.

Section ready.
Context (num_str : num → string) (sha256 : string → string) (toISOString : Z → string).
Abbreviation step := (step num_str sha256 toISOString).
Abbreviation text := (json_text num_str).

(** The request was found ready at time [t] by the protocol, and [st] says so with that time. *)
Definition proven (lg : list event) (now : Z) (st : jval) : Prop :=
  ∃ id found t, EObserved id found t ∈ lg ∧ to_bool (prop found "ready") = true ∧ t ≤ now ∧ now - t < 90000 ∧
    prop st "observedAt" = JStr (toISOString t) ∧ ∀ k, k ≠ "observedAt" → prop st k = prop found k.

Definition statuses (p : jval) : list jval := match prop p "statuses" with JArr l => l | _ => [] end.

(** ** A snapshot *)

Lemma snapshot_ready now r : to_bool (prop (snapshotOf toISOString now r) "ready") = true →
  ∃ v t, status r = Some v ∧ observed_at r = t ∧ 0 < t ∧ to_bool (prop v "ready") = true ∧ t ≤ now ∧ now - t < 90000 ∧
    prop (snapshotOf toISOString now r) "observedAt" = JStr (toISOString t) ∧ ∀ k, k ≠ "observedAt" → prop (snapshotOf toISOString now r) k = prop v k.
Proof.
  unfold snapshotOf. set (at_ := observedAt r). set (st := assign [("observedAt", _)] _).
  assert (Hst : ∀ k, k ≠ "observedAt" → prop (JObj st) k = prop (default JUndef (status r)) k).
  { intros k Hk. cbn [prop]. unfold st. rewrite assign_other; [apply prop_members|]. cbn. by intros ?%list_elem_of_singleton. }
  assert (Hun : to_bool (prop (JObj (assign unverified st)) "ready") = false).
  { cbn [prop]. unfold unverified. rewrite assign_here; [done|]. cbn. by intros ?%list_elem_of_singleton. }
  destruct at_ as [t|] eqn:Et; [|congruence]. destruct (isSafeInteger now && (t <=? now) && (now - t <? 90000)) eqn:E; [|congruence].
  rewrite !andb_true_iff, Z.leb_le, Z.ltb_lt in E. destruct E as [[_ Hle] Hlt]. intros Hr. rewrite Hst in Hr by done.
  destruct (status r) as [v|] eqn:Es; [|done]. exists v, t. unfold at_, observedAt in Et. destruct (_ && _ && _) eqn:Ea; [|done].
  injection Et as <-. rewrite !andb_true_iff, Z.ltb_lt in Ea. split_and!; try done; [apply Ea|].
  cbn [prop]. unfold st. rewrite assign_here; [done|]. by intros ?%elem_of_nil.
Qed.

Lemma in_snapshots now s st : st ∈ requestSnapshots toISOString now s → ∃ r, r ∈ requests s ∧ st = snapshotOf toISOString now r.
Proof.
  unfold requestSnapshots. intros (p & <- & Hp)%list_elem_of_In%in_map_iff. exists p.2. split; [|done].
  assert (Hn : ∀ (rows : list RequestRow) n q, q ∈ numbered n rows → q.2 ∈ rows).
  { induction rows as [|x rows IH]; intros n q Hq; [by apply elem_of_nil in Hq|]. apply elem_of_cons in Hq as [->|Hq]; [by left|right; by eapply IH]. }
  apply (Hn _ 1). unfold snapshotRows in Hp.
  assert (Hf : ∀ f, p ∈ take 200 (List.filter f (numbered 1 (requests s))) → p ∈ numbered 1 (requests s)).
  { intros f Hf%subseteq_take. apply list_elem_of_In, filter_In in Hf as [Hf _]. by apply list_elem_of_In. }
  apply list_elem_of_In in Hp. destruct (take 200 _) as [|x l] eqn:E in Hp; [by eapply Hf|]. rewrite <-E in Hp. by eapply Hf.
Qed.

(** ** The invariant *)

Definition observed_row (lg : list event) (r : RequestRow) : Prop :=
  ∀ v, status r = Some v → to_bool (prop v "ready") = true → 0 < observed_at r → EObserved (r_id r) v (observed_at r) ∈ lg.

Record Inv (st : System) : Prop := MkInv {
  r_rows : ∀ r, r ∈ requests (db st) → observed_row (log st) r;
  r_frozen : ∀ g p now, EFrozen g p now ∈ log st → ∀ s, s ∈ statuses p → to_bool (prop s "ready") = true → proven (log st) now s;
  r_outbox : ∀ p cur G, outbox (db st) = Some (p, cur) → generation (db st) = Some G → ∃ q now, EFrozen G q now ∈ log st ∧ text p = text q;
  r_sent : ∀ g p, ESent g p ∈ log st → ∃ q now, EFrozen g q now ∈ log st ∧ text p = text q;
}.

Lemma observed_row_app lg evs r : observed_row lg r → observed_row (lg ++ evs) r.
Proof. intros H v Hv Hr Hp. apply elem_of_app. left. by apply H. Qed.

Lemma ready_proven_app lg evs now s : proven lg now s → proven (lg ++ evs) now s.
Proof. intros (id & found & t & H & Hr). exists id, found, t. split; [apply elem_of_app; by left|done]. Qed.

(** Rows are as they were, or have nothing observed. *)
Definition rows_follow (s s' : DB) : Prop :=
  ∀ r', r' ∈ requests s' → status r' = None ∨ ∃ r, r ∈ requests s ∧ r_id r' = r_id r ∧ status r' = status r ∧ observed_at r' = observed_at r.

Lemma rows_follow_eq s s' : requests s' = requests s → rows_follow s s'.
Proof. intros E r Hr. right. exists r. by rewrite <-E. Qed.

Lemma update_where_follow p f s : (∀ r, r_id (f r) = r_id r ∧ status (f r) = status r ∧ observed_at (f r) = observed_at r) →
  rows_follow s (s <| requests := update_where p f (requests s) |>).
Proof.
  intros Hf r' (r & <- & Hr)%list_elem_of_In%in_map_iff. right. exists r. split; [by apply list_elem_of_In|]. destruct (p r); [apply Hf|done].
Qed.

Lemma follow_row lg s s' r' : rows_follow s s' → (∀ r, r ∈ requests s → observed_row lg r) → r' ∈ requests s' → observed_row lg r'.
Proof.
  intros Hf H Hr' v Hv Hready Hpos. destruct (Hf r' Hr') as [Hnone|(r & Hr & Ei & Es & Eo)]; [congruence|].
  rewrite Ei, Eo in *. apply (H r Hr v); [congruence|done|done].
Qed.

Lemma ready_quiet_inv s s' c c' lg evs : Inv (MkSystem s c lg) → rows_follow s s' → outbox s' = outbox s → generation s' = generation s → silent evs →
  (∀ g p now, EFrozen g p now ∉ evs) → Inv (MkSystem s' c' (lg ++ evs)).
Proof.
  intros [Hr Hz Ho Hs] Hf Eo Eg He Hev. cbn [db log] in *. split; cbn [db log].
  - intros r' Hr'. apply observed_row_app. by eapply follow_row.
  - intros g p now [H|H]%elem_of_app; [|by apply Hev in H]. intros s0 Hs0 Hready. by eapply ready_proven_app, Hz.
  - intros p cur G. rewrite Eo, Eg. intros H1 H2. destruct (Ho p cur G H1 H2) as (q & now & Hq & Ht). exists q, now. split; [apply elem_of_app; by left|done].
  - intros g p H%silent_sent; [|done]. destruct (Hs g p H) as (q & now & Hq & Ht). exists q, now. split; [apply elem_of_app; by left|done].
Qed.

(** Recording a status: found by the protocol, or one that is not ready. *)
Lemma observe_inv s c c' lg evs id v now : Inv (MkSystem s c lg) → silent evs → (∀ g p now, EFrozen g p now ∉ evs) →
  (to_bool (prop (clone v) "ready") = true → EObserved id (clone v) now ∈ evs) → Inv (MkSystem (observeRequest id v now s) c' (lg ++ evs)).
Proof.
  intros HI He Hev Hv. pose proof (ready_quiet_inv s s c c' lg evs HI (rows_follow_eq s s eq_refl) eq_refl eq_refl He Hev) as [Hr Hz Ho Hs].
  split; [|exact Hz|exact Ho|exact Hs]. cbn [db log] in *. intros r' (r & <- & Hr')%list_elem_of_In%in_map_iff. apply list_elem_of_In in Hr'.
  destruct (String.eqb_spec (r_id r) id) as [<-|]; [|by apply Hr]. intros w [= <-] Hready Hpos. cbn [observed_at r_id over] in *.
  destruct (isSafeInteger now && (0 <? now)); [|lia]. apply elem_of_app. right. by apply Hv.
Qed.

Lemma publish_inv s s' c lg cap now p : FleetUpdates.Inv num_str (MkSystem s (Some c) lg) → Inv (MkSystem s (Some c) lg) → publishing c = PCapabilities →
  publish toISOString (gen c) cap now s = Ok (p, s') → Inv (MkSystem s' (Some (c <| publishing := PSending p |>)) (lg ++ [EFrozen (gen c) p now; ESent (gen c) p])).
Proof.
  intros HU [Hr Hz Ho Hs] Hpub H. pose proof (u_asking _ _ HU c eq_refl Hpub) as Eo. cbn [db log] in *.
  apply publish_spec in H as (Ep & cur & ->); [|unfold pendingUpdate; by rewrite Eo]. pose proof (u_client _ _ HU c eq_refl) as Hg. cbn [db] in Hg.
  set (evs := [_; _]). assert (Hin : ∀ e, e ∈ lg → e ∈ lg ++ evs) by (intros; apply elem_of_app; by left).
  assert (Hnew : EFrozen (gen c) p now ∈ lg ++ evs) by (apply elem_of_app; right; left).
  split; cbn [db log].
  - intros r Hrow. apply observed_row_app. by apply Hr.
  - intros g q t [H|[[= -> -> ->]|?%list_elem_of_singleton]%elem_of_cons]%elem_of_app; [| |done].
    + intros st Hst Hready. by eapply ready_proven_app, Hz.
    + intros st Hst Hready. unfold statuses in Hst. rewrite Ep in Hst. cbn in Hst. apply in_snapshots in Hst as (r & Hrow & ->).
      apply snapshot_ready in Hready as (v & t & Hv & Ht & Hpos & Hv' & ? & ? & ? & ?). exists (r_id r), v, t. split_and!; try done.
      apply Hin. subst t. by apply Hr.
  - intros q cur' G [= <- _] HG. assert (G = gen c) as -> by (cbn in HG; congruence). exists p, now. split; [done|]. apply clone_text.
  - intros g q [H|[?|[= -> ->]%list_elem_of_singleton]%elem_of_cons]%elem_of_app; [|done|by exists p, now].
    destruct (Hs g q H) as (q' & t & Hq & ?). exists q', t. split; [by apply Hin|done].
Qed.

Lemma prop_clone o k v w : prop (JObj o) k = v → json_copy v = Some w → v ≠ JUndef → prop (clone (JObj o)) k = w.
Proof.
  intros Hv Hw Hne. change (clone (JObj o)) with (JObj (member_copies o)). cbn [prop] in *. induction o as [|[k' x] o IH]; [by subst|].
  cbn [prop_in member_copies] in *. destruct (String.eqb k k') eqn:E.
  - subst x. rewrite Hw. cbn. by rewrite E.
  - destruct (json_copy x); [cbn; rewrite E|]; by apply IH.
Qed.

Lemma unreachable_ready row : prop (clone (unreachable row)) "ready" = JBool false.
Proof.
  unfold unreachable. apply prop_clone with (JBool false); [|done|done]. cbn [prop].
  set (base := assign (members _) _). change (assign (?a :: ?b :: ?l) base) with (assign (b :: l) (obj_set a.1 a.2 base)).
  apply assign_here. cbn. by intros ?%list_elem_of_singleton.
Qed.

Lemma handled_follow row o now s : rows_follow s (onHandled num_str sha256 row o now s).1.
Proof.
  assert (Hp : ∀ code, rows_follow s (postpone num_str row code now s)) by (intros code; apply rows_follow_eq; by destruct (postpone_rest num_str row code now s) as (_ & _ & _ & ->)).
  pose proof (handled_spec num_str sha256 row o now s) as H. destruct (onHandled _ _ _ _ _ _) as [s' evs]. destruct H as [_ [(code & ->)|(request & receipt & E & _)]]; [apply Hp|].
  cbn. unfold finish in E. apply bind_Ok in E as (l & _ & E).
  apply bind_Ok in E as (s1 & E1 & E). apply bind_Ok in E as (s2 & E2 & [= <-]).
  assert (Er : requests s2 = requests s1). { destruct receipt as [v|]; [|by injection E2 as <-]. unfold keep_receipt in E2. destruct (prop v _); try done. by injection E2 as <-. }
  intros r' Hr'. cbn in Hr'. rewrite Er in Hr'. destruct request as [v|]; [|injection E1 as ->; right; by exists r'].
  unfold track in E1. destruct (prop v _); try done. destruct (find_request _ _) as [q|]; [destruct (negb _); [done|]; injection E1 as ->; right; by exists r'|].
  injection E1 as <-. cbn in Hr'. apply elem_of_app in Hr' as [Hr'|Hr'%list_elem_of_singleton]; [right; by exists r'|left; by subst r'].
Qed.

Lemma activate_follow g print s s' ch : activateTransport g print s = Ok (s', ch) → rows_follow s s'.
Proof.
  intros (_ & _ & [(_ & Er & _)|(_ & Er & _)])%activate_spec; [by apply rows_follow_eq|].
  intros r'. rewrite Er. intros (r & <- & Hr)%list_elem_of_In%in_map_iff. by left.
Qed.

(** A step of a lane. *)
Lemma ready_lane_inv l p s s' c lg evs : Inv (MkSystem s (Some c) lg) → rows_follow s s' → generation s' = generation s ∧ sequence s' = sequence s ∧ outbox s' = outbox s →
  silent evs → (∀ g p now, EFrozen g p now ∉ evs) → Inv (enter_lane l p c s' (lg ++ evs)).
Proof.
  intros HI Hf (? & ? & ?) He Hev. unfold enter_lane. rewrite <-app_assoc. eapply ready_quiet_inv; try done.
  - intros e [H'|H']%elem_of_app; [by apply He|by apply silent_ack in H'].
  - intros g q now [H'|H']%elem_of_app; [by apply Hev in H'|]. destruct p as [| |d|row|row]; cbn in H'; try by apply elem_of_nil in H'.
    + destruct (prop d "lane"), (prop d "id"), (prop d "token"), (prop d "kind"); (by apply elem_of_nil in H') || (by apply list_elem_of_singleton in H').
    + by apply list_elem_of_singleton in H'.
Qed.

Lemma no_frozen_nil g p now : EFrozen g p now ∉ [].
Proof. by intros ?%elem_of_nil. Qed.
Hint Resolve no_frozen_nil nothing_silent rows_follow_eq : core.

Lemma handled_events row o now s g p t : EFrozen g p t ∉ (onHandled num_str sha256 row o now s).2.
Proof.
  pose proof (handled_spec num_str sha256 row o now s) as H. destruct (onHandled _ _ _ _ _ _) as [s' evs]. destruct H as [[->|[v ->]] _]; [apply no_frozen_nil|by intros ?%list_elem_of_singleton].
Qed.

Lemma ready_step_inv st st' : step st st' → FleetUpdates.Inv num_str st → Inv st → Inv st'.
Proof.
  intros [] HU HI.
  - pose proof (activate_follow _ _ _ _ _ H) as Hf. apply activate_spec in H as (Hg & _ & H). destruct HI as [Hr Hz Ho Hs]. cbn [db log] in *.
    split; cbn [db log]; [|done| |done]; [intros r' Hr'; by eapply follow_row|]. intros p cur G Hout HG. rewrite Hg in HG. injection HG as <-.
    destruct H as [(_ & _ & Eo & _ & [HG|HN])|(_ & _ & Eo & _)]; rewrite Eo in Hout; [eapply Ho; eassumption| |done].
    apply (u_none _ _ HU) in HN as [_ HN]. cbn in HN. congruence.
  - destruct HI. by split.
  - rewrite <-(app_nil_r lg). by apply (ready_lane_inv _ _ s); auto.
  - pose proof (poll_rest num_str sha256 l (gen c) (call r) s) as (? & ? & ? & ?). destruct (onPoll _ _ _ _ _ _) as [p s']. rewrite <-(app_nil_r lg). by apply (ready_lane_inv _ _ s); auto.
  - rewrite <-(app_nil_r lg). destruct (prop d "id"); try (by apply (ready_lane_inv _ _ s); auto).
    destruct (ack_rest s0 l (call r) s) as (? & ? & ? & ?). by apply (ready_lane_inv _ _ s); auto.
  - pose proof (row_ack_rest num_str row (call r) now s) as (? & ? & ? & ?). destruct (onRowAck _ _ _ _ _) as [p s']. rewrite <-(app_nil_r lg). by apply (ready_lane_inv _ _ s); auto.
  - pose proof (handled_rest num_str sha256 row o now s) as Hr. pose proof (handled_silent num_str sha256 row o now s) as He. pose proof (handled_follow row o now s) as Hf.
    pose proof (handled_events row o now s) as Hev. destruct (onHandled _ _ _ _ _ _) as [s' evs]. by apply (ready_lane_inv _ _ s).
  - rewrite <-(app_nil_r lg). by apply (ready_lane_inv _ _ s); auto.
  - destruct (postpone_rest num_str row code now s) as (? & ? & ? & ?). rewrite <-(app_nil_r lg). by apply (ready_lane_inv _ _ s); auto.
  - destruct HI as [Hr Hz Ho Hs]. cbn [db log] in *. pose proof (u_client _ _ HU c eq_refl) as Hg. cbn in Hg.
    unfold pendingUpdate in H0. destruct (outbox s) as [[p0 cur]|] eqn:Eo; [|done]. injection H0 as ->.
    assert (Hex : ∀ g p, (∃ q now, EFrozen g q now ∈ lg ∧ text p = text q) → ∃ q now, EFrozen g q now ∈ lg ++ [ESent (gen c) payload] ∧ text p = text q).
    { intros g p (q & now & Hq & ?). exists q, now. split; [apply elem_of_app; by left|done]. }
    split; cbn [db log]; [intros r Hrow; by apply observed_row_app, Hr| | |].
    + intros g p now [H'|?%list_elem_of_singleton]%elem_of_app; [|done]. intros x Hx Hready. by eapply ready_proven_app, Hz.
    + intros p cur' G Hout HG. apply Hex. rewrite Eo in Hout. eapply Ho; eassumption.
    + intros g p [H'|[= -> ->]%list_elem_of_singleton]%elem_of_app; apply Hex; [by apply Hs|by eapply Ho].
  - rewrite <-(app_nil_r lg). by eapply (ready_quiet_inv s _ (Some c)); auto.
  - by eapply publish_inv.
  - unfold updateAccepted in H0. destruct (outbox s) as [[p0 cur]|] eqn:Eo; [|done]. js_inv H0. injection H0 as <-.
    destruct (ready_quiet_inv s s (Some c) (Some (c <| publishing := PIdle |>)) lg [] HI (rows_follow_eq s s eq_refl) eq_refl eq_refl nothing_silent no_frozen_nil) as [Hr Hz Ho Hs].
    rewrite app_nil_r in *. cbn [db log] in *. split; cbn [db log]; [intros w Hrow; by apply observed_row_app, Hr| |done|].
    + intros g p now [H'|?%list_elem_of_singleton]%elem_of_app; [|done]. intros x Hx Hready. by eapply ready_proven_app, Hz.
    + intros g p [H'|?%list_elem_of_singleton]%elem_of_app; [|done]. destruct (Hs g p H') as (q & t & Hq & ?). exists q, t. split; [apply elem_of_app; by left|done].
  - rewrite <-(app_nil_r lg). by eapply (ready_quiet_inv s _ (Some c)); auto.
  - rewrite <-(app_nil_r lg). eapply (ready_quiet_inv s _ (Some c)); [done|by apply update_where_follow|done|done|done|done].
  - rewrite <-(app_nil_r lg). eapply (ready_quiet_inv s _ (Some c)); [done|by apply update_where_follow|done|done|done|done].
  - eapply observe_inv; [done|by intros e ->%list_elem_of_singleton|by intros ? ? ? ?%list_elem_of_singleton|]. intros _. by left.
  - rewrite <-(app_nil_r lg). eapply observe_inv; [done|done|done|]. by rewrite unreachable_ready.
  - rewrite <-(app_nil_r lg). by eapply (ready_quiet_inv s _ (Some c)); auto.
Qed.

(** A request is published as ready only on fresh proof: every update that is sent is one that was
    written down at some time [now], and each status in it that says ready carries, unchanged, what the
    protocol answered for that request less than ninety seconds before [now], with the time of that
    answer, however late the update itself is delivered. *)
Theorem published_ready_is_fresh b uuid st :
  rtc step (start num_str sha256 b uuid) st →
  ∀ g p, ESent g p ∈ log st → ∃ q now, EFrozen g q now ∈ log st ∧ text p = text q ∧
    ∀ s, s ∈ statuses q → to_bool (prop s "ready") = true → proven (log st) now s.
Proof.
  intros H. assert (HI : FleetUpdates.Inv num_str st ∧ Inv st).
  { assert (H0 : Inv (start num_str sha256 b uuid)).
    { split; cbn; [by intros ? ?%elem_of_nil|by intros ? ? ? ?%elem_of_nil|done|by intros ? ? ?%elem_of_nil]. }
    assert (HU : FleetUpdates.Inv num_str (start num_str sha256 b uuid)) by (apply (outbox_inv num_str sha256 toISOString b uuid), rtc_refl).
    revert H0 HU. induction H as [|x y z Hxy _ IH]; [done|]. intros H0 HU. apply IH; [by eapply ready_step_inv|by eapply FleetUpdates.updates_step_inv]. }
  destruct HI as [_ [_ Hz _ Hs]]. intros g p Hp. destruct (Hs g p Hp) as (q & now & Hq & Ht). exists q, now. split_and!; [done..|]. by eapply Hz.
Qed.

End ready.

Lemma published_ready_is_fresh_witness : ∃ q now, EFrozen 1 q now ∈ log FleetSample.s8 ∧
  json_text FleetSample.num_str FleetSample.update1 = json_text FleetSample.num_str q ∧
  ∀ s, s ∈ statuses q → to_bool (prop s "ready") = true → proven FleetSample.toISOString (log FleetSample.s8) now s.
Proof.
  apply (published_ready_is_fresh FleetSample.num_str FleetSample.sha256 FleetSample.toISOString (JStr "binding") "consumer" FleetSample.s8 FleetSample.run8).
  cbn. do 6 right. left.
Defined.
