(* ===== verification/FleetProtocol.v ===== *)
(** * The protocol of managed fleets ([lib/fleet-protocol.js])

    A fleet proves that it receives a room by answering a probe there; from that room it may then ask
    for agents. [handle] is cut where a probe waits for the homeserver: [begin] up to there, [finish]
    with the state at that later time. The homeserver ([readRoom]), the backend and the registry of
    sides ([sideFor]) are arguments. Reads that the code makes in parallel are made one after the
    other: which of several failures is reported is not modelled. Names are normalised as characters
    below 256 are. *)

From Stdlib Require Import ZArith QArith Lia String Ascii.
From stdpp Require Import base list strings relations.
From S2P Require Import Prelude OMap Json JsonParse ProjectSides.
#[local] Open Scope stdpp_scope.

Module FleetProtocol.

Definition FLEET_PROBE_EVENT : string := "com.hagency.connection.probe.v1".
Definition FLEET_REQUEST_EVENT : string := "com.hagency.engagement.request.v1".
Definition FIELDS : list string :=
  ["v"; "fleetId"; "requestId"; "requesterMxid"; "sourceRoomId"; "targetProjectId"; "targetRoomId"; "ownerMxid"; "ownerDmRoomId"; "role";
   "requestedTokens"; "ratePerDay"; "authVersion"].

(** An error: its code and status, where it has them. *)
Record Err : Type := MkErr { e_code : option string; e_status : option Z }.
Definition Res (A : Type) : Type := (Err + A)%type.
Definition rbind {A B} (r : Res A) (f : A → Res B) : Res B := match r with inl e => inl e | inr a => f a end.
Notation "'do' x '<-' c ';' k" := (rbind c (λ x, k)) (at level 10, x pattern, c at level 100, k at level 200).
Notation "'fail_if' b 'with' e ';' k" := (if (b : bool) then inl e else k) (at level 10, b at level 100, e at level 100, k at level 200).

Definition fail (code : string) (status : Z) : Err := MkErr (Some code) (Some status).
Definition plain_error : Err := MkErr None None.

(** A member of a value that may be [null], which throws. *)
Definition deref (v : jval) (k : string) : Res jval := if is_nullish v then inl plain_error else inr (prop v k).

(** ** Texts *)

(** [/^[p]{min,max}$/] *)
Definition made_of (p : ascii → bool) (min max : nat) (s : string) : bool :=
  (min <=? String.length s)%nat && (String.length s <=? max)%nat && string_forall p s.
Definition upper (c : ascii) : bool := ProjectSides.in_class 65 90 c.
Definition word (c : ascii) : bool := ProjectSides.is_lower c || upper c || is_digit c || Ascii.eqb c "_" || Ascii.eqb c "-".
Definition slug (c : ascii) : bool := ProjectSides.is_lower c || is_digit c || Ascii.eqb c "_" || Ascii.eqb c "-".

Definition text_in (p : string → bool) (v : jval) : bool := match v with JStr s => p s | _ => false end.
Definition fullMxid : jval → bool := text_in (matrix_id "@").
Definition room : jval → bool := text_in (matrix_id "!").
(** [/^[a-z][a-z0-9_-]{0,63}$/] *)
Definition role_name (s : string) : bool :=
  match s with String c rest => ProjectSides.is_lower c && made_of slug 0 63 rest | EmptyString => false end.
(** [/^\$\S{1,max}$/]; without a bound, [max] is the length of the text. *)
Definition event_id (max : nat) (s : string) : bool :=
  match s with String c rest => Ascii.eqb c "$" && made_of (λ c, negb (is_ws c)) 1 max rest | EmptyString => false end.

(** [String(value).slice(String(value).indexOf(':') + 1).toLowerCase()] *)
Definition serverOf (s : string) : string := lower (match index_of ":" s with Some n => drop_str (S n) s | None => s end).

Section protocol.
Context (num_str : num → string) (str_num : string → num).

(** [a < b] *)
Definition less (a b : jval) : bool :=
  match a, b with
  | JStr x, JStr y => String.ltb x y
  | _, _ => num_ltb (to_number num_str str_num a) (to_number num_str str_num b)
  end.

(** ** [normalizeProjectAgentDefinition]: a name that starts with a letter *)

Definition letter (c : ascii) : bool :=
  let n := nat_of_ascii c in ProjectSides.is_lower c || upper c || existsb (Nat.eqb n) [170; 181; 186]%nat ||
  ((192 <=? n)%nat && negb (n =? 215)%nat && negb (n =? 247)%nat).
Definition digit (c : ascii) : bool := is_digit c || existsb (Nat.eqb (nat_of_ascii c)) [178; 179; 185; 188; 189; 190]%nat.
Definition agent_name (s : string) : bool :=
  match s with String c rest => letter c && string_forall (λ c, letter c || digit c || Ascii.eqb c "_" || Ascii.eqb c "-") rest | EmptyString => false end.
Definition resource_id (s : string) : bool :=
  String.prefix "resource_" s && (String.length s =? 33)%nat && string_forall (λ c, is_digit c || ProjectSides.in_class 97 102 c) (drop_str 9 s).

Definition normalizeProjectAgentDefinition (value : jval) : Res jval :=
  match value, prop value "name", prop value "resourceId" with
  | JObj o, JStr name, JStr r =>
      fail_if (64 <? String.length name)%nat || negb (agent_name name) || negb (resource_id r) || negb (forallb (λ k, inb k ["name"; "resourceId"]) (om_keys o))
        with fail "invalid_agent_definition" 400;
      inr (JObj [("name", JStr name); ("resourceId", JStr r)])
  | _, _, _ => inl (fail "invalid_agent_definition" 400)
  end.

(** ** Requests *)

Definition field (input : jval) (k : string) : jval := nullish_or (prop input k) (if String.eqb k "ratePerDay" then JNull else JUndef).
Definition fields (input : jval) (privateOwner : bool) : list (string * jval) :=
  List.map (λ k, (k, field input k)) (List.filter (λ k, privateOwner || negb (String.eqb k "ownerDmRoomId")) FIELDS).

Definition positive (v : jval) : bool := match ProjectSides.safe_integer v with Some z => 0 <? z | None => false end.
Definition one (v : jval) : bool := strict_eq v (JNum (Fin 1)).

Definition well_formed (v : jval) (privateOwner : bool) : bool :=
  let f := prop v in
  one (f "v") && one (f "authVersion") && ProjectSides.fleet_id (to_str num_str (nullish_or (f "fleetId") (JStr ""))) &&
  text_in (made_of word 1 96) (f "requestId") && text_in (made_of word 1 128) (f "targetProjectId") &&
  fullMxid (f "requesterMxid") && fullMxid (f "ownerMxid") && room (f "sourceRoomId") && room (f "targetRoomId") &&
  negb (strict_eq (f "sourceRoomId") (f "targetRoomId")) &&
  (negb privateOwner || (room (f "ownerDmRoomId") && negb (strict_eq (f "ownerDmRoomId") (f "targetRoomId")) && negb (strict_eq (f "ownerDmRoomId") (f "sourceRoomId")))) &&
  text_in role_name (f "role") && positive (f "requestedTokens") &&
  (match f "ratePerDay" with JNull => true | r => positive r end).

Definition normalizeFleetRequest (input : jval) (privateOwner : bool) : Res jval :=
  let value := fields input privateOwner in
  fail_if negb (well_formed (JObj value) privateOwner) with fail "invalid_request" 400;
  match prop input "agentDefinition" with
  | JUndef => inr (JObj value)
  | d => do d' <- normalizeProjectAgentDefinition d; inr (JObj (value ++ [("agentDefinition", d')]))
  end.

Definition fleetRequestContext (input : jval) : Res jval :=
  do value <- normalizeFleetRequest input true;
  fail_if negb (text_in (event_id 254) (prop input "sourceEventId")) with fail "invalid_request" 400;
  match value with JObj o => inr (JObj (o ++ [("sourceEventId", prop input "sourceEventId")])) | _ => inl plain_error end.

Definition fleetRequestKey (context : jval) : string :=
  "fleet-v1:" +:+ to_str num_str (prop context "fleetId") +:+ ":" +:+ to_str num_str (prop context "requestId").

(** ** Sides, and what was received *)

(** What [sideFor] knows of a side; [fleetId] is read off its sender. *)
Record Side : Type := MkSide {
  senderLocalpart : option string; s_registration : option string; transport : option (string * Z); representativeMxid : string; serverName : string;
}.
Definition fleetIdForSender (sender : option string) : option string := match sender with Some s => ProjectSides.fleetOf s | None => None end.
Definition transportGeneration (s : Side) : option Z := snd <$> transport s.

Record Receipt : Type := MkReceipt { sourceRoomId : string; sourceEventId : string; challenge : string; receivedAt : Z; mode : string; r_generation : option Z }.
Record Fleet : Type := MkFleet { registration : string; receipts : omap Receipt; receptionRoomId : option string; receptionGeneration : option Z }.
#[export] Instance eta_fleet : Settable Fleet := λ f, MkFleet (registration f) (receipts f) (receptionRoomId f) (receptionGeneration f).

Definition State : Type := omap Fleet.

(** What [save] does. *)
Inductive saved : Type := SaveDone | SaveFalse | SaveThrew.
Definition commit (sv : saved) (next st : State) : Res unit * State :=
  match sv with
  | SaveDone => (inr tt, next)
  | SaveFalse => (inl (fail "persistence_failed" 503), st)
  | SaveThrew => (inl plain_error, st)
  end.

Definition authority (side : option Side) (reg : string) : Res (Side * string) :=
  match side, match side with Some s => fleetIdForSender (senderLocalpart s) | None => None end with
  | Some s, Some fleet =>
      fail_if negb (truthy reg) || negb (bool_decide (s_registration s = Some reg)) with fail "fleet_unavailable" 403; inr (s, fleet)
  | _, _ => inl (fail "fleet_unavailable" 403)
  end.

Definition sameSide (s : Side) (ids : list string) : Res unit :=
  fail_if existsb (λ id, negb (String.eqb (serverOf id) (lower (serverName s)))) ids with fail "wrong_server" 403; inr tt.

(** ** [recordEvent]: a probe that arrives *)

Definition MAX_RECEIPTS : nat := 100.
Definition keep_last (rs : omap Receipt) : omap Receipt := foldl (λ m k, om_del k m) rs (take (length rs - MAX_RECEIPTS) (om_keys rs)).

(** The record of a fleet after a receipt under [reg]. *)
Definition with_receipt (reg : string) (r : Receipt) (old : option Fleet) : Fleet :=
  let f := default (MkFleet reg [] None None) old in
  let f := if String.eqb (registration f) reg then f else f <| registration := reg |> <| receipts := [] |> <| receptionRoomId := None |> in
  f <| receipts := keep_last (obj_set (sourceEventId r) r (receipts f)) |>.

(** The receipt that an event of the probe amounts to, if it is one. *)
Definition receipt_of (s : Side) (fleet : string) (event : jval) (m : string) (now : Z) : option Receipt :=
  match prop event "room_id", prop event "event_id", prop (prop event "content") "challenge" with
  | JStr r, JStr id, JStr c =>
      if strict_eq (prop event "sender") (JStr (representativeMxid s)) && strict_eq (prop (prop event "content") "fleetId") (JStr fleet) &&
         matrix_id "!" r && event_id (String.length id) id && made_of word 16 128 c
      then let outbound := match transport s with Some (t, g) => if String.eqb t "outbound" then Some g else None | None => None end in
           Some (MkReceipt r id c now m outbound)
      else None
  | _, _, _ => None
  end.

(** What an event of the protocol leaves to be kept: the fleet and the receipt. *)
Definition accept (side : option Side) (reg : string) (event : jval) (m : string) (now : Z) : Res (option (string * Receipt)) :=
  let outbound := match side with Some s => match transport s with Some (t, _) => String.eqb t "outbound" | None => false end | None => false end in
  if negb (strict_eq (prop event "type") (JStr FLEET_PROBE_EVENT)) || negb (String.eqb m (if outbound then "edge" else "push")) then inr None else
  match match side with Some s => fleetIdForSender (senderLocalpart s) | None => None end with
  | None => inr None
  | Some _ =>
      do a <- authority side reg;
      let '(s, fleet) := a in
      match receipt_of s fleet event m now with
      | None => inr None
      | Some r => do _ <- sameSide s [sourceRoomId r]; inr (Some (fleet, r))
      end
  end.

(** Whether the event was consumed, and the state. *)
Definition recordEvent (side : option Side) (reg : string) (event : jval) (m : string) (now : Z) (sv : saved) (st : State) : Res bool * State :=
  let type := prop event "type" in
  if negb (strict_eq type (JStr FLEET_PROBE_EVENT) || strict_eq type (JStr FLEET_REQUEST_EVENT)) then (inr false, st) else
  match accept side reg event m now with
  | inl e => (inl e, st)
  | inr None => (inr true, st)
  | inr (Some (fleet, r)) =>
      let '(res, st') := commit sv (om_set fleet (with_receipt reg r (om_get fleet st)) st) st in
      (match res with inl e => inl e | inr _ => inr true end, st')
  end.

(** ** [handle] *)

(** A read of the homeserver as the representative, of a room and what of it; [private] reads are made
    by the approval bot, [optional] ones give [null] where there is nothing. *)
Record Read : Type := MkRead { of_room : string; what : string; private_ : bool; optional : bool }.
Record Env : Type := MkEnv { readRoom : Read → Res jval; backend : list (string * jval) → Res jval; approvalBotMxid : option string }.

Definition read_of (e : Env) (r what : string) : Res jval := readRoom e (MkRead r what false false).

Definition plaintextPrivate (e : Env) (r : string) : Res jval :=
  do mems <- read_of e r "joined_members";
  do rules <- read_of e r "state/m.room.join_rules/";
  do encryption <- readRoom e (MkRead r "state/m.room.encryption/" false true);
  fail_if negb (strict_eq (prop rules "join_rule") (JStr "invite")) || to_bool (prop encryption "algorithm") with fail "room_policy" 403;
  do joined <- deref mems "joined";
  inr (nullish_or joined (JObj [])).

Definition str_of (v : jval) : string := to_str num_str v.

Definition verifyFleetTarget (e : Env) (s : Side) (fleet : string) (encodeURIComponent : string → string) (context : jval) : Res unit :=
  let target := str_of (prop context "targetRoomId") in
  do membership <- read_of e target "joined_members";
  do powers <- read_of e target "state/m.room.power_levels/";
  do binding <- read_of e target ("state/com.hagency.admin.binding.v1/" +:+ encodeURIComponent fleet);
  do rules <- read_of e target "state/m.room.join_rules/";
  do encryption <- readRoom e (MkRead target "state/m.room.encryption/" false true);
  do v <- deref binding "v";
  fail_if negb (one v) || negb (strict_eq (prop binding "fleetId") (JStr fleet)) || negb (strict_eq (prop binding "purpose") (JStr "project"))
     || negb (strict_eq (prop binding "projectId") (prop context "targetProjectId")) || negb (strict_eq (prop binding "ownerMxid") (prop context "ownerMxid"))
     || negb (strict_eq (prop binding "authVersion") (prop context "authVersion")) with fail "target_binding_mismatch" 403;
  do joined <- deref membership "joined";
  let mems := nullish_or joined (JObj []) in
  let zero := JNum (Fin 0) in
  let power mxid := nullish_or (nullish_or (prop (prop powers "users") mxid) (prop powers "users_default")) zero in
  let requester := str_of (prop context "requesterMxid") in
  let owner := str_of (prop context "ownerMxid") in
  do rule <- deref rules "join_rule";
  fail_if negb (strict_eq rule (JStr "invite")) || to_bool (prop encryption "algorithm")
     || negb (to_bool (prop mems requester)) || negb (to_bool (prop mems owner)) || negb (to_bool (prop mems (representativeMxid s)))
     with fail "target_unauthorized" 403;
  do invite <- deref powers "invite";
  let needed := nullish_or invite zero in
  fail_if less (power requester) needed || less (power owner) (JNum (Fin 100)) || less (power (representativeMxid s)) needed
     || String.eqb owner (representativeMxid s) || String.prefix ("@" +:+ fleet +:+ "_") owner with fail "target_unauthorized" 403;
  inr tt.

Record Response : Type := MkResponse { status : Z; r_body : jval }.
Definition of_error (er : Err) : Response :=
  MkResponse (default 503 (e_status er)) (JObj [("ok", JBool false); ("code", JStr (default "fleet_unavailable" (e_code er)))]).

Record Request : Type := MkReq { sideId : string; q_registration : string; method : string; path : string; body : jval; q_generation : option Z }.

(** The scope that goes with every call of the backend. *)
Definition scope (q : Request) (action : string) (s : Side) (more : list (string * jval)) : list (string * jval) :=
  [("action", JStr action); ("sideId", JStr (sideId q)); ("registration", JStr (q_registration q))] ++ more
  ++ match transportGeneration s with Some g => if g =? 0 then [] else [("transportGeneration", JNum (Fin (inject_Z g)))] | None => [] end.

Definition same_generation (s : Side) (g : option Z) : bool :=
  match transportGeneration s with Some t => (t =? 0) || bool_decide (g = Some t) | None => true end.

(** The reception of this registration, on this transport. *)
Definition reception_is (st : State) (q : Request) (s : Side) (fleet : string) (r : jval) : bool :=
  match om_get fleet st with
  | Some f => String.eqb (registration f) (q_registration q) && strict_eq (str_or_null (receptionRoomId f)) r && same_generation s (receptionGeneration f)
  | None => false
  end.

Definition sort_texts (l : list string) : list string := stable_sort String.ltb l.
Definition keys_of (v : jval) : list string := match v with JObj o => om_keys o | _ => [] end.

(** The checks of a request up to the call of the backend: the context that is passed on. *)
Definition admitRequest (encodeURIComponent : string → string) (e : Env) (q : Request) (s : Side) (fleet : string) (st : State) : Res jval :=
  do context <- fleetRequestContext (body q);
  let f k := str_of (prop context k) in
  fail_if negb (strict_eq (prop context "fleetId") (JStr fleet)) with fail "wrong_fleet" 403;
  do _ <- sameSide s [f "sourceRoomId"; f "targetRoomId"; f "ownerDmRoomId"; f "ownerMxid"; f "requesterMxid"];
  fail_if negb (reception_is st q s fleet (prop context "sourceRoomId")) with fail "reception_unverified" 403;
  do event <- read_of e (f "sourceRoomId") ("event/" +:+ encodeURIComponent (f "sourceEventId"));
  do type <- deref event "type";
  fail_if negb (strict_eq type (JStr FLEET_REQUEST_EVENT)) || negb (strict_eq (prop event "event_id") (prop context "sourceEventId"))
     || negb (strict_eq (prop event "sender") (prop context "requesterMxid")) with fail "source_mismatch" 403;
  do said <- normalizeFleetRequest (prop event "content") false;
  do asked <- normalizeFleetRequest context false;
  fail_if negb (bool_decide (stringify num_str said = stringify num_str asked)) with fail "source_mismatch" 403;
  do sourceMembers <- plaintextPrivate e (f "sourceRoomId");
  do _ <- verifyFleetTarget e s fleet encodeURIComponent context;
  fail_if negb (to_bool (prop sourceMembers (f "requesterMxid"))) || negb (to_bool (prop sourceMembers (representativeMxid s))) with fail "source_unauthorized" 403;
  match approvalBotMxid e with
  | None => inl (fail "owner_unavailable" 409)
  | Some bot =>
      fail_if negb (matrix_id "@" bot) || String.eqb (f "ownerMxid") bot with fail "owner_unavailable" 409;
      do dmMembers <- readRoom e (MkRead (f "ownerDmRoomId") "joined_members" true false);
      do dmRules <- readRoom e (MkRead (f "ownerDmRoomId") "state/m.room.join_rules/" true false);
      do dmEncryption <- readRoom e (MkRead (f "ownerDmRoomId") "state/m.room.encryption/" true false);
      do joined <- deref dmMembers "joined";
      do rule <- deref dmRules "join_rule";
      do algorithm <- deref dmEncryption "algorithm";
      fail_if negb (bool_decide (sort_texts (keys_of joined) = sort_texts [bot; f "ownerMxid"]))
         || negb (strict_eq rule (JStr "invite")) || negb (strict_eq algorithm (JStr "m.megolm.v1.aes-sha2")) with fail "private_owner_required" 403;
      inr context
  end.

(** The name of the target, for display; a read that fails leaves it out. *)
Definition projectName (e : Env) (context : jval) : list (string * jval) :=
  match readRoom e (MkRead (str_of (prop context "targetRoomId")) "state/m.room.name/" false true) with
  | inr named => match prop named "name" with
                 | JStr n => let n := slice_to 255 (trim n) in if truthy n then [("projectName", JStr n)] else []
                 | _ => [] end
  | inl _ => []
  end.

(** [/^\/api\/fleet\/v1\/requests\/([a-zA-Z0-9_-]{1,96})$/] *)
Definition request_path (p : string) : option string :=
  let pre := "/api/fleet/v1/requests/" in
  if String.prefix pre p then let id := drop_str (String.length pre) p in if made_of word 1 96 id then Some id else None else None.

(** Up to the first wait whose outcome meets the state again: an answer and the calls of the backend, or a
    probe that goes to the homeserver with its receipt. *)
Inductive begun : Type := Answered (r : Response) (calls : list (list (string * jval))) | Probing (s : Side) (fleet : string) (r : Receipt).

Definition answer (r : Res Response) (calls : list (list (string * jval))) : begun :=
  Answered (match r with inl er => of_error er | inr resp => resp end) calls.

Definition begin (encodeURIComponent : string → string) (sideFor : string → option Side) (e : Env) (q : Request) (st : State) : begun :=
  match authority (sideFor (sideId q)) (q_registration q) with
  | inl er => Answered (of_error er) []
  | inr (s, fleet) =>
      if match transportGeneration s with Some t => negb (bool_decide (q_generation q = Some t)) | None => false end
      then Answered (of_error (fail "fleet_unavailable" 403)) [] else
      if String.eqb (method q) "GET" && String.eqb (path q) "/api/fleet/v1/capabilities" then
        let call := scope q "capabilities" s [] in
        answer (do result <- backend e call;
          inr (MkResponse 200 (JObj (foldl (λ o p, obj_set p.1 p.2 o) (match result with JObj o => o | _ => [] end)
            [("v", JNum (Fin 1)); ("fleetId", JStr fleet); ("serverName", JStr (serverName s)); ("representativeMxid", JStr (representativeMxid s));
             ("approvalBotMxid", str_or_null (approvalBotMxid e))])))) [call]
      else if String.eqb (method q) "POST" && String.eqb (path q) "/api/fleet/v1/probe" then
        if negb (strict_eq (prop (body q) "fleetId") (JStr fleet)) then Answered (of_error (fail "wrong_fleet" 403)) [] else
        let receipt := match om_get fleet st with
                       | Some f => if String.eqb (registration f) (q_registration q) then om_get (str_of (prop (body q) "sourceEventId")) (receipts f) else None
                       | None => None end in
        match receipt with
        | Some r =>
            if strict_eq (JStr (challenge r)) (prop (body q) "challenge") && strict_eq (JStr (sourceRoomId r)) (prop (body q) "sourceRoomId") && same_generation s (r_generation r)
            then Probing s fleet r else Answered (of_error (fail "probe_pending" 409)) []
        | None => Answered (of_error (fail "probe_pending" 409)) []
        end
      else if String.eqb (method q) "POST" && String.eqb (path q) "/api/fleet/v1/requests" then
        match admitRequest encodeURIComponent e q s fleet st with
        | inl er => Answered (of_error er) []
        | inr context =>
            let call := scope q "request" s (("context", context) :: projectName e context) in
            answer (do result <- backend e call; inr (MkResponse 200 result)) [call]
        end
      else match (if String.eqb (method q) "GET" then request_path (path q) else None) with
           | Some id =>
               let call := scope q "status" s [("requestId", JStr id)] in
               answer (do result <- backend e call;
                 if strict_eq (prop result "state") (JStr "active") && to_bool (prop result "bound") && fullMxid (prop result "agentMxid") then
                   do membership <- read_of e (str_of (prop result "targetRoomId")) "joined_members";
                   do joined <- deref membership "joined";
                   inr (MkResponse 200 (JObj (obj_set "ready" (JBool (to_bool (prop joined (str_of (prop result "agentMxid")))))
                     (match result with JObj o => o | _ => [] end))))
                 else inr (MkResponse 200 (JObj (obj_set "ready" (JBool false) (match result with JObj o => o | _ => [] end))))) [call]
           | None => Answered (MkResponse 404 (JObj [("code", JStr "not_found")])) []
           end
  end.

(** A probe goes on: the event is read again, then the reception is bound in the state of that time. *)
Definition confirm (encodeURIComponent : string → string) (e : Env) (s : Side) (fleet : string) (r : Receipt) : Res unit :=
  do event <- read_of e (sourceRoomId r) ("event/" +:+ encodeURIComponent (sourceEventId r));
  do type <- deref event "type";
  fail_if negb (strict_eq type (JStr FLEET_PROBE_EVENT)) || negb (strict_eq (prop event "sender") (JStr (representativeMxid s)))
     || negb (strict_eq (prop (prop event "content") "fleetId") (JStr fleet)) || negb (strict_eq (prop (prop event "content") "challenge") (JStr (challenge r)))
     || negb (strict_eq (prop event "event_id") (JStr (sourceEventId r))) with fail "probe_mismatch" 403;
  do mems <- plaintextPrivate e (sourceRoomId r);
  fail_if negb (to_bool (prop mems (representativeMxid s))) with fail "representative_absent" 403; inr tt.

Definition bind_reception (s : Side) (r : Receipt) (f : Fleet) : Fleet :=
  let f := f <| receptionRoomId := Some (sourceRoomId r) |> in
  match transportGeneration s with Some g => if g =? 0 then f else f <| receptionGeneration := Some g |> | None => f end.

Definition finish (encodeURIComponent : string → string) (e : Env) (s : Side) (fleet : string) (r : Receipt) (sv : saved) (st : State) : Response * State :=
  match confirm encodeURIComponent e s fleet r with
  | inl er => (of_error er, st)
  | inr _ =>
      match om_get fleet st with
      | None => (of_error plain_error, st) (* [state[side.fleetId]] is never removed *)
      | Some f =>
          if match receptionRoomId f with Some old => truthy old && negb (String.eqb old (sourceRoomId r)) | None => false end
          then (of_error (fail "reception_conflict" 409), st) else
          let '(res, st') := commit sv (om_set fleet (bind_reception s r f) st) st in
          (match res with
           | inl er => of_error er
           | inr _ => MkResponse 200 (JObj ([("v", JNum (Fin 1)); ("received", JBool true); ("fleetId", JStr fleet); ("sourceRoomId", JStr (sourceRoomId r));
               ("sourceEventId", JStr (sourceEventId r)); ("challenge", JStr (challenge r)); ("receivedAt", JNum (Fin (inject_Z (receivedAt r))));
               ("mode", JStr (mode r))] ++ match r_generation r with Some g => [("generation", JNum (Fin (inject_Z g)))] | None => [] end))
           end, st')
      end
  end.

(** ** Runs *)

(** For the record: an event of a probe whose receipt was kept, with the side that it came from, ... *)
Record Arrival : Type := MkArrival { v_side : Side; v_event : jval; v_mode : string; v_fleet : string; v_receipt : Receipt }.
(** ... and a probe that was answered 200, with the homeserver as it was then. *)
Record Confirmation : Type := MkConfirmation { n_server : Env; n_side : Side; n_fleet : string; n_receipt : Receipt }.

(** The state, the probes that wait, and the records. *)
Record System : Type := MkSystem { state : State; waiting : list (Side * string * Receipt); arrived : list Arrival; confirmed : list Confirmation }.

Definition arrivals (side : option Side) (reg : string) (event : jval) (m : string) (now : Z) (sv : saved) (arr : list Arrival) : list Arrival :=
  match accept side reg event m now, sv with
  | inr (Some (fleet, r)), SaveDone => match side with Some s => arr ++ [MkArrival s event m fleet r] | None => arr end
  | _, _ => arr
  end.

Context (encodeURIComponent : string → string).

(** Events arrive, requests begin, probes finish; the registry of sides and the homeserver may answer
    differently each time. A restart drops what waits; the state is the one that was saved. *)
Inductive step : relation System :=
| s_event side reg event m now sv st w arr conf : step (MkSystem st w arr conf)
    (MkSystem (recordEvent side reg event m now sv st).2 w
       (arrivals side reg event m now sv arr) conf)
| s_begin sideFor e q st w arr conf : step (MkSystem st w arr conf)
    (match begin encodeURIComponent sideFor e q st with Probing s fleet r => MkSystem st (w ++ [(s, fleet, r)]) arr conf | Answered _ _ => MkSystem st w arr conf end)
| s_finish e s fleet r sv st w1 w2 arr conf : step (MkSystem st (w1 ++ (s, fleet, r) :: w2) arr conf)
    (let '(answer, st') := finish encodeURIComponent e s fleet r sv st in
     MkSystem st' (w1 ++ w2) arr (if status answer =? 200 then conf ++ [MkConfirmation e s fleet r] else conf))
| s_restart st w arr conf : step (MkSystem st w arr conf) (MkSystem st [] arr conf).

End protocol.
End FleetProtocol.
