(* ===== verification/FleetProtocolFacts.v ===== *)
(** * What the protocol of fleets guarantees

    A request reaches the backend only from a reception that was proven by a probe, and only with the
    authority that the rooms themselves record; and a reception stays as long as its registration. *)

From Stdlib Require Import ZArith QArith Lia String Ascii.
From stdpp Require Import base list strings relations.
From S2P Require Import Prelude OMap Json JsonParse ProjectSides FleetProtocol.
#[local] Open Scope stdpp_scope.
Import FleetProtocol.
#[local] Existing Instance eta_fleet.

Lemma rbind_inr {A B} (r : Res A) (f : A → Res B) b : rbind r f = inr b → ∃ a, r = inr a ∧ f a = inr b.
Proof. destruct r as [e|a]; [done|]. intros H. by exists a. Qed.

(** [res_inv H] takes a successful run apart: the results of its steps, and the guards that held. *)
Ltac res_inv H :=
  repeat lazymatch type of H with
  | rbind _ _ = inr _ =>
      let a := fresh "v" in let E := fresh "E" in apply rbind_inr in H as (a & E & H)
  | (if ?b then inl _ else _) = inr _ => let E := fresh "E" in destruct b eqn:E; [discriminate H|]
  end.

Lemma deref_inr v k w : deref v k = inr w → prop v k = w.
Proof. unfold deref. destruct (is_nullish v); [done|]. by intros [= ->]. Qed.

Lemma keep_last_get k r rs : om_get k (keep_last rs) = Some r → om_get k rs = Some r.
Proof.
  unfold keep_last. generalize (take (length rs - MAX_RECEIPTS) (om_keys rs)). intros ks. revert rs. induction ks as [|k' ks IH]; intros rs; [done|].
  cbn. intros H%IH. rewrite om_get_del in H. by destruct (String.eqb _ _).
Qed.

Section facts.
Context (num_str : num → string) (str_num : string → num) (encodeURIComponent : string → string).
Abbreviation step := (step num_str str_num encodeURIComponent).

(** ** Receptions *)

(** A room that is invite-only and not encrypted, with these members. *)
Definition open_room (e : Env) (r : string) (members : list string) : Prop := ∃ ms rules encryption,
  readRoom e (MkRead r "joined_members" false false) = inr ms ∧
  readRoom e (MkRead r "state/m.room.join_rules/" false false) = inr rules ∧ prop rules "join_rule" = JStr "invite" ∧
  readRoom e (MkRead r "state/m.room.encryption/" false true) = inr encryption ∧ to_bool (prop encryption "algorithm") = false ∧
  ∀ m, m ∈ members → to_bool (prop (nullish_or (prop ms "joined") (JObj [])) m) = true.

(** The event that arrived is a probe of the fleet, sent by the representative of its side in a room of
    its server. *)
Record probe_of (a : Arrival) : Prop := MkProbe {
  p_type : prop (v_event a) "type" = JStr "com.hagency.connection.probe.v1";
  p_room : prop (v_event a) "room_id" = JStr (sourceRoomId (v_receipt a));
  p_id : prop (v_event a) "event_id" = JStr (sourceEventId (v_receipt a));
  p_sender : prop (v_event a) "sender" = JStr (representativeMxid (v_side a));
  p_challenge : prop (prop (v_event a) "content") "challenge" = JStr (challenge (v_receipt a));
  p_fleet : prop (prop (v_event a) "content") "fleetId" = JStr (v_fleet a);
  p_side : fleetIdForSender (senderLocalpart (v_side a)) = Some (v_fleet a);
  p_server : serverOf (sourceRoomId (v_receipt a)) = lower (serverName (v_side a));
}.

(** The homeserver has confirmed it: it has that very event, and the room is invite-only, not encrypted
    and has the representative of the fleet's side in it. *)
Record confirms (n : Confirmation) : Prop := MkConfirms {
  c_side : fleetIdForSender (senderLocalpart (n_side n)) = Some (n_fleet n);
  c_event : ∃ event, readRoom (n_server n) (MkRead (sourceRoomId (n_receipt n)) ("event/" +:+ encodeURIComponent (sourceEventId (n_receipt n))) false false) = inr event ∧
    prop event "type" = JStr "com.hagency.connection.probe.v1" ∧ prop event "event_id" = JStr (sourceEventId (n_receipt n)) ∧
    prop event "sender" = JStr (representativeMxid (n_side n)) ∧ prop (prop event "content") "fleetId" = JStr (n_fleet n) ∧
    prop (prop event "content") "challenge" = JStr (challenge (n_receipt n));
  c_room : open_room (n_server n) (sourceRoomId (n_receipt n)) [representativeMxid (n_side n)];
}.

(** A probe of the fleet arrived from the room, and its receipt was confirmed later. *)
Definition proven (arr : list Arrival) (conf : list Confirmation) (fleet room : string) : Prop :=
  ∃ a n, a ∈ arr ∧ v_fleet a = fleet ∧ sourceRoomId (v_receipt a) = room ∧ probe_of a ∧
    n ∈ conf ∧ n_fleet n = fleet ∧ n_receipt n = v_receipt a ∧ confirms n.

Definition kept (arr : list Arrival) (fleet : string) (r : Receipt) : Prop := ∃ a, a ∈ arr ∧ v_fleet a = fleet ∧ v_receipt a = r ∧ probe_of a.

Record Inv (st : System) : Prop := MkInv {
  i_receipts : ∀ fleet f id r, om_get fleet (state st) = Some f → om_get id (receipts f) = Some r → kept (arrived st) fleet r;
  i_waiting : ∀ s fleet r, (s, fleet, r) ∈ waiting st → kept (arrived st) fleet r ∧ fleetIdForSender (senderLocalpart s) = Some fleet;
  i_reception : ∀ fleet f room, om_get fleet (state st) = Some f → receptionRoomId f = Some room → proven (arrived st) (confirmed st) fleet room;
}.

Lemma kept_mono arr arr' fleet r : (∀ a, a ∈ arr → a ∈ arr') → kept arr fleet r → kept arr' fleet r.
Proof. intros H (a & Ha & Hr). exists a. split; [by apply H|done]. Qed.

Lemma proven_mono arr arr' conf conf' fleet room : (∀ a, a ∈ arr → a ∈ arr') → (∀ n, n ∈ conf → n ∈ conf') → proven arr conf fleet room → proven arr' conf' fleet room.
Proof. intros Ha Hn (a & n & H1 & E1 & E2 & Hp & H2 & E3 & E4 & Hc). exists a, n. split_and!; auto. Qed.

Lemma plaintext_open e r ms members : plaintextPrivate e r = inr ms → (∀ m, m ∈ members → to_bool (prop ms m) = true) → open_room e r members.
Proof.
  unfold plaintextPrivate. intros H Hm. res_inv H. injection H as <-. apply deref_inr in E3 as <-. apply orb_false_iff in E2 as [E2%negb_false_iff%strict_eq_text E4].
  do 3 eexists. by split_and!; [eassumption..|].
Qed.

Lemma accept_probe s reg event m now fleet r : accept (Some s) reg event m now = inr (Some (fleet, r)) → probe_of (MkArrival s event m fleet r).
Proof.
  unfold accept. destruct (_ || _) eqn:Et; [done|]. apply orb_false_iff in Et as [Et%negb_false_iff%strict_eq_text _]. destruct (fleetIdForSender (senderLocalpart s)) as [fl|] eqn:Ef; [|done].
  unfold authority. rewrite Ef. cbn [rbind]. destruct (_ || _); [done|]. cbn [rbind]. destruct (receipt_of s fl event m now) as [r'|] eqn:Er; [|done].
  unfold sameSide. destruct (existsb _ _) eqn:Ex; [done|]. cbn [rbind]. intros [= <- <-]. unfold receipt_of in Er.
  destruct (prop event "room_id") as [| | | |room| | |] eqn:E1; try done. destruct (prop event "event_id") as [| | | |id| | |] eqn:E2; try done.
  destruct (prop (prop event "content") "challenge") as [| | | |c| | |] eqn:E3; try done. destruct (_ && _) eqn:E4; [|done]. injection Er as <-.
  rewrite !andb_true_iff in E4. destruct E4 as ((((H1%strict_eq_text & H2%strict_eq_text) & _) & _) & _).
  split; cbn [v_side v_event v_fleet v_receipt sourceRoomId sourceEventId challenge]; try done.
  cbn [existsb sourceRoomId] in Ex. by apply orb_false_iff in Ex as [Ex%negb_false_iff%String.eqb_eq _].
Qed.

Lemma confirm_spec e s fleet r : fleetIdForSender (senderLocalpart s) = Some fleet → confirm encodeURIComponent e s fleet r = inr tt → confirms (MkConfirmation e s fleet r).
Proof.
  intros Hs. unfold confirm. intros H. res_inv H. apply deref_inr in E0 as <-.
  repeat match goal with E : (_ || _)%bool = false |- _ => apply orb_false_iff in E as [? ?] | E : negb _ = false |- _ => apply negb_false_iff in E | E : strict_eq _ (JStr _) = true |- _ => apply strict_eq_text in E end.
  split; [done|by eexists|]. eapply plaintext_open; [eassumption|]. by intros m ->%list_elem_of_singleton.
Qed.

(** An event changes nothing, or adds a receipt to the record of its fleet. *)
Lemma record_cases side reg event m now sv st : 
  (recordEvent side reg event m now sv st).2 = st ∨
  ∃ fleet r, accept side reg event m now = inr (Some (fleet, r)) ∧ sv = SaveDone ∧
    (recordEvent side reg event m now sv st).2 = om_set fleet (with_receipt reg r (om_get fleet st)) st.
Proof.
  unfold recordEvent. destruct (negb _); [by left|]. destruct (accept _ _ _ _ _) as [er|[[fleet r]|]]; [by left| |by left].
  destruct sv; cbn; [right; by exists fleet, r|by left..].
Qed.

Lemma with_receipt_receipts reg r old id x : om_get id (receipts (with_receipt reg r old)) = Some x → x = r ∨ ∃ f, old = Some f ∧ om_get id (receipts f) = Some x.
Proof.
  unfold with_receipt. set (f := default (MkFleet reg [] None None) old). intros H. cbn [receipts over] in H. apply keep_last_get in H. rewrite om_get_obj_set in H.
  destruct (String.eqb _ _); [by injection H as <-; left|]. right.
  destruct (String.eqb (registration f) reg); [|done]. destruct old as [f0|]; [by exists f0|done].
Qed.

Lemma with_receipt_reception reg r old room : receptionRoomId (with_receipt reg r old) = Some room → ∃ f, old = Some f ∧ receptionRoomId f = Some room.
Proof.
  unfold with_receipt. set (f := default (MkFleet reg [] None None) old). cbn [receptionRoomId over].
  destruct (String.eqb (registration f) reg); [|done]. destruct old as [f0|]; [by exists f0|done].
Qed.

(** A probe that finishes changes nothing, or binds the reception of its fleet. *)
Lemma finish_cases e s fleet r sv st : (finish encodeURIComponent e s fleet r sv st).2 = st ∨
  (status (finish encodeURIComponent e s fleet r sv st).1 =? 200) = true ∧
  ∃ f, om_get fleet st = Some f ∧ confirm encodeURIComponent e s fleet r = inr tt ∧ (∀ old, receptionRoomId f = Some old → truthy old = true → old = sourceRoomId r) ∧
    (finish encodeURIComponent e s fleet r sv st).2 = om_set fleet (bind_reception s r f) st.
Proof.
  unfold finish. destruct (confirm _ _ _ _ _) as [er|[]]; [by left|]. destruct (om_get fleet st) as [f|] eqn:Ef; [|by left].
  destruct (match receptionRoomId f with Some old => _ | None => false end) eqn:Eo; [by left|].
  destruct sv; cbn; [right; split; [done|]; exists f; split_and!; [done..| |done]|by left..].
  intros old Ho Ht. rewrite Ho, Ht in Eo. cbn in Eo. by apply negb_false_iff, String.eqb_eq in Eo.
Qed.

Lemma bind_reception_parts s r f : registration (bind_reception s r f) = registration f ∧ receipts (bind_reception s r f) = receipts f ∧
  receptionRoomId (bind_reception s r f) = Some (sourceRoomId r).
Proof. unfold bind_reception. destruct (transportGeneration s) as [g|]; [|done]. by destruct (g =? 0). Qed.

Lemma authority_spec side reg s fleet : authority side reg = inr (s, fleet) →
  side = Some s ∧ fleetIdForSender (senderLocalpart s) = Some fleet ∧ s_registration s = Some reg.
Proof.
  unfold authority. destruct side as [s0|]; [|done]. destruct (fleetIdForSender _) as [fl|] eqn:Efl; [|done].
  destruct (_ || _) eqn:Eo; [done|]. intros [= <- <-]. apply orb_false_iff in Eo as [_ Eo]. apply negb_false_iff, bool_decide_eq_true in Eo. done.
Qed.

Lemma begin_receipt sideFor e q st s fleet r : begin num_str str_num encodeURIComponent sideFor e q st = Probing s fleet r →
  fleetIdForSender (senderLocalpart s) = Some fleet ∧ ∃ f id, om_get fleet st = Some f ∧ om_get id (receipts f) = Some r.
Proof.
  unfold begin. destruct (authority _ _) as [er|[s' fleet']] eqn:Ha; [done|]. apply authority_spec in Ha as (_ & Ha & _). destruct (match transportGeneration s' with Some t => _ | None => false end); [done|].
  destruct (_ && _); [done|]. destruct (_ && _).
  - destruct (negb _); [done|]. destruct (om_get fleet' st) as [f|] eqn:Ef; [|done]. destruct (String.eqb _ _); [|done].
    destruct (om_get _ (receipts f)) as [r'|] eqn:Er; [|done]. destruct (_ && _); [|done]. intros [= -> -> ->]. split; [done|]. by eexists f, _.
  - destruct (_ && _); [by destruct (admitRequest _ _ _ _ _ _ _ _)|]. by destruct (if String.eqb (method q) "GET" then _ else None).
Qed.

Lemma event_inv side reg event m now sv st w arr conf : Inv (MkSystem st w arr conf) →
  Inv (MkSystem (recordEvent side reg event m now sv st).2 w
    (arrivals side reg event m now sv arr) conf).
Proof.
  intros [Hr Hw Hp]. cbn [state waiting arrived confirmed] in *.
  set (arr' := arrivals side reg event m now sv arr).
  assert (Harr : ∀ x, x ∈ arr → x ∈ arr').
  { intros x Hx. unfold arr', arrivals. destruct (accept _ _ _ _ _) as [|[[fleet r]|]]; try done. destruct sv; try done. destruct side; [|done]. apply elem_of_app. by left. }
  assert (Hw' : ∀ s fleet r, (s, fleet, r) ∈ w → kept arr' fleet r ∧ fleetIdForSender (senderLocalpart s) = Some fleet).
  { intros s fleet r [H ?]%Hw. split; [by eapply (kept_mono _ _ _ _ Harr)|done]. }
  destruct (record_cases side reg event m now sv st) as [->|(fleet & r & Ha & -> & ->)]; split; cbn [state waiting arrived confirmed]; try done.
  - intros fleet f id r Hf Hid. by eapply (kept_mono _ _ _ _ Harr), Hr.
  - intros fleet f room Hf Hroom. by eapply (proven_mono _ _ _ _ _ _ Harr (λ _ H, H)), Hp.
  - assert (Hnew : kept arr' fleet r).
    { destruct side as [s|]; [|by unfold accept in Ha; destruct (_ || _)]. exists (MkArrival s event m fleet r). split_and!; [|done|done|by eapply accept_probe].
      unfold arr', arrivals. rewrite Ha. apply elem_of_app. right. by apply list_elem_of_singleton. }
    intros fl f id x. rewrite om_get_set. destruct (String.eqb_spec fleet fl) as [<-|]; [|intros Hf Hid; by eapply (kept_mono _ _ _ _ Harr), Hr].
    intros [= <-] [->|(f0 & Hf0 & Hid)]%with_receipt_receipts; [done|]. by eapply (kept_mono _ _ _ _ Harr), Hr.
  - intros fl f room. rewrite om_get_set. destruct (String.eqb_spec fleet fl) as [<-|]; [|intros Hf Hroom; by eapply (proven_mono _ _ _ _ _ _ Harr (λ _ H, H)), Hp].
    intros [= <-] (f0 & Hf0 & Hroom)%with_receipt_reception. by eapply (proven_mono _ _ _ _ _ _ Harr (λ _ H, H)), Hp.
Qed.

Lemma finish_inv e s fleet r sv st w1 w2 arr conf : Inv (MkSystem st (w1 ++ (s, fleet, r) :: w2) arr conf) →
  Inv (let '(answer, st') := finish encodeURIComponent e s fleet r sv st in MkSystem st' (w1 ++ w2) arr (if status answer =? 200 then conf ++ [MkConfirmation e s fleet r] else conf)).
Proof.
  intros [Hr Hw Hp]. cbn [state waiting arrived confirmed] in *. destruct (Hw s fleet r) as [(a & Ha & Ef & Er & Hprobe) Hs]; [apply elem_of_app; right; left|].
  assert (Hw' : ∀ s' fl x, (s', fl, x) ∈ w1 ++ w2 → kept arr fl x ∧ fleetIdForSender (senderLocalpart s') = Some fl).
  { intros s' fl x H. apply Hw. revert H. rewrite !elem_of_app, elem_of_cons. tauto. }
  pose proof (finish_cases e s fleet r sv st) as H. destruct (finish _ _ _ _ _ _ _) as [answer st']. cbn [fst snd] in H.
  set (conf' := if status answer =? 200 then conf ++ [MkConfirmation e s fleet r] else conf).
  assert (Hconf : ∀ n, n ∈ conf → n ∈ conf') by (intros n Hn; unfold conf'; destruct (_ =? _); [apply elem_of_app; by left|done]).
  destruct H as [->|(H200 & f & Hf & Hc & _ & ->)]; split; cbn [state waiting arrived confirmed]; try done.
  - intros fl f room H1 H2. by eapply (proven_mono _ _ _ _ _ _ (λ _ H, H) Hconf), Hp.
  - destruct (bind_reception_parts s r f) as (_ & Ers & _). intros fl g id x. rewrite om_get_set. destruct (String.eqb_spec fleet fl) as [<-|]; [|by apply Hr]. intros [= <-]. rewrite Ers. by apply Hr.
  - destruct (bind_reception_parts s r f) as (_ & _ & Ero). intros fl g room. rewrite om_get_set. destruct (String.eqb_spec fleet fl) as [<-|]; [|intros H1 H2; by eapply (proven_mono _ _ _ _ _ _ (λ _ H, H) Hconf), Hp].
    intros [= <-]. rewrite Ero. intros [= <-]. exists a, (MkConfirmation e s fleet r). rewrite Er. split_and!; try done; [|by apply confirm_spec].
    unfold conf'. rewrite H200. apply elem_of_app. right. by apply list_elem_of_singleton.
Qed.

Lemma protocol_step_inv st st' : step st st' → Inv st → Inv st'.
Proof.
  intros [] HI; [by apply event_inv| |by apply finish_inv|]; destruct HI as [Hr Hw Hp]; cbn [state waiting arrived confirmed] in *.
  - destruct (begin _ _ _ sideFor e q st0) as [resp calls|s fleet r] eqn:E; split; cbn [state waiting arrived confirmed]; try done.
    intros s' fl x [H|[= -> -> ->]%list_elem_of_singleton]%elem_of_app; [by eapply Hw|]. apply begin_receipt in E as (Hs & f & id & Hf & Hid). split; [by eapply Hr|done].
  - split; cbn [state waiting arrived confirmed]; try done. by intros s fleet r ?%elem_of_nil.
Qed.

Definition empty : System := MkSystem [] [] [] [].

Lemma protocol_run_inv st : rtc step empty st → Inv st.
Proof.
  intros H. assert (HI : Inv empty) by (split; cbn; [done|by intros ? ? ? ?%elem_of_nil|done]).
  revert HI. induction H as [|x y z Hxy _ IH]; [done|]. intros HI. apply IH. by eapply protocol_step_inv.
Qed.

(** ** Requests *)

Abbreviation text c k := (str_of num_str (prop c k)).

(** The request is one that its requester wrote in the reception. *)
Definition written_there (e : Env) (context : jval) : Prop := ∃ event said asked,
  read_of e (text context "sourceRoomId") ("event/" +:+ encodeURIComponent (text context "sourceEventId")) = inr event ∧
  prop event "type" = JStr FLEET_REQUEST_EVENT ∧ strict_eq (prop event "event_id") (prop context "sourceEventId") = true ∧
  strict_eq (prop event "sender") (prop context "requesterMxid") = true ∧
  normalizeFleetRequest num_str (prop event "content") false = inr said ∧ normalizeFleetRequest num_str context false = inr asked ∧
  stringify num_str said = stringify num_str asked.

Definition power (powers : jval) (mxid : string) : jval :=
  nullish_or (nullish_or (prop (prop powers "users") mxid) (prop powers "users_default")) (JNum (Fin 0)).

(** The target room says that it is this project's, of this owner, and who may invite there. *)
Record target_allows (e : Env) (s : Side) (fleet : string) (context : jval) : Prop := MkTarget {
  t_binding : ∃ binding, read_of e (text context "targetRoomId") ("state/com.hagency.admin.binding.v1/" +:+ encodeURIComponent fleet) = inr binding ∧
    prop binding "fleetId" = JStr fleet ∧ prop binding "purpose" = JStr "project" ∧
    strict_eq (prop binding "projectId") (prop context "targetProjectId") = true ∧ strict_eq (prop binding "ownerMxid") (prop context "ownerMxid") = true;
  t_rules : ∃ rules encryption, read_of e (text context "targetRoomId") "state/m.room.join_rules/" = inr rules ∧ prop rules "join_rule" = JStr "invite" ∧
    readRoom e (MkRead (text context "targetRoomId") "state/m.room.encryption/" false true) = inr encryption ∧ to_bool (prop encryption "algorithm") = false;
  t_members : ∃ ms, read_of e (text context "targetRoomId") "joined_members" = inr ms ∧
    ∀ m, m ∈ [text context "requesterMxid"; text context "ownerMxid"; representativeMxid s] → to_bool (prop (nullish_or (prop ms "joined") (JObj [])) m) = true;
  t_powers : ∃ powers, read_of e (text context "targetRoomId") "state/m.room.power_levels/" = inr powers ∧
    let needed := nullish_or (prop powers "invite") (JNum (Fin 0)) in
    less num_str str_num (power powers (text context "requesterMxid")) needed = false ∧ less num_str str_num (power powers (representativeMxid s)) needed = false ∧
    less num_str str_num (power powers (text context "ownerMxid")) (JNum (Fin 100)) = false;
  t_owner : text context "ownerMxid" ≠ representativeMxid s ∧ String.prefix ("@" +:+ fleet +:+ "_") (text context "ownerMxid") = false;
}.

(** The owner's approval room: encrypted, invite-only, and nobody there but the owner and the bot. *)
Definition private_owner (e : Env) (context : jval) : Prop := ∃ bot ms rules enc,
  approvalBotMxid e = Some bot ∧ text context "ownerMxid" ≠ bot ∧
  readRoom e (MkRead (text context "ownerDmRoomId") "joined_members" true false) = inr ms ∧ keys_of (prop ms "joined") ≡ₚ [bot; text context "ownerMxid"] ∧
  readRoom e (MkRead (text context "ownerDmRoomId") "state/m.room.join_rules/" true false) = inr rules ∧ prop rules "join_rule" = JStr "invite" ∧
  readRoom e (MkRead (text context "ownerDmRoomId") "state/m.room.encryption/" true false) = inr enc ∧ prop enc "algorithm" = JStr "m.megolm.v1.aes-sha2".

Lemma target_verified e s fleet context : verifyFleetTarget num_str str_num e s fleet encodeURIComponent context = inr tt → target_allows e s fleet context.
Proof.
  unfold verifyFleetTarget. intros H. res_inv H. repeat match goal with E : deref _ _ = inr _ |- _ => apply deref_inr in E; subst end.
  repeat match goal with E : (_ || _)%bool = false |- _ => apply orb_false_iff in E as [? ?] | E : negb _ = false |- _ => apply negb_false_iff in E end.
  split.
  - eexists. split; [eassumption|]. split_and!; try done; by apply strict_eq_text.
  - do 2 eexists. split; [eassumption|]. split; [by apply strict_eq_text|]. by split; [eassumption|].
  - eexists. split; [eassumption|]. intros m Hm. rewrite !elem_of_cons, elem_of_nil in Hm. by repeat (destruct Hm as [->|Hm]; [done|]).
  - eexists. split; [eassumption|]. done.
  - split; [|done]. by apply String.eqb_neq.
Qed.

Lemma reception_bound st q s fleet r : reception_is st q s fleet (JStr r) = true →
  ∃ f, om_get fleet st = Some f ∧ registration f = q_registration q ∧ receptionRoomId f = Some r.
Proof.
  unfold reception_is. destruct (om_get fleet st) as [f|]; [|done]. rewrite !andb_true_iff, String.eqb_eq. intros [[Hreg Hroom] _]. exists f.
  split_and!; [done|done|]. destruct (receptionRoomId f) as [x|]; [|done]. apply String.eqb_eq in Hroom. by subst.
Qed.

(** A normalised request has texts for its rooms. *)
Lemma context_room input context : fleetRequestContext num_str input = inr context → ∃ r, prop context "sourceRoomId" = JStr r.
Proof.
  unfold fleetRequestContext, normalizeFleetRequest. intros H. apply rbind_inr in H as (v & Hv & H). res_inv Hv. res_inv H.
  assert (Hroom : room (prop (JObj (fields input true)) "sourceRoomId") = true).
  { apply negb_false_iff in E. unfold well_formed in E. rewrite !andb_true_iff in E. tauto. }
  assert (Hin : ∃ o, v = JObj (fields input true ++ o)).
  { destruct (prop input "agentDefinition"); try (apply rbind_inr in Hv as (d & _ & [= <-]); by eexists); injection Hv as <-; exists []; by rewrite app_nil_r. }
  destruct Hin as [o ->]. injection H as <-. unfold room, text_in in Hroom. cbn in Hroom |- *.
  destruct (field input "sourceRoomId"); try done. by eexists.
Qed.

Lemma admitted_request e q s fleet st context : admitRequest num_str str_num encodeURIComponent e q s fleet st = inr context →
  fleetRequestContext num_str (body q) = inr context ∧ (∃ r f, prop context "sourceRoomId" = JStr r ∧ om_get fleet st = Some f ∧ registration f = q_registration q ∧ receptionRoomId f = Some r) ∧
  (∀ k, k ∈ ["sourceRoomId"; "targetRoomId"; "ownerDmRoomId"; "ownerMxid"; "requesterMxid"] → serverOf (text context k) = lower (serverName s)) ∧
  written_there e context ∧ open_room e (text context "sourceRoomId") [text context "requesterMxid"; representativeMxid s] ∧
  target_allows e s fleet context ∧ private_owner e context.
Proof.
  unfold admitRequest. intros H. apply rbind_inr in H as (c & Hc & H). res_inv H. destruct (approvalBotMxid e) as [bot|] eqn:Hbot; [|done]. res_inv H. injection H as ->.
  destruct (context_room _ _ Hc) as [r Hr]. split; [done|].
  repeat match goal with E : deref _ _ = inr _ |- _ => apply deref_inr in E; subst end.
  repeat match goal with E : (_ || _)%bool = false |- _ => apply orb_false_iff in E as [? ?] | E : negb _ = false |- _ => apply negb_false_iff in E | E : bool_decide _ = true |- _ => apply bool_decide_eq_true in E end.
  split_and!.
  - exists r. rewrite Hr in *. match goal with E : reception_is _ _ _ _ _ = true |- _ => apply reception_bound in E as (f & ?) end. by exists f.
  - match goal with E : sameSide _ _ = inr _ |- _ => unfold sameSide in E; destruct (existsb _ _) eqn:Ex; [done|] end. intros k Hk.
    cbn in Ex. rewrite !orb_false_iff, !negb_false_iff, !String.eqb_eq in Ex. rewrite !elem_of_cons, elem_of_nil in Hk. destruct Ex as (? & ? & ? & ? & ? & _). by repeat (destruct Hk as [->|Hk]; [done|]).
  - do 3 eexists. split_and!; try eassumption. by apply strict_eq_text.
  - eapply plaintext_open; [eassumption|]. intros m Hm. rewrite !elem_of_cons, elem_of_nil in Hm. by repeat (destruct Hm as [->|Hm]; [done|]).
  - match goal with E : verifyFleetTarget _ _ _ _ _ _ _ = inr ?u |- _ => destruct u; by apply target_verified in E end.
  - do 4 eexists. split_and!; try eassumption; try (by apply strict_eq_text); [by apply String.eqb_neq|].
    match goal with E : sort_texts _ = sort_texts _ |- _ => rewrite <-(stable_sort_perm String.ltb), (E : stable_sort _ _ = stable_sort _ _); apply stable_sort_perm end.
Qed.

(** C36. A request for an agent reaches the backend only with the authority it claims: the side and its
    registration are known; the request was written, word for word but for the owner's private room, by
    its requester in a reception that a probe of this fleet proved (the probe arrived from that room, sent
    by the representative of the fleet's side, and was confirmed later: the homeserver had that very
    event, and the room was invite-only, not encrypted and had the representative in it); requester and
    representative are now in that reception, which is invite-only and not encrypted; the target room is
    so too, binds itself to this fleet, project and owner, has requester, owner and representative in it
    and gives them the power they need; every name belongs to the side's server; and the owner's approval
    room is encrypted, invite-only and has nobody in it but the owner and the approval bot. *)
Theorem fleet_requests_are_authorized st sideFor e q resp calls call :
  rtc step empty st → begin num_str str_num encodeURIComponent sideFor e q (state st) = Answered resp calls →
  call ∈ calls → om_get "action" call = Some (JStr "request") →
  ∃ s fleet context, sideFor (sideId q) = Some s ∧ fleetIdForSender (senderLocalpart s) = Some fleet ∧ s_registration s = Some (q_registration q) ∧
    om_get "context" call = Some context ∧ fleetRequestContext num_str (body q) = inr context ∧ proven (arrived st) (confirmed st) fleet (text context "sourceRoomId") ∧
    (∀ k, k ∈ ["sourceRoomId"; "targetRoomId"; "ownerDmRoomId"; "ownerMxid"; "requesterMxid"] → serverOf (text context k) = lower (serverName s)) ∧
    written_there e context ∧ open_room e (text context "sourceRoomId") [text context "requesterMxid"; representativeMxid s] ∧
    target_allows e s fleet context ∧ private_owner e context.
Proof.
  intros HI%protocol_run_inv. unfold begin. destruct (authority _ _) as [er|[s fleet]] eqn:Ha; [intros [= <- <-] ?%elem_of_nil; done|].
  destruct (match transportGeneration s with Some t => _ | None => false end); [intros [= <- <-] ?%elem_of_nil; done|].
  destruct (_ && _); [intros [= <- <-] ->%list_elem_of_singleton; done|]. destruct (_ && _).
  { destruct (negb _); [intros [= <- <-] ?%elem_of_nil; done|]. destruct (match om_get fleet (state st) with Some f => _ | None => None end) as [r|]; [|intros [= <- <-] ?%elem_of_nil; done].
    destruct (_ && _); [done|]. intros [= <- <-] ?%elem_of_nil; done. }
  destruct (_ && _).
  - destruct (admitRequest _ _ _ _ _ _ _ _) as [er|context] eqn:Ead; [intros [= <- <-] ?%elem_of_nil; done|]. intros [= <- <-] ->%list_elem_of_singleton _.
    apply admitted_request in Ead as (Hc & (r & f & Hr & Hf & _ & Hroom) & Hserver & Hrest). exists s, fleet, context.
    apply authority_spec in Ha as Hs. destruct Hs as (? & ? & ?), Hrest as (? & ? & ? & ?). split_and!; try done. rewrite Hr. by eapply (i_reception _ HI).
  - destruct (if String.eqb (method q) "GET" then _ else None) as [id|]; intros [= <- <-]; [by intros ->%list_elem_of_singleton|by intros ?%elem_of_nil].
Qed.

(** C37. The reception of a fleet stays: once a room is bound under a registration, no event, request,
    probe, failed save or restart moves it to another room; only a new registration drops it. *)
Theorem reception_stays_with_registration st st' fleet f room :
  step st st' → om_get fleet (state st) = Some f → receptionRoomId f = Some room → truthy room = true →
  ∃ f', om_get fleet (state st') = Some f' ∧ (receptionRoomId f' = Some room ∨ registration f' ≠ registration f).
Proof.
  intros Hstep Hf Hroom Ht. destruct Hstep; cbn [state] in *.
  - destruct (record_cases side reg event m now sv st) as [->|(fl & r & _ & _ & ->)]; [exists f; auto|]. rewrite om_get_set.
    destruct (String.eqb_spec fl fleet) as [->|]; [|exists f; auto]. eexists. split; [done|]. rewrite Hf. unfold with_receipt. change (default _ (Some f)) with f.
    destruct (String.eqb_spec (registration f) reg) as [E|E]; [left; exact Hroom|right; cbn; congruence].
  - exists f. destruct (begin _ _ _ sideFor e q st); auto.
  - pose proof (finish_cases e s fleet0 r sv st) as H. destruct (finish _ _ _ _ _ _ _) as [answer st']. cbn [fst snd state] in *.
    destruct H as [->|(_ & g & Hg & _ & Hold & ->)]; [exists f; auto|]. rewrite om_get_set.
    destruct (String.eqb_spec fleet0 fleet) as [->|]; [|exists f; auto]. eexists. split; [done|]. left. rewrite Hf in Hg. injection Hg as <-.
    destruct (bind_reception_parts s r f) as (_ & _ & ->). by rewrite (Hold room).
  - exists f. auto.
Qed.

End facts.

(** ** A fleet at work *)

Module FleetProtocolSample.

Definition num_str (n : num) : string := match n with Fin q => if Qeq_bool q 1 then "1" else "100" | _ => "null" end.
Definition str_num (s : string) : num := NaN.
Definition encode (s : string) : string := s.
Definition fleet : string := "hf_0123456789abcdef0123456789abcdef".
Definition rep : string := "@rep:cust.org".
Definition side1 : Side := MkSide (Some (fleet +:+ "_representative")) (Some "reg1") None rep "cust.org".
Definition sideFor (id : string) : option Side := Some side1.
Definition probe_event : jval :=
  JObj [("type", JStr FLEET_PROBE_EVENT); ("room_id", JStr "!in:cust.org"); ("event_id", JStr "$p1"); ("sender", JStr rep);
        ("content", JObj [("fleetId", JStr fleet); ("challenge", JStr "0123456789abcdef")])].
Definition asked : list (string * jval) :=
  [("v", JNum (Fin 1)); ("fleetId", JStr fleet); ("requestId", JStr "q1"); ("requesterMxid", JStr "@ann:cust.org"); ("sourceRoomId", JStr "!in:cust.org");
   ("targetProjectId", JStr "p1"); ("targetRoomId", JStr "!work:cust.org"); ("ownerMxid", JStr "@own:cust.org"); ("role", JStr "coding");
   ("requestedTokens", JNum (Fin 100)); ("authVersion", JNum (Fin 1))].
Definition request : jval := JObj (asked ++ [("ownerDmRoomId", JStr "!dm:cust.org"); ("sourceEventId", JStr "$q1")]).
Definition members (l : list string) : jval := JObj [("joined", JObj (List.map (λ m, (m, JObj [])) l))].
Definition readRoom (r : Read) : Res jval :=
  if String.eqb (what r) "event/$p1" then inr probe_event
  else if String.eqb (what r) "event/$q1" then
    inr (JObj [("type", JStr FLEET_REQUEST_EVENT); ("event_id", JStr "$q1"); ("sender", JStr "@ann:cust.org"); ("content", JObj asked)])
  else if String.eqb (what r) "joined_members" then
    inr (if private_ r then members ["@bot:cust.org"; "@own:cust.org"] else members ["@ann:cust.org"; "@own:cust.org"; rep])
  else if String.eqb (what r) "state/m.room.join_rules/" then inr (JObj [("join_rule", JStr "invite")])
  else if String.eqb (what r) "state/m.room.power_levels/" then inr (JObj [("users", JObj [("@own:cust.org", JNum (Fin 100))])])
  else if String.eqb (what r) "state/m.room.encryption/" then inr (if private_ r then JObj [("algorithm", JStr "m.megolm.v1.aes-sha2")] else JNull)
  else if String.prefix "state/com.hagency.admin.binding.v1/" (what r) then
    inr (JObj [("v", JNum (Fin 1)); ("fleetId", JStr fleet); ("purpose", JStr "project"); ("projectId", JStr "p1"); ("ownerMxid", JStr "@own:cust.org"); ("authVersion", JNum (Fin 1))])
  else inl plain_error.
Definition env : Env := MkEnv readRoom (λ call, inr (JObj [("ok", JBool true)])) (Some "@bot:cust.org").
Definition ask (path : string) (b : jval) : Request := MkReq "cust.org" "reg1" "POST" path b None.
Definition probe : Request :=
  ask "/api/fleet/v1/probe" (JObj [("fleetId", JStr fleet); ("sourceEventId", JStr "$p1"); ("challenge", JStr "0123456789abcdef"); ("sourceRoomId", JStr "!in:cust.org")]).

Definition receipt1 : Receipt := MkReceipt "!in:cust.org" "$p1" "0123456789abcdef" 7 "push" None.
Definition state1 : State := [(fleet, MkFleet "reg1" [("$p1", receipt1)] None None)].
Definition state2 : State := [(fleet, MkFleet "reg1" [("$p1", receipt1)] (Some "!in:cust.org") None)].
Definition arrival1 : Arrival := MkArrival side1 probe_event "push" fleet receipt1.
Definition s1 : System := MkSystem state1 [] [arrival1] [].
Definition s2 : System := MkSystem state2 [] [arrival1] [MkConfirmation env side1 fleet receipt1].

Lemma bound : rtc (step num_str str_num encode) empty s2.
Proof.
  apply (rtc_l _ empty s1); [exact (s_event num_str str_num encode (Some side1) "reg1" probe_event "push" 7 SaveDone [] [] [] [])|].
  apply (rtc_l _ s1 (MkSystem state1 [(side1, fleet, receipt1)] [arrival1] [])); [exact (s_begin num_str str_num encode sideFor env probe state1 [] [arrival1] [])|].
  apply rtc_once. exact (s_finish num_str str_num encode env side1 fleet receipt1 SaveDone state1 [] [] [arrival1] []).
Qed.

(** A probe that began under one registration and finishes under the next binds the new registration to
    a room that it never proved. *)
Example stale_probe_binds_new_registration :
  let st := (recordEvent (Some (MkSide (senderLocalpart side1) (Some "reg2") None rep "cust.org")) "reg2" probe_event "push" 8 SaveDone state1).2 in
  begin num_str str_num encode sideFor env probe state1 = Probing side1 fleet receipt1 ∧
  (receptionRoomId <$> om_get fleet st) = Some None ∧
  ((λ f, (registration f, receptionRoomId f)) <$> om_get fleet (finish encode env side1 fleet receipt1 SaveDone st).2) = Some ("reg2", Some "!in:cust.org").
Proof. by vm_compute. Qed.

End FleetProtocolSample.

Lemma fleet_requests_are_authorized_witness :
  let q := FleetProtocolSample.ask "/api/fleet/v1/requests" FleetProtocolSample.request in
  ∃ resp call, begin FleetProtocolSample.num_str FleetProtocolSample.str_num FleetProtocolSample.encode FleetProtocolSample.sideFor FleetProtocolSample.env q FleetProtocolSample.state2 = Answered resp [call] ∧
    ∃ context, om_get "context" call = Some context ∧ private_owner FleetProtocolSample.num_str FleetProtocolSample.env context.
Proof.
  cbv zeta. eexists _, _. split; [vm_compute; reflexivity|].
  destruct (fleet_requests_are_authorized FleetProtocolSample.num_str FleetProtocolSample.str_num FleetProtocolSample.encode FleetProtocolSample.s2 FleetProtocolSample.sideFor FleetProtocolSample.env
    (FleetProtocolSample.ask "/api/fleet/v1/requests" FleetProtocolSample.request) _ _ _ FleetProtocolSample.bound ltac:(vm_compute; reflexivity) ltac:(by left) eq_refl)
    as (s & fleet & context & _ & _ & _ & Hc & _ & _ & _ & _ & _ & _ & Hp).
  exists context. exact (conj Hc Hp).
Defined.

Lemma reception_stays_with_registration_witness : ∃ f', om_get FleetProtocolSample.fleet FleetProtocolSample.state2 = Some f' ∧
  (receptionRoomId f' = Some "!in:cust.org" ∨ registration f' ≠ "reg1").
Proof.
  exact (reception_stays_with_registration FleetProtocolSample.num_str FleetProtocolSample.str_num FleetProtocolSample.encode FleetProtocolSample.s2 FleetProtocolSample.s2
    FleetProtocolSample.fleet (MkFleet "reg1" [("$p1", FleetProtocolSample.receipt1)] (Some "!in:cust.org") None) "!in:cust.org"
    (s_restart _ _ _ FleetProtocolSample.state2 [] (arrived FleetProtocolSample.s2) (confirmed FleetProtocolSample.s2)) eq_refl eq_refl eq_refl).
Defined.
