(* ===== verification/HttpProg.v ===== *)
(** * Programs that make HTTP requests

    A call that awaits the answers of servers is a tree: it returns, throws, or makes a request and goes
    on with the answer. [prog] has the [throw] and the [try] of the code, and [run] plays it against
    servers. The calls use [fetch] with its default options, so a redirect is followed: [exchange] makes
    the further requests, and the program gets the answer at their end. [spec] is the logic of programs:
    what holds of every request, given the exchanges before it, and of every result and every error, given
    all exchanges, for all answers that the servers may give. *)

From Stdlib Require Import ZArith QArith Lia String Ascii.
From stdpp Require Import base list strings.
From S2P Require Import Prelude OMap Json.
#[local] Open Scope stdpp_scope.

Module HttpProg.

(** A request: its method, the text of its address up to the path, the path, the query, the token of its
    [Authorization] header and its body. *)
Record request : Type := MkRequest {
  method : string; base : string; path : string; query : list (string * string); bearer : option string; body : option jval;
}.

(** What [fetch] resolves to, after all redirects: an answer with its status, its body ([null] where it is
    not JSON) and the [Retry-After] header ([null] where there is none); or it rejects. *)
Inductive answer : Type := Reply (status : Z) (data retry_after : jval) | NoAnswer.

(** An error: its code, and the status and [errcode] of the refusal of a homeserver. *)
Record error : Type := MkError { code : option string; status : option Z; errcode : option string }.
Definition plain : error := MkError None None None.
Definition coded (c : string) : error := MkError (Some c) None None.

Inductive prog (A : Type) : Type :=
| Ret (a : A)
| Raise (e : error)
| Fetch (q : request) (k : answer → prog A).
Arguments Ret {A} a.
Arguments Raise {A} e.
Arguments Fetch {A} q k.

Fixpoint bind {A B} (p : prog A) (f : A → prog B) : prog B :=
  match p with Ret a => f a | Raise e => Raise e | Fetch q k => Fetch q (λ r, bind (k r) f) end.

(** [try { p } catch (e) { h(e) }] *)
Fixpoint catch {A} (p : prog A) (h : error → prog A) : prog A :=
  match p with Ret a => Ret a | Raise e => h e | Fetch q k => Fetch q (λ r, catch (k r) h) end.

(** [await fetch(...)], its redirects followed ([exchange], below), and the defensive reading of the body:
    status, body and header, or an error. *)
Definition fetch (q : request) : prog (Z * jval * jval) := Fetch q (λ r, match r with Reply s d h => Ret (s, d, h) | NoAnswer => Raise plain end).

(** [response.ok] *)
Definition ok (s : Z) : bool := (200 <=? s) && (s <? 300).

(** ** Redirects *)

(** An address as the URL parser reads it from a [Location] header, and its origin: [None] where that is
    the origin of the first request. *)
Record location : Type := MkLocation { url : string; origin : option string }.

(** A request on its way: to the address of the program's request or to a [location], with its method, the
    token of its [Authorization] header and its body. *)
Record hop : Type := MkHop { place : option location; verb : string; carried : option string; sent : option jval }.
Definition first (q : request) : hop := MkHop None (method q) (bearer q) (body q).
Definition hop_origin (p : hop) : option string := match place p with Some l => origin l | None => None end.

(** The answer of one server: its status, the [Location] header ([Some None] where that is not an address
    that may be followed), its body and the [Retry-After] header; or none at all. *)
Inductive response : Type := Got (s : Z) (header : option (option location)) (data retry_after : jval) | Nothing.

Definition is_redirect (s : Z) : bool := bool_decide (s ∈ [301; 302; 303; 307; 308]).

(** The next request: 303, and 301 or 302 of a [POST], are followed by a [GET] without a body; the
    [Authorization] header is dropped where the origin changes. *)
Definition redirected (s : Z) (l : location) (p : hop) : hop :=
  let get := (((s =? 301) || (s =? 302)) && String.eqb (verb p) "POST") || ((s =? 303) && negb (String.eqb (verb p) "GET" || String.eqb (verb p) "HEAD")) in
  MkHop (Some l) (if get then "GET" else verb p) (if decide (origin l = hop_origin p) then carried p else None) (if get then None else sent p).

(** All requests of one [fetch], the first included, and what it resolves to; [n] more redirects are
    followed. The servers may answer by what was asked before. *)
Fixpoint follow (n : nat) (server : list hop → hop → response) (past : list hop) (p : hop) : list hop * answer :=
  match server past p with
  | Nothing => (past ++ [p], NoAnswer)
  | Got s header d ra =>
      match (if is_redirect s then header else None), n with
      | None, _ => (past ++ [p], Reply s d ra)
      | Some None, _ | Some (Some _), O => (past ++ [p], NoAnswer)
      | Some (Some l), S n => follow n server (past ++ [p]) (redirected s l p)
      end
  end.
Definition exchange (server : list hop → hop → response) (q : request) : list hop * answer := follow 20 server [] (first q).
Arguments exchange : simpl never.

(** However [fetch] is redirected, the token goes to the origin of the program's request only. *)
Lemma hops_keep_token server q p t : p ∈ (exchange server q).1 → carried p = Some t → hop_origin p = None ∧ bearer q = Some t.
Proof.
  pose (home p := ∀ t, carried p = Some t → hop_origin p = None ∧ bearer q = Some t).
  assert (H : ∀ n past p, Forall home past → home p → Forall home (follow n server past p).1).
  { induction n as [|n IH]; intros past p' Hpast Hp; cbn; destruct (server past p') as [s header d ra|]; try (by apply Forall_app_2; [|constructor]);
      destruct (if is_redirect s then header else None) as [[l|]|]; try (by apply Forall_app_2; [|constructor]).
    apply IH; [by apply Forall_app_2; [|constructor]|]. intros t' Ht. cbn in Ht |- *. case_decide as Ho; [|done]. rewrite Ho. by apply Hp. }
  intros Hin Ht. specialize (H 20%nat [] (first q) (Forall_nil_2 _) (λ t' Ht', conj eq_refl Ht')). rewrite Forall_forall in H. by apply (H p Hin).
Qed.

(** The requests that the program has made so far, with their answers. *)
Definition history : Type := list (request * answer).

(** The result against servers that may answer by what was asked before, and the exchanges. *)
Fixpoint run {A} (server : history → list hop → hop → response) (h : history) (p : prog A) : (error + A) * history :=
  match p with
  | Ret a => (inr a, h)
  | Raise e => (inl e, h)
  | Fetch q k => let r := (exchange (server h) q).2 in run server (h ++ [(q, r)]) (k r)
  end.

(** ** The logic *)

Section logic.
Context (P : history → request → Prop).

Fixpoint spec {A} (R : history → A → Prop) (E : history → error → Prop) (h : history) (p : prog A) : Prop :=
  match p with
  | Ret a => R h a
  | Raise e => E h e
  | Fetch q k => P h q ∧ ∀ r, spec R E (h ++ [(q, r)]) (k r)
  end.

Lemma spec_mono {A} (R R' : history → A → Prop) (E E' : history → error → Prop) h p :
  spec R E h p → (∀ h a, R h a → R' h a) → (∀ h e, E h e → E' h e) → spec R' E' h p.
Proof. intros Hp HR HE. revert h Hp. induction p as [a|e|q k IH]; cbn; intros h; [apply HR|apply HE|intros [? Hk]; split; [done|]; intros r; by apply IH]. Qed.

Lemma spec_bind {A B} (R : history → B → Prop) E h (p : prog A) (f : A → prog B) :
  spec (λ h a, spec R E h (f a)) E h p → spec R E h (bind p f).
Proof. revert h. induction p as [a|e|q k IH]; cbn; intros h; [done|done|intros [? Hk]; split; [done|]; intros r; by apply IH]. Qed.

Lemma spec_catch {A} (R : history → A → Prop) E h (p : prog A) g :
  spec R (λ h e, spec R E h (g e)) h p → spec R E h (catch p g).
Proof. revert h. induction p as [a|e|q k IH]; cbn; intros h; [done|done|intros [? Hk]; split; [done|]; intros r; by apply IH]. Qed.

Lemma spec_fetch (R : history → Z * jval * jval → Prop) (E : history → error → Prop) h q :
  P h q → (∀ s d ra, R (h ++ [(q, Reply s d ra)]) (s, d, ra)) → E (h ++ [(q, NoAnswer)]) plain → spec R E h (fetch q).
Proof. intros Hq HR HE. split; [done|]. by intros [s d ra|]; cbn. Qed.

Lemma run_grows {A} server h (p : prog A) : ∃ t, (run server h p).2 = h ++ t.
Proof.
  revert h. induction p as [a|e|q k IH]; cbn; intros h; [by exists []; rewrite app_nil_r|by exists []; rewrite app_nil_r|].
  set (r := (exchange (server h) q).2). destruct (IH r (h ++ [(q, r)])) as [t ->]. exists ((q, r) :: t). by rewrite <-app_assoc.
Qed.

(** What is proved of a program holds of its runs: of each request, at its time, and of the end. *)
Lemma run_spec {A} (R : history → A → Prop) (E : history → error → Prop) server h (p : prog A) : spec R E h p →
  (match run server h p with (inl e, h') => E h' e | (inr a, h') => R h' a end) ∧
  (∀ h1 q r h2, h ++ h1 ++ (q, r) :: h2 = (run server h p).2 → P (h ++ h1) q).
Proof.
  assert (Hno : ∀ (h0 h1 h2 : history) x, h0 ++ h1 ++ x :: h2 ≠ h0) by (intros h0 h1 h2 x H%(f_equal length); rewrite !length_app in H; cbn in H; lia).
  revert h. induction p as [a|e|q k IH]; cbn; intros h; [by intros H; split; [|intros ? ? ? ? []%Hno]..|].
  intros [Hq Hk]. set (r := (exchange (server h) q).2). destruct (IH _ _ (Hk r)) as [Hend Hreq]. split; [done|]. intros h1 q' r' h2 Heq.
  destruct (run_grows server (h ++ [(q, r)]) (k r)) as [t Ht]. pose proof Heq as Hh. rewrite Ht, <-app_assoc in Hh.
  apply app_inv_head in Hh. destruct h1 as [|x h1]; injection Hh as -> Hh.
  - by rewrite app_nil_r.
  - specialize (Hreq h1 q' r' h2). rewrite <-!app_assoc in Hreq. by apply Hreq.
Qed.

End logic.
End HttpProg.

Notation "'await' x '<-' c ';' k" := (HttpProg.bind c (λ x, k)) (at level 10, x pattern, c at level 100, k at level 200) : js_scope.
Notation "'raise_if' b 'with' e ';' k" := (if (b : bool) then HttpProg.Raise e else k) (at level 10, b at level 100, e at level 100, k at level 200) : js_scope.
Notation "'try' p 'catching' h" := (HttpProg.catch p h) (at level 10, p at level 100, h at level 100) : js_scope.
