(* ===== verification/MatrixSide.v ===== *)
(** * Acting on a project side's homeserver ([lib/matrix-representative.js])

    Every call of the representative and of a side's agents, as a program that makes requests. The
    homeserver is whatever answers them. [URL] and [RegExp] of JavaScript are arguments ([validURL] says
    which addresses are parsed; [regExp] compiles a pattern or throws), and so are the hash and the random
    password. Of the texts that explain an outcome only those are kept that other code reads. *)

From Stdlib Require Import ZArith QArith Lia String Ascii.
From stdpp Require Import base list strings.
From S2P Require Import Prelude OMap Json Uri ProjectSides SyncCollector Backfill HttpProg.
#[local] Open Scope stdpp_scope.
#[local] Open Scope js_scope.

Module MatrixSide.
Import HttpProg.

(** What the calls read of a side; a member that is missing is the empty text. *)
Record Side : Type := MkSide { apiBaseUrl : string; serverName : string; representative : option string }.

(** ** Failures *)

Definition classifyMatrixFailure (e : error) : string :=
  if bool_decide (status e = Some 401) || bool_decide (status e = Some 403) then "rejected" else
  if bool_decide (errcode e = Some "M_USER_IN_USE") then "blocked" else "unreachable".

Definition text_member (v : jval) (k : string) : option string := match prop v k with JStr s => Some s | _ => None end.
Definition matrixError (s : Z) (data : jval) : error := MkError (Some "matrix_error") (Some s) (text_member data "errcode").
Definition bad_request : error := coded "bad_request".

(** [s.includes(pat)] *)
Fixpoint includes (pat s : string) : bool := String.prefix pat s || match s with String _ s => includes pat s | EmptyString => false end.

(** [/already (in|a member of) the room|already joined/i] *)
Definition already_in (m : string) : bool :=
  let m := lower m in includes "already in the room" m || includes "already a member of the room" m || includes "already joined" m.

(** What a call that acts reports: whether it acted ([created], [resolved], [knocked], ...), whether there
    was nothing to do, the id it was given, and the class of its failure. *)
Record Outcome : Type := MkOutcome { done_ : bool; already : bool; id : jval; failure : option string }.
Definition refused : Outcome := MkOutcome false false JNull None.
Definition failed (e : error) : Outcome := MkOutcome false false JNull (Some (classifyMatrixFailure e)).

Record Ensured : Type := MkEnsured { accessState : string; e_mxid : jval; credentialPatch : option jval }.
Record Minted : Type := MkMinted { minted : bool; m_mxid : jval; accessToken : jval; m_state : option string; m_errcode : option string }.

(** ** Masquerades *)

(** [/^@[^:\s@]+:[^\s@]+$/] *)
Definition masquerade_id (s : string) : bool := matrix_id "@" s && negb (string_exists (Ascii.eqb "@") (drop_str 1 s)).

Section side.
Context (num_str : num → string) (str_num : string → num) (validURL : string → bool) (regExp : string → option (string → bool)).

Definition namespaceAdmits (namespace : option string) (mxid : string) : bool :=
  match namespace with
  | Some ns => truthy ns && match regExp ("^" +:+ ns +:+ "$") with Some test => test mxid | None => false end
  | None => false
  end.

(** The roster is [None] where the caller gave no function. *)
Record Masquerade : Type := MkMasquerade { namespace : option string; isRegisteredAgent : option (string → bool); label : string }.
Definition as_representative : Masquerade := MkMasquerade None None "representative".

Definition validateMasqueradeUserId (userId : string) (o : Masquerade) : bool :=
  let id := trim userId in
  masquerade_id id &&
  match isRegisteredAgent o with
  | Some known => known id
  | None => negb (String.prefix "agent-" (label o))
  end &&
  match truthy_opt (namespace o) with Some ns => namespaceAdmits (Some ns) id | None => true end.

(** The query that [setMasqueradeUserParam] leaves, or its refusal. *)
Definition setMasqueradeUserParam (userId : string) (o : Masquerade) : prog (list (string * string)) :=
  raise_if negb (validateMasqueradeUserId userId o) with coded "masquerade_refused"; Ret [("user_id", userId)].
Definition actingAs (asUserId : option string) (o : Masquerade) : prog (list (string * string)) :=
  match truthy_opt asUserId with Some u => setMasqueradeUserParam u o | None => Ret [] end.

(** [new URL(...)], which throws on what is no address. *)
Definition address (base path : string) : prog unit := raise_if negb (validURL (base +:+ path)) with plain; Ret tt.

Definition joinUrl (baseUrl : string) : string := ProjectSides.strip_slashes baseUrl.

(** ** Accounts *)

Definition whoami (baseUrl : string) (token : jval) (asUserId : option string) : prog (string * option string) :=
  raise_if negb (truthy baseUrl) with bad_request;
  raise_if negb (to_bool token) with bad_request;
  await _ <- address (joinUrl baseUrl) "/_matrix/client/v3/account/whoami";
  await q <- actingAs asUserId as_representative;
  await r <- fetch (MkRequest "GET" (joinUrl baseUrl) "/_matrix/client/v3/account/whoami" q (Some (to_str num_str token)) None);
  let '(s, data, _) := r in
  raise_if negb (ok s) with matrixError s data;
  let userId := trim (default EmptyString (text_member data "user_id")) in
  raise_if negb (truthy userId) with coded "matrix_error";
  Ret (userId, trim <$> text_member data "device_id").

(** The token and the account; the address is the text itself. *)
Definition registerRepresentative (baseUrl registrationToken localpart password : string) : prog (jval * jval) :=
  raise_if negb (truthy baseUrl) with bad_request;
  let username := lower localpart in
  raise_if negb (truthy username) with bad_request;
  let given data := Ret (prop data "access_token", js_or (prop data "user_id") JNull) in
  let post body := fetch (MkRequest "POST" (joinUrl baseUrl) "/_matrix/client/v3/register" [] None (Some (JObj body))) in
  let who := [("username", JStr username); ("password", JStr password)] in
  await r <- post who;
  let '(s, probe, _) := r in
  if to_bool (prop probe "access_token") then given probe else
  raise_if negb (to_bool (prop probe "session")) with matrixError s probe;
  await r <- post (who ++ [("auth", JObj [("type", JStr "m.login.registration_token"); ("token", JStr registrationToken); ("session", prop probe "session")])]);
  let '(s, auth, _) := r in
  raise_if negb (ok s) || negb (to_bool (prop auth "access_token")) with matrixError s auth;
  given auth.

Definition side_ok (s : Side) : bool := truthy (apiBaseUrl s) && truthy (serverName s).

(** [side.representative?.mxid || ...] *)
Definition representativeOf (s : Side) (senderLocalpart : string) : string :=
  default ("@" +:+ senderLocalpart +:+ ":" +:+ serverName s) (truthy_opt (representative s)).

(** The account that was registered, confirmed where the answer does not name it. *)
Definition registered (s : Side) (registrationToken localpart password : string) : prog (jval * jval) :=
  await r <- registerRepresentative (apiBaseUrl s) registrationToken localpart password;
  let '(token, userId) := r in
  if to_bool userId then Ret (token, userId) else
  await w <- whoami (apiBaseUrl s) token None; Ret (token, JStr w.1).

Definition ensureRepresentative (s : Side) (credential : option ProjectSides.Credential) (localpart password : string) : prog Ensured :=
  raise_if negb (side_ok s) with bad_request;
  let lost e := Ret (MkEnsured (classifyMatrixFailure e) JNull None) in
  match credential with
  | None => Ret (MkEnsured "unverified" JNull None)
  | Some (ProjectSides.Appservice _ asToken _ _ _ sender) =>
      try (await w <- whoami (apiBaseUrl s) (JStr asToken) (Some (representativeOf s sender)); Ret (MkEnsured "accepted" (JStr w.1) None)) catching lost
  | Some (ProjectSides.RegistrationToken registrationToken representativeToken) =>
      match truthy_opt representativeToken with
      | Some token => try (await w <- whoami (apiBaseUrl s) (JStr token) None; Ret (MkEnsured "accepted" (JStr w.1) None)) catching lost
      | None =>
          if negb (truthy registrationToken) then Ret (MkEnsured "unverified" JNull None) else
          try (await r <- registered s registrationToken localpart password;
               Ret (MkEnsured "accepted" r.2 (Some (JObj [("representativeToken", r.1)])))) catching lost
      end
  end.

Definition unminted : Minted := MkMinted false JNull JNull None None.

Definition mintAgentIdentity (s : Side) (credential : option ProjectSides.Credential) (localpart password : string) : prog Minted :=
  raise_if negb (side_ok s) with bad_request;
  match credential with
  | None => Raise bad_request
  | Some c =>
      let wanted := lower (trim localpart) in
      raise_if negb (truthy wanted) with bad_request;
      match c with
      | ProjectSides.Appservice _ asToken _ _ ns _ =>
          let claimed := "@" +:+ wanted +:+ ":" +:+ serverName s in
          match regExp ("^" +:+ ns +:+ "$") with
          | None => Ret unminted
          | Some test =>
              if negb (test claimed) then Ret unminted else
              try (await w <- whoami (apiBaseUrl s) (JStr asToken) (Some claimed); Ret (MkMinted true (JStr w.1) JNull None None))
              catching (λ e, Ret (MkMinted false JNull JNull (Some (classifyMatrixFailure e)) None))
          end
      | ProjectSides.RegistrationToken registrationToken _ =>
          if negb (truthy registrationToken) then Ret unminted else
          try (await r <- registered s registrationToken wanted password; Ret (MkMinted true r.2 r.1 None None))
          catching (λ e, Ret (MkMinted false JNull JNull (Some (classifyMatrixFailure e)) (errcode e)))
      end
  end.

(** ** Who acts *)

(** The token and the account it acts as; [None] is a reason why nobody can. *)
Definition actorFor (s : Side) (c : ProjectSides.Credential) : option (string * option string) :=
  match c with
  | ProjectSides.Appservice _ asToken _ _ _ sender => Some (asToken, Some (representativeOf s sender))
  | ProjectSides.RegistrationToken _ representativeToken => (λ t, (t, None)) <$> truthy_opt representativeToken
  end.

(** What stands behind the first colon, or all of a text without one. *)
Definition origin (s : string) : string := lower (match index_of ":" s with Some n => drop_str (S n) s | None => s end).

Definition roomBelongsToSide (roomId : string) (s : Side) : bool :=
  match index_of ":" roomId with Some (S _) => String.eqb (origin roomId) (serverName s) | _ => false end.

(** An argument that must be a text. *)
Definition required (v : jval) : prog string := match v with JStr t => raise_if negb (truthy t) with bad_request; Ret t | _ => Raise bad_request end.
Definition mxid_arg (v : jval) : prog string := await u <- required v; raise_if negb (String.prefix "@" u) with bad_request; Ret u.
Definition given {A} (s : Side) (c : option ProjectSides.Credential) (k : ProjectSides.Credential → prog A) : prog A :=
  raise_if negb (side_ok s) with bad_request; match c with Some c => k c | None => Raise bad_request end.

(** What is made ready outside of the [try]: the address and the masquerade. *)
Definition prepare (s : Side) (actor : string * option string) (o : Masquerade) (method path : string) (query : list (string * string)) (body : option jval) : prog request :=
  await _ <- address (joinUrl (apiBaseUrl s)) path;
  await q <- actingAs actor.2 o;
  Ret (MkRequest method (joinUrl (apiBaseUrl s)) path (query ++ q) (Some actor.1) body).

(** The data of an answer that is ok; any other throws. *)
Definition fetch_ok (q : request) : prog jval :=
  await r <- fetch q; let '(s, data, _) := r in raise_if negb (ok s) with matrixError s data; Ret data.

Definition room_path (roomId rest : string) : string := "/_matrix/client/v3/rooms/" +:+ Uri.encodeURIComponent roomId +:+ rest.
Definition not_failing {A} (p : prog A) (other : A) : prog A := try p catching (λ _, Ret other).
Definition reporting (p : prog Outcome) : prog Outcome := try p catching (λ e, Ret (failed e)).

(** An id that an answer must give. *)
Definition id_in (data : jval) (k : string) : prog string :=
  let t := trim (default EmptyString (text_member data k)) in raise_if negb (truthy t) with coded "matrix_error"; Ret t.

(** ** Rooms *)

Definition createRoomOnSide (s : Side) (c : option ProjectSides.Credential) (name : jval) (topic : string) (invite : list string) (encrypted : jval) (powerLevelOverride : jval) (isDirect : bool) : prog Outcome :=
  given s c (λ c,
  match encrypted with
  | JBool false =>
      await name <- required name;
      match actorFor s c with
      | None => Ret refused
      | Some actor =>
          await q <- prepare s actor as_representative "POST" "/_matrix/client/v3/createRoom" []
            (Some (JObj ([("preset", JStr "private_chat"); ("name", JStr name)]
              ++ (if truthy topic then [("topic", JStr topic)] else [])
              ++ (match invite with [] => [] | _ => [("invite", JArr (List.map JStr invite))] end)
              ++ (if isDirect then [("is_direct", JBool true)] else [])
              ++ (if to_bool powerLevelOverride then [("power_level_content_override", powerLevelOverride)] else [])
              ++ [("initial_state", JArr [])])));
          reporting (await data <- fetch_ok q; await roomId <- id_in data "room_id";
            Ret (if String.eqb (origin roomId) (serverName s) then MkOutcome true false (JStr roomId) None else refused))
      end
  | JBool true => Raise (coded "unsupported")
  | _ => Raise bad_request
  end).

(** [federates], [isolated] or [unknown] *)
Definition probeFederationFromSide (s : Side) (c : option ProjectSides.Credential) (probeMxid : string) : prog string :=
  given s c (λ c,
  raise_if negb (String.prefix "@" probeMxid) || negb (is_Some_b (index_of ":" probeMxid)) with bad_request;
  if String.eqb (origin probeMxid) (serverName s) then Ret "unknown" else
  match actorFor s c with
  | None => Ret "unknown"
  | Some actor =>
      await q <- prepare s actor as_representative "GET" ("/_matrix/client/v3/profile/" +:+ Uri.encodeURIComponent probeMxid) [] None;
      not_failing (await r <- fetch q; let '(st, data, _) := r in
        Ret (if ok st then "federates" else if strict_eq (prop data "errcode") (JStr "M_NOT_FOUND") then "unknown" else "isolated")) "isolated"
  end).

(** The id is that of the room; the servers are left out. *)
Definition resolveAliasOnSide (s : Side) (c : option ProjectSides.Credential) (alias : string) : prog Outcome :=
  given s c (λ c,
  raise_if negb (String.prefix "#" alias) || negb (is_Some_b (index_of ":" alias)) with bad_request;
  if negb (String.eqb (origin alias) (serverName s)) then Ret refused else
  match actorFor s c with
  | None => Ret refused
  | Some actor =>
      await q <- prepare s actor as_representative "GET" ("/_matrix/client/v3/directory/room/" +:+ Uri.encodeURIComponent alias) [] None;
      reporting (await data <- fetch_ok q; await roomId <- id_in data "room_id"; Ret (MkOutcome true false (JStr roomId) None))
  end).

(** [String(data?.error ?? '')] *)
Definition error_text (data : jval) : string := to_str num_str (nullish_or (prop data "error") (JStr EmptyString)).
Definition already_there (st : Z) (data : jval) : bool := (st =? 403) && already_in (error_text data).
Definition with_reason (reason : string) (o : list (string * jval)) : jval := JObj (o ++ if truthy reason then [("reason", JStr reason)] else []).

Definition knockOnRoomOnSide (s : Side) (c : option ProjectSides.Credential) (aliasOrRoomId reason : string) : prog Outcome :=
  given s c (λ c,
  raise_if negb (String.prefix "#" aliasOrRoomId || String.prefix "!" aliasOrRoomId) || negb (is_Some_b (index_of ":" aliasOrRoomId)) with bad_request;
  if negb (String.eqb (origin aliasOrRoomId) (serverName s)) then Ret refused else
  match actorFor s c with
  | None => Ret refused
  | Some actor =>
      await q <- prepare s actor as_representative "POST" ("/_matrix/client/v3/knock/" +:+ Uri.encodeURIComponent aliasOrRoomId) [] (Some (with_reason reason []));
      reporting (await r <- fetch q; let '(st, data, _) := r in
        if ok st then Ret (MkOutcome true false (str_or_null (text_member data "room_id")) None) else
        if already_there st data then Ret (MkOutcome false true JNull None) else
        if strict_eq (prop data "errcode") (JStr "M_UNRECOGNIZED") then Ret (MkOutcome false false JNull (Some "unsupported")) else
        Raise (matrixError st data))
  end).

Definition inviteToRoomOnSide (s : Side) (c : option ProjectSides.Credential) (roomId userId : jval) (reason : string) : prog Outcome :=
  given s c (λ c,
  await roomId <- required roomId;
  await userId <- mxid_arg userId;
  if negb (roomBelongsToSide roomId s) then Ret refused else
  match actorFor s c with
  | None => Ret refused
  | Some actor =>
      await q <- prepare s actor as_representative "POST" (room_path roomId "/invite") [] (Some (with_reason reason [("user_id", JStr userId)]));
      reporting (await r <- fetch q; let '(st, data, _) := r in
        if ok st then Ret (MkOutcome true false JNull None) else
        if already_there st data then Ret (MkOutcome false true JNull None) else Raise (matrixError st data))
  end).

(** ** Reading rooms *)

(** A number of the answer, where it is finite. *)
Definition number_or (v : jval) (d : Q) : Q := match v with JNum (Fin q) => q | _ => d end.

(** [known] and [can]; the powers that it compares are [required] and [mine]. An account that is [null]
    is looked up under that name. *)
Inductive Power : Type := UnknownPower | KnownPower (can : bool) (needed mine : Q).

Definition canRepresentativeInvite (s : Side) (c : ProjectSides.Credential) (roomId : string) : prog Power :=
  match actorFor s c with
  | None => Ret UnknownPower
  | Some actor =>
      await q <- prepare s actor as_representative "GET" (room_path roomId "/state/m.room.power_levels/") [] None;
      not_failing (await r <- fetch q; let '(st, data, _) := r in
        if negb (ok st) then Ret UnknownPower else
        let needed := number_or (prop data "invite") 0 in
        let mine := number_or (prop (prop data "users") (default "null" actor.2)) (number_or (prop data "users_default") 0) in
        Ret (KnownPower (Qle_bool needed mine) needed mine)) UnknownPower
  end.

Definition roomNameOnSide (s : Side) (c : ProjectSides.Credential) (roomId : string) : prog (option string) :=
  if negb (roomBelongsToSide roomId s) then Ret None else
  match actorFor s c with
  | None => Ret None
  | Some actor =>
      await q <- prepare s actor as_representative "GET" (room_path roomId "/state/m.room.name/") [] None;
      await r <- fetch q; let '(st, data, _) := r in Ret (if ok st then text_member data "name" else None)
  end.

(** The members, or why they are not known, and when to ask again in milliseconds. *)
Inductive Members : Type := KnownMembers (l : list string) | UnknownMembers (reason : string) (retryAfterMs : option Q).

Definition not_negative (n : num) : option Q := match n with Fin q => if Qle_bool 0 q then Some q else None | _ => None end.

(** [Date.parse(raw)] less the time, where it is one. *)
Definition retryAfterMs (until : string → option Z) (data raw : jval) : option Q :=
  match not_negative (to_number num_str str_num (prop data "retry_after_ms")) with
  | Some q => Some q
  | None =>
      match not_negative (to_number num_str str_num raw) with
      | Some q => Some (q * 1000)%Q
      | None => (λ z, inject_Z (Z.max 0 z)) <$> until (to_str num_str raw)
      end
  end.

(** [Object.keys] of an array *)
Definition indices (l : list jval) : list string := List.map (λ i, num_str (Fin (inject_Z (Z.of_nat i)))) (seq 0 (length l)).

Definition joinedMembersOnSide (until : string → option Z) (s : Side) (c : ProjectSides.Credential) (roomId : string) : prog Members :=
  match actorFor s c with
  | None => Ret (UnknownMembers "this side has no representative token yet" None)
  | Some actor =>
      await q <- prepare s actor as_representative "GET" (room_path roomId "/joined_members") [] None;
      not_failing (await r <- fetch q; let '(st, data, raw) := r in
        if ok st then Ret (KnownMembers (match prop data "joined" with JObj o => om_keys o | JArr l => indices l | _ => [] end)) else
        Ret (UnknownMembers ("membership unreadable: " +:+ to_str num_str (js_or (prop data "errcode") (JNum (Fin (inject_Z st))))) (retryAfterMs until data raw)))
        (UnknownMembers "membership unreadable" None)
  end.

Definition roomStateOnSide (s : Side) (c : ProjectSides.Credential) (roomId : string) : prog (list jval) :=
  match actorFor s c with
  | None => Raise plain
  | Some actor =>
      await q <- prepare s actor as_representative "GET" (room_path roomId "/state") [] None;
      await r <- fetch q; let '(st, data, _) := r in
      match data with JArr l => raise_if negb (ok st) with plain; Ret l | _ => Raise plain end
  end.

(** One page of a room's history; the reading of the answer is [Backfill.roomMessagesOnSide]. *)
Definition roomMessagesOnSide (s : Side) (c : ProjectSides.Credential) (roomId : string) (from to : string) (limit dir : string) : prog Backfill.Page :=
  let unreadable := Backfill.roomMessagesOnSide None in
  match actorFor s c with
  | None => Ret unreadable
  | Some actor =>
      await q <- prepare s actor as_representative "GET" (room_path roomId "/messages")
        ([("dir", dir); ("limit", limit)] ++ (if truthy from then [("from", from)] else []) ++ (if truthy to then [("to", to)] else [])) None;
      not_failing (await r <- fetch q; let '(st, data, _) := r in Ret (Backfill.roomMessagesOnSide (Some (st, data)))) unreadable
  end.

(** ** Memberships *)

Definition agent_masquerade (ns : string) (roster : option (string → bool)) (l : string) : Masquerade := MkMasquerade (Some ns) roster l.

(** Joining and leaving as an agent; a masquerade that is refused is reported. *)
Definition asAgent (s : Side) (c : option ProjectSides.Credential) (roomId agentUserId : jval) (roster : option (string → bool)) (l : string)
    (path : string → string) (report : string → jval → Outcome) : prog Outcome :=
  given s c (λ c,
  await roomId <- required roomId;
  await agent <- mxid_arg agentUserId;
  match c with
  | ProjectSides.RegistrationToken _ _ => Ret refused
  | ProjectSides.Appservice _ asToken _ _ ns _ =>
      if negb (roomBelongsToSide roomId s) then Ret refused else
      await _ <- address (joinUrl (apiBaseUrl s)) (path roomId);
      if negb (validateMasqueradeUserId agent (agent_masquerade ns roster l)) then Ret refused else
      reporting (await data <- fetch_ok (MkRequest "POST" (joinUrl (apiBaseUrl s)) (path roomId) [("user_id", agent)] (Some asToken) (Some (JObj [])));
        Ret (report roomId data))
  end).

Definition join_path (roomId : string) : string := "/_matrix/client/v3/join/" +:+ Uri.encodeURIComponent roomId.
Definition leave_path (roomId : string) : string := room_path roomId "/leave".
Definition joined_room (roomId : string) (data : jval) : Outcome := MkOutcome true false (nullish_or (prop data "room_id") (JStr roomId)) None.

Definition joinRoomOnSideAsAgent (s : Side) (c : option ProjectSides.Credential) (roomId agentUserId : jval) (roster : option (string → bool)) : prog Outcome :=
  asAgent s c roomId agentUserId roster "agent-join" join_path joined_room.
Definition leaveRoomOnSideAsAgent (s : Side) (c : option ProjectSides.Credential) (roomId agentUserId : jval) (roster : option (string → bool)) : prog Outcome :=
  asAgent s c roomId agentUserId roster "agent-leave" leave_path (λ _ _, MkOutcome true false JNull None).

(** A side with a registration token needs a representative that was verified. *)
Definition joinRoomOnSideAsRepresentative (s : Side) (c : option ProjectSides.Credential) (roomId : jval) : prog Outcome :=
  given s c (λ c,
  await roomId <- required roomId;
  if negb (roomBelongsToSide roomId s) then Ret refused else
  match actorFor s c with
  | None => Ret refused
  | Some (token, asUserId) =>
      match truthy_opt (representative s), truthy_opt asUserId with
      | None, None => Ret refused
      | verified, acting =>
          await q <- prepare s (token, match acting with Some u => Some (default u verified) | None => None end) as_representative "POST" (join_path roomId) [] (Some (JObj []));
          reporting (await data <- fetch_ok q; Ret (joined_room roomId data))
      end
  end).

Definition leaveRoomOnSideAsRepresentative (s : Side) (c : option ProjectSides.Credential) (roomId : string) : prog Outcome :=
  match c with
  | None => Ret refused
  | Some c =>
      if negb (roomBelongsToSide roomId s) then Ret refused else
      match actorFor s c with
      | None => Ret refused
      | Some actor =>
          not_failing (await q <- prepare s actor as_representative "POST" (leave_path roomId) [] (Some (JObj []));
            await _ <- fetch_ok q; Ret (MkOutcome true false JNull None)) refused
      end
  end.

(** The transaction is named by its seed. *)
Definition txnId (sha256 : string → string) (txnSeed : string) : string := "hagency_" +:+ slice_to 32 (sha256 txnSeed).

Definition sendToRoomOnSide (sha256 : string → string) (s : Side) (c : option ProjectSides.Credential) (roomId content txnSeed : jval) (msgType : string) : prog Outcome :=
  given s c (λ c,
  await roomId <- required roomId;
  raise_if negb (match content with JObj _ | JArr _ => true | _ => false end) with bad_request;
  await txnSeed <- required txnSeed;
  if negb (roomBelongsToSide roomId s) then Ret refused else
  match actorFor s c with
  | None => Ret refused
  | Some actor =>
      await q <- prepare s actor as_representative "PUT" (room_path roomId ("/send/" +:+ Uri.encodeURIComponent msgType +:+ "/" +:+ txnId sha256 txnSeed)) [] (Some content);
      reporting (await data <- fetch_ok q; await eventId <- id_in data "event_id"; Ret (MkOutcome true false (JStr eventId) None))
  end).

(** ** Every call *)

Inductive Op : Type :=
| Ensure (c : option ProjectSides.Credential) (localpart password : string)
| Mint (c : option ProjectSides.Credential) (localpart password : string)
| CreateRoom (c : option ProjectSides.Credential) (name : jval) (topic : string) (invite : list string) (encrypted powers : jval) (isDirect : bool)
| ProbeFederation (c : option ProjectSides.Credential) (probeMxid : string)
| ResolveAlias (c : option ProjectSides.Credential) (alias : string)
| Knock (c : option ProjectSides.Credential) (aliasOrRoomId reason : string)
| Invite (c : option ProjectSides.Credential) (roomId userId : jval) (reason : string)
| CanInvite (c : ProjectSides.Credential) (roomId : string)
| RoomName (c : ProjectSides.Credential) (roomId : string)
| JoinedMembers (c : ProjectSides.Credential) (roomId : string)
| RoomState (c : ProjectSides.Credential) (roomId : string)
| Messages (c : ProjectSides.Credential) (roomId from to limit dir : string)
| JoinAsAgent (c : option ProjectSides.Credential) (roomId agentUserId : jval) (roster : option (string → bool))
| LeaveAsAgent (c : option ProjectSides.Credential) (roomId agentUserId : jval) (roster : option (string → bool))
| JoinAsRepresentative (c : option ProjectSides.Credential) (roomId : jval)
| LeaveAsRepresentative (c : option ProjectSides.Credential) (roomId : string)
| Send (c : option ProjectSides.Credential) (roomId content txnSeed : jval) (msgType : string).

Inductive Report : Type :=
| OfEnsure (r : Ensured) | OfMint (r : Minted) | OfAct (o : Outcome) | OfProbe (federation : string)
| OfPower (p : Power) | OfName (n : option string) | OfMembers (m : Members) | OfState (l : list jval) | OfPage (p : Backfill.Page).

Definition map {A B} (f : A → B) (p : prog A) : prog B := bind p (λ a, Ret (f a)).

Definition perform (sha256 : string → string) (until : string → option Z) (s : Side) (op : Op) : prog Report :=
  match op with
  | Ensure c l p => map OfEnsure (ensureRepresentative s c l p)
  | Mint c l p => map OfMint (mintAgentIdentity s c l p)
  | CreateRoom c n t i e p d => map OfAct (createRoomOnSide s c n t i e p d)
  | ProbeFederation c m => map OfProbe (probeFederationFromSide s c m)
  | ResolveAlias c a => map OfAct (resolveAliasOnSide s c a)
  | Knock c a r => map OfAct (knockOnRoomOnSide s c a r)
  | Invite c r u w => map OfAct (inviteToRoomOnSide s c r u w)
  | CanInvite c r => map OfPower (canRepresentativeInvite s c r)
  | RoomName c r => map OfName (roomNameOnSide s c r)
  | JoinedMembers c r => map OfMembers (joinedMembersOnSide until s c r)
  | RoomState c r => map OfState (roomStateOnSide s c r)
  | Messages c r f t l d => map OfPage (roomMessagesOnSide s c r f t l d)
  | JoinAsAgent c r a k => map OfAct (joinRoomOnSideAsAgent s c r a k)
  | LeaveAsAgent c r a k => map OfAct (leaveRoomOnSideAsAgent s c r a k)
  | JoinAsRepresentative c r => map OfAct (joinRoomOnSideAsRepresentative s c r)
  | LeaveAsRepresentative c r => map OfAct (leaveRoomOnSideAsRepresentative s c r)
  | Send c r b t m => map OfAct (sendToRoomOnSide sha256 s c r b t m)
  end.

End side.
End MatrixSide.
