(* ===== verification/MatrixSideFacts.v ===== *)
(** * What a side's calls may do, and what their reports rest on

    Every call of [MatrixSide.perform], against any homeserver: where its tokens go, whom it acts as, and
    which answers stand behind what it reports. *)

From Stdlib Require Import ZArith QArith Lia String Ascii.
From stdpp Require Import base list strings.
From S2P Require Import Prelude OMap Json ProjectSides SyncCollector Backfill HttpProg MatrixSide.
Import HttpProg MatrixSide.
#[local] Open Scope stdpp_scope.
#[local] Open Scope js_scope.

Create HintDb http.

(** ** The claims *)

(** An answer of the call so far. *)
Definition answered (h : history) (f : Z → jval → Prop) : Prop := ∃ q s d ra, (q, Reply s d ra) ∈ h ∧ f s d.

Lemma answered_mono h (f g : Z → jval → Prop) : answered h f → (∀ s d, f s d → g s d) → answered h g.
Proof. intros (q & s & d & ra & Hin & Hf) Hg. exists q, s, d, ra. auto. Qed.

Lemma answered_last h q s d ra (f : Z → jval → Prop) : f s d → answered (h ++ [(q, Reply s d ra)]) f.
Proof. intros Hf. exists q, s, d, ra. split; [|done]. apply elem_of_app. right. by apply list_elem_of_singleton. Qed.

Definition credential_of (op : Op) : option ProjectSides.Credential :=
  match op with
  | Ensure c _ _ | Mint c _ _ | CreateRoom c _ _ _ _ _ _ | ProbeFederation c _ | ResolveAlias c _ | Knock c _ _ | Invite c _ _ _
  | JoinAsAgent c _ _ _ | LeaveAsAgent c _ _ _ | JoinAsRepresentative c _ | LeaveAsRepresentative c _ | Send c _ _ _ _ => c
  | CanInvite c _ | RoomName c _ | JoinedMembers c _ | RoomState c _ | Messages c _ _ _ _ _ => Some c
  end.

(** The token that a credential acts with. *)
Definition own_token (c : option ProjectSides.Credential) (t : string) : Prop :=
  match c with
  | Some (ProjectSides.Appservice _ asToken _ _ _ _) => t = asToken
  | Some (ProjectSides.RegistrationToken _ representativeToken) => representativeToken = Some t
  | None => False
  end.

Section facts.
Context (num_str : num → string) (str_num : string → num) (validURL : string → bool) (regExp : string → option (string → bool)).

(** A token that the server has just issued. *)
Definition issued (h : history) (t : string) : Prop := answered h (λ _ d, to_bool (prop d "access_token") = true ∧ t = to_str num_str (prop d "access_token")).

(** Requests go to the side's own server with the side's own token, or with one which that server issued in
    this very call; only a registration goes without. *)
Definition stays_home (s : Side) (op : Op) (h : history) (q : request) : Prop :=
  base q = ProjectSides.strip_slashes (apiBaseUrl s) ∧
  match bearer q with
  | Some t => own_token (credential_of op) t ∨ issued h t
  | None => path q = "/_matrix/client/v3/register"
  end.

(** Whom an operation of an application service may act as. *)
Definition may_act_as (s : Side) (op : Op) (ns sender u : string) : Prop :=
  u = representativeOf s sender ∨
  match op with
  | Mint _ wanted _ => u = "@" +:+ lower (trim wanted) +:+ ":" +:+ serverName s ∧ ∃ test, regExp ("^" +:+ ns +:+ "$") = Some test ∧ test u = true
  | JoinAsAgent _ _ agent roster | LeaveAsAgent _ _ agent roster =>
      agent = JStr u ∧ (∃ known, roster = Some known ∧ known (trim u) = true) ∧ (truthy ns = true → namespaceAdmits regExp (Some ns) (trim u) = true)
  | _ => False
  end.

Definition authorised (s : Side) (op : Op) (q : request) : Prop := ∀ u, ("user_id", u) ∈ query q → ∃ t asToken hs url ns sender,
  credential_of op = Some (ProjectSides.Appservice t asToken hs url ns sender) ∧ bearer q = Some asToken ∧ masquerade_id (trim u) = true ∧ may_act_as s op ns sender u.

Definition allowed (s : Side) (op : Op) (h : history) (q : request) : Prop := stays_home s op h q ∧ authorised s op q.

(** What a failure's class rests on. *)
Definition verdict (h : history) (failure : option string) : Prop :=
  (failure = Some "rejected" → answered h (λ s _, s = 401 ∨ s = 403)) ∧
  (failure = Some "blocked" → answered h (λ _ d, prop d "errcode" = JStr "M_USER_IN_USE")).

Definition accepts (s : Z) (d : jval) : Prop := ok s = true ∨ to_bool (prop d "access_token") = true.

(** What a report rests on. *)
Definition evidence (h : history) (r : Report) : Prop :=
  let read := answered h (λ s _, ok s = true) in
  match r with
  | OfEnsure e => (accessState e = "accepted" → answered h accepts) ∧ verdict h (Some (accessState e))
  | OfMint m => (minted m = true → answered h accepts) ∧ verdict h (m_state m)
  | OfAct o => (done_ o = true → read) ∧ (already o = true → answered h (λ s _, s = 403)) ∧ verdict h (failure o)
  | OfProbe f => f = "federates" → read
  | OfPower UnknownPower | OfMembers (UnknownMembers _ _) | OfName None => True
  | OfPower _ | OfMembers _ | OfName _ | OfState _ => read
  | OfPage p => Backfill.known p = true → read
  end.

(** ** Building blocks *)

(** What an error that was thrown rests on. *)
Definition grounded (h : history) (e : error) : Prop :=
  (∀ st, status e = Some st → answered h (λ s _, s = st)) ∧ (∀ c, errcode e = Some c → answered h (λ _ d, prop d "errcode" = JStr c)).

Lemma coded_grounded h c : grounded h (coded c). Proof. by split. Qed.
Lemma plain_grounded h : grounded h plain. Proof. by split. Qed.
Lemma bad_request_grounded h : grounded h bad_request. Proof. by split. Qed.
Lemma refusal_grounded h q s d ra : grounded (h ++ [(q, Reply s d ra)]) (matrixError s d).
Proof.
  split; cbn; intros ? H; apply answered_last; [by injection H as ->|]. unfold text_member in H. destruct (prop d "errcode"); try done. by injection H as ->.
Qed.

Lemma classified h e : grounded h e → verdict h (Some (classifyMatrixFailure e)).
Proof.
  intros [Hs He]. unfold classifyMatrixFailure, verdict. split; intros H.
  - case_bool_decide as H1; [by eapply answered_mono; [by apply Hs|]; intros s _ ->; left|].
    case_bool_decide as H2; [by eapply answered_mono; [by apply Hs|]; intros s _ ->; right|]. cbn in H. by case_bool_decide.
  - case_bool_decide; [done|]. case_bool_decide; [done|]. cbn in H. case_bool_decide; [|done]. by apply He.
Qed.

#[local] Hint Resolve coded_grounded bad_request_grounded plain_grounded refusal_grounded : http.

Section blocks.
Context (P : history → request → Prop).

Lemma raise_spec {A} (R : history → A → Prop) (E : history → error → Prop) h (b : bool) e p :
  (b = true → E h e) → (b = false → spec P R E h p) → spec P R E h (if b then Raise e else p).
Proof. destruct b; cbn; auto. Qed.

Lemma address_spec (R : history → unit → Prop) (E : history → error → Prop) h b p : E h plain → R h tt → spec P R E h (address validURL b p).
Proof. intros. by apply raise_spec. Qed.

Lemma fetch_ok_spec (R : history → jval → Prop) (E : history → error → Prop) h q : P h q →
  (∀ s d ra, ok s = true → R (h ++ [(q, Reply s d ra)]) d) → (∀ r e, grounded (h ++ [(q, r)]) e → E (h ++ [(q, r)]) e) → spec P R E h (fetch_ok q).
Proof.
  intros Hq HR HE. apply spec_bind, spec_fetch; [done| |apply HE, plain_grounded]. intros s d ra. apply raise_spec.
  - intros _. apply HE, refusal_grounded.
  - intros Hs%negb_false_iff. by eapply HR.
Qed.

Lemma id_in_spec (R : history → string → Prop) (E : history → error → Prop) h d k : E h (coded "matrix_error") → (∀ t, R h t) → spec P R E h (id_in d k).
Proof. intros. apply raise_spec; [done|]. intros _. cbn. auto. Qed.

Lemma catching_spec {A} (R : history → A → Prop) (E : history → error → Prop) h p (g : error → A) :
  spec P R grounded h p → (∀ h e, grounded h e → R h (g e)) → spec P R E h (catch p (λ e, Ret (g e))).
Proof. intros Hp HR. apply spec_catch. eapply spec_mono; [done|done|]. intros h' e He. cbn. auto. Qed.

Lemma reporting_spec (R : history → Outcome → Prop) (E : history → error → Prop) h p :
  spec P R grounded h p → (∀ h e, grounded h e → R h (failed e)) → spec P R E h (reporting p).
Proof. apply catching_spec. Qed.

Lemma not_failing_spec {A} (R : history → A → Prop) (E E' : history → error → Prop) h p (other : A) :
  spec P R E' h p → (∀ h, R h other) → spec P R E h (not_failing p other).
Proof. intros Hp HR. apply spec_catch. eapply spec_mono; [done|done|]. intros h' e _. cbn. auto. Qed.

Lemma required_spec (R : history → string → Prop) (E : history → error → Prop) h v : E h bad_request → (∀ t, v = JStr t → R h t) → spec P R E h (required v).
Proof. intros HE HR. destruct v; cbn; try done. apply raise_spec; [done|]. intros _. cbn. auto. Qed.

Lemma mxid_spec (R : history → string → Prop) (E : history → error → Prop) h v : E h bad_request → (∀ t, v = JStr t → R h t) → spec P R E h (mxid_arg v).
Proof. intros HE HR. apply spec_bind, required_spec; [done|]. intros t ->. apply raise_spec; [done|]. intros _. cbn. auto. Qed.

Lemma given_spec {A} (R : history → A → Prop) (E : history → error → Prop) h s c k :
  E h bad_request → (∀ c', c = Some c' → spec P R E h (k c')) → spec P R E h (given s c k).
Proof. intros HE Hk. apply raise_spec; [done|]. intros _. destruct c; cbn; auto. Qed.

End blocks.

(** ** Accounts *)

Section account.
Context (s : Side) (op : Op).
Abbreviation allowed := (allowed s op).

(** [setMasqueradeUserParam] for an account that the operation may act as. *)
Lemma acting_spec (R : history → list (string * string) → Prop) (E : history → error → Prop) h asUserId o :
  (∀ c, E h (coded c)) → R h [] → (∀ u, asUserId = Some u → validateMasqueradeUserId regExp u o = true → R h [("user_id", u)]) →
  spec allowed R E h (actingAs regExp asUserId o).
Proof.
  intros HE H0 HR. unfold actingAs. destruct asUserId as [u|]; [|done]. unfold truthy_opt. destruct (truthy u); [|done].
  apply raise_spec; [done|]. intros Hv%negb_false_iff. cbn. by apply HR.
Qed.

Lemma valid_masquerade u o : validateMasqueradeUserId regExp u o = true → masquerade_id (trim u) = true.
Proof. unfold validateMasqueradeUserId. intros [[? _]%andb_true_iff _]%andb_true_iff. done. Qed.

Lemma whoami_spec (R : history → string * option string → Prop) (E : history → error → Prop) h b token asUserId :
  joinUrl b = ProjectSides.strip_slashes (apiBaseUrl s) → own_token (credential_of op) (to_str num_str token) ∨ issued h (to_str num_str token) →
  (∀ u, asUserId = Some u → masquerade_id (trim u) = true → authorised s op (MkRequest "GET" (joinUrl b) "/_matrix/client/v3/account/whoami" [("user_id", u)] (Some (to_str num_str token)) None)) →
  (∀ h w, answered h (λ s _, ok s = true) → R h w) → (∀ h e, grounded h e → E h e) → spec allowed R E h (whoami num_str validURL regExp b token asUserId).
Proof.
  intros Hb Ht Ha HR HE. apply raise_spec; [auto with http|intros _]. apply raise_spec; [auto with http|intros _].
  apply spec_bind, address_spec; [auto with http|]. apply spec_bind.
  assert (Hq : ∀ q, authorised s op (MkRequest "GET" (joinUrl b) "/_matrix/client/v3/account/whoami" q (Some (to_str num_str token)) None) →
    spec allowed R E h (await r <- fetch (MkRequest "GET" (joinUrl b) "/_matrix/client/v3/account/whoami" q (Some (to_str num_str token)) None);
      let '(st, data, _) := r in raise_if negb (ok st) with matrixError st data;
      let userId := trim (default EmptyString (text_member data "user_id")) in raise_if negb (truthy userId) with coded "matrix_error"; Ret (userId, trim <$> text_member data "device_id"))).
  { intros q Hq. apply spec_bind, spec_fetch; [by split; [split|]| |auto with http]. intros st d ra.
    apply raise_spec; [auto with http|intros Hok%negb_false_iff]. apply raise_spec; [auto with http|intros _]. apply HR. by apply answered_last. }
  apply acting_spec; [auto with http|apply Hq; by intros u ?%elem_of_nil|]. intros u Hu Hv%valid_masquerade. apply Hq. by apply Ha.
Qed.

Lemma register_spec (R : history → jval * jval → Prop) (E : history → error → Prop) h token l p :
  (∀ h t u, issued h (to_str num_str t) → answered h accepts → R h (t, u)) → (∀ h e, grounded h e → E h e) →
  spec allowed R E h (registerRepresentative (apiBaseUrl s) token l p).
Proof.
  intros HR HE. apply raise_spec; [auto with http|intros _]. apply raise_spec; [auto with http|intros _].
  assert (Hreq : ∀ h body, allowed h (MkRequest "POST" (joinUrl (apiBaseUrl s)) "/_matrix/client/v3/register" [] None (Some body))).
  { intros h' body. split; [done|]. by intros u ?%elem_of_nil. }
  apply spec_bind, spec_fetch; [apply Hreq| |auto with http]. intros st d ra. destruct (to_bool (prop d "access_token")) eqn:Htok.
  - apply HR; apply answered_last; [done|by right].
  - apply raise_spec; [auto with http|intros _]. apply spec_bind, spec_fetch; [apply Hreq| |auto with http]. intros st' d' ra'.
    apply raise_spec; [auto with http|]. intros [_ Ht%negb_false_iff]%orb_false_iff. apply HR; apply answered_last; [done|by right].
Qed.

Lemma registered_spec (R : history → jval * jval → Prop) (E : history → error → Prop) h token l p :
  (∀ h r, answered h accepts → R h r) → (∀ h e, grounded h e → E h e) → spec allowed R E h (registered num_str validURL regExp s token l p).
Proof.
  intros HR HE. apply spec_bind, register_spec; [|done]. intros h' t u Hi Ha. destruct (to_bool u); [by apply HR|].
  apply spec_bind, whoami_spec; [done|by right|done| |done]. intros h'' w Hok. cbn. apply HR. by eapply answered_mono; [|intros ? ? ?; left].
Qed.

(** ** The representative *)

Lemma representative_may t asToken hs url ns sender m b p body query :
  credential_of op = Some (ProjectSides.Appservice t asToken hs url ns sender) → (∀ u, ("user_id", u) ∉ query) → masquerade_id (trim (representativeOf s sender)) = true →
  authorised s op (MkRequest m b p (query ++ [("user_id", representativeOf s sender)]) (Some asToken) body).
Proof.
  intros Hc Hq Hid u [Hu|Hu%list_elem_of_singleton]%elem_of_app; [by apply Hq in Hu|]. injection Hu as ->.
  exists t, asToken, hs, url, ns, sender. split_and!; [done|done|done|by left].
Qed.

Lemma prepare_spec (R : history → request → Prop) (E : history → error → Prop) h c actor m p query body :
  credential_of op = Some c → actorFor s c = Some actor → (∀ u, ("user_id", u) ∉ query) →
  (∀ q, (∀ h, allowed h q) → R h q) → (∀ e, grounded h e → E h e) → spec allowed R E h (prepare validURL regExp s actor as_representative m p query body).
Proof.
  intros Hc Ha Hq HR HE. apply spec_bind, address_spec; [auto with http|]. apply spec_bind.
  assert (Hown : own_token (credential_of op) actor.1).
  { rewrite Hc. destruct c as [? ? ? ? ? ?|? rt]; cbn in *; [by injection Ha as <-|]. destruct rt as [r|]; cbn in *; [|done]. unfold truthy_opt in Ha. destruct (truthy r); [|done]. by injection Ha as <-. }
  apply acting_spec; [auto with http| |].
  - apply HR. intros h'. split; [by split; [|left]|]. rewrite app_nil_r. by intros u ?%Hq.
  - intros u Hu Hv%valid_masquerade. apply HR. intros h'. split; [by split; [|left]|].
    destruct c as [t asToken hs url ns sender|? rt]; cbn in Ha; [|by destruct (truthy_opt rt); [injection Ha as <-|]]. injection Ha as <-. injection Hu as <-. by eapply representative_may.
Qed.

Lemma joining_actor c token asUserId : actorFor s c = Some (token, asUserId) →
  (token, match truthy_opt asUserId with Some u => Some (default u (truthy_opt (representative s))) | None => None end) = (token, truthy_opt asUserId).
Proof.
  intros H. destruct c as [? ? ? ? ? sender|? rt]; cbn in H; [|by destruct (truthy_opt rt); [injection H as <- <-|]]. injection H as <- <-.
  unfold representativeOf. destruct (truthy_opt (representative s)) eqn:Hr; cbn; [|by destruct (truthy _)]. f_equal.
  unfold truthy_opt in *. destruct (representative s) as [m|]; [|done]. destruct (truthy m) eqn:Hm; [|done]. injection Hr as ->. by rewrite Hm.
Qed.

Lemma prepare_truthy token asUserId o m p query body :
  prepare validURL regExp s (token, truthy_opt asUserId) o m p query body = prepare validURL regExp s (token, asUserId) o m p query body.
Proof.
  unfold prepare. cbn [fst snd]. unfold actingAs, truthy_opt. destruct asUserId as [u|]; [|done]. destruct (truthy u) eqn:Hu; [by rewrite Hu|done].
Qed.

(** ** Reports *)

Lemma refused_evidence h : evidence h (OfAct refused).
Proof. by split_and!. Qed.
Lemma failed_evidence h e : grounded h e → evidence h (OfAct (failed e)).
Proof. intros H. split_and!; [done|done|by apply classified]. Qed.
Lemma acted_evidence h a : answered h (λ s _, ok s = true) → evidence h (OfAct (MkOutcome true false a None)).
Proof. intros H. by split; [|split; [|split]]. Qed.
Lemma there_evidence h q st d ra : already_there num_str st d = true → evidence (h ++ [(q, Reply st d ra)]) (OfAct (MkOutcome false true JNull None)).
Proof. intros [->%Z.eqb_eq _]%andb_true_iff. split; [done|split; [by intros _; apply answered_last|by split]]. Qed.

(** ** Operations that act *)

Abbreviation acts p := (∀ h, spec allowed (λ h o, evidence h (OfAct o)) (λ _ _, True) h p).

Lemma sent_spec (k : jval → prog Outcome) h q : (∀ h, allowed h q) →
  (∀ h d, answered h (λ s _, ok s = true) → spec allowed (λ h o, evidence h (OfAct o)) grounded h (k d)) →
  spec allowed (λ h o, evidence h (OfAct o)) (λ _ _, True) h (reporting (bind (fetch_ok q) k)).
Proof.
  intros Hq Hk. apply reporting_spec; [|auto using failed_evidence]. apply spec_bind, fetch_ok_spec; [done| |done].
  intros st d ra Hok. by apply Hk, answered_last.
Qed.

(** The representative's request after the checks, where it can act at all. *)
Lemma representative_spec {A} (R : history → A → Prop) c m p query body (none : prog A) k h :
  credential_of op = Some c → (∀ u, ("user_id", u) ∉ query) → spec allowed R (λ _ _, True) h none →
  (∀ actor q, (∀ h, allowed h q) → spec allowed R (λ _ _, True) h (k actor q)) →
  spec allowed R (λ _ _, True) h (match actorFor s c with None => none | Some actor => await q <- prepare validURL regExp s actor as_representative m p query body; k actor q end).
Proof. intros Hc Hq Hn Hk. destruct (actorFor s c) as [actor|] eqn:Ha; [|done]. apply spec_bind. eapply prepare_spec; [done|done|done|auto|done]. Qed.

Lemma id_sent h d k (f : string → Outcome) : (∀ t, evidence h (OfAct (f t))) → spec allowed (λ h o, evidence h (OfAct o)) grounded h (await t <- id_in d k; Ret (f t)).
Proof. intros Hf. apply spec_bind, id_in_spec; [apply coded_grounded|]. done. Qed.

Lemma create_spec c n t i e w d : credential_of op = c → acts (createRoomOnSide validURL regExp s c n t i e w d).
Proof.
  intros Hc h. apply given_spec; [done|]. intros c' ->. destruct e as [| |[]| | | | |]; try done.
  apply spec_bind, required_spec; [done|]. intros name _. apply representative_spec; [done|by intros ? ?%elem_of_nil|apply refused_evidence|].
  intros ac q Hq. apply sent_spec; [done|]. intros h' data Hok. apply id_sent. intros id. destruct (String.eqb _ _); [by apply acted_evidence|apply refused_evidence].
Qed.

Lemma resolve_spec c a : credential_of op = c → acts (resolveAliasOnSide validURL regExp s c a).
Proof.
  intros Hc h. apply given_spec; [done|]. intros c' ->. apply raise_spec; [done|intros _]. destruct (negb _); [apply refused_evidence|].
  apply representative_spec; [done|by intros ? ?%elem_of_nil|apply refused_evidence|].
  intros ac q Hq. apply sent_spec; [done|]. intros h' data Hok. apply id_sent. intros id. by apply acted_evidence.
Qed.

Lemma asking_spec h q (k : Z → jval → prog Outcome) : (∀ h, allowed h q) →
  (∀ st d ra, spec allowed (λ h o, evidence h (OfAct o)) grounded (h ++ [(q, Reply st d ra)]) (k st d)) →
  spec allowed (λ h o, evidence h (OfAct o)) (λ _ _, True) h (reporting (await r <- fetch q; let '(st, data, _) := r in k st data)).
Proof. intros Hq Hk. apply reporting_spec; [|auto using failed_evidence]. apply spec_bind, spec_fetch; [done|done|apply plain_grounded]. Qed.

Lemma knock_spec c a w : credential_of op = c → acts (knockOnRoomOnSide num_str validURL regExp s c a w).
Proof.
  intros Hc h. apply given_spec; [done|]. intros c' ->. apply raise_spec; [done|intros _]. destruct (negb _); [apply refused_evidence|].
  apply representative_spec; [done|by intros ? ?%elem_of_nil|apply refused_evidence|].
  intros ac q Hq. apply asking_spec; [done|]. intros st d ra. destruct (ok st) eqn:Hok; [by apply acted_evidence, answered_last|].
  destruct (already_there _ _ _) eqn:Ht; [by apply there_evidence|]. destruct (strict_eq _ _); [by split_and!|apply refusal_grounded].
Qed.

Lemma invite_spec c r u w : credential_of op = c → acts (inviteToRoomOnSide num_str validURL regExp s c r u w).
Proof.
  intros Hc h. apply given_spec; [done|]. intros c' ->. apply spec_bind, required_spec; [done|]. intros r' _. apply spec_bind, mxid_spec; [done|]. intros u' _.
  destruct (negb _); [apply refused_evidence|]. apply representative_spec; [done|by intros ? ?%elem_of_nil|apply refused_evidence|].
  intros ac q Hq. apply asking_spec; [done|]. intros st d ra. destruct (ok st) eqn:Hok; [by apply acted_evidence, answered_last|].
  destruct (already_there _ _ _) eqn:Ht; [by apply there_evidence|apply refusal_grounded].
Qed.

Lemma send_spec sha256 c r b x m : credential_of op = c → acts (sendToRoomOnSide validURL regExp sha256 s c r b x m).
Proof.
  intros Hc h. apply given_spec; [done|]. intros c' ->. apply spec_bind, required_spec; [done|]. intros r' _. apply raise_spec; [done|intros _].
  apply spec_bind, required_spec; [done|]. intros x' _. destruct (negb _); [apply refused_evidence|]. apply representative_spec; [done|by intros ? ?%elem_of_nil|apply refused_evidence|].
  intros ac q Hq. apply sent_spec; [done|]. intros h' data Hok. apply id_sent. intros id. by apply acted_evidence.
Qed.

Lemma leave_spec c r : credential_of op = c → acts (leaveRoomOnSideAsRepresentative validURL regExp s c r).
Proof.
  intros Hc h. destruct c as [c|]; [|apply refused_evidence]. unfold leaveRoomOnSideAsRepresentative. destruct (negb _); [apply refused_evidence|].
  destruct (actorFor s c) as [actor|] eqn:Ha; [|apply refused_evidence]. apply not_failing_spec with (E' := λ _ _, True); [|apply refused_evidence].
  apply spec_bind. eapply prepare_spec; [done|done|by intros ? ?%elem_of_nil| |done]. intros q Hq.
  apply spec_bind, fetch_ok_spec; [done| |done]. intros st d ra Hok. by apply acted_evidence, answered_last.
Qed.

Lemma join_spec c r : credential_of op = c → acts (joinRoomOnSideAsRepresentative validURL regExp s c r).
Proof.
  intros Hc h. apply given_spec; [done|]. intros c' ->. apply spec_bind, required_spec; [done|]. intros r' _. destruct (negb _); [apply refused_evidence|].
  destruct (actorFor s c') as [[token asUserId]|] eqn:Ha; [|apply refused_evidence]. pose proof (joining_actor _ _ _ Ha) as Hj.
  assert (Hgo : spec allowed (λ h o, evidence h (OfAct o)) (λ _ _, True) h
    (await q <- prepare validURL regExp s (token, match truthy_opt asUserId with Some u => Some (default u (truthy_opt (representative s))) | None => None end) as_representative "POST" (join_path r') [] (Some (JObj []));
     reporting (await data <- fetch_ok q; Ret (joined_room r' data)))).
  { rewrite Hj, prepare_truthy. apply spec_bind. eapply prepare_spec; [done|done|by intros ? ?%elem_of_nil| |done]. intros q Hq. apply sent_spec; [done|]. intros h' data Hok. by apply acted_evidence. }
  destruct (truthy_opt (representative s)), (truthy_opt asUserId); try exact Hgo. apply refused_evidence.
Qed.

(** ** Agents *)

Definition agent_allowed (a : jval) (roster : option (string → bool)) (ns u : string) : Prop :=
  a = JStr u ∧ (∃ known, roster = Some known ∧ known (trim u) = true) ∧ (truthy ns = true → namespaceAdmits regExp (Some ns) (trim u) = true).

Lemma agent_valid a roster ns l u : a = JStr u → String.prefix "agent-" l = true → validateMasqueradeUserId regExp u (agent_masquerade ns roster l) = true →
  agent_allowed a roster ns u.
Proof.
  intros -> Hl [[_ Hr]%andb_true_iff Hn]%andb_true_iff. split; [done|]. cbn in Hr, Hn. split.
  - destruct roster as [known|]; [by exists known|]. by rewrite Hl in Hr.
  - intros Hns. unfold truthy_opt in Hn. by rewrite Hns in Hn.
Qed.

Lemma agent_spec c r a roster l path report : credential_of op = c → String.prefix "agent-" l = true →
  (∀ ns sender u, agent_allowed a roster ns u → may_act_as s op ns sender u) → (∀ r d, ∃ x, report r d = MkOutcome true false x None) →
  acts (asAgent validURL regExp s c r a roster l path report).
Proof.
  intros Hc Hl Hmay Hrep h. apply given_spec; [done|]. intros c' ->. apply spec_bind, required_spec; [done|]. intros r' _. apply spec_bind, mxid_spec; [done|]. intros u Hu.
  destruct c' as [t asToken hs url ns sender|? ?]; [|apply refused_evidence]. destruct (negb (roomBelongsToSide _ _)); [apply refused_evidence|].
  apply spec_bind, address_spec; [done|]. destruct (validateMasqueradeUserId _ _ _) eqn:Hv; [|apply refused_evidence]. apply sent_spec.
  - intros h'. split; [split; [done|]; left; by rewrite Hc|]. intros u' [= ->]%list_elem_of_singleton. exists t, asToken, hs, url, ns, sender.
    split_and!; [done|done|by eapply valid_masquerade|]. by apply Hmay, (agent_valid _ _ _ l).
  - intros h' d Hok. destruct (Hrep r' d) as [x Hx]. cbn. rewrite Hx. by apply acted_evidence.
Qed.

(** ** Accounts and reads *)

Lemma lost_spec h e : grounded h e → evidence h (OfEnsure (MkEnsured (classifyMatrixFailure e) JNull None)).
Proof.
  intros H. split; [|by apply classified]. cbn. unfold classifyMatrixFailure. destruct (_ || _); [done|]. by case_bool_decide.
Qed.

Lemma accepted_evidence h m p : answered h accepts → evidence h (OfEnsure (MkEnsured "accepted" m p)).
Proof. by split; [|split]. Qed.

Lemma ok_accepts h : answered h (λ s _, ok s = true) → answered h accepts.
Proof. intros H. by eapply answered_mono; [|intros ? ? ?; left]. Qed.

Lemma ensure_spec c l p h : credential_of op = c → spec allowed (λ h e, evidence h (OfEnsure e)) (λ _ _, True) h (ensureRepresentative num_str validURL regExp s c l p).
Proof.
  intros Hc. apply raise_spec; [done|intros _]. destruct c as [[t asToken hs url ns sender|reg rt]|]; [| |by split; [|split]].
  - apply catching_spec; [|intros h' e; apply lost_spec].
    apply spec_bind, whoami_spec; [done|left; by rewrite Hc| |intros h' w Hok; by apply accepted_evidence, ok_accepts|done].
    intros u [= <-] Hid. apply (representative_may t _ hs url ns _ _ _ _ _ []); [done|by intros ? ?%elem_of_nil|done].
  - destruct (truthy_opt rt) as [token|] eqn:Hrt.
    + apply catching_spec; [|intros h' e; apply lost_spec].
      apply spec_bind, whoami_spec; [done| |done|intros h' w Hok; by apply accepted_evidence, ok_accepts|done].
      left. rewrite Hc. cbn. unfold truthy_opt in Hrt. destruct rt as [x|]; [|done]. destruct (truthy x); [|done]. by injection Hrt as ->.
    + destruct (negb _); [by split; [|split]|]. apply catching_spec; [|intros h' e; apply lost_spec].
      apply spec_bind, registered_spec; [|done]. intros h' r Ha. by apply accepted_evidence.
Qed.

Lemma unminted_evidence h e c : grounded h e → evidence h (OfMint (MkMinted false JNull JNull (Some (classifyMatrixFailure e)) c)).
Proof. intros H. split; [done|by apply classified]. Qed.

Lemma mint_spec c l p h : op = Mint c l p → spec allowed (λ h e, evidence h (OfMint e)) (λ _ _, True) h (mintAgentIdentity num_str validURL regExp s c l p).
Proof.
  intros Hop. assert (Hc : credential_of op = c) by (by rewrite Hop). apply raise_spec; [done|intros _]. destruct c as [c|]; [|done]. apply raise_spec; [done|intros _].
  destruct c as [t asToken hs url ns sender|reg rt].
  - destruct (regExp _) as [test|] eqn:Hre; [|by split; [|split]]. cbv zeta beta iota; destruct (test _) eqn:Htest; cbn [negb]; [|by split; [|split]].
    apply catching_spec; [|intros h' e; apply unminted_evidence].
    apply spec_bind, whoami_spec; [done|left; by rewrite Hc| |intros h' w Hok; split; [intros _; by apply ok_accepts|by split]|done].
    intros u [= <-] Hid u' [= ->]%list_elem_of_singleton. exists t, asToken, hs, url, ns, sender. split_and!; [done|done|done|]. right. rewrite Hop. split; [done|]. by exists test.
  - destruct (negb _); [by split; [|split]|]. apply catching_spec; [|intros h' e; apply unminted_evidence].
    apply spec_bind, registered_spec; [|done]. intros h' r Ha. split; [done|by split].
Qed.

(** A read whose failure is an answer too. *)
Lemma read_spec {A} (R : history → A → Prop) (E : history → error → Prop) (other : A) (k : Z * jval * jval → prog A) h q : (∀ h, allowed h q) → (∀ h, R h other) →
  (∀ st d ra, spec allowed R (λ _ _, True) (h ++ [(q, Reply st d ra)]) (k (st, d, ra))) → spec allowed R E h (not_failing (bind (fetch q) k) other).
Proof. intros Hq Ho Hk. apply not_failing_spec with (E' := λ _ _, True); [|done]. apply spec_bind, spec_fetch; [done|auto|done]. Qed.

End account.

(** ** Every operation *)

Lemma map_spec {A} P (R : history → Report → Prop) E h (f : A → Report) p : spec P (λ h a, R h (f a)) E h p → spec P R E h (MatrixSide.map f p).
Proof. apply (spec_bind P R E h p (λ a, Ret (f a))). Qed.

Lemma perform_spec sha256 until s op h : spec (allowed s op) evidence (λ _ _, True) h (perform num_str str_num validURL regExp sha256 until s op).
Proof.
  destruct op as [c l p|c l p|c n t i e w d|c m|c a|c a r|c r u w|c r|c r|c r|c r|c r f t l d|c r a k|c r a k|c r|c r|c r b x m]; cbn [perform]; apply map_spec.
  - by apply ensure_spec.
  - by apply mint_spec.
  - by apply create_spec.
  - apply given_spec; [done|]. intros c' ->. apply raise_spec; [done|intros _]. destruct (String.eqb _ _); [done|]. apply representative_spec; [done|by intros ? ?%elem_of_nil|done|].
    intros ac q Hq. apply read_spec; [done|done|]. intros st d ra. cbn.
    destruct (ok st) eqn:Hok; [intros _; by apply answered_last|by destruct (strict_eq _ _)].
  - by apply resolve_spec.
  - by apply knock_spec.
  - by apply invite_spec.
  - unfold canRepresentativeInvite, joinedMembersOnSide, roomStateOnSide. apply representative_spec; [done|by intros ? ?%elem_of_nil|done|]. intros ac q Hq. apply read_spec; [done|done|]. intros st d ra. cbn. destruct (ok st) eqn:Hok; [by apply answered_last|done].
  - unfold roomNameOnSide. destruct (negb _); [done|]. apply representative_spec; [done|by intros ? ?%elem_of_nil|done|]. intros ac q Hq. apply spec_bind, spec_fetch; [done| |done].
    intros st d ra. cbn. destruct (ok st) eqn:Hok; [|done]. destruct (text_member d "name"); [by apply answered_last|done].
  - unfold canRepresentativeInvite, joinedMembersOnSide, roomStateOnSide. apply representative_spec; [done|by intros ? ?%elem_of_nil|done|]. intros ac q Hq. apply read_spec; [done|done|]. intros st d ra. cbn. destruct (ok st) eqn:Hok; [by apply answered_last|done].
  - unfold canRepresentativeInvite, joinedMembersOnSide, roomStateOnSide. apply representative_spec; [done|by intros ? ?%elem_of_nil|done|]. intros ac q Hq. apply spec_bind, spec_fetch; [done| |done].
    intros st d ra. destruct d; try done. apply raise_spec; [done|]. intros Hok%negb_false_iff. by apply answered_last.
  - unfold roomMessagesOnSide. apply representative_spec; [done| |done|].
    + intros u. destruct (truthy f), (truthy t); cbn; intros H; repeat (apply elem_of_cons in H as [[=]|H]); by apply elem_of_nil in H.
    + intros ac q Hq. apply read_spec; [done|done|]. intros st x ra. cbn. intros Hk. apply answered_last. unfold Backfill.roomMessagesOnSide in Hk. change (SyncCollector.ok st) with (ok st) in Hk. by destruct (ok st).
  - apply agent_spec; [done|done|by right|by intros; eexists].
  - apply agent_spec; [done|done|by right|by intros; eexists].
  - by apply join_spec.
  - by apply leave_spec.
  - by apply send_spec.
Qed.

(** C38. The token of a project side never leaves it: whatever operation runs for a side and whatever the
    homeserver answers, every request goes to the base address of that side, and carries the token of that
    side's own credential or one that the same server has issued earlier in the same call; only the
    registration of an account goes without a token. Where [fetch] follows redirects, the [Authorization]
    header goes along within the origin of that address only. *)
Theorem side_tokens_stay_home sha256 until s op server h1 q r h2 :
  h1 ++ (q, r) :: h2 = (run server [] (perform num_str str_num validURL regExp sha256 until s op)).2 →
  stays_home s op h1 q ∧ ∀ p t, p ∈ (exchange (server h1) q).1 → carried p = Some t → hop_origin p = None ∧ bearer q = Some t.
Proof.
  intros H. destruct (run_spec _ _ _ server _ _ (perform_spec sha256 until s op [])) as [_ Hreq].
  split; [by destruct (Hreq h1 q r h2 H)|]. apply hops_keep_token.
Qed.

(** An [as_token] only acts as someone it may: a request that names a [user_id] is made with the token
    of an application service, and the account has the shape of a Matrix id and is the representative, or
    the account that is being minted and lies in the claimed namespace, or the agent that joins or leaves,
    which the roster of the caller knows and the namespace admits. *)
Theorem masquerades_are_authorised sha256 until s op server h1 q r h2 :
  h1 ++ (q, r) :: h2 = (run server [] (perform num_str str_num validURL regExp sha256 until s op)).2 → authorised s op q.
Proof. intros H. destruct (run_spec _ _ _ server _ _ (perform_spec sha256 until s op [])) as [_ Hreq]. by destruct (Hreq h1 q r h2 H). Qed.

(** C39. A report rests on an answer: a credential is called rejected only after a 401 or 403 of this call,
    and blocked only after an answer that says the name is taken; a room, a membership, a message or an
    account counts as made, and a room as read, only after an answer that accepted it. So an outage is
    never a verdict, whatever the requests were. *)
Theorem verdicts_have_evidence sha256 until s op server rep h :
  run server [] (perform num_str str_num validURL regExp sha256 until s op) = (inr rep, h) → evidence h rep.
Proof. intros H. destruct (run_spec _ _ _ server _ _ (perform_spec sha256 until s op [])) as [Hend _]. by rewrite H in Hend. Qed.

End facts.

(** ** A concrete side *)

Module MatrixSideSample.

Definition num_str (n : num) : string := "0".
Definition str_num (s : string) : num := NaN.
Definition validURL (u : string) : bool := String.prefix "https://" u.
(** One pattern is known: agents begin with [ac_]. *)
Definition regExp (p : string) : option (string → bool) := if String.eqb p "^@ac_.*$" then Some (String.prefix "@ac_") else None.
Definition cust : Side := MkSide "https://cust.org/" "cust.org" None.
Definition service : ProjectSides.Credential := ProjectSides.Appservice None "as-secret" "hs-secret" None "@ac_.*" "hagency".
Definition roster (id : string) : bool := String.eqb id "@ac_1:cust.org".
Definition join : Op := JoinAsAgent (Some service) (JStr "!r:cust.org") (JStr "@ac_1:cust.org") (Some roster).
Definition program (op : Op) : prog Report := perform num_str str_num validURL regExp (λ s, s) (λ _, None) cust op.
(** Servers: one that answers, one that sends elsewhere first, one that refuses. *)
Definition answers (s : Z) (data : jval) : history → list hop → hop → response := λ _ _ _, Got s None data JNull.
Definition room : jval := JObj [("room_id", JStr "!r:cust.org")].
Definition joined : history → list hop → hop → response := answers 200 room.
Definition moved (h : history) (past : list hop) (p : hop) : response :=
  match past with
  | [] => Got 307 (Some (Some (MkLocation "https://new.cust.org/join" (Some "https://new.cust.org")))) JNull JNull
  | _ => Got 200 None room JNull
  end.
Definition closed : history → list hop → hop → response := answers 403 JNull.
Definition asked : request := MkRequest "POST" "https://cust.org" "/_matrix/client/v3/join/!r%3Acust.org" [("user_id", "@ac_1:cust.org")] (Some "as-secret") (Some (JObj [])).

End MatrixSideSample.

Lemma side_tokens_stay_home_witness : stays_home MatrixSideSample.num_str MatrixSideSample.cust MatrixSideSample.join [] MatrixSideSample.asked ∧
  ∀ p t, p ∈ [first MatrixSideSample.asked; MkHop (Some (MkLocation "https://new.cust.org/join" (Some "https://new.cust.org"))) "POST" None (Some (JObj []))] →
    carried p = Some t → hop_origin p = None ∧ Some "as-secret" = Some t.
Proof.
  apply (side_tokens_stay_home MatrixSideSample.num_str MatrixSideSample.str_num MatrixSideSample.validURL MatrixSideSample.regExp (λ s, s) (λ _, None)
    MatrixSideSample.cust MatrixSideSample.join MatrixSideSample.moved [] MatrixSideSample.asked (Reply 200 MatrixSideSample.room JNull) []).
  vm_compute. reflexivity.
Defined.

Lemma masquerades_are_authorised_witness : authorised MatrixSideSample.regExp MatrixSideSample.cust MatrixSideSample.join MatrixSideSample.asked.
Proof.
  apply (masquerades_are_authorised MatrixSideSample.num_str MatrixSideSample.str_num MatrixSideSample.validURL MatrixSideSample.regExp (λ s, s) (λ _, None)
    MatrixSideSample.cust MatrixSideSample.join MatrixSideSample.joined [] MatrixSideSample.asked (Reply 200 MatrixSideSample.room JNull) []).
  vm_compute. reflexivity.
Defined.

Lemma verdicts_have_evidence_witness :
  evidence [(MatrixSideSample.asked, Reply 403 JNull JNull)] (OfAct (MkOutcome false false JNull (Some "rejected"))).
Proof.
  apply (verdicts_have_evidence MatrixSideSample.num_str MatrixSideSample.str_num MatrixSideSample.validURL MatrixSideSample.regExp (λ s, s) (λ _, None)
    MatrixSideSample.cust MatrixSideSample.join MatrixSideSample.closed).
  vm_compute. reflexivity.
Defined.

(** An id is checked after it was trimmed, and sent as it was. *)
Example padded_id_is_sent :
  validateMasqueradeUserId MatrixSideSample.regExp "@ac_1:cust.org " (agent_masquerade "@ac_.*" (Some MatrixSideSample.roster) "agent-join") = true ∧
  (∃ h, run MatrixSideSample.joined [] (MatrixSideSample.program (JoinAsAgent (Some MatrixSideSample.service) (JStr "!r:cust.org") (JStr "@ac_1:cust.org ") (Some MatrixSideSample.roster)))
    = (inr (OfAct (MkOutcome true false (JStr "!r:cust.org") None)), h) ∧ query <$> head (fst <$> h) = Some [("user_id", "@ac_1:cust.org ")]).
Proof. split; [reflexivity|]. eexists. split; vm_compute; reflexivity. Qed.

(** Only the header is dropped: a registration token, which travels in the body, follows a 307 anywhere. *)
Example body_follows_redirect :
  let elsewhere := MkLocation "https://evil.org" (Some "https://evil.org") in
  let server (h : history) (past : list hop) (p : hop) :=
    match h, past with
    | [], _ => Got 401 None (JObj [("session", JStr "s")]) JNull
    | _, [] => Got 307 (Some (Some elsewhere)) JNull JNull
    | _, _ => Got 200 None (JObj [("access_token", JStr "t"); ("user_id", JStr "@me:cust.org")]) JNull
    end in
  ∃ q, fst <$> (run server [] (MatrixSideSample.program (Ensure (Some (ProjectSides.RegistrationToken "reg-secret" None)) "me" "pw"))).2 !! 1%nat = Some q ∧
    (λ p, (place p, verb p, (λ b, prop (prop b "auth") "token") <$> sent p)) <$> (exchange (server [(q, NoAnswer)]) q).1
    = [(None, "POST", Some (JStr "reg-secret")); (Some elsewhere, "POST", Some (JStr "reg-secret"))].
Proof. eexists. split; vm_compute; reflexivity. Qed.

(** A refusal that does not say when to ask again is read as one to be repeated at once. *)
Example missing_header_is_zero until : retryAfterMs MatrixSideSample.num_str MatrixSideSample.str_num until JNull JNull = Some 0%Q.
Proof. reflexivity. Qed.

(** A representative with a token of its own is looked up under the name null: its own power is not seen. *)
Example own_power_is_not_read :
  (run (MatrixSideSample.answers 200 (JObj [("invite", JNum (Fin 50)); ("users", JObj [("@me:cust.org", JNum (Fin 100))])])) []
    (canRepresentativeInvite MatrixSideSample.validURL MatrixSideSample.regExp MatrixSideSample.cust (ProjectSides.RegistrationToken "reg" (Some "tok")) "!r:cust.org")).1
  = inr (KnownPower false 50 0).
Proof. vm_compute. reflexivity. Qed.
