(* ===== verification/MatrixWork.v ===== *)
(** * Matrix work ([lib/matrix-work-store.js], [lib/matrix-work-executor.js])

    The backend keeps commands for the Matrix bridge, which holds the credentials: the bridge claims a
    command for a while, carries it out against the homeserver of the side, and reports the outcome. The
    store is [enqueue], [claim] and [complete], each with the outcome of its save; the executor is a
    program of requests that ends in a change of the bridge's credentials and an outcome; [finishWork] is
    the rest of [pollMatrixWork] (bridge-matrix.js). [System] runs both processes with their files, their
    crashes, and messages that are lost, late or repeated. Credentials are read under the name they were
    saved under, and an answer that is the JSON text [null] counts as one that is not JSON. *)

From Stdlib Require Import ZArith QArith Lia String Ascii.
From stdpp Require Import base list strings relations.
From S2P Require Import Prelude OMap Json Uri Store ProjectSides HttpProg MatrixSide.
#[local] Open Scope stdpp_scope.
#[local] Open Scope js_scope.

Module MatrixWork.

(** ** The store *)

Inductive work_state : Type := Pending | Running | Complete.
#[export] Instance work_state_dec : EqDecision work_state.
Proof. solve_decision. Defined.

Record Outcome : Type := MkOutcome { o_ok : bool; o_mxid : option string; o_code : option string; o_eventId : option string }.

Record Row : Type := MkRow {
  id : string; action : string; agent : option string; sideId : string; localpart : jval; roomId : option string; mxid : option string;
  engagementId : option string; content : jval; state : work_state; createdAt : Z;
  claimToken : option string; leaseUntil : Z; retryAt : Z; lastError : option string; outcome : option Outcome; completedAt : Z;
}.
#[export] Instance eta_row : Settable Row := λ r,
  MkRow (id r) (action r) (agent r) (sideId r) (localpart r) (roomId r) (mxid r) (engagementId r) (content r) (state r) (createdAt r)
    (claimToken r) (leaseUntil r) (retryAt r) (lastError r) (outcome r) (completedAt r).

(** A command as it is enqueued. *)
Record Command : Type := MkCommand {
  c_action : string; c_agent : option string; c_sideId : string; c_localpart : jval; c_roomId : option string; c_mxid : option string;
  c_engagementId : option string; c_content : jval;
}.

Definition out : Type := step_out (list Row) (list Row) (option Row).

(** [mutate]: what was changed is taken back when it could not be saved. *)
Definition mutate (sv : save_outcome) (rows rows' : list Row) (row : Row) : out :=
  match sv with
  | SaveDone => StepOut (Ok (Some row)) rows' (Some rows')
  | SaveFalse => StepOut (Throw "Matrix work persistence failed") rows None
  | SaveThrew => StepOut (Throw "save") rows None
  end.
Definition unchanged (r : result (option Row)) (rows : list Row) : out := StepOut r rows None.

Definition is_complete (r : Row) : bool := bool_decide (state r = Complete).
Definition approved (a : string) : bool := String.eqb a "engagement-approved".

(** The row that already stands for a command. *)
Definition same_command (c : Command) (r : Row) : bool :=
  String.eqb (action r) (c_action c) && bool_decide (agent r = c_agent c) && String.eqb (sideId r) (c_sideId c) && bool_decide (roomId r = c_roomId c) &&
  (if approved (c_action c) then bool_decide (engagementId r = c_engagementId c) else negb (is_complete r)).

(** Of the completed rows the last five hundred are kept. *)
Definition prune (rows : list Row) : list Row :=
  let completed := List.filter is_complete rows in
  let pruned := List.map id (take (length completed - 500) completed) in
  List.filter (λ r, negb (inb (id r) pruned)) rows.

Definition new_row (c : Command) (uuid : string) (now : Z) : Row :=
  MkRow uuid (c_action c) (c_agent c) (c_sideId c) (c_localpart c) (c_roomId c) (c_mxid c) (c_engagementId c)
    (if approved (c_action c) then c_content c else JUndef) Pending now None 0 0 None None 0.

Definition enqueue (c : Command) (uuid : string) (now : Z) (sv : save_outcome) (rows : list Row) : out :=
  match List.find (same_command c) rows with
  | Some r => unchanged (Ok (Some r)) rows
  | None => let row := new_row c uuid now in mutate sv rows (prune (rows ++ [row])) row
  end.

(** [rows.find(...)] names the first row: an update of it. *)
Fixpoint update_first (p : Row → bool) (f : Row → Row) (rows : list Row) : list Row :=
  match rows with [] => [] | r :: rows => if p r then f r :: rows else r :: update_first p f rows end.

Definition claimable (now : Z) (r : Row) : bool :=
  match state r with
  | Pending => (retryAt r =? 0) || (retryAt r <=? now)
  | Running => leaseUntil r <=? now
  | Complete => false
  end.

Definition claimed (token : string) (now : Z) (r : Row) : Row := r <| state := Running |> <| claimToken := Some token |> <| leaseUntil := now + 90000 |>.

Definition claim (token : string) (now : Z) (sv : save_outcome) (rows : list Row) : out :=
  match List.find (claimable now) rows with
  | None => unchanged (Ok None) rows
  | Some r => mutate sv rows (update_first (claimable now) (claimed token now) rows) (claimed token now r)
  end.

(** [/^\$[^\s]{1,511}$/] *)
Definition event_id (v : jval) : option string :=
  match v with
  | JStr (String c rest as s) => if Ascii.eqb c "$" && negb (string_exists is_ws rest) && (1 <=? String.length rest)%nat && (String.length rest <=? 511)%nat then Some s else None
  | _ => None
  end.
Definition text_of (v : jval) : option string := match v with JStr s => Some s | _ => None end.
Definition is_true (v : jval) : bool := strict_eq v (JBool true).

Definition completed (o : jval) (retry : bool) (now : Z) (r : Row) : Row :=
  let eventId := event_id (prop o "eventId") in
  if approved (action r) && retry && negb (is_true (prop o "permanent")) && (negb (is_true (prop o "ok")) || negb (is_Some_b eventId)) then
    r <| state := Pending |> <| retryAt := now + 30000 |> <| lastError := Some (default "delivery_unconfirmed" (slice_to 80 <$> text_of (prop o "code"))) |>
  else
    r <| state := Complete |> <| completedAt := now |>
      <| outcome := Some (MkOutcome (is_true (prop o "ok")) (text_of (prop o "mxid")) (slice_to 80 <$> text_of (prop o "code")) (if approved (action r) then eventId else None)) |>.

Definition named (i : string) (r : Row) : bool := String.eqb (id r) i.

Definition complete (i : string) (token : option string) (o : jval) (retry : bool) (now : Z) (sv : save_outcome) (rows : list Row) : out :=
  match List.find (named i) rows with
  | None => unchanged (Throw "stale Matrix work claim") rows
  | Some r =>
      if negb (bool_decide (claimToken r = token)) then unchanged (Throw "stale Matrix work claim") rows else
      if is_complete r then unchanged (Ok (Some r)) rows else
      mutate sv rows (update_first (named i) (completed o retry now) rows) (completed o retry now r)
  end.

Definition unsettled (side : string) (rows : list Row) : bool := existsb (λ r, String.eqb (sideId r) side && negb (is_complete r)) rows.
Definition loggedOut (a : option string) (side : string) (rows : list Row) : bool :=
  existsb (λ r, bool_decide (agent r = a) && String.eqb (sideId r) side && inb (action r) ["logout"; "representative-logout"]
    && match outcome r with Some o => o_ok o | None => false end) rows.
Definition list_ (rows : list Row) : list Row := List.map (λ r, r <| claimToken := None |>) rows.
Definition get (i : string) (rows : list Row) : option Row := List.find (named i) rows.

(** ** The executor *)

(** A credential of an agent, as the bridge keeps it. *)
Record Stored : Type := MkStored { homeserver : string; serverName_ : string; s_mxid : jval; accessToken : jval }.

(** What the program leaves: a change of the agent's credential, and the outcome when that was saved. *)
Record Finish : Type := MkFinish { change : option (option Stored); report : jval }.

Definition answer (ok : bool) (more : list (string * jval)) : Finish := MkFinish None (JObj (("ok", JBool ok) :: more)).
Definition refusal (code : string) : Finish := answer false [("code", JStr code)].

(** [/^[a-z0-9._=-]+$/] *)
Definition localpart_char (c : ascii) : bool := ProjectSides.is_lower c || ProjectSides.is_digit c || existsb (Ascii.eqb c) ["."; "_"; "="; "-"]%char.
Definition is_localpart (v : jval) : option string := match v with JStr s => if truthy s && string_forall localpart_char s then Some s else None | _ => None end.

Section executor.
Context (num_str : num → string) (str_num : string → num) (validURL : string → bool) (regExp : string → option (string → bool)) (sha256 : string → string).

Definition http_code (s : Z) : string := "matrix_http_" +:+ num_str (Fin (inject_Z s)).
Definition post (baseUrl path token : string) : HttpProg.request := HttpProg.MkRequest "POST" baseUrl path [] (Some token) (Some (JObj [])).
(** A token that the server no longer knows is as good as revoked. *)
Definition revoked (s : Z) (data : jval) : bool := HttpProg.ok s || ((s =? 401) && strict_eq (prop data "errcode") (JStr "M_UNKNOWN_TOKEN")).

Definition notice (s : MatrixSide.Side) (c : option ProjectSides.Credential) (job : Row) : HttpProg.prog Finish :=
  await o <- MatrixSide.sendToRoomOnSide validURL regExp sha256 s c (str_or_null (roomId job)) (content job)
    (JStr ("engagement-approved:" +:+ default "null" (engagementId job))) "m.room.message";
  HttpProg.Ret (answer (MatrixSide.done_ o) [("eventId", MatrixSide.id o); ("code", if MatrixSide.done_ o then JNull else JStr "approval_notice_delivery_failed");
    ("permanent", JBool (bool_decide (MatrixSide.failure o = Some "rejected")))]).

Definition representativeLogout (s : MatrixSide.Side) (c : option ProjectSides.Credential) : HttpProg.prog Finish :=
  match c with
  | Some (ProjectSides.RegistrationToken _ (Some token)) =>
      if negb (truthy token) then HttpProg.Ret (refusal "agent_credential_unavailable") else
      await r <- HttpProg.fetch (post (ProjectSides.strip_slashes (MatrixSide.apiBaseUrl s)) "/_matrix/client/v3/logout" token);
      let '(st, data, _) := r in
      HttpProg.Ret (answer (revoked st data) [("code", if revoked st data then JNull else JStr (http_code st))])
  | _ => HttpProg.Ret (refusal "agent_credential_unavailable")
  end.

(** The account is registered, and its credential saved before the outcome is reported. *)
Definition identity (s : MatrixSide.Side) (c : option ProjectSides.Credential) (job : Row) (stored : option Stored) (password : string) : HttpProg.prog Finish :=
  match is_localpart (localpart job) with
  | None => HttpProg.Ret (refusal "invalid_localpart")
  | Some l =>
      let confirm (saved : option (option Stored)) (k : Stored) :=
        let ok := strict_eq (s_mxid k) (JStr ("@" +:+ lower l +:+ ":" +:+ MatrixSide.serverName s)) in
        MkFinish saved (report (if ok then answer true [("mxid", s_mxid k)] else refusal "identity_mismatch")) in
      match stored with
      | Some k => HttpProg.Ret (confirm None k)
      | None =>
          await m <- MatrixSide.mintAgentIdentity num_str validURL regExp s c l password;
          if negb (MatrixSide.minted m) || negb (to_bool (MatrixSide.accessToken m))
          then HttpProg.Ret (refusal (default "registration_failed" (truthy_opt (MatrixSide.m_errcode m)))) else
          let k := MkStored (ProjectSides.strip_slashes (MatrixSide.apiBaseUrl s)) (MatrixSide.serverName s) (MatrixSide.m_mxid m) (MatrixSide.accessToken m) in
          HttpProg.Ret (confirm (Some (Some k)) k)
      end
  end.

Definition suffix (a room : string) : string :=
  if String.eqb a "logout" then "/logout" else if String.eqb a "join" then "/join/" +:+ Uri.encodeURIComponent room else "/rooms/" +:+ Uri.encodeURIComponent room +:+ "/leave".

(** Joining, leaving and logging out with the agent's own token. *)
Definition asAgent (job : Row) (k : Stored) : HttpProg.prog Finish :=
  if negb (to_bool (accessToken k)) || negb (strict_eq (s_mxid k) (str_or_null (mxid job))) then HttpProg.Ret (refusal "agent_credential_unavailable") else
  if negb (inb (action job) ["join"; "leave"; "logout"]) then HttpProg.Ret (refusal "unknown_action") else
  let logout := String.eqb (action job) "logout" in
  await r <- HttpProg.fetch (post (homeserver k) ("/_matrix/client/v3" +:+ suffix (action job) (default "null" (roomId job))) (to_str num_str (accessToken k)));
  let '(st, data, _) := r in
  let ok := if logout then revoked st data else HttpProg.ok st in
  HttpProg.Ret (MkFinish (if ok && logout then Some None else None)
    (report (answer ok [("mxid", s_mxid k); ("code", if ok then JNull else JStr (http_code st))]))).

Definition executeMatrixWork (s : MatrixSide.Side) (c : option ProjectSides.Credential) (job : Row) (stored : option Stored) (password : string) : HttpProg.prog Finish :=
  if approved (action job) then notice s c job else
  if String.eqb (action job) "representative-logout" then representativeLogout s c else
  match stored with
  | None =>
      if String.eqb (action job) "logout" then HttpProg.Ret (answer true [("mxid", str_or_null (mxid job))]) else
      if String.eqb (action job) "identity" then identity s c job None password else HttpProg.Ret (refusal "agent_credential_unavailable")
  | Some k =>
      if negb (String.eqb (homeserver k) (ProjectSides.strip_slashes (MatrixSide.apiBaseUrl s))) || negb (String.eqb (serverName_ k) (MatrixSide.serverName s))
      then HttpProg.Ret (refusal "credential_side_mismatch") else
      if String.eqb (action job) "identity" then identity s c job stored password else asAgent job k
  end.

End executor.

(** ** The bridge's side of a job *)

(** The credentials in memory and in the file. *)
Record Tokens : Type := MkTokens { memory : omap Stored; file : omap Stored }.

Definition set_token (a : string) (v : option Stored) (m : omap Stored) : omap Stored := match v with Some k => om_set a k m | None => om_del a m end.

(** [saveCredential]: whether it threw, and the tokens. A credential that could not be saved stays in memory;
    one that could not be removed comes back. *)
Definition saveCredential (a : string) (v : option Stored) (saved : bool) (t : Tokens) : bool * Tokens :=
  let m := set_token a v (memory t) in
  if saved then (true, MkTokens m m) else
  (false, MkTokens (match v, om_get a (memory t) with None, Some k => om_set a k m | _, _ => m end) (file t)).

Definition failed_report : jval := JObj [("ok", JBool false); ("code", JStr "bridge_operation_failed")].

(** After the program: the change of the credential, the second save that goes before the report of an
    identity, and the outcome that is reported. [first] and [second] say which saves succeed. *)
Definition finishWork (job : Row) (r : HttpProg.error + Finish) (first second : bool) (t : Tokens) : jval * Tokens :=
  match r with
  | inl _ => (failed_report, t)
  | inr f =>
      let '(ok, t) := match change f with Some v => saveCredential (default "null" (agent job)) v first t | None => (true, t) end in
      if negb ok then (failed_report, t) else
      if to_bool (prop (report f) "ok") && String.eqb (action job) "identity" then
        if second then (report f, MkTokens (memory t) (memory t)) else (failed_report, t)
      else (report f, t)
  end.

(** ** The roster of agents *)

Definition nameKey (s : string) : string := lower (trim s).

(** [start] and [pollRegistrations]: the credentials of agents that are not on the roster are dropped,
    unless the roster is empty ([_mayPruneAgentTokens]). *)
Definition pruneAgentTokens (agents : list string) (m : omap Stored) : omap Stored :=
  match agents with
  | [] => m
  | _ => List.filter (λ p, inb p.1 agents || inb (nameKey p.1) (List.map nameKey agents)) m
  end.

(** ** Both processes *)

Section system.
Context (num_str : num → string) (str_num : string → num) (validURL : string → bool) (regExp : string → option (string → bool)) (sha256 : string → string).

(** What a run of the executor gives against some homeserver. *)
Definition executed (s : MatrixSide.Side) (c : option ProjectSides.Credential) (job : Row) (t : Tokens) (r : HttpProg.error + Finish) : Prop :=
  ∃ server password, r = (HttpProg.run server [] (executeMatrixWork num_str validURL regExp sha256 s c job (om_get (default "null" (agent job)) (memory t)) password)).1.

(** For the record: a job said that the account of an identity is made, and an agent lost the credential it
    had, or got another one. *)
Inductive happening : Type := HMade (row agentName account : string) | HLost (agentName : string).

(** The rows of the backend and its file; the bridge's credentials and its job; the reports under way. For
    the record, the ids that were ever given, with what they stand for, and what happened. *)
Record System : Type := MkSystem {
  rows : list Row; disk : list Row; tokens : Tokens; job : option Row; reports : list (Row * jval);
  born : list (string * (string * option string)); history : list happening;
}.
#[export] Instance eta_work_system : Settable System := λ s, MkSystem (rows s) (disk s) (tokens s) (job s) (reports s) (born s) (history s).

(** The rows and the file after an operation of the store. *)
Definition stored_as (o : out) (s : System) : System := s <| rows := so_mem o |> <| disk := default (disk s) (so_disk o) |>.

(** What a job did, for the record. *)
Definition happened (job : Row) (o : jval) (before after : Tokens) : list happening :=
  let a := default "null" (agent job) in
  (if String.eqb (action job) "identity" && to_bool (prop o "ok") then match prop o "mxid" with JStr m => [HMade (id job) a m] | _ => [] end else []) ++
  (if is_Some_b (om_get a (memory before)) && negb (is_Some_b (om_get a (memory after))) then [HLost a] else []).

Inductive step : relation System :=
| s_enqueue c uuid now sv s : uuid ∉ (born s).*1 →
    step s (stored_as (enqueue c uuid now sv (rows s)) s <| born := born s ++ [(uuid, (c_action c, c_agent c))] |>)
(* a claim: its answer is lost, or given to the bridge while it waits for one, or the job is refused at once *)
| s_claim_lost token now sv s : step s (stored_as (claim token now sv (rows s)) s)
| s_claim token now sv row s : job s = None → so_res (claim token now sv (rows s)) = Ok (Some row) →
    step s (stored_as (claim token now sv (rows s)) s <| job := Some row |>)
| s_refuse token now now' sv sv' row code retry s : so_res (claim token now sv (rows s)) = Ok (Some row) →
    step s (let s' := stored_as (claim token now sv (rows s)) s in
            stored_as (complete (id row) (claimToken row) (JObj [("ok", JBool false); ("code", JStr code)]) retry now' sv' (rows s')) s')
(* the bridge carries its job out, and reports or dies *)
| s_work side c row r first second s : job s = Some row → executed side c row (tokens s) r →
    step s (let '(o, t) := finishWork row r first second (tokens s) in
            s <| tokens := t |> <| job := None |> <| reports := reports s ++ [(row, o)] |> <| history := history s ++ happened row o (tokens s) t |>)
| s_work_dies side c row r first second s : job s = Some row → executed side c row (tokens s) r →
    step s (let '(o, t) := finishWork row r first second (tokens s) in
            s <| tokens := MkTokens (file t) (file t) |> <| job := None |> <| history := history s ++ happened row o (tokens s) t |>)
| s_bridge_dies s : step s (s <| tokens := MkTokens (file (tokens s)) (file (tokens s)) |> <| job := None |>)
(* the bridge saves its state for a reason of its own, prunes the credentials of agents off the roster, or
   adopts a token that an operator supplied for an agent ([ensureAgentAccount]); what was changed stays in
   memory when it cannot be saved *)
| s_save s : step s (s <| tokens := MkTokens (memory (tokens s)) (memory (tokens s)) |>)
| s_prune agents (saved : bool) s :
    step s (let m := pruneAgentTokens agents (memory (tokens s)) in
            let gone := List.filter (λ a, negb (om_has a m)) (om_keys (memory (tokens s))) in
            s <| tokens := MkTokens m (if saved then m else file (tokens s)) |> <| history := history s ++ List.map HLost gone |>)
| s_adopt a k (saved : bool) s :
    step s (let m := om_set a k (memory (tokens s)) in
            s <| tokens := MkTokens m (if saved then m else file (tokens s)) |> <| history := history s ++ [HLost a] |>)
(* a report arrives, perhaps again *)
| s_report row o now sv s : (row, o) ∈ reports s →
    step s (stored_as (complete (id row) (claimToken row) o true now sv (rows s)) s)
| s_restart s : step s (s <| rows := disk s |>).

Definition start (t : omap Stored) : System := MkSystem [] [] (MkTokens t t) None [] [] [].

End system.
End MatrixWork.
