(* ===== verification/MatrixWorkFacts.v ===== *)
(** * Facts of Matrix work ([MatrixWork])

    The rows of the store over runs: a command that is under way is not enqueued again. The two processes:
    an identity that was reported as made has its credential in the file of the bridge. The executor: no
    token leaves its homeserver. *)

From Stdlib Require Import ZArith QArith Lia String Ascii.
From stdpp Require Import base list strings relations.
From S2P Require Import Prelude OMap Json Uri Store LeaseStore ProjectSides HttpProg MatrixSide MatrixSideFacts MatrixWork.
Import MatrixWork.
#[local] Open Scope stdpp_scope.
#[local] Existing Instances eta_row.

(** ** Rows *)

(** Two rows that stand for one command. *)
Definition clash (r1 r2 : Row) : Prop :=
  action r1 = action r2 ∧ agent r1 = agent r2 ∧ sideId r1 = sideId r2 ∧ roomId r1 = roomId r2 ∧
  if approved (action r1) then engagementId r1 = engagementId r2 else is_complete r1 = false ∧ is_complete r2 = false.

Definition is_born (b : list (string * (string * option string))) (r : Row) : Prop := (id r, (action r, agent r)) ∈ b.

Record rows_ok (b : list (string * (string * option string))) (l : list Row) : Prop := MkRowsOk {
  ro_ids : NoDup (id <$> l);
  ro_one : ∀ r1 r2, r1 ∈ l → r2 ∈ l → clash r1 r2 → id r1 = id r2;
  ro_born : ∀ r, r ∈ l → is_born b r;
}.

(** The same command, perhaps completed in the meantime. *)
Definition later (r r' : Row) : Prop :=
  id r' = id r ∧ action r' = action r ∧ agent r' = agent r ∧ sideId r' = sideId r ∧ roomId r' = roomId r ∧ engagementId r' = engagementId r ∧
  (is_complete r = true → is_complete r' = true).

Lemma row_later_refl r : later r r.
Proof. by split_and!. Qed.

Lemma claimed_later t n r : claimable n r = true → later r (claimed t n r).
Proof. intros H. split_and!; try done. unfold claimable in H. intros Hc%bool_decide_eq_true. by rewrite Hc in H. Qed.

Lemma completed_later o b n r : is_complete r = false → later r (completed o b n r).
Proof. intros H. unfold later. rewrite H. unfold completed. by destruct (_ && _); split_and!. Qed.

Lemma update_first_later p f l : (∀ r, List.find p l = Some r → later r (f r)) → Forall2 later l (update_first p f l).
Proof.
  induction l as [|r l IH]; intros H; [done|]. cbn in *. destruct (p r) eqn:Hp.
  - constructor; [by apply H|]. apply Forall2_same_length_lookup_2; [done|]. intros i x y Hx Hy. rewrite Hx in Hy. injection Hy as ->. apply row_later_refl.
  - constructor; [apply row_later_refl|]. by apply IH.
Qed.

Lemma update_first_elem p f l r' : r' ∈ update_first p f l → r' ∈ l ∨ ∃ r, List.find p l = Some r ∧ r' = f r.
Proof.
  induction l as [|r l IH]; [by intros ?%elem_of_nil|]. cbn. destruct (p r) eqn:Hp; intros [->|H]%elem_of_cons.
  - right. by exists r.
  - left. by right.
  - left. by left.
  - destruct (IH H) as [?|?]; [left; by right|by right].
Qed.

Lemma later_elem l l' r' : Forall2 later l l' → r' ∈ l' → ∃ r, r ∈ l ∧ later r r'.
Proof.
  induction 1 as [|x y l l' Hxy _ IH]; [by intros ?%elem_of_nil|]. intros [->|H]%elem_of_cons; [exists x; split; [by left|done]|].
  destruct (IH H) as (r & ? & ?). exists r. split; [by right|done].
Qed.

Lemma later_clash r1 r2 r1' r2' : later r1 r1' → later r2 r2' → clash r1' r2' → clash r1 r2.
Proof.
  intros (_ & Ha1 & Hb1 & Hc1 & Hd1 & He1 & Hf1) (_ & Ha2 & Hb2 & Hc2 & Hd2 & He2 & Hf2) (Ha & Hb & Hc & Hd & He).
  split_and!; [congruence..|]. rewrite Ha1 in He. destruct (approved _); [congruence|]. destruct He as [He He'].
  destruct (is_complete r1); [by rewrite Hf1 in He|]. destruct (is_complete r2); [by rewrite Hf2 in He'|done].
Qed.

Lemma later_rows b l l' : Forall2 later l l' → rows_ok b l → rows_ok b l'.
Proof.
  intros HF [Hids Hone Hborn]. split.
  - assert (id <$> l' = id <$> l) as ->; [|done]. clear -HF. induction HF as [|x y l l' (Hxy & _) _ IH]; [done|]. rewrite !fmap_cons, IH. by f_equal.
  - intros r1 r2 H1 H2 Hc. destruct (later_elem _ _ _ HF H1) as (r1' & Hr1 & Hl1), (later_elem _ _ _ HF H2) as (r2' & Hr2 & Hl2).
    pose proof Hl1 as [Hi1 _]. pose proof Hl2 as [Hi2 _]. rewrite Hi1, Hi2. apply Hone; [done|done|]. by eapply later_clash.
  - intros r Hr. destruct (later_elem _ _ _ HF Hr) as (r0 & Hr0 & Hi & Ha & Hg & _). unfold is_born. rewrite Hi, Ha, Hg. by apply Hborn.
Qed.

Lemma filter_rows b p l : rows_ok b l → rows_ok b (List.filter p l).
Proof.
  intros [Hids Hone Hborn]. split; [by apply LeaseStore.NoDup_fmap_filter| |].
  - intros r1 r2 [_ H1]%elem_of_filter_bool [_ H2]%elem_of_filter_bool. by apply Hone.
  - intros r [_ Hr]%elem_of_filter_bool. by apply Hborn.
Qed.

Lemma same_command_clash c uuid now r : clash r (new_row c uuid now) → same_command c r = true.
Proof.
  intros (Ha & Hb & Hc & Hd & He). unfold same_command. cbn in *. rewrite Ha in He. rewrite Ha, Hb, Hc, Hd, !String.eqb_refl, !bool_decide_eq_true_2 by done. cbn.
  destruct (approved _); [by apply bool_decide_eq_true|]. destruct He as [-> _]. done.
Qed.

Lemma clash_sym r1 r2 : clash r1 r2 → clash r2 r1.
Proof. intros (Ha & Hb & Hc & Hd & He). unfold clash. rewrite <-Ha. split_and!; try done. destruct (approved _); [done|tauto]. Qed.

Lemma find_none p (l : list Row) r : List.find p l = None → r ∈ l → p r = false.
Proof. intros H Hr. apply list_elem_of_In in Hr. by apply (find_none p l H). Qed.

Lemma enqueue_rows b c uuid now l : rows_ok b l → uuid ∉ b.*1 → List.find (same_command c) l = None →
  rows_ok (b ++ [(uuid, (c_action c, c_agent c))]) (prune (l ++ [new_row c uuid now])).
Proof.
  intros [Hids Hone Hborn] Hu Hf. apply filter_rows. split.
  - rewrite fmap_app. apply NoDup_app. split_and!; [done| |by apply NoDup_singleton].
    intros i (r & -> & Hr)%list_elem_of_fmap Hi%list_elem_of_singleton. cbn in Hi. apply Hu. rewrite <-Hi. apply list_elem_of_fmap. exists (id r, (action r, agent r)). split; [done|by apply Hborn].
  - intros r1 r2 [H1|H1%list_elem_of_singleton]%elem_of_app [H2|H2%list_elem_of_singleton]%elem_of_app Hc; [by apply Hone| | |by subst].
    + subst r2. apply same_command_clash in Hc. by rewrite (find_none _ _ _ Hf H1) in Hc.
    + subst r1. apply clash_sym, same_command_clash in Hc. by rewrite (find_none _ _ _ Hf H2) in Hc.
  - intros r [H|H%list_elem_of_singleton]%elem_of_app; apply elem_of_app; [left; by apply Hborn|right; subst r; by apply list_elem_of_singleton].
Qed.

Lemma born_more b x l : rows_ok b l → rows_ok (b ++ [x]) l.
Proof. intros [? ? Hb]. split; [done|done|]. intros r Hr. apply elem_of_app. left. by apply Hb. Qed.

(** What an operation leaves of rows that are in order: the rows in memory and the file. *)
Definition out_ok (b : list (string * (string * option string))) (d : list Row) (o : out) : Prop := rows_ok b (so_mem o) ∧ rows_ok b (default d (so_disk o)).

Lemma mutate_ok b d sv l l' r : rows_ok b l → rows_ok b d → rows_ok b l' → out_ok b d (mutate sv l l' r).
Proof. by destruct sv. Qed.

Lemma enqueue_ok b d c uuid now sv l : rows_ok b l → rows_ok b d → uuid ∉ b.*1 → out_ok (b ++ [(uuid, (c_action c, c_agent c))]) d (enqueue c uuid now sv l).
Proof.
  intros Hl Hd Hu. unfold enqueue. destruct (List.find _ _) eqn:Hf; [by split; apply born_more|].
  apply mutate_ok; [by apply born_more|by apply born_more|by apply enqueue_rows].
Qed.

Lemma claim_ok b d t now sv l : rows_ok b l → rows_ok b d → out_ok b d (claim t now sv l).
Proof.
  intros Hl Hd. unfold claim. destruct (List.find _ _) as [r|] eqn:Hf; [|done]. apply mutate_ok; [done|done|].
  eapply later_rows; [|exact Hl]. apply update_first_later. intros r' Hr. apply claimed_later. by apply find_some in Hr as [_ ?].
Qed.

Lemma complete_ok b d i t o retry now sv l : rows_ok b l → rows_ok b d → out_ok b d (complete i t o retry now sv l).
Proof.
  intros Hl Hd. unfold complete. destruct (List.find _ _) as [r|] eqn:Hf; [|done]. destruct (negb _); [done|]. destruct (is_complete r) eqn:Hc; [done|].
  apply mutate_ok; [done|done|]. eapply later_rows; [|exact Hl]. apply update_first_later. intros r' Hr. rewrite Hf in Hr. injection Hr as <-. by apply completed_later.
Qed.

(** ** The executor *)

Section executor.
Context (num_str : num → string) (str_num : string → num) (validURL : string → bool) (regExp : string → option (string → bool)) (sha256 : string → string).
Abbreviation execute := (executeMatrixWork num_str validURL regExp sha256).
Import HttpProg.

Lemma spec_any {A} h (p : prog A) : spec (λ _ _, True) (λ _ _, True) (λ _ _, True) h p.
Proof. revert h. induction p as [a|e|q k IH]; intros h; [done|done|]. split; [done|]. intros r. apply IH. Qed.

Lemma spec_implies {A} (P P' : history → request → Prop) (R : history → A → Prop) E h p :
  spec P R E h p → (∀ h q, P h q → P' h q) → spec P' R E h p.
Proof. intros H HP. revert h H. induction p as [a|e|q k IH]; cbn; intros h; [done|done|]. intros [? Hk]. split; [auto|]. intros r. by apply IH. Qed.

(** What an execution ends in: a credential is only given to an agent that has none, and an identity that is
    reported as made is one that the agent has, or is given. *)
Definition good_finish (job : Row) (stored : option Stored) (f : Finish) : Prop :=
  (∀ k, change f = Some (Some k) → stored = None) ∧
  (action job = "identity" → to_bool (prop (report f) "ok") = true → ∃ k m, s_mxid k = JStr m ∧ prop (report f) "mxid" = JStr m ∧
     (change f = None ∧ stored = Some k ∨ change f = Some (Some k))).

Lemma refusal_good job stored c : good_finish job stored (refusal c).
Proof. by split. Qed.

Lemma confirmed_good s job stored saved l k : (saved = None ∧ stored = Some k) ∨ (saved = Some (Some k) ∧ stored = None) →
  good_finish job stored (MkFinish saved (report (if strict_eq (s_mxid k) (JStr ("@" +:+ lower l +:+ ":" +:+ MatrixSide.serverName s)) then MatrixWork.answer true [("mxid", s_mxid k)] else refusal "identity_mismatch"))).
Proof.
  intros Hk. split; cbn.
  - intros k' ->. by destruct Hk as [[]|[_ ?]].
  - intros _. destruct (strict_eq _ _) eqn:He; [|done]. intros _. destruct (s_mxid k) as [| | | |m| | |] eqn:Hm; try done. exists k, m. split_and!; [done|done|].
    destruct Hk as [[-> ->]|[-> _]]; [by left|by right].
Qed.

Lemma execute_good s c job stored password h : spec (λ _ _, True) (λ _ f, good_finish job stored f) (λ _ _, True) h (execute s c job stored password).
Proof.
  assert (Hid : ∀ f, String.eqb (action job) "identity" = false → (∀ k, change f ≠ Some (Some k)) → good_finish job stored f).
  { intros f Ha Hc. split; [intros k Hk; by apply Hc in Hk|]. intros Hact. by rewrite Hact in Ha. }
  unfold executeMatrixWork. destruct (approved (action job)) eqn:Hap.
  { apply spec_bind. eapply spec_mono; [apply spec_any| |done]. intros h' o _. apply Hid; [|done]. by apply String.eqb_eq in Hap as ->. }
  destruct (String.eqb (action job) "representative-logout") eqn:Hre.
  { apply String.eqb_eq in Hre. assert (String.eqb (action job) "identity" = false) as Hn by (by rewrite Hre).
    unfold representativeLogout. destruct c as [[]|]; try (by apply refusal_good). destruct representativeToken as [t|]; [|by apply refusal_good].
    destruct (negb _); [by apply refusal_good|]. apply spec_bind, spec_fetch; [done| |done]. intros st d ra. by apply Hid. }
  assert (Hident : ∀ st, stored = st → spec (λ _ _, True) (λ _ f, good_finish job st f) (λ _ _, True) h (identity num_str validURL regExp s c job st password)).
  { intros st _. unfold identity. destruct (is_localpart _) as [l|]; [|apply refusal_good]. destruct st as [k|]; [apply confirmed_good; by left|].
    apply spec_bind. eapply spec_mono; [apply spec_any| |done]. intros h' m _. destruct (_ || _); [apply refusal_good|]. apply (confirmed_good _ _ _ _ _ (MkStored _ _ _ _)). by right. }
  destruct stored as [k|].
  - destruct (_ || _); [apply refusal_good|]. destruct (String.eqb (action job) "identity") eqn:Hi; [by apply Hident|]. unfold asAgent.
    destruct (_ || _); [apply refusal_good|]. destruct (negb _); [apply refusal_good|]. apply spec_bind, spec_fetch; [done| |done]. intros st d ra. apply Hid; [done|]. cbn. by destruct (_ && _).
  - destruct (String.eqb (action job) "logout") eqn:Hl; [|destruct (String.eqb (action job) "identity") eqn:Hi; [by apply Hident|apply refusal_good]].
    apply String.eqb_eq in Hl. apply Hid; [by rewrite Hl|done].
Qed.

End executor.

(** ** The bridge's credentials *)

Definition name_of (r : Row) : string := default "null" (agent r).

(** The credential of that account, in the file and in memory. *)
Definition held (t : Tokens) (a m : string) : Prop := ∃ k, om_get a (file t) = Some k ∧ om_get a (memory t) = Some k ∧ s_mxid k = JStr m.

(** The account was said to be made, and since then the agent has its credential, or has lost it. *)
Definition saved_as (t : Tokens) (h : list happening) (i a m : string) : Prop :=
  ∃ h1 h2, h = h1 ++ HMade i a m :: h2 ∧ (held t a m ∨ HLost a ∈ h2).

(** What was held stays so, or its loss is on record. *)
Definition keeps (t t' : Tokens) (more : list happening) : Prop := ∀ a m, held t a m → held t' a m ∨ HLost a ∈ more.

Lemma saved_kept t t' more h i a m : keeps t t' more → saved_as t h i a m → saved_as t' (h ++ more) i a m.
Proof.
  intros Hk (h1 & h2 & -> & H). exists h1, (h2 ++ more). split; [by rewrite <-app_assoc|]. rewrite elem_of_app.
  destruct H as [[H|H]%Hk|H]; auto.
Qed.

Lemma saved_now t h1 h2 i a m : held t a m → saved_as t (h1 ++ HMade i a m :: h2) i a m.
Proof. intros H. exists h1, h2. split; [done|by left]. Qed.

Lemma keeps_refl t more : keeps t t more.
Proof. intros a m H. by left. Qed.

(** Other agents keep what they have when the whole memory is saved. *)
Lemma keeps_memory t m' more : (∀ a k, om_get a (memory t) = Some k → om_get a m' = Some k ∨ HLost a ∈ more) → keeps t (MkTokens m' m') more.
Proof. intros H a m (k & _ & Hk & Hm). destruct (H a k Hk) as [H'|?]; [left; by exists k|by right]. Qed.

(** ... and when nothing is saved. *)
Lemma keeps_unsaved t m' more : (∀ a k, om_get a (memory t) = Some k → om_get a m' = Some k ∨ HLost a ∈ more) → keeps t (MkTokens m' (file t)) more.
Proof. intros H a m (k & Hf & Hk & Hm). destruct (H a k Hk) as [H'|?]; [left; by exists k|by right]. Qed.

Lemma keeps_dies t : keeps t (MkTokens (file t) (file t)) [].
Proof. intros a m (k & Hf & _ & Hm). left. by exists k. Qed.

Lemma keeps_trans t1 t2 t3 m1 m2 : keeps t1 t2 m1 → keeps t2 t3 m2 → keeps t1 t3 (m1 ++ m2).
Proof. intros H1 H2 a m [[H|H]%H2|H]%H1; [by left|right|right]; apply elem_of_app; auto. Qed.

(** The record of a job has the loss of its agent's credential. *)
Lemma happened_lost job o t t' k : om_get (name_of job) (memory t) = Some k → om_get (name_of job) (memory t') = None → HLost (name_of job) ∈ happened job o t t'.
Proof. intros H H'. unfold happened. change (default "null" (agent job)) with (name_of job). rewrite H, H'. apply elem_of_app. right. by left. Qed.

(** After the end of a job. *)
Lemma finish_kept job f first second t : good_finish job (om_get (name_of job) (memory t)) f →
  let '(o, t') := finishWork job (inr f) first second t in
  keeps t t' (happened job o t t') ∧ (action job = "identity" → to_bool (prop o "ok") = true → ∃ m, prop o "mxid" = JStr m ∧ held t' (name_of job) m).
Proof.
  intros [Hc Hr]. unfold finishWork. change (default "null" (agent job)) with (name_of job) in *.
  set (p := match change f with Some v => saveCredential (name_of job) v first t | None => (true, t) end).
  assert (Hp : (∀ a k, om_get a (memory t) = Some k → om_get a (memory p.2) = Some k ∨ a = name_of job ∧ om_get a (memory p.2) = None) ∧
    (file p.2 = file t ∨ file p.2 = memory p.2) ∧
    (p.1 = true → ∀ k, (change f = None ∧ om_get (name_of job) (memory t) = Some k ∨ change f = Some (Some k)) → om_get (name_of job) (memory p.2) = Some k)).
  { subst p. destruct (change f) as [[k|]|] eqn:Hch; unfold saveCredential, set_token.
    - specialize (Hc k eq_refl). assert (Hm : ∀ a k', om_get a (memory t) = Some k' → om_get a (om_set (name_of job) k (memory t)) = Some k').
      { intros a k' Ha. rewrite om_get_set_ne; [done|]. intros E. rewrite <-E in Ha. congruence. }
      destruct first; cbn [fst snd memory file]; split_and!; auto; intros _ k' [[? ?]|[= <-]]; (done || by rewrite om_get_set_eq).
    - destruct first; cbn [fst snd memory file]; split_and!; auto; try (by intros _ k' [[? ?]|?]).
      + intros a k Ha. rewrite om_get_del. destruct (String.eqb_spec (name_of job) a) as [<-|]; [by right|by left].
      + intros a k Ha. left. destruct (om_get (name_of job) (memory t)) as [k0|] eqn:Hk; rewrite ?om_get_set, om_get_del; destruct (String.eqb_spec (name_of job) a) as [<-|]; congruence.
    - split_and!; auto. by intros _ k [[_ ?]|?]. }
  clearbody p. destruct p as [ok [m1 f1]]. cbn [fst snd memory file] in Hp. destruct Hp as (Hm & Hf & Hk).
  assert (Hkeep : ∀ o, keeps t (MkTokens m1 f1) (happened job o t (MkTokens m1 f1)) ∧ keeps t (MkTokens m1 m1) (happened job o t (MkTokens m1 m1))).
  { intros o. assert (Hlost : ∀ f', ∀ a k, om_get a (memory t) = Some k → om_get a m1 = Some k ∨ HLost a ∈ happened job o t (MkTokens m1 f')).
    { intros f' a k Ha. destruct (Hm a k Ha) as [?|[-> Hn]]; [by left|right]. by eapply happened_lost. }
    split; [destruct Hf as [->| ->]; [apply keeps_unsaved|apply keeps_memory]|apply keeps_memory]; apply Hlost. }
  destruct ok; cbn [negb]; [|by split; [apply Hkeep|]]. destruct (_ && _) eqn:Hi; [destruct second|].
  - apply andb_true_iff in Hi as [Hok Ha%String.eqb_eq]. split; [apply Hkeep|]. intros _ _. destruct (Hr Ha Hok) as (k & m & Hmx & Hmo & Hch). exists m. split; [done|].
    assert (Hg : om_get (name_of job) m1 = Some k) by (apply Hk; [done|]; tauto). by exists k.
  - by split; [apply Hkeep|].
  - split; [apply Hkeep|]. intros Ha Hok. by rewrite Ha, Hok in Hi.
Qed.

(** ** Both processes *)

Definition all_rows (D : Row → Prop) (d : list Row) (o : out) : Prop := (∀ r, r ∈ so_mem o → D r) ∧ (∀ r, r ∈ default d (so_disk o) → D r).

Section all_rows.
Context (D : Row → Prop) (l d : list Row).
Hypotheses (Hl : ∀ r, r ∈ l → D r) (Hd : ∀ r, r ∈ d → D r).

Lemma mutate_all sv l' r : (∀ r, r ∈ l' → D r) → all_rows D d (mutate sv l l' r).
Proof using Hl Hd. intros H. by destruct sv. Qed.

Lemma enqueue_all c uuid now sv : D (new_row c uuid now) → all_rows D d (enqueue c uuid now sv l).
Proof using Hl Hd.
  intros Hn. unfold enqueue. destruct (List.find _ _); [done|]. apply mutate_all. intros r [_ [H| ->%list_elem_of_singleton]%elem_of_app]%elem_of_filter_bool; [by apply Hl|done].
Qed.

Lemma claim_all t now sv : (∀ r, D r → D (claimed t now r)) → all_rows D d (claim t now sv l).
Proof using Hl Hd.
  intros Hc. unfold claim. destruct (List.find _ _) as [r0|] eqn:Hf; [|done]. apply mutate_all. intros r [H|(r1 & H1 & ->)]%update_first_elem; [by apply Hl|].
  apply Hc, Hl. apply find_some in H1 as [H1 _]. by apply list_elem_of_In.
Qed.

Lemma complete_all i t o retry now sv : (∀ r, r ∈ l → id r = i → D (completed o retry now r)) → all_rows D d (complete i t o retry now sv l).
Proof using Hl Hd.
  intros Hc. unfold complete. destruct (List.find _ _) as [r0|] eqn:Hf; [|done]. destruct (negb _); [done|]. destruct (is_complete r0); [done|]. apply mutate_all.
  intros r [H|(r1 & H1 & ->)]%update_first_elem; [by apply Hl|]. apply find_some in H1 as [H1 Hn%String.eqb_eq]. by apply Hc; [apply list_elem_of_In|].
Qed.
End all_rows.

(** An identity that counts as made is saved. *)
Definition made (t : Tokens) (h : list happening) (r : Row) : Prop :=
  action r = "identity" → ∀ o, outcome r = Some o → o_ok o = true → ∃ m, o_mxid o = Some m ∧ saved_as t h (id r) (name_of r) m.

Definition reported (t : Tokens) (h : list happening) (r : Row) (o : jval) : Prop :=
  action r = "identity" → to_bool (prop o "ok") = true → ∃ m, prop o "mxid" = JStr m ∧ saved_as t h (id r) (name_of r) m.

Record Inv (s : System) : Prop := MkInv {
  iv_rows : rows_ok (born s) (rows s);
  iv_disk : rows_ok (born s) (disk s);
  iv_born : NoDup ((born s).*1);
  iv_job : ∀ r, job s = Some r → is_born (born s) r;
  iv_reports : ∀ r o, (r, o) ∈ reports s → is_born (born s) r ∧ reported (tokens s) (history s) r o;
  iv_made : ∀ r, r ∈ rows s → made (tokens s) (history s) r;
  iv_made_disk : ∀ r, r ∈ disk s → made (tokens s) (history s) r;
}.

Lemma born_same b r r' : NoDup (b.*1) → is_born b r → is_born b r' → id r = id r' → action r = action r' ∧ agent r = agent r'.
Proof.
  unfold is_born. intros Hn H1 H2 Hi. rewrite <-Hi in H2. assert (Heq : (action r, agent r) = (action r', agent r')); [|by injection Heq].
  revert Hn H1 H2. generalize (id r), (action r, agent r), (action r', agent r'). intros i x y. induction b as [|[k v] b IH]; [by intros _ ?%elem_of_nil|].
  rewrite fmap_cons. intros [Hk Hn]%NoDup_cons [[= <- <-]|H1]%elem_of_cons [[= <-]|H2]%elem_of_cons; [done| | |by apply IH].
  - destruct Hk. apply list_elem_of_fmap. by exists (i, y).
  - subst. destruct Hk. apply list_elem_of_fmap. by exists (i, x).
Qed.

Lemma claimed_made t h tok now r : made t h r → made t h (claimed tok now r).
Proof. done. Qed.

Lemma completed_made t h o retry now r : made t h r → (action r = "identity" → is_true (prop o "ok") = true → ∃ m, prop o "mxid" = JStr m ∧ saved_as t h (id r) (name_of r) m) →
  made t h (completed o retry now r).
Proof.
  intros Hr Ho. unfold completed. destruct (_ && _); [done|]. intros Ha out [= <-] Hok. cbn in *. destruct (Ho Ha Hok) as (m & Hm & Hs). exists m. rewrite Hm. by split.
Qed.

Lemma true_bool v : is_true v = true → to_bool v = true.
Proof. by destruct v as [| |[]| | | | |]. Qed.

(** An operation of the store. *)
Lemma stored_inv s o b : Inv s → out_ok b (disk s) o → all_rows (made (tokens s) (history s)) (disk s) o → NoDup (b.*1) →
  (∀ r, is_born (born s) r → is_born b r) → Inv (MkSystem (so_mem o) (default (disk s) (so_disk o)) (tokens s) (job s) (reports s) b (history s)).
Proof.
  intros [Hr Hd Hb Hj Hrep Hm Hmd] [Ho Hod] [Ha Had] Hn Hmore. split; cbn; try done.
  - intros r Hr'. by apply Hmore, Hj.
  - intros r x Hx. destruct (Hrep r x Hx). split; [by apply Hmore|done].
Qed.

(** The credentials change, a job may end, and more may be reported. *)
Lemma tokens_inv s t' j reps more : Inv s → keeps (tokens s) t' more → (∀ r, j = Some r → job s = Some r) →
  (∀ r o, (r, o) ∈ reps → (r, o) ∈ reports s ∨ is_born (born s) r ∧ reported t' (history s ++ more) r o) →
  Inv (MkSystem (rows s) (disk s) t' j reps (born s) (history s ++ more)).
Proof.
  intros [Hr Hd Hb Hj Hrep Hm Hmd] Hk Hjob Hreps. split; cbn; try done.
  - intros r Hx. by apply Hj, Hjob.
  - intros r o Ho. destruct (Hreps r o Ho) as [H|H]; [|done]. destruct (Hrep _ _ H) as [Hbr Hrr]. split; [done|].
    intros Ha Hok. destruct (Hrr Ha Hok) as (m & ? & ?). exists m. split; [done|by eapply saved_kept].
  - intros r H Ha o Ho Hok. destruct (Hm r H Ha o Ho Hok) as (m & ? & ?). exists m. split; [done|by eapply saved_kept].
  - intros r H Ha o Ho Hok. destruct (Hmd r H Ha o Ho Hok) as (m & ? & ?). exists m. split; [done|by eapply saved_kept].
Qed.

(** A bridge that dies forgets what it had not saved. *)
Lemma dies_inv s : Inv s → Inv (MkSystem (rows s) (disk s) (MkTokens (file (tokens s)) (file (tokens s))) None (reports s) (born s) (history s)).
Proof. intros HI. rewrite <-(app_nil_r (history s)). apply (tokens_inv s); [done|apply keeps_dies|done|by left]. Qed.

(** What a roster leaves out is on record. *)
Lemma prune_kept agents t a k : om_get a (memory t) = Some k →
  om_get a (pruneAgentTokens agents (memory t)) = Some k ∨
  HLost a ∈ List.map HLost (List.filter (λ a, negb (om_has a (pruneAgentTokens agents (memory t)))) (om_keys (memory t))).
Proof.
  intros Ha. destruct (om_get a (pruneAgentTokens agents (memory t))) as [k'|] eqn:Hp.
  - left. unfold pruneAgentTokens in Hp. destruct agents as [|x l]; [congruence|]. rewrite (om_get_filter_key (λ a, inb a (x :: l) || inb (nameKey a) (List.map nameKey (x :: l)))) in Hp.
    destruct (_ || _); congruence.
  - right. apply list_elem_of_In, in_map, filter_In. split; [apply list_elem_of_In; destruct (decide (a ∈ om_keys (memory t))) as [|Hn%om_get_None]; [done|congruence]|].
    apply negb_true_iff. by apply om_has_false.
Qed.

Section runs.
Context (num_str : num → string) (str_num : string → num) (validURL : string → bool) (regExp : string → option (string → bool)) (sha256 : string → string).
Abbreviation step := (step num_str validURL regExp sha256).

Lemma executed_good side c row t r : executed num_str validURL regExp sha256 side c row t r → match r with inl _ => True | inr f => good_finish row (om_get (name_of row) (memory t)) f end.
Proof.
  intros (server & password & ->). change (default "null" (agent row)) with (name_of row).
  pose proof (HttpProg.run_spec _ _ _ server _ _ (execute_good num_str validURL regExp sha256 side c row (om_get (name_of row) (memory t)) password [])) as [H _].
  by destruct (HttpProg.run _ _ _) as [[e|f] h].
Qed.

Lemma work_kept side c row t r first second h : executed num_str validURL regExp sha256 side c row t r →
  let '(o, t') := finishWork row r first second t in keeps t t' (happened row o t t') ∧ reported t' (h ++ happened row o t t') row o.
Proof.
  intros H%executed_good. destruct r as [e|f]; [cbn; split; [apply keeps_refl|by intros _]|].
  pose proof (finish_kept row f first second t H) as Hf. destruct (finishWork _ _ _ _ _) as [o t']. destruct Hf as [? Hf]. split; [done|].
  intros Ha Hok. destruct (Hf Ha Hok) as (m & Hm & Hs). exists m. split; [done|]. unfold happened. rewrite Ha, Hok, Hm. by apply saved_now.
Qed.

Lemma claim_stored s t now sv : Inv s → Inv (stored_as (claim t now sv (rows s)) s).
Proof.
  intros HI. pose proof HI as [Hr Hd Hb _ _ Hm Hmd]. apply (stored_inv s (claim t now sv (rows s)) (born s)); [done|by apply claim_ok|by apply claim_all|done|done].
Qed.

Lemma claim_result t now sv l row : so_res (claim t now sv l) = Ok (Some row) → row ∈ so_mem (claim t now sv l).
Proof.
  unfold claim. destruct (List.find _ _) as [r|] eqn:Hf; [|done]. destruct sv; try done. cbn. intros [= <-].
  induction l as [|x l IH]; [done|]. cbn in *. destruct (claimable now x); [injection Hf as <-; by left|right; by apply IH].
Qed.

Lemma complete_stored s row o retry now sv : Inv s → is_born (born s) row → (action row = "identity" → is_true (prop o "ok") = true → ∃ m, prop o "mxid" = JStr m ∧ saved_as (tokens s) (history s) (id row) (name_of row) m) →
  Inv (stored_as (complete (id row) (claimToken row) o retry now sv (rows s)) s).
Proof.
  intros HI Hborn Ho. pose proof HI as [Hr Hd Hb _ _ Hm Hmd]. apply (stored_inv s (complete (id row) (claimToken row) o retry now sv (rows s)) (born s)); [done|by apply complete_ok| |done|done]. apply complete_all; [done|done|].
  intros r Hin Hid. destruct (born_same _ r row Hb (ro_born _ _ Hr _ Hin) Hborn Hid) as [Ha Hg]. apply completed_made; [by apply Hm|].
  unfold name_of in *. rewrite Ha, Hg, Hid. done.
Qed.

Lemma work_step_inv s s' : step s s' → Inv s → Inv s'.
Proof.
  intros H HI. pose proof HI as [Hr Hd Hb Hj Hrep Hm Hmd]. destruct H.
  - apply (stored_inv s (enqueue c uuid now sv (rows s)) (born s ++ [(uuid, (c_action c, c_agent c))])); [done|by apply enqueue_ok|by apply enqueue_all|rewrite fmap_app; apply NoDup_app; split_and!; [done|by intros x Hx ->%list_elem_of_singleton|by apply NoDup_singleton]|].
    intros r Hx. apply elem_of_app. by left.
  - by apply claim_stored.
  - destruct (claim_stored s token now sv HI) as [Hr' Hd' Hb' Hj' Hrep' Hm' Hmd']. split; try done. cbn. intros r [= <-]. apply (ro_born _ _ Hr'). by apply claim_result.
  - set (s1 := stored_as (claim token now sv (rows s)) s). assert (HI1 : Inv s1) by (by apply claim_stored). apply (complete_stored s1); [done| |done].
    apply (ro_born _ _ (iv_rows _ HI1)). by apply claim_result.
  - pose proof (work_kept _ _ _ _ _ first second (history s) H0) as Hw. destruct (finishWork _ _ _ _ _) as [o t']. destruct Hw as [Hk Ho]. apply (tokens_inv s); [done|done|done|].
    intros r1 x1 [Hx|[= -> ->]%list_elem_of_singleton]%elem_of_app; [by left|right; split; [by apply Hj|done]].
  - pose proof (work_kept _ _ _ _ _ first second (history s) H0) as Hw. destruct (finishWork _ _ _ _ _) as [o t']. destruct Hw as [Hk Ho].
    apply (dies_inv (MkSystem _ _ t' None _ _ _)). apply (tokens_inv s); [done|done|done|by left].
  - exact (dies_inv s HI).
  - pose proof (tokens_inv s (MkTokens (memory (tokens s)) (memory (tokens s))) (job s) (reports s) [] HI) as H. rewrite app_nil_r in H.
    apply H; [apply keeps_memory; by left|done|by left].
  - apply (tokens_inv s); [done| |done|by left]. destruct saved; [apply keeps_memory|apply keeps_unsaved]; intros a k; apply prune_kept.
  - apply (tokens_inv s); [done| |done|by left].
    assert (Hk : ∀ b k', om_get b (memory (tokens s)) = Some k' → om_get b (om_set a k (memory (tokens s))) = Some k' ∨ HLost b ∈ [HLost a]).
    { intros b k1 Hk1. destruct (decide (b = a)) as [->|]; [right; by apply list_elem_of_singleton|left]. by rewrite om_get_set_ne. }
    destruct saved; [by apply keeps_memory|by apply keeps_unsaved].
  - destruct (Hrep _ _ H) as [Hborn Ho]. apply complete_stored; [done|done|]. intros Ha Hok. by apply Ho, true_bool.
  - by split.
Qed.

Lemma work_start_inv t : Inv (start t).
Proof.
  assert (Hnil : rows_ok [] []) by (split; [apply NoDup_nil_2|by intros ? ? ?%elem_of_nil|by intros ? ?%elem_of_nil]).
  split; cbn; [done|done|apply NoDup_nil_2|done|by intros ? ? ?%elem_of_nil|by intros ? ?%elem_of_nil|by intros ? ?%elem_of_nil].
Qed.

Lemma work_run_inv t s : rtc step (start t) s → Inv s.
Proof.
  pose proof (work_start_inv t) as HI. revert HI. generalize (start t) as s0. intros s0 HI H. revert HI. induction H as [|x y z Hxy _ IH]; [done|].
  intros HI. apply IH. by eapply work_step_inv.
Qed.

(** A command is under way once: whatever saves fail, processes die and messages are repeated, two rows
    for the same action on the same agent, side and room are never open at a time, and of an approval
    notice there is one row at all for the engagement it announces. *)
Theorem one_row_per_command t s i j r1 r2 : rtc step (start t) s → rows s !! i = Some r1 → rows s !! j = Some r2 → clash r1 r2 → i = j.
Proof.
  intros [[Hids Hone _] _ _ _ _ _ _]%work_run_inv Hi Hj Hc. apply (NoDup_lookup _ _ _ (id r1) Hids); rewrite list_lookup_fmap, ?Hi, ?Hj; [done|].
  cbn. f_equal. symmetry. apply Hone; [by eapply list_elem_of_lookup_2..|done].
Qed.


End runs.

(** ** Tokens *)

Section tokens.
Context (num_str : num → string) (str_num : string → num) (validURL : string → bool) (regExp : string → option (string → bool)) (sha256 : string → string).
Import HttpProg.

(** A request of a job: where it goes, and whose token it carries. *)
Definition stays (s : MatrixSide.Side) (c : option ProjectSides.Credential) (stored : option Stored) (h : history) (q : request) : Prop :=
  base q = ProjectSides.strip_slashes (MatrixSide.apiBaseUrl s) ∧
  match bearer q with
  | Some t => own_token c t ∨ issued num_str h t ∨
      ∃ k, stored = Some k ∧ homeserver k = ProjectSides.strip_slashes (MatrixSide.apiBaseUrl s) ∧ serverName_ k = MatrixSide.serverName s ∧ t = to_str num_str (accessToken k)
  | None => path q = "/_matrix/client/v3/register"
  end.

Lemma allowed_stays s c stored op h q : MatrixSideFacts.credential_of op = c → allowed num_str regExp s op h q → stays s c stored h q.
Proof. intros <- [[Hb Ht] _]. split; [done|]. destruct (bearer q); [|done]. destruct Ht as [?|?]; [by left|by right; left]. Qed.

Lemma execute_stays s c job stored password h :
  spec (stays s c stored) (λ _ _, True) (λ _ _, True) h (executeMatrixWork num_str validURL regExp sha256 s c job stored password).
Proof.
  unfold executeMatrixWork. destruct (approved _).
  { apply spec_bind. eapply spec_mono; [|by intros|done].
    eapply spec_implies; [apply (send_spec num_str validURL regExp s (MatrixSide.Send c (str_or_null (roomId job)) (content job) (JStr ("engagement-approved:" +:+ default "null" (engagementId job))) "m.room.message")); done|].
    intros h' q. by apply allowed_stays. }
  destruct (String.eqb _ "representative-logout").
  { unfold representativeLogout. destruct c as [[|reg [t|]]|]; try done. destruct (negb _); [done|]. apply spec_bind, spec_fetch; [|done|done]. split; [done|by left]. }
  assert (Hid : spec (stays s c stored) (λ _ _, True) (λ _ _, True) h (identity num_str validURL regExp s c job stored password)).
  { unfold identity. destruct (is_localpart _) as [l|]; [|done]. destruct stored as [k|]; [done|]. apply spec_bind.
    eapply spec_mono; [eapply spec_implies; [by eapply (mint_spec num_str validURL regExp s (MatrixSide.Mint c l password))|]| |done].
    - intros h' q. by apply allowed_stays.
    - intros h' m _. by destruct (_ || _). }
  destruct stored as [k|].
  - destruct (_ || _) eqn:Hside; [done|]. apply orb_false_iff in Hside as [Hh%negb_false_iff%String.eqb_eq Hn%negb_false_iff%String.eqb_eq].
    destruct (String.eqb _ "identity"); [done|]. unfold asAgent. destruct (_ || _); [done|]. destruct (negb _); [done|].
    apply spec_bind, spec_fetch; [|done|done]. split; [done|]. right; right. by exists k.
  - destruct (String.eqb _ "logout"); [done|]. by destruct (String.eqb _ "identity").
Qed.

(** The bridge's tokens do not wander: whatever a job asks for and whatever the homeserver answers, every
    request of the job goes to the homeserver of the side that the job names, and carries the token of that
    side's credential, a token issued by it in this call, or the token of the agent when that was issued
    for the same homeserver and server name; only a registration goes without. *)
Theorem work_tokens_stay_home s c job stored password server h1 q r h2 :
  h1 ++ (q, r) :: h2 = (run server [] (executeMatrixWork num_str validURL regExp sha256 s c job stored password)).2 → stays s c stored h1 q.
Proof. intros H. destruct (run_spec _ _ _ server _ _ (execute_stays s c job stored password [])) as [_ Hreq]. by apply (Hreq h1 q r h2). Qed.

End tokens.

(** ** A concrete run *)

Module MatrixWorkSample.
Import MatrixSideSample.

Definition side : MatrixSide.Side := MatrixSide.MkSide "https://cust.org/" "cust.org" None.
Definition reg : ProjectSides.Credential := ProjectSides.RegistrationToken "reg-secret" (Some "rep-secret").
Definition make : Command := MkCommand "identity" (Some "ada") "cust.org" (JStr "ac_1") None None (Some "e1") JNull.
Definition server : HttpProg.history → list HttpProg.hop → HttpProg.hop → HttpProg.response :=
  MatrixSideSample.answers 200 (JObj [("access_token", JStr "agent-secret"); ("user_id", JStr "@ac_1:cust.org")]).
Abbreviation step := (step num_str validURL regExp (λ s, s)).

Definition s0 : System := start [].
Definition s1 : System := Eval vm_compute in (let s := stored_as (enqueue make "job1" 10 SaveDone (rows s0)) s0 in
  MkSystem (rows s) (disk s) (tokens s) (job s) (reports s) [("job1", ("identity", Some "ada"))] (history s)).
Definition row2 : Row := Eval vm_compute in default (new_row make "job1" 10) (head (so_mem (claim "t1" 20 SaveDone (rows s1)))).

Definition row1 : Row := Eval vm_compute in default row2 (head (rows s1)).

Lemma work_run1 : rtc step s0 s1.
Proof. apply rtc_once, (s_enqueue _ _ _ _ make "job1" 10 SaveDone s0). by intros ?%elem_of_nil. Qed.


Definition asked : HttpProg.request := HttpProg.MkRequest "POST" "https://cust.org" "/_matrix/client/v3/logout" [] (Some "agent-secret") (Some (JObj [])).
Definition logout : Row := new_row (MkCommand "logout" (Some "ada") "cust.org" JUndef None (Some "@ac_1:cust.org") None JNull) "job2" 40.
Definition ada : Stored := MkStored "https://cust.org" "cust.org" (JStr "@ac_1:cust.org") (JStr "agent-secret").
End MatrixWorkSample.

Lemma one_row_per_command_witness : 0%nat = 0%nat ∧ clash MatrixWorkSample.row1 MatrixWorkSample.row1.
Proof.
  assert (Hc : clash MatrixWorkSample.row1 MatrixWorkSample.row1) by (by split_and!). split; [|exact Hc].
  apply (one_row_per_command MatrixSideSample.num_str MatrixSideSample.validURL MatrixSideSample.regExp (λ s, s) [] MatrixWorkSample.s1 0 0 MatrixWorkSample.row1 MatrixWorkSample.row1);
    [exact MatrixWorkSample.work_run1|reflexivity|reflexivity|exact Hc].
Defined.


Lemma work_tokens_stay_home_witness : stays MatrixSideSample.num_str MatrixWorkSample.side None (Some MatrixWorkSample.ada) [] MatrixWorkSample.asked.
Proof.
  apply (work_tokens_stay_home MatrixSideSample.num_str MatrixSideSample.validURL MatrixSideSample.regExp (λ s, s) MatrixWorkSample.side None MatrixWorkSample.logout (Some MatrixWorkSample.ada) "pw"
    (MatrixSideSample.answers 200 JNull) [] MatrixWorkSample.asked (HttpProg.Reply 200 JNull JNull) []).
  vm_compute. reflexivity.
Defined.

(** A row that nobody has claimed is completed by a call without a claim token. *)
Example unclaimed_row_is_completed :
  so_res (complete "job1" None (JObj [("ok", JBool true); ("mxid", JStr "@ac_9:cust.org")]) true 20 SaveDone (rows MatrixWorkSample.s1))
  = Ok (Some (completed (JObj [("ok", JBool true); ("mxid", JStr "@ac_9:cust.org")]) true 20 (new_row MatrixWorkSample.make "job1" 10))).
Proof. vm_compute. reflexivity. Qed.
