(* ===== verification/DispatchRouter.v ===== *)
(** * The dispatch router ([router/src/store.ts], [router/src/activity.ts])

    The durable store by which the turns of agents are handed to disposable runners: dispatches of a
    session are queued, leased to a runner under a fence generation and a capability, started once, parked
    while an owner decides, and settled; a runner whose end was not seen leaves an outcome that is unknown,
    which closes its session and its workspace until an operator has inspected it.

    Tables are lists of rows in the order of their row ids; a statement acts on them as its SQL says, with
    the keys and unique indexes of the schema. A method is a transaction in a state monad: a refusal keeps
    what was written, an error takes everything back, and an input error becomes a refusal after that. A
    column that holds a JSON text is the value it parses to. The calls of the clock within one transaction
    give the same time. The context that a started runner is given is an argument, and so are random ids and
    tokens; texts shown to people beyond Latin-1 are their bytes. What comes in before a dispatch is queued
    is in [RouterIntake]. Left out: file replies, the queries of the inspector, the windows of conversations, the digests of columns that
    nobody reads, and the migrations. The check of the resolution that its update changed a row cannot fail,
    because the row was read in the same transaction. *)

From Stdlib Require Import ZArith QArith Qround Lia String Ascii.
From stdpp Require Import base list strings.
From S2P Require Import Prelude OMap Json ExecAuth ProjectSides.
#[local] Open Scope stdpp_scope.
#[local] Open Scope js_scope.

Module DispatchRouter.

(** ** Tables *)

Inductive dispatch_state : Type := Queued | Leased | Started | Parked | Completed | CancelledBeforeStart | OutcomeUnknown.
#[export] Instance dispatch_state_dec : EqDecision dispatch_state.
Proof. solve_decision. Defined.

(** A row of an outbox is pending, claimed for a while, delivered or failed. *)
Inductive outbox_state : Type := OPending | OClaimed | ODelivered | OFailed.
#[export] Instance outbox_state_dec : EqDecision outbox_state.
Proof. solve_decision. Defined.

Record Dispatch : Type := MkDispatch {
  d_id : string; d_session : string; d_task : option string; d_state : dispatch_state; d_framework : string; d_payload : jval;
  d_may_write : bool; d_mode : string; d_workspace : option string; d_named : list string; d_fence : Z; d_runner : option string;
  d_lease_until : option Z; d_effect_ack : option Z; d_started : option Z; d_parked : option Z; d_settled : option Z;
  d_reason : option string; d_output : option jval; d_fenced_output : option jval; d_created : Z;
  d_failures : Z; d_available : option Z; d_launch_error : option string;
}.
#[export] Instance eta_dispatch : Settable Dispatch := λ d,
  MkDispatch (d_id d) (d_session d) (d_task d) (d_state d) (d_framework d) (d_payload d) (d_may_write d) (d_mode d) (d_workspace d) (d_named d)
    (d_fence d) (d_runner d) (d_lease_until d) (d_effect_ack d) (d_started d) (d_parked d) (d_settled d) (d_reason d) (d_output d)
    (d_fenced_output d) (d_created d) (d_failures d) (d_available d) (d_launch_error d).

Record Session : Type := MkSession {
  s_id : string; s_agent : string; s_name : string; s_room : string; s_thread : option string; s_mode : option string; s_created : Z;
  s_model : option string; s_generation : Z; s_summary : string; s_active : Z;
}.
#[export] Instance eta_session : Settable Session := λ x,
  MkSession (s_id x) (s_agent x) (s_name x) (s_room x) (s_thread x) (s_mode x) (s_created x) (s_model x) (s_generation x) (s_summary x) (s_active x).
Record Message : Type := MkMessage {
  m_id : string; m_room : string; m_event : option string; m_thread : option string; m_sender : option string; m_name : option string;
  m_body : string; m_digest : string; m_received : Z; m_explicit : bool;
}.
(** [session_messages]: a message as an input of a session. *)
Record Projection : Type := MkProjection { p_session : string; p_message : string; p_at : Z; p_processed : option Z }.
#[export] Instance eta_projection : Settable Projection := λ p, MkProjection (p_session p) (p_message p) (p_at p) (p_processed p).
Record Task : Type := MkTask {
  t_id : string; t_status : string; t_started : option string; t_completed : option string; t_waiting : option string; t_until : option string;
  t_updated : string; t_epoch : Z; t_title : string; t_description : string; t_priority : string; t_granularity : string;
  t_agent : option string; t_name : option string; t_by : option string; t_parent : option string; t_labels : list string; t_created : string;
}.
#[export] Instance eta_task : Settable Task := λ t,
  MkTask (t_id t) (t_status t) (t_started t) (t_completed t) (t_waiting t) (t_until t) (t_updated t) (t_epoch t)
    (t_title t) (t_description t) (t_priority t) (t_granularity t) (t_agent t) (t_name t) (t_by t) (t_parent t) (t_labels t) (t_created t).
Record Binding : Type := MkBinding {
  b_task : string; b_agent : string; b_room : string; b_thread : string; b_anchor : option string; b_state : string;
  b_creator : option string; b_scope : string; b_key : string; b_digest : string;
}.
#[export] Instance eta_binding : Settable Binding := λ b,
  MkBinding (b_task b) (b_agent b) (b_room b) (b_thread b) (b_anchor b) (b_state b) (b_creator b) (b_scope b) (b_key b) (b_digest b).
Record Input : Type := MkInput { i_task : string; i_message : string; i_root : bool; i_attached : Z; i_activated : option Z }.
#[export] Instance eta_input : Settable Input := λ i, MkInput (i_task i) (i_message i) (i_root i) (i_attached i) (i_activated i).
(** [dispatch_messages]: the inputs that a dispatch hands over. *)
Record Batch : Type := MkBatch { x_dispatch : string; x_session : string; x_message : string; x_at : Z }.
Record Capability : Type := MkCapability { c_hash : string; c_dispatch : string; c_runner : string; c_fence : Z; c_expires : Z; c_revoked : option Z }.
#[export] Instance eta_capability : Settable Capability := λ c, MkCapability (c_hash c) (c_dispatch c) (c_runner c) (c_fence c) (c_expires c) (c_revoked c).
Record Resource : Type := MkResource {
  w_id : string; w_kind : string; w_label : string; w_path : option string; w_branch : option string; w_dirty : bool; w_reason : option string;
  w_inspected : option Z; w_generation : Z; w_by : option string;
}.
#[export] Instance eta_resource : Settable Resource := λ w,
  MkResource (w_id w) (w_kind w) (w_label w) (w_path w) (w_branch w) (w_dirty w) (w_reason w) (w_inspected w) (w_generation w) (w_by w).
Record Lease : Type := MkLease { l_resource : string; l_dispatch : string; l_at : Z; l_until : Z }.
Record Wait : Type := MkWait {
  a_id : string; a_dispatch : string; a_operation : string; a_thread : option string; a_turn : option string; a_item : option string;
  a_request : option string; a_created : Z; a_resolved : option Z; a_decision : option bool; a_resumed : option Z;
}.
#[export] Instance eta_wait : Settable Wait := λ a,
  MkWait (a_id a) (a_dispatch a) (a_operation a) (a_thread a) (a_turn a) (a_item a) (a_request a) (a_created a) (a_resolved a) (a_decision a) (a_resumed a).
(** [approval_inbox]: a decision, which is to allow or not. *)
Record Verdict : Type := MkVerdict { v_event : string; v_approval : string; v_dispatch : string; v_allow : bool; v_digest : string; v_at : Z }.
Record Reply : Type := MkReply {
  r_id : string; r_dispatch : string; r_txn : string; r_room : string; r_thread : option string; r_body : string; r_sender : string; r_digest : string;
  r_state : outbox_state; r_token : option string; r_until : option Z; r_event : option string; r_error : option string;
}.
#[export] Instance eta_reply : Settable Reply := λ r,
  MkReply (r_id r) (r_dispatch r) (r_txn r) (r_room r) (r_thread r) (r_body r) (r_sender r) (r_digest r) (r_state r) (r_token r) (r_until r) (r_event r) (r_error r).
Record Notice : Type := MkNotice {
  n_id : string; n_dispatch : option string; n_task : option string; n_key : string; n_txn : string; n_room : string; n_thread : option string;
  n_body : string; n_sender : string; n_digest : string; n_state : outbox_state; n_token : option string; n_until : option Z;
  n_event : option string; n_error : option string; n_created : Z;
}.
#[export] Instance eta_notice : Settable Notice := λ n,
  MkNotice (n_id n) (n_dispatch n) (n_task n) (n_key n) (n_txn n) (n_room n) (n_thread n) (n_body n) (n_sender n) (n_digest n) (n_state n) (n_token n)
    (n_until n) (n_event n) (n_error n) (n_created n).
Record Inspection : Type := MkInspection {
  q_id : string; q_dispatch : string; q_resource : option string; q_generation : Z; q_token : string; q_created : Z; q_expires : Z; q_consumed : option Z;
}.
#[export] Instance eta_inspection : Settable Inspection := λ q,
  MkInspection (q_id q) (q_dispatch q) (q_resource q) (q_generation q) (q_token q) (q_created q) (q_expires q) (q_consumed q).
Inductive action : Type := Continue | AcceptCompleted | KeepBlocked.
#[export] Instance action_dec : EqDecision action.
Proof. solve_decision. Defined.
Record Resolution : Type := MkResolution {
  o_dispatch : string; o_request : string; o_digest : string; o_inspection : string; o_action : action; o_note : string;
  o_instruction : option string; o_replacement : option string; o_at : Z;
}.
Record Activity : Type := MkActivity {
  y_dispatch : string; y_phase : string; y_kind : option string; y_tools : Z; y_finished : Z; y_started : Z; y_updated : Z; y_queued : Z;
  y_revision : Z; y_anchor : option string;
}.
#[export] Instance eta_activity : Settable Activity := λ y,
  MkActivity (y_dispatch y) (y_phase y) (y_kind y) (y_tools y) (y_finished y) (y_started y) (y_updated y) (y_queued y) (y_revision y) (y_anchor y).
(** [matrix_outbox]: the announcement of a task in its thread. *)
Record Order : Type := MkOrder {
  g_id : string; g_task : string; g_txn : string; g_payload : jval; g_digest : string; g_state : outbox_state; g_token : option string;
  g_until : option Z; g_event : option string; g_error : option string;
}.
#[export] Instance eta_order : Settable Order := λ g,
  MkOrder (g_id g) (g_task g) (g_txn g) (g_payload g) (g_digest g) (g_state g) (g_token g) (g_until g) (g_event g) (g_error g).
(** [task_input_requests] and [ingestion_cursors] *)
Record Attached : Type := MkAttached { h_scope : string; h_key : string; h_task : string; h_digest : string; h_count : Z; h_at : Z }.
Record Cursor : Type := MkCursor { u_source : string; u_value : string; u_at : Z }.
#[export] Instance eta_cursor : Settable Cursor := λ u, MkCursor (u_source u) (u_value u) (u_at u).
Record Event : Type := MkEvent { e_seq : Z; e_at : Z; e_kind : string; e_audience : string; e_payload : jval }.

Record DB : Type := MkDB {
  sessions : list Session; messages : list Message; projections : list Projection; tasks : list Task; bindings : list Binding; inputs : list Input;
  dispatches : list Dispatch; batches : list Batch; capabilities : list Capability; resources : list Resource; leases : list Lease;
  waits : list Wait; verdicts : list Verdict; replies : list Reply; notices : list Notice; inspections : list Inspection;
  resolutions : list Resolution; activities : list Activity; activity_events : list (string * string);
  events : list Event; low : Z; high : Z;
  orders : list Order; attachments : list Attached; cursors : list Cursor;
}.
#[export] Instance eta_router : Settable DB := λ s,
  MkDB (sessions s) (messages s) (projections s) (tasks s) (bindings s) (inputs s) (dispatches s) (batches s) (capabilities s) (resources s) (leases s)
    (waits s) (verdicts s) (replies s) (notices s) (inspections s) (resolutions s) (activities s) (activity_events s) (events s) (low s) (high s)
    (orders s) (attachments s) (cursors s).

Definition empty : DB := MkDB [] [] [] [] [] [] [] [] [] [] [] [] [] [] [] [] [] [] [] [] 0 0 [] [] [].

(** ** Transactions *)

(** A refusal is an answer; an input error and any other error end the transaction. *)
Inductive failure : Type := Refused (code : string) | InputError | Broken (what : string).

Definition M (A : Type) : Type := DB → (failure + A) * DB.
#[export] Instance ret : MRet M := λ A a s, (inr a, s).
#[export] Instance bind : MBind M := λ A B k m s, let '(r, s) := m s in match r with inr a => k a s | inl f => (inl f, s) end.
Definition fail {A} (f : failure) : M A := λ s, (inl f, s).
Definition refuse {A} (code : string) : M A := fail (Refused code).
Definition gets {A} (f : DB → A) : M A := λ s, (inr (f s), s).
Definition modify (f : DB → DB) : M unit := λ s, (inr tt, f s).
Definition when (b : bool) (m : M unit) : M unit := if b then m else mret tt.
(** [for (const x of l)] *)
Definition each {A} (f : A → M unit) : list A → M unit := foldr (λ a m, f a ;; m) (mret tt).
(** A row that is there, or the error or refusal of its absence. *)
Definition found {A} (o : option A) (f : failure) : M A := match o with Some a => mret a | None => fail f end.

Definition transaction {A} (m : M A) : M A := λ s,
  match m s with (inr a, s') => (inr a, s') | (inl (Refused c), s') => (inl (Refused c), s') | (inl f, _) => (inl f, s) end.
(** [try { ... } catch (error) { if (error instanceof RouterInputError) return refusal(...) }] *)
Definition guarded {A} (m : M A) : M A := λ s, match transaction m s with (inl InputError, s') => (inl (Refused "bad_request"), s') | r => r end.

Notation "'refuse_if' b 'with' c ;; k" := (if (b : bool) then refuse c else k) (at level 20, b at level 100, c at level 9, k at level 200) : js_scope.

(** [UPDATE ... SET f WHERE p] *)
Definition update_where {R} (p : R → bool) (f : R → R) (rows : list R) : list R := List.map (λ r, if p r then f r else r) rows.
(** [DELETE ... WHERE p] *)
Definition delete_where {R} (p : R → bool) (rows : list R) : list R := List.filter (λ r, negb (p r)) rows.
(** [INSERT]: a row that another one keeps out breaks the statement. *)
Definition insert {R} (get : DB → list R) (put : list R → DB → DB) (clash : R → R → bool) (r : R) : M unit :=
  rows ← gets get; if existsb (clash r) rows then fail (Broken "constraint") else modify (put (rows ++ [r])).

(** ** Texts and digests *)

Definition requiredText (v : jval) (max : nat) : M string :=
  match v with
  | JStr s => let t := trim s in if negb (truthy t) || (max <? String.length t)%nat then fail InputError else mret t
  | _ => fail InputError
  end.
Definition optionalText (v : jval) (max : nat) : option string := Prelude.text_of v max.

Definition opt_eq (a : option string) (b : string) : bool := match a with Some a => String.eqb a b | None => false end.
Definition is_some_str (a : option string) : bool := match a with Some _ => true | None => false end.

Section router.
Context (num_str : num → string) (sha256 : string → string) (toISOString : Z → string) (eventRetention : Z).

Definition digest (v : jval) : string := match v with JStr s => sha256 s | _ => ExecAuth.digest num_str sha256 v end.
Definition int (z : Z) : jval := JNum (Fin (inject_Z z)).

(** ** Events of the router *)

Definition trimEvents (s : DB) : DB :=
  let count := Z.of_nat (length (events s)) in
  if count <=? eventRetention then s else
  match drop (Z.to_nat (count - eventRetention)) (events s) with
  | [] => s
  | b :: _ => s <| events := delete_where (λ e, e_seq e <? e_seq b) (events s) |> <| low := e_seq b |>
  end.

Definition emit (now : Z) (kind : string) (payload : list (string * jval)) (audience : string) : M unit :=
  modify (λ s, trimEvents (s <| events := events s ++ [MkEvent (high s + 1) now kind audience (JObj payload)] |> <| high := high s + 1 |>)).

(** ** Rows *)

Definition is_id (i : string) (d : Dispatch) : bool := String.eqb (d_id d) i.
Definition dispatchOf (i : string) (s : DB) : option Dispatch := List.find (is_id i) (dispatches s).
Definition sessionOf (i : string) (s : DB) : option Session := List.find (λ x, String.eqb (s_id x) i) (sessions s).
Definition taskOf (i : string) (s : DB) : option Task := List.find (λ t, String.eqb (t_id t) i) (tasks s).
Definition messageOf (i : string) (s : DB) : option Message := List.find (λ m, String.eqb (m_id m) i) (messages s).
Definition resourceOf (i : string) (s : DB) : option Resource := List.find (λ w, String.eqb (w_id w) i) (resources s).
Definition waitOf (i : string) (s : DB) : option Wait := List.find (λ a, String.eqb (a_id a) i) (waits s).

Definition set_dispatch (i : string) (f : Dispatch → Dispatch) : M unit := modify (λ s, s <| dispatches := update_where (is_id i) f (dispatches s) |>).
Definition set_resource (p : Resource → bool) (f : Resource → Resource) : M unit := modify (λ s, s <| resources := update_where p f (resources s) |>).
(** An update of the status of a task, with the trigger that counts its completions. *)
Definition with_status (st : string) (t : Task) : Task :=
  t <| t_status := st |> <| t_epoch := if String.eqb st "done" && negb (String.eqb (t_status t) "done") then t_epoch t + 1 else t_epoch t |>.
Definition set_task (i : string) (p : Task → bool) (f : Task → Task) : M unit :=
  modify (λ s, s <| tasks := update_where (λ t, String.eqb (t_id t) i && p t) f (tasks s) |>).

(** Leased, started or parked: a runner holds the dispatch. *)
Definition live (d : Dispatch) : bool := match d_state d with Leased | Started | Parked => true | _ => false end.
Definition is_parked (d : Dispatch) : bool := bool_decide (d_state d = Parked).
Definition is_queued (d : Dispatch) : bool := bool_decide (d_state d = Queued).
Definition unknown (d : Dispatch) : bool := bool_decide (d_state d = OutcomeUnknown).
Definition of_session (i : string) (d : Dispatch) : bool := String.eqb (d_session d) i.

(** [ORDER BY created_at] and [ORDER BY created_at DESC] *)
Definition oldest (l : list Dispatch) : list Dispatch := stable_sort (λ a b, d_created a <? d_created b) l.
Definition newest (l : list Dispatch) : list Dispatch := stable_sort (λ a b, d_created b <? d_created a) l.

(** What a dispatch needs for itself: the workspace when it may write, and its named resources. *)
Definition needed (d : Dispatch) : list string :=
  (match d_workspace d with Some w => if d_may_write d && truthy w then [w] else [] | None => [] end) ++ d_named d.

(** The capabilities and leases of a dispatch that is over. *)
Definition revoke (now : Z) (i : string) : M unit :=
  modify (λ s, s <| capabilities := update_where (λ c, String.eqb (c_dispatch c) i && negb (is_Some_b (c_revoked c))) (λ c, c <| c_revoked := Some now |>) (capabilities s) |>).
Definition release (i : string) : M unit := modify (λ s, s <| leases := delete_where (λ l, String.eqb (l_dispatch l) i) (leases s) |>).

(** ** Notices *)

(** [INSERT OR IGNORE] *)
Definition insertNotice (now : Z) (dispatch task : option string) (key room : string) (thread : option string) (sender body : string) : M unit :=
  let id := "notice_" +:+ slice_to 40 (digest (JStr key)) in
  let n := MkNotice id dispatch task key ("hagency_" +:+ slice_to 40 (digest (JStr id))) room thread body sender
    (digest (JObj [("dispatchId", str_or_null dispatch); ("taskId", str_or_null task); ("roomId", JStr room); ("threadRootEventId", str_or_null thread); ("body", JStr body)]))
    OPending None None None None now in
  ns ← gets notices;
  if existsb (λ m, String.eqb (n_id m) (n_id n) || String.eqb (n_key m) key || String.eqb (n_txn m) (n_txn n)) ns then mret tt else
  modify (λ s, s <| notices := notices s ++ [n] |>) ;;
  emit now "thread.notice_queued" [("commandId", JStr id); ("dispatchId", str_or_null dispatch); ("taskId", str_or_null task)] "operator".

Definition enqueueThreadNotice (now : Z) (d : Dispatch) (key body : string) : M unit :=
  x ← gets (sessionOf (d_session d));
  x ← found x (Broken "dispatch session is missing during notice creation");
  insertNotice now (Some (d_id d)) (d_task d) key (s_room x) (s_thread x) (s_name x) body.

(** ** The activity of a runner, as people see it *)

Definition LABELS : list (string * string) :=
  [("command", "运行命令"); ("files", "读取或修改文件"); ("search", "搜索资料"); ("delegate", "委派任务"); ("tool", "调用工具")].

(** The phase of an event, with the kind of tool and the id of the call. *)
Record ActivityEvent : Type := MkActivityEvent { ae_phase : string; ae_kind : string; ae_event : string }.
Definition phase (p : string) : ActivityEvent := MkActivityEvent p EmptyString EmptyString.
Definition tool_phase (p : string) : bool := inb p ["tool_start"; "tool_end"].
Definition activityOf (i : string) (s : DB) : option Activity := List.find (λ y, String.eqb (y_dispatch y) i) (activities s).
Definition set_activity (i : string) (f : Activity → Activity) (s : DB) : DB :=
  s <| activities := update_where (λ y, String.eqb (y_dispatch y) i) f (activities s) |>.

Definition activity_body (now : Z) (y : Activity) : string :=
  let p := y_phase y in
  let said :=
    if String.eqb p "waiting" then "等待负责人授权；请在私人审批房间处理" else
    if String.eqb p "completed" then "本轮处理已结束" else
    if String.eqb p "interrupted" then "执行已中断，结果待确认" else
    if String.eqb p "resumed" then "已收到审批决定，继续处理" else
    if String.eqb p "tool_start" then "正在" +:+ default EmptyString (om_get (default "tool" (y_kind y)) LABELS) else
    if String.eqb p "tool_end" then "工具调用已返回，继续处理" else "已开始处理，等待运行器的下一步事件" in
  let icon := if String.eqb p "completed" then "✅" else if String.eqb p "interrupted" then "⚠️" else if String.eqb p "waiting" then "⏸️" else "⏳" in
  let shown z := num_str (Fin (inject_Z z)) in
  icon +:+ " " +:+ said +:+ String (ascii_of_nat 10) ("已运行 " +:+ shown (Z.max 0 ((now - y_started y) / 1000)) +:+ " 秒 · 工具调用 " +:+ shown (y_tools y) +:+ " 次，已返回 " +:+ shown (y_finished y) +:+ " 次").

(** [ActivityStore.update]: the revision and the text to show, when it is due. *)
Definition activity_update (now : Z) (i : string) (e : ActivityEvent) (s : DB) : option (Z * string) * DB :=
  let p := ae_phase e in
  let previous := activityOf i s in
  match previous with
  | Some y => if inb (y_phase y) ["completed"; "interrupted"] || String.eqb p "started" then (None, s) else
      let key := p +:+ ":" +:+ ae_event e in
      let has k := existsb (λ x : string * string, String.eqb x.1 i && String.eqb x.2 k) (activity_events s) in
      if tool_phase p && (negb (is_Some_b (om_get (ae_kind e) LABELS)) || (String.eqb p "tool_end" && negb (has ("tool_start:" +:+ ae_event e))) || has key) then (None, s) else
      let s := if tool_phase p then s <| activity_events := activity_events s ++ [(i, key)] |> else s in
      let y' :=
        if tool_phase p then y <| y_phase := p |> <| y_kind := Some (ae_kind e) |> <| y_tools := y_tools y + (if String.eqb p "tool_start" then 1 else 0) |>
          <| y_finished := y_finished y + (if String.eqb p "tool_end" then 1 else 0) |>
        else if String.eqb p "heartbeat" then y else y <| y_phase := p |> <| y_kind := None |> in
      let immediate := inb p ["started"; "waiting"; "resumed"; "completed"; "interrupted"] || (String.eqb p "tool_start" && (y_tools y' =? 1)) in
      let due := immediate || ((if String.eqb p "heartbeat" then 30000 else 5000) <=? now - y_queued y) in
      let s := set_activity i (λ _, y' <| y_updated := now |>) s in
      if negb due then (None, s) else
      let s := set_activity i (λ y, y <| y_queued := now |> <| y_revision := y_revision y' + 1 |>) s in
      (Some (y_revision y' + 1, activity_body now y'), s)
  | None => if negb (String.eqb p "started") then (None, s) else
      let y := MkActivity i "started" None 0 0 now now now 1 None in
      (Some (1, activity_body now y), s <| activities := activities s ++ [y] |>)
  end.

(** A text that was not sent yet gives way to the new one. *)
Definition is_activity (key : string) : bool := String.prefix "activity:" key.
Definition updateActivity (now : Z) (d : Dispatch) (e : ActivityEvent) : M unit :=
  update ← (λ s, let '(u, s) := activity_update now (d_id d) e s in (inr u, s));
  match update with
  | None => mret tt
  | Some (revision, body) =>
      modify (λ s, s <| notices := update_where (λ n, opt_eq (n_dispatch n) (d_id d) && is_activity (n_key n) && bool_decide (n_state n = OPending))
        (λ n, n <| n_state := OFailed |> <| n_error := Some "activity_superseded" |>) (notices s) |>) ;;
      enqueueThreadNotice now d ("activity:" +:+ d_id d +:+ ":" +:+ num_str (Fin (inject_Z revision))) body
  end.

(** ** Capabilities *)

Record CapabilityInput : Type := MkCapabilityInput { k_dispatch : jval; k_runner : jval; k_capability : jval; k_fence : jval }.

Definition integer (v : jval) : option Z :=
  match v with JNum (Fin q) => let z := Qfloor q in if Qeq_bool q (inject_Z z) then Some z else None | _ => None end.

Definition capabilityOf (c : string) (s : DB) : option Capability := List.find (λ r, String.eqb (c_hash r) (digest (JStr c))) (capabilities s).

(** The dispatch, when the capability is the one under which it is held now. *)
Definition validateCapability (now : Z) (i : CapabilityInput) (s : DB) : string + Dispatch :=
  match k_dispatch i, k_runner i, k_capability i, integer (k_fence i) with
  | JStr did, JStr runner, JStr c, Some g =>
      if g <=? 0 then inl "bad_request" else
      match dispatchOf did s with
      | None => inl "not_found"
      | Some d =>
          match capabilityOf c s with
          | None => inl "invalid_capability"
          | Some r =>
              if is_Some_b (c_revoked r) then inl "invalid_capability" else
              if c_expires r <? now then inl "capability_expired" else
              if negb (String.eqb (c_dispatch r) did) || negb (String.eqb (c_runner r) runner) || negb (c_fence r =? g)
                 || negb (opt_eq (d_runner d) runner) || negb (d_fence d =? g) then inl "dispatch_not_current"
              else inr d
          end
      end
  | _, _, _, _ => inl "bad_request"
  end.

Definition checked (now : Z) (i : CapabilityInput) : M Dispatch :=
  r ← gets (validateCapability now i); match r with inl code => refuse code | inr d => mret d end.

(** ** Queueing *)

Definition by_projection (a b : Projection) : bool := (p_at a <? p_at b) || ((p_at a =? p_at b) && String.ltb (p_message a) (p_message b)).
Definition assigned (s : DB) (p : Projection) : bool := existsb (λ x, String.eqb (x_session x) (p_session p) && String.eqb (x_message x) (p_message p)) (batches s).

(** The inputs of a session, or of its task, that no dispatch has. *)
Definition pendingMessages (task : option string) (session : string) (s : DB) : list string :=
  List.map p_message (stable_sort by_projection (List.filter (λ p,
    String.eqb (p_session p) session && negb (is_Some_b (p_processed p)) && negb (assigned s p) &&
    match task with
    | Some t => existsb (λ i, String.eqb (i_message i) (p_message p) && String.eqb (i_task i) t) (inputs s)
    | None => existsb (λ m, String.eqb (m_id m) (p_message p) && negb (m_explicit m)) (messages s)
    end) (projections s))).

Definition assign (now : Z) (dispatch session message : string) : M unit :=
  insert batches (λ l s, s <| batches := l |>)
    (λ x y, String.eqb (x_message x) (x_message y) && (String.eqb (x_dispatch x) (x_dispatch y) || String.eqb (x_session x) (x_session y)))
    (MkBatch dispatch session message now).

Definition ensureResource (kind id : string) : M unit :=
  r ← gets (resourceOf id);
  when (negb (is_Some_b r)) (modify (λ s, s <| resources := resources s ++ [MkResource id kind (slice_to 200 id) None None false None None 0 None] |>)).

Record EnqueueInput : Type := MkEnqueue {
  q_session : jval; q_task : jval; q_framework : string; q_server : jval; q_localServer : jval; q_mode : option string; q_workspace : jval;
  q_named : list jval; q_write : bool; q_payload : jval;
}.

Fixpoint requiredTexts (l : list jval) (max : nat) : M (list string) :=
  match l with [] => mret [] | v :: l => t ← requiredText v max; ts ← requiredTexts l max; mret (t :: ts) end.

(** Writing takes a task that is active in this thread, or the operator's grant to the session. *)
Definition may_write (x : Session) (task : option string) : M unit :=
  match task with
  | None => refuse_if negb (opt_eq (s_mode x) "auto") with "missing_task_credential" ;; mret tt
  | Some t =>
      b ← gets (λ s, List.find (λ b, String.eqb (b_task b) t) (bindings s));
      b ← found b (Refused "missing_task_binding");
      refuse_if negb (String.eqb (b_state b) "active") || negb (is_Some_b (truthy_opt (b_anchor b))) with "task_not_active" ;;
      refuse_if negb (String.eqb (s_agent x) (b_agent b)) || negb (String.eqb (s_room x) (b_room b)) || negb (opt_eq (s_thread x) (b_thread b)) with "missing_task_credential" ;;
      mret tt
  end.

Definition same_task (t : option string) (d : Dispatch) : bool := bool_decide (d_task d = t).

Definition new_dispatch (id session : string) (task : option string) (framework : string) (payload : jval) (write : bool) (mode : string)
    (workspace : option string) (named : list string) (now : Z) : Dispatch :=
  MkDispatch id session task Queued framework payload write mode workspace named 0 None None None None None None None None None now 0 None None.
Definition insert_dispatch (d : Dispatch) : M unit := insert dispatches (λ l s, s <| dispatches := l |>) (λ d e, String.eqb (d_id d) (d_id e)) d.

Definition enqueueDispatch (now : Z) (uuid : string) (i : EnqueueInput) : M (string * dispatch_state) := guarded (
  session ← requiredText (q_session i) 255;
  x ← gets (sessionOf session);
  x ← found x (Refused "not_found");
  refuse_if String.eqb (q_framework i) "octos" with "unsupported_framework" ;;
  (match optionalText (q_server i) 255 with
   | Some server => l ← requiredText (q_localServer i) 255; refuse_if negb (String.eqb server l) with "remote_runner_unsupported" ;; mret tt
   | None => mret tt
   end) ;;
  let task := optionalText (q_task i) 255 in
  when (q_write i) (may_write x task) ;;
  refuse_if has_own (q_payload i) "reply_to" || has_own (q_payload i) "replyTarget" || has_own (q_payload i) "reply_target" with "bad_request" ;;
  let workspace := optionalText (q_workspace i) 512 in
  named ← requiredTexts (q_named i) 512;
  let named := ExecAuth.unique named in
  refuse_if q_write i && negb (is_Some_b workspace) with "bad_request" ;;
  (match workspace with Some w => ensureResource "workspace" w | None => mret tt end) ;;
  each (ensureResource "named") named ;;
  pending ← gets (pendingMessages task session);
  queued ← gets (λ s, head (oldest (List.filter (λ d, of_session session d && same_task task d && is_queued d) (dispatches s))));
  match queued with
  | Some d =>
      each (assign now (d_id d) session) pending ;;
      when (0 <? length pending)%nat (emit now "dispatch.batch_extended" [("dispatchId", JStr (d_id d)); ("messageCount", int (Z.of_nat (length pending)))] "operator") ;;
      mret (d_id d, Queued)
  | None =>
      if (length pending =? 0)%nat then
        previous ← gets (λ s, head (newest (List.filter (λ d, of_session session d && same_task task d && negb (bool_decide (d_state d = CancelledBeforeStart))) (dispatches s))));
        match previous with Some d => mret (d_id d, d_state d) | None => refuse "bad_request" end
      else
        insert_dispatch (new_dispatch uuid session task (q_framework i) (q_payload i) (q_write i) (default "shared" (q_mode i)) workspace named now) ;;
        each (assign now uuid session) pending ;;
        emit now "dispatch.queued" [("dispatchId", JStr uuid); ("sessionId", JStr session); ("taskId", str_or_null task); ("mayWrite", JBool (q_write i));
          ("messageCount", int (Z.of_nat (length pending)))] "operator" ;;
        mret (uuid, Queued)
  end).

(** A workspace keeps its path and its branch. Its path is resolved by the caller's [path.resolve]. *)
Definition registerWorkspace (resourceId safeLabel : jval) (backendPath : jval) (resolve : string → string) (branchName : jval) : M unit := transaction (
  id ← requiredText resourceId 512;
  label ← requiredText safeLabel 255;
  given ← requiredText backendPath 4096;
  let path := resolve given in
  let branch := optionalText branchName 512 in
  existing ← gets (resourceOf id);
  match existing with
  | Some w =>
      if negb (String.eqb (w_kind w) "workspace") then fail (Broken "kind") else
      if match truthy_opt (w_path w) with Some p => negb (String.eqb (resolve p) path) | None => false end then fail (Broken "backend path") else
      if match truthy_opt (w_branch w), branch with Some b, Some b' => negb (String.eqb b b') | _, _ => false end then fail (Broken "branch") else
      set_resource (λ w, String.eqb (w_id w) id) (λ w, w <| w_label := label |> <| w_path := Some (default path (w_path w)) |>
        <| w_branch := match w_branch w with Some b => Some b | None => branch end |>)
  | None => modify (λ s, s <| resources := resources s ++ [MkResource id "workspace" label (Some path) branch false None None 0 None] |>)
  end).

(** ** Claiming *)

Definition unresolved (s : DB) (d : Dispatch) : bool := unknown d && negb (existsb (λ o, String.eqb (o_dispatch o) (d_id d)) (resolutions s)).
Definition unresolvedOf (session : string) (s : DB) : option Dispatch :=
  head (stable_sort (λ a b, default 0 (d_settled b) <? default 0 (d_settled a)) (List.filter (λ d, of_session session d && unresolved s d) (dispatches s))).

(** The first fresh input of a task that is done, from the one who asked for the task: it may reopen it. *)
Definition by_received (a b : Message) : bool := (m_received a <? m_received b) || ((m_received a =? m_received b) && String.ltb (m_id a) (m_id b)).
Definition asked_by (s : DB) (b : Binding) (m : Message) : bool :=
  existsb (λ i, String.eqb (i_task i) (b_task b) && i_root i && existsb (λ r,
    String.eqb (m_id r) (i_message i) && String.eqb (m_room r) (b_room b) && is_Some_b (m_event r) &&
    opt_eq (match m_thread r with Some t => Some t | None => m_event r end) (b_thread b) &&
    match m_sender m, m_sender r with Some a, Some c => String.eqb a c | _, _ => false end && negb (String.eqb (m_id m) (m_id r))) (messages s)) (inputs s).
Definition reopens (s : DB) (d : Dispatch) (x : Session) (b : Binding) (m : Message) : bool :=
  existsb (λ y, String.eqb (x_dispatch y) (d_id d) && String.eqb (x_session y) (d_session d) && String.eqb (x_message y) (m_id m)) (batches s) &&
  existsb (λ i, String.eqb (i_task i) (b_task b) && String.eqb (i_message i) (m_id m) && negb (i_root i) && is_Some_b (i_activated i)) (inputs s) &&
  existsb (λ p, String.eqb (p_session p) (s_id x) && String.eqb (p_message p) (m_id m) && negb (is_Some_b (p_processed p))) (projections s) &&
  is_Some_b (m_event m) && is_Some_b (m_sender m) && String.eqb (m_room m) (b_room b) && opt_eq (m_thread m) (b_thread b) && asked_by s b m.
Definition followup (d : Dispatch) (task : string) (s : DB) : option string :=
  match sessionOf (d_session d) s, List.find (λ b, String.eqb (b_task b) task) (bindings s) with
  | Some x, Some b =>
      if is_queued d && String.eqb (b_agent b) (s_agent x) && String.eqb (b_room b) (s_room x) && opt_eq (s_thread x) (b_thread b) &&
         String.eqb (b_state b) "active" && is_Some_b (b_anchor b)
      then m_id <$> head (stable_sort by_received (List.filter (reopens s d x b) (messages s))) else None
  | _, _ => None
  end.

(** [None] to pass the row over; else the input that reopens its task. *)
Definition taskGate (now : Z) (d : Dispatch) : M (option (option (string * option string))) :=
  match truthy_opt (d_task d) with
  | None => mret (Some None)
  | Some id =>
      t ← gets (taskOf id);
      match t with
      | None => mret None
      | Some t =>
          if String.eqb (t_status t) "blocked" then
            enqueueThreadNotice now d ("task_blocked:" +:+ d_id d +:+ ":" +:+ id)
              "Waiting: this task is blocked and must be explicitly resumed by an operator before another runner can start." ;; mret None
          else if String.eqb (t_status t) "done" then
            f ← gets (λ s, if is_Some_b (d_started d) then None else followup d id s);
            match f with
            | None => enqueueThreadNotice now d ("completed_task_followup:" +:+ d_id d +:+ ":" +:+ id)
                "This task is complete. To continue it, the original requester must send a new message mentioning the agent in this thread. Other project members can start a new task by mentioning the agent in the main room." ;; mret None
            | Some m => mret (Some (Some (m, t_completed t)))
            end
          else mret (Some None)
      end
  end.

Fixpoint available (now : Z) (d : Dispatch) (rs : list string) : M bool :=
  match rs with
  | [] => mret true
  | r :: rs =>
      w ← gets (resourceOf r);
      if match w with Some w => w_dirty w | None => false end then
        enqueueThreadNotice now d ("workspace_quarantined:" +:+ d_id d +:+ ":" +:+ r +:+ ":" +:+ default "unknown" (match w with Some w => w_by w | None => None end))
          "Waiting: this workspace is quarantined because a previous runner stopped after work may have started. An operator must inspect and resolve that outcome before another writer can run." ;; mret false
      else
        held ← gets (λ s, List.find (λ l, String.eqb (l_resource l) r) (leases s));
        match held with
        | Some l =>
            if String.eqb (l_dispatch l) (d_id d) then available now d rs else
            holder ← gets (dispatchOf (l_dispatch l));
            (match holder with
             | Some h => when (is_parked h) (enqueueThreadNotice now d ("waiting_for_approval:" +:+ d_id d +:+ ":" +:+ d_id h)
                 "Waiting: this task is queued because its workspace is held by another task awaiting owner approval.")
             | None => mret tt
             end) ;; mret false
        | None => available now d rs
        end
  end.

Record ClaimInput : Type := MkClaim { j_runner : jval; j_lease : num; j_ttl : num; j_max : Z }.
Record Claimed : Type := MkClaimed { z_dispatch : string; z_runner : string; z_fence : Z; z_capability : string; z_until : Z; z_workspace : option string }.

Definition positive (n : num) : option Z := match n with Fin q => if Qle_bool q 0 then None else Some (Qfloor q) | _ => None end.

Definition reopen (now : Z) (d : Dispatch) (f : option (string * option string)) : M unit :=
  match f, truthy_opt (d_task d) with
  | Some (m, completed), Some t =>
      set_task t (λ t, String.eqb (t_status t) "done") (λ t, with_status "in_progress" t <| t_completed := None |> <| t_waiting := None |> <| t_until := None |> <| t_updated := toISOString now |>) ;;
      emit now "task.reopened_for_followup" [("taskId", JStr t); ("dispatchId", JStr (d_id d)); ("messageId", JStr m); ("previousCompletedAt", str_or_null completed)] "operator"
  | _, _ => mret tt
  end.

Definition lease (now : Z) (runner : string) (leaseMs ttl : Z) (raw : string) (d : Dispatch) : M Claimed :=
  let fence := d_fence d + 1 in
  let until := now + leaseMs in
  modify (λ s, s <| dispatches := update_where (λ e, is_id (d_id d) e && is_queued e)
    (λ e, e <| d_state := Leased |> <| d_runner := Some runner |> <| d_fence := fence |> <| d_lease_until := Some until |> <| d_available := None |>) (dispatches s) |>) ;;
  insert capabilities (λ l s, s <| capabilities := l |>) (λ c e, String.eqb (c_hash c) (c_hash e))
    (MkCapability (digest (JStr raw)) (d_id d) runner fence (now + ttl) None) ;;
  each (λ r, insert leases (λ l s, s <| leases := l |>) (λ l e, String.eqb (l_resource l) (l_resource e)) (MkLease r (d_id d) now until)) (needed d) ;;
  emit now "dispatch.leased" [("dispatchId", JStr (d_id d)); ("runnerId", JStr runner); ("fenceGeneration", int fence)] "operator" ;;
  mret (MkClaimed (d_id d) runner fence raw until (d_workspace d)).

(** One queued row: claimed, or passed over with [None]. *)
Definition claimRow (now : Z) (runner : string) (leaseMs ttl : Z) (raw : string) (d : Dispatch) : M (option Claimed) :=
  u ← gets (unresolvedOf (d_session d));
  match u with
  | Some u => enqueueThreadNotice now d ("session_quarantined:" +:+ d_id d +:+ ":" +:+ d_id u)
      "Waiting: a previous runner in this session stopped after work may have started. An operator must inspect and resolve that outcome before another turn can run." ;; mret None
  | None =>
      f ← taskGate now d;
      match f with
      | None => mret None
      | Some f =>
          busy ← gets (λ s, existsb (λ e, of_session (d_session d) e && live e) (dispatches s));
          if busy : bool then mret None else
          free ← available now d (needed d);
          if negb free then mret None else
          reopen now d f ;; c ← lease now runner leaseMs ttl raw d; mret (Some c)
      end
  end.

Fixpoint claimRows (now : Z) (runner : string) (leaseMs ttl : Z) (raw : string) (l : list Dispatch) : M (option Claimed) :=
  match l with
  | [] => mret None
  | d :: l => c ← claimRow now runner leaseMs ttl raw d; match c with Some c => mret (Some c) | None => claimRows now runner leaseMs ttl raw l end
  end.

Definition claimDispatch (now : Z) (raw : string) (i : ClaimInput) : M (option Claimed) := guarded (
  runner ← requiredText (j_runner i) 255;
  leaseMs ← found (positive (j_lease i)) (Refused "bad_request");
  ttl ← found (positive (j_ttl i)) (Refused "bad_request");
  n ← gets (λ s, Z.of_nat (length (List.filter live (dispatches s))));
  refuse_if j_max i <=? n with "live_runner_cap" ;;
  modify (λ s, s <| leases := delete_where (λ l, existsb (λ d, is_id (l_dispatch l) d && negb (live d)) (dispatches s)) (leases s) |>) ;;
  queued ← gets (λ s, oldest (List.filter (λ d, is_queued d && match d_available d with Some t => t <=? now | None => true end) (dispatches s)));
  claimRows now runner leaseMs ttl raw queued).

Definition nextQueuedDispatchAt (now : Z) (s : DB) : option Z :=
  foldl (λ m d, match d_available d with
    | Some t => if is_queued d && (now <? t) then Some (match m with Some m => Z.min m t | None => t end) else m | None => m end) None (dispatches s).

(** ** Running *)

Record StartedPayload : Type := MkStarted {
  st_dispatch : string; st_session : string; st_task : option string; st_fence : Z; st_payload : jval;
  st_inbox : list (string * option string * string * Z); st_context : jval;
}.

Definition batchOf (i : string) (s : DB) : list (Batch * Message) :=
  base.omap (λ x, if String.eqb (x_dispatch x) i then (λ m, (x, m)) <$> messageOf (x_message x) s else None) (batches s).
Definition by_assignment (a b : Batch * Message) : bool := (x_at a.1 <? x_at b.1) || ((x_at a.1 =? x_at b.1) && by_received a.2 b.2).

(** The inputs of the dispatch are handed over, once. [context] is the context that is rebuilt, [None] when that throws. *)
Definition takePayload (now : Z) (i : CapabilityInput) (context : option jval) : M StartedPayload := guarded (
  d ← checked now i;
  refuse_if negb (bool_decide (d_state d = Leased)) with "invalid_transition" ;;
  x ← gets (sessionOf (d_session d));
  x ← found x (Broken "dispatch session is missing");
  set_dispatch (d_id d) (λ d, d <| d_state := Started |> <| d_started := Some now |>) ;;
  (match truthy_opt (d_task d) with
   | Some t => set_task t (λ t, inb (t_status t) ["created"; "accepted"])
       (λ t, with_status "in_progress" t <| t_started := match t_started t with Some a => Some a | None => Some (toISOString now) end |> <| t_updated := toISOString now |>)
   | None => mret tt
   end) ;;
  l ← gets (λ s, List.map snd (stable_sort by_assignment (batchOf (d_id d) s)));
  c ← found context (Broken "runner context");
  emit now "dispatch.started" [("dispatchId", JStr (d_id d)); ("runnerId", str_or_null (d_runner d)); ("fenceGeneration", int (d_fence d))] "operator" ;;
  mret (MkStarted (d_id d) (s_id x) (d_task d) (d_fence d) (d_payload d) (List.map (λ m, (m_id m, m_name m, m_body m, m_received m)) l) c)).

Definition acknowledgeRunnerEffect (now : Z) (i : CapabilityInput) (acceptedAt : option Z) : M unit := transaction (
  d ← checked now i;
  refuse_if negb (bool_decide (d_state d = Started)) with "invalid_transition" ;;
  set_dispatch (d_id d) (λ d, d <| d_effect_ack := Some (default now acceptedAt) |>) ;;
  emit now "dispatch.effect_acknowledged" [("dispatchId", JStr (d_id d))] "operator" ;;
  updateActivity now d (phase "started")).

Definition recordRunnerActivity (now : Z) (i : CapabilityInput) (e : ActivityEvent) : M unit := transaction (
  d ← checked now i;
  refuse_if negb (bool_decide (d_state d = Started)) with "invalid_transition" ;;
  refuse_if negb (inb (ae_phase e) ["tool_start"; "tool_end"; "heartbeat"]) with "bad_request" ;;
  updateActivity now d e).

(** ** Waiting for an approval *)

Record ParkInput : Type := MkPark {
  pk_approval : jval; pk_operation : jval; pk_thread : jval; pk_turn : jval; pk_item : jval; pk_request : jval; pk_max : Z;
}.

(** The unique indexes of [approval_waits]: one wait of a dispatch that has not been resumed, and one wait for
    a request of the runtime. *)
Definition same_request (a b : Wait) : bool :=
  String.eqb (a_dispatch a) (a_dispatch b) &&
  match a_thread a, a_turn a, a_request a, a_thread b, a_turn b, a_request b with
  | Some t, Some u, Some r, Some t', Some u', Some r' => String.eqb t t' && String.eqb u u' && String.eqb r r'
  | _, _, _, _, _, _ => false
  end.
Definition open_wait (a : Wait) : bool := negb (is_Some_b (a_resumed a)).
Definition wait_clash (a b : Wait) : bool :=
  String.eqb (a_id a) (a_id b) || (String.eqb (a_dispatch a) (a_dispatch b) && open_wait a && open_wait b) || same_request a b.

Definition parkForApproval (now : Z) (i : CapabilityInput) (p : ParkInput) : M bool := guarded (
  d ← checked now i;
  approval ← requiredText (pk_approval p) 255;
  operation ← requiredText (pk_operation p) 128;
  let a := MkWait approval (d_id d) operation (optionalText (pk_thread p) 255) (optionalText (pk_turn p) 255) (optionalText (pk_item p) 255)
    (optionalText (pk_request p) 255) now None None None in
  prior ← gets (waitOf approval);
  match prior with
  | Some b =>
      refuse_if negb (String.eqb (a_dispatch b) (d_id d) && String.eqb (a_operation b) operation && bool_decide (a_thread b = a_thread a)
        && bool_decide (a_turn b = a_turn a) && bool_decide (a_item b = a_item a) && bool_decide (a_request b = a_request a)) with "approval_mismatch" ;;
      mret true
  | None =>
      refuse_if negb (bool_decide (d_state d = Started)) with "invalid_transition" ;;
      bound ← gets (λ s, existsb (same_request a) (waits s));
      refuse_if bound with "approval_mismatch" ;;
      parked ← gets (λ s, Z.of_nat (length (List.filter is_parked (dispatches s))));
      refuse_if pk_max p <=? parked with "parked_runner_cap" ;;
      insert waits (λ l s, s <| waits := l |>) wait_clash a ;;
      set_dispatch (d_id d) (λ d, d <| d_state := Parked |> <| d_parked := Some now |>) ;;
      emit now "dispatch.parked" [("dispatchId", JStr (d_id d)); ("approvalId", JStr approval)] "operator" ;;
      updateActivity now d (phase "waiting") ;;
      mret false
  end).

Definition decision_text (allow : bool) : jval := JStr (if allow then "allow" else "deny").
Definition verdict_digest (approval dispatch operation : string) (allow : bool) : string :=
  digest (JObj [("approvalId", JStr approval); ("dispatchId", JStr dispatch); ("operationDigest", JStr operation); ("decision", decision_text allow)]).
Definition apply_verdict (now : Z) (v : Verdict) : M unit :=
  insert verdicts (λ l s, s <| verdicts := l |>) (λ v w, String.eqb (v_event v) (v_event w)) v ;;
  modify (λ s, s <| waits := update_where (λ a, String.eqb (a_id a) (v_approval v)) (λ a, a <| a_decision := Some (v_allow v) |> <| a_resolved := Some now |>) (waits s) |>).
Definition verdictOf (e : string) (s : DB) : option Verdict := List.find (λ v, String.eqb (v_event v) e) (verdicts s).

(** [true] for a decision that was recorded before. *)
Definition recordApprovalDecision (now : Z) (event : jval) (approval dispatch operation : string) (allow : bool) : M bool := guarded (
  event ← requiredText event 255;
  prior ← gets (verdictOf event);
  let dg := verdict_digest approval dispatch operation allow in
  match prior with
  | Some v =>
      refuse_if negb (String.eqb (v_approval v) approval && String.eqb (v_dispatch v) dispatch && Bool.eqb (v_allow v) allow && String.eqb (v_digest v) dg) with "approval_mismatch" ;;
      mret true
  | None =>
      a ← gets (waitOf approval);
      a ← found a (Refused "approval_mismatch");
      refuse_if negb (String.eqb (a_dispatch a) dispatch) || negb (String.eqb (a_operation a) operation) with "approval_mismatch" ;;
      match a_decision a with
      | Some b => refuse_if negb (Bool.eqb b allow) with "approval_mismatch" ;; mret true
      | None =>
          refuse_if is_Some_b (a_resumed a) with "approval_mismatch" ;;
          d ← gets (dispatchOf dispatch);
          refuse_if negb (match d with Some d => is_parked d | None => false end) with "dispatch_not_current" ;;
          apply_verdict now (MkVerdict event approval dispatch allow dg now) ;;
          emit now "approval.applied" [("decisionEventId", JStr event); ("approvalId", JStr approval); ("dispatchId", JStr dispatch); ("decision", decision_text allow)] "owner" ;;
          mret false
      end
  end).

(** Whether it was recorded before, and whether the dispatch still waits for it. *)
Definition reconcileApprovalDecision (now : Z) (approval event : jval) (allow : bool) : M (bool * bool) := guarded (
  approval ← requiredText approval 255;
  event ← requiredText event 255;
  a ← gets (waitOf approval);
  a ← found a (Refused "approval_mismatch");
  let dg := verdict_digest approval (a_dispatch a) (a_operation a) allow in
  previous ← gets (verdictOf event);
  d ← gets (dispatchOf (a_dispatch a));
  d ← found d (Refused "not_found");
  let deliverable := is_parked d && open_wait a in
  match previous, a_decision a with
  | Some v, _ => refuse_if negb (String.eqb (v_digest v) dg) with "approval_mismatch" ;; mret (true, deliverable)
  | None, Some b => refuse_if negb (Bool.eqb b allow) with "approval_mismatch" ;; mret (true, deliverable)
  | None, None =>
      apply_verdict now (MkVerdict event approval (a_dispatch a) allow dg now) ;;
      emit now "approval.reconciled" [("decisionEventId", JStr event); ("approvalId", JStr approval); ("dispatchId", JStr (a_dispatch a));
        ("decision", decision_text allow); ("deliverable", JBool deliverable)] "owner" ;;
      mret (false, deliverable)
  end).

Definition readApprovalDecision (now : Z) (i : CapabilityInput) (approval operation : string) : M (option bool) :=
  d ← checked now i;
  a ← gets (waitOf approval);
  a ← found a (Refused "approval_mismatch");
  refuse_if negb (String.eqb (a_dispatch a) (d_id d)) || negb (String.eqb (a_operation a) operation) with "approval_mismatch" ;;
  mret (a_decision a).

Definition resumeAfterApproval (now : Z) (i : CapabilityInput) (approval operation : string) : M bool := transaction (
  d ← checked now i;
  refuse_if negb (is_parked d) with "invalid_transition" ;;
  a ← gets (waitOf approval);
  a ← found a (Refused "approval_mismatch");
  refuse_if negb (String.eqb (a_dispatch a) (d_id d)) || negb (String.eqb (a_operation a) operation) || negb (open_wait a) with "approval_mismatch" ;;
  allow ← found (a_decision a) (Refused "approval_mismatch");
  modify (λ s, s <| waits := update_where (λ a, String.eqb (a_id a) approval) (λ a, a <| a_resumed := Some now |>) (waits s) |>) ;;
  set_dispatch (d_id d) (λ d, d <| d_state := Started |> <| d_parked := None |>) ;;
  emit now "dispatch.approval_resumed" [("dispatchId", JStr (d_id d)); ("approvalId", JStr approval); ("decision", decision_text allow)] "operator" ;;
  updateActivity now d (phase "resumed") ;;
  mret allow).

(** ** Settling *)

Definition quarantine (w reason dispatch : string) : M unit :=
  set_resource (λ r, String.eqb (w_id r) w)
    (λ r, r <| w_dirty := true |> <| w_reason := Some reason |> <| w_generation := w_generation r + 1 |> <| w_by := Some dispatch |> <| w_inspected := None |>).

(** The inputs of a dispatch count as handled; [keep] leaves the time of those that already did. *)
Definition handled (now : Z) (d : Dispatch) (keep : bool) : M unit :=
  modify (λ s, s <| projections := update_where
    (λ p, String.eqb (p_session p) (d_session d) && existsb (λ x, String.eqb (x_dispatch x) (d_id d) && String.eqb (x_message x) (p_message p)) (batches s))
    (λ p, p <| p_processed := if keep then match p_processed p with Some t => Some t | None => Some now end else Some now |>) (projections s) |>).

Definition block (now : Z) (d : Dispatch) : M unit :=
  match truthy_opt (d_task d) with
  | Some t => set_task t (λ t, negb (String.eqb (t_status t) "done"))
      (λ t, with_status "blocked" t <| t_waiting := Some "dispatch outcome is unknown; inspect workspace before retrying" |> <| t_until := None |> <| t_updated := toISOString now |>)
  | None => mret tt
  end.

Definition uncertain (now : Z) (d : Dispatch) : M unit :=
  enqueueThreadNotice now d ("outcome_unknown:" +:+ d_id d)
    "Result uncertain: the runner stopped after work may have started. Inspect the workspace before retrying; this dispatch will not be run again automatically.".

(** The text of a completed dispatch is a message of its session and a reply to its room. *)
Definition queueReply (now : Z) (uuid : string) (d : Dispatch) (text : string) : M unit :=
  x ← gets (sessionOf (d_session d));
  x ← found x (Broken "dispatch session is missing during reply creation");
  let m := MkMessage ("runner_reply:" +:+ d_id d) (s_room x) None (s_thread x) None (Some (s_name x)) text
    (digest (JObj [("sessionId", JStr (s_id x)); ("dispatchId", JStr (d_id d)); ("text", JStr text)])) now false in
  ms ← gets (messageOf (m_id m));
  when (negb (is_Some_b ms)) (modify (λ s, s <| messages := messages s ++ [m] |>)) ;;
  ps ← gets (λ s, existsb (λ p, String.eqb (p_session p) (s_id x) && String.eqb (p_message p) (m_id m)) (projections s));
  when (negb ps) (modify (λ s, s <| projections := projections s ++ [MkProjection (s_id x) (m_id m) now (Some now)] |>)) ;;
  let id := "reply_" +:+ uuid in
  insert replies (λ l s, s <| replies := l |>) (λ a b, String.eqb (r_id a) (r_id b) || String.eqb (r_dispatch a) (r_dispatch b) || String.eqb (r_txn a) (r_txn b))
    (MkReply id (d_id d) ("hagency_" +:+ slice_to 40 (digest (JStr id))) (s_room x) (s_thread x) text (s_name x)
      (digest (JObj [("dispatchId", JStr (d_id d)); ("roomId", JStr (s_room x)); ("threadRootEventId", str_or_null (s_thread x)); ("body", JStr text)]))
      OPending None None None None).

Record SettleInput : Type := MkSettle { y_completed : bool; y_reason : jval; y_output : jval; y_workspaceDirty : bool }.

Definition output_of (y : SettleInput) : option jval := if to_bool (y_output y) then Some (y_output y) else None.
Definition reply_text (y : SettleInput) : string := match prop (y_output y) "text" with JStr t => trim t | _ => EmptyString end.

(** A runner that is no longer current leaves its output behind, aside. *)
Definition fenceOutput (now : Z) (i : CapabilityInput) (y : SettleInput) : M unit :=
  match k_dispatch i, output_of y with
  | JStr did, Some o =>
      d ← gets (dispatchOf did);
      when (is_Some_b d) (set_dispatch did (λ d, d <| d_fenced_output := Some o |>) ;;
        emit now "dispatch.output_fenced" [("dispatchId", JStr did); ("runnerId", k_runner i); ("fenceGeneration", k_fence i)] "operator")
  | _, _ => mret tt
  end.

Definition settled (now : Z) (uuid : string) (d : Dispatch) (y : SettleInput) : M unit :=
  let reason := optionalText (y_reason y) 1000 in
  updateActivity now d (phase (if y_completed y then "completed" else "interrupted")) ;;
  set_dispatch (d_id d) (λ d, d <| d_state := if y_completed y then Completed else OutcomeUnknown |> <| d_settled := Some now |> <| d_reason := reason |> <| d_output := output_of y |>) ;;
  revoke now (d_id d) ;; release (d_id d) ;;
  (match truthy_opt (d_workspace d) with
   | Some w => when (negb (y_completed y) && (y_workspaceDirty y || d_may_write d)) (quarantine w (default "dispatch outcome is unknown" reason) (d_id d))
   | None => mret tt
   end) ;;
  (if y_completed y then
     handled now d false ;;
     when (truthy (reply_text y)) (queueReply now uuid d (reply_text y))
   else handled now d true ;; uncertain now d ;; block now d) ;;
  emit now (if y_completed y then "dispatch.completed" else "dispatch.outcome_unknown")
    [("dispatchId", JStr (d_id d)); ("reason", str_or_null reason); ("workspaceDirty", JBool (negb (y_completed y) && d_may_write d))] "operator".

(** The answer of a runner that settles: the workspace it says it leaves dirty. *)
Definition settleAndRelease (now : Z) (uuid : string) (i : CapabilityInput) (y : SettleInput) : M bool := guarded (
  r ← gets (validateCapability now i);
  match r with
  | inl code => fenceOutput now i y ;; refuse code
  | inr d =>
      refuse_if negb (bool_decide (d_state d = Started)) with "invalid_transition" ;;
      settled now uuid d y ;; mret (negb (y_completed y) && d_may_write d)
  end).

Definition cancelBeforeStart (now : Z) (id reason : jval) : M unit := guarded (
  id ← requiredText id 255;
  d ← gets (dispatchOf id);
  d ← found d (Refused "not_found");
  refuse_if negb (bool_decide (d_state d = Queued) || bool_decide (d_state d = Leased)) with "invalid_transition" ;;
  let reason := optionalText reason 1000 in
  set_dispatch id (λ d, d <| d_state := CancelledBeforeStart |> <| d_settled := Some now |> <| d_reason := reason |>) ;;
  revoke now id ;; release id ;;
  when (opt_eq reason "runner_launch_failed") (enqueueThreadNotice now d ("runner_launch_failed:" +:+ id)
    "Runner did not start because its local runtime could not be launched. No work was executed; fix the runtime configuration and resend the request.") ;;
  modify (λ s, s <| batches := delete_where (λ x, String.eqb (x_dispatch x) id) (batches s) |>) ;;
  emit now "dispatch.cancelled_before_start" [("dispatchId", JStr id)] "operator").

(** The time of the next try. *)
Definition requeueBeforeStart (now : Z) (i : CapabilityInput) (retryDelayMs : num) (reason : jval) : M Z := guarded (
  d ← checked now i;
  refuse_if negb (bool_decide (d_state d = Leased)) with "invalid_transition" ;;
  delay ← found (match retryDelayMs with Fin q => if Qle_bool 0 q && Qle_bool q 3600000 then Some (Qfloor q) else None | _ => None end) (Refused "bad_request");
  let retryAt := now + delay in
  set_dispatch (d_id d) (λ d, d <| d_state := Queued |> <| d_runner := None |> <| d_lease_until := None |> <| d_available := Some retryAt |>
    <| d_failures := d_failures d + 1 |> <| d_launch_error := optionalText reason 1000 |>) ;;
  revoke now (d_id d) ;; release (d_id d) ;;
  enqueueThreadNotice now d ("runner_launch_retry:" +:+ d_id d)
    "Runner could not start, but no work was executed and no input was lost. The dispatch remains queued and will retry automatically." ;;
  emit now "dispatch.requeued_before_start" [("dispatchId", JStr (d_id d)); ("retryAt", int retryAt)] "operator" ;;
  mret retryAt).

Definition settleUnknownInternal (now : Z) (d : Dispatch) (reason : string) : M unit :=
  updateActivity now d (phase "interrupted") ;;
  set_dispatch (d_id d) (λ d, d <| d_state := OutcomeUnknown |> <| d_settled := Some now |> <| d_reason := Some reason |>) ;;
  revoke now (d_id d) ;; release (d_id d) ;; handled now d true ;;
  (match truthy_opt (d_workspace d) with Some w => when (d_may_write d) (quarantine w reason (d_id d)) | None => mret tt end) ;;
  block now d ;; uncertain now d ;;
  emit now "dispatch.outcome_unknown" [("dispatchId", JStr (d_id d)); ("reason", JStr reason); ("workspaceDirty", JBool (d_may_write d))] "operator".

Definition markOutcomeUnknown (now : Z) (id reason : jval) : M unit := guarded (
  id ← requiredText id 255;
  reason ← requiredText reason 1000;
  d ← gets (dispatchOf id);
  d ← found d (Refused "not_found");
  refuse_if negb (bool_decide (d_state d = Started) || is_parked d) with "invalid_transition" ;;
  settleUnknownInternal now d reason).

(** ** Replies and notices on their way *)

Record Command : Type := MkCommand {
  cm_created : option Z; cm_id : string; cm_dispatch : option string; cm_txn : string; cm_room : string; cm_thread : option string; cm_body : string;
  cm_sender : string; cm_digest : string; cm_token : string; cm_until : Z; cm_replaces : option (option string);
}.

Definition replySessionCreatedAt (i : string) (s : DB) : option Z :=
  match dispatchOf i s with Some d => s_created <$> sessionOf (d_session d) s | None => None end.

Definition claimable (now : Z) (st : outbox_state) (until : option Z) : bool :=
  match st with OPending => true | OClaimed => match until with Some u => u <? now | None => false end | _ => false end.

(** One notice of an activity is on its way at a time, and those come after all others. *)
Definition held_back (now : Z) (s : DB) (n : Notice) : bool :=
  is_activity (n_key n) && existsb (λ m,
    match n_dispatch m, n_dispatch n with Some a, Some b => String.eqb a b | _, _ => false end && is_activity (n_key m) && bool_decide (n_state m = OClaimed)
    && negb (String.eqb (n_id m) (n_id n)) && match n_until m with Some u => now <=? u | None => false end) (notices s).
Definition by_urgency (a b : Notice) : bool :=
  let rank n := if is_activity (n_key n) then 1 else 0 in (rank a <? rank b) || ((rank a =? rank b) && (n_created a <? n_created b)).

Definition claimReplyCommand (now : Z) (raw : string) (claimMs : Z) : M (option Command) := transaction (
  let until := now + Z.max 1000 claimMs in
  r ← gets (λ s, List.find (λ r, claimable now (r_state r) (r_until r)) (replies s));
  match r with
  | Some r =>
      modify (λ s, s <| replies := update_where (λ x, String.eqb (r_id x) (r_id r)) (λ x, x <| r_state := OClaimed |> <| r_token := Some (digest (JStr raw)) |> <| r_until := Some until |>) (replies s) |>) ;;
      created ← gets (replySessionCreatedAt (r_dispatch r));
      mret (Some (MkCommand created (r_id r) (Some (r_dispatch r)) (r_txn r) (r_room r) (r_thread r) (r_body r) (r_sender r) (r_digest r) raw until None))
  | None =>
      n ← gets (λ s, head (stable_sort by_urgency (List.filter (λ n, claimable now (n_state n) (n_until n) && negb (held_back now s n)) (notices s))));
      match n with
      | None => mret None
      | Some n =>
          modify (λ s, s <| notices := update_where (λ x, String.eqb (n_id x) (n_id n)) (λ x, x <| n_state := OClaimed |> <| n_token := Some (digest (JStr raw)) |> <| n_until := Some until |>) (notices s) |>) ;;
          created ← gets (λ s, match truthy_opt (n_dispatch n) with Some d => replySessionCreatedAt d s | None => Some (n_created n) end);
          anchor ← gets (λ s, if is_activity (n_key n) then Some (match n_dispatch n with Some d => match activityOf d s with Some y => y_anchor y | None => None end | None => None end) else None);
          mret (Some (MkCommand created (n_id n) (n_dispatch n) (n_txn n) (n_room n) (n_thread n) (n_body n) (n_sender n) (n_digest n) raw until anchor))
      end
  end).

Definition noticeOf (i : string) (s : DB) : option Notice := List.find (λ n, String.eqb (n_id n) i) (notices s).
Definition replyOf (i : string) (s : DB) : option Reply := List.find (λ r, String.eqb (r_id r) i) (replies s).
Definition set_notice (i : string) (f : Notice → Notice) : M unit := modify (λ s, s <| notices := update_where (λ n, String.eqb (n_id n) i) f (notices s) |>).
Definition set_reply (i : string) (f : Reply → Reply) : M unit := modify (λ s, s <| replies := update_where (λ r, String.eqb (r_id r) i) f (replies s) |>).

Definition recordNoticeDelivery (now : Z) (id token event : jval) : M bool :=
  id ← requiredText id 255;
  event ← requiredText event 512;
  n ← gets (noticeOf id);
  n ← found n (Refused "not_found");
  if bool_decide (n_state n = ODelivered) then refuse_if negb (opt_eq (n_event n) event) with "matrix_command_conflict" ;; mret true else
  refuse_if negb (bool_decide (n_state n = OClaimed)) || negb (opt_eq (n_token n) (digest token)) with "matrix_command_conflict" ;;
  (match n_dispatch n with
   | Some d => when (is_activity (n_key n) && truthy d) (modify (set_activity d (λ y, y <| y_anchor := match y_anchor y with Some a => Some a | None => Some event end |>)))
   | None => mret tt
   end) ;;
  set_notice id (λ n, n <| n_state := ODelivered |> <| n_event := Some event |> <| n_token := None |> <| n_until := None |>) ;;
  emit now "thread.notice_delivered" [("commandId", JStr id); ("dispatchId", str_or_null (n_dispatch n)); ("taskId", str_or_null (n_task n)); ("eventId", JStr event)] "operator" ;;
  mret false.

Definition recordNoticeFailure (now : Z) (id token code : jval) : M bool :=
  id ← requiredText id 255;
  code ← requiredText code 120;
  n ← gets (noticeOf id);
  n ← found n (Refused "not_found");
  if bool_decide (n_state n = OFailed) then mret true else
  refuse_if negb (bool_decide (n_state n = OClaimed)) || negb (opt_eq (n_token n) (digest token)) with "matrix_command_conflict" ;;
  set_notice id (λ n, n <| n_state := OFailed |> <| n_error := Some code |> <| n_token := None |> <| n_until := None |>) ;;
  emit now "thread.notice_delivery_failed" [("commandId", JStr id); ("dispatchId", str_or_null (n_dispatch n)); ("taskId", str_or_null (n_task n)); ("errorCode", JStr code)] "operator" ;;
  mret false.

(** [true] for a report that repeats what is recorded. *)
Definition recordReplyDelivery (now : Z) (id token event : jval) : M bool := guarded (
  i ← requiredText id 255;
  e ← requiredText event 512;
  r ← gets (replyOf i);
  match r with
  | None => recordNoticeDelivery now id token event
  | Some r =>
      if bool_decide (r_state r = ODelivered) then refuse_if negb (opt_eq (r_event r) e) with "matrix_command_conflict" ;; mret true else
      refuse_if negb (bool_decide (r_state r = OClaimed)) || negb (opt_eq (r_token r) (digest token)) with "matrix_command_conflict" ;;
      set_reply i (λ r, r <| r_state := ODelivered |> <| r_event := Some e |> <| r_token := None |> <| r_until := None |>) ;;
      emit now "reply.delivered" [("commandId", JStr i); ("dispatchId", JStr (r_dispatch r)); ("eventId", JStr e)] "operator" ;;
      mret false
  end).

Definition recordReplyFailure (now : Z) (id token code : jval) : M bool := guarded (
  i ← requiredText id 255;
  c ← requiredText code 120;
  r ← gets (replyOf i);
  match r with
  | None => recordNoticeFailure now id token code
  | Some r =>
      if bool_decide (r_state r = OFailed) then mret true else
      refuse_if negb (bool_decide (r_state r = OClaimed)) || negb (opt_eq (r_token r) (digest token)) with "matrix_command_conflict" ;;
      set_reply i (λ r, r <| r_state := OFailed |> <| r_error := Some c |> <| r_token := None |> <| r_until := None |>) ;;
      emit now "reply.delivery_failed" [("commandId", JStr i); ("dispatchId", JStr (r_dispatch r)); ("errorCode", JStr c)] "operator" ;;
      mret false
  end).

(** ** Resolving an unknown outcome *)

Definition resolutionOf (i : string) (s : DB) : option Resolution := List.find (λ o, String.eqb (o_dispatch o) i) (resolutions s).
Definition inspectionOf (i : string) (s : DB) : option Inspection := List.find (λ q, String.eqb (q_id q) i) (inspections s).

(** The workspace of a writing dispatch, when its quarantine is that of the dispatch. *)
Definition quarantined (d : Dispatch) (s : DB) : option Resource :=
  match d_workspace d with
  | Some w => match resourceOf w s with Some r => if w_dirty r && opt_eq (w_by r) (d_id d) then Some r else None | None => None end
  | None => None
  end.

Definition beginOutcomeInspection (now : Z) (uuid raw : string) (id : jval) (ttlMs : num) : M Inspection := guarded (
  id ← requiredText id 255;
  ttl ← found (match ttlMs with Fin q => if Qle_bool 60000 q && Qle_bool q 3600000 then Some (Qfloor q) else None | _ => None end) (Refused "bad_request");
  d ← gets (dispatchOf id);
  d ← found d (Refused "not_found");
  refuse_if negb (unknown d) with "invalid_transition" ;;
  o ← gets (resolutionOf id);
  refuse_if is_Some_b o with "invalid_transition" ;;
  w ← (if d_may_write d then
         if negb (is_Some_b (truthy_opt (d_workspace d))) then fail (Broken "writing outcome_unknown dispatch has no workspace resource") else
         w ← gets (quarantined d); w ← found w (Refused "workspace_quarantined"); mret (Some w)
       else mret None);
  let q := MkInspection uuid id (w_id <$> w) (match w with Some w => w_generation w | None => 0 end) (digest (JStr raw)) now (now + ttl) None in
  insert inspections (λ l s, s <| inspections := l |>) (λ a b, String.eqb (q_id a) (q_id b) || String.eqb (q_token a) (q_token b)) q ;;
  emit now "dispatch.outcome_inspection_started" [("dispatchId", JStr id); ("inspectionId", JStr uuid); ("expiresAt", int (q_expires q));
    ("resourceId", str_or_null (q_resource q)); ("dirtyGeneration", int (q_generation q))] "operator" ;;
  mret q).

Record ResolveInput : Type := MkResolve {
  rs_dispatch : jval; rs_inspection : jval; rs_token : jval; rs_request : jval; rs_note : jval; rs_action : string; rs_instruction : jval;
}.

Definition action_of (a : string) : option action :=
  if String.eqb a "continue" then Some Continue else if String.eqb a "accept_completed" then Some AcceptCompleted else
  if String.eqb a "keep_blocked" then Some KeepBlocked else None.

Record Resolved : Type := MkResolved { rd_replayed : bool; rd_dispatch : string; rd_action : action; rd_task : option string; rd_replacement : option string }.

(** The checks of the inspection, and the workspace to be released. *)
Definition inspected (now : Z) (d : Dispatch) (inspection token : string) : M (option Resource) :=
  q ← gets (inspectionOf inspection);
  q ← found q (Refused "inspection_required");
  refuse_if negb (String.eqb (q_dispatch q) (d_id d)) || negb (String.eqb (q_token q) (digest (JStr token))) with "inspection_required" ;;
  refuse_if is_Some_b (q_consumed q) with "inspection_required" ;;
  refuse_if q_expires q <? now with "inspection_expired" ;;
  if d_may_write d then
    refuse_if negb (is_Some_b (truthy_opt (d_workspace d))) || negb (bool_decide (q_resource q = d_workspace d)) with "inspection_required" ;;
    w ← gets (quarantined d);
    w ← found w (Refused "workspace_quarantined");
    refuse_if negb (w_generation w =? q_generation q) with "workspace_quarantined" ;; mret (Some w)
  else
    refuse_if is_Some_b (q_resource q) || negb (q_generation q =? 0) with "inspection_required" ;; mret None.

(** The configured budget of a payload is kept, when it is a positive number. *)
Definition budget_of (payload : jval) : option Z :=
  match prop payload "rebuildTokenBudget" with
  | JNum (Fin q) => if Qle_bool q 0 then None else let b := Qfloor q in if b =? 0 then None else Some b
  | _ => None
  end.

(** [continue]: the instruction is an input of the session, handed over by a dispatch of its own. *)
Definition continued (now : Z) (uuid : string) (d : Dispatch) (x : Session) (request instruction : string) : M string :=
  let mid := "operator_recovery:" +:+ slice_to 40 (digest (JObj [("dispatchId", JStr (d_id d)); ("requestId", JStr request)])) in
  let body := "Operator recovery instruction after an inspected runner failure:" +:+ String (ascii_of_nat 10) instruction in
  insert messages (λ l s, s <| messages := l |>) (λ a b, String.eqb (m_id a) (m_id b))
    (MkMessage mid (s_room x) None (s_thread x) None (Some "operator") body
      (digest (JObj [("dispatchId", JStr (d_id d)); ("requestId", JStr request); ("recoveryBody", JStr body)])) now false) ;;
  insert projections (λ l s, s <| projections := l |>) (λ a b, String.eqb (p_session a) (p_session b) && String.eqb (p_message a) (p_message b))
    (MkProjection (s_id x) mid now None) ;;
  (match truthy_opt (d_task d) with
   | Some t => insert inputs (λ l s, s <| inputs := l |>) (λ a b, String.eqb (i_task a) (i_task b) && String.eqb (i_message a) (i_message b)) (MkInput t mid false now (Some now))
   | None => mret tt
   end) ;;
  queued ← gets (λ s, head (oldest (List.filter (λ e, of_session (s_id x) e && is_queued e) (dispatches s))));
  (match queued with
   | Some e =>
       if negb (bool_decide (d_task e = d_task d)) then fail (Broken "queued recovery dispatch has a different task binding") else
       if negb (String.eqb (d_framework e) (d_framework d) && Bool.eqb (d_may_write e) (d_may_write d) && String.eqb (d_mode e) (d_mode d)
                && bool_decide (d_workspace e = d_workspace d) && bool_decide (d_named e = d_named d))
       then fail (Broken "queued recovery dispatch execution resources differ from the inspected dispatch") else mret tt
   | None => mret tt
   end) ;;
  let replacement := match queued with Some e => d_id e | None => uuid end in
  let payload := JObj (("kind", JStr (if d_may_write d then "task_turn" else "front_desk_turn")) :: match budget_of (d_payload d) with Some b => [("rebuildTokenBudget", int b)] | None => [] end) in
  (match queued with
   | None => insert_dispatch (new_dispatch replacement (d_session d) (d_task d) (d_framework d) payload (d_may_write d) (d_mode d) (d_workspace d) (d_named d) now)
   | Some _ => modify (λ s, s <| dispatches := update_where (λ e, is_id replacement e && is_queued e) (λ e, e <| d_payload := payload |>) (dispatches s) |>)
   end) ;;
  pending ← gets (pendingMessages (truthy_opt (d_task d)) (s_id x));
  each (assign now replacement (s_id x)) pending ;;
  (match truthy_opt (d_task d) with
   | Some t => set_task t (λ _, true) (λ t, with_status "in_progress" t <| t_started := match t_started t with Some a => Some a | None => Some (toISOString now) end |>
       <| t_completed := None |> <| t_waiting := None |> <| t_until := None |> <| t_updated := toISOString now |>)
   | None => mret tt
   end) ;;
  mret replacement.

Definition closing_notice (a : action) : string :=
  match a with
  | Continue => "Operator inspection completed. A new recovery dispatch was queued from an explicit recovery instruction; the previous dispatch remains outcome_unknown and was not replayed."
  | AcceptCompleted => "Operator inspection completed. The current result was accepted as complete; no dispatch was replayed."
  | KeepBlocked => "Operator inspection completed. The task remains blocked; no dispatch was replayed."
  end.
Definition action_text (a : action) : string := match a with Continue => "continue" | AcceptCompleted => "accept_completed" | KeepBlocked => "keep_blocked" end.

(** What an action makes of the task: [continue] also gives the dispatch that goes on. *)
Definition acted (now : Z) (uuid : string) (d : Dispatch) (x : Session) (a : action) (request instruction : string) : M (option string) :=
  match a, truthy_opt (d_task d) with
  | Continue, _ => r ← continued now uuid d x request instruction; mret (Some r)
  | AcceptCompleted, Some t =>
      set_task t (λ _, true) (λ t, with_status "done" t <| t_completed := Some (toISOString now) |> <| t_waiting := None |> <| t_until := None |> <| t_updated := toISOString now |>) ;; mret None
  | KeepBlocked, Some t =>
      set_task t (λ _, true) (λ t, with_status "blocked" t <| t_waiting := Some "operator inspected runner outcome; task remains blocked" |> <| t_until := None |> <| t_updated := toISOString now |>) ;; mret None
  | _, None => mret None
  end.

Definition resolveOutcomeUnknown (now : Z) (uuid : string) (i : ResolveInput) : M Resolved := guarded (
  id ← requiredText (rs_dispatch i) 255;
  inspection ← requiredText (rs_inspection i) 255;
  token ← requiredText (rs_token i) 512;
  request ← requiredText (rs_request i) 255;
  note ← requiredText (rs_note i) 2000;
  a ← found (action_of (rs_action i)) (Refused "bad_request");
  let instruction := optionalText (rs_instruction i) (80 * 100) in
  refuse_if bool_decide (a = Continue) && negb (is_Some_b instruction) with "bad_request" ;;
  refuse_if negb (bool_decide (a = Continue)) && is_Some_b instruction with "bad_request" ;;
  let dg := digest (JObj [("dispatchId", JStr id); ("inspectionId", JStr inspection); ("action", JStr (action_text a)); ("operatorNote", JStr note); ("recoveryInstruction", str_or_null instruction)]) in
  previous ← gets (λ s, List.find (λ o, String.eqb (o_request o) request) (resolutions s));
  match previous with
  | Some o =>
      refuse_if negb (String.eqb (o_dispatch o) id) || negb (String.eqb (o_digest o) dg) with "idempotency_conflict" ;;
      task ← gets (λ s, match dispatchOf id s with Some d => d_task d | None => None end);
      mret (MkResolved true id (o_action o) task (o_replacement o))
  | None =>
      o ← gets (resolutionOf id);
      refuse_if is_Some_b o with "idempotency_conflict" ;;
      d ← gets (dispatchOf id);
      d ← found d (Refused "not_found");
      refuse_if negb (unknown d) with "invalid_transition" ;;
      refuse_if negb (is_Some_b (truthy_opt (d_task d))) && negb (bool_decide (a = Continue)) with "invalid_transition" ;;
      w ← inspected now d inspection token;
      active ← gets (λ s, existsb (λ e, of_session (d_session d) e && live e) (dispatches s));
      refuse_if active with "invalid_transition" ;;
      x ← gets (sessionOf (d_session d));
      x ← found x (Broken "outcome_unknown dispatch session is missing");
      (match truthy_opt (d_task d) with
       | Some t => t ← gets (taskOf t); t ← found t (Broken "outcome_unknown dispatch task is missing"); refuse_if String.eqb (t_status t) "done" with "invalid_transition" ;; mret tt
       | None => mret tt
       end) ;;
      (match w with
       | Some w => set_resource (λ r, String.eqb (w_id r) (w_id w) && (w_generation r =? w_generation w) && opt_eq (w_by r) id)
           (λ r, r <| w_dirty := false |> <| w_reason := None |> <| w_by := None |> <| w_inspected := Some now |>)
       | None => mret tt
       end) ;;
      replacement ← acted now uuid d x a request (default EmptyString instruction);
      modify (λ s, s <| inspections := update_where (λ q, String.eqb (q_id q) inspection) (λ q, q <| q_consumed := Some now |>) (inspections s) |>) ;;
      insert resolutions (λ l s, s <| resolutions := l |>)
        (λ a b, String.eqb (o_dispatch a) (o_dispatch b) || String.eqb (o_request a) (o_request b) || String.eqb (o_inspection a) (o_inspection b))
        (MkResolution id request dg inspection a note instruction replacement now) ;;
      enqueueThreadNotice now d ("outcome_resolved:" +:+ id) (closing_notice a) ;;
      emit now "dispatch.outcome_resolved" [("dispatchId", JStr id); ("inspectionId", JStr inspection); ("action", JStr (action_text a));
        ("taskId", str_or_null (d_task d)); ("replacementDispatchId", str_or_null replacement)] "operator" ;;
      mret (MkResolved false id a (d_task d) replacement)
  end).

Definition clearWorkspaceDirty (now : Z) (id : jval) : M unit := guarded (
  id ← requiredText id 512;
  w ← gets (resourceOf id);
  w ← found w (Refused "not_found");
  refuse_if is_Some_b (truthy_opt (w_by w)) with "inspection_required" ;;
  set_resource (λ w, String.eqb (w_id w) id) (λ w, w <| w_dirty := false |> <| w_reason := None |> <| w_by := None |> <| w_inspected := Some now |>) ;;
  emit now "workspace.dirty_cleared" [("resourceId", JStr id)] "operator").

(** ** After a restart *)

(** A runner of the process that died cannot be told from another one: what was not started is queued
    again, and of the rest the outcome is unknown. *)
Definition requeued (now : Z) (d : Dispatch) : M unit :=
  set_dispatch (d_id d) (λ d, d <| d_state := Queued |> <| d_runner := None |> <| d_lease_until := None |> <| d_available := None |>) ;;
  revoke now (d_id d) ;; release (d_id d) ;;
  emit now "dispatch.requeued_before_start" [("dispatchId", JStr (d_id d))] "operator".

Definition overdue (now : Z) (st : outbox_state) (until : option Z) : bool :=
  bool_decide (st = OClaimed) && match until with Some u => u <? now | None => false end.

Definition reconcileOnStart (now : Z) : M (nat * nat * nat) := transaction (
  leased ← gets (λ s, List.filter (λ d, bool_decide (d_state d = Leased)) (dispatches s));
  each (requeued now) leased ;;
  inFlight ← gets (λ s, List.filter (λ d, bool_decide (d_state d = Started) || is_parked d) (dispatches s));
  each (λ d, settleUnknownInternal now d "backend_restart_unverifiable_runner") inFlight ;;
  expired ← gets (λ s, length (List.filter (λ g, overdue now (g_state g) (g_until g)) (orders s)));
  modify (λ s, s <| orders := update_where (λ g, overdue now (g_state g) (g_until g)) (λ g, g <| g_state := OPending |> <| g_token := None |> <| g_until := None |>) (orders s) |>
    <| replies := update_where (λ r, overdue now (r_state r) (r_until r)) (λ r, r <| r_state := OPending |> <| r_token := None |> <| r_until := None |>) (replies s) |>
    <| notices := update_where (λ n, overdue now (n_state n) (n_until n)) (λ n, n <| n_state := OPending |> <| n_token := None |> <| n_until := None |>) (notices s) |>) ;;
  mret (length leased, length inFlight, expired)).

End router.
End DispatchRouter.
