(* ===== verification/DispatchProtocol.v ===== *)
(** * The protocol of the dispatch router

    What [DispatchRouter] promises, as a machine of its own: turns that wait, are leased under a fence, run,
    wait for an owner and end; the inputs they hand over; capabilities; places that a turn needs for itself,
    which are held and may be quarantined; approvals and their verdicts. A step says when it may be taken and
    what it changes, and some steps leave a label: a claim, the inputs that were handed to a runner, an
    approval that let a turn go on. The invariant of its runs gives the theorems that [DispatchRouterFacts]
    transfers to the code. *)

From Stdlib Require Import ZArith Lia String Ascii.
From stdpp Require Import base list strings relations.
From S2P Require Import Prelude DispatchRouter.
#[local] Open Scope stdpp_scope.

Module DispatchProtocol.
Export DispatchRouter (dispatch_state(..), update_where, delete_where).

(** ** States *)

Record Turn : Type := MkTurn {
  id : string; session : string; st : dispatch_state; write : bool; workspace : option string; named : list string; fence : Z; runner : option string;
}.
Record Cap : Type := MkCap { hash : string; k_turn : string; k_runner : string; k_fence : Z; revoked : bool }.
Record Place : Type := MkPlace { name : string; dirty : bool; cause : option string }.
Record Wait : Type := MkWait { approval : string; w_turn : string; operation : string; decision : option bool; open : bool }.
Record Verdict : Type := MkVerdict { event : string; v_approval : string; v_turn : string; allow : bool; v_digest : string }.

(** [inputs] are (turn, session, message), [held] (place, turn); [closed] are the turns whose unknown outcome
    was resolved. *)
Record Core : Type := MkCore {
  turns : list Turn; inputs : list (string * string * string); caps : list Cap; places : list Place; held : list (string * string);
  waits : list Wait; verdicts : list Verdict; closed : list string;
}.
#[export] Instance eta_turn : Settable Turn := λ t, MkTurn (id t) (session t) (st t) (write t) (workspace t) (named t) (fence t) (runner t).
#[export] Instance eta_cap : Settable Cap := λ k, MkCap (hash k) (k_turn k) (k_runner k) (k_fence k) (revoked k).
#[export] Instance eta_wait : Settable Wait := λ a, MkWait (approval a) (w_turn a) (operation a) (decision a) (open a).
#[export] Instance eta_core : Settable Core := λ c,
  MkCore (turns c) (inputs c) (caps c) (places c) (held c) (waits c) (verdicts c) (closed c).

Definition empty : Core := MkCore [] [] [] [] [] [] [] [].

Definition active_state (x : dispatch_state) : bool := match x with Leased | Started | Parked => true | _ => false end.
Definition active (t : Turn) : bool := active_state (st t).
(** The inputs of a turn in these states were handed to a runner. *)
Definition begun (x : dispatch_state) : bool := match x with Started | Parked | Completed | OutcomeUnknown => true | _ => false end.

(** The workspace that a turn writes in, and all it needs for itself. *)
Definition own (t : Turn) : option string := match workspace t with Some w => if write t && truthy w then Some w else None | None => None end.
Definition needs (t : Turn) : list string := option_list (own t) ++ named t.

Definition turnOf (i : string) (c : Core) : option Turn := List.find (λ t, String.eqb (id t) i) (turns c).
Definition placeOf (n : string) (l : list Place) : option Place := List.find (λ p, String.eqb (name p) n) l.
Definition waitOf (a : string) (c : Core) : option Wait := List.find (λ x, String.eqb (approval x) a) (waits c).
Definition messages (i : string) (c : Core) : list string := List.map snd (List.filter (λ x, String.eqb x.1.1 i) (inputs c)).
Definition quarantining (p : Place) : Prop := dirty p = true ∧ ∃ d, cause p = Some d ∧ truthy d = true.

Definition set_turn (i : string) (f : Turn → Turn) (c : Core) : Core := c <| turns := update_where (λ t, String.eqb (id t) i) f (turns c) |>.
Definition set_wait (a : string) (f : Wait → Wait) (c : Core) : Core := c <| waits := update_where (λ x, String.eqb (approval x) a) f (waits c) |>.
Definition release (i : string) (c : Core) : Core :=
  c <| caps := update_where (λ k, String.eqb (k_turn k) i && negb (revoked k)) (λ k, k <| revoked := true |>) (caps c) |>
    <| held := delete_where (λ h, String.eqb h.2 i) (held c) |>.
Definition quarantine (w i : string) (c : Core) : Core :=
  c <| places := update_where (λ p, String.eqb (name p) w) (λ p, MkPlace (name p) true (Some i)) (places c) |>.
(** The end of a turn: the outcome of one that wrote, or that says so, quarantines its workspace when it is
    not known. *)
Definition marked (t : Turn) (known says : bool) (c : Core) : Core :=
  match workspace t with Some w => if truthy w && (negb known && (says || write t)) then quarantine w (id t) c else c | None => c end.
(** [l'] is [l] with a clean place [w]. *)
Definition cleaned (w : string) (l l' : list Place) : Prop :=
  (∃ p, placeOf w l' = Some p ∧ dirty p = false ∧ cause p = None) ∧ ∀ n, n ≠ w → placeOf n l' = placeOf n l.

(** ** Steps *)

Inductive label : Type :=
| Claim (turn runner : string) (fence : Z) (hash : string)
| Hand (turn session : string) (messages : list string)
| Resume (approval turn operation : string) (allow : bool).

Section machine.
(** The digest that a verdict carries of the approval, turn and operation it is about. *)
Context (about : string → string → string → bool → string).

Inductive step (c : Core) : list label → Core → Prop :=
| place_new p : placeOf (name p) (places c) = None → dirty p = false → step c [] (c <| places := places c ++ [p] |>)
| turn_new t : turnOf (id t) c = None → truthy (id t) = true → st t = Queued → fence t = 0 → runner t = None →
    (∀ w, own t = Some w → is_Some (placeOf w (places c))) → step c [] (c <| turns := turns c ++ [t] |>)
| assign t m : turnOf (id t) c = Some t → st t = Queued → (∀ i, (i, session t, m) ∉ inputs c) →
    step c [] (c <| inputs := inputs c ++ [(id t, session t, m)] |>)
| purge : step c [] (c <| held := delete_where (λ h, existsb (λ t, String.eqb (id t) h.2 && negb (active t)) (turns c)) (held c) |>)
(* a turn is claimed when its session and everything it needs are free *)
| claim t r h : turnOf (id t) c = Some t → st t = Queued →
    (∀ u, u ∈ turns c → session u = session t → active u = false ∧ (st u = OutcomeUnknown → id u ∈ closed c)) →
    (∀ n p, n ∈ needs t → placeOf n (places c) = Some p → dirty p = false) →
    NoDup (needs t) → (∀ n, n ∈ needs t → n ∉ (held c).*1) → h ∉ hash <$> caps c →
    step c [Claim (id t) r (fence t + 1) h]
      (set_turn (id t) (λ u, u <| st := Leased |> <| runner := Some r |> <| fence := fence t + 1 |>) c
        <| caps := caps c ++ [MkCap h (id t) r (fence t + 1) false] |> <| held := held c ++ List.map (λ n, (n, id t)) (needs t) |>)
| start t ms : turnOf (id t) c = Some t → st t = Leased → ms ⊆+ messages (id t) c →
    step c [Hand (id t) (session t) ms] (set_turn (id t) (λ u, u <| st := Started |>) c)
| park t a o : turnOf (id t) c = Some t → st t = Started → a ∉ approval <$> waits c → (∀ x, x ∈ waits c → w_turn x = id t → open x = false) →
    step c [] (set_turn (id t) (λ u, u <| st := Parked |>) (c <| waits := waits c ++ [MkWait a (id t) o None true] |>))
| judge v x : waitOf (v_approval v) c = Some x → decision x = None → v_turn v = w_turn x → v_digest v = about (v_approval v) (w_turn x) (operation x) (allow v) →
    step c [] (set_wait (v_approval v) (λ y, y <| decision := Some (allow v) |>) (c <| verdicts := verdicts c ++ [v] |>))
| resume t x b : turnOf (id t) c = Some t → st t = Parked → waitOf (approval x) c = Some x → w_turn x = id t → open x = true → decision x = Some b →
    step c [Resume (approval x) (id t) (operation x) b]
      (set_turn (id t) (λ u, u <| st := Started |>) (set_wait (approval x) (λ y, y <| open := false |>) c))
| settle t (known says : bool) : turnOf (id t) c = Some t → (st t = Started ∨ st t = Parked ∧ known = false) →
    step c [] (release (id t) (set_turn (id t) (λ u, u <| st := if known then Completed else OutcomeUnknown |>) (marked t known says c)))
| cancel t : turnOf (id t) c = Some t → (st t = Queued ∨ st t = Leased) →
    step c [] (release (id t) (set_turn (id t) (λ u, u <| st := CancelledBeforeStart |>) c)
      <| inputs := delete_where (λ x, String.eqb x.1.1 (id t)) (inputs c) |>)
| requeue t : turnOf (id t) c = Some t → st t = Leased →
    step c [] (release (id t) (set_turn (id t) (λ u, u <| st := Queued |> <| runner := None |>) c))
| resolve t l : turnOf (id t) c = Some t → st t = OutcomeUnknown → id t ∉ closed c →
    (match own t with Some w => cleaned w (places c) l | None => l = places c end) →
    step c [] (c <| places := l |> <| closed := closed c ++ [id t] |>)
| clear w p l : placeOf w (places c) = Some p → (∀ d, cause p = Some d → truthy d = false) → cleaned w (places c) l → step c [] (c <| places := l |>).

Inductive run (c : Core) : list label → Core → Prop :=
| run_nil : run c [] c
| run_snoc tr c' ls c'' : run c tr c' → step c' ls c'' → run c (tr ++ ls) c''.

Lemma run_app c tr c' tr' c'' : run c tr c' → run c' tr' c'' → run c (tr ++ tr') c''.
Proof. intros H1 H2. revert H1. induction H2 as [|tr' d ls d' _ IH Hs]; intros H1; [by rewrite app_nil_r|]. rewrite app_assoc. eapply run_snoc; [by apply IH|done]. Qed.

Lemma run_one c ls c' : step c ls c' → run c ls c'.
Proof. intros H. apply (run_snoc c [] c ls c'); [constructor|done]. Qed.

Lemma run_step c c' tr c'' : step c [] c' → run c' tr c'' → run c tr c''.
Proof. intros H. apply (run_app c [] c'). by apply run_one. Qed.

Lemma run_then c tr c' c'' : run c tr c' → step c' [] c'' → run c tr c''.
Proof. intros H Hs. rewrite <-(app_nil_r tr). by eapply run_snoc. Qed.

(** ** Turns along a step *)

(** [t] is the turn of its id. *)
Definition T (c : Core) (t : Turn) : Prop := turnOf (id t) c = Some t.

Lemma find_update {A} (i : A → string) (f : A → A) l k j : (∀ x, i (f x) = i x) →
  List.find (λ x, String.eqb (i x) j) (update_where (λ x, String.eqb (i x) k) f l) = (λ x, if String.eqb (i x) k then f x else x) <$> List.find (λ x, String.eqb (i x) j) l.
Proof.
  intros Hf. induction l as [|x l IH]; [done|]. cbn. destruct (String.eqb_spec (i x) k) as [Hk|Hk].
  - rewrite Hf. destruct (String.eqb_spec (i x) j) as [Hj|Hj]; [|exact IH]. cbn. by rewrite (proj2 (String.eqb_eq _ _) Hk).
  - destruct (String.eqb_spec (i x) j) as [Hj|Hj]; [|exact IH]. cbn. by rewrite (proj2 (String.eqb_neq _ _) Hk).
Qed.

Lemma find_app_one {A} (p : A → bool) l x : List.find p (l ++ [x]) = match List.find p l with Some y => Some y | None => if p x then Some x else None end.
Proof. induction l as [|y l IH]; [done|]. cbn. by destruct (p y). Qed.

Lemma elem_update {A} (p : A → bool) (f : A → A) l y : y ∈ update_where p f l ↔ ∃ x, x ∈ l ∧ y = if p x then f x else x.
Proof. unfold update_where. rewrite list_elem_of_In, in_map_iff. setoid_rewrite list_elem_of_In. split; intros (x & H1 & H2); exists x; by split. Qed.

Lemma elem_delete {A} (p : A → bool) l (y : A) : y ∈ delete_where p l ↔ y ∈ l ∧ p y = false.
Proof. unfold delete_where. rewrite !list_elem_of_In, filter_In, negb_true_iff. done. Qed.

Lemma T_elem c t : T c t → t ∈ turns c.
Proof. intros H. apply find_some in H as [H _]. by apply list_elem_of_In. Qed.

Lemma find_id {A} (i : A → string) l j x : List.find (λ x, String.eqb (i x) j) l = Some x → i x = j.
Proof. intros H. apply find_some in H as [_ H]. by apply String.eqb_eq. Qed.

Lemma turnOf_T c i t : turnOf i c = Some t → id t = i ∧ T c t.
Proof. intros H. pose proof (find_id id _ _ _ H) as Hi. split; [done|]. unfold T. by rewrite Hi. Qed.

Lemma T_eq c t u : T c t → T c u → id t = id u → t = u.
Proof. unfold T. intros Ht Hu E. rewrite E in Ht. congruence. Qed.

Lemma T_elem_iff c t : NoDup (List.map id (turns c)) → t ∈ turns c → T c t.
Proof.
  unfold T, turnOf. induction (turns c) as [|u l IH]; cbn; intros Hnd Ht; [by apply elem_of_nil in Ht|].
  apply NoDup_cons in Hnd as [Hu Hnd]. apply elem_of_cons in Ht as [->|Ht]; [by rewrite String.eqb_refl|].
  destruct (String.eqb_spec (id u) (id t)) as [E|]; [|by apply IH]. destruct Hu. rewrite E. apply list_elem_of_In, in_map. by apply list_elem_of_In.
Qed.

(** The turns after [set_turn]. *)
Lemma T_set i f c t' : (∀ t, id (f t) = id t) → T (set_turn i f c) t' ↔ (id t' ≠ i ∧ T c t') ∨ (∃ t, T c t ∧ id t = i ∧ t' = f t).
Proof.
  intros Hf. unfold T, turnOf, set_turn. cbn [turns over]. rewrite (find_update id f) by done. split.
  - destruct (List.find _ _) as [t|] eqn:E; [|done]. cbn. intros [= <-]. pose proof (find_id id _ _ _ E) as Hi.
    destruct (String.eqb_spec (id t) i) as [Hk|Hk].
    + right. exists t. rewrite Hf in *. split_and!; [done|done|done].
    + left. done.
  - intros [[Hn H]|(t & H & Hi & ->)].
    + rewrite H. cbn. destruct (String.eqb_spec (id t') i); [done|reflexivity].
    + rewrite Hf, H. cbn. destruct (String.eqb_spec (id t) i); [reflexivity|done].
Qed.

Lemma T_new t0 c t : turnOf (id t0) c = None → T (c <| turns := turns c ++ [t0] |>) t ↔ T c t ∨ t = t0.
Proof.
  unfold T, turnOf. cbn [turns over]. rewrite find_app_one. intros Hn. split.
  - destruct (List.find (λ x, String.eqb (id x) (id t)) (turns c)) eqn:E; [by left|]. destruct (String.eqb _ _); intros Hs; [|discriminate Hs]. right. by injection Hs.
  - intros [->| ->]; [done|]. by rewrite Hn, String.eqb_refl.
Qed.

Lemma T_turns c c' t : turns c' = turns c → T c' t ↔ T c t.
Proof. unfold T, turnOf. by intros ->. Qed.

(** The life cycle of a turn. *)
Inductive edge : dispatch_state → dispatch_state → Prop :=
| e_claim : edge Queued Leased
| e_start : edge Leased Started
| e_park : edge Started Parked
| e_resume : edge Parked Started
| e_complete : edge Started Completed
| e_lose x : x = Started ∨ x = Parked → edge x OutcomeUnknown
| e_cancel x : x = Queued ∨ x = Leased → edge x CancelledBeforeStart
| e_requeue : edge Leased Queued.

(** What may become of a turn in a step. *)
Definition grows (t t' : Turn) : Prop :=
  id t' = id t ∧ session t' = session t ∧ write t' = write t ∧ workspace t' = workspace t ∧ named t' = named t ∧ fence t ≤ fence t' ∧
  (st t' = st t ∨ edge (st t) (st t')).

Lemma turn_grows_refl t : grows t t.
Proof. unfold grows. split_and!; auto with lia. Qed.

(** ** Who holds what *)

Definition unresolved (c : Core) (t : Turn) : Prop := st t = OutcomeUnknown ∧ id t ∉ closed c.

Record Places (c : Core) : Prop := MkPlaces {
  pl_ids : NoDup (List.map id (turns c));
  pl_names t : T c t → truthy (id t) = true;
  pl_leases : NoDup (held c).*1;
  pl_needs t n : T c t → active t = true → n ∈ needs t → (n, id t) ∈ held c;
  pl_one t u : T c t → T c u → active t = true → active u = true → session t = session u → id t = id u;
  pl_place t w : T c t → own t = Some w → is_Some (placeOf w (places c));
  (* the quarantine of an outcome that is not known *)
  pl_session t u : T c t → unresolved c t → T c u → active u = true → session u ≠ session t;
  pl_dirty t w : T c t → unresolved c t → own t = Some w → ∃ p, placeOf w (places c) = Some p ∧ quarantining p;
  pl_closed t w u : T c t → unresolved c t → own t = Some w → T c u → active u = true → w ∉ needs u;
  pl_alone t u w : T c t → unresolved c t → own t = Some w → T c u → unresolved c u → own u = Some w → id t = id u;
}.

(** Two active turns never need the same place. *)
Lemma places_apart c t u n : Places c → T c t → T c u → active t = true → active u = true → n ∈ needs t → n ∈ needs u → id t = id u.
Proof.
  intros H Ht Hu At Au Nt Nu. pose proof (pl_needs _ H _ _ Ht At Nt) as Ht'. pose proof (pl_needs _ H _ _ Hu Au Nu) as Hu'.
  pose proof (pl_leases _ H) as Hnd. apply list_elem_of_lookup in Ht' as [i Hi], Hu' as [j Hj].
  assert (i = j) as -> by (apply (NoDup_lookup _ _ _ n Hnd); rewrite list_lookup_fmap, ?Hi, ?Hj; done). congruence.
Qed.

(** The same turn, in a state that is active or unknown only if it was. *)
Definition calmer (t t' : Turn) : Prop :=
  id t' = id t ∧ session t' = session t ∧ own t' = own t ∧ needs t' = needs t ∧
  (active t' = true → active t = true) ∧ (st t' = OutcomeUnknown → st t = OutcomeUnknown).

Lemma places_weaken c c' : Places c → NoDup (List.map id (turns c')) →
  (∀ t', T c' t' → (∃ t, T c t ∧ calmer t t') ∨ (st t' = Queued ∧ truthy (id t') = true ∧ ∀ w, own t' = Some w → is_Some (placeOf w (places c)))) →
  NoDup (held c').*1 → (∀ t' n, T c' t' → active t' = true → (n, id t') ∈ held c → (n, id t') ∈ held c') →
  (∀ n p, placeOf n (places c) = Some p → ∃ p', placeOf n (places c') = Some p' ∧ (quarantining p → quarantining p')) →
  closed c ⊆ closed c' → Places c'.
Proof.
  intros H Hids HT Hnd Hheld Hpl Hcl.
  assert (Hact : ∀ t', T c' t' → active t' = true → ∃ t, T c t ∧ calmer t t').
  { intros t' Ht' Ha. destruct (HT t' Ht') as [|(Hq & _)]; [done|]. unfold active in Ha. by rewrite Hq in Ha. }
  assert (Hun : ∀ t', T c' t' → unresolved c' t' → ∃ t, T c t ∧ calmer t t' ∧ unresolved c t).
  { intros t' Ht' [Hu Hc]. destruct (HT t' Ht') as [(t & Ht & Hcalm)|(Hq & _)]; [|congruence]. exists t. split_and!; [done|done|]. destruct Hcalm as (Hi & _ & _ & _ & _ & Hs).
    split; [by apply Hs|]. intros Hin. apply Hc. rewrite Hi. by apply Hcl. }
  assert (Hown : ∀ t' w, T c' t' → own t' = Some w → is_Some (placeOf w (places c))).
  { intros t' w Ht' Ho. destruct (HT t' Ht') as [(t & Ht & (_ & _ & Ho' & _))|(_ & _ & Hw)]; [|by apply Hw]. rewrite Ho' in Ho. by apply (pl_place _ H t). }
  split; [done|..]; try done.
  - intros t' Ht'. destruct (HT t' Ht') as [(t & Ht & (Hi & _))|(_ & ? & _)]; [|done]. rewrite Hi. by apply (pl_names _ H).
  - intros t' n Ht' Ha Hn. destruct (Hact t' Ht' Ha) as (t & Ht & (Hi & _ & _ & Hne & Hac & _)). apply Hheld; [done..|]. rewrite Hi. apply (pl_needs _ H); [done|by apply Hac|by rewrite <-Hne].
  - intros t' u' Ht' Hu' Ha Hb Hs. destruct (Hact t' Ht' Ha) as (t & Ht & (Hi & Hse & _ & _ & Hac & _)), (Hact u' Hu' Hb) as (u & Hu & (Hi' & Hse' & _ & _ & Hac' & _)).
    rewrite Hi, Hi'. apply (pl_one _ H); auto. congruence.
  - intros t' w Ht' Ho. destruct (Hown t' w Ht' Ho) as [p Hp]. destruct (Hpl w p Hp) as (p' & ? & _). by exists p'.
  - intros t' u' Ht' Hu Hu' Hb. destruct (Hun t' Ht' Hu) as (t & Ht & (_ & Hs & _) & Hur), (Hact u' Hu' Hb) as (u & HTu & (_ & Hs' & _ & _ & Hac & _)).
    rewrite Hs, Hs'. by apply (pl_session _ H t u); auto.
  - intros t' w Ht' Hu Ho. destruct (Hun t' Ht' Hu) as (t & Ht & (_ & _ & Ho' & _) & Hur). rewrite Ho' in Ho. destruct (pl_dirty _ H t w Ht Hur Ho) as (p & Hp & Hq).
    destruct (Hpl w p Hp) as (p' & ? & Hq'). exists p'. auto.
  - intros t' w u' Ht' Hu Ho Hu' Hb. destruct (Hun t' Ht' Hu) as (t & Ht & (_ & _ & Ho' & _) & Hur), (Hact u' Hu' Hb) as (u & HTu & (_ & _ & _ & Hne & Hac & _)).
    rewrite Hne. rewrite Ho' in Ho. apply (pl_closed _ H t w u); auto.
  - intros t' u' w Ht' Hu Ho Hu' Hv Hp. destruct (Hun t' Ht' Hu) as (t & Ht & (Hi & _ & Ho' & _) & Hur), (Hun u' Hu' Hv) as (u & HTu & (Hi' & _ & Hp' & _) & Hvr).
    rewrite Hi, Hi'. rewrite Ho' in Ho. rewrite Hp' in Hp. by apply (pl_alone _ H t u w).
Qed.

Lemma ids_set i f c : (∀ t, id (f t) = id t) → List.map id (turns (set_turn i f c)) = List.map id (turns c).
Proof. intros Hf. unfold set_turn, update_where. cbn. rewrite map_map. apply map_ext. intros t. by destruct (String.eqb _ _). Qed.

Lemma turnOf_fresh i c : turnOf i c = None → i ∉ List.map id (turns c).
Proof.
  unfold turnOf. intros H Hin. apply list_elem_of_In, in_map_iff in Hin as (t & <- & Ht). apply (find_none _ _ H) in Ht. by rewrite String.eqb_refl in Ht.
Qed.

Lemma T_turnOf i c t : turnOf i c = Some t → T c t.
Proof. intros H. by apply turnOf_T in H as [_ ?]. Qed.

Lemma calmer_refl t : calmer t t.
Proof. unfold calmer. tauto. Qed.

(** A turn changed in place. *)
Lemma set_calmer i f c c' : turns c' = turns (set_turn i f c) → (∀ t, id (f t) = id t) → (∀ t, T c t → id t = i → calmer t (f t)) →
  ∀ t', T c' t' → ∃ t, T c t ∧ calmer t t'.
Proof.
  intros Ht Hf Hc t' H. apply (T_turns _ _ _ Ht), T_set in H as [[_ H]|(t & H & Hi & ->)]; [..|done].
  - exists t'. split; [done|apply calmer_refl].
  - exists t. auto.
Qed.

Lemma held_release i (l : list (string * string)) n j : j ≠ i → (n, j) ∈ l → (n, j) ∈ delete_where (λ h, String.eqb h.2 i) l.
Proof. intros Hn H. apply elem_delete. split; [done|]. by apply String.eqb_neq. Qed.

Lemma NoDup_delete (p : string * string → bool) l : NoDup l.*1 → NoDup (delete_where p l).*1.
Proof.
  intros H. refine (sublist_NoDup _ _ H _). apply fmap_sublist. unfold delete_where.
  clear H. induction l as [|x l IH]; [constructor|]. cbn. destruct (negb (p x)); by constructor.
Qed.

(** Steps that set one turn and keep or free what it held. *)
Lemma places_set i f c c' : Places c → turns c' = turns (set_turn i f c) → (∀ t, id (f t) = id t) → (∀ t, T c t → id t = i → calmer t (f t)) →
  held c' = held c ∨ (held c' = delete_where (λ h, String.eqb h.2 i) (held c) ∧ ∀ t, T c t → id t = i → active (f t) = false) →
  (∀ n p, placeOf n (places c) = Some p → ∃ p', placeOf n (places c') = Some p' ∧ (quarantining p → quarantining p')) → closed c' = closed c → Places c'.
Proof.
  intros H Ht Hf Hc Hh Hp Hcl. apply (places_weaken c); [done|..|done|by rewrite Hcl].
  - rewrite Ht, ids_set by done. apply (pl_ids _ H).
  - intros t' HT. left. by apply (set_calmer i f c c').
  - destruct Hh as [->|[-> _]]; [|apply NoDup_delete]; apply (pl_leases _ H).
  - intros t' n HT Ha Hn. destruct Hh as [->|[-> Hf']]; [done|]. apply held_release; [|done]. intros Hi.
    apply (T_turns _ _ _ Ht), T_set in HT as [[? _]|(t & HT & Hti & ->)]; [done| |done]. by rewrite (Hf' t HT Hti) in Ha.
Qed.

Lemma places_kept (l : list Place) n p : placeOf n l = Some p → ∃ p', placeOf n l = Some p' ∧ (quarantining p → quarantining p').
Proof. eauto. Qed.

Lemma places_quarantine w i l n p : truthy i = true → placeOf n l = Some p →
  ∃ p', placeOf n (update_where (λ p, String.eqb (name p) w) (λ p, MkPlace (name p) true (Some i)) l) = Some p' ∧ (quarantining p → quarantining p').
Proof.
  intros Hi H. unfold placeOf in *. rewrite (find_update name) by done. rewrite H. cbn. destruct (String.eqb _ _); eexists; (split; [reflexivity|]); [|done].
  intros _. split; [done|]. by exists i.
Qed.

Lemma places_claim c t r h : Places c → T c t → st t = Queued →
  (∀ u, u ∈ turns c → session u = session t → active u = false ∧ (st u = OutcomeUnknown → id u ∈ closed c)) →
  (∀ n p, n ∈ needs t → placeOf n (places c) = Some p → dirty p = false) → NoDup (needs t) → (∀ n, n ∈ needs t → n ∉ (held c).*1) →
  Places (set_turn (id t) (λ u, u <| st := Leased |> <| runner := Some r |> <| fence := fence t + 1 |>) c
        <| caps := caps c ++ [MkCap h (id t) r (fence t + 1) false] |> <| held := held c ++ List.map (λ n, (n, id t)) (needs t) |>).
Proof.
  intros H Ht Hq Hses Hclean Hnd Hfree. set (f := λ u : Turn, _). set (c' := set_turn _ _ _).
  assert (HT : ∀ x, T c' x → (id x ≠ id t ∧ T c x) ∨ x = f t).
  { intros x Hx. apply (T_turns (set_turn (id t) f c) c' x eq_refl), T_set in Hx as [?|(y & Hy & Hi & ->)]; [by left| |done]. right. by rewrite (T_eq _ _ _ Hy Ht Hi). }
  assert (Hun : ∀ x, T c' x → unresolved c' x → T c x ∧ unresolved c x).
  { intros x Hx Hu. destruct (HT x Hx) as [[_ ?]| ->]; [done|]. by destruct Hu as [Hu _]. }
  assert (Hown : own (f t) = own t) by done. assert (Hneeds : needs (f t) = needs t) by done.
  split.
  - change (NoDup (List.map id (turns (set_turn (id t) f c)))). rewrite ids_set by done. apply (pl_ids _ H).
  - intros x Hx. destruct (HT x Hx) as [[_ ?]| ->]; [by apply (pl_names _ H)|]. exact (pl_names _ H t Ht).
  - cbn. rewrite fmap_app. apply NoDup_app. assert (Hm : (List.map (λ n, (n, id t)) (needs t)).*1 = needs t).
    { clear. induction (needs t) as [|n l IH]; [done|]. cbn. by rewrite IH. }
    rewrite Hm. split_and!; [apply (pl_leases _ H)|intros n Hn Hn'; by apply (Hfree n)|done].
  - intros x n Hx Ha Hn. cbn. apply elem_of_app. destruct (HT x Hx) as [[_ ?]| ->]; [left; by apply (pl_needs _ H)|]. right.
    apply list_elem_of_In, in_map_iff. exists n. split; [done|]. by apply list_elem_of_In.
  - intros x y Hx Hy Ha Hb Hs. destruct (HT x Hx) as [[Hnx Hx']| ->], (HT y Hy) as [[Hny Hy']| ->]; [by apply (pl_one _ H)|..|done].
    + destruct (Hses x) as [Hx0 _]; [by apply T_elem|exact Hs|]. by rewrite Hx0 in Ha.
    + destruct (Hses y) as [Hy0 _]; [by apply T_elem|symmetry; exact Hs|]. by rewrite Hy0 in Hb.
  - intros x w Hx Ho. destruct (HT x Hx) as [[_ ?]| ->]; [by apply (pl_place _ H x)|]. by apply (pl_place _ H t).
  - intros x u Hx Hu HTu Ha. destruct (Hun x Hx Hu) as [Hx' Hu']. destruct (HT u HTu) as [[_ ?]| ->]; [by apply (pl_session _ H)|].
    intros Hs. destruct (Hses x) as [_ Hc]; [by apply T_elem|by symmetry|]. destruct Hu' as [Hk Hn]. by apply Hn, Hc.
  - intros x w Hx Hu Ho. destruct (Hun x Hx Hu) as [Hx' Hu']. by apply (pl_dirty _ H x).
  - intros x w u Hx Hu Ho HTu Ha. destruct (Hun x Hx Hu) as [Hx' Hu']. destruct (HT u HTu) as [[_ ?]| ->]; [by apply (pl_closed _ H x)|].
    rewrite Hneeds. intros Hin. destruct (pl_dirty _ H x w Hx' Hu' Ho) as (p & Hp & [Hd _]). rewrite (Hclean w p Hin Hp) in Hd. done.
  - intros x u w Hx Hu Ho HTu Hv Hp. destruct (Hun x Hx Hu), (Hun u HTu Hv). by apply (pl_alone _ H x u w).
Qed.

(** The outcome of a turn that ran is lost. *)
Lemma places_lost c c' t f : Places c → T c t → active t = true → (∀ u, id (f u) = id u) → f t = t <| st := OutcomeUnknown |> →
  turns c' = turns (set_turn (id t) f c) → held c' = delete_where (λ h, String.eqb h.2 (id t)) (held c) → closed c' = closed c →
  (∀ n p, placeOf n (places c) = Some p → ∃ p', placeOf n (places c') = Some p' ∧ (quarantining p → quarantining p')) →
  (∀ w, own t = Some w → ∃ p, placeOf w (places c') = Some p ∧ quarantining p) → Places c'.
Proof.
  intros H Ht Hat Hid Hf Htu Hh Hcl Hpl Hq.
  assert (HT : ∀ x, T c' x → (id x ≠ id t ∧ T c x) ∨ x = f t).
  { intros x Hx. apply (T_turns _ _ _ Htu), T_set in Hx as [?|(y & Hy & Hi & ->)]; [by left| |done]. right. by rewrite (T_eq _ _ _ Hy Ht Hi). }
  assert (Hact : ∀ x, T c' x → active x = true → id x ≠ id t ∧ T c x) by (intros x Hx Ha; destruct (HT x Hx) as [?|E]; [done|by rewrite E, Hf in Ha]).
  assert (Hun : ∀ x, T c' x → unresolved c' x → (id x ≠ id t ∧ T c x ∧ unresolved c x) ∨ x = f t).
  { intros x Hx [Hu Hn]. rewrite Hcl in Hn. destruct (HT x Hx) as [[? ?]|?]; [left; by split_and!|by right]. }
  assert (Hs : session (f t) = session t) by by rewrite Hf. assert (Ho : own (f t) = own t) by by rewrite Hf. assert (Hi : id (f t) = id t) by done.
  assert (Hin : ∀ w, own t = Some w → w ∈ needs t) by (intros w Hw; unfold needs; rewrite Hw; by left).
  split.
  - rewrite Htu, ids_set by done. apply (pl_ids _ H).
  - intros x Hx. destruct (HT x Hx) as [[_ ?]| ->]; [by apply (pl_names _ H)|]. rewrite Hi. by apply (pl_names _ H).
  - rewrite Hh. apply NoDup_delete, (pl_leases _ H).
  - intros x n Hx Ha Hn. destruct (Hact x Hx Ha) as [Hne Hx']. rewrite Hh. apply held_release; [done|]. by apply (pl_needs _ H).
  - intros x y Hx Hy Ha Hb. destruct (Hact x Hx Ha), (Hact y Hy Hb). by apply (pl_one _ H).
  - intros x w Hx Hw. assert (is_Some (placeOf w (places c))) as [p Hp] by (destruct (HT x Hx) as [[_ ?]| ->]; [|rewrite Ho in Hw]; by eapply (pl_place _ H)).
    destruct (Hpl w p Hp) as (p' & ? & _). by exists p'.
  - intros x u Hx Hu HTu Hb. destruct (Hact u HTu Hb) as [Hne HTu']. destruct (Hun x Hx Hu) as [(_ & Hx' & Hu')| ->]; [by apply (pl_session _ H)|].
    rewrite Hs. intros Hses. apply Hne. by apply (pl_one _ H).
  - intros x w Hx Hu Hw. destruct (Hun x Hx Hu) as [(_ & Hx' & Hu')| ->]; [|apply Hq; by rewrite <-Ho].
    destruct (pl_dirty _ H x w Hx' Hu' Hw) as (p & Hp & Hqp). destruct (Hpl w p Hp) as (p' & ? & Hq'). exists p'. auto.
  - intros x w u Hx Hu Hw HTu Hb. destruct (Hact u HTu Hb) as [Hne HTu']. destruct (Hun x Hx Hu) as [(_ & Hx' & Hu')| ->]; [by apply (pl_closed _ H x)|].
    rewrite Ho in Hw. intros Hwu. apply Hne. by apply (places_apart c u t w); auto.
  - intros x u w Hx Hu Hw HTu Hv Hp. destruct (Hun x Hx Hu) as [(Hnx & Hx' & Hu')| ->], (Hun u HTu Hv) as [(Hnu & HTu' & Hv')| ->].
    + by apply (pl_alone _ H x u w).
    + exfalso. rewrite Ho in Hp. apply (pl_closed _ H x w t Hx' Hu' Hw Ht Hat). auto.
    + exfalso. rewrite Ho in Hw. apply (pl_closed _ H u w t HTu' Hv' Hp Ht Hat). auto.
    + done.
Qed.

(** A place is cleaned that no open outcome quarantines. *)
Lemma places_cleaned c w l k : Places c → cleaned w (places c) l → closed c ⊆ k → (∀ x, T c x → st x = OutcomeUnknown → id x ∉ k → own x ≠ Some w) →
  Places (c <| places := l |> <| closed := k |>).
Proof.
  intros H [(p0 & Hp0 & _) Hoth] Hk Hfree. set (c' := c <| places := l |> <| closed := k |>).
  assert (HT : ∀ x, T c' x → T c x) by done.
  assert (Hun : ∀ x, unresolved c' x → unresolved c x) by (intros x [Hu Hn]; split; [done|]; intros Hin; by apply Hn, Hk).
  split; [apply H..| | | | |].
  - intros x n Hx. destruct (decide (n = w)) as [->|Hn]; intros Ho; change (places c') with l; [by exists p0|]. rewrite Hoth by done. by apply (pl_place _ H x).
  - intros x u Hx Hu. by apply (pl_session _ H); auto.
  - intros x n Hx Hu Ho. change (places c') with l. destruct (decide (n = w)) as [->|Hn]; [destruct Hu; by destruct (Hfree x)|]. rewrite Hoth by done. apply (pl_dirty _ H x); auto.
  - intros x n u Hx Hu Ho. apply (pl_closed _ H x n u); auto.
  - intros x u n Hx Hu Ho HTu Hv Hp. apply (pl_alone _ H x u n); auto.
Qed.

(** A turn goes on, or ends with its outcome known, or is put back. *)
Lemma places_move c c' t f : Places c → T c t → (∀ u, id (f u) = id u) → calmer t (f t) → turns c' = turns (set_turn (id t) f c) →
  held c' = held c ∨ (held c' = delete_where (λ h, String.eqb h.2 (id t)) (held c) ∧ active (f t) = false) → places c' = places c → closed c' = closed c → Places c'.
Proof.
  intros H Ht Hf Hc Htu Hh Hp Hcl. assert (Heq : ∀ u, T c u → id u = id t → u = t) by (intros; by apply (T_eq c)).
  apply (places_set (id t) f c); [done..| | |rewrite Hp; apply places_kept|done].
  - intros u Hu Hi. by rewrite (Heq u Hu Hi).
  - destruct Hh as [?|[? Ha]]; [by left|right]. split; [done|]. intros u Hu Hi. by rewrite (Heq u Hu Hi).
Qed.

Lemma marked_places t known says c : marked t known says c = c <| places := places (marked t known says c) |>.
Proof. unfold marked. destruct c, (workspace t); [|done]. by destruct (_ && _). Qed.

Lemma marked_known t says c : marked t true says c = c.
Proof. unfold marked. destruct (workspace t); [|done]. by rewrite andb_false_r. Qed.

Lemma places_step c ls c' : step c ls c' → Places c → Places c'.
Proof.
  intros Hs H. destruct Hs as [p Hn _|t Hn Hi Hq _ _ Hw|t m _ _ _| |t r h Ht Hq|t ms Ht Hst _|t a o Ht Hst _ _|v x _ _ _ _|t x b Ht Hst _ _ _ _|t known says Ht Hst|t Ht Hst|t Ht Hst|t l Ht Hst Hc Hl|w p l Hp Hc Hl].
  - apply (places_weaken c); [done|apply H| |apply H|done| |done].
    + intros t' Ht'. left. exists t'. split; [exact Ht'|apply calmer_refl].
    + intros n q Hq. exists q. split; [|done]. cbn. unfold placeOf in *. by rewrite find_app_one, Hq.
  - apply (places_weaken c); [done| | |apply H|done|cbn; apply places_kept|done].
    + cbn. rewrite map_app. apply NoDup_app. split_and!; [apply H| |apply NoDup_singleton]. intros i Hin ->%list_elem_of_singleton. by apply (turnOf_fresh _ _ Hn).
    + intros t' [Ht'| ->]%T_new; [left; exists t'; split; [done|apply calmer_refl]|by right|done].
  - apply (places_weaken c); [done|apply H| |apply H|done|apply places_kept|done].
    intros t' Ht'. left. exists t'. split; [exact Ht'|apply calmer_refl].
  - apply (places_weaken c); [done|apply H| | | |apply places_kept|done].
    + intros t' Ht'. left. exists t'. split; [exact Ht'|apply calmer_refl].
    + apply NoDup_delete, H.
    + intros t' n Ht' Ha Hn. apply elem_delete. split; [done|]. apply not_true_iff_false. rewrite existsb_exists. intros (u & Hu & [Hi Hna]%andb_true_iff).
      apply String.eqb_eq in Hi. apply list_elem_of_In, (T_elem_iff _ _ (pl_ids _ H)) in Hu. rewrite (T_eq _ _ _ Hu Ht' Hi), Ha in Hna. done.
  - by apply places_claim.
  - apply (places_move c _ t (λ u, u <| st := Started |>)); auto. unfold calmer, active. by rewrite Hst.
  - apply (places_move c _ t (λ u, u <| st := Parked |>)); auto. unfold calmer, active. by rewrite Hst.
  - apply (places_weaken c); [done|apply H| |apply H|done|apply places_kept|done].
    intros t' Ht'. left. exists t'. split; [exact Ht'|apply calmer_refl].
  - apply (places_move c _ t (λ u, u <| st := Started |>)); auto. unfold calmer, active. by rewrite Hst.
  - assert (Hat : active t = true) by (unfold active; by destruct Hst as [->|[-> _]]). destruct known.
    + rewrite marked_known. by apply (places_move c _ t (λ u, u <| st := Completed |>)); auto.
    + rewrite marked_places. apply (places_lost c _ t (λ u, u <| st := OutcomeUnknown |>)); try done.
      * intros n p Hp. cbn. unfold marked. destruct (workspace t) as [w|]; [|eauto]. destruct (_ && _); [|eauto]. apply places_quarantine; [by apply (pl_names _ H)|done].
      * intros w Hw. unfold marked. unfold own in Hw. destruct (workspace t) as [v|] eqn:E; [|done]. destruct (write t) eqn:Ew, (truthy v) eqn:Ev; try done.
        injection Hw as ->. rewrite orb_true_r. destruct (pl_place _ H t w Ht) as [p Hp]; [unfold own; by rewrite E, Ew, Ev|].
        cbn. unfold placeOf in *. rewrite (find_update name), Hp by done. cbn. rewrite (find_id name _ _ _ Hp), String.eqb_refl. eexists. split; [done|].
        split; [done|]. exists (id t). split; [done|]. by apply (pl_names _ H).
  - apply (places_move c _ t (λ u, u <| st := CancelledBeforeStart |>)); auto. unfold calmer, active. by destruct Hst as [-> | ->].
  - apply (places_move c _ t (λ u, u <| st := Queued |> <| runner := None |>)); auto. unfold calmer, active. by rewrite Hst.
  - assert (Hcl : closed c ⊆ closed c ++ [id t]) by set_solver. destruct (own t) as [w|] eqn:Ho.
    + apply (places_cleaned c w); [done..|]. intros x Hx Hu Hn Hox. apply Hn, elem_of_app. right.
      assert (Hxc : id x ∉ closed c) by (intros Hin; apply Hn, elem_of_app; by left).
      rewrite (pl_alone _ H x t w); [by left|done|by split|done..|by split|done].
    + rewrite Hl. apply (places_weaken c); [done|apply H| |apply H|done|apply places_kept|done]. intros x Hx. left. exists x. split; [exact Hx|apply calmer_refl].
  - apply (places_cleaned c w l (closed c)); [done..|]. intros x Hx Hu Hn Ho. destruct (pl_dirty _ H x w) as (q & Hq & [_ (d & Hd & Hd')]); [done|by split|done|].
    rewrite Hq in Hp. injection Hp as ->. by rewrite (Hc d Hd) in Hd'.
Qed.

(** ** Life cycles *)

Lemma grow_set c c' t0 f t : T c t0 → (∀ u, id (f u) = id u) → grows t0 (f t0) → turns c' = turns (set_turn (id t0) f c) → T c t → ∃ t', T c' t' ∧ grows t t'.
Proof.
  intros H0 Hf Hg Htu Ht. assert (HT : ∀ u, T (set_turn (id t0) f c) u → T c' u) by (intros u; by apply (T_turns _ _ _ Htu)).
  destruct (String.eqb_spec (id t) (id t0)) as [E|E].
  - rewrite (T_eq _ _ _ Ht H0 E). exists (f t0). split; [|done]. apply HT, T_set; [done|]. right. by exists t0.
  - exists t. split; [|apply turn_grows_refl]. apply HT, T_set; [done|]. by left.
Qed.

Lemma grow_same c c' t : turns c' = turns c → T c t → ∃ t', T c' t' ∧ grows t t'.
Proof. intros Htu Ht. exists t. split; [by apply (T_turns _ _ _ Htu)|apply turn_grows_refl]. Qed.

Lemma step_grows c ls c' t : step c ls c' → T c t → ∃ t', T c' t' ∧ grows t t'.
Proof.
  assert (Hmove : ∀ (u : Turn) (x y : dispatch_state) g r, st u = x → edge x y → fence u ≤ g → grows u (u <| st := y |> <| runner := r |> <| fence := g |>)).
  { intros u x y g r Hx He Hg. unfold grows. cbn. rewrite Hx. split_and!; auto. }
  intros Hs Ht. destruct Hs as [p Hn _|t0 Hn Hi Hq _ _ Hw|t0 m _ _ _| |t0 r h Ht0 Hq|t0 ms Ht0 Hst _|t0 a o Ht0 Hst _ _|v x _ _ _ _|t0 x b Ht0 Hst _ _ _ _|t0 known says Ht0 Hst|t0 Ht0 Hst|t0 Ht0 Hst|t0 l _ _ _ _|w p l _ _ _].
  all: try by apply (grow_same c).
  - exists t. split; [apply T_new; [done|by left]|apply turn_grows_refl].
  - apply (grow_set c _ t0 (λ u, u <| st := Leased |> <| runner := Some r |> <| fence := fence t0 + 1 |>)); try done. apply (Hmove t0 Queued); [done|constructor|lia].
  - apply (grow_set c _ t0 (λ u, u <| st := Started |>)); try done. apply (Hmove t0 Leased); [done|constructor|lia].
  - apply (grow_set c _ t0 (λ u, u <| st := Parked |>)); try done. apply (Hmove t0 Started); [done|constructor|lia].
  - apply (grow_set c _ t0 (λ u, u <| st := Started |>)); try done. apply (Hmove t0 Parked); [done|constructor|lia].
  - apply (grow_set c _ t0 (λ u, u <| st := if known then Completed else OutcomeUnknown |>)); try done; [|by rewrite marked_places].
    apply (Hmove t0 (st t0) _ (fence t0) (runner t0)); [done| |lia]. destruct known; [destruct Hst as [->|[_ [=]]]; constructor|]. constructor. destruct Hst as [?|[? _]]; auto.
  - apply (grow_set c _ t0 (λ u, u <| st := CancelledBeforeStart |>)); try done. apply (Hmove t0 (st t0) _ (fence t0) (runner t0)); [done|by constructor|lia].
  - apply (grow_set c _ t0 (λ u, u <| st := Queued |> <| runner := None |>)); try done. apply (Hmove t0 Leased); [done|constructor|lia].
Qed.

Lemma edge_begun x y : edge x y → begun x = true → begun y = true.
Proof. by destruct 1 as [| | | | |? [->| ->]|? [->| ->]|]. Qed.

Lemma grows_begun t t' : grows t t' → begun (st t) = true → begun (st t') = true.
Proof. intros (_ & _ & _ & _ & _ & _ & [->|He]); [done|by apply edge_begun]. Qed.

(** ** What was handed over *)

Definition handed (tr : list label) : list (string * string * string) :=
  flat_map (λ l, match l with Hand i s ms => List.map (λ m, (i, s, m)) ms | _ => [] end) tr.
Definition input_of (x : string * string * string) : string * string := (x.1.2, x.2).

Record Inputs (tr : list label) (c : Core) : Prop := MkInputs {
  in_turn i s m : (i, s, m) ∈ inputs c → ∃ t, T c t ∧ id t = i ∧ session t = s;
  in_unique : NoDup (List.map input_of (inputs c));
  in_handed i s m : (i, s, m) ∈ handed tr → (i, s, m) ∈ inputs c ∧ ∃ t, T c t ∧ id t = i ∧ begun (st t) = true;
  in_once : NoDup (List.map input_of (handed tr));
}.

Lemma NoDup_map_inj {A B} (f : A → B) l x y : NoDup (List.map f l) → x ∈ l → y ∈ l → f x = f y → x = y.
Proof.
  intros Hnd Hx Hy E. apply list_elem_of_lookup in Hx as [i Hi], Hy as [j Hj].
  assert (i = j) as -> by (apply (NoDup_lookup _ _ _ (f x) Hnd); change (List.map f l) with (f <$> l); rewrite list_lookup_fmap, ?Hi, ?Hj; cbn; congruence). congruence.
Qed.

Lemma NoDup_map_filter {A B} (f : A → B) (p : A → bool) l : NoDup (List.map f l) → NoDup (List.map f (List.filter p l)).
Proof.
  intros H. refine (sublist_NoDup _ _ H _). apply (fmap_sublist f). clear. induction l as [|x l IH]; [constructor|]. cbn. destruct (p x); by constructor.
Qed.

(** The inputs stay, or those of a turn that has not begun go. *)
Lemma inputs_keep tr c ls c' : step c ls c' → handed ls = [] → Inputs tr c →
  (∀ x, x ∈ inputs c' → x ∈ inputs c) → NoDup (List.map input_of (inputs c')) → (∀ x t, x ∈ inputs c → T c t → id t = x.1.1 → begun (st t) = true → x ∈ inputs c') →
  Inputs (tr ++ ls) c'.
Proof.
  intros Hs Hls H Hsub Hnd Hkeep. assert (Hh : handed (tr ++ ls) = handed tr) by (unfold handed in *; by rewrite flat_map_app, Hls, app_nil_r).
  split; rewrite ?Hh; [|done| |apply H].
  - intros i s m Hin. destruct (in_turn _ _ H i s m (Hsub _ Hin)) as (t & Ht & Hi & Hse). destruct (step_grows _ _ _ t Hs Ht) as (t' & Ht' & (Hi' & Hse' & _)). exists t'. by rewrite Hi', Hse'.
  - intros i s m Hin. destruct (in_handed _ _ H i s m Hin) as (Hx & t & Ht & Hi & Hb). split; [by apply (Hkeep _ t)|].
    destruct (step_grows _ _ _ t Hs Ht) as (t' & Ht' & Hg). exists t'. split_and!; [done|by destruct Hg as [-> _]|by apply (grows_begun t)].
Qed.

Lemma inputs_same tr c ls c' : step c ls c' → handed ls = [] → inputs c' = inputs c → Inputs tr c → Inputs (tr ++ ls) c'.
Proof. intros Hs Hls E H. apply (inputs_keep tr c); rewrite ?E; auto. apply H. Qed.

Lemma inputs_step tr c ls c' : step c ls c' → Inputs tr c → Inputs (tr ++ ls) c'.
Proof.
  intros Hs H. pose proof Hs as Hs'.
  destruct Hs as [p Hn _|t Hn Hi Hq _ _ Hw|t m Ht Hq Hm| |t r h Ht Hq|t ms Ht Hst Hms|t a o Ht Hst _ _|v x _ _ _ _|t x b Ht Hst _ _ _ _|t known says Ht Hst|t Ht Hst|t Ht Hst|t l _ _ _ _|w p l _ _ _].
  - by apply (inputs_same tr c).
  - by apply (inputs_same tr c).
  - assert (Hh : handed (tr ++ []) = handed tr) by by rewrite app_nil_r. split; rewrite ?Hh; [| | |apply H].
    + intros i s m' [Hin|Hin%list_elem_of_singleton]%elem_of_app; [by apply (in_turn _ _ H) in Hin|]. injection Hin as -> -> ->. by exists t.
    + cbn. rewrite map_app. apply NoDup_app. split_and!; [apply H| |apply NoDup_singleton]. intros y Hy Hy'%list_elem_of_singleton. subst y.
      apply list_elem_of_In, in_map_iff in Hy as ([[i s] m'] & [= -> ->] & Hin). apply list_elem_of_In in Hin. by apply Hm in Hin.
    + intros i s m' Hin. destruct (in_handed _ _ H i s m' Hin) as (Hx & Hrest). split; [|done]. cbn. apply elem_of_app. by left.
  - by apply (inputs_same tr c).
  - by apply (inputs_same tr c).
  - set (rows := List.filter (λ x, String.eqb x.1.1 (id t)) (inputs c)) in *.
    assert (Hrows : ∀ x, x ∈ rows → x ∈ inputs c ∧ x = (id t, session t, x.2)).
    { intros [[i s] m] [Hx Hi%String.eqb_eq]%list_elem_of_In%filter_In. apply list_elem_of_In in Hx. cbn in Hi. subst i. split; [done|].
      destruct (in_turn _ _ H _ _ _ Hx) as (t' & Ht' & Hi' & Hse). rewrite (T_eq _ _ _ Ht' Ht Hi') in Hse. cbn. by rewrite Hse. }
    assert (Hrow : ∀ m, m ∈ ms → (id t, session t, m) ∈ inputs c).
    { intros m Hin. apply (elem_of_submseteq _ _ _ Hin), list_elem_of_In, in_map_iff in Hms as (x & <- & Hx). apply list_elem_of_In in Hx. destruct (Hrows x Hx) as [? Hx']. by rewrite <-Hx'. }
    assert (Hnd : NoDup ms).
    { destruct (submseteq_Permutation _ _ Hms) as [k Hk]. enough (Hall : NoDup (messages (id t) c)) by (rewrite Hk in Hall; by apply NoDup_app in Hall as [? _]).
      apply NoDup_fmap_2_strong; [|apply (NoDup_fmap_1 input_of), (NoDup_map_filter input_of), H].
      intros x y Hx Hy E. destruct (Hrows x Hx) as [_ ->], (Hrows y Hy) as [_ ->]. cbn in E. by rewrite E. }
    assert (Hh : handed (tr ++ [Hand (id t) (session t) ms]) = handed tr ++ List.map (λ m, (id t, session t, m)) ms) by (unfold handed; rewrite flat_map_app; cbn; by rewrite app_nil_r).
    split; rewrite ?Hh.
    + intros i s m Hin. destruct (in_turn _ _ H i s m Hin) as (u & Hu & Hi & Hse). destruct (step_grows _ _ _ u Hs' Hu) as (u' & Hu' & (Hi' & Hse' & _)). exists u'. by rewrite Hi', Hse'.
    + apply H.
    + intros i s m [Hin|Hin]%elem_of_app.
      * destruct (in_handed _ _ H i s m Hin) as (Hx & u & Hu & Hi & Hb). split; [done|]. destruct (step_grows _ _ _ u Hs' Hu) as (u' & Hu' & Hg).
        exists u'. split_and!; [done|by destruct Hg as [-> _]|by apply (grows_begun u)].
      * apply list_elem_of_In, in_map_iff in Hin as (m' & [= <- <- <-] & Hin). split; [by apply Hrow, list_elem_of_In|].
        exists (t <| st := Started |>). split_and!; [|done..]. apply T_set; [done|]. right. by exists t.
    + rewrite map_app, map_map. apply NoDup_app. split_and!; [apply H| |apply (NoDup_fmap_2_strong (λ m, (session t, m))); [by intros ? ? _ _ [=]|done]].
      intros y Hy Hy'. apply list_elem_of_In, in_map_iff in Hy as ([[i s] m] & <- & Hin), Hy' as (m' & [= <- <-] & Hin').
      apply list_elem_of_In in Hin, Hin'. destruct (in_handed _ _ H _ _ _ Hin) as (Hx & u & Hu & Hi & Hb).
      pose proof (NoDup_map_inj input_of _ _ _ (in_unique _ _ H) Hx (Hrow m' Hin') eq_refl) as [= ->]. by rewrite (T_eq _ _ _ Hu Ht Hi), Hst in Hb.
  - by apply (inputs_same tr c).
  - by apply (inputs_same tr c).
  - by apply (inputs_same tr c).
  - apply (inputs_same tr c); try done. by rewrite marked_places.
  - apply (inputs_keep tr c); [done..| | |].
    + intros x Hx%elem_delete. by destruct Hx.
    + apply NoDup_map_filter, H.
    + intros x u Hx Hu Hi Hb. apply elem_delete. split; [done|]. apply String.eqb_neq. intros E. rewrite <-Hi in E.
      rewrite (T_eq _ _ _ Hu Ht E) in Hb. by destruct Hst as [Hst|Hst]; rewrite Hst in Hb.
  - by apply (inputs_same tr c).
  - by apply (inputs_same tr c).
  - by apply (inputs_same tr c).
Qed.

(** ** Fences *)

Definition claims (tr : list label) : list (string * string * Z * string) := flat_map (λ l, match l with Claim i r g h => [(i, r, g, h)] | _ => [] end) tr.
Definition claim_of (k : Cap) : string * string * Z * string := (k_turn k, k_runner k, k_fence k, hash k).

Record Fences (tr : list label) (c : Core) : Prop := MkFences {
  fe_caps k : k ∈ caps c → claim_of k ∈ claims tr;
  fe_live k t : k ∈ caps c → revoked k = false → T c t → id t = k_turn k → k_fence k = fence t → active t = true;
  fe_turn i r g h : (i, r, g, h) ∈ claims tr → ∃ t, T c t ∧ id t = i ∧ g ≤ fence t;
  (* the fences of a turn rise *)
  fe_rising pre i r g h post r' g' h' : claims tr = pre ++ (i, r, g, h) :: post → (i, r', g', h') ∈ post → g < g';
}.

Lemma fences_keep tr c ls c' : step c ls c' → claims ls = [] → Fences tr c → (∀ k, k ∈ caps c' → ∃ k0, k0 ∈ caps c ∧ claim_of k0 = claim_of k) →
  (∀ k t, k ∈ caps c' → revoked k = false → T c' t → id t = k_turn k → k_fence k = fence t → active t = true) → Fences (tr ++ ls) c'.
Proof.
  intros Hs Hls H Hcaps Hlive. assert (Hc : claims (tr ++ ls) = claims tr) by (unfold claims in *; by rewrite flat_map_app, Hls, app_nil_r).
  split; rewrite ?Hc; [|done| |apply H].
  - intros k Hk. destruct (Hcaps k Hk) as (k0 & Hk0 & <-). by apply (fe_caps _ _ H).
  - intros i r g h Hin. destruct (fe_turn _ _ H i r g h Hin) as (t & Ht & Hi & Hg). destruct (step_grows _ _ _ t Hs Ht) as (t' & Ht' & (Hi' & _ & _ & _ & _ & Hf & _)).
    exists t'. split_and!; [done|congruence|lia].
Qed.

(** The turns and capabilities stay, up to a turn that is active after it. *)
Lemma fences_same tr c ls c' : step c ls c' → claims ls = [] → caps c' = caps c → Fences tr c → (∀ t', T c' t' → active t' = true ∨ T c t') → Fences (tr ++ ls) c'.
Proof.
  intros Hs Hls E H HT. apply (fences_keep tr c); [done..| |]; rewrite E; [eauto|]. intros k t Hk Hr Ht Hi Hf. destruct (HT t Ht) as [|Ht0]; [done|]. by apply (fe_live _ _ H k t).
Qed.

Lemma set_active i f c t' : (∀ t, id (f t) = id t) → (∀ t, active (f t) = true) → T (set_turn i f c) t' → active t' = true ∨ T c t'.
Proof. intros Hf Ha [[_ ?]|(t & _ & _ & ->)]%T_set; [by right|by left|done]. Qed.

(** A turn that ends or is put back: its capabilities are revoked. *)
Lemma fences_released tr c ls t0 f c' : step c ls c' → claims ls = [] → Fences tr c → (∀ t, id (f t) = id t) → turns c' = turns (set_turn (id t0) f c) →
  caps c' = caps (release (id t0) c) → Fences (tr ++ ls) c'.
Proof.
  intros Hs Hls H Hf Htu Hca. assert (Hk : ∀ k, k ∈ caps c' → ∃ k0, k0 ∈ caps c ∧ claim_of k0 = claim_of k ∧ (revoked k = false → k0 = k ∧ k_turn k ≠ id t0)).
  { rewrite Hca. intros k (k0 & Hk0 & ->)%elem_update. exists k0. destruct (String.eqb_spec (k_turn k0) (id t0)) as [E|E]; cbn; [|by split_and!].
    destruct (revoked k0) eqn:Er; cbn; split_and!; try done; by rewrite Er. }
  apply (fences_keep tr c); [done..| |].
  - intros k Hin. destruct (Hk k Hin) as (k0 & ? & ? & _). eauto.
  - intros k t Hin Hr Ht Hi Hfe. destruct (Hk k Hin) as (k0 & Hk0 & _ & Hrev). destruct (Hrev Hr) as [-> Hne].
    apply (T_turns _ _ _ Htu), T_set in Ht as [[_ Ht]|(u & _ & Hu & ->)]; [by apply (fe_live _ _ H k t)| |done]. rewrite Hf in Hi. congruence.
Qed.

Lemma fences_claim tr c t r h c' : Fences tr c → T c t →
  step c [Claim (id t) r (fence t + 1) h] c' → turns c' = turns (set_turn (id t) (λ u, u <| st := Leased |> <| runner := Some r |> <| fence := fence t + 1 |>) c) →
  caps c' = caps c ++ [MkCap h (id t) r (fence t + 1) false] → Fences (tr ++ [Claim (id t) r (fence t + 1) h]) c'.
Proof.
  intros H Ht Hs Htu Hca. set (f := λ u : Turn, _) in Htu. assert (Hc : claims (tr ++ [Claim (id t) r (fence t + 1) h]) = claims tr ++ [(id t, r, fence t + 1, h)]) by (unfold claims; by rewrite flat_map_app).
  assert (Hbelow : ∀ r' g h', (id t, r', g, h') ∈ claims tr → g ≤ fence t).
  { intros r' g h' Hin. destruct (fe_turn _ _ H _ _ _ _ Hin) as (u & Hu & Hi & Hg). by rewrite (T_eq _ _ _ Hu Ht Hi) in Hg. }
  split; rewrite ?Hc.
  - rewrite Hca. intros k [Hk|Hk]%elem_of_app; apply elem_of_app; [left; by apply (fe_caps _ _ H)|right]. apply list_elem_of_singleton in Hk as ->. by left.
  - rewrite Hca. intros k u [Hk| ->%list_elem_of_singleton]%elem_of_app Hr Hu Hi Hfe; apply (T_turns _ _ _ Htu), T_set in Hu as [[Hne Hu]|(u0 & Hu & Hi0 & ->)]; try done.
    by apply (fe_live _ _ H k u).
  - intros i r' g h' [Hin|Hin]%elem_of_app.
    + destruct (fe_turn _ _ H i r' g h' Hin) as (u & Hu & Hi & Hg). destruct (step_grows _ _ _ u Hs Hu) as (u' & Hu' & (Hi' & _ & _ & _ & _ & Hf & _)).
      exists u'. split_and!; [done|congruence|lia].
    + apply list_elem_of_singleton in Hin as [= -> -> -> ->]. exists (f t). split_and!; [|done|cbn; lia]. apply (T_turns _ _ _ Htu), T_set; [done|]. right. by exists t.
  - intros pre i r1 g1 h1 post r2 g2 h2 E Hin. destruct post as [|y post _] using rev_ind; [by apply elem_of_nil in Hin|].
    rewrite app_comm_cons, app_assoc in E. apply app_inj_tail in E as [E <-]. apply elem_of_app in Hin as [Hin|Hin]; [by eapply (fe_rising _ _ H)|].
    apply list_elem_of_singleton in Hin as [= -> -> -> ->]. assert (g1 ≤ fence t); [|lia]. apply (Hbelow r1 g1 h1). rewrite E. apply elem_of_app. right. by left.
Qed.

Lemma fences_step tr c ls c' : step c ls c' → Fences tr c → Fences (tr ++ ls) c'.
Proof.
  intros Hs H. pose proof Hs as Hs'.
  destruct Hs as [p Hn _|t Hn Hi Hq Hf0 _ Hw|t m Ht Hq Hm| |t r h Ht Hq|t ms Ht Hst Hms|t a o Ht Hst _ _|v x _ _ _ _|t x b Ht Hst _ _ _ _|t known says Ht Hst|t Ht Hst|t Ht Hst|t l _ _ _ _|w p l _ _ _].
  - apply (fences_same tr c); try done. by right.
  - apply (fences_keep tr c); [done|done|done|eauto|]. intros k u Hk Hr [Hu| ->]%T_new Hid Hfe; [by apply (fe_live _ _ H k u)| |done].
    destruct (fe_turn _ _ H _ _ _ _ (fe_caps _ _ H k Hk)) as (u & Hu & Hiu & _). unfold T in Hu. rewrite Hiu, <-Hid, Hn in Hu. done.
  - apply (fences_same tr c); try done. by right.
  - apply (fences_same tr c); try done. by right.
  - by apply (fences_claim tr c).
  - apply (fences_same tr c); try done. intros u. by apply set_active.
  - apply (fences_same tr c); try done. intros u. by apply (set_active (id t) _ c).
  - apply (fences_same tr c); try done. by right.
  - apply (fences_same tr c); try done. intros u. by apply (set_active (id t) _ c).
  - apply (fences_released tr c _ t (λ u, u <| st := if known then Completed else OutcomeUnknown |>)); try done; by rewrite marked_places.
  - by apply (fences_released tr c _ t (λ u, u <| st := CancelledBeforeStart |>)).
  - by apply (fences_released tr c _ t (λ u, u <| st := Queued |> <| runner := None |>)).
  - apply (fences_same tr c); try done. by right.
  - apply (fences_same tr c); try done. by right.
Qed.

(** Whoever is current made the last claim of the turn, and holds it. *)
Lemma fences_current tr c k t : Fences tr c → k ∈ caps c → revoked k = false → T c t → id t = k_turn k → k_fence k = fence t →
  active t = true ∧ ∃ pre post, claims tr = pre ++ claim_of k :: post ∧ ∀ r g h, (id t, r, g, h) ∉ post.
Proof.
  intros H Hk Hr Ht Hi Hf. split; [by apply (fe_live _ _ H k t)|]. pose proof (fe_caps _ _ H k Hk) as Hin. apply list_elem_of_split in Hin as (pre & post & E).
  exists pre, post. split; [done|]. intros r g h Hin. unfold claim_of in E. rewrite <-Hi in E. pose proof (fe_rising _ _ H _ _ _ _ _ _ _ _ _ E Hin) as Hlt.
  destruct (fe_turn _ _ H (id t) r g h) as (u & Hu & Hiu & Hg); [rewrite E; apply elem_of_app; right; by right|]. rewrite (T_eq _ _ _ Hu Ht Hiu) in Hg. lia.
Qed.

(** ** Approvals *)

Definition resumed (tr : list label) : list (string * string * string * bool) := flat_map (λ l, match l with Resume a i o b => [(a, i, o, b)] | _ => [] end) tr.
Definition approval_of (x : string * string * string * bool) : string := x.1.1.1.

(** A decision that was recorded for a wait is the one of a verdict on its turn and operation. *)
Definition backed (c : Core) (a i o : string) (b : bool) : Prop := ∃ v, v ∈ verdicts c ∧ v_approval v = a ∧ v_turn v = i ∧ allow v = b ∧ v_digest v = about a i o b.

Record Approvals (tr : list label) (c : Core) : Prop := MkApprovals {
  ap_ids : NoDup (List.map approval (waits c));
  ap_backed x b : x ∈ waits c → decision x = Some b → backed c (approval x) (w_turn x) (operation x) b;
  ap_spent a i o b : (a, i, o, b) ∈ resumed tr → ∃ x, x ∈ waits c ∧ approval x = a ∧ w_turn x = i ∧ operation x = o ∧ decision x = Some b ∧ open x = false;
  ap_once : NoDup (List.map approval_of (resumed tr));
}.

Lemma approvals_same tr c ls c' : resumed ls = [] → waits c' = waits c → verdicts c' = verdicts c → Approvals tr c → Approvals (tr ++ ls) c'.
Proof.
  intros Hls Hw Hv H. assert (Hr : resumed (tr ++ ls) = resumed tr) by (unfold resumed in *; by rewrite flat_map_app, Hls, app_nil_r).
  split; rewrite ?Hr, ?Hw; [apply H| |apply H|apply H]. intros x b Hx Hd. unfold backed. rewrite Hv. by apply (ap_backed _ _ H).
Qed.

Lemma find_elem {A} (p : A → bool) l x : List.find p l = Some x → x ∈ l.
Proof. intros H. apply find_some in H as [H _]. by apply list_elem_of_In. Qed.

Lemma ids_wait a f l : (∀ y, approval (f y) = approval y) → List.map approval (update_where (λ y, String.eqb (approval y) a) f l) = List.map approval l.
Proof. intros Hf. unfold update_where. rewrite map_map. apply map_ext. intros y. by destruct (String.eqb _ _). Qed.

Lemma approvals_step tr c ls c' : step c ls c' → Approvals tr c → Approvals (tr ++ ls) c'.
Proof.
  intros Hs H.
  destruct Hs as [p Hn _|t Hn Hi Hq Hf0 _ Hw|t m Ht Hq Hm| |t r h Ht Hq|t ms Ht Hst Hms|t a o Ht Hst Ha _|v x Hx Hd Hvt Hvd|t x b Ht Hst Hx Hxt Hop Hd|t known says Ht Hst|t Ht Hst|t Ht Hst|t l _ _ _ _|w p l _ _ _].
  all: try by apply (approvals_same tr c).
  - rewrite app_nil_r. split; cbn; [| | |apply H].
    + rewrite map_app. apply NoDup_app. split_and!; [apply H| |apply NoDup_singleton]. intros y Hy ->%list_elem_of_singleton. by apply Ha.
    + intros x b [Hx| ->%list_elem_of_singleton]%elem_of_app Hd; [|done]. by apply (ap_backed _ _ H).
    + intros a' i o' b Hin. destruct (ap_spent _ _ H _ _ _ _ Hin) as (x & Hx & Hrest). exists x. split; [|done]. apply elem_of_app. by left.
  - rewrite app_nil_r. assert (Hxin := find_elem _ _ _ Hx). assert (Hxa := find_id approval _ _ _ Hx).
    assert (Hthe : ∀ y, y ∈ waits c → approval y = v_approval v → y = x) by (intros y Hy Ey; apply (NoDup_map_inj approval (waits c)); [apply H|done..|congruence]).
    split; [change (NoDup (List.map approval (update_where (λ y, String.eqb (approval y) (v_approval v)) (λ y, y <| decision := Some (allow v) |>) (waits c)))); rewrite ids_wait by done; apply H| | |apply H].
    + intros y b (y0 & Hy0 & ->)%elem_update. destruct (String.eqb_spec (approval y0) (v_approval v)) as [E|E]; cbn.
      * intros [= <-]. rewrite (Hthe y0 Hy0 E). exists v. split_and!; [apply elem_of_app; right; by left|done|done|done|congruence].
      * intros Hdy. destruct (ap_backed _ _ H y0 b Hy0 Hdy) as (v0 & Hv0 & Hrest). exists v0. split; [apply elem_of_app; by left|done].
    + intros a' i o' b Hin. destruct (ap_spent _ _ H _ _ _ _ Hin) as (y & Hy & Ea & Ei & Eo & Ed & Eop). exists y. split_and!; try done. apply elem_update. exists y. split; [done|].
      destruct (String.eqb_spec (approval y) (v_approval v)) as [E|E]; [|done]. rewrite (Hthe y Hy E), Hd in Ed. done.
  - assert (Hxin := find_elem _ _ _ Hx).
    assert (Hthe : ∀ y, y ∈ waits c → approval y = approval x → y = x) by (intros y Hy Ey; by apply (NoDup_map_inj approval (waits c)); [apply H|..]).
    assert (Hr : resumed (tr ++ [Resume (approval x) (id t) (operation x) b]) = resumed tr ++ [(approval x, id t, operation x, b)]) by (unfold resumed; by rewrite flat_map_app).
    split; rewrite ?Hr; [change (NoDup (List.map approval (update_where (λ y, String.eqb (approval y) (approval x)) (λ y, y <| open := false |>) (waits c)))); rewrite ids_wait by done; apply H| | |].
    + intros y d (y0 & Hy0 & ->)%elem_update. destruct (String.eqb _ _); cbn; apply (ap_backed _ _ H y0 d Hy0).
    + intros a' i o' d [Hin|Hin]%elem_of_app.
      * destruct (ap_spent _ _ H _ _ _ _ Hin) as (y & Hy & Ea & Ei & Eo & Ed & Eop). exists (if String.eqb (approval y) (approval x) then y <| open := false |> else y).
        split; [apply elem_update; by exists y|]. by destruct (String.eqb _ _).
      * apply list_elem_of_singleton in Hin as [= -> -> -> ->]. exists (x <| open := false |>). split_and!; try done. apply elem_update. exists x. by rewrite String.eqb_refl.
    + rewrite map_app. apply NoDup_app. split; [apply (ap_once _ _ H)|]. split; [|apply NoDup_singleton]. intros y Hy Hy'. apply list_elem_of_singleton in Hy' as ->.
      apply list_elem_of_In, in_map_iff in Hy as ([[[a' i] o'] d] & E & Hin). cbn in E. subst a'. apply list_elem_of_In in Hin.
      destruct (ap_spent _ _ H _ _ _ _ Hin) as (y & Hy & Ea & _ & _ & _ & Eop). rewrite (Hthe y Hy Ea) in Eop. congruence.
  - rewrite marked_places. by apply (approvals_same tr c).
Qed.

(** ** Runs *)

Record Inv (tr : list label) (c : Core) : Prop := MkInv {
  inv_places : Places c; inv_inputs : Inputs tr c; inv_fences : Fences tr c; inv_approvals : Approvals tr c;
}.

Lemma inv_empty : Inv [] empty.
Proof. split; split; cbn; try (intros; by match goal with H : _ ∈ [] |- _ => apply elem_of_nil in H end); try (by constructor); try by intros. by intros []. Qed.

Lemma protocol_inv tr0 c tr c' : run c tr c' → Inv tr0 c → Inv (tr0 ++ tr) c'.
Proof.
  induction 1 as [|tr d ls d' _ IH Hs]; intros H; [by rewrite app_nil_r|]. destruct (IH H) as [H1 H2 H3 H4]. rewrite app_assoc.
  split; [by eapply places_step|by eapply inputs_step|by eapply fences_step|by eapply approvals_step].
Qed.

Lemma protocol_grows c tr c' t : run c tr c' → T c t → ∃ t', T c' t' ∧ id t' = id t ∧ session t' = session t ∧ rtc edge (st t) (st t').
Proof.
  intros Hr Ht. induction Hr as [|tr d ls d' _ IH Hs]; [by exists t|]. destruct IH as (u & Hu & Hi & Hse & He).
  destruct (step_grows _ _ _ u Hs Hu) as (u' & Hu' & (Hi' & Hse' & _ & _ & _ & _ & Hst)). exists u'. split_and!; [done|congruence|congruence|].
  destruct Hst as [->|Hst]; [done|]. by eapply rtc_r.
Qed.

End machine.
End DispatchProtocol.
