(* ===== verification/DispatchRouterFacts.v ===== *)
(** * The dispatch router keeps its protocol

    [core] reads a state of [DispatchProtocol] off the tables of the router. Every method of [DispatchRouter]
    is then a run of the protocol, whose labels are a function of the answer: this is proved with a small
    logic of the transaction monad ([wp]), in which a computation that leaves [core] alone is [Quiet]. The
    runs of the router, with restarts and with changes to the other tables, inherit the invariant. *)

From Stdlib Require Import ZArith QArith Qround Lia String Ascii.
From stdpp Require Import base list strings relations.
From S2P Require Import Prelude OMap Json ExecAuth DispatchRouter DispatchProtocol.
#[local] Open Scope stdpp_scope.
#[local] Open Scope js_scope.

Module P := DispatchProtocol.
Import DispatchRouter.
Import (hints) DispatchProtocol.DispatchProtocol.

(** ** The state of the protocol *)

Definition turn_of (d : Dispatch) : P.Turn :=
  P.MkTurn (d_id d) (d_session d) (d_state d) (d_may_write d) (d_workspace d) (d_named d) (d_fence d) (d_runner d).
Definition input_row (x : Batch) : string * string * string := (x_dispatch x, x_session x, x_message x).
Definition cap_of (c : Capability) : P.Cap := P.MkCap (c_hash c) (c_dispatch c) (c_runner c) (c_fence c) (is_Some_b (c_revoked c)).
Definition place_of (w : Resource) : P.Place := P.MkPlace (w_id w) (w_dirty w) (w_by w).
Definition held_row (l : Lease) : string * string := (l_resource l, l_dispatch l).
Definition wait_of (a : Wait) : P.Wait := P.MkWait (a_id a) (a_dispatch a) (a_operation a) (a_decision a) (open_wait a).
Definition verdict_of (v : Verdict) : P.Verdict := P.MkVerdict (v_event v) (v_approval v) (v_dispatch v) (v_allow v) (v_digest v).

Definition core (s : DB) : P.Core :=
  P.MkCore (List.map turn_of (dispatches s)) (List.map input_row (batches s)) (List.map cap_of (capabilities s)) (List.map place_of (resources s))
    (List.map held_row (leases s)) (List.map wait_of (waits s)) (List.map verdict_of (verdicts s)) (List.map o_dispatch (resolutions s)).

Lemma find_map {A B} (f : A → B) (p : B → bool) (q : A → bool) l : (∀ x, p (f x) = q x) → List.find p (List.map f l) = f <$> List.find q l.
Proof. intros H. induction l as [|x l IH]; [done|]. cbn. rewrite H. by destruct (q x). Qed.

Lemma map_update {A B} (f : A → B) (p : A → bool) (q : B → bool) (g : A → A) (h : B → B) l : (∀ x, q (f x) = p x) → (∀ x, f (g x) = h (f x)) →
  List.map f (update_where p g l) = update_where q h (List.map f l).
Proof. intros Hp Hg. unfold update_where. rewrite !map_map. apply map_ext. intros x. rewrite Hp. by destruct (p x). Qed.

Lemma map_delete {A B} (f : A → B) (p : A → bool) (q : B → bool) l : (∀ x, q (f x) = p x) → List.map f (delete_where p l) = delete_where q (List.map f l).
Proof. intros Hp. unfold delete_where. induction l as [|x l IH]; [done|]. cbn. rewrite Hp. destruct (p x); cbn; by rewrite IH. Qed.

Lemma existsb_map {A B} (f : A → B) (p : B → bool) l : existsb p (List.map f l) = existsb (λ x, p (f x)) l.
Proof. induction l as [|x l IH]; [done|]. cbn. by rewrite IH. Qed.

Lemma turnOf_core i s : P.turnOf i (core s) = turn_of <$> dispatchOf i s.
Proof. by apply find_map. Qed.
Lemma placeOf_core n s : P.placeOf n (P.places (core s)) = place_of <$> resourceOf n s.
Proof. by apply find_map. Qed.
Lemma waitOf_core a s : P.waitOf a (core s) = wait_of <$> waitOf a s.
Proof. by apply find_map. Qed.
Lemma needs_core d : P.needs (turn_of d) = needed d.
Proof. unfold P.needs, P.own, needed. cbn. destruct (d_workspace d); [|done]. by destruct (_ && _). Qed.
Lemma active_core d : P.active (turn_of d) = live d.
Proof. done. Qed.

(** A row that was looked up is the turn of its id. *)
Lemma T_dispatchOf i d s : dispatchOf i s = Some d → d_id d = i ∧ P.T (core s) (turn_of d).
Proof.
  intros H. unfold dispatchOf in H. pose proof (find_some _ _ H) as [_ Hi%String.eqb_eq]. split; [done|]. unfold P.T. rewrite turnOf_core. cbn. unfold dispatchOf. by rewrite Hi, H.
Qed.

(** The dispatches have their primary key. *)
Definition keyed (c : P.Core) : Prop := NoDup (List.map P.id (P.turns c)).

Lemma T_in d s : keyed (core s) → d ∈ dispatches s → P.T (core s) (turn_of d).
Proof.
  intros Hnd Hd. apply P.T_elem_iff; [done|]. cbn. apply list_elem_of_In, in_map, list_elem_of_In, Hd.
Qed.

(** ** A logic of transactions *)

(** [m] answers as [Q] says, or refuses and leaves what [R] says; an error is taken back. *)
Definition wp {A} (m : M A) (Q : A → DB → Prop) (R : DB → Prop) (s : DB) : Prop :=
  match m s with (inr a, s') => Q a s' | (inl (Refused _), s') => R s' | _ => True end.

Lemma wp_bind {A B} (m : M A) (k : A → M B) Q R s : wp m (λ a s', wp (k a) Q R s') R s → wp (m ≫= k) Q R s.
Proof. unfold wp, mbind, bind. by destruct (m s) as [[[]|a] s']. Qed.

Lemma wp_mono {A} (m : M A) (Q Q' : A → DB → Prop) (R R' : DB → Prop) s : wp m Q R s → (∀ a s', Q a s' → Q' a s') → (∀ s', R s' → R' s') → wp m Q' R' s.
Proof. unfold wp. intros H HQ HR. destruct (m s) as [[[]|a] s']; auto. Qed.

Lemma wp_ret {A} (a : A) (Q : A → DB → Prop) R s : Q a s → wp (mret a) Q R s.
Proof. done. Qed.
Lemma wp_gets {A B} (f : DB → A) (k : A → M B) Q R s : wp (k (f s)) Q R s → wp (gets f ≫= k) Q R s.
Proof. done. Qed.
Lemma wp_modify {A} (f : DB → DB) (k : unit → M A) Q R s : wp (k tt) Q R (f s) → wp (modify f ≫= k) Q R s.
Proof. done. Qed.
Lemma wp_if {A} (b : bool) code (k : M A) Q (R : DB → Prop) s : R s → (b = false → wp k Q R s) → wp (if b then refuse code else k) Q R s.
Proof. intros HR Hk. destruct b; [exact HR|by apply Hk]. Qed.
Lemma wp_found {A B} (o : option A) f (k : A → M B) Q (R : DB → Prop) s : R s → (∀ a, o = Some a → wp (k a) Q R s) → wp (found o f ≫= k) Q R s.
Proof. intros HR Hk. destruct o; [by apply Hk|]. apply wp_bind. unfold wp, found, fail. by destruct f. Qed.
Lemma wp_insert {A B} get put clash (r : B) (k : unit → M A) Q R s :
  (existsb (clash r) (get s) = false → wp (k tt) Q R (put (get s ++ [r]) s)) → wp (insert get put clash r ≫= k) Q R s.
Proof. intros H. apply wp_bind. unfold insert. apply wp_gets. destruct (existsb _ _); [done|]. by apply H. Qed.

(** A loop keeps what each of its turns keeps. *)
Lemma wp_each {A} (f : A → M unit) (I : list A → DB → Prop) R l s :
  I l s → (∀ a l s, I (a :: l) s → wp (f a) (λ _, I l) R s) → wp (each f l) (λ _, I []) R s.
Proof.
  intros HI Hf. revert s HI. induction l as [|a l IH]; intros s HI; [done|]. cbn. apply wp_bind. eapply wp_mono; [by apply Hf|intros [] s1; apply IH|done].
Qed.

(** *** Computations that leave a part of the tables alone *)

Section stable.
Context {X : Type} (p : DB → X).

Definition Stable {A} (m : M A) : Prop := ∀ s, p (m s).2 = p s.

Lemma wp_stable {A B} (m : M A) (k : A → M B) Q (R : DB → Prop) s :
  Stable m → (∀ s', p s' = p s → R s') → (∀ a s', p s' = p s → wp (k a) Q R s') → wp (m ≫= k) Q R s.
Proof. intros Hq HR Hk. apply wp_bind. unfold wp. specialize (Hq s). destruct (m s) as [[f|a] s']; cbn in Hq; [|by apply Hk]. destruct f; [by apply HR|done..]. Qed.

Lemma stable_bind {A B} (m : M A) (k : A → M B) : Stable m → (∀ a, Stable (k a)) → Stable (m ≫= k).
Proof. intros Hm Hk s. unfold mbind, bind. specialize (Hm s). destruct (m s) as [[f|a] s']; [done|]. rewrite <-Hm. apply Hk. Qed.
Lemma stable_ret {A} (a : A) : Stable (mret a).
Proof. done. Qed.
Lemma stable_fail {A} f : Stable (fail f : M A).
Proof. done. Qed.
Lemma stable_refuse {A} c : Stable (refuse c : M A).
Proof. done. Qed.
Lemma stable_gets {A} (f : DB → A) : Stable (gets f).
Proof. done. Qed.
Lemma stable_modify f : (∀ s, p (f s) = p s) → Stable (modify f).
Proof. done. Qed.
Lemma stable_found {A} (o : option A) f : Stable (found o f).
Proof. by destruct o. Qed.
Lemma stable_if {A} (b : bool) (m k : M A) : Stable m → Stable k → Stable (if b then m else k).
Proof. by destruct b. Qed.
Lemma stable_when b m : Stable m → Stable (when b m).
Proof. by destruct b. Qed.
Lemma stable_each {A} (f : A → M unit) l : (∀ a, Stable (f a)) → Stable (each f l).
Proof. intros H. induction l as [|a l IH]; [done|]. cbn. by apply stable_bind. Qed.
Lemma stable_insert {B} get (put : list B → DB → DB) clash r : (∀ l s, p (put l s) = p s) → Stable (insert get put clash r).
Proof. intros H. unfold insert. apply stable_bind; [done|]. intros rows. apply stable_if; [done|]. by apply stable_modify. Qed.
Lemma stable_requiredText v n : Stable (requiredText v n).
Proof. unfold requiredText. destruct v; try done. by destruct (_ || _). Qed.
Lemma stable_requiredTexts l n : Stable (requiredTexts l n).
Proof. induction l as [|v l IH]; [done|]. cbn. apply stable_bind; [apply stable_requiredText|]. intros a. by apply stable_bind. Qed.
Lemma stable_transaction {A} (m : M A) : Stable m → Stable (transaction m).
Proof. intros H s. unfold transaction. specialize (H s). by destruct (m s) as [[[]|a] s']. Qed.
Lemma stable_guarded {A} (m : M A) : Stable m → Stable (guarded m).
Proof. intros H%stable_transaction s. unfold guarded. specialize (H s). by destruct (transaction m s) as [[[]|a] s']. Qed.
End stable.

Create HintDb quiet.
#[export] Hint Resolve stable_bind stable_ret stable_fail stable_refuse stable_gets stable_found stable_if stable_when stable_each stable_requiredText stable_requiredTexts
  stable_transaction stable_guarded : quiet.
#[export] Hint Extern 3 (Stable _ (modify _)) => (apply stable_modify; intros []; reflexivity) : quiet.
#[export] Hint Extern 3 (Stable _ (insert _ _ _ _)) => (apply stable_insert; intros ? []; reflexivity) : quiet.
#[export] Hint Extern 3 (Stable _ (set_task _ _ _)) => (intros ?; reflexivity) : quiet.
#[export] Hint Extern 5 (Stable _ (match ?x with _ => _ end)) => destruct x : quiet.

(** [Quiet]: the state of the protocol is left alone. *)
Abbreviation Quiet := (Stable core).

(** *** Computations that do not refuse *)

Definition Firm {A} (m : M A) : Prop := ∀ s c, (m s).1 ≠ inl (Refused c).

Lemma wp_calm {X A B} (p : DB → X) (m : M A) (k : A → M B) Q R s : Stable p m → Firm m → (∀ a s', p s' = p s → wp (k a) Q R s') → wp (m ≫= k) Q R s.
Proof. intros Hq Hf Hk. apply wp_bind. unfold wp. specialize (Hq s). specialize (Hf s). destruct (m s) as [[f|a] s']; cbn in *; [|by apply Hk]. destruct f; [by destruct (Hf code)|done..]. Qed.

Lemma wp_last {X A} (p : DB → X) (m : M A) (Q : A → DB → Prop) R s : Stable p m → Firm m → (∀ a s', p s' = p s → Q a s') → wp m Q R s.
Proof. intros Hq Hf Hk. unfold wp. specialize (Hq s). specialize (Hf s). destruct (m s) as [[f|a] s']; cbn in *; [|by apply Hk]. destruct f; [by destruct (Hf code)|done..]. Qed.

Lemma firm_bind {A B} (m : M A) (k : A → M B) : Firm m → (∀ a, Firm (k a)) → Firm (m ≫= k).
Proof. intros Hm Hk s c. unfold mbind, bind. specialize (Hm s c). destruct (m s) as [[f|a] s']; [intros [= ->]; by apply Hm|apply Hk]. Qed.
Lemma firm_ret {A} (a : A) : Firm (mret a).
Proof. done. Qed.
Lemma firm_broken {A} w : Firm (fail (Broken w) : M A).
Proof. done. Qed.
Lemma firm_gets {A} (f : DB → A) : Firm (gets f).
Proof. done. Qed.
Lemma firm_modify f : Firm (modify f).
Proof. done. Qed.
Lemma firm_found {A} (o : option A) w : Firm (found o (Broken w)).
Proof. by destruct o. Qed.
Lemma firm_if {A} (b : bool) (m k : M A) : Firm m → Firm k → Firm (if b then m else k).
Proof. by destruct b. Qed.
Lemma firm_when b m : Firm m → Firm (when b m).
Proof. by destruct b. Qed.
Lemma firm_set_task i p f : Firm (set_task i p f).
Proof. done. Qed.
Lemma firm_insert {B} get (put : list B → DB → DB) clash r : Firm (insert get put clash r).
Proof. unfold insert. apply firm_bind; [done|]. intros rows. by destruct (existsb _ _). Qed.

Lemma firm_each {A} (f : A → M unit) l : (∀ a, Firm (f a)) → Firm (each f l).
Proof. intros H. induction l as [|a l IH]; [done|]. cbn. by apply firm_bind. Qed.

Create HintDb firm.
#[export] Hint Resolve firm_bind firm_ret firm_broken firm_gets firm_modify firm_found firm_if firm_when firm_set_task firm_insert firm_each : firm.
#[export] Hint Extern 5 (Firm (match ?x with _ => _ end)) => destruct x : firm.

Section facts.
Context (num_str : num → string) (sha256 : string → string) (toISOString : Z → string) (eventRetention : Z).

Abbreviation emit := (emit eventRetention).
Abbreviation digest := (digest num_str sha256).

(** What people are shown (events, notices and activities) is of no interest to [p]. *)
Class Deaf {X} (p : DB → X) : Prop := deaf s ns ys es evs l h :
  p (s <| notices := ns |> <| activities := ys |> <| activity_events := es |> <| events := evs |> <| low := l |> <| high := h |>) = p s.
#[export] Instance deaf_core : Deaf core.
Proof. by intros [] *. Qed.

Section shown.
Context {X : Type} (p : DB → X) `{!Deaf p}.

Lemma deaf_emit now kind payload audience : Stable p (emit now kind payload audience).
Proof.
  intros s. unfold DispatchRouter.emit, trimEvents. cbn [snd modify]. set (s' := s <| events := _ |> <| high := _ |>). transitivity (p s').
  - destruct (_ <=? _); [done|]. destruct (drop _ _) as [|e l]; [done|]. etrans; [|apply (deaf s' (notices s') (activities s') (activity_events s') (delete_where (λ x, e_seq x <? e_seq e) (events s')) (e_seq e) (high s'))].
    by destruct s.
  - etrans; [|apply (deaf s (notices s) (activities s) (activity_events s) (events s') (low s) (high s'))]. by destruct s.
Qed.

Lemma deaf_notices f : Stable p (modify (λ s, s <| notices := f s |>)).
Proof. intros s. etrans; [|apply (deaf s (f s) (activities s) (activity_events s) (events s) (low s) (high s))]. by destruct s. Qed.

Lemma deaf_insertNotice now d t key room thread sender body : Stable p (insertNotice num_str sha256 eventRetention now d t key room thread sender body).
Proof. unfold insertNotice. apply stable_bind; [done|]. intros ns. apply stable_if; [done|]. apply stable_bind; [apply deaf_notices|]. intros _. apply deaf_emit. Qed.

Lemma deaf_notice now d key body : Stable p (enqueueThreadNotice num_str sha256 eventRetention now d key body).
Proof. unfold enqueueThreadNotice. apply stable_bind; [done|]. intros x. apply stable_bind; [apply stable_found|]. intros y. apply deaf_insertNotice. Qed.

Lemma deaf_activity now d e : Stable p (updateActivity num_str sha256 eventRetention now d e).
Proof.
  unfold updateActivity. apply stable_bind.
  - intros s. assert (E : ∀ u, u = activity_update num_str now (d_id d) e s → u.2 = s <| activities := activities u.2 |> <| activity_events := activity_events u.2 |>).
    { intros u ->. unfold activity_update, set_activity. destruct (activityOf _ _) as [y|]; [|destruct (negb _); by destruct s]. destruct (_ || _); [by destruct s|].
      destruct (tool_phase _ && _); [by destruct s|]. destruct (tool_phase (ae_phase e)); destruct (negb _); by destruct s. }
    destruct (activity_update _ _ _ _ _) as [u s']. specialize (E (u, s') eq_refl). cbn [snd] in *.
    etrans; [|apply (deaf s (notices s) (activities s') (activity_events s') (events s) (low s) (high s))]. rewrite E at 1. by destruct s.
  - intros [[revision body]|]; [|done]. apply stable_bind; [apply deaf_notices|]. intros _. apply deaf_notice.
Qed.
End shown.

Definition quiet_emit := deaf_emit core.
Definition quiet_notice := deaf_notice core.
#[local] Hint Resolve deaf_emit deaf_insertNotice deaf_notice deaf_activity deaf_core : quiet.

Lemma firm_emit now kind payload audience : Firm (emit now kind payload audience).
Proof. done. Qed.
#[local] Hint Resolve firm_emit : firm.

Lemma firm_notice now d key body : Firm (enqueueThreadNotice num_str sha256 eventRetention now d key body).
Proof. unfold enqueueThreadNotice, insertNotice. eauto 10 with firm. Qed.
#[local] Hint Resolve firm_notice : firm.

Lemma firm_activity now d e : Firm (updateActivity num_str sha256 eventRetention now d e).
Proof.
  unfold updateActivity. apply firm_bind.
  - intros s c. by destruct (activity_update num_str now (d_id d) e s).
  - intros [[revision body]|]; eauto 10 with firm.
Qed.
#[local] Hint Resolve firm_activity : firm.

(** ** Methods as runs *)

Abbreviation about := (verdict_digest num_str sha256).
Abbreviation run := (P.run about).

(** The method is a run of the protocol, with the labels of its answer. *)
Definition refines {A} (m : M A) (L : A → list P.label) (s : DB) : Prop :=
  run (core s) (match (m s).1 with inr a => L a | inl _ => [] end) (core (m s).2).

Lemma run_eq c c' : c' = c → run c [] c'.
Proof. intros ->. constructor. Qed.

Lemma run_trans c c' c'' : run c [] c' → run c' [] c'' → run c [] c''.
Proof. exact (P.run_app about c [] c' [] c''). Qed.

Lemma transaction_refines {A} (m : M A) L s : wp m (λ a s', run (core s) (L a) (core s')) (λ s', run (core s) [] (core s')) s → refines (transaction m) L s.
Proof. unfold wp, refines, transaction. destruct (m s) as [[[]|a] s']; cbn; [done|constructor|constructor|done]. Qed.

Lemma guarded_refines {A} (m : M A) L s : wp m (λ a s', run (core s) (L a) (core s')) (λ s', run (core s) [] (core s')) s → refines (guarded m) L s.
Proof. intros H%transaction_refines. unfold refines, guarded in *. destruct (transaction m s) as [[[]|a] s']; exact H. Qed.

Lemma quiet_refines {A} (m : M A) s : Quiet m → refines m (λ _, []) s.
Proof. intros H. unfold refines. destruct (m s).1; apply run_eq, H. Qed.

(** A run goes on with further resolutions in view. *)
Definition shift (k : list string) (c : P.Core) : P.Core := P.MkCore (P.turns c) (P.inputs c) (P.caps c) (P.places c) (P.held c) (P.waits c) (P.verdicts c) (P.closed c ++ k).

Lemma shift_nil c : shift [] c = c.
Proof. destruct c. unfold shift. cbn. by rewrite app_nil_r. Qed.

Lemma ensure_run kind i s R : wp (ensureResource kind i) (λ _ s', run (core s) [] (core s') ∧ P.turns (core s') = P.turns (core s) ∧ is_Some (P.placeOf i (P.places (core s'))) ∧
  ∀ n, is_Some (P.placeOf n (P.places (core s))) → is_Some (P.placeOf n (P.places (core s')))) R s.
Proof.
  unfold ensureResource. apply wp_gets. pose proof (placeOf_core i s) as Hi. destruct (resourceOf i s) as [w|] eqn:E; unfold wp, when, modify, mret, ret; cbn [is_Some_b negb].
  - split_and!; [constructor|done| |done]. rewrite Hi. by eexists.
  - set (w := MkResource _ _ _ _ _ _ _ _ _ _). assert (Hc : core (s <| resources := resources s ++ [w] |>) = (core s) <| P.places := P.places (core s) ++ [place_of w] |>) by (unfold core; cbn; by rewrite map_app).
    rewrite Hc. assert (Hn : P.placeOf i (P.places (core s)) = None) by done.
    split_and!.
    + apply P.run_one, P.place_new; done.
    + done.
    + change (is_Some (P.placeOf i (P.places (core s) ++ [place_of w]))). unfold P.placeOf in *. rewrite P.find_app_one, Hn. cbn. rewrite String.eqb_refl. by eexists.
    + intros n [p Hp]. change (is_Some (P.placeOf n (P.places (core s) ++ [place_of w]))). unfold P.placeOf in *. rewrite P.find_app_one, Hp. by eexists.
Qed.

Lemma assign_run now k t m s R : P.T (core s) t → P.st t = Queued →
  wp (assign now (P.id t) (P.session t) m) (λ _ s', run (shift k (core s)) [] (shift k (core s')) ∧ P.turns (core s') = P.turns (core s)) R s.
Proof.
  intros Ht Hq. unfold assign, insert. apply wp_gets. destruct (existsb _ _) eqn:E; [done|]. unfold wp, modify. set (s' := s <| batches := _ |>).
  assert (Hc : core s' = (core s) <| P.inputs := P.inputs (core s) ++ [(P.id t, P.session t, m)] |>) by (subst s'; unfold core; cbn; by rewrite map_app).
  rewrite Hc. split; [|done]. apply P.run_one, (P.assign _ (shift k (core s)) t m); [exact Ht|done|]. intros i Hin.
  apply list_elem_of_In, in_map_iff in Hin as (x & [= Hi Hs Hm] & Hx).
  apply not_true_iff_false in E. apply E, existsb_exists. exists x. split; [done|]. cbn. by rewrite Hm, Hs, !String.eqb_refl, orb_true_r.
Qed.

Lemma assigns_run now k t ms s R : P.T (core s) t → P.st t = Queued →
  wp (each (assign now (P.id t) (P.session t)) ms) (λ _ s', run (shift k (core s)) [] (shift k (core s')) ∧ P.turns (core s') = P.turns (core s)) R s.
Proof.
  intros Ht Hq. apply (wp_each _ (λ _ s', run (shift k (core s)) [] (shift k (core s')) ∧ P.turns (core s') = P.turns (core s))); [split; [constructor|done]|].
  intros m _ s1 [Hr Htu]. eapply wp_mono; [apply (assign_run now k t m s1 R); [by apply (P.T_turns (core s))|done]| |done].
  intros [] s2 [Hr2 Htu2]. split; [by eapply run_trans|congruence].
Qed.

Lemma insert_dispatch_run k d s R : truthy (d_id d) = true → turn_of d = P.MkTurn (d_id d) (d_session d) Queued (d_may_write d) (d_workspace d) (d_named d) 0 None →
  (∀ w, P.own (turn_of d) = Some w → is_Some (P.placeOf w (P.places (core s)))) →
  wp (insert_dispatch d) (λ _ s', run (shift k (core s)) [] (shift k (core s')) ∧ P.T (core s') (turn_of d)) R s.
Proof.
  intros Hid Hd Hw. unfold insert_dispatch, insert. apply wp_gets. destruct (existsb _ _) eqn:E; [done|]. unfold wp, modify.
  assert (Hn : P.turnOf (d_id d) (core s) = None).
  { rewrite turnOf_core. destruct (dispatchOf (d_id d) s) as [e|] eqn:F; [|done]. unfold dispatchOf in F. apply find_some in F as [F1 F2%String.eqb_eq].
    apply not_true_iff_false in E. destruct E. apply existsb_exists. exists e. split; [done|]. by rewrite F2, String.eqb_refl. }
  set (s' := s <| dispatches := _ |>). assert (Hc : core s' = (core s) <| P.turns := P.turns (core s) ++ [turn_of d] |>) by (subst s'; unfold core; cbn; by rewrite map_app).
  rewrite Hc. split; [|by apply P.T_new; [|right]].
  apply P.run_one, (P.turn_new _ (shift k (core s)) (turn_of d)); try done; by rewrite Hd.
Qed.

(** A step that leaves the protocol's state alone, and a guard; refusals leave what was. *)
Ltac still := apply run_eq; congruence.
Ltac quietly a s E := apply (wp_stable core); [eauto 12 with quiet|intros; still|intros a s E].
Ltac pass E := apply wp_if; [still|intros E].

Lemma quiet_may_write x task : Quiet (may_write x task).
Proof. unfold may_write. eauto 10 with quiet. Qed.
#[local] Hint Resolve quiet_may_write : quiet.

Lemma ensures_run kind l s R w : is_Some (P.placeOf w (P.places (core s))) ∨ w = EmptyString →
  wp (each (ensureResource kind) l) (λ _ s', run (core s) [] (core s') ∧ P.turns (core s') = P.turns (core s) ∧ (is_Some (P.placeOf w (P.places (core s'))) ∨ w = EmptyString)) R s.
Proof.
  intros Hw. apply (wp_each _ (λ _ s', run (core s) [] (core s') ∧ P.turns (core s') = P.turns (core s) ∧ (is_Some (P.placeOf w (P.places (core s'))) ∨ w = EmptyString))); [by split_and!; [constructor|..]|].
  intros r _ s1 (Hr & Htu & Hw1). eapply wp_mono; [apply (ensure_run kind r s1 R)| |done]. intros [] s2 (Hr2 & Htu2 & _ & Hmono). split_and!; [by eapply run_trans|congruence|].
  destruct Hw1; [left; by apply Hmono|by right].
Qed.

Lemma head_oldest p l d : head (oldest (List.filter p l)) = Some d → d ∈ l ∧ p d = true.
Proof.
  intros H. assert (Hd : d ∈ oldest (List.filter p l)) by (destruct (oldest _); [done|injection H as ->; by left]).
  unfold oldest in Hd. rewrite stable_sort_perm in Hd. apply list_elem_of_In, filter_In in Hd as [? ?]. split; [by apply list_elem_of_In|done].
Qed.

Lemma enqueue_refines now uuid i s : truthy uuid = true → keyed (core s) → refines (enqueueDispatch eventRetention now uuid i) (λ _, []) s.
Proof.
  intros Hu Hnd. unfold enqueueDispatch. apply guarded_refines.
  quietly session s1 H1. quietly x s2 H2. apply wp_found; [still|intros x' ->]. pass H3. quietly u s3 H4. quietly u' s4 H5. pass H6. quietly named s5 H7. pass H8.
  assert (E5 : core s5 = core s) by congruence. clear H1 H2 H4 H5 H7 s1 s2 s3 s4. set (w := default EmptyString (optionalText (q_workspace i) 512)).
  apply wp_bind. apply (wp_mono _ (λ _ s', run (core s) [] (core s') ∧ P.turns (core s') = P.turns (core s) ∧ (is_Some (P.placeOf w (P.places (core s'))) ∨ w = EmptyString)) _ (λ s', run (core s) [] (core s'))); [| |done].
  { subst w. destruct (optionalText _ _) as [w|]; cbn [default]; [|apply wp_ret; rewrite E5; split_and!; [constructor|done|by right]].
    eapply wp_mono; [apply (ensure_run "workspace" w s5 (λ s', run (core s) [] (core s')))| |done]. rewrite E5. intros [] s6 (? & ? & ? & _). auto. }
  intros [] s6 (R6 & T6 & W6). apply wp_bind. eapply wp_mono; [apply (ensures_run "named" _ s6 (λ s', run (core s) [] (core s')) w W6)| |done].
  intros [] s7 (R7 & T7 & W7). assert (R07 : run (core s) [] (core s7)) by by eapply run_trans. apply wp_gets, wp_gets.
  assert (Hk : keyed (core s7)) by (unfold keyed; by rewrite T7, T6).
  destruct (head _) as [d|] eqn:Hd.
  - apply head_oldest in Hd as [Hd [[Hs%String.eqb_eq _]%andb_true_iff Hq%bool_decide_eq_true]%andb_true_iff]. apply (T_in d s7 Hk) in Hd.
    apply wp_bind. rewrite <-Hs. eapply wp_mono; [apply (assigns_run now [] (turn_of d) _ s7 (λ s', run (core s) [] (core s')) Hd Hq)| |done].
    intros [] s8 [R8 _]. rewrite !shift_nil in R8. assert (R08 : run (core s) [] (core s8)) by by eapply run_trans.
    apply (wp_stable core); [eauto with quiet|by intros s9 ->|]. intros _ s9 E9. apply wp_ret. by rewrite E9.
  - destruct (_ =? 0)%nat; [apply wp_gets; destruct (head (newest _)); exact R07|]. set (d := new_dispatch _ _ _ _ _ _ _ _ _ _).
    apply wp_bind. eapply wp_mono; [apply (insert_dispatch_run [] d s7 (λ s', run (core s) [] (core s')) Hu eq_refl)| |done].
    { subst d w. unfold P.own. cbn. destruct (optionalText _ _) as [w|]; cbn; [|by intros]. destruct (q_write i && truthy w) eqn:Ew; [|by intros]. intros v [= <-].
      destruct W7 as [|E]; [done|]. cbn in E. rewrite E in Ew. by rewrite andb_false_r in Ew. }
    intros [] s8 [R8 Ht]. rewrite !shift_nil in R8. apply wp_bind.
    eapply wp_mono; [apply (assigns_run now [] (turn_of d) _ s8 (λ s', run (core s) [] (core s')) Ht eq_refl)| |done].
    intros [] s9 [R9 _]. rewrite !shift_nil in R9. apply (wp_stable core); [eauto with quiet|intros s10 ->|intros _ s10 E10; apply wp_ret; rewrite E10];
      (eapply run_trans; [exact R07|by eapply run_trans]).
Qed.


(** *** Statements as changes of the protocol's state *)

Lemma core_set_dispatch i f g s : (∀ d, turn_of (f d) = g (turn_of d)) → core (s <| dispatches := update_where (is_id i) f (dispatches s) |>) = P.set_turn i g (core s).
Proof. intros H. unfold core, P.set_turn. cbn. f_equal. by apply map_update. Qed.

(** A dispatch that is queued is the one that a statement on the queued row of its id changes. *)
Lemma core_set_queued i f g s t : keyed (core s) → P.T (core s) t → P.id t = i → P.st t = Queued → (∀ d, turn_of (f d) = g (turn_of d)) →
  core (s <| dispatches := update_where (λ d, is_id i d && is_queued d) f (dispatches s) |>) = P.set_turn i g (core s).
Proof.
  intros Hk Ht Hi Hq Hf. unfold core, P.set_turn. cbn. f_equal.
  rewrite (map_update turn_of _ (λ t, String.eqb (P.id t) i && bool_decide (P.st t = Queued)) f g) by done. apply map_ext_in. intros u Hu. cbn.
  destruct (String.eqb_spec (P.id u) i) as [E|E]; [|done]. apply list_elem_of_In in Hu.
  rewrite (P.T_eq (core s) u t); [by rewrite Hq|by apply P.T_elem_iff|done|congruence].
Qed.

Lemma wp_set_dispatch {A} i f g (k : unit → M A) Q R s : (∀ d, turn_of (f d) = g (turn_of d)) → (∀ s', core s' = P.set_turn i g (core s) → wp (k tt) Q R s') →
  wp (set_dispatch i f ≫= k) Q R s.
Proof. intros Hf Hk. apply wp_modify, Hk. by apply core_set_dispatch. Qed.

Lemma wp_release {A} now i (k : unit → M A) Q R s : (∀ s', core s' = P.release i (core s) → wp (k tt) Q R s') → wp (revoke now i ;; release i ≫= k) Q R s.
Proof.
  intros Hk. apply wp_modify, wp_modify, Hk. unfold core, P.release. cbn. f_equal; [by apply map_update|by apply map_delete].
Qed.

(** *** Claiming *)

Lemma available_wp now d rs s : wp (available num_str sha256 eventRetention now d rs)
  (λ b s', core s' = core s ∧ (b = true → ∀ n p, n ∈ rs → P.placeOf n (P.places (core s)) = Some p → P.dirty p = false)) (λ s', core s' = core s) s.
Proof.
  revert s. induction rs as [|r rs IH]; intros s; [split; [done|]; intros _ n p Hn; by apply elem_of_nil in Hn|].
  cbn [available]. apply wp_gets. destruct (match resourceOf r s with Some w => w_dirty w | None => false end) eqn:Hd.
  - apply (wp_stable core); [eauto with quiet|done|]. intros _ s1 E. by split.
  - assert (Hgo : wp (available num_str sha256 eventRetention now d rs)
      (λ b s', core s' = core s ∧ (b = true → ∀ n p, n ∈ r :: rs → P.placeOf n (P.places (core s)) = Some p → P.dirty p = false)) (λ s', core s' = core s) s).
    { eapply wp_mono; [apply IH| |done]. intros b s1 [E Hb]. split; [done|]. intros Ht n p [->|Hn]%elem_of_cons Hp; [|by apply (Hb Ht n p)].
      rewrite placeOf_core in Hp. destruct (resourceOf r s) as [w|]; [|done]. by injection Hp as <-. }
    apply wp_gets. destruct (List.find _ (leases s)) as [l|]; [|exact Hgo]. destruct (String.eqb _ _); [exact Hgo|]. apply wp_gets.
    apply (wp_stable core); [destruct (dispatchOf _ s); eauto with quiet|done|]. intros _ s1 E. by split.
Qed.

(** The leases of a claim: none of its resources was held, and none comes twice. *)
Lemma leases_wp now until d l s R : wp (each (λ r, insert leases (λ l s, s <| leases := l |>) (λ l e, String.eqb (l_resource l) (l_resource e)) (MkLease r d now until)) l)
  (λ _ s', core s' = (core s) <| P.held := P.held (core s) ++ List.map (λ n, (n, d)) l |> ∧ NoDup l ∧ ∀ n, n ∈ l → n ∉ (P.held (core s)).*1) R s.
Proof.
  revert s. induction l as [|r l IH]; intros s.
  - split_and!; [unfold core; cbn; by rewrite app_nil_r|constructor|]. intros n Hn. by apply elem_of_nil in Hn.
  - cbn [each foldr]. apply wp_insert. intros Hc. set (s1 := s <| leases := _ |>). eapply wp_mono; [apply IH| |done]. intros [] s2 (E & Hnd & Hfree).
    assert (E1 : core s1 = (core s) <| P.held := P.held (core s) ++ [(r, d)] |>) by (subst s1; unfold core; cbn; by rewrite map_app).
    assert (Hr : r ∉ (P.held (core s)).*1).
    { intros Hin. apply list_elem_of_fmap in Hin as ([r' d'] & Er & Hin). cbn in Er. subst r'. cbn in Hin. apply list_elem_of_In, in_map_iff in Hin as (x & [= <- _] & Hx).
      apply not_true_iff_false in Hc. apply Hc, existsb_exists. exists x. split; [done|]. apply String.eqb_refl. }
    rewrite E1 in *. split_and!.
    + rewrite E. cbn. by rewrite <-app_assoc.
    + constructor; [|done]. intros Hin. apply (Hfree r Hin). cbn. rewrite fmap_app. apply elem_of_app. right. by left.
    + intros n [->|Hn]%elem_of_cons; [done|]. intros Hin. apply (Hfree n Hn). cbn. rewrite fmap_app. apply elem_of_app. by left.
Qed.

Definition claim_labels (r : option Claimed) : list P.label :=
  match r with Some z => [P.Claim (z_dispatch z) (z_runner z) (z_fence z) (digest (JStr (z_capability z)))] | None => [] end.

Lemma lease_wp now runner leaseMs ttl raw d s R : keyed (core s) → P.T (core s) (turn_of d) → d_state d = Queued →
  (∀ u, u ∈ P.turns (core s) → P.session u = d_session d → P.active u = false ∧ (P.st u = OutcomeUnknown → P.id u ∈ P.closed (core s))) →
  (∀ n p, n ∈ needed d → P.placeOf n (P.places (core s)) = Some p → P.dirty p = false) →
  wp (lease num_str sha256 eventRetention now runner leaseMs ttl raw d) (λ z s', P.step about (core s) (claim_labels (Some z)) (core s')) R s.
Proof.
  intros Hk Ht Hq Hsession Hclean. unfold lease. apply wp_modify. set (s1 := s <| dispatches := _ |>).
  assert (E1 : core s1 = P.set_turn (d_id d) (λ u, u <| P.st := Leased |> <| P.runner := Some runner |> <| P.fence := d_fence d + 1 |>) (core s)) by by apply (core_set_queued _ _ _ s (turn_of d)).
  apply wp_insert. intros Hc. set (s2 := s1 <| capabilities := _ |>).
  assert (E2 : core s2 = (core s1) <| P.caps := P.caps (core s) ++ [P.MkCap (digest (JStr raw)) (d_id d) runner (d_fence d + 1) false] |>) by (subst s2; unfold core; cbn; by rewrite map_app).
  apply wp_bind. eapply wp_mono; [apply (leases_wp now _ (d_id d) (needed d) s2 R)| |done]. intros [] s3 (E3 & Hnd & Hfree).
  apply (wp_calm core); [eauto with quiet|eauto with firm|]. intros _ s4 E4. apply wp_ret. rewrite E4, E3, E2, E1.
  rewrite <-(needs_core d) in *. apply (P.claim about (core s) (turn_of d) runner (digest (JStr raw))); try done.
  intros Hin. apply list_elem_of_fmap in Hin as (k & Eh & Hin). apply not_true_iff_false in Hc. apply Hc, existsb_exists.
  apply list_elem_of_In, in_map_iff in Hin as (x & <- & Hx). exists x. split; [done|]. cbn in Eh |- *. by rewrite <-Eh, String.eqb_refl.
Qed.

Lemma turns_elem t s : t ∈ P.turns (core s) → ∃ d, d ∈ dispatches s ∧ t = turn_of d.
Proof. intros H. apply list_elem_of_In, in_map_iff in H as (d & <- & Hd). exists d. split; [by apply list_elem_of_In|done]. Qed.

Lemma none_open session s t : unresolvedOf session s = None → t ∈ P.turns (core s) → P.session t = session → P.st t = OutcomeUnknown → P.id t ∈ P.closed (core s).
Proof.
  intros Hu (d & Hd & ->)%turns_elem Hs Hst. unfold unresolvedOf in Hu. cbn in Hs, Hst |- *.
  destruct (existsb (λ o, String.eqb (o_dispatch o) (d_id d)) (resolutions s)) eqn:E.
  - apply existsb_exists in E as (o & Ho & <-%String.eqb_eq). by apply list_elem_of_In, in_map.
  - exfalso. assert (Hin : d ∈ stable_sort (λ a b, default 0 (d_settled b) <? default 0 (d_settled a)) (List.filter (λ d, of_session session d && unresolved s d) (dispatches s))).
    { rewrite stable_sort_perm. apply list_elem_of_In, filter_In. split; [by apply list_elem_of_In|]. unfold of_session, unresolved, unknown. by rewrite Hs, String.eqb_refl, Hst, E. }
    destruct (stable_sort _ _); [by apply elem_of_nil in Hin|done].
Qed.

Lemma none_busy session s t : existsb (λ e, of_session session e && live e) (dispatches s) = false → t ∈ P.turns (core s) → P.session t = session → P.active t = false.
Proof.
  intros Hb (d & Hd & ->)%turns_elem Hs. apply not_true_iff_false. intros Ha. apply not_true_iff_false in Hb. apply Hb, existsb_exists. exists d.
  split; [by apply list_elem_of_In|]. unfold of_session. cbn in Hs. rewrite Hs, String.eqb_refl. exact Ha.
Qed.

(** A row that was read before is claimed when nothing stands against it. *)
Lemma claimRow_wp now runner leaseMs ttl raw d s : keyed (core s) → P.T (core s) (turn_of d) → d_state d = Queued →
  wp (claimRow num_str sha256 toISOString eventRetention now runner leaseMs ttl raw d) (λ r s', match r with Some _ => P.step about (core s) (claim_labels r) (core s') | None => core s' = core s end)
    (λ s', core s' = core s) s.
Proof.
  intros Hk Ht Hq. unfold claimRow. apply wp_gets. destruct (unresolvedOf (d_session d) s) as [u|] eqn:Hu; [apply (wp_calm core); [eauto with quiet|eauto with firm|]; by intros|].
  apply (wp_stable core); [unfold taskGate; eauto 12 with quiet|done|]. intros [f|] s1 E1; [|exact E1]. apply wp_gets. destruct (existsb _ _) eqn:Hbusy; [exact E1|].
  apply wp_bind. eapply wp_mono; [apply (available_wp now d (needed d) s1)| |intros s2 ->; exact E1]. intros [] s2 [E2 Hclean]; [|apply wp_ret; by rewrite E2].
  specialize (Hclean eq_refl). cbn [negb]. apply (wp_calm core); [unfold reopen; destruct f as [[]|]; eauto 10 with quiet|unfold reopen; destruct f as [[]|]; eauto 10 with firm|]. intros _ s3 E3.
  assert (E : core s3 = core s) by congruence.
  assert (Hopen := λ t, none_open (d_session d) s t Hu). assert (Hidle := λ t, none_busy (d_session d) s1 t Hbusy). rewrite E1 in Hclean, Hidle. rewrite <-E in *.
  apply wp_bind. eapply wp_mono; [apply (lease_wp now runner leaseMs ttl raw d s3 (λ s', core s' = core s3) Hk Ht Hq); auto| |done].
  intros z s4 H. by apply wp_ret.
Qed.

Lemma claimRows_wp now runner leaseMs ttl raw l s : keyed (core s) → (∀ d, d ∈ l → P.T (core s) (turn_of d) ∧ d_state d = Queued) →
  wp (claimRows num_str sha256 toISOString eventRetention now runner leaseMs ttl raw l) (λ r s', run (core s) (claim_labels r) (core s')) (λ s', run (core s) [] (core s')) s.
Proof.
  revert s. induction l as [|d l IH]; intros s Hk Hl; [constructor|]. destruct (Hl d) as [Ht Hq]; [by left|]. cbn [claimRows]. apply wp_bind.
  eapply wp_mono; [by apply claimRow_wp| |by intros s1 H; apply run_eq]. intros [z|] s1 H; [by apply wp_ret, P.run_one|].
  rewrite <-H in *. apply IH; [done|]. intros e He. apply Hl. by right.
Qed.

Lemma purge_run s : run (core s) [] (core (s <| leases := delete_where (λ l, existsb (λ d, is_id (l_dispatch l) d && negb (live d)) (dispatches s)) (leases s) |>)).
Proof.
  apply P.run_one. replace (core (s <| leases := _ |>)) with ((core s) <| P.held := delete_where (λ h, existsb (λ t, String.eqb (P.id t) h.2 && negb (P.active t)) (P.turns (core s))) (P.held (core s)) |>); [constructor|].
  unfold core. cbn. f_equal. symmetry. apply map_delete. intros l. unfold held_row. by rewrite existsb_map.
Qed.

Lemma claim_refines now raw i s : keyed (core s) → refines (claimDispatch num_str sha256 toISOString eventRetention now raw i) claim_labels s.
Proof.
  intros Hk. unfold claimDispatch. apply guarded_refines. quietly runner s1 H1. quietly leaseMs s2 H2. quietly ttl s3 H3. apply wp_gets. pass H4.
  apply wp_modify. set (s4 := s3 <| leases := _ |>). assert (E : core s3 = core s) by congruence. assert (R4 : run (core s) [] (core s4)) by (rewrite <-E; apply purge_run).
  assert (Ht : P.turns (core s4) = P.turns (core s)) by by rewrite <-E. apply wp_gets. eapply wp_mono; [apply claimRows_wp| |].
  - unfold keyed. by rewrite Ht.
  - intros d Hd. unfold oldest in Hd. rewrite stable_sort_perm in Hd. apply list_elem_of_In, filter_In in Hd as [Hd [Hq%bool_decide_eq_true _]%andb_true_iff].
    split; [|done]. apply T_in; [unfold keyed; by rewrite Ht|by apply list_elem_of_In].
  - intros z s5 R5. exact (P.run_app about _ [] _ _ _ R4 R5).
  - intros s5 R5. by eapply run_trans.
Qed.

(** *** Running *)

(** The dispatch for which a capability is good is the one of its id, and its turn. *)
Lemma validated now i d s : validateCapability num_str sha256 now i s = inr d →
  dispatchOf (d_id d) s = Some d ∧ k_dispatch i = JStr (d_id d) ∧
  ∃ k raw, k ∈ P.caps (core s) ∧ k_capability i = JStr raw ∧ P.hash k = digest (JStr raw) ∧ P.k_turn k = d_id d ∧ P.k_fence k = d_fence d ∧
    d_runner d = Some (P.k_runner k) ∧ k_runner i = JStr (P.k_runner k) ∧ P.revoked k = false.
Proof.
  unfold validateCapability. destruct (k_dispatch i) as [| | | |did| | |]; try done. destruct (k_runner i) as [| | | |runner| | |]; try done. destruct (k_capability i) as [| | | |raw| | |]; try done.
  destruct (integer _) as [g|]; [|done]. destruct (g <=? 0); [done|]. destruct (dispatchOf did s) as [e|] eqn:He; [|done].
  destruct (capabilityOf _ _ raw s) as [c|] eqn:Hc; [|done]. destruct (is_Some_b _) eqn:Hr; [done|]. destruct (_ <? _); [done|].
  destruct (_ || _) eqn:Hall; [done|]. intros [= <-]. apply orb_false_iff in Hall as [[[[H1 H2]%orb_false_iff H3]%orb_false_iff H4]%orb_false_iff H5].
  apply negb_false_iff in H1, H2, H3, H4, H5. apply String.eqb_eq in H1, H2. apply Z.eqb_eq in H3, H5. unfold opt_eq in H4. destruct (d_runner e) as [r|] eqn:Hre; [|done]. apply String.eqb_eq in H4 as ->.
  destruct (T_dispatchOf did e s He) as [Hi _]. rewrite Hi. split_and!; [done|done|]. unfold capabilityOf in Hc. apply find_some in Hc as [Hc Hh%String.eqb_eq].
  exists (cap_of c), raw. subst runner g. split_and!; try done. by apply list_elem_of_In, in_map.
Qed.

Lemma wp_checked {A} now i (k : Dispatch → M A) Q (R : DB → Prop) s : R s → (∀ d, dispatchOf (d_id d) s = Some d → P.T (core s) (turn_of d) → wp (k d) Q R s) → wp (checked num_str sha256 now i ≫= k) Q R s.
Proof.
  intros HR Hk. unfold checked. apply wp_bind, wp_gets. destruct (validateCapability _ _ _ _ _) as [code|d] eqn:E; [exact HR|].
  destruct (validated now i d s E) as (H & _). apply Hk; [done|]. by apply (T_dispatchOf (d_id d)).
Qed.

Definition start_labels (p : StartedPayload) : list P.label := [P.Hand (st_dispatch p) (st_session p) (List.map (λ x, x.1.1.1) (st_inbox p))].

Lemma batch_messages i s : List.map (λ y : Batch * Message, m_id y.2) (batchOf i s) ⊆+ P.messages i (core s).
Proof.
  apply sublist_submseteq. unfold batchOf, P.messages. cbn. induction (batches s) as [|x l IH]; [constructor|]. cbn [base.omap list_omap List.map List.filter input_row].
  change ((input_row x).1.1) with (x_dispatch x). destruct (String.eqb (x_dispatch x) i); [|exact IH]. cbn. destruct (messageOf (x_message x) s) as [m|] eqn:E; cbn; [|by constructor].
  apply find_some in E as [_ E%String.eqb_eq]. rewrite E. by constructor.
Qed.

Lemma take_refines now i context s : refines (takePayload num_str sha256 toISOString eventRetention now i context) start_labels s.
Proof.
  unfold takePayload. apply guarded_refines. apply wp_checked; [constructor|]. intros d Hd Ht. pass Hl. apply negb_false_iff, bool_decide_eq_true in Hl.
  apply wp_gets. apply wp_found; [constructor|]. intros x Hx. apply (P.find_id s_id) in Hx.
  apply (wp_set_dispatch _ _ (λ u, u <| P.st := Started |>)); [done|]. intros s1 E1. apply (wp_calm core); [destruct (truthy_opt _); eauto with quiet|destruct (truthy_opt _); eauto with firm|].
  intros _ s2 E2. apply wp_gets. apply (wp_calm core); [eauto with quiet|eauto with firm|]. intros c s3 E3. apply (wp_calm core); [eauto with quiet|eauto with firm|]. intros _ s4 E4. apply wp_ret.
  rewrite E4, E3, E2, E1. apply P.run_one. unfold start_labels. cbn [st_dispatch st_session st_inbox]. rewrite Hx. apply (P.start about (core s) (turn_of d)); [done..|].
  rewrite !map_map. replace (P.messages _ (core s)) with (P.messages (d_id d) (core s2)) by (unfold P.messages; by rewrite E2, E1).
  etrans; [|apply batch_messages]. rewrite (stable_sort_perm by_assignment (batchOf (d_id d) s2)). reflexivity.
Qed.

Lemma quiet_set_dispatch i f : (∀ d, turn_of (f d) = turn_of d) → Quiet (set_dispatch i f).
Proof.
  intros H s. unfold set_dispatch, modify, core. cbn. f_equal. unfold update_where. rewrite map_map. apply map_ext. intros d. by destruct (is_id i d).
Qed.
#[local] Hint Extern 3 (Quiet (set_dispatch _ _)) => (apply quiet_set_dispatch; intros []; reflexivity) : quiet.

Lemma quiet_checked now i : Quiet (checked num_str sha256 now i).
Proof. unfold checked. apply stable_bind; [done|]. intros []; done. Qed.
#[local] Hint Resolve quiet_checked : quiet.

Lemma ack_quiet now i at_ : Quiet (acknowledgeRunnerEffect num_str sha256 eventRetention now i at_).
Proof. unfold acknowledgeRunnerEffect. eauto 12 with quiet. Qed.

Lemma activity_quiet now i e : Quiet (recordRunnerActivity num_str sha256 eventRetention now i e).
Proof. unfold recordRunnerActivity. eauto 12 with quiet. Qed.

Lemma quiet_fence now i y : Quiet (fenceOutput eventRetention now i y).
Proof. unfold fenceOutput. destruct (k_dispatch i), (output_of y); eauto 12 with quiet. Qed.
#[local] Hint Resolve quiet_fence : quiet.

Lemma read_quiet now i a o : Quiet (readApprovalDecision num_str sha256 now i a o).
Proof. unfold readApprovalDecision. eauto 12 with quiet. Qed.

Lemma register_refines id label path resolve branch s : refines (registerWorkspace id label path resolve branch) (λ _, []) s.
Proof.
  unfold registerWorkspace. apply transaction_refines. quietly r s1 H1. quietly l s2 H2. quietly g s3 H3. assert (E : core s3 = core s) by congruence. apply wp_gets.
  destruct (resourceOf r s3) as [w|] eqn:Hw.
  - destruct (negb _); [done|]. destruct (match truthy_opt (w_path w) with Some _ => _ | None => _ end); [done|]. destruct (match truthy_opt (w_branch w) with Some _ => _ | None => _ end); [done|].
    apply run_eq. rewrite <-E. unfold core. cbn. f_equal. unfold update_where. rewrite map_map. apply map_ext. intros x. by destruct (String.eqb _ _).
  - unfold wp, modify. rewrite <-E. set (w := MkResource _ _ _ _ _ _ _ _ _ _).
    assert (Hc : core (s3 <| resources := resources s3 ++ [w] |>) = (core s3) <| P.places := P.places (core s3) ++ [place_of w] |>) by (unfold core; cbn; by rewrite map_app).
    rewrite Hc. apply P.run_one, P.place_new; [|done]. change (P.name (place_of w)) with r. by rewrite placeOf_core, Hw.
Qed.

(** *** Approvals *)

Lemma park_refines now i p s : refines (parkForApproval num_str sha256 eventRetention now i p) (λ _, []) s.
Proof.
  unfold parkForApproval. apply guarded_refines. apply wp_checked; [constructor|]. intros d Hd Ht. quietly approval s1 H1. quietly operation s2 H2. assert (E : core s2 = core s) by congruence.
  set (a := MkWait _ _ _ _ _ _ _ _ _ _ _). apply wp_gets. destruct (waitOf approval s2) as [b|] eqn:Hb; [pass H3; by apply run_eq|].
  pass Hst. apply negb_false_iff, bool_decide_eq_true in Hst. apply wp_gets. pass H4. apply wp_gets. pass H5. apply wp_insert. intros Hc. set (s3 := s2 <| waits := _ |>).
  assert (E3 : core s3 = (core s) <| P.waits := P.waits (core s) ++ [wait_of a] |>) by (rewrite <-E; subst s3; unfold core; cbn; by rewrite map_app).
  apply (wp_set_dispatch _ _ (λ u, u <| P.st := Parked |>)); [done|]. intros s4 E4. apply (wp_calm core); [eauto with quiet|eauto with firm|]. intros _ s5 E5. apply (wp_calm core); [eauto with quiet|eauto with firm|].
  intros _ s6 E6. apply wp_ret. rewrite E6, E5, E4, E3. apply P.run_one. apply (P.park about (core s) (turn_of d) approval operation); [done..| |]; rewrite <-E.
  - intros Hin. apply list_elem_of_fmap in Hin as (x & Ex & Hin). unfold waitOf in Hb. apply list_elem_of_In, in_map_iff in Hin as (b & <- & Hin).
    apply (find_none _ _ Hb) in Hin. cbn in Ex. by rewrite <-Ex, String.eqb_refl in Hin.
  - intros x Hin Hx. apply list_elem_of_In, in_map_iff in Hin as (b & <- & Hin). cbn in Hx |- *. apply not_true_iff_false. intros Ho. apply not_true_iff_false in Hc. apply Hc, existsb_exists.
    exists b. split; [done|]. unfold wait_clash. cbn [a a_dispatch a_id]. rewrite Hx, String.eqb_refl, Ho. cbn. by rewrite orb_true_r.
Qed.

Lemma core_set_wait i f g s : (∀ a, wait_of (f a) = g (wait_of a)) → core (s <| waits := update_where (λ a, String.eqb (a_id a) i) f (waits s) |>) = P.set_wait i g (core s).
Proof. intros H. unfold core, P.set_wait. cbn. f_equal. by apply map_update. Qed.

Lemma verdict_wp {A} now v a (k : unit → M A) Q R s : waitOf (v_approval v) s = Some a → a_decision a = None → v_dispatch v = a_dispatch a →
  v_digest v = about (v_approval v) (a_dispatch a) (a_operation a) (v_allow v) → (∀ s', run (core s) [] (core s') → wp (k tt) Q R s') → wp (apply_verdict now v ≫= k) Q R s.
Proof.
  intros Ha Hn Hd Hg Hk. unfold apply_verdict. apply wp_bind, wp_insert. intros _. set (s1 := s <| verdicts := _ |>). unfold wp at 1, modify. apply Hk.
  rewrite (core_set_wait _ _ (λ y, y <| P.decision := Some (v_allow v) |>)) by done.
  assert (E1 : core s1 = (core s) <| P.verdicts := P.verdicts (core s) ++ [verdict_of v] |>) by (subst s1; unfold core; cbn; by rewrite map_app).
  rewrite E1. apply P.run_one, (P.judge about (core s) (verdict_of v) (wait_of a)); [|done..]. change (P.waitOf (v_approval v) (core s) = Some (wait_of a)). by rewrite waitOf_core, Ha.
Qed.

Lemma record_refines now event approval dispatch operation allow s : refines (recordApprovalDecision num_str sha256 eventRetention now event approval dispatch operation allow) (λ _, []) s.
Proof.
  unfold recordApprovalDecision. apply guarded_refines. quietly e s1 E. apply wp_gets. destruct (verdictOf e s1) as [v|]; [pass H1; by apply run_eq|].
  apply wp_gets. apply wp_found; [still|]. intros a Ha. apply wp_if; [still|]. intros [Hd Ho]%orb_false_iff. apply negb_false_iff, String.eqb_eq in Hd, Ho.
  destruct (a_decision a) as [b|] eqn:Hn; [pass H1; by apply run_eq|]. pass H1. apply wp_gets. pass H2. rewrite <-E.
  apply (verdict_wp now (MkVerdict e approval dispatch allow _ now) a); [done|done|done|by rewrite Hd, Ho|]. intros s2 R2.
  apply (wp_calm core); [eauto with quiet|eauto with firm|]. intros _ s3 E3. apply wp_ret. by rewrite E3.
Qed.

Lemma reconcile_refines now approval event allow s : refines (reconcileApprovalDecision num_str sha256 eventRetention now approval event allow) (λ _, []) s.
Proof.
  unfold reconcileApprovalDecision. apply guarded_refines. quietly p s1 H1. quietly e s2 H2. assert (E : core s2 = core s) by congruence. apply wp_gets. apply wp_found; [still|]. intros a Ha.
  apply wp_gets, wp_gets. apply wp_found; [still|]. intros d Hd. destruct (verdictOf e s2) as [v|]; [pass H3; by apply run_eq|].
  destruct (a_decision a) as [b|] eqn:Hn; [pass H3; by apply run_eq|]. rewrite <-E.
  apply (verdict_wp now (MkVerdict e p (a_dispatch a) allow _ now) a); [done..|]. intros s3 R3.
  apply (wp_calm core); [eauto with quiet|eauto with firm|]. intros _ s4 E4. apply wp_ret. by rewrite E4.
Qed.

Definition resume_labels (i : CapabilityInput) (approval operation : string) (allow : bool) : list P.label :=
  match k_dispatch i with JStr d => [P.Resume approval d operation allow] | _ => [] end.

Lemma resume_refines now i approval operation s : refines (resumeAfterApproval num_str sha256 eventRetention now i approval operation) (resume_labels i approval operation) s.
Proof.
  unfold resumeAfterApproval. apply transaction_refines. apply wp_bind, wp_gets. destruct (validateCapability _ _ _ _ _) as [code|d] eqn:Hv; [constructor|].
  destruct (validated now i d s Hv) as (Hd & Hi & _). assert (Ht : P.T (core s) (turn_of d)) by by apply (T_dispatchOf (d_id d)). apply wp_ret.
  apply wp_if; [constructor|]. intros Hp%negb_false_iff%bool_decide_eq_true. apply wp_gets. apply wp_found; [constructor|]. intros a Ha.
  apply wp_if; [constructor|]. intros [[Had Hao]%orb_false_iff Hop]%orb_false_iff. apply negb_false_iff in Had, Hao, Hop. apply String.eqb_eq in Had, Hao. apply wp_found; [constructor|]. intros allow Hallow.
  apply wp_modify. set (s1 := s <| waits := _ |>). assert (E1 : core s1 = P.set_wait approval (λ y, y <| P.open := false |>) (core s)) by by apply core_set_wait.
  apply (wp_set_dispatch _ _ (λ u, u <| P.st := Started |>)); [done|]. intros s2 E2. apply (wp_calm core); [eauto with quiet|eauto with firm|]. intros _ s3 E3. apply (wp_calm core); [eauto with quiet|eauto with firm|].
  intros _ s4 E4. apply wp_ret. rewrite E4, E3, E2, E1. unfold resume_labels. rewrite Hi. apply P.run_one.
  pose proof (P.find_id a_id _ _ _ Ha) as Hai. subst approval operation.
  apply (P.resume about (core s) (turn_of d) (wait_of a) allow); [done|done| |done..]. change (P.waitOf (a_id a) (core s) = Some (wait_of a)). by rewrite waitOf_core, Ha.
Qed.

(** *** Settling *)

Lemma quiet_handled now d keep : Quiet (handled now d keep).
Proof. done. Qed.
Lemma quiet_block now d : Quiet (block toISOString now d).
Proof. unfold block. eauto with quiet. Qed.
Lemma quiet_uncertain now d : Quiet (uncertain num_str sha256 eventRetention now d).
Proof. unfold uncertain. eauto with quiet. Qed.
Lemma quiet_queueReply now uuid d text : Quiet (queueReply num_str sha256 now uuid d text).
Proof. unfold queueReply. eauto 15 with quiet. Qed.
#[local] Hint Resolve quiet_handled quiet_block quiet_uncertain quiet_queueReply : quiet.

Lemma firm_handled now d keep : Firm (handled now d keep).
Proof. done. Qed.
Lemma firm_block now d : Firm (block toISOString now d).
Proof. unfold block. eauto with firm. Qed.
Lemma firm_uncertain now d : Firm (uncertain num_str sha256 eventRetention now d).
Proof. unfold uncertain. eauto with firm. Qed.
Lemma firm_queueReply now uuid d text : Firm (queueReply num_str sha256 now uuid d text).
Proof. unfold queueReply. eauto 15 with firm. Qed.
#[local] Hint Resolve firm_handled firm_block firm_uncertain firm_queueReply : firm.

(** The workspace of a dispatch that ended, when [b] says that it is quarantined. *)
Definition closes (d : Dispatch) (b : bool) (c : P.Core) : P.Core := match truthy_opt (d_workspace d) with Some w => if b then P.quarantine w (d_id d) c else c | None => c end.

Lemma wp_closes {A} d (b : bool) reason (k : unit → M A) Q R s : (∀ s', core s' = closes d b (core s) → wp (k tt) Q R s') →
  wp (match truthy_opt (d_workspace d) with Some w => when b (quarantine w reason (d_id d)) | None => mret tt end ≫= k) Q R s.
Proof.
  intros Hk. unfold closes in Hk. destruct (truthy_opt _) as [w|]; [|by apply Hk]. destruct b; [|by apply Hk]. apply wp_modify, Hk. unfold core, P.quarantine. cbn. f_equal. by apply map_update.
Qed.

Lemma settle_run d known says s s' : P.T (core s) (turn_of d) → (d_state d = Started ∨ d_state d = Parked ∧ known = false) →
  core s' = closes d (negb known && (says || d_may_write d)) (P.release (d_id d) (P.set_turn (d_id d) (λ u, u <| P.st := if known then Completed else OutcomeUnknown |>) (core s))) →
  run (core s) [] (core s').
Proof.
  intros Ht Hst ->. apply P.run_one. pose proof (P.settle about (core s) (turn_of d) known says Ht Hst) as Hs. unfold P.marked, closes in *. cbn [P.workspace P.id P.write turn_of] in *.
  unfold truthy_opt. destruct (d_workspace d) as [w|]; [|exact Hs]. destruct (truthy w); [|exact Hs]. by destruct (negb known && _).
Qed.

Lemma settled_wp now uuid d y s R : P.T (core s) (turn_of d) → d_state d = Started → wp (settled num_str sha256 toISOString eventRetention now uuid d y) (λ _ s', run (core s) [] (core s')) R s.
Proof.
  intros Ht Hst. unfold settled. apply (wp_calm core); [eauto with quiet|eauto with firm|]. intros _ s1 E1. rewrite <-E1 in *.
  apply (wp_set_dispatch _ _ (λ u, u <| P.st := if y_completed y then Completed else OutcomeUnknown |>)); [done|]. intros s2 E2. apply wp_release. intros s3 E3.
  apply wp_closes. intros s4 E4. apply (wp_calm core); [destruct (y_completed y); eauto 10 with quiet|destruct (y_completed y); eauto 10 with firm|]. intros _ s5 E5.
  apply (wp_last core); [eauto with quiet|eauto with firm|]. intros _ s6 E6.
  apply (settle_run d (y_completed y) (y_workspaceDirty y) s1); [done|by left|congruence].
Qed.

Lemma settle_refines now uuid i y s : refines (settleAndRelease num_str sha256 toISOString eventRetention now uuid i y) (λ _, []) s.
Proof.
  unfold settleAndRelease. apply guarded_refines, wp_gets. destruct (validateCapability _ _ _ _ _) as [code|d] eqn:Hv.
  - apply (wp_stable core); [eauto with quiet|intros; still|]. intros _ s1 E1. by apply run_eq.
  - destruct (validated now i d s Hv) as (Hd & _). assert (Ht : P.T (core s) (turn_of d)) by by apply (T_dispatchOf (d_id d)).
    pass Hst. apply negb_false_iff, bool_decide_eq_true in Hst. apply wp_bind. eapply wp_mono; [by apply (settled_wp now uuid d y s (λ s', run (core s) [] (core s')))| |done].
    intros u s1 H. by apply wp_ret.
Qed.

Lemma unknown_wp now d reason s R : P.T (core s) (turn_of d) → (d_state d = Started ∨ d_state d = Parked) →
  wp (settleUnknownInternal num_str sha256 toISOString eventRetention now d reason) (λ _ s', core s' = closes d (d_may_write d) (P.release (d_id d) (P.set_turn (d_id d) (λ u, u <| P.st := OutcomeUnknown |>) (core s)))) R s.
Proof.
  intros Ht Hst. unfold settleUnknownInternal. apply (wp_calm core); [eauto with quiet|eauto with firm|]. intros _ s1 E1.
  apply (wp_set_dispatch _ _ (λ u, u <| P.st := OutcomeUnknown |>)); [done|]. intros s2 E2. apply wp_release. intros s3 E3. apply (wp_calm core); [eauto with quiet|eauto with firm|]. intros _ s4 E4.
  apply wp_closes. intros s5 E5. apply (wp_last core); [eauto 10 with quiet|eauto 10 with firm|]. intros _ s6 E6. congruence.
Qed.

Lemma mark_refines now id reason s : keyed (core s) → refines (markOutcomeUnknown num_str sha256 toISOString eventRetention now id reason) (λ _, []) s.
Proof.
  intros Hk. unfold markOutcomeUnknown. apply guarded_refines. quietly i s1 H1. quietly r s2 H2. assert (E : core s2 = core s) by congruence. apply wp_gets. apply wp_found; [still|]. intros d Hd. pass Hst.
  rewrite <-E. destruct (T_dispatchOf i d s2 Hd) as [_ Ht]. apply negb_false_iff, orb_true_iff in Hst.
  assert (Hst' : d_state d = Started ∨ d_state d = Parked) by by destruct Hst as [?%bool_decide_eq_true|?%bool_decide_eq_true]; [left|right].
  eapply wp_mono; [by apply (unknown_wp now d r s2 (λ s', run (core s2) [] (core s')))| |done].
  intros u s3 E3. apply (settle_run d false false s2); [done|destruct Hst'; [by left|by right]|done].
Qed.

Lemma cancel_refines now id reason s : refines (cancelBeforeStart num_str sha256 eventRetention now id reason) (λ _, []) s.
Proof.
  unfold cancelBeforeStart. apply guarded_refines. quietly i s1 E. apply wp_gets. apply wp_found; [still|]. intros d Hd. pass Hst. apply negb_false_iff, orb_true_iff in Hst.
  destruct (T_dispatchOf i d s1 Hd) as [<- Ht]. apply (wp_set_dispatch _ _ (λ u, u <| P.st := CancelledBeforeStart |>)); [done|]. intros s2 E2. apply wp_release. intros s3 E3.
  apply (wp_calm core); [apply stable_when, quiet_notice|apply firm_when, firm_notice|]. intros _ s4 E4. apply wp_modify. set (s5 := s4 <| batches := _ |>). apply (wp_last core); [eauto with quiet|eauto with firm|]. intros _ s6 E6.
  assert (E5 : core s5 = (core s4) <| P.inputs := delete_where (λ x, String.eqb x.1.1 (d_id d)) (P.inputs (core s4)) |>) by (subst s5; unfold core; cbn; f_equal; by apply map_delete).
  rewrite E6, E5, E4, E3, E2, <-E. apply P.run_one, (P.cancel about (core s1) (turn_of d)); [done|]. by destruct Hst as [?%bool_decide_eq_true|?%bool_decide_eq_true]; [left|right].
Qed.

Lemma requeue_refines now i delay reason s : refines (requeueBeforeStart num_str sha256 eventRetention now i delay reason) (λ _, []) s.
Proof.
  unfold requeueBeforeStart. apply guarded_refines. apply wp_checked; [constructor|]. intros d Hd Ht. pass Hst. apply negb_false_iff, bool_decide_eq_true in Hst. quietly z s1 E.
  apply (wp_set_dispatch _ _ (λ u, u <| P.st := Queued |> <| P.runner := None |>)); [done|]. intros s2 E2. apply wp_release. intros s3 E3. apply (wp_calm core); [apply quiet_notice|apply firm_notice|]. intros _ s4 E4.
  apply (wp_last core); [eauto with quiet|eauto with firm|]. intros u s5 E5. rewrite E5, E4, E3, E2, E. by apply P.run_one, (P.requeue about (core s) (turn_of d)).
Qed.

(** *** Resolving *)

Lemma find_update_where {A} (i : A → string) (p : A → bool) (f : A → A) l j : (∀ x, i (f x) = i x) →
  List.find (λ x, String.eqb (i x) j) (update_where p f l) = (λ x, if p x then f x else x) <$> List.find (λ x, String.eqb (i x) j) l.
Proof.
  intros Hf. unfold update_where. induction l as [|x l IH]; [done|]. cbn. assert (E : i (if p x then f x else x) = i x) by by destruct (p x). rewrite E. by destruct (String.eqb (i x) j).
Qed.

(** A statement that cleans a place: no other place changes. *)
Lemma core_clean p i now s w : resourceOf i s = Some w → p w = true → (∀ r, p r = true → w_id r = i) →
  ∃ l, core (s <| resources := update_where p (λ r, r <| w_dirty := false |> <| w_reason := None |> <| w_by := None |> <| w_inspected := Some now |>) (resources s) |>) = (core s) <| P.places := l |> ∧
    P.cleaned i (P.places (core s)) l.
Proof.
  intros Hw Hp Hi. set (f := λ r : Resource, _). eexists. split; [reflexivity|]. set (s' := s <| resources := update_where p f (resources s) |>).
  change (P.cleaned i (P.places (core s)) (P.places (core s'))).
  assert (Hfind : ∀ n, resourceOf n s' = (λ r, if p r then f r else r) <$> resourceOf n s) by (intros n; by apply find_update_where).
  split.
  - exists (place_of (f w)). by rewrite placeOf_core, Hfind, Hw; cbn; rewrite Hp.
  - intros n Hn. rewrite !placeOf_core, Hfind. destruct (resourceOf n s) as [r|] eqn:Hr; [|done]. cbn. apply (P.find_id w_id) in Hr.
    destruct (p r) eqn:Hpr; [|done]. by rewrite (Hi r Hpr) in Hr.
Qed.

Lemma quiet_inspected now d q t : Quiet (inspected num_str sha256 now d q t).
Proof. unfold inspected. eauto 20 with quiet. Qed.
#[local] Hint Resolve quiet_inspected : quiet.

Lemma inspect_quiet now uuid raw id ttl : Quiet (beginOutcomeInspection num_str sha256 eventRetention now uuid raw id ttl).
Proof. unfold beginOutcomeInspection. apply stable_guarded. eauto 25 with quiet. Qed.

Lemma continued_wp now uuid d x request instruction k s R : truthy uuid = true → keyed (core s) → s_id x = d_session d →
  (∀ w, P.own (turn_of d) = Some w → is_Some (P.placeOf w (P.places (core s)))) →
  wp (continued num_str sha256 toISOString now uuid d x request instruction) (λ _ s', run (shift k (core s)) [] (shift k (core s'))) R s.
Proof.
  intros Hu Hk Hx Hw. unfold continued. apply (wp_calm core); [eauto with quiet|eauto with firm|]. intros _ s1 E1. apply (wp_calm core); [eauto with quiet|eauto with firm|]. intros _ s2 E2.
  apply (wp_calm core); [destruct (truthy_opt _); eauto with quiet|destruct (truthy_opt _); eauto with firm|]. intros _ s3 E3. apply wp_gets. set (queued := head _).
  apply (wp_calm core); [destruct queued; eauto with quiet|destruct queued; eauto with firm|]. intros _ s4 E4. assert (E : core s4 = core s) by congruence. rewrite <-E in Hk, Hw |- *.
  set (replacement := match queued with Some e => d_id e | None => uuid end). set (payload := JObj _).
  apply wp_bind. apply (wp_mono _ (λ _ s', run (shift k (core s4)) [] (shift k (core s')) ∧ ∃ e, P.T (core s') (turn_of e) ∧ d_state e = Queued ∧ d_id e = replacement ∧ d_session e = s_id x) _ R); [| |done].
  - destruct queued as [e|] eqn:Hq; subst queued.
    + apply head_oldest in Hq as [He [Hs%String.eqb_eq Hst%bool_decide_eq_true]%andb_true_iff]. unfold wp, modify. set (s5 := s4 <| dispatches := _ |>).
      assert (E5 : core s5 = core s4) by (unfold core; cbn; f_equal; unfold update_where; rewrite map_map; apply map_ext; intros a; by destruct (is_id _ _ && _)).
      rewrite E5. split; [constructor|]. exists e. split_and!; [|done..]. rewrite E4. apply T_in; [by rewrite <-E4|done].
    + eapply wp_mono; [apply (insert_dispatch_run k (new_dispatch uuid (d_session d) (d_task d) (d_framework d) payload (d_may_write d) (d_mode d) (d_workspace d) (d_named d) now) s4 R Hu eq_refl Hw)| |done].
      intros _ s5 [R5 Ht]. split; [done|]. eexists. by split_and!; [exact Ht|..].
  - intros _ s5 (R5 & e & Ht & Hst & <- & <-). apply wp_gets, wp_bind. eapply wp_mono; [apply (assigns_run now k (turn_of e) _ s5 R Ht Hst)| |done]. intros _ s6 [R6 _].
    apply (wp_last core); [destruct (truthy_opt _); eauto with quiet|destruct (truthy_opt _); eauto with firm|]. intros u s7 ->. by eapply run_trans.
Qed.

(** The workspace that an inspection lets go is the one the dispatch wrote in, and its quarantine is that of the
    dispatch. *)
Definition inspected_place (d : Dispatch) (s : DB) (w : option Resource) : Prop :=
  match w with
  | Some w => P.own (turn_of d) = Some (w_id w) ∧ resourceOf (w_id w) s = Some w ∧ w_by w = Some (d_id d)
  | None => P.own (turn_of d) = None
  end.

Lemma inspected_wp now d q t s : wp (inspected num_str sha256 now d q t) (λ w s', s' = s ∧ inspected_place d s w) (λ s', s' = s) s.
Proof.
  unfold inspected. apply wp_gets. apply wp_found; [done|]. intros x Hx. do 3 (apply wp_if; [done|]; intros _). destruct (d_may_write d) eqn:Hw.
  - apply wp_if; [done|]. intros [H1 _]%orb_false_iff. apply wp_gets. apply wp_found; [done|]. intros w Hq. apply wp_if; [done|]. intros _. split; [done|]. unfold quarantined in Hq.
    unfold inspected_place, P.own. cbn. rewrite Hw. unfold truthy_opt in H1. destruct (d_workspace d) as [r|]; [|done]. destruct (truthy r); [|done].
    destruct (resourceOf r s) as [v|] eqn:Hv; [|done]. destruct (_ && _) eqn:Hb; [|done]. injection Hq as ->. pose proof (P.find_id w_id _ _ _ Hv) as ->.
    split_and!; [done|done|]. apply andb_true_iff in Hb as [_ Hb]. unfold opt_eq in Hb. destruct (w_by w); [|done]. by apply String.eqb_eq in Hb as ->.
  - apply wp_if; [done|]. intros _. split; [done|]. unfold inspected_place, P.own. cbn. rewrite Hw. by destruct (d_workspace d).
Qed.

Lemma acted_wp now uuid d x a request instruction k s R : truthy uuid = true → keyed (core s) → s_id x = d_session d →
  (∀ w, P.own (turn_of d) = Some w → is_Some (P.placeOf w (P.places (core s)))) →
  wp (acted num_str sha256 toISOString now uuid d x a request instruction) (λ _ s', run (shift k (core s)) [] (shift k (core s'))) R s.
Proof.
  intros. unfold acted. destruct a; [|destruct (truthy_opt _); constructor..].
  apply wp_bind. eapply wp_mono; [by apply (continued_wp now uuid d x request instruction k s R)| |done]. intros u s1 Hrun. by apply wp_ret.
Qed.

(** The step that closes an outcome, after which its workspace is clean. *)
Lemma release_run now d w s s' : P.T (core s) (turn_of d) → d_state d = OutcomeUnknown → resolutionOf (d_id d) s = None → inspected_place d s w →
  s' = match w with
       | Some w => s <| resources := update_where (λ r, String.eqb (w_id r) (w_id w) && (w_generation r =? w_generation w) && opt_eq (w_by r) (d_id d))
           (λ r, r <| w_dirty := false |> <| w_reason := None |> <| w_by := None |> <| w_inspected := Some now |>) (resources s) |>
       | None => s end →
  run (core s) [] (shift [d_id d] (core s')) ∧ P.turns (core s') = P.turns (core s) ∧ ∀ w, P.own (turn_of d) = Some w → is_Some (P.placeOf w (P.places (core s'))).
Proof.
  intros Ht Hst Hnone Hw ->. assert (Hcl : d_id d ∉ P.closed (core s)).
  { intros Hin. apply list_elem_of_In, in_map_iff in Hin as (o & Ho & Hin). apply (find_none _ _ Hnone) in Hin. by rewrite Ho, String.eqb_refl in Hin. }
  pose proof (λ l, P.resolve about (core s) (turn_of d) l Ht Hst Hcl) as Hres. destruct w as [w|]; cbn in Hw.
  - destruct Hw as (Ho & Hrow & Hby). rewrite Ho in Hres.
    destruct (core_clean (λ r, String.eqb (w_id r) (w_id w) && (w_generation r =? w_generation w) && opt_eq (w_by r) (d_id d)) (w_id w) now s w) as (l & El & Hclean);
      [done|by rewrite Hby, String.eqb_refl, Z.eqb_refl; cbn; rewrite String.eqb_refl|by intros r [[?%String.eqb_eq _]%andb_true_iff _]%andb_true_iff|].
    rewrite El. split_and!; [by apply P.run_one, Hres|done|]. rewrite Ho. intros v [= <-]. destruct Hclean as [(p & Hp & _) _]. by exists p.
  - rewrite Hw in *. split_and!; [by apply P.run_one, Hres|done|done].
Qed.

(** The workspace is let go in the statement before the action is taken. *)
Definition let_go (now : Z) (d : Dispatch) (w : option Resource) (s : DB) : DB :=
  match w with
  | Some w => s <| resources := update_where (λ r, String.eqb (w_id r) (w_id w) && (w_generation r =? w_generation w) && opt_eq (w_by r) (d_id d))
      (λ r, r <| w_dirty := false |> <| w_reason := None |> <| w_by := None |> <| w_inspected := Some now |>) (resources s) |>
  | None => s
  end.

Lemma resolve_refines now uuid i s : truthy uuid = true → keyed (core s) → refines (resolveOutcomeUnknown num_str sha256 toISOString eventRetention now uuid i) (λ _, []) s.
Proof.
  intros Hu Hk. unfold resolveOutcomeUnknown. apply guarded_refines. quietly j s1 H1. quietly q s2 H2. quietly token s3 H3. quietly request s4 H4. quietly note s5 H5. quietly a s6 H6.
  pass H7. pass H8. assert (E : core s6 = core s) by congruence. apply wp_gets. destruct (List.find _ _) as [o|]; [pass H9; apply wp_gets; by apply run_eq|].
  apply wp_gets. pass Hnone. apply wp_gets. apply wp_found; [still|]. intros d Hd. pass Hst. pass H9. apply negb_false_iff, bool_decide_eq_true in Hst.
  destruct (T_dispatchOf j d s6 Hd) as [Hj Ht]. subst j. apply wp_bind. eapply wp_mono; [apply inspected_wp| |intros s' ->; by apply run_eq]. intros w s7 [-> Hw]. apply wp_gets. pass H10.
  apply wp_gets, wp_found; [still|]. intros x Hx. apply (P.find_id s_id) in Hx. rewrite <-E. apply wp_bind. apply (wp_mono _ (λ _ s', s' = s6) _ (λ s', s' = s6)); [| |by intros s' ->; constructor].
  { destruct (truthy_opt _); [|done]. apply wp_gets, wp_found; [done|]. intros t _. by apply wp_if. }
  intros _ s' ->. apply wp_bind. apply (wp_mono _ (λ _ s', s' = let_go now d w s6) _ (λ s', run (core s6) [] (core s'))); [by destruct w| |done]. intros _ s8 E8.
  destruct (release_run now d w s6 s8 Ht Hst) as (R8 & T8 & W8); [by destruct (resolutionOf _ s6)|done|done|].
  apply wp_bind. eapply wp_mono; [apply (acted_wp now uuid d x a request _ [d_id d] s8 (λ s', run (core s6) [] (core s')))| |done]; [done|unfold keyed; rewrite T8, E; exact Hk|done|done|].
  intros r s9 R9. apply (wp_calm core); [eauto with quiet|eauto with firm|]. intros _ s10 E10. apply wp_insert. intros _. set (s11 := s10 <| resolutions := _ |>).
  apply (wp_calm core); [apply quiet_notice|apply firm_notice|]. intros _ s12 E12. apply (wp_calm core); [eauto with quiet|eauto with firm|]. intros _ s13 E13. apply wp_ret.
  assert (E11 : core s11 = shift [d_id d] (core s10)) by (subst s11; unfold core, shift; cbn; by rewrite map_app).
  rewrite E13, E12, E11, E10. by eapply run_trans.
Qed.

Lemma clear_refines now id s : refines (clearWorkspaceDirty eventRetention now id) (λ _, []) s.
Proof.
  unfold clearWorkspaceDirty. apply guarded_refines. quietly i s1 E. apply wp_gets, wp_found; [still|]. intros w Hw. pass Hby. apply wp_modify. set (s2 := s1 <| resources := _ |>).
  apply (wp_last core); [eauto with quiet|eauto with firm|]. intros _ s3 E3. rewrite E3, <-E.
  destruct (core_clean (λ w, String.eqb (w_id w) i) i now s1 w Hw) as (l & El & Hclean); [by rewrite (P.find_id w_id _ _ _ Hw), String.eqb_refl|by intros r ?%String.eqb_eq|].
  unfold s2. rewrite El. apply P.run_one, (P.clear about (core s1) i (place_of w)); [by rewrite placeOf_core, Hw| |done].
  intros d Hd. cbn in Hd. unfold truthy_opt in Hby. rewrite Hd in Hby. by destruct (truthy d).
Qed.

(** *** Replies on their way *)

Lemma claimReply_quiet now raw ms : Quiet (claimReplyCommand num_str sha256 now raw ms).
Proof. unfold claimReplyCommand. eauto 15 with quiet. Qed.

Lemma delivered_quiet now id token event : Quiet (recordReplyDelivery num_str sha256 eventRetention now id token event).
Proof. unfold recordReplyDelivery, recordNoticeDelivery, set_notice, set_reply. eauto 25 with quiet. Qed.

Lemma failed_quiet now id token code : Quiet (recordReplyFailure num_str sha256 eventRetention now id token code).
Proof. unfold recordReplyFailure, recordNoticeFailure, set_notice, set_reply. eauto 25 with quiet. Qed.

(** *** After a restart *)

(** A loop over rows that were read before it: each turn of it changes the dispatch of its row. *)
Lemma rows_wp (f : Dispatch → M unit) (ok : Dispatch → Prop) R l s :
  (∀ d s, P.T (core s) (turn_of d) → ok d → wp (f d) (λ _ s', run (core s) [] (core s') ∧ ∀ t, P.id t ≠ d_id d → P.T (core s) t → P.T (core s') t) R s) →
  NoDup (List.map d_id l) → (∀ d, d ∈ l → P.T (core s) (turn_of d) ∧ ok d) → wp (each f l) (λ _ s', run (core s) [] (core s')) R s.
Proof.
  intros Hf Hnd Hl. apply (wp_mono _ (λ _ s', run (core s) [] (core s') ∧ NoDup (List.map d_id []) ∧ ∀ d, d ∈ [] → P.T (core s') (turn_of d) ∧ ok d) _ R); [|by intros _ s' []|done].
  apply (wp_each f (λ l s', run (core s) [] (core s') ∧ NoDup (List.map d_id l) ∧ ∀ d, d ∈ l → P.T (core s') (turn_of d) ∧ ok d)); [by split_and!; [constructor|..]|].
  intros d rest s1 (Hr & Hnd1 & Hl1). cbn in Hnd1. apply NoDup_cons in Hnd1 as [Hd Hnd1]. destruct (Hl1 d) as [Ht Hok]; [by left|].
  eapply wp_mono; [by apply (Hf d s1)| |done]. intros _ s2 [Hr2 Hkeep]. split_and!; [by eapply run_trans|done|].
  intros e He. destruct (Hl1 e) as [Hte Hoke]; [by right|]. split; [|done]. apply Hkeep; [|done]. intros E. cbn in E. destruct Hd. rewrite <-E. apply list_elem_of_In, in_map, list_elem_of_In, He.
Qed.

Lemma T_other i f c c' t : (∀ u, P.id (f u) = P.id u) → P.turns c' = P.turns (P.set_turn i f c) → P.id t ≠ i → P.T c t → P.T c' t.
Proof. intros Hf Hc Hn Ht. apply (P.T_turns _ _ _ Hc), P.T_set; [done|]. by left. Qed.

Lemma requeued_wp now d s R : P.T (core s) (turn_of d) → d_state d = Leased →
  wp (requeued eventRetention now d) (λ _ s', run (core s) [] (core s') ∧ ∀ t, P.id t ≠ d_id d → P.T (core s) t → P.T (core s') t) R s.
Proof.
  intros Ht Hst. unfold requeued. apply (wp_set_dispatch _ _ (λ u, u <| P.st := Queued |> <| P.runner := None |>)); [done|]. intros s1 E1. apply wp_release. intros s2 E2.
  apply (wp_last core); [eauto with quiet|eauto with firm|]. intros _ s3 E3. rewrite E3, E2, E1. split; [by apply P.run_one, (P.requeue about (core s) (turn_of d))|].
  intros t. by apply (T_other (d_id d) (λ u, u <| P.st := Queued |> <| P.runner := None |>)).
Qed.

Lemma closes_turns d b c : P.turns (closes d b c) = P.turns c.
Proof. unfold closes. destruct (truthy_opt _); [|done]. by destruct b. Qed.

Lemma inflight_wp now d reason s R : P.T (core s) (turn_of d) → (d_state d = Started ∨ d_state d = Parked) →
  wp (settleUnknownInternal num_str sha256 toISOString eventRetention now d reason)
    (λ _ s', run (core s) [] (core s') ∧ ∀ t, P.id t ≠ d_id d → P.T (core s) t → P.T (core s') t) R s.
Proof.
  intros Ht Hst. eapply wp_mono; [by apply (unknown_wp now d reason s R)| |done]. intros u s1 E. split; [apply (settle_run d false false s); [done|destruct Hst; [by left|by right]|done]|].
  intros t. rewrite E. apply (T_other (d_id d) (λ u, u <| P.st := OutcomeUnknown |>)); [done|]. by rewrite closes_turns.
Qed.

Lemma filtered_rows p (st : Dispatch → Prop) s : keyed (core s) → (∀ d, p d = true → st d) →
  NoDup (List.map d_id (List.filter p (dispatches s))) ∧ ∀ d, d ∈ List.filter p (dispatches s) → P.T (core s) (turn_of d) ∧ st d.
Proof.
  intros Hk Hp. split; [apply P.NoDup_map_filter; unfold keyed in Hk; cbn in Hk; by rewrite map_map in Hk|]. intros d [Hd Hpd]%list_elem_of_In%filter_In. split; [|by apply Hp]. by apply T_in, list_elem_of_In.
Qed.

Lemma run_places c tr c' : run c tr c' → P.Places c → P.Places c'.
Proof. induction 1 as [|tr c1 ls c2 _ IH Hs]; intros H; [done|]. eapply P.places_step; [exact Hs|by apply IH]. Qed.

Lemma restart_refines now s : P.Places (core s) → refines (reconcileOnStart num_str sha256 toISOString eventRetention now) (λ _, []) s.
Proof.
  intros Hpl. pose proof (P.pl_ids _ Hpl) as Hk. unfold reconcileOnStart. apply transaction_refines, wp_gets.
  destruct (filtered_rows (λ d, bool_decide (d_state d = Leased)) (λ d, d_state d = Leased) s Hk) as [Hnd Hl]; [by intros d ?%bool_decide_eq_true|].
  apply wp_bind. eapply wp_mono; [by apply (rows_wp _ (λ d, d_state d = Leased) (λ s', run (core s) [] (core s')) _ _ (λ d s, requeued_wp now d s _) Hnd Hl)| |done]. intros u1 s1 R1. apply wp_gets.
  destruct (filtered_rows (λ d, bool_decide (d_state d = Started) || is_parked d) (λ d, d_state d = Started ∨ d_state d = Parked) s1) as [Hnd1 Hl1];
    [by apply P.pl_ids, (run_places _ _ _ R1)|by intros d [?%bool_decide_eq_true|?%bool_decide_eq_true]%orb_true_iff; [left|right]|].
  apply wp_bind. eapply wp_mono; [by apply (rows_wp _ (λ d, d_state d = Started ∨ d_state d = Parked) (λ s', run (core s) [] (core s')) _ _ (λ d s, inflight_wp now d _ s _) Hnd1 Hl1)| |done].
  intros u2 s2 R2. apply wp_modify, wp_ret. exact (run_trans _ _ _ R1 R2).
Qed.

(** ** The router as a whole *)

(** The calls of the methods, with the time and the random values that they read. *)
Inductive op : Type :=
| Enqueue (now : Z) (uuid : string) (i : EnqueueInput)
| Register (id label path : jval) (resolve : string → string) (branch : jval)
| Claim (now : Z) (raw : string) (i : ClaimInput)
| Take (now : Z) (i : CapabilityInput) (context : option jval)
| Acknowledge (now : Z) (i : CapabilityInput) (acceptedAt : option Z)
| Active (now : Z) (i : CapabilityInput) (e : ActivityEvent)
| Park (now : Z) (i : CapabilityInput) (p : ParkInput)
| Decide (now : Z) (event : jval) (approval dispatch operation : string) (allow : bool)
| Reconcile (now : Z) (approval event : jval) (allow : bool)
| Resume (now : Z) (i : CapabilityInput) (approval operation : string)
| Settle (now : Z) (uuid : string) (i : CapabilityInput) (y : SettleInput)
| Cancel (now : Z) (id reason : jval)
| Requeue (now : Z) (i : CapabilityInput) (delay : num) (reason : jval)
| MarkUnknown (now : Z) (id reason : jval)
| Inspect (now : Z) (uuid raw : string) (id : jval) (ttl : num)
| Resolve (now : Z) (uuid : string) (i : ResolveInput)
| Clear (now : Z) (id : jval)
| ClaimReply (now : Z) (raw : string) (ms : Z)
| Delivered (now : Z) (id token event : jval)
| FailedReply (now : Z) (id token code : jval)
| Restart (now : Z).

(** What a call makes of the tables, with the labels of its answer. *)
Definition answer {A} (m : M A) (L : A → list P.label) (s : DB) : list P.label * DB :=
  let '(r, s') := m s in (match r with inr a => L a | inl _ => [] end, s').
Definition silent {A} (_ : A) : list P.label := [].

Definition perform (o : op) : DB → list P.label * DB :=
  match o with
  | Enqueue now uuid i => answer (enqueueDispatch eventRetention now uuid i) silent
  | Register id label path resolve branch => answer (registerWorkspace id label path resolve branch) silent
  | Claim now raw i => answer (claimDispatch num_str sha256 toISOString eventRetention now raw i) claim_labels
  | Take now i context => answer (takePayload num_str sha256 toISOString eventRetention now i context) start_labels
  | Acknowledge now i a => answer (acknowledgeRunnerEffect num_str sha256 eventRetention now i a) silent
  | Active now i e => answer (recordRunnerActivity num_str sha256 eventRetention now i e) silent
  | Park now i p => answer (parkForApproval num_str sha256 eventRetention now i p) silent
  | Decide now event a d o b => answer (recordApprovalDecision num_str sha256 eventRetention now event a d o b) silent
  | Reconcile now a event b => answer (reconcileApprovalDecision num_str sha256 eventRetention now a event b) silent
  | Resume now i a o => answer (resumeAfterApproval num_str sha256 eventRetention now i a o) (resume_labels i a o)
  | Settle now uuid i y => answer (settleAndRelease num_str sha256 toISOString eventRetention now uuid i y) silent
  | Cancel now id reason => answer (cancelBeforeStart num_str sha256 eventRetention now id reason) silent
  | Requeue now i delay reason => answer (requeueBeforeStart num_str sha256 eventRetention now i delay reason) silent
  | MarkUnknown now id reason => answer (markOutcomeUnknown num_str sha256 toISOString eventRetention now id reason) silent
  | Inspect now uuid raw id ttl => answer (beginOutcomeInspection num_str sha256 eventRetention now uuid raw id ttl) silent
  | Resolve now uuid i => answer (resolveOutcomeUnknown num_str sha256 toISOString eventRetention now uuid i) silent
  | Clear now id => answer (clearWorkspaceDirty eventRetention now id) silent
  | ClaimReply now raw ms => answer (claimReplyCommand num_str sha256 now raw ms) silent
  | Delivered now id token event => answer (recordReplyDelivery num_str sha256 eventRetention now id token event) silent
  | FailedReply now id token code => answer (recordReplyFailure num_str sha256 eventRetention now id token code) silent
  | Restart now => answer (reconcileOnStart num_str sha256 toISOString eventRetention now) silent
  end.

(** A random id is not empty. *)
Definition sound (o : op) : bool := match o with Enqueue _ uuid _ | Resolve _ uuid _ => truthy uuid | _ => true end.

(** The tables after some calls, in any order; what is done to the other tables meanwhile, when messages and
    tasks come in, is left open. *)
Inductive reaches : list P.label → DB → Prop :=
| reaches_empty : reaches [] empty
| reaches_call tr s o : reaches tr s → sound o = true → reaches (tr ++ (perform o s).1) (perform o s).2
| reaches_others tr s s' : reaches tr s → core s' = core s → reaches tr s'.

Lemma answer_refines {A} (m : M A) L s : refines m L s → run (core s) (answer m L s).1 (core (answer m L s).2).
Proof. unfold refines, answer. by destruct (m s) as [[]]. Qed.

Lemma perform_run o s : P.Places (core s) → sound o = true → run (core s) (perform o s).1 (core (perform o s).2).
Proof.
  intros Hpl Ho. pose proof (P.pl_ids _ Hpl) as Hk. destruct o; cbn [perform]; apply answer_refines.
  - by apply enqueue_refines.
  - by apply register_refines.
  - by apply claim_refines.
  - by apply take_refines.
  - apply quiet_refines, ack_quiet.
  - apply quiet_refines, activity_quiet.
  - by apply park_refines.
  - by apply record_refines.
  - by apply reconcile_refines.
  - by apply resume_refines.
  - by apply settle_refines.
  - by apply cancel_refines.
  - by apply requeue_refines.
  - by apply mark_refines.
  - apply quiet_refines, inspect_quiet.
  - by apply resolve_refines.
  - by apply clear_refines.
  - apply quiet_refines, claimReply_quiet.
  - apply quiet_refines, delivered_quiet.
  - apply quiet_refines, failed_quiet.
  - by apply restart_refines.
Qed.

Lemma reaches_run tr s : reaches tr s → run P.empty tr (core s) ∧ P.Inv about tr (core s).
Proof.
  induction 1 as [|tr s o _ [IH Hinv] Ho|tr s s' _ IH E]; [split; [constructor|apply P.inv_empty]| |by rewrite E].
  pose proof (perform_run o s (P.inv_places _ _ _ Hinv) Ho) as Hr. split; [by eapply P.run_app|by eapply P.protocol_inv].
Qed.

Lemma reaches_inv tr s : reaches tr s → P.Inv about tr (core s).
Proof. apply reaches_run. Qed.

Lemma row_eq tr s d e : reaches tr s → d ∈ dispatches s → e ∈ dispatches s → d_id d = d_id e → d = e.
Proof.
  intros H Hd He E. apply (P.NoDup_map_inj d_id (dispatches s)); try done. pose proof (P.pl_ids _ (P.inv_places _ _ _ (reaches_inv _ _ H))) as Hnd. cbn in Hnd. by rewrite map_map in Hnd.
Qed.

Lemma row_T tr s d : reaches tr s → d ∈ dispatches s → P.T (core s) (turn_of d).
Proof. intros H. apply T_in, (P.pl_ids _ (P.inv_places _ _ _ (reaches_inv _ _ H))). Qed.

(** ** Theorems *)

(** C1. The tables of the router, read as turns, inputs, capabilities, places, leases, waits and verdicts, are
    those of a run of [DispatchProtocol], whatever calls are made in whatever order, restarts included; and what
    the answers say (who claimed, what was handed over, what was resumed with which decision) are its labels. *)
Theorem router_refines_protocol tr s : reaches tr s → P.run about P.empty tr (core s).
Proof. apply reaches_run. Qed.

(** C2. At any time two dispatches that runners hold (leased, started or parked) are in different sessions and
    need no resource in common, be it a workspace that is written or a named resource. *)
Theorem live_dispatches_are_exclusive tr s d e : reaches tr s → d ∈ dispatches s → e ∈ dispatches s → live d = true → live e = true →
  (d_session d = d_session e ∨ ∃ n, n ∈ needed d ∧ n ∈ needed e) → d = e.
Proof.
  intros H Hd He Ld Le Hor. pose proof (P.inv_places _ _ _ (reaches_inv _ _ H)) as Hpl. apply (row_eq _ _ _ _ H Hd He).
  pose proof (row_T _ _ _ H Hd) as Td. pose proof (row_T _ _ _ H He) as Te. destruct Hor as [Hs|(n & Hnd & Hne)]; [by apply (P.pl_one _ Hpl _ _ Td Te)|].
  rewrite <-needs_core in Hnd, Hne. by apply (P.places_apart (core s) (turn_of d) (turn_of e) n).
Qed.

(** C3. A dispatch whose outcome is unknown and was not resolved keeps every runner out of its session; when it
    could write, its workspace is dirty and no runner holds a dispatch that needs it. *)
Theorem unknown_outcome_quarantines tr s d : reaches tr s → d ∈ dispatches s → unresolved s d = true →
  (∀ e, e ∈ dispatches s → live e = true → d_session e ≠ d_session d) ∧
  (∀ w, d_may_write d = true → d_workspace d = Some w → truthy w = true →
    (∃ r, resourceOf w s = Some r ∧ w_dirty r = true) ∧ ∀ e, e ∈ dispatches s → live e = true → w ∉ needed e).
Proof.
  intros H Hd [Hu Hr]%andb_true_iff. pose proof (P.inv_places _ _ _ (reaches_inv _ _ H)) as Hpl. pose proof (row_T _ _ _ H Hd) as Td.
  assert (Hun : P.unresolved (core s) (turn_of d)).
  { split; [by apply bool_decide_eq_true in Hu|]. intros Hin. apply list_elem_of_In, in_map_iff in Hin as (o & Ho & Hin). apply negb_true_iff, not_true_iff_false in Hr. apply Hr, existsb_exists.
    exists o. split; [done|]. cbn in Ho. by rewrite Ho, String.eqb_refl. }
  split; [intros e He Le; exact (P.pl_session _ Hpl _ _ Td Hun (row_T _ _ _ H He) Le)|]. intros w Hmw Hw Htw.
  assert (Ho : P.own (turn_of d) = Some w) by (unfold P.own; cbn; by rewrite Hw, Hmw, Htw). split.
  - destruct (P.pl_dirty _ Hpl _ w Td Hun Ho) as (p & Hp & Hq & _). rewrite placeOf_core in Hp. destruct (resourceOf w s) as [r|]; [|done]. injection Hp as <-. by exists r.
  - intros e He Le. rewrite <-needs_core. exact (P.pl_closed _ Hpl _ w _ Td Hun Ho (row_T _ _ _ H He) Le).
Qed.

(** C4. A message is handed to a runner at most once as an input of a session: over all the dispatches of the
    session, retries, restarts and recoveries, no answer of [takePayload] repeats it. *)
Theorem inputs_are_handed_over_once tr s : reaches tr s → NoDup (List.map P.input_of (P.handed tr)).
Proof. intros H. exact (P.in_once _ _ (P.inv_inputs _ _ _ (reaches_inv _ _ H))). Qed.

(** C5. A capability that is accepted belongs to the runner that made the last claim of its dispatch, which is
    held now: no older claim, under a lower fence, can act after it, and none acts once the dispatch is over. *)
Theorem only_the_latest_claim_acts tr s now i d : reaches tr s → validateCapability num_str sha256 now i s = inr d →
  live d = true ∧ ∃ runner raw, k_dispatch i = JStr (d_id d) ∧ k_runner i = JStr runner ∧ k_capability i = JStr raw ∧
    ∃ pre post, P.claims tr = pre ++ (d_id d, runner, d_fence d, digest (JStr raw)) :: post ∧ ∀ r g h, (d_id d, r, g, h) ∉ post.
Proof.
  intros H Hv. destruct (validated now i d s Hv) as (Hd & Hi & k & raw & Hk & Hraw & Hh & Ht & Hf & _ & Hr & Hrev).
  assert (T : P.T (core s) (turn_of d)) by by apply (T_dispatchOf (d_id d)).
  destruct (P.fences_current _ _ k (turn_of d) (P.inv_fences _ _ _ (reaches_inv _ _ H)) Hk Hrev T) as (Ha & pre & post & Hc & Hpost); [done..|].
  split; [exact Ha|]. exists (P.k_runner k), raw. split_and!; [done..|]. exists pre, post. split; [|exact Hpost]. unfold P.claim_of in Hc. by rewrite Ht, Hf, Hh in Hc.
Qed.

(** C6. An approval lets its dispatch go on at most once, and with the decision of a verdict that was recorded for
    it: the digest of the verdict is that of the approval, the dispatch, the operation and the decision. *)
Theorem approvals_resume_once tr s : reaches tr s → NoDup (List.map P.approval_of (P.resumed tr)) ∧
  ∀ a i o b, (a, i, o, b) ∈ P.resumed tr →
    ∃ v, v ∈ verdicts s ∧ v_approval v = a ∧ v_dispatch v = i ∧ v_allow v = b ∧ v_digest v = verdict_digest num_str sha256 a i o b.
Proof.
  intros H. pose proof (P.inv_approvals _ _ _ (reaches_inv _ _ H)) as Ha. split; [apply (P.ap_once _ _ _ Ha)|]. intros a i o b Hin.
  destruct (P.ap_spent _ _ _ Ha a i o b Hin) as (x & Hx & <- & <- & <- & Hd & _). destruct (P.ap_backed _ _ _ Ha x b Hx Hd) as (v & Hv & E1 & E2 & E3 & E4).
  apply list_elem_of_In, in_map_iff in Hv as (w & <- & Hw). exists w. split_and!; try done. by apply list_elem_of_In.
Qed.

(** Whatever a call does to a dispatch, it goes along its life cycle, in its session: queued, leased, started,
    parked while an owner decides, and then completed, cancelled before it started, or of unknown outcome. *)
Theorem dispatches_follow_life_cycle tr s o d : reaches tr s → sound o = true → d ∈ dispatches s →
  ∃ d', d' ∈ dispatches (perform o s).2 ∧ d_id d' = d_id d ∧ d_session d' = d_session d ∧ rtc P.edge (d_state d) (d_state d').
Proof.
  intros H Ho Hd. pose proof (perform_run o s (P.inv_places _ _ _ (reaches_inv _ _ H)) Ho) as Hr.
  destruct (P.protocol_grows _ _ _ _ _ Hr (row_T _ _ _ H Hd)) as (t & Ht & Hi & Hs & He). apply P.T_elem, turns_elem in Ht as (d' & Hd' & ->). by exists d'.
Qed.

End facts.

(** ** A run of the router *)

Module RouterSample.

Definition num_str (n : num) : string := "0".
Definition sha256 (s : string) : string := s.
Definition iso (z : Z) : string := "then".
Abbreviation perform := (perform num_str sha256 iso 1000).
Abbreviation reaches := (reaches num_str sha256 iso 1000).

Fixpoint after (os : list op) (x : list P.label * DB) : list P.label * DB :=
  match os with [] => x | o :: os => after os (let '(ls, s) := perform o x.2 in (x.1 ++ ls, s)) end.

Lemma reaches_after os x : forallb sound os = true → reaches x.1 x.2 → reaches (after os x).1 (after os x).2.
Proof.
  revert x. induction os as [|o os IH]; intros [tr s] Hos H; [done|]. apply andb_true_iff in Hos as [Ho Hos]. cbn [after fst snd]. apply IH; [done|].
  pose proof (reaches_call _ _ _ _ tr s o H Ho) as Hc. by destruct (perform o s).
Qed.

(** A session in a room, with a message that it was sent. *)
Definition start : DB := empty <| sessions := [MkSession "s1" "a1" "Agent" "!room" None (Some "auto") 0 None 1 "" 0] |>
  <| messages := [MkMessage "m1" "!room" (Some "$1") None (Some "@u:h") None "hello" "dg" 1 false] |> <| projections := [MkProjection "s1" "m1" 1 None] |>.

Lemma reaches_start : reaches [] start.
Proof. by apply (reaches_others _ _ _ _ [] empty); [constructor|]. Qed.

Definition enqueue : op := Enqueue 10 "d1" (MkEnqueue (JStr "s1") JUndef "codex" JUndef JUndef None (JStr "w1") [] true (JObj [])).
Definition claim (raw : string) : op := Claim 20 raw (MkClaim (JStr "r1") (Fin 60000) (Fin 90000) 4).
Definition key (raw : string) (fence : Q) : CapabilityInput := MkCapabilityInput (JStr "d1") (JStr "r1") (JStr raw) (JNum (Fin fence)).
(** A runner that dies before it starts, a second claim, and a wait for an approval. *)
Definition running : list P.label * DB := after [enqueue; claim "k1"; Restart 25; claim "k2"; Take 30 (key "k2" 2) (Some JNull)] ([], start).
Definition approved : list P.label * DB := after
  [Park 40 (key "k2" 2) (MkPark (JStr "p1") (JStr "op") JUndef JUndef JUndef JUndef 2); Decide 50 (JStr "$v") "p1" "d1" "op" true; Resume 60 (key "k2" 2) "p1" "op"] running.
(** A restart, after which nobody knows what the runner did. *)
Definition lost : list P.label * DB := after [Restart 70] approved.

Lemma reaches_running : reaches running.1 running.2.
Proof. apply reaches_after; [done|apply reaches_start]. Qed.
Lemma reaches_approved : reaches approved.1 approved.2.
Proof. apply reaches_after; [done|apply reaches_running]. Qed.
Lemma reaches_lost : reaches lost.1 lost.2.
Proof. apply reaches_after; [done|apply reaches_approved]. Qed.

Definition the (x : list P.label * DB) : Dispatch := default (new_dispatch "" "" None "" JNull false "" None [] 0) (dispatchOf "d1" x.2).

Example trace_of_lost : lost.1 = [P.Claim "d1" "r1" 1 "k1"; P.Claim "d1" "r1" 2 "k2"; P.Hand "d1" "s1" ["m1"]; P.Resume "p1" "d1" "op" true] ∧
  List.map d_state (dispatches lost.2) = [OutcomeUnknown].
Proof. by vm_compute. Qed.

Lemma router_refines_protocol_witness : P.run (verdict_digest num_str sha256) P.empty lost.1 (core lost.2).
Proof. exact (router_refines_protocol num_str sha256 iso 1000 lost.1 lost.2 reaches_lost). Defined.

Lemma the_in x : dispatchOf "d1" x.2 = Some (the x) → the x ∈ dispatches x.2.
Proof. intros H. by apply P.find_elem in H. Qed.

Lemma live_dispatches_are_exclusive_witness : live (the running) = true ∧ "w1" ∈ needed (the running) ∧ ∀ e, e ∈ dispatches running.2 → live e = true → "w1" ∈ needed e → the running = e.
Proof.
  assert (Hn : "w1" ∈ needed (the running)) by (vm_compute; by left). split_and!; [by vm_compute|done|]. intros e He Hl Hw.
  apply (live_dispatches_are_exclusive num_str sha256 iso 1000 running.1 running.2); [exact reaches_running|by apply the_in; vm_compute|done|by vm_compute|done|]. right. by exists "w1".
Defined.

Lemma unknown_outcome_quarantines_witness : unresolved lost.2 (the lost) = true ∧ ∃ r, resourceOf "w1" lost.2 = Some r ∧ w_dirty r = true.
Proof.
  split; [by vm_compute|]. assert (Hd : the lost ∈ dispatches lost.2) by (apply the_in; by vm_compute).
  destruct (unknown_outcome_quarantines num_str sha256 iso 1000 lost.1 lost.2 (the lost) reaches_lost Hd) as [_ H]; [by vm_compute|]. by apply (H "w1"); vm_compute.
Defined.

Lemma inputs_are_handed_over_once_witness : P.handed lost.1 = [("d1", "s1", "m1")] ∧ NoDup (List.map P.input_of (P.handed lost.1)).
Proof. split; [by vm_compute|]. exact (inputs_are_handed_over_once num_str sha256 iso 1000 lost.1 lost.2 reaches_lost). Defined.

Lemma only_the_latest_claim_acts_witness : validateCapability num_str sha256 35 (key "k1" 1) running.2 = inl "invalid_capability" ∧
  validateCapability num_str sha256 35 (key "k2" 2) running.2 = inr (the running) ∧ live (the running) = true.
Proof.
  assert (Hv : validateCapability num_str sha256 35 (key "k2" 2) running.2 = inr (the running)) by by vm_compute. split_and!; [by vm_compute|exact Hv|].
  exact (proj1 (only_the_latest_claim_acts num_str sha256 iso 1000 running.1 running.2 35 (key "k2" 2) (the running) reaches_running Hv)).
Defined.

Lemma approvals_resume_once_witness : P.resumed approved.1 = [("p1", "d1", "op", true)] ∧ NoDup (List.map P.approval_of (P.resumed approved.1)).
Proof. split; [by vm_compute|]. exact (proj1 (approvals_resume_once num_str sha256 iso 1000 approved.1 approved.2 reaches_approved)). Defined.

Lemma dispatches_follow_life_cycle_witness : d_state (the running) = Started ∧ ∃ d', d_id d' = "d1" ∧ rtc P.edge Started (d_state d').
Proof.
  split; [by vm_compute|]. assert (Hd : the running ∈ dispatches running.2) by (apply the_in; by vm_compute).
  destruct (dispatches_follow_life_cycle num_str sha256 iso 1000 running.1 running.2 (Restart 70) (the running) reaches_running eq_refl Hd) as (d' & _ & Hi & _ & He). exists d'. split; [rewrite Hi; by vm_compute|].
  replace Started with (d_state (the running)) by (by vm_compute). exact He.
Defined.

(** *** What the model shows of the code *)

Definition resolve_input (a : string) (instruction : jval) : ResolveInput := MkResolve (JStr "d1") (JStr "q1") (JStr "tok") (JStr "r1") (JStr "looked") a instruction.

(** A dispatch that may not write, but whose runner says that it left the workspace dirty. *)
Definition reader : DB := (after [Enqueue 10 "d1" (MkEnqueue (JStr "s1") JUndef "codex" JUndef JUndef None (JStr "w1") [] false (JObj [])); claim "k1"; Take 30 (key "k1" 1) (Some JNull);
  Settle 40 "u" (key "k1" 1) (MkSettle false JUndef JUndef true); Inspect 50 "q1" "tok" (JStr "d1") (Fin 60000)] ([], start)).2.
Definition reader_resolved : (failure + Resolved) * DB := resolveOutcomeUnknown num_str sha256 iso 1000 60 "d2" (resolve_input "continue" (JStr "go on")) reader.

(** Its quarantine outlives the resolution of its outcome, and cannot be cleared either: no method lets the
    workspace go again. *)
Example quarantine_of_a_reader_stays :
  (match reader_resolved.1 with inr r => rd_replayed r = false | _ => False end) ∧
  (w_dirty <$> resourceOf "w1" reader_resolved.2) = Some true ∧
  (clearWorkspaceDirty 1000 70 (JStr "w1") reader_resolved.2).1 = inl (Refused "inspection_required").
Proof. by vm_compute. Qed.

(** A task that is done when the outcome of its dispatch gets lost. *)
Definition with_task (st : string) (s : DB) : DB := s <| tasks := [MkTask "t1" st None None None None "then" 0 "title" "" "p2" "task" (Some "a1") (Some "Agent") None None [] "then"] |> <| inputs := [MkInput "t1" "m1" true 1 (Some 1)] |>.
Definition lost_done : DB := (after [Restart 70; Inspect 80 "q1" "tok" (JStr "d1") (Fin 60000)]
  ([], with_task "done" (after [Enqueue 10 "d1" (MkEnqueue (JStr "s1") (JStr "t1") "codex" JUndef JUndef None JUndef [] false (JObj [])); claim "k1"; Take 30 (key "k1" 1) (Some JNull)]
    ([], with_task "created" start)).2)).2.
Definition refused_with {A} (r : (failure + A) * DB) (code : string) : Prop := r.1 = inl (Refused code).

(** Its outcome cannot be resolved by any of the actions, so its session stays closed. *)
Example done_task_closes_its_session :
  List.map d_state (dispatches lost_done) = [OutcomeUnknown] ∧
  refused_with (resolveOutcomeUnknown num_str sha256 iso 1000 90 "d2" (resolve_input "continue" (JStr "go on")) lost_done) "invalid_transition" ∧
  refused_with (resolveOutcomeUnknown num_str sha256 iso 1000 90 "d2" (resolve_input "accept_completed" JUndef) lost_done) "invalid_transition" ∧
  refused_with (resolveOutcomeUnknown num_str sha256 iso 1000 90 "d2" (resolve_input "keep_blocked" JUndef) lost_done) "invalid_transition".
Proof. by vm_compute. Qed.

(** A named resource that is the workspace: the second lease breaks the claim, and with it every claim of the
    queue. *)
Definition twice : DB := (after [Enqueue 10 "d1" (MkEnqueue (JStr "s1") JUndef "codex" JUndef JUndef None (JStr "w1") [JStr "w1"] true (JObj []))] ([], start)).2.
Example named_workspace_blocks_the_queue :
  (claimDispatch num_str sha256 iso 1000 20 "k1" (MkClaim (JStr "r1") (Fin 60000) (Fin 90000) 4) twice).1 = inl (Broken "constraint").
Proof. by vm_compute. Qed.

End RouterSample.
