(* ===== verification/RouterIntake.v ===== *)
(** * The intake of the dispatch router ([router/src/store.ts], 573 to 1312 and 3325 to 3533)

    What comes in before a dispatch is queued: sessions of an agent in a room or thread, authenticated
    messages and their projection into sessions, tasks that are announced in a thread before they may be
    worked on, inputs that are attached to them, messages and tasks that a runner sends to its peers, and
    the questions about them. The tables and the monad are those of [DispatchRouter].

    Theorems: a task has one announcement and is active only when that was delivered, and a dispatch that
    writes for a task belongs to the agent, room and thread in which it was announced. Left out: the list of
    peer inputs to recover, the operations on tasks and the assembly of contexts. *)

From Stdlib Require Import ZArith QArith Qround Lia String Ascii.
From stdpp Require Import base list strings relations.
From S2P Require Import Prelude OMap Json ExecAuth DispatchRouter DispatchRouterFacts.
#[local] Open Scope stdpp_scope.
#[local] Open Scope js_scope.
Import DispatchRouter.

Module RouterIntake.
Section intake.
Context (num_str : num → string) (sha256 : string → string) (toISOString : Z → string) (dateParse : string → num) (eventRetention : Z).

Abbreviation emit := (emit eventRetention).
Abbreviation digest := (digest num_str sha256).
Abbreviation checked := (checked num_str sha256).
Abbreviation insertNotice := (insertNotice num_str sha256 eventRetention).

(** ** Sessions *)

(** The session of an agent in a room, or in a thread of it. *)
Definition sessionAt (agent room : string) (thread : option string) (s : DB) : option Session :=
  List.find (λ x, String.eqb (s_agent x) agent && String.eqb (s_room x) room && bool_decide (s_thread x = thread)) (sessions s).
Definition same_session (x y : Session) : bool :=
  String.eqb (s_id x) (s_id y) || (String.eqb (s_agent x) (s_agent y) && String.eqb (s_room x) (s_room y) && bool_decide (s_thread x = s_thread y)).
Definition set_session (i : string) (f : Session → Session) : M unit := modify (λ s, s <| sessions := update_where (λ x, String.eqb (s_id x) i) f (sessions s) |>).

Definition resolveSessionInternal (now : Z) (uuid : string) (agentId agentName roomId threadRoot : jval) : M (Session * bool) :=
  agent ← requiredText agentId 255;
  name ← requiredText agentName 255;
  room ← requiredText roomId 512;
  let thread := optionalText threadRoot 512 in
  existing ← gets (sessionAt agent room thread);
  match existing with
  | Some x =>
      set_session (s_id x) (λ x, x <| s_name := name |> <| s_active := now |>) ;;
      mret (x <| s_name := name |> <| s_active := now |>, false)
  | None =>
      let x := MkSession uuid agent name room thread None now None 1 EmptyString now in
      insert sessions (λ l s, s <| sessions := l |>) same_session x ;;
      emit now "session.created" [("sessionId", JStr uuid); ("agentId", JStr agent); ("roomId", JStr room);
        ("scopeKind", JStr (match thread with Some _ => "thread" | None => "main" end)); ("threadRootEventId", str_or_null thread)] "operator" ;;
      mret (x, true)
  end.

Definition resolveSession (now : Z) (uuid : string) (agentId agentName roomId threadRoot : jval) : M Session :=
  transaction (r ← resolveSessionInternal now uuid agentId agentName roomId threadRoot; mret r.1).

Definition sessionById (id : jval) : M (option Session) := id ← requiredText id 255; gets (sessionOf id).

(** [None] leaves the stored value, [Some None] clears it. *)
Record OverridesInput : Type := MkOverrides { or_agent : jval; or_name : jval; or_room : jval; or_thread : jval; or_model : option (option string); or_mode : option (option string); or_by : jval }.

Definition alphanumeric (c : ascii) : bool := let n := nat_of_ascii c in ((48 <=? n) && (n <=? 57) || (65 <=? n) && (n <=? 90) || (97 <=? n) && (n <=? 122))%nat.
Definition model_name (m : string) : bool :=
  match m with
  | String c rest => alphanumeric c && (String.length rest <=? 63)%nat && negb (string_exists (λ c, negb (alphanumeric c || inb (String c EmptyString) ["."; "_"; "-"])) rest)
  | EmptyString => false
  end.

Definition setSessionOverrides (now : Z) (uuid : string) (i : OverridesInput) : M Session := guarded (
  by_ ← requiredText (or_by i) 255;
  refuse_if match or_model i, or_mode i with None, None => true | _, _ => false end with "bad_request" ;;
  refuse_if match or_model i with Some (Some m) => negb (model_name m) | _ => false end with "bad_request" ;;
  refuse_if match or_mode i with Some (Some m) => negb (inb m ["plan"; "auto"]) | _ => false end with "bad_request" ;;
  r ← resolveSessionInternal now uuid (or_agent i) (or_name i) (or_room i) (or_thread i);
  let x := r.1 in
  let model := default (s_model x) (or_model i) in
  let mode := default (s_mode x) (or_mode i) in
  set_session (s_id x) (λ x, x <| s_model := model |> <| s_mode := mode |>) ;;
  emit now "session.overrides_set" [("sessionId", JStr (s_id x)); ("agentId", JStr (s_agent x)); ("roomId", JStr (s_room x)); ("threadRootEventId", str_or_null (s_thread x));
    ("modelOverride", str_or_null model); ("modeOverride", str_or_null mode); ("requestedBy", JStr by_)] "operator" ;;
  mret (x <| s_model := model |> <| s_mode := mode |>)).

Definition queueSessionNotice (now : Z) (roomId threadRoot sender dedupeKey body : jval) : M unit := guarded (
  key ← requiredText dedupeKey 255;
  room ← requiredText roomId 512;
  name ← requiredText sender 255;
  text ← requiredText body 4000;
  insertNotice now None None key room (optionalText threadRoot 512) name text).

Definition updateRollingSummary (now : Z) (id summary : jval) : M Z := guarded (
  id ← requiredText id 255;
  text ← requiredText summary (500 * 100);
  x ← gets (sessionOf id);
  x ← found x (Refused "not_found");
  let generation := s_generation x + 1 in
  set_session id (λ x, x <| s_summary := text |> <| s_generation := generation |>) ;;
  emit now "session.context_rotated" [("sessionId", JStr id); ("contextGeneration", int generation)] "operator" ;;
  mret generation).

(** ** Cursors of sources *)

Definition cursorOf (source : string) (s : DB) : option Cursor := List.find (λ u, String.eqb (u_source u) source) (cursors s).

(** [true] when the cursor is new. *)
Definition initializeIngestionCursor (now : Z) (sourceInput cursorInput : jval) : M (bool * string) :=
  source ← requiredText sourceInput 255;
  cursor ← requiredText cursorInput 2048;
  u ← gets (cursorOf source);
  match u with
  | Some u => mret (false, u_value u)
  | None => modify (λ s, s <| cursors := cursors s ++ [MkCursor source cursor now] |>) ;; mret (true, cursor)
  end.

Definition readIngestionCursor (sourceInput : jval) : M (option string) := source ← requiredText sourceInput 255; u ← gets (cursorOf source); mret (u_value <$> u).

Definition advanceIngestionCursor (now : Z) (sourceInput cursorInput : jval) : M unit :=
  source ← requiredText sourceInput 255;
  cursor ← requiredText cursorInput 2048;
  u ← gets (cursorOf source);
  match u with
  | Some _ => modify (λ s, s <| cursors := update_where (λ u, String.eqb (u_source u) source) (λ u, u <| u_value := cursor |> <| u_at := now |>) (cursors s) |>)
  | None => modify (λ s, s <| cursors := cursors s ++ [MkCursor source cursor now] |>)
  end.

(** ** Messages *)

Record MessageInput : Type := MkMessageInput {
  ms_id : jval; ms_room : jval; ms_event : jval; ms_thread : jval; ms_mxid : jval; ms_name : jval; ms_agent : jval; ms_agentName : jval; ms_body : jval;
  ms_received : option Z; ms_explicit : bool;
}.

(** A message comes once under its id, and an event of Matrix once in its room. *)
Definition same_message (m n : Message) : bool :=
  String.eqb (m_id m) (m_id n) || (String.eqb (m_room m) (m_room n) && match m_event m, m_event n with Some a, Some b => String.eqb a b | _, _ => false end).

(** [true] for a message that is new. *)
Definition storeMessageInternal (now : Z) (i : MessageInput) : M (bool * string) :=
  id ← requiredText (ms_id i) 512;
  body ← requiredText (ms_body i) (1000 * 100);
  room ← requiredText (ms_room i) 512;
  let event := optionalText (ms_event i) 512 in
  let thread := optionalText (ms_thread i) 512 in
  let mxid := optionalText (ms_mxid i) 512 in
  let name := optionalText (ms_name i) 255 in
  let dg := digest (JObj [("roomId", JStr room); ("matrixEventId", str_or_null event); ("threadRootEventId", str_or_null thread); ("senderMxid", str_or_null mxid);
    ("senderName", str_or_null name); ("body", JStr body)]) in
  previous ← gets (messageOf id);
  match previous with
  | Some m => refuse_if negb (String.eqb (m_digest m) dg) with "idempotency_conflict" ;; mret (false, id)
  | None =>
      insert messages (λ l s, s <| messages := l |>) same_message (MkMessage id room event thread mxid name body dg (default now (ms_received i)) (ms_explicit i)) ;;
      emit now "message.stored" [("messageId", JStr id); ("explicitTask", JBool (ms_explicit i))] "operator" ;;
      mret (true, id)
  end.

Definition storeTaskMessage (now : Z) (i : MessageInput) : M (bool * string) := guarded (storeMessageInternal now i).

Definition projected (session message : string) (s : DB) : bool := existsb (λ p, String.eqb (p_session p) session && String.eqb (p_message p) message) (projections s).

Record Ingested : Type := MkIngested { ng_created : bool; ng_message : string; ng_session : Session }.

Definition ingestMessage (now : Z) (uuid : string) (i : MessageInput) : M Ingested := guarded (
  stored ← storeMessageInternal now i;
  room ← requiredText (ms_room i) 512;
  r ← resolveSessionInternal now uuid (ms_agent i) (ms_agentName i) (JStr room) (str_or_null (optionalText (ms_thread i) 512));
  let x := r.1 in
  seen ← gets (projected (s_id x) stored.2);
  when (negb seen) (
    modify (λ s, s <| projections := projections s ++ [MkProjection (s_id x) stored.2 now None] |>) ;;
    emit now "message.ingested" [("messageId", JStr stored.2); ("sessionId", JStr (s_id x)); ("explicitTask", JBool (ms_explicit i))] "operator") ;;
  mret (MkIngested (stored.1 || negb seen) stored.2 x)).

(** ** Tasks *)

Definition bindingOf (t : string) (s : DB) : option Binding := List.find (λ b, String.eqb (b_task b) t) (bindings s).
Definition orderOf (i : string) (s : DB) : option Order := List.find (λ g, String.eqb (g_id g) i) (orders s).

Record TaskInput : Type := MkTaskInput {
  ti_id : jval; ti_title : jval; ti_description : jval; ti_priority : option string; ti_granularity : option string; ti_agent : jval; ti_name : jval;
  ti_creator : jval; ti_by : jval; ti_parent : jval; ti_labels : list string;
}.
Record IntentInput : Type := MkIntent {
  in_scope : jval; in_key : jval; in_room : jval; in_thread : jval; in_root : jval; in_messages : list string; in_task : TaskInput; in_ack : jval;
}.
Record Intent : Type := MkIntentAnswer { nt_replayed : bool; nt_task : string; nt_command : string; nt_txn : string }.

(** An input of a task is a message of its room. *)
Definition in_its_room (room message : string) : M unit :=
  m ← gets (messageOf message); refuse_if negb (match m with Some m => String.eqb (m_room m) room | None => false end) with "bad_request" ;; mret tt.

(** The thread of a message: its own, or the one it begins. *)
Definition root_of (m : Message) : option string := match m_thread m with Some t => Some t | None => m_event m end.

Definition same_binding (a b : Binding) : bool :=
  String.eqb (b_task a) (b_task b) || (String.eqb (b_scope a) (b_scope b) && String.eqb (b_key a) (b_key b))
  || (String.eqb (b_agent a) (b_agent b) && String.eqb (b_room a) (b_room b) && String.eqb (b_thread a) (b_thread b)).
Definition insert_task (t : Task) : M unit :=
  if negb (inb (t_priority t) ["p0"; "p1"; "p2"; "p3"] && inb (t_granularity t) ["epic"; "task"; "subtask"]) then fail (Broken "constraint") else
  insert tasks (λ l s, s <| tasks := l |>) (λ a b, String.eqb (t_id a) (t_id b)) t.

Definition createTaskIntent (now : Z) (uuid uuid' : string) (i : IntentInput) : M Intent := guarded (
  scope ← requiredText (in_scope i) 255;
  key ← requiredText (in_key i) 512;
  room ← requiredText (in_room i) 512;
  rootEvent ← requiredText (in_thread i) 512;
  rootMessage ← requiredText (in_root i) 512;
  let k := in_task i in
  title ← requiredText (ti_title k) 255;
  agent ← requiredText (ti_agent k) 255;
  name ← requiredText (ti_name k) 255;
  let ids := ExecAuth.unique (rootMessage :: in_messages i) in
  let description := default EmptyString (optionalText (ti_description k) 4096) in
  let priority := default "p2" (ti_priority k) in
  let granularity := default "task" (ti_granularity k) in
  let creator := optionalText (ti_creator k) 255 in
  let by_ := optionalText (ti_by k) 255 in
  let parent := optionalText (ti_parent k) 255 in
  let ack := default ("Task created: " +:+ title) (optionalText (in_ack i) 4096) in
  let dg := digest (JObj [("roomId", JStr room); ("rootEvent", JStr rootEvent); ("rootMessageId", JStr rootMessage); ("inputMessageIds", JArr (List.map JStr ids));
    ("task", JObj [("title", JStr title); ("description", JStr description); ("priority", JStr priority); ("granularity", JStr granularity);
      ("assigneeAgentId", JStr agent); ("assigneeName", JStr name); ("creatorAgentId", str_or_null creator); ("createdBy", str_or_null by_); ("parentId", str_or_null parent);
      ("labels", JArr (List.map JStr (ti_labels k)))]); ("acknowledgementBody", JStr ack)]) in
  prior ← gets (λ s, List.find (λ b, String.eqb (b_scope b) scope && String.eqb (b_key b) key) (bindings s));
  match prior with
  | Some b =>
      refuse_if negb (String.eqb (b_digest b) dg) with "idempotency_conflict" ;;
      g ← gets (λ s, List.find (λ g, String.eqb (g_task g) (b_task b)) (orders s));
      g ← found g (Broken "task binding is missing Matrix command");
      mret (MkIntentAnswer true (b_task b) (g_id g) (g_txn g))
  | None =>
      root ← gets (messageOf rootMessage);
      refuse_if negb (match root with Some m => String.eqb (m_room m) room && is_Some_b (truthy_opt (m_event m)) && opt_eq (root_of m) rootEvent | None => false end) with "bad_request" ;;
      nested ← gets (λ s, existsb (λ m, String.eqb (m_room m) room && opt_eq (m_event m) rootEvent && is_Some_b (m_thread m)) (messages s));
      refuse_if nested with "bad_request" ;;
      each (in_its_room room) ids ;;
      taken ← gets (λ s, existsb (λ b, String.eqb (b_agent b) agent && String.eqb (b_room b) room && String.eqb (b_thread b) rootEvent) (bindings s));
      refuse_if taken with "bad_request" ;;
      lost ← gets (λ s, match parent with Some p => negb (is_Some_b (taskOf p s)) | None => false end);
      refuse_if lost with "bad_request" ;;
      let task := default ("task_" +:+ uuid) (optionalText (ti_id k) 255) in
      insert_task (MkTask task "created" None None None None (toISOString now) 0 title description priority granularity (Some agent) (Some name) by_ parent (ti_labels k) (toISOString now)) ;;
      insert bindings (λ l s, s <| bindings := l |>) same_binding (MkBinding task agent room rootEvent None "pending_thread" creator scope key dg) ;;
      each (λ m, insert inputs (λ l s, s <| inputs := l |>) (λ a b, String.eqb (i_task a) (i_task b) && String.eqb (i_message a) (i_message b))
        (MkInput task m (String.eqb m rootMessage) now None)) ids ;;
      let command := "matrix_" +:+ uuid' in
      let txn := "hagency_" +:+ slice_to 40 (digest (JStr command)) in
      let payload := JObj [("roomId", JStr room); ("threadRootEventId", JStr rootEvent); ("body", JStr ack); ("senderAgentName", JStr name)] in
      insert orders (λ l s, s <| orders := l |>) (λ a b, String.eqb (g_id a) (g_id b) || String.eqb (g_txn a) (g_txn b))
        (MkOrder command task txn payload (digest payload) OPending None None None None) ;;
      emit now "task.intent_created" [("taskId", JStr task); ("commandId", JStr command); ("roomId", JStr room); ("threadRootEventId", JStr rootEvent)] "operator" ;;
      mret (MkIntentAnswer false task command txn)
  end).

Record AttachInput : Type := MkAttachInput { at_task : jval; at_scope : jval; at_key : jval; at_messages : list jval }.

(** The inputs that are new are counted. A refusal leaves those before it attached. *)
Fixpoint attach (now : Z) (b : Binding) (l : list string) (n : Z) : M Z :=
  match l with
  | [] => mret n
  | m :: l =>
      in_its_room (b_room b) m ;;
      known ← gets (λ s, existsb (λ i, String.eqb (i_task i) (b_task b) && String.eqb (i_message i) m) (inputs s));
      when (negb known) (modify (λ s, s <| inputs := inputs s ++ [MkInput (b_task b) m false now (if String.eqb (b_state b) "active" then Some now else None)] |>)) ;;
      attach now b l (if known : bool then n else n + 1)
  end.

(** Whether it was answered before, and how many inputs were attached. *)
Definition attachTaskInputs (now : Z) (i : AttachInput) : M (bool * Z) := guarded (
  task ← requiredText (at_task i) 255;
  scope ← requiredText (at_scope i) 255;
  key ← requiredText (at_key i) 512;
  ids ← requiredTexts (at_messages i) 512;
  let ids := ExecAuth.unique ids in
  let dg := digest (JObj [("taskId", JStr task); ("messageIds", JArr (List.map JStr ids))]) in
  previous ← gets (λ s, List.find (λ h, String.eqb (h_scope h) scope && String.eqb (h_key h) key) (attachments s));
  match previous with
  | Some h => refuse_if negb (String.eqb (h_digest h) dg) with "idempotency_conflict" ;; mret (true, h_count h)
  | None =>
      b ← gets (bindingOf task);
      b ← found b (Refused "not_found");
      n ← attach now b ids 0;
      insert attachments (λ l s, s <| attachments := l |>) (λ a b, String.eqb (h_scope a) (h_scope b) && String.eqb (h_key a) (h_key b)) (MkAttached scope key task dg n now) ;;
      emit now "task.inputs_attached" [("taskId", JStr task); ("attached", int n)] "operator" ;;
      mret (false, n)
  end).

(** *** The announcement of a task in its thread *)

Record MatrixCommand : Type := MkMatrixCommand {
  mc_created : option num; mc_id : string; mc_task : string; mc_txn : string; mc_room : string; mc_thread : string; mc_body : string; mc_sender : string;
  mc_digest : string; mc_token : string; mc_until : Z;
}.

Definition text_prop (payload : jval) (k : string) : string := match prop payload k with JStr t => t | _ => EmptyString end.
Definition set_order (i : string) (f : Order → Order) : M unit := modify (λ s, s <| orders := update_where (λ g, String.eqb (g_id g) i) f (orders s) |>).
Definition set_binding (t : string) (f : Binding → Binding) : M unit := modify (λ s, s <| bindings := update_where (λ b, String.eqb (b_task b) t) f (bindings s) |>).

Definition claimMatrixCommand (now : Z) (raw : string) (claimMs : Z) : M (option MatrixCommand) := transaction (
  g ← gets (λ s, List.find (λ g, claimable now (g_state g) (g_until g)) (orders s));
  match g with
  | None => mret None
  | Some g =>
      let until := now + Z.max 1000 claimMs in
      set_order (g_id g) (λ g, g <| g_state := OClaimed |> <| g_token := Some (digest (JStr raw)) |> <| g_until := Some until |>) ;;
      let room := text_prop (g_payload g) "roomId" in
      let thread := text_prop (g_payload g) "threadRootEventId" in
      let body := text_prop (g_payload g) "body" in
      let sender := text_prop (g_payload g) "senderAgentName" in
      if negb (truthy room && truthy thread && truthy body && truthy sender) then fail (Broken "stored Matrix command is corrupt") else
      t ← gets (taskOf (g_task g));
      mret (Some (MkMatrixCommand ((λ t, dateParse (t_created t)) <$> t) (g_id g) (g_task g) (g_txn g) room thread body sender (g_digest g) raw until))
  end).

Record Activation : Type := MkActivation {
  av_replayed : bool; av_task : string; av_session : string; av_agent : string; av_name : string; av_room : string; av_thread : string; av_anchor : string;
}.

(** A claim that is not the current one has no say. *)
Definition current_claim (g : Order) (token : jval) : bool := bool_decide (g_state g = OClaimed) && opt_eq (g_token g) (digest token).

(** [INSERT OR IGNORE INTO session_messages ... SELECT] *)
Definition project (now : Z) (session : string) (messages : list string) (s : DB) : DB :=
  foldl (λ s m, if projected session m s then s else s <| projections := projections s ++ [MkProjection session m now None] |>) s messages.

Definition recordMatrixDelivery (now : Z) (uuid : string) (commandId token eventId : jval) : M Activation := guarded (
  id ← requiredText commandId 255;
  event ← requiredText eventId 512;
  g ← gets (orderOf id);
  g ← found g (Refused "not_found");
  b ← gets (bindingOf (g_task g));
  b ← found b (Broken "Matrix command task binding is missing");
  t ← gets (taskOf (b_task b));
  name ← found (match t with Some t => truthy_opt (t_name t) | None => None end) (Broken "task has no assignee name");
  if bool_decide (g_state g = ODelivered) then
    refuse_if negb (opt_eq (g_event g) event) with "matrix_command_conflict" ;;
    x ← gets (sessionAt (b_agent b) (b_room b) (Some (b_thread b)));
    x ← found x (Broken "delivered task is missing thread session");
    mret (MkActivation true (b_task b) (s_id x) (b_agent b) name (b_room b) (b_thread b) event)
  else
  refuse_if negb (current_claim g token) with "matrix_command_conflict" ;;
  r ← resolveSessionInternal now uuid (JStr (b_agent b)) (JStr name) (JStr (b_room b)) (JStr (b_thread b));
  let x := r.1 in
  set_order id (λ g, g <| g_state := ODelivered |> <| g_event := Some event |> <| g_token := None |> <| g_until := None |>) ;;
  set_binding (b_task b) (λ b, b <| b_state := "active" |> <| b_anchor := Some event |>) ;;
  modify (λ s, s <| inputs := update_where (λ i, String.eqb (i_task i) (b_task b) && negb (is_Some_b (i_activated i))) (λ i, i <| i_activated := Some now |>) (inputs s) |>) ;;
  modify (λ s, project now (s_id x) (List.map i_message (List.filter (λ i, String.eqb (i_task i) (b_task b) && is_Some_b (i_activated i)) (inputs s))) s) ;;
  emit now "task.activated" [("taskId", JStr (b_task b)); ("sessionId", JStr (s_id x)); ("threadRootEventId", JStr (b_thread b)); ("threadAnchorEventId", JStr event)] "operator" ;;
  mret (MkActivation false (b_task b) (s_id x) (b_agent b) name (b_room b) (b_thread b) event)).

Definition enqueueTaskNotice (now : Z) (task key body : string) : M unit :=
  b ← gets (bindingOf task);
  t ← gets (taskOf task);
  match b, match t with Some t => truthy_opt (t_name t) | None => None end with
  | Some b, Some name => insertNotice now None (Some task) key (b_room b) (Some (b_thread b)) name body
  | _, _ => fail (Broken "task binding is missing notice routing metadata")
  end.

(** Whether it was recorded before, and the task. *)
Definition recordMatrixFailure (now : Z) (commandId token code : jval) : M (bool * string) := guarded (
  id ← requiredText commandId 255;
  code ← requiredText code 120;
  g ← gets (orderOf id);
  g ← found g (Refused "not_found");
  if bool_decide (g_state g = OFailed) then mret (true, g_task g) else
  refuse_if negb (current_claim g token) with "matrix_command_conflict" ;;
  set_order id (λ g, g <| g_state := OFailed |> <| g_error := Some code |> <| g_token := None |> <| g_until := None |>) ;;
  set_binding (g_task g) (λ b, b <| b_state := "thread_delivery_failed" |>) ;;
  enqueueTaskNotice now (g_task g) ("task_thread_delivery_failed:" +:+ g_task g) "Task creation failed: the Matrix task thread could not be created. No coding work was started." ;;
  emit now "task.thread_delivery_failed" [("taskId", JStr (g_task g)); ("errorCode", JStr code)] "operator" ;;
  mret (false, g_task g)).

Definition machine_code (c : string) : bool :=
  negb (string_exists (λ a, negb (let n := nat_of_ascii a in ((48 <=? n) && (n <=? 57) || (97 <=? n) && (n <=? 122))%nat || inb (String a EmptyString) ["_"; "."; "-"])) c).

Definition recordTaskDispatchFailure (now : Z) (taskId errorCode : jval) : M (bool * string) := guarded (
  task ← requiredText taskId 255;
  code ← requiredText errorCode 120;
  refuse_if negb (machine_code code) with "bad_request" ;;
  b ← gets (bindingOf task);
  b ← found b (Refused "not_found");
  refuse_if negb (String.eqb (b_state b) "active") with "invalid_transition" ;;
  let key := "task_dispatch_failed:" +:+ task +:+ ":" +:+ code in
  replayed ← gets (λ s, existsb (λ n, String.eqb (n_key n) key) (notices s));
  set_task task (λ t, negb (String.eqb (t_status t) "done"))
    (λ t, with_status "blocked" t <| t_waiting := Some "task thread is active but no coding runner could be started" |> <| t_until := None |> <| t_updated := toISOString now |>) ;;
  enqueueTaskNotice now task key "Task thread created, but execution could not start. No coding runner was launched; inspect the agent and workspace configuration before retrying." ;;
  when (negb replayed) (emit now "task.dispatch_failed" [("taskId", JStr task); ("errorCode", JStr code)] "operator") ;;
  mret (replayed, task)).

(** *** Bindings of a thread *)

Definition threadBindings (agent room root : string) (s : DB) : list Binding :=
  List.filter (λ b, String.eqb (b_agent b) agent && String.eqb (b_room b) room && String.eqb (b_thread b) root) (bindings s).

Definition findThreadTaskBinding (agentId roomId rootId : jval) : M (option (string * string)) := guarded (
  agent ← requiredText agentId 255;
  room ← requiredText roomId 512;
  root ← requiredText rootId 512;
  l ← gets (threadBindings agent room root);
  refuse_if (1 <? length l)%nat with "missing_task_credential" ;;
  mret ((λ b, (b_task b, b_state b)) <$> head l)).

Definition findActiveTaskBinding (agentId roomId rootId : jval) : M Activation := guarded (
  agent ← requiredText agentId 255;
  room ← requiredText roomId 512;
  root ← requiredText rootId 512;
  l ← gets (λ s, List.filter (λ b, String.eqb (b_state b) "active") (threadBindings agent room root s));
  refuse_if (1 <? length l)%nat with "missing_task_credential" ;;
  b ← found (head l) (Refused "missing_task_binding");
  anchor ← found (truthy_opt (b_anchor b)) (Refused "missing_task_binding");
  x ← gets (sessionAt agent room (Some root));
  x ← found x (Broken "active task binding is missing its session");
  mret (MkActivation false (b_task b) (s_id x) agent (s_name x) room root anchor)).

(** [deleteTask] of the task repository, which also deletes what belongs to the task; it fails while a dispatch or
    another task refers to it. *)
Definition deleteTask (id : string) : M (option Task) := transaction (
  t ← gets (taskOf id);
  match t with
  | None => mret None
  | Some t =>
      used ← gets (λ s, existsb (λ d, opt_eq (d_task d) id) (dispatches s) || existsb (λ c, opt_eq (t_parent c) id && negb (String.eqb (t_id c) id)) (tasks s));
      if used : bool then fail (Broken "constraint") else
      modify (λ s, s <| tasks := delete_where (λ t, String.eqb (t_id t) id) (tasks s) |> <| bindings := delete_where (λ b, String.eqb (b_task b) id) (bindings s) |>
        <| inputs := delete_where (λ i, String.eqb (i_task i) id) (inputs s) |> <| attachments := delete_where (λ h, String.eqb (h_task h) id) (attachments s) |>
        <| orders := delete_where (λ g, String.eqb (g_task g) id) (orders s) |> <| notices := delete_where (λ n, opt_eq (n_task n) id) (notices s) |>) ;;
      mret (Some t)
  end).

(** ** What a runner sees and sends *)

(** The inputs of a session that it has handled, or that this dispatch hands over. *)
Definition visible (session dispatch message : string) (s : DB) : bool :=
  existsb (λ p, String.eqb (p_session p) session && String.eqb (p_message p) message &&
    (is_Some_b (p_processed p) || existsb (λ x, String.eqb (x_session x) session && String.eqb (x_message x) message && String.eqb (x_dispatch x) dispatch) (batches s))) (projections s).

Definition checkInbox (now : Z) (i : CapabilityInput) : M (list (string * option string * string * Z)) :=
  d ← checked now i;
  gets (λ s, List.map (λ m, (m_id m, m_name m, m_body m, m_received m))
    (stable_sort by_received (List.filter (λ m, visible (d_session d) (d_id d) (m_id m) s) (messages s)))).

Definition checkInboxForAgent (now : Z) (i : CapabilityInput) (agentName : jval) : M (list (string * option string * string * Z)) := guarded (
  d ← checked now i;
  name ← requiredText agentName 255;
  x ← gets (sessionOf (d_session d));
  refuse_if negb (match x with Some x => String.eqb (s_name x) name | None => false end) with "invalid_capability" ;;
  checkInbox now i).

Definition listAgentDispatches (agentId : jval) : M (list (string * string * dispatch_state * Z * option Z)) :=
  agent ← requiredText agentId 255;
  gets (λ s, List.map (λ d, (d_id d, d_session d, d_state d, d_created d, d_started d))
    (oldest (List.filter (λ d, existsb (λ x, String.eqb (s_id x) (d_session d) && String.eqb (s_agent x) agent) (sessions s) && (is_queued d || live d)) (dispatches s)))).

(** Active, queued and parked dispatches of an agent. *)
Definition agentDispatchActivity (agent : string) (s : DB) : nat * nat * nat :=
  let mine := List.filter (λ d, existsb (λ x, String.eqb (s_id x) (d_session d) && String.eqb (s_agent x) agent) (sessions s)) (dispatches s) in
  (length (List.filter live mine), length (List.filter is_queued mine), length (List.filter is_parked mine)).

Definition approvalThreadOrigin (approval agent room : string) (s : DB) : option string :=
  a ← waitOf approval s; d ← dispatchOf (a_dispatch a) s; x ← sessionOf (d_session d) s;
  if String.eqb (s_agent x) agent && String.eqb (s_room x) room then s_thread x else None.

Record Launch : Type := MkLaunch {
  la_dispatch : string; la_framework : string; la_cwd : string; la_agent : string; la_name : string; la_session : string; la_room : string;
  la_task : option string; la_mode : string; la_write : bool; la_model : option string;
}.

Definition getLaunchDescriptor (now : Z) (i : CapabilityInput) : M Launch :=
  d ← checked now i;
  x ← gets (sessionOf (d_session d));
  x ← found x (Broken "dispatch session is missing");
  refuse_if negb (inb (d_framework d) ["claude"; "codex"]) with "unsupported_framework" ;;
  path ← gets (λ s, w ← truthy_opt (d_workspace d); w ← resourceOf w s; truthy_opt (w_path w));
  path ← found path (Refused "bad_request");
  mret (MkLaunch (d_id d) (d_framework d) path (s_agent x) (s_name x) (s_id x) (s_room x) (d_task d) (d_mode d) (d_may_write d) (s_model x)).

(** A dispatch may read its own task and those that it made of it, and write the first. *)
Definition authorizeTaskFromDispatch (now : Z) (i : CapabilityInput) (task : string) (write : bool) : M unit :=
  refuse_if negb (truthy task) with "bad_request" ;;
  d ← checked now i;
  refuse_if write && negb (bool_decide (d_state d = Started)) with "invalid_transition" ;;
  if opt_eq (d_task d) task then mret tt else
  child ← gets (λ s, match truthy_opt (d_task d), taskOf task s, bindingOf task s, sessionOf (d_session d) s with
    | Some p, Some t, Some b, Some x => opt_eq (t_parent t) p && String.eqb (b_room b) (s_room x) && opt_eq (b_creator b) (s_agent x)
    | _, _, _, _ => false end);
  refuse_if write || negb child with "invalid_capability" ;; mret tt.

(** A refusal that takes everything back. *)
Definition or_throw {A} (m : M A) : M A := λ s, match m s with (inl (Refused _), s') => (inl InputError, s') | r => r end.

Record PeerInput : Type := MkPeer { pr_agent : string; pr_name : jval; pr_task : option string; pr_call : jval; pr_body : jval }.

Definition deliverPeerMessageFromDispatch (now : Z) (uuid : string) (c : CapabilityInput) (i : PeerInput) : M (Ingested * string * string) := transaction (
  d ← checked now c;
  refuse_if negb (bool_decide (d_state d = Started)) with "invalid_transition" ;;
  x ← sessionById (JStr (d_session d));
  x ← found x (Refused "not_found");
  targets ← gets (λ s, List.filter (λ b, String.eqb (b_room b) (s_room x) && String.eqb (b_agent b) (pr_agent i) && String.eqb (b_state b) "active"
    && existsb (λ t, String.eqb (t_id t) (b_task b) && negb (String.eqb (t_status t) "done")) (tasks s)
    && match truthy_opt (pr_task i) with Some t => String.eqb (b_task b) t | None => true end) (bindings s));
  refuse_if negb (length targets =? 1)%nat with "missing_task_binding" ;;
  b ← found (head targets) (Refused "missing_task_binding");
  key ← requiredText (pr_call i) 512;
  let message := "peer_" +:+ sha256 (d_id d +:+ String ExecAuth.nul key) in
  let scope := "peer:" +:+ d_id d in
  previous ← gets (λ s, List.find (λ h, String.eqb (h_scope h) scope && String.eqb (h_key h) key) (attachments s));
  refuse_if match previous with Some h => negb (String.eqb (h_task h) (b_task b)) | None => false end with "idempotency_conflict" ;;
  body ← requiredText (pr_body i) (1000 * 100);
  r ← ingestMessage now uuid (MkMessageInput (JStr message) (JStr (s_room x)) JUndef (JStr (b_thread b)) JUndef (JStr (s_name x)) (JStr (pr_agent i)) (pr_name i) (JStr body) None false);
  _a ← or_throw (attachTaskInputs now (MkAttachInput (JStr (b_task b)) (JStr scope) (JStr key) [JStr message]));
  mret (r, b_task b, b_thread b)).

Record DelegateInput : Type := MkDelegate { dg_call : jval; dg_root : jval; dg_messages : list string; dg_task : TaskInput; dg_ack : jval }.

Definition createTaskFromDispatch (now : Z) (uuid uuid' : string) (c : CapabilityInput) (i : DelegateInput) : M Intent := guarded (
  d ← checked now c;
  refuse_if negb (bool_decide (d_state d = Started)) with "invalid_transition" ;;
  refuse_if match truthy_opt (match ti_parent (dg_task i) with JStr p => Some p | _ => None end) with Some p => negb (opt_eq (d_task d) p) | None => false end with "missing_task_credential" ;;
  x ← gets (sessionOf (d_session d));
  x ← found x (Broken "dispatch session is missing");
  latest ← gets (λ s, head (stable_sort (λ m n, by_received n m) (List.filter (λ m, is_Some_b (m_event m) && visible (s_id x) (d_id d) (m_id m) s) (messages s))));
  root ← requiredText (match dg_root i with JUndef => match latest with Some m => JStr (m_id m) | None => JUndef end | v => v end) 512;
  let ids := ExecAuth.unique (root :: dg_messages i) in
  each (λ m, v ← gets (visible (s_id x) (d_id d) m); refuse_if negb v with "missing_task_credential" ;; mret tt) ids ;;
  m ← gets (messageOf root);
  m ← found m (Refused "missing_task_credential");
  event ← found (truthy_opt (m_event m)) (Refused "missing_task_credential");
  key ← requiredText (dg_call i) 512;
  let k := dg_task i in
  createTaskIntent now uuid uuid' (MkIntent (JStr ("dispatch:" +:+ d_id d)) (JStr key) (JStr (s_room x)) (JStr (default event (m_thread m))) (JStr root) ids
    (MkTaskInput (ti_id k) (ti_title k) (ti_description k) (ti_priority k) (ti_granularity k) (ti_agent k) (ti_name k) (JStr (s_agent x)) (JStr (s_name x)) (ti_parent k) (ti_labels k))
    (dg_ack i))).

End intake.
End RouterIntake.

Import RouterIntake.

(** ** The intake leaves the protocol's state alone *)

Section quiet.
Context (num_str : num → string) (sha256 : string → string) (toISOString : Z → string) (dateParse : string → num) (eventRetention : Z).

#[local] Hint Resolve deaf_emit deaf_insertNotice deaf_notice deaf_core quiet_checked : quiet.

Lemma quiet_resolveSession now uuid a n r t : Quiet (resolveSessionInternal eventRetention now uuid a n r t).
Proof. unfold resolveSessionInternal, set_session. eauto 12 with quiet. Qed.
#[local] Hint Resolve quiet_resolveSession : quiet.

Lemma quiet_storeMessage now i : Quiet (storeMessageInternal num_str sha256 eventRetention now i).
Proof. unfold storeMessageInternal. eauto 12 with quiet. Qed.
#[local] Hint Resolve quiet_storeMessage : quiet.

Lemma quiet_ingest now uuid i : Quiet (ingestMessage num_str sha256 eventRetention now uuid i).
Proof. unfold ingestMessage. eauto 15 with quiet. Qed.
#[local] Hint Resolve quiet_ingest : quiet.

Lemma quiet_in_its_room r m : Quiet (in_its_room r m).
Proof. unfold in_its_room. eauto with quiet. Qed.
Lemma quiet_insert_task t : Quiet (insert_task t).
Proof. unfold insert_task. eauto with quiet. Qed.
#[local] Hint Resolve quiet_in_its_room quiet_insert_task : quiet.

Lemma quiet_intent now u u' i : Quiet (createTaskIntent num_str sha256 toISOString eventRetention now u u' i).
Proof. unfold createTaskIntent. apply stable_guarded. eauto 40 with quiet. Qed.
#[local] Hint Resolve quiet_intent : quiet.

Lemma quiet_attach now b l n : Quiet (attach now b l n).
Proof. revert n. induction l as [|m l IH]; intros n; [done|]. cbn [attach]. eauto 12 with quiet. Qed.
#[local] Hint Resolve quiet_attach : quiet.

Lemma quiet_attachTaskInputs now i : Quiet (attachTaskInputs num_str sha256 eventRetention now i).
Proof. unfold attachTaskInputs. eauto 20 with quiet. Qed.
#[local] Hint Resolve quiet_attachTaskInputs : quiet.

Lemma quiet_claimCommand now raw ms : Quiet (claimMatrixCommand num_str sha256 dateParse now raw ms).
Proof. unfold claimMatrixCommand, set_order. eauto 12 with quiet. Qed.

Lemma core_project now x l s : core (project now x l s) = core s.
Proof. unfold project. revert s. induction l as [|m l IH]; intros s; [done|]. cbn [foldl]. rewrite IH. by destruct (projected x m s). Qed.

Lemma quiet_delivered now uuid i k e : Quiet (recordMatrixDelivery num_str sha256 eventRetention now uuid i k e).
Proof.
  assert (Hp : ∀ x f, Quiet (modify (λ s, project now x (f s) s))) by (intros x f s; apply core_project).
  unfold recordMatrixDelivery, set_order, set_binding. eauto 40 with quiet.
Qed.

Lemma quiet_taskNotice now t k b : Quiet (enqueueTaskNotice num_str sha256 eventRetention now t k b).
Proof. unfold enqueueTaskNotice. apply stable_bind; [done|]. intros x. apply stable_bind; [done|]. intros y. destruct x; [|done]. destruct (match y with Some _ => _ | None => _ end); [|done]. apply (deaf_insertNotice _ _ _ core). Qed.
#[local] Hint Resolve quiet_taskNotice : quiet.

Lemma quiet_failure now i k c : Quiet (recordMatrixFailure num_str sha256 eventRetention now i k c).
Proof. unfold recordMatrixFailure, set_order, set_binding. eauto 25 with quiet. Qed.

Lemma quiet_dispatchFailure now t c : Quiet (recordTaskDispatchFailure num_str sha256 toISOString eventRetention now t c).
Proof. unfold recordTaskDispatchFailure. eauto 25 with quiet. Qed.

Lemma quiet_overrides now uuid i : Quiet (setSessionOverrides eventRetention now uuid i).
Proof. unfold setSessionOverrides, set_session. eauto 25 with quiet. Qed.

Lemma quiet_sessionNotice now r t x k b : Quiet (queueSessionNotice num_str sha256 eventRetention now r t x k b).
Proof. unfold queueSessionNotice. eauto 15 with quiet. Qed.

Lemma quiet_summary now i x : Quiet (updateRollingSummary eventRetention now i x).
Proof. unfold updateRollingSummary, set_session. eauto 15 with quiet. Qed.

Lemma quiet_deleteTask i : Quiet (deleteTask i).
Proof. unfold deleteTask. eauto 15 with quiet. Qed.

Lemma quiet_or_throw {A} (m : M A) : Quiet m → Quiet (or_throw m).
Proof. intros H s. unfold or_throw. specialize (H s). by destruct (m s) as [[[]|a] s']. Qed.
#[local] Hint Resolve quiet_or_throw : quiet.

Lemma quiet_sessionById i : Quiet (sessionById i).
Proof. unfold sessionById. eauto with quiet. Qed.
#[local] Hint Resolve quiet_sessionById : quiet.

Lemma quiet_peer now uuid c i : Quiet (deliverPeerMessageFromDispatch num_str sha256 eventRetention now uuid c i).
Proof. unfold deliverPeerMessageFromDispatch. apply stable_transaction. eauto 40 with quiet. Qed.

Lemma quiet_delegate now u u' c i : Quiet (createTaskFromDispatch num_str sha256 toISOString eventRetention now u u' c i).
Proof. unfold createTaskFromDispatch. apply stable_guarded. eauto 40 with quiet. Qed.

End quiet.

(** ** Announcements and writers *)

(** What is said of the announcement of a task. *)
Inductive fate : Type := Waiting | Announced (event : option string) | Lost.
Definition fate_of (g : Order) : fate := match g_state g with ODelivered => Announced (g_event g) | OFailed => Lost | _ => Waiting end.

Record Row : Type := MkRow { ro_id : string; ro_session : string; ro_task : option string; ro_write : bool }.
(** [po_at]: the room and the thread that the announcement is addressed to. *)
Record Post : Type := MkPost { po_id : string; po_task : string; po_fate : fate; po_at : jval * jval }.
Definition row_of (d : Dispatch) : Row := MkRow (d_id d) (d_session d) (d_task d) (d_may_write d).
Definition address_of (g : Order) : jval * jval := (prop (g_payload g) "roomId", prop (g_payload g) "threadRootEventId").
Definition post_of (g : Order) : Post := MkPost (g_id g) (g_task g) (fate_of g) (address_of g).
Definition thread_of (b : Binding) : jval * jval := (JStr (b_room b), JStr (b_thread b)).
Definition home_of (x : Session) : string * string * string * option string := (s_id x, s_agent x, s_room x, s_thread x).

Record Board : Type := MkBoard { rows : list Row; binds : list Binding; posts : list Post; homes : list (string * string * string * option string) }.
Definition board (s : DB) : Board := MkBoard (List.map row_of (dispatches s)) (bindings s) (List.map post_of (orders s)) (List.map home_of (sessions s)).

#[export] Instance deaf_board : Deaf board.
Proof. by intros [] *. Qed.

Definition fits (b : Binding) (f : fate) : Prop :=
  match f with
  | Waiting => b_state b = "pending_thread" ∧ b_anchor b = None
  | Announced e => b_state b = "active" ∧ b_anchor b = e ∧ is_Some e
  | Lost => b_state b = "thread_delivery_failed" ∧ b_anchor b = None
  end.

(** The task of a row that writes was announced in the thread of its session. *)
Definition covered (binds : list Binding) (homes : list (string * string * string * option string)) (r : Row) : Prop :=
  ∀ t, ro_write r = true → ro_task r = Some t → ∃ b, b ∈ binds ∧ b_task b = t ∧ b_state b = "active" ∧ (ro_session r, b_agent b, b_room b, Some (b_thread b)) ∈ homes.

Record Orderly (c : Board) : Prop := MkOrderly {
  or_tasks : NoDup (List.map b_task (binds c));
  or_requests : NoDup (List.map (λ b, (b_scope b, b_key b)) (binds c));
  or_threads : NoDup (List.map (λ b, (b_agent b, b_room b, b_thread b)) (binds c));
  or_ids : NoDup (List.map po_id (posts c));
  or_once : NoDup (List.map po_task (posts c));
  or_post b : b ∈ binds c → ∃ p, p ∈ posts c ∧ po_task p = b_task b ∧ po_at p = thread_of b ∧ fits b (po_fate p);
  or_back p : p ∈ posts c → ∃ b, b ∈ binds c ∧ b_task b = po_task p;
  or_rows r : r ∈ rows c → covered (binds c) (homes c) r;
}.

Lemma orderly_empty : Orderly (board empty).
Proof. split; cbn; try (by constructor); by intros x ?%elem_of_nil. Qed.

Lemma orderly_row c r : Orderly c → covered (binds c) (homes c) r → Orderly (MkBoard (rows c ++ [r]) (binds c) (posts c) (homes c)).
Proof. intros H Hr. split; cbn; try apply H. intros x [Hx| ->%list_elem_of_singleton]%elem_of_app; [by apply (or_rows _ H)|done]. Qed.

Lemma covered_mono binds binds' homes homes' r : (∀ b, b ∈ binds → b_state b = "active" → ∃ b', b' ∈ binds' ∧ b_task b' = b_task b ∧ b_state b' = "active" ∧
    b_agent b' = b_agent b ∧ b_room b' = b_room b ∧ b_thread b' = b_thread b) → homes ⊆ homes' → covered binds homes r → covered binds' homes' r.
Proof.
  intros Hb Hh Hr t Hw Ht. destruct (Hr t Hw Ht) as (b & Hin & <- & Hs & Hp). destruct (Hb b Hin Hs) as (b' & Hin' & E1 & E2 & E3 & E4 & E5).
  exists b'. split_and!; [done|done|done|]. rewrite E3, E4, E5. by apply Hh.
Qed.

Lemma orderly_home c h : Orderly c → Orderly (MkBoard (rows c) (binds c) (posts c) (homes c ++ [h])).
Proof. intros H. split; cbn; try apply H. intros r Hr. eapply covered_mono; [|apply list_subseteq_app_l; done|by apply (or_rows _ H)]. intros b ? ?. by exists b. Qed.

Lemma NoDup_snoc {A B} (f : A → B) l x : NoDup (List.map f l) → f x ∉ List.map f l → NoDup (List.map f (l ++ [x])).
Proof. intros H Hx. rewrite map_app. apply NoDup_app. split_and!; [done| |apply NoDup_singleton]. intros y Hy ->%list_elem_of_singleton. by apply Hx. Qed.

(** A task with its announcement, which waits. *)
Lemma orderly_task c b i : Orderly c → (∀ a, a ∈ binds c → same_binding b a = false) → (∀ p, p ∈ posts c → po_id p ≠ i) → fits b Waiting →
  Orderly (MkBoard (rows c) (binds c ++ [b]) (posts c ++ [MkPost i (b_task b) Waiting (thread_of b)]) (homes c)).
Proof.
  intros H Hb Hi Hf. assert (Hsame : ∀ a, a ∈ binds c → b_task a ≠ b_task b ∧ (b_scope a, b_key a) ≠ (b_scope b, b_key b) ∧ (b_agent a, b_room a, b_thread a) ≠ (b_agent b, b_room b, b_thread b)).
  { intros a Ha. specialize (Hb a Ha). apply orb_false_iff in Hb as [[H1 H2]%orb_false_iff H3]. split_and!.
    - intros E. by rewrite E, String.eqb_refl in H1.
    - intros [= E1 E2]. by rewrite E1, E2, !String.eqb_refl in H2.
    - intros [= E1 E2 E3]. by rewrite E1, E2, E3, !String.eqb_refl in H3. }
  split; cbn.
  - apply NoDup_snoc; [apply H|]. intros (a & E & Ha)%list_elem_of_fmap. by destruct (Hsame a Ha) as (? & _).
  - apply NoDup_snoc; [apply H|]. intros (a & E & Ha)%list_elem_of_fmap. by destruct (Hsame a Ha) as (_ & ? & _).
  - apply NoDup_snoc; [apply H|]. intros (a & E & Ha)%list_elem_of_fmap. by destruct (Hsame a Ha) as (_ & _ & ?).
  - apply NoDup_snoc; [apply H|]. intros (p & E & Hp)%list_elem_of_fmap. by apply (Hi p Hp).
  - apply NoDup_snoc; [apply H|]. intros (p & E & Hp)%list_elem_of_fmap. destruct (or_back _ H p Hp) as (a & Ha & Ea). destruct (Hsame a Ha) as (Hne & _). apply Hne. cbn in E. congruence.
  - intros a [Ha| ->%list_elem_of_singleton]%elem_of_app; [|exists (MkPost i (b_task b) Waiting (thread_of b)); split_and!; [apply elem_of_app; right; by left|done..]].
    destruct (or_post _ H a Ha) as (p & Hp & ?). exists p. split; [apply elem_of_app; by left|done].
  - intros p [Hp| ->%list_elem_of_singleton]%elem_of_app; [|exists b; split; [apply elem_of_app; right; by left|done]].
    destruct (or_back _ H p Hp) as (a & Ha & ?). exists a. split; [apply elem_of_app; by left|done].
  - intros r Hr. eapply covered_mono; [|done|by apply (or_rows _ H)]. intros a Ha ?. exists a. split_and!; [apply elem_of_app; by left|done..].
Qed.

Lemma map_update_same {A B} (k : A → B) (q : A → bool) (g : A → A) l : (∀ x, k (g x) = k x) → List.map k (update_where q g l) = List.map k l.
Proof. intros H. unfold update_where. rewrite map_map. apply map_ext. intros x. by destruct (q x). Qed.

(** The fate of an announcement that waits, and what it makes of the task. *)
Lemma orderly_fate c p f g : Orderly c → p ∈ posts c → po_fate p = Waiting → (∀ b, fits b Waiting → fits (g b) f) →
  (∀ b, b_task (g b) = b_task b ∧ b_scope (g b) = b_scope b ∧ b_key (g b) = b_key b ∧ b_agent (g b) = b_agent b ∧ b_room (g b) = b_room b ∧ b_thread (g b) = b_thread b) →
  Orderly (MkBoard (rows c) (update_where (λ b, String.eqb (b_task b) (po_task p)) g (binds c)) (update_where (λ q, String.eqb (po_id q) (po_id p)) (λ q, MkPost (po_id q) (po_task q) f (po_at q)) (posts c)) (homes c)).
Proof.
  intros H Hp Hw Hf Hg.
  assert (Hid : ∀ q, q ∈ posts c → po_id q = po_id p → q = p) by (intros q Hq E; by apply (P.NoDup_map_inj po_id (posts c)); [apply H|..]).
  assert (Htask : ∀ q, q ∈ posts c → po_task q = po_task p → q = p) by (intros q Hq E; by apply (P.NoDup_map_inj po_task (posts c)); [apply H|..]).
  assert (Hpend : ∀ b, b ∈ binds c → b_task b = po_task p → fits b Waiting).
  { intros b Hb E. destruct (or_post _ H b Hb) as (q & Hq & Eq & _ & Hfit). by rewrite (Htask q Hq), Hw in Hfit; [|congruence]. }
  split; cbn.
  - rewrite map_update_same by apply Hg. apply H.
  - rewrite map_update_same; [apply H|]. intros b. by destruct (Hg b) as (_ & -> & -> & _).
  - rewrite map_update_same; [apply H|]. intros b. by destruct (Hg b) as (_ & _ & _ & -> & -> & ->).
  - rewrite map_update_same by done. apply H.
  - rewrite map_update_same by done. apply H.
  - intros b' (b & Hb & ->)%P.elem_update. destruct (String.eqb_spec (b_task b) (po_task p)) as [E|E].
    + destruct (or_post _ H b Hb) as (q & Hq & Eq & Ea & _). rewrite (Htask q Hq) in Ea by congruence. destruct (Hg b) as (G1 & _ & _ & _ & G2 & G3).
      exists (MkPost (po_id p) (po_task p) f (po_at p)). split_and!; [|by rewrite G1|by unfold thread_of; rewrite G2, G3|by apply Hf, Hpend].
      apply P.elem_update. exists p. by rewrite String.eqb_refl.
    + destruct (or_post _ H b Hb) as (q & Hq & Eq & Hfit). exists q. split_and!; [|done|apply Hfit..]. apply P.elem_update. exists q. split; [done|].
      destruct (String.eqb_spec (po_id q) (po_id p)) as [Ei|]; [|done]. rewrite (Hid q Hq Ei) in Eq. congruence.
  - intros q' (q & Hq & ->)%P.elem_update. destruct (or_back _ H q Hq) as (b & Hb & E). exists (if String.eqb (b_task b) (po_task p) then g b else b).
    split; [apply P.elem_update; by exists b|]. transitivity (b_task b); [by destruct (String.eqb _ _); [apply Hg|]|]. by destruct (String.eqb (po_id q) _).
  - intros r Hr. eapply covered_mono; [|done|by apply (or_rows _ H)]. intros b Hb Hs. exists b. split_and!; [|done..]. apply P.elem_update. exists b. split; [done|].
    destruct (String.eqb_spec (b_task b) (po_task p)) as [E|]; [|done]. destruct (Hpend b Hb E) as [Hs' _]. by rewrite Hs in Hs'.
Qed.

Lemma orderly_delete c t : Orderly c → (∀ r, r ∈ rows c → ro_task r ≠ Some t) →
  Orderly (MkBoard (rows c) (delete_where (λ b, String.eqb (b_task b) t) (binds c)) (delete_where (λ p, String.eqb (po_task p) t) (posts c)) (homes c)).
Proof.
  intros H Hr. split; cbn; try (apply P.NoDup_map_filter, H).
  - intros b [Hb Hn]%P.elem_delete. destruct (or_post _ H b Hb) as (p & Hp & E & ?). exists p. split; [|done]. apply P.elem_delete. by rewrite E.
  - intros p [Hp Hn]%P.elem_delete. destruct (or_back _ H p Hp) as (b & Hb & E). exists b. split; [|done]. apply P.elem_delete. by rewrite E.
  - intros r Hin t' Hw Ht. destruct (or_rows _ H r Hin t' Hw Ht) as (b & Hb & E & ?). exists b. split; [|done]. apply P.elem_delete. split; [done|]. apply String.eqb_neq. rewrite E. intros ->. by apply (Hr r Hin).
Qed.

(** ** What the calls do to the board *)

(** [m] keeps the board in order. *)
Definition orderly {A} (m : M A) (s : DB) : Prop := wp m (λ _ s', Orderly (board s')) (λ s', Orderly (board s')) s.

Lemma orderly_stable {A} (m : M A) s : Stable board m → Orderly (board s) → orderly m s.
Proof. intros Hm H. unfold orderly, wp. specialize (Hm s). destruct (m s) as [[[]|a] s']; cbn in Hm; by rewrite ?Hm. Qed.

Lemma orderly_bind {A B} (m : M A) (k : A → M B) s : Stable board m → Orderly (board s) → (∀ a s', board s' = board s → orderly (k a) s') → orderly (m ≫= k) s.
Proof. intros Hm H Hk. apply (wp_stable board); [done|by intros s' ->|]. exact Hk. Qed.

Lemma orderly_guarded {A} (m : M A) s : Orderly (board s) → orderly m s → Orderly (board (guarded m s).2).
Proof. unfold orderly, wp, guarded, transaction. intros Hs H. destruct (m s) as [[[]|a] s']; done. Qed.

Lemma orderly_transaction {A} (m : M A) s : Orderly (board s) → orderly m s → Orderly (board (transaction m s).2).
Proof. unfold orderly, wp, transaction. intros Hs H. destruct (m s) as [[[]|a] s']; done. Qed.

Lemma keeps_rows q f : (∀ d, row_of (f d) = row_of d) → Stable board (modify (λ s, s <| dispatches := update_where q f (dispatches s) |>)).
Proof. intros H s. unfold board. cbn. by rewrite map_update_same. Qed.
Lemma keeps_set_dispatch i f : (∀ d, row_of (f d) = row_of d) → Stable board (set_dispatch i f).
Proof. intros H. by apply keeps_rows. Qed.
#[local] Hint Extern 4 (Stable board (modify _)) => (apply keeps_rows; intros []; reflexivity) : quiet.
#[local] Hint Extern 3 (Stable board (set_dispatch _ _)) => (apply keeps_set_dispatch; intros []; reflexivity) : quiet.
#[local] Hint Extern 3 (Stable board (revoke _ _)) => (intros ?; reflexivity) : quiet.
#[local] Hint Extern 3 (Stable board (release _)) => (intros ?; reflexivity) : quiet.
#[local] Hint Extern 3 (Stable board (set_resource _ _)) => (intros ?; reflexivity) : quiet.
#[local] Hint Extern 3 (Stable board (handled _ _ _)) => (intros ?; reflexivity) : quiet.

Section calls.
Context (num_str : num → string) (sha256 : string → string) (toISOString : Z → string) (dateParse : string → num) (eventRetention : Z).
#[local] Hint Resolve deaf_emit deaf_insertNotice deaf_notice deaf_activity deaf_board : quiet.

Lemma keeps_checked now i : Stable board (checked num_str sha256 now i).
Proof. unfold DispatchRouter.checked. apply stable_bind; [done|]. by intros []. Qed.
Lemma keeps_may_write x task : Stable board (may_write x task).
Proof. unfold may_write. eauto 10 with quiet. Qed.
Lemma keeps_ensureResource k i : Stable board (ensureResource k i).
Proof. unfold ensureResource. eauto with quiet. Qed.
Lemma keeps_assign now d x m : Stable board (assign now d x m).
Proof. unfold assign. eauto with quiet. Qed.
#[local] Hint Resolve keeps_checked keeps_may_write keeps_ensureResource keeps_assign : quiet.

Lemma keeps_register i l p r b : Stable board (registerWorkspace i l p r b).
Proof. unfold registerWorkspace. eauto 25 with quiet. Qed.

Lemma keeps_available now d rs : Stable board (available num_str sha256 eventRetention now d rs).
Proof. induction rs as [|r rs IH]; [done|]. cbn [available]. eauto 15 with quiet. Qed.
#[local] Hint Resolve keeps_available : quiet.

Lemma keeps_taskGate now d : Stable board (taskGate num_str sha256 eventRetention now d).
Proof. unfold taskGate. eauto 15 with quiet. Qed.
Lemma keeps_reopen now d f : Stable board (reopen toISOString eventRetention now d f).
Proof. unfold reopen. destruct f as [[]|]; eauto 15 with quiet. Qed.
Lemma keeps_lease now r a b raw d : Stable board (lease num_str sha256 eventRetention now r a b raw d).
Proof. unfold lease. eauto 15 with quiet. Qed.
#[local] Hint Resolve keeps_taskGate keeps_reopen keeps_lease : quiet.

Lemma keeps_claimRows now r a b raw l : Stable board (claimRows num_str sha256 toISOString eventRetention now r a b raw l).
Proof. induction l as [|d l IH]; [done|]. cbn [claimRows]. apply stable_bind; [unfold claimRow; eauto 20 with quiet|]. by intros []. Qed.
#[local] Hint Resolve keeps_claimRows : quiet.

Lemma keeps_claim now raw i : Stable board (claimDispatch num_str sha256 toISOString eventRetention now raw i).
Proof. unfold claimDispatch. eauto 20 with quiet. Qed.

Lemma keeps_take now i c : Stable board (takePayload num_str sha256 toISOString eventRetention now i c).
Proof. unfold takePayload. eauto 20 with quiet. Qed.

Lemma keeps_ack now i a : Stable board (acknowledgeRunnerEffect num_str sha256 eventRetention now i a).
Proof. unfold acknowledgeRunnerEffect. eauto 20 with quiet. Qed.
Lemma keeps_active now i e : Stable board (recordRunnerActivity num_str sha256 eventRetention now i e).
Proof. unfold recordRunnerActivity. eauto 20 with quiet. Qed.
Lemma keeps_park now i p : Stable board (parkForApproval num_str sha256 eventRetention now i p).
Proof. unfold parkForApproval. eauto 25 with quiet. Qed.
Lemma keeps_verdict now v : Stable board (apply_verdict now v).
Proof. unfold apply_verdict. eauto 25 with quiet. Qed.
#[local] Hint Resolve keeps_verdict : quiet.
Lemma keeps_record now e a d o b : Stable board (recordApprovalDecision num_str sha256 eventRetention now e a d o b).
Proof. unfold recordApprovalDecision. eauto 25 with quiet. Qed.
Lemma keeps_reconcile now a e b : Stable board (reconcileApprovalDecision num_str sha256 eventRetention now a e b).
Proof. unfold reconcileApprovalDecision. eauto 25 with quiet. Qed.
Lemma keeps_resume now i a o : Stable board (resumeAfterApproval num_str sha256 eventRetention now i a o).
Proof. unfold resumeAfterApproval. eauto 25 with quiet. Qed.

Lemma keeps_quarantine w r d : Stable board (quarantine w r d).
Proof. by intros s. Qed.
Lemma keeps_block now d : Stable board (block toISOString now d).
Proof. unfold block. eauto with quiet. Qed.
Lemma keeps_uncertain now d : Stable board (uncertain num_str sha256 eventRetention now d).
Proof. unfold uncertain. eauto with quiet. Qed.
Lemma keeps_queueReply now u d x : Stable board (queueReply num_str sha256 now u d x).
Proof. unfold queueReply. eauto 20 with quiet. Qed.
Lemma keeps_fence now i y : Stable board (fenceOutput eventRetention now i y).
Proof. unfold fenceOutput. destruct (k_dispatch i), (output_of y); eauto 12 with quiet. Qed.
#[local] Hint Resolve keeps_quarantine keeps_block keeps_uncertain keeps_queueReply keeps_fence : quiet.
Lemma keeps_settled now u d y : Stable board (settled num_str sha256 toISOString eventRetention now u d y).
Proof. unfold settled. eauto 25 with quiet. Qed.
Lemma keeps_unknown now d r : Stable board (settleUnknownInternal num_str sha256 toISOString eventRetention now d r).
Proof. unfold settleUnknownInternal. eauto 25 with quiet. Qed.
#[local] Hint Resolve keeps_settled keeps_unknown : quiet.
Lemma keeps_settle now u i y : Stable board (settleAndRelease num_str sha256 toISOString eventRetention now u i y).
Proof. unfold settleAndRelease. eauto 25 with quiet. Qed.
Lemma keeps_cancel now i r : Stable board (cancelBeforeStart num_str sha256 eventRetention now i r).
Proof.
  unfold cancelBeforeStart. apply stable_guarded. do 3 (apply stable_bind; [eauto with quiet|intros ?]). apply stable_if; [done|].
  do 3 (apply stable_bind; [eauto with quiet|intros ?]). apply stable_bind; [apply stable_when, (deaf_notice _ _ _ board)|intros _]. eauto with quiet.
Qed.
Lemma keeps_requeue now i d r : Stable board (requeueBeforeStart num_str sha256 eventRetention now i d r).
Proof.
  unfold requeueBeforeStart. apply stable_guarded. apply stable_bind; [eauto with quiet|intros x]. apply stable_if; [done|]. do 4 (apply stable_bind; [eauto with quiet|intros ?]).
  apply stable_bind; [apply (deaf_notice _ _ _ board)|intros _]. eauto with quiet.
Qed.
Lemma keeps_mark now i r : Stable board (markOutcomeUnknown num_str sha256 toISOString eventRetention now i r).
Proof. unfold markOutcomeUnknown. eauto 25 with quiet. Qed.
Lemma keeps_inspected now d q t : Stable board (inspected num_str sha256 now d q t).
Proof. unfold inspected. eauto 20 with quiet. Qed.
#[local] Hint Resolve keeps_inspected : quiet.
Lemma keeps_inspect now u raw i t : Stable board (beginOutcomeInspection num_str sha256 eventRetention now u raw i t).
Proof. unfold beginOutcomeInspection. apply stable_guarded. eauto 25 with quiet. Qed.
Lemma keeps_clear now i : Stable board (clearWorkspaceDirty eventRetention now i).
Proof. unfold clearWorkspaceDirty. eauto 25 with quiet. Qed.
Lemma keeps_claimReply now raw ms : Stable board (claimReplyCommand num_str sha256 now raw ms).
Proof. unfold claimReplyCommand. eauto 25 with quiet. Qed.
Lemma keeps_delivered now i k e : Stable board (recordReplyDelivery num_str sha256 eventRetention now i k e).
Proof. unfold recordReplyDelivery, recordNoticeDelivery, set_notice, set_reply. eauto 25 with quiet. Qed.
Lemma keeps_failed now i k e : Stable board (recordReplyFailure num_str sha256 eventRetention now i k e).
Proof. unfold recordReplyFailure, recordNoticeFailure, set_notice, set_reply. eauto 25 with quiet. Qed.

Lemma keeps_requeued now d : Stable board (requeued eventRetention now d).
Proof. unfold requeued. eauto 10 with quiet. Qed.

(** A claim of an announcement that is overdue waits again. *)
Lemma keeps_overdue now f g : Stable board (modify (λ s, s <| orders := update_where (λ g, overdue now (g_state g) (g_until g)) (λ g, g <| g_state := OPending |> <| g_token := None |> <| g_until := None |>) (orders s) |>
  <| replies := f s |> <| notices := g s |>)).
Proof.
  intros s. unfold board. cbn. f_equal. unfold update_where. rewrite map_map. apply map_ext. intros x. destruct (overdue _ _ _) eqn:E; [|done].
  apply andb_true_iff in E as [E%bool_decide_eq_true _]. unfold post_of, fate_of. cbn. by rewrite E.
Qed.

Lemma keeps_restart now : Stable board (reconcileOnStart num_str sha256 toISOString eventRetention now).
Proof.
  unfold reconcileOnStart. apply stable_transaction. apply stable_bind; [done|intros l]. apply stable_bind; [apply stable_each; intros d; apply keeps_requeued|intros _].
  apply stable_bind; [done|intros l']. apply stable_bind; [apply stable_each; intros d; eauto with quiet|intros _]. apply stable_bind; [done|intros n]. apply stable_bind; [apply keeps_overdue|done].
Qed.

(** *** Calls that queue dispatches *)

Ltac quietly a s H := apply orderly_bind; [eauto 12 with quiet|assumption|intros a s H; rewrite <-H in *].
Ltac pass H := apply wp_if; [assumption|intros H].

Lemma home_in i x s : sessionOf i s = Some x → s_id x = i ∧ (i, s_agent x, s_room x, s_thread x) ∈ homes (board s).
Proof.
  intros H. pose proof (P.find_id s_id _ _ _ H) as Hi. split; [done|]. apply P.find_elem in H. cbn. rewrite <-Hi. apply list_elem_of_In, (in_map home_of), list_elem_of_In, H.
Qed.

(** Who may write for a task writes in its thread. *)
Lemma may_write_wp x task s : wp (may_write x task) (λ _ s', s' = s ∧ ∀ t, task = Some t → ∃ b, b ∈ bindings s ∧ b_task b = t ∧ b_state b = "active" ∧
  s_agent x = b_agent b ∧ s_room x = b_room b ∧ s_thread x = Some (b_thread b)) (λ s', s' = s) s.
Proof.
  unfold may_write. destruct task as [t|]; [|apply wp_if; [done|]; intros _; by apply wp_ret]. apply wp_gets, wp_found; [done|]. intros b Hb. apply wp_if; [done|]. intros [Hs _]%orb_false_iff.
  apply wp_if; [done|]. intros [[Ha Hr]%orb_false_iff Ht]%orb_false_iff. apply negb_false_iff in Hs, Ha, Hr, Ht. apply String.eqb_eq in Hs, Ha, Hr. apply wp_ret. split; [done|]. intros t' [= <-].
  exists b. split_and!; [by apply P.find_elem in Hb|by apply (P.find_id b_task) in Hb|done..|]. unfold opt_eq in Ht. destruct (s_thread x); [|done]. by apply String.eqb_eq in Ht as ->.
Qed.

Lemma insert_dispatch_orderly {A} d (k : unit → M A) Q R s : Orderly (board s) → covered (binds (board s)) (homes (board s)) (row_of d) →
  (∀ s', Orderly (board s') → wp (k tt) Q R s') → wp (insert_dispatch d ≫= k) Q R s.
Proof.
  intros H Hd Hk. unfold insert_dispatch. apply wp_insert. intros _. apply Hk. set (s' := s <| dispatches := _ |>).
  assert (E : board s' = MkBoard (rows (board s) ++ [row_of d]) (binds (board s)) (posts (board s)) (homes (board s))) by (unfold board; cbn; by rewrite map_app).
  rewrite E. by apply orderly_row.
Qed.

Lemma enqueue_orderly now uuid i s : Orderly (board s) → Orderly (board (enqueueDispatch eventRetention now uuid i s).2).
Proof.
  intros H. apply orderly_guarded; [done|]. apply orderly_bind; [eauto with quiet|done|]. intros session s1 E1. rewrite <-E1 in H. apply wp_gets. apply wp_found; [exact H|]. intros x Hx.
  apply home_in in Hx as [Hid Hx]. pass H2. quietly u s2 E2. set (task := optionalText (q_task i) 255).
  apply wp_bind. apply (wp_mono _ (λ _ s', s' = s2 ∧ covered (binds (board s2)) (homes (board s2)) (MkRow uuid session task (q_write i))) _ (λ s', s' = s2)); [| |by intros s' ->].
  { destruct (q_write i); cbn [when]; [|by apply wp_ret]. eapply wp_mono; [apply may_write_wp| |done]. intros _ s' [-> Hw]. split; [done|]. intros t _ Ht. destruct (Hw t Ht) as (b & Hb & Et & Es & Ea & Er & Eh).
    exists b. split_and!; [done..|]. cbn [ro_session]. by rewrite <-Ea, <-Er, <-Eh. }
  intros _ s' [-> Hc]. pass H3. quietly named s4 E4. pass H4. apply orderly_bind; [destruct (optionalText _ _); eauto with quiet|done|]. intros _ s5 E5. rewrite <-E5 in *. quietly v s6 E6.
  apply wp_gets, wp_gets. destruct (head (oldest _)) as [d|].
  - apply orderly_stable; [|done]. eauto 12 with quiet.
  - destruct (_ =? 0)%nat; [apply wp_gets; destruct (head (newest _)); exact H|]. apply insert_dispatch_orderly; [done|exact Hc|]. intros s7 H7. apply orderly_stable; [|done]. eauto 12 with quiet.
Qed.

Lemma continued_orderly now uuid d x r a s : Orderly (board s) → row_of d ∈ rows (board s) → orderly (continued num_str sha256 toISOString now uuid d x r a) s.
Proof.
  intros H Hd. assert (Hc := or_rows _ H _ Hd). unfold continued. do 2 (apply orderly_bind; [eauto with quiet|done|]; intros ? ? E; rewrite <-E in *; clear E).
  apply orderly_bind; [destruct (truthy_opt _); eauto with quiet|done|]. intros _ s3 E3. rewrite <-E3 in *. apply wp_gets. set (queued := head _).
  apply orderly_bind; [destruct queued; eauto with quiet|done|]. intros _ s4 E4. rewrite <-E4 in *.
  assert (Hrest : ∀ s', Orderly (board s') → orderly (pending ← gets (pendingMessages (truthy_opt (d_task d)) (s_id x)); each (assign now (match queued with Some e => d_id e | None => uuid end) (s_id x)) pending ;;
    (match truthy_opt (d_task d) with
     | Some t => set_task t (λ _, true) (λ t, with_status "in_progress" t <| t_started := match t_started t with Some a => Some a | None => Some (toISOString now) end |>
         <| t_completed := None |> <| t_waiting := None |> <| t_until := None |> <| t_updated := toISOString now |>)
     | None => mret tt end) ;; mret (match queued with Some e => d_id e | None => uuid end)) s').
  { intros st Hst. apply orderly_stable; [|done]. apply stable_bind; [done|intros l]. apply stable_bind; [eauto with quiet|intros _]. apply stable_bind; [destruct (truthy_opt _); eauto with quiet|done]. }
  destruct queued as [e|]; [|by apply insert_dispatch_orderly].
  apply orderly_bind; [apply keeps_rows; by intros []|done|]. intros _ s5 E5. apply Hrest. by rewrite E5.
Qed.

Lemma resolve_orderly now uuid i s : Orderly (board s) → Orderly (board (resolveOutcomeUnknown num_str sha256 toISOString eventRetention now uuid i s).2).
Proof.
  intros H. apply orderly_guarded; [done|]. quietly j s1 E1. quietly q s2 E2. quietly token s3 E3. quietly request s4 E4. quietly note s5 E5. quietly a s6 E6.
  pass H7. pass H8. apply wp_gets. destruct (List.find _ _) as [o|]; [apply wp_if; [done|]; intros _; by apply wp_gets, wp_ret|].
  apply wp_gets. pass H9. apply wp_gets, wp_found; [done|]. intros d Hd.
  assert (Hrow : row_of d ∈ rows (board s6)) by (apply list_elem_of_In, (in_map row_of), list_elem_of_In; by apply P.find_elem in Hd). clear Hd.
  pass H10. pass H11. apply orderly_bind; [eauto with quiet|done|]. intros w s7 E7. rewrite <-E7 in *. apply wp_gets. pass H12. apply wp_gets, wp_found; [done|]. intros x _.
  apply orderly_bind; [destruct (truthy_opt _); eauto 12 with quiet|done|]. intros _ s8 E8. rewrite <-E8 in *. apply orderly_bind; [destruct w; eauto with quiet|done|]. intros _ s9 E9. rewrite <-E9 in *.
  apply wp_bind. apply (wp_mono _ (λ _ s', Orderly (board s')) _ (λ s', Orderly (board s'))); [| |done].
  - unfold acted. destruct a; [|apply orderly_stable; [destruct (truthy_opt _); eauto with quiet|done]..]. apply wp_bind. eapply wp_mono; [by apply continued_orderly| |done]. intros u s' H'. by apply wp_ret.
  - intros r s10 H10'. apply orderly_stable; [|done]. apply stable_bind; [eauto with quiet|intros _]. apply stable_bind; [eauto with quiet|intros _].
    apply stable_bind; [apply (deaf_notice _ _ _ board)|intros _]. eauto with quiet.
Qed.

(** *** Calls of the intake *)

Lemma orderly_result {A} (m : M A) s : Orderly (board (m s).2) → orderly m s.
Proof. unfold orderly, wp. by destruct (m s) as [[[]|a] s']. Qed.

Lemma keeps_set_session i f : (∀ x, home_of (f x) = home_of x) → Stable board (set_session i f).
Proof. intros H s. unfold board. cbn. by rewrite map_update_same. Qed.
#[local] Hint Extern 3 (Stable board (set_session _ _)) => (apply keeps_set_session; intros []; reflexivity) : quiet.

(** A session is found, or it is new. *)
Definition grown (c c' : Board) : Prop := c' = c ∨ ∃ h, c' = MkBoard (rows c) (binds c) (posts c) (homes c ++ [h]).

Lemma grown_orderly c c' : grown c c' → Orderly c → Orderly c'.
Proof. intros [->|[h ->]] H; [done|by apply orderly_home]. Qed.

Lemma resolveSession_wp now uuid a n r t s : wp (resolveSessionInternal eventRetention now uuid a n r t) (λ _ s', grown (board s) (board s')) (λ s', board s' = board s) s.
Proof.
  unfold resolveSessionInternal. do 3 (apply (wp_stable board); [eauto with quiet|done|]; intros ? ? E; rewrite <-E in *; clear E). apply wp_gets. destruct (sessionAt _ _ _ _) as [x|].
  - apply (wp_last board); [eauto 10 with quiet|eauto 10 with firm|]. intros _ s9 E. by left.
  - apply wp_insert. intros _. set (s2 := _ <| sessions := _ |>). apply (wp_last board); [eauto 10 with quiet|apply firm_bind; [done|done]|]. intros _ s9 ->. right. eexists. unfold board. cbn. by rewrite map_app.
Qed.

Lemma resolveSession_orderly {A} now uuid a n r t (k : Session * bool → M A) s : Orderly (board s) → (∀ x s', grown (board s) (board s') → Orderly (board s') → orderly (k x) s') →
  orderly (resolveSessionInternal eventRetention now uuid a n r t ≫= k) s.
Proof.
  intros H Hk. apply wp_bind. eapply wp_mono; [apply resolveSession_wp| |by intros s' ->]. intros x s' G. apply Hk; [done|exact (grown_orderly _ _ G H)].
Qed.

Lemma overrides_orderly now uuid i s : Orderly (board s) → Orderly (board (setSessionOverrides eventRetention now uuid i s).2).
Proof.
  intros H. apply orderly_guarded; [done|]. quietly b s1 E1. do 3 (apply wp_if; [exact H|intros _]). apply resolveSession_orderly; [done|]. intros x s2 _ H2.
  apply orderly_stable; [|done]. eauto 10 with quiet.
Qed.

Lemma session_orderly now uuid a n r t s : Orderly (board s) → Orderly (board (resolveSession eventRetention now uuid a n r t s).2).
Proof. intros H. apply orderly_transaction; [done|]. apply resolveSession_orderly; [done|]. intros x s' _ H'. by apply orderly_stable. Qed.

Lemma keeps_storeMessage now i : Stable board (storeMessageInternal num_str sha256 eventRetention now i).
Proof. unfold storeMessageInternal. eauto 12 with quiet. Qed.
#[local] Hint Resolve keeps_storeMessage : quiet.

Lemma ingest_orderly now uuid i s : Orderly (board s) → Orderly (board (ingestMessage num_str sha256 eventRetention now uuid i s).2).
Proof.
  intros H. apply orderly_guarded; [done|]. quietly m s1 E1. quietly r s2 E2. apply resolveSession_orderly; [done|]. intros x s3 _ H3. apply orderly_stable; [|done]. eauto 12 with quiet.
Qed.

Lemma keeps_in_its_room r m : Stable board (in_its_room r m).
Proof. unfold in_its_room. eauto with quiet. Qed.
Lemma keeps_insert_task t : Stable board (insert_task t).
Proof. unfold insert_task. eauto with quiet. Qed.
Lemma keeps_attach now b l n : Stable board (attach now b l n).
Proof. revert n. induction l as [|m l IH]; intros n; [done|]. cbn [attach]. apply stable_bind; [apply keeps_in_its_room|intros _]. eauto 12 with quiet. Qed.
#[local] Hint Resolve keeps_in_its_room keeps_insert_task keeps_attach : quiet.
Lemma keeps_attachTaskInputs now i : Stable board (attachTaskInputs num_str sha256 eventRetention now i).
Proof. unfold attachTaskInputs. eauto 20 with quiet. Qed.

Lemma intent_orderly now u u' i s : Orderly (board s) → Orderly (board (createTaskIntent num_str sha256 toISOString eventRetention now u u' i s).2).
Proof.
  intros H. apply orderly_guarded; [done|]. do 8 (apply orderly_bind; [eauto with quiet|assumption|]; intros ? ? E; rewrite <-E in *; clear E). apply wp_gets. destruct (List.find _ _) as [b|].
  { apply orderly_stable; [|done]. eauto 12 with quiet. }
  apply wp_gets. pass G1. apply wp_gets. pass G2. apply orderly_bind; [eauto with quiet|done|]. intros _ s9 E. rewrite <-E in *. clear E. apply wp_gets. pass G3. apply wp_gets. pass G4.
  apply orderly_bind; [eauto with quiet|done|]. intros _ z1 E. rewrite <-E in *. apply wp_insert. intros Hb. set (b := MkBinding _ _ _ _ _ _ _ _ _ _) in *. set (s2 := z1 <| bindings := _ |>).
  apply (wp_calm board); [eauto with quiet|eauto with firm|]. intros _ s3 E3. apply wp_insert. intros Hg. set (s4 := s3 <| orders := _ |>). apply orderly_stable; [eauto with quiet|].
  assert (E4 : board s4 = MkBoard (rows (board z1)) (binds (board z1) ++ [b]) (posts (board z1) ++ [MkPost ("matrix_" +:+ u') (b_task b) Waiting (thread_of b)]) (homes (board z1))).
  { transitivity (MkBoard (rows (board s3)) (binds (board s3)) (posts (board s3) ++ [MkPost ("matrix_" +:+ u') (b_task b) Waiting (thread_of b)]) (homes (board s3))); [|by rewrite E3].
    unfold board. cbn. by rewrite map_app. }
  rewrite E4. apply orderly_task; [done| | |done].
  - intros b' Ha. apply not_true_iff_false in Hb. apply not_true_iff_false. intros Hsame. apply Hb, existsb_exists. exists b'. split; [by apply list_elem_of_In|done].
  - intros p Hp Ei. assert (Hp3 : p ∈ posts (board s3)) by (rewrite E3; exact Hp). apply list_elem_of_In, in_map_iff in Hp3 as (g & <- & Hin). apply not_true_iff_false in Hg. apply Hg, existsb_exists.
    exists g. split; [done|]. cbn in Ei |- *. by rewrite Ei, String.eqb_refl.
Qed.

(** *** The announcement is delivered, or it is not *)

Lemma post_in s i g : orderOf i s = Some g → g_id g = i ∧ post_of g ∈ posts (board s).
Proof. intros H. split; [by apply (P.find_id g_id) in H|]. apply P.find_elem in H. apply list_elem_of_In, (in_map post_of), list_elem_of_In, H. Qed.

(** What is written of a task and of its announcement together. *)
Lemma settle_orderly {A} i t (f : Order → Order) (g : Binding → Binding) w (k : unit → M A) s o : Orderly (board s) → post_of o ∈ posts (board s) → g_id o = i → g_task o = t → fate_of o = Waiting →
  (∀ o, post_of (f o) = MkPost (g_id o) (g_task o) w (address_of o)) → (∀ b, fits b Waiting → fits (g b) w) →
  (∀ b, b_task (g b) = b_task b ∧ b_scope (g b) = b_scope b ∧ b_key (g b) = b_key b ∧ b_agent (g b) = b_agent b ∧ b_room (g b) = b_room b ∧ b_thread (g b) = b_thread b) →
  (∀ s', Orderly (board s') → orderly (k tt) s') → orderly (set_order i f ;; set_binding t g ≫= k) s.
Proof.
  intros H Hin <- <- Hw Hf Hg Hb Hk. apply wp_modify, wp_modify, Hk. pose proof (orderly_fate _ _ w g H Hin Hw Hg Hb) as G. unfold board in G |- *. cbn in G |- *.
  by rewrite (map_update post_of _ (λ p, String.eqb (po_id p) (g_id o)) f (λ p, MkPost (po_id p) (po_task p) w (po_at p))).
Qed.

Lemma keeps_project now x l s : board (project now x l s) = board s.
Proof. unfold project. revert s. induction l as [|m l IH]; intros s; [done|]. cbn [foldl]. rewrite IH. by destruct (projected x m s). Qed.

Lemma current_waits g token : current_claim num_str sha256 g token = true → fate_of g = Waiting.
Proof. intros [E%bool_decide_eq_true _]%andb_true_iff. unfold fate_of. by rewrite E. Qed.

Lemma delivery_orderly now uuid i k e s : Orderly (board s) → Orderly (board (recordMatrixDelivery num_str sha256 eventRetention now uuid i k e s).2).
Proof.
  intros H. apply orderly_guarded; [done|]. quietly j s1 E1. quietly event s2 E2. apply wp_gets, wp_found; [done|]. intros g Hg. apply post_in in Hg as [Hid Hg]. apply wp_gets, wp_found; [done|].
  intros b Hb%(P.find_id b_task). apply wp_gets, wp_found; [done|]. intros name _. destruct (bool_decide (g_state g = ODelivered)).
  { apply orderly_stable; [|done]. eauto 12 with quiet. }
  pass Hc. apply negb_false_iff, current_waits in Hc. apply resolveSession_orderly; [done|]. intros x s3 G H3.
  eapply (settle_orderly _ _ _ _ (Announced (Some event)) _ _ g); [done|by destruct G as [->|[? ->]]|done|done|done|done|done|done|]. intros s4 H4. apply orderly_stable; [|done].
  apply stable_bind; [eauto with quiet|intros _]. apply stable_bind; [intros ?; apply keeps_project|intros _]. eauto with quiet.
Qed.

Lemma keeps_taskNotice now t k b : Stable board (enqueueTaskNotice num_str sha256 eventRetention now t k b).
Proof.
  unfold enqueueTaskNotice. apply stable_bind; [done|]. intros x. apply stable_bind; [done|]. intros y. destruct x; [|done].
  destruct (match y with Some _ => _ | None => _ end); [|done]. apply (deaf_insertNotice _ _ _ board).
Qed.
#[local] Hint Resolve keeps_taskNotice : quiet.

Lemma failure_orderly now i k c s : Orderly (board s) → Orderly (board (recordMatrixFailure num_str sha256 eventRetention now i k c s).2).
Proof.
  intros H. apply orderly_guarded; [done|]. quietly j s1 E1. quietly c2 s2 E2. apply wp_gets, wp_found; [done|]. intros g Hg. apply post_in in Hg as [Hid Hg].
  destruct (bool_decide (g_state g = OFailed)); [by apply orderly_stable|]. pass Hc. apply negb_false_iff, current_waits in Hc.
  eapply (settle_orderly _ _ _ _ Lost _ _ g); [done|done|done|done|done|done| |done|].
  - intros b [_ Ha]. by split.
  - intros s3 H3. apply orderly_stable; [|done]. apply stable_bind; [apply keeps_taskNotice|intros _]. eauto with quiet.
Qed.

Lemma command_orderly now raw ms s : Orderly (board s) → Orderly (board (claimMatrixCommand num_str sha256 dateParse now raw ms s).2).
Proof.
  intros H. apply orderly_transaction; [done|]. apply wp_gets. destruct (List.find _ (orders s)) as [g|] eqn:Hg; [|by apply wp_ret]. apply find_some in Hg as [Hin Hc].
  apply wp_modify. set (s1 := s <| orders := _ |>).
  assert (E : board s1 = board s); [|apply orderly_stable; [|by rewrite E]; apply stable_if; [done|]; apply stable_bind; [done|intros ?; apply stable_ret]].
  unfold board, s1. cbn. f_equal. unfold update_where. rewrite map_map. apply map_ext_in. intros x Hx. destruct (String.eqb_spec (g_id x) (g_id g)) as [Ei|]; [|done].
  assert (Ep : post_of x = post_of g).
  { apply (P.NoDup_map_inj po_id (posts (board s))); [apply H|by apply list_elem_of_In, in_map..|done]. }
  assert (Hw : fate_of g = Waiting) by (unfold claimable in Hc; unfold fate_of; by destruct (g_state g)). unfold post_of in *. cbn. injection Ep as _ _ Ef _. by rewrite Ef, Hw.
Qed.

Lemma delete_orderly i s : Orderly (board s) → Orderly (board (deleteTask i s).2).
Proof.
  intros H. apply orderly_transaction; [done|]. apply wp_gets. destruct (taskOf i s) as [t|]; [|by apply wp_ret]. apply wp_gets. destruct (_ || _) eqn:Hu; [done|]. apply orb_false_iff in Hu as [Hu _].
  apply wp_modify, wp_ret. assert (G : Orderly (MkBoard (rows (board s)) (delete_where (λ b, String.eqb (b_task b) i) (binds (board s))) (delete_where (λ p, String.eqb (po_task p) i) (posts (board s))) (homes (board s)))).
  { apply orderly_delete; [done|]. intros r Hr Et. apply list_elem_of_In, in_map_iff in Hr as (d & <- & Hd). cbn in Et. apply not_true_iff_false in Hu. apply Hu, existsb_exists. exists d.
    split; [done|]. rewrite Et. apply String.eqb_refl. }
  unfold board in G |- *. cbn in G |- *. by rewrite (map_delete post_of _ (λ p, String.eqb (po_task p) i)).
Qed.

(** *** What runners send *)

Lemma keeps_sessionById i : Stable board (sessionById i).
Proof. unfold sessionById. eauto with quiet. Qed.
#[local] Hint Resolve keeps_sessionById keeps_attachTaskInputs : quiet.

Lemma keeps_or_throw {A} (m : M A) : Stable board m → Stable board (or_throw m).
Proof. intros H s. unfold or_throw. specialize (H s). by destruct (m s) as [[[]|a] s']. Qed.

Lemma orderly_call {A B} (m : M A) (k : A → M B) s : Orderly (board (m s).2) → (∀ a s', Orderly (board s') → orderly (k a) s') → orderly (m ≫= k) s.
Proof. intros Hm Hk. apply wp_bind. unfold wp. destruct (m s) as [[[]|a] s']; try done. by apply Hk. Qed.

Lemma peer_orderly now uuid c i s : Orderly (board s) → Orderly (board (deliverPeerMessageFromDispatch num_str sha256 eventRetention now uuid c i s).2).
Proof.
  intros H. apply orderly_transaction; [done|]. quietly d s1 E1. pass H1. quietly x s2 E2. apply wp_found; [done|]. intros y _. apply wp_gets. pass H2. apply wp_found; [done|]. intros b _.
  quietly key s3 E3. apply wp_gets. pass H3. quietly body s4 E4. apply orderly_call; [by apply ingest_orderly|]. intros r s5 H5. apply orderly_stable; [|done].
  apply stable_bind; [apply keeps_or_throw, keeps_attachTaskInputs|done].
Qed.

Lemma delegate_orderly now u u' c i s : Orderly (board s) → Orderly (board (createTaskFromDispatch num_str sha256 toISOString eventRetention now u u' c i s).2).
Proof.
  intros H. apply orderly_guarded; [done|]. quietly d s1 E1. pass H1. pass H2. apply wp_gets, wp_found; [done|]. intros x _. apply wp_gets. quietly root s2 E2.
  apply orderly_bind; [apply stable_each; intros m; apply stable_bind; [done|intros v; by apply stable_if]|done|]. intros _ s3 E3. rewrite <-E3 in *.
  apply wp_gets, wp_found; [done|]. intros m _. apply wp_found; [done|]. intros ev _. quietly key s4 E4. by apply orderly_result, intent_orderly.
Qed.

(** *** The rest *)

Lemma keeps_sessionNotice now r t x k b : Stable board (queueSessionNotice num_str sha256 eventRetention now r t x k b).
Proof. unfold queueSessionNotice. apply stable_guarded. do 4 (apply stable_bind; [eauto with quiet|intros ?]). apply (deaf_insertNotice _ _ _ board). Qed.
Lemma keeps_summary now i x : Stable board (updateRollingSummary eventRetention now i x).
Proof. unfold updateRollingSummary. eauto 15 with quiet. Qed.
Lemma keeps_storeTask now i : Stable board (storeTaskMessage num_str sha256 eventRetention now i).
Proof. unfold storeTaskMessage. eauto with quiet. Qed.
Lemma keeps_dispatchFailure now t c : Stable board (recordTaskDispatchFailure num_str sha256 toISOString eventRetention now t c).
Proof. unfold recordTaskDispatchFailure. eauto 25 with quiet. Qed.
Lemma keeps_cursor now x c : Stable board (initializeIngestionCursor now x c).
Proof. unfold initializeIngestionCursor. eauto 10 with quiet. Qed.
Lemma keeps_advance now x c : Stable board (advanceIngestionCursor now x c).
Proof. unfold advanceIngestionCursor. eauto 10 with quiet. Qed.
End calls.

(** The questions change nothing. *)
Lemma questions_change_nothing (num_str : num → string) (sha256 : string → string) now i name agent room root task w source id :
  Stable (λ s, s) (sessionById id) ∧ Stable (λ s, s) (readIngestionCursor source) ∧ Stable (λ s, s) (findThreadTaskBinding agent room root) ∧
  Stable (λ s, s) (findActiveTaskBinding agent room root) ∧ Stable (λ s, s) (checkInboxForAgent num_str sha256 now i name) ∧ Stable (λ s, s) (listAgentDispatches agent) ∧
  Stable (λ s, s) (getLaunchDescriptor num_str sha256 now i) ∧ Stable (λ s, s) (authorizeTaskFromDispatch num_str sha256 now i task w).
Proof.
  assert (Hc : Stable (λ s, s) (checked num_str sha256 now i)) by (unfold DispatchRouter.checked; apply stable_bind; [done|by intros []]).
  split_and!; unfold sessionById, readIngestionCursor, findThreadTaskBinding, findActiveTaskBinding, checkInboxForAgent, checkInbox, listAgentDispatches, getLaunchDescriptor, authorizeTaskFromDispatch;
    eauto 25 using stable_bind with quiet.
Qed.

(** ** The whole router *)

(** A call of the router: of its dispatches, or of its intake. *)
Inductive call : Type :=
| Dispatching (o : op)
| Converse (now : Z) (uuid : string) (agent name room thread : jval)
| Override (now : Z) (uuid : string) (i : OverridesInput)
| Tell (now : Z) (room thread sender key body : jval)
| Summarise (now : Z) (session summary : jval)
| Begin (now : Z) (source cursor : jval)
| Advance (now : Z) (source cursor : jval)
| Store (now : Z) (i : MessageInput)
| Ingest (now : Z) (uuid : string) (i : MessageInput)
| Intend (now : Z) (uuid uuid' : string) (i : IntentInput)
| Attach (now : Z) (i : AttachInput)
| ClaimOrder (now : Z) (raw : string) (ms : Z)
| Announce (now : Z) (uuid : string) (id token event : jval)
| Fail_order (now : Z) (id token code : jval)
| Fail_task (now : Z) (task code : jval)
| Delete (task : string)
| Peer (now : Z) (uuid : string) (c : CapabilityInput) (i : PeerInput)
| Delegate (now : Z) (uuid uuid' : string) (c : CapabilityInput) (i : DelegateInput).

Section whole.
Context (num_str : num → string) (sha256 : string → string) (toISOString : Z → string) (dateParse : string → num) (eventRetention : Z).

Definition act (c : call) (s : DB) : list P.label * DB :=
  match c with
  | Dispatching o => perform num_str sha256 toISOString eventRetention o s
  | Converse now uuid a n r t => ([], (resolveSession eventRetention now uuid a n r t s).2)
  | Override now uuid i => ([], (setSessionOverrides eventRetention now uuid i s).2)
  | Tell now r t n k b => ([], (queueSessionNotice num_str sha256 eventRetention now r t n k b s).2)
  | Summarise now i x => ([], (updateRollingSummary eventRetention now i x s).2)
  | Begin now x c => ([], (initializeIngestionCursor now x c s).2)
  | Advance now x c => ([], (advanceIngestionCursor now x c s).2)
  | Store now i => ([], (storeTaskMessage num_str sha256 eventRetention now i s).2)
  | Ingest now uuid i => ([], (ingestMessage num_str sha256 eventRetention now uuid i s).2)
  | Intend now u u' i => ([], (createTaskIntent num_str sha256 toISOString eventRetention now u u' i s).2)
  | Attach now i => ([], (attachTaskInputs num_str sha256 eventRetention now i s).2)
  | ClaimOrder now raw ms => ([], (claimMatrixCommand num_str sha256 dateParse now raw ms s).2)
  | Announce now uuid i k e => ([], (recordMatrixDelivery num_str sha256 eventRetention now uuid i k e s).2)
  | Fail_order now i k c => ([], (recordMatrixFailure num_str sha256 eventRetention now i k c s).2)
  | Fail_task now t c => ([], (recordTaskDispatchFailure num_str sha256 toISOString eventRetention now t c s).2)
  | Delete t => ([], (deleteTask t s).2)
  | Peer now uuid c i => ([], (deliverPeerMessageFromDispatch num_str sha256 eventRetention now uuid c i s).2)
  | Delegate now u u' c i => ([], (createTaskFromDispatch num_str sha256 toISOString eventRetention now u u' c i s).2)
  end.

Definition sound_call (c : call) : bool := match c with Dispatching o => sound o | _ => true end.

(** The tables after some calls; what is done to the tables of tasks, notices and the like besides is left open. *)
Inductive lives : list P.label → DB → Prop :=
| lives_empty : lives [] empty
| lives_call tr s c : lives tr s → sound_call c = true → lives (tr ++ (act c s).1) (act c s).2
| lives_others tr s s' : lives tr s → core s' = core s → board s' = board s → lives tr s'.

Lemma act_quiet c s : match c with Dispatching _ => True | _ => (act c s).1 = [] ∧ core (act c s).2 = core s end.
Proof.
  destruct c; cbn [act fst snd]; try done; split; try done; revert s; change (∀ s, core (?m s).2 = core s) with (Quiet m).
  - unfold resolveSession. apply stable_transaction, stable_bind; [apply quiet_resolveSession|done].
  - apply quiet_overrides.
  - apply quiet_sessionNotice.
  - apply quiet_summary.
  - unfold initializeIngestionCursor. eauto 10 with quiet.
  - unfold advanceIngestionCursor. eauto 10 with quiet.
  - apply stable_guarded, quiet_storeMessage.
  - apply quiet_ingest.
  - apply quiet_intent.
  - apply quiet_attachTaskInputs.
  - apply quiet_claimCommand.
  - apply quiet_delivered.
  - apply quiet_failure.
  - apply quiet_dispatchFailure.
  - apply quiet_deleteTask.
  - apply quiet_peer.
  - apply quiet_delegate.
Qed.

(** What holds of the dispatches holds of the whole. *)
Lemma lives_reaches tr s : lives tr s → reaches num_str sha256 toISOString eventRetention tr s.
Proof.
  induction 1 as [|tr s c _ IH Hc|tr s s' _ IH E _]; [constructor| |by eapply reaches_others].
  pose proof (act_quiet c s) as Hq. destruct c; [by apply reaches_call|destruct Hq as [-> E]; rewrite app_nil_r; by eapply reaches_others..].
Qed.

Lemma stable_snd {A} (m : M A) s : Stable board m → Orderly (board s) → Orderly (board (m s).2).
Proof. intros Hm. by rewrite Hm. Qed.

Lemma perform_orderly o s : Orderly (board s) → Orderly (board (perform num_str sha256 toISOString eventRetention o s).2).
Proof.
  intros H. assert (Ha : ∀ A (m : M A) L, Orderly (board (m s).2) → Orderly (board (answer m L s).2)) by (intros A m L; unfold answer; by destruct (m s)).
  destruct o; cbn [perform]; apply Ha.
  - by apply enqueue_orderly.
  - by apply stable_snd; [apply keeps_register|].
  - by apply stable_snd; [apply keeps_claim|].
  - by apply stable_snd; [apply keeps_take|].
  - by apply stable_snd; [apply keeps_ack|].
  - by apply stable_snd; [apply keeps_active|].
  - by apply stable_snd; [apply keeps_park|].
  - by apply stable_snd; [apply keeps_record|].
  - by apply stable_snd; [apply keeps_reconcile|].
  - by apply stable_snd; [apply keeps_resume|].
  - by apply stable_snd; [apply keeps_settle|].
  - by apply stable_snd; [apply keeps_cancel|].
  - by apply stable_snd; [apply keeps_requeue|].
  - by apply stable_snd; [apply keeps_mark|].
  - by apply stable_snd; [apply keeps_inspect|].
  - by apply resolve_orderly.
  - by apply stable_snd; [apply keeps_clear|].
  - by apply stable_snd; [apply keeps_claimReply|].
  - by apply stable_snd; [apply keeps_delivered|].
  - by apply stable_snd; [apply keeps_failed|].
  - by apply stable_snd; [apply keeps_restart|].
Qed.

Lemma act_orderly c s : Orderly (board s) → Orderly (board (act c s).2).
Proof.
  intros H. destruct c; cbn [act snd].
  - by apply perform_orderly.
  - by apply session_orderly.
  - by apply overrides_orderly.
  - by apply stable_snd; [apply keeps_sessionNotice|].
  - by apply stable_snd; [apply keeps_summary|].
  - by apply stable_snd; [apply keeps_cursor|].
  - by apply stable_snd; [apply keeps_advance|].
  - by apply stable_snd; [apply keeps_storeTask|].
  - by apply ingest_orderly.
  - by apply intent_orderly.
  - by apply stable_snd; [apply keeps_attachTaskInputs|].
  - by apply command_orderly.
  - by apply delivery_orderly.
  - by apply failure_orderly.
  - by apply stable_snd; [apply keeps_dispatchFailure|].
  - by apply delete_orderly.
  - by apply peer_orderly.
  - by apply delegate_orderly.
Qed.

Lemma lives_orderly tr s : lives tr s → Orderly (board s).
Proof. induction 1 as [|tr s c _ IH _|tr s s' _ IH _ E]; [apply orderly_empty|by apply act_orderly|by rewrite E]. Qed.

(** ** Theorems *)

(** The announcement of a task is addressed to its room and thread, and the binding says what became of it. *)
Definition agrees (b : Binding) (g : Order) : Prop :=
  prop (g_payload g) "roomId" = JStr (b_room b) ∧ prop (g_payload g) "threadRootEventId" = JStr (b_thread b) ∧
  match g_state g with
  | OPending | OClaimed => b_state b = "pending_thread" ∧ b_anchor b = None
  | ODelivered => b_state b = "active" ∧ b_anchor b = g_event g ∧ is_Some (g_event g)
  | OFailed => b_state b = "thread_delivery_failed" ∧ b_anchor b = None
  end.

Lemma fits_agrees b g : address_of g = thread_of b → fits b (fate_of g) → agrees b g.
Proof. intros [= E1 E2]. unfold fits, fate_of, agrees. rewrite E1, E2. by destruct (g_state g). Qed.

Lemma post_inv s p : p ∈ posts (board s) → ∃ g, g ∈ orders s ∧ p = post_of g.
Proof. intros Hp. apply list_elem_of_In, in_map_iff in Hp as (g & <- & Hg). exists g. split; [by apply list_elem_of_In|done]. Qed.

Lemma announced_by s b : Orderly (board s) → b ∈ bindings s → ∃ g, g ∈ orders s ∧ g_task g = b_task b ∧ agrees b g.
Proof.
  intros H Hb. destruct (or_post _ H b Hb) as (p & (g & Hg & ->)%post_inv & E & Ea & Hf). exists g. split_and!; [done|done|by apply fits_agrees].
Qed.

(** C8. Every task that came in has exactly one announcement, addressed to its room and its thread: a request, a
    thread of an agent and an announcement each belong to one task, and the task is active exactly if the
    announcement was delivered, with that event as its anchor, whatever is retried, refused, claimed twice,
    restarted or deleted. *)
Theorem task_announcements_are_exact tr s : lives tr s →
  NoDup (List.map (λ b, (b_scope b, b_key b)) (bindings s)) ∧ NoDup (List.map (λ b, (b_agent b, b_room b, b_thread b)) (bindings s)) ∧
  NoDup (List.map b_task (bindings s)) ∧ NoDup (List.map g_task (orders s)) ∧
  (∀ b, b ∈ bindings s → ∃ g, g ∈ orders s ∧ g_task g = b_task b ∧ agrees b g) ∧ (∀ g, g ∈ orders s → ∃ b, b ∈ bindings s ∧ b_task b = g_task g ∧ agrees b g).
Proof.
  intros H%lives_orderly. split_and!; [apply H..| | |].
  - pose proof (or_once _ H) as Hn. cbn in Hn. by rewrite map_map in Hn.
  - intros b. by apply announced_by.
  - intros g Hg. assert (Hp : post_of g ∈ posts (board s)) by apply list_elem_of_In, in_map, list_elem_of_In, Hg. destruct (or_back _ H _ Hp) as (b & Hb & Et). exists b. split_and!; [done|done|].
    destruct (or_post _ H b Hb) as (p & Hin & E & Ea & Hf). assert (p = post_of g) as -> by (apply (P.NoDup_map_inj po_task (posts (board s))); [apply H|done|done|by rewrite E, Et]). by apply fits_agrees.
Qed.

(** C7. A dispatch that may write for a task does so where the task was announced: the task is active, its
    announcement, addressed to the room and the thread of the task, was delivered as the event that is the
    task's anchor, and the session of the dispatch is that of the task's agent in that room and thread. *)
Theorem writers_are_announced tr s d t : lives tr s → d ∈ dispatches s → d_may_write d = true → d_task d = Some t →
  ∃ b g x, b ∈ bindings s ∧ b_task b = t ∧ b_state b = "active" ∧ g ∈ orders s ∧ g_task g = t ∧ g_state g = ODelivered ∧ is_Some (g_event g) ∧ b_anchor b = g_event g ∧
    prop (g_payload g) "roomId" = JStr (b_room b) ∧ prop (g_payload g) "threadRootEventId" = JStr (b_thread b) ∧
    x ∈ sessions s ∧ s_id x = d_session d ∧ s_agent x = b_agent b ∧ s_room x = b_room b ∧ s_thread x = Some (b_thread b).
Proof.
  intros H%lives_orderly Hd Hw Ht. destruct (or_rows _ H (row_of d)) with t as (b & Hb & Et & Hs & Hh); [by apply list_elem_of_In, in_map, list_elem_of_In|done|done|].
  destruct (announced_by s b H Hb) as (g & Hg & E & Hr & Hth & Hf).
  apply list_elem_of_In, in_map_iff in Hh as (x & [= H1 H2 H3 H4] & Hx). exists b, g, x.
  assert (Hgd : g_state g = ODelivered ∧ is_Some (g_event g) ∧ b_anchor b = g_event g) by (destruct (g_state g); destruct Hf as [Hf1 Hf2]; [congruence..|by destruct Hf2|congruence]).
  split_and!; try apply Hgd; try done; [congruence|by apply list_elem_of_In].
Qed.

End whole.

(** ** Samples *)

Module IntakeSample.
Import DispatchRouterFacts.RouterSample.

Definition zero (t : string) : num := Fin 0.
Abbreviation act := (act num_str sha256 iso zero 1000).
Abbreviation lives := (lives num_str sha256 iso zero 1000).

Fixpoint live_on (cs : list call) (x : list P.label * DB) : list P.label * DB :=
  match cs with [] => x | c :: cs => live_on cs (let '(ls, s) := act c x.2 in (x.1 ++ ls, s)) end.

Lemma lives_on cs x : forallb sound_call cs = true → lives x.1 x.2 → lives (live_on cs x).1 (live_on cs x).2.
Proof.
  revert x. induction cs as [|c cs IH]; intros [tr s] Hcs H; [done|]. apply andb_true_iff in Hcs as [Hc Hcs]. cbn [live_on fst snd]. apply IH; [done|].
  pose proof (lives_call _ _ _ _ _ tr s c H Hc) as Hl. by destruct (act c s).
Qed.

Definition message (id event : string) (thread : jval) : MessageInput := MkMessageInput (JStr id) (JStr "!room") (JStr event) thread (JStr "@u:h") JUndef (JStr "a1") (JStr "Agent") (JStr "do it") None true.
Definition intent (key root thread : string) : IntentInput := MkIntent (JStr "bot") (JStr key) (JStr "!room") (JStr thread) (JStr root) []
  (MkTaskInput (JStr "t1") (JStr "title") JUndef None None (JStr "a1") (JStr "Agent") JUndef JUndef JUndef []) JUndef.

(** A message that becomes a task, whose announcement is delivered at the second claim. *)
Definition announced : list P.label * DB := live_on
  [Ingest 1 "u0" (message "m1" "$1" JUndef); Intend 2 "u1" "c1" (intent "k1" "m1" "$1"); Intend 3 "u2" "c2" (intent "k1" "m1" "$1"); ClaimOrder 4 "raw1" 1000; Dispatching (Restart (20 * 100));
   ClaimOrder (20 * 100) "raw2" 1000; Announce (20 * 100 + 1) "s1" (JStr "matrix_c1") (JStr "raw1") (JStr "$a"); Announce (20 * 100 + 2) "s1" (JStr "matrix_c1") (JStr "raw2") (JStr "$b")] ([], empty).
(** Work on it, in its thread. *)
Definition worked : list P.label * DB := live_on
  [Dispatching (Enqueue (20 * 100 + 3) "d1" (MkEnqueue (JStr "s1") (JStr "t1") "codex" JUndef JUndef None (JStr "w1") [] true (JObj []))); Delete "t1"] announced.

Lemma lives_announced : lives announced.1 announced.2.
Proof. by apply lives_on; [|constructor]. Qed.
Lemma lives_worked : lives worked.1 worked.2.
Proof. by apply lives_on; [|apply lives_announced]. Qed.

Lemma task_announcements_are_exact_witness : List.map b_state (bindings announced.2) = ["active"] ∧ List.map g_event (orders announced.2) = [Some "$b"] ∧
  ∀ g, g ∈ orders announced.2 → ∃ b, b ∈ bindings announced.2 ∧ b_task b = g_task g ∧ agrees b g.
Proof.
  split_and!; [by vm_compute..|]. destruct (task_announcements_are_exact num_str sha256 iso zero 1000 announced.1 announced.2 lives_announced) as (_ & _ & _ & _ & _ & H). exact H.
Defined.

Lemma writers_are_announced_witness : (d_may_write <$> dispatchOf "d1" worked.2) = Some true ∧ ∃ b, b ∈ bindings worked.2 ∧ b_task b = "t1" ∧ b_anchor b = Some "$b".
Proof.
  split; [by vm_compute|]. destruct (dispatchOf "d1" worked.2) as [d|] eqn:Hd; [|by vm_compute in Hd]. pose proof Hd as Hin. apply P.find_elem in Hin.
  assert (Hd' : (λ d, (d_may_write d, d_task d)) <$> dispatchOf "d1" worked.2 = Some (true, Some "t1")) by by vm_compute. rewrite Hd in Hd'. injection Hd' as Hw Ht.
  destruct (writers_are_announced num_str sha256 iso zero 1000 worked.1 worked.2 d "t1" lives_worked Hin Hw Ht) as (b & g & x & Hb & Et & _ & Hg & _ & _ & _ & Ea & _).
  exists b. split_and!; [done|done|]. rewrite Ea. assert (H : List.map g_event (orders worked.2) = [Some "$b"]) by by vm_compute.
  apply list_elem_of_In, (in_map g_event) in Hg. rewrite H in Hg. by destruct Hg as [<-|[]].
Defined.

(** *** What the model shows of the code *)

(** One input is a message of the room and the other is not. The request is refused, but the first input stays
    attached, although nothing says that the request was made. *)
Example refused_inputs_stay_attached :
  let s := (live_on [Ingest (30 * 100) "u0" (message "m2" "$2" JUndef)] announced).2 in
  let r := attachTaskInputs num_str sha256 1000 (30 * 100 + 1) (MkAttachInput (JStr "t1") (JStr "bot") (JStr "k2") [JStr "m2"; JStr "gone"]) s in
  r.1 = inl (Refused "bad_request") ∧ List.map i_message (inputs r.2) = ["m1"; "m2"] ∧ List.map i_message (inputs s) = ["m1"] ∧ attachments r.2 = [].
Proof. by vm_compute. Qed.

End IntakeSample.
